(* ===== verification/_CoqProject ===== *)
-Q . S2P
Prelude.v
Bytes.v
SortedKV.v
Serializer.v
PageCache.v
BTreeNode.v
BTree.v
Order.v
Datum.v
Raft.v
RaftCluster.v
RaftStorage.v
Transport.v
Transaction.v
Index.v
Admin.v
Evaluator.v
Sessions.v
Queries.v
Documents.v
Sequences.v
Parser.v
Aggregations.v
BTreeTable.v
GoStrings.v
Scram.v
Auth.v
Protocol.v
Listening.v
Driver.v
Pool.v
WebSocket.v
Cluster.v
Removal.v
Rpc.v
HttpApi.v
HttpAccess.v
Startup.v
Cli.v
Joining.v
Lifecycle.v
Served.v
HttpServed.v
