(* ===== verification/Prelude.v ===== *)
(** * GoThinkDB: a verification library

    GoThinkDB ([src/]) is a document database that speaks the ReQL query language of
    RethinkDB.  This library models its Go code and proves what each part promises.

    ** The program and the files that model it

    A query arrives at the protocol server (or the HTTP API) as a JSON value, or as a
    text that the parser turns into one.  The evaluator converts it to a datum and
    runs it over the tables of a database, in a session that carries the user's
    default database and an authorizer.  Tables live in memory, or in a B-tree whose
    nodes are blocks of a page cache over a file.  Beside the query path there are
    Raft for replication, a transaction manager, secondary indexes, the store of
    users and permissions with SCRAM and token authentication, and the membership of
    a cluster.

    - [Prelude]: outcomes of Go code ([Ok], [Err] with the message of the source,
      [Panic], [NoFuel]), the state monad [M], machine integers with their
      wrap-around, generic lemmas on lists and maps, the hints and tactics.
    - [Bytes], [GoStrings], [Order], [SortedKV]: byte strings and little-endian
      integers; the functions of [strings] and [base64]; comparison functions as
      total preorders and sorting; sorted association lists.
    - [Serializer], [PageCache]: internal/storage.  A block file with a free id
      counter and a header block; an LRU cache whose entries are shared pointers.
      [Serializer] is a class with the contract [SerializerSpec]; the cache is proved
      against it, and in turn implements [BlockCache] with [BlockCacheSpec].
    - [BTreeNode], [BTree]: internal/btree.  Nodes, their byte format, splits; the
      tree over any [BlockCacheSpec], refining a sorted map.
    - [Datum], [Index]: pkg/datum and internal/reql/index.go.  Datums over a heap of
      objects, their order and their JSON; secondary indexes.
    - [Admin], [Evaluator], [Sessions], [Queries], [Documents], [Sequences]:
      internal/reql admin.go, session.go, changefeed.go and evaluator.go.  The world
      of databases and tables behind pointers; every term of the evaluator; what all
      queries keep; what single terms compute, and documents as trees of objects in the
      heap; the tables as maps of documents, from JSON query to JSON answer, although
      rows, arguments and results share objects.
    - [Parser]: internal/reql/parser.go, the recursive descent parser of query texts.
    - [Aggregations]: internal/reql aggregations.go, joins.go and geo.go, functions over
      Go maps that no term of the evaluator calls.
    - [BTreeTable]: internal/reql/btree_table.go, tables kept in the B-tree with
      their indexes and change feeds.
    - [Raft], [RaftCluster], [RaftStorage], [Transport]: internal/raft.  One node and its
      handlers; a cluster as a step relation over messages and goroutines; the
      write-ahead log, snapshots, compaction and quorums; the transport, whose
      connections carry the messages of the cluster as texts.
    - [Transaction]: internal/transaction.
    - [Scram], [Auth]: internal/auth.  Users and the SCRAM-SHA-256 exchange; the store
      of users and permissions, its file, and tokens.
    - [Protocol], [Listening]: internal/protocol.  Connections as bytes in segments behind
      a buffered reader, the handshake with SCRAM, and the query loop with its
      goroutines as a step function; the answers on the wire; accepting
      connections and stopping.
    - [Cluster], [Removal], [Joining]: internal/cluster.  Join tokens and members; the
      removal of nodes, transfers and rebalancing with their goroutines as interleaved
      sections; the request to join, sent to [HttpApi].
    - [Rpc]: internal/rpc.  The messages between nodes and their handlers, joining,
      heartbeats, health checks, replication and forwarding over a lossy network.
    - [HttpApi], [HttpAccess]: internal/api.  The multiplexer, the middlewares and every
      handler over the state of the components above, the log and the metrics; what
      requests may change, by whom they are sent.
    - [WebSocket]: internal/api/websocket.go.  The loop of the hub, and the two goroutines
      of each client, as interleaved steps.
    - [Startup], [Cli]: internal/config, cmd.  The settings, and main up to the running
      servers; the command line client as requests to [HttpApi].
    - [Served], [HttpServed]: clients of [Protocol] and of [HttpApi] over [Documents], from
      the handshake, or the token, to the answers.
    - [Lifecycle]: what keeps running.  The goroutines of Raft and of the health monitor
      behind their tickers, the connections of internal/rpc as a refinement of
      [Listening], and the end of main: the signal and the order of shutting down.
    - [Driver], [Pool]: drivers/go.  The builders of queries, the connection seen from the
      client's end of [Protocol], cursors; the pool of connections as runs of steps.

    ** State and effects

    A Go struct is a record.  Where two parts of the program hold a pointer to the
    same object (objects of datums, tables, list elements of the cache, entries of the
    transaction manager) the object lives in a store and the pointer is a location.
    A method is a function of the state to an outcome and the state it leaves, also
    when it fails.  Locks serialise the methods of a component; where the code works
    without a lock across steps (RPCs and tickers of Raft, two readers of the block
    file, the goroutines of a connection) the steps are separate and interleave.

    The order in which a range statement visits a map, the sorting algorithm, random
    numbers, the clock, failures of the operating system, hash functions, and the
    texts of [encoding/json] are parameters.  Each group of parameters is a class; the
    documented behaviour it is relied on for is a second class with suffix [Laws], and
    the witnesses instantiate both.

    ** What the theorems show

    - Storage: the page cache and the B-tree refine maps for every sequence of
      operations, within the fuel; the file and the tree survive a restart; nodes are
      read back as they were written; eviction terminates exactly for a positive size.
    - Datums: [Compare] is a total order on values of bounded depth; objects are
      sorted maps; JSON without pseudo-types is read back as written.
    - Queries: the tables refine maps of JSON documents through [ExecuteJSON], under
      insertion, lookup, update, replacement, filters and deletion; every
      query keeps the store well formed; a session that may only read adds, removes and
      replaces no document, and changes no field of one but by UPDATE; [ORDER_BY],
      [FILTER] and [GROUP] compute what they mean; the parser reads back what is printed
      and never fails to answer.
    - Replication: [AppendEntries] and the write-ahead log as list operations; one
      vote in a term; a failed write stops the log; no step of a cluster panics, and the transport takes the cluster
      through the same states; and, because of mistakes in the code, no entry is ever
      committed and a term may have two leaders.
    - Authentication: the store refines a map of users and one of permissions, the
      file survives failures, the right password and no other gives a token, which
      stands for the user as the store has it, and SCRAM accepts those who know the
      password and those only who show a key with the hash that is stored.
    - Protocol: who gets through the handshake, that an honest client does, that
      queries are answered in order in the session of the user up to the first one
      without an answer, and that a user who may only read adds, removes and replaces no
      document whatever the connection sends, and changes no field of one but by UPDATE;
      stopping waits for every client.  A client that may read and write uses maps of JSON documents, from
      its first byte to the last answer, and so does one over HTTP.
    - Cluster: tokens and members as maps, a token admits one node, also over HTTP, a
      removal comes to its end whatever interleaves with it, and a removed node cannot
      be removed again.
    - RPC: nothing is replicated or forwarded, because the server dispatches neither
      message, and a node that has joined is marked inactive by the next health check.
    - HTTP: only administrators change what is administered, a request without a valid
      token changes nothing, a user who may only read adds, removes and replaces no
      document, except through the routes of tables, which ask for no permission; every answer has the
      form of its status; the log keeps the last messages.
    - Websocket: the loop never panics, and clients receive events in order without gaps.
    - Start-up: no server runs on secrets that nobody set, and the first boot leaves one
      administrator; settings that flags hide.  The command line client is refused.
    - Shutting down: a service that is stopped ends its goroutine; main waits for the
      clients of the protocol server, however long they stay, before it shuts down the
      HTTP server, and then ends.
    - Aggregations: the rows of a join are those of a nested loop, but over lists that
      are always empty in the program; grouping partitions, minimum and maximum
      are extremes of numbers.
    - Driver: its handshake is one that the server refuses; on a connection past it, which
      this server never gives, its calls are the evaluator; a pool hands a connection to one caller at a time,
      within its limit, and a health check repairs it.

    Theorems that exhibit wrong behaviour are stated as such; they are runs of the
    modelled code that contradict what the code, its comments or its documents say.

    ** Fuel and bounds

    Go loops without a structural measure take fuel, and theorems show that a stated
    amount is enough: [bt_fuel] covers every tree since block ids have 32 bits;
    [parse_fuel] is the length of the text; the evaluator takes one step for a level
    of nesting of the query, and beyond that the fuel changes nothing
    ([Sessions.fuel_is_enough]);
    values are compared to the depth [value_fuel], and [deep] says which values that
    covers.  Machine integers are integers with explicit wrap-around at their width
    where a width is visible ([uint16], [uint32], [uint64], [int64]); counters of Raft
    and turns are unbounded.

    ** Not modelled

    - The drivers in Python, Java and JavaScript and the dashboard, which are not Go and
      are clients of the protocols modelled here; printing and logging.
    - The time between the ticks of a ticker: a tick may come at any step.
    - The interleaving of HTTP requests: a request is one step of [HttpApi].
    - The internals of hash functions, bcrypt, PBKDF2, JWT, [encoding/json], [time]
      and [uuid]: parameters.
    - Data races other than those named: a method under a lock is one step. *)

From stdpp Require Export prelude gmap strings list fin_maps sorting pretty.
From Stdlib Require Export ZArith Lia.
From Stdlib Require Import Ascii.

#[export] Set Default Goal Selector "!".

Declare Scope go_scope.
Delimit Scope go_scope with go.
Open Scope go_scope.

(** ** Outcomes of Go code

    A Go function returns a value, returns an [error], panics, or (in the model
    only) stops because the fuel of a loop or a recursion was used up.  Errors
    carry the message text of the source. *)
Inductive outcome (A : Type) : Type :=
| Ok (a : A)
| Err (msg : string)
| Panic
| NoFuel.
Arguments Ok {A} a.
Arguments Err {A} msg.
Arguments Panic {A}.
Arguments NoFuel {A}.

#[global] Instance outcome_eq_dec {A} `{EqDecision A} : EqDecision (outcome A).
Proof. solve_decision. Defined.

Definition outcome_bind {A B} (f : A → outcome B) (o : outcome A) : outcome B :=
  match o with
  | Ok a => f a
  | Err e => Err e
  | Panic => Panic
  | NoFuel => NoFuel
  end.

#[global] Instance outcome_mret : MRet outcome := @Ok.
#[global] Instance outcome_mbind : MBind outcome := @outcome_bind.

(** The state a method leaves behind survives an error return or a panic, so a
    stateful method maps a state to an outcome together with the new state. *)
Definition M (S A : Type) : Type := S → outcome A * S.

Definition M_bind {S A B} (f : A → M S B) (m : M S A) : M S B :=
  λ s, match m s with
       | (Ok a, s') => f a s'
       | (Err e, s') => (Err e, s')
       | (Panic, s') => (Panic, s')
       | (NoFuel, s') => (NoFuel, s')
       end.

#[global] Instance M_mret {S} : MRet (M S) := λ A a s, (Ok a, s).
#[global] Instance M_mbind {S} : MBind (M S) := @M_bind S.

Definition fail {S A} (e : string) : M S A := λ s, (Err e, s).
Definition panic {S A} : M S A := λ s, (Panic, s).
Definition nofuel {S A} : M S A := λ s, (NoFuel, s).
Definition get_state {S} : M S S := λ s, (Ok s, s).
Definition put_state {S} (s : S) : M S unit := λ _, (Ok (), s).
Definition modify {S} (f : S → S) : M S unit := λ s, (Ok (), f s).
Definition lift {S A} (o : outcome A) : M S A := λ s, (o, s).

(** [fmt.Errorf] with a trailing [%w] verb: the message of the wrapped error
    follows the prefix. *)
Definition wrap_err {S A} (prefix : string) (m : M S A) : M S A :=
  λ s, match m s with
       | (Err e, s') => (Err (prefix +:+ ": " +:+ e), s')
       | r => r
       end.

(** Run a method of a component held in a field of a larger state. *)
Definition zoom {S T A} (get : T → S) (set : S → T → T) (m : M S A) : M T A :=
  λ t, let '(r, s') := m (get t) in (r, set s' t).

(** [_, _ = f()]: the error of a call is dropped, its effect is kept. *)
Definition ignore_err {S A} (m : M S A) : M S unit :=
  λ s, match m s with
       | (Ok _, s') | (Err _, s') => (Ok (), s')
       | (Panic, s') => (Panic, s')
       | (NoFuel, s') => (NoFuel, s')
       end.

(** [if err != nil { k }]: the error is handled. *)
Definition catch {S A} (m : M S A) (k : string → M S A) : M S A :=
  λ s, match m s with (Err e, s') => k e s' | r => r end.

(** [for _, x := range l { f(x) }], leaving the loop at the first error. *)
Fixpoint for_each {S A} (f : A → M S unit) (l : list A) : M S unit :=
  match l with
  | [] => mret ()
  | x :: l' => f x;; for_each f l'
  end.

Lemma bind_ok {S A B} (m : M S A) (f : A → M S B) s a s' :
  m s = (Ok a, s') → (m ≫= f) s = f a s'.
Proof. unfold mbind, M_mbind, M_bind. by intros ->. Qed.

Lemma bind_err {S A B} (m : M S A) (f : A → M S B) s e s' :
  m s = (Err e, s') → (m ≫= f) s = (Err e, s').
Proof. unfold mbind, M_mbind, M_bind. by intros ->. Qed.

Lemma bind_inv_ok {S A B} (m : M S A) (f : A → M S B) s b s' :
  (m ≫= f) s = (Ok b, s') → ∃ a s1, m s = (Ok a, s1) ∧ f a s1 = (Ok b, s').
Proof.
  unfold mbind, M_mbind, M_bind. destruct (m s) as [[a| | |] s1] eqn:?; naive_solver.
Qed.

Lemma mapM_cons_ok {S A B} (f : A → M S B) x l s y s1 ys s2 :
  f x s = (Ok y, s1) → mapM f l s1 = (Ok ys, s2) → mapM f (x :: l) s = (Ok (y :: ys), s2).
Proof. intros Hx Hl. cbn [mapM]. rewrite (bind_ok _ _ _ _ _ Hx). by rewrite (bind_ok _ _ _ _ _ Hl). Qed.

Lemma zoom_ok {S T A} (get : T → S) (set : S → T → T) (m : M S A) t r s' :
  m (get t) = (r, s') → zoom get set m t = (r, set s' t).
Proof. unfold zoom. by intros ->. Qed.

Lemma wrap_err_ok {S A} p (m : M S A) s a s' :
  m s = (Ok a, s') → wrap_err p m s = (Ok a, s').
Proof. unfold wrap_err. by intros ->. Qed.

Lemma wrap_err_inv {S A} p (m : M S A) s x s' : wrap_err p m s = (Ok x, s') → m s = (Ok x, s').
Proof. unfold wrap_err. by destruct (m s) as [[]]. Qed.

(** [mstep H] runs the first command of a monadic computation by the equation
    [H]; [mrun] runs the primitive commands. *)
Ltac mstep H := rewrite (bind_ok _ _ _ _ _ H).
Ltac mrun := unfold mbind, M_mbind, M_bind, mret, M_mret, get_state, put_state,
  modify, lift, fail; cbn.

(** [osteps] runs the successful commands of an [outcome] computation. *)
Ltac osteps := repeat (change (Ok ?x ≫= ?f) with (f x); cbn beta).

(** ** What a computation does to its state *)

(** A computation goes from a state to a related one, whatever its outcome. *)
Definition respects {S A} (R : relation S) (m : M S A) : Prop := ∀ s, R s (m s).2.

Section respects.
Context {S : Type} (R : relation S) `{!PreOrder R}.

Lemma respects_ret {A} (x : A) : respects R (mret x).
Proof. by intros s. Qed.
Lemma respects_fail {A} e : respects R (fail (A := A) e).
Proof. by intros s. Qed.
Lemma respects_panic {A} : respects R (panic (A := A)).
Proof. by intros s. Qed.
Lemma respects_get : respects R get_state.
Proof. by intros s. Qed.
Lemma respects_bind {A B} (m : M S A) (f : A → M S B) : respects R m → (∀ x, respects R (f x)) → respects R (m ≫= f).
Proof.
  intros Hm Hf s. unfold mbind, M_mbind, M_bind. specialize (Hm s). destruct (m s) as [[x|e| |] s1]; try done.
  etransitivity; [exact Hm|apply Hf].
Qed.
Lemma respects_catch {A} (m : M S A) k : respects R m → (∀ e, respects R (k e)) → respects R (catch m k).
Proof. intros Hm Hk s. unfold catch. specialize (Hm s). destruct (m s) as [[x|e| |] s1]; try done. etransitivity; [exact Hm|apply Hk]. Qed.
Lemma respects_ignore {A} (m : M S A) : respects R m → respects R (ignore_err m).
Proof. intros Hm s. unfold ignore_err. specialize (Hm s). by destruct (m s) as [[x|e| |] s1]. Qed.
Lemma respects_wrap {A} p (m : M S A) : respects R m → respects R (wrap_err p m).
Proof. intros Hm s. unfold wrap_err. specialize (Hm s). by destruct (m s) as [[x|e| |] s1]. Qed.
Lemma respects_modify f : (∀ s, R s (f s)) → respects R (modify f).
Proof. intros Hf s. apply Hf. Qed.
Lemma respects_for_each {A} (f : A → M S unit) l : (∀ x, respects R (f x)) → respects R (for_each f l).
Proof. intros Hf. induction l as [|x l IH]; [apply respects_ret|]. apply respects_bind; [apply Hf|by intros []]. Qed.
Lemma respects_lift {A} (o : outcome A) : respects R (lift o).
Proof. by intros s. Qed.
Lemma respects_mapM {A B} (f : A → M S B) l : (∀ x, x ∈ l → respects R (f x)) → respects R (mapM f l).
Proof.
  induction l as [|x l IH]; intros Hf; [apply respects_ret|]. cbn [mapM]. apply respects_bind; [apply Hf; by left|]. intros y.
  apply respects_bind; [apply IH; intros; apply Hf; by right|]. intros ys. apply respects_ret.
Qed.
End respects.

(** A predicate as the relation that keeps it. *)
Definition keeping {S} (P : S → Prop) : relation S := λ s s', P s → P s'.
#[export] Instance keeping_preorder {S} (P : S → Prop) : PreOrder (keeping P).
Proof. split; [intros s; exact (λ Hs, Hs)|]. intros s1 s2 s3 Hs1 Hs2 Hs. by apply Hs2, Hs1. Qed.

Lemma keeping_run {S A} (P : S → Prop) (m : M S A) s r s' : respects (keeping P) m → m s = (r, s') → P s → P s'.
Proof. intros Hm Hr. specialize (Hm s). by rewrite Hr in Hm. Qed.

Create HintDb respects.
#[export] Hint Resolve respects_ret respects_fail respects_panic respects_get respects_lift : respects.
Ltac respects_step :=
  lazymatch goal with
  | |- respects _ (_ ≫= _) => apply respects_bind; [try apply _| |intros ?]
  | |- respects _ (for_each _ _) => apply respects_for_each; [try apply _|intros ?]
  | |- respects _ (catch _ _) => apply respects_catch; [try apply _| |intros ?]
  | |- respects _ (ignore_err _) => apply respects_ignore
  | |- respects _ (wrap_err _ _) => apply respects_wrap
  | |- respects _ (modify _) => apply respects_modify; intros ?
  | |- respects _ (match ?x with _ => _ end) => destruct x
  | |- respects _ _ => solve [eauto with respects]
  end.
Ltac respects_auto := repeat (cbv zeta; respects_step).

(** ** Lists *)

Lemma forallb_Forall {A} (f : A → bool) l : forallb f l = true ↔ Forall (λ x, f x = true) l.
Proof. rewrite forallb_forall, Forall_forall. by setoid_rewrite list_elem_of_In. Qed.

(** ** Maps *)

Lemma foldl_delete_lookup {A} (keys : list string) (m : gmap string A) k :
  foldl (λ m k, delete k m) m keys !! k = if decide (k ∈ keys) then None else m !! k.
Proof.
  revert m. induction keys as [|x keys IH]; intros m; [done|]. cbn [foldl]. rewrite IH. destruct (decide (k = x)) as [->|Hne].
  - rewrite lookup_delete_eq. rewrite (decide_True (P := x ∈ x :: keys)) by (by left). by destruct (decide _).
  - rewrite lookup_delete_ne by done. destruct (decide (k ∈ keys)) as [Hin|Hni].
    + by rewrite decide_True by (by right).
    + by rewrite decide_False by set_solver.
Qed.

(** ** Fixed-width integers *)

Definition uint16 (z : Z) : Z := z mod 2 ^ 16.
Definition uint32 (z : Z) : Z := z mod 2 ^ 32.
Definition uint64 (z : Z) : Z := z mod 2 ^ 64.
(** Two's complement 64-bit wrap-around ([int] and [int64]). *)
Definition int64 (z : Z) : Z := (z + 2 ^ 63) mod 2 ^ 64 - 2 ^ 63.

Lemma uint16_small z : (0 ≤ z < 65536)%Z → uint16 z = z.
Proof. intros. unfold uint16. apply Z.mod_small. lia. Qed.
Lemma uint32_small z : (0 ≤ z < 4294967296)%Z → uint32 z = z.
Proof. intros. unfold uint32. apply Z.mod_small. lia. Qed.
Lemma int64_small z : (- 2 ^ 63 ≤ z < 2 ^ 63)%Z → int64 z = z.
Proof. intros. unfold int64. rewrite Z.mod_small; lia. Qed.
Lemma int64_range z : (- 2 ^ 63 ≤ int64 z < 2 ^ 63)%Z.
Proof. unfold int64. pose proof (Z.mod_pos_bound (z + 2 ^ 63) (2 ^ 64)). lia. Qed.

Create HintDb go discriminated.
Create Rewrite HintDb go_rw.
#[export] Hint Rewrite uint16_small uint32_small int64_small using lia : go_rw.

(** ** Lists *)

Lemma elem_of_snoc {A} (x : A) l : x ∈ l ++ [x].
Proof. apply elem_of_app. right. by apply list_elem_of_singleton. Qed.
Lemma elem_of_app_left {A} (x : A) l k : x ∈ l → x ∈ l ++ k.
Proof. intros. apply elem_of_app. by left. Qed.
Lemma elem_of_app_right {A} (x : A) l k : x ∈ k → x ∈ l ++ k.
Proof. intros. apply elem_of_app. by right. Qed.
#[export] Hint Resolve elem_of_snoc elem_of_app_left elem_of_app_right : go.

Lemma filter_all {A} (P : A → Prop) `{∀ x, Decision (P x)} l : Forall P l → filter P l = l.
Proof. induction 1; [done|]. rewrite filter_cons_True by done. by f_equal. Qed.
Lemma filter_none {A} (P : A → Prop) `{∀ x, Decision (P x)} l : Forall (λ x, ¬ P x) l → filter P l = [].
Proof. induction 1; [done|]. by rewrite filter_cons_False. Qed.

(** ** Slices

    Indexing and slicing out of range panic in Go. *)

Definition go_index {A} (l : list A) (i : nat) : outcome A :=
  match l !! i with Some x => Ok x | None => Panic end.
Definition go_set {A} (l : list A) (i : nat) (x : A) : outcome (list A) :=
  if bool_decide (i < length l) then Ok (<[i := x]> l) else Panic.
(** [l[:i]] (within the length) and [l[i:]]. *)
Definition slice_to {A} (l : list A) (i : nat) : outcome (list A) :=
  if bool_decide (i ≤ length l) then Ok (take i l) else Panic.
Definition slice_from {A} (l : list A) (i : nat) : outcome (list A) :=
  if bool_decide (i ≤ length l) then Ok (drop i l) else Panic.
(** Grow by one, shift the tail by [copy], store [x] at [i]. *)
Definition slice_insert {A} (l : list A) (i : nat) (x : A) : outcome (list A) :=
  if bool_decide (i ≤ length l) then Ok (take i l ++ x :: drop i l) else Panic.
(** [append(l[:i], l[i+1:]...)] *)
Definition slice_remove {A} (l : list A) (i : nat) : outcome (list A) :=
  if bool_decide (i < length l) then Ok (take i l ++ drop (S i) l) else Panic.

Lemma go_index_ok {A} (l : list A) i x : l !! i = Some x → go_index l i = Ok x.
Proof. unfold go_index. by intros ->. Qed.
Lemma slice_to_ok {A} (l : list A) i : i ≤ length l → slice_to l i = Ok (take i l).
Proof. intros. unfold slice_to. by rewrite bool_decide_eq_true_2. Qed.
Lemma slice_from_ok {A} (l : list A) i : i ≤ length l → slice_from l i = Ok (drop i l).
Proof. intros. unfold slice_from. by rewrite bool_decide_eq_true_2. Qed.
Lemma slice_insert_ok {A} (l : list A) i x :
  i ≤ length l → slice_insert l i x = Ok (take i l ++ x :: drop i l).
Proof. intros. unfold slice_insert. by rewrite bool_decide_eq_true_2. Qed.
Lemma slice_remove_ok {A} (l : list A) i :
  i < length l → slice_remove l i = Ok (take i l ++ drop (S i) l).
Proof. intros. unfold slice_remove. by rewrite bool_decide_eq_true_2. Qed.
Lemma go_set_ok {A} (l : list A) i x : i < length l → go_set l i x = Ok (<[i := x]> l).
Proof. intros. unfold go_set. by rewrite bool_decide_eq_true_2. Qed.
#[export] Hint Rewrite @slice_to_ok @slice_from_ok @slice_insert_ok @slice_remove_ok @go_set_ok
  using (rewrite ?length_app, ?length_take, ?length_drop, ?length_fmap; simpl; lia) : go_rw.

Lemma fmap_slice_insert {A B} (f : A → B) l i x :
  take i (f <$> l) ++ f x :: drop i (f <$> l) = f <$> (take i l ++ x :: drop i l).
Proof. by rewrite fmap_app, fmap_cons, fmap_take, fmap_drop. Qed.
Lemma fmap_slice_remove {A B} (f : A → B) l i :
  take i (f <$> l) ++ drop (S i) (f <$> l) = f <$> (take i l ++ drop (S i) l).
Proof. by rewrite fmap_app, fmap_take, fmap_drop. Qed.
