(* ===== verification/Bytes.v ===== *)
(** * Bytes, little-endian integers and readers

    What the storage code uses of Go's [bytes] and [encoding/binary] packages:
    byte slices compared lexicographically ([bytes.Compare], [bytes.Equal]),
    fixed-width little-endian integers ([binary.Write], [binary.Read]) and a
    [bytes.Reader] as the list of bytes not read yet. *)

From S2P Require Import Prelude.
From Stdlib Require Import Strings.Byte.

Abbreviation byte := Byte.byte.

#[global] Instance byte_eq_dec : EqDecision byte := Byte.byte_eq_dec.

Definition Z_of_byte (b : byte) : Z := Z.of_N (Byte.to_N b).
Definition byte_of_Z (z : Z) : byte :=
  default Byte.x00 (Byte.of_N (Z.to_N (z mod 256))).

Lemma Z_of_byte_range b : (0 ≤ Z_of_byte b < 256)%Z.
Proof. unfold Z_of_byte. pose proof (Byte.to_N_bounded b). lia. Qed.

Lemma byte_of_Z_of_byte b : byte_of_Z (Z_of_byte b) = b.
Proof.
  unfold byte_of_Z. pose proof (Z_of_byte_range b) as Hr.
  rewrite Z.mod_small by lia. unfold Z_of_byte.
  rewrite N2Z.id, Byte.of_to_N. done.
Qed.

Lemma Z_of_byte_of_Z z : Z_of_byte (byte_of_Z z) = (z mod 256)%Z.
Proof.
  unfold byte_of_Z. pose proof (Z.mod_pos_bound z 256 ltac:(lia)) as Hr.
  destruct (Byte.of_N (Z.to_N (z mod 256))) as [b|] eqn:E; simpl.
  - apply Byte.to_of_N in E. unfold Z_of_byte. rewrite E. lia.
  - apply Byte.of_N_None_iff in E. lia.
Qed.

Lemma Z_of_byte_inj a b : Z_of_byte a = Z_of_byte b → a = b.
Proof. intros H. rewrite <- (byte_of_Z_of_byte a), H. apply byte_of_Z_of_byte. Qed.

#[global] Program Instance byte_countable : Countable byte :=
  inj_countable' Z_of_byte byte_of_Z byte_of_Z_of_byte.

(** ** [bytes.Compare] *)

Fixpoint bytes_Compare (a b : list byte) : comparison :=
  match a, b with
  | [], [] => Eq
  | [], _ :: _ => Lt
  | _ :: _, [] => Gt
  | x :: a', y :: b' =>
      match Z.compare (Z_of_byte x) (Z_of_byte y) with
      | Eq => bytes_Compare a' b'
      | c => c
      end
  end.

Definition bytes_Equal (a b : list byte) : bool := bool_decide (a = b).

Definition bytes_lt (a b : list byte) : Prop := bytes_Compare a b = Lt.
Definition bytes_le (a b : list byte) : Prop := bytes_Compare a b ≠ Gt.
Infix "≺" := bytes_lt (at level 70) : go_scope.
Infix "≼" := bytes_le (at level 70) : go_scope.

#[global] Instance bytes_lt_dec a b : Decision (a ≺ b).
Proof. unfold bytes_lt. solve_decision. Defined.
#[global] Instance bytes_le_dec a b : Decision (a ≼ b).
Proof. unfold bytes_le. solve_decision. Defined.

Lemma bytes_Compare_refl a : bytes_Compare a a = Eq.
Proof. induction a as [|x a IH]; simpl; [done|]. by rewrite Z.compare_refl. Qed.

Lemma bytes_Compare_eq a b : bytes_Compare a b = Eq ↔ a = b.
Proof.
  split; [|intros ->; apply bytes_Compare_refl].
  revert b; induction a as [|x a IH]; intros [|y b]; simpl; try done.
  destruct (Z.compare_spec (Z_of_byte x) (Z_of_byte y)) as [E| |]; try done.
  intros H. apply Z_of_byte_inj in E. f_equal; auto.
Qed.

Lemma bytes_Compare_antisym a b : bytes_Compare b a = CompOpp (bytes_Compare a b).
Proof.
  revert b; induction a as [|x a IH]; intros [|y b]; simpl; try done.
  rewrite (Z.compare_antisym (Z_of_byte x) (Z_of_byte y)).
  destruct (Z.compare (Z_of_byte x) (Z_of_byte y)); simpl; auto.
Qed.

Lemma bytes_lt_trans_aux a b c : a ≺ b → b ≺ c → a ≺ c.
Proof.
  unfold bytes_lt. revert b c; induction a as [|x a IH]; intros [|y b] [|z c]; simpl; try done.
  destruct (Z.compare_spec (Z_of_byte x) (Z_of_byte y)) as [E1|E1|E1]; try done;
  destruct (Z.compare_spec (Z_of_byte y) (Z_of_byte z)) as [E2|E2|E2]; try done;
  destruct (Z.compare_spec (Z_of_byte x) (Z_of_byte z)) as [E3|E3|E3]; try done; try lia.
  apply IH.
Qed.

#[global] Instance bytes_lt_strict : StrictOrder bytes_lt.
Proof.
  split.
  - intros a. unfold complement, bytes_lt. by rewrite bytes_Compare_refl.
  - intros a b c. apply bytes_lt_trans_aux.
Qed.

Lemma bytes_lt_irrefl a : ¬ a ≺ a.
Proof. exact (irreflexivity bytes_lt a). Qed.

Lemma bytes_trichotomy a b : a ≺ b ∨ a = b ∨ b ≺ a.
Proof.
  unfold bytes_lt. rewrite (bytes_Compare_antisym a b).
  destruct (bytes_Compare a b) eqn:E; simpl; auto.
  right; left. by apply bytes_Compare_eq.
Qed.

Lemma bytes_le_lt_iff a b : a ≼ b ↔ ¬ b ≺ a.
Proof.
  unfold bytes_le, bytes_lt. rewrite (bytes_Compare_antisym a b).
  destruct (bytes_Compare a b); simpl; split; congruence.
Qed.

Lemma bytes_le_cases a b : a ≼ b ↔ a ≺ b ∨ a = b.
Proof.
  rewrite bytes_le_lt_iff. split.
  - destruct (bytes_trichotomy a b) as [?|[?|?]]; naive_solver.
  - intros [H| ->] H'; [|by apply bytes_lt_irrefl in H'].
    by apply (bytes_lt_irrefl a); transitivity b.
Qed.

Lemma bytes_lt_le_trans a b c : a ≺ b → b ≼ c → a ≺ c.
Proof. rewrite bytes_le_cases. intros H [H'| <-]; [by transitivity b|done]. Qed.
Lemma bytes_le_lt_trans a b c : a ≼ b → b ≺ c → a ≺ c.
Proof. rewrite bytes_le_cases. intros [H| ->] H'; [by transitivity b|done]. Qed.
Lemma bytes_lt_le a b : a ≺ b → a ≼ b.
Proof. rewrite bytes_le_cases. auto. Qed.
Lemma bytes_le_refl a : a ≼ a.
Proof. rewrite bytes_le_cases. auto. Qed.
Lemma bytes_lt_ne a b : a ≺ b → a ≠ b.
Proof. intros H ->. by apply bytes_lt_irrefl in H. Qed.
Lemma bytes_nil_le a : [] ≼ a.
Proof. destruct a; discriminate. Qed.

#[export] Hint Resolve bytes_lt_le bytes_le_refl bytes_lt_irrefl bytes_nil_le
  bytes_lt_le_trans bytes_le_lt_trans : go.

(** ** Little-endian integers *)

Fixpoint le_bytes (n : nat) (z : Z) : list byte :=
  match n with
  | O => []
  | S n' => byte_of_Z z :: le_bytes n' (z / 256)
  end.

Fixpoint le_value (bs : list byte) : Z :=
  match bs with
  | [] => 0
  | b :: bs' => Z_of_byte b + 256 * le_value bs'
  end.

Lemma length_le_bytes n z : length (le_bytes n z) = n.
Proof. revert z; induction n; intros; simpl; auto. Qed.

Lemma le_value_range bs : (0 ≤ le_value bs < 256 ^ Z.of_nat (length bs))%Z.
Proof.
  induction bs as [|b bs IH]; [simpl; lia|]. cbn [le_value length].
  rewrite Nat2Z.inj_succ, Z.pow_succ_r by lia. pose proof (Z_of_byte_range b). nia.
Qed.

Lemma le_value_le_bytes n z : le_value (le_bytes n z) = (z mod 256 ^ Z.of_nat n)%Z.
Proof.
  revert z; induction n as [|n IH]; intros z; cbn [le_bytes le_value].
  - simpl. by rewrite Z.mod_1_r.
  - rewrite IH, Z_of_byte_of_Z, Nat2Z.inj_succ, Z.pow_succ_r by lia.
    rewrite Z.rem_mul_r; lia.
Qed.

Lemma le_bytes_le_value bs : le_bytes (length bs) (le_value bs) = bs.
Proof.
  induction bs as [|b bs IH]; [done|]. cbn [le_value length le_bytes].
  pose proof (Z_of_byte_range b). f_equal.
  - apply Z_of_byte_inj. rewrite Z_of_byte_of_Z.
    rewrite (Z.mul_comm 256), Z.mod_add by lia. apply Z.mod_small; lia.
  - replace ((Z_of_byte b + 256 * le_value bs) / 256)%Z with (le_value bs); [done|].
    rewrite (Z.mul_comm 256), Z.div_add, (Z.div_small (Z_of_byte b)); lia.
Qed.

(** ** [bytes.Reader] *)

(** [binary.Read] of an [n]-byte integer: [io.ReadFull] consumes the bytes that
    are left; the destination keeps its value when there are fewer than [n]. *)
Definition binary_Read (n : nat) (old : Z) (r : list byte) : Z * list byte :=
  if bool_decide (n ≤ length r) then (le_value (take n r), drop n r) else (old, []).

(** [Reader.Read] into a buffer of [n] zero bytes. *)
Definition Reader_Read (n : nat) (r : list byte) : list byte * list byte :=
  (take n r ++ replicate (n - length r) Byte.x00, drop n r).

Lemma binary_Read_app n z old r :
  binary_Read n old (le_bytes n z ++ r) = ((z mod 256 ^ Z.of_nat n)%Z, r).
Proof.
  unfold binary_Read. rewrite bool_decide_eq_true_2.
  - rewrite take_app_length', drop_app_length' by (by rewrite length_le_bytes).
    by rewrite le_value_le_bytes.
  - rewrite length_app, length_le_bytes. lia.
Qed.

Lemma Reader_Read_app bs r : Reader_Read (length bs) (bs ++ r) = (bs, r).
Proof.
  unfold Reader_Read. rewrite take_app_length, drop_app_length.
  replace (length bs - length (bs ++ r)) with 0 by (rewrite length_app; lia).
  simpl. by rewrite app_nil_r.
Qed.

Lemma length_Reader_Read n r : length (Reader_Read n r).1 = n.
Proof.
  unfold Reader_Read; cbn. rewrite length_app, length_take, length_replicate. lia.
Qed.

(** ** Texts for the examples

    The digits of an encoding, as bytes. *)

Fixpoint example_bits (p : positive) : list byte :=
  match p with xH => [Byte.x31] | xO p => Byte.x30 :: example_bits p | xI p => Byte.x32 :: example_bits p end.
Fixpoint example_unbits (l : list byte) : positive :=
  match l with
  | [] => 1
  | b :: l => if bool_decide (b = Byte.x30) then (example_unbits l)~0 else if bool_decide (b = Byte.x32) then (example_unbits l)~1 else 1
  end.
Lemma example_bits_back p : example_unbits (example_bits p) = p.
Proof. induction p as [p IH|p IH|]; cbn; [by rewrite IH..|done]. Qed.
Lemma example_bits_not_nil p : example_bits p ≠ [].
Proof. by destruct p. Qed.
