(* ===== verification/SortedKV.v ===== *)
(** * Sorted association lists

    The contents of a B-tree in key order, and their reading as a finite map:
    the specification the tree is checked against. *)

From S2P Require Import Prelude Bytes.

Abbreviation key := (list byte) (only parsing).
Abbreviation kv := (list byte * list byte)%type (only parsing).

Fixpoint insert_kv (k v : list byte) (l : list kv) : list kv :=
  match l with
  | [] => [(k, v)]
  | (k', v') :: l' =>
      match bytes_Compare k' k with
      | Lt => (k', v') :: insert_kv k v l'
      | Eq => (k, v) :: l'
      | Gt => (k, v) :: (k', v') :: l'
      end
  end.

Definition delete_kv (k : list byte) (l : list kv) : list kv := filter (λ e, e.1 ≠ k) l.

Definition in_scan (lo : list byte) (hi : option (list byte)) (e : kv) : Prop :=
  lo ≼ e.1 ∧ match hi with Some h => e.1 ≼ h | None => True end.
#[global] Instance in_scan_dec lo hi e : Decision (in_scan lo hi e).
Proof. unfold in_scan. destruct hi; solve_decision. Defined.

(** Keys strictly increasing. *)
Fixpoint kv_sorted (l : list kv) : Prop :=
  match l with
  | [] => True
  | (k, _) :: l' => Forall (λ e, k ≺ e.1) l' ∧ kv_sorted l'
  end.

Definition kv_map (l : list kv) : gmap (list byte) (list byte) := list_to_map l.

Lemma kv_sorted_app l1 l2 :
  kv_sorted (l1 ++ l2) ↔
    kv_sorted l1 ∧ kv_sorted l2 ∧ Forall (λ e1, Forall (λ e2, e1.1 ≺ e2.1) l2) l1.
Proof.
  induction l1 as [|[k v] l1 IH]; simpl.
  - split; [auto|tauto].
  - rewrite Forall_app, IH, Forall_cons. simpl. tauto.
Qed.

Lemma kv_sorted_NoDup l : kv_sorted l → NoDup l.*1.
Proof.
  induction l as [|[k v] l IH]; simpl; [constructor|]. intros [Hk Hl]. constructor; [|auto].
  intros ([k' v'] & Heq & Hin)%list_elem_of_fmap. simpl in *. subst.
  rewrite Forall_forall in Hk. by apply (bytes_lt_irrefl k'), (Hk (k', v')).
Qed.

Lemma kv_sorted_keys l : kv_sorted l → StronglySorted bytes_lt l.*1.
Proof.
  induction l as [|[k v] l IH]; [constructor|]. intros [Hk Hl]. constructor; [by apply IH|].
  apply Forall_fmap. eapply Forall_impl; [exact Hk|done].
Qed.

Lemma Compare_Lt a b : a ≺ b → bytes_Compare a b = Lt.
Proof. done. Qed.
Lemma Compare_Gt a b : b ≺ a → bytes_Compare a b = Gt.
Proof. unfold bytes_lt. rewrite (bytes_Compare_antisym b a). by intros ->. Qed.

(** The three cases of a comparison, with the facts as hypotheses. *)
Ltac compare_cases a b :=
  destruct (bytes_trichotomy a b) as [?|[->|?]];
  [rewrite (Compare_Lt a b) by done
  |rewrite ?bytes_Compare_refl
  |rewrite (Compare_Gt a b) by done].

(** Only the part of the list around the key is affected. *)
Lemma insert_kv_app k v l1 l l2 :
  Forall (λ e, e.1 ≺ k) l1 → Forall (λ e, k ≺ e.1) l2 →
  insert_kv k v (l1 ++ l ++ l2) = l1 ++ insert_kv k v l ++ l2.
Proof.
  intros H1 H2. induction H1 as [|[k' v'] l1 Hk _ IH]; simpl in *.
  - induction l as [|[k' v'] l IH]; simpl.
    + destruct H2 as [|[k' v'] l2 Hk]; simpl in *; [done|]. by rewrite Compare_Gt.
    + destruct (bytes_Compare k' k); [done| |done]. by rewrite IH.
  - by rewrite Compare_Lt, IH.
Qed.

Lemma delete_kv_notin k l : Forall (λ e, e.1 ≠ k) l → delete_kv k l = l.
Proof.
  unfold delete_kv. induction 1; [done|]. rewrite filter_cons_True by done. by f_equal.
Qed.

Lemma delete_kv_app k l1 l l2 :
  Forall (λ e, e.1 ≺ k) l1 → Forall (λ e, k ≺ e.1) l2 →
  delete_kv k (l1 ++ l ++ l2) = l1 ++ delete_kv k l ++ l2.
Proof.
  intros H1 H2. unfold delete_kv. rewrite !filter_app. f_equal; [|f_equal]; apply delete_kv_notin.
  - eapply Forall_impl; [done|]. simpl. intros e He. by apply bytes_lt_ne.
  - eapply Forall_impl; [done|]. simpl. intros e He Heq. by apply bytes_lt_ne in He.
Qed.

Lemma insert_kv_Forall (P : kv → Prop) k v l : P (k, v) → Forall P l → Forall P (insert_kv k v l).
Proof.
  intros Hkv. induction 1 as [|[k' v'] l He Hl IH]; simpl; [by constructor|].
  destruct (bytes_Compare k' k); repeat constructor; auto.
Qed.

Lemma Forall_filter_sub {A} (P Q : A → Prop) `{∀ x, Decision (Q x)} l :
  Forall P l → Forall P (filter Q l).
Proof.
  rewrite !Forall_forall. intros HP x [_ Hx]%list_elem_of_filter. auto.
Qed.

Lemma delete_kv_Forall (P : kv → Prop) k l : Forall P l → Forall P (delete_kv k l).
Proof. intros. by apply Forall_filter_sub. Qed.

Lemma insert_kv_sorted k v l : kv_sorted l → kv_sorted (insert_kv k v l).
Proof.
  induction l as [|[k' v'] l IH]; simpl; [repeat constructor|]. intros [Hk Hl].
  compare_cases k' k; simpl; split; auto.
  - by apply insert_kv_Forall.
  - constructor; [done|]. eapply Forall_impl; [done|]. simpl. intros e He. by transitivity k'.
Qed.

Lemma delete_kv_sorted k l : kv_sorted l → kv_sorted (delete_kv k l).
Proof.
  unfold delete_kv. induction l as [|[k' v'] l IH]; [done|]. intros [Hk Hl].
  rewrite filter_cons. case_decide; simpl; [|auto]. split; [|auto]. by apply Forall_filter_sub.
Qed.

Lemma kv_map_insert k v l : kv_sorted l → kv_map (insert_kv k v l) = <[k := v]> (kv_map l).
Proof.
  unfold kv_map. induction l as [|[k' v'] l IH]; [done|]. intros [Hk Hl]. cbn [insert_kv].
  compare_cases k' k.
  - simpl. rewrite IH by done. apply insert_insert_ne. intros ->. by apply bytes_lt_irrefl in H.
  - simpl. by rewrite insert_insert_eq.
  - done.
Qed.

Lemma kv_map_delete k l : kv_sorted l → kv_map (delete_kv k l) = delete k (kv_map l).
Proof.
  unfold kv_map, delete_kv. induction l as [|[k' v'] l IH].
  { intros _. simpl. by rewrite delete_empty. }
  intros [Hk Hl]. rewrite filter_cons. case_decide as Hd; simpl in *.
  - rewrite IH by done. by rewrite delete_insert_ne.
  - assert (k' = k) as -> by (destruct (decide (k' = k)); [done|tauto]).
    rewrite delete_insert_eq, IH by done. done.
Qed.

Lemma kv_map_lookup_app k l1 l l2 :
  Forall (λ e, e.1 ≺ k) l1 → Forall (λ e, k ≺ e.1) l2 →
  kv_map (l1 ++ l ++ l2) !! k = kv_map l !! k.
Proof.
  intros H1 H2. unfold kv_map. rewrite !list_to_map_app, !lookup_union.
  rewrite (not_elem_of_list_to_map_1 l1), (not_elem_of_list_to_map_1 l2).
  - by rewrite (left_id_L None _), (right_id_L None _).
  - intros (e & -> & He)%list_elem_of_fmap. rewrite Forall_forall in H2. by eapply bytes_lt_irrefl, H2.
  - intros (e & -> & He)%list_elem_of_fmap. rewrite Forall_forall in H1. by eapply bytes_lt_irrefl, H1.
Qed.

Lemma kv_sorted_filter (P : kv → Prop) `{∀ e, Decision (P e)} l : kv_sorted l → kv_sorted (filter P l).
Proof.
  induction l as [|[k v] l IH]; [done|]. intros [Hk Hl]. rewrite filter_cons. case_decide; [|auto].
  split; [by apply Forall_filter_sub|auto].
Qed.
