(* ===== verification/Serializer.v ===== *)
(** * Block storage ([internal/storage]: block.go, serializer.go, file_serializer.go)

    [Block] is the fixed-size block, [Serializer] the Go interface of the same
    name as a type class of operations, [SerializerSpec] the contract its
    clients rely on, and [FileSerializer] the implementation over one file.
    Operating-system calls consume a script of faults ([f_faults]); an empty
    script is a healthy disk. *)

From S2P Require Import Prelude Bytes.

(** ** block.go *)

Definition BlockSize : nat := Z.to_nat 4096.
Lemma BlockSize_val : Z.of_nat BlockSize = 4096%Z.
Proof. reflexivity. Qed.
Lemma BlockSize_pos : 0 < BlockSize.
Proof. pose proof BlockSize_val. lia. Qed.
#[global] Opaque BlockSize.

Abbreviation BlockID := Z (only parsing).
Definition InvalidBlockID : BlockID := 0%Z.

(** [*[BlockSize]byte]: a list of exactly [BlockSize] bytes ([block_ok]). *)
Abbreviation Block := (list byte) (only parsing).
Definition block_ok (b : Block) : Prop := length b = BlockSize.

Definition NewBlock : Block := replicate BlockSize Byte.x00.

(** [copy(block[:], data)] into a zero block: what does not fit is dropped. *)
Definition NewBlockFromData (data : list byte) : Block :=
  take BlockSize data ++ replicate (BlockSize - length data) Byte.x00.

Definition IsZero (b : Block) : bool := forallb (λ x, bool_decide (x = Byte.x00)) b.
Definition Clone (b : Block) : Block := b.

Lemma NewBlock_ok : block_ok NewBlock.
Proof. apply length_replicate. Qed.
Lemma NewBlockFromData_ok data : block_ok (NewBlockFromData data).
Proof.
  unfold block_ok, NewBlockFromData. rewrite length_app, length_take, length_replicate. lia.
Qed.
Lemma NewBlockFromData_fits data :
  length data ≤ BlockSize →
  NewBlockFromData data = data ++ replicate (BlockSize - length data) Byte.x00.
Proof. intros. unfold NewBlockFromData. by rewrite take_ge. Qed.
#[export] Hint Resolve NewBlock_ok NewBlockFromData_ok : go.

(** ** serializer.go: the interface *)

Definition ErrInvalidBlockID : string := "invalid block ID".
Definition ErrSerializerClosed : string := "serializer is closed".

Class Serializer (S : Type) := {
  BlockRead : BlockID → M S Block;
  BlockWrite : BlockID → Block → M S BlockID;
  BlockDelete : BlockID → M S unit;
  EndBlockID : S → BlockID;
  Flush : M S unit;
  Close : M S unit;
}.

(** What a healthy serializer promises: it behaves as a map from block ids to
    blocks, and hands out fresh nonzero ids while it has any left. *)
Class SerializerSpec (S : Type) `{Serializer S} := {
  ser_ok : S → Prop;
  ser_view : S → gmap Z Block;
  ser_free : S → Z;
  ser_view_ok s id b : ser_ok s → ser_view s !! id = Some b → (1 ≤ id < 2 ^ 32)%Z ∧ block_ok b;
  ser_read s id b : ser_ok s → ser_view s !! id = Some b →
    ∃ s', BlockRead id s = (Ok b, s') ∧ ser_ok s' ∧
          ser_view s' = ser_view s ∧ ser_free s' = ser_free s;
  ser_write s id b : ser_ok s → is_Some (ser_view s !! id) → block_ok b →
    ∃ s', BlockWrite id b s = (Ok id, s') ∧ ser_ok s' ∧
          ser_view s' = <[id := b]> (ser_view s) ∧ ser_free s' = ser_free s;
  ser_alloc s b : ser_ok s → (0 < ser_free s)%Z → block_ok b →
    ∃ s' id, BlockWrite InvalidBlockID b s = (Ok id, s') ∧ ser_ok s' ∧
          ser_view s !! id = None ∧ ser_view s' = <[id := b]> (ser_view s) ∧
          ser_free s' = (ser_free s - 1)%Z;
  ser_flush s : ser_ok s →
    ∃ s', Flush s = (Ok (), s') ∧ ser_ok s' ∧
          ser_view s' = ser_view s ∧ ser_free s' = ser_free s;
}.

(** ** The operating system's file *)

(** The outcome of the next system call: success, or failure after [n] bytes. *)
Inductive io_fault := IOok | IOfail (n : nat).

Record OSFile := mkFile {
  f_data : list byte;
  f_pos : nat;
  f_faults : list io_fault;
}.

Definition ErrIO : string := "input/output error".
Definition EOF : string := "EOF".

Definition os_fault : M OSFile io_fault := λ f,
  match f_faults f with
  | [] => (Ok IOok, f)
  | x :: xs => (Ok x, mkFile (f_data f) (f_pos f) xs)
  end.

(** A call without data of its own ([Stat], [Sync], [Close], [MkdirAll]). *)
Definition os_call : M OSFile unit :=
  x ← os_fault;
  match x with IOok => mret () | IOfail _ => fail ErrIO end.

(** Bytes written at [pos]; a gap past the end of the file reads as zeros. *)
Definition write_at (pos : nat) (bs data : list byte) : list byte :=
  take pos (data ++ replicate (pos - length data) Byte.x00) ++ bs
    ++ drop (pos + length bs) data.

Definition file_put (bs : list byte) : M OSFile unit :=
  modify (λ f, mkFile (write_at (f_pos f) bs (f_data f)) (f_pos f + length bs) (f_faults f)).

Definition file_Seek (off : nat) : M OSFile unit :=
  os_call;; modify (λ f, mkFile (f_data f) off (f_faults f)).

Definition file_Write (bs : list byte) : M OSFile unit :=
  x ← os_fault;
  match x with
  | IOok => file_put bs
  | IOfail n => file_put (take n bs);; fail ErrIO
  end.

(** [Read] into a buffer of [n] bytes: fewer bytes near the end of the file,
    [io.EOF] at the end. *)
Definition file_Read (n : nat) : M OSFile (list byte) :=
  os_call;;
  f ← get_state;
  let bs := take n (drop (f_pos f) (f_data f)) in
  if bool_decide (bs = [] ∧ n ≠ 0) then fail EOF
  else put_state (mkFile (f_data f) (f_pos f + length bs) (f_faults f));; mret bs.

(** [io.ReadFull]. *)
Definition file_ReadFull (n : nat) : M OSFile (list byte) :=
  bs ← file_Read n;
  if bool_decide (length bs < n)
  then wrap_err "unexpected EOF" (file_Read (n - length bs));; fail "unexpected EOF"
  else mret bs.

(** A buffer of [n] zero bytes after [Read] stored [bs] in it. *)
Definition fill (n : nat) (bs : list byte) : list byte :=
  bs ++ replicate (n - length bs) Byte.x00.

(** ** file_serializer.go *)

Record FileSerializer := mkFS {
  fs_file : OSFile;
  fs_nextID : BlockID;
  fs_closed : bool;
  fs_blockCount : Z;
}.

Definition fs_on_file {A} (m : M OSFile A) : M FileSerializer A :=
  zoom fs_file (λ f s, mkFS f (fs_nextID s) (fs_closed s) (fs_blockCount s)) m.

(** [NewFileSerializer] on the file [disk] of the data directory. *)
Definition NewFileSerializer (disk : OSFile) : outcome FileSerializer :=
  match wrap_err "failed to create data directory" os_call disk with
  | (Ok _, d1) =>
    match wrap_err "failed to open file" os_call d1 with
    | (Ok _, d2) =>
      match wrap_err "failed to stat file" os_call d2 with
      | (Ok _, d3) =>
          let nextID := uint32 (Z.of_nat (length (f_data d3) / BlockSize)) in
          let nextID := if bool_decide (nextID = 0%Z) then 1%Z else nextID in
          Ok (mkFS (mkFile (f_data d3) 0 (f_faults d3)) nextID false 0)
      | (Err e, _) => Err e | (Panic, _) => Panic | (NoFuel, _) => NoFuel
      end
    | (Err e, _) => Err e | (Panic, _) => Panic | (NoFuel, _) => NoFuel
    end
  | (Err e, _) => Err e | (Panic, _) => Panic | (NoFuel, _) => NoFuel
  end.

Definition fs_offset (id : BlockID) : nat := Z.to_nat id * BlockSize.

(** [BlockRead] holds the lock in shared mode only, so its two file operations
    are two steps that other readers can interleave with. *)
Definition fs_read_seek (id : BlockID) : M FileSerializer unit :=
  s ← get_state;
  if fs_closed s then fail ErrSerializerClosed
  else if bool_decide (id = InvalidBlockID ∨ (fs_nextID s ≤ id)%Z) then fail ErrInvalidBlockID
  else wrap_err "failed to seek" (fs_on_file (file_Seek (fs_offset id))).

Definition fs_read_data : M FileSerializer Block :=
  bs ← wrap_err "failed to read block" (fs_on_file (file_Read BlockSize));
  mret (fill BlockSize bs).

Definition fs_BlockRead (id : BlockID) : M FileSerializer Block :=
  fs_read_seek id;; fs_read_data.

Definition fs_BlockWrite (id : BlockID) (block : Block) : M FileSerializer BlockID :=
  s ← get_state;
  if fs_closed s then fail ErrSerializerClosed
  else
    id ← (if bool_decide (id = InvalidBlockID)
          then put_state (mkFS (fs_file s) (uint32 (fs_nextID s + 1)) (fs_closed s)
                            (fs_blockCount s));; mret (fs_nextID s)
          else mret id);
    wrap_err "failed to seek" (fs_on_file (file_Seek (fs_offset id)));;
    wrap_err "failed to write block" (fs_on_file (file_Write block));;
    modify (λ s, if bool_decide (fs_blockCount s ≤ id)%Z
                 then mkFS (fs_file s) (fs_nextID s) (fs_closed s) (uint32 (uint32 id + 1))
                 else s);;
    mret id.

Definition fs_BlockDelete (id : BlockID) : M FileSerializer unit :=
  s ← get_state;
  if fs_closed s then fail ErrSerializerClosed
  else if bool_decide (id = InvalidBlockID ∨ (fs_nextID s ≤ id)%Z) then fail ErrInvalidBlockID
  else
    wrap_err "failed to seek" (fs_on_file (file_Seek (fs_offset id)));;
    wrap_err "failed to delete block" (fs_on_file (file_Write (replicate BlockSize Byte.x00))).

Definition fs_EndBlockID (s : FileSerializer) : BlockID := fs_nextID s.

Definition fs_Flush : M FileSerializer unit :=
  s ← get_state;
  if fs_closed s then fail ErrSerializerClosed else fs_on_file os_call.

Definition fs_Close : M FileSerializer unit :=
  s ← get_state;
  if fs_closed s then mret ()
  else put_state (mkFS (fs_file s) (fs_nextID s) true (fs_blockCount s));; fs_on_file os_call.

Definition WriteHeader (header : list byte) : M FileSerializer unit :=
  s ← get_state;
  if fs_closed s then fail ErrSerializerClosed
  else
    wrap_err "failed to seek" (fs_on_file (file_Seek 0));;
    wrap_err "failed to write header size"
      (fs_on_file (file_Write (le_bytes 4 (uint32 (Z.of_nat (length header))))));;
    wrap_err "failed to write header" (fs_on_file (file_Write header)).

Definition ReadHeader : M FileSerializer (list byte) :=
  s ← get_state;
  if fs_closed s then fail ErrSerializerClosed
  else
    wrap_err "failed to seek" (fs_on_file (file_Seek 0));;
    sz ← wrap_err "failed to read header size" (fs_on_file (file_ReadFull 4));
    let headerSize := le_value sz in
    if bool_decide (headerSize = 0 ∨ 1048576 < headerSize)%Z
    then fail ("invalid header size: " +:+ pretty headerSize)
    else
      bs ← wrap_err "failed to read header" (fs_on_file (file_Read (Z.to_nat headerSize)));
      mret (fill (Z.to_nat headerSize) bs).

#[global] Instance FileSerializer_Serializer : Serializer FileSerializer := {|
  BlockRead := fs_BlockRead;
  BlockWrite := fs_BlockWrite;
  BlockDelete := fs_BlockDelete;
  EndBlockID := fs_EndBlockID;
  Flush := fs_Flush;
  Close := fs_Close;
|}.

(** ** Facts about byte ranges of a file *)

Lemma length_write_at pos bs data :
  length (write_at pos bs data) = Nat.max (length data) (pos + length bs).
Proof.
  unfold write_at. rewrite !length_app, length_take, length_app, length_replicate, length_drop. lia.
Qed.

Lemma lookup_write_at pos bs data i :
  i < Nat.max (length data) (pos + length bs) →
  write_at pos bs data !! i =
    if decide (pos ≤ i < pos + length bs) then bs !! (i - pos)
    else if decide (i < length data) then data !! i else Some Byte.x00.
Proof.
  intros Hi. unfold write_at.
  assert (length (take pos (data ++ replicate (pos - length data) Byte.x00)) = pos) as Hlen.
  { rewrite length_take, length_app, length_replicate. lia. }
  destruct (decide (i < pos)) as [Hlt|Hge].
  - rewrite lookup_app_l by lia. rewrite lookup_take_lt by lia.
    rewrite decide_False by lia. destruct (decide (i < length data)).
    + by rewrite lookup_app_l by lia.
    + rewrite lookup_app_r by lia. rewrite lookup_replicate_2 by lia. done.
  - rewrite lookup_app_r by lia. rewrite Hlen.
    destruct (decide (i < pos + length bs)).
    + rewrite lookup_app_l by lia. by rewrite decide_True by lia.
    + rewrite lookup_app_r by lia. rewrite lookup_drop.
      rewrite decide_False by lia. rewrite decide_True by lia. f_equal. lia.
Qed.

(** The block stored at [id]. *)
Definition block_at (data : list byte) (id : BlockID) : Block :=
  take BlockSize (drop (fs_offset id) data).

Lemma fs_offset_succ id : (0 ≤ id)%Z → fs_offset (id + 1) = fs_offset id + BlockSize.
Proof. intros. unfold fs_offset. rewrite Z2Nat.inj_add by lia. simpl. lia. Qed.
Lemma fs_offset_mono a b : (0 ≤ a ≤ b)%Z → fs_offset a ≤ fs_offset b.
Proof. intros. unfold fs_offset. apply Nat.mul_le_mono_r. lia. Qed.
Lemma fs_offset_next a b : (0 ≤ a < b)%Z → fs_offset a + BlockSize ≤ fs_offset b.
Proof. intros. rewrite <- fs_offset_succ by lia. apply fs_offset_mono. lia. Qed.
#[local] Hint Resolve fs_offset_next : core.

Lemma lookup_block_at data id i :
  i < BlockSize → block_at data id !! i = data !! (fs_offset id + i).
Proof. intros. unfold block_at. rewrite lookup_take_lt by lia. by rewrite lookup_drop. Qed.

Lemma length_block_at data id :
  fs_offset id + BlockSize ≤ length data → length (block_at data id) = BlockSize.
Proof. intros. unfold block_at. rewrite length_take, length_drop. lia. Qed.

(** A write outside the bytes of a block leaves the block alone. *)
Lemma block_at_write_other pos bs data id :
  fs_offset id + BlockSize ≤ length data →
  pos + length bs ≤ fs_offset id ∨ fs_offset id + BlockSize ≤ pos →
  block_at (write_at pos bs data) id = block_at data id.
Proof.
  intros Hin Hdis. apply (list_eq_same_length _ _ BlockSize).
  - by apply length_block_at.
  - apply length_block_at. rewrite length_write_at. lia.
  - intros i x y Hi. rewrite !lookup_block_at by lia.
    rewrite lookup_write_at by lia. rewrite decide_False, decide_True by lia. congruence.
Qed.

Lemma block_at_write_same b data id :
  length b = BlockSize → block_at (write_at (fs_offset id) b data) id = b.
Proof.
  intros Hb. apply (list_eq_same_length _ _ BlockSize); [done| |].
  - apply length_block_at. rewrite length_write_at. lia.
  - intros i x y Hi. rewrite lookup_block_at by lia.
    rewrite lookup_write_at by lia. rewrite decide_True by lia.
    replace (fs_offset id + i - fs_offset id) with i by lia. congruence.
Qed.

(** ** [FileSerializer] implements the contract *)

(** A healthy file serializer: open, no pending faults, every allocated id backed
    by a whole block of the file, and no whole block past the allocated ones. *)
Definition fs_ok (s : FileSerializer) : Prop :=
  fs_closed s = false ∧ f_faults (fs_file s) = [] ∧ (1 ≤ fs_nextID s < 2 ^ 32)%Z ∧
  (∀ id, (1 ≤ id < fs_nextID s)%Z → fs_offset id + BlockSize ≤ length (f_data (fs_file s))) ∧
  length (f_data (fs_file s)) < fs_offset (fs_nextID s + 1).

Definition fs_view (s : FileSerializer) : gmap Z Block :=
  list_to_map ((λ id, (id, block_at (f_data (fs_file s)) id)) <$> seqZ 1 (fs_nextID s - 1)).

(** Ids left before [nextID] would wrap around. *)
Definition fs_free (s : FileSerializer) : Z := 2 ^ 32 - 1 - fs_nextID s.

Lemma lookup_fs_view s id :
  fs_view s !! id =
    if decide (1 ≤ id < fs_nextID s)%Z then Some (block_at (f_data (fs_file s)) id) else None.
Proof.
  unfold fs_view. set (f := λ id, (id, block_at (f_data (fs_file s)) id)).
  assert (NoDup (f <$> seqZ 1 (fs_nextID s - 1)).*1) as Hnd.
  { rewrite <- list_fmap_compose. simpl. rewrite list_fmap_id. apply NoDup_seqZ. }
  case_decide as Hd.
  - apply elem_of_list_to_map_1; [done|]. apply list_elem_of_fmap.
    exists id. split; [done|]. apply elem_of_seqZ. lia.
  - apply not_elem_of_list_to_map_1. rewrite <- list_fmap_compose. simpl.
    rewrite list_fmap_id, elem_of_seqZ. lia.
Qed.

(** What the file operations do on a healthy disk. *)
Lemma seek_healthy msg s off :
  f_faults (fs_file s) = [] →
  wrap_err msg (fs_on_file (file_Seek off)) s =
    (Ok (), mkFS (mkFile (f_data (fs_file s)) off []) (fs_nextID s) (fs_closed s) (fs_blockCount s)).
Proof. destruct s as [[d p fl] n c k]. simpl. by intros ->. Qed.

Lemma write_healthy msg s bs :
  f_faults (fs_file s) = [] →
  wrap_err msg (fs_on_file (file_Write bs)) s =
    (Ok (), mkFS (mkFile (write_at (f_pos (fs_file s)) bs (f_data (fs_file s)))
                   (f_pos (fs_file s) + length bs) [])
             (fs_nextID s) (fs_closed s) (fs_blockCount s)).
Proof. destruct s as [[d p fl] n c k]. simpl. by intros ->. Qed.

Lemma read_healthy msg s n bs :
  f_faults (fs_file s) = [] → 0 < n → length bs = n →
  take n (drop (f_pos (fs_file s)) (f_data (fs_file s))) = bs →
  wrap_err msg (fs_on_file (file_Read n)) s =
    (Ok bs, mkFS (mkFile (f_data (fs_file s)) (f_pos (fs_file s) + n) [])
              (fs_nextID s) (fs_closed s) (fs_blockCount s)).
Proof.
  destruct s as [[d p fl] nx c k]. simpl. intros -> Hn Hl Ht.
  unfold wrap_err, fs_on_file, zoom, file_Read, os_call, os_fault. mrun. rewrite Ht.
  rewrite bool_decide_eq_false_2 by (intros [-> _]; simpl in Hl; lia). cbn. by rewrite Hl.
Qed.

Lemma readfull_healthy msg s n bs :
  f_faults (fs_file s) = [] → 0 < n → length bs = n →
  take n (drop (f_pos (fs_file s)) (f_data (fs_file s))) = bs →
  wrap_err msg (fs_on_file (file_ReadFull n)) s =
    (Ok bs, mkFS (mkFile (f_data (fs_file s)) (f_pos (fs_file s) + n) [])
              (fs_nextID s) (fs_closed s) (fs_blockCount s)).
Proof.
  destruct s as [[d p fl] nx c k]. simpl. intros -> Hn Hl Ht.
  unfold wrap_err, fs_on_file, zoom, file_ReadFull, file_Read, os_call, os_fault. mrun. rewrite Ht.
  rewrite bool_decide_eq_false_2 by (intros [-> _]; simpl in Hl; lia). cbn.
  rewrite bool_decide_eq_false_2 by lia. cbn. by rewrite Hl.
Qed.

(** The state with file contents [data] and offset [pos] on a healthy disk. *)
Definition fs_at (s : FileSerializer) (data : list byte) (pos : nat) : FileSerializer :=
  mkFS (mkFile data pos []) (fs_nextID s) (fs_closed s) (fs_blockCount s).

Lemma fs_at_ok s data pos :
  fs_ok s → length (f_data (fs_file s)) ≤ length data < fs_offset (fs_nextID s + 1) →
  fs_ok (fs_at s data pos).
Proof.
  intros (Hc & Hf & Hn & Hb & Hu) Hl. split_and!; try done; try apply Hn; [|apply Hl].
  intros id Hid. simpl in *. specialize (Hb id Hid). lia.
Qed.

Lemma fs_at_same_ok s pos : fs_ok s → fs_ok (fs_at s (f_data (fs_file s)) pos).
Proof. intros Hok. apply fs_at_ok; [done|]. split; [done|apply Hok]. Qed.

(** A write within an allocated block does not change the length of the file. *)
Lemma fs_write_ok s id b pos k :
  fs_ok s → (1 ≤ id < fs_nextID s)%Z → block_ok b →
  fs_ok (mkFS (mkFile (write_at (fs_offset id) b (f_data (fs_file s))) pos [])
           (fs_nextID s) (fs_closed s) k).
Proof.
  intros Hok Hid Hb. pose proof Hok as (Hc & Hf & Hn & Hbl & Hu). specialize (Hbl id Hid).
  apply (fs_at_ok s (write_at (fs_offset id) b (f_data (fs_file s))) pos); [done|].
  rewrite length_write_at, Hb. lia.
Qed.

Lemma fs_view_same s data pos k :
  fs_view (mkFS (mkFile data pos []) (fs_nextID s) (fs_closed s) k) =
  fs_view (fs_at s data pos).
Proof. reflexivity. Qed.

Lemma fs_view_put s id b pos :
  fs_ok s → (1 ≤ id < fs_nextID s)%Z → block_ok b →
  fs_view (fs_at s (write_at (fs_offset id) b (f_data (fs_file s))) pos) = <[id := b]> (fs_view s).
Proof.
  intros (Hc & Hf & Hn & Hb & Hu) Hid Hok. apply map_eq. intros j.
  rewrite lookup_fs_view. simpl. destruct (decide (id = j)) as [<-|Hne].
  - rewrite lookup_insert_eq, decide_True by done. by rewrite block_at_write_same.
  - rewrite lookup_insert_ne, lookup_fs_view by done. case_decide as Hj; [|done].
    rewrite block_at_write_other; auto. rewrite Hok.
    destruct (decide (id < j)%Z); [left; apply fs_offset_next; lia|].
    right; apply fs_offset_next; lia.
Qed.

Lemma fs_BlockRead_run s id :
  fs_ok s → (1 ≤ id < fs_nextID s)%Z →
  fs_BlockRead id s = (Ok (block_at (f_data (fs_file s)) id),
                       fs_at s (f_data (fs_file s)) (fs_offset id + BlockSize)).
Proof.
  intros (Hc & Hf & Hn & Hb & Hu) Hid. pose proof (Hb id Hid) as Hlen.
  unfold fs_BlockRead, fs_read_seek, fs_read_data. mrun. rewrite Hc.
  rewrite bool_decide_eq_false_2 by (unfold InvalidBlockID; lia).
  rewrite seek_healthy by done.
  rewrite (read_healthy _ _ _ (block_at (f_data (fs_file s)) id)); cbn; try done.
  - unfold fill. rewrite length_block_at, Nat.sub_diag by done. simpl. by rewrite app_nil_r.
  - apply BlockSize_pos.
  - by rewrite length_block_at.
Qed.

Lemma fs_BlockWrite_run s id b :
  fs_ok s → id ≠ InvalidBlockID →
  ∃ k, fs_BlockWrite id b s =
    (Ok id, mkFS (mkFile (write_at (fs_offset id) b (f_data (fs_file s))) (fs_offset id + length b) [])
              (fs_nextID s) (fs_closed s) k).
Proof.
  intros (Hc & Hf & Hn & Hb & Hu) Hid. unfold fs_BlockWrite. mrun. rewrite Hc.
  rewrite bool_decide_eq_false_2 by done. cbn. rewrite seek_healthy by done.
  rewrite write_healthy by done. cbn. case_bool_decide; eexists; by rewrite ?Hc.
Qed.

Lemma fs_BlockWrite_alloc_run s b :
  fs_ok s → (fs_nextID s < 2 ^ 32 - 1)%Z →
  ∃ k, fs_BlockWrite InvalidBlockID b s =
    (Ok (fs_nextID s),
     mkFS (mkFile (write_at (fs_offset (fs_nextID s)) b (f_data (fs_file s)))
             (fs_offset (fs_nextID s) + length b) [])
       (fs_nextID s + 1) (fs_closed s) k).
Proof.
  intros (Hc & Hf & Hn & Hb & Hu) Hlt. unfold fs_BlockWrite. mrun. rewrite Hc.
  rewrite bool_decide_eq_true_2 by done. cbn.
  rewrite seek_healthy by done. cbn. rewrite write_healthy by done. cbn.
  rewrite uint32_small by lia. case_bool_decide; eexists; by rewrite ?Hc.
Qed.

Lemma fs_view_alloc s b pos k :
  fs_ok s → block_ok b →
  fs_view (mkFS (mkFile (write_at (fs_offset (fs_nextID s)) b (f_data (fs_file s))) pos [])
             (fs_nextID s + 1) (fs_closed s) k) = <[fs_nextID s := b]> (fs_view s).
Proof.
  intros (Hc & Hf & Hn & Hb & Hu) Hok. apply map_eq. intros j.
  rewrite lookup_fs_view. simpl. destruct (decide (fs_nextID s = j)) as [<-|Hne].
  - rewrite lookup_insert_eq, decide_True by lia. by rewrite block_at_write_same.
  - rewrite lookup_insert_ne, lookup_fs_view by done.
    destruct (decide (1 ≤ j < fs_nextID s)%Z).
    + rewrite decide_True by lia. rewrite block_at_write_other; auto.
      right; apply fs_offset_next; lia.
    + by rewrite decide_False by lia.
Qed.

Lemma fs_alloc_ok s b pos k :
  fs_ok s → (fs_nextID s < 2 ^ 32 - 1)%Z → block_ok b →
  fs_ok (mkFS (mkFile (write_at (fs_offset (fs_nextID s)) b (f_data (fs_file s))) pos [])
             (fs_nextID s + 1) (fs_closed s) k).
Proof.
  intros (Hc & Hf & Hn & Hb & Hu) Hlt Hok. split_and!; simpl in *; try done; try lia.
  - intros id Hid. rewrite length_write_at, Hok.
    destruct (decide (id = fs_nextID s)) as [->|]; [lia|].
    specialize (Hb id ltac:(lia)). lia.
  - rewrite length_write_at, Hok, fs_offset_succ in * by lia. rewrite fs_offset_succ by lia.
    pose proof BlockSize_pos. lia.
Qed.

#[global] Program Instance FileSerializer_Spec : SerializerSpec FileSerializer := {|
  ser_ok := fs_ok;
  ser_view := fs_view;
  ser_free := fs_free;
|}.
Next Obligation.
  intros s id b Hok. rewrite lookup_fs_view. case_decide as Hid; [|done]. intros [= <-].
  pose proof Hok as (_ & _ & Hn & Hl & _). split; [lia|]. apply length_block_at. by apply Hl.
Qed.
Next Obligation.
  intros s id b Hok Hv. rewrite lookup_fs_view in Hv. case_decide as Hid; [|done].
  injection Hv as <-. eexists. split; [by apply fs_BlockRead_run|].
  split; [by apply fs_at_same_ok|done].
Qed.
Next Obligation.
  intros s id b Hok [b' Hv] Hb. rewrite lookup_fs_view in Hv. case_decide as Hid; [|done].
  destruct (fs_BlockWrite_run s id b Hok) as [k Hk]; [unfold InvalidBlockID; lia|].
  eexists. split; [exact Hk|]. rewrite fs_view_same, fs_view_put by done.
  split; [|done]. by apply fs_write_ok.
Qed.
Next Obligation.
  intros s b Hok Hfree Hb. unfold fs_free in *. pose proof Hok as (_ & _ & Hn & _).
  destruct (fs_BlockWrite_alloc_run s b Hok) as [k Hk]; [lia|].
  do 2 eexists. split; [exact Hk|]. split; [apply fs_alloc_ok; [done|lia|done]|].
  split; [rewrite lookup_fs_view, decide_False by lia; done|].
  split; [by apply fs_view_alloc|]. simpl. lia.
Qed.
Next Obligation.
  intros s (Hc & Hf & Hn & Hb & Hu). exists s. split; [|done].
  destruct s as [[d p fl] nx c k]. simpl in *. by subst.
Qed.

(** ** Durability: sequences of operations, then a restart *)

Inductive fs_op :=
| OpAlloc (b : Block)
| OpWrite (id : BlockID) (b : Block)
| OpRead (id : BlockID)
| OpDelete (id : BlockID)
| OpFlush.

Definition fs_exec (op : fs_op) : M FileSerializer unit :=
  match op with
  | OpAlloc b => BlockWrite InvalidBlockID b;; mret ()
  | OpWrite id b => BlockWrite id b;; mret ()
  | OpRead id => BlockRead id;; mret ()
  | OpDelete id => BlockDelete id
  | OpFlush => Flush
  end.

(** The discipline of the callers: whole blocks, written to ids they got from
    an allocation, and no allocation once the id space is used up.  Reads and
    deletes take any [uint32]. *)
Definition fs_op_ok (s : FileSerializer) (op : fs_op) : Prop :=
  match op with
  | OpAlloc b => block_ok b ∧ (fs_nextID s < 2 ^ 32 - 1)%Z
  | OpWrite id b => block_ok b ∧ (1 ≤ id < fs_nextID s)%Z
  | OpRead id | OpDelete id => (0 ≤ id < 2 ^ 32)%Z
  | OpFlush => True
  end.

Definition fs_fresh : FileSerializer := mkFS (mkFile [] 0 []) 1 false 0.

Inductive fs_reachable : FileSerializer → Prop :=
| fs_reach_open : fs_reachable fs_fresh
| fs_reach_step s op r s' :
    fs_reachable s → fs_op_ok s op → fs_exec op s = (r, s') → fs_reachable s'.

Lemma fs_reach_exec s op :
  fs_reachable s → fs_op_ok s op → fs_reachable (fs_exec op s).2.
Proof. intros. eapply fs_reach_step; [done..|]. apply surjective_pairing. Qed.

Lemma fs_BlockRead_invalid s id :
  fs_ok s → ¬ (1 ≤ id < fs_nextID s)%Z → (0 ≤ id)%Z →
  fs_BlockRead id s = (Err ErrInvalidBlockID, s).
Proof.
  intros (Hc & Hf & Hn & Hb & Hu) Hid H0. unfold fs_BlockRead, fs_read_seek. mrun. rewrite Hc.
  rewrite bool_decide_eq_true_2; [done|]. unfold InvalidBlockID. lia.
Qed.

Lemma fs_BlockDelete_run s id :
  fs_ok s → (1 ≤ id < fs_nextID s)%Z →
  fs_BlockDelete id s =
    (Ok (), fs_at s (write_at (fs_offset id) NewBlock (f_data (fs_file s))) (fs_offset id + BlockSize)).
Proof.
  intros (Hc & Hf & Hn & Hb & Hu) Hid. unfold fs_BlockDelete. mrun. rewrite Hc.
  rewrite bool_decide_eq_false_2 by (unfold InvalidBlockID; lia).
  rewrite seek_healthy by done. cbn. rewrite write_healthy by done. cbn.
  rewrite length_replicate. unfold fs_at. by rewrite ?Hc.
Qed.

Lemma fs_exec_ok s op r s' :
  fs_ok s → fs_op_ok s op → fs_exec op s = (r, s') → fs_ok s'.
Proof.
  intros Hok. pose proof Hok as (Hc & Hf & Hn & Hb & Hu).
  destruct op as [b|id b|id|id|]; simpl; intros Hop.
  - destruct Hop as [Hbok Hlt]. destruct (fs_BlockWrite_alloc_run s b Hok Hlt) as [k Hk].
    rewrite (bind_ok _ _ _ _ _ Hk). intros [= <- <-]. by apply fs_alloc_ok.
  - destruct Hop as [Hbok Hid].
    destruct (fs_BlockWrite_run s id b Hok) as [k Hk]; [unfold InvalidBlockID; lia|].
    rewrite (bind_ok _ _ _ _ _ Hk). intros [= <- <-]. by apply fs_write_ok.
  - destruct (decide (1 ≤ id < fs_nextID s)%Z) as [Hid|Hid].
    + rewrite (bind_ok _ _ _ _ _ (fs_BlockRead_run s id Hok Hid)). intros [= <- <-].
      by apply fs_at_same_ok.
    + rewrite (bind_err _ _ _ _ _ (fs_BlockRead_invalid s id Hok Hid ltac:(lia))).
      by intros [= <- <-].
  - destruct (decide (1 ≤ id < fs_nextID s)%Z) as [Hid|Hid].
    + rewrite (fs_BlockDelete_run s id Hok Hid). intros [= <- <-].
      apply fs_write_ok; [done..|]. apply NewBlock_ok.
    + unfold fs_BlockDelete. mrun. rewrite Hc, bool_decide_eq_true_2.
      * by intros [= <- <-].
      * unfold InvalidBlockID. lia.
  - unfold fs_Flush. mrun.
    rewrite Hc. unfold fs_on_file, zoom, os_call, os_fault. mrun. rewrite Hf.
    intros [= <- <-]. destruct s as [[d p fl] nx c k]. simpl in *. by subst.
Qed.

Lemma fs_fresh_ok : fs_ok fs_fresh.
Proof.
  split_and!; simpl; try done; try lia. unfold fs_offset. pose proof BlockSize_pos. simpl. lia.
Qed.

Lemma fs_reachable_ok s : fs_reachable s → fs_ok s.
Proof. induction 1; [apply fs_fresh_ok|by eapply fs_exec_ok]. Qed.

(** Opening the file of a healthy serializer gives a healthy serializer with the
    same blocks. *)
Lemma reopen_ok s :
  fs_ok s →
  ∃ s', NewFileSerializer (mkFile (f_data (fs_file s)) 0 []) = Ok s' ∧ fs_ok s' ∧
        fs_nextID s' = fs_nextID s ∧ fs_view s' = fs_view s.
Proof.
  intros (Hc & Hf & Hn & Hb & Hu). pose proof BlockSize_pos as HBS.
  set (n := length (f_data (fs_file s)) / BlockSize).
  assert (Nat.max 1 n = Z.to_nat (fs_nextID s)) as Hmax.
  { assert (n < Z.to_nat (fs_nextID s) + 1) as Hlt.
    { apply Nat.Div0.div_lt_upper_bound. unfold fs_offset in Hu.
      rewrite Z2Nat.inj_add in Hu by lia. simpl in Hu. lia. }
    destruct (decide (fs_nextID s = 1%Z)) as [H1|Hne]; [lia|].
    specialize (Hb (fs_nextID s - 1)%Z ltac:(lia)). rewrite <- fs_offset_succ in Hb by lia.
    rewrite Z.sub_add in Hb. assert (Z.to_nat (fs_nextID s) ≤ n); [|lia].
    apply Nat.div_le_lower_bound; [lia|]. unfold fs_offset in Hb. lia. }
  unfold NewFileSerializer, wrap_err, os_call, os_fault. mrun. fold n.
  rewrite uint32_small by lia.
  assert ((if bool_decide (Z.of_nat n = 0%Z) then 1%Z else Z.of_nat n) = fs_nextID s) as ->.
  { case_bool_decide; lia. }
  eexists. split; [reflexivity|]. by split_and!.
Qed.

(** After any sequence of allocations, writes, reads, deletes and flushes on
    a healthy disk, opening the data file again gives a serializer with the same
    next id and the same block under every id. *)
Theorem reopen_preserves_blocks s :
  fs_reachable s →
  ∃ s', NewFileSerializer (mkFile (f_data (fs_file s)) 0 []) = Ok s' ∧
        fs_nextID s' = fs_nextID s ∧ fs_view s' = fs_view s.
Proof.
  intros Hok%fs_reachable_ok. destruct (reopen_ok s Hok) as (s' & ? & _ & ? & ?). eauto.
Qed.

Lemma reopen_preserves_blocks_witness :
  ∃ s', NewFileSerializer (mkFile (f_data (fs_file (fs_exec (OpAlloc NewBlock) fs_fresh).2)) 0 [])
          = Ok s' ∧ fs_nextID s' = 2%Z ∧
        fs_view s' = fs_view (fs_exec (OpAlloc NewBlock) fs_fresh).2.
Proof.
  apply (reopen_preserves_blocks (fs_exec (OpAlloc NewBlock) fs_fresh).2).
  apply fs_reach_exec; [apply fs_reach_open|]. split; [apply NewBlock_ok|reflexivity].
Defined.

(** ** The header area *)

Lemma WriteHeader_run s h :
  fs_ok s →
  ∃ pos, WriteHeader h s =
    (Ok (), fs_at s (write_at 4 h (write_at 0 (le_bytes 4 (uint32 (Z.of_nat (length h))))
                                     (f_data (fs_file s)))) pos).
Proof.
  intros (Hc & Hf & Hn & Hb & Hu). unfold WriteHeader. mrun. rewrite Hc.
  rewrite seek_healthy by done. cbn. rewrite write_healthy by done.
  cbn -[le_bytes]. rewrite write_healthy by done. cbn -[le_bytes].
  eexists. unfold fs_at. by rewrite ?Hc, ?length_le_bytes.
Qed.

Lemma read_back pos bs data :
  pos ≤ length data → take (length bs) (drop pos (write_at pos bs data)) = bs.
Proof.
  intros Hpos. apply (list_eq_same_length _ _ (length bs)); [done| |].
  - rewrite length_take, length_drop, length_write_at. lia.
  - intros i x y Hi. rewrite lookup_take_lt, lookup_drop by lia.
    rewrite lookup_write_at, decide_True by lia.
    replace (pos + i - pos) with i by lia. congruence.
Qed.

Lemma take_write_after pos n bs data :
  n ≤ pos → n ≤ length data → take n (write_at pos bs data) = take n data.
Proof.
  intros H1 H2. apply (list_eq_same_length _ _ n).
  - rewrite length_take. lia.
  - rewrite length_take, length_write_at. lia.
  - intros i x y Hi. rewrite !lookup_take_lt by lia.
    rewrite lookup_write_at, decide_False, decide_True by lia. congruence.
Qed.

(** A header of at most 4092 bytes written by [WriteHeader] is what
    [ReadHeader] returns, and no block changes. *)
Theorem header_roundtrip s h :
  fs_ok s → 1 ≤ length h ≤ BlockSize - 4 →
  ∃ s1 s2, WriteHeader h s = (Ok (), s1) ∧ ReadHeader s1 = (Ok h, s2) ∧
           fs_ok s1 ∧ fs_view s1 = fs_view s.
Proof.
  intros Hok Hl. destruct (WriteHeader_run s h Hok) as [pos Hw].
  pose proof Hok as (Hc & Hf & Hn & Hb & Hu). pose proof BlockSize_val as HBS.
  set (sz := le_bytes 4 (uint32 (Z.of_nat (length h)))) in *.
  assert (length sz = 4) as Hsz by apply length_le_bytes.
  set (d1 := write_at 0 sz (f_data (fs_file s))) in *.
  assert (4 ≤ length d1) as Hd1 by (unfold d1; rewrite length_write_at; lia).
  assert (le_value sz = Z.of_nat (length h)) as Hval.
  { unfold sz. rewrite le_value_le_bytes, uint32_small by lia. apply Z.mod_small. simpl. lia. }
  assert (take 4 d1 = sz) as Htk.
  { unfold d1. rewrite <- Hsz at 1. rewrite <- (drop_0 (write_at 0 sz _)). apply read_back. lia. }
  do 2 eexists. split; [exact Hw|]. split; [|split].
  - clearbody d1 sz. unfold ReadHeader. mrun. rewrite Hc. rewrite seek_healthy by done. cbn.
    rewrite (readfull_healthy _ _ 4 sz); simpl; try done; try lia.
    2: { by rewrite drop_0, take_write_after. }
    rewrite Hval. rewrite bool_decide_eq_false_2 by lia.
    rewrite (read_healthy _ _ _ h); cbn; rewrite ?Nat2Z.id; try done; try lia.
    + unfold fill. rewrite Nat.sub_diag. simpl. by rewrite app_nil_r.
    + by apply read_back.
  - apply fs_at_ok; [done|]. rewrite length_write_at. unfold d1. rewrite length_write_at, Hsz.
    assert (BlockSize ≤ fs_offset (fs_nextID s)) by
      (unfold fs_offset; assert (1 ≤ Z.to_nat (fs_nextID s)) by lia; nia).
    rewrite fs_offset_succ in * by lia. lia.
  - apply map_eq. intros j. rewrite !lookup_fs_view. simpl. case_decide as Hj; [|done].
    assert (BlockSize ≤ fs_offset j) as Hoff.
    { unfold fs_offset. assert (1 ≤ Z.to_nat j) by lia. nia. }
    specialize (Hb j Hj).
    rewrite block_at_write_other; [|unfold d1; rewrite length_write_at; lia|left; lia].
    unfold d1. rewrite block_at_write_other; [done|done|left; lia].
Qed.

Lemma header_roundtrip_witness :
  ∃ s1 s2, WriteHeader [Byte.x41; Byte.x42] fs_fresh = (Ok (), s1) ∧
           ReadHeader s1 = (Ok [Byte.x41; Byte.x42], s2) ∧
           fs_ok s1 ∧ fs_view s1 = fs_view fs_fresh.
Proof.
  apply (header_roundtrip fs_fresh).
  - apply fs_fresh_ok.
  - pose proof BlockSize_val. simpl. lia.
Defined.

(** A header longer than 4092 bytes runs into the first block: after storing
    a block of zeros under id 1, a header of 4093 bytes changes that block. *)
Theorem long_header_overwrites_block :
  let s := (fs_exec (OpAlloc NewBlock) fs_fresh).2 in
  let s1 := (WriteHeader (replicate 4093 Byte.x41) s).2 in
  (BlockRead 1 s).1 = Ok NewBlock ∧ (BlockRead 1 s1).1 ≠ Ok NewBlock.
Proof. split; [vm_compute; reflexivity|vm_compute; discriminate]. Qed.

(** ** Concurrent readers *)

(** Two readers inside [BlockRead] at once: both seek, then both read. *)
Definition interleaved_reads (a b : BlockID) (s : FileSerializer) : outcome Block * outcome Block :=
  let '(_, s1) := fs_read_seek a s in
  let '(_, s2) := fs_read_seek b s1 in
  let '(ra, s3) := fs_read_data s2 in
  let '(rb, _) := fs_read_data s3 in
  (ra, rb).

(** The shared lock of [BlockRead] does not make its seek and read atomic:
    when two readers interleave, the reader of [a] gets the block [b]. *)
Theorem interleaved_reads_race s a b :
  fs_ok s → (1 ≤ a < fs_nextID s)%Z → (1 ≤ b < fs_nextID s)%Z →
  (interleaved_reads a b s).1 = (BlockRead b s).1.
Proof.
  intros Hok Ha Hb'. pose proof Hok as (Hc & Hf & Hn & Hb & Hu). simpl.
  rewrite (fs_BlockRead_run s b Hok Hb'). simpl.
  unfold interleaved_reads, fs_read_seek, fs_read_data. mrun. rewrite Hc.
  rewrite bool_decide_eq_false_2 by (unfold InvalidBlockID; lia).
  rewrite seek_healthy by done. cbn. rewrite Hc.
  rewrite bool_decide_eq_false_2 by (unfold InvalidBlockID; lia).
  rewrite seek_healthy by done. cbn.
  rewrite (read_healthy _ _ _ (block_at (f_data (fs_file s)) b)); cbn; try done.
  - case_match. simpl. unfold fill. rewrite length_block_at, Nat.sub_diag by auto.
    simpl. by rewrite app_nil_r.
  - apply BlockSize_pos.
  - rewrite length_block_at; auto.
Qed.

Lemma interleaved_reads_race_witness :
  let s := (fs_exec (OpAlloc (NewBlockFromData [Byte.x42]))
              (fs_exec (OpAlloc (NewBlockFromData [Byte.x41])) fs_fresh).2).2 in
  (interleaved_reads 1 2 s).1 = (BlockRead 2 s).1 ∧ (BlockRead 1 s).1 ≠ (BlockRead 2 s).1.
Proof.
  split; [|vm_compute; discriminate].
  apply (interleaved_reads_race _ 1 2); [|vm_compute; split; congruence..].
  apply fs_reachable_ok.
  apply fs_reach_exec; [apply fs_reach_exec; [apply fs_reach_open|]|];
    (split; [apply NewBlockFromData_ok|reflexivity]).
Defined.
