(* ===== verification/PageCache.v ===== *)
(** * The page cache ([internal/storage/page_cache.go])

    An LRU cache of blocks over any [Serializer].  List elements are pointers
    into a heap of cache entries, as the [container/list] elements the source
    keeps in its map.  [BlockCache] is the interface the B-tree uses, with the
    contract [BlockCacheSpec]; the page cache implements it: caching, eviction
    and write-back are invisible to its clients. *)

From S2P Require Import Prelude Bytes Serializer.

(** ** The interface of the page cache towards the B-tree *)

Class BlockCache (C : Type) := {
  cache_Get : BlockID → M C Block;
  cache_Put : BlockID → Block → M C unit;
  cache_Allocate : Block → M C BlockID;
}.

Class BlockCacheSpec (C : Type) `{BlockCache C} := {
  bc_ok : C → Prop;
  bc_view : C → gmap Z Block;
  bc_free : C → Z;
  bc_view_ok c id b : bc_ok c → bc_view c !! id = Some b → (1 ≤ id < 2 ^ 32)%Z ∧ block_ok b;
  bc_get c id b : bc_ok c → bc_view c !! id = Some b →
    ∃ c', cache_Get id c = (Ok b, c') ∧ bc_ok c' ∧
          bc_view c' = bc_view c ∧ bc_free c' = bc_free c;
  bc_put c id b : bc_ok c → is_Some (bc_view c !! id) → block_ok b →
    ∃ c', cache_Put id b c = (Ok (), c') ∧ bc_ok c' ∧
          bc_view c' = <[id := b]> (bc_view c) ∧ bc_free c' = bc_free c;
  bc_alloc c b : bc_ok c → (0 < bc_free c)%Z → block_ok b →
    ∃ c' id, cache_Allocate b c = (Ok id, c') ∧ bc_ok c' ∧
          bc_view c !! id = None ∧ bc_view c' = <[id := b]> (bc_view c) ∧
          bc_free c' = (bc_free c - 1)%Z;
}.

(** ** page_cache.go *)

Record cacheEntry := mkEntry {
  ce_id : BlockID;
  ce_block : Block;
  ce_dirty : bool;
}.

(** [pc_lru] lists element pointers from the front (most recently used);
    [None] is the nil list of a closed cache.  [pc_elems] holds what the
    pointers point to, [pc_next] is the next unused pointer. *)
Record PageCache (S : Type) := mkPC {
  pc_cache : gmap Z nat;
  pc_lru : option (list nat);
  pc_elems : gmap nat cacheEntry;
  pc_next : nat;
  pc_maxSize : Z;
  pc_ser : S;
  pc_hits : Z;
  pc_misses : Z;
}.
Arguments mkPC {S}.
Arguments pc_cache {S}. Arguments pc_lru {S}. Arguments pc_elems {S}. Arguments pc_next {S}.
Arguments pc_maxSize {S}. Arguments pc_ser {S}. Arguments pc_hits {S}. Arguments pc_misses {S}.

(** [list.MoveToFront]: no effect for an element of another list. *)
Definition MoveToFront (p : nat) (l : list nat) : list nat :=
  if bool_decide (p ∈ l) then p :: filter (λ q, q ≠ p) l else l.
Definition list_Remove (p : nat) (l : list nat) : list nat := filter (λ q, q ≠ p) l.

Section page_cache.
Context {S : Type} `{Serializer S}.

Definition pc_on_ser {A} (m : M S A) : M (PageCache S) A :=
  zoom pc_ser (λ s c, mkPC (pc_cache c) (pc_lru c) (pc_elems c) (pc_next c) (pc_maxSize c) s
                        (pc_hits c) (pc_misses c)) m.

Definition pc_set_lru (l : option (list nat)) (c : PageCache S) : PageCache S :=
  mkPC (pc_cache c) l (pc_elems c) (pc_next c) (pc_maxSize c) (pc_ser c) (pc_hits c) (pc_misses c).
Definition pc_set_cache (m : gmap Z nat) (c : PageCache S) : PageCache S :=
  mkPC m (pc_lru c) (pc_elems c) (pc_next c) (pc_maxSize c) (pc_ser c) (pc_hits c) (pc_misses c).
Definition pc_set_elem (p : nat) (e : cacheEntry) (c : PageCache S) : PageCache S :=
  mkPC (pc_cache c) (pc_lru c) (<[p := e]> (pc_elems c)) (pc_next c) (pc_maxSize c) (pc_ser c)
    (pc_hits c) (pc_misses c).
Definition pc_count (h m : Z) (c : PageCache S) : PageCache S :=
  mkPC (pc_cache c) (pc_lru c) (pc_elems c) (pc_next c) (pc_maxSize c) (pc_ser c)
    (uint64 (pc_hits c + h)) (uint64 (pc_misses c + m)).

Definition NewPageCache (ser : S) (maxSize : Z) : PageCache S :=
  mkPC ∅ (Some []) ∅ 0 maxSize ser 0 0.

(** The cache entry an element points to. *)
Definition entry_of (p : nat) : M (PageCache S) cacheEntry :=
  c ← get_state;
  match pc_elems c !! p with Some e => mret e | None => panic end.

Definition evict : M (PageCache S) unit :=
  c ← get_state;
  match pc_lru c with
  | None => panic
  | Some l =>
      match last l with
      | None => mret ()
      | Some p =>
          e ← entry_of p;
          (if ce_dirty e
           then ignore_err (pc_on_ser (BlockWrite (ce_id e) (ce_block e)))
           else mret ());;
          modify (λ c, pc_set_cache (delete (ce_id e) (pc_cache c)) c);;
          modify (pc_set_lru (Some (list_Remove p l)))
      end
  end.

(** [for len(c.cache) >= c.maxSize { c.evict() }] *)
Fixpoint evict_loop (fuel : nat) : M (PageCache S) unit :=
  c ← get_state;
  if bool_decide (pc_maxSize c ≤ Z.of_nat (size (pc_cache c)))%Z then
    match fuel with
    | O => nofuel
    | Datatypes.S fuel' => evict;; evict_loop fuel'
    end
  else mret ().

Definition push_entry (e : cacheEntry) : M (PageCache S) unit :=
  c ← get_state;
  match pc_lru c with
  | None => panic
  | Some l =>
      let p := pc_next c in
      put_state (mkPC (<[ce_id e := p]> (pc_cache c)) (Some (p :: l)) (<[p := e]> (pc_elems c))
                   (Datatypes.S p) (pc_maxSize c) (pc_ser c) (pc_hits c) (pc_misses c))
  end.

(** One step of fuel for every element of the list: an eviction removes one, and
    with none left the loop makes no progress. *)
Definition evict_fuel (c : PageCache S) : nat := Datatypes.S (length (default [] (pc_lru c))).

Definition addToCache (id : BlockID) (block : Block) (dirty : bool) : M (PageCache S) unit :=
  c ← get_state;
  evict_loop (evict_fuel c);;
  push_entry (mkEntry id (Clone block) dirty).

Definition pc_touch (p : nat) (c : PageCache S) : PageCache S :=
  pc_set_lru (MoveToFront p <$> pc_lru c) c.

Definition pc_Get (id : BlockID) : M (PageCache S) Block :=
  c ← get_state;
  match pc_cache c !! id with
  | Some p =>
      modify (pc_touch p);;
      modify (pc_count 1 0);;
      e ← entry_of p;
      mret (Clone (ce_block e))
  | None =>
      modify (pc_count 0 1);;
      block ← pc_on_ser (BlockRead id);
      addToCache id block false;;
      mret (Clone block)
  end.

Definition pc_Put (id : BlockID) (block : Block) : M (PageCache S) unit :=
  c ← get_state;
  match pc_cache c !! id with
  | Some p =>
      modify (pc_touch p);;
      e ← entry_of p;
      modify (pc_set_elem p (mkEntry (ce_id e) (Clone block) true))
  | None => addToCache id block true
  end.

Definition pc_Allocate (block : Block) : M (PageCache S) BlockID :=
  id ← pc_on_ser (BlockWrite InvalidBlockID block);
  addToCache id block false;;
  mret id.

(** The loop of [Flush] over the elements from the front. *)
Fixpoint flush_elems (l : list nat) : M (PageCache S) unit :=
  match l with
  | [] => mret ()
  | p :: l' =>
      e ← entry_of p;
      (if ce_dirty e then
         pc_on_ser (BlockWrite (ce_id e) (ce_block e));;
         modify (pc_set_elem p (mkEntry (ce_id e) (ce_block e) false))
       else mret ());;
      flush_elems l'
  end.

Definition pc_Flush : M (PageCache S) unit :=
  c ← get_state;
  match pc_lru c with
  | None => panic
  | Some l => flush_elems l;; pc_on_ser Flush
  end.

Definition pc_Close : M (PageCache S) unit :=
  pc_Flush;;
  modify (λ c, pc_set_lru None (pc_set_cache ∅ c)).

Definition pc_Stats (c : PageCache S) : Z * Z * nat := (pc_hits c, pc_misses c, size (pc_cache c)).
Definition pc_Size (c : PageCache S) : nat := size (pc_cache c).

Definition pc_Delete (id : BlockID) : M (PageCache S) unit :=
  c ← get_state;
  (match pc_cache c !! id with
   | Some p =>
       modify (pc_set_lru (list_Remove p <$> pc_lru c));;
       modify (λ c, pc_set_cache (delete id (pc_cache c)) c)
   | None => mret ()
   end);;
  pc_on_ser (BlockDelete id).

#[global] Instance PageCache_BlockCache : BlockCache (PageCache S) := {|
  cache_Get := pc_Get;
  cache_Put := pc_Put;
  cache_Allocate := pc_Allocate;
|}.
End page_cache.

(** ** List facts *)

Lemma list_Remove_notin p l : p ∉ l → list_Remove p l = l.
Proof.
  unfold list_Remove. induction l as [|q l IH]; [done|]. intros [Hne Hni]%not_elem_of_cons.
  rewrite filter_cons_True by done. by rewrite IH.
Qed.

Lemma list_Remove_last p l : p ∉ l → list_Remove p (l ++ [p]) = l.
Proof.
  intros Hni. unfold list_Remove. rewrite filter_app, filter_cons_False by naive_solver.
  rewrite app_nil_r. by apply list_Remove_notin.
Qed.

Lemma MoveToFront_perm p l : NoDup l → p ∈ l → MoveToFront p l ≡ₚ l.
Proof.
  intros Hnd Hp. unfold MoveToFront. rewrite bool_decide_eq_true_2 by done.
  apply list_elem_of_split in Hp as (l1 & l2 & ->).
  apply NoDup_app in Hnd as (Hnd1 & Hni & Hnd2). apply NoDup_cons in Hnd2 as [Hp2 Hnd2].
  rewrite filter_app, filter_cons_False by naive_solver.
  change (p :: (list_Remove p l1 ++ list_Remove p l2) ≡ₚ l1 ++ p :: l2).
  rewrite !list_Remove_notin; [|done|set_solver]. by rewrite Permutation_middle.
Qed.

(** ** The invariant and the abstraction *)

Section refinement.
Context {S : Type} `{HS : SerializerSpec S}.
Implicit Types (c : PageCache S) (l : list nat) (id : Z) (p : nat).

(** The entry behind an element of the list: the map points back to it, it
    caches an existing block, and a clean entry equals the stored block. *)
Definition entry_wf c p (e : cacheEntry) : Prop :=
  pc_cache c !! ce_id e = Some p ∧ block_ok (ce_block e) ∧
  ∃ b, ser_view (pc_ser c) !! ce_id e = Some b ∧ (ce_dirty e = false → b = ce_block e).

Record pc_wf c l : Prop := {
  wf_ser : ser_ok (pc_ser c);
  wf_lru : pc_lru c = Some l;
  wf_nodup : NoDup l;
  wf_size : length l = size (pc_cache c);
  wf_elem p : p ∈ l → p < pc_next c ∧ ∃ e, pc_elems c !! p = Some e ∧ entry_wf c p e;
  wf_map id p : pc_cache c !! id = Some p → p ∈ l ∧ ∃ e, pc_elems c !! p = Some e ∧ ce_id e = id;
}.

Definition pc_ok c : Prop :=
  (∃ l, pc_wf c l) ∧ (0 < pc_maxSize c)%Z ∧ (Z.of_nat (size (pc_cache c)) ≤ pc_maxSize c)%Z.

(** What a client sees: cached blocks shadow the stored ones. *)
Definition pc_view c : gmap Z Block :=
  omap (λ p, ce_block <$> pc_elems c !! p) (pc_cache c) ∪ ser_view (pc_ser c).
Definition pc_free c : Z := ser_free (pc_ser c).

Lemma lookup_pc_view c id :
  pc_view c !! id =
    match pc_cache c !! id ≫= (λ p, pc_elems c !! p) with
    | Some e => Some (ce_block e)
    | None => ser_view (pc_ser c) !! id
    end.
Proof.
  unfold pc_view. rewrite lookup_union, lookup_omap.
  destruct (pc_cache c !! id) as [p|]; simpl.
  - destruct (pc_elems c !! p) as [e|]; simpl; [by rewrite union_Some_l|].
    by rewrite (left_id_L None _).
  - by rewrite (left_id_L None _).
Qed.

Lemma lookup_pc_view_cached c l id p e :
  pc_wf c l → pc_cache c !! id = Some p → pc_elems c !! p = Some e → pc_view c !! id = Some (ce_block e).
Proof. intros Hwf Hc He. rewrite lookup_pc_view, Hc. simpl. by rewrite He. Qed.

Lemma lookup_pc_view_uncached c id :
  pc_cache c !! id = None → pc_view c !! id = ser_view (pc_ser c) !! id.
Proof. intros Hc. by rewrite lookup_pc_view, Hc. Qed.

Lemma pc_view_is_stored c l id b :
  pc_wf c l → pc_view c !! id = Some b → is_Some (ser_view (pc_ser c) !! id) ∧ block_ok b.
Proof.
  intros Hwf. rewrite lookup_pc_view. destruct (pc_cache c !! id) as [p|] eqn:Hc; simpl.
  - destruct (wf_map _ _ Hwf _ _ Hc) as (Hp & e & He & <-). rewrite He. intros [= <-].
    destruct (wf_elem _ _ Hwf _ Hp) as (_ & e' & He' & _ & Hok & b' & Hb' & _).
    simplify_eq. eauto.
  - intros Hb. split; [eauto|]. eapply ser_view_ok; [apply Hwf|done].
Qed.

(** ** Eviction *)

Lemma pc_on_ser_ok {A} (m : M S A) c a s' :
  m (pc_ser c) = (Ok a, s') →
  pc_on_ser m c = (Ok a, mkPC (pc_cache c) (pc_lru c) (pc_elems c) (pc_next c) (pc_maxSize c) s'
                           (pc_hits c) (pc_misses c)).
Proof. unfold pc_on_ser, zoom. by intros ->. Qed.

(** Replacing the serializer by one with the same blocks, except possibly the
    block of the entry [p] that is about to leave the cache. *)
Lemma evict_state_wf c l p e s' h m :
  pc_wf c (l ++ [p]) → pc_elems c !! p = Some e → ser_ok s' →
  (ser_view s' = ser_view (pc_ser c) ∨ ser_view s' = <[ce_id e := ce_block e]> (ser_view (pc_ser c))) →
  pc_wf (mkPC (delete (ce_id e) (pc_cache c)) (Some l) (pc_elems c) (pc_next c) (pc_maxSize c) s' h m) l.
Proof.
  intros Hwf He Hs Hv. destruct Hwf as [Hser Hlru Hnd Hsz Hel Hmap].
  apply NoDup_app in Hnd as (Hnd & Hni & _).
  destruct (Hel p) as (Hpn & e0 & He0 & Hback & _); [auto with go|]. simplify_eq.
  constructor; simpl; try done.
  - rewrite map_size_delete_Some by eauto. rewrite length_app in Hsz. simpl in Hsz. lia.
  - intros q Hq. destruct (Hel q) as (Hqn & e' & He' & Hback' & Hbok & b & Hb & Hcl); [auto with go|].
    split; [done|]. exists e'. split; [done|].
    assert (ce_id e ≠ ce_id e') as Hne.
    { intros Heq. rewrite Heq, Hback' in Hback. injection Hback as ->. apply (Hni _ Hq). by apply list_elem_of_singleton. }
    unfold entry_wf. simpl. split; [by rewrite lookup_delete_ne|]. split; [done|].
    exists b. split; [|done]. destruct Hv as [->| ->]; [done|]. by rewrite lookup_insert_ne.
  - intros id q Hq. apply lookup_delete_Some in Hq as [Hne Hq].
    destruct (Hmap _ _ Hq) as (Hin & e' & He' & <-). split; [|eauto].
    apply elem_of_app in Hin as [?|Hin]; [done|]. apply list_elem_of_singleton in Hin as ->.
    simplify_eq.
Qed.

Lemma evict_view c l p e s' h m :
  pc_wf c (l ++ [p]) → pc_elems c !! p = Some e →
  ser_view s' !! ce_id e = Some (ce_block e) →
  (∀ id, id ≠ ce_id e → ser_view s' !! id = ser_view (pc_ser c) !! id) →
  pc_view (mkPC (delete (ce_id e) (pc_cache c)) (Some l) (pc_elems c) (pc_next c) (pc_maxSize c) s' h m)
    = pc_view c.
Proof.
  intros Hwf He Hv Ho. destruct (wf_elem _ _ Hwf p) as (_ & e0 & He0 & Hback & _); [auto with go|].
  simplify_eq. apply map_eq. intros id. rewrite !lookup_pc_view. simpl.
  destruct (decide (id = ce_id e)) as [->|Hne].
  - rewrite lookup_delete_eq, Hback. simpl. by rewrite He, Hv.
  - rewrite lookup_delete_ne by done. by rewrite Ho.
Qed.

Lemma evict_ok c l :
  pc_wf c l → l ≠ [] →
  ∃ c' l', evict c = (Ok (), c') ∧ pc_wf c' l' ∧ length l = Datatypes.S (length l') ∧
    pc_view c' = pc_view c ∧ pc_free c' = pc_free c ∧ pc_maxSize c' = pc_maxSize c ∧
    pc_cache c' ⊆ pc_cache c ∧ pc_next c' = pc_next c.
Proof.
  intros Hwf Hne. destruct (exists_last Hne) as (l' & p & ->).
  destruct (wf_elem _ _ Hwf p) as (_ & e & He & Hback & Hbok & b & Hb & Hcl); [auto with go|].
  assert (p ∉ l') as Hni.
  { pose proof (wf_nodup _ _ Hwf) as (_ & Hn & _)%NoDup_app. intros Hin. apply (Hn p Hin), list_elem_of_singleton. done. }
  assert (∃ s', ser_ok s' ∧ ser_free s' = ser_free (pc_ser c) ∧
    (ser_view s' = ser_view (pc_ser c) ∨ ser_view s' = <[ce_id e:=ce_block e]> (ser_view (pc_ser c))) ∧
    ser_view s' !! ce_id e = Some (ce_block e) ∧
    evict c = (Ok (), mkPC (delete (ce_id e) (pc_cache c)) (Some l') (pc_elems c) (pc_next c)
                  (pc_maxSize c) s' (pc_hits c) (pc_misses c))) as (s' & Hs & Hf & Hv & Hve & Hrun).
  { pose proof (wf_lru _ _ Hwf) as Hlru. unfold evict, entry_of. mrun. rewrite Hlru, last_snoc. cbn.
    rewrite He. cbn. rewrite list_Remove_last by done. destruct (ce_dirty e).
    - destruct (ser_write (pc_ser c) (ce_id e) (ce_block e)) as (s' & Hw & Hok & Hv & Hf);
        [apply Hwf|eauto|done|].
      exists s'. split_and!; auto; [by rewrite Hv, lookup_insert_eq|].
      unfold ignore_err, pc_on_ser, zoom. by rewrite Hw.
    - exists (pc_ser c). split_and!; auto; [apply Hwf|]. rewrite Hb, Hcl by done. done. }
  do 2 eexists. split; [exact Hrun|]. split_and!; simpl; try done.
  - by eapply evict_state_wf.
  - rewrite length_app. simpl. lia.
  - eapply evict_view; [done..|]. intros id Hid. destruct Hv as [->| ->]; [done|].
    by rewrite lookup_insert_ne.
  - apply delete_subseteq.
Qed.

Lemma evict_loop_ok c l fuel :
  pc_wf c l → (0 < pc_maxSize c)%Z → length l < fuel →
  ∃ c' l', evict_loop fuel c = (Ok (), c') ∧ pc_wf c' l' ∧
    (Z.of_nat (size (pc_cache c')) < pc_maxSize c')%Z ∧
    pc_view c' = pc_view c ∧ pc_free c' = pc_free c ∧ pc_maxSize c' = pc_maxSize c ∧
    pc_cache c' ⊆ pc_cache c.
Proof.
  revert c l. induction fuel as [|fuel IH]; intros c l Hwf Hmax Hfuel; [lia|].
  cbn [evict_loop]. mrun. case_bool_decide as Hsz.
  - assert (l ≠ []) as Hne.
    { intros ->. pose proof (wf_size _ _ Hwf) as Hs. simpl in Hs. rewrite <- Hs in Hsz. lia. }
    destruct (evict_ok c l Hwf Hne) as (c1 & l1 & Hrun & Hwf1 & Hlen & Hv & Hf & Hm & Hsub & _).
    rewrite Hrun.
    destruct (IH c1 l1 Hwf1) as (c2 & l2 & Hrun2 & Hwf2 & Hlt & Hv2 & Hf2 & Hm2 & Hsub2);
      [congruence|lia|].
    exists c2, l2. split_and!; try congruence; [done..|]. by transitivity (pc_cache c1).
  - exists c, l. split_and!; try done. lia.
Qed.

#[local] Arguments evict_loop : simpl never.

(** ** Adding an entry *)

Lemma push_entry_ok c l e b :
  pc_wf c l → (Z.of_nat (size (pc_cache c)) < pc_maxSize c)%Z → pc_cache c !! ce_id e = None →
  block_ok (ce_block e) → ser_view (pc_ser c) !! ce_id e = Some b →
  (ce_dirty e = false → b = ce_block e) →
  ∃ c', push_entry e c = (Ok (), c') ∧ pc_ok c' ∧
    pc_view c' = <[ce_id e := ce_block e]> (pc_view c) ∧ pc_free c' = pc_free c.
Proof.
  intros [Hser Hlru Hnd Hsz Hel Hmap] Hlt Hnone Hbok Hb Hcl.
  set (p := pc_next c).
  assert (p ∉ l) as Hp by (intros Hin; apply Hel in Hin as [Hin _]; unfold p in Hin; lia).
  eexists. split; [unfold push_entry; mrun; rewrite Hlru; reflexivity|]. split_and!; simpl.
  - unfold pc_ok. simpl. split_and!; [|lia|rewrite map_size_insert_None by done; lia].
    exists (p :: l). constructor; simpl; try done.
    + by constructor.
    + rewrite map_size_insert_None by done. by rewrite Hsz.
    + intros q [->|Hq]%elem_of_cons.
      * split; [lia|]. exists e. rewrite lookup_insert_eq. split; [done|].
        unfold entry_wf. simpl. rewrite lookup_insert_eq. eauto.
      * destruct (Hel q Hq) as (Hqn & e' & He' & Hback & Hok' & b' & Hb' & Hcl').
        split; [lia|]. exists e'. rewrite lookup_insert_ne by (unfold p; lia). split; [done|].
        unfold entry_wf. simpl. rewrite lookup_insert_ne by (intros Heq; congruence). eauto 6.
    + intros id q. destruct (decide (id = ce_id e)) as [->|Hne].
      * rewrite lookup_insert_eq. intros [= <-]. split; [by left|].
        exists e. by rewrite lookup_insert_eq.
      * rewrite lookup_insert_ne by done. intros Hq. destruct (Hmap _ _ Hq) as (Hin & e' & He' & Hid).
        split; [by right|]. exists e'. rewrite lookup_insert_ne; [done|].
        intros <-. by apply Hp.
  - apply map_eq. intros id. rewrite lookup_pc_view. simpl.
    destruct (decide (id = ce_id e)) as [->|Hne].
    + by rewrite !lookup_insert_eq; simpl; rewrite lookup_insert_eq.
    + rewrite !lookup_insert_ne, lookup_pc_view by done.
      destruct (pc_cache c !! id) as [q|] eqn:Hq; simpl; [|done].
      destruct (Hmap _ _ Hq) as (Hin & _). rewrite lookup_insert_ne; [done|].
      intros <-. by apply Hp.
  - done.
Qed.

Lemma evict_fuel_eq c l : pc_wf c l → evict_fuel c = Datatypes.S (length l).
Proof. intros Hwf. unfold evict_fuel. by rewrite (wf_lru _ _ Hwf). Qed.

Lemma addToCache_ok c l id b d b0 :
  pc_wf c l → (0 < pc_maxSize c)%Z → pc_cache c !! id = None → block_ok b →
  ser_view (pc_ser c) !! id = Some b0 → (d = false → b0 = b) →
  ∃ c', addToCache id b d c = (Ok (), c') ∧ pc_ok c' ∧
    pc_view c' = <[id := b]> (pc_view c) ∧ pc_free c' = pc_free c.
Proof.
  intros Hwf Hmax Hnone Hbok Hb0 Hcl. unfold addToCache. mrun.
  rewrite (evict_fuel_eq _ _ Hwf).
  destruct (evict_loop_ok c l (Datatypes.S (length l)) Hwf Hmax) as
    (c1 & l1 & Hrun & Hwf1 & Hlt & Hv & Hf & Hm & Hsub); [lia|].
  rewrite Hrun.
  assert (pc_cache c1 !! id = None) as Hnone1 by by eapply lookup_weaken_None.
  assert (pc_view c1 !! id = Some b0) as Hvid.
  { by rewrite Hv, lookup_pc_view_uncached. }
  rewrite lookup_pc_view_uncached in Hvid by done.
  destruct (push_entry_ok c1 l1 (mkEntry id (Clone b) d) b0) as (c2 & Hrun2 & Hok2 & Hv2 & Hf2);
    try done.
  exists c2. split_and!; try done; [by rewrite Hv2, Hv|congruence].
Qed.

(** ** Moving an entry to the front and changing it *)

Lemma touch_wf c l p : pc_wf c l → p ∈ l → pc_wf (pc_touch p c) (MoveToFront p l).
Proof.
  intros [Hser Hlru Hnd Hsz Hel Hmap] Hp. pose proof (MoveToFront_perm p l Hnd Hp) as HP.
  constructor; simpl; try done.
  - by rewrite Hlru.
  - by rewrite HP.
  - by rewrite HP.
  - intros q Hq. apply Hel. by rewrite <- HP.
  - intros id q Hq. destruct (Hmap _ _ Hq) as [Hin He]. split; [by rewrite HP|done].
Qed.

Lemma count_wf c l h m : pc_wf c l → pc_wf (pc_count h m c) l.
Proof. intros [Hser Hlru Hnd Hsz Hel Hmap]. by constructor. Qed.

Lemma set_elem_wf c l id p b :
  pc_wf c l → pc_cache c !! id = Some p → block_ok b → pc_wf (pc_set_elem p (mkEntry id b true) c) l.
Proof.
  intros [Hser Hlru Hnd Hsz Hel Hmap] Hid Hb.
  destruct (Hmap _ _ Hid) as (Hp & e & He & Heid). constructor; simpl; try done.
  - intros q Hq. destruct (Hel q Hq) as (Hqn & e' & He' & Hback & Hok' & b' & Hb' & Hcl').
    split; [done|]. destruct (decide (p = q)) as [<-|Hne].
    + exists (mkEntry id b true). rewrite lookup_insert_eq. split; [done|].
      simplify_eq. unfold entry_wf. simpl. split_and!; [done..|].
      exists b'. split; [done|discriminate].
    + exists e'. rewrite lookup_insert_ne by done. split; [done|]. unfold entry_wf. eauto 6.
  - intros id' q Hq. destruct (Hmap _ _ Hq) as (Hin & e' & He' & Hid'). split; [done|].
    destruct (decide (p = q)) as [<-|Hne].
    + exists (mkEntry id b true). rewrite lookup_insert_eq. split; [done|]. simpl. congruence.
    + exists e'. by rewrite lookup_insert_ne.
Qed.

(** ** The page cache implements the contract *)

Lemma pc_Get_ok c id b :
  pc_ok c → pc_view c !! id = Some b →
  ∃ c', pc_Get id c = (Ok b, c') ∧ pc_ok c' ∧ pc_view c' = pc_view c ∧ pc_free c' = pc_free c.
Proof.
  intros ([l Hwf] & Hmax & Hbound) Hv. unfold pc_Get. mrun.
  destruct (pc_cache c !! id) as [p|] eqn:Hc.
  - destruct (wf_map _ _ Hwf _ _ Hc) as (Hp & e & He & Hid).
    pose proof (lookup_pc_view_cached _ _ _ _ _ Hwf Hc He) as Hv'. simplify_eq.
    unfold entry_of. mrun. rewrite He. eexists. split; [reflexivity|].
    split_and!; try done. split_and!; try done.
    exists (MoveToFront p l). by apply (count_wf (pc_touch p c)), touch_wf.
  - rewrite lookup_pc_view_uncached in Hv by done.
    destruct (ser_read (pc_ser c) id b) as (s' & Hr & Hok & Hsv & Hsf); [apply Hwf|done|].
    rewrite (pc_on_ser_ok _ (pc_count 0 1 c) b s') by done. cbn.
    set (c1 := mkPC _ _ _ _ _ _ _ _).
    assert (pc_wf c1 l) as Hwf1.
    { destruct Hwf as [Hser Hlru Hnd Hsz Hel Hmap]. constructor; try done.
      intros p Hp. unfold entry_wf. simpl. rewrite Hsv. by apply Hel. }
    assert (pc_view c1 = pc_view c) as Hv1 by (unfold pc_view; simpl; by rewrite Hsv).
    destruct (addToCache_ok c1 l id b false b) as (c2 & Hrun & Hok2 & Hv2 & Hf2); try done.
    + by eapply ser_view_ok; [apply Hwf|].
    + unfold c1. simpl. by rewrite Hsv.
    + rewrite Hrun. exists c2. split_and!; try done.
      * rewrite Hv2, Hv1. apply insert_id. by rewrite lookup_pc_view_uncached.
      * by rewrite Hf2.
Qed.

Lemma pc_Put_ok c id b :
  pc_ok c → is_Some (pc_view c !! id) → block_ok b →
  ∃ c', pc_Put id b c = (Ok (), c') ∧ pc_ok c' ∧
    pc_view c' = <[id := b]> (pc_view c) ∧ pc_free c' = pc_free c.
Proof.
  intros ([l Hwf] & Hmax & Hbound) [b0 Hv] Hb. unfold pc_Put. mrun.
  destruct (pc_cache c !! id) as [p|] eqn:Hc.
  - destruct (wf_map _ _ Hwf _ _ Hc) as (Hp & e & He & Hid). subst id.
    unfold entry_of. mrun. rewrite He. eexists. split; [reflexivity|]. split_and!; try done.
    + split_and!; try done. exists (MoveToFront p l).
      apply (set_elem_wf (pc_touch p c)); [by apply touch_wf|done|done].
    + apply map_eq. intros id. rewrite lookup_pc_view. simpl.
      destruct (decide (id = ce_id e)) as [->|Hne].
      { rewrite Hc, lookup_insert_eq. simpl. by rewrite lookup_insert_eq. }
      rewrite lookup_insert_ne, lookup_pc_view by done.
      destruct (pc_cache c !! id) as [q|] eqn:Hq; simpl; [|done].
      destruct (wf_map _ _ Hwf _ _ Hq) as (_ & e' & He' & Hid').
      rewrite lookup_insert_ne; [done|]. intros <-. congruence.
  - destruct (pc_view_is_stored _ _ _ _ Hwf Hv) as [[b1 Hb1] _].
    by apply (addToCache_ok c l id b true b1).
Qed.

Lemma pc_Allocate_ok c b :
  pc_ok c → (0 < pc_free c)%Z → block_ok b →
  ∃ c' id, pc_Allocate b c = (Ok id, c') ∧ pc_ok c' ∧
    pc_view c !! id = None ∧ pc_view c' = <[id := b]> (pc_view c) ∧
    pc_free c' = (pc_free c - 1)%Z.
Proof.
  intros ([l Hwf] & Hmax & Hbound) Hf Hb. unfold pc_Allocate. mrun.
  destruct (ser_alloc (pc_ser c) b) as (s' & id & Hw & Hok & Hnone & Hsv & Hsf); [apply Hwf|done|done|].
  rewrite (pc_on_ser_ok _ c id s') by done.
  assert (pc_cache c !! id = None) as Hc.
  { destruct (pc_cache c !! id) as [p|] eqn:Hc; [|done].
    destruct (wf_map _ _ Hwf _ _ Hc) as (Hp & e & He & <-).
    destruct (wf_elem _ _ Hwf _ Hp) as (_ & e' & He' & _ & _ & b' & Hb' & _). simplify_eq. }
  set (c1 := mkPC _ _ _ _ _ _ _ _).
  assert (pc_wf c1 l) as Hwf1.
  { destruct Hwf as [Hser Hlru Hnd Hsz Hel Hmap]. constructor; try done.
    intros p Hp. unfold entry_wf. simpl. rewrite Hsv.
    destruct (Hel p Hp) as (? & e & He & Hback & Hbok & b' & Hb' & Hcl). split; [done|].
    exists e. split; [done|]. rewrite lookup_insert_ne by congruence. eauto. }
  destruct (addToCache_ok c1 l id b false b) as (c2 & Hrun & Hok2 & Hv2 & Hf2); try done.
  { unfold c1. simpl. by rewrite Hsv, lookup_insert_eq. }
  rewrite Hrun. exists c2, id. split_and!; try done.
  - by rewrite lookup_pc_view_uncached.
  - rewrite Hv2. apply map_eq. intros j. destruct (decide (j = id)) as [->|Hne].
    + by rewrite !lookup_insert_eq.
    + rewrite !lookup_insert_ne, !lookup_pc_view by done. unfold c1. simpl.
      by rewrite Hsv, lookup_insert_ne.
  - rewrite Hf2. unfold c1, pc_free. simpl. congruence.
Qed.

#[global] Program Instance PageCache_Spec : BlockCacheSpec (PageCache S) := {|
  bc_ok := pc_ok;
  bc_view := pc_view;
  bc_free := pc_free;
  bc_get := pc_Get_ok;
  bc_put := pc_Put_ok;
  bc_alloc := pc_Allocate_ok;
|}.
Next Obligation.
  intros c id b ([l Hwf] & _ & _) Hv. destruct (pc_view_is_stored _ _ _ _ Hwf Hv) as [[b' Hb'] Hok].
  split; [|done]. eapply ser_view_ok; [apply Hwf|done].
Qed.

Lemma NewPageCache_ok (s : S) n :
  ser_ok s → (0 < n)%Z → pc_ok (NewPageCache s n) ∧ pc_view (NewPageCache s n) = ser_view s.
Proof.
  intros Hs Hn. split.
  - split_and!; simpl; [|lia|rewrite map_size_empty; lia]. exists [].
    constructor; simpl; try done.
    + constructor.
    + intros p Hp. by apply not_elem_of_nil in Hp.
  - unfold pc_view. simpl. by rewrite omap_empty, (left_id_L ∅ _).
Qed.
End refinement.

(** ** Flush *)

Section flush.
Context {S : Type} `{HS : SerializerSpec S}.
Implicit Types (c : PageCache S) (l : list nat).

Definition elem_clean c (p : nat) : Prop := ∃ e, pc_elems c !! p = Some e ∧ ce_dirty e = false.

(** Writing one dirty entry back: nothing a client sees changes. *)
Lemma write_back_ok c l p e :
  pc_wf c l → p ∈ l → pc_elems c !! p = Some e →
  ∃ s', BlockWrite (ce_id e) (ce_block e) (pc_ser c) = (Ok (ce_id e), s') ∧
    ser_free s' = ser_free (pc_ser c) ∧
    let c' := pc_set_elem p (mkEntry (ce_id e) (ce_block e) false)
                (mkPC (pc_cache c) (pc_lru c) (pc_elems c) (pc_next c) (pc_maxSize c) s'
                   (pc_hits c) (pc_misses c)) in
    pc_wf c' l ∧ pc_view c' = pc_view c.
Proof.
  intros Hwf Hp He. destruct (wf_elem _ _ Hwf p Hp) as (Hpn & e' & He' & Hback & Hbok & b & Hb & Hcl).
  simplify_eq. destruct Hwf as [Hser Hlru Hnd Hsz Hel Hmap].
  destruct (ser_write (pc_ser c) (ce_id e) (ce_block e)) as (s' & Hw & Hok & Hv & Hf); [done|eauto|done|].
  exists s'. split; [done|]. split; [done|]. split.
  - constructor; simpl; try done.
    + intros q Hq. destruct (Hel q Hq) as (Hqn & e' & He' & Hbk & Hbok' & b' & Hb' & Hcl').
      split; [done|]. unfold entry_wf. simpl. rewrite Hv. destruct (decide (p = q)) as [<-|Hne].
      * rewrite lookup_insert_eq. eexists. split; [done|]. simpl. rewrite lookup_insert_eq. eauto.
      * rewrite lookup_insert_ne by done. exists e'. split; [done|].
        rewrite lookup_insert_ne by congruence. eauto.
    + intros id q Hq. destruct (Hmap _ _ Hq) as (Hin & e' & He' & Hid). split; [done|].
      destruct (decide (p = q)) as [<-|Hne].
      * rewrite lookup_insert_eq. eexists. split; [done|]. simpl. congruence.
      * rewrite lookup_insert_ne by done. eauto.
  - apply map_eq. intros id. rewrite !lookup_pc_view. simpl. rewrite Hv.
    destruct (pc_cache c !! id) as [q|] eqn:Hq; simpl.
    + destruct (Hmap _ _ Hq) as (Hin & e' & He' & Hid). destruct (decide (p = q)) as [<-|Hne].
      * rewrite lookup_insert_eq, He'. simpl. congruence.
      * by rewrite lookup_insert_ne, He' by done.
    + rewrite lookup_insert_ne; congruence.
Qed.

Lemma flush_elems_ok l1 c l :
  pc_wf c l → (∀ p, p ∈ l1 → p ∈ l) →
  ∃ c', flush_elems l1 c = (Ok (), c') ∧ pc_wf c' l ∧ pc_view c' = pc_view c ∧
    pc_cache c' = pc_cache c ∧ pc_maxSize c' = pc_maxSize c ∧ pc_free c' = pc_free c ∧
    (∀ p, p ∈ l1 → elem_clean c' p) ∧ (∀ p, elem_clean c p → elem_clean c' p).
Proof.
  revert c. induction l1 as [|p l1 IH]; intros c Hwf Hsub.
  { exists c. split_and!; try done. intros p Hp. by apply not_elem_of_nil in Hp. }
  assert (p ∈ l) as Hp by (apply Hsub; by left).
  destruct (wf_elem _ _ Hwf p Hp) as (_ & e & He & _).
  assert (∃ c1, (e0 ← entry_of p;
      (if ce_dirty e0 then
         pc_on_ser (BlockWrite (ce_id e0) (ce_block e0));;
         modify (pc_set_elem p (mkEntry (ce_id e0) (ce_block e0) false))
       else mret ())) c = (Ok (), c1) ∧ pc_wf c1 l ∧ pc_view c1 = pc_view c ∧
      pc_cache c1 = pc_cache c ∧ pc_maxSize c1 = pc_maxSize c ∧ pc_free c1 = pc_free c ∧
      elem_clean c1 p ∧ ∀ q, elem_clean c q → elem_clean c1 q) as
    (c1 & Hrun & Hwf1 & Hv1 & Hc1 & Hm1 & Hf1 & Hp1 & Hq1).
  { unfold entry_of. mrun. rewrite He. destruct (ce_dirty e) eqn:Hd.
    - destruct (write_back_ok c l p e Hwf Hp He) as (s' & Hw & Hf & Hwf' & Hv').
      rewrite (pc_on_ser_ok _ c _ _ Hw). eexists. split; [reflexivity|].
      split_and!; try done.
      + eexists. simpl. rewrite lookup_insert_eq. done.
      + intros q (e' & He' & Hd'). unfold elem_clean. simpl. destruct (decide (p = q)) as [<-|].
        * rewrite lookup_insert_eq. eauto.
        * rewrite lookup_insert_ne by done. eauto.
    - exists c. split_and!; try done. by exists e. }
  destruct (IH c1 Hwf1) as (c2 & Hrun2 & Hwf2 & Hv2 & Hc2 & Hm2 & Hf2 & Hcl2 & Hkeep2).
  { intros q Hq. apply Hsub. by right. }
  exists c2. split_and!; try congruence; try done.
  - cbn [flush_elems]. rewrite <- Hrun2. revert Hrun. unfold entry_of. mrun. rewrite He.
    destruct (ce_dirty e); [|by intros [= ->]].
    destruct (pc_on_ser _ c) as [[| | |] ?]; intros [= <-]. done.
  - intros q [->|Hq]%elem_of_cons; auto.
  - auto.
Qed.

Lemma pc_Flush_run c l :
  pc_wf c l →
  ∃ c', pc_Flush c = (Ok (), c') ∧ pc_wf c' l ∧ pc_view c' = pc_view c ∧
    pc_cache c' = pc_cache c ∧ pc_maxSize c' = pc_maxSize c ∧ ∀ p, p ∈ l → elem_clean c' p.
Proof.
  intros Hwf. destruct (flush_elems_ok l c l Hwf) as (c1 & Hrun & Hwf1 & Hv & Hc & Hm & _ & Hcl & _); [done|].
  destruct (ser_flush (pc_ser c1)) as (s' & Hs & Hok & Hsv & Hsf); [apply Hwf1|].
  unfold pc_Flush. mrun. rewrite (wf_lru _ _ Hwf), Hrun, (pc_on_ser_ok _ _ _ _ Hs).
  eexists. split; [reflexivity|]. split_and!; simpl; try done.
  - destruct Hwf1 as [Hser Hlru Hnd Hsz Hel Hmap]. constructor; simpl; try done.
    intros p Hp. unfold entry_wf. simpl. rewrite Hsv. by apply Hel.
  - unfold pc_view. simpl. by rewrite Hsv.
Qed.

Lemma clean_view c l :
  pc_wf c l → (∀ p, p ∈ l → elem_clean c p) → ser_view (pc_ser c) = pc_view c.
Proof.
  intros Hwf Hcl. apply map_eq. intros id. rewrite lookup_pc_view.
  destruct (pc_cache c !! id) as [p|] eqn:Hp; simpl; [|done].
  destruct (wf_map _ _ Hwf _ _ Hp) as (Hin & e & He & <-). rewrite He.
  destruct (Hcl _ Hin) as (e' & He' & Hd). simplify_eq.
  destruct (wf_elem _ _ Hwf _ Hin) as (_ & e' & He'' & _ & _ & b & Hb & Hbd). simplify_eq.
  by rewrite Hb, Hbd.
Qed.

(** [Flush] on a healthy serializer writes every dirty block back: afterwards
    the stored blocks are exactly what clients see, and nothing they see changed. *)
Theorem flush_writes_back c :
  pc_ok c →
  ∃ c', pc_Flush c = (Ok (), c') ∧ pc_ok c' ∧ pc_view c' = pc_view c ∧
        ser_view (pc_ser c') = pc_view c.
Proof.
  intros ([l Hwf] & Hmax & Hb).
  destruct (pc_Flush_run c l Hwf) as (c' & Hrun & Hwf' & Hv & Hc & Hm & Hcl).
  exists c'. split_and!; try done.
  - unfold pc_ok. rewrite Hc, Hm. eauto.
  - rewrite <- Hv. by eapply clean_view.
Qed.
End flush.

(** A concrete cache for the examples: two blocks allocated through a cache that
    holds one, over an empty data file. *)
Definition example_cache : PageCache FileSerializer :=
  (pc_Allocate (NewBlockFromData [Byte.x42])
     (pc_Allocate NewBlock (NewPageCache fs_fresh 1)).2).2.

Lemma pc_Allocate_state_ok {S} `{HS : SerializerSpec S} (c : PageCache S) b :
  pc_ok c → (0 < pc_free c)%Z → block_ok b →
  pc_ok (pc_Allocate b c).2 ∧ pc_free (pc_Allocate b c).2 = (pc_free c - 1)%Z.
Proof.
  intros Hok Hf Hb. destruct (pc_Allocate_ok c b Hok Hf Hb) as (c' & id & -> & ? & _ & _ & ?). done.
Qed.

Lemma example_cache_ok : pc_ok example_cache.
Proof.
  destruct (NewPageCache_ok fs_fresh 1) as [Hok _]; [apply fs_fresh_ok|lia|].
  destruct (pc_Allocate_state_ok _ NewBlock Hok) as [Hok1 Hf1]; [done|apply NewBlock_ok|].
  apply (pc_Allocate_state_ok _ _ Hok1); [|apply NewBlockFromData_ok]. by rewrite Hf1.
Qed.

Lemma flush_writes_back_witness :
  pc_ok example_cache ∧
  ∃ c', pc_Flush example_cache = (Ok (), c') ∧ pc_ok c' ∧ pc_view c' = pc_view example_cache ∧
        ser_view (pc_ser c') = pc_view example_cache.
Proof. split; [apply example_cache_ok|]. apply (flush_writes_back example_cache), example_cache_ok. Defined.

(** ** Refinement of a map of blocks *)

Inductive cache_op := CGet (id : BlockID) | CPut (id : BlockID) (b : Block) | CAlloc (b : Block).
Inductive cache_result := RBlock (b : Block) | RDone | RID (id : BlockID).

Definition cache_exec {S} `{Serializer S} (op : cache_op) : M (PageCache S) cache_result :=
  match op with
  | CGet id => b ← pc_Get id; mret (RBlock b)
  | CPut id b => pc_Put id b;; mret RDone
  | CAlloc b => id ← pc_Allocate b; mret (RID id)
  end.

(** The specification: a map of blocks that grows by fresh ids. *)
Inductive map_step : gmap Z Block → cache_op → cache_result → gmap Z Block → Prop :=
| step_get m id b : m !! id = Some b → map_step m (CGet id) (RBlock b) m
| step_put m id b : is_Some (m !! id) → map_step m (CPut id b) RDone (<[id := b]> m)
| step_alloc m id b : m !! id = None → id ≠ InvalidBlockID → map_step m (CAlloc b) (RID id) (<[id := b]> m).

Definition op_enabled (m : gmap Z Block) (free : Z) (op : cache_op) : Prop :=
  match op with
  | CGet id => is_Some (m !! id)
  | CPut id b => is_Some (m !! id) ∧ block_ok b
  | CAlloc b => (0 < free)%Z ∧ block_ok b
  end.

(** A run of operations, each enabled in the map the cache shows at that point. *)
Inductive cache_run {S} `{HS : SerializerSpec S} : PageCache S → list (cache_op * cache_result) → PageCache S → Prop :=
| run_nil c : cache_run c [] c
| run_cons c op r c1 tr c2 :
    op_enabled (pc_view c) (pc_free c) op → cache_exec op c = (Ok r, c1) →
    cache_run c1 tr c2 → cache_run c ((op, r) :: tr) c2.

Inductive map_run : gmap Z Block → list (cache_op * cache_result) → gmap Z Block → Prop :=
| mrun_nil m : map_run m [] m
| mrun_cons m op r m1 tr m2 : map_step m op r m1 → map_run m1 tr m2 → map_run m ((op, r) :: tr) m2.

Lemma cache_step_simulation {S} `{HS : SerializerSpec S} (c : PageCache S) op :
  pc_ok c → op_enabled (pc_view c) (pc_free c) op →
  ∃ r c', cache_exec op c = (Ok r, c') ∧ pc_ok c' ∧ map_step (pc_view c) op r (pc_view c').
Proof.
  intros Hok. destruct op as [id|id b|b]; simpl.
  - intros [b Hb]. destruct (pc_Get_ok c id b Hok Hb) as (c' & Hrun & Hok' & Hv & _).
    mstep Hrun. do 2 eexists. split; [reflexivity|]. rewrite Hv. split; [done|by constructor].
  - intros [Hs Hb]. destruct (pc_Put_ok c id b Hok Hs Hb) as (c' & Hrun & Hok' & Hv & _).
    mstep Hrun. do 2 eexists. split; [reflexivity|]. rewrite Hv. split; [done|by constructor].
  - intros [Hf Hb].
    destruct (pc_Allocate_ok c b Hok Hf Hb) as (c' & id & Hrun & Hok' & Hnone & Hv & _).
    mstep Hrun. do 2 eexists. split; [reflexivity|]. rewrite Hv. split; [done|]. constructor; [done|].
    assert (pc_view c' !! id = Some b) as Hid by (by rewrite Hv, lookup_insert_eq).
    pose proof (bc_view_ok c' id b Hok' Hid). unfold InvalidBlockID. lia.
Qed.

(** C5: the page cache is a refinement of a map of blocks: every enabled
    operation succeeds, every run of operations answers as the map would, and the
    cache never holds more than [maxSize] blocks. *)
Theorem page_cache_refines_map {S} `{HS : SerializerSpec S} (c c' : PageCache S) tr :
  pc_ok c → cache_run c tr c' →
  map_run (pc_view c) tr (pc_view c') ∧
  (Z.of_nat (pc_Size c') ≤ pc_maxSize c')%Z ∧
  ∀ op, op_enabled (pc_view c') (pc_free c') op → ∃ r c'', cache_exec op c' = (Ok r, c'').
Proof.
  intros Hok Hrun. induction Hrun as [c|c op r c1 tr c2 Hen Hex Hrun IH].
  - split; [constructor|]. split; [apply Hok|]. intros op Hop.
    destruct (cache_step_simulation c op Hok Hop) as (r & c'' & ? & _). eauto.
  - destruct (cache_step_simulation c op Hok Hen) as (r' & c1' & Hex' & Hok1 & Hstep).
    rewrite Hex' in Hex. injection Hex as -> ->. destruct (IH Hok1) as (Hm & Hb & Hen').
    split; [by econstructor|done].
Qed.

Lemma page_cache_refines_map_witness :
  ∃ c', map_run (pc_view example_cache) [(CGet 1, RBlock NewBlock)] (pc_view c') ∧
  (Z.of_nat (pc_Size c') ≤ pc_maxSize c')%Z ∧
  ∀ op, op_enabled (pc_view c') (pc_free c') op → ∃ r c'', cache_exec op c' = (Ok r, c'').
Proof.
  exists (cache_exec (CGet 1) example_cache).2.
  apply (page_cache_refines_map example_cache); [apply example_cache_ok|].
  eapply run_cons; [|vm_compute; reflexivity|constructor].
  exists NewBlock. vm_compute. reflexivity.
Defined.

(** ** Termination of the eviction loop *)

(** On a coherent cache, adding an entry returns when [maxSize] is positive;
    when [maxSize] is not positive the eviction loop never returns, whatever the
    number of iterations, once the list is empty. *)
Theorem eviction_terminates_iff {S} `{HS : SerializerSpec S} (c : PageCache S) :
  pc_wf c [] →
  ((0 < pc_maxSize c)%Z → ∀ fuel, 0 < fuel → (evict_loop fuel c).1 = Ok ()) ∧
  ((pc_maxSize c ≤ 0)%Z → ∀ fuel, (evict_loop fuel c).1 = NoFuel).
Proof.
  intros Hwf. split.
  - intros Hmax fuel Hf. destruct (evict_loop_ok c [] fuel Hwf Hmax Hf) as (c' & l' & -> & _). done.
  - intros Hmax fuel. induction fuel as [|fuel IH]; unfold evict_loop; fold (@evict_loop S _); mrun;
      (rewrite bool_decide_eq_true_2; [|rewrite <- (wf_size _ _ Hwf); simpl; lia]); [done|].
    assert (evict c = (Ok (), c)) as ->; [|done].
    unfold evict. mrun. by rewrite (wf_lru _ _ Hwf).
Qed.

Lemma eviction_terminates_iff_witness :
  (evict_loop 1 (NewPageCache fs_fresh 1)).1 = Ok () ∧
  (evict_loop 1000 (NewPageCache fs_fresh 0)).1 = NoFuel.
Proof.
  assert (∀ n, pc_wf (NewPageCache fs_fresh n) []) as Hwf.
  { intros n. constructor; simpl; try done; [apply fs_fresh_ok|constructor|].
    intros p Hp. by apply not_elem_of_nil in Hp. }
  split.
  - apply (eviction_terminates_iff (NewPageCache fs_fresh 1)); [apply Hwf|reflexivity|lia].
  - apply (eviction_terminates_iff (NewPageCache fs_fresh 0)); [apply Hwf|simpl; lia].
Defined.

(** ** Eviction ignores write errors *)

(** When the write-back of a dirty block fails, eviction still succeeds and
    forgets the block: clients then see whatever the serializer has stored. *)
Theorem evict_drops_unwritten_block {S} `{HS : SerializerSpec S} (c : PageCache S) l p e msg s' :
  pc_lru c = Some (l ++ [p]) → p ∉ l → pc_elems c !! p = Some e → ce_dirty e = true →
  BlockWrite (ce_id e) (ce_block e) (pc_ser c) = (Err msg, s') →
  ∃ c', evict c = (Ok (), c') ∧ pc_lru c' = Some l ∧
        pc_view c' !! ce_id e = ser_view s' !! ce_id e.
Proof.
  intros Hlru Hp He Hd Hw. eexists. split; [|split].
  - unfold evict, entry_of. mrun. rewrite Hlru, last_snoc. cbn. rewrite He. cbn.
    rewrite Hd. unfold ignore_err, pc_on_ser, zoom. rewrite Hw. reflexivity.
  - simpl. by rewrite list_Remove_last.
  - rewrite lookup_pc_view. simpl. by rewrite lookup_delete_eq.
Qed.

(** The state after [Put 1 b'] on a cached block 1 whose disk is about to fail. *)
Definition failing_cache : PageCache FileSerializer :=
  mkPC {[1%Z := 0]} (Some [0]) {[0 := mkEntry 1 (NewBlockFromData [Byte.x43]) true]} 1 1
    (mkFS (mkFile (replicate (2 * BlockSize) Byte.x00) 0 [IOfail 0]) 2 false 2) 0 0.

Lemma evict_drops_unwritten_block_witness :
  ∃ c', evict failing_cache = (Ok (), c') ∧ pc_lru c' = Some [] ∧
    pc_view c' !! 1%Z = Some NewBlock ∧ pc_view failing_cache !! 1%Z = Some (NewBlockFromData [Byte.x43]).
Proof.
  destruct (evict_drops_unwritten_block failing_cache [] 0
    (mkEntry 1 (NewBlockFromData [Byte.x43]) true) "failed to seek: input/output error"
    (mkFS (mkFile (replicate (2 * BlockSize) Byte.x00) 0 []) 2 false 2)) as (c' & Hrun & Hlru & Hv);
    [reflexivity|by intros ?%not_elem_of_nil|reflexivity|reflexivity|vm_compute; reflexivity|].
  exists c'. split; [exact Hrun|]. split; [exact Hlru|]. split; [|vm_compute; reflexivity].
  etransitivity; [exact Hv|]. vm_compute. reflexivity.
Defined.
