(* ===== verification/BTreeNode.v ===== *)
(** * B-tree nodes ([internal/btree/node.go])

    Leaf and internal nodes, their byte format, the binary searches, and the
    in-memory insert, delete and split.  A node of the code holds two parallel
    slices; the lemmas relate them to sorted association lists ([SortedKV]). *)

From S2P Require Import Prelude Bytes SortedKV Serializer.

Definition MaxLeafKeys : nat := 50.
Definition MaxInternalKeys : nat := 250.
Definition MinLeafKeys : nat := MaxLeafKeys / 2.
Definition MinInternalKeys : nat := MaxInternalKeys / 2.

Definition NodeTypeLeaf : Z := 1.
Definition NodeTypeInternal : Z := 2.

Record LeafNode := mkLeaf {
  ln_blockID : BlockID;
  ln_nodeType : Z;
  ln_numKeys : Z;
  ln_keys : list (list byte);
  ln_values : list (list byte);
  ln_right : BlockID;
}.

Record InternalNode := mkInternal {
  in_blockID : BlockID;
  in_nodeType : Z;
  in_numKeys : Z;
  in_keys : list (list byte);
  in_children : list BlockID;
}.

Definition NewLeafNode (id : BlockID) : LeafNode :=
  mkLeaf id NodeTypeLeaf 0 [] [] InvalidBlockID.
Definition NewInternalNode (id : BlockID) : InternalNode :=
  mkInternal id NodeTypeInternal 0 [] [].

Definition leaf_IsFull (n : LeafNode) : bool := bool_decide (MaxLeafKeys ≤ length (ln_keys n)).
Definition internal_IsFull (n : InternalNode) : bool :=
  bool_decide (MaxInternalKeys + 1 ≤ length (in_children n)).
Definition leaf_IsUnderflow (n : LeafNode) : bool := bool_decide (length (ln_keys n) < MinLeafKeys).
Definition internal_IsUnderflow (n : InternalNode) : bool :=
  bool_decide (length (in_children n) < MinInternalKeys + 1).

(** ** The byte format *)

(** A length-prefixed byte string; the length is cut to 16 bits. *)
Definition put_bytes (bs : list byte) : list byte :=
  le_bytes 2 (uint16 (Z.of_nat (length bs))) ++ bs.
Definition get_bytes (r : list byte) : list byte * list byte :=
  let '(n, r) := binary_Read 2 0 r in Reader_Read (Z.to_nat n) r.

Definition leaf_entry (n : LeafNode) (i : nat) : outcome (list byte) :=
  k ← go_index (ln_keys n) i;
  v ← go_index (ln_values n) i;
  Ok (put_bytes k ++ put_bytes v).

Definition leaf_Serialize (n : LeafNode) : outcome (list byte) :=
  entries ← mapM (leaf_entry n) (seq 0 (Z.to_nat (ln_numKeys n)));
  Ok (le_bytes 1 (ln_nodeType n) ++ le_bytes 2 (ln_numKeys n) ++ le_bytes 4 (ln_right n)
        ++ concat entries).

Fixpoint read_entries (n : nat) (r : list byte) : list (list byte) * list (list byte) :=
  match n with
  | O => ([], [])
  | S n' =>
      let '(k, r) := get_bytes r in
      let '(v, r) := get_bytes r in
      let '(ks, vs) := read_entries n' r in
      (k :: ks, v :: vs)
  end.

Definition DeserializeLeaf (id : BlockID) (data : list byte) : outcome LeafNode :=
  if bool_decide (length data < 7) then Err "data too small"
  else
    let '(nodeType, r) := binary_Read 1 0 data in
    if bool_decide (nodeType ≠ NodeTypeLeaf) then Err "not a leaf node"
    else
      let '(numKeys, r) := binary_Read 2 0 r in
      let '(rightID, r) := binary_Read 4 InvalidBlockID r in
      let '(ks, vs) := read_entries (Z.to_nat numKeys) r in
      Ok (mkLeaf id NodeTypeLeaf numKeys ks vs rightID).

Definition internal_Serialize (n : InternalNode) : list byte :=
  le_bytes 1 (in_nodeType n) ++ le_bytes 2 (in_numKeys n)
    ++ le_bytes 2 (uint16 (Z.of_nat (length (in_children n))))
    ++ concat (le_bytes 4 <$> in_children n) ++ concat (put_bytes <$> in_keys n).

Fixpoint read_children (n : nat) (r : list byte) : list BlockID * list byte :=
  match n with
  | O => ([], r)
  | S n' =>
      let '(c, r) := binary_Read 4 InvalidBlockID r in
      let '(cs, r) := read_children n' r in
      (c :: cs, r)
  end.

Fixpoint read_keys (n : nat) (r : list byte) : list (list byte) :=
  match n with
  | O => []
  | S n' => let '(k, r) := get_bytes r in k :: read_keys n' r
  end.

Definition DeserializeInternal (id : BlockID) (data : list byte) : outcome InternalNode :=
  if bool_decide (length data < 7) then Err "data too small"
  else
    let '(nodeType, r) := binary_Read 1 0 data in
    if bool_decide (nodeType ≠ NodeTypeInternal) then Err "not an internal node"
    else
      let '(numKeys, r) := binary_Read 2 0 r in
      let '(numChildren, r) := binary_Read 2 0 r in
      let '(cs, r) := read_children (Z.to_nat numChildren) r in
      Ok (mkInternal id NodeTypeInternal numKeys (read_keys (Z.to_nat numKeys) r) cs).

(** ** Searching *)

(** The loop of [findKey] and [FindChild]; [p] is their comparison. *)
Fixpoint search_loop (fuel : nat) (p : list byte → bool) (ks : list (list byte)) (low high : nat)
    : outcome nat :=
  if bool_decide (low < high) then
    match fuel with
    | O => NoFuel
    | S fuel' =>
        let mid := (low + high) / 2 in
        k ← go_index ks mid;
        if p k then search_loop fuel' p ks (mid + 1) high else search_loop fuel' p ks low mid
    end
  else Ok low.

(** The interval shrinks in every round, so [length] rounds are enough. *)
Definition findKey (n : LeafNode) (key : list byte) : outcome nat :=
  search_loop (length (ln_keys n)) (λ k, bool_decide (k ≺ key)) (ln_keys n) 0 (length (ln_keys n)).

Definition FindChild (n : InternalNode) (key : list byte) : outcome nat :=
  search_loop (length (in_keys n)) (λ k, bool_decide (k ≼ key)) (in_keys n) 0 (length (in_keys n)).

(** [pos < len(keys) && bytes.Equal(keys[pos], key)] *)
Definition key_at (ks : list (list byte)) (pos : nat) (key : list byte) : bool :=
  match ks !! pos with Some k => bytes_Equal k key | None => false end.

(** ** Leaf operations *)

Definition leaf_Insert (n : LeafNode) (key value : list byte) : outcome LeafNode :=
  if leaf_IsFull n then Err "leaf node is full"
  else
    pos ← findKey n key;
    if key_at (ln_keys n) pos key then
      vs ← go_set (ln_values n) pos value;
      Ok (mkLeaf (ln_blockID n) (ln_nodeType n) (ln_numKeys n) (ln_keys n) vs (ln_right n))
    else
      ks ← slice_insert (ln_keys n) pos key;
      vs ← slice_insert (ln_values n) pos value;
      Ok (mkLeaf (ln_blockID n) (ln_nodeType n) (uint16 (ln_numKeys n + 1)) ks vs (ln_right n)).

Definition leaf_Delete (n : LeafNode) (key : list byte) : outcome (bool * LeafNode) :=
  pos ← findKey n key;
  if negb (key_at (ln_keys n) pos key) then Ok (false, n)
  else
    ks ← slice_remove (ln_keys n) pos;
    vs ← slice_remove (ln_values n) pos;
    Ok (true, mkLeaf (ln_blockID n) (ln_nodeType n) (uint16 (ln_numKeys n - 1)) ks vs (ln_right n)).

Definition leaf_Get (n : LeafNode) (key : list byte) : outcome (option (list byte)) :=
  pos ← findKey n key;
  if negb (key_at (ln_keys n) pos key) then Ok None
  else v ← go_index (ln_values n) pos; Ok (Some v).

(** The left half (the receiver afterwards) and the new right node. *)
Definition leaf_Split (n : LeafNode) (newID : BlockID) : outcome (LeafNode * LeafNode) :=
  let mid := length (ln_keys n) / 2 in
  rks ← slice_from (ln_keys n) mid;
  rvs ← slice_from (ln_values n) mid;
  lks ← slice_to (ln_keys n) mid;
  lvs ← slice_to (ln_values n) mid;
  Ok (mkLeaf (ln_blockID n) (ln_nodeType n) (uint16 (Z.of_nat (length lks))) lks lvs newID,
      mkLeaf newID NodeTypeLeaf (uint16 (Z.of_nat (length rks))) rks rvs (ln_right n)).

(** ** Internal operations *)

Definition internal_Insert (n : InternalNode) (key : list byte) (rightChild : BlockID)
    : outcome InternalNode :=
  if internal_IsFull n then Err "internal node is full"
  else
    pos ← FindChild n key;
    ks ← slice_insert (in_keys n) pos key;
    cs ← slice_insert (in_children n) (pos + 1) rightChild;
    Ok (mkInternal (in_blockID n) (in_nodeType n) (uint16 (in_numKeys n + 1)) ks cs).

Definition internal_Split (n : InternalNode) (newID : BlockID)
    : outcome (InternalNode * InternalNode * list byte) :=
  let mid := length (in_children n) / 2 in
  rcs ← slice_from (in_children n) mid;
  if bool_decide (mid = 0) then Panic else
  promotedKey ← go_index (in_keys n) (mid - 1);
  rks ← slice_from (in_keys n) mid;
  lks ← slice_to (in_keys n) (mid - 1);
  lcs ← slice_to (in_children n) mid;
  Ok (mkInternal (in_blockID n) (in_nodeType n) (uint16 (Z.of_nat (length lks))) lks lcs,
      mkInternal newID NodeTypeInternal (uint16 (Z.of_nat (length rks))) rks rcs,
      promotedKey).

(** ** The binary search against a linear scan *)

Fixpoint lower_bound (p : list byte → bool) (ks : list (list byte)) : nat :=
  match ks with
  | [] => 0
  | k :: ks' => if p k then S (lower_bound p ks') else 0
  end.

(** [p] holds on a prefix of [ks]. *)
Definition prefix_closed (p : list byte → bool) (ks : list (list byte)) : Prop :=
  ∀ i j x y, i ≤ j → ks !! i = Some x → ks !! j = Some y → p y = true → p x = true.

Definition cut_at (p : list byte → bool) (ks : list (list byte)) (r : nat) : Prop :=
  r ≤ length ks ∧ (∀ i x, i < r → ks !! i = Some x → p x = true) ∧
  (∀ i x, r ≤ i → ks !! i = Some x → p x = false).

Lemma cut_at_lower_bound p ks r : cut_at p ks r → r = lower_bound p ks.
Proof.
  revert r. induction ks as [|k ks IH]; intros r (Hr & Hlt & Hge); simpl in *; [lia|].
  destruct r as [|r].
  - by rewrite (Hge 0 k) by (simpl; auto with lia).
  - rewrite (Hlt 0 k) by (simpl; auto with lia). f_equal. apply IH.
    split; [lia|]. split; intros i x Hi Hx; [apply (Hlt (S i))|apply (Hge (S i))]; auto with lia.
Qed.

Lemma search_loop_cut fuel p ks low high :
  prefix_closed p ks → low ≤ high ≤ length ks → high - low ≤ fuel →
  (∀ i x, i < low → ks !! i = Some x → p x = true) →
  (∀ i x, high ≤ i → ks !! i = Some x → p x = false) →
  ∃ r, search_loop fuel p ks low high = Ok r ∧ cut_at p ks r.
Proof.
  intros Hp. revert low high.
  induction fuel as [|fuel IH]; intros low high Hr Hf Hlt Hge; unfold search_loop; fold search_loop.
  - rewrite bool_decide_eq_false_2 by lia. exists low. split; [done|].
    replace high with low in * by lia. split; [lia|auto].
  - case_bool_decide as Hlh.
    2: { exists low. split; [done|]. replace high with low in * by lia. split; [lia|auto]. }
    pose proof (Nat.Div0.div_lt_upper_bound (low + high) 2 high ltac:(lia)) as H1.
    pose proof (Nat.div_le_lower_bound (low + high) 2 low ltac:(lia) ltac:(lia)) as H2.
    set (mid := (low + high) / 2) in *. clearbody mid. cbn -[search_loop].
    destruct (lookup_lt_is_Some_2 ks mid) as [k Hk]; [lia|]. rewrite (go_index_ok _ _ _ Hk).
    change (Ok k ≫= ?f) with (f k). cbn beta.
    destruct (p k) eqn:Hpk; apply IH; try lia; try done.
    + intros i x Hi Hx. apply (Hp i mid x k); auto with lia.
    + intros i x Hi Hx. destruct (p x) eqn:Hpx; [|done].
      rewrite (Hp mid i k x) in Hpk; auto with lia.
Qed.

Lemma prefix_closed_sorted p ks :
  StronglySorted bytes_lt ks → (∀ x y, x ≺ y → p y = true → p x = true) → prefix_closed p ks.
Proof.
  intros Hs Hp i j x y Hij Hx Hy Hpy. destruct (decide (i = j)) as [->|Hne]; [by simplify_eq|].
  apply (Hp x y); [|done]. revert i j Hij Hne Hx Hy.
  induction Hs as [|k ks Hs IH Hk]; intros i j Hij Hne Hx Hy; [done|].
  destruct i as [|i], j as [|j]; simpl in *; simplify_eq; try lia.
  - rewrite Forall_forall in Hk. apply Hk. by eapply list_elem_of_lookup_2.
  - apply (IH i j); auto with lia.
Qed.

Lemma search_loop_lower_bound p ks :
  StronglySorted bytes_lt ks → (∀ x y, x ≺ y → p y = true → p x = true) →
  search_loop (length ks) p ks 0 (length ks) = Ok (lower_bound p ks).
Proof.
  intros Hs Hp. destruct (search_loop_cut (length ks) p ks 0 (length ks)) as (r & -> & Hr).
  - by apply prefix_closed_sorted.
  - lia.
  - lia.
  - lia.
  - intros i x Hi Hx. apply lookup_lt_Some in Hx. lia.
  - by rewrite (cut_at_lower_bound _ _ _ Hr).
Qed.

(** The number of keys below [k], and the number of keys not above [k]. *)
Definition count_lt (k : list byte) := lower_bound (λ x, bool_decide (x ≺ k)).
Definition count_le (k : list byte) := lower_bound (λ x, bool_decide (x ≼ k)).

Lemma findKey_count n k :
  StronglySorted bytes_lt (ln_keys n) → findKey n k = Ok (count_lt k (ln_keys n)).
Proof.
  intros Hs. apply search_loop_lower_bound; [done|]. intros x y Hxy.
  rewrite !bool_decide_eq_true. intros. by transitivity y.
Qed.

Lemma FindChild_count n k :
  StronglySorted bytes_lt (in_keys n) → FindChild n k = Ok (count_le k (in_keys n)).
Proof.
  intros Hs. apply search_loop_lower_bound; [done|]. intros x y Hxy.
  rewrite !bool_decide_eq_true. eauto with go.
Qed.

Lemma lower_bound_le p ks : lower_bound p ks ≤ length ks.
Proof. induction ks as [|k ks IH]; simpl; [done|]. destruct (p k); lia. Qed.

Lemma count_lt_cons_lt k x ks : x ≺ k → count_lt k (x :: ks) = S (count_lt k ks).
Proof. intros. unfold count_lt. simpl. by rewrite bool_decide_eq_true_2. Qed.
Lemma count_lt_cons_ge k x ks : ¬ x ≺ k → count_lt k (x :: ks) = 0.
Proof. intros. unfold count_lt. simpl. by rewrite bool_decide_eq_false_2. Qed.
Lemma count_le_cons_le k x ks : x ≼ k → count_le k (x :: ks) = S (count_le k ks).
Proof. intros. unfold count_le. simpl. by rewrite bool_decide_eq_true_2. Qed.
Lemma count_le_cons_gt k x ks : k ≺ x → count_le k (x :: ks) = 0.
Proof.
  intros. unfold count_le. simpl. rewrite bool_decide_eq_false_2; [done|].
  rewrite bytes_le_lt_iff. auto.
Qed.

(** Positions in a sorted list of entries. *)
Lemma key_at_count k l : kv_sorted l → key_at l.*1 (count_lt k l.*1) k = bool_decide (k ∈ l.*1).
Proof.
  unfold key_at. induction l as [|[k' v'] l IH]; [done|]. intros [Hk Hl]. rewrite fmap_cons; cbn [fst].
  destruct (decide (k' ≺ k)) as [Hlt|Hge].
  - rewrite count_lt_cons_lt by done. change ((k' :: l.*1) !! S (count_lt k l.*1)) with (l.*1 !! count_lt k l.*1).
    rewrite IH by done.
    apply bool_decide_ext. rewrite elem_of_cons. split; [auto|]. intros [->|?]; [|done].
    by apply bytes_lt_irrefl in Hlt.
  - rewrite count_lt_cons_ge by done. simpl. unfold bytes_Equal. apply bool_decide_ext.
    rewrite elem_of_cons. split; [auto|]. intros [?|(e & -> & He)%list_elem_of_fmap]; [done|].
    rewrite Forall_forall in Hk. destruct Hge. by apply Hk.
Qed.

Lemma insert_kv_absent k v l :
  kv_sorted l → k ∉ l.*1 →
  take (count_lt k l.*1) l ++ (k, v) :: drop (count_lt k l.*1) l = insert_kv k v l.
Proof.
  induction l as [|[k' v'] l IH]; [done|]. intros [Hk Hl] [Hne Hni]%not_elem_of_cons.
  rewrite fmap_cons. cbn [fst insert_kv].
  compare_cases k' k; [| |].
  - rewrite count_lt_cons_lt by done. cbn. by rewrite IH.
  - done.
  - rewrite count_lt_cons_ge; [done|]. rewrite <- bytes_le_lt_iff. auto with go.
Qed.

Lemma insert_kv_present k v l :
  kv_sorted l → k ∈ l.*1 →
  (insert_kv k v l).*1 = l.*1 ∧ (insert_kv k v l).*2 = <[count_lt k l.*1 := v]> l.*2 ∧
  count_lt k l.*1 < length l.
Proof.
  induction l as [|[k' v'] l IH]; [by intros _ ?%not_elem_of_nil|]. intros [Hk Hl] Hin.
  rewrite !fmap_cons in *. cbn [fst snd insert_kv] in *.
  compare_cases k' k; [| |].
  - apply elem_of_cons in Hin as [->|Hin]; [by apply bytes_lt_irrefl in H|].
    rewrite count_lt_cons_lt by done. destruct (IH Hl Hin) as (H1 & H2 & H3). rewrite !fmap_cons. cbn [fst snd].
    rewrite H1, H2. simpl. auto with lia.
  - rewrite count_lt_cons_ge by apply bytes_lt_irrefl. simpl. auto with lia.
  - apply elem_of_cons in Hin as [->|(e & -> & He)%list_elem_of_fmap]; [by apply bytes_lt_irrefl in H|].
    rewrite Forall_forall in Hk. destruct (bytes_lt_irrefl e.1). transitivity k'; auto.
Qed.

Lemma delete_kv_present k l :
  kv_sorted l → k ∈ l.*1 →
  take (count_lt k l.*1) l ++ drop (S (count_lt k l.*1)) l = delete_kv k l.
Proof.
  unfold delete_kv. induction l as [|[k' v'] l IH]; [by intros _ ?%not_elem_of_nil|].
  intros [Hk Hl] Hin. rewrite fmap_cons in *. cbn [fst] in *. rewrite filter_cons. case_decide as Hd.
  - simpl in Hd. apply elem_of_cons in Hin as [->|Hin]; [done|].
    assert (k' ≺ k). { apply list_elem_of_fmap in Hin as (e & -> & He). rewrite Forall_forall in Hk. auto. }
    rewrite count_lt_cons_lt by done. cbn. by rewrite IH.
  - assert (k' = k) as -> by (simpl in Hd; destruct (decide (k' = k)); [done|tauto]).
    rewrite count_lt_cons_ge by apply bytes_lt_irrefl. simpl. symmetry. apply delete_kv_notin.
    eapply Forall_impl; [done|]. simpl. intros e He Heq. by apply bytes_lt_ne in He.
Qed.

Lemma kv_map_present k l :
  kv_sorted l → k ∈ l.*1 → l.*2 !! count_lt k l.*1 = kv_map l !! k.
Proof.
  unfold kv_map. induction l as [|[k' v'] l IH]; [by intros _ ?%not_elem_of_nil|].
  intros [Hk Hl] Hin. rewrite !fmap_cons in *. cbn [fst snd list_to_map foldr] in *.
  destruct (decide (k' = k)) as [->|Hne].
  - rewrite count_lt_cons_ge by apply bytes_lt_irrefl. simpl. by rewrite lookup_insert_eq.
  - apply elem_of_cons in Hin as [->|Hin]; [done|].
    assert (k' ≺ k). { apply list_elem_of_fmap in Hin as (e & -> & He). rewrite Forall_forall in Hk. auto. }
    rewrite count_lt_cons_lt, lookup_insert_ne by done. by apply IH.
Qed.

Lemma kv_map_absent k (l : list kv) : k ∉ l.*1 → kv_map l !! k = None.
Proof. apply not_elem_of_list_to_map_1. Qed.

(** ** Nodes of well-formed trees *)

Definition leaf_of (id right : BlockID) (l : list kv) : LeafNode :=
  mkLeaf id NodeTypeLeaf (Z.of_nat (length l)) l.*1 l.*2 right.
Definition internal_of (id : BlockID) (ks : list (list byte)) (cs : list BlockID) : InternalNode :=
  mkInternal id NodeTypeInternal (Z.of_nat (length ks)) ks cs.

Definition kv_size (e : kv) : nat := 4 + length e.1 + length e.2.
Definition leaf_size (l : list kv) : nat := 7 + sum_list (kv_size <$> l).
Definition internal_size (ks : list (list byte)) (cs : list BlockID) : nat :=
  5 + 4 * length cs + sum_list ((λ k, 2 + length k) <$> ks).

(** *** Round trips *)

Lemma get_put_bytes bs r : (Z.of_nat (length bs) < 65536)%Z → get_bytes (put_bytes bs ++ r) = (bs, r).
Proof.
  intros Hl. unfold get_bytes, put_bytes. rewrite <- app_assoc, binary_Read_app.
  rewrite uint16_small by lia. rewrite Z.mod_small by (simpl; lia). rewrite Nat2Z.id.
  apply Reader_Read_app.
Qed.

Lemma length_put_bytes bs : length (put_bytes bs) = 2 + length bs.
Proof. unfold put_bytes. by rewrite length_app, length_le_bytes. Qed.

Definition entry_bytes (e : kv) : list byte := put_bytes e.1 ++ put_bytes e.2.
Definition small_kv (e : kv) : Prop :=
  (Z.of_nat (length e.1) < 65536)%Z ∧ (Z.of_nat (length e.2) < 65536)%Z.

Lemma leaf_entry_middle id right pre e l :
  leaf_entry (leaf_of id right (pre ++ e :: l)) (length pre) = Ok (entry_bytes e).
Proof.
  unfold leaf_entry, leaf_of, go_index. cbn [ln_keys ln_values].
  rewrite !list_lookup_fmap, list_lookup_middle by done. done.
Qed.

Lemma leaf_entries_run id right l pre :
  mapM (leaf_entry (leaf_of id right (pre ++ l))) (seq (length pre) (length l))
    = Ok (entry_bytes <$> l).
Proof.
  revert pre. induction l as [|e l IH]; intros pre; [done|]. cbn [length seq mapM].
  rewrite leaf_entry_middle. osteps.
  specialize (IH (pre ++ [e])). rewrite length_app, <- app_assoc, Nat.add_1_r in IH.
  simpl app in IH. by rewrite IH.
Qed.

Lemma leaf_Serialize_of id right l :
  leaf_Serialize (leaf_of id right l) =
    Ok (le_bytes 1 NodeTypeLeaf ++ le_bytes 2 (Z.of_nat (length l)) ++ le_bytes 4 right
          ++ concat (entry_bytes <$> l)).
Proof.
  unfold leaf_Serialize. simpl ln_numKeys. rewrite Nat2Z.id.
  pose proof (leaf_entries_run id right l []) as Hl. simpl in Hl. by rewrite Hl.
Qed.

Lemma read_entries_concat l r :
  Forall small_kv l → read_entries (length l) (concat (entry_bytes <$> l) ++ r) = (l.*1, l.*2).
Proof.
  induction 1 as [|e l [Hk Hv] _ IH]; [done|]. cbn [length read_entries fmap list_fmap concat].
  unfold entry_bytes at 1. rewrite <- !app_assoc, !get_put_bytes by done. by rewrite IH.
Qed.

Lemma sum_list_fmap_cons {A} (f : A → nat) x l :
  sum_list (f <$> x :: l) = f x + sum_list (f <$> l).
Proof. done. Qed.

Lemma sum_list_elem {A} (f : A → nat) l x : x ∈ l → f x ≤ sum_list (f <$> l).
Proof. induction 1; rewrite sum_list_fmap_cons; lia. Qed.

Lemma sum_list_count {A} (f : A → nat) n l :
  (∀ x, n ≤ f x) → n * length l ≤ sum_list (f <$> l).
Proof.
  intros Hf. induction l as [|x l IH]; [simpl; lia|]. rewrite sum_list_fmap_cons.
  specialize (Hf x). simpl. lia.
Qed.

Lemma length_concat_fmap {A} (f : A → list byte) (g : A → nat) l :
  (∀ x, length (f x) = g x) → length (concat (f <$> l)) = sum_list (g <$> l).
Proof.
  intros Hf. induction l as [|x l IH]; [done|].
  rewrite sum_list_fmap_cons, fmap_cons. cbn [concat]. by rewrite length_app, IH, Hf.
Qed.

Lemma length_concat_entries l : length (concat (entry_bytes <$> l)) = sum_list (kv_size <$> l).
Proof.
  apply length_concat_fmap. intros e. unfold entry_bytes, kv_size.
  rewrite length_app, !length_put_bytes. lia.
Qed.

Lemma entry_size_bound l e : e ∈ l → kv_size e ≤ sum_list (kv_size <$> l).
Proof. apply sum_list_elem. Qed.
Lemma entries_count_bound l : 4 * length l ≤ sum_list (kv_size <$> l).
Proof. apply sum_list_count. intros e. unfold kv_size. lia. Qed.

Lemma fits_small l : leaf_size l ≤ BlockSize → Forall small_kv l.
Proof.
  pose proof BlockSize_val. unfold leaf_size. intros Hf. rewrite Forall_forall. intros e He.
  apply entry_size_bound in He. unfold kv_size at 1 in He. split; lia.
Qed.

Lemma leaf_decode id right l r :
  leaf_size l ≤ BlockSize → (0 ≤ right < 2 ^ 32)%Z →
  DeserializeLeaf id ((le_bytes 1 NodeTypeLeaf ++ le_bytes 2 (Z.of_nat (length l))
    ++ le_bytes 4 right ++ concat (entry_bytes <$> l)) ++ r) = Ok (leaf_of id right l).
Proof.
  intros Hf Hr. pose proof BlockSize_val. pose proof (entries_count_bound l).
  unfold leaf_size in Hf. unfold DeserializeLeaf. rewrite bool_decide_eq_false_2.
  2: { rewrite !length_app, !length_le_bytes. lia. }
  rewrite <- !app_assoc, binary_Read_app. simpl bool_decide. cbn iota.
  rewrite !binary_Read_app. rewrite !Z.mod_small by (simpl; lia). rewrite Nat2Z.id.
  by rewrite read_entries_concat by (by apply fits_small).
Qed.

Lemma read_children_concat cs r :
  Forall (λ c, 0 ≤ c < 2 ^ 32)%Z cs →
  read_children (length cs) (concat (le_bytes 4 <$> cs) ++ r) = (cs, r).
Proof.
  induction 1 as [|c cs Hc _ IH]; [done|]. cbn [length read_children fmap list_fmap concat].
  rewrite <- app_assoc, binary_Read_app, Z.mod_small by done. by rewrite IH.
Qed.

Lemma read_keys_concat ks r :
  Forall (λ k, Z.of_nat (length k) < 65536)%Z ks →
  read_keys (length ks) (concat (put_bytes <$> ks) ++ r) = ks.
Proof.
  induction 1 as [|k ks Hk _ IH]; [done|]. cbn [length read_keys fmap list_fmap concat].
  rewrite <- app_assoc, get_put_bytes by done. by rewrite IH.
Qed.

Lemma length_concat_keys ks :
  length (concat (put_bytes <$> ks)) = sum_list ((λ k, 2 + length k) <$> ks).
Proof. apply length_concat_fmap, length_put_bytes. Qed.
Lemma length_concat_children cs : length (concat (le_bytes 4 <$> cs)) = 4 * length cs.
Proof.
  induction cs as [|c cs IH]; [done|]. rewrite fmap_cons. cbn [concat].
  rewrite length_app, IH, length_le_bytes. simpl. lia.
Qed.

Lemma key_size_bound (ks : list (list byte)) k :
  k ∈ ks → 2 + length k ≤ sum_list ((λ k : list byte, 2 + length k) <$> ks).
Proof. apply (sum_list_elem (λ k : list byte, 2 + length k)). Qed.
Lemma keys_count_bound (ks : list (list byte)) :
  2 * length ks ≤ sum_list ((λ k : list byte, 2 + length k) <$> ks).
Proof. apply sum_list_count. intros k. lia. Qed.

Lemma internal_decode id ks cs r :
  internal_size ks cs ≤ BlockSize → 1 ≤ length cs → Forall (λ c, 0 ≤ c < 2 ^ 32)%Z cs →
  DeserializeInternal id (internal_Serialize (internal_of id ks cs) ++ r) = Ok (internal_of id ks cs).
Proof.
  intros Hf H1 Hcs. pose proof BlockSize_val. pose proof (keys_count_bound ks).
  unfold internal_size in Hf. unfold DeserializeInternal, internal_Serialize. simpl in_nodeType.
  simpl in_numKeys. simpl in_children. simpl in_keys. rewrite bool_decide_eq_false_2.
  2: { rewrite !length_app, !length_le_bytes, length_concat_children. lia. }
  rewrite <- !app_assoc, binary_Read_app. simpl bool_decide. cbn iota.
  rewrite !binary_Read_app. rewrite uint16_small by lia.
  rewrite !Z.mod_small by (simpl; lia). rewrite !Nat2Z.id.
  rewrite read_children_concat by done.
  rewrite read_keys_concat; [done|]. rewrite Forall_forall. intros k Hk.
  apply key_size_bound in Hk. lia.
Qed.

(** *** Operations on well-formed nodes *)

Lemma leaf_IsFull_of id right l : leaf_IsFull (leaf_of id right l) = bool_decide (MaxLeafKeys ≤ length l).
Proof. unfold leaf_IsFull, leaf_of. cbn [ln_keys]. by rewrite length_fmap. Qed.

Lemma insert_kv_length_absent k v l :
  kv_sorted l → k ∉ l.*1 → length (insert_kv k v l) = S (length l).
Proof.
  intros Hs Hk. rewrite <- insert_kv_absent by done.
  rewrite length_app. simpl. rewrite length_take, length_drop.
  pose proof (lower_bound_le (λ x, bool_decide (x ≺ k)) l.*1). rewrite length_fmap in H. lia.
Qed.
Lemma insert_kv_length k v l : kv_sorted l → length (insert_kv k v l) ≤ S (length l).
Proof.
  intros Hs. destruct (decide (k ∈ l.*1)) as [Hk|Hk].
  - pose proof (insert_kv_present k v l Hs Hk) as (H & _). apply (f_equal length) in H.
    rewrite !length_fmap in H. lia.
  - by rewrite insert_kv_length_absent.
Qed.

Lemma leaf_Insert_of id right l k v :
  kv_sorted l → length l < MaxLeafKeys →
  leaf_Insert (leaf_of id right l) k v = Ok (leaf_of id right (insert_kv k v l)).
Proof.
  intros Hs Hl. unfold leaf_Insert. rewrite leaf_IsFull_of, bool_decide_eq_false_2 by lia.
  rewrite findKey_count by (by apply kv_sorted_keys).
  cbn [ln_keys ln_values ln_blockID ln_nodeType ln_numKeys ln_right leaf_of].
  osteps. rewrite key_at_count by done.
  pose proof (lower_bound_le (λ x, bool_decide (x ≺ k)) l.*1) as Hc.
  fold (count_lt k l.*1) in Hc. rewrite length_fmap in Hc. unfold MaxLeafKeys in Hl.
  case_bool_decide as Hk.
  - destruct (insert_kv_present k v l Hs Hk) as (H1 & H2 & H3).
    rewrite go_set_ok by (by rewrite length_fmap). osteps.
    unfold leaf_of. rewrite H1, H2. apply (f_equal length) in H1. rewrite !length_fmap in H1. by rewrite H1.
  - rewrite !slice_insert_ok by (by rewrite length_fmap). osteps.
    pose proof (fmap_slice_insert fst l (count_lt k l.*1) (k, v)) as Hks.
    pose proof (fmap_slice_insert snd l (count_lt k l.*1) (k, v)) as Hvs.
    rewrite insert_kv_absent in Hks, Hvs by done. cbn [fst snd] in Hks, Hvs. rewrite Hks, Hvs.
    unfold leaf_of. rewrite insert_kv_length_absent, uint16_small by (done || lia).
    by rewrite Nat2Z.inj_succ, Z.add_1_r.
Qed.

Lemma leaf_Delete_of id right l k :
  kv_sorted l → (Z.of_nat (length l) < 65536)%Z →
  leaf_Delete (leaf_of id right l) k = Ok (bool_decide (k ∈ l.*1), leaf_of id right (delete_kv k l)).
Proof.
  intros Hs Hl. unfold leaf_Delete. rewrite findKey_count by (by apply kv_sorted_keys).
  cbn [ln_keys ln_values ln_blockID ln_nodeType ln_numKeys ln_right leaf_of].
  osteps. rewrite key_at_count by done.
  case_bool_decide as Hk; cbn [negb].
  - destruct (insert_kv_present k [] l Hs Hk) as (_ & _ & Hc).
    rewrite !slice_remove_ok by (by rewrite length_fmap).
    osteps.
    rewrite !fmap_slice_remove. rewrite <- delete_kv_present by done. unfold leaf_of.
    rewrite uint16_small, length_app, length_take, length_drop by lia.
    by replace (Z.of_nat (length l) - 1)%Z
      with (Z.of_nat (count_lt k l.*1 `min` length l + (length l - S (count_lt k l.*1)))) by lia.
  - rewrite delete_kv_notin; [done|]. rewrite Forall_forall. intros e He <-.
    by apply Hk, list_elem_of_fmap_2.
Qed.

Lemma leaf_Get_of id right l k :
  kv_sorted l → leaf_Get (leaf_of id right l) k = Ok (kv_map l !! k).
Proof.
  intros Hs. unfold leaf_Get. rewrite findKey_count by (by apply kv_sorted_keys).
  cbn [ln_keys ln_values leaf_of]. osteps.
  rewrite key_at_count by done. case_bool_decide as Hk; cbn [negb].
  - rewrite <- kv_map_present by done. destruct (insert_kv_present k [] l Hs Hk) as (_ & _ & Hc).
    destruct (lookup_lt_is_Some_2 l.*2 (count_lt k l.*1)) as [v Hv]; [by rewrite length_fmap|].
    rewrite (go_index_ok _ _ _ Hv), Hv. done.
  - by rewrite kv_map_absent.
Qed.

Lemma leaf_Split_of id right new l :
  (Z.of_nat (length l) < 65536)%Z →
  leaf_Split (leaf_of id right l) new =
    Ok (leaf_of id new (take (length l / 2) l), leaf_of new right (drop (length l / 2) l)).
Proof.
  intros Hl. unfold leaf_Split. cbn [ln_keys ln_values ln_right ln_blockID ln_nodeType leaf_of].
  rewrite length_fmap.
  assert (length l / 2 ≤ length l) by (apply Nat.Div0.div_le_upper_bound; lia).
  set (mid := length l / 2) in *. clearbody mid.
  rewrite !slice_from_ok, !slice_to_ok by (by rewrite length_fmap).
  osteps.
  rewrite !length_take, !length_drop, !length_fmap. rewrite !uint16_small by lia.
  unfold leaf_of. by rewrite !fmap_take, !fmap_drop, length_take, length_drop.
Qed.

Lemma internal_Insert_of id ks cs k c :
  StronglySorted bytes_lt ks → length cs = S (length ks) → length cs ≤ MaxInternalKeys →
  internal_Insert (internal_of id ks cs) k c =
    Ok (internal_of id (take (count_le k ks) ks ++ k :: drop (count_le k ks) ks)
          (take (S (count_le k ks)) cs ++ c :: drop (S (count_le k ks)) cs)).
Proof.
  intros Hs Hlen Hmax. unfold internal_Insert, internal_IsFull. unfold MaxInternalKeys in *.
  rewrite bool_decide_eq_false_2 by (simpl; lia). rewrite FindChild_count by done.
  cbn [in_keys in_children in_blockID in_nodeType in_numKeys internal_of].
  pose proof (lower_bound_le (λ x, bool_decide (x ≼ k)) ks) as Hc. fold (count_le k ks) in Hc.
  osteps.
  rewrite !slice_insert_ok by lia. osteps.
  rewrite Nat.add_1_r. unfold internal_of.
  rewrite uint16_small, length_app by lia. cbn [length]. rewrite length_take, length_drop.
  by replace (Z.of_nat (length ks) + 1)%Z
    with (Z.of_nat (count_le k ks `min` length ks + S (length ks - count_le k ks))) by lia.
Qed.

Lemma internal_Split_of id new ks1 k ks2 cs1 cs2 :
  length cs1 = S (length ks1) → length cs2 = S (length ks2) →
  length (cs1 ++ cs2) / 2 = length cs1 → (Z.of_nat (length ks1 + length ks2) < 65536)%Z →
  internal_Split (internal_of id (ks1 ++ k :: ks2) (cs1 ++ cs2)) new =
    Ok (internal_of id ks1 cs1, internal_of new ks2 cs2, k).
Proof.
  intros H1 H2 Hmid Hl. unfold internal_Split.
  cbn [in_keys in_children in_blockID in_nodeType internal_of]. rewrite Hmid.
  rewrite !slice_from_ok by (rewrite length_app; simpl; lia).
  osteps.
  rewrite bool_decide_eq_false_2 by lia. rewrite H1. replace (S (length ks1) - 1) with (length ks1) by lia.
  rewrite (go_index_ok _ _ k) by (by apply list_lookup_middle).
  rewrite !slice_to_ok by (rewrite length_app; simpl; lia).
  osteps.
  rewrite take_app_length. replace (take (S (length ks1)) (cs1 ++ cs2)) with cs1.
  2: { by rewrite <- H1, take_app_length. }
  replace (drop (S (length ks1)) (cs1 ++ cs2)) with cs2 by (by rewrite <- H1, drop_app_length).
  replace (drop (S (length ks1)) (ks1 ++ k :: ks2)) with ks2.
  2: { rewrite (cons_middle k), app_assoc. rewrite drop_app_length'; [done|]. rewrite length_app. simpl. lia. }
  by rewrite !uint16_small by lia.
Qed.

(** ** The properties of nodes *)

(** On sorted keys the binary searches terminate without a panic and find
    what a linear scan finds: [findKey] the number of keys below the key,
    [FindChild] the number of keys not above it. *)
Theorem node_search_correct (n : LeafNode) (m : InternalNode) (key : list byte) :
  StronglySorted bytes_lt (ln_keys n) → StronglySorted bytes_lt (in_keys m) →
  findKey n key = Ok (count_lt key (ln_keys n)) ∧ FindChild m key = Ok (count_le key (in_keys m)).
Proof. intros. split; [by apply findKey_count|by apply FindChild_count]. Qed.

Lemma node_search_correct_witness :
  findKey (leaf_of 1 0 [([Byte.x41], []); ([Byte.x43], [])]) [Byte.x43] = Ok 1 ∧
  FindChild (internal_of 2 [[Byte.x41]; [Byte.x43]] [1; 3; 4]%Z) [Byte.x43] = Ok 2.
Proof.
  apply (node_search_correct (leaf_of 1 0 [([Byte.x41], []); ([Byte.x43], [])])
           (internal_of 2 [[Byte.x41]; [Byte.x43]] [1; 3; 4]%Z));
    repeat constructor.
Defined.

(** C8: a node that fits in a block survives being written to a block and read
    back, for leaves and for internal nodes. *)
Theorem node_roundtrip id right l ks cs :
  leaf_size l ≤ BlockSize → (0 ≤ right < 2 ^ 32)%Z →
  internal_size ks cs ≤ BlockSize → 1 ≤ length cs → Forall (λ c, 0 ≤ c < 2 ^ 32)%Z cs →
  (∃ bs, leaf_Serialize (leaf_of id right l) = Ok bs ∧
         DeserializeLeaf id (NewBlockFromData bs) = Ok (leaf_of id right l)) ∧
  DeserializeInternal id (NewBlockFromData (internal_Serialize (internal_of id ks cs)))
    = Ok (internal_of id ks cs).
Proof.
  intros Hl Hr Hi Hc Hcs. split.
  - rewrite leaf_Serialize_of. eexists. split; [reflexivity|].
    rewrite NewBlockFromData_fits; [by apply leaf_decode|].
    rewrite !length_app, !length_le_bytes, length_concat_entries. unfold leaf_size in Hl. lia.
  - rewrite NewBlockFromData_fits; [by apply internal_decode|].
    unfold internal_Serialize, internal_of, internal_size in *.
    cbn [in_nodeType in_numKeys in_children in_keys].
    rewrite !length_app, length_concat_children, length_concat_keys, !length_le_bytes. lia.
Qed.

Lemma node_roundtrip_witness :
  (∃ bs, leaf_Serialize (leaf_of 7 9 [([Byte.x41], [Byte.x01; Byte.x02])]) = Ok bs ∧
         DeserializeLeaf 7 (NewBlockFromData bs) = Ok (leaf_of 7 9 [([Byte.x41], [Byte.x01; Byte.x02])])) ∧
  DeserializeInternal 7 (NewBlockFromData (internal_Serialize (internal_of 7 [[Byte.x41]] [1; 2]%Z)))
    = Ok (internal_of 7 [[Byte.x41]] [1; 2]%Z).
Proof.
  apply (node_roundtrip 7 9 [([Byte.x41], [Byte.x01; Byte.x02])] [[Byte.x41]] [1; 2]%Z).
  - pose proof BlockSize_val. unfold leaf_size. simpl. lia.
  - lia.
  - pose proof BlockSize_val. unfold internal_size. simpl. lia.
  - simpl. lia.
  - repeat constructor; lia.
Defined.

(** A sorted leaf implements a finite map: [Get] is lookup, [Insert] of a
    node below its capacity is insertion, [Delete] is deletion and reports whether
    the key was there, sortedness is kept, and a full node refuses an insert. *)
Theorem leaf_implements_map id right l k v :
  kv_sorted l → length l ≤ MaxLeafKeys →
  leaf_Get (leaf_of id right l) k = Ok (kv_map l !! k) ∧
  (if bool_decide (length l < MaxLeafKeys)
   then ∃ l', leaf_Insert (leaf_of id right l) k v = Ok (leaf_of id right l') ∧
              kv_sorted l' ∧ kv_map l' = <[k := v]> (kv_map l)
   else leaf_Insert (leaf_of id right l) k v = Err "leaf node is full") ∧
  ∃ l', leaf_Delete (leaf_of id right l) k
          = Ok (bool_decide (is_Some (kv_map l !! k)), leaf_of id right l') ∧
        kv_sorted l' ∧ kv_map l' = delete k (kv_map l).
Proof.
  intros Hs Hl. split; [by apply leaf_Get_of|]. split.
  - case_bool_decide as Hlt.
    + exists (insert_kv k v l). rewrite leaf_Insert_of, kv_map_insert by done.
      eauto using insert_kv_sorted.
    + unfold leaf_Insert. rewrite leaf_IsFull_of, bool_decide_eq_true_2 by lia. done.
  - exists (delete_kv k l). unfold MaxLeafKeys in Hl. rewrite leaf_Delete_of, kv_map_delete by (done || lia).
    split; [|eauto using delete_kv_sorted]. do 2 f_equal. apply bool_decide_ext.
    destruct (decide (k ∈ l.*1)) as [Hk|Hk].
    + split; [|done]. intros _. rewrite <- kv_map_present by done. apply lookup_lt_is_Some_2.
      rewrite length_fmap. by apply (insert_kv_present k []).
    + rewrite kv_map_absent by done. split; [done|]. by intros [? ?].
Qed.

Lemma leaf_implements_map_witness :
  let l := [([Byte.x41], [Byte.x01]); ([Byte.x43], [Byte.x03])] in
  leaf_Get (leaf_of 7 9 l) [Byte.x43] = Ok (Some [Byte.x03]) ∧
  (∃ l', leaf_Insert (leaf_of 7 9 l) [Byte.x43] [Byte.x04] = Ok (leaf_of 7 9 l') ∧
         kv_sorted l' ∧ kv_map l' = <[[Byte.x43] := [Byte.x04]]> (kv_map l)) ∧
  ∃ l', leaf_Delete (leaf_of 7 9 l) [Byte.x43] = Ok (true, leaf_of 7 9 l') ∧
        kv_sorted l' ∧ kv_map l' = delete [Byte.x43] (kv_map l).
Proof.
  apply (leaf_implements_map 7 9 [([Byte.x41], [Byte.x01]); ([Byte.x43], [Byte.x03])] [Byte.x43] [Byte.x04]).
  - repeat constructor.
  - vm_compute. lia.
Defined.

(** A node of 101 children separated by 100 keys of 36 bytes, the length of a
    UUID in text form. *)
Definition uuid_keys (n : nat) : list (list byte) :=
  (λ i, byte_of_Z (Z.of_nat i) :: replicate 35 Byte.x61) <$> seq 0 n.
Definition uuid_node : InternalNode :=
  internal_of 1 (uuid_keys 100) (Z.of_nat <$> seq 2 101).

(** The limit of 251 children does not keep an internal node within a block:
    a node with 100 keys of 36 bytes is not full, and its last keys are read back
    from its block as runs of zeros or as empty keys. *)
Theorem uuid_node_overflows_block :
  internal_IsFull uuid_node = false ∧
  ∃ n, DeserializeInternal 1 (NewBlockFromData (internal_Serialize uuid_node)) = Ok n ∧
       in_children n = in_children uuid_node ∧
       in_keys n !! 96 = in_keys uuid_node !! 96 ∧
       in_keys uuid_node !! 99 ≠ Some [] ∧ in_keys n !! 99 = Some [].
Proof.
  split; [reflexivity|]. eexists. split; [vm_compute; reflexivity|].
  split_and!; vm_compute; congruence.
Qed.
