(* ===== verification/BTree.v ===== *)
(** * The B-tree ([internal/btree/btree.go])

    Get, Put (with leaf, internal and root splits), Delete and Scan over any block
    cache that satisfies [BlockCacheSpec].  The recursion over the levels takes
    fuel; [bt_fuel] covers every tree, because block ids are 32-bit. *)

From S2P Require Import Prelude Bytes SortedKV Serializer PageCache BTreeNode.

Record BTree (C : Type) := mkBT {
  bt_cache : C;
  bt_rootID : BlockID;
}.
Arguments mkBT {C}. Arguments bt_cache {C}. Arguments bt_rootID {C}.

Definition KeyValue : Type := list byte * list byte.

(** [block[0] == byte(NodeTypeLeaf)] *)
Definition is_leaf_block (b : Block) : bool :=
  match b with [] => false | x :: _ => bool_decide (Z_of_byte x = NodeTypeLeaf) end.

(** A tree of height [h] has at least [2 ^ h] blocks, each with an id below
    [2 ^ 32]: at most 32 levels below the root. *)
Definition bt_fuel : nat := 33.
Lemma bt_fuel_val : 32 < bt_fuel.
Proof. unfold bt_fuel. lia. Qed.
#[global] Opaque bt_fuel.

Section btree.
Context {C : Type} `{BlockCache C}.

Definition on_cache {A} (m : M C A) : M (BTree C) A :=
  zoom bt_cache (λ c t, mkBT c (bt_rootID t)) m.

(** [New] allocates an empty root leaf on the cache the tree then holds. *)
Definition New : M C (BTree C) :=
  data ← lift (leaf_Serialize (NewLeafNode InvalidBlockID));
  rootID ← wrap_err "failed to allocate root" (cache_Allocate (NewBlockFromData data));
  c ← get_state;
  mret (mkBT c rootID).

Definition Load (c : C) (rootID : BlockID) : BTree C := mkBT c rootID.

Fixpoint bt_get (fuel : nat) (nodeID : BlockID) (key : list byte) : M (BTree C) (option (list byte)) :=
  match fuel with
  | O => nofuel
  | S fuel' =>
      block ← on_cache (cache_Get nodeID);
      if is_leaf_block block then
        node ← lift (DeserializeLeaf nodeID block);
        lift (leaf_Get node key)
      else
        node ← lift (DeserializeInternal nodeID block);
        childIdx ← lift (FindChild node key);
        child ← lift (go_index (in_children node) childIdx);
        bt_get fuel' child key
  end.

Definition Get (key : list byte) : M (BTree C) (option (list byte)) :=
  t ← get_state; bt_get bt_fuel (bt_rootID t) key.

Definition createRoot (leftID rightID : BlockID) (separator : list byte) : M (BTree C) BlockID :=
  let newRoot := mkInternal InvalidBlockID NodeTypeInternal 1 [separator] [leftID; rightID] in
  on_cache (cache_Allocate (NewBlockFromData (internal_Serialize newRoot))).

Definition splitLeaf (node : LeafNode) : M (BTree C) (BlockID * list byte) :=
  rightID ← on_cache (cache_Allocate NewBlock);
  '(leftNode, rightNode) ← lift (leaf_Split node rightID);
  separator ← lift (go_index (ln_keys rightNode) 0);
  leftData ← lift (leaf_Serialize leftNode);
  on_cache (cache_Put (ln_blockID leftNode) (NewBlockFromData leftData));;
  rightData ← lift (leaf_Serialize rightNode);
  on_cache (cache_Put rightID (NewBlockFromData rightData));;
  mret (rightID, separator).

Definition splitInternal (node : InternalNode) : M (BTree C) (BlockID * list byte) :=
  rightID ← on_cache (cache_Allocate NewBlock);
  '(leftNode, rightNode, separator) ← lift (internal_Split node rightID);
  on_cache (cache_Put (in_blockID leftNode) (NewBlockFromData (internal_Serialize leftNode)));;
  on_cache (cache_Put rightID (NewBlockFromData (internal_Serialize rightNode)));;
  mret (rightID, separator).

(** The tail of both cases of [put] after a split: a split root gets a new root
    above it, any other node reports its new sibling to the parent. *)
Definition after_split (nodeID : BlockID) (rightID : BlockID) (separator : list byte)
    : M (BTree C) (BlockID * list byte) :=
  t ← get_state;
  if bool_decide (nodeID = bt_rootID t) then
    newRootID ← createRoot nodeID rightID separator;
    mret (newRootID, [])
  else mret (rightID, separator).

(** The child of an internal node was split: insert the new child, write the node
    back and split it in turn when it is full. *)
Definition insert_child (nodeID : BlockID) (node : InternalNode) (childSeparator : list byte)
    (newChild : BlockID) : M (BTree C) (BlockID * list byte) :=
  node ← lift (internal_Insert node childSeparator newChild);
  on_cache (cache_Put nodeID (NewBlockFromData (internal_Serialize node)));;
  if internal_IsFull node then
    '(rightID, separator) ← splitInternal node;
    after_split nodeID rightID separator
  else mret (InvalidBlockID, []).

Fixpoint bt_put (fuel : nat) (nodeID : BlockID) (key value : list byte)
    : M (BTree C) (BlockID * list byte) :=
  match fuel with
  | O => nofuel
  | S fuel' =>
      block ← on_cache (cache_Get nodeID);
      if is_leaf_block block then
        node ← lift (DeserializeLeaf nodeID block);
        node ← lift (leaf_Insert node key value);
        data ← lift (leaf_Serialize node);
        on_cache (cache_Put nodeID (NewBlockFromData data));;
        if leaf_IsFull node then
          '(rightID, separator) ← splitLeaf node;
          after_split nodeID rightID separator
        else mret (InvalidBlockID, [])
      else
        node ← lift (DeserializeInternal nodeID block);
        childIdx ← lift (FindChild node key);
        child ← lift (go_index (in_children node) childIdx);
        '(newChild, childSeparator) ← bt_put fuel' child key value;
        if bool_decide (newChild ≠ InvalidBlockID)
        then insert_child nodeID node childSeparator newChild
        else mret (InvalidBlockID, [])
  end.

Definition Put (key value : list byte) : M (BTree C) unit :=
  t ← get_state;
  '(newRoot, _) ← bt_put bt_fuel (bt_rootID t) key value;
  if bool_decide (newRoot ≠ InvalidBlockID)
  then modify (λ t, mkBT (bt_cache t) newRoot)
  else mret ().

Fixpoint bt_delete (fuel : nat) (nodeID : BlockID) (key : list byte) : M (BTree C) unit :=
  match fuel with
  | O => nofuel
  | S fuel' =>
      block ← on_cache (cache_Get nodeID);
      if is_leaf_block block then
        node ← lift (DeserializeLeaf nodeID block);
        '(found, node) ← lift (leaf_Delete node key);
        if negb found then mret ()
        else
          data ← lift (leaf_Serialize node);
          on_cache (cache_Put nodeID (NewBlockFromData data))
      else
        node ← lift (DeserializeInternal nodeID block);
        childIdx ← lift (FindChild node key);
        child ← lift (go_index (in_children node) childIdx);
        bt_delete fuel' child key
  end.

Definition Delete (key : list byte) : M (BTree C) unit :=
  t ← get_state; bt_delete bt_fuel (bt_rootID t) key.

(** The loop over the keys of a leaf from [i] on, stopping at the first key
    above [endKey]; a nil [endKey] is [None]. *)
Fixpoint scan_leaf (entries : list KeyValue) (endKey : option (list byte)) : list KeyValue :=
  match entries with
  | [] => []
  | (k, v) :: rest =>
      if match endKey with Some e => bool_decide (bytes_Compare k e = Gt) | None => false end
      then [] else (k, v) :: scan_leaf rest endKey
  end.

(** The results are appended to a slice owned by the caller, which keeps what
    was appended before an error. *)
Fixpoint bt_scan (fuel : nat) (nodeID : BlockID) (startKey : list byte) (endKey : option (list byte))
    : M (BTree C * list KeyValue) unit :=
  match fuel with
  | O => nofuel
  | S fuel' =>
      block ← zoom fst (λ t s, (t, s.2)) (on_cache (cache_Get nodeID));
      if is_leaf_block block then
        node ← lift (DeserializeLeaf nodeID block);
        startPos ← lift (findKey node startKey);
        modify (λ s, (s.1, s.2 ++ scan_leaf (drop startPos (zip (ln_keys node) (ln_values node))) endKey))
      else
        node ← lift (DeserializeInternal nodeID block);
        startIdx ← lift (FindChild node startKey);
        for_each (λ c, bt_scan fuel' c startKey endKey) (drop startIdx (in_children node))
  end.

Definition Scan (startKey : list byte) (endKey : option (list byte))
    : BTree C → outcome unit * (BTree C * list KeyValue) :=
  λ t, bt_scan bt_fuel (bt_rootID t) startKey endKey (t, []).

Definition RootID (t : BTree C) : BlockID := bt_rootID t.
End btree.

(** ** Shape of the tree

    [repr v h id lo hi ids l]: in the blocks [v], the subtree of height [h] below
    block [id] uses the blocks [ids], holds the entries [l] in order, and all its
    keys lie in [lo, hi). *)

Definition small_key (k : list byte) : Prop := length k ≤ 10.
Definition small_entry (e : list byte * list byte) : Prop :=
  length e.1 ≤ 10 ∧ length e.1 + length e.2 ≤ 77.

Definition in_range (lo hi : option (list byte)) (k : list byte) : Prop :=
  match lo with Some a => a ≼ k | None => True end ∧
  match hi with Some b => k ≺ b | None => True end.
Definition range_ok (lo hi : option (list byte)) : Prop :=
  match lo, hi with Some a, Some b => a ≺ b | _, _ => True end.

Definition node_pred : Type :=
  BlockID → option (list byte) → option (list byte) → list BlockID → list (list byte * list byte) → Prop.

(** Children [cs] separated by keys [ks]. *)
Inductive chain (R : node_pred) : list BlockID → list (list byte) →
    option (list byte) → option (list byte) → list BlockID → list (list byte * list byte) → Prop :=
| chain_one c lo hi ids l : range_ok lo hi → R c lo hi ids l → chain R [c] [] lo hi ids l
| chain_cons c k cs ks lo hi ids1 ids2 l1 l2 :
    range_ok lo (Some k) → R c lo (Some k) ids1 l1 → chain R cs ks (Some k) hi ids2 l2 →
    chain R (c :: cs) (k :: ks) lo hi (ids1 ++ ids2) (l1 ++ l2).

Definition leaf_block (right : BlockID) (l : list (list byte * list byte)) : Block :=
  NewBlockFromData (le_bytes 1 NodeTypeLeaf ++ le_bytes 2 (Z.of_nat (length l)) ++ le_bytes 4 right
                      ++ concat (entry_bytes <$> l)).
Definition internal_block (ks : list (list byte)) (cs : list BlockID) : Block :=
  NewBlockFromData (internal_Serialize (internal_of InvalidBlockID ks cs)).

Definition leaf_repr (v : gmap Z Block) : node_pred := λ id lo hi ids l,
  ∃ right, v !! id = Some (leaf_block right l) ∧ (0 ≤ right < 2 ^ 32)%Z ∧ ids = [id] ∧
    kv_sorted l ∧ Forall (λ e, in_range lo hi e.1) l ∧ Forall small_entry l ∧ length l < MaxLeafKeys.

Definition internal_repr (v : gmap Z Block) (R : node_pred) : node_pred := λ id lo hi ids l,
  ∃ ks cs ids', v !! id = Some (internal_block ks cs) ∧ ids = id :: ids' ∧
    chain R cs ks lo hi ids' l ∧ 2 ≤ length cs ≤ MaxInternalKeys ∧ Forall small_key ks.

Fixpoint repr (v : gmap Z Block) (h : nat) : node_pred :=
  match h with
  | O => leaf_repr v
  | S h' => internal_repr v (repr v h')
  end.

Lemma in_range_weaken lo hi k k' : in_range lo (Some k) k' → range_ok (Some k) hi → in_range lo hi k'.
Proof.
  intros [H1 H2] Hr. split; [done|]. destruct hi as [b|]; [|done]. simpl in *. by transitivity k.
Qed.
Lemma in_range_weaken_r lo hi k k' : in_range (Some k) hi k' → range_ok lo (Some k) → in_range lo hi k'.
Proof.
  intros [H1 H2] Hr. split; [|done]. destruct lo as [b|]; [|done]. simpl in *.
  apply bytes_lt_le. eauto with go.
Qed.
Lemma range_ok_trans lo k hi : range_ok lo (Some k) → range_ok (Some k) hi → range_ok lo hi.
Proof. destruct lo, hi; simpl; try done. intros. by transitivity k. Qed.

Section chain.
Context (R : node_pred).

Lemma chain_range cs ks lo hi ids l : chain R cs ks lo hi ids l → range_ok lo hi.
Proof. induction 1; [done|]. by eapply range_ok_trans. Qed.

Lemma chain_length cs ks lo hi ids l : chain R cs ks lo hi ids l → length cs = S (length ks).
Proof. induction 1; simpl; lia. Qed.

Lemma chain_sorted cs ks lo hi ids l :
  chain R cs ks lo hi ids l → StronglySorted bytes_lt ks ∧ Forall (λ k, range_ok lo (Some k)) ks.
Proof.
  induction 1 as [|c k cs ks lo hi ids1 ids2 l1 l2 Hr HR Hc [IH1 IH2]]; [repeat constructor|].
  split; constructor; auto. eapply Forall_impl; [done|]. intros x Hx. by eapply range_ok_trans.
Qed.

Lemma chain_join cs1 ks1 lo k ids1 l1 cs2 ks2 hi ids2 l2 :
  chain R cs1 ks1 lo (Some k) ids1 l1 → chain R cs2 ks2 (Some k) hi ids2 l2 →
  chain R (cs1 ++ cs2) (ks1 ++ k :: ks2) lo hi (ids1 ++ ids2) (l1 ++ l2).
Proof.
  intros Hc. remember (Some k) as hik eqn:Ek. induction Hc; subst; intros H2.
  - by constructor.
  - simpl. rewrite <- !app_assoc. constructor; auto.
Qed.

Lemma chain_split_at cs1 cs2 ks1 k ks2 lo hi ids l :
  chain R (cs1 ++ cs2) (ks1 ++ k :: ks2) lo hi ids l → length cs1 = S (length ks1) →
  ∃ ids1 ids2 l1 l2, ids = ids1 ++ ids2 ∧ l = l1 ++ l2 ∧
    chain R cs1 ks1 lo (Some k) ids1 l1 ∧ chain R cs2 ks2 (Some k) hi ids2 l2.
Proof.
  revert cs1 lo ids l. induction ks1 as [|k1 ks1 IH]; intros cs1 lo ids l Hc Hl.
  - destruct cs1 as [|c [|? ?]]; try done. inversion Hc; subst.
    do 4 eexists. split_and!; [reflexivity..| |done]. by constructor.
  - destruct cs1 as [|c cs1]; [done|]. inversion Hc; subst.
    destruct (IH cs1 (Some k1) ids2 l2) as (i1 & i2 & m1 & m2 & -> & -> & Hc1 & Hc2); [done|simpl in *; lia|].
    exists (ids1 ++ i1), i2, (l1 ++ m1), m2. rewrite <- !app_assoc. split_and!; try done. by constructor.
Qed.

Lemma chain_mono (R' : node_pred) cs ks lo hi ids l :
  chain R cs ks lo hi ids l →
  (∀ c lo hi i l, i ⊆ ids → R c lo hi i l → R' c lo hi i l) → chain R' cs ks lo hi ids l.
Proof.
  induction 1; intros HR; constructor; auto.
  - apply HR; [set_solver|done].
  - apply IHchain. intros c' lo' hi' i l' Hi. apply HR. set_solver.
Qed.

Lemma chain_keys cs ks lo hi ids l :
  (∀ c lo hi i l, R c lo hi i l → Forall (λ e, in_range lo hi e.1) l) →
  chain R cs ks lo hi ids l → Forall (λ e, in_range lo hi e.1) l.
Proof.
  intros HR. induction 1 as [|c k cs ks lo hi ids1 ids2 l1 l2 Hr Hc Hch IH]; [eauto|].
  apply Forall_app; split.
  - eapply Forall_impl; [by eapply HR|]. simpl. intros e He.
    eapply in_range_weaken; [done|]. by eapply chain_range.
  - eapply Forall_impl; [exact IH|]. simpl. intros e He. by eapply in_range_weaken_r.
Qed.
End chain.

(** The child that [FindChild] selects for [key], and the chain around it. *)
Record focus (R : node_pred) cs ks lo hi ids l (key : list byte)
    cs1 c cs2 ks1 ks2 ids1 idsc ids2 l1 lc l2 clo chi : Prop := {
  fc_cs : cs = cs1 ++ c :: cs2;
  fc_ks : ks = ks1 ++ ks2;
  fc_cs1 : length cs1 = count_le key ks;
  fc_ks1 : length ks1 = count_le key ks;
  fc_ids : ids = ids1 ++ idsc ++ ids2;
  fc_l : l = l1 ++ lc ++ l2;
  fc_child : R c clo chi idsc lc;
  fc_range : in_range clo chi key;
  fc_ok : range_ok clo chi;
  fc_below : Forall (λ e, e.1 ≺ key) l1;
  fc_above : Forall (λ e, key ≺ e.1) l2;
  fc_put (R' : node_pred) cm km im lm :
    (∀ c lo hi i l, (∀ j, j ∈ i → j ∈ ids1 ++ ids2) → R c lo hi i l → R' c lo hi i l) →
    chain R' cm km clo chi im lm →
    chain R' (cs1 ++ cm ++ cs2) (ks1 ++ km ++ ks2) lo hi (ids1 ++ im ++ ids2) (l1 ++ lm ++ l2);
}.

Lemma chain_focus (R : node_pred) cs ks lo hi ids l key :
  (∀ c lo hi i l, R c lo hi i l → Forall (λ e, in_range lo hi e.1) l) →
  chain R cs ks lo hi ids l → in_range lo hi key →
  ∃ cs1 c cs2 ks1 ks2 ids1 idsc ids2 l1 lc l2 clo chi,
    focus R cs ks lo hi ids l key cs1 c cs2 ks1 ks2 ids1 idsc ids2 l1 lc l2 clo chi.
Proof.
  intros HR. induction 1 as [c lo hi ids l Hr HRc|c k cs ks lo hi i1 i2 m1 m2 Hr HRc Hch IH]; intros Hin.
  - exists [], c, [], [], [], [], ids, [], [], l, [], lo, hi.
    split; simpl; rewrite ?app_nil_r; try done; [constructor..|].
    intros R' cm km im lm _ Hm. by rewrite !app_nil_r.
  - destruct (decide (k ≼ key)) as [Hk|Hk].
    + destruct IH as (cs1 & c' & cs2 & ks1 & ks2 & ids1 & idsc & ids2 & l1 & lc & l2 & clo & chi & F).
      { split; [done|apply Hin]. }
      exists (c :: cs1), c', cs2, (k :: ks1), ks2, (i1 ++ ids1), idsc, ids2, (m1 ++ l1), lc, l2, clo, chi.
      destruct F as [Hcs Hks Hlc Hlk Hids Hl Hfc Hrg Hok Hbel Habv Hput]. split; try done.
      * simpl. by rewrite Hcs.
      * simpl. by rewrite Hks.
      * rewrite count_le_cons_le by done. simpl. by rewrite Hlc.
      * rewrite count_le_cons_le by done. simpl. by rewrite Hlk.
      * by rewrite Hids, <- app_assoc.
      * by rewrite Hl, <- app_assoc.
      * apply Forall_app. split; [|done]. eapply Forall_impl; [by eapply HR|].
        intros e [_ He]. simpl in He. eauto with go.
      * intros R' cm km im lm Hmono Hm. simpl. rewrite <- !app_assoc. constructor; [done| |].
        { apply Hmono; [|done]. intros j Hj. apply elem_of_app. left. apply elem_of_app. by left. }
        apply Hput; [|done]. intros c0 lo0 hi0 i l0 Hi. apply Hmono. intros j Hj.
        specialize (Hi j Hj). apply elem_of_app in Hi as [Hi|Hi]; apply elem_of_app; [left|by right].
        apply elem_of_app. by right.
    + assert (key ≺ k) as Hlt.
      { destruct (bytes_trichotomy key k) as [?|[->|?]]; [done|..]; destruct Hk; auto with go. }
      exists [], c, cs, [], (k :: ks), [], i1, i2, [], m1, m2, lo, (Some k).
      split; simpl; try done.
      * by rewrite count_le_cons_gt.
      * by rewrite count_le_cons_gt.
      * split; [apply Hin|done].
      * eapply Forall_impl; [by eapply chain_keys|]. intros e [He _]. simpl in He. eauto with go.
      * intros R' cm km im lm Hmono Hm. apply chain_join; [done|]. eapply chain_mono; [done|].
        intros c0 lo0 hi0 i l0 Hi. apply Hmono. intros j Hj. by apply Hi.
Qed.

(** ** Facts about subtrees *)

Lemma repr_head v h id lo hi ids l : repr v h id lo hi ids l → id ∈ ids ∧ is_Some (v !! id).
Proof.
  destruct h; [intros (r & Hv & _ & -> & _)|intros (ks & cs & ids' & Hv & -> & _)];
    (split; [by left|eauto]).
Qed.

Lemma chain_Forall_ids (R : node_pred) (P : BlockID → Prop) cs ks lo hi ids l :
  (∀ c lo hi i l, R c lo hi i l → Forall P i) → chain R cs ks lo hi ids l → Forall P ids.
Proof. intros HR. induction 1; [eauto|]. apply Forall_app; eauto. Qed.

Lemma chain_Forall_entries (R : node_pred) P cs ks lo hi ids l :
  (∀ c lo hi i l, R c lo hi i l → Forall P l) → chain R cs ks lo hi ids l → Forall P l.
Proof. intros HR. induction 1; [eauto|]. apply Forall_app; eauto. Qed.

Lemma repr_dom v h id lo hi ids l : repr v h id lo hi ids l → Forall (λ j, is_Some (v !! j)) ids.
Proof.
  revert id lo hi ids l. induction h as [|h IH]; intros id lo hi ids l.
  - intros (r & Hv & _ & -> & _). repeat constructor. eauto.
  - intros (ks & cs & ids' & Hv & -> & Hc & _). constructor; [eauto|]. by eapply chain_Forall_ids.
Qed.

Lemma repr_keys v h id lo hi ids l : repr v h id lo hi ids l → Forall (λ e, in_range lo hi e.1) l.
Proof.
  revert id lo hi ids l. induction h as [|h IH]; intros id lo hi ids l.
  - by intros (r & _ & _ & _ & _ & Hl & _).
  - intros (ks & cs & ids' & _ & _ & Hc & _). by eapply chain_keys.
Qed.

Lemma repr_small v h id lo hi ids l : repr v h id lo hi ids l → Forall small_entry l.
Proof.
  revert id lo hi ids l. induction h as [|h IH]; intros id lo hi ids l.
  - by intros (r & _ & _ & _ & _ & _ & Hl & _).
  - intros (ks & cs & ids' & _ & _ & Hc & _). by eapply chain_Forall_entries.
Qed.

Lemma chain_kv_sorted (R : node_pred) cs ks lo hi ids l :
  (∀ c lo hi i l, R c lo hi i l → Forall (λ e, in_range lo hi e.1) l ∧ kv_sorted l) →
  chain R cs ks lo hi ids l → kv_sorted l.
Proof.
  intros HR. induction 1 as [c lo hi ids l _ HRc|c k cs ks lo hi i1 i2 m1 m2 Hr HRc Hch IH].
  { by eapply HR. }
  apply kv_sorted_app. split_and!; [by eapply HR|done|].
  assert (Forall (λ e, in_range (Some k) hi e.1) m2) as H2.
  { eapply chain_keys; [|done]. intros. by eapply HR. }
  eapply Forall_impl; [by eapply HR|]. intros e1 [_ He1]. simpl in He1.
  eapply Forall_impl; [exact H2|]. intros e2 [He2 _]. simpl in He2. eauto with go.
Qed.

Lemma repr_sorted v h id lo hi ids l : repr v h id lo hi ids l → kv_sorted l.
Proof.
  revert id lo hi ids l. induction h as [|h IH]; intros id lo hi ids l.
  - by intros (r & _ & _ & _ & Hs & _).
  - intros (ks & cs & ids' & _ & _ & Hc & _). eapply chain_kv_sorted; [|done].
    intros. split; [by eapply repr_keys|by eapply IH].
Qed.

Lemma repr_frame v v' h id lo hi ids l :
  repr v h id lo hi ids l → (∀ j, j ∈ ids → v' !! j = v !! j) → repr v' h id lo hi ids l.
Proof.
  revert id lo hi ids l. induction h as [|h IH]; intros id lo hi ids l.
  - intros (r & Hv & Hr & -> & ?) Hf. exists r. rewrite Hf by (by left). auto.
  - intros (ks & cs & ids' & Hv & -> & Hc & Hn & Hk) Hf. exists ks, cs, ids'.
    rewrite Hf by (by left). split_and!; try done; try lia. eapply chain_mono; [done|].
    intros c lo' hi' i l' Hi Hr. eapply IH; [done|]. intros j Hj. apply Hf. right. by apply Hi.
Qed.

Lemma chain_count (R : node_pred) n cs ks lo hi ids l :
  (∀ c lo hi i l, R c lo hi i l → n ≤ length i) → chain R cs ks lo hi ids l →
  length cs * n ≤ length ids.
Proof.
  intros HR. induction 1 as [c lo hi ids l _ HRc|c k cs ks lo hi i1 i2 m1 m2 Hr HRc Hch IH].
  - apply HR in HRc. simpl. lia.
  - apply HR in HRc. rewrite length_app. simpl. lia.
Qed.

(** A tree of height [h] has at least [2 ^ h] blocks. *)
Lemma repr_count v h id lo hi ids l : repr v h id lo hi ids l → 2 ^ h ≤ length ids.
Proof.
  revert id lo hi ids l. induction h as [|h IH]; intros id lo hi ids l.
  - by intros (r & _ & _ & -> & _).
  - intros (ks & cs & ids' & _ & -> & Hc & Hn & _). apply (chain_count _ (2 ^ h)) in Hc; [|done].
    rewrite Nat.pow_succ_r'. simpl. assert (2 * 2 ^ h ≤ length cs * 2 ^ h) by (apply Nat.mul_le_mono_r; lia). lia.
Qed.

(** *** Blocks of well-formed nodes *)

Lemma small_leaf_size l : Forall small_entry l → length l ≤ MaxLeafKeys → leaf_size l ≤ BlockSize.
Proof.
  intros Hs Hl. unfold leaf_size, MaxLeafKeys in *. pose proof BlockSize_val.
  assert (sum_list (kv_size <$> l) ≤ 81 * length l); [|lia].
  induction Hs as [|e l [H1 H2] _ IH]; [simpl; lia|]. rewrite sum_list_fmap_cons. unfold kv_size at 1.
  simpl in *. lia.
Qed.

Lemma small_internal_size (ks : list (list byte)) (cs : list BlockID) :
  Forall small_key ks → length cs = S (length ks) → length cs ≤ S MaxInternalKeys →
  internal_size ks cs ≤ BlockSize.
Proof.
  intros Hs Hlen Hl. unfold internal_size, MaxInternalKeys in *. pose proof BlockSize_val.
  assert (sum_list ((λ k : list byte, 2 + length k) <$> ks) ≤ 12 * length ks); [|lia].
  clear Hlen. induction Hs as [|k ks Hk _ IH]; [simpl; lia|]. rewrite sum_list_fmap_cons.
  unfold small_key in Hk. simpl length. lia.
Qed.

Lemma leaf_block_decode id right l :
  Forall small_entry l → length l ≤ MaxLeafKeys → (0 ≤ right < 2 ^ 32)%Z →
  is_leaf_block (leaf_block right l) = true ∧
  DeserializeLeaf id (leaf_block right l) = Ok (leaf_of id right l).
Proof.
  intros Hs Hl Hr. pose proof (small_leaf_size l Hs Hl) as Hsz.
  unfold leaf_block. rewrite NewBlockFromData_fits.
  - split; [reflexivity|]. by apply leaf_decode.
  - rewrite !length_app, !length_le_bytes, length_concat_entries. unfold leaf_size in Hsz. lia.
Qed.

Lemma internal_block_decode id ks cs :
  Forall small_key ks → length cs = S (length ks) → length cs ≤ S MaxInternalKeys →
  Forall (λ c, 0 ≤ c < 2 ^ 32)%Z cs →
  is_leaf_block (internal_block ks cs) = false ∧
  DeserializeInternal id (internal_block ks cs) = Ok (internal_of id ks cs).
Proof.
  intros Hs Hlen Hl Hcs. pose proof (small_internal_size ks cs Hs Hlen Hl) as Hsz.
  unfold internal_block. rewrite NewBlockFromData_fits.
  - split; [reflexivity|]. apply (internal_decode id ks cs); [done|lia|done].
  - unfold internal_Serialize, internal_of, internal_size in *.
    cbn [in_nodeType in_numKeys in_children in_keys].
    rewrite !length_app, length_concat_children, length_concat_keys, !length_le_bytes. lia.
Qed.

Lemma leaf_block_ok right l : block_ok (leaf_block right l).
Proof. apply NewBlockFromData_ok. Qed.
Lemma internal_block_ok ks cs : block_ok (internal_block ks cs).
Proof. apply NewBlockFromData_ok. Qed.
#[local] Hint Resolve leaf_block_ok internal_block_ok : go.

Lemma chain_children (R : node_pred) (P : BlockID → Prop) cs ks lo hi ids l :
  (∀ c lo hi i l, R c lo hi i l → P c) → chain R cs ks lo hi ids l → Forall P cs.
Proof. intros HR. induction 1; constructor; eauto. Qed.

Section correctness.
Context {C : Type} `{HC : BlockCacheSpec C}.
Implicit Types (t : BTree C).

Definition tview t : gmap Z Block := bc_view (bt_cache t).
Definition tfree t : Z := bc_free (bt_cache t).
Definition tok t : Prop := bc_ok (bt_cache t).

(** ** Cache operations on a healthy cache *)

Lemma on_cache_get t id b :
  tok t → tview t !! id = Some b →
  ∃ t', on_cache (cache_Get id) t = (Ok b, t') ∧ tok t' ∧ tview t' = tview t ∧
        tfree t' = tfree t ∧ bt_rootID t' = bt_rootID t.
Proof.
  intros Hok Hv. destruct (bc_get _ _ _ Hok Hv) as (c' & Hr & ? & ? & ?).
  eexists. split; [exact (zoom_ok _ _ _ _ _ _ Hr)|done].
Qed.

Lemma on_cache_put t id b :
  tok t → is_Some (tview t !! id) → block_ok b →
  ∃ t', on_cache (cache_Put id b) t = (Ok (), t') ∧ tok t' ∧ tview t' = <[id := b]> (tview t) ∧
        tfree t' = tfree t ∧ bt_rootID t' = bt_rootID t.
Proof.
  intros Hok Hv Hb. destruct (bc_put _ _ _ Hok Hv Hb) as (c' & Hr & ? & ? & ?).
  eexists. split; [exact (zoom_ok _ _ _ _ _ _ Hr)|done].
Qed.

Lemma on_cache_alloc t b :
  tok t → (0 < tfree t)%Z → block_ok b →
  ∃ t' id, on_cache (cache_Allocate b) t = (Ok id, t') ∧ tok t' ∧ tview t !! id = None ∧
        tview t' = <[id := b]> (tview t) ∧ tfree t' = (tfree t - 1)%Z ∧ bt_rootID t' = bt_rootID t ∧
        (1 ≤ id < 2 ^ 32)%Z.
Proof.
  intros Hok Hf Hb. destruct (bc_alloc _ _ Hok Hf Hb) as (c' & id & Hr & Hok' & Hn & Hv & Hf').
  exists (mkBT c' (bt_rootID t)), id. split; [exact (zoom_ok _ _ _ _ _ _ Hr)|]. split_and!; try done.
  - by destruct (bc_view_ok c' id b Hok') as [[? _] _]; [rewrite Hv, lookup_insert_eq|].
  - by destruct (bc_view_ok c' id b Hok') as [[_ ?] _]; [rewrite Hv, lookup_insert_eq|].
Qed.

Lemma tview_range t id : tok t → is_Some (tview t !! id) → (1 ≤ id < 2 ^ 32)%Z.
Proof. intros Hok [b Hb]. by destruct (bc_view_ok _ _ _ Hok Hb). Qed.

(** What the code finds in an internal node of the tree on the way to [key]. *)
Record descent t h id lo hi ids l key ks cs ids' cs1 c cs2 ks1 ks2 i1 ic i2 l1 lc l2 clo chi : Prop := {
  ds_block : tview t !! id = Some (internal_block ks cs);
  ds_leaf : is_leaf_block (internal_block ks cs) = false;
  ds_decode : DeserializeInternal id (internal_block ks cs) = Ok (internal_of id ks cs);
  ds_find : FindChild (internal_of id ks cs) key = Ok (length cs1);
  ds_child : go_index (in_children (internal_of id ks cs)) (length cs1) = Ok c;
  ds_ids : ids = id :: ids';
  ds_len : 2 ≤ length cs ≤ MaxInternalKeys;
  ds_cs : length cs = S (length ks);
  ds_small : Forall small_key ks;
  ds_sorted : StronglySorted bytes_lt ks;
  ds_focus : focus (repr (tview t) h) cs ks lo hi ids' l key cs1 c cs2 ks1 ks2 i1 ic i2 l1 lc l2 clo chi;
}.

Lemma descend t h id lo hi ids l key :
  tok t → repr (tview t) (S h) id lo hi ids l → in_range lo hi key →
  ∃ ks cs ids' cs1 c cs2 ks1 ks2 i1 ic i2 l1 lc l2 clo chi,
    descent t h id lo hi ids l key ks cs ids' cs1 c cs2 ks1 ks2 i1 ic i2 l1 lc l2 clo chi.
Proof.
  intros Hok (ks & cs & ids' & Hv & Hids & Hc & Hn & Hs) Hin.
  pose proof (chain_length _ _ _ _ _ _ _ Hc) as Hlen. pose proof (chain_sorted _ _ _ _ _ _ _ Hc) as [Hsort _].
  assert (Forall (λ c, 0 ≤ c < 2 ^ 32)%Z cs) as Hcs.
  { eapply chain_children; [|done]. intros c lo' hi' i l' [_ Hd]%repr_head.
    apply (tview_range t) in Hd; [lia|done]. }
  destruct (internal_block_decode id ks cs) as [Hleaf Hdec]; try done; [lia|].
  destruct (chain_focus (repr (tview t) h) cs ks lo hi ids' l key) as
    (cs1 & c & cs2 & ks1 & ks2 & i1 & ic & i2 & l1 & lc & l2 & clo & chi & F); [|done..|].
  { intros. by eapply repr_keys. }
  exists ks, cs, ids', cs1, c, cs2, ks1, ks2, i1, ic, i2, l1, lc, l2, clo, chi. split; try done.
  - rewrite FindChild_count by done. by rewrite (fc_cs1 _ _ _ _ _ _ _ _ _ _ _ _ _ _ _ _ _ _ _ _ _ F).
  - apply go_index_ok. simpl. rewrite (fc_cs _ _ _ _ _ _ _ _ _ _ _ _ _ _ _ _ _ _ _ _ _ F). by apply list_lookup_middle.
Qed.

(** ** Get *)

Lemma bt_get_ok h : ∀ fuel t id lo hi ids l key,
  h < fuel → tok t → repr (tview t) h id lo hi ids l → in_range lo hi key →
  ∃ t', bt_get fuel id key t = (Ok (kv_map l !! key), t') ∧ tok t' ∧ tview t' = tview t ∧
        tfree t' = tfree t ∧ bt_rootID t' = bt_rootID t.
Proof.
  induction h as [|h IH]; intros [|fuel] t id lo hi ids l key Hfuel Hok Hr Hin; try lia; cbn [bt_get].
  - pose proof (repr_sorted _ _ _ _ _ _ _ Hr) as Hs. destruct Hr as (r & Hv & Hrr & -> & _ & _ & Hsm & Hl).
    destruct (on_cache_get t id _ Hok Hv) as (t' & Hg & ?). mstep Hg.
    destruct (leaf_block_decode id r l) as [-> Hd]; [done|lia|done|].
    exists t'. unfold lift. mrun. rewrite Hd. by rewrite leaf_Get_of.
  - destruct (descend t h id lo hi ids l key) as
      (ks & cs & ids' & cs1 & c & cs2 & ks1 & ks2 & i1 & ic & i2 & l1 & lc & l2 & clo & chi & D); [done..|].
    destruct D as [Hv Hleaf Hdec Hfind Hchild _ _ _ _ _ F].
    destruct (on_cache_get t id _ Hok Hv) as (t1 & Hg & Hok1 & Hv1 & Hf1 & Hr1). mstep Hg.
    rewrite Hleaf. unfold lift. mstep (f_equal (λ o, (o, t1)) Hdec). mstep (f_equal (λ o, (o, t1)) Hfind).
    mstep (f_equal (λ o, (o, t1)) Hchild).
    destruct (IH fuel t1 c clo chi ic lc key) as (t' & Hrun & ? & ? & ? & ?); try done.
    + lia.
    + rewrite Hv1. by destruct F.
    + by destruct F.
    + exists t'. split_and!; try congruence. rewrite Hrun. do 2 f_equal.
      destruct F as [_ _ _ _ _ -> _ _ _ Hb Ha _]. by rewrite kv_map_lookup_app.
Qed.

(** ** Splits *)

(** The two parts of a split subtree. *)
Record halves (v : gmap Z Block) h id rid sep lo hi ids1 ids2 l1 l2 : Prop := {
  hv_left : repr v h id lo (Some sep) ids1 l1;
  hv_right : repr v h rid (Some sep) hi ids2 l2;
  hv_lo : range_ok lo (Some sep);
  hv_hi : range_ok (Some sep) hi;
  hv_small : small_key sep;
  hv_nodup : NoDup (ids1 ++ ids2);
}.

(** Blocks outside [ids] keep their contents. *)
Definition keeps (v v' : gmap Z Block) (ids : list BlockID) : Prop :=
  ∀ j, is_Some (v !! j) → is_Some (v' !! j) ∧ (j ∉ ids → v' !! j = v !! j).
(** The blocks [ids'] come from [ids] or are new. *)
Definition comes_from (v : gmap Z Block) (ids ids' : list BlockID) : Prop :=
  ∀ j, j ∈ ids' → j ∈ ids ∨ v !! j = None.

Lemma keeps_refl v ids : keeps v v ids.
Proof. by intros j Hj. Qed.
Lemma keeps_insert v v' ids id b :
  keeps v v' ids → id ∈ ids ∨ v !! id = None → keeps v (<[id := b]> v') ids.
Proof.
  intros Hk Hid j Hj. destruct (Hk j Hj) as [H1 H2]. destruct (decide (id = j)) as [->|Hne].
  - rewrite lookup_insert_eq. split; [eauto|]. intros Hni. destruct Hj. destruct Hid; [done|congruence].
  - by rewrite lookup_insert_ne.
Qed.
Lemma keeps_None v v' ids id : keeps v v' ids → v' !! id = None → v !! id = None.
Proof.
  intros Hk Hn. destruct (v !! id) eqn:Hv; [|done]. destruct (Hk id) as [[b Hb] _]; [eauto|congruence].
Qed.
Lemma keeps_alloc v v' ids id b : keeps v v' ids → v' !! id = None → keeps v (<[id := b]> v') ids.
Proof. intros Hk Hn. apply keeps_insert; [done|]. right. by eapply keeps_None. Qed.
Lemma keeps_trans v v1 v2 ids ids' :
  keeps v v1 ids → keeps v1 v2 ids' → (∀ j, j ∈ ids' → j ∈ ids ∨ v !! j = None) → keeps v v2 ids.
Proof.
  intros H1 H2 Hsub j Hj. destruct (H1 j Hj) as [Hj1 He1]. destruct (H2 j Hj1) as [Hj2 He2].
  split; [done|]. intros Hni. rewrite He2, He1; [done..|].
  intros Hj'. destruct (Hsub j Hj') as [?|Hn]; [done|]. destruct Hj. congruence.
Qed.
#[local] Hint Resolve keeps_refl : core.

Lemma leaf_cut lo hi (l1 l2 : list (list byte * list byte)) e0 e :
  kv_sorted (e0 :: l1 ++ e :: l2) → Forall (λ e, in_range lo hi e.1) (e0 :: l1 ++ e :: l2) →
  range_ok lo (Some e.1) ∧ range_ok (Some e.1) hi ∧
  Forall (λ e', in_range lo (Some e.1) e'.1) (e0 :: l1) ∧
  Forall (λ e', in_range (Some e.1) hi e'.1) (e :: l2).
Proof.
  rewrite !app_comm_cons. intros (Hs1 & Hs2 & Hlt)%kv_sorted_app [Hr1 Hr2]%Forall_app.
  assert (Forall (λ e', e'.1 ≺ e.1) (e0 :: l1)) as Hb.
  { eapply Forall_impl; [exact Hlt|]. simpl. intros x Hx. by inversion Hx. }
  apply Forall_cons in Hr2 as [[Hel Heh] Hr2]. split_and!.
  - apply Forall_cons in Hr1 as [[H0 _] _]. apply Forall_cons in Hb as [Hb _].
    destruct lo; simpl in *; eauto with go.
  - by destruct hi.
  - apply Forall_forall. intros x Hx. rewrite Forall_forall in Hr1, Hb.
    destruct (Hr1 _ Hx). split; [done|]. by apply Hb.
  - destruct e as [k v]. destruct Hs2 as [Hk _]. constructor; [split; simpl; auto with go|].
    apply Forall_forall. intros x Hx. rewrite Forall_forall in Hr2, Hk.
    destruct (Hr2 _ Hx). split; [|done]. apply bytes_lt_le. by apply Hk.
Qed.

Lemma list_cut {A} (l : list A) n : n = length l / 2 → 2 ≤ length l →
  ∃ x l1 y l2, l = x :: l1 ++ y :: l2 ∧ take n l = x :: l1 ∧ drop n l = y :: l2.
Proof.
  intros Hn Hl. assert (1 ≤ n < length l) as [H1 H2].
  { subst. split; [apply Nat.div_le_lower_bound; lia|apply Nat.div_lt; lia]. }
  clear Hn. destruct l as [|x l]; [simpl in *; lia|]. destruct n as [|n]; [lia|].
  destruct (drop n l) as [|y l2] eqn:Hd.
  { apply (f_equal length) in Hd. rewrite length_drop in Hd. simpl in *. lia. }
  exists x, (take n l), y, l2. simpl. by rewrite <- Hd, take_drop.
Qed.

Lemma leaf_Serialize_block id right l :
  ∃ bs, leaf_Serialize (leaf_of id right l) = Ok bs ∧ NewBlockFromData bs = leaf_block right l.
Proof. rewrite leaf_Serialize_of. eauto. Qed.

Lemma splitLeaf_ok t id right l lo hi :
  tok t → (0 < tfree t)%Z → is_Some (tview t !! id) → (0 ≤ right < 2 ^ 32)%Z → kv_sorted l →
  Forall (λ e, in_range lo hi e.1) l → Forall small_entry l → length l = MaxLeafKeys →
  ∃ t' rid sep l1 l2, splitLeaf (leaf_of id right l) t = (Ok (rid, sep), t') ∧ tok t' ∧
    tview t !! rid = None ∧ (1 ≤ rid < 2 ^ 32)%Z ∧ l = l1 ++ l2 ∧
    halves (tview t') 0 id rid sep lo hi [id] [rid] l1 l2 ∧ keeps (tview t) (tview t') [id] ∧
    tfree t' = (tfree t - 1)%Z ∧ bt_rootID t' = bt_rootID t.
Proof.
  intros Hok Hfree Hid Hright Hs Hr Hsm Hl. unfold MaxLeafKeys in Hl.
  destruct (on_cache_alloc t NewBlock Hok Hfree) as (t1 & rid & Ha & Hok1 & Hn & Hv1 & Hf1 & Hr1 & Hrid);
    [auto with go|].
  unfold splitLeaf. mstep Ha.
  destruct (list_cut l (length l / 2)) as (e0 & l1 & e & l2 & Heq & Htk & Hdr); [done|lia|].
  unfold lift. mstep (f_equal (λ o, (o, t1)) (leaf_Split_of id right rid l ltac:(lia))).
  rewrite Htk, Hdr. cbn beta iota. mstep (f_equal (λ o, (o, t1)) (eq_refl : go_index (ln_keys (leaf_of rid right (e :: l2))) 0 = Ok e.1)).
  destruct (leaf_Serialize_block id rid (e0 :: l1)) as (bs1 & Hs1 & Hb1).
  mstep (f_equal (λ o, (o, t1)) Hs1). rewrite Hb1.
  assert (rid ≠ id) as Hne by (intros ->; destruct Hid; congruence).
  destruct (on_cache_put t1 id (leaf_block rid (e0 :: l1)) Hok1) as (t2 & Hp2 & Hok2 & Hv2 & Hf2 & Hr2);
    [by rewrite Hv1, lookup_insert_ne|auto with go|]. mstep Hp2.
  destruct (leaf_Serialize_block rid right (e :: l2)) as (bs2 & Hs2 & Hb2).
  mstep (f_equal (λ o, (o, t2)) Hs2). rewrite Hb2.
  destruct (on_cache_put t2 rid (leaf_block right (e :: l2)) Hok2) as (t3 & Hp3 & Hok3 & Hv3 & Hf3 & Hr3);
    [by rewrite Hv2, lookup_insert_ne, Hv1, lookup_insert_eq|auto with go|]. mstep Hp3.
  assert (length (e0 :: l1) = 25 ∧ length (e :: l2) = 25) as [Hl1 Hl2].
  { rewrite <- Htk, <- Hdr, length_take, length_drop, Hl. done. }
  rewrite Heq in Hs, Hr, Hsm. destruct (leaf_cut _ _ _ _ _ _ Hs Hr) as (Hlo & Hhi & HrL & HrR).
  rewrite app_comm_cons in Hs, Hsm. apply kv_sorted_app in Hs as (HsL & HsR & _).
  apply Forall_app in Hsm as [HmL HmR].
  exists t3, rid, e.1, (e0 :: l1), (e :: l2). split; [done|]. split; [done|]. split; [done|].
  split; [done|]. split; [done|]. split; [|split; [|split; [lia|congruence]]].
  - split; try done.
    + exists rid. rewrite Hv3, lookup_insert_ne, Hv2, lookup_insert_eq by done.
      split_and!; try done; unfold MaxLeafKeys; lia.
    + exists right. rewrite Hv3, lookup_insert_eq. split_and!; try done; unfold MaxLeafKeys; lia.
    + apply Forall_cons in HmR as [[? _] _]. done.
    + apply NoDup_cons. split; [|apply NoDup_singleton]. by rewrite list_elem_of_singleton.
  - rewrite Hv3, Hv2, Hv1. repeat apply keeps_insert; auto with go. left. by left.
Qed.

Lemma repr_frame_keeps v v' h id lo hi ids l dirty :
  repr v h id lo hi ids l → keeps v v' dirty → (∀ j, j ∈ ids → j ∉ dirty) → repr v' h id lo hi ids l.
Proof.
  intros Hr Hk Hd. eapply repr_frame; [done|]. intros j Hj. apply Hk; [|by apply Hd].
  apply repr_dom in Hr. rewrite Forall_forall in Hr. by apply Hr.
Qed.

Lemma chain_dom v h cs ks lo hi ids l :
  chain (repr v h) cs ks lo hi ids l → ∀ j, j ∈ ids → is_Some (v !! j).
Proof.
  intros Hc. apply Forall_forall. eapply chain_Forall_ids; [|done]. intros. by eapply repr_dom.
Qed.

Lemma chain_frame v v' h cs ks lo hi ids l :
  chain (repr v h) cs ks lo hi ids l → (∀ j, j ∈ ids → v' !! j = v !! j) →
  chain (repr v' h) cs ks lo hi ids l.
Proof.
  intros Hc Hf. eapply chain_mono; [done|]. intros c lo' hi' i l' Hi Hr.
  eapply repr_frame; [done|]. intros j Hj. by apply Hf, Hi.
Qed.

Lemma splitInternal_ok t h id ks cs lo hi ids' l :
  tok t → (0 < tfree t)%Z → is_Some (tview t !! id) → NoDup (id :: ids') →
  chain (repr (tview t) h) cs ks lo hi ids' l → length cs = S MaxInternalKeys → Forall small_key ks →
  ∃ t' rid sep ids1 ids2 l1 l2, splitInternal (internal_of id ks cs) t = (Ok (rid, sep), t') ∧ tok t' ∧
    tview t !! rid = None ∧ (1 ≤ rid < 2 ^ 32)%Z ∧ l = l1 ++ l2 ∧ ids' = ids1 ++ ids2 ∧
    halves (tview t') (S h) id rid sep lo hi (id :: ids1) (rid :: ids2) l1 l2 ∧
    keeps (tview t) (tview t') [id] ∧ tfree t' = (tfree t - 1)%Z ∧ bt_rootID t' = bt_rootID t.
Proof.
  intros Hok Hfree Hid Hnd Hc Hlen Hsm. unfold MaxInternalKeys in Hlen.
  pose proof (chain_length _ _ _ _ _ _ _ Hc) as Hlk.
  destruct (on_cache_alloc t NewBlock Hok Hfree) as (t1 & rid & Ha & Hok1 & Hn & Hv1 & Hf1 & Hr1 & Hrid);
    [auto with go|].
  unfold splitInternal. mstep Ha.
  assert (∃ ks1 k ks2 cs1 cs2, ks = ks1 ++ k :: ks2 ∧ cs = cs1 ++ cs2 ∧
    length cs1 = S (length ks1) ∧ length cs2 = S (length ks2) ∧ length cs1 = 125 ∧ length cs2 = 126) as
    (ks1 & k & ks2 & cs1 & cs2 & -> & -> & H1 & H2 & H3 & H4).
  { destruct (lookup_lt_is_Some_2 ks 124) as [k Hk]; [lia|].
    exists (take 124 ks), k, (drop 125 ks), (take 125 cs), (drop 125 cs).
    rewrite take_drop_middle, take_drop, !length_take, !length_drop by done. split_and!; lia || done. }
  unfold lift. mstep (f_equal (λ o, (o, t1)) (internal_Split_of id rid ks1 k ks2 cs1 cs2 H1 H2
    ltac:(rewrite length_app, H3, H4; reflexivity) ltac:(lia))).
  cbn beta iota. apply Forall_app in Hsm as [Hsm1 [Hk Hsm2]%Forall_cons].
  destruct (chain_split_at _ _ _ _ _ _ _ _ _ _ Hc H1) as (i1 & i2 & m1 & m2 & -> & -> & Hc1 & Hc2).
  assert (rid ≠ id) as Hne by (intros ->; destruct Hid; congruence).
  assert (∀ j, j ∈ i1 ++ i2 → j ≠ id ∧ j ≠ rid) as Hfr.
  { intros j Hj. split.
    - intros ->. by apply NoDup_cons in Hnd as [? _].
    - intros ->. apply (chain_dom _ _ _ _ _ _ _ _ Hc) in Hj. destruct Hj; congruence. }
  destruct (on_cache_put t1 id (internal_block ks1 cs1) Hok1) as (t2 & Hp2 & Hok2 & Hv2 & Hf2 & Hr2);
    [by rewrite Hv1, lookup_insert_ne|auto with go|]. mstep Hp2.
  destruct (on_cache_put t2 rid (internal_block ks2 cs2) Hok2) as (t3 & Hp3 & Hok3 & Hv3 & Hf3 & Hr3);
    [by rewrite Hv2, lookup_insert_ne, Hv1, lookup_insert_eq|auto with go|]. mstep Hp3.
  assert (∀ j, j ∈ i1 ++ i2 → tview t3 !! j = tview t !! j) as Hsame.
  { intros j Hj. destruct (Hfr j Hj). by rewrite Hv3, lookup_insert_ne, Hv2, lookup_insert_ne, Hv1, lookup_insert_ne. }
  exists t3, rid, k, i1, i2, m1, m2. do 6 (split; [done|]). split; [|split; [|split; [lia|congruence]]].
  - split.
    + exists ks1, cs1, i1. split; [by rewrite Hv3, lookup_insert_ne, Hv2, lookup_insert_eq|].
      split_and!; try done; try (unfold MaxInternalKeys; lia).
      eapply chain_frame; [done|]. auto with go.
    + exists ks2, cs2, i2. split; [by rewrite Hv3, lookup_insert_eq|].
      split_and!; try done; try (unfold MaxInternalKeys; lia).
      eapply chain_frame; [done|]. auto with go.
    + by eapply chain_range.
    + by eapply chain_range.
    + done.
    + assert ((id :: i1) ++ rid :: i2 ≡ₚ rid :: id :: i1 ++ i2) as -> by (by rewrite <- Permutation_middle).
      apply NoDup_cons. split; [|done]. intros [?|Hin]%elem_of_cons; [done|]. by destruct (Hfr rid Hin).
  - rewrite Hv3, Hv2, Hv1. repeat apply keeps_insert; auto with go. left. by left.
Qed.

Lemma after_split_ok t h id rid sep lo hi ids1 ids2 l1 l2 :
  tok t → (0 < tfree t)%Z → halves (tview t) h id rid sep lo hi ids1 ids2 l1 l2 → lo = None → hi = None →
  id = bt_rootID t →
  ∃ t' nr, after_split id rid sep t = (Ok (nr, []), t') ∧ tok t' ∧
    tview t !! nr = None ∧ (1 ≤ nr < 2 ^ 32)%Z ∧
    repr (tview t') (S h) nr lo hi (nr :: ids1 ++ ids2) (l1 ++ l2) ∧ NoDup (nr :: ids1 ++ ids2) ∧
    keeps (tview t) (tview t') [] ∧ tfree t' = (tfree t - 1)%Z ∧ bt_rootID t' = bt_rootID t.
Proof.
  intros Hok Hfree [HL HR Hlo Hhi Hsm Hnd] -> -> Hroot. unfold after_split. mrun.
  rewrite bool_decide_eq_true_2 by done. unfold createRoot.
  change (internal_Serialize (mkInternal InvalidBlockID NodeTypeInternal 1 [sep] [id; rid])) with
    (internal_Serialize (internal_of InvalidBlockID [sep] [id; rid])).
  fold (internal_block [sep] [id; rid]).
  destruct (on_cache_alloc t (internal_block [sep] [id; rid]) Hok Hfree) as
    (t1 & nr & Ha & Hok1 & Hn & Hv1 & Hf1 & Hr1 & Hrid); [auto with go|].
  rewrite Ha. exists t1, nr. split; [done|].
  assert (keeps (tview t) (tview t1) []) as Hk by (rewrite Hv1; by apply keeps_alloc).
  assert (nr ∉ ids1 ++ ids2) as Hfresh.
  { apply repr_dom in HL, HR. rewrite Forall_forall in HL, HR.
    intros [[b Hb]%HL|[b Hb]%HR]%elem_of_app; congruence. }
  split_and!; try done; try lia.
  - exists [sep], [id; rid], (ids1 ++ ids2). split; [by rewrite Hv1, lookup_insert_eq|].
    split; [done|]. split; [|split; [unfold MaxInternalKeys; simpl; lia|by constructor]].
    constructor; [done| |constructor; [done|]];
      (eapply repr_frame_keeps; [done..|]); intros ? _; apply not_elem_of_nil.
  - by apply NoDup_cons.
Qed.

(** ** Put *)

(** What [put] leaves of the subtree [id], and what it reports: the subtree is
    whole, or it was split in two, or it was the root and has a new root above. *)
Inductive put_result (root : BlockID) (v v' : gmap Z Block) h id lo hi ids l' : BlockID * list byte → Prop :=
| pr_whole ids' : repr v' h id lo hi ids' l' → NoDup ids' → comes_from v ids ids' →
    put_result root v v' h id lo hi ids l' (InvalidBlockID, [])
| pr_split rid sep ids1 ids2 l1 l2 : id ≠ root → (1 ≤ rid)%Z → l' = l1 ++ l2 →
    halves v' h id rid sep lo hi ids1 ids2 l1 l2 → comes_from v ids (ids1 ++ ids2) →
    put_result root v v' h id lo hi ids l' (rid, sep)
| pr_root nr ids' : id = root → (1 ≤ nr)%Z → repr v' (S h) nr lo hi ids' l' → NoDup ids' →
    put_result root v v' h id lo hi ids l' (nr, []).

Definition root_cost (id root : BlockID) : Z := if bool_decide (id = root) then 1 else 0.

Lemma comes_from_weaken v ids ids1 ids2 :
  comes_from v ids ids1 → (∀ j, j ∈ ids2 → j ∈ ids1 ∨ j ∈ ids ∨ v !! j = None) → comes_from v ids ids2.
Proof. intros H1 H2 j Hj. destruct (H2 j Hj) as [?|?]; auto. Qed.

Lemma root_cost_nonneg id root : (0 ≤ root_cost id root)%Z.
Proof. unfold root_cost. case_bool_decide; lia. Qed.

Lemma after_split_result v t h id rid sep lo hi ids ids1 ids2 l1 l2 :
  tok t → (0 < tfree t)%Z → halves (tview t) h id rid sep lo hi ids1 ids2 l1 l2 →
  (id = bt_rootID t → lo = None ∧ hi = None) → (1 ≤ rid)%Z →
  comes_from v ids (ids1 ++ ids2) → keeps v (tview t) ids →
  ∃ t' r, after_split id rid sep t = (Ok r, t') ∧ tok t' ∧
    put_result (bt_rootID t) v (tview t') h id lo hi ids (l1 ++ l2) r ∧ keeps v (tview t') ids ∧
    (tfree t - root_cost id (bt_rootID t) ≤ tfree t')%Z ∧ bt_rootID t' = bt_rootID t.
Proof.
  intros Hok Hfree Hh Hroot Hrid Hfrom Hk. destruct (decide (id = bt_rootID t)) as [Heq|Hne].
  - destruct (Hroot Heq) as [-> ->].
    destruct (after_split_ok t h id rid sep None None ids1 ids2 l1 l2) as
      (t' & nr & Hrun & Hok' & Hn & Hnr & Hr & Hnd & Hk' & Hf & Hrt); [done..|].
    exists t', (nr, []). split; [done|]. split; [done|]. split; [eapply pr_root; [done|lia|done..]|].
    unfold root_cost. rewrite bool_decide_eq_true_2 by done. split; [|split; [lia|done]].
    eapply keeps_trans; [done..|]. by intros j Hj%not_elem_of_nil.
  - exists t, (rid, sep). unfold after_split. mrun. rewrite bool_decide_eq_false_2 by done.
    split; [done|]. split; [done|]. split; [by eapply pr_split|].
    unfold root_cost. rewrite bool_decide_eq_false_2 by done. split; [done|]. split; [lia|done].
Qed.

Lemma bt_put_leaf t id right l lo hi key val fuel :
  tok t → (2 ≤ tfree t)%Z → tview t !! id = Some (leaf_block right l) → (0 ≤ right < 2 ^ 32)%Z →
  kv_sorted l → Forall (λ e, in_range lo hi e.1) l → Forall small_entry l → length l < MaxLeafKeys →
  in_range lo hi key → small_entry (key, val) → (id = bt_rootID t → lo = None ∧ hi = None) →
  ∃ t' r, bt_put (S fuel) id key val t = (Ok r, t') ∧ tok t' ∧
    put_result (bt_rootID t) (tview t) (tview t') 0 id lo hi [id] (insert_kv key val l) r ∧
    keeps (tview t) (tview t') [id] ∧
    (tfree t - 1 - root_cost id (bt_rootID t) ≤ tfree t')%Z ∧ bt_rootID t' = bt_rootID t.
Proof.
  intros Hok Hfree Hv Hright Hs Hr Hsm Hl Hin Hkv Hroot. cbn [bt_put].
  destruct (on_cache_get t id _ Hok Hv) as (t1 & Hg & Hok1 & Hv1 & Hf1 & Hr1). mstep Hg.
  destruct (leaf_block_decode id right l) as [-> Hd]; [done|lia|done|]. unfold lift.
  mstep (f_equal (λ o, (o, t1)) Hd). mstep (f_equal (λ o, (o, t1)) (leaf_Insert_of id right l key val Hs Hl)).
  set (l' := insert_kv key val l).
  assert (kv_sorted l') as Hs' by (by apply insert_kv_sorted).
  assert (Forall (λ e, in_range lo hi e.1) l') as Hr' by (by apply insert_kv_Forall).
  assert (Forall small_entry l') as Hsm' by (by apply insert_kv_Forall).
  pose proof (insert_kv_length key val l Hs) as Hl'. fold l' in Hl'. clearbody l'.
  destruct (leaf_Serialize_block id right l') as (bs & Hbs & Hblk).
  mstep (f_equal (λ o, (o, t1)) Hbs). rewrite Hblk.
  destruct (on_cache_put t1 id (leaf_block right l') Hok1) as (t2 & Hp & Hok2 & Hv2 & Hf2 & Hr2);
    [by rewrite Hv1, Hv|auto with go|]. mstep Hp.
  assert (tview t2 !! id = Some (leaf_block right l')) as Hid2 by (by rewrite Hv2, lookup_insert_eq).
  assert (keeps (tview t) (tview t2) [id]) as Hk2.
  { rewrite Hv2, Hv1. apply keeps_insert; [done|left; by left]. }
  rewrite leaf_IsFull_of. case_bool_decide as Hfull.
  - destruct (splitLeaf_ok t2 id right l' lo hi) as
      (t3 & rid & sep & l1 & l2 & Hsp & Hok3 & Hn3 & Hrid & -> & Hh & Hk3 & Hf3 & Hr3); try done.
    + lia.
    + lia.
    + mstep Hsp. assert (tview t !! rid = None) as Hn.
      { rewrite Hv2, Hv1 in Hn3. by apply lookup_insert_None in Hn3 as [? _]. }
      destruct (after_split_result (tview t) t3 0 id rid sep lo hi [id] [id] [rid] l1 l2) as
        (t4 & r & Hrun & Hok4 & Hres & Hk4 & Hf4 & Hr4); try done.
      * lia.
      * rewrite Hr3, Hr2, Hr1. done.
      * lia.
      * intros j [Hj|Hj]%elem_of_app; apply list_elem_of_singleton in Hj as ->; [left; by left|by right].
      * eapply keeps_trans; [done..|]. auto.
      * replace (bt_rootID t3) with (bt_rootID t) in * by congruence.
        exists t4, r. split; [exact Hrun|]. split_and!; done || congruence || lia.
  - exists t2, (InvalidBlockID, []). split; [done|]. split; [done|]. split; [|split_and!; try done].
    + eapply (pr_whole _ _ _ _ _ _ _ _ _ [id]).
      * exists right. split_and!; try done; lia.
      * apply NoDup_singleton.
      * intros j Hj. by left.
    + unfold root_cost. case_bool_decide; lia.
    + congruence.
Qed.

Lemma count_le_middle k ks1 ks2 : StronglySorted bytes_lt (ks1 ++ k :: ks2) → count_le k (ks1 ++ ks2) = length ks1.
Proof.
  induction ks1 as [|x ks1 IH]; simpl; intros Hs; apply StronglySorted_inv in Hs as [Hs Hx].
  - destruct ks2 as [|y ks2]; [done|]. apply Forall_cons in Hx as [Hx _]. by apply count_le_cons_gt.
  - rewrite count_le_cons_le; [by rewrite IH|]. apply Forall_app in Hx as [_ [Hx _]%Forall_cons]. auto with go.
Qed.

(** Writing back a node whose child was split, and splitting it when full. *)
Lemma grow_ok v t h id ks cs lo hi ids ids' l :
  tok t → (2 ≤ tfree t)%Z → is_Some (tview t !! id) → NoDup (id :: ids') →
  chain (repr (tview t) h) cs ks lo hi ids' l → 2 ≤ length cs ≤ S MaxInternalKeys → Forall small_key ks →
  (id = bt_rootID t → lo = None ∧ hi = None) → comes_from v ids (id :: ids') → keeps v (tview t) ids →
  id ∈ ids →
  ∃ t' r, (on_cache (cache_Put id (NewBlockFromData (internal_Serialize (internal_of id ks cs))));;
           if internal_IsFull (internal_of id ks cs) then
             '(rightID, separator) ← splitInternal (internal_of id ks cs);
             after_split id rightID separator
           else mret (InvalidBlockID, [])) t = (Ok r, t') ∧ tok t' ∧
    put_result (bt_rootID t) v (tview t') (S h) id lo hi ids l r ∧ keeps v (tview t') ids ∧
    (tfree t - 1 - root_cost id (bt_rootID t) ≤ tfree t')%Z ∧ bt_rootID t' = bt_rootID t.
Proof.
  intros Hok Hfree Hid Hnd Hc Hlen Hsm Hroot Hfrom Hk Hin.
  change (NewBlockFromData (internal_Serialize (internal_of id ks cs))) with (internal_block ks cs).
  destruct (on_cache_put t id (internal_block ks cs) Hok Hid) as (t2 & Hp & Hok2 & Hv2 & Hf2 & Hr2);
    [auto with go|]. mstep Hp.
  assert (tview t2 !! id = Some (internal_block ks cs)) as Hid2 by (by rewrite Hv2, lookup_insert_eq).
  assert (chain (repr (tview t2) h) cs ks lo hi ids' l) as Hc2.
  { eapply chain_frame; [done|]. intros j Hj. rewrite Hv2, lookup_insert_ne; [done|].
    intros ->. by apply NoDup_cons in Hnd as [? _]. }
  assert (keeps v (tview t2) ids) as Hk2 by (rewrite Hv2; apply keeps_insert; auto).
  unfold internal_IsFull, MaxInternalKeys in *. cbn [in_children internal_of]. case_bool_decide as Hfull.
  - destruct (splitInternal_ok t2 h id ks cs lo hi ids' l) as
      (t3 & rid & sep & i1 & i2 & m1 & m2 & Hsp & Hok3 & Hn3 & Hrid & -> & -> & Hh & Hk3 & Hf3 & Hr3);
      try done; try lia; [unfold MaxInternalKeys; lia|].
    mstep Hsp.
    assert (v !! rid = None) as Hn by (by eapply keeps_None).
    destruct (after_split_result v t3 (S h) id rid sep lo hi ids (id :: i1) (rid :: i2) m1 m2) as
      (t4 & r & Hrun & Hok4 & Hres & Hk4 & Hf4 & Hr4); try done; try lia.
    + by rewrite Hr3, Hr2.
    + intros j Hj. destruct (decide (j = rid)) as [->|Hne]; [by right|]. apply Hfrom.
      apply elem_of_app in Hj as [Hj|Hj]; apply elem_of_cons in Hj as [->|Hj];
        [by left|right; auto with go|done|right; auto with go].
    + eapply keeps_trans; [done..|]. intros j ->%list_elem_of_singleton. by left.
    + replace (bt_rootID t3) with (bt_rootID t) in * by congruence.
      exists t4, r. split; [exact Hrun|]. split_and!; done || congruence || lia.
  - exists t2, (InvalidBlockID, []). split; [done|]. split; [done|]. split; [|split_and!; try done].
    + apply (pr_whole _ _ _ _ _ _ _ _ _ (id :: ids')); [|done|done].
      exists ks, cs, ids'. split_and!; try done; unfold MaxInternalKeys; lia.
    + unfold root_cost. case_bool_decide; lia.
Qed.

Lemma NoDup_middle {A} (i1 ic i2 : list A) :
  NoDup (i1 ++ ic ++ i2) ↔ NoDup ic ∧ NoDup (i1 ++ i2) ∧ ∀ j, j ∈ i1 ++ i2 → j ∉ ic.
Proof.
  assert (i1 ++ ic ++ i2 ≡ₚ ic ++ (i1 ++ i2)) as -> by apply Permutation_app_swap_app.
  rewrite NoDup_app. split; [intros (? & Hd & ?)|intros (? & ? & Hd)];
    split_and!; try done; intros j ? ?; by apply (Hd j).
Qed.

(** Replacing the blocks of a child by blocks that come from it. *)
Lemma NoDup_replace (v : gmap Z Block) id i1 ic i2 im :
  NoDup (id :: i1 ++ ic ++ i2) → NoDup im → comes_from v ic im →
  (∀ j, j ∈ id :: i1 ++ ic ++ i2 → is_Some (v !! j)) →
  NoDup (id :: i1 ++ im ++ i2) ∧ comes_from v (id :: i1 ++ ic ++ i2) (id :: i1 ++ im ++ i2).
Proof.
  intros [Hid (Hc & Ho & Hd)%NoDup_middle]%NoDup_cons Hm Hfrom Hdom.
  assert (∀ j, j ∈ im → j ∈ id :: i1 ++ i2 → False) as Hdis.
  { intros j Hj Hin. destruct (Hfrom j Hj) as [Hjc|Hn].
    - apply elem_of_cons in Hin as [->|Hin]; [|by apply (Hd j)]. apply Hid. auto with go.
    - assert (is_Some (v !! j)) as [? ?]; [|congruence]. apply Hdom.
      apply elem_of_cons in Hin as [->|Hin]; [by left|right].
      apply elem_of_app in Hin as [?|?]; auto with go. }
  split.
  - apply NoDup_cons. split; [|apply NoDup_middle; split_and!; [done..|]].
    + intros [Hin|[Hin|Hin]%elem_of_app]%elem_of_app.
      * apply Hid. auto with go.
      * apply (Hdis id Hin). by left.
      * apply Hid. auto with go.
    + intros j Hj Hjm. apply (Hdis j Hjm). by right.
  - intros j [->|[Hj|[Hj|Hj]%elem_of_app]%elem_of_app]%elem_of_cons; [left; by left|left; right; auto with go| |left; right; auto with go].
    destruct (Hfrom j Hj); [left; right; auto with go|by right].
Qed.

(** The child [c] of [id] was split: its blocks [ic] became [a1 ++ a2]. *)
Lemma insert_child_ok t t2 h id lo hi l key ks cs cs1 c cs2 ks1 ks2 i1 ic i2 l1 lc l2 clo chi
    rid sep a1 a2 m1 m2 :
  descent t h id lo hi (id :: i1 ++ ic ++ i2) l key ks cs (i1 ++ ic ++ i2)
    cs1 c cs2 ks1 ks2 i1 ic i2 l1 lc l2 clo chi →
  NoDup (id :: i1 ++ ic ++ i2) → (∀ j, j ∈ id :: i1 ++ ic ++ i2 → is_Some (tview t !! j)) →
  tok t2 → (2 ≤ tfree t2)%Z → (id = bt_rootID t2 → lo = None ∧ hi = None) →
  keeps (tview t) (tview t2) (id :: i1 ++ ic ++ i2) → is_Some (tview t2 !! id) →
  (∀ c lo hi i l, (∀ j, j ∈ i → j ∈ i1 ++ i2) → repr (tview t) h c lo hi i l → repr (tview t2) h c lo hi i l) →
  halves (tview t2) h c rid sep clo chi a1 a2 m1 m2 → comes_from (tview t) ic (a1 ++ a2) →
  ∃ t' r, insert_child id (internal_of id ks cs) sep rid t2 = (Ok r, t') ∧ tok t' ∧
    put_result (bt_rootID t2) (tview t) (tview t') (S h) id lo hi (id :: i1 ++ ic ++ i2)
      (l1 ++ (m1 ++ m2) ++ l2) r ∧ keeps (tview t) (tview t') (id :: i1 ++ ic ++ i2) ∧
    (tfree t2 - 1 - root_cost id (bt_rootID t2) ≤ tfree t')%Z ∧ bt_rootID t' = bt_rootID t2.
Proof.
  intros [_ _ _ _ _ _ Hlen Hcs Hsm Hsort F] Hnd Hdom Hok2 Hfree Hrr Hkall Hid2 Hmono Hh Hfrom.
  destruct F as [Hc Hk Hlc Hlk _ _ _ _ _ _ _ Hput].
  assert (chain (repr (tview t2) h) (cs1 ++ [c; rid] ++ cs2) (ks1 ++ [sep] ++ ks2) lo hi
    (i1 ++ (a1 ++ a2) ++ i2) (l1 ++ (m1 ++ m2) ++ l2)) as Hch2.
  { apply Hput; [done|]. destruct Hh. constructor; [done..|]. by constructor. }
  pose proof (chain_sorted _ _ _ _ _ _ _ Hch2) as [Hsort2 _].
  assert (count_le sep ks = length ks1) as Hcnt by (rewrite Hk; by apply count_le_middle).
  unfold insert_child, lift.
  rewrite (bind_ok _ _ _ (internal_of id (ks1 ++ [sep] ++ ks2) (cs1 ++ [c; rid] ++ cs2)) t2).
  2: { rewrite internal_Insert_of by (done || lia). rewrite Hcnt, Hk, Hc.
       rewrite take_app_length, drop_app_length. rewrite (cons_middle c), app_assoc.
       replace (S (length ks1)) with (length (cs1 ++ [c])) by (rewrite length_app; simpl; lia).
       rewrite take_app_length, drop_app_length. by rewrite <- app_assoc. }
  destruct (NoDup_replace (tview t) id i1 ic i2 (a1 ++ a2)) as [Hnd' Hfrom']; [done|by destruct Hh|done..|].
  apply (grow_ok (tview t) t2 h id (ks1 ++ [sep] ++ ks2) (cs1 ++ [c; rid] ++ cs2) lo hi
    (id :: i1 ++ ic ++ i2) (i1 ++ (a1 ++ a2) ++ i2)); try done.
  - rewrite Hc in Hlen. rewrite !length_app in *. simpl in *. unfold MaxInternalKeys in *. lia.
  - rewrite Hk in Hsm. apply Forall_app in Hsm as [? ?]. apply Forall_app; split; [done|].
    constructor; [by destruct Hh|done].
  - by left.
Qed.

(** The child [c] of [id] stayed whole. *)
Lemma put_whole_ok t t2 h id lo hi l key ks cs cs1 c cs2 ks1 ks2 i1 ic i2 l1 lc l2 clo chi im lm :
  descent t h id lo hi (id :: i1 ++ ic ++ i2) l key ks cs (i1 ++ ic ++ i2)
    cs1 c cs2 ks1 ks2 i1 ic i2 l1 lc l2 clo chi →
  NoDup (id :: i1 ++ ic ++ i2) → (∀ j, j ∈ id :: i1 ++ ic ++ i2 → is_Some (tview t !! j)) →
  tview t2 !! id = Some (internal_block ks cs) →
  (∀ c lo hi i l, (∀ j, j ∈ i → j ∈ i1 ++ i2) → repr (tview t) h c lo hi i l → repr (tview t2) h c lo hi i l) →
  repr (tview t2) h c clo chi im lm → NoDup im → comes_from (tview t) ic im →
  put_result (bt_rootID t2) (tview t) (tview t2) (S h) id lo hi (id :: i1 ++ ic ++ i2)
    (l1 ++ lm ++ l2) (InvalidBlockID, []).
Proof.
  intros [_ _ _ _ _ _ Hlen Hcs Hsm Hsort F] Hnd Hdom Hid2 Hmono Hr Hndm Hfrom.
  destruct F as [Hc Hk Hlc Hlk _ _ _ _ Hcr _ _ Hput].
  destruct (NoDup_replace (tview t) id i1 ic i2 im) as [Hnd' Hfrom']; [done..|].
  apply (pr_whole _ _ _ _ _ _ _ _ _ (id :: i1 ++ im ++ i2)); [|done..].
  exists ks, cs, (i1 ++ im ++ i2). split; [done|]. split; [done|]. split; [|done].
  rewrite Hc, Hk. apply (Hput (repr (tview t2) h) [c] [] im lm); [done|]. by constructor.
Qed.

Lemma bt_put_ok h : ∀ fuel t id lo hi ids l key val,
  h < fuel → tok t → (Z.of_nat h + 2 ≤ tfree t)%Z → repr (tview t) h id lo hi ids l → NoDup ids →
  in_range lo hi key → small_entry (key, val) → (bt_rootID t ∈ ids → id = bt_rootID t) →
  (id = bt_rootID t → lo = None ∧ hi = None) →
  ∃ t' r, bt_put fuel id key val t = (Ok r, t') ∧ tok t' ∧
    put_result (bt_rootID t) (tview t) (tview t') h id lo hi ids (insert_kv key val l) r ∧
    keeps (tview t) (tview t') ids ∧
    (tfree t - Z.of_nat h - 1 - root_cost id (bt_rootID t) ≤ tfree t')%Z ∧ bt_rootID t' = bt_rootID t.
Proof.
  induction h as [|h IH]; intros [|fuel] t id lo hi ids l key val Hfuel Hok Hfree Hr Hnd Hin Hkv Hroot Hrr; try lia.
  { destruct Hr as (right & Hv & Hright & -> & Hs & Hrg & Hsm & Hl).
    destruct (bt_put_leaf t id right l lo hi key val fuel) as (t' & r & ? & ? & ? & ? & ? & ?); try done.
    exists t', r. split_and!; done || lia. }
  destruct (descend t h id lo hi ids l key) as
    (ks & cs & ids' & cs1 & c & cs2 & ks1 & ks2 & i1 & ic & i2 & l1 & lc & l2 & clo & chi & D); [done..|].
  pose proof D as [Hv Hleaf Hdec Hfind Hchild -> _ _ _ _ [_ _ _ _ -> -> Hch Hrg Hcr Hb Ha _]].
  pose proof (repr_dom _ _ _ _ _ _ _ Hr) as Hdom. rewrite Forall_forall in Hdom.
  pose proof Hnd as [Hid (Hndc & Hndo & Hdisj)%NoDup_middle]%NoDup_cons.
  assert (id ∉ ic) as Hidc by (intros ?; apply Hid; auto with go).
  assert (c ∈ ic) as Hcin by (by eapply repr_head).
  assert (bt_rootID t ∉ ic) as Hnr.
  { intros Hin'. rewrite <- (Hroot ltac:(right; auto with go)) in Hin'. done. }
  cbn [bt_put].
  destruct (on_cache_get t id _ Hok Hv) as (t1 & Hg & Hok1 & Hv1 & Hf1 & Hr1). mstep Hg.
  rewrite Hleaf. unfold lift. mstep (f_equal (λ o, (o, t1)) Hdec). mstep (f_equal (λ o, (o, t1)) Hfind).
  mstep (f_equal (λ o, (o, t1)) Hchild).
  destruct (IH fuel t1 c clo chi ic lc key val) as (t2 & r & Hrun & Hok2 & Hres & Hk2 & Hf2 & Hr2);
    rewrite ?Hv1, ?Hr1 in *; try done; [lia|lia|intros ->; done|].
  mstep Hrun. pose proof (root_cost_nonneg id (bt_rootID t)) as Hrc0.
  assert (root_cost c (bt_rootID t) = 0%Z) as Hcost.
  { unfold root_cost. rewrite bool_decide_eq_false_2; [done|]. intros Heq. congruence. }
  assert (tview t2 !! id = Some (internal_block ks cs)) as Hv2 by (rewrite <- Hv; apply Hk2; eauto).
  assert (keeps (tview t) (tview t2) (id :: i1 ++ ic ++ i2)) as Hkall.
  { eapply (keeps_trans _ (tview t)); [done|exact Hk2|]. intros j Hj. left. right. auto with go. }
  assert (∀ c lo hi i l, (∀ j, j ∈ i → j ∈ i1 ++ i2) → repr (tview t) h c lo hi i l →
    repr (tview t2) h c lo hi i l) as Hmono.
  { intros c' lo' hi' i l' Hi Hr'. eapply (repr_frame_keeps _ _ _ _ _ _ _ _ ic); [done..|].
    intros j Hj. by apply Hdisj, Hi. }
  rewrite insert_kv_app by done.
  inversion Hres as [im Hrc Hndm Hfrom Er|rid sep a1 a2 m1 m2 Hcr' Hrid Hlm Hh Hfrom Er|]; subst r; [..|congruence].
  - exists t2, (InvalidBlockID, []). split; [done|]. split; [done|].
    split; [|split_and!; done || congruence || lia]. rewrite <- Hr2. by eapply put_whole_ok.
  - cbn beta iota. unfold InvalidBlockID. rewrite bool_decide_eq_true_2 by lia. rewrite Hlm.
    destruct (insert_child_ok t t2 h id lo hi (l1 ++ lc ++ l2) key ks cs cs1 c cs2 ks1 ks2 i1 ic i2 l1 lc l2 clo chi
      rid sep a1 a2 m1 m2) as (t3 & r & Hrun3 & ? & ? & ? & ? & ?); try done; try lia; [by rewrite Hr2|].
    rewrite Hr2 in *. exists t3, r. split; [exact Hrun3|]. split_and!; done || lia.
Qed.

(** ** Delete *)

Lemma bt_delete_ok h : ∀ fuel t id lo hi ids l key,
  h < fuel → tok t → repr (tview t) h id lo hi ids l → NoDup ids → in_range lo hi key →
  ∃ t', bt_delete fuel id key t = (Ok (), t') ∧ tok t' ∧
    repr (tview t') h id lo hi ids (delete_kv key l) ∧ keeps (tview t) (tview t') ids ∧
    tfree t' = tfree t ∧ bt_rootID t' = bt_rootID t.
Proof.
  induction h as [|h IH]; intros [|fuel] t id lo hi ids l key Hfuel Hok Hr Hnd Hin; try lia; cbn [bt_delete].
  - destruct Hr as (right & Hv & Hright & -> & Hs & Hrg & Hsm & Hl).
    destruct (on_cache_get t id _ Hok Hv) as (t1 & Hg & Hok1 & Hv1 & Hf1 & Hr1). mstep Hg.
    destruct (leaf_block_decode id right l) as [-> Hd]; [done|lia|done|]. unfold lift.
    mstep (f_equal (λ o, (o, t1)) Hd). unfold MaxLeafKeys in Hl.
    mstep (f_equal (λ o, (o, t1)) (leaf_Delete_of id right l key Hs ltac:(lia))). cbn beta iota.
    assert (length (delete_kv key l) ≤ length l) as Hlen by apply length_filter.
    case_bool_decide as Hk; cbn [negb].
    + destruct (leaf_Serialize_block id right (delete_kv key l)) as (bs & Hbs & Hblk).
      mstep (f_equal (λ o, (o, t1)) Hbs). rewrite Hblk.
      destruct (on_cache_put t1 id (leaf_block right (delete_kv key l)) Hok1) as (t2 & Hp & Hok2 & Hv2 & Hf2 & Hr2);
        [by rewrite Hv1, Hv|auto with go|].
      rewrite Hp. exists t2. split; [done|]. split; [done|]. split; [|split; [|split; congruence]].
      * exists right. rewrite Hv2, lookup_insert_eq. split_and!; try done; try lia.
        -- by apply delete_kv_sorted.
        -- by apply delete_kv_Forall.
        -- by apply delete_kv_Forall.
        -- unfold MaxLeafKeys. lia.
      * rewrite Hv2, Hv1. apply keeps_insert; [done|left; by left].
    + exists t1. rewrite delete_kv_notin.
      2: { rewrite Forall_forall. intros e He <-. by apply Hk, list_elem_of_fmap_2. }
      rewrite Hv1. split_and!; try done. exists right. split_and!; try done; unfold MaxLeafKeys; lia.
  - destruct (descend t h id lo hi ids l key) as
      (ks & cs & ids' & cs1 & c & cs2 & ks1 & ks2 & i1 & ic & i2 & l1 & lc & l2 & clo & chi & D); [done..|].
    destruct D as [Hv Hleaf Hdec Hfind Hchild -> Hlen Hcs Hsm _ [Hc Hk _ _ -> -> Hch Hrg Hcr Hb Ha Hput]].
    apply NoDup_cons in Hnd as [Hid (Hndc & Hndo & Hdisj)%NoDup_middle].
    destruct (on_cache_get t id _ Hok Hv) as (t1 & Hg & Hok1 & Hv1 & Hf1 & Hr1). mstep Hg.
    rewrite Hleaf. unfold lift. mstep (f_equal (λ o, (o, t1)) Hdec). mstep (f_equal (λ o, (o, t1)) Hfind).
    mstep (f_equal (λ o, (o, t1)) Hchild).
    destruct (IH fuel t1 c clo chi ic lc key) as (t2 & Hrun & Hok2 & Hr2 & Hk2 & Hf2 & Hrt2);
      rewrite ?Hv1 in *; try done; [lia|].
    exists t2. rewrite delete_kv_app by done.
    split; [done|]. split; [done|]. split; [|split; [|split; congruence]].
    + exists ks, cs, (i1 ++ ic ++ i2).
      split; [rewrite <- Hv; apply Hk2; [eauto|intros ?; apply Hid; auto with go]|].
      split; [done|]. split; [|done]. rewrite Hc, Hk.
      apply (Hput (repr (tview t2) h) [c] [] ic (delete_kv key lc)); [|by constructor].
      intros c' lo' hi' i l' Hi Hr'. eapply (repr_frame_keeps _ _ _ _ _ _ _ _ ic); [done..|].
      intros j Hj. by apply Hdisj, Hi.
    + eapply (keeps_trans _ (tview t)); [done|exact Hk2|]. intros j Hj. left. right. auto with go.
Qed.

(** ** Scan *)

Lemma scan_leaf_filter start stop l :
  kv_sorted l → Forall (λ e, start ≼ e.1) l → scan_leaf l stop = filter (in_scan start stop) l.
Proof.
  induction l as [|[k v] l IH]; [done|]. intros [Hk Hl] [Hs Hss]%Forall_cons. cbn [scan_leaf].
  rewrite filter_cons. destruct stop as [e|].
  - case_bool_decide as Hgt.
    + assert (e ≺ k) as Hek by (unfold bytes_lt; rewrite bytes_Compare_antisym, Hgt; done).
      rewrite decide_False by (intros [_ He]; done). symmetry. apply filter_none.
      eapply Forall_impl; [exact Hk|]. intros [k' v'] Hk' [_ Hc]. simpl in *.
      apply bytes_le_lt_iff in Hc. apply Hc. by transitivity k.
    + rewrite decide_True by done. f_equal. auto.
  - rewrite decide_True by done. f_equal. auto.
Qed.

Lemma scan_from start stop l :
  kv_sorted l → scan_leaf (drop (count_lt start l.*1) l) stop = filter (in_scan start stop) l.
Proof.
  induction l as [|[k v] l IH]; [done|]. intros Hs. pose proof Hs as [Hk Hl]. rewrite fmap_cons. cbn [fst].
  destruct (decide (k ≺ start)) as [Hlt|Hge].
  - rewrite count_lt_cons_lt, filter_cons_False; [by apply IH| |done].
    intros [Hc _]. simpl in Hc. by apply bytes_le_lt_iff in Hc.
  - rewrite count_lt_cons_ge by done. apply scan_leaf_filter; [done|].
    apply bytes_le_lt_iff in Hge. constructor; [done|]. eapply Forall_impl; [exact Hk|].
    intros e He. apply bytes_lt_le. eauto with go.
Qed.

(** Consecutive subtrees and their entries. *)
Inductive pieces (R : node_pred) : list BlockID → list (list byte * list byte) → Prop :=
| pieces_nil : pieces R [] []
| pieces_cons c cs lo hi ids l1 l2 : R c lo hi ids l1 → pieces R cs l2 → pieces R (c :: cs) (l1 ++ l2).

Lemma chain_pieces R cs ks lo hi ids l : chain R cs ks lo hi ids l → pieces R cs l.
Proof.
  induction 1; [|by econstructor]. rewrite <- (app_nil_r l). econstructor; [done|constructor].
Qed.

(** The children before the one [FindChild] selects hold smaller keys only. *)
Lemma chain_drop R cs ks lo hi ids l key :
  (∀ c lo hi i l, R c lo hi i l → Forall (λ e, in_range lo hi e.1) l) →
  chain R cs ks lo hi ids l →
  ∃ l1 l2, l = l1 ++ l2 ∧ Forall (λ e, e.1 ≺ key) l1 ∧ pieces R (drop (count_le key ks) cs) l2.
Proof.
  intros HR. induction 1 as [c lo hi ids l Hr HRc|c k cs ks lo hi i1 i2 m1 m2 Hr HRc Hch IH].
  - exists [], l. split; [done|]. split; [constructor|]. eapply chain_pieces. by constructor.
  - destruct (decide (k ≼ key)) as [Hk|Hk].
    + destruct IH as (l1 & l2 & -> & Hl1 & Hp). exists (m1 ++ l1), l2. split; [by rewrite app_assoc|].
      rewrite count_le_cons_le by done. split; [|done]. apply Forall_app. split; [|done].
      eapply Forall_impl; [by eapply HR|]. intros e [_ He]. simpl in He. eauto with go.
    + exists [], (m1 ++ m2). split; [done|]. split; [constructor|].
      rewrite count_le_cons_gt; [eapply chain_pieces; by constructor|].
      destruct (bytes_trichotomy key k) as [?|[->|?]]; [done|..]; destruct Hk; auto with go.
Qed.

Definition scan_same (s s' : BTree C * list KeyValue) : Prop :=
  tok s'.1 ∧ tview s'.1 = tview s.1 ∧ tfree s'.1 = tfree s.1 ∧ bt_rootID s'.1 = bt_rootID s.1.

Lemma scan_children_ok v h start stop f cs l : ∀ s,
  (∀ s c lo hi ids l, tok s.1 → tview s.1 = v → repr v h c lo hi ids l →
    ∃ s', f c s = (Ok (), s') ∧ scan_same s s' ∧ s'.2 = s.2 ++ filter (in_scan start stop) l) →
  pieces (repr v h) cs l → tok s.1 → tview s.1 = v →
  ∃ s', for_each f cs s = (Ok (), s') ∧ scan_same s s' ∧ s'.2 = s.2 ++ filter (in_scan start stop) l.
Proof.
  intros s Hf Hp. revert s. induction Hp as [|c cs lo hi ids l1 l2 Hr Hp IH]; intros s Hok Hv.
  - exists s. rewrite app_nil_r. done.
  - destruct (Hf s c lo hi ids l1 Hok Hv Hr) as (s1 & Hrun & (Hok1 & Hv1 & Hf1 & Hr1) & Hres). simpl. mstep Hrun.
    destruct (IH s1) as (s2 & Hrun2 & (Hok2 & Hv2 & Hf2 & Hr2) & Hres2); [done|congruence|].
    exists s2. split; [done|]. split; [split_and!; congruence || done|].
    by rewrite Hres2, Hres, filter_app, app_assoc.
Qed.

Lemma bt_scan_ok h : ∀ fuel s id lo hi ids l start stop,
  h < fuel → tok s.1 → repr (tview s.1) h id lo hi ids l →
  ∃ s', bt_scan fuel id start stop s = (Ok (), s') ∧ scan_same s s' ∧
        s'.2 = s.2 ++ filter (in_scan start stop) l.
Proof.
  induction h as [|h IH]; intros [|fuel] s id lo hi ids l start stop Hfuel Hok Hr; try lia; cbn [bt_scan].
  - pose proof (repr_sorted _ _ _ _ _ _ _ Hr) as Hs. destruct Hr as (r & Hv & Hrr & -> & _ & _ & Hsm & Hl).
    destruct (on_cache_get s.1 id _ Hok Hv) as (t1 & Hg & ? & ? & ? & ?).
    mstep (zoom_ok fst (λ t s, (t, s.2)) _ s _ _ Hg). cbn beta.
    destruct (leaf_block_decode id r l) as [-> Hd]; [done|lia|done|]. unfold lift.
    mstep (f_equal (λ o, (o, (t1, s.2))) Hd).
    mstep (f_equal (λ o, (o, (t1, s.2))) (findKey_count (leaf_of id r l) start (kv_sorted_keys l Hs))).
    eexists. split; [reflexivity|]. split; [done|]. simpl. by rewrite zip_fst_snd, scan_from.
  - destruct Hr as (ks & cs & ids' & Hv & -> & Hc & Hn & Hsm).
    pose proof (chain_length _ _ _ _ _ _ _ Hc) as Hlen. pose proof (chain_sorted _ _ _ _ _ _ _ Hc) as [Hsort _].
    assert (Forall (λ c, 0 ≤ c < 2 ^ 32)%Z cs) as Hcs.
    { eapply chain_children; [|done]. intros c lo' hi' i l' [_ Hd]%repr_head.
      apply (tview_range s.1) in Hd; [lia|done]. }
    destruct (on_cache_get s.1 id _ Hok Hv) as (t1 & Hg & ? & ? & ? & ?).
    mstep (zoom_ok fst (λ t s, (t, s.2)) _ s _ _ Hg). cbn beta.
    destruct (internal_block_decode id ks cs) as [-> Hdec]; try done; [lia|]. unfold lift.
    mstep (f_equal (λ o, (o, (t1, s.2))) Hdec).
    mstep (f_equal (λ o, (o, (t1, s.2))) (FindChild_count (internal_of id ks cs) start Hsort)).
    destruct (chain_drop _ _ _ _ _ _ _ start (λ c lo hi i l, repr_keys _ _ _ _ _ _ _) Hc) as (l1 & l2 & -> & Hl1 & Hp).
    destruct (scan_children_ok (tview s.1) h start stop (λ c, bt_scan fuel c start stop)
      (drop (count_le start ks) cs) l2 (t1, s.2)) as (s' & Hrun & Hsame & Hres); try done.
    { intros s0 c lo0 hi0 i0 l0 Hok0 Hv0 Hr0. eapply IH; [lia|done|by rewrite Hv0]. }
    exists s'. split; [done|]. split; [destruct Hsame as (? & ? & ? & ?); split_and!; simpl in *; congruence|].
    rewrite Hres, filter_app. rewrite (filter_none _ l1); [done|].
    eapply Forall_impl; [exact Hl1|]. intros e He [Hc' _]. by apply bytes_le_lt_iff in Hc'.
Qed.

(** ** The tree as a finite map *)

(** [t] is a well-formed tree on a healthy cache and holds the map [m]. *)
Definition tree_ok t (m : gmap (list byte) (list byte)) : Prop :=
  ∃ h ids l, tok t ∧ repr (tview t) h (bt_rootID t) None None ids l ∧ NoDup ids ∧ kv_map l = m.

(** [bt_fuel] levels are enough: the blocks of a subtree have distinct 32-bit ids. *)
Lemma height_bound t h id lo hi ids l :
  tok t → repr (tview t) h id lo hi ids l → NoDup ids → h < 32.
Proof.
  intros Hok Hr Hnd. pose proof (repr_count _ _ _ _ _ _ _ Hr) as Hc.
  assert (ids ⊆+ seqZ 1 (2 ^ 32)) as Hsub.
  { apply NoDup_submseteq; [done|]. intros j Hj. apply elem_of_seqZ.
    pose proof (repr_dom _ _ _ _ _ _ _ Hr) as Hd. rewrite Forall_forall in Hd.
    pose proof (tview_range t j Hok (Hd j Hj)). lia. }
  apply submseteq_length in Hsub. rewrite length_seqZ in Hsub.
  assert (2 ^ Z.of_nat h ≤ 2 ^ 32)%Z as Hz.
  { replace 2%Z with (Z.of_nat 2) at 1 by done. rewrite <- Nat2Z.inj_pow. lia. }
  apply Z.pow_le_mono_r_iff in Hz; [|lia..].
  destruct (decide (h = 32)) as [->|]; [exfalso|lia].
  assert (length ids ≤ Z.to_nat (2 ^ 32 - 1)) as Hl.
  { rewrite <- (length_seqZ 1). apply submseteq_length, NoDup_submseteq; [done|].
    intros j Hj. apply elem_of_seqZ.
    pose proof (repr_dom _ _ _ _ _ _ _ Hr) as Hd. rewrite Forall_forall in Hd.
    pose proof (tview_range t j Hok (Hd j Hj)). lia. }
  assert (Z.of_nat (2 ^ 32) ≤ 2 ^ 32 - 1)%Z as Hbad by lia. rewrite Nat2Z.inj_pow in Hbad. lia.
Qed.

Lemma Get_ok t m key :
  tree_ok t m → ∃ t', Get key t = (Ok (m !! key), t') ∧ tree_ok t' m ∧ tfree t' = tfree t.
Proof.
  intros (h & ids & l & Hok & Hr & Hnd & <-). pose proof (height_bound _ _ _ _ _ _ _ Hok Hr Hnd).
  destruct (bt_get_ok h bt_fuel t (bt_rootID t) None None ids l key) as (t' & Hrun & ? & Hv & ? & Hrt);
    try done; [pose proof bt_fuel_val; lia|].
  exists t'. split; [exact Hrun|]. split; [|done]. exists h, ids, l. by rewrite Hv, Hrt.
Qed.


Lemma Put_ok t m key val :
  tree_ok t m → small_entry (key, val) → (34 ≤ tfree t)%Z →
  ∃ t', Put key val t = (Ok (), t') ∧ tree_ok t' (<[key := val]> m) ∧ (tfree t - 34 ≤ tfree t')%Z.
Proof.
  intros (h & ids & l & Hok & Hr & Hnd & <-) Hkv Hf. pose proof (height_bound _ _ _ _ _ _ _ Hok Hr Hnd).
  pose proof (repr_sorted _ _ _ _ _ _ _ Hr) as Hs.
  destruct (bt_put_ok h bt_fuel t (bt_rootID t) None None ids l key val) as
    (t1 & r & Hrun & Hok1 & Hres & Hk1 & Hf1 & Hr1); try done; [pose proof bt_fuel_val; lia|lia|].
  unfold root_cost in Hf1. rewrite bool_decide_eq_true_2 in Hf1 by done.
  unfold Put. rewrite (bind_ok get_state _ t t t) by done. mstep Hrun.
  inversion Hres as [ids' Hr' Hnd' _ Er|rid sep a1 a2 m1 m2 Hne|nr ids' _ Hnr Hr' Hnd' Er]; subst r; [|done|].
  - exists t1. split; [done|]. split; [|lia]. exists h, ids', (insert_kv key val l).
    rewrite Hr1. rewrite kv_map_insert by done. done.
  - exists (mkBT (bt_cache t1) nr). split; [|split; [|unfold tfree in *; simpl; lia]].
    + cbn beta iota. unfold InvalidBlockID. by rewrite bool_decide_eq_true_2 by lia.
    + exists (S h), ids', (insert_kv key val l). by rewrite kv_map_insert.
Qed.

Lemma Delete_ok t m key :
  tree_ok t m → ∃ t', Delete key t = (Ok (), t') ∧ tree_ok t' (delete key m) ∧ tfree t' = tfree t.
Proof.
  intros (h & ids & l & Hok & Hr & Hnd & <-). pose proof (height_bound _ _ _ _ _ _ _ Hok Hr Hnd).
  destruct (bt_delete_ok h bt_fuel t (bt_rootID t) None None ids l key) as
    (t' & Hrun & ? & Hr' & ? & ? & Hrt); try done; [pose proof bt_fuel_val; lia|].
  exists t'. split; [exact Hrun|]. split; [|done]. exists h, ids, (delete_kv key l).
  rewrite Hrt, kv_map_delete by (by eapply repr_sorted). done.
Qed.

(** [res] lists in key order exactly the entries of [m] in the scanned range. *)
Definition scan_result (m : gmap (list byte) (list byte)) (start : list byte) (stop : option (list byte))
    (res : list KeyValue) : Prop :=
  kv_sorted res ∧ ∀ k v, (k, v) ∈ res ↔ m !! k = Some v ∧ in_scan start stop (k, v).

Lemma Scan_ok t m start stop :
  tree_ok t m →
  ∃ t' res, Scan start stop t = (Ok (), (t', res)) ∧ tree_ok t' m ∧ tfree t' = tfree t ∧
            scan_result m start stop res.
Proof.
  intros (h & ids & l & Hok & Hr & Hnd & <-). pose proof (height_bound _ _ _ _ _ _ _ Hok Hr Hnd).
  pose proof (repr_sorted _ _ _ _ _ _ _ Hr) as Hs.
  destruct (bt_scan_ok h bt_fuel (t, []) (bt_rootID t) None None ids l start stop) as
    ([t' res] & Hrun & (? & Hv & ? & Hrt) & Hres); try done; [pose proof bt_fuel_val; lia|]. simpl in *. subst res.
  exists t', (filter (in_scan start stop) l). split; [exact Hrun|]. split; [|split; [done|]].
  - exists h, ids, l. by rewrite Hv, Hrt.
  - split; [by apply kv_sorted_filter|]. intros k v. rewrite list_elem_of_filter.
    rewrite (elem_of_list_to_map l k v) by (by apply kv_sorted_NoDup). unfold kv_map. tauto.
Qed.

Lemma New_ok (c : C) :
  bc_ok c → (0 < bc_free c)%Z →
  ∃ t c', New c = (Ok t, c') ∧ tree_ok t ∅ ∧ tfree t = (bc_free c - 1)%Z.
Proof.
  intros Hok Hf. destruct (bc_alloc c (leaf_block InvalidBlockID []) Hok Hf) as
    (c' & id & Ha & Hok' & Hn & Hv & Hf'); [auto with go|].
  unfold New. change (NewLeafNode InvalidBlockID) with (leaf_of InvalidBlockID InvalidBlockID []).
  unfold lift. mstep (f_equal (λ o, (o, c)) (leaf_Serialize_of InvalidBlockID InvalidBlockID [])).
  change (NewBlockFromData _) with (leaf_block InvalidBlockID []).
  mstep (wrap_err_ok "failed to allocate root" _ _ _ _ Ha).
  exists (mkBT c' id), c'. split; [done|]. split; [|done]. exists 0, [id], [].
  split; [done|]. split; [|split; [apply NoDup_singleton|done]]. exists InvalidBlockID. unfold tview.
  simpl. rewrite Hv, lookup_insert_eq. split_and!; try done; unfold InvalidBlockID, MaxLeafKeys; lia.
Qed.

(** ** Runs of operations *)

Inductive bt_op :=
| BGet (key : list byte)
| BPut (key val : list byte)
| BDelete (key : list byte)
| BScan (start : list byte) (stop : option (list byte)).

Inductive bt_answer := AValue (v : option (list byte)) | ADone | AEntries (l : list KeyValue).

Definition bt_exec (op : bt_op) : M (BTree C) bt_answer :=
  match op with
  | BGet k => v ← Get k; mret (AValue v)
  | BPut k v => Put k v;; mret ADone
  | BDelete k => Delete k;; mret ADone
  | BScan a b => λ t, match Scan a b t with
                      | (Ok _, (t', res)) => (Ok (AEntries res), t')
                      | (Err e, (t', _)) => (Err e, t')
                      | (Panic, (t', _)) => (Panic, t')
                      | (NoFuel, (t', _)) => (NoFuel, t')
                      end
  end.

Fixpoint bt_exec_all (ops : list bt_op) : M (BTree C) (list bt_answer) :=
  match ops with
  | [] => mret []
  | op :: ops' => a ← bt_exec op; rest ← bt_exec_all ops'; mret (a :: rest)
  end.

Definition bt_op_small (op : bt_op) : Prop :=
  match op with BPut k v => small_entry (k, v) | _ => True end.

(** The specification: the operations of a finite map. *)
Definition spec_step (m : gmap (list byte) (list byte)) (op : bt_op) (a : bt_answer)
    (m' : gmap (list byte) (list byte)) : Prop :=
  match op, a with
  | BGet k, AValue v => v = m !! k ∧ m' = m
  | BPut k v, ADone => m' = <[k := v]> m
  | BDelete k, ADone => m' = delete k m
  | BScan s e, AEntries l => scan_result m s e l ∧ m' = m
  | _, _ => False
  end.

Inductive spec_run : gmap (list byte) (list byte) → list bt_op → list bt_answer →
    gmap (list byte) (list byte) → Prop :=
| spec_nil m : spec_run m [] [] m
| spec_cons m op a m1 ops ans m2 :
    spec_step m op a m1 → spec_run m1 ops ans m2 → spec_run m (op :: ops) (a :: ans) m2.

Lemma bt_exec_ok t m op :
  tree_ok t m → bt_op_small op → (34 ≤ tfree t)%Z →
  ∃ t' a m', bt_exec op t = (Ok a, t') ∧ tree_ok t' m' ∧ spec_step m op a m' ∧ (tfree t - 34 ≤ tfree t')%Z.
Proof.
  intros Ht Hop Hf. destruct op as [k|k v|k|s e]; simpl.
  - destruct (Get_ok t m k Ht) as (t' & Hr & Ht' & Hf'). mstep Hr.
    exists t', (AValue (m !! k)), m. split_and!; try done. lia.
  - destruct (Put_ok t m k v Ht Hop Hf) as (t' & Hr & Ht' & Hf'). mstep Hr.
    by exists t', ADone, (<[k := v]> m).
  - destruct (Delete_ok t m k Ht) as (t' & Hr & Ht' & Hf'). mstep Hr.
    exists t', ADone, (delete k m). split_and!; try done. lia.
  - destruct (Scan_ok t m s e Ht) as (t' & res & -> & Ht' & Hf' & Hres).
    exists t', (AEntries res), m. split_and!; try done. lia.
Qed.

Lemma bt_exec_all_ok ops : ∀ t m,
  tree_ok t m → Forall bt_op_small ops → (34 * Z.of_nat (length ops) ≤ tfree t)%Z →
  ∃ t' ans m', bt_exec_all ops t = (Ok ans, t') ∧ tree_ok t' m' ∧ spec_run m ops ans m'.
Proof.
  induction ops as [|op ops IH]; intros t m Ht Hops Hf.
  - exists t, [], m. split; [done|]. split; [done|constructor].
  - apply Forall_cons in Hops as [Hop Hops]. simpl in Hf.
    destruct (bt_exec_ok t m op Ht Hop) as (t1 & a & m1 & Hr & Ht1 & Hs & Hf1); [lia|].
    destruct (IH t1 m1 Ht1 Hops) as (t2 & ans & m2 & Hr2 & Ht2 & Hs2); [lia|].
    exists t2, (a :: ans), m2. simpl. mstep Hr. mstep Hr2. split; [done|]. split; [done|].
    by econstructor.
Qed.
End correctness.

(** ** The properties of the tree *)

(** C2: the B-tree refines a finite map.  Starting from an empty tree on a healthy
    cache with enough free blocks, every sequence of operations with keys of at
    most 10 bytes and entries of at most 77 bytes succeeds, within the fuel, and
    answers as a finite map does: [Get] is lookup, [Put] insertion, [Delete]
    deletion, [Scan] lists the range in key order. *)
Theorem btree_refines_map {C} `{HC : BlockCacheSpec C} (c : C) ops :
  bc_ok c → (34 * Z.of_nat (length ops) < bc_free c)%Z → Forall bt_op_small ops →
  ∃ t c' ans t' m', New c = (Ok t, c') ∧ bt_exec_all ops t = (Ok ans, t') ∧
    spec_run ∅ ops ans m' ∧ tree_ok t' m'.
Proof.
  intros Hok Hf Hops. destruct (New_ok c Hok) as (t & c' & Hn & Ht & Hf'); [lia|].
  destruct (bt_exec_all_ok ops t ∅ Ht Hops) as (t' & ans & m' & ? & ? & ?); [lia|].
  exists t, c', ans, t', m'. done.
Qed.

(** Sixty keys of two bytes: enough for a leaf split and a root split. *)
Definition example_ops : list bt_op :=
  ((λ i, BPut [Byte.x61; byte_of_Z (Z.of_nat i)] [Byte.x01]) <$> seq 0 60)
    ++ [BDelete [Byte.x61; Byte.x05]; BGet [Byte.x61; Byte.x05]; BGet [Byte.x61; Byte.x30];
        BScan [Byte.x61; Byte.x2f] (Some [Byte.x61; Byte.x31])].

Lemma btree_refines_map_witness :
  ∃ t c' ans t' m', New (NewPageCache fs_fresh 10) = (Ok t, c') ∧ bt_exec_all example_ops t = (Ok ans, t') ∧
    spec_run ∅ example_ops ans m' ∧ tree_ok t' m'.
Proof.
  apply (btree_refines_map (NewPageCache fs_fresh 10)).
  - apply NewPageCache_ok; [apply fs_fresh_ok|lia].
  - reflexivity.
  - unfold example_ops. apply Forall_app. split; [|repeat constructor].
    apply Forall_fmap, Forall_forall. intros i _. unfold compose. simpl. split; simpl; lia.
Defined.

(** The same operations run: the last three answers. *)
Example example_ops_run :
  match New (NewPageCache fs_fresh 10) with
  | (Ok t, _) => match bt_exec_all example_ops t with
                 | (Ok ans, _) => drop 61 ans
                 | _ => []
                 end
  | _ => []
  end = [AValue None; AValue (Some [Byte.x01]);
         AEntries [([Byte.x61; Byte.x2f], [Byte.x01]); ([Byte.x61; Byte.x30], [Byte.x01]);
                   ([Byte.x61; Byte.x31], [Byte.x01])]].
Proof. vm_compute. reflexivity. Qed.

(** C6: the contents of a tree survive a restart.  After [Flush] on the page cache
    of a well-formed tree, opening the data file again and loading the tree from
    its root id gives a well-formed tree with the same map. *)
Theorem btree_survives_restart (t : BTree (PageCache FileSerializer)) m maxSize :
  tree_ok t m → (0 < maxSize)%Z →
  ∃ c' s', pc_Flush (bt_cache t) = (Ok (), c') ∧
    NewFileSerializer (mkFile (f_data (fs_file (pc_ser c'))) 0 []) = Ok s' ∧
    tree_ok (Load (NewPageCache s' maxSize) (RootID t)) m.
Proof.
  intros (h & ids & l & Hok & Hr & Hnd & <-) Hmax. pose proof Hok as ([lru Hwf] & _).
  destruct (pc_Flush_run _ _ Hwf) as (c' & Hrun & Hwf' & Hv & _ & _ & Hcl).
  pose proof (clean_view _ _ Hwf' Hcl) as Hstored.
  destruct (reopen_ok (pc_ser c')) as (s' & Hnew & Hs & _ & Hview); [apply Hwf'|].
  destruct (NewPageCache_ok s' maxSize) as [Hpc Hpv]; [exact Hs|done|].
  exists c', s'. split; [done|]. split; [done|]. exists h, ids, l. split; [exact Hpc|].
  split; [|done]. eapply repr_frame; [exact Hr|]. intros j _. unfold tview. simpl.
  rewrite Hpv. simpl. rewrite Hview. unfold ser_view in Hstored. simpl in Hstored. by rewrite Hstored, Hv.
Qed.

Lemma example_tree_ok : ∃ t : BTree (PageCache FileSerializer), tree_ok t ∅ ∧ (34 ≤ tfree t)%Z.
Proof.
  destruct (New_ok (NewPageCache fs_fresh 10)) as (t & c' & Hn & Ht & Hf).
  - apply NewPageCache_ok; [apply fs_fresh_ok|lia].
  - reflexivity.
  - exists t. split; [done|]. rewrite Hf. vm_compute. congruence.
Qed.

Lemma btree_survives_restart_witness :
  ∃ t c' s', Put [Byte.x61] [Byte.x01] t.1 = (Ok (), t.2) ∧ pc_Flush (bt_cache t.2) = (Ok (), c') ∧
    NewFileSerializer (mkFile (f_data (fs_file (pc_ser c'))) 0 []) = Ok s' ∧
    tree_ok (Load (NewPageCache s' 3) (RootID t.2)) (<[[Byte.x61] := [Byte.x01]]> ∅).
Proof.
  destruct example_tree_ok as (t & Ht & Hf).
  destruct (Put_ok t ∅ [Byte.x61] [Byte.x01] Ht) as (t' & Hp & Ht' & _); [split; simpl; lia|done|].
  destruct (btree_survives_restart t' _ 3 Ht') as (c' & s' & H1 & H2 & H3); [lia|].
  exists (t, t'), c', s'. done.
Defined.

(** Put one value under one key of a new tree and read it back. *)
Definition put_then_get (k v : list byte) : outcome (option (list byte)) :=
  match New (NewPageCache fs_fresh 10) with
  | (Ok t, _) => ((Put k v;; Get k) t).1
  | (Err e, _) => Err e | (Panic, _) => Panic | (NoFuel, _) => NoFuel
  end.

(** There is no check that a node fits in its block: [Put] of a value of 4090
    bytes reports success, and [Get] then returns a value whose last bytes are
    zeros; a value of 65536 bytes comes back empty. *)
Theorem large_value_is_lost :
  let v := replicate (BlockSize - 6) Byte.x41 in
  put_then_get [Byte.x61] [Byte.x41] = Ok (Some [Byte.x41]) ∧
  put_then_get [Byte.x61] v = Ok (Some (take 4084 v ++ replicate 6 Byte.x00)) ∧
  put_then_get [Byte.x61] (replicate (16 * BlockSize) Byte.x41) = Ok (Some []).
Proof. split_and!; vm_compute; reflexivity. Qed.
