(* ===== verification/Order.v ===== *)
(** * Comparison functions as total preorders

    [order_on D cmp]: on the values of [D], the three-way comparison [cmp] is a
    total preorder.  The combinators (pullback, lexicographic product, lists) give
    the comparison of compound values.  Sorting of strings ([sort.Strings]) and of
    64-bit floats is here as well. *)

From S2P Require Import Prelude Bytes.
From Stdlib Require Export Floats.SpecFloat.

(** Three comparisons of a chain [a, b, c]. *)
Definition chain3 (ab bc ac : comparison) : Prop :=
  match ab, bc with
  | Eq, x => ac = x
  | x, Eq => ac = x
  | Lt, Lt => ac = Lt
  | Gt, Gt => ac = Gt
  | _, _ => True
  end.

Record order_on {A} (D : A → Prop) (cmp : A → A → comparison) : Prop := {
  ord_antisym a b : D a → D b → cmp b a = CompOpp (cmp a b);
  ord_trans a b c : D a → D b → D c → chain3 (cmp a b) (cmp b c) (cmp a c);
}.

Definition lex (c d : comparison) : comparison := match c with Eq => d | _ => c end.

Fixpoint list_lex {A} (cmp : A → A → comparison) (a b : list A) : comparison :=
  match a, b with
  | [], [] => Eq
  | [], _ :: _ => Lt
  | _ :: _, [] => Gt
  | x :: a', y :: b' => lex (cmp x y) (list_lex cmp a' b')
  end.

Section order.
Context {A : Type}.
Implicit Types (D : A → Prop) (cmp : A → A → comparison).

Lemma ord_refl D cmp a : order_on D cmp → D a → cmp a a = Eq.
Proof. intros H Ha. pose proof (ord_antisym _ _ H a a Ha Ha). by destruct (cmp a a). Qed.

Lemma order_pullback {B} (f : B → A) D (DB : B → Prop) cmp :
  (∀ b, DB b → D (f b)) → order_on D cmp → order_on DB (λ x y, cmp (f x) (f y)).
Proof. intros Hf [H1 H2]. split; auto. Qed.

Lemma order_ext D cmp cmp' :
  (∀ a b, D a → D b → cmp a b = cmp' a b) → order_on D cmp → order_on D cmp'.
Proof. intros He [H1 H2]. split; intros; rewrite <- !He; auto. Qed.

Lemma order_weaken D D' cmp : (∀ a, D a → D' a) → order_on D' cmp → order_on D cmp.
Proof. intros H [H1 H2]. split; auto. Qed.

Lemma chain3_lex a b c a' b' c' :
  chain3 a b c → chain3 a' b' c' → chain3 (lex a a') (lex b b') (lex c c').
Proof. destruct a, b, c, a', b', c'; simpl; (done || congruence). Qed.

Lemma order_lex D cmp1 cmp2 :
  order_on D cmp1 → order_on D cmp2 → order_on D (λ a b, lex (cmp1 a b) (cmp2 a b)).
Proof.
  intros [A1 T1] [A2 T2]. split.
  - intros a b Ha Hb. rewrite A1, A2 by done. by destruct (cmp1 a b).
  - intros. apply chain3_lex; auto.
Qed.

Lemma order_list_lex D cmp : order_on D cmp → order_on (Forall D) (list_lex cmp).
Proof.
  intros [A1 T1]. split.
  - intros a b Ha. revert b. induction Ha as [|x a Hx Ha IH]; intros [|y b] Hb; try done.
    apply Forall_cons in Hb as [Hy Hb]. simpl. rewrite A1, IH by done. by destruct (cmp x y).
  - intros a b c Ha. revert b c. induction Ha as [|x a Hx Ha IH]; intros [|y b] [|z c] Hb Hc; try done.
    + simpl. by destruct (lex _ _).
    + simpl. by destruct (lex _ _).
    + apply Forall_cons in Hb as [Hy Hb]. apply Forall_cons in Hc as [Hz Hc].
      apply chain3_lex; auto.
Qed.
End order.

Lemma order_Z : order_on (λ _ : Z, True) Z.compare.
Proof.
  split.
  - intros a b _ _. apply Z.compare_antisym.
  - intros a b c _ _ _. unfold chain3.
    destruct (Z.compare_spec a b), (Z.compare_spec b c), (Z.compare_spec a c); try done; lia.
Qed.

Lemma order_nat : order_on (λ _ : nat, True) Nat.compare.
Proof.
  apply (order_ext _ (λ a b, Z.compare (Z.of_nat a) (Z.of_nat b))).
  - intros a b _ _. by rewrite Nat2Z.inj_compare.
  - by apply (order_pullback Z.of_nat (λ _, True) (λ _, True)), order_Z.
Qed.

(** Values of different classes compare by class, values of one class by [cmp]. *)
Lemma order_by_class {A} (D : A → Prop) (cls : A → Z) cmp :
  (∀ z, order_on (λ a, D a ∧ cls a = z) cmp) →
  order_on D (λ a b, lex (Z.compare (cls a) (cls b)) (cmp a b)).
Proof.
  intros Hc. split.
  - intros a b Ha Hb. rewrite (Z.compare_antisym (cls a)).
    destruct (Z.compare_spec (cls a) (cls b)) as [E| |]; simpl; try done.
    apply (ord_antisym _ _ (Hc (cls a))); split; congruence.
  - intros a b c Ha Hb Hd.
    pose proof (ord_trans _ _ order_Z (cls a) (cls b) (cls c) I I I) as Ht.
    destruct (Z.compare_spec (cls a) (cls b)) as [E1| |], (Z.compare_spec (cls b) (cls c)) as [E2| |];
      simpl in *; try rewrite Ht; try done.
    + apply (ord_trans _ _ (Hc (cls a))); split; congruence.
    + by destruct (cmp a b).
    + by destruct (cmp a b).
    + by destruct (cmp b c).
    + by destruct (cmp b c).
Qed.

(** The lexicographic order of byte strings, [<] on Go strings. *)
Definition string_cmp (a b : string) : comparison := String.compare a b.

Definition string_codes (s : string) : list Z := (λ c, Z.of_N (Ascii.N_of_ascii c)) <$> String.list_ascii_of_string s.

Lemma string_cmp_codes a b : string_cmp a b = list_lex Z.compare (string_codes a) (string_codes b).
Proof.
  revert b. induction a as [|x a IH]; intros [|y b]; try done.
  change (string_codes (String x a)) with (Z.of_N (Ascii.N_of_ascii x) :: string_codes a).
  change (string_codes (String y b)) with (Z.of_N (Ascii.N_of_ascii y) :: string_codes b).
  cbn [list_lex]. rewrite <- IH, N2Z.inj_compare. unfold string_cmp. cbn [String.compare].
  unfold Ascii.compare. by destruct (N.compare (Ascii.N_of_ascii x) (Ascii.N_of_ascii y)).
Qed.

Lemma order_string : order_on (λ _ : string, True) string_cmp.
Proof.
  eapply order_ext; [intros a b _ _; symmetry; apply string_cmp_codes|].
  apply (order_pullback string_codes (Forall (λ _, True))); [|apply order_list_lex, order_Z].
  intros s _. by apply Forall_true.
Qed.

Lemma string_cmp_eq a b : string_cmp a b = Eq ↔ a = b.
Proof.
  split; [apply String.compare_eq_iff|intros ->]. exact (ord_refl _ _ b order_string I).
Qed.

(** [sort.Strings] *)
Definition sort_Strings (l : list string) : list string := merge_sort String.le l.

Lemma sort_Strings_perm l : sort_Strings l ≡ₚ l.
Proof. apply merge_sort_Permutation. Qed.
Lemma sort_Strings_sorted l : StronglySorted String.le (sort_Strings l).
Proof. apply (StronglySorted_merge_sort String.le). Qed.
(** The sorted arrangement of given strings is unique. *)
Lemma sort_Strings_unique l k : k ≡ₚ l → StronglySorted String.le k → sort_Strings l = k.
Proof.
  intros Hp Hs. apply (StronglySorted_unique String.le); [apply sort_Strings_sorted|done|].
  by rewrite sort_Strings_perm.
Qed.

(** ** 64-bit floats

    [SpecFloat] is the standard library's executable IEEE 754 arithmetic; binary64
    has precision 53 and exponent bound 1024. *)

Abbreviation float64 := spec_float (only parsing).

Definition float_of_Z (z : Z) : float64 := binary_normalize 53 1024 z 0 false.
Definition float_lt (a b : float64) : bool := SFltb a b.
Definition float_add : float64 → float64 → float64 := SFadd 53 1024.
Definition float_sub : float64 → float64 → float64 := SFsub 53 1024.
Definition float_mul : float64 → float64 → float64 := SFmul 53 1024.
Definition float_div : float64 → float64 → float64 := SFdiv 53 1024.
Definition IsNaN (f : float64) : bool := match f with S754_nan => true | _ => false end.
Definition IsInf (f : float64) : bool := match f with S754_infinity _ => true | _ => false end.

(** [int64(f)] and [int(f)]: the value without its fraction; out of range (and for
    NaN) the smallest integer, as on amd64. *)
Definition int_of_float (f : float64) : Z :=
  match f with
  | S754_zero _ => 0
  | S754_finite s m e =>
      let v := (if 0 <=? e then Z.pos m * 2 ^ e else Z.pos m / 2 ^ (- e))%Z in
      let v := if s then (- v)%Z else v in
      if bool_decide (- 2 ^ 63 ≤ v < 2 ^ 63)%Z then v else (- 2 ^ 63)%Z
  | _ => (- 2 ^ 63)%Z
  end.

(** Integers of at most 53 binary digits are finite numbers. *)
Section exact.
#[local] Open Scope Z_scope.

Lemma digits2_lower p : 2 ^ (Z.pos (digits2_pos p) - 1) ≤ Z.pos p.
Proof.
  induction p as [p IH|p IH|]; cbn [digits2_pos]; [..|done];
    replace (Z.pos (Pos.succ (digits2_pos p)) - 1) with (Z.succ (Z.pos (digits2_pos p) - 1)) by lia;
    rewrite Z.pow_succ_r by lia; lia.
Qed.
Lemma digits2_shift p d : Z.pos (digits2_pos (Pos.iter xO p d)) = Z.pos (digits2_pos p) + Z.pos d.
Proof.
  induction d as [|d IH] using Pos.peano_ind; [cbn; lia|]. rewrite Pos.iter_succ. cbn [digits2_pos]. lia.
Qed.
(** A number of 53 binary digits is not rounded. *)
Lemma binary_round_exact m e : digits2_pos m = 53%positive → -1074 ≤ e ≤ 971 → binary_round_aux 53 1024 false (Z.pos m) e loc_Exact = S754_finite false m e.
Proof.
  intros Hm He. assert (shr_fexp 53 1024 (Z.pos m) e loc_Exact = (Build_shr_record (Z.pos m) false false, e)) as Hs.
  { unfold shr_fexp, Zdigits2, fexp, emin. rewrite Hm. replace (_ - e) with 0 by lia. done. }
  unfold binary_round_aux. rewrite Hs. cbn [shr_m loc_of_shr_record round_nearest_even]. rewrite Hs. cbn [shr_m].
  by rewrite (proj2 (Z.leb_le _ _)) by lia.
Qed.
Lemma float_of_Z_finite z : 0 ≤ z < 2 ^ 53 → IsNaN (float_of_Z z) = false ∧ IsInf (float_of_Z z) = false.
Proof.
  intros Hz. destruct z as [|p|]; [done| |lia]. unfold float_of_Z, binary_normalize, binary_round.
  assert (Z.pos (digits2_pos p) ≤ 53) as Hd.
  { apply Z.lt_succ_r, Z.le_succ_l, Z.nlt_ge. intros Hlt. pose proof (digits2_lower p).
    pose proof (Z.pow_le_mono_r 2 53 (Z.pos (digits2_pos p) - 1)). lia. }
  unfold shl_align. replace (fexp 53 1024 _ - 0) with (Z.pos (digits2_pos p) - 53) by (unfold fexp, emin; lia).
  destruct (Z.pos (digits2_pos p) - 53) as [|d|d] eqn:E; [|lia|].
  - by rewrite binary_round_exact by lia.
  - rewrite binary_round_exact; [done|pose proof (digits2_shift p d); lia|unfold fexp, emin; lia].
Qed.
End exact.

(** NaN equal to itself and below every number, [-0] equal to [0]. *)
Definition num_cmp (a b : float64) : comparison :=
  if float_lt a b then Lt
  else if float_lt b a then Gt
  else if IsNaN a && IsNaN b then Eq
  else if IsNaN a then Lt
  else if IsNaN b then Gt
  else Eq.

Definition num_code (f : float64) : list Z :=
  match f with
  | S754_nan => [-3]%Z
  | S754_infinity true => [-2]%Z
  | S754_finite true m e => [-1; -e; Z.neg m]%Z
  | S754_zero _ => [0]%Z
  | S754_finite false m e => [1; e; Z.pos m]%Z
  | S754_infinity false => [2]%Z
  end.

Lemma num_cmp_code a b : num_cmp a b = list_lex Z.compare (num_code a) (num_code b).
Proof.
  unfold num_cmp, float_lt, SFltb.
  destruct a as [[]|[]| |[] m e], b as [[]|[]| |[] m' e']; try reflexivity; simpl.
  - rewrite Z.compare_opp. change (PosDef.Pos.compare_cont Eq) with Pos.compare.
    rewrite (Pos.compare_antisym m m').
    destruct (Z.lt_trichotomy e e') as [H|[->|H]].
    + by rewrite (proj2 (Z.compare_lt_iff _ _) H), ?(proj2 (Z.compare_gt_iff e' e) H).
    + rewrite !Z.compare_refl. by destruct (Pos.compare m m').
    + by rewrite (proj2 (Z.compare_lt_iff _ _) H), ?(proj2 (Z.compare_gt_iff e e') H).
  - change (PosDef.Pos.compare_cont Eq) with Pos.compare.
    rewrite (Pos.compare_antisym m m').
    destruct (Z.lt_trichotomy e e') as [H|[->|H]].
    + by rewrite (proj2 (Z.compare_lt_iff _ _) H), ?(proj2 (Z.compare_gt_iff e' e) H).
    + rewrite !Z.compare_refl. by destruct (Pos.compare m m').
    + by rewrite (proj2 (Z.compare_lt_iff _ _) H), ?(proj2 (Z.compare_gt_iff e e') H).
Qed.

Lemma order_num : order_on (λ _ : float64, True) num_cmp.
Proof.
  eapply order_ext; [intros a b _ _; symmetry; apply num_cmp_code|].
  apply (order_pullback num_code (Forall (λ _, True))); [|apply order_list_lex, order_Z].
  intros f _. by apply Forall_true.
Qed.
