(* ===== verification/Datum.v ===== *)
(** * Datums ([pkg/datum/datum.go])

    The values of queries and documents.  An object datum is a pointer to an
    [ObjectData], so datums live over a heap of objects; arrays, which the code
    never changes after building them, are values.  The file models comparison,
    the operations on objects, and the conversions to and from JSON trees.  The
    text of JSON documents is [encoding/json]'s business: a document is its tree
    ([JSON]), and what [json.Unmarshal] puts into an [interface{}] is a [GoVal]. *)

From S2P Require Import Prelude Bytes Order.
From Stdlib Require Import Ascii.

(** ** Types *)

Inductive Ty := MinVal | MaxVal | Null | Bool | Num | Str | Array | Object | Binary | Time | Geometry.
#[global] Instance Ty_eq_dec : EqDecision Ty.
Proof. solve_decision. Defined.

Definition Ty_String (t : Ty) : string :=
  match t with
  | MinVal => "MINVAL" | MaxVal => "MAXVAL" | Null => "NULL" | Bool => "BOOL" | Num => "NUM"
  | Str => "STR" | Array => "ARRAY" | Object => "OBJECT" | Binary => "BINARY" | Time => "TIME"
  | Geometry => "GEOMETRY"
  end.

(** [time.Time]: nanoseconds since the Unix epoch, and the location: [None] is
    [time.Local], [Some off] a fixed offset in seconds. *)
Record GoTime := mkTime { t_ns : Z; t_zone : option Z }.

(** [coordinates] of a point; the constructor builds nothing else. *)
Record GeometryData := mkGeom { geomType : string; coordinates : float64 * float64 }.

(** A pointer to an object. *)
Abbreviation loc := nat (only parsing).

#[local] Unset Elimination Schemes.
Inductive Datum :=
| DMinVal
| DMaxVal
| DNull
| DBool (b : bool)
| DNum (f : float64)
| DStr (s : string)
| DArray (l : list Datum)
| DObject (o : loc)
| DBinary (bs : list byte)
| DTime (t : GoTime)
| DGeometry (g : GeometryData).
#[local] Set Elimination Schemes.

(** [fields] is the map, [keys] the slice kept in sorted order. *)
Record ObjectData := mkObj { fields : gmap string Datum; keys : list string }.

Record Heap := mkHeap { h_objs : gmap loc ObjectData; h_next : loc }.
Definition empty_heap : Heap := mkHeap ∅ 0.

Definition halloc (o : ObjectData) : M Heap loc := λ h,
  (Ok (h_next h), mkHeap (<[h_next h := o]> (h_objs h)) (S (h_next h))).
(** Dereferencing a pointer the program never had panics. *)
Definition hread (l : loc) : M Heap ObjectData := λ h,
  match h_objs h !! l with Some o => (Ok o, h) | None => (Panic, h) end.
Definition hwrite (l : loc) (o : ObjectData) : M Heap unit := λ h,
  (Ok (), mkHeap (<[l := o]> (h_objs h)) (h_next h)).

(** ** Constructors and accessors *)

Definition NewMinVal : Datum := DMinVal.
Definition NewMaxVal : Datum := DMaxVal.
Definition NewNull : Datum := DNull.
Definition NewBool (b : bool) : Datum := DBool b.
Definition NewNum (f : float64) : Datum := DNum f.
Definition NewInt (z : Z) : Datum := DNum (float_of_Z z).
Definition NewStr (s : string) : Datum := DStr s.
Definition NewArray (l : list Datum) : Datum := DArray l.
Definition NewObject (o : loc) : Datum := DObject o.
Definition NewBinary (bs : list byte) : Datum := DBinary bs.
Definition NewTime (t : GoTime) : Datum := DTime t.
Definition NewGeometry (g : GeometryData) : Datum := DGeometry g.
Definition NewPoint (lon lat : float64) : GeometryData := mkGeom "Point" (lon, lat).

Definition typ (d : Datum) : Ty :=
  match d with
  | DMinVal => MinVal | DMaxVal => MaxVal | DNull => Null | DBool _ => Bool | DNum _ => Num
  | DStr _ => Str | DArray _ => Array | DObject _ => Object | DBinary _ => Binary
  | DTime _ => Time | DGeometry _ => Geometry
  end.
Definition TypeString (d : Datum) : string := Ty_String (typ d).

Definition asBool (d : Datum) : outcome bool := match d with DBool b => Ok b | _ => Panic end.
Definition asNum (d : Datum) : outcome float64 := match d with DNum f => Ok f | _ => Panic end.
Definition asInt (d : Datum) : outcome Z := match d with DNum f => Ok (int_of_float f) | _ => Panic end.
Definition asStr (d : Datum) : outcome string := match d with DStr s => Ok s | _ => Panic end.
Definition asArray (d : Datum) : outcome (list Datum) := match d with DArray l => Ok l | _ => Panic end.
Definition asObject (d : Datum) : outcome loc := match d with DObject o => Ok o | _ => Panic end.
Definition asBinary (d : Datum) : outcome (list byte) := match d with DBinary b => Ok b | _ => Panic end.
Definition asTime (d : Datum) : outcome GoTime := match d with DTime t => Ok t | _ => Panic end.
Definition asGeometry (d : Datum) : outcome GeometryData :=
  match d with DGeometry g => Ok g | _ => Panic end.

Definition IsNull (d : Datum) : bool := bool_decide (typ d = Null).
Definition IsMinVal (d : Datum) : bool := bool_decide (typ d = MinVal).
Definition IsMaxVal (d : Datum) : bool := bool_decide (typ d = MaxVal).

(** ** ObjectData *)

(** [NewObjectDataFromMap]; a nil map gives the empty object. *)
Definition obj_of_map (m : gmap string Datum) : ObjectData :=
  mkObj m (sort_Strings (map_to_list m).*1).
Definition NewObjectDataFromMap (m : gmap string Datum) : M Heap loc := halloc (obj_of_map m).
Definition NewObjectFromMap (m : gmap string Datum) : M Heap Datum :=
  o ← NewObjectDataFromMap m; mret (DObject o).

Definition obj_Get (o : ObjectData) (key : string) : option Datum := fields o !! key.
Definition obj_Set (o : ObjectData) (key : string) (val : Datum) : ObjectData :=
  let ks := match fields o !! key with
            | None => sort_Strings (keys o ++ [key])
            | Some _ => keys o
            end in
  mkObj (<[key := val]> (fields o)) ks.

(** The loop that removes the first occurrence of the key. *)
Fixpoint remove_key (key : string) (ks : list string) : list string :=
  match ks with
  | [] => []
  | k :: ks' => if bool_decide (k = key) then ks' else k :: remove_key key ks'
  end.
Definition obj_Delete (o : ObjectData) (key : string) : ObjectData :=
  match fields o !! key with
  | Some _ => mkObj (delete key (fields o)) (remove_key key (keys o))
  | None => o
  end.
Definition obj_Len (o : ObjectData) : nat := size (fields o).
Definition obj_Keys (o : ObjectData) : list string := keys o.
(** [o.fields[key]] is the zero datum, MINVAL, for a key that is not there. *)
Definition field_or_zero (o : ObjectData) (key : string) : Datum := default DMinVal (fields o !! key).
Definition obj_Values (o : ObjectData) : list Datum := field_or_zero o <$> keys o.

(** [o.Set(key, val)] through a pointer. *)
Definition heap_Set (o : loc) (key : string) (val : Datum) : M Heap unit :=
  obj ← hread o; hwrite o (obj_Set obj key val).

(** ** Comparison *)

Definition type_order (t : Ty) : Z :=
  match t with
  | MinVal => 0 | Null => 1 | Bool => 2 | Num => 3 | Str => 4 | Array => 5 | Object => 6
  | Binary => 7 | Time => 8 | Geometry => 9 | MaxVal => 10
  end.
Definition compareTypes (a b : Ty) : comparison := Z.compare (type_order a) (type_order b).

Definition compareBool (a b : bool) : comparison :=
  if Bool.eqb a b then Eq else if negb a then Lt else Gt.

Fixpoint compareArrays (cmp : Datum → Datum → outcome comparison) (a b : list Datum) : outcome comparison :=
  match a, b with
  | [], [] => Ok Eq
  | [], _ :: _ => Ok Lt
  | _ :: _, [] => Ok Gt
  | x :: a', y :: b' =>
      c ← cmp x y;
      match c with Eq => compareArrays cmp a' b' | _ => Ok c end
  end.

Definition compareBytes (a b : list byte) : comparison := bytes_Compare a b.

Definition GeometryData_Compare (a b : GeometryData) : comparison :=
  string_cmp (geomType a) (geomType b).

(** The loop over the keys at equal positions. *)
Fixpoint compare_keys (a b : list string) : comparison :=
  match a, b with
  | x :: a', y :: b' => lex (string_cmp x y) (compare_keys a' b')
  | _, _ => Eq
  end.
(** The loop over the values under the keys of the receiver. *)
Fixpoint compare_values (cmp : Datum → Datum → outcome comparison) (o other : ObjectData)
    (ks : list string) : outcome comparison :=
  match ks with
  | [] => Ok Eq
  | k :: ks' =>
      c ← cmp (field_or_zero o k) (field_or_zero other k);
      match c with Eq => compare_values cmp o other ks' | _ => Ok c end
  end.
Definition ObjectData_Compare (cmp : Datum → Datum → outcome comparison) (o other : ObjectData)
    : outcome comparison :=
  match Nat.compare (length (keys o)) (length (keys other)) with
  | Eq =>
      match compare_keys (keys o) (keys other) with
      | Eq => compare_values cmp o other (keys o)
      | c => Ok c
      end
  | c => Ok c
  end.

(** Values are finite but objects are reached through the heap, which may hold a
    cycle: the recursion takes fuel, one step for each level of nesting. *)
Fixpoint Compare (h : Heap) (fuel : nat) (d other : Datum) : outcome comparison :=
  match fuel with
  | O => NoFuel
  | S fuel' =>
      if bool_decide (typ d ≠ typ other) then Ok (compareTypes (typ d) (typ other))
      else
        match d, other with
        | DBool a, DBool b => Ok (compareBool a b)
        | DNum a, DNum b => Ok (num_cmp a b)
        | DStr a, DStr b => Ok (string_cmp a b)
        | DArray a, DArray b => compareArrays (Compare h fuel') a b
        | DObject a, DObject b =>
            match h_objs h !! a, h_objs h !! b with
            | Some oa, Some ob => ObjectData_Compare (Compare h fuel') oa ob
            | _, _ => Panic
            end
        | DBinary a, DBinary b => Ok (compareBytes a b)
        | DTime a, DTime b => Ok (Z.compare (t_ns a) (t_ns b))
        | DGeometry a, DGeometry b => Ok (GeometryData_Compare a b)
        | _, _ => Ok Eq
        end
  end.

Definition Equal (h : Heap) (fuel : nat) (d other : Datum) : outcome bool :=
  c ← Compare h fuel d other; Ok (bool_decide (c = Eq)).
Definition Less (h : Heap) (fuel : nat) (d other : Datum) : outcome bool :=
  c ← Compare h fuel d other; Ok (bool_decide (c = Lt)).

(** ** Well-formed objects and values *)

Definition obj_ok (o : ObjectData) : Prop :=
  StronglySorted String.le (keys o) ∧ NoDup (keys o) ∧ ∀ k, k ∈ keys o ↔ is_Some (fields o !! k).

(** [d] has at most [n] levels of nesting, and its pointers lead to well-formed
    objects. *)
Fixpoint deep (h : Heap) (n : nat) (d : Datum) : Prop :=
  match n with
  | O => False
  | S n' =>
      match d with
      | DArray l => Forall (deep h n') l
      | DObject o => ∃ obj, h_objs h !! o = Some obj ∧ obj_ok obj ∧ Forall (deep h n') (obj_Values obj)
      | _ => True
      end
  end.

(** ** Comparison is a total preorder *)

Section compare.
Context (h : Heap).

(** The result of [Compare], when there is one. *)
Definition cmp_at (n : nat) (a b : Datum) : comparison :=
  match Compare h n a b with Ok c => c | _ => Eq end.

Definition obj_lex (c : Datum → Datum → comparison) (a b : ObjectData) : comparison :=
  lex (Nat.compare (length (keys a)) (length (keys b)))
    (lex (list_lex string_cmp (keys a) (keys b)) (list_lex c (obj_Values a) (obj_Values b))).

(** Values of one type, with [c] for the parts. *)
Definition payload_cmp (c : Datum → Datum → comparison) (a b : Datum) : comparison :=
  match a, b with
  | DBool a, DBool b => compareBool a b
  | DNum a, DNum b => num_cmp a b
  | DStr a, DStr b => string_cmp a b
  | DArray a, DArray b => list_lex c a b
  | DObject a, DObject b =>
      match h_objs h !! a, h_objs h !! b with
      | Some oa, Some ob => obj_lex c oa ob
      | _, _ => Eq
      end
  | DBinary a, DBinary b => compareBytes a b
  | DTime a, DTime b => Z.compare (t_ns a) (t_ns b)
  | DGeometry a, DGeometry b => GeometryData_Compare a b
  | _, _ => Eq
  end.

Lemma compareArrays_lex f c (D : Datum → Prop) a b :
  (∀ x y, D x → D y → f x y = Ok (c x y)) → Forall D a → Forall D b →
  compareArrays f a b = Ok (list_lex c a b).
Proof.
  intros Hf Ha. revert b. induction Ha as [|x a Hx Ha IH]; intros b Hb; destruct Hb as [|y b Hy Hb]; try done.
  simpl. rewrite Hf by done. simpl. rewrite IH by done. by destruct (c x y).
Qed.

Lemma compare_keys_lex a b : length a = length b → compare_keys a b = list_lex string_cmp a b.
Proof.
  revert b. induction a as [|x a IH]; intros [|y b]; try done. intros [= Hl]. simpl. by rewrite IH.
Qed.

Lemma list_lex_strings_eq a b : list_lex string_cmp a b = Eq → a = b.
Proof.
  revert b. induction a as [|x a IH]; intros [|y b]; try done. simpl.
  destruct (string_cmp x y) eqn:E; try done. intros H. apply string_cmp_eq in E. f_equal; auto.
Qed.

Lemma compare_values_lex f c (D : Datum → Prop) o other ks :
  (∀ x y, D x → D y → f x y = Ok (c x y)) →
  Forall D (field_or_zero o <$> ks) → Forall D (field_or_zero other <$> ks) →
  compare_values f o other ks = Ok (list_lex c (field_or_zero o <$> ks) (field_or_zero other <$> ks)).
Proof.
  intros Hf. induction ks as [|k ks IH]; [done|]. rewrite !fmap_cons.
  intros [Hx Ho]%Forall_cons [Hy Hp]%Forall_cons. simpl. rewrite Hf by done. simpl.
  rewrite IH by done. by destruct (c _ _).
Qed.

Lemma ObjectData_Compare_lex f c (D : Datum → Prop) a b :
  (∀ x y, D x → D y → f x y = Ok (c x y)) → Forall D (obj_Values a) → Forall D (obj_Values b) →
  ObjectData_Compare f a b = Ok (obj_lex c a b).
Proof.
  intros Hf Ha Hb. unfold ObjectData_Compare, obj_lex.
  destruct (Nat.compare_spec (length (keys a)) (length (keys b))) as [E| |]; try done. simpl.
  rewrite compare_keys_lex by done. destruct (list_lex string_cmp _ _) eqn:Ek; try done. simpl.
  apply list_lex_strings_eq in Ek. unfold obj_Values in *. rewrite <- Ek in *.
  by apply (compare_values_lex f c D).
Qed.

Lemma type_order_inj a b : type_order a = type_order b → a = b.
Proof. by destruct a, b. Qed.

(** One level of [Compare]. *)
Lemma Compare_step n c a b :
  (∀ x y, deep h n x → deep h n y → Compare h n x y = Ok (c x y)) →
  deep h (S n) a → deep h (S n) b →
  Compare h (S n) a b = Ok (lex (compareTypes (typ a) (typ b)) (payload_cmp c a b)).
Proof.
  intros Hc Ha Hb. cbn [Compare]. case_bool_decide as Ht.
  - unfold compareTypes. destruct (Z.compare_spec (type_order (typ a)) (type_order (typ b))) as [E| |]; try done.
    by apply type_order_inj in E.
  - unfold compareTypes. rewrite Ht, Z.compare_refl. simpl.
    destruct a, b; try done; simpl in *.
    + by apply (compareArrays_lex _ c (deep h n)).
    + destruct Ha as (oa & -> & _ & Ha), Hb as (ob & -> & _ & Hb).
      by apply (ObjectData_Compare_lex _ c (deep h n)).
Qed.

Lemma order_bytes : order_on (λ _ : list byte, True) compareBytes.
Proof.
  apply (order_ext _ (λ a b, list_lex Z.compare (Z_of_byte <$> a) (Z_of_byte <$> b))).
  - intros a b _ _. revert b. unfold compareBytes.
    induction a as [|x a IH]; intros [|y b]; try done.
    rewrite !fmap_cons. cbn [list_lex bytes_Compare]. rewrite IH. by destruct (Z.compare (Z_of_byte x) (Z_of_byte y)).
  - apply (order_pullback (fmap Z_of_byte) (Forall (λ _, True)) (λ _, True)), order_list_lex, order_Z.
    intros l _. by apply Forall_true.
Qed.

Lemma order_bool : order_on (λ _ : bool, True) compareBool.
Proof. split; [by intros [] []|by intros [] [] []]. Qed.

Lemma order_obj (c : Datum → Datum → comparison) (D : Datum → Prop) :
  order_on D c → order_on (λ o, Forall D (obj_Values o)) (obj_lex c).
Proof.
  intros Hc. unfold obj_lex.
  apply (order_lex _ (λ a b, Nat.compare (length (keys a)) (length (keys b)))).
  { apply (order_pullback (λ o, length (keys o)) (λ _, True)); [done|apply order_nat]. }
  apply (order_lex _ (λ a b, list_lex string_cmp (keys a) (keys b))).
  - apply (order_pullback keys (Forall (λ _, True))); [intros; by apply Forall_true|].
    apply order_list_lex, order_string.
  - apply (order_pullback obj_Values (Forall D)); [done|by apply order_list_lex].
Qed.

Lemma order_payload n c z :
  order_on (deep h n) c → order_on (λ a, deep h (S n) a ∧ type_order (typ a) = z) (payload_cmp c).
Proof.
  intros Hc. pose proof (order_list_lex _ _ Hc) as Hl. pose proof (order_obj _ _ Hc) as Ho. split.
  - intros a b [Ha Hta] [Hb Htb].
    destruct a, b; simpl in *; try (exfalso; congruence); try done.
    + apply order_bool; done.
    + apply order_num; done.
    + apply order_string; done.
    + by apply (ord_antisym _ _ Hl).
    + destruct Ha as (oa & -> & _ & Ha), Hb as (ob & -> & _ & Hb). by apply (ord_antisym _ _ Ho).
    + apply order_bytes; done.
    + apply order_Z; done.
    + apply order_string; done.
  - intros a b d [Ha Hta] [Hb Htb] [Hd Htd].
    destruct a, b; simpl in *; try (exfalso; congruence); try done;
      destruct d; simpl in *; try (exfalso; congruence); try done.
    + apply order_bool; done.
    + apply order_num; done.
    + apply order_string; done.
    + by apply (ord_trans _ _ Hl).
    + destruct Ha as (oa & -> & _ & Ha), Hb as (ob & -> & _ & Hb), Hd as (od & -> & _ & Hd).
      by apply (ord_trans _ _ Ho).
    + apply order_bytes; done.
    + apply order_Z; done.
    + apply order_string; done.
Qed.

Lemma Compare_order n :
  (∀ a b, deep h n a → deep h n b → Compare h n a b = Ok (cmp_at n a b)) ∧ order_on (deep h n) (cmp_at n).
Proof.
  induction n as [|n [IH1 IH2]]; [split; [done|by split]|].
  assert (∀ a b, deep h (S n) a → deep h (S n) b →
    Compare h (S n) a b = Ok (lex (compareTypes (typ a) (typ b)) (payload_cmp (cmp_at n) a b))) as Hs.
  { intros. by apply Compare_step. }
  split.
  - intros a b Ha Hb. unfold cmp_at at 1. by rewrite Hs.
  - eapply order_ext; [intros a b Ha Hb; unfold cmp_at; rewrite Hs by done; reflexivity|].
    apply (order_by_class _ (λ a, type_order (typ a))). intros z. by apply order_payload.
Qed.

(** More fuel does not change the result. *)
Lemma Compare_fuel n m a b : deep h n a → deep h n b → Compare h (n + m) a b = Compare h n a b.
Proof.
  revert a b. induction n as [|n IH]; intros a b Ha Hb; [done|]. cbn [Nat.add Compare].
  case_bool_decide as Ht; [done|].
  destruct (Compare_order n) as [Hok _].
  destruct a, b; try done; simpl in Ha, Hb.
  - rewrite !(compareArrays_lex _ (cmp_at n) (deep h n)); try done.
    intros x y Hx Hy. rewrite IH by done. by apply Hok.
  - destruct Ha as (oa & -> & _ & Ha), Hb as (ob & -> & _ & Hb).
    rewrite !(ObjectData_Compare_lex _ (cmp_at n) (deep h n)); try done.
    intros x y Hx Hy. rewrite IH by done. by apply Hok.
Qed.
End compare.

(** C9: [Compare] is the total order its comment announces.  On values of at most
    [n] levels it terminates without a panic, and more fuel changes nothing; it is
    antisymmetric and transitive; values of different types compare by the fixed
    order of types; MINVAL is below and MAXVAL above everything. *)
Theorem Compare_total_order h n a b c :
  deep h n a → deep h n b → deep h n c →
  ∃ ab bc ac,
    (∀ m, Compare h (n + m) a b = Ok ab ∧ Compare h (n + m) b a = Ok (CompOpp ab)) ∧
    Compare h n b c = Ok bc ∧ Compare h n a c = Ok ac ∧ chain3 ab bc ac ∧
    (typ a ≠ typ b → ab = compareTypes (typ a) (typ b) ∧ ab ≠ Eq) ∧
    Compare h n DMinVal a ≠ Ok Gt ∧ Compare h n a DMaxVal ≠ Ok Gt.
Proof.
  intros Ha Hb Hc. destruct (Compare_order h n) as [Hok Hord].
  exists (cmp_at h n a b), (cmp_at h n b c), (cmp_at h n a c). split_and!.
  - intros m. rewrite !Compare_fuel by done. rewrite !Hok by done. split; [done|].
    f_equal. by apply (ord_antisym _ _ Hord).
  - by apply Hok.
  - by apply Hok.
  - by apply (ord_trans _ _ Hord).
  - intros Ht. destruct n; [done|]. unfold cmp_at. cbn [Compare]. rewrite bool_decide_eq_true_2 by done.
    split; [done|]. unfold compareTypes. intros E%Z.compare_eq. by apply type_order_inj in E.
  - destruct n; [done|]. cbn [Compare]. by destruct a.
  - destruct n; [done|]. cbn [Compare]. by destruct a.
Qed.

Lemma Compare_total_order_witness :
  ∃ ab bc ac,
    (∀ m, Compare empty_heap (2 + m) DMinVal (DArray [DNull]) = Ok ab ∧
          Compare empty_heap (2 + m) (DArray [DNull]) DMinVal = Ok (CompOpp ab)) ∧
    Compare empty_heap 2 (DArray [DNull]) DMaxVal = Ok bc ∧ Compare empty_heap 2 DMinVal DMaxVal = Ok ac ∧
    chain3 ab bc ac ∧
    (typ DMinVal ≠ typ (DArray [DNull]) → ab = compareTypes (typ DMinVal) (typ (DArray [DNull])) ∧ ab ≠ Eq) ∧
    Compare empty_heap 2 DMinVal DMinVal ≠ Ok Gt ∧ Compare empty_heap 2 DMinVal DMaxVal ≠ Ok Gt.
Proof.
  apply (Compare_total_order empty_heap 2 DMinVal (DArray [DNull]) DMaxVal); repeat constructor.
Defined.

(** ** Objects keep their keys sorted *)

Lemma remove_key_notin k ks : k ∉ ks → remove_key k ks = ks.
Proof.
  induction ks as [|x ks IH]; [done|]. intros [Hne Hni]%not_elem_of_cons. simpl.
  rewrite bool_decide_eq_false_2 by done. by rewrite IH.
Qed.

Lemma elem_of_remove_key k x ks : NoDup ks → x ∈ remove_key k ks ↔ x ∈ ks ∧ x ≠ k.
Proof.
  induction 1 as [|y ks Hy Hnd IH]; simpl.
  - split; [by intros ?%not_elem_of_nil|by intros [?%not_elem_of_nil _]].
  - case_bool_decide as E; [subst|]; rewrite ?elem_of_cons, ?IH.
    + split; [intros Hx; split; [auto|by intros ->]|intros [[->|?] ?]; [done|done]].
    + split; [intros [->|[? ?]]; auto|]. intros [[->|?] ?]; auto.
Qed.

Lemma remove_key_sublist k ks : sublist (remove_key k ks) ks.
Proof. induction ks as [|x ks IH]; simpl; [done|]. case_bool_decide; by constructor. Qed.

Lemma StronglySorted_sublist {A} (R : relation A) l k :
  sublist l k → StronglySorted R k → StronglySorted R l.
Proof.
  induction 1 as [|x l k Hs IH|x l k Hs IH]; intros Hk; [done| |];
    apply StronglySorted_inv in Hk as [Hk Hx]; auto.
  constructor; [auto|]. rewrite Forall_forall in *. intros y Hy. apply Hx.
  eapply elem_of_submseteq; [done|]. by apply sublist_submseteq.
Qed.

Lemma NoDup_sublist {A} (l k : list A) : sublist l k → NoDup k → NoDup l.
Proof.
  induction 1 as [|x l k Hs IH|x l k Hs IH]; intros Hk; [done| |];
    apply NoDup_cons in Hk as [Hx Hk]; auto. constructor; [|auto].
  intros Hin. apply Hx. eapply elem_of_submseteq; [done|]. by apply sublist_submseteq.
Qed.

Lemma obj_of_map_ok m : obj_ok (obj_of_map m).
Proof.
  split; [apply sort_Strings_sorted|]. simpl. split.
  - rewrite sort_Strings_perm. apply NoDup_fst_map_to_list.
  - intros k. rewrite sort_Strings_perm, list_elem_of_fmap. split.
    + intros ([k' v] & -> & Hin%elem_of_map_to_list). eauto.
    + intros [v Hv]. exists (k, v). split; [done|]. by apply elem_of_map_to_list.
Qed.

Lemma obj_Set_ok o key val : obj_ok o → obj_ok (obj_Set o key val).
Proof.
  intros (Hs & Hnd & Hk). unfold obj_Set. destruct (fields o !! key) as [old|] eqn:E; simpl.
  - split; [done|]. split; [done|]. intros k. rewrite Hk. destruct (decide (k = key)) as [->|Hne]; simpl.
    + rewrite lookup_insert_eq, E. split; eauto.
    + by rewrite lookup_insert_ne.
  - assert (key ∉ keys o) as Hni by (rewrite Hk, E; by intros []).
    split; [apply sort_Strings_sorted|]. simpl. split.
    + rewrite sort_Strings_perm. apply NoDup_app. split; [done|]. split; [|apply NoDup_singleton].
      intros x Hx ->%list_elem_of_singleton. done.
    + intros k. rewrite sort_Strings_perm, elem_of_app, list_elem_of_singleton, Hk.
      destruct (decide (k = key)) as [->|Hne].
      * rewrite lookup_insert_eq. split; eauto.
      * rewrite lookup_insert_ne by done. split; [by intros [?|?]|auto].
Qed.

Lemma obj_Delete_ok o key : obj_ok o → obj_ok (obj_Delete o key).
Proof.
  intros (Hs & Hnd & Hk). unfold obj_Delete. destruct (fields o !! key) as [old|] eqn:E; [|done].
  split; [|split]; simpl.
  - eapply StronglySorted_sublist; [apply remove_key_sublist|done].
  - eapply NoDup_sublist; [|done]. apply remove_key_sublist.
  - intros k. rewrite elem_of_remove_key, Hk by done. destruct (decide (k = key)) as [->|Hne].
    + rewrite lookup_delete_eq. split; [by intros [_ ?]|by intros []].
    + rewrite lookup_delete_ne by done. split; [by intros [? _]|auto].
Qed.

(** The keys of a well-formed object are the sorted keys of its map. *)
Lemma obj_ok_keys o : obj_ok o → keys o = sort_Strings (map_to_list (fields o)).*1.
Proof.
  intros (Hs & Hnd & Hk). symmetry. apply sort_Strings_unique; [|done].
  apply NoDup_Permutation; [done|apply NoDup_fst_map_to_list|]. intros k.
  rewrite Hk, list_elem_of_fmap. split.
  - intros [v Hv]. exists (k, v). split; [done|]. by apply elem_of_map_to_list.
  - intros ([k' v] & -> & Hin%elem_of_map_to_list). eauto.
Qed.

Lemma obj_ok_eq o : obj_ok o → o = obj_of_map (fields o).
Proof. intros Ho. unfold obj_of_map. rewrite <- obj_ok_keys by done. by destruct o. Qed.

Lemma obj_ok_Len o : obj_ok o → obj_Len o = length (obj_Keys o).
Proof.
  intros Ho. unfold obj_Keys, obj_Len. rewrite (obj_ok_keys o Ho).
  rewrite (Permutation_length (sort_Strings_perm _)), length_fmap. by rewrite length_map_to_list.
Qed.

Inductive obj_op := OSet (key : string) (val : Datum) | ODelete (key : string).
Definition obj_exec (o : ObjectData) (op : obj_op) : ObjectData :=
  match op with OSet k v => obj_Set o k v | ODelete k => obj_Delete o k end.
Definition obj_spec (m : gmap string Datum) (op : obj_op) : gmap string Datum :=
  match op with OSet k v => <[k := v]> m | ODelete k => delete k m end.

Lemma obj_exec_fields o op : fields (obj_exec o op) = obj_spec (fields o) op.
Proof.
  destruct op as [k v|k]; simpl; [done|]. unfold obj_Delete.
  destruct (fields o !! k) eqn:E; simpl; [done|]. by rewrite delete_id.
Qed.

Lemma obj_exec_all_ok ops : ∀ o, obj_ok o →
  obj_ok (foldl obj_exec o ops) ∧ fields (foldl obj_exec o ops) = foldl obj_spec (fields o) ops.
Proof.
  induction ops as [|op ops IH]; intros o Ho; [done|]. simpl.
  destruct (IH (obj_exec o op)) as [H1 H2].
  - destruct op; [by apply obj_Set_ok|by apply obj_Delete_ok].
  - by rewrite H2, obj_exec_fields.
Qed.

(** An object is a finite map with sorted keys.  After any sequence of [Set]
    and [Delete] on an object built from a map, [Get] is lookup in the map the
    operations compute, [Keys] lists its keys without duplicates in increasing
    order, [Values] the values in that order, and [Len] their number. *)
Theorem object_is_sorted_map m ops :
  let o := foldl obj_exec (obj_of_map m) ops in
  let m' := foldl obj_spec m ops in
  (∀ k, obj_Get o k = m' !! k) ∧
  StronglySorted String.le (obj_Keys o) ∧ NoDup (obj_Keys o) ∧
  (∀ k, k ∈ obj_Keys o ↔ is_Some (m' !! k)) ∧
  Some <$> obj_Values o = (λ k, m' !! k) <$> obj_Keys o ∧
  obj_Len o = length (obj_Keys o).
Proof.
  intros o m'. destruct (obj_exec_all_ok ops _ (obj_of_map_ok m)) as [Hok Hf].
  fold o in Hok, Hf. simpl in Hf. fold m' in Hf. pose proof Hok as (Hs & Hnd & Hk).
  unfold obj_Get, obj_Keys, obj_Values. rewrite <- Hf. split_and!; try done.
  - rewrite <- list_fmap_compose. apply list_fmap_ext. intros i k Hi. simpl.
    apply list_elem_of_lookup_2, Hk in Hi as [v Hv]. unfold field_or_zero. by rewrite Hv.
  - by apply obj_ok_Len.
Qed.

Lemma object_is_sorted_map_check :
  obj_Keys (foldl obj_exec (obj_of_map ∅) [OSet "b" DNull; OSet "a" DNull; OSet "c" DNull; ODelete "b"])
    = ["a"; "c"]%string.
Proof. vm_compute. reflexivity. Qed.

(** ** JSON *)

(** JSON documents; the fields of an object in the order of the text. *)
#[local] Unset Elimination Schemes.
Inductive JSON :=
| JNull
| JBool (b : bool)
| JNum (f : float64)
| JStr (s : string)
| JArr (l : list JSON)
| JObj (kvs : list (string * JSON)).

(** The dynamic types [FromInterface] distinguishes.  The entries of a map come in
    the order in which the [range] statement happens to visit them. *)
Inductive GoVal :=
| VNil
| VDatum (d : Datum)
| VDatumPtr (d : Datum)
| VBool (b : bool)
| VFloat64 (f : float64)
| VFloat32 (f : float64)
| VInt (z : Z)
| VInt64 (z : Z)
| VString (s : string)
| VSlice (l : list GoVal)
| VMap (kvs : list (string * GoVal))
| VOther (typename : string).
#[local] Set Elimination Schemes.

(** What [json.Unmarshal] stores in an [interface{}]. *)
Fixpoint of_json (j : JSON) : GoVal :=
  match j with
  | JNull => VNil
  | JBool b => VBool b
  | JNum f => VFloat64 f
  | JStr s => VString s
  | JArr l => VSlice (of_json <$> l)
  | JObj kvs => VMap ((λ kv, (kv.1, of_json kv.2)) <$> kvs)
  end.

Fixpoint vmap_get (key : string) (kvs : list (string * GoVal)) : option GoVal :=
  match kvs with
  | [] => None
  | (k, v) :: kvs' => if bool_decide (k = key) then Some v else vmap_get key kvs'
  end.

(** *** base64 (the standard encoding, with padding) *)

Definition base64_alphabet : string :=
  "ABCDEFGHIJKLMNOPQRSTUVWXYZabcdefghijklmnopqrstuvwxyz0123456789+/".
Definition base64_char (n : Z) : string := String.substring (Z.to_nat n) 1 base64_alphabet.
Fixpoint base64 (bs : list byte) : string :=
  match bs with
  | [] => ""
  | [a] => let n := (Z_of_byte a * 65536)%Z in
      base64_char (n / 262144) +:+ base64_char (n / 4096 mod 64) +:+ "=="
  | [a; b] => let n := (Z_of_byte a * 65536 + Z_of_byte b * 256)%Z in
      base64_char (n / 262144) +:+ base64_char (n / 4096 mod 64) +:+ base64_char (n / 64 mod 64) +:+ "="
  | a :: b :: c :: bs' => let n := (Z_of_byte a * 65536 + Z_of_byte b * 256 + Z_of_byte c)%Z in
      base64_char (n / 262144) +:+ base64_char (n / 4096 mod 64) +:+ base64_char (n / 64 mod 64)
        +:+ base64_char (n mod 64) +:+ base64 bs'
  end.

(** [[]byte(s)] *)
Definition bytes_of_string (s : string) : list byte := String.list_byte_of_string s.

(** *** Time zones *)

(** [fmt.Sprintf("%+03d:00", n)] *)
Definition format_zone (n : Z) : string :=
  (if bool_decide (n < 0)%Z then "-" else "+")
    +:+ (if bool_decide (Z.abs n < 10)%Z then "0" else "") +:+ pretty (Z.abs n) +:+ ":00".

Definition digit_val (c : Ascii.ascii) : option Z :=
  let n := (Z.of_N (Ascii.N_of_ascii c) - 48)%Z in
  if bool_decide (0 ≤ n < 10)%Z then Some n else None.

(** The offset in seconds that [time.Parse("-07:00", s)] reads. *)
Definition parse_zone (s : string) : option Z :=
  match s with
  | String sg (String h1 (String h2 (String c (String m1 (String m2 EmptyString))))) =>
      a ← digit_val h1; b ← digit_val h2; x ← digit_val m1; y ← digit_val m2;
      let hr := (10 * a + b)%Z in
      let mm := (10 * x + y)%Z in
      let off := ((hr * 60 + mm) * 60)%Z in
      if bool_decide (c ≠ ":"%char ∨ 24 < hr ∨ 60 < mm)%Z then None
      else if bool_decide (sg = "+"%char) then Some off
      else if bool_decide (sg = "-"%char) then Some (- off)%Z else None
  | _ => None
  end.

Definition owrap {A} (prefix : string) (o : outcome A) : outcome A :=
  match o with Err e => Err (prefix +:+ ": " +:+ e) | _ => o end.

Definition billion : Z := 1000000000.

Section json.
(** The offset of the machine's own time zone at a Unix time in seconds. *)
Variable local_offset : Z → Z.

(** [t.Zone()]: the offset in effect. *)
Definition zone_offset (t : GoTime) : Z :=
  match t_zone t with Some off => off | None => local_offset (t_ns t / billion) end.

(** [loc.Location()] of a time parsed from an offset alone: the machine's own zone
    when it has that offset at the parsed time (in year 0). *)
Definition parsed_location (off : Z) : option Z :=
  if bool_decide (local_offset (-62167219200 - off) = off)%Z then None else Some off.

Definition unmarshalPseudoType (reqlType : string) (m : list (string * GoVal)) : M Heap Datum :=
  if bool_decide (reqlType = "BINARY") then
    match vmap_get "data" m with
    | None => fail "BINARY pseudo-type missing 'data' field"
    | Some (VString s) => mret (DBinary (bytes_of_string s))
    | Some _ => fail "BINARY pseudo-type 'data' must be a string"
    end
  else if bool_decide (reqlType = "TIME") then
    match vmap_get "epoch_time" m with
    | None => fail "TIME pseudo-type missing 'epoch_time' field"
    | Some v =>
        let timezone := match vmap_get "timezone" m with Some (VString s) => s | _ => "" end in
        match v with
        | VFloat64 _ | VInt _ =>
            let epoch := match v with VFloat64 f => f | VInt z => float_of_Z z | _ => S754_nan end in
            let sec := int_of_float epoch in
            let nsec := int_of_float (float_mul (float_sub epoch (float_of_Z sec)) (float_of_Z billion)) in
            let zone := match parse_zone timezone with
                        | Some off => parsed_location off
                        | None => None
                        end in
            mret (DTime (mkTime (sec * billion + nsec) zone))
        | _ => fail "TIME pseudo-type 'epoch_time' must be numeric"
        end
    end
  else if bool_decide (reqlType = "GEOMETRY") then fail "GEOMETRY pseudo-type not yet implemented"
  else fail ("unknown pseudo-type: " +:+ reqlType).

Fixpoint FromInterface (val : GoVal) : M Heap Datum :=
  match val with
  | VNil => mret DNull
  | VDatum d | VDatumPtr d => mret d
  | VBool b => mret (DBool b)
  | VFloat64 f | VFloat32 f => mret (DNum f)
  | VInt z | VInt64 z => mret (DNum (float_of_Z z))
  | VString s => mret (DStr s)
  | VSlice l => arr ← mapM FromInterface l; mret (DArray arr)
  | VMap kvs =>
      match vmap_get "$reql_type$" kvs with
      | Some (VString s) => unmarshalPseudoType s kvs
      | Some _ => panic
      | None =>
          o ← NewObjectDataFromMap ∅;
          for_each (λ kv, d ← FromInterface kv.2; heap_Set o kv.1 d) kvs;;
          mret (DObject o)
      end
  | VOther ty => fail ("cannot convert " +:+ ty +:+ " to Datum")
  end.

Definition num_json (f : float64) : outcome JSON :=
  match f with
  | S754_nan => Err "json: unsupported value: NaN"
  | S754_infinity false => Err "json: unsupported value: +Inf"
  | S754_infinity true => Err "json: unsupported value: -Inf"
  | _ => Ok (JNum f)
  end.

Definition marshal_datum_error : string := "json: error calling MarshalJSON for type datum.Datum".
Definition marshal_object_error : string := "json: error calling MarshalJSON for type *datum.ObjectData".
Definition marshal_geometry_error : string := "json: error calling MarshalJSON for type *datum.GeometryData".

(** [encoding/json] writes the entries of a map in the order of the keys. *)
Fixpoint MarshalJSON (h : Heap) (fuel : nat) (d : Datum) : outcome JSON :=
  match fuel with
  | O => NoFuel
  | S fuel' =>
      match d with
      | DMinVal | DMaxVal => Err ("cannot marshal " +:+ TypeString d +:+ " to JSON")
      | DNull => Ok JNull
      | DBool b => Ok (JBool b)
      | DNum f => num_json f
      | DStr s => Ok (JStr s)
      | DArray l => js ← mapM (λ x, owrap marshal_datum_error (MarshalJSON h fuel' x)) l; Ok (JArr js)
      | DObject o =>
          match h_objs h !! o with
          | None => Panic
          | Some obj =>
              owrap marshal_object_error
                (kvs ← mapM (λ k, j ← owrap marshal_datum_error (MarshalJSON h fuel' (field_or_zero obj k)); Ok (k, j))
                         (sort_Strings (map_to_list (fields obj)).*1);
                 Ok (JObj kvs))
          end
      | DBinary bs => Ok (JObj [("$reql_type$", JStr "BINARY"); ("data", JStr (base64 bs))])
      | DTime t =>
          let epochTime := float_div (float_of_Z (int64 (t_ns t))) (float_of_Z billion) in
          let timezone := format_zone (Z.quot (zone_offset t) 3600) in
          Ok (JObj [("$reql_type$", JStr "TIME"); ("epoch_time", JNum epochTime); ("timezone", JStr timezone)])
      | DGeometry g =>
          owrap marshal_geometry_error
            (x ← num_json (coordinates g).1; y ← num_json (coordinates g).2;
             Ok (JObj [("$reql_type$", JStr "GEOMETRY"); ("coordinates", JArr [x; y]); ("type", JStr (geomType g))]))
      end
  end.

(** [json.Unmarshal] of a document into a datum. *)
Definition UnmarshalJSON (j : JSON) : M Heap Datum := FromInterface (of_json j).
End json.

(** ** The objects of the heap stay well formed

    The keys of an object are those of its map in increasing order, which [Compare] and
    the answers of the protocol server rely on. *)
Definition heap_ok (h : Heap) : Prop := map_Forall (λ _, obj_ok) (h_objs h).

Lemma GoVal_nested_ind (P : GoVal → Prop) :
  (∀ v, match v with VSlice _ | VMap _ => False | _ => True end → P v) →
  (∀ l, Forall P l → P (VSlice l)) → (∀ kvs, Forall (λ kv, P kv.2) kvs → P (VMap kvs)) → ∀ v, P v.
Proof.
  intros Hbase Hslice Hmap. fix IH 1. intros v. destruct v as [| | | | | | | | |l|kvs|]; try by apply Hbase.
  - apply Hslice. induction l as [|v l IHl]; [constructor|]. constructor; [apply IH|exact IHl].
  - apply Hmap. induction kvs as [|[k v] kvs IHl]; [constructor|]. constructor; [apply IH|exact IHl].
Qed.

Lemma halloc_ok o : obj_ok o → respects (keeping heap_ok) (halloc o).
Proof. intros Ho h Hh l o'. cbn. intros [[<- <-]|[_ Hl]]%lookup_insert_Some; [done|by eapply Hh]. Qed.
Lemma hread_ok l : respects (keeping heap_ok) (hread l).
Proof. intros h Hh. unfold hread. by destruct (h_objs h !! l). Qed.
Lemma heap_Set_ok o key val : respects (keeping heap_ok) (heap_Set o key val).
Proof.
  intros h Hh. unfold heap_Set, hread, hwrite. mrun. destruct (h_objs h !! o) as [obj|] eqn:Ho; [|done].
  intros l o'. cbn. intros [[<- <-]|[_ Hl]]%lookup_insert_Some; [|by eapply Hh]. by eapply obj_Set_ok, Hh.
Qed.
Lemma NewObjectFromMap_ok m : respects (keeping heap_ok) (NewObjectFromMap m).
Proof. apply respects_bind; [apply _|apply halloc_ok, obj_of_map_ok|intros o; apply respects_ret; apply _]. Qed.
#[export] Hint Resolve halloc_ok hread_ok heap_Set_ok NewObjectFromMap_ok obj_of_map_ok obj_Set_ok : respects.
#[export] Hint Extern 0 (PreOrder _) => apply _ : respects.

Lemma unmarshalPseudoType_ok off ty m : respects (keeping heap_ok) (unmarshalPseudoType off ty m).
Proof. unfold unmarshalPseudoType. respects_auto. Qed.
Lemma FromInterface_ok off v : respects (keeping heap_ok) (FromInterface off v).
Proof.
  induction v as [v Hv|l IH|kvs IH] using GoVal_nested_ind.
  - destruct v; try done; cbn [FromInterface]; eauto with respects.
  - cbn [FromInterface]. apply respects_bind; [apply _| |eauto with respects]. apply respects_mapM; [apply _|].
    by apply Forall_forall.
  - cbn [FromInterface]. destruct (vmap_get "$reql_type$" kvs) as [[]|]; try (apply respects_panic; apply _); [apply unmarshalPseudoType_ok|].
    apply respects_bind; [apply _|apply halloc_ok, obj_of_map_ok|]. intros o.
    apply respects_bind; [apply _| |eauto with respects]. induction IH as [|[k v] kvs Hv Hkvs IHk]; [apply respects_ret, _|].
    cbn [for_each]. apply respects_bind; [apply _| |by intros []].
    apply respects_bind; [apply _|exact Hv|]. intros d. apply heap_Set_ok.
Qed.
Lemma converted_ok off v h r h' : FromInterface off v h = (r, h') → heap_ok h → heap_ok h'.
Proof. apply keeping_run, FromInterface_ok. Qed.

(** ** The heap only grows

    Conversion and the terms that read write to objects of their own only. *)

(** [h'] extends [h] with new objects. *)
Definition heap_grows (h h' : Heap) : Prop :=
  h_next h ≤ h_next h' ∧ ∀ l, l < h_next h → h_objs h' !! l = h_objs h !! l.
Lemma heap_grows_refl h : heap_grows h h.
Proof. by split. Qed.
Lemma heap_grows_trans h1 h2 h3 : heap_grows h1 h2 → heap_grows h2 h3 → heap_grows h1 h3.
Proof. intros [? H1] [? H2]. split; [lia|]. intros l Hl. rewrite H2, H1; [done|lia..]. Qed.
#[export] Instance heap_grows_preorder : PreOrder heap_grows.
Proof. split; [exact heap_grows_refl|exact heap_grows_trans]. Qed.
Lemma halloc_grows o h : heap_grows h (mkHeap (<[h_next h := o]> (h_objs h)) (S (h_next h))).
Proof. split; [cbn; lia|]. intros l Hl. apply lookup_insert_ne. lia. Qed.

(** The objects below [o] stay, while [o] and the later ones are made. *)
Definition grows_from (o : loc) (h h' : Heap) : Prop :=
  o ≤ h_next h → h_next h ≤ h_next h' ∧ ∀ l, l < o → h_objs h' !! l = h_objs h !! l.
#[export] Instance grows_from_preorder o : PreOrder (grows_from o).
Proof.
  split; [by intros h _|]. intros h1 h2 h3 H12 H23 Ho. destruct (H12 Ho) as [Hle Hsame].
  destruct H23 as [Hle' Hsame']; [lia|]. split; [lia|]. intros l Hl. by rewrite Hsame', Hsame.
Qed.
Lemma heap_grows_from o h h' : heap_grows h h' → grows_from o h h'.
Proof. intros [Hle Hsame] Ho. split; [done|]. intros l Hl. apply Hsame. lia. Qed.
Lemma grows_from_next h h' : grows_from (h_next h) h h' → heap_grows h h'.
Proof. intros Hg. by apply Hg. Qed.

Lemma alloc_grows o : respects heap_grows (halloc o).
Proof. intros h. apply halloc_grows. Qed.
Lemma hread_grows l : respects heap_grows (hread l).
Proof. intros h. unfold hread. by destruct (h_objs h !! l). Qed.
Lemma NewObjectFromMap_grows m : respects heap_grows (NewObjectFromMap m).
Proof. apply respects_bind; [apply _|apply alloc_grows|intros o; apply respects_ret; apply _]. Qed.
Lemma unmarshalPseudoType_grows off ty m : respects heap_grows (unmarshalPseudoType off ty m).
Proof. unfold unmarshalPseudoType. respects_auto. Qed.
Lemma heap_Set_from o key val : respects (grows_from o) (heap_Set o key val).
Proof.
  intros h Hle. unfold heap_Set, hread, hwrite. mrun. destruct (h_objs h !! o) as [obj|]; [|done].
  split; [done|]. intros l Hl. apply lookup_insert_ne. lia.
Qed.
Lemma FromInterface_grows off v : respects heap_grows (FromInterface off v).
Proof.
  induction v as [v Hv|l IH|kvs IH] using GoVal_nested_ind.
  - destruct v; try done; cbn [FromInterface]; eauto with respects.
  - cbn [FromInterface]. apply respects_bind; [apply _| |eauto with respects]. apply respects_mapM; [apply _|].
    by apply Forall_forall.
  - cbn [FromInterface]. destruct (vmap_get "$reql_type$" kvs) as [[]|]; try (apply respects_panic; apply _); [apply unmarshalPseudoType_grows|].
    intros h. apply grows_from_next. unfold NewObjectDataFromMap.
    rewrite (bind_ok (halloc _) _ h (h_next h) (mkHeap (<[h_next h := obj_of_map ∅]> (h_objs h)) (S (h_next h)))) by done.
    etransitivity; [apply heap_grows_from, (halloc_grows (obj_of_map ∅))|]. generalize (h_next h). intros o. revert h. cut (respects (grows_from o)
      (for_each (λ kv, d ← FromInterface off kv.2; heap_Set o kv.1 d) kvs;; mret (DObject o))); [intros Hr h; apply Hr|].
    apply respects_bind; [apply _| |intros []; apply respects_ret, _]. induction IH as [|[k v] kvs Hv Hkvs IHk]; [apply respects_ret, _|].
    cbn [for_each]. apply respects_bind; [apply _| |by intros []].
    apply respects_bind; [apply _|intros h'; apply heap_grows_from, Hv|]. intros d. apply heap_Set_from.
Qed.

(** ** The JSON round trip *)

(** A document of at most [n] levels without pseudo-types, with finite numbers and
    with the keys of every object in increasing order. *)
Fixpoint json_ok (n : nat) (j : JSON) : Prop :=
  match n with
  | O => False
  | S n' =>
      match j with
      | JNum f => IsNaN f = false ∧ IsInf f = false
      | JArr l => Forall (json_ok n') l
      | JObj kvs => StronglySorted String.le kvs.*1 ∧ NoDup kvs.*1 ∧ ("$reql_type$" ∉ kvs.*1) ∧
                    Forall (λ kv, json_ok n' kv.2) kvs
      | _ => True
      end
  end.

Section roundtrip.
Context (local_offset : Z → Z).
Abbreviation Marshal := (MarshalJSON local_offset).
Abbreviation From := (FromInterface local_offset).

(** [h2] agrees with [h'] on the objects allocated between [h] and [h']. *)
Definition agrees (h h' h2 : Heap) : Prop :=
  ∀ l, h_next h ≤ l < h_next h' → h_objs h2 !! l = h_objs h' !! l.

Lemma agrees_left h1 h2 h3 h : heap_grows h2 h3 → agrees h1 h3 h → agrees h1 h2 h.
Proof. intros [? H2] Ha l Hl. rewrite Ha, H2; [done|lia..]. Qed.
Lemma agrees_right h1 h2 h3 h : heap_grows h1 h2 → agrees h1 h3 h → agrees h2 h3 h.
Proof. intros [? H2] Ha l Hl. apply Ha. lia. Qed.

(** Converting [j] in heap [h] gives a datum that marshals back to [j], now and
    as long as its own objects stay as they are. *)
Definition converts (n : nat) (j : JSON) : Prop := ∀ h, ∃ d h',
  From (of_json j) h = (Ok d, h') ∧ heap_grows h h' ∧ ∀ h2, agrees h h' h2 → Marshal h2 n d = Ok j.

Lemma converts_list n l : Forall (converts n) l → ∀ h, ∃ ds h',
  mapM From (of_json <$> l) h = (Ok ds, h') ∧ heap_grows h h' ∧
  ∀ h2, agrees h h' h2 → mapM (λ x, owrap marshal_datum_error (Marshal h2 n x)) ds = Ok l.
Proof.
  induction 1 as [|j l Hj Hl IH]; intros h.
  - exists [], h. split; [done|]. split; [by split|done].
  - destruct (Hj h) as (d & h1 & Hr & Hg & Hm). destruct (IH h1) as (ds & h2 & Hrs & Hgs & Hms).
    exists (d :: ds), h2. split; [|split; [by eapply heap_grows_trans|]].
    + rewrite fmap_cons. cbn [mapM]. mstep Hr. mstep Hrs. done.
    + intros h3 Ha. cbn [mapM]. rewrite Hm by (by eapply agrees_left). cbn [owrap]. osteps.
      rewrite Hms by (by eapply agrees_right). done.
Qed.

(** The loop over the entries [kvs] of an object at [o] that already holds [obj]. *)
Lemma converts_fields n o kvs : Forall (λ kv, converts n kv.2) kvs → ∀ h obj,
  h_objs h !! o = Some obj → obj_ok obj → o < h_next h →
  ∃ ds h', for_each (λ kv : string * GoVal, d ← From kv.2; heap_Set o kv.1 d)
             ((λ kv, (kv.1, of_json kv.2)) <$> kvs) h = (Ok (), h') ∧
    h_next h ≤ h_next h' ∧ (∀ l, l < h_next h → l ≠ o → h_objs h' !! l = h_objs h !! l) ∧
    h_objs h' !! o = Some (foldl (λ ob kd, obj_Set ob kd.1 kd.2) obj (zip kvs.*1 ds)) ∧
    ∀ h2, agrees h h' h2 → Forall2 (λ kv d, Marshal h2 n d = Ok kv.2) kvs ds.
Proof.
  induction 1 as [|[k j] kvs Hj Hl IH]; intros h obj Ho Hok Hlt.
  - exists [], h. by split_and!.
  - destruct (Hj h) as (d & h1 & Hr & [Hle Hg] & Hm).
    set (h1' := mkHeap (<[o := obj_Set obj k d]> (h_objs h1)) (h_next h1)).
    destruct (IH h1' (obj_Set obj k d)) as (ds & h2 & Hrs & Hle2 & Hfr & Hfin & Hms).
    { unfold h1'. simpl. by rewrite lookup_insert_eq. }
    { by apply obj_Set_ok. }
    { unfold h1'. simpl. lia. }
    simpl in Hle2, Hfr. exists (d :: ds), h2. split; [|split; [lia|split; [|split; [done|]]]].
    + rewrite fmap_cons. cbn [for_each fst snd].
      rewrite (bind_ok _ _ h () h1'); [done|]. mstep Hr. unfold heap_Set, hread. mrun.
      by rewrite Hg, Ho by lia.
    + intros l Hl' Hne. rewrite Hfr by (done || lia). rewrite lookup_insert_ne by done. apply Hg. lia.
    + intros h3 Ha. constructor.
      * apply Hm. intros l Hl'. rewrite Ha by lia. rewrite Hfr by lia. rewrite lookup_insert_ne by lia. done.
      * apply Hms. intros l Hl'. apply Ha. simpl in Hl'. lia.
Qed.

Lemma foldl_Set_ok (l : list (string * Datum)) : ∀ obj, obj_ok obj → NoDup l.*1 →
  (∀ k, k ∈ l.*1 → fields obj !! k = None) →
  obj_ok (foldl (λ ob kd, obj_Set ob kd.1 kd.2) obj l) ∧
  fields (foldl (λ ob kd, obj_Set ob kd.1 kd.2) obj l) = list_to_map l ∪ fields obj.
Proof.
  induction l as [|[k d] l IH]; intros obj Hok Hnd Hf; [split; [done|]; simpl; by rewrite (left_id_L ∅ _)|].
  apply NoDup_cons in Hnd as [Hk Hnd]. simpl in *. destruct (IH (obj_Set obj k d)) as [H1 H2]; try done.
  - by apply obj_Set_ok.
  - intros k' Hk'. simpl. rewrite lookup_insert_ne by (by intros ->). apply Hf. by right.
  - split; [done|]. rewrite H2. simpl. rewrite <- insert_union_r, <- insert_union_l; [done|].
    by apply not_elem_of_list_to_map_1.
Qed.

Lemma vmap_get_None kvs : "$reql_type$" ∉ kvs.*1 → 
  vmap_get "$reql_type$" ((λ kv : string * JSON, (kv.1, of_json kv.2)) <$> kvs) = None.
Proof.
  induction kvs as [|[k j] kvs IH]; [done|]. intros [Hne Hni]%not_elem_of_cons. simpl in *.
  rewrite bool_decide_eq_false_2 by done. by apply IH.
Qed.

Lemma marshal_fields h2 n (m : gmap string Datum) kvs ds :
  Forall2 (λ kv d, Marshal h2 n d = Ok kv.2) kvs ds →
  (∀ k d, (k, d) ∈ zip kvs.*1 ds → m !! k = Some d) → ∀ ks,
  mapM (λ k, j ← owrap marshal_datum_error (Marshal h2 n (field_or_zero (mkObj m ks) k)); Ok (k, j)) kvs.*1 = Ok kvs.
Proof.
  intros HF Hm ks. induction HF as [|[k j] d kvs ds Hj HF IH]; [done|].
  assert (field_or_zero (mkObj m ks) k = d) as Hd.
  { unfold field_or_zero. simpl. by rewrite (Hm k d) by (by left). }
  rewrite fmap_cons. cbn [mapM fst]. simpl in Hj. rewrite Hd, Hj. cbn [owrap]. osteps.
  rewrite IH; [done|]. intros k' d' Hin. apply Hm. by right.
Qed.

Lemma converts_object n kvs :
  StronglySorted String.le kvs.*1 → NoDup kvs.*1 → "$reql_type$" ∉ kvs.*1 →
  Forall (λ kv, converts n kv.2) kvs → converts (S n) (JObj kvs).
Proof.
  intros Hs Hnd Hrt Hkvs h. set (h0 := mkHeap (<[h_next h := obj_of_map ∅]> (h_objs h)) (S (h_next h))).
  destruct (converts_fields n (h_next h) kvs Hkvs h0 (obj_of_map ∅)) as
    (ds & h' & Hrun & Hle & Hfr & Hfin & Hms).
  { unfold h0. simpl. by rewrite lookup_insert_eq. }
  { apply obj_of_map_ok. }
  { simpl. lia. }
  simpl in Hle, Hfr. exists (DObject (h_next h)), h'. split; [|split].
  - cbn [of_json FromInterface]. rewrite vmap_get_None by done. unfold NewObjectDataFromMap.
    rewrite (bind_ok _ _ h (h_next h) h0) by done. mstep Hrun. done.
  - split; [lia|]. intros l Hl. rewrite Hfr by lia. apply lookup_insert_ne. lia.
  - intros h2 Ha. cbn [MarshalJSON]. rewrite Ha by lia. rewrite Hfin.
    assert (Forall2 (λ kv d, Marshal h2 n d = Ok kv.2) kvs ds) as HF.
    { apply Hms. intros l Hl. apply Ha. simpl in Hl. lia. }
    pose proof (Forall2_length _ _ _ HF) as Hlen.
    assert ((zip kvs.*1 ds).*1 = kvs.*1) as Hz by (apply fst_zip; rewrite length_fmap; lia).
    destruct (foldl_Set_ok (zip kvs.*1 ds) (obj_of_map ∅)) as [Hok Hf];
      [apply obj_of_map_ok|by rewrite Hz|intros k _; apply lookup_empty|].
    set (obj := foldl _ _ _) in *. rewrite <- (obj_ok_keys obj Hok).
    assert (keys obj = kvs.*1) as Hkeys.
    { rewrite (obj_ok_keys obj Hok), Hf. simpl. rewrite (right_id_L ∅ _).
      apply sort_Strings_unique; [|done]. rewrite map_to_list_to_map by (by rewrite Hz). by rewrite Hz. }
    rewrite Hkeys. destruct obj as [fs ks]. simpl in Hf.
    rewrite (marshal_fields h2 n fs kvs ds); [done|done|].
    intros k d Hin. rewrite Hf. simpl. rewrite (right_id_L ∅ _).
    apply elem_of_list_to_map_1; [by rewrite Hz|done].
Qed.

Lemma json_ok_converts n : ∀ j, json_ok n j → converts n j.
Proof.
  induction n as [|n IH]; [done|]. intros j Hj.
  assert (∀ h d, (∀ h', Marshal h' (S n) d = Ok j) → From (of_json j) h = (Ok d, h) →
    ∃ d h', From (of_json j) h = (Ok d, h') ∧ heap_grows h h' ∧
      ∀ h2, agrees h h' h2 → Marshal h2 (S n) d = Ok j) as Hbase.
  { intros h d Hm Hr. exists d, h. split; [done|]. split; [by split|auto]. }
  destruct j as [|b|f|s|l|kvs].
  - intros h. by apply (Hbase h DNull).
  - intros h. by apply (Hbase h (DBool b)).
  - intros h. apply (Hbase h (DNum f)); [|done]. intros h'. destruct Hj. by destruct f as [|[]| |].
  - intros h. by apply (Hbase h (DStr s)).
  - intros h. destruct (converts_list n l) with (h := h) as (ds & h' & Hr & Hg & Hm).
    { eapply Forall_impl; [exact Hj|]. auto. }
    exists (DArray ds), h'. split; [|split; [done|]].
    + cbn [of_json FromInterface]. by mstep Hr.
    + intros h2 Ha. cbn [MarshalJSON]. by rewrite Hm.
  - destruct Hj as (Hs & Hnd & Hrt & Hkvs). apply converts_object; try done.
    eapply Forall_impl; [exact Hkvs|]. simpl. auto.
Qed.

(** C10: JSON documents survive the conversion to datums and back: a document
    without pseudo-types and with finite numbers converts without an error to a
    datum that marshals to the same document. *)
Theorem json_roundtrip n j h :
  json_ok n j →
  ∃ d h', UnmarshalJSON local_offset j h = (Ok d, h') ∧ Marshal h' n d = Ok j.
Proof.
  intros Hj. destruct (json_ok_converts n j Hj h) as (d & h' & Hr & _ & Hm).
  exists d, h'. split; [done|]. apply Hm. by intros l _.
Qed.
End roundtrip.

Definition example_doc : JSON :=
  JObj [("a", JArr [JNum (float_of_Z 1); JNull]); ("b", JObj [("x", JBool true)])].

Lemma json_roundtrip_witness :
  ∃ d h', UnmarshalJSON (λ _, 0%Z) example_doc empty_heap = (Ok d, h') ∧
          MarshalJSON (λ _, 0%Z) h' 3 d = Ok example_doc.
Proof.
  apply (json_roundtrip (λ _, 0%Z) 3 example_doc).
  unfold example_doc. cbn [json_ok]. split_and!.
  - repeat constructor.
  - refine (bool_decide_unpack _ _). vm_compute. exact I.
  - refine (bool_decide_unpack _ _). vm_compute. exact I.
  - constructor; [by repeat constructor|]. constructor; [|constructor]. simpl.
    split; [repeat constructor|]. split; [refine (bool_decide_unpack _ _); vm_compute; exact I|].
    split; [refine (bool_decide_unpack _ _); vm_compute; exact I|]. by repeat constructor.
Defined.

(** Binary data does not survive JSON: [MarshalJSON] writes base64, but
    [FromInterface] takes the text itself as the bytes, so every binary datum that
    is marshalled and read back holds its own base64 text. *)
Theorem binary_json_is_not_a_roundtrip local_offset h bs :
  ∃ j h', MarshalJSON local_offset h 1 (DBinary bs) = Ok j ∧
    UnmarshalJSON local_offset j h = (Ok (DBinary (bytes_of_string (base64 bs))), h') ∧
    DBinary (bytes_of_string (base64 [Byte.x01])) ≠ DBinary [Byte.x01].
Proof.
  eexists _, h. split; [reflexivity|]. split; [reflexivity|]. vm_compute. discriminate.
Qed.

(** A time with an offset of a fraction of an hour loses it in JSON: the
    timezone +05:30 is written as +05:00, and reading the document back gives a
    time with a different offset. *)
Theorem half_hour_zone_is_lost :
  let t := mkTime (1500 * billion) (Some 19800%Z) in
  let j := JObj [("$reql_type$", JStr "TIME"); ("epoch_time", JNum (float_of_Z 1500)); ("timezone", JStr "+05:00")] in
  MarshalJSON (λ _, 0%Z) empty_heap 1 (DTime t) = Ok j ∧
  UnmarshalJSON (λ _, 0%Z) j empty_heap = (Ok (DTime (mkTime (1500 * billion) (Some 18000%Z))), empty_heap).
Proof. split; vm_compute; reflexivity. Qed.
