(* ===== verification/Raft.v ===== *)
(** * A Raft node ([internal/raft]: raft.go, types.go)

    The state of one node and its operations: the two RPC handlers, proposals,
    elections and the handling of replies.  Commands ([interface{}] in the code)
    are of any type [Cmd].  Terms and indices are integers without a width: they
    are counters that start at zero and grow by one. *)

From S2P Require Import Prelude Bytes.

Inductive State := Follower | Candidate | Leader.
#[global] Instance State_eq_dec : EqDecision State.
Proof. solve_decision. Defined.

Definition State_String (s : State) : string :=
  match s with Follower => "Follower" | Candidate => "Candidate" | Leader => "Leader" end.

Record LogEntry (Cmd : Type) := mkEntry {
  Term : Z;
  Index : Z;
  Command : Cmd;
  Timestamp : Z;
}.
Arguments mkEntry {Cmd}. Arguments Term {Cmd}. Arguments Index {Cmd}. Arguments Command {Cmd}.
Arguments Timestamp {Cmd}.

Record RequestVoteArgs := mkVoteArgs {
  va_Term : Z;
  va_CandidateID : string;
  va_LastLogIndex : Z;
  va_LastLogTerm : Z;
}.
Record RequestVoteReply := mkVoteReply { vr_Term : Z; vr_VoteGranted : bool }.

Record AppendEntriesArgs (Cmd : Type) := mkAppendArgs {
  aa_Term : Z;
  aa_LeaderID : string;
  aa_PrevLogIndex : Z;
  aa_PrevLogTerm : Z;
  aa_Entries : list (LogEntry Cmd);
  aa_LeaderCommit : Z;
}.
Arguments mkAppendArgs {Cmd}. Arguments aa_Term {Cmd}. Arguments aa_LeaderID {Cmd}.
Arguments aa_PrevLogIndex {Cmd}. Arguments aa_PrevLogTerm {Cmd}. Arguments aa_Entries {Cmd}.
Arguments aa_LeaderCommit {Cmd}.
Record AppendEntriesReply := mkAppendReply { ar_Term : Z; ar_Success : bool }.

(** Durations and times in nanoseconds. *)
Record Config := mkConfig {
  NodeID : string;
  Peers : list string;
  ElectionTimeout : Z;
  HeartbeatInterval : Z;
}.
Definition millisecond : Z := 1000000.
Definition DefaultConfig (nodeID : string) (peers : list string) : Config :=
  mkConfig nodeID peers (150 * millisecond) (50 * millisecond).

Record Raft (Cmd : Type) := mkRaft {
  config : Config;
  currentTerm : Z;
  votedFor : string;
  log : list (LogEntry Cmd);
  state : State;
  commitIndex : Z;
  lastApplied : Z;
  nextIndex : gmap string Z;
  matchIndex : gmap string Z;
  electionTimeout : Z;
  lastHeartbeat : Z;
}.
Arguments mkRaft {Cmd}. Arguments config {Cmd}. Arguments currentTerm {Cmd}. Arguments votedFor {Cmd}.
Arguments log {Cmd}. Arguments state {Cmd}. Arguments commitIndex {Cmd}. Arguments lastApplied {Cmd}.
Arguments nextIndex {Cmd}. Arguments matchIndex {Cmd}. Arguments electionTimeout {Cmd}.
Arguments lastHeartbeat {Cmd}.

Section raft.
Context {Cmd : Type}.
Implicit Types (r : Raft Cmd) (now : Z).

(** [for _, peer := range config.Peers { m[peer] = v }] *)
Definition set_all (peers : list string) (v : Z) (m : gmap string Z) : gmap string Z :=
  foldl (λ m peer, <[peer := v]> m) m peers.

Definition New (cfg : Config) now : Raft Cmd :=
  mkRaft cfg 0 "" [] Follower 0 0 (set_all (Peers cfg) 1 ∅) (set_all (Peers cfg) 0 ∅)
    (ElectionTimeout cfg) now.

Definition getLastLogIndex r : Z := match last (log r) with Some e => Index e | None => 0 end.
Definition getLastLogTerm r : Z := match last (log r) with Some e => Term e | None => 0 end.

Definition set_heartbeat now r : Raft Cmd :=
  mkRaft (config r) (currentTerm r) (votedFor r) (log r) (state r) (commitIndex r) (lastApplied r)
    (nextIndex r) (matchIndex r) (electionTimeout r) now.
Definition set_log (l : list (LogEntry Cmd)) r : Raft Cmd :=
  mkRaft (config r) (currentTerm r) (votedFor r) l (state r) (commitIndex r) (lastApplied r)
    (nextIndex r) (matchIndex r) (electionTimeout r) (lastHeartbeat r).
Definition set_vote (v : string) r : Raft Cmd :=
  mkRaft (config r) (currentTerm r) v (log r) (state r) (commitIndex r) (lastApplied r)
    (nextIndex r) (matchIndex r) (electionTimeout r) (lastHeartbeat r).
Definition set_commit (c : Z) r : Raft Cmd :=
  mkRaft (config r) (currentTerm r) (votedFor r) (log r) (state r) c (lastApplied r)
    (nextIndex r) (matchIndex r) (electionTimeout r) (lastHeartbeat r).
(** [r.currentTerm = t; r.state = Follower; r.votedFor = ""] *)
Definition step_down (t : Z) r : Raft Cmd :=
  mkRaft (config r) t "" (log r) Follower (commitIndex r) (lastApplied r)
    (nextIndex r) (matchIndex r) (electionTimeout r) (lastHeartbeat r).
Definition set_next (peer : string) (next : Z) (mtch : option Z) r : Raft Cmd :=
  mkRaft (config r) (currentTerm r) (votedFor r) (log r) (state r) (commitIndex r) (lastApplied r)
    (<[peer := next]> (nextIndex r))
    (match mtch with Some m => <[peer := m]> (matchIndex r) | None => matchIndex r end)
    (electionTimeout r) (lastHeartbeat r).

(** ** Elections *)

(** [jitter] is [rand.Intn(150)] milliseconds. *)
Definition becomeCandidate now (jitter : Z) r : Raft Cmd :=
  mkRaft (config r) (currentTerm r + 1) (NodeID (config r)) (log r) Candidate (commitIndex r)
    (lastApplied r) (nextIndex r) (matchIndex r) (ElectionTimeout (config r) + jitter * millisecond) now.

Definition becomeLeader r : Raft Cmd :=
  mkRaft (config r) (currentTerm r) (votedFor r) (log r) Leader (commitIndex r) (lastApplied r)
    (set_all (Peers (config r)) (getLastLogIndex r + 1) (nextIndex r))
    (set_all (Peers (config r)) 0 (matchIndex r)) (electionTimeout r) (lastHeartbeat r).

Definition tickFollower now (jitter : Z) r : Raft Cmd :=
  if bool_decide (electionTimeout r < now - lastHeartbeat r)%Z then becomeCandidate now jitter r else r.

(** The arguments a vote request carries: read when the request is sent. *)
Definition requestVoteArgs r : RequestVoteArgs :=
  mkVoteArgs (currentTerm r) (NodeID (config r)) (getLastLogIndex r) (getLastLogTerm r).

(** The locked part of the goroutine that [startElection] starts for each peer, on
    a granted vote; [votes] is the counter its call shares among them. *)
Definition count_vote (votes : Z) r : Z * Raft Cmd :=
  let votes := (votes + 1)%Z in
  if bool_decide ((Z.of_nat (length (Peers (config r))) + 1) / 2 < votes)%Z
     && bool_decide (state r = Candidate)
  then (votes, becomeLeader r) else (votes, r).

(** ** Replication *)

(** The arguments [sendAppendEntriesToPeer] sends. *)
Definition appendArgs (peer : string) r : outcome (AppendEntriesArgs Cmd) :=
  let next := default 0%Z (nextIndex r !! peer) in
  let prevLogIndex := (next - 1)%Z in
  prevLogTerm ←
    (if bool_decide (0 < prevLogIndex ∧ prevLogIndex ≤ Z.of_nat (length (log r)))%Z
     then e ← go_index (log r) (Z.to_nat (prevLogIndex - 1)); Ok (Term e) else Ok 0%Z);
  entries ←
    (if bool_decide (next ≤ Z.of_nat (length (log r)))%Z
     then if bool_decide (next < 1)%Z then Panic else slice_from (log r) (Z.to_nat (next - 1))
     else Ok []);
  Ok (mkAppendArgs (currentTerm r) (NodeID (config r)) prevLogIndex prevLogTerm entries (commitIndex r)).

(** What it does with the reply to a request that carried [entries]. *)
Definition handleAppendReply (peer : string) (entries : list (LogEntry Cmd)) (reply : AppendEntriesReply) r
    : Raft Cmd :=
  if bool_decide (currentTerm r < ar_Term reply)%Z then step_down (ar_Term reply) r
  else if ar_Success reply then
    match last entries with
    | Some e => set_next peer (Index e + 1) (Some (Index e)) r
    | None => r
    end
  else
    let next := default 0%Z (nextIndex r !! peer) in
    if bool_decide (1 < next)%Z then set_next peer (next - 1) None r else r.

(** ** The RPC handlers *)

Definition RequestVote (args : RequestVoteArgs) now : M (Raft Cmd) RequestVoteReply :=
  r ← get_state;
  let reply_term := currentTerm r in
  if bool_decide (va_Term args < currentTerm r)%Z then mret (mkVoteReply reply_term false)
  else
    (if bool_decide (currentTerm r < va_Term args)%Z
     then modify (step_down (va_Term args)) else mret ());;
    r ← get_state;
    if bool_decide (votedFor r = "" ∨ votedFor r = va_CandidateID args) then
      if bool_decide (getLastLogTerm r < va_LastLogTerm args ∨
                      (va_LastLogTerm args = getLastLogTerm r ∧ getLastLogIndex r ≤ va_LastLogIndex args))%Z
      then
        modify (set_vote (va_CandidateID args));;
        modify (set_heartbeat now);;
        mret (mkVoteReply reply_term true)
      else mret (mkVoteReply reply_term false)
    else mret (mkVoteReply reply_term false).

(** The loop over the new entries. *)
Fixpoint append_loop (entries l : list (LogEntry Cmd)) : outcome (list (LogEntry Cmd)) :=
  match entries with
  | [] => Ok l
  | entry :: entries' =>
      if bool_decide (Index entry ≤ Z.of_nat (length l))%Z then
        if bool_decide (Index entry < 1)%Z then Panic else
        old ← go_index l (Z.to_nat (Index entry - 1));
        if bool_decide (Term old ≠ Term entry)
        then append_loop entries' (take (Z.to_nat (Index entry - 1)) l ++ [entry])
        else append_loop entries' l
      else append_loop entries' (l ++ [entry])
  end.

(** The consistency check on the previous entry: [None] when it succeeds, else the
    log that is left. *)
Definition check_prev (args : AppendEntriesArgs Cmd) (l : list (LogEntry Cmd))
    : outcome (option (list (LogEntry Cmd))) :=
  if bool_decide (0 < aa_PrevLogIndex args)%Z then
    if bool_decide (Z.of_nat (length l) < aa_PrevLogIndex args)%Z then Ok (Some l)
    else
      e ← go_index l (Z.to_nat (aa_PrevLogIndex args - 1));
      if bool_decide (Term e ≠ aa_PrevLogTerm args)
      then Ok (Some (take (Z.to_nat (aa_PrevLogIndex args - 1)) l))
      else Ok None
  else Ok None.

Definition advance_commit (leaderCommit : Z) r : Raft Cmd :=
  if bool_decide (commitIndex r < leaderCommit)%Z then
    let lastLogIndex := getLastLogIndex r in
    set_commit (if bool_decide (leaderCommit < lastLogIndex)%Z then leaderCommit else lastLogIndex) r
  else r.

Definition AppendEntries (args : AppendEntriesArgs Cmd) now : M (Raft Cmd) AppendEntriesReply :=
  r ← get_state;
  let reply_term := currentTerm r in
  if bool_decide (aa_Term args < currentTerm r)%Z then mret (mkAppendReply reply_term false)
  else
    (if bool_decide (currentTerm r < aa_Term args ∨ state r = Candidate)%Z
     then modify (step_down (aa_Term args)) else mret ());;
    modify (set_heartbeat now);;
    r ← get_state;
    failed ← lift (check_prev args (log r));
    match failed with
    | Some l => modify (set_log l);; mret (mkAppendReply reply_term false)
    | None =>
        l ← lift (append_loop (aa_Entries args) (log r));
        modify (set_log l);;
        modify (advance_commit (aa_LeaderCommit args));;
        mret (mkAppendReply reply_term true)
    end.

(** ** Proposals *)

(** The heartbeats that follow are goroutines; see the cluster model. *)
Definition Propose (command : Cmd) now : M (Raft Cmd) unit :=
  r ← get_state;
  if bool_decide (state r ≠ Leader) then fail "not leader"
  else
    let entry := mkEntry (currentTerm r) (getLastLogIndex r + 1) command (now / 1000000000) in
    put_state (set_log (log r ++ [entry]) r).

Definition GetState r : State := state r.
Definition GetCurrentTerm r : Z := currentTerm r.
Definition IsLeader r : bool := bool_decide (state r = Leader).

(** ** Well-formed logs and requests *)

(** The entry at position [i] (from 0) has index [i + 1]. *)
Definition log_ok (l : list (LogEntry Cmd)) : Prop :=
  ∀ i e, l !! i = Some e → Index e = (Z.of_nat i + 1)%Z.

(** The entries of a request follow its previous index without a gap. *)
Definition args_ok (args : AppendEntriesArgs Cmd) : Prop :=
  (0 ≤ aa_PrevLogIndex args)%Z ∧
  ∀ i e, aa_Entries args !! i = Some e → Index e = (aa_PrevLogIndex args + Z.of_nat i + 1)%Z.

Lemma log_ok_last r : log_ok (log r) → getLastLogIndex r = Z.of_nat (length (log r)).
Proof.
  intros Hl. unfold getLastLogIndex. destruct (last (log r)) as [e|] eqn:E.
  - rewrite last_lookup in E. rewrite (Hl _ _ E). apply lookup_lt_Some in E. lia.
  - apply last_None in E. by rewrite E.
Qed.

Lemma log_ok_take n l : log_ok l → log_ok (take n l).
Proof. intros Hl i e Hi. apply lookup_take_Some in Hi as [Hi _]. by apply Hl. Qed.
Lemma log_ok_app l k :
  log_ok l → (∀ i e, k !! i = Some e → Index e = (Z.of_nat (length l + i) + 1)%Z) → log_ok (l ++ k).
Proof.
  intros Hl Hk i e. rewrite lookup_app_Some. intros [Hi|[Hge Hi]]; [by apply Hl|].
  rewrite (Hk _ _ Hi). lia.
Qed.
Lemma log_ok_snoc l e : log_ok l → Index e = (Z.of_nat (length l) + 1)%Z → log_ok (l ++ [e]).
Proof.
  intros Hl He. apply log_ok_app; [done|]. intros i e' Hi. destruct i as [|i]; [|done].
  injection Hi as <-. by rewrite Nat.add_0_r.
Qed.
End raft.

Section handlers.
Context {Cmd : Type}.
Implicit Types (r : Raft Cmd) (now : Z) (l : list (LogEntry Cmd)).

(** The entries the loop is given follow position [p] of the log. *)
Lemma append_loop_ok entries : ∀ l p,
  log_ok l → p ≤ length l →
  (∀ i e, entries !! i = Some e → Index e = (Z.of_nat (p + i) + 1)%Z) →
  ∃ l', append_loop entries l = Ok l' ∧ log_ok l' ∧ take p l' = take p l ∧ p + length entries ≤ length l' ∧
    ∀ i e, entries !! i = Some e → ∃ e', l' !! (p + i) = Some e' ∧ Term e' = Term e.
Proof.
  induction entries as [|entry entries IH]; intros l p Hl Hp Hidx.
  - exists l. split_and!; try done. simpl. lia.
  - pose proof (Hidx 0 entry eq_refl) as He. rewrite Nat.add_0_r in He.
    assert (∀ i e, entries !! i = Some e → Index e = (Z.of_nat (S p + i) + 1)%Z) as Hidx'.
    { intros i e Hi. rewrite (Hidx (S i) e Hi). lia. }
    assert (∃ l1, append_loop (entry :: entries) l = append_loop entries l1 ∧ log_ok l1 ∧ S p ≤ length l1 ∧
      take p l1 = take p l ∧ ∃ e', l1 !! p = Some e' ∧ Term e' = Term entry) as
      (l1 & Hrun & Hl1 & Hp1 & Htk & e' & He' & Ht).
    { cbn [append_loop]. case_bool_decide as Hle.
      - rewrite bool_decide_eq_false_2 by lia. replace (Z.to_nat (Index entry - 1)) with p by lia.
        destruct (lookup_lt_is_Some_2 l p) as [old Hold]; [lia|]. rewrite (go_index_ok _ _ _ Hold). osteps.
        case_bool_decide as Ht.
        + exists (take p l ++ [entry]). split; [done|].
          assert (length (take p l) = p) as Htl by (rewrite length_take; lia).
          split; [apply log_ok_snoc; [by apply log_ok_take|by rewrite Htl]|].
          split; [rewrite length_app, Htl; simpl; lia|]. split; [by rewrite take_app_length' by done|].
          exists entry. split; [|done]. rewrite <- Htl at 1. by apply list_lookup_middle.
        + exists l. split_and!; try done; try lia. eauto.
      - assert (p = length l) as -> by lia. exists (l ++ [entry]). split; [done|].
        split; [by apply log_ok_snoc|]. split; [rewrite length_app; simpl; lia|].
        split; [rewrite take_app_length; by rewrite firstn_all|].
        exists entry. split; [by apply list_lookup_middle|done]. }
    destruct (IH l1 (S p) Hl1 Hp1 Hidx') as (l' & Hrun' & Hl' & Htk' & Hlen & Hterm).
    exists l'. split; [by rewrite Hrun|]. split; [done|]. split; [|split; [simpl in *; lia|]].
    + rewrite <- Htk. apply (f_equal (take p)) in Htk'. rewrite !take_take in Htk'.
      by replace (p `min` S p) with p in Htk' by lia.
    + intros [|i] e Hi.
      * injection Hi as <-. rewrite Nat.add_0_r. exists e'. split; [|done].
        assert (take (S p) l' !! p = Some e') as Hlk by (rewrite Htk', lookup_take_lt by lia; done).
        by rewrite lookup_take_lt in Hlk by lia.
      * destruct (Hterm i e Hi) as (e'' & Hlk & ?). exists e''. split; [|done].
        rewrite <- Hlk. f_equal. lia.
Qed.

(** The previous entry of the request is in the log. *)
Definition prev_matches (args : AppendEntriesArgs Cmd) l : Prop :=
  aa_PrevLogIndex args = 0%Z ∨
  ∃ e, l !! Z.to_nat (aa_PrevLogIndex args - 1) = Some e ∧ Term e = aa_PrevLogTerm args.

Lemma check_prev_ok args l :
  args_ok args → log_ok l →
  (prev_matches args l ∧ check_prev args l = Ok None ∧ (aa_PrevLogIndex args ≤ Z.of_nat (length l))%Z) ∨
  (¬ prev_matches args l ∧ ∃ n, check_prev args l = Ok (Some (take n l))).
Proof.
  intros [Hp _] Hl. unfold check_prev. case_bool_decide as H0.
  - case_bool_decide as Hlt.
    + right. split.
      * intros [?|(e & He & _)]; [lia|]. apply lookup_lt_Some in He. lia.
      * exists (length l). by rewrite firstn_all.
    + destruct (lookup_lt_is_Some_2 l (Z.to_nat (aa_PrevLogIndex args - 1))) as [e He]; [lia|].
      rewrite (go_index_ok _ _ _ He). osteps. case_bool_decide as Ht.
      * right. split; [|eauto]. intros [?|(e' & He' & Ht')]; [lia|]. congruence.
      * left. split; [right; eauto|]. split; [done|lia].
  - left. split; [left; lia|]. split; [done|lia].
Qed.

(** The state of the node when the log is examined. *)
Definition ae_start (args : AppendEntriesArgs Cmd) now r : Raft Cmd :=
  set_heartbeat now
    (if bool_decide (currentTerm r < aa_Term args ∨ state r = Candidate)%Z
     then step_down (aa_Term args) r else r).

Lemma ae_start_facts args now r :
  (currentTerm r ≤ aa_Term args)%Z →
  log (ae_start args now r) = log r ∧ currentTerm (ae_start args now r) = aa_Term args ∧
  config (ae_start args now r) = config r ∧ commitIndex (ae_start args now r) = commitIndex r ∧
  nextIndex (ae_start args now r) = nextIndex r ∧ lastApplied (ae_start args now r) = lastApplied r ∧
  (state (ae_start args now r) = state r ∨ state (ae_start args now r) = Follower).
Proof.
  intros Ht. unfold ae_start. case_bool_decide as H; simpl; [split_and!; auto|].
  assert (currentTerm r = aa_Term args) by (destruct (decide (currentTerm r < aa_Term args)%Z); [naive_solver|lia]).
  split_and!; auto.
Qed.

Lemma AppendEntries_stale args now r :
  (aa_Term args < currentTerm r)%Z → AppendEntries args now r = (Ok (mkAppendReply (currentTerm r) false), r).
Proof. intros H. unfold AppendEntries. mrun. by rewrite bool_decide_eq_true_2. Qed.

Lemma AppendEntries_run args now r :
  (currentTerm r ≤ aa_Term args)%Z → 
  AppendEntries args now r =
    match check_prev args (log r) with
    | Ok (Some l) => (Ok (mkAppendReply (currentTerm r) false), set_log l (ae_start args now r))
    | Ok None =>
        match append_loop (aa_Entries args) (log r) with
        | Ok l => (Ok (mkAppendReply (currentTerm r) true),
                   advance_commit (aa_LeaderCommit args) (set_log l (ae_start args now r)))
        | Err e => (Err e, ae_start args now r)
        | Panic => (Panic, ae_start args now r)
        | NoFuel => (NoFuel, ae_start args now r)
        end
    | Err e => (Err e, ae_start args now r)
    | Panic => (Panic, ae_start args now r)
    | NoFuel => (NoFuel, ae_start args now r)
    end.
Proof.
  intros Ht. destruct (ae_start_facts args now r Ht) as [Hlog _]. unfold AppendEntries.
  rewrite (bind_ok get_state _ r r r) by done. rewrite bool_decide_eq_false_2 by lia.
  set (m := if bool_decide (currentTerm r < aa_Term args ∨ state r = Candidate)%Z
            then modify (step_down (aa_Term args)) else mret ()).
  assert (m r = (Ok (), if bool_decide (currentTerm r < aa_Term args ∨ state r = Candidate)%Z
     then step_down (aa_Term args) r else r)) as Hm by (unfold m; by case_bool_decide).
  mstep Hm. rewrite (bind_ok _ _ _ () (ae_start args now r)) by done.
  rewrite (bind_ok get_state _ _ _ _ eq_refl). rewrite Hlog. mrun.
  destruct (check_prev args (log r)) as [[l|]|e| |]; done.
Qed.

Lemma advance_commit_log c r :
  log (advance_commit c r) = log r ∧ currentTerm (advance_commit c r) = currentTerm r ∧
  config (advance_commit c r) = config r ∧ state (advance_commit c r) = state r ∧
  nextIndex (advance_commit c r) = nextIndex r ∧ lastApplied (advance_commit c r) = lastApplied r ∧
  (commitIndex (advance_commit c r) = commitIndex r ∨ commitIndex r < c)%Z.
Proof. unfold advance_commit. case_bool_decide; simpl; auto 10. Qed.

(** What [AppendEntries] guarantees on well-formed input. *)
Lemma AppendEntries_ok args now r :
  log_ok (log r) → args_ok args →
  ∃ reply r', AppendEntries args now r = (Ok reply, r') ∧ log_ok (log r') ∧
    (currentTerm r ≤ currentTerm r')%Z ∧ config r' = config r ∧ nextIndex r' = nextIndex r ∧
    lastApplied r' = lastApplied r ∧ (state r' = state r ∨ state r' = Follower) ∧
    (commitIndex r' = commitIndex r ∨ (commitIndex r < aa_LeaderCommit args)%Z) ∧
    (ar_Success reply = true ↔ (currentTerm r ≤ aa_Term args)%Z ∧ prev_matches args (log r)) ∧
    (ar_Success reply = true →
       take (Z.to_nat (aa_PrevLogIndex args)) (log r') = take (Z.to_nat (aa_PrevLogIndex args)) (log r) ∧
       ∀ i e, aa_Entries args !! i = Some e →
         ∃ e', log r' !! (Z.to_nat (aa_PrevLogIndex args) + i) = Some e' ∧ Term e' = Term e).
Proof.
  intros Hl Ha. destruct (decide (aa_Term args < currentTerm r)%Z) as [Hst|Hge].
  { rewrite AppendEntries_stale by done. do 2 eexists. split; [reflexivity|].
    split_and!; simpl; try done; try lia; auto. }
  assert (currentTerm r ≤ aa_Term args)%Z as Ht by lia. rewrite AppendEntries_run by done.
  destruct (ae_start_facts args now r Ht) as (Hlog & Hterm & Hcfg & Hcom & Hnext & Happ & Hst).
  destruct (check_prev_ok args (log r) Ha Hl) as [(Hpm & -> & Hlen)|(Hpm & n & ->)].
  - destruct Ha as [Hp0 Hidx].
    destruct (append_loop_ok (aa_Entries args) (log r) (Z.to_nat (aa_PrevLogIndex args)) Hl) as
      (l' & -> & Hl' & Htk & _ & Hent); [lia|intros i e Hi; rewrite (Hidx _ _ Hi); lia|].
    destruct (advance_commit_log (aa_LeaderCommit args) (set_log l' (ae_start args now r))) as
      (H1 & H2 & H3 & H4 & H5 & H6 & H7).
    do 2 eexists. split; [reflexivity|]. rewrite H1, H2, H3, H4, H5, H6. cbn [set_log log currentTerm config state nextIndex lastApplied ar_Success].
    split_and!; try congruence; try lia; try done.
    cbn [set_log commitIndex] in H7. by rewrite Hcom in H7.
  - do 2 eexists. split; [reflexivity|]. simpl in *.
    split_and!; try congruence; try lia; try done; try (by apply log_ok_take); try (by left).
    by split; [|intros [_ ?]].
Qed.

(** ** RequestVote *)

(** The state in which [RequestVote] decides on the vote. *)
Definition rv_start (args : RequestVoteArgs) r : Raft Cmd :=
  if bool_decide (currentTerm r < va_Term args)%Z then step_down (va_Term args) r else r.

Definition up_to_date (args : RequestVoteArgs) r : Prop :=
  (getLastLogTerm r < va_LastLogTerm args)%Z ∨
  (va_LastLogTerm args = getLastLogTerm r ∧ getLastLogIndex r ≤ va_LastLogIndex args)%Z.

Lemma RequestVote_run args now r :
  RequestVote args now r =
    if bool_decide (va_Term args < currentTerm r)%Z then (Ok (mkVoteReply (currentTerm r) false), r)
    else
      let r1 := rv_start args r in
      if bool_decide (votedFor r1 = "" ∨ votedFor r1 = va_CandidateID args)
         && bool_decide (up_to_date args r1)
      then (Ok (mkVoteReply (currentTerm r) true), set_heartbeat now (set_vote (va_CandidateID args) r1))
      else (Ok (mkVoteReply (currentTerm r) false), r1).
Proof.
  unfold RequestVote, rv_start, up_to_date. mrun. case_bool_decide; [done|].
  case_bool_decide; cbn; repeat case_bool_decide; done.
Qed.

Lemma RequestVote_ok args now r :
  ∃ g r', RequestVote args now r = (Ok (mkVoteReply (currentTerm r) g), r') ∧
    log r' = log r ∧ config r' = config r ∧ (currentTerm r ≤ currentTerm r')%Z ∧
    commitIndex r' = commitIndex r ∧ lastApplied r' = lastApplied r ∧ nextIndex r' = nextIndex r ∧
    (state r' = state r ∨ state r' = Follower) ∧
    (currentTerm r' = currentTerm r → votedFor r ≠ "" → votedFor r' = votedFor r) ∧
    (g = true → currentTerm r' = va_Term args ∧ votedFor r' = va_CandidateID args ∧ up_to_date args r ∧
       (currentTerm r = va_Term args → votedFor r = "" ∨ votedFor r = va_CandidateID args)).
Proof.
  rewrite RequestVote_run. case_bool_decide as Hlt.
  { do 2 eexists. split; [reflexivity|]. split_and!; auto; lia || done. }
  assert (rv_start args r = if decide (currentTerm r < va_Term args)%Z then step_down (va_Term args) r else r) as ->.
  { unfold rv_start. by case_bool_decide; case_decide. }
  cbv zeta. case_decide as Hgt; simpl.
  - case_bool_decide as Hu; do 2 eexists;
      (split; [reflexivity|]); simpl; split_and!; auto; try lia; intros; try lia; try done.
    split_and!; done || lia.
  - destruct (bool_decide _ && bool_decide _) eqn:E; do 2 eexists; (split; [reflexivity|]); simpl;
      split_and!; auto; try lia; try done.
    + apply andb_true_iff in E as [E1%bool_decide_eq_true _]. intros _ Hv. destruct E1; congruence.
    + apply andb_true_iff in E as [E1%bool_decide_eq_true E2%bool_decide_eq_true].
      intros _. split_and!; done || lia.
Qed.
End handlers.

(** ** The properties of a node *)


Definition example_config : Config := DefaultConfig "a" ["b"; "c"].
Definition example_node : Raft nat :=
  set_log [mkEntry 1 1 10 0; mkEntry 1 2 11 0] (New example_config 0).
Definition example_append : AppendEntriesArgs nat :=
  mkAppendArgs 2 "b" 1 1 [mkEntry 2 2 20 0; mkEntry 2 3 21 0] 0.


(** A node answers a sequence of vote requests, each with its time. *)
Fixpoint run_votes {Cmd} (reqs : list (RequestVoteArgs * Z)) (r : Raft Cmd) : list (RequestVoteArgs * bool) :=
  match reqs with
  | [] => []
  | (args, now) :: reqs' =>
      match RequestVote args now r with
      | (Ok reply, r') => (args, vr_VoteGranted reply) :: run_votes reqs' r'
      | _ => []
      end
  end.

Lemma run_votes_bound {Cmd} reqs : ∀ (r : Raft Cmd) args,
  Forall (λ q, va_CandidateID q.1 ≠ "") reqs → (args, true) ∈ run_votes reqs r →
  (currentTerm r ≤ va_Term args)%Z ∧
  (va_Term args = currentTerm r → votedFor r ≠ "" → va_CandidateID args = votedFor r).
Proof.
  induction reqs as [|[a now] reqs IH]; intros r args Hne Hin; [by apply not_elem_of_nil in Hin|].
  apply Forall_cons in Hne as [Ha Hne]. cbn [run_votes] in Hin.
  destruct (RequestVote_ok a now r) as (g & r' & Hrun & _ & _ & Hmono & _ & _ & _ & _ & Hkeep & Hgr).
  rewrite Hrun in Hin. apply elem_of_cons in Hin as [[= -> Hg]|Hin].
  - destruct (Hgr (eq_sym Hg)) as (Ht & _ & _ & Hv). simpl in *. split; [lia|].
    intros Heq Hvne. destruct (Hv (eq_sym Heq)); congruence.
  - destruct (IH r' args Hne Hin) as [H1 H2]. split; [lia|]. intros Heq Hvne.
    assert (currentTerm r' = currentTerm r) as Hct by lia. rewrite <- (Hkeep Hct Hvne).
    apply H2; [lia|]. by rewrite Hkeep.
Qed.

(** A node that receives only vote requests votes at most once in a term: two
    requests with the same term that are both granted name the same candidate. *)
Theorem votes_once_per_term {Cmd} (r : Raft Cmd) reqs i j a1 a2 :
  Forall (λ q, va_CandidateID q.1 ≠ "") reqs →
  run_votes reqs r !! i = Some (a1, true) → run_votes reqs r !! j = Some (a2, true) →
  va_Term a1 = va_Term a2 → va_CandidateID a1 = va_CandidateID a2.
Proof.
  revert r i j. induction reqs as [|[a now] reqs IH]; intros r i j Hne Hi Hj Ht; [done|].
  apply Forall_cons in Hne as [Ha Hne]. cbn [run_votes] in Hi, Hj.
  destruct (RequestVote_ok a now r) as (g & r' & Hrun & _ & _ & _ & _ & _ & _ & _ & _ & Hgr).
  rewrite Hrun in Hi, Hj. simpl in Ha.
  destruct i as [|i], j as [|j]; simpl in Hi, Hj; simplify_eq; [done| | |by eapply IH].
  - destruct (Hgr eq_refl) as (Hc & Hv & _). apply list_elem_of_lookup_2 in Hj.
    destruct (run_votes_bound reqs r' a2 Hne Hj) as [_ H]. rewrite Hv in H. symmetry. apply H; congruence.
  - destruct (Hgr eq_refl) as (Hc & Hv & _). apply list_elem_of_lookup_2 in Hi.
    destruct (run_votes_bound reqs r' a1 Hne Hi) as [_ H]. rewrite Hv in H. apply H; congruence.
Qed.

Definition example_votes : list (RequestVoteArgs * Z) :=
  [(mkVoteArgs 1 "b" 2 1, 1%Z); (mkVoteArgs 1 "c" 2 1, 2%Z); (mkVoteArgs 1 "b" 2 1, 3%Z)].

Lemma votes_once_per_term_witness :
  run_votes example_votes example_node !! 1 = Some (mkVoteArgs 1 "c" 2 1, false) ∧
  va_CandidateID (mkVoteArgs 1 "b" 2 1) = va_CandidateID (mkVoteArgs 1 "b" 2 1).
Proof.
  split; [reflexivity|].
  apply (votes_once_per_term example_node example_votes 0 2); [|reflexivity..].
  repeat constructor; discriminate.
Defined.

(** With [AppendEntries] in between, a node can vote twice in one term.  A
    candidate, which has voted for itself, that receives an [AppendEntries] of its
    own term forgets its vote, and grants its vote to any other candidate of the
    same term whose log is long enough. *)
Theorem candidate_votes_twice {Cmd} (r : Raft Cmd) (ae : AppendEntriesArgs Cmd) (rv : RequestVoteArgs) now1 now2 :
  state r = Candidate → aa_Term ae = currentTerm r → va_Term rv = currentTerm r →
  log_ok (log r) → args_ok ae → aa_Entries ae = [] → (aa_LeaderCommit ae ≤ commitIndex r)%Z →
  prev_matches ae (log r) → up_to_date rv r →
  ∃ r1 r2, AppendEntries ae now1 r = (Ok (mkAppendReply (currentTerm r) true), r1) ∧
    RequestVote rv now2 r1 = (Ok (mkVoteReply (currentTerm r) true), r2) ∧
    currentTerm r1 = currentTerm r ∧ votedFor r2 = va_CandidateID rv.
Proof.
  intros Hst Hae Hrv Hl Ha Hent Hcom Hpm Hu. rewrite AppendEntries_run by lia.
  destruct (check_prev_ok ae (log r) Ha Hl) as [(_ & -> & _)|(Hn & _)]; [|done].
  rewrite Hent. cbn [append_loop]. unfold advance_commit, ae_start.
  rewrite (bool_decide_eq_true_2 (_ ∨ _)) by auto.
  rewrite bool_decide_eq_false_2 by (simpl; lia). do 2 eexists. split; [reflexivity|].
  rewrite RequestVote_run. simpl. rewrite Hae, Hrv.
  rewrite (bool_decide_eq_false_2 (currentTerm r < currentTerm r)%Z) by lia.
  unfold rv_start. simpl. rewrite ?Hae, ?Hrv.
  rewrite (bool_decide_eq_false_2 (currentTerm r < currentTerm r)%Z) by lia. simpl.
  rewrite bool_decide_eq_true_2 by done. split; [reflexivity|done].
Qed.

Lemma candidate_votes_twice_witness :
  let r := becomeCandidate 1 0 (New (Cmd:=nat) example_config 0) in
  votedFor r = "a" ∧
  ∃ r1 r2, AppendEntries (mkAppendArgs 1 "b" 0 0 [] 0) 2 r = (Ok (mkAppendReply 1 true), r1) ∧
    RequestVote (mkVoteArgs 1 "c" 0 0) 3 r1 = (Ok (mkVoteReply 1 true), r2) ∧
    currentTerm r1 = 1%Z ∧ votedFor r2 = "c".
Proof.
  split; [reflexivity|].
  apply (candidate_votes_twice (becomeCandidate 1 0 (New (Cmd:=nat) example_config 0))
    (mkAppendArgs 1 "b" 0 0 [] 0) (mkVoteArgs 1 "c" 0 0) 2 3); try done.
  - by left.
  - right. done.
Defined.
