(* ===== verification/RaftCluster.v ===== *)
(** * A cluster of Raft nodes ([internal/raft]: raft.go, transport.go)

    The goroutines and messages around the node operations of [Raft]: the ticker,
    the goroutines that [startElection] and [sendHeartbeats] start, the requests in
    flight and the replies on their way back.  Messages may be delayed and
    reordered without bound and may be lost.  A step of the cluster is one locked
    section of the code; [cstep] is executable. *)

From S2P Require Import Prelude Bytes Raft.

(** What is under way.  A ballot is the vote counter of one call of
    [startElection]. *)
Inductive Task (Cmd : Type) :=
| VoteTask (ballot : nat) (from to : string)
| VoteReq (ballot : nat) (from to : string) (args : RequestVoteArgs)
| VoteRep (ballot : nat) (from : string) (reply : RequestVoteReply)
| AppendTask (from to : string)
| AppendReq (from to : string) (args : AppendEntriesArgs Cmd)
| AppendRep (from to : string) (entries : list (LogEntry Cmd)) (reply : AppendEntriesReply).
Arguments VoteTask {Cmd}. Arguments VoteReq {Cmd}. Arguments VoteRep {Cmd}.
Arguments AppendTask {Cmd}. Arguments AppendReq {Cmd}. Arguments AppendRep {Cmd}.

Record Cluster (Cmd : Type) := mkCluster {
  c_nodes : gmap string (Raft Cmd);
  c_ballots : gmap nat Z;
  c_nextBallot : nat;
  c_tasks : list (Task Cmd);
}.
Arguments mkCluster {Cmd}. Arguments c_nodes {Cmd}. Arguments c_ballots {Cmd}.
Arguments c_nextBallot {Cmd}. Arguments c_tasks {Cmd}.

Inductive Label (Cmd : Type) :=
| LTick (node : string) (now jitter : Z)
| LPropose (node : string) (command : Cmd) (now : Z)
| LRun (i : nat) (now : Z)
| LDrop (i : nat).
Arguments LTick {Cmd}. Arguments LPropose {Cmd}. Arguments LRun {Cmd}. Arguments LDrop {Cmd}.

Section cluster.
Context {Cmd : Type}.
Implicit Types (c : Cluster Cmd) (r : Raft Cmd).

Definition set_node (id : string) r c : Cluster Cmd :=
  mkCluster (<[id := r]> (c_nodes c)) (c_ballots c) (c_nextBallot c) (c_tasks c).
Definition add_tasks (ts : list (Task Cmd)) c : Cluster Cmd :=
  mkCluster (c_nodes c) (c_ballots c) (c_nextBallot c) (c_tasks c ++ ts).
Definition remove_task (i : nat) c : Cluster Cmd :=
  mkCluster (c_nodes c) (c_ballots c) (c_nextBallot c) (take i (c_tasks c) ++ drop (S i) (c_tasks c)).
Definition set_ballot (b : nat) (votes : Z) c : Cluster Cmd :=
  mkCluster (c_nodes c) (<[b := votes]> (c_ballots c)) (c_nextBallot c) (c_tasks c).

(** [startElection]: a new counter at one vote and a goroutine for every peer. *)
Definition startElection (id : string) (now : Z) r c : Cluster Cmd :=
  let b := c_nextBallot c in
  add_tasks (VoteTask b id <$> Peers (config r))
    (set_node id (set_heartbeat now r)
      (mkCluster (c_nodes c) (<[b := 1%Z]> (c_ballots c)) (S b) (c_tasks c))).

(** [sendHeartbeats]: a goroutine for every peer. *)
Definition sendHeartbeats (id : string) r c : Cluster Cmd :=
  add_tasks (AppendTask id <$> Peers (config r)) c.

Definition tick (id : string) (now jitter : Z) r c : Cluster Cmd :=
  match state r with
  | Follower => set_node id (tickFollower now jitter r) c
  | Candidate => startElection id now r c
  | Leader => sendHeartbeats id r c
  end.

(** One task makes its next step: a goroutine reads the node's state and sends, a
    request is handled at its receiver, a reply is handled at its sender. *)
Definition run_task (t : Task Cmd) (now : Z) c : outcome (Cluster Cmd) :=
  match t with
  | VoteTask b from to =>
      match c_nodes c !! from with
      | Some r => Ok (add_tasks [VoteReq b from to (requestVoteArgs r)] c)
      | None => Ok c
      end
  | VoteReq b from to args =>
      match c_nodes c !! to with
      | Some r =>
          match RequestVote args now r with
          | (Ok reply, r') => Ok (add_tasks [VoteRep b from reply] (set_node to r' c))
          | _ => Panic
          end
      | None => Ok c
      end
  | VoteRep b from reply =>
      match c_nodes c !! from, c_ballots c !! b with
      | Some r, Some votes =>
          if vr_VoteGranted reply then
            let '(votes, r') := count_vote votes r in Ok (set_ballot b votes (set_node from r' c))
          else Ok c
      | _, _ => Ok c
      end
  | AppendTask from to =>
      match c_nodes c !! from with
      | Some r => args ← appendArgs to r; Ok (add_tasks [AppendReq from to args] c)
      | None => Ok c
      end
  | AppendReq from to args =>
      match c_nodes c !! to with
      | Some r =>
          match AppendEntries args now r with
          | (Ok reply, r') => Ok (add_tasks [AppendRep from to (aa_Entries args) reply] (set_node to r' c))
          | _ => Panic
          end
      | None => Ok c
      end
  | AppendRep from to entries reply =>
      match c_nodes c !! from with
      | Some r => Ok (set_node from (handleAppendReply to entries reply r) c)
      | None => Ok c
      end
  end.

Definition cstep (l : Label Cmd) c : outcome (Cluster Cmd) :=
  match l with
  | LTick id now jitter =>
      match c_nodes c !! id with Some r => Ok (tick id now jitter r c) | None => Ok c end
  | LPropose id command now =>
      match c_nodes c !! id with
      | Some r =>
          match Propose command now r with
          | (Ok _, r') => Ok (sendHeartbeats id r' (set_node id r' c))
          | (_, r') => Ok c
          end
      | None => Ok c
      end
  | LRun i now =>
      match c_tasks c !! i with Some t => run_task t now (remove_task i c) | None => Ok c end
  | LDrop i => Ok (remove_task i c)
  end.

Fixpoint crun (ls : list (Label Cmd)) c : outcome (Cluster Cmd) :=
  match ls with [] => Ok c | l :: ls' => c' ← cstep l c; crun ls' c' end.

(** Freshly started nodes with the given configurations. *)
Definition cluster_of (cfgs : list Config) (now : Z) : Cluster Cmd :=
  mkCluster (list_to_map ((λ cfg, (NodeID cfg, New cfg now)) <$> cfgs)) ∅ 0 [].

Inductive reachable (cfgs : list Config) (now : Z) : Cluster Cmd → Prop :=
| reach_start : reachable cfgs now (cluster_of cfgs now)
| reach_step c l c' : reachable cfgs now c → cstep l c = Ok c' → reachable cfgs now c'.

(** ** The invariant *)

Record node_ok r : Prop := {
  no_log : log_ok (log r);
  no_commit : commitIndex r = 0%Z;
  no_applied : lastApplied r = 0%Z;
  no_next peer next : nextIndex r !! peer = Some next → (1 ≤ next)%Z;
  no_peers peer : peer ∈ Peers (config r) → is_Some (nextIndex r !! peer);
  no_leader : state r = Leader → Peers (config r) ≠ [];
}.

(** Goroutines are started for peers only, so their node has some. *)
Definition has_peer c (from to : string) : Prop :=
  ∀ r, c_nodes c !! from = Some r → to ∈ Peers (config r).
Definition has_peers c (from : string) : Prop :=
  ∀ r, c_nodes c !! from = Some r → Peers (config r) ≠ [].

Definition task_ok c (t : Task Cmd) : Prop :=
  match t with
  | VoteTask _ from _ | VoteReq _ from _ _ | VoteRep _ from _ => has_peers c from
  | AppendTask from to => has_peer c from to
  | AppendReq from to args => args_ok args ∧ aa_LeaderCommit args = 0%Z
  | AppendRep from to entries _ => ∀ e, e ∈ entries → (1 ≤ Index e)%Z
  end.

Record cluster_ok c : Prop := {
  co_node id r : c_nodes c !! id = Some r → node_ok r;
  co_task t : t ∈ c_tasks c → task_ok c t;
}.

(** What a locked section may do to its node. *)
Record node_step r r' : Prop := {
  ns_ok : node_ok r';
  ns_config : config r' = config r;
  ns_term : (currentTerm r ≤ currentTerm r')%Z;
}.

Lemma node_step_refl r : node_ok r → node_step r r.
Proof. by split. Qed.

Lemma lookup_set_all peers v (m : gmap string Z) p :
  set_all peers v m !! p = if decide (p ∈ peers) then Some v else m !! p.
Proof.
  unfold set_all. revert m. induction peers as [|q peers IH]; intros m; [done|].
  cbn [foldl]. rewrite IH.
  destruct (decide (p = q)) as [->|Hne].
  - rewrite lookup_insert_eq, (decide_True (P := q ∈ q :: peers)) by set_solver. by case_decide.
  - rewrite lookup_insert_ne by done. destruct (decide (p ∈ peers)).
    + by rewrite decide_True by (by right).
    + by rewrite decide_False by (by intros [?|?]%elem_of_cons).
Qed.

Lemma raft_New_ok cfg now : node_ok (New cfg now : Raft Cmd).
Proof.
  split; try done.
  - intros peer next. cbn [New nextIndex]. rewrite lookup_set_all. by case_decide; intros [= <-].
  - intros peer Hp. cbn [New nextIndex config]. rewrite lookup_set_all, decide_True by done. eauto.
Qed.

Lemma tickFollower_ok now jitter r : state r = Follower → node_ok r → node_step r (tickFollower now jitter r).
Proof.
  intros Hst Hr. unfold tickFollower. case_bool_decide; [|by apply node_step_refl].
  destruct Hr. split; [by split|done|simpl; lia].
Qed.

Lemma set_heartbeat_ok now r : node_ok r → node_step r (set_heartbeat now r).
Proof. intros []. split; [by split|done|simpl; lia]. Qed.

Lemma count_vote_ok votes r : Peers (config r) ≠ [] → node_ok r → node_step r (count_vote votes r).2.
Proof.
  intros Hp Hr. unfold count_vote. destruct (_ && _); [|by apply node_step_refl].
  pose proof (log_ok_last r (no_log _ Hr)) as Hlast. destruct Hr.
  split; [split; try done; cbn [becomeLeader nextIndex config snd] |done|simpl; lia]; intros peer.
  - intros next. rewrite lookup_set_all. case_decide; [|eauto]. intros [= <-]. lia.
  - intros Hin. rewrite lookup_set_all, decide_True by done. eauto.
Qed.

Lemma appendArgs_ok peer r :
  node_ok r → peer ∈ Peers (config r) →
  ∃ args, appendArgs peer r = Ok args ∧ args_ok args ∧ aa_LeaderCommit args = 0%Z.
Proof.
  intros Hr Hp. destruct (no_peers _ Hr peer Hp) as [next Hn]. pose proof (no_next _ Hr _ _ Hn) as H1.
  unfold appendArgs. rewrite Hn. cbn [default]. unfold default, id. set (len := Z.of_nat (length (log r))).
  assert (∃ t, (if bool_decide (0 < next - 1 ∧ next - 1 ≤ len)%Z
     then e ← go_index (log r) (Z.to_nat (next - 1 - 1)); Ok (Term e) else Ok 0%Z) = Ok t) as [t Ht].
  { case_bool_decide as H; [|eauto].
    destruct (lookup_lt_is_Some_2 (log r) (Z.to_nat (next - 1 - 1))) as [e He]; [lia|].
    rewrite (go_index_ok _ _ _ He). eexists. reflexivity. }
  rewrite Ht. osteps. subst len. destruct (decide (next ≤ Z.of_nat (length (log r)))%Z).
  - rewrite (bool_decide_eq_true_2 (next ≤ _)%Z), (bool_decide_eq_false_2 (next < 1)%Z), slice_from_ok by lia. osteps. eexists. split; [reflexivity|].
    split; [|by apply no_commit]. split; cbn; [lia|]. intros i e. rewrite lookup_drop. intros He.
    rewrite (no_log _ Hr _ _ He). lia.
  - rewrite (bool_decide_eq_false_2 (next ≤ _)%Z) by lia.
    osteps. eexists. split; [reflexivity|]. split; [|by apply no_commit]. split; cbn; [lia|]. done.
Qed.

Lemma handleAppendReply_ok peer (entries : list (LogEntry Cmd)) reply r :
  (∀ e, e ∈ entries → 1 ≤ Index e)%Z → node_ok r → node_step r (handleAppendReply peer entries reply r).
Proof.
  intros He Hr. pose proof Hr as []. unfold handleAppendReply.
  assert (∀ next m, (1 ≤ next)%Z → node_step r (set_next peer next m r)) as Hset.
  { intros next m H1. split; [split; try done|done|simpl; lia]; cbn [set_next nextIndex config]; intros p.
    - intros n. rewrite lookup_insert. case_decide; [intros [= <-]; lia|eauto].
    - intros Hin. rewrite lookup_insert. case_decide; eauto. }
  case_bool_decide; [split; [by split|done|simpl; lia]|]. destruct (ar_Success reply).
  - destruct (last entries) as [e|] eqn:E; [|by apply node_step_refl]. apply Hset.
    apply last_Some_elem_of in E. apply He in E. lia.
  - case_bool_decide; [apply Hset; lia|by apply node_step_refl].
Qed.

Lemma RequestVote_step args now r :
  node_ok r → ∃ reply r', RequestVote args now r = (Ok reply, r') ∧ node_step r r'.
Proof.
  intros []. destruct (RequestVote_ok args now r) as (g & r' & Hrun & Hlog & Hcfg & Ht & Hc & Ha & Hn & Hst & _).
  do 2 eexists. split; [exact Hrun|]. split; [|done|done]. split; try congruence.
  all: rewrite ?Hlog, ?Hn, ?Hcfg; try done.
  destruct Hst as [->| ->]; done.
Qed.

Lemma AppendEntries_step args now r :
  node_ok r → args_ok args → aa_LeaderCommit args = 0%Z →
  ∃ reply r', AppendEntries args now r = (Ok reply, r') ∧ node_step r r'.
Proof.
  intros [] Ha Hlc.
  destruct (AppendEntries_ok args now r) as (reply & r' & Hrun & Hlog & Ht & Hcfg & Hn & Hap & Hst & Hc & _); try done.
  do 2 eexists. split; [exact Hrun|]. split; [|done|done]. split; try done; try congruence.
  all: rewrite ?Hn, ?Hcfg; try done.
  - destruct Hc as [->|Hc]; [done|]. lia.
  - destruct Hst as [->| ->]; done.
Qed.

Lemma Propose_step command now r :
  node_ok r → (Propose command now r = (Err "not leader", r) ∧ state r ≠ Leader) ∨
  ∃ r', Propose command now r = (Ok (), r') ∧ node_step r r'.
Proof.
  intros Hr. unfold Propose. mrun. case_bool_decide as Hst; [by left|]. right. eexists. split; [reflexivity|].
  pose proof (log_ok_last r (no_log _ Hr)) as Hlast. destruct Hr.
  split; [split; try done|done|simpl; lia]. apply log_ok_snoc; [done|]. cbn [Index]. by rewrite Hlast.
Qed.

(** ** Steps of the cluster *)

Definition configs c : gmap string Config := config <$> c_nodes c.

(** Every node is still there and its term did not go down. *)
Definition terms_le c c' : Prop :=
  ∀ id r, c_nodes c !! id = Some r → ∃ r', c_nodes c' !! id = Some r' ∧ (currentTerm r ≤ currentTerm r')%Z.

Definition good_step c c' : Prop := cluster_ok c' ∧ configs c' = configs c ∧ terms_le c c'.

Lemma task_ok_configs c c' t : configs c' = configs c → task_ok c t → task_ok c' t.
Proof.
  intros Hc. assert (∀ id r', c_nodes c' !! id = Some r' → ∃ r, c_nodes c !! id = Some r ∧ config r = config r') as Hcfg.
  { intros id r' Hr'. apply (f_equal (lookup id)) in Hc. unfold configs in Hc. rewrite !lookup_fmap, Hr' in Hc.
    destruct (c_nodes c !! id) as [r|]; [|done]. injection Hc as Hc. eauto. }
  destruct t; simpl; unfold has_peer, has_peers; try done; intros H r' Hr';
    destruct (Hcfg _ _ Hr') as (r & Hr & <-); eauto.
Qed.

Lemma good_refl c : cluster_ok c → good_step c c.
Proof. intros. split_and!; [done..|]. intros id r Hr. eauto with lia. Qed.
Lemma good_trans c1 c2 c3 : good_step c1 c2 → good_step c2 c3 → good_step c1 c3.
Proof.
  intros (_ & E1 & T1) (H & E2 & T2). split; [done|]. split; [congruence|]. intros id r Hr.
  destruct (T1 _ _ Hr) as (r' & Hr' & ?). destruct (T2 _ _ Hr') as (r'' & -> & ?). eexists. split; [done|lia].
Qed.

Lemma good_tasks ns b b' n n' ts ts' :
  cluster_ok (mkCluster ns b n ts) → (∀ t, t ∈ ts' → t ∈ ts ∨ task_ok (mkCluster ns b n ts) t) →
  good_step (mkCluster ns b n ts) (mkCluster ns b' n' ts').
Proof.
  intros [Hn Ht] Hsub. split; [|split; [done|intros id r Hr; eauto with lia]]. split; [done|].
  intros t Hin. apply (task_ok_configs (mkCluster ns b n ts)); [done|]. destruct (Hsub t Hin); eauto.
Qed.

Lemma good_set_node id r r' c :
  cluster_ok c → c_nodes c !! id = Some r → node_step r r' → good_step c (set_node id r' c).
Proof.
  intros [Hn Ht] Hr [Hok Hcfg Hterm].
  assert (configs (set_node id r' c) = configs c) as Hc.
  { unfold configs. cbn. rewrite fmap_insert, Hcfg. apply insert_id. by rewrite lookup_fmap, Hr. }
  split; [|split; [done|]].
  - split; cbn.
    + intros id' r1. rewrite lookup_insert. case_decide; [by intros [= <-]|eauto].
    + intros t Hin. apply (task_ok_configs c); auto.
  - intros id' r1 Hr1. cbn. rewrite lookup_insert. case_decide; [|eauto with lia].
    simplify_eq. eauto.
Qed.

Lemma good_add_tasks ts c : cluster_ok c → (∀ t, t ∈ ts → task_ok c t) → good_step c (add_tasks ts c).
Proof. intros Hc Hts. destruct c. apply good_tasks; [done|]. intros t [?|?]%elem_of_app; auto. Qed.

Lemma remove_task_sub i c t : t ∈ c_tasks (remove_task i c) → t ∈ c_tasks c.
Proof.
  cbn. rewrite elem_of_app. intros [H|H].
  - apply list_elem_of_lookup in H as [j Hj]. apply lookup_take_Some in Hj as [Hj _]. by apply list_elem_of_lookup_2 in Hj.
  - apply list_elem_of_lookup in H as [j Hj]. rewrite lookup_drop in Hj. by apply list_elem_of_lookup_2 in Hj.
Qed.
Lemma good_remove_task i c : cluster_ok c → good_step c (remove_task i c).
Proof. intros Hc. destruct c. apply good_tasks; [done|]. intros t Ht. left. by apply (remove_task_sub i) in Ht. Qed.

Lemma startElection_good id now r c :
  cluster_ok c → c_nodes c !! id = Some r → good_step c (startElection id now r c).
Proof.
  intros Hc Hr. unfold startElection. destruct c as [ns b n ts].
  set (c0 := mkCluster ns (<[n:=1%Z]> b) (S n) ts). simpl in Hr.
  assert (good_step (mkCluster ns b n ts) c0) as H0 by (apply good_tasks; auto).
  assert (good_step c0 (set_node id (set_heartbeat now r) c0)) as H1.
  { apply good_set_node with r; [by destruct H0|done|]. apply set_heartbeat_ok. by apply (co_node _ Hc id). }
  eapply good_trans; [exact H0|]. eapply good_trans; [exact H1|].
  apply good_add_tasks; [by destruct H1|]. intros t (p & -> & Hp)%list_elem_of_fmap. simpl.
  intros r'. cbn. rewrite lookup_insert_eq. intros [= <-]. cbn. by destruct (Peers (config r)); [set_solver|].
Qed.

Lemma sendHeartbeats_good id r c :
  cluster_ok c → c_nodes c !! id = Some r → good_step c (sendHeartbeats id r c).
Proof.
  intros Hc Hr. apply good_add_tasks; [done|]. intros t (p & -> & Hp)%list_elem_of_fmap. simpl.
  intros r' Hr'. by simplify_eq.
Qed.

Lemma tick_good id now jitter r c :
  cluster_ok c → c_nodes c !! id = Some r → good_step c (tick id now jitter r c).
Proof.
  intros Hc Hr. unfold tick. destruct (state r) eqn:Hst.
  - apply good_set_node with r; [done..|]. apply tickFollower_ok; [done|]. by apply (co_node _ Hc id).
  - by apply startElection_good.
  - by apply sendHeartbeats_good.
Qed.

(** Every step of a task that is under way succeeds. *)
Lemma run_task_good t now c :
  cluster_ok c → task_ok c t → ∃ c', run_task t now c = Ok c' ∧ good_step c c'.
Proof.
  intros Hc Ht. pose proof (co_node _ Hc) as Hnode.
  destruct t as [b from to|b from to args|b from reply|from to|from to args|from to entries reply];
    simpl in *; unfold has_peer, has_peers in Ht.
  - destruct (c_nodes c !! from) as [r|] eqn:Hr; eexists; (split; [reflexivity|]); [|by apply good_refl].
    apply good_add_tasks; [done|]. intros t ->%list_elem_of_singleton. simpl. unfold has_peers. by rewrite Hr.
  - destruct (c_nodes c !! to) as [r|] eqn:Hr; [|eauto using good_refl].
    destruct (RequestVote_step args now r (Hnode _ _ Hr)) as (reply & r' & -> & Hs).
    eexists. split; [reflexivity|].
    assert (good_step c (set_node to r' c)) as Hg by (by apply good_set_node with r).
    eapply good_trans; [exact Hg|]. apply good_add_tasks; [by destruct Hg|].
    intros t ->%list_elem_of_singleton. apply (task_ok_configs c _ (VoteReq b from to args)); [by destruct Hg as (_ & ? & _)|done].
  - destruct (c_nodes c !! from) as [r|] eqn:Hr; [|eauto using good_refl].
    destruct (c_ballots c !! b) as [votes|]; [|eauto using good_refl].
    destruct (vr_VoteGranted reply); [|eauto using good_refl].
    pose proof (count_vote_ok votes r (Ht _ eq_refl) (Hnode _ _ Hr)) as Hs.
    destruct (count_vote votes r) as [v' r']. eexists. split; [reflexivity|].
    assert (good_step c (set_node from r' c)) as Hg by (by apply good_set_node with r).
    eapply good_trans; [exact Hg|]. apply good_tasks; [by destruct Hg|auto].
  - destruct (c_nodes c !! from) as [r|] eqn:Hr; [|eauto using good_refl].
    destruct (appendArgs_ok to r (Hnode _ _ Hr) (Ht _ eq_refl)) as (args & -> & Ha & Hlc).
    eexists. split; [reflexivity|]. apply good_add_tasks; [done|]. by intros t ->%list_elem_of_singleton.
  - destruct (c_nodes c !! to) as [r|] eqn:Hr; [|eauto using good_refl]. destruct Ht as [Ha Hlc].
    destruct (AppendEntries_step args now r (Hnode _ _ Hr) Ha Hlc) as (reply & r' & -> & Hs).
    eexists. split; [reflexivity|].
    assert (good_step c (set_node to r' c)) as Hg by (by apply good_set_node with r).
    eapply good_trans; [exact Hg|]. apply good_add_tasks; [by destruct Hg|].
    intros t ->%list_elem_of_singleton e (i & He)%list_elem_of_lookup.
    destruct Ha as [? Hi]. rewrite (Hi _ _ He). lia.
  - destruct (c_nodes c !! from) as [r|] eqn:Hr; [|eauto using good_refl]. eexists. split; [reflexivity|].
    apply good_set_node with r; [done..|]. apply handleAppendReply_ok; eauto.
Qed.

Lemma cstep_good l c : cluster_ok c → ∃ c', cstep l c = Ok c' ∧ good_step c c'.
Proof.
  intros Hc. destruct l as [id now jitter|id command now|i now|i]; simpl.
  - destruct (c_nodes c !! id) as [r|] eqn:Hr; eauto using good_refl, tick_good.
  - destruct (c_nodes c !! id) as [r|] eqn:Hr; [|eauto using good_refl].
    destruct (Propose_step command now r (co_node _ Hc _ _ Hr)) as [[-> _]|(r' & -> & Hs)]; [eauto using good_refl|].
    eexists. split; [reflexivity|].
    assert (good_step c (set_node id r' c)) as Hg by (by apply good_set_node with r).
    eapply good_trans; [exact Hg|]. apply sendHeartbeats_good; [by destruct Hg|]. apply lookup_insert_eq.
  - destruct (c_tasks c !! i) as [t|] eqn:Hi; [|eauto using good_refl].
    pose proof (good_remove_task i c Hc) as Hg.
    destruct (run_task_good t now (remove_task i c)) as (c' & Hrun & Hg').
    + by destruct Hg.
    + apply (task_ok_configs c); [done|]. apply (co_task _ Hc). by apply list_elem_of_lookup_2 in Hi.
    + exists c'. split; [exact Hrun|]. by apply good_trans with (remove_task i c).
  - eauto using good_remove_task.
Qed.

Lemma cluster_of_ok cfgs now : cluster_ok (cluster_of cfgs now).
Proof.
  split; [|by intros t Ht%not_elem_of_nil]. intros id r. cbn. intros Hr%elem_of_list_to_map_2.
  apply list_elem_of_fmap in Hr as (cfg & [= -> ->] & _). apply raft_New_ok.
Qed.

Lemma reachable_ok cfgs now c : reachable cfgs now c → cluster_ok c.
Proof.
  induction 1 as [|c l c' Hc IH Hs]; [apply cluster_of_ok|].
  destruct (cstep_good l c IH) as (c'' & Hs' & [Hg _]).
  rewrite Hs in Hs'. by injection Hs' as <-.
Qed.

Lemma crun_reachable cfgs now ls c c' :
  reachable cfgs now c → crun ls c = Ok c' → reachable cfgs now c'.
Proof.
  revert c. induction ls as [|l ls IH]; intros c Hc; cbn [crun]; [by intros [= <-]|].
  destruct (cstep_good l c (reachable_ok _ _ _ Hc)) as (c1 & Hs & _). rewrite Hs. osteps.
  apply IH. by eapply reach_step.
Qed.

(** ** A split vote *)

(** Every node is a candidate of term [T] with its own vote, and nothing under way
    can change that. *)
Definition split_task (T : Z) (t : Task Cmd) : Prop :=
  match t with
  | VoteTask _ from to => from ≠ to
  | VoteReq _ from to args => from ≠ to ∧ va_CandidateID args = from ∧ (va_Term args ≤ T)%Z
  | VoteRep _ _ reply => vr_VoteGranted reply = false
  | _ => False
  end.
Record split_node (T : Z) (id : string) r : Prop := {
  sn_state : state r = Candidate;
  sn_term : currentTerm r = T;
  sn_id : NodeID (config r) = id;
  sn_vote : votedFor r = id;
  sn_peers : id ∉ Peers (config r);
}.
Record split_vote (T : Z) c : Prop := {
  sv_node id r : c_nodes c !! id = Some r → split_node T id r;
  sv_names : c_nodes c !! "" = None;
  sv_task t : t ∈ c_tasks c → split_task T t;
}.

Lemma split_set_node T id r r' c :
  split_vote T c → c_nodes c !! id = Some r → split_node T id r' → split_vote T (set_node id r' c).
Proof.
  intros [Hn Hna Ht] Hr Hs. split; cbn; [|rewrite lookup_insert_ne; [done|congruence]|done].
  intros id' r1. rewrite lookup_insert. case_decide; [intros [= <-]; by subst|eauto].
Qed.

Lemma split_add_tasks T ts c : split_vote T c → (∀ t, t ∈ ts → split_task T t) → split_vote T (add_tasks ts c).
Proof. intros [] Hts. split; [done..|]. intros t [?|?]%elem_of_app; auto. Qed.

(** A candidate of the same term does not vote for another one. *)
Lemma split_refuses T id r args now :
  split_node T id r → id ≠ "" → va_CandidateID args ≠ id → (va_Term args ≤ T)%Z →
  ∃ t, RequestVote args now r = (Ok (mkVoteReply t false), r).
Proof.
  intros [] Hne Hc Ht. rewrite RequestVote_run. case_bool_decide; [eauto|].
  assert (rv_start args r = r) as -> by (unfold rv_start; by rewrite bool_decide_eq_false_2 by lia).
  cbv zeta. rewrite (bool_decide_eq_false_2 (_ ∨ _)) by (intros [?|?]; congruence). cbn [andb]. eauto.
Qed.

Lemma split_run_task T t now c :
  split_vote T c → split_task T t → ∃ c', run_task t now c = Ok c' ∧ split_vote T c'.
Proof.
  intros Hc Ht. pose proof (sv_node _ _ Hc) as Hn.
  destruct t as [b from to|b from to args|b from reply|from to|from to args|from to entries reply];
    simpl in *; try done.
  - destruct (c_nodes c !! from) as [r|] eqn:Hr; [|eauto]. eexists. split; [reflexivity|].
    apply split_add_tasks; [done|]. intros t ->%list_elem_of_singleton. destruct (Hn _ _ Hr).
    simpl. split_and!; [done..|lia].
  - destruct (c_nodes c !! to) as [r|] eqn:Hr; [|eauto]. destruct Ht as (Hne & Hid & Ht).
    destruct (split_refuses T to r args now) as [t Hrun]; [by apply Hn| |congruence|done|].
    + intros ->. pose proof (sv_names _ _ Hc). congruence.
    + rewrite Hrun. eexists. split; [reflexivity|]. apply split_add_tasks.
      * apply split_set_node with r; auto.
      * by intros ? ->%list_elem_of_singleton.
  - destruct (c_nodes c !! from); [|eauto]. destruct (c_ballots c !! b); [|eauto]. rewrite Ht. eauto.
Qed.

Lemma split_cstep T l c : split_vote T c → ∃ c', cstep l c = Ok c' ∧ split_vote T c'.
Proof.
  intros Hc. pose proof (sv_node _ _ Hc) as Hn.
  assert (∀ i, split_vote T (remove_task i c)) as Hrem.
  { intros i. split; [apply Hc..|]. intros t Ht%remove_task_sub. by apply Hc. }
  destruct l as [id now jitter|id command now|i now|i]; simpl; [| | |eauto].
  - destruct (c_nodes c !! id) as [r|] eqn:Hr; [|eauto]. eexists. split; [reflexivity|].
    destruct (Hn _ _ Hr) as []. unfold tick. rewrite sn_state0. unfold startElection.
    set (c0 := mkCluster _ _ _ _). assert (split_vote T c0) as H0 by (split; apply Hc).
    apply split_add_tasks; [apply split_set_node with r; [done..|by split]|].
    intros t (p & -> & Hp)%list_elem_of_fmap. simpl. intros ->. done.
  - destruct (c_nodes c !! id) as [r|] eqn:Hr; [|eauto]. destruct (Hn _ _ Hr) as [].
    unfold Propose. mrun. rewrite bool_decide_eq_true_2 by congruence. eauto.
  - destruct (c_tasks c !! i) as [t|] eqn:Hi; [|eauto]. apply split_run_task; [done|].
    apply Hc. by apply list_elem_of_lookup_2 in Hi.
Qed.
End cluster.

(** ** The properties of the cluster *)

(** C7: from freshly started nodes, whatever the order and the delays of ticks,
    proposals, requests and replies and whatever is lost, no step panics, the term
    of no node decreases, every log has the index of an entry as its position, and
    [nextIndex] is positive. *)
Theorem cluster_steps_succeed {Cmd} cfgs now (c : Cluster Cmd) l :
  reachable cfgs now c →
  (∃ c', cstep l c = Ok c' ∧ terms_le c c') ∧
  ∀ id r, c_nodes c !! id = Some r →
    log_ok (log r) ∧ ∀ peer next, nextIndex r !! peer = Some next → (1 ≤ next)%Z.
Proof.
  intros Hc%reachable_ok. split.
  - destruct (cstep_good l c Hc) as (c' & ? & _ & _ & ?). eauto.
  - intros id r Hr. destruct (co_node _ Hc _ _ Hr). eauto.
Qed.

(** No cluster ever commits an entry: [commitIndex] and [lastApplied] stay zero
    on every node, whatever is proposed and replicated.  And a node without peers
    never becomes the leader, so it refuses every proposal. *)
Theorem nothing_is_committed {Cmd} cfgs now (c : Cluster Cmd) id r :
  reachable cfgs now c → c_nodes c !! id = Some r →
  commitIndex r = 0%Z ∧ lastApplied r = 0%Z ∧
  (Peers (config r) = [] → ∀ command t, Propose command t r = (Err "not leader", r)).
Proof.
  intros Hc%reachable_ok Hr. destruct (co_node _ Hc _ _ Hr). split_and!; [done..|].
  intros Hp command t. unfold Propose. mrun. rewrite bool_decide_eq_true_2; [done|].
  intros Hl. by apply no_leader0 in Hl.
Qed.

(** A split vote is permanent.  When every node is a candidate of the same term
    and nothing under way can change a vote, no sequence of steps ever elects a
    leader or starts a new term: candidates repeat the election of their term and
    never time out. *)
Theorem split_vote_is_permanent {Cmd} (T : Z) (c : Cluster Cmd) ls :
  split_vote T c →
  ∃ c', crun ls c = Ok c' ∧
    ∀ id r, c_nodes c' !! id = Some r → state r = Candidate ∧ currentTerm r = T.
Proof.
  revert c. induction ls as [|l ls IH]; intros c Hc; cbn [crun].
  - exists c. split; [done|]. intros id r Hr. by destruct (sv_node _ _ Hc _ _ Hr).
  - destruct (split_cstep T l c Hc) as (c1 & -> & Hc1). osteps. by apply IH.
Qed.

Definition three_nodes : list Config :=
  [DefaultConfig "a" ["b"; "c"]; DefaultConfig "b" ["a"; "c"]; DefaultConfig "c" ["a"; "b"]].
Definition start3 : Cluster nat := cluster_of three_nodes 0.
Definition late : Z := 1000 * millisecond.

(** An election of [a], a proposal and its replication to [b]. *)
Definition example_run : list (Label nat) :=
  [LTick "a" late 0; LTick "a" late 0; LRun 0 late; LRun 1 late; LRun 1 late;
   LPropose "a" 7 late; LRun 1 late; LRun 2 late; LRun 2 late].
Definition after (ls : list (Label nat)) : Cluster nat :=
  match crun ls start3 with Ok c => c | _ => start3 end.
Definition node_of (id : string) (c : Cluster nat) : Raft nat :=
  default (New (DefaultConfig "" []) 0) (c_nodes c !! id).

Example example_run_replicates :
  ((λ r, (state r, Index <$> log r, matchIndex r !! "b")) <$> [node_of "a" (after example_run); node_of "b" (after example_run)])
  = [(Leader, [1%Z], Some 1%Z); (Follower, [1%Z], None)].
Proof. vm_compute. reflexivity. Qed.

Lemma after_reachable ls : reachable three_nodes 0 (after ls).
Proof.
  unfold after. pose proof (crun_reachable three_nodes 0 ls start3) as H.
  destruct (crun ls start3) as [c| | |]; [apply H; [constructor|done]|constructor..].
Qed.

Lemma cluster_steps_succeed_witness :
  let c := after example_run in
  (∃ c', cstep (LTick "a" late 0) c = Ok c' ∧ terms_le c c') ∧
  ∀ id r, c_nodes c !! id = Some r →
    log_ok (log r) ∧ ∀ peer next, nextIndex r !! peer = Some next → (1 ≤ next)%Z.
Proof. apply (cluster_steps_succeed three_nodes 0). apply after_reachable. Defined.

Lemma nothing_is_committed_witness :
  let r := node_of "a" (after example_run) in
  length (log r) = 1 ∧ commitIndex r = 0%Z ∧ lastApplied r = 0%Z ∧
  (Peers (config r) = [] → ∀ command t, Propose command t r = (Err "not leader", r)).
Proof.
  split; [vm_compute; reflexivity|].
  apply (nothing_is_committed three_nodes 0 (after example_run) "a"); [apply after_reachable|].
  vm_compute. reflexivity.
Defined.

(** The three nodes time out before they hear of each other. *)
Definition split3 : Cluster nat :=
  after [LTick "a" late 0; LTick "b" late 0; LTick "c" late 0].

Lemma split3_nodes : map_Forall (λ id r, split_node 1 id r) (c_nodes split3).
Proof.
  intros id r Hr. apply elem_of_map_to_list in Hr.
  assert (map_to_list (c_nodes split3) = (λ id, (id, node_of id split3)) <$> ["c"; "a"; "b"]) as E.
  { vm_compute. reflexivity. }
  rewrite E in Hr. apply list_elem_of_fmap in Hr as (i & [= -> ->] & Hi).
  repeat (apply elem_of_cons in Hi as [->|Hi]; [split; first [vm_compute; reflexivity | refine (bool_decide_unpack _ _); vm_compute; exact I]|]).
  by apply not_elem_of_nil in Hi.
Qed.

Lemma split_vote_is_permanent_witness :
  reachable three_nodes 0 split3 ∧
  ∃ c', crun [LTick "a" (2 * late) 3; LTick "b" (2 * late) 5; LRun 0 (2 * late); LRun 3 (2 * late)] split3 = Ok c' ∧
    ∀ id r, c_nodes c' !! id = Some r → state r = Candidate ∧ currentTerm r = 1%Z.
Proof.
  split; [apply after_reachable|]. apply (split_vote_is_permanent 1 split3). split.
  - apply split3_nodes.
  - vm_compute. reflexivity.
  - assert (c_tasks split3 = []) as -> by (vm_compute; reflexivity). by intros t ?%not_elem_of_nil.
Defined.

(** [a] gets [b]'s vote in term 1 but the reply is delayed; [b] starts term 2 and
    [a] and [c] follow; [a] and [c] both start term 3, [c] is elected by [b], and
    then the reply of term 1 reaches [a]. *)
Definition stale_vote_run : list (Label nat) :=
  [LTick "a" late 0; LTick "a" late 0; LRun 0 late; LRun 1 late; LDrop 0;
   LTick "b" (2 * late) 0; LTick "b" (2 * late) 0; LRun 1 (2 * late); LRun 2 (2 * late);
   LRun 1 (2 * late); LRun 2 (2 * late); LDrop 2; LDrop 1;
   LTick "a" (3 * late) 0; LTick "c" (3 * late) 0; LTick "c" (3 * late) 0;
   LRun 2 (3 * late); LRun 2 (3 * late); LRun 2 (3 * late); LRun 0 (3 * late)].

(** Election safety does not hold: there is a run of three nodes, without lost
    state and without a fault, after which two nodes are leaders of the same term.
    A vote granted in an earlier term is counted in a later one. *)
Theorem two_leaders_in_one_term :
  ∃ c : Cluster nat, crun stale_vote_run start3 = Ok c ∧
    ∃ ra rc, c_nodes c !! "a" = Some ra ∧ c_nodes c !! "c" = Some rc ∧
      state ra = Leader ∧ state rc = Leader ∧ currentTerm ra = currentTerm rc.
Proof.
  exists (after stale_vote_run). split; [vm_compute; reflexivity|].
  exists (node_of "a" (after stale_vote_run)), (node_of "c" (after stale_vote_run)).
  split_and!; vm_compute; reflexivity.
Qed.
