(* ===== verification/RaftStorage.v ===== *)
(** * Persistence and quorums ([internal/raft]: wal.go, snapshot.go, compaction.go, consistency.go)

    [Store] is what the write-ahead log and the snapshot manager share: the two files,
    the handle of the log and the faults of the system calls to come.  The text of a
    JSON document is [encoding/json]'s business: the log file is a sequence of
    documents ([Rec]), [Torn] what an interrupted write leaves.  How the dynamic type
    of a command is marshalled is the caller's choice, the parameter [marshal]; a
    command is read back as [of_json] of its document.  A decoder that stops is taken
    to have read the file to its end. *)

From S2P Require Import Prelude Bytes Order Serializer Datum Raft.

Abbreviation Entry := (LogEntry GoVal) (only parsing).

Inductive Rec :=
| RecEntry (term index : Z) (command : JSON) (timestamp : Z)
| Torn.

(** [Snapshot.Data], an [interface{}]: the entries [Create] is given, or a value. *)
Inductive SnapData := DEntries (entries : list Entry) | DValue (v : GoVal).
Record Snapshot := mkSnapshot {
  sn_LastIndex : Z;
  sn_LastTerm : Z;
  sn_Data : SnapData;
  sn_Timestamp : Z;
}.
(** The contents of the snapshot file. *)
Inductive SnapFile := SnapDoc (lastIndex lastTerm : Z) (data : JSON) (timestamp : Z) | SnapTorn.

(** The file of the log, whether its handle is open, the snapshot, what comes of the
    next system calls, and the error that [json.Encoder] keeps. *)
Record Store := mkStore {
  st_wal : option (list Rec);
  st_open : bool;
  st_snap : option SnapFile;
  st_faults : list io_fault;
  st_encoder : option string;
}.

Section store.
Context (marshal : GoVal → outcome JSON).
Implicit Types (s : Store).

Definition fault : M Store io_fault := λ s,
  match st_faults s with
  | [] => (Ok IOok, s)
  | x :: xs => (Ok x, mkStore (st_wal s) (st_open s) (st_snap s) xs (st_encoder s))
  end.
(** A system call without data. *)
Definition sys_call : M Store unit :=
  x ← fault; match x with IOok => mret () | IOfail _ => fail ErrIO end.
(** A system call on the log's handle. *)
Definition file_call : M Store unit :=
  s ← get_state; if st_open s then sys_call else fail "file already closed".

Definition set_wal (w : option (list Rec)) (open : bool) s : Store :=
  mkStore w open (st_snap s) (st_faults s) (st_encoder s).
Definition set_snap (f : option SnapFile) s : Store :=
  mkStore (st_wal s) (st_open s) f (st_faults s) (st_encoder s).
Definition set_encoder (e : option string) s : Store :=
  mkStore (st_wal s) (st_open s) (st_snap s) (st_faults s) e.
Definition wal_recs s : list Rec := default [] (st_wal s).

(** ** wal.go *)

Definition NewWAL : M Store unit :=
  wrap_err "failed to create WAL directory" sys_call;;
  wrap_err "failed to open WAL file" sys_call;;
  modify (λ s, set_encoder None (set_wal (Some (wal_recs s)) true s)).

(** [encoder.Encode(entry)]: nothing is written when the command cannot be
    marshalled; a write that fails in the middle leaves a torn record.  The encoder
    keeps the first error of a write and gives it from then on. *)
Definition Encode (e : Entry) : M Store unit :=
  s ← get_state;
  match st_encoder s with
  | Some err => fail err
  | None =>
      j ← lift (marshal (Command e));
      let broken err := modify (set_encoder (Some err));; fail err in
      if st_open s then
        x ← fault;
        let put r := modify (λ s, set_wal (Some (wal_recs s ++ [r])) (st_open s) s) in
        match x with
        | IOok => put (RecEntry (Term e) (Index e) j (Timestamp e))
        | IOfail 0 => broken ErrIO
        | IOfail _ => put Torn;; broken ErrIO
        end
      else broken "file already closed"
  end.

Definition wal_Append (e : Entry) : M Store unit :=
  wrap_err "failed to write WAL entry" (Encode e);;
  wrap_err "failed to sync WAL" file_call.

(** The decoding loop: it ends at the first document that does not decode. *)
Fixpoint decode_recs (rs : list Rec) : list Entry :=
  match rs with
  | RecEntry t i j ts :: rs' => mkEntry t i (of_json j) ts :: decode_recs rs'
  | _ => []
  end.
(** [for { ...; if err != nil { break } }]: an error of the read ends the loop as
    the end of the file does; [IOfail n] after [n] entries. *)
Definition read_loop : M Store (list Entry) :=
  x ← fault; s ← get_state;
  match x with
  | IOok => mret (decode_recs (wal_recs s))
  | IOfail n => mret (take n (decode_recs (wal_recs s)))
  end.

Definition wal_Read : M Store (list Entry) :=
  wrap_err "failed to seek WAL" file_call;;
  read_loop.

Definition keep_after (index : Z) (es : list Entry) : list Entry :=
  filter (λ e, index < Index e)%Z es.

Definition wal_Truncate (index : Z) : M Store unit :=
  wrap_err "failed to seek WAL" file_call;;
  entries ← read_loop;
  let remaining := keep_after index entries in
  wrap_err "failed to close WAL" file_call;;
  modify (λ s, set_wal (st_wal s) false s);;
  wrap_err "failed to create new WAL" sys_call;;
  modify (λ s, set_encoder None (set_wal (Some []) true s));;
  for_each (λ e, wrap_err "failed to write WAL entry" (Encode e)) remaining;;
  wrap_err "failed to sync WAL" file_call.

Definition wal_Close : M Store unit :=
  file_call;; modify (λ s, set_wal (st_wal s) false s).

(** ** snapshot.go *)

Definition NewSnapshotManager : M Store unit :=
  wrap_err "failed to create snapshot directory" sys_call.

Definition entry_json (e : Entry) : outcome JSON :=
  j ← marshal (Command e);
  Ok (JObj [("term", JNum (float_of_Z (Term e))); ("index", JNum (float_of_Z (Index e)));
            ("command", j); ("timestamp", JNum (float_of_Z (Timestamp e)))]).
Fixpoint entries_json (es : list Entry) : outcome (list JSON) :=
  match es with [] => Ok [] | e :: es' => j ← entry_json e; js ← entries_json es'; Ok (j :: js) end.
Definition data_json (d : SnapData) : outcome JSON :=
  match d with DEntries es => js ← entries_json es; Ok (JArr js) | DValue v => marshal v end.

(** [os.WriteFile] truncates the file before it writes. *)
Definition snap_Create (lastIndex lastTerm : Z) (data : SnapData) (now : Z) : M Store unit :=
  j ← wrap_err "failed to marshal snapshot" (lift (data_json data));
  wrap_err "failed to write snapshot" (
    sys_call;;
    modify (set_snap (Some SnapTorn));;
    sys_call;;
    modify (set_snap (Some (SnapDoc lastIndex lastTerm j now)))).

Definition snap_Load : M Store (option Snapshot) :=
  s ← get_state;
  match st_snap s with
  | None => mret None
  | Some f =>
      wrap_err "failed to read snapshot" sys_call;;
      match f with
      | SnapDoc i t j ts => mret (Some (mkSnapshot i t (DValue (of_json j)) ts))
      | SnapTorn => fail "failed to unmarshal snapshot: unexpected end of JSON input"
      end
  end.

Definition snap_Delete : M Store unit :=
  s ← get_state;
  match st_snap s with
  | None => mret ()
  | Some _ => wrap_err "failed to delete snapshot" sys_call;; modify (set_snap None)
  end.

Definition snap_Exists : M Store bool :=
  s ← get_state;
  x ← fault;
  mret (match st_snap s, x with Some _, IOok => true | _, _ => false end).

(** ** compaction.go *)

Record CompactionManager := mkCM {
  cm_raft : Raft GoVal;
  cm_store : Store;
  cm_threshold : Z;
  cm_lastSnapshotIndex : Z;
}.
Definition NewCompactionManager (r : Raft GoVal) s : CompactionManager := mkCM r s 1000 0.
Definition SetSnapshotThreshold (t : Z) (cm : CompactionManager) : CompactionManager :=
  mkCM (cm_raft cm) (cm_store cm) t (cm_lastSnapshotIndex cm).
Definition ShouldCompact (cm : CompactionManager) : bool :=
  bool_decide (cm_threshold cm ≤ Z.of_nat (length (log (cm_raft cm))))%Z.
Definition GetLastSnapshotIndex (cm : CompactionManager) : Z := cm_lastSnapshotIndex cm.

Definition on_store {A} (m : M Store A) : M CompactionManager A :=
  zoom cm_store (λ s cm, mkCM (cm_raft cm) s (cm_threshold cm) (cm_lastSnapshotIndex cm)) m.
Definition set_raft (r : Raft GoVal) (cm : CompactionManager) : CompactionManager :=
  mkCM r (cm_store cm) (cm_threshold cm) (cm_lastSnapshotIndex cm).
Definition set_last (i : Z) (cm : CompactionManager) : CompactionManager :=
  mkCM (cm_raft cm) (cm_store cm) (cm_threshold cm) i.

(** What stays of the log in memory; [threshold/2] rounds toward zero. *)
Definition compact_log (threshold : Z) (l : list Entry) : outcome (list Entry) :=
  let n := Z.of_nat (length l) in
  if bool_decide (threshold < n)%Z
  then slice_from l (Z.to_nat (n - Z.quot threshold 2))
  else Ok l.

Definition Compact (now : Z) : M CompactionManager unit :=
  cm ← get_state;
  let lastIndex := getLastLogIndex (cm_raft cm) in
  let lastTerm := getLastLogTerm (cm_raft cm) in
  wrap_err "failed to create snapshot"
    (on_store (snap_Create lastIndex lastTerm (DEntries (log (cm_raft cm))) now));;
  wrap_err "failed to truncate WAL" (on_store (wal_Truncate lastIndex));;
  modify (set_last lastIndex);;
  l ← lift (compact_log (cm_threshold cm) (log (cm_raft cm)));
  modify (set_raft (set_log l (cm_raft cm))).

(** [cm.raft.commitIndex = i; cm.raft.lastApplied = i] *)
Definition set_applied (i : Z) (r : Raft GoVal) : Raft GoVal :=
  mkRaft (config r) (currentTerm r) (votedFor r) (log r) (state r) i i (nextIndex r) (matchIndex r)
    (electionTimeout r) (lastHeartbeat r).

Definition RestoreFromSnapshot : M CompactionManager unit :=
  snapshot ← wrap_err "failed to load snapshot" (on_store snap_Load);
  match snapshot with
  | None => mret ()
  | Some sn =>
      modify (λ cm, set_raft (set_applied (sn_LastIndex sn) (cm_raft cm)) cm);;
      match sn_Data sn with
      | DEntries l => modify (λ cm, set_raft (set_log l (cm_raft cm)) cm)
      | DValue _ => mret ()
      end;;
      modify (set_last (sn_LastIndex sn))
  end.
End store.

(** ** consistency.go *)

Inductive ConsistencyLevel := One | Quorum | All.
Definition Consistency_String (c : ConsistencyLevel) : string :=
  match c with One => "one" | Quorum => "quorum" | All => "all" end.
Record QuorumConfig := mkQuorum { ReadConsistency : ConsistencyLevel; WriteConsistency : ConsistencyLevel }.
Definition DefaultQuorumConfig : QuorumConfig := mkQuorum Quorum Quorum.

Section quorum.
Context {Cmd : Type}.
Implicit Types (r : Raft Cmd).

(** The manager keeps the node and a configuration that no operation reads. *)
Definition QuorumWrite (command : Cmd) (now : Z) : M (Raft Cmd) unit :=
  r ← get_state;
  if IsLeader r then Propose command now else fail "not leader".
Definition QuorumRead (key : string) : M (Raft Cmd) (option Cmd) := mret None.
Definition GetQuorumSize r : Z := Z.quot (Z.of_nat (length (Peers (config r))) + 1) 2 + 1.
Definition CheckQuorum (ackCount : Z) r : bool := bool_decide (GetQuorumSize r ≤ ackCount)%Z.
End quorum.

(** ** The log file as a list *)

Section wal.
Context (marshal : GoVal → outcome JSON).
Implicit Types (s : Store) (rs : list Rec) (es : list Entry).

(** Complete records whose command, read back and marshalled again, gives the same
    document. *)
Definition rec_ok (r : Rec) : Prop :=
  match r with RecEntry _ _ j _ => marshal (of_json j) = Ok j | Torn => False end.
(** The command is either refused by [json.Marshal] or survives being written,
    read, and written again. *)
Definition command_ok (v : GoVal) : Prop :=
  ∀ j, marshal v = Ok j → marshal (of_json j) = Ok j.

(** An open log on a healthy disk that holds the entries [es]. *)
Definition wal_ok s es : Prop :=
  st_open s = true ∧ st_faults s = [] ∧ st_encoder s = None ∧
  ∃ rs, st_wal s = Some rs ∧ Forall rec_ok rs ∧ decode_recs rs = es.

Lemma decode_app rs1 rs2 : Forall rec_ok rs1 → decode_recs (rs1 ++ rs2) = decode_recs rs1 ++ decode_recs rs2.
Proof. induction 1 as [|[] rs Hr _ IH]; simpl; [done| |done]. by rewrite IH. Qed.

Lemma fault_healthy s : st_faults s = [] → fault s = (Ok IOok, s).
Proof. unfold fault. by intros ->. Qed.
Lemma sys_call_healthy s : st_faults s = [] → sys_call s = (Ok (), s).
Proof. intros H. unfold sys_call. by mstep (fault_healthy _ H). Qed.
Lemma file_call_healthy s : st_open s = true → st_faults s = [] → file_call s = (Ok (), s).
Proof.
  intros Ho H. unfold file_call. rewrite (bind_ok get_state _ _ _ _ eq_refl), Ho. by apply sys_call_healthy.
Qed.
Lemma read_loop_healthy s : st_faults s = [] → read_loop s = (Ok (decode_recs (wal_recs s)), s).
Proof. intros H. unfold read_loop. by mstep (fault_healthy _ H). Qed.

Definition rec_of (e : Entry) (j : JSON) : Rec := RecEntry (Term e) (Index e) j (Timestamp e).

Lemma Encode_healthy s e j :
  st_open s = true → st_faults s = [] → st_encoder s = None → marshal (Command e) = Ok j →
  Encode marshal e s = (Ok (), set_wal (Some (wal_recs s ++ [rec_of e j])) true s).
Proof.
  intros Ho Hf He Hm. destruct s. simpl in *. subst. unfold Encode, fault. mrun. by rewrite Hm.
Qed.

Lemma NewWAL_ok s es : st_faults s = [] → Forall rec_ok (wal_recs s) → decode_recs (wal_recs s) = es →
  ∃ s', NewWAL s = (Ok (), s') ∧ wal_ok s' es.
Proof.
  intros Hf Hr Hd. eexists. split.
  - unfold NewWAL. mstep (wrap_err_ok "failed to create WAL directory" _ _ _ _ (sys_call_healthy _ Hf)).
    mstep (wrap_err_ok "failed to open WAL file" _ _ _ _ (sys_call_healthy _ Hf)). reflexivity.
  - split_and!; [done|done|done|]. eauto.
Qed.

Lemma wal_Append_ok s es e j :
  wal_ok s es → marshal (Command e) = Ok j → marshal (of_json j) = Ok j →
  ∃ s', wal_Append marshal e s = (Ok (), s') ∧
    wal_ok s' (es ++ [mkEntry (Term e) (Index e) (of_json j) (Timestamp e)]).
Proof.
  intros (Ho & Hf & He & rs & Hw & Hr & <-) Hm Hst. eexists. split.
  - unfold wal_Append. mstep (wrap_err_ok "failed to write WAL entry" _ _ _ _ (Encode_healthy s e j Ho Hf He Hm)).
    apply wrap_err_ok. by apply file_call_healthy.
  - split_and!; [done|done|done|]. unfold wal_recs. rewrite Hw. eexists. split; [done|]. split.
    + apply Forall_app. split; [done|]. by constructor.
    + by rewrite decode_app.
Qed.

Lemma wal_Append_refused s e m : st_encoder s = None →
  marshal (Command e) = Err m → wal_Append marshal e s = (Err ("failed to write WAL entry: " +:+ m), s).
Proof.
  intros He Hm. assert (Encode marshal e s = (Err m, s)) as Henc.
  { unfold Encode. rewrite (bind_ok get_state _ _ _ _ eq_refl), He. apply bind_err. unfold lift. by rewrite Hm. }
  unfold wal_Append. apply bind_err. unfold wrap_err. by rewrite Henc.
Qed.

Lemma wal_Read_ok s es : wal_ok s es → wal_Read s = (Ok es, s).
Proof.
  intros (Ho & Hf & _ & rs & Hw & _ & <-). unfold wal_Read.
  mstep (wrap_err_ok "failed to seek WAL" _ _ _ _ (file_call_healthy _ Ho Hf)).
  rewrite read_loop_healthy by done. unfold wal_recs. by rewrite Hw.
Qed.

(** What is kept is again a sequence of complete records. *)
Lemma keep_recs index rs :
  Forall rec_ok rs → ∃ rs', Forall rec_ok rs' ∧ decode_recs rs' = keep_after index (decode_recs rs).
Proof.
  unfold keep_after. induction 1 as [|[t i j ts|] rs Hr _ (rs' & Hr' & IH)]; [by exists []| |done].
  simpl. rewrite filter_cons. simpl. case_decide; [|eauto].
  exists (RecEntry t i j ts :: rs'). split; [by constructor|]. simpl. by rewrite IH.
Qed.

Lemma wal_write_back_ok rs' : ∀ s rs,
  Forall rec_ok rs' → st_wal s = Some rs → st_open s = true → st_faults s = [] → st_encoder s = None →
  for_each (λ e, wrap_err "failed to write WAL entry" (Encode marshal e)) (decode_recs rs') s =
    (Ok (), set_wal (Some (rs ++ rs')) true s).
Proof.
  induction rs' as [|r rs' IH]; intros s rs Hr Hw Ho Hf He.
  - rewrite app_nil_r. simpl. unfold set_wal. destruct s; simpl in *. by subst.
  - apply Forall_cons in Hr as [Hr Hrs]. destruct r as [t i j ts|]; [|done]. simpl.
    mstep (wrap_err_ok "failed to write WAL entry" _ _ _ _
      (Encode_healthy s (mkEntry t i (of_json j) ts) j Ho Hf He Hr)).
    rewrite (IH _ (rs ++ [RecEntry t i j ts])); try done.
    + by rewrite <- app_assoc.
    + unfold wal_recs. by rewrite Hw.
Qed.

Lemma wal_Truncate_ok s es index :
  wal_ok s es → ∃ s', wal_Truncate marshal index s = (Ok (), s') ∧
    wal_ok s' (keep_after index es) ∧ st_snap s' = st_snap s.
Proof.
  intros (Ho & Hf & He & rs & Hw & Hr & <-). destruct (keep_recs index rs Hr) as (rs' & Hr' & Hk).
  eexists. split.
  - unfold wal_Truncate. mstep (wrap_err_ok "failed to seek WAL" _ _ _ _ (file_call_healthy _ Ho Hf)).
    mstep (read_loop_healthy _ Hf). unfold wal_recs. rewrite Hw. simpl. rewrite <- Hk.
    mstep (wrap_err_ok "failed to close WAL" _ _ _ _ (file_call_healthy _ Ho Hf)).
    rewrite (bind_ok (modify _) _ _ () _ eq_refl).
    rewrite (bind_ok _ _ _ _ _ (wrap_err_ok "failed to create new WAL" _ _ _ _ (sys_call_healthy (set_wal (st_wal s) false s) Hf))).
    rewrite (bind_ok (modify _) _ _ () _ eq_refl).
    mstep (wal_write_back_ok rs' (set_encoder None (set_wal (Some []) true (set_wal (st_wal s) false s))) [] Hr' eq_refl eq_refl Hf eq_refl).
    apply wrap_err_ok. by apply file_call_healthy.
  - split; [|done]. split_and!; [done|done|done|]. by exists rs'.
Qed.

(** The operations a client of the log performs; [WReopen] is a restart. *)
Inductive wal_op := WAppend (e : Entry) | WTruncate (index : Z) | WRead | WReopen.
Definition wal_exec (op : wal_op) : M Store (list Entry) :=
  match op with
  | WAppend e => wal_Append marshal e;; mret []
  | WTruncate i => wal_Truncate marshal i;; mret []
  | WRead => wal_Read
  | WReopen => modify (λ s, set_wal (st_wal s) false s);; NewWAL;; mret []
  end.
Fixpoint wal_run (ops : list wal_op) s : list (outcome (list Entry)) * Store :=
  match ops with
  | [] => ([], s)
  | op :: ops' => let '(o, s1) := wal_exec op s in let '(os, s2) := wal_run ops' s1 in (o :: os, s2)
  end.

(** The same operations on a list of entries. *)
Definition wal_spec (op : wal_op) es : outcome (list Entry) * list Entry :=
  match op with
  | WAppend e =>
      match marshal (Command e) with
      | Ok j => (Ok [], es ++ [mkEntry (Term e) (Index e) (of_json j) (Timestamp e)])
      | Err m => (Err ("failed to write WAL entry: " +:+ m), es)
      | Panic => (Panic, es)
      | NoFuel => (NoFuel, es)
      end
  | WTruncate i => (Ok [], filter (λ e, i < Index e)%Z es)
  | WRead => (Ok es, es)
  | WReopen => (Ok [], es)
  end.
Fixpoint wal_spec_run (ops : list wal_op) es : list (outcome (list Entry)) * list Entry :=
  match ops with
  | [] => ([], es)
  | op :: ops' => let '(o, es1) := wal_spec op es in let '(os, es2) := wal_spec_run ops' es1 in (o :: os, es2)
  end.
Definition wal_op_ok (op : wal_op) : Prop :=
  match op with WAppend e => command_ok (Command e) | _ => True end.

Lemma wal_exec_refines op s es :
  wal_op_ok op → wal_ok s es →
  ∃ s', wal_exec op s = ((wal_spec op es).1, s') ∧ wal_ok s' (wal_spec op es).2.
Proof.
  intros Hop Hs. destruct op as [e|i| |]; simpl in *.
  - destruct (marshal (Command e)) as [j|m| |] eqn:Hm; simpl.
    + destruct (wal_Append_ok s es e j Hs Hm (Hop _ Hm)) as (s' & Hrun & Hs').
      exists s'. split; [by mstep Hrun|done].
    + exists s. split; [|done]. by rewrite (bind_err _ _ _ _ _ (wal_Append_refused s e m (proj1 (proj2 (proj2 Hs))) Hm)).
    + exists s. split; [|done]. destruct Hs as (_ & _ & He & _). unfold wal_Append, wrap_err, Encode. mrun. by rewrite He, Hm.
    + exists s. split; [|done]. destruct Hs as (_ & _ & He & _). unfold wal_Append, wrap_err, Encode. mrun. by rewrite He, Hm.
  - destruct (wal_Truncate_ok s es i Hs) as (s' & Hrun & Hs' & _). exists s'. split; [by mstep Hrun|done].
  - exists s. split; [by apply wal_Read_ok|done].
  - destruct Hs as (Ho & Hf & _ & rs & Hw & Hr & Hd).
    destruct (NewWAL_ok (set_wal (st_wal s) false s) es) as (s' & Hrun & Hs').
    + done.
    + unfold wal_recs. simpl. by rewrite Hw.
    + unfold wal_recs. simpl. by rewrite Hw.
    + exists s'. split; [|done]. rewrite (bind_ok (modify _) _ _ () _ eq_refl). by mstep Hrun.
Qed.
End wal.

(** C12: on a healthy disk the write-ahead log is a list of entries: whatever is
    appended, truncated and reopened, each operation succeeds (an append of a
    command that cannot be marshalled fails and changes nothing) and [Read] returns
    the entries appended and not truncated, in order, their commands as decoded. *)
Theorem wal_refines_list marshal ops s es :
  Forall (wal_op_ok marshal) ops → wal_ok marshal s es →
  ∃ s', wal_run marshal ops s = ((wal_spec_run marshal ops es).1, s') ∧
    wal_ok marshal s' (wal_spec_run marshal ops es).2.
Proof.
  intros Hops. revert s es. induction Hops as [|op ops Hop _ IH]; intros s es Hs; [by exists s|].
  destruct (wal_exec_refines marshal op s es Hop Hs) as (s1 & Hrun & Hs1).
  cbn [wal_run wal_spec_run]. rewrite Hrun. destruct (wal_spec marshal op es) as [o es1].
  destruct (IH s1 es1 Hs1) as (s2 & -> & Hs2). destruct (wal_spec_run marshal ops es1) as [os es2]. by exists s2.
Qed.

(** [json.Marshal] on the basic types. *)
Definition basic_marshal (v : GoVal) : outcome JSON :=
  match v with
  | VNil => Ok JNull
  | VBool b => Ok (JBool b)
  | VString s => Ok (JStr s)
  | VInt z => Ok (JNum (float_of_Z z))
  | _ => Err "json: unsupported type"
  end.
Definition cmd (term index : Z) (name : string) : LogEntry GoVal := mkEntry term index (VString name) 0.
Definition empty_store : Store := mkStore (Some []) true None [] None.

Lemma empty_store_ok marshal : wal_ok marshal empty_store [].
Proof. split_and!; [done|done|done|]. by exists []. Qed.

Lemma wal_refines_list_witness :
  let ops := [WAppend (cmd 1 1 "x"); WAppend (mkEntry 1 2 (VOther "chan") 0); WAppend (cmd 1 2 "y");
              WTruncate 1; WReopen; WRead] in
  ∃ s', wal_run basic_marshal ops empty_store = ((wal_spec_run basic_marshal ops []).1, s') ∧
    wal_ok basic_marshal s' [cmd 1 2 "y"].
Proof.
  apply (wal_refines_list basic_marshal
    [WAppend (cmd 1 1 "x"); WAppend (mkEntry 1 2 (VOther "chan") 0); WAppend (cmd 1 2 "y");
     WTruncate 1; WReopen; WRead] empty_store []); [|apply empty_store_ok].
  repeat constructor; by intros j [= <-].
Defined.

(** [Truncate] treats a failing read as the end of the log: when the read fails
    before the first entry, it erases every entry, those after the index too, and
    reports success. *)
Theorem wal_read_error_erases_log marshal index s rs :
  st_open s = true → st_wal s = Some rs → st_faults s = [IOok; IOfail 0] →
  wal_Truncate marshal index s = (Ok (), mkStore (Some []) true (st_snap s) [] None).
Proof. intros Ho Hw Hf. destruct s. simpl in *. by subst. Qed.

Lemma wal_read_error_erases_log_witness :
  let s := mkStore (Some [RecEntry 1 5 (JStr "x") 0]) true None [IOok; IOfail 0] None in
  wal_Truncate basic_marshal 3 s = (Ok (), mkStore (Some []) true None [] None).
Proof.
  exact (wal_read_error_erases_log basic_marshal 3
    (mkStore (Some [RecEntry 1 5 (JStr "x") 0]) true None [IOok; IOfail 0] None) _ eq_refl eq_refl eq_refl).
Defined.

(** One write that fails stops the log: the encoder keeps the error, and every later
    [Append] reports it although the disk works again, until [Truncate] or a restart
    makes a new encoder. *)
Theorem failed_write_stops_wal marshal s n e j :
  st_open s = true → st_faults s = [IOfail n] → st_encoder s = None → marshal (Command e) = Ok j →
  ∃ s', wal_Append marshal e s = (Err ("failed to write WAL entry: " +:+ ErrIO), s') ∧ st_faults s' = [] ∧
    ∀ e', wal_Append marshal e' s' = (Err ("failed to write WAL entry: " +:+ ErrIO), s').
Proof.
  intros Ho Hf He Hm. destruct s as [w o sn fs enc]. cbn in Ho, Hf, He. subst.
  destruct n as [|n]; eexists; (split; [unfold wal_Append, wrap_err, Encode, fault; mrun; by rewrite Hm|by split]).
Qed.
Lemma failed_write_stops_wal_witness : ∃ s',
  wal_Append basic_marshal (cmd 1 1 "x") (mkStore (Some []) true None [IOfail 3] None) = (Err ("failed to write WAL entry: " +:+ ErrIO), s') ∧
  st_faults s' = [] ∧ ∀ e', wal_Append basic_marshal e' s' = (Err ("failed to write WAL entry: " +:+ ErrIO), s').
Proof. by apply (failed_write_stops_wal basic_marshal _ 3 (cmd 1 1 "x") (JStr "x")). Defined.

(** ** Compaction *)

Section compaction.
Context (marshal : GoVal → outcome JSON).

Lemma entries_json_ok (es : list (LogEntry GoVal)) :
  (∀ e, e ∈ es → ∃ j, marshal (Command e) = Ok j) → ∃ js, entries_json marshal es = Ok js.
Proof.
  induction es as [|e es IH]; intros Hes; [by exists []|].
  destruct (Hes e) as [j Hj]; [by left|]. destruct IH as [js Hjs]; [intros e' ?; apply Hes; by right|].
  simpl. unfold entry_json. rewrite Hj. osteps. rewrite Hjs. osteps. eauto.
Qed.

Lemma snap_Create_ok s i t d j now :
  st_faults s = [] → data_json marshal d = Ok j →
  snap_Create marshal i t d now s = (Ok (), set_snap (Some (SnapDoc i t j now)) s).
Proof. intros Hf Hd. destruct s. simpl in *. subst. unfold snap_Create, wrap_err. mrun. by rewrite Hd. Qed.

Lemma compact_log_ok (t : Z) (l : list (LogEntry GoVal)) :
  (0 ≤ t)%Z → ∃ n, compact_log t l = Ok (drop n l) ∧ ((n = 0 ∧ (Z.of_nat (length l) ≤ t)%Z) ∨ (t < Z.of_nat (length l) ∧ Z.of_nat (length l) - Z.of_nat n = Z.quot t 2)%Z).
Proof.
  intros Ht. unfold compact_log. pose proof (Z.quot_pos t 2 Ht ltac:(lia)).
  pose proof (Z.quot_le_upper_bound t 2 t ltac:(lia) ltac:(lia)).
  case_bool_decide as H1; [|exists 0; split; [done|left; split; [done|lia]]].
  exists (Z.to_nat (Z.of_nat (length l) - Z.quot t 2)). rewrite slice_from_ok by lia. split; [done|]. right. lia.
Qed.

(** The raft a successful compaction leaves behind. *)
Lemma Compact_raft now cm cm' :
  Compact marshal now cm = (Ok (), cm') →
  ∃ l, compact_log (cm_threshold cm) (log (cm_raft cm)) = Ok l ∧ cm_raft cm' = set_log l (cm_raft cm).
Proof.
  intros H. unfold Compact in H. rewrite (bind_ok get_state _ _ _ _ eq_refl) in H.
  apply bind_inv_ok in H as (_ & c1 & _ & H). apply bind_inv_ok in H as (_ & c2 & _ & H).
  apply bind_inv_ok in H as (_ & c3 & _ & H). apply bind_inv_ok in H as (l & c4 & Hl & H).
  injection H as <-. injection Hl as Hl _. eauto.
Qed.

Lemma Compact_ok now r s t i es :
  wal_ok marshal s es → (∀ e, e ∈ log r → ∃ j, marshal (Command e) = Ok j) → (0 ≤ t)%Z →
  ∃ s' l' j, Compact marshal now (mkCM r s t i) = (Ok (), mkCM (set_log l' r) s' t (getLastLogIndex r)) ∧
    wal_ok marshal s' (keep_after (getLastLogIndex r) es) ∧
    st_snap s' = Some (SnapDoc (getLastLogIndex r) (getLastLogTerm r) (JArr j) now).
Proof.
  intros Hw Hm Ht. destruct (entries_json_ok _ Hm) as [js Hjs].
  assert (st_faults s = []) as Hf by apply Hw.
  set (s1 := set_snap (Some (SnapDoc (getLastLogIndex r) (getLastLogTerm r) (JArr js) now)) s).
  assert (wal_ok marshal s1 es) as Hs1 by apply Hw.
  destruct (wal_Truncate_ok marshal s1 es (getLastLogIndex r) Hs1) as (s2 & Htr & Hs2 & Hsn).
  destruct (compact_log_ok t (log r) Ht) as (n & Hn & _).
  exists s2, (drop n (log r)), js. split; [|split; [done|by rewrite Hsn]].
  - unfold Compact. rewrite (bind_ok get_state _ _ _ _ eq_refl).
    assert (data_json marshal (DEntries (log r)) = Ok (JArr js)) as Hd by (simpl; by rewrite Hjs).
    mstep (wrap_err_ok "failed to create snapshot" _ _ _ _
      (zoom_ok cm_store (λ s cm, mkCM (cm_raft cm) s (cm_threshold cm) (cm_lastSnapshotIndex cm)) _ (mkCM r s t i) _ _
        (snap_Create_ok s (getLastLogIndex r) (getLastLogTerm r) _ _ now Hf Hd))).
    mstep (wrap_err_ok "failed to truncate WAL" _ _ _ _
      (zoom_ok cm_store (λ s cm, mkCM (cm_raft cm) s (cm_threshold cm) (cm_lastSnapshotIndex cm)) _ (mkCM r s1 t i) _ _ Htr)).
    mrun. by rewrite Hn.
Qed.

Lemma keep_after_all (es : list (LogEntry GoVal)) i : (∀ e, e ∈ es → Index e ≤ i)%Z → keep_after i es = [].
Proof. intros H. apply filter_none, Forall_forall. intros e He. specialize (H e He). lia. Qed.

(** The data of a snapshot that was read from its file is never a list of entries. *)
Lemma RestoreFromSnapshot_run r s t i li lt j ts :
  st_snap s = Some (SnapDoc li lt j ts) → st_faults s = [] →
  RestoreFromSnapshot (mkCM r s t i) = (Ok (), mkCM (set_applied li r) s t li).
Proof. intros Hsn Hf. destruct s. simpl in *. by subst. Qed.
End compaction.

(** Compaction followed by a restart loses the log.  A compaction of a log
    whose commands can be marshalled succeeds on a healthy disk and leaves a
    write-ahead log without entries; after a restart of the process,
    [RestoreFromSnapshot] reports success and sets [commitIndex] and [lastApplied]
    to the last index, but the log stays empty and the write-ahead log has nothing
    to replay. *)
Theorem compact_then_restart_loses_log marshal now now' (r : Raft GoVal) s t es :
  wal_ok marshal s es → (∀ e, e ∈ es → Index e ≤ getLastLogIndex r)%Z →
  (∀ e, e ∈ log r → ∃ j, marshal (Command e) = Ok j) → (0 ≤ t)%Z →
  ∃ cm s', Compact marshal now (mkCM r s t 0) = (Ok (), cm) ∧
    NewWAL (set_wal (st_wal (cm_store cm)) false (cm_store cm)) = (Ok (), s') ∧
    wal_Read s' = (Ok [], s') ∧
    ∃ cm', RestoreFromSnapshot (NewCompactionManager (New (config r) now') s') = (Ok (), cm') ∧
      log (cm_raft cm') = [] ∧ commitIndex (cm_raft cm') = getLastLogIndex r ∧
      lastApplied (cm_raft cm') = getLastLogIndex r.
Proof.
  intros Hw Hes Hm Ht. destruct (Compact_ok marshal now r s t 0 es Hw Hm Ht) as (s1 & l' & j & -> & Hs1 & Hsn).
  rewrite keep_after_all in Hs1 by done. destruct Hs1 as (Ho & Hf & _ & rs & Hrs & Hr & Hd).
  set (s2 := set_wal (st_wal s1) false s1). assert (st_faults s2 = []) as Hf2 by done.
  assert (NewWAL s2 = (Ok (), set_encoder None (set_wal (Some (wal_recs s2)) true s2))) as Hnew.
  { unfold NewWAL. mstep (wrap_err_ok "failed to create WAL directory" _ _ _ _ (sys_call_healthy _ Hf2)).
    mstep (wrap_err_ok "failed to open WAL file" _ _ _ _ (sys_call_healthy _ Hf2)). reflexivity. }
  eexists _, _. split; [reflexivity|]. split; [exact Hnew|]. split.
  - apply (wal_Read_ok marshal). split_and!; [done|done|done|]. exists rs. split_and!; [|done|done].
    unfold wal_recs. simpl. by rewrite Hrs.
  - eexists. split; [exact (RestoreFromSnapshot_run _ (set_encoder None (set_wal (Some (wal_recs s2)) true s2)) 1000 0 _ _ _ _ Hsn Hf)|done].
Qed.

Definition two_entries : Raft GoVal := set_log [cmd 1 1 "x"; cmd 1 2 "y"] (New (DefaultConfig "a" ["b"]) 0).
Definition two_entries_wal : Store :=
  mkStore (Some [RecEntry 1 1 (JStr "x") 0; RecEntry 1 2 (JStr "y") 0]) true None [] None.

Lemma two_entries_wal_ok : wal_ok basic_marshal two_entries_wal [cmd 1 1 "x"; cmd 1 2 "y"].
Proof.
  split_and!; [done|done|done|]. eexists. split; [reflexivity|]. split; [|done]. by repeat constructor.
Qed.

Lemma compact_then_restart_loses_log_witness :
  ∃ cm s', Compact basic_marshal 5 (mkCM two_entries two_entries_wal 1000 0) = (Ok (), cm) ∧
    NewWAL (set_wal (st_wal (cm_store cm)) false (cm_store cm)) = (Ok (), s') ∧
    wal_Read s' = (Ok [], s') ∧
    ∃ cm', RestoreFromSnapshot (NewCompactionManager (New (config two_entries) 9) s') = (Ok (), cm') ∧
      log (cm_raft cm') = [] ∧ commitIndex (cm_raft cm') = 2%Z ∧ lastApplied (cm_raft cm') = 2%Z.
Proof.
  apply (compact_then_restart_loses_log basic_marshal 5 9 two_entries two_entries_wal 1000 [cmd 1 1 "x"; cmd 1 2 "y"]).
  - apply two_entries_wal_ok.
  - intros e. rewrite !elem_of_cons. intros [->|[->|?%not_elem_of_nil]]; done.
  - intros e. cbn. rewrite !elem_of_cons.
    intros [->|[->|?%not_elem_of_nil]]; [by exists (JStr "x")|by exists (JStr "y")|done].
  - done.
Defined.

(** After a compaction that drops entries, a peer that has the whole log gets no
    further entries: the log is shorter than [nextIndex], so the next command the
    leader accepts is not in the requests it sends. *)
Theorem compact_stops_replication marshal now now' cm cm' peer command r' :
  Compact marshal now cm = (Ok (), cm') →
  log_ok (log (cm_raft cm)) → (0 ≤ cm_threshold cm < Z.of_nat (length (log (cm_raft cm))))%Z →
  nextIndex (cm_raft cm) !! peer = Some (Z.of_nat (length (log (cm_raft cm))) + 1)%Z →
  Propose command now' (cm_raft cm') = (Ok (), r') →
  ∃ args, appendArgs peer r' = Ok args ∧ aa_Entries args = [].
Proof.
  intros Hc Hl Ht Hn Hp. destruct (Compact_raft marshal now cm cm' Hc) as (l & Hcl & Hr).
  destruct (compact_log_ok (cm_threshold cm) (log (cm_raft cm))) as (n & Hcl' & Hlen); [lia|].
  assert (l = drop n (log (cm_raft cm))) as -> by congruence. clear Hcl Hcl'.
  rewrite Hr in Hp. unfold Propose in Hp. rewrite (bind_ok get_state _ _ _ _ eq_refl) in Hp.
  destruct (bool_decide (state _ ≠ Leader)) in Hp; [done|]. injection Hp as <-.
  pose proof (Z.quot_le_upper_bound (cm_threshold cm) 2 (cm_threshold cm) ltac:(lia) ltac:(lia)).
  set (l := log (cm_raft cm)) in *.
  assert (length (drop n l) + 1 ≤ length l)%nat as Hshort by (rewrite length_drop; lia).
  unfold appendArgs. cbn [set_log nextIndex log]. rewrite Hn. cbn [default]. unfold default, id.
  set (l' := drop n l ++ _). assert (length l' = length (drop n l) + 1) as Hl' by (unfold l'; by rewrite length_app).
  rewrite (bool_decide_eq_false_2 (_ + 1 ≤ _)%Z) by lia.
  case_bool_decide as Hb; [|osteps; by eexists].
  destruct (lookup_lt_is_Some_2 l' (Z.to_nat (Z.of_nat (length l) + 1 - 1 - 1))) as [e He]; [lia|].
  rewrite (go_index_ok _ _ _ He). osteps. by eexists.
Qed.

Definition three_leader : Raft GoVal :=
  becomeLeader (set_log [cmd 1 1 "x"; cmd 1 2 "y"; cmd 1 3 "z"] two_entries).
Definition compacted : CompactionManager :=
  match Compact basic_marshal 5 (mkCM three_leader two_entries_wal 2 0) with
  | (Ok _, cm) => cm | (_, cm) => cm end.
Definition after_propose : Raft GoVal := (Propose (VString "w") 6 (cm_raft compacted)).2.

Lemma compact_stops_replication_witness :
  Index <$> log after_propose = [3%Z; 4%Z] ∧
  ∃ args, appendArgs "b" after_propose = Ok args ∧ aa_Entries args = [].
Proof.
  split; [reflexivity|].
  apply (compact_stops_replication basic_marshal 5 6 (mkCM three_leader two_entries_wal 2 0) compacted "b" (VString "w"));
    try reflexivity; try done.
  intros [|[|[|i]]] e; intros [= <-]; reflexivity.
Defined.

(** ** Quorums *)

(** The nodes of the cluster, as one of them knows it. *)
Definition members {Cmd} (r : Raft Cmd) : gset string := {[NodeID (config r)]} ∪ list_to_set (Peers (config r)).

Lemma size_members {Cmd} (r : Raft Cmd) : size (members r) ≤ length (Peers (config r)) + 1.
Proof.
  unfold members. rewrite size_union_alt, size_singleton.
  assert (size (list_to_set (Peers (config r)) ∖ {[NodeID (config r)]} : gset string) ≤ length (Peers (config r)));
    [|lia].
  etrans; [by apply (subseteq_size _ (list_to_set (Peers (config r)))), subseteq_difference_l|].
  induction (Peers (config r)) as [|p ps IH]; [done|]. simpl.
  rewrite size_union_alt, size_singleton.
  pose proof (subseteq_size (list_to_set ps ∖ {[p]} : gset string) (list_to_set ps) (subseteq_difference_l _ _ _ (reflexivity _))). lia.
Qed.

(** Quorums intersect: two sets of nodes of the cluster that both pass
    [CheckQuorum] have a node in common.  And an election counts by the same
    measure: a candidate that gets a vote becomes the leader exactly when its votes
    pass [CheckQuorum]. *)
Theorem quorums_intersect {Cmd} (r : Raft Cmd) (A B : gset string) votes :
  A ⊆ members r → B ⊆ members r →
  CheckQuorum (Z.of_nat (size A)) r = true → CheckQuorum (Z.of_nat (size B)) r = true →
  state r = Candidate →
  (∃ x, x ∈ A ∧ x ∈ B) ∧
  (state (count_vote votes r).2 = Leader ↔ CheckQuorum (votes + 1) r = true).
Proof.
  intros HA HB H1%bool_decide_eq_true H2%bool_decide_eq_true Hst. unfold GetQuorumSize in *.
  set (n := Z.of_nat (length (Peers (config r)))) in *.
  assert (Z.quot (n + 1) 2 = (n + 1) / 2)%Z as Hq by (apply Z.quot_div_nonneg; lia).
  rewrite Hq in *. split.
  - apply dec_stable. intros Hno. pose proof (size_members r).
    assert (A ## B) as Hd by set_solver. pose proof (size_union A B Hd).
    assert (A ∪ B ⊆ members r) as Hsub by (by apply union_subseteq).
    pose proof (subseteq_size _ _ Hsub). pose proof (Z.div_mod (n + 1) 2). pose proof (Z.mod_pos_bound (n + 1) 2). lia.
  - unfold count_vote, CheckQuorum, GetQuorumSize. fold n. rewrite Hq, (bool_decide_eq_true_2 (state r = Candidate)) by done.
    rewrite andb_true_r, bool_decide_eq_true. case_bool_decide; simpl; [split; [lia|done]|].
    rewrite Hst. split; [done|lia].
Qed.

Lemma quorums_intersect_witness :
  let r := becomeCandidate 1 0 (New (Cmd:=nat) (DefaultConfig "a" ["b"; "c"]) 0) in
  (∃ x, x ∈ ({["a"; "b"]} : gset string) ∧ x ∈ ({["b"; "c"]} : gset string)) ∧
  (state (count_vote 1 r).2 = Leader ↔ CheckQuorum (1 + 1) r = true).
Proof.
  apply (quorums_intersect (becomeCandidate 1 0 (New (Cmd:=nat) (DefaultConfig "a" ["b"; "c"]) 0))
    {["a"; "b"]} {["b"; "c"]} 1); try reflexivity; refine (bool_decide_unpack _ _); vm_compute; exact I.
Defined.
