(* ===== verification/Transport.v ===== *)
(** * The transport of Raft (internal/raft/transport.go)

    Every call of a peer is one connection: a JSON message is sent, the listener's
    goroutine handles it, and a reply comes back.  A system of transports is a
    cluster of [RaftCluster] whose requests and replies are the texts on connections.
    The texts of [encoding/json] are parameters.  Connections are delayed and lost
    without bound; the timeout of dialling is one way to lose one. *)

From S2P Require Import Prelude Bytes Raft RaftCluster.
From Stdlib Require Import Ascii.

Definition RPCMessageType : Type := Z.
Definition RPCRequestVote : RPCMessageType := 0%Z.
Definition RPCRequestVoteReply : RPCMessageType := 1%Z.
Definition RPCAppendEntries : RPCMessageType := 2%Z.
Definition RPCAppendEntriesReply : RPCMessageType := 3%Z.
Record RPCMessage := mkMsg { msg_Type : RPCMessageType; msg_Payload : list byte }.

(** The texts of the values that are sent, and their parsing; a command may have no
    text. *)
Class WireText (Cmd : Type) := {
  vote_args_text : RequestVoteArgs → list byte;
  vote_args_parse : list byte → outcome RequestVoteArgs;
  vote_reply_text : RequestVoteReply → list byte;
  vote_reply_parse : list byte → outcome RequestVoteReply;
  append_args_text : AppendEntriesArgs Cmd → option (list byte);
  append_args_parse : list byte → outcome (AppendEntriesArgs Cmd);
  append_reply_text : AppendEntriesReply → list byte;
  append_reply_parse : list byte → outcome AppendEntriesReply;
  msg_text : RPCMessage → list byte;
  msg_parse : list byte → outcome RPCMessage;
}.
Definition ascii_text (s : string) : Prop := Forall (λ c, nat_of_ascii c < 128) (String.list_ascii_of_string s).
Inductive json_payload `{WireText Cmd} : list byte → Prop :=
| payload_vote args : json_payload (vote_args_text args)
| payload_vote_reply reply : json_payload (vote_reply_text reply)
| payload_append args data : append_args_text args = Some data → json_payload data
| payload_append_reply reply : json_payload (append_reply_text reply).
(** Documented behaviour: what was written is read back, for names in ASCII and
    commands that are of the types that JSON gives. *)
Class WireLaws Cmd `{WireText Cmd} := {
  vote_args_back args : ascii_text (va_CandidateID args) → vote_args_parse (vote_args_text args) = Ok args;
  vote_reply_back reply : vote_reply_parse (vote_reply_text reply) = Ok reply;
  append_args_back args : ascii_text (aa_LeaderID args) →
    ∃ data, append_args_text args = Some data ∧ append_args_parse data = Ok args;
  append_reply_back reply : append_reply_parse (append_reply_text reply) = Ok reply;
  msg_back type payload : json_payload payload → msg_parse (msg_text (mkMsg type payload)) = Ok (mkMsg type payload);
}.

(** ** A transport *)

Record Transport := mkTransport {
  tr_nodeID : string; tr_address : string; tr_listening : bool; tr_peers : gmap string string; tr_quit : bool;
}.
Definition NewTransport (nodeID address : string) : Transport := mkTransport nodeID address false ∅ false.
Definition AddPeer (nodeID address : string) (t : Transport) : Transport :=
  mkTransport (tr_nodeID t) (tr_address t) (tr_listening t) (<[nodeID := address]> (tr_peers t)) (tr_quit t).
Definition RemovePeer (nodeID : string) (t : Transport) : Transport :=
  mkTransport (tr_nodeID t) (tr_address t) (tr_listening t) (delete nodeID (tr_peers t)) (tr_quit t).
(** [busy]: why the address cannot be listened on. *)
Definition Start (busy : option string) : M Transport unit :=
  match busy with
  | Some e => fail ("failed to start listener: " +:+ e)
  | None => modify (λ t, mkTransport (tr_nodeID t) (tr_address t) true (tr_peers t) (tr_quit t))
  end.
(** A closed channel cannot be closed. *)
Definition Stop : M Transport unit :=
  t ← get_state;
  if tr_quit t then panic
  else put_state (mkTransport (tr_nodeID t) (tr_address t) false (tr_peers t) true).

Section messages.
Context {Cmd : Type} `{WireText Cmd}.

(** What a connection to the listener does to the node, and the reply that is sent;
    without one the connection is closed. *)
Definition handleConnection (data : list byte) (now : Z) : M (Raft Cmd) (option (list byte)) :=
  match msg_parse data with
  | Ok msg =>
      if bool_decide (msg_Type msg = RPCRequestVote) then
        match vote_args_parse (msg_Payload msg) with
        | Ok args =>
            replyPayload ← RequestVote args now;
            mret (Some (msg_text (mkMsg RPCRequestVoteReply (vote_reply_text replyPayload))))
        | _ => mret None
        end
      else if bool_decide (msg_Type msg = RPCAppendEntries) then
        match append_args_parse (msg_Payload msg) with
        | Ok args =>
            replyPayload ← AppendEntries args now;
            mret (Some (msg_text (mkMsg RPCAppendEntriesReply (append_reply_text replyPayload))))
        | _ => mret None
        end
      else mret None
  | _ => mret None
  end.

(** The two halves of [SendRequestVote] and [SendAppendEntries]: the address and the
    message; the reply that is made of what comes back. *)
Definition peer_address (t : Transport) (peerID : string) : outcome string :=
  match tr_peers t !! peerID with Some address => Ok address | None => Err ("peer " +:+ peerID +:+ " not found") end.
Definition vote_request (t : Transport) (peerID : string) (args : RequestVoteArgs) : outcome (string * list byte) :=
  address ← peer_address t peerID; Ok (address, msg_text (mkMsg RPCRequestVote (vote_args_text args))).
Definition append_request (t : Transport) (peerID : string) (args : AppendEntriesArgs Cmd) : outcome (string * list byte) :=
  address ← peer_address t peerID; Ok (address, msg_text (mkMsg RPCAppendEntries (default [] (append_args_text args)))).
Definition receive {A} (name : string) (parse : list byte → outcome A) (data : list byte) : outcome A :=
  match msg_parse data with
  | Ok reply =>
      match parse (msg_Payload reply) with
      | Ok replyPayload => Ok replyPayload
      | _ => Err ("failed to unmarshal " +:+ name +:+ "Reply")
      end
  | _ => Err ("failed to receive " +:+ name +:+ " reply")
  end.
Definition receive_vote : list byte → outcome RequestVoteReply := receive "RequestVote" vote_reply_parse.
Definition receive_append : list byte → outcome AppendEntriesReply := receive "AppendEntries" append_reply_parse.
End messages.

(** ** Nodes and their transports

    The goroutines that have not dialled yet are the tasks of the cluster; the others
    wait on a connection, with what they keep and the text under way. *)

Inductive Conn (Cmd : Type) :=
| VoteConn (ballot : nat) (from to : string) (data : list byte)
| VoteBack (ballot : nat) (from : string) (data : list byte)
| AppendConn (from peer to : string) (entries : list (LogEntry Cmd)) (data : list byte)
| AppendBack (from peer : string) (entries : list (LogEntry Cmd)) (data : list byte).
Arguments VoteConn {Cmd}. Arguments VoteBack {Cmd}. Arguments AppendConn {Cmd}. Arguments AppendBack {Cmd}.
Record Net (Cmd : Type) := mkNet {
  nt_transports : gmap string Transport;
  nt_cluster : Cluster Cmd;
  nt_conns : list (Conn Cmd);
}.
Arguments mkNet {Cmd}. Arguments nt_transports {Cmd}. Arguments nt_cluster {Cmd}. Arguments nt_conns {Cmd}.

(** [ok]: the connection is made and takes the message. *)
Inductive NetLabel (Cmd : Type) :=
| NTick (node : string) (now jitter : Z)
| NPropose (node : string) (command : Cmd) (now : Z)
| NCall (i : nat) (ok : bool)
| NServe (j : nat) (now : Z)
| NReturn (j : nat)
| NLose (j : nat)
| NStart (node : string)
| NStop (node : string).
Arguments NTick {Cmd}. Arguments NPropose {Cmd}. Arguments NCall {Cmd}. Arguments NServe {Cmd}.
Arguments NReturn {Cmd}. Arguments NLose {Cmd}. Arguments NStart {Cmd}. Arguments NStop {Cmd}.

Section net.
Context {Cmd : Type} `{WireText Cmd}.
Implicit Types (n : Net Cmd) (c : Cluster Cmd).

Definition with_cluster c n : Net Cmd := mkNet (nt_transports n) c (nt_conns n).
Definition add_conn (x : Conn Cmd) n : Net Cmd := mkNet (nt_transports n) (nt_cluster n) (nt_conns n ++ [x]).
Definition remove_conn (j : nat) n : Net Cmd :=
  mkNet (nt_transports n) (nt_cluster n) (take j (nt_conns n) ++ drop (S j) (nt_conns n)).

(** The node whose listener a connection to the address reaches. *)
Definition listener (address : string) n : option string :=
  fst <$> (snd <$> list_find (λ e : string * Transport, tr_listening e.2 = true ∧ tr_address e.2 = address) (map_to_list (nt_transports n))).
Definition connect (ok : bool) (request : outcome (string * list byte)) n : option (string * list byte) :=
  if ok then
    match request with
    | Ok (address, data) => (λ id, (id, data)) <$> listener address n
    | _ => None
    end
  else None.

(** [requestVoteFromPeer] and [sendAppendEntriesToPeer] until they wait for the reply. *)
Definition call (t : Task Cmd) (ok : bool) n : outcome (Net Cmd) :=
  match t with
  | VoteTask b from to =>
      match c_nodes (nt_cluster n) !! from, nt_transports n !! from with
      | Some r, Some t =>
          match connect ok (vote_request t to (requestVoteArgs r)) n with
          | Some (id, data) => Ok (add_conn (VoteConn b from id data) n)
          | None => Ok n
          end
      | _, _ => Ok n
      end
  | AppendTask from to =>
      match c_nodes (nt_cluster n) !! from, nt_transports n !! from with
      | Some r, Some t =>
          args ← appendArgs to r;
          match connect ok (append_request t to args) n with
          | Some (id, data) => Ok (add_conn (AppendConn from to id (aa_Entries args) data) n)
          | None => Ok n
          end
      | _, _ => Ok n
      end
  | _ => Ok n
  end.
(** The goroutine that [acceptLoop] starts for a connection. *)
Definition serve (x : Conn Cmd) (now : Z) n : outcome (Net Cmd) :=
  let handled id data back :=
    match c_nodes (nt_cluster n) !! id with
    | Some r =>
        match handleConnection data now r with
        | (Ok reply, r') =>
            let n' := with_cluster (set_node id r' (nt_cluster n)) n in
            Ok (match reply with Some data => add_conn (back data) n' | None => n' end)
        | _ => Panic
        end
    | None => Ok n
    end in
  match x with
  | VoteConn b from id data => handled id data (VoteBack b from)
  | AppendConn from peer id entries data => handled id data (AppendBack from peer entries)
  | x => Ok (add_conn x n)
  end.
(** The rest of the goroutine, with the reply. *)
Definition return_from (x : Conn Cmd) n : outcome (Net Cmd) :=
  match x with
  | VoteBack b from data =>
      match receive_vote data with
      | Ok reply => c ← run_task (VoteRep b from reply) 0 (nt_cluster n); Ok (with_cluster c n)
      | _ => Ok n
      end
  | AppendBack from peer entries data =>
      match receive_append data with
      | Ok reply => c ← run_task (AppendRep from peer entries reply) 0 (nt_cluster n); Ok (with_cluster c n)
      | _ => Ok n
      end
  | x => Ok (add_conn x n)
  end.
Definition on_transport (id : string) (m : M Transport unit) n : outcome (Net Cmd) :=
  match nt_transports n !! id with
  | Some t => match m t with (Panic, _) => Panic | (_, t') => Ok (mkNet (<[id := t']> (nt_transports n)) (nt_cluster n) (nt_conns n)) end
  | None => Ok n
  end.
Definition net_step (l : NetLabel Cmd) n : outcome (Net Cmd) :=
  match l with
  | NTick id now jitter => c ← cstep (LTick id now jitter) (nt_cluster n); Ok (with_cluster c n)
  | NPropose id command now => c ← cstep (LPropose id command now) (nt_cluster n); Ok (with_cluster c n)
  | NCall i ok =>
      match c_tasks (nt_cluster n) !! i with Some t => call t ok (with_cluster (remove_task i (nt_cluster n)) n) | None => Ok n end
  | NServe j now => match nt_conns n !! j with Some x => serve x now (remove_conn j n) | None => Ok n end
  | NReturn j => match nt_conns n !! j with Some x => return_from x (remove_conn j n) | None => Ok n end
  | NLose j => Ok (remove_conn j n)
  | NStart id =>
      on_transport id (t ← get_state; Start (if bool_decide (is_Some (listener (tr_address t) n)) then Some "address already in use" else None)) n
  | NStop id => on_transport id Stop n
  end.
End net.

(** ** The transport carries the messages of the cluster *)

(** Two clusters with the same nodes and ballots, whose tasks may differ. *)
Definition same_nodes {Cmd} (c c' : Cluster Cmd) : Prop :=
  c_nodes c = c_nodes c' ∧ c_ballots c = c_ballots c' ∧ c_nextBallot c = c_nextBallot c'.

Section simulation.
Context {Cmd : Type} `{WireLaws Cmd}.
Implicit Types (n : Net Cmd) (c : Cluster Cmd) (t : Task Cmd) (x : Conn Cmd).

(** The task that a connection stands for. *)
Inductive carries : Conn Cmd → Task Cmd → Prop :=
| carries_vote b from to args : ascii_text (va_CandidateID args) →
    carries (VoteConn b from to (msg_text (mkMsg RPCRequestVote (vote_args_text args)))) (VoteReq b from to args)
| carries_vote_back b from reply :
    carries (VoteBack b from (msg_text (mkMsg RPCRequestVoteReply (vote_reply_text reply)))) (VoteRep b from reply)
| carries_append from to args data : ascii_text (aa_LeaderID args) → append_args_text args = Some data →
    carries (AppendConn from to to (aa_Entries args) (msg_text (mkMsg RPCAppendEntries data))) (AppendReq from to args)
| carries_append_back from to entries reply :
    carries (AppendBack from to entries (msg_text (mkMsg RPCAppendEntriesReply (append_reply_text reply)))) (AppendRep from to entries reply).

(** Every address that a transport has for a peer is that of the peer. *)
Definition wired n : Prop :=
  ∀ from (t : Transport) to address id (t' : Transport), nt_transports n !! from = Some t → tr_peers t !! to = Some address →
    nt_transports n !! id = Some t' → tr_address t' = address → id = to.
Definition named c : Prop := ∀ id r, c_nodes c !! id = Some r → ascii_text (NodeID (config r)).
(** The network is in the state of the cluster. *)
Definition net_rep n c : Prop :=
  same_nodes (nt_cluster n) c ∧ wired n ∧
  ∃ ts, Forall2 carries (nt_conns n) ts ∧ c_tasks c ≡ₚ c_tasks (nt_cluster n) ++ ts.

Lemma carried_vote b from to data t now r : carries (VoteConn b from to data) t → ∃ args, t = VoteReq b from to args ∧
  ∀ reply r', RequestVote args now r = (Ok reply, r') →
    handleConnection data now r = (Ok (Some (msg_text (mkMsg RPCRequestVoteReply (vote_reply_text reply)))), r').
Proof.
  inversion 1; subst. eexists. split; [done|]. intros reply r' Hr. unfold handleConnection. rewrite msg_back by constructor. cbn [msg_Type msg_Payload].
  rewrite bool_decide_eq_true_2 by done. rewrite vote_args_back by done. by mstep Hr.
Qed.
Lemma carried_append from peer to entries data t now r : carries (AppendConn from peer to entries data) t → ∃ args,
  t = AppendReq from to args ∧ peer = to ∧ entries = aa_Entries args ∧
  (∀ reply r', AppendEntries args now r = (Ok reply, r') →
    handleConnection data now r = (Ok (Some (msg_text (mkMsg RPCAppendEntriesReply (append_reply_text reply)))), r')) ∧
  (∀ reply r', handleConnection data now r = (Ok reply, r') → ∃ reply', AppendEntries args now r = (Ok reply', r')).
Proof.
  inversion 1 as [| |? ? args text Ha Ht|]; subst. exists args. split; [done|]. split; [done|]. split; [done|].
  destruct (append_args_back args Ha) as (text' & Ht' & Hback). rewrite Ht in Ht'. injection Ht' as <-.
  assert (handleConnection (msg_text (mkMsg RPCAppendEntries text)) now r =
    (replyPayload ← AppendEntries args now; mret (Some (msg_text (mkMsg RPCAppendEntriesReply (append_reply_text replyPayload))))) r) as ->.
  { unfold handleConnection. rewrite msg_back by by apply payload_append with args. cbn [msg_Type msg_Payload].
    rewrite bool_decide_eq_false_2 by done. rewrite bool_decide_eq_true_2 by done. by rewrite Hback. }
  split; [intros reply r' Hr; by mstep Hr|]. intros reply r' (reply' & r1 & Hr & [= _ <-])%bind_inv_ok. by exists reply'.
Qed.
Lemma receive_back {A} name (parse : list byte → outcome A) type payload reply : json_payload payload → parse payload = Ok reply →
  receive name parse (msg_text (mkMsg type payload)) = Ok reply.
Proof. intros Hp Hr. unfold receive. rewrite msg_back by done. cbn. by rewrite Hr. Qed.
Lemma carried_vote_back b from data t : carries (VoteBack b from data) t → ∃ reply, t = VoteRep b from reply ∧ receive_vote data = Ok reply.
Proof. inversion 1; subst. eexists. split; [done|]. apply receive_back; [constructor|apply vote_reply_back]. Qed.
Lemma carried_append_back from peer entries data t : carries (AppendBack from peer entries data) t → ∃ reply,
  t = AppendRep from peer entries reply ∧ receive_append data = Ok reply.
Proof. inversion 1; subst. eexists. split; [done|]. apply receive_back; [constructor|apply append_reply_back]. Qed.

(** Taking a task of the cluster that another order gives. *)
Lemma take_task c t rest : c_tasks c ≡ₚ t :: rest → ∃ i c', c_tasks c !! i = Some t ∧ remove_task i c = c' ∧ c_tasks c' ≡ₚ rest ∧ same_nodes c' c.
Proof.
  intros Hp. assert (t ∈ c_tasks c) as [i Hi]%list_elem_of_lookup by (rewrite Hp; left). exists i, (remove_task i c). split; [done|].
  split; [done|]. split; [|done]. cbn. apply (Permutation_cons_inv (a := t)). rewrite <- Hp. rewrite <- (take_drop_middle _ _ _ Hi) at 3. by rewrite Permutation_middle.
Qed.
Lemma remove_at {A} (l : list A) j a : l !! j = Some a → l ≡ₚ a :: take j l ++ drop (S j) l.
Proof. intros Hj. rewrite <- (take_drop_middle _ _ _ Hj) at 1. by rewrite Permutation_middle. Qed.
Lemma carries_at xs ts j x : Forall2 carries xs ts → xs !! j = Some x → ∃ t, carries x t ∧
  Forall2 carries (take j xs ++ drop (S j) xs) (take j ts ++ drop (S j) ts) ∧ ts ≡ₚ t :: take j ts ++ drop (S j) ts.
Proof.
  intros Hall Hj. destruct (Forall2_lookup_l _ _ _ _ _ Hall Hj) as (t & Ht & Hc). exists t. split; [done|]. split; [|by apply remove_at].
  apply Forall2_app; [by apply Forall2_take|by apply Forall2_drop].
Qed.

Lemma rep_perm n c c' : net_rep n c → same_nodes c c' → c_tasks c ≡ₚ c_tasks c' → net_rep n c'.
Proof.
  intros ((H1 & H2 & H3) & Hw & ts & Hts & Hp) (E1 & E2 & E3) Hp'. split; [split; [congruence|split; congruence]|]. split; [done|]. exists ts. by rewrite <- Hp'.
Qed.
Lemma rep_add_conn n c x t : net_rep n c → carries x t → net_rep (add_conn x n) (add_tasks [t] c).
Proof.
  intros (Hs & Hw & ts & Hts & Hp) Hx. split; [exact Hs|]. split; [exact Hw|]. exists (ts ++ [t]). split; [by apply Forall2_app; [|constructor]|].
  cbn. by rewrite Hp, app_assoc.
Qed.
Lemma rep_set_node n c id r : net_rep n c → net_rep (with_cluster (set_node id r (nt_cluster n)) n) (set_node id r c).
Proof. intros ((H1 & H2 & H3) & Hw & ts & Hts & Hp). split; [by split; cbn; [rewrite H1|]|]. split; [exact Hw|]. by exists ts. Qed.
Lemma rep_take_conn n c j x : net_rep n c → nt_conns n !! j = Some x →
  ∃ i t, c_tasks c !! i = Some t ∧ carries x t ∧ net_rep (remove_conn j n) (remove_task i c).
Proof.
  intros ((H1 & H2 & H3) & Hw & ts & Hts & Hp) Hj. destruct (carries_at _ _ _ _ Hts Hj) as (t & Hx & Hts' & Hpt).
  destruct (take_task c t (c_tasks (nt_cluster n) ++ take j ts ++ drop (S j) ts)) as (i & c' & Hi & <- & Hp' & _).
  { rewrite Hp, Hpt at 1. by rewrite <- Permutation_middle. }
  exists i, t. split; [done|]. split; [done|]. split; [done|]. split; [exact Hw|]. by exists (take j ts ++ drop (S j) ts).
Qed.
Lemma rep_take_task n c i t : net_rep n c → c_tasks (nt_cluster n) !! i = Some t →
  ∃ i', c_tasks c !! i' = Some t ∧ net_rep (with_cluster (remove_task i (nt_cluster n)) n) (remove_task i' c).
Proof.
  intros ((H1 & H2 & H3) & Hw & ts & Hts & Hp) Hi.
  destruct (take_task c t (c_tasks (remove_task i (nt_cluster n)) ++ ts)) as (i' & c' & Hi' & <- & Hp' & _).
  { rewrite Hp. by rewrite (remove_at _ _ _ Hi) at 1. }
  exists i'. split; [done|]. split; [done|]. split; [exact Hw|]. by exists ts.
Qed.

(** What a node does by itself, whatever else is under way. *)
Lemma local_step l k c k' : same_nodes k c → match l with LTick _ _ _ | LPropose _ _ _ => True | _ => False end →
  cstep l k = Ok k' → ∃ c' new, cstep l c = Ok c' ∧ same_nodes k' c' ∧ c_tasks k' = c_tasks k ++ new ∧ c_tasks c' = c_tasks c ++ new.
Proof.
  intros (H1 & H2 & H3) Hl. destruct k as [nodes bs nb ts], c as [nodes' bs' nb' ts']. cbn in H1, H2, H3. subst nodes' bs' nb'.
  destruct l as [id now jitter|id cmd now|i now|i]; [| |done..]; cbn [cstep c_nodes].
  - destruct (nodes !! id) as [r|]; [|intros [= <-]; exists (mkCluster nodes bs nb ts'), []; by rewrite !app_nil_r]. unfold tick.
    destruct (state r); intros [= <-]; [exists (set_node id (tickFollower now jitter r) (mkCluster nodes bs nb ts')), []; by rewrite !app_nil_r|by eexists _, _..].
  - destruct (nodes !! id) as [r|]; [|intros [= <-]; exists (mkCluster nodes bs nb ts'), []; by rewrite !app_nil_r].
    destruct (Propose cmd now r) as [[x|e| |] r']; intros [= <-]; [by eexists _, _|exists (mkCluster nodes bs nb ts'), []; by rewrite !app_nil_r..].
Qed.
Lemma rep_local l n c k : net_rep n c → match l with LTick _ _ _ | LPropose _ _ _ => True | _ => False end →
  cstep l (nt_cluster n) = Ok k → ∃ c', cstep l c = Ok c' ∧ net_rep (with_cluster k n) c'.
Proof.
  intros (Hs & Hw & ts & Hts & Hp) Hl Hk. destruct (local_step l _ _ _ Hs Hl Hk) as (c' & new & Hc & Hs' & Ek & Ec). exists c'. split; [done|].
  split; [done|]. split; [exact Hw|]. exists ts. split; [done|]. cbn. rewrite Ek, Ec, Hp. rewrite <- !app_assoc. by rewrite (Permutation_app_comm ts new).
Qed.
(** What a reply does, whatever else is under way. *)
Lemma rep_return n c t now k : net_rep n c → match t with VoteRep _ _ _ | AppendRep _ _ _ _ => True | _ => False end →
  run_task t 0 (nt_cluster n) = Ok k → ∃ c', run_task t now c = Ok c' ∧ net_rep (with_cluster k n) c'.
Proof.
  intros ((H1 & H2 & H3) & Hw & ts & Hts & Hp) Ht. destruct n as [trs [nodes bs nb tk] conns], c as [nodes' bs' nb' tc]. cbn in *. subst nodes' bs' nb'.
  destruct t as [| |b from reply| | |from to entries reply]; try done; cbn [run_task c_nodes c_ballots].
  - destruct (nodes !! from) as [r|]; [|intros [= <-]; eexists; split; [done|]; split; [done|]; split; [exact Hw|]; by exists ts].
    destruct (bs !! b) as [votes|]; [|intros [= <-]; eexists; split; [done|]; split; [done|]; split; [exact Hw|]; by exists ts].
    destruct (vr_VoteGranted reply); [destruct (count_vote votes r)|];
      intros [= <-]; eexists; (split; [done|]); (split; [done|]); (split; [exact Hw|]); by exists ts.
  - destruct (nodes !! from) as [r|]; intros [= <-]; eexists; (split; [done|]); (split; [done|]); (split; [exact Hw|]); by exists ts.
Qed.

Lemma listener_spec address n id : listener address n = Some id → ∃ t : Transport, nt_transports n !! id = Some t ∧ tr_address t = address.
Proof.
  unfold listener. destruct (list_find _ _) as [[k [id' t]]|] eqn:Hf; [|done]. intros [= <-].
  apply list_find_Some in Hf as (Hin & [_ Ha] & _). exists t. split; [|done]. apply list_elem_of_lookup_2 in Hin. by apply elem_of_map_to_list in Hin.
Qed.
Lemma connect_spec ok (t : Transport) from to (m : list byte) n id data : wired n → nt_transports n !! from = Some t →
  connect ok (address ← peer_address t to; Ok (address, m)) n = Some (id, data) → id = to ∧ data = m.
Proof.
  unfold connect, peer_address. intros Hw Ht. destruct ok; [|done]. destruct (tr_peers t !! to) as [a|] eqn:Ha; [|done]. cbn.
  destruct (listener a n) as [id'|] eqn:Hl; [|done]. intros [= <- <-]. apply listener_spec in Hl as (t' & Ht' & Haddr). split; [|done]. exact (Hw _ _ _ _ _ _ Ht Ha Ht' Haddr).
Qed.

(** The steps of the network, one by one. *)
Lemma rep_call n c i t ok n' : net_rep n c → named c → c_tasks (nt_cluster n) !! i = Some t →
  call t ok (with_cluster (remove_task i (nt_cluster n)) n) = Ok n' → ∃ l c', cstep l c = Ok c' ∧ net_rep n' c'.
Proof.
  intros Hr Hnamed Hi. destruct (rep_take_task n c i t Hr Hi) as (i' & Hi' & Hr1). set (n1 := with_cluster _ n) in *.
  assert (n1 = n' → ∃ l c', cstep l c = Ok c' ∧ net_rep n' c') as Hdrop by (intros <-; by exists (LDrop i'), (remove_task i' c)).
  assert (c_nodes (nt_cluster n1) = c_nodes c) as En by apply Hr1. assert (∀ now, cstep (LRun i' now) c = run_task t now (remove_task i' c)) as Hrun by (intros now; cbn; by rewrite Hi').
  destruct t as [b from to| | |from to| |]; cbn [call]; try (intros [= Hn]; by apply Hdrop).
  - rewrite En. destruct (c_nodes c !! from) as [r|] eqn:Hf; [|intros [= Hn]; by apply Hdrop].
    destruct (nt_transports n1 !! from) as [tr|] eqn:Htr; [|intros [= Hn]; by apply Hdrop].
    destruct (connect _ _ _) as [[id data]|] eqn:Hc; intros [= Hn]; [|by apply Hdrop]. subst n'.
    destruct (connect_spec _ _ _ _ _ _ _ _ (proj1 (proj2 Hr1)) Htr Hc) as [-> ->]. exists (LRun i' 0). eexists. rewrite Hrun. cbn [run_task].
    change (c_nodes (remove_task i' c)) with (c_nodes c). rewrite Hf. split; [done|]. apply rep_add_conn; [done|]. constructor. by apply (Hnamed from).
  - rewrite En. destruct (c_nodes c !! from) as [r|] eqn:Hf; [|intros [= Hn]; by apply Hdrop].
    destruct (nt_transports n1 !! from) as [tr|] eqn:Htr; [|intros [= Hn]; by apply Hdrop].
    destruct (appendArgs to r) as [args|e| |] eqn:Hargs; try done. osteps.
    destruct (connect _ _ _) as [[id data]|] eqn:Hc; intros [= Hn]; [|by apply Hdrop]. subst n'.
    destruct (connect_spec _ _ _ _ _ _ _ _ (proj1 (proj2 Hr1)) Htr Hc) as [-> ->]. exists (LRun i' 0). eexists. rewrite Hrun. cbn [run_task].
    change (c_nodes (remove_task i' c)) with (c_nodes c). rewrite Hf, Hargs. split; [done|]. apply rep_add_conn; [done|].
    assert (aa_LeaderID args = NodeID (config r)) as Hid.
    { unfold appendArgs, mbind, outcome_mbind, outcome_bind in Hargs. repeat (case_match; try discriminate Hargs). all: by injection Hargs as <-. }
    destruct (append_args_back args) as (text & Ht & _); [rewrite Hid; by apply (Hnamed from)|]. rewrite Ht. constructor; [rewrite Hid; by apply (Hnamed from)|done].
Qed.
Lemma rep_serve n c j now x n' : net_rep n c → cluster_ok c → nt_conns n !! j = Some x →
  serve x now (remove_conn j n) = Ok n' → ∃ ls c', crun ls c = Ok c' ∧ net_rep n' c'.
Proof.
  intros Hr Hok Hj. destruct (rep_take_conn n c j x Hr Hj) as (i & t & Hi & Hx & Hr1).
  assert (∀ now, cstep (LRun i now) c = run_task t now (remove_task i c)) as Hrun by (intros; cbn; by rewrite Hi).
  assert (c_nodes (nt_cluster (remove_conn j n)) = c_nodes c) as En by apply Hr1.
  assert (net_rep (add_conn x (remove_conn j n)) c) as Hback.
  { apply (rep_perm _ (add_tasks [t] (remove_task i c))); [by apply rep_add_conn|done|]. cbn. by rewrite (remove_at _ _ _ Hi) at 3; rewrite <- Permutation_cons_append. }
  destruct x as [b from id data|b from data|from peer id entries data|from peer entries data]; cbn [serve]; [|intros [= <-]; by exists [], c| |intros [= <-]; by exists [], c].
  - rewrite En. destruct (c_nodes c !! id) as [r|] eqn:Hid.
    + destruct (carried_vote _ _ _ _ _ now r Hx) as (args & -> & Hh). destruct (RequestVote_step args now r (co_node _ Hok _ _ Hid)) as (reply & r' & Hreq & _). rewrite (Hh _ _ Hreq). intros [= <-].
      exists [LRun i now]. eexists. cbn [crun]. rewrite Hrun. cbn [run_task]. change (c_nodes (remove_task i c)) with (c_nodes c). rewrite Hid, Hreq. split; [done|].
      apply rep_add_conn; [by apply (rep_set_node (remove_conn j n))|constructor].
    + intros [= <-]. exists [LDrop i]. eexists. by split.
  - rewrite En. destruct (c_nodes c !! id) as [r|] eqn:Hid.
    + destruct (carried_append _ _ _ _ _ _ now r Hx) as (args & -> & -> & -> & Hh & Hh'). destruct (handleConnection data now r) as [[reply|e| |] r'] eqn:Hhc; try done. destruct (Hh' _ _ eq_refl) as (reply' & Hap).
      pose proof (Hh _ _ Hap) as Heq. injection Heq as ->. intros [= <-]. exists [LRun i now]. eexists. cbn [crun]. rewrite Hrun. cbn [run_task].
      change (c_nodes (remove_task i c)) with (c_nodes c). rewrite Hid, Hap. split; [done|]. apply rep_add_conn; [by apply (rep_set_node (remove_conn j n))|constructor].
    + intros [= <-]. exists [LDrop i]. eexists. by split.
Qed.

Lemma rep_receive n c j x n' : net_rep n c → nt_conns n !! j = Some x →
  return_from x (remove_conn j n) = Ok n' → ∃ ls c', crun ls c = Ok c' ∧ net_rep n' c'.
Proof.
  intros Hr Hj. destruct (rep_take_conn n c j x Hr Hj) as (i & t & Hi & Hx & Hr1).
  assert (net_rep (add_conn x (remove_conn j n)) c) as Hback.
  { apply (rep_perm _ (add_tasks [t] (remove_task i c))); [by apply rep_add_conn|done|]. cbn. by rewrite (remove_at _ _ _ Hi) at 3; rewrite <- Permutation_cons_append. }
  assert (match t with VoteRep _ _ _ | AppendRep _ _ _ _ => True | _ => False end →
    ∀ k, run_task t 0 (nt_cluster (remove_conn j n)) = Ok k → ∃ ls c', crun ls c = Ok c' ∧ net_rep (with_cluster k (remove_conn j n)) c') as Hret.
  { intros Ht k Hk. destruct (rep_return _ _ _ 0 _ Hr1 Ht Hk) as (c' & Hc & Hr'). exists [LRun i 0], c'. cbn [crun cstep]. rewrite Hi, Hc. by split. }
  destruct x as [b from id data|b from data|from peer id entries data|from peer entries data]; cbn [return_from]; [intros [= <-]; by exists [], c| |intros [= <-]; by exists [], c|].
  - destruct (carried_vote_back _ _ _ _ Hx) as (reply & -> & ->).
    destruct (run_task _ 0 _) as [k|e| |] eqn:Hk; intros [= <-]. exact (Hret I k eq_refl).
  - destruct (carried_append_back _ _ _ _ _ Hx) as (reply & -> & ->).
    destruct (run_task _ 0 _) as [k|e| |] eqn:Hk; intros [= <-]. exact (Hret I k eq_refl).
Qed.

(** Starting and stopping change no address. *)
Lemma rep_transport id (m : M Transport unit) n c n' : net_rep n c → on_transport id m n = Ok n' →
  (∀ t : Transport, tr_address (m t).2 = tr_address t ∧ tr_peers (m t).2 = tr_peers t) → net_rep n' c.
Proof.
  intros (Hs & Hw & Hts) Hn Hm. unfold on_transport in Hn. destruct (nt_transports n !! id) as [tr|] eqn:Htr; [|by injection Hn as <-].
  destruct (Hm tr) as [Ha Hp]. assert (n' = mkNet (<[id := (m tr).2]> (nt_transports n)) (nt_cluster n) (nt_conns n)) as ->.
  { destruct (m tr) as [[x|e| |] t']; cbn; [by injection Hn as <-..|done|by injection Hn as <-]. }
  split; [done|]. split; [|done]. intros from t to address id' t'. cbn. rewrite !lookup_insert.
  assert (∀ y (u : Transport), (if decide (id = y) then Some (m tr).2 else nt_transports n !! y) = Some u →
    ∃ u0 : Transport, nt_transports n !! y = Some u0 ∧ tr_address u = tr_address u0 ∧ tr_peers u = tr_peers u0) as Hback.
  { intros y u. case_decide; [intros [= <-]; subst; by exists tr|intros Hu; by exists u]. }
  intros (t0 & Ht0 & _ & Hp0)%Hback Hto (t1 & Ht1 & Ha1 & _)%Hback Haddr. rewrite Hp0 in Hto. rewrite Ha1 in Haddr. exact (Hw _ _ _ _ _ _ Ht0 Hto Ht1 Haddr).
Qed.
Lemma start_address (listening : Transport → bool) (t : Transport) :
  let m := t ← get_state; Start (if listening t then Some "address already in use" else None) in tr_address (m t).2 = tr_address t ∧ tr_peers (m t).2 = tr_peers t.
Proof. cbn. unfold mbind, M_mbind, M_bind, get_state. by destruct (listening t). Qed.
Lemma stop_address (t : Transport) : tr_address (Stop t).2 = tr_address t ∧ tr_peers (Stop t).2 = tr_peers t.
Proof. unfold Stop, mbind, M_mbind, M_bind, get_state. by destruct (tr_quit t). Qed.

Lemma crun_good ls c c' : cluster_ok c → crun ls c = Ok c' → good_step c c'.
Proof.
  revert c. induction ls as [|l ls IH]; intros c Hc; cbn [crun]; [intros [= <-]; by apply good_refl|].
  destruct (cstep_good l c Hc) as (c1 & -> & Hg). osteps. intros Hrun. eapply good_trans; [exact Hg|]. apply IH; [apply Hg|done].
Qed.
Lemma named_good c c' : configs c' = configs c → named c → named c'.
Proof.
  intros Hc Hn id r Hr. apply (f_equal (lookup id)) in Hc. unfold configs in Hc. rewrite !lookup_fmap, Hr in Hc.
  destruct (c_nodes c !! id) as [r0|] eqn:Hr0; [|done]. injection Hc as ->. by eapply Hn.
Qed.
Lemma net_step_rep l n c n' : net_rep n c → cluster_ok c → named c → net_step l n = Ok n' → ∃ ls c', crun ls c = Ok c' ∧ net_rep n' c'.
Proof.
  intros Hr Hok Hnamed. assert (∀ l c', cstep l c = Ok c' → crun [l] c = Ok c') as Hone by (intros l0 c' Hc; cbn; by rewrite Hc).
  destruct l as [id now jitter|id cmd now|i ok|j now|j|j|id|id]; cbn [net_step].
  - destruct (cstep _ _) as [k|e| |] eqn:Hk; intros [= <-]. destruct (rep_local (LTick id now jitter) n c k Hr I Hk) as (c' & Hc & Hr'). eauto.
  - destruct (cstep _ _) as [k|e| |] eqn:Hk; intros [= <-]. destruct (rep_local (LPropose id cmd now) n c k Hr I Hk) as (c' & Hc & Hr'). eauto.
  - destruct (c_tasks _ !! i) as [t|] eqn:Hi; [|intros [= <-]; by exists [], c]. intros Hc. destruct (rep_call n c i t ok n' Hr Hnamed Hi Hc) as (l & c' & Hl & Hr'). eauto.
  - destruct (nt_conns n !! j) as [x|] eqn:Hj; [|intros [= <-]; by exists [], c]. by apply rep_serve.
  - destruct (nt_conns n !! j) as [x|] eqn:Hj; [|intros [= <-]; by exists [], c]. by apply rep_receive.
  - intros [= <-]. destruct (nt_conns n !! j) as [x|] eqn:Hj.
    + destruct (rep_take_conn n c j x Hr Hj) as (i & t & _ & _ & Hr1). exists [LDrop i]. eexists. by split.
    + exists [], c. split; [done|]. destruct Hr as (Hs & Hw & Hts). split; [done|]. split; [done|]. cbn. apply lookup_ge_None in Hj.
      by rewrite take_ge, drop_ge, app_nil_r by lia.
  - intros Hn. exists [], c. split; [done|]. eapply rep_transport; [exact Hr|exact Hn|]. intros t. apply (start_address (λ t : Transport, bool_decide (is_Some (listener (tr_address t) n)))).
  - intros Hn. exists [], c. split; [done|]. eapply rep_transport; [exact Hr|exact Hn|]. apply stop_address.
Qed.

Lemma rep_cluster_ok n c : net_rep n c → cluster_ok c → cluster_ok (nt_cluster n).
Proof.
  intros ((H1 & H2 & H3) & _ & ts & _ & Hp) [Hn Ht]. split; [rewrite H1; exact Hn|]. intros t Hin.
  apply (task_ok_configs c); [by unfold configs; rewrite H1|]. apply Ht. rewrite Hp. by apply elem_of_app; left.
Qed.
(** Only a second [Stop] panics. *)
Lemma net_step_runs l n c : net_rep n c → cluster_ok c →
  (∃ n', net_step l n = Ok n') ∨ ∃ id (t : Transport), l = NStop id ∧ nt_transports n !! id = Some t ∧ tr_quit t = true.
Proof.
  intros Hr Hok. pose proof (rep_cluster_ok _ _ Hr Hok) as Hok'.
  destruct l as [id now jitter|id cmd now|i ok|j now|j|j|id|id]; cbn [net_step].
  - destruct (cstep_good (LTick id now jitter) _ Hok') as (k & -> & _). by left; eexists.
  - destruct (cstep_good (LPropose id cmd now) _ Hok') as (k & -> & _). by left; eexists.
  - left. destruct (c_tasks _ !! i) as [t|] eqn:Hi; [|by eexists]. destruct (cstep_good (LRun i 0) _ Hok') as (k & Hk & _).
    cbn [cstep] in Hk. rewrite Hi in Hk. destruct t as [b from to| | |from to| |]; cbn [call run_task] in *; try by eexists.
    + repeat case_match; by eexists.
    + change (c_nodes (remove_task i (nt_cluster n))) with (c_nodes (nt_cluster n)) in Hk. cbn [with_cluster nt_cluster nt_transports c_nodes remove_task].
      destruct (c_nodes (nt_cluster n) !! from) as [r|]; [|by eexists]. destruct (appendArgs to r) as [args|e| |]; try done. osteps.
      repeat case_match; by eexists.
  - left. destruct (nt_conns n !! j) as [x|] eqn:Hj; [|by eexists]. destruct (rep_take_conn n c j x Hr Hj) as (i & t & Hi & Hx & Hr1).
    destruct (cstep_good (LRun i now) _ Hok) as (k & Hk & _). cbn [cstep] in Hk. rewrite Hi in Hk.
    assert (c_nodes (nt_cluster (remove_conn j n)) = c_nodes c) as En by apply Hr1.
    destruct x as [b from id data|b from data|from peer id entries data|from peer entries data]; cbn [serve]; [|by eexists| |by eexists].
    + rewrite En. destruct (c_nodes c !! id) as [r|] eqn:Hid; [|by eexists]. destruct (carried_vote _ _ _ _ _ now r Hx) as (args & -> & Hh).
      cbn [run_task] in Hk. change (c_nodes (remove_task i c)) with (c_nodes c) in Hk. rewrite Hid in Hk.
      destruct (RequestVote args now r) as [[reply|e| |] r'] eqn:Hreq; try done. rewrite (Hh _ _ eq_refl). by eexists.
    + rewrite En. destruct (c_nodes c !! id) as [r|] eqn:Hid; [|by eexists]. destruct (carried_append _ _ _ _ _ _ now r Hx) as (args & -> & _ & _ & Hh & _).
      cbn [run_task] in Hk. change (c_nodes (remove_task i c)) with (c_nodes c) in Hk. rewrite Hid in Hk.
      destruct (AppendEntries args now r) as [[reply|e| |] r'] eqn:Hreq; try done. rewrite (Hh _ _ eq_refl). by eexists.
  - left. destruct (nt_conns n !! j) as [x|] eqn:Hj; [|by eexists].
    destruct x as [b from id data|b from data|from peer id entries data|from peer entries data]; cbn [return_from run_task]; [by eexists| |by eexists|].
    + destruct (receive_vote data) as [reply|e| |]; try by eexists. repeat case_match; by eexists.
    + destruct (receive_append data) as [reply|e| |]; try by eexists. case_match; by eexists.
  - left. by eexists.
  - left. unfold on_transport. destruct (nt_transports n !! id) as [t|]; [|by eexists]. unfold mbind, M_mbind, M_bind, get_state.
    case_bool_decide; by eexists.
  - unfold on_transport. destruct (nt_transports n !! id) as [t|] eqn:Ht; [|left; by eexists]. unfold Stop, mbind, M_mbind, M_bind, get_state.
    destruct (tr_quit t) eqn:Hq; [right; by exists id, t|left; by eexists].
Qed.

Fixpoint net_run (ls : list (NetLabel Cmd)) n : outcome (Net Cmd) :=
  match ls with [] => Ok n | l :: ls' => n' ← net_step l n; net_run ls' n' end.
Lemma net_run_rep ls n c n' cfgs now : net_rep n c → reachable cfgs now c → named c → net_run ls n = Ok n' →
  ∃ c', reachable cfgs now c' ∧ net_rep n' c' ∧ named c'.
Proof.
  revert n c. induction ls as [|l ls IH]; intros n c Hr Hc Hn; cbn [net_run]; [intros [= <-]; by exists c|].
  destruct (net_step l n) as [n1|e| |] eqn:Hs; try done. osteps.
  destruct (net_step_rep l n c n1 Hr (reachable_ok _ _ _ Hc) Hn Hs) as (ks & c1 & Hk & Hr1). intros Hrun.
  apply (IH n1 c1 Hr1); [by eapply crun_reachable| |exact Hrun]. eapply named_good; [|exact Hn]. by apply (crun_good ks c c1 (reachable_ok _ _ _ Hc) Hk).
Qed.
End simulation.

(** C37: Raft runs over its transport as the cluster of [RaftCluster] runs over messages.
    From freshly started nodes whose transports have the addresses of their peers,
    after any sequence of ticks, proposals, calls, handled connections, replies, losses,
    starts and stops, the nodes are in a state that a cluster of messages reaches, the
    texts on connections are the requests and replies that are under way there, and no further step panics
    but a second [Stop] of a transport. *)
Theorem transport_carries_messages {Cmd} `{WireLaws Cmd} cfgs now (transports : gmap string Transport) ls n' :
  let n := mkNet transports (cluster_of (Cmd := Cmd) cfgs now) [] in
  wired n → (∀ cfg, cfg ∈ cfgs → ascii_text (NodeID cfg)) → net_run ls n = Ok n' →
  ∃ c, reachable cfgs now c ∧ c_nodes (nt_cluster n') = c_nodes c ∧
    (∃ ts, Forall2 carries (nt_conns n') ts ∧ c_tasks c ≡ₚ c_tasks (nt_cluster n') ++ ts) ∧
    ∀ l, (∃ n'', net_step l n' = Ok n'') ∨ ∃ id (t : Transport), l = NStop id ∧ nt_transports n' !! id = Some t ∧ tr_quit t = true.
Proof.
  intros n Hw Hnames Hrun.
  assert (named (cluster_of (Cmd := Cmd) cfgs now)) as Hnamed.
  { intros id r. cbn. intros Hin%elem_of_list_to_map_2. apply list_elem_of_fmap in Hin as (cfg & [= -> ->] & Hcfg). by apply Hnames. }
  assert (net_rep n (cluster_of cfgs now)) as Hr by (split; [done|split; [exact Hw|exists []; by split]]).
  destruct (net_run_rep ls n _ n' cfgs now Hr (reach_start _ _) Hnamed Hrun) as (c & Hc & Hr' & _). exists c. split; [done|].
  pose proof Hr' as ((Hn & _) & _ & Hts). split; [exact Hn|]. split; [exact Hts|]. intros l. by apply net_step_runs with c; [|eapply reachable_ok].
Qed.

(** ** An example

    An election of [a] over the transport. *)

Definition vote_tuple (a : RequestVoteArgs) := (va_Term a, va_CandidateID a, va_LastLogIndex a, va_LastLogTerm a).
Definition entry_tuple (e : LogEntry nat) := (Term e, Index e, Command e, Timestamp e).
Definition append_tuple (a : AppendEntriesArgs nat) :=
  (aa_Term a, aa_LeaderID a, aa_PrevLogIndex a, aa_PrevLogTerm a, entry_tuple <$> aa_Entries a, aa_LeaderCommit a).
Definition parsed {A B} `{Countable A} (f : A → B) (data : list byte) : outcome B :=
  match decode (example_unbits data) with Some a => Ok (f a) | None => Err "invalid" end.
#[local] Instance example_wire : WireText nat := {
  vote_args_text a := example_bits (encode (vote_tuple a));
  vote_args_parse := parsed (λ '(a, b, c, d), mkVoteArgs a b c d);
  vote_reply_text r := example_bits (encode (vr_Term r, vr_VoteGranted r));
  vote_reply_parse := parsed (λ '(a, b), mkVoteReply a b);
  append_args_text a := Some (example_bits (encode (append_tuple a)));
  append_args_parse := parsed (λ '(a, b, c, d, e, f), mkAppendArgs a b c d ((λ '(t, i, x, s), mkEntry t i x s) <$> e) f);
  append_reply_text r := example_bits (encode (ar_Term r, ar_Success r));
  append_reply_parse := parsed (λ '(a, b), mkAppendReply a b);
  msg_text m := example_bits (encode (msg_Type m, example_unbits (msg_Payload m)));
  msg_parse := parsed (λ '(a, b), mkMsg a (example_bits b));
}.
Lemma parsed_back {A B} `{Countable A} (f : A → B) a b : f a = b → parsed f (example_bits (encode a)) = Ok b.
Proof. intros <-. unfold parsed. by rewrite example_bits_back, decode_encode. Qed.
#[local] Instance example_wire_laws : WireLaws nat.
Proof.
  split.
  - intros args _. apply parsed_back. by destruct args.
  - intros reply. apply parsed_back. by destruct reply.
  - intros args _. eexists. split; [done|]. apply parsed_back. destruct args as [a b c d es f]. cbn. f_equal.
    rewrite <- list_fmap_compose. rewrite <- (list_fmap_id es) at 2. apply list_fmap_ext. by intros i [] _.
  - intros reply. apply parsed_back. by destruct reply.
  - intros type payload Hp. apply parsed_back. cbn. f_equal. assert (∃ p, payload = example_bits p) as [p ->]; [|by rewrite example_bits_back].
    destruct Hp as [args|reply|args data [= <-]|reply]; by eexists.
Qed.

Definition example_address (id : string) : string := "host-" +:+ id.
Definition example_transport (cfg : Config) : Transport :=
  foldl (λ t peer, AddPeer peer (example_address peer) t) (NewTransport (NodeID cfg) (example_address (NodeID cfg))) (Peers cfg).
Definition example_transports : gmap string Transport :=
  list_to_map ((λ cfg, (NodeID cfg, example_transport cfg)) <$> three_nodes).
Definition example_net : Net nat := mkNet example_transports (cluster_of three_nodes 0) [].
Definition example_calls : list (NetLabel nat) :=
  [NStart "a"; NStart "b"; NTick "a" late 0; NTick "a" late 0; NCall 0 true; NServe 0 late; NCall 0 true; NReturn 0].
Definition elected : outcome (Net nat) := net_run example_calls example_net.
Lemma elected_runs : ∃ n', elected = Ok n' ∧ state (node_of "a" (nt_cluster n')) = Leader ∧ nt_conns n' = [].
Proof. vm_compute. eexists. split; [reflexivity|]. split; reflexivity. Qed.
Lemma example_wired : wired example_net.
Proof.
  assert (map_Forall (λ id (t : Transport), tr_address t = example_address id ∧ map_Forall (λ to a, a = example_address to) (tr_peers t)) example_transports) as Hall.
  { refine (bool_decide_unpack _ _). vm_compute. exact I. }
  intros from t to address id t' Ht Hto Ht' <-. destruct (Hall _ _ Ht) as [_ Hp]. destruct (Hall _ _ Ht') as [Ha _].
  specialize (Hp _ _ Hto). rewrite Ha in Hp. unfold example_address in Hp. change (String "h" (String "o" (String "s" (String "t" (String "-" id)))) = String "h" (String "o" (String "s" (String "t" (String "-" to))))) in Hp. by injection Hp.
Qed.

Lemma transport_carries_messages_witness : ∃ n' c, elected = Ok n' ∧ reachable three_nodes 0 c ∧ c_nodes (nt_cluster n') = c_nodes c ∧
  state (node_of "a" c) = Leader.
Proof.
  destruct elected_runs as (n' & Hn & Hlead & _). exists n'.
  destruct (transport_carries_messages three_nodes 0 example_transports example_calls n') as (c & Hc & Hnodes & _).
  - exact example_wired.
  - assert (Forall (λ cfg, Forall (λ c, nat_of_ascii c < 128) (String.list_ascii_of_string (NodeID cfg))) three_nodes) as Hall.
    { refine (bool_decide_unpack _ _). vm_compute. exact I. }
    rewrite Forall_forall in Hall. exact Hall.
  - exact Hn.
  - exists c. split; [exact Hn|]. split; [exact Hc|]. split; [exact Hnodes|]. unfold node_of in *. by rewrite <- Hnodes.
Defined.
