(* ===== verification/Transaction.v ===== *)
(** * Transactions ([internal/transaction/transaction.go])

    Transactions live behind pointers: the manager's map and the clients share them,
    and clients call the methods of a transaction directly as well as through the
    manager.  [Heap] holds the transactions, [TransactionManager] the map.  Values
    of operations are of any type.  The locks serialise the methods. *)

From S2P Require Import Prelude.

Inductive TransactionState := TransactionActive | TransactionCommitted | TransactionAborted.
#[global] Instance TransactionState_eq_dec : EqDecision TransactionState.
Proof. solve_decision. Defined.
Definition TransactionState_String (s : TransactionState) : string :=
  match s with
  | TransactionActive => "active"
  | TransactionCommitted => "committed"
  | TransactionAborted => "aborted"
  end.

Section transaction.
Context {V : Type}.

Record Operation := mkOperation {
  op_Type : string;
  op_Table : string;
  op_Key : string;
  op_Value : V;
  op_OldValue : V;
  op_Timestamp : Z;
}.

(** Times in seconds; [t_CommitTime] is [None] for the zero time. *)
Record Transaction := mkTransaction {
  t_ID : string;
  t_State : TransactionState;
  t_Operations : list Operation;
  t_StartTime : Z;
  t_CommitTime : option Z;
}.

Definition NewTransaction (id : string) (now : Z) : Transaction :=
  mkTransaction id TransactionActive [] now None.

Definition stamp (now : Z) (op : Operation) : Operation :=
  mkOperation (op_Type op) (op_Table op) (op_Key op) (op_Value op) (op_OldValue op) now.

Definition not_active : string := "transaction is not active".

(** The methods of a transaction. *)
Definition txn_AddOperation (op : Operation) (now : Z) : M Transaction unit :=
  t ← get_state;
  if bool_decide (t_State t ≠ TransactionActive) then fail not_active
  else put_state (mkTransaction (t_ID t) (t_State t) (t_Operations t ++ [stamp now op]) (t_StartTime t) (t_CommitTime t)).

Definition txn_Commit (now : Z) : M Transaction unit :=
  t ← get_state;
  if bool_decide (t_State t ≠ TransactionActive) then fail not_active
  else put_state (mkTransaction (t_ID t) TransactionCommitted (t_Operations t) (t_StartTime t) (Some now)).

Definition txn_Abort : M Transaction unit :=
  t ← get_state;
  if bool_decide (t_State t ≠ TransactionActive) then fail not_active
  else put_state (mkTransaction (t_ID t) TransactionAborted [] (t_StartTime t) (t_CommitTime t)).

Definition GetOperations (t : Transaction) : list Operation := t_Operations t.

(** ** The manager *)

Record TransactionManager := mkTM {
  tm_transactions : gmap string nat;
  tm_heap : gmap nat Transaction;
  tm_next : nat;
}.
Definition NewTransactionManager : TransactionManager := mkTM ∅ ∅ 0.

Definition set_txn (l : nat) (t : Transaction) (tm : TransactionManager) : TransactionManager :=
  mkTM (tm_transactions tm) (<[l := t]> (tm_heap tm)) (tm_next tm).

(** A method called on the transaction at [l]. *)
Definition on_txn {A} (l : nat) (m : M Transaction A) : M TransactionManager A := λ tm,
  match tm_heap tm !! l with
  | Some t => let '(r, t') := m t in (r, set_txn l t' tm)
  | None => (Panic, tm)
  end.

Definition err_exists (id : string) : string := "transaction " +:+ id +:+ " already exists".
Definition err_not_found (id : string) : string := "transaction " +:+ id +:+ " not found".

Definition tm_Begin (id : string) (now : Z) : M TransactionManager nat :=
  tm ← get_state;
  match tm_transactions tm !! id with
  | Some _ => fail (err_exists id)
  | None =>
      let l := tm_next tm in
      put_state (mkTM (<[id := l]> (tm_transactions tm)) (<[l := NewTransaction id now]> (tm_heap tm)) (S l));;
      mret l
  end.

Definition tm_Get (id : string) : M TransactionManager nat :=
  tm ← get_state;
  match tm_transactions tm !! id with
  | None => fail (err_not_found id)
  | Some l => mret l
  end.

Definition tm_remove (id : string) : M TransactionManager unit :=
  modify (λ tm, mkTM (delete id (tm_transactions tm)) (tm_heap tm) (tm_next tm)).

(** The loop over the operations does nothing with them. *)
Definition apply_op (op : Operation) : M TransactionManager unit := mret ().

Definition tm_Commit (id : string) (now : Z) : M TransactionManager unit :=
  l ← tm_Get id;
  on_txn l (txn_Commit now);;
  tm ← get_state;
  for_each apply_op (match tm_heap tm !! l with Some t => t_Operations t | None => [] end);;
  tm_remove id.

Definition tm_Abort (id : string) : M TransactionManager unit :=
  l ← tm_Get id;
  on_txn l txn_Abort;;
  tm_remove id.

(** In the order in which the map is visited, here that of [map_to_list]. *)
Definition GetActiveTransactions (tm : TransactionManager) : list nat :=
  filter (λ l, t_State <$> tm_heap tm !! l = Some TransactionActive) (snd <$> map_to_list (tm_transactions tm)).

(** ** Clients *)

(** A call: through the manager, or on a transaction the client holds. *)
Inductive call :=
| CBegin (id : string) (now : Z)
| CGet (id : string)
| CCommit (id : string) (now : Z)
| CAbort (id : string)
| CTxnAdd (l : nat) (op : Operation) (now : Z)
| CTxnCommit (l : nat) (now : Z)
| CTxnAbort (l : nat).

Definition exec (c : call) : M TransactionManager (option nat) :=
  match c with
  | CBegin id now => l ← tm_Begin id now; mret (Some l)
  | CGet id => l ← tm_Get id; mret (Some l)
  | CCommit id now => tm_Commit id now;; mret None
  | CAbort id => tm_Abort id;; mret None
  | CTxnAdd l op now => on_txn l (txn_AddOperation op now);; mret None
  | CTxnCommit l now => on_txn l (txn_Commit now);; mret None
  | CTxnAbort l => on_txn l txn_Abort;; mret None
  end.

(** The state after a sequence of calls, whatever they return. *)
Definition run_calls (cs : list call) (tm : TransactionManager) : TransactionManager :=
  foldl (λ tm c, (exec c tm).2) tm cs.

(** ** Invariants *)

Implicit Types (tm : TransactionManager) (t : Transaction).

Record tm_ok tm : Prop := {
  tm_map id l : tm_transactions tm !! id = Some l → ∃ t, tm_heap tm !! l = Some t ∧ t_ID t = id;
  tm_fresh l t : tm_heap tm !! l = Some t → l < tm_next tm;
}.

Lemma NewTransactionManager_ok : tm_ok NewTransactionManager.
Proof. split; [by intros id l ?|by intros l t ?]. Qed.

(** What a method may do to a transaction. *)
Definition txn_le (t t' : Transaction) : Prop :=
  t_ID t' = t_ID t ∧ (t_State t ≠ TransactionActive → t' = t).

(** Each method fails, leaving the transaction as it is, or finds it active. *)
Lemma txn_AddOperation_le op now t : txn_le t (txn_AddOperation op now t).2.
Proof. unfold txn_AddOperation. mrun. by case_bool_decide. Qed.
Lemma txn_Commit_le now t : txn_le t (txn_Commit now t).2.
Proof. unfold txn_Commit. mrun. by case_bool_decide. Qed.
Lemma txn_Abort_le t : txn_le t (txn_Abort t).2.
Proof. unfold txn_Abort. mrun. by case_bool_decide. Qed.

(** The ways a call changes the manager. *)
Inductive tm_step : TransactionManager → TransactionManager → Prop :=
| ts_refl tm : tm_step tm tm
| ts_begin id now tm : tm_transactions tm !! id = None →
    tm_step tm (mkTM (<[id := tm_next tm]> (tm_transactions tm))
                     (<[tm_next tm := NewTransaction id now]> (tm_heap tm)) (S (tm_next tm)))
| ts_txn l t t' tm : tm_heap tm !! l = Some t → txn_le t t' → tm_step tm (set_txn l t' tm)
| ts_remove id l t t' tm : tm_transactions tm !! id = Some l → tm_heap tm !! l = Some t →
    t_State t = TransactionActive → txn_le t t' →
    tm_step tm (mkTM (delete id (tm_transactions tm)) (<[l := t']> (tm_heap tm)) (tm_next tm)).

Lemma on_txn_step {A} l (m : M Transaction A) tm :
  (∀ t, txn_le t (m t).2) → tm_step tm (on_txn l m tm).2.
Proof.
  intros Hm. unfold on_txn. destruct (tm_heap tm !! l) as [t|] eqn:Ht; [|constructor].
  specialize (Hm t). destruct (m t) as [o t']. by apply ts_txn with t.
Qed.

Lemma bind_ret_state {S A B} (m : M S A) (f : A → B) s : (m ≫= (λ a, mret (f a))) s = 
  match m s with
  | (Ok a, s') => (Ok (f a), s') | (Err e, s') => (Err e, s') | (Panic, s') => (Panic, s') | (NoFuel, s') => (NoFuel, s')
  end.
Proof. mrun. by destruct (m s) as [[]]. Qed.
Lemma bind_ret_snd {S A B} (m : M S A) (f : A → B) s : ((m ≫= (λ a, mret (f a))) s).2 = (m s).2.
Proof. rewrite bind_ret_state. by destruct (m s) as [[]]. Qed.

Lemma for_each_apply ops tm : for_each apply_op ops tm = (Ok (), tm).
Proof. induction ops as [|op ops IH]; [done|]. simpl. by rewrite (bind_ok (apply_op op) _ tm () tm eq_refl). Qed.

(** The manager's [Commit] and [Abort] on each branch. *)
Lemma tm_Commit_run id now tm :
  tm_Commit id now tm =
    match tm_transactions tm !! id with
    | None => (Err (err_not_found id), tm)
    | Some l =>
        match tm_heap tm !! l with
        | None => (Panic, tm)
        | Some t =>
            match txn_Commit now t with
            | (Ok _, t') => (Ok (), mkTM (delete id (tm_transactions tm)) (<[l := t']> (tm_heap tm)) (tm_next tm))
            | (Err e, t') => (Err e, set_txn l t' tm)
            | (Panic, t') => (Panic, set_txn l t' tm)
            | (NoFuel, t') => (NoFuel, set_txn l t' tm)
            end
        end
    end.
Proof.
  unfold tm_Commit, tm_Get. unfold mbind at 1, M_mbind at 1, M_bind at 1. mrun.
  destruct (tm_transactions tm !! id) as [l|]; [|done]. unfold on_txn.
  destruct (tm_heap tm !! l) as [t|]; [|done].
  destruct (txn_Commit now t) as [[[]|e| |] t']; [|done..].
  by rewrite for_each_apply.
Qed.

Lemma tm_Abort_run id tm :
  tm_Abort id tm =
    match tm_transactions tm !! id with
    | None => (Err (err_not_found id), tm)
    | Some l =>
        match tm_heap tm !! l with
        | None => (Panic, tm)
        | Some t =>
            match txn_Abort t with
            | (Ok _, t') => (Ok (), mkTM (delete id (tm_transactions tm)) (<[l := t']> (tm_heap tm)) (tm_next tm))
            | (Err e, t') => (Err e, set_txn l t' tm)
            | (Panic, t') => (Panic, set_txn l t' tm)
            | (NoFuel, t') => (NoFuel, set_txn l t' tm)
            end
        end
    end.
Proof.
  unfold tm_Abort, tm_Get. mrun.
  destruct (tm_transactions tm !! id) as [l|]; [|done]. unfold on_txn.
  destruct (tm_heap tm !! l) as [t|]; [|done].
  by destruct (txn_Abort t) as [[[]|e| |] t'].
Qed.

Lemma txn_Commit_active now t t' a : txn_Commit now t = (Ok a, t') → t_State t = TransactionActive.
Proof. unfold txn_Commit. mrun. by case_bool_decide. Qed.
Lemma txn_Abort_active t t' a : txn_Abort t = (Ok a, t') → t_State t = TransactionActive.
Proof. unfold txn_Abort. mrun. by case_bool_decide. Qed.

Lemma exec_step c tm : tm_step tm (exec c tm).2.
Proof.
  destruct c as [id now|id|id now|id|l op now|l now|l]; simpl; rewrite bind_ret_snd.
  - unfold tm_Begin. mrun. destruct (tm_transactions tm !! id) eqn:E; [constructor|by apply ts_begin].
  - unfold tm_Get. mrun. destruct (tm_transactions tm !! id); constructor.
  - rewrite tm_Commit_run. destruct (tm_transactions tm !! id) as [l|] eqn:E; [|constructor].
    destruct (tm_heap tm !! l) as [t|] eqn:Et; [|constructor].
    pose proof (txn_Commit_le now t) as Hle. pose proof (txn_Commit_active now t) as Ha.
    destruct (txn_Commit now t) as [[[]|e| |] t']; [|by apply ts_txn with t..]. by apply ts_remove with t; eauto.
  - rewrite tm_Abort_run. destruct (tm_transactions tm !! id) as [l|] eqn:E; [|constructor].
    destruct (tm_heap tm !! l) as [t|] eqn:Et; [|constructor].
    pose proof (txn_Abort_le t) as Hle. pose proof (txn_Abort_active t) as Ha.
    destruct (txn_Abort t) as [[[]|e| |] t']; [|by apply ts_txn with t..]. by apply ts_remove with t; eauto.
  - apply on_txn_step. intros t. apply txn_AddOperation_le.
  - apply on_txn_step. intros t. apply txn_Commit_le.
  - apply on_txn_step. intros t. apply txn_Abort_le.
Qed.

Lemma tm_step_ok tm tm' : tm_step tm tm' → tm_ok tm → tm_ok tm'.
Proof.
  intros Hs Hok. destruct Hs as [tm|id now tm Hn|l t t' tm Ht [Hid _]|id l t t' tm Hl Ht _ [Hid _]]; [done|..].
  - split; cbn; [intros id' l'|intros l' t]; rewrite lookup_insert.
    + case_decide; [intros [= <-]; rewrite lookup_insert_eq; subst; by eexists|].
      intros Hl. destruct (tm_map _ Hok _ _ Hl) as (t & Ht & ?). exists t.
      rewrite lookup_insert_ne; [done|]. intros <-. apply (tm_fresh _ Hok) in Ht. lia.
    + case_decide; [lia|]. intros Ht%(tm_fresh _ Hok). lia.
  - split; cbn.
    + intros id' l' Hl'. destruct (tm_map _ Hok _ _ Hl') as (t1 & Ht1 & <-). rewrite lookup_insert.
      case_decide; simplify_eq; eauto.
    + intros l' t1. rewrite lookup_insert. case_decide; [intros _; subst; by apply (tm_fresh _ Hok) in Ht|].
      by apply Hok.
  - split; cbn.
    + intros id' l' [_ Hl']%lookup_delete_Some. destruct (tm_map _ Hok _ _ Hl') as (t1 & Ht1 & <-).
      rewrite lookup_insert. case_decide; simplify_eq; eauto.
    + intros l' t1. rewrite lookup_insert. case_decide; [intros _; subst; by apply (tm_fresh _ Hok) in Ht|].
      by apply Hok.
Qed.

Lemma tm_step_final tm tm' l t :
  tm_step tm tm' → tm_ok tm → tm_heap tm !! l = Some t → t_State t ≠ TransactionActive →
  tm_heap tm' !! l = Some t ∧ ∀ id, tm_transactions tm !! id = Some l → tm_transactions tm' !! id = Some l.
Proof.
  intros Hs Hok Hl Hf. destruct Hs as [tm|id now tm Hn|l1 t1 t' tm Ht Hle|id l1 t1 t' tm Hl1 Ht Hact Hle]; [done|..]; cbn.
  - split.
    + rewrite lookup_insert_ne; [done|]. intros <-. apply (tm_fresh _ Hok) in Hl. lia.
    + intros id' Hid. rewrite lookup_insert_ne; [done|congruence].
  - split; [|done]. rewrite lookup_insert. case_decide; [|done]. simplify_eq. f_equal. by apply Hle.
  - assert (l1 ≠ l) by congruence. split; [by rewrite lookup_insert_ne|].
    intros id' Hid. rewrite lookup_delete_ne; [done|congruence].
Qed.

Lemma run_calls_ok cs : ∀ tm, tm_ok tm → tm_ok (run_calls cs tm).
Proof.
  unfold run_calls. induction cs as [|c cs IH]; intros tm Hok; [done|]. simpl. apply IH.
  by apply (tm_step_ok tm); [apply exec_step|].
Qed.

Lemma run_calls_final cs l t : ∀ tm,
  tm_ok tm → tm_heap tm !! l = Some t → t_State t ≠ TransactionActive →
  tm_heap (run_calls cs tm) !! l = Some t ∧
  ∀ id, tm_transactions tm !! id = Some l → tm_transactions (run_calls cs tm) !! id = Some l.
Proof.
  unfold run_calls. induction cs as [|c cs IH]; intros tm Hok Hl Hf; [done|]. simpl.
  pose proof (exec_step c tm) as Hs. destruct (tm_step_final _ _ _ _ Hs Hok Hl Hf) as [Hl' Hid].
  destruct (IH _ (tm_step_ok _ _ Hs Hok) Hl' Hf) as [? Hid']. split; [done|]. eauto.
Qed.

(** ** Clients that use the manager only *)

Inductive mcall :=
| MBegin (id : string) (now : Z)
| MAdd (id : string) (op : Operation) (now : Z)
| MOps (id : string)
| MCommit (id : string) (now : Z)
| MAbort (id : string).

(** [txn, err := tm.Get(id)] and a method of [txn]. *)
Definition mexec (c : mcall) : M TransactionManager (list Operation) :=
  match c with
  | MBegin id now => tm_Begin id now;; mret []
  | MAdd id op now => l ← tm_Get id; on_txn l (txn_AddOperation op now);; mret []
  | MOps id => l ← tm_Get id; on_txn l (t ← get_state; mret (GetOperations t))
  | MCommit id now => tm_Commit id now;; mret []
  | MAbort id => tm_Abort id;; mret []
  end.

(** The same on a map from the ids of the active transactions to their operations. *)
Definition mspec (c : mcall) (m : gmap string (list Operation)) : outcome (list Operation) * gmap string (list Operation) :=
  match c with
  | MBegin id _ =>
      match m !! id with Some _ => (Err (err_exists id), m) | None => (Ok [], <[id := []]> m) end
  | MAdd id op now =>
      match m !! id with
      | Some ops => (Ok [], <[id := ops ++ [stamp now op]]> m) | None => (Err (err_not_found id), m)
      end
  | MOps id => match m !! id with Some ops => (Ok ops, m) | None => (Err (err_not_found id), m) end
  | MCommit id _ | MAbort id =>
      match m !! id with Some _ => (Ok [], delete id m) | None => (Err (err_not_found id), m) end
  end.

Fixpoint mrun_calls (cs : list mcall) tm : list (outcome (list Operation)) * TransactionManager :=
  match cs with
  | [] => ([], tm)
  | c :: cs' => let '(o, tm1) := mexec c tm in let '(os, tm2) := mrun_calls cs' tm1 in (o :: os, tm2)
  end.
Fixpoint mspec_calls (cs : list mcall) (m : gmap string (list Operation)) : list (outcome (list Operation)) * gmap string (list Operation) :=
  match cs with
  | [] => ([], m)
  | c :: cs' => let '(o, m1) := mspec c m in let '(os, m2) := mspec_calls cs' m1 in (o :: os, m2)
  end.

(** Every transaction of the map is active and has the operations of [m]. *)
Record tm_repr (m : gmap string (list Operation)) tm : Prop := {
  tr_ok : tm_ok tm;
  tr_none id : tm_transactions tm !! id = None → m !! id = None;
  tr_some id l : tm_transactions tm !! id = Some l →
    ∃ t, tm_heap tm !! l = Some t ∧ t_ID t = id ∧ t_State t = TransactionActive ∧ m !! id = Some (t_Operations t);
}.

Lemma tm_repr_new : tm_repr ∅ NewTransactionManager.
Proof. split; [apply NewTransactionManager_ok|done|done]. Qed.

(** A method that succeeds on the active transaction of [id]. *)
Lemma tm_repr_set m tm id l t t' :
  tm_repr m tm → tm_transactions tm !! id = Some l → tm_heap tm !! l = Some t →
  t_ID t' = t_ID t → t_State t' = TransactionActive → txn_le t t' →
  tm_repr (<[id := t_Operations t']> m) (set_txn l t' tm).
Proof.
  intros [Hok Hn Hs] Hl Ht Hid Ha Hle. split.
  - apply (tm_step_ok tm); [by apply ts_txn with t|done].
  - intros id' Hid'. cbn in Hid'. rewrite lookup_insert_ne; [by apply Hn|congruence].
  - intros id' l' Hl'. cbn in *. destruct (Hs id l Hl) as (t0 & Ht0 & Hi0 & _). destruct (Hs id' l' Hl') as (t1 & Ht1 & Hi1 & Ha1 & Hm1).
    destruct (decide (id' = id)) as [->|Hne].
    + simplify_eq. exists t'. rewrite !lookup_insert_eq. split_and!; done.
    + exists t1. rewrite !lookup_insert_ne; [done|congruence|]. intros <-. simplify_eq.
Qed.

Lemma tm_repr_remove m tm id l t t' :
  tm_repr m tm → tm_transactions tm !! id = Some l → tm_heap tm !! l = Some t → txn_le t t' →
  tm_repr (delete id m) (mkTM (delete id (tm_transactions tm)) (<[l := t']> (tm_heap tm)) (tm_next tm)).
Proof.
  intros [Hok Hn Hs] Hl Ht Hle. destruct (Hs id l Hl) as (t0 & Ht0 & Hi0 & Ha0 & _). split.
  - apply (tm_step_ok tm); [by apply ts_remove with t; try congruence|done].
  - intros id'. cbn. rewrite !lookup_delete. case_decide; [done|apply Hn].
  - intros id' l'. cbn. rewrite !lookup_delete. case_decide as Hd; [done|]. intros Hl'.
    destruct (Hs id' l' Hl') as (t1 & Ht1 & Hi1 & ?). exists t1.
    rewrite lookup_insert_ne; [done|]. intros <-. congruence.
Qed.

Lemma tm_repr_begin m tm id now :
  tm_repr m tm → tm_transactions tm !! id = None →
  tm_repr (<[id := []]> m) (mkTM (<[id := tm_next tm]> (tm_transactions tm))
    (<[tm_next tm := NewTransaction id now]> (tm_heap tm)) (S (tm_next tm))).
Proof.
  intros [Hok Hn Hs] Hid. split.
  - by apply (tm_step_ok tm); [apply ts_begin|].
  - intros id'. cbn. rewrite !lookup_insert. case_decide; [done|apply Hn].
  - intros id' l'. cbn. destruct (decide (id' = id)) as [->|Hne].
    + rewrite lookup_insert_eq. intros [= <-]. rewrite !lookup_insert_eq. by eexists.
    + rewrite lookup_insert_ne by done. intros Hl'. destruct (Hs id' l' Hl') as (t1 & Ht1 & ?). exists t1.
      rewrite !lookup_insert_ne; [done|done|]. intros <-. apply (tm_fresh _ Hok) in Ht1. lia.
Qed.

Lemma mexec_refines c m tm :
  tm_repr m tm → ∃ tm', mexec c tm = ((mspec c m).1, tm') ∧ tm_repr (mspec c m).2 tm'.
Proof.
  intros Hr. destruct c as [id now|id op now|id|id now|id]; simpl.
  - unfold tm_Begin. mrun. destruct (tm_transactions tm !! id) as [l|] eqn:E.
    + destruct (tr_some _ _ Hr _ _ E) as (t & _ & _ & _ & ->). eauto.
    + rewrite (tr_none _ _ Hr _ E). eexists. split; [reflexivity|]. by apply tm_repr_begin.
  - unfold tm_Get. mrun. destruct (tm_transactions tm !! id) as [l|] eqn:E; [|rewrite (tr_none _ _ Hr _ E); eauto].
    destruct (tr_some _ _ Hr _ _ E) as (t & Ht & Hid & Ha & ->). unfold on_txn. rewrite Ht.
    unfold txn_AddOperation. mrun. rewrite bool_decide_eq_false_2 by (intros H; by apply H).
    eexists. split; [reflexivity|]. by apply (tm_repr_set m tm id l t (mkTransaction _ _ (t_Operations t ++ [stamp now op]) _ _)).
  - unfold tm_Get. mrun. destruct (tm_transactions tm !! id) as [l|] eqn:E; [|rewrite (tr_none _ _ Hr _ E); eauto].
    destruct (tr_some _ _ Hr _ _ E) as (t & Ht & Hid & Ha & Hm). rewrite Hm. unfold on_txn. rewrite Ht. mrun.
    eexists. split; [reflexivity|]. cbn. rewrite <- (insert_id m id (t_Operations t)) by done.
    by apply (tm_repr_set m tm id l t t).
  - rewrite bind_ret_state, tm_Commit_run.
    destruct (tm_transactions tm !! id) as [l|] eqn:E; [|rewrite (tr_none _ _ Hr _ E); eauto].
    destruct (tr_some _ _ Hr _ _ E) as (t & Ht & Hid & Ha & ->). rewrite Ht. unfold txn_Commit. mrun.
    rewrite bool_decide_eq_false_2 by (intros H; by apply H). eexists. split; [reflexivity|].
    by apply tm_repr_remove with t.
  - rewrite bind_ret_state, tm_Abort_run.
    destruct (tm_transactions tm !! id) as [l|] eqn:E; [|rewrite (tr_none _ _ Hr _ E); eauto].
    destruct (tr_some _ _ Hr _ _ E) as (t & Ht & Hid & Ha & ->). rewrite Ht. unfold txn_Abort. mrun.
    rewrite bool_decide_eq_false_2 by (intros H; by apply H). eexists. split; [reflexivity|].
    by apply tm_repr_remove with t.
Qed.

(** C13: clients that reach their transactions through the manager see a map from
    ids to lists of operations: [Begin] opens an id that is not in use, operations
    are kept in the order in which they are added, [Commit] and [Abort] close the
    id, every call on an id that is not open fails with "not found", and every
    transaction the manager lists is active. *)
Theorem manager_refines_map cs m tm :
  tm_repr m tm →
  ∃ tm', mrun_calls cs tm = ((mspec_calls cs m).1, tm') ∧ tm_repr (mspec_calls cs m).2 tm' ∧
    GetActiveTransactions tm' = snd <$> map_to_list (tm_transactions tm').
Proof.
  revert m tm. induction cs as [|c cs IH]; intros m tm Hr.
  - exists tm. split_and!; [done..|]. unfold GetActiveTransactions. apply filter_all, Forall_forall. intros l (kv & -> & Hkv)%list_elem_of_fmap. destruct kv as [id l].
    apply elem_of_map_to_list in Hkv. simpl. destruct (tr_some _ _ Hr _ _ Hkv) as (t & -> & _ & Ha & _). by simpl; rewrite Ha.
  - destruct (mexec_refines c m tm Hr) as (tm1 & Hrun & Hr1). cbn [mrun_calls mspec_calls]. rewrite Hrun.
    destruct (mspec c m) as [o m1]. destruct (IH m1 tm1 Hr1) as (tm2 & -> & Hr2 & Hact).
    destruct (mspec_calls cs m1) as [os m2]. by exists tm2.
Qed.

(** A finished transaction is final: whatever calls follow, through the manager
    or on transactions held directly, a committed or aborted transaction keeps its
    state, its operations and its times. *)
Theorem finished_is_final cs l t tm :
  tm_ok tm → tm_heap tm !! l = Some t → t_State t ≠ TransactionActive →
  tm_heap (run_calls cs tm) !! l = Some t.
Proof. intros Hok Hl Hf. by apply run_calls_final. Qed.

(** A transaction committed directly, and not through the manager, blocks its
    id for good: whatever calls follow, the manager's [Begin], [Commit] and [Abort]
    of that id all fail. *)
Theorem direct_commit_blocks_id id l t now cs tm now' :
  tm_ok tm → tm_transactions tm !! id = Some l → tm_heap tm !! l = Some t → t_State t = TransactionActive →
  let tm' := run_calls (CTxnCommit l now :: cs) tm in
  (tm_Begin id now' tm').1 = Err (err_exists id) ∧
  (tm_Commit id now' tm').1 = Err not_active ∧ (tm_Abort id tm').1 = Err not_active.
Proof.
  intros Hok Hid Hl Ha tm'.
  set (t1 := mkTransaction (t_ID t) TransactionCommitted (t_Operations t) (t_StartTime t) (Some now)).
  assert (run_calls [CTxnCommit l now] tm = set_txn l t1 tm) as H1.
  { unfold run_calls. simpl. rewrite bind_ret_snd. unfold on_txn. rewrite Hl. unfold txn_Commit. mrun.
    by rewrite bool_decide_eq_false_2 by (intros H; by apply H). }
  assert (tm' = run_calls cs (set_txn l t1 tm)) as Htm by (rewrite <- H1; reflexivity).
  destruct (run_calls_final cs l t1 (set_txn l t1 tm)) as [Hl' Hid'].
  - rewrite <- H1. by apply run_calls_ok.
  - apply lookup_insert_eq.
  - done.
  - specialize (Hid' id Hid). rewrite <- Htm in Hl', Hid'. clearbody tm'. split_and!.
    + unfold tm_Begin. mrun. by rewrite Hid'.
    + by rewrite tm_Commit_run, Hid', Hl'.
    + by rewrite tm_Abort_run, Hid', Hl'.
Qed.
End transaction.

Definition example_op (key : string) : Operation (V:=nat) := mkOperation "insert" "users" key 1 0 0.
Definition example_calls : list (mcall (V:=nat)) :=
  [MBegin "t1" 1; MAdd "t1" (example_op "k") 2; MBegin "t2" 3; MBegin "t1" 4; MCommit "t2" 5; MAbort "t2"; MOps "t1"].

Lemma manager_refines_map_witness :
  ∃ tm', mrun_calls example_calls NewTransactionManager =
      ([Ok []; Ok []; Ok []; Err "transaction t1 already exists"; Ok []; Err "transaction t2 not found";
        Ok [stamp 2 (example_op "k")]], tm') ∧
    tm_repr {["t1" := [stamp 2 (example_op "k")]]} tm' ∧
    GetActiveTransactions tm' = snd <$> map_to_list (tm_transactions tm').
Proof. exact (manager_refines_map example_calls ∅ NewTransactionManager tm_repr_new). Defined.

(** A manager with one open transaction. *)
Definition one_open : TransactionManager (V:=nat) := run_calls [CBegin "t1" 1] NewTransactionManager.
Definition one_aborted : TransactionManager (V:=nat) := run_calls [CBegin "t1" 1; CTxnAbort 0] NewTransactionManager.

Lemma finished_is_final_witness :
  tm_heap (run_calls [CTxnAdd 0 (example_op "k") 2; CCommit "t1" 3; CBegin "t1" 4] one_aborted) !! 0
  = Some (mkTransaction "t1" TransactionAborted [] 1 None).
Proof.
  apply finished_is_final; [|reflexivity|done].
  apply run_calls_ok, NewTransactionManager_ok.
Defined.

Lemma direct_commit_blocks_id_witness :
  let tm' := run_calls [CTxnCommit 0 2; CAbort "t1"] one_open in
  (tm_Begin "t1" 9 tm').1 = Err (err_exists "t1") ∧
  (tm_Commit "t1" 9 tm').1 = Err not_active ∧ (tm_Abort "t1" tm').1 = Err not_active.
Proof.
  apply (direct_commit_blocks_id "t1" 0 (NewTransaction "t1" 1) 2 [CAbort "t1"] one_open 9); try reflexivity.
  apply run_calls_ok, NewTransactionManager_ok.
Defined.
