(* ===== verification/Index.v ===== *)
(** * Secondary indexes ([internal/reql/index.go])

    An index maps the rendering of a value ([Datum.String]) to the ids of the
    documents that have it.  The renderings of numbers, strings and times are those
    of [fmt] and [time], parameters of [Datum_String].  A statement that ranges over
    a map visits its entries in any order: the functions take them as a list. *)

From S2P Require Import Prelude Bytes Order Datum.

(** [fmt.Sprintf("%v", f)], [fmt.Sprintf("%q", s)] and [t.Format(time.RFC3339Nano)]. *)
Class Render := {
  format_float : float64 → string;
  quote : string → string;
  format_time : GoTime → string;
}.

Definition Datum_String `{Render} (h : Heap) (d : Datum) : outcome string :=
  match d with
  | DMinVal => Ok "MINVAL"
  | DMaxVal => Ok "MAXVAL"
  | DNull => Ok "null"
  | DBool b => Ok (if b then "true" else "false")
  | DNum f => Ok (format_float f)
  | DStr s => Ok (quote s)
  | DArray l => Ok ("Array(" +:+ pretty (length l) +:+ " elements)")
  | DObject o =>
      match h_objs h !! o with
      | Some obj => Ok ("Object(" +:+ pretty (obj_Len obj) +:+ " fields)")
      | None => Panic
      end
  | DBinary bs => Ok ("Binary(" +:+ pretty (length bs) +:+ " bytes)")
  | DTime t => Ok (format_time t)
  | DGeometry g => Ok ("Geometry(" +:+ geomType g +:+ ")")
  end.

Record Index := mkIndex {
  idx_Name : string;
  idx_Field : string;
  idx_Data : gmap string (list string);
}.
Definition NewIndex (name field : string) : Index := mkIndex name field ∅.
Definition set_Data (data : gmap string (list string)) (idx : Index) : Index :=
  mkIndex (idx_Name idx) (idx_Field idx) data.

(** The loop of [Remove] that takes out the first occurrence of the id. *)
Fixpoint remove_id (docID : string) (ids : list string) : list string :=
  match ids with
  | [] => []
  | id :: ids' => if bool_decide (id = docID) then ids' else id :: remove_id docID ids'
  end.

Section index.
Context `{Render} (h : Heap).
Implicit Types (idx : Index) (value : Datum).

Definition idx_Add (docID : string) value idx : outcome Index :=
  key ← Datum_String h value;
  Ok (set_Data (<[key := default [] (idx_Data idx !! key) ++ [docID]]> (idx_Data idx)) idx).

Definition idx_Remove (docID : string) value idx : outcome Index :=
  key ← Datum_String h value;
  match idx_Data idx !! key with
  | Some ids =>
      let ids' := remove_id docID ids in
      Ok (set_Data (if bool_decide (ids' = []) then delete key (idx_Data idx)
                    else <[key := ids']> (idx_Data idx)) idx)
  | None => Ok idx
  end.

Definition idx_Update (docID : string) (oldValue newValue : Datum) idx : outcome Index :=
  idx' ← idx_Remove docID oldValue idx; idx_Add docID newValue idx'.

Definition idx_Get value idx : outcome (list string) :=
  key ← Datum_String h value; Ok (default [] (idx_Data idx !! key)).

(** The keys of the map, sorted: their order in the map does not matter. *)
Definition idx_keys idx : list string := sort_Strings (map_to_list (idx_Data idx)).*1.

Definition key_between (lowerKey upperKey k : string) : bool :=
  bool_decide (string_cmp k lowerKey ≠ Lt) && bool_decide (string_cmp k upperKey ≠ Gt).

Definition idx_Between (lower upper : Datum) idx : outcome (list string) :=
  lowerKey ← Datum_String h lower;
  upperKey ← Datum_String h upper;
  Ok (mjoin ((λ k, if key_between lowerKey upperKey k then default [] (idx_Data idx !! k) else []) <$> idx_keys idx)).

Definition idx_GetAll (entries : list (string * list string)) : list string := mjoin entries.*2.
End index.

(** ** The indexes of a table *)

Abbreviation IndexManager := (gmap string Index) (only parsing).
Definition NewIndexManager : IndexManager := ∅.

Definition CreateIndex (name field : string) (im : IndexManager) : outcome IndexManager :=
  match im !! name with
  | Some _ => Err ("index " +:+ name +:+ " already exists")
  | None => Ok (<[name := NewIndex name field]> im)
  end.
Definition index_missing (name : string) : string := "index " +:+ name +:+ " does not exist".
Definition DropIndex (name : string) (im : IndexManager) : outcome IndexManager :=
  match im !! name with
  | Some _ => Ok (delete name im)
  | None => Err (index_missing name)
  end.
Definition GetIndex (name : string) (im : IndexManager) : option Index := im !! name.
Definition ListIndexes (im : IndexManager) : list string := sort_Strings (map_to_list im).*1.

Section build.
Context `{Render} (h : Heap).

(** One document of [BuildIndex]: it is added under the value of its field. *)
Definition index_doc (docID : string) (doc : Datum) (idx : Index) : outcome Index :=
  match doc with
  | DObject o =>
      match h_objs h !! o with
      | Some obj =>
          match obj_Get obj (idx_Field idx) with
          | Some value => idx_Add h docID value idx
          | None => Ok idx
          end
      | None => Panic
      end
  | _ => Ok idx
  end.
Fixpoint index_docs (data : list (string * Datum)) (idx : Index) : outcome Index :=
  match data with
  | [] => Ok idx
  | (docID, doc) :: data' => idx' ← index_doc docID doc idx; index_docs data' idx'
  end.

Definition BuildIndex (name : string) (data : list (string * Datum)) (im : IndexManager) : outcome IndexManager :=
  match im !! name with
  | None => Err (index_missing name)
  | Some idx => idx' ← index_docs data idx; Ok (<[name := idx']> im)
  end.
End build.

(** ** The contents of an index *)

Section contents.
Context `{Render} (h : Heap).
Implicit Types (idx : Index).

(** The index holds the pairs of key and id [l]: each key has its ids, in some
    order, and no key has none. *)
Definition idx_has idx (l : list (string * string)) : Prop :=
  (∀ k, default [] (idx_Data idx !! k) ≡ₚ (filter (λ p, p.1 = k) l).*2) ∧
  (∀ k, idx_Data idx !! k ≠ Some []).

Lemma idx_has_new name field : idx_has (NewIndex name field) [].
Proof. split; intros k; cbn; by rewrite lookup_empty. Qed.

Lemma idx_has_add idx l docID value key :
  idx_has idx l → Datum_String h value = Ok key →
  ∃ idx', idx_Add h docID value idx = Ok idx' ∧ idx_has idx' ((key, docID) :: l) ∧
    idx_Field idx' = idx_Field idx ∧ idx_Name idx' = idx_Name idx.
Proof.
  intros [Hl Hne] Hk. unfold idx_Add. rewrite Hk. osteps. eexists. split; [reflexivity|].
  split; [split|done]; intros k; cbn [set_Data idx_Data]; rewrite lookup_insert; case_decide as Hc.
  - subst k. cbn [default]. unfold default at 1, id. rewrite filter_cons_True by done. rewrite fmap_cons, (Hl key).
    by rewrite Permutation_app_comm.
  - rewrite filter_cons_False by done. apply Hl.
  - intros [= Hn]. by destruct (default [] (idx_Data idx !! key)).
  - apply Hne.
Qed.

Lemma remove_id_perm docID ids : docID ∈ ids → ids ≡ₚ docID :: remove_id docID ids.
Proof.
  induction ids as [|x ids IH]; [by intros ?%not_elem_of_nil|]. simpl.
  case_bool_decide as Hx; [by subst|]. intros [->|Hin]%elem_of_cons; [done|]. rewrite (IH Hin) at 1. constructor.
Qed.
Lemma remove_id_notin docID ids : docID ∉ ids → remove_id docID ids = ids.
Proof.
  induction ids as [|x ids IH]; [done|]. intros [Hne Hni]%not_elem_of_cons. simpl.
  rewrite bool_decide_eq_false_2 by done. by rewrite IH.
Qed.

(** Take one occurrence of a pair out of a list of pairs. *)
Fixpoint remove_pair (p : string * string) (l : list (string * string)) : list (string * string) :=
  match l with
  | [] => []
  | q :: l' => if bool_decide (q = p) then l' else q :: remove_pair p l'
  end.

Lemma remove_pair_perm p l : p ∈ l → l ≡ₚ p :: remove_pair p l.
Proof.
  induction l as [|q l IH]; [by intros ?%not_elem_of_nil|]. simpl.
  case_bool_decide as Hq; [by subst|]. intros [->|Hin]%elem_of_cons; [done|]. rewrite (IH Hin) at 1. constructor.
Qed.

Lemma filter_remove_pair_other key docID k l :
  k ≠ key → filter (λ p, p.1 = k) (remove_pair (key, docID) l) = filter (λ p, p.1 = k) l.
Proof.
  intros Hne. induction l as [|q l IH]; [done|]. simpl. case_bool_decide as Hq.
  - subst q. by rewrite filter_cons_False.
  - rewrite !filter_cons, IH. done.
Qed.
Lemma filter_remove_pair_same key docID l :
  (filter (λ p, p.1 = key) (remove_pair (key, docID) l)).*2 = remove_id docID (filter (λ p, p.1 = key) l).*2.
Proof.
  induction l as [|[k d] l IH]; [done|]. cbn [remove_pair]. destruct (decide (k = key)) as [->|Hk].
  - rewrite (filter_cons_True _ (key, d) l) by done. rewrite fmap_cons. cbn [remove_id snd].
    destruct (decide (d = docID)) as [->|Hd].
    + by rewrite !bool_decide_eq_true_2.
    + rewrite !bool_decide_eq_false_2 by congruence. by rewrite filter_cons_True, fmap_cons, IH.
  - rewrite (filter_cons_False _ (k, d) l) by done. rewrite bool_decide_eq_false_2 by congruence.
    by rewrite filter_cons_False.
Qed.

Lemma remove_id_Permutation docID ids ids' : ids ≡ₚ ids' → remove_id docID ids ≡ₚ remove_id docID ids'.
Proof.
  intros Hp. destruct (decide (docID ∈ ids)) as [Hin|Hni].
  - pose proof Hin as Hin'. rewrite Hp in Hin'. apply (Permutation_cons_inv (a := docID)).
    by rewrite <- !remove_id_perm.
  - rewrite !remove_id_notin; [done| |done]. by rewrite <- Hp.
Qed.

Lemma idx_has_remove idx l docID value key :
  idx_has idx l → Datum_String h value = Ok key →
  ∃ idx', idx_Remove h docID value idx = Ok idx' ∧ idx_has idx' (remove_pair (key, docID) l) ∧
    idx_Field idx' = idx_Field idx ∧ idx_Name idx' = idx_Name idx.
Proof.
  intros [Hl Hne] Hk. unfold idx_Remove. rewrite Hk. osteps. pose proof (Hl key) as Hlk.
  destruct (idx_Data idx !! key) as [ids|] eqn:E.
  - assert (remove_id docID ids ≡ₚ (filter (λ p, p.1 = key) (remove_pair (key, docID) l)).*2) as Hrem.
    { rewrite filter_remove_pair_same. by apply remove_id_Permutation. }
    eexists. split; [reflexivity|]. split; [split|done]; intros k; cbn [set_Data idx_Data].
    + destruct (decide (k = key)) as [->|Hkk]; case_bool_decide as Hnil.
      * rewrite lookup_delete_eq. by rewrite Hnil in Hrem.
      * by rewrite lookup_insert_eq.
      * rewrite lookup_delete_ne by done. by rewrite filter_remove_pair_other.
      * rewrite lookup_insert_ne by done. by rewrite filter_remove_pair_other.
    + case_bool_decide as Hnil; [rewrite lookup_delete|rewrite lookup_insert]; case_decide; [done|apply Hne|congruence|apply Hne].
  - exists idx. split; [done|]. split; [|done]. split; [|done]. intros k.
    destruct (decide (k = key)) as [->|Hkk]; [|by rewrite filter_remove_pair_other].
    rewrite filter_remove_pair_same, E. cbn in *.
    destruct (filter _ l).*2; [done|by apply Permutation_nil_cons in Hlk].
Qed.

Lemma idx_Get_ok idx l value key :
  idx_has idx l → Datum_String h value = Ok key →
  ∃ ids, idx_Get h value idx = Ok ids ∧ ids ≡ₚ (filter (λ p, p.1 = key) l).*2.
Proof. intros [Hl _] Hk. unfold idx_Get. rewrite Hk. osteps. eexists. split; [reflexivity|apply Hl]. Qed.

(** The pairs whose key is between two keys, as texts. *)
Lemma idx_Between_ok idx l lower upper lo hi :
  idx_has idx l → Datum_String h lower = Ok lo → Datum_String h upper = Ok hi →
  ∃ ids, idx_Between h lower upper idx = Ok ids ∧
    ∀ id, id ∈ ids ↔ ∃ k, (k, id) ∈ l ∧ key_between lo hi k = true.
Proof.
  intros [Hl Hne] Hlo Hhi. unfold idx_Between. rewrite Hlo. osteps. rewrite Hhi. osteps.
  eexists. split; [reflexivity|]. intros id. rewrite list_elem_of_join. split.
  - intros (ids & Hid & Hids). apply list_elem_of_fmap in Hids as (k & -> & Hk).
    destruct (key_between lo hi k) eqn:Hb; [|by apply not_elem_of_nil in Hid].
    exists k. split; [|done]. rewrite (Hl k) in Hid. apply list_elem_of_fmap in Hid as ([k' d] & -> & Hin).
    apply list_elem_of_filter in Hin as [? Hin]. simpl in *. by subst.
  - intros (k & Hin & Hb). assert (id ∈ default [] (idx_Data idx !! k)) as Hid.
    { rewrite (Hl k). apply list_elem_of_fmap. exists (k, id). split; [done|]. by apply list_elem_of_filter. }
    exists (default [] (idx_Data idx !! k)). split; [done|].
    apply list_elem_of_fmap. exists k. split; [by rewrite Hb|].
    unfold idx_keys. rewrite sort_Strings_perm. apply list_elem_of_fmap.
    destruct (idx_Data idx !! k) as [ids|] eqn:E; [|by apply not_elem_of_nil in Hid].
    exists (k, ids). split; [done|]. by apply elem_of_map_to_list.
Qed.
End contents.

(** ** The properties of an index *)

Inductive idx_op :=
| IAdd (docID : string) (value : Datum)
| IRemove (docID : string) (value : Datum)
| IUpdate (docID : string) (oldValue newValue : Datum).

Section property.
Context `{Render} (h : Heap).

Definition idx_exec (op : idx_op) (idx : Index) : outcome Index :=
  match op with
  | IAdd id v => idx_Add h id v idx
  | IRemove id v => idx_Remove h id v idx
  | IUpdate id old new => idx_Update h id old new idx
  end.
Fixpoint idx_run (ops : list idx_op) (idx : Index) : outcome Index :=
  match ops with [] => Ok idx | op :: ops' => idx' ← idx_exec op idx; idx_run ops' idx' end.

(** The key of a value, and the operations on a bag of pairs of key and id. *)
Definition text (d : Datum) : string := match Datum_String h d with Ok s => s | _ => "" end.
Definition pairs_step (l : list (string * string)) (op : idx_op) : list (string * string) :=
  match op with
  | IAdd id v => (text v, id) :: l
  | IRemove id v => remove_pair (text v, id) l
  | IUpdate id old new => (text new, id) :: remove_pair (text old, id) l
  end.
Definition renders (d : Datum) : Prop := Datum_String h d = Ok (text d).
Definition op_renders (op : idx_op) : Prop :=
  match op with
  | IAdd _ v | IRemove _ v => renders v
  | IUpdate _ old new => renders old ∧ renders new
  end.

Lemma idx_exec_ok idx l op :
  idx_has idx l → op_renders op → ∃ idx', idx_exec op idx = Ok idx' ∧ idx_has idx' (pairs_step l op).
Proof.
  intros Hl Hr. destruct op as [id v|id v|id old new]; simpl in *.
  - destruct (idx_has_add h idx l id v _ Hl Hr) as (idx' & ? & ? & _). eauto.
  - destruct (idx_has_remove h idx l id v _ Hl Hr) as (idx' & ? & ? & _). eauto.
  - destruct Hr as [Ho Hn]. unfold idx_Update.
    destruct (idx_has_remove h idx l id old _ Hl Ho) as (idx1 & -> & H1 & _). osteps.
    destruct (idx_has_add h idx1 _ id new _ H1 Hn) as (idx2 & -> & H2 & _). eauto.
Qed.

Lemma idx_run_ok ops : ∀ idx l, idx_has idx l → Forall op_renders ops →
  ∃ idx', idx_run ops idx = Ok idx' ∧ idx_has idx' (foldl pairs_step l ops).
Proof.
  induction ops as [|op ops IH]; intros idx l Hl Hr; [by exists idx|].
  apply Forall_cons in Hr as [Ho Hr]. destruct (idx_exec_ok idx l op Hl Ho) as (idx1 & Hx & H1).
  cbn [idx_run foldl]. rewrite Hx. osteps. by apply IH.
Qed.
End property.

(** An index is a bag of pairs of key and document id.  After any additions,
    removals and updates of values that have a rendering, [Get] returns, each as
    often as it was added and not removed, the ids under the rendering of its
    argument, and [Between] the ids under the keys that lie between two renderings
    as texts. *)
Theorem index_is_a_bag `{Render} h ops name field value lower upper :
  Forall (op_renders h) ops → renders h value → renders h lower → renders h upper →
  let l := foldl (pairs_step h) [] ops in
  ∃ idx ids ids', idx_run h ops (NewIndex name field) = Ok idx ∧
    idx_Get h value idx = Ok ids ∧ ids ≡ₚ (filter (λ p, p.1 = text h value) l).*2 ∧
    idx_Between h lower upper idx = Ok ids' ∧
    ∀ id, id ∈ ids' ↔ ∃ k, (k, id) ∈ l ∧ key_between (text h lower) (text h upper) k = true.
Proof.
  intros Hops Hv Hlo Hhi l.
  destruct (idx_run_ok h ops (NewIndex name field) [] (idx_has_new _ _) Hops) as (idx & Hrun & Hl).
  destruct (idx_Get_ok h idx l value _ Hl Hv) as (ids & Hget & Hids).
  destruct (idx_Between_ok h idx l lower upper _ _ Hl Hlo Hhi) as (ids' & Hb & Hids').
  by exists idx, ids, ids'.
Qed.

(** A rendering in which whole numbers are written as [%v] writes them. *)
#[local] Instance example_render : Render := {
  format_float f := pretty (int_of_float f);
  quote s := "'" +:+ s +:+ "'";
  format_time t := pretty (t_ns t);
}.
Definition num (z : Z) : Datum := DNum (float_of_Z z).

Lemma index_is_a_bag_witness :
  let ops := [IAdd "d1" (num 3); IAdd "d2" (num 3); IAdd "d3" (num 5); IRemove "d1" (num 3); IUpdate "d3" (num 5) (num 4)] in
  let l := foldl (pairs_step empty_heap) [] ops in
  ∃ idx ids ids', idx_run empty_heap ops (NewIndex "by_age" "age") = Ok idx ∧
    idx_Get empty_heap (num 3) idx = Ok ids ∧ ids ≡ₚ (filter (λ p, p.1 = text empty_heap (num 3)) l).*2 ∧
    idx_Between empty_heap (num 2) (num 9) idx = Ok ids' ∧
    ∀ id, id ∈ ids' ↔ ∃ k, (k, id) ∈ l ∧
      key_between (text empty_heap (num 2)) (text empty_heap (num 9)) k = true.
Proof.
  apply (index_is_a_bag empty_heap
    [IAdd "d1" (num 3); IAdd "d2" (num 3); IAdd "d3" (num 5); IRemove "d1" (num 3); IUpdate "d3" (num 5) (num 4)]
    "by_age" "age"); try reflexivity. repeat constructor.
Defined.

(** Numbers are compared as texts: 5 is not found between 2 and 10. *)
Lemma between_compares_texts :
  (idx ← idx_run empty_heap [IAdd "d" (num 5)] (NewIndex "by_age" "age");
   idx_Between empty_heap (num 2) (num 10) idx) = Ok [].
Proof. vm_compute. reflexivity. Qed.
