(* ===== verification/Admin.v ===== *)
(** * Databases, tables and sessions ([internal/reql]: admin.go, session.go, changefeed.go, and the tables of evaluator.go)

    [World] is everything queries read and write: the heap of objects, the tables
    behind their pointers, the databases and the configuration of the admin manager,
    and the flat table map of the evaluator.  [w_clock] counts the statements that
    ranged over a map: the order of a visit may differ each time. *)

From S2P Require Import Prelude Bytes Order Datum Index.

(** ** changefeed.go *)

Record ChangeEvent := mkEvent { OldValue : Datum; NewValue : Datum }.
(** [cf_Events] is the buffer of the channel. *)
Record Changefeed := mkFeed { cf_Table : string; cf_Events : list ChangeEvent; cf_closed : bool }.
Definition NewChangefeed (table : string) : Changefeed := mkFeed table [] false.
Definition feed_capacity : nat := 100.
(** The send that drops the event when the buffer is full. *)
Definition cf_Send (ev : ChangeEvent) (cf : Changefeed) : Changefeed :=
  if cf_closed cf then cf
  else if bool_decide (length (cf_Events cf) < feed_capacity)
  then mkFeed (cf_Table cf) (cf_Events cf ++ [ev]) (cf_closed cf) else cf.
Definition cf_Close (cf : Changefeed) : Changefeed := mkFeed (cf_Table cf) (cf_Events cf) true.
Definition cf_IsClosed (cf : Changefeed) : bool := cf_closed cf.

(** ** Tables and databases *)

Record Table := mkTable {
  t_Name : string;
  t_Data : gmap string Datum;
  t_Indexes : IndexManager;
  t_Changefeeds : list Changefeed;
}.
Definition NewTable (name : string) : Table := mkTable name ∅ NewIndexManager [].
Definition DocCount (t : Table) : nat := size (t_Data t).
Definition IndexNames (t : Table) : list string := ListIndexes (t_Indexes t).

Record Database := mkDatabase { db_Name : string; db_Tables : gmap string loc }.
Definition NewDatabase (name : string) : Database := mkDatabase name ∅.

Record World := mkWorld {
  w_heap : Heap;
  w_tables : gmap loc Table;
  w_next : loc;
  w_dbs : gmap string Database;
  w_config : gmap string GoVal;
  w_flat : gmap string loc;
  w_currentDB : string;
  w_clock : nat;
}.

Definition set_heap (h : Heap) (w : World) : World :=
  mkWorld h (w_tables w) (w_next w) (w_dbs w) (w_config w) (w_flat w) (w_currentDB w) (w_clock w).
Definition set_tables (ts : gmap loc Table) (n : loc) (w : World) : World :=
  mkWorld (w_heap w) ts n (w_dbs w) (w_config w) (w_flat w) (w_currentDB w) (w_clock w).
Definition set_dbs (dbs : gmap string Database) (w : World) : World :=
  mkWorld (w_heap w) (w_tables w) (w_next w) dbs (w_config w) (w_flat w) (w_currentDB w) (w_clock w).
Definition set_config (c : gmap string GoVal) (w : World) : World :=
  mkWorld (w_heap w) (w_tables w) (w_next w) (w_dbs w) c (w_flat w) (w_currentDB w) (w_clock w).
Definition set_currentDB (name : string) (w : World) : World :=
  mkWorld (w_heap w) (w_tables w) (w_next w) (w_dbs w) (w_config w) (w_flat w) name (w_clock w).
Definition set_clock (n : nat) (w : World) : World :=
  mkWorld (w_heap w) (w_tables w) (w_next w) (w_dbs w) (w_config w) (w_flat w) (w_currentDB w) n.

(** Operations on objects. *)
Definition on_heap {A} (m : M Heap A) : M World A := zoom w_heap set_heap m.

(** ** Pointers to tables *)

Definition alloc_table (t : Table) : M World loc := λ w,
  (Ok (w_next w), set_tables (<[w_next w := t]> (w_tables w)) (S (w_next w)) w).
Definition read_table (p : loc) : M World Table := λ w,
  match w_tables w !! p with Some t => (Ok t, w) | None => (Panic, w) end.
Definition write_table (p : loc) (t : Table) : M World unit := λ w,
  match w_tables w !! p with
  | Some _ => (Ok (), set_tables (<[p := t]> (w_tables w)) (w_next w) w)
  | None => (Panic, w)
  end.

Definition set_data (d : gmap string Datum) (t : Table) : Table :=
  mkTable (t_Name t) d (t_Indexes t) (t_Changefeeds t).
Definition set_indexes (im : IndexManager) (t : Table) : Table :=
  mkTable (t_Name t) (t_Data t) im (t_Changefeeds t).
Definition set_feeds (cfs : list Changefeed) (t : Table) : Table :=
  mkTable (t_Name t) (t_Data t) (t_Indexes t) cfs.

Section admin.
(** The order in which a range statement visits a map, at its turn. *)
Context (range_order : nat → gmap string Datum → list (string * Datum)).

Definition range_data (data : gmap string Datum) : M World (list (string * Datum)) := λ w,
  (Ok (range_order (w_clock w) data), set_clock (S (w_clock w)) w).

Definition AllDocs (p : loc) : M World (list Datum) :=
  t ← read_table p; entries ← range_data (t_Data t); mret entries.*2.
End admin.

(** ** admin.go *)

(** [NewEvaluator] with [NewAdminManager]. *)
Definition NewEvaluator : World :=
  mkWorld empty_heap ∅ 0 {["test" := NewDatabase "test"]}
    {["server_name" := VString "gothinkdb-server"; "version" := VString "0.1.0"]} ∅ "test" 0.

Definition db_missing (name : string) : string := "database " +:+ name +:+ " does not exist".
Definition set_db (name : string) (db : Database) : M World unit :=
  modify (λ w, set_dbs (<[name := db]> (w_dbs w)) w).
Definition put_table (db : Database) (name : string) (p : loc) : Database :=
  mkDatabase (db_Name db) (<[name := p]> (db_Tables db)).

Definition CreateDatabase (name : string) : M World unit :=
  w ← get_state;
  match w_dbs w !! name with
  | Some _ => fail ("database " +:+ name +:+ " already exists")
  | None => set_db name (NewDatabase name)
  end.

Definition DropDatabase (name : string) : M World unit :=
  w ← get_state;
  match w_dbs w !! name with
  | None => fail (db_missing name)
  | Some _ =>
      if bool_decide (name = "test") then fail "cannot drop default database"
      else modify (set_dbs (delete name (w_dbs w)))
  end.

Definition ListDatabases (w : World) : list string := sort_Strings (map_to_list (w_dbs w)).*1.
Definition GetDatabase (name : string) (w : World) : option Database := w_dbs w !! name.

Definition CreateTable (dbName tableName : string) : M World unit :=
  w ← get_state;
  match w_dbs w !! dbName with
  | None => fail (db_missing dbName)
  | Some db =>
      match db_Tables db !! tableName with
      | Some _ => fail ("table " +:+ tableName +:+ " already exists in database " +:+ dbName)
      | None => p ← alloc_table (NewTable tableName); set_db dbName (put_table db tableName p)
      end
  end.

Definition table_missing (dbName tableName : string) : string :=
  "table " +:+ tableName +:+ " does not exist in database " +:+ dbName.

Definition DropTable (dbName tableName : string) : M World unit :=
  w ← get_state;
  match w_dbs w !! dbName with
  | None => fail (db_missing dbName)
  | Some db =>
      match db_Tables db !! tableName with
      | None => fail (table_missing dbName tableName)
      | Some _ => set_db dbName (mkDatabase (db_Name db) (delete tableName (db_Tables db)))
      end
  end.

Definition ListTables (dbName : string) : M World (list string) :=
  w ← get_state;
  match w_dbs w !! dbName with
  | None => fail (db_missing dbName)
  | Some db => mret (sort_Strings (map_to_list (db_Tables db)).*1)
  end.

Definition GetTable (dbName tableName : string) : M World loc :=
  w ← get_state;
  match w_dbs w !! dbName with
  | None => fail (db_missing dbName)
  | Some db =>
      match db_Tables db !! tableName with
      | None => fail (table_missing dbName tableName)
      | Some p => mret p
      end
  end.

(** The table is removed from every other database, then set in its own. *)
Definition SyncTableRef (dbName tableName : string) (p : loc) : M World bool :=
  modify (λ w, set_dbs (map_imap (λ name db,
     Some (if bool_decide (name = dbName) then db
           else mkDatabase (db_Name db) (delete tableName (db_Tables db)))) (w_dbs w)) w);;
  w ← get_state;
  match w_dbs w !! dbName with
  | None => mret false
  | Some db => set_db dbName (put_table db tableName p);; mret true
  end.

Definition GetConfig (w : World) : gmap string GoVal := w_config w.
Definition SetConfig (key : string) (value : GoVal) : M World unit :=
  modify (λ w, set_config (<[key := value]> (w_config w)) w).

Definition total_tables (dbs : gmap string Database) : nat :=
  map_fold (λ _ db n, size (db_Tables db) + n) 0 dbs.
Definition GetServerStatus (w : World) : gmap string GoVal :=
  {["id" := VString "gothinkdb-server"; "name" := default VNil (w_config w !! "server_name");
    "version" := default VNil (w_config w !! "version");
    "databases" := VInt (Z.of_nat (size (w_dbs w))); "tables" := VInt (Z.of_nat (total_tables (w_dbs w)))]}.

(** ** The tables of the evaluator *)

Definition GetTables (w : World) : list string := (map_to_list (w_flat w)).*1.
Definition GetCurrentDB (w : World) : string := w_currentDB w.
Definition SetCurrentDB (name : string) : M World unit := modify (set_currentDB name).

(** The database and the table are created when they do not exist. *)
Definition GetOrCreateTableDB (dbName tableName : string) : M World loc :=
  w ← get_state;
  (match w_dbs w !! dbName with None => ignore_err (CreateDatabase dbName) | Some _ => mret () end);;
  w ← get_state;
  match w_dbs w !! dbName with
  | None => panic
  | Some db =>
      match db_Tables db !! tableName with
      | Some p => mret p
      | None => p ← alloc_table (NewTable tableName); set_db dbName (put_table db tableName p);; mret p
      end
  end.
Definition GetOrCreateTable (name : string) : M World loc :=
  w ← get_state; GetOrCreateTableDB (w_currentDB w) name.

(** ** session.go *)

(** The decision of an authorizer on a database and the permissions read, write,
    create and drop: the error of a denial. *)
Definition Authorizer : Type := string → bool → bool → bool → bool → option string.
Record Context := mkCtx { c_defaultDB : option string; c_authz : option Authorizer }.
Definition Background : Context := mkCtx None None.

Definition WithSession (ctx : Context) (defaultDB : string) (authz : option Authorizer) : Context :=
  let ctx := if bool_decide (defaultDB ≠ "") then mkCtx (Some defaultDB) (c_authz ctx) else ctx in
  match authz with Some a => mkCtx (c_defaultDB ctx) (Some a) | None => ctx end.
Definition DefaultDBFromContext (ctx : Context) : option string := c_defaultDB ctx.
Definition AuthorizerFromContext (ctx : Context) : option Authorizer := c_authz ctx.

Definition resolveDB (ctx : Context) (explicit : string) (w : World) : string :=
  if bool_decide (explicit ≠ "") then explicit
  else match DefaultDBFromContext ctx with
       | Some db => if bool_decide (db ≠ "") then db else w_currentDB w
       | None => w_currentDB w
       end.

Definition authorize (ctx : Context) (db : string) (read write create drop : bool) : M World unit :=
  match AuthorizerFromContext ctx with
  | None => mret ()
  | Some authz => match authz db read write create drop with None => mret () | Some e => fail e end
  end.

(** ** Well-formed worlds *)

(** Every pointer of a database leads to a table, no two databases or names share
    one, and the objects of the heap have their keys in order. *)
Record world_ok (w : World) : Prop := {
  wo_table dbn db tn p : w_dbs w !! dbn = Some db → db_Tables db !! tn = Some p → is_Some (w_tables w !! p);
  wo_inj dbn1 db1 tn1 dbn2 db2 tn2 p :
    w_dbs w !! dbn1 = Some db1 → db_Tables db1 !! tn1 = Some p →
    w_dbs w !! dbn2 = Some db2 → db_Tables db2 !! tn2 = Some p → dbn1 = dbn2 ∧ tn1 = tn2;
  wo_fresh p t : w_tables w !! p = Some t → p < w_next w;
  wo_heap : heap_ok (w_heap w);
}.

(** The table of a database, if there is one. *)
Definition table_at (w : World) (dbn tn : string) : option loc :=
  db ← w_dbs w !! dbn; db_Tables db !! tn.
Definition table_of (w : World) (dbn tn : string) : option Table :=
  p ← table_at w dbn tn; w_tables w !! p.
(** The documents of a table; none when there is no such table. *)
Definition docs (w : World) (dbn tn : string) : gmap string Datum :=
  match table_of w dbn tn with Some t => t_Data t | None => ∅ end.
