(* ===== verification/Evaluator.v ===== *)
(** * The ReQL evaluator ([internal/reql/evaluator.go])

    A query is a datum: an array of a term number and the term's arguments.  Each
    [eval…] function of the code is a definition of the same name over the [World]
    of [Admin]; the functions call back into the evaluation of their arguments
    through [evalArg], and [evaluateDatum] ties the knot.  The recursion takes fuel,
    one step for each level of nesting of the query.

    What the code leaves to the Go runtime and the standard library is [Runtime]: the
    order of range statements, the sorting algorithm (any order of equal elements),
    the text of JSON documents and the machine's time zone.  Arrays are values here;
    in the code [ORDER_BY] sorts the array it is given in place. *)

From S2P Require Import Prelude Bytes Order Datum Index Admin.

Class Runtime := {
  rt_render :: Render;
  range_order : nat → gmap string Datum → list (string * Datum);
  range_flat : nat → gmap string loc → list (string * loc);
  sort_Slice : (Datum → Datum → outcome bool) → list Datum → outcome (list Datum);
  json_text : JSON → string;
  sprint_v : GoVal → string;
  local_offset : Z → Z;
  (** The depth to which values are compared and marshalled; see [deep]. *)
  value_fuel : nat;
}.

(** What the runtime documents: a range statement visits each entry once, and a
    sort by a consistent order gives the same elements in that order. *)
Class RuntimeLaws `{Runtime} : Prop := {
  range_order_perm n m : range_order n m ≡ₚ map_to_list m;
  range_flat_perm n m : range_flat n m ≡ₚ map_to_list m;
  sort_Slice_sorts D cmp less l :
    order_on D cmp → Forall D l →
    (∀ a b, a ∈ l → b ∈ l → less a b = Ok (bool_decide (cmp a b = Lt))) →
    ∃ l', sort_Slice less l = Ok l' ∧ l' ≡ₚ l ∧ StronglySorted (λ a b, cmp a b ≠ Gt) l';
}.

Section terms.
Context `{Runtime} (ctx : Context) (evalArg : Datum → M World Datum).
Implicit Types (args : list Datum) (doc : Datum).

Definition read_object (o : loc) : M World ObjectData := on_heap (hread o).
Definition new_object (obj : ObjectData) : M World Datum := on_heap (o ← halloc obj; mret (DObject o)).
(** [datum.NewObject(datum.NewObjectDataFromMap(map[string]datum.Datum{…}))] *)
Definition new_result (fs : list (string * Datum)) : M World Datum := on_heap (NewObjectFromMap (list_to_map fs)).
Definition get_heap : M World Heap := w ← get_state; mret (w_heap w).
Definition num_of_nat (n : nat) : Datum := DNum (float_of_Z (Z.of_nat n)).
Definition lift_str (d : Datum) : M World string := lift (asStr d).

Definition getTableName (tableRef : Datum) : M World (option string) :=
  match tableRef with
  | DObject o =>
      obj ← read_object o;
      mret (match obj_Get obj "table" with Some (DStr s) => Some s | _ => None end)
  | _ => mret None
  end.

Definition getTableDBAndName (tableRef : Datum) : M World (option (string * string)) :=
  match tableRef with
  | DObject o =>
      obj ← read_object o;
      w ← get_state;
      mret (match obj_Get obj "table" with
            | Some (DStr t) =>
                Some (match obj_Get obj "db" with Some (DStr db) => db | _ => w_currentDB w end, t)
            | _ => None
            end)
  | _ => mret None
  end.

Definition invalid_ref : string := "invalid table reference".
(** The database and the name of a reference, and the error when it is none. *)
Definition table_ref (d : Datum) : M World (string * string) :=
  r ← getTableDBAndName d;
  match r with Some p => mret p | None => fail invalid_ref end.

Definition range_table (p : loc) : M World (list (string * Datum)) :=
  t ← read_table p; range_data range_order (t_Data t).

Definition sequenceToArray (seq : Datum) : M World (list Datum) :=
  match seq with
  | DArray l => mret l
  | DObject _ =>
      r ← getTableDBAndName seq;
      match r with
      | Some (db, tn) =>
          p ← GetOrCreateTableDB db tn;
          entries ← range_table p; mret entries.*2
      | None => fail "not a sequence"
      end
  | _ => fail "not a sequence"
  end.

(** ** Tables and documents *)

(** The database name of the term [14] of a reference; another term gives none. *)
Definition db_of_array (dbArr : list Datum) : M World string :=
  match dbArr with
  | DNum f :: name :: _ => if bool_decide (int_of_float f = 14)%Z then lift_str name else mret ""
  | _ => mret ""
  end.

Definition evalTable args : M World Datum :=
  w ← get_state;
  ref ← match args with
        | DArray dbArr :: name :: _ =>
            dbName ← db_of_array dbArr; tableName ← lift_str name; mret (dbName, tableName)
        | DStr s :: _ => mret (resolveDB ctx "" w, s)
        | _ => fail "TABLE requires table name"
        end;
  let '(dbName, tableName) := ref in
  authorize ctx dbName true false false false;;
  GetOrCreateTableDB dbName tableName;;
  new_result [("$reql_type$", DStr "TABLE"); ("table", DStr tableName); ("db", DStr dbName)].

Definition put_doc (p : loc) (id : string) doc : M World unit :=
  t ← read_table p; write_table p (set_data (<[id := doc]> (t_Data t)) t).

Definition evalInsert args : M World Datum :=
  match args with
  | ref :: docArg :: _ =>
      tableRef ← evalArg ref;
      r ← table_ref tableRef;
      authorize ctx r.1 false true false false;;
      p ← GetOrCreateTableDB r.1 r.2;
      doc ← evalArg docArg;
      t ← read_table p;
      let auto := "auto_" +:+ pretty (size (t_Data t) + 1) in
      id ← match doc with
           | DObject o =>
               obj ← read_object o;
               match obj_Get obj "id" with
               | Some (DStr s) => mret s
               | _ => on_heap (heap_Set o "id" (DStr auto));; mret auto
               end
           | _ => mret auto
           end;
      put_doc p id doc;;
      new_result [("inserted", DNum (float_of_Z 1)); ("generated_keys", DArray [DStr id])]
  | _ => fail "INSERT requires table and document"
  end.

Definition evalGet args : M World Datum :=
  match args with
  | ref :: keyDatum :: _ =>
      tableRef ← evalArg ref;
      r ← table_ref tableRef;
      p ← GetOrCreateTableDB r.1 r.2;
      match keyDatum with
      | DStr key => t ← read_table p; mret (default DNull (t_Data t !! key))
      | _ => fail "key must be a string"
      end
  | _ => fail "GET requires table and key"
  end.

Definition append_key (p : loc) (acc : list Datum) (key : Datum) : M World (list Datum) :=
  match key with
  | DStr k => t ← read_table p; mret (match t_Data t !! k with Some doc => acc ++ [doc] | None => acc end)
  | _ => mret acc
  end.
Fixpoint get_keys (p : loc) (keys : list Datum) (acc : list Datum) : M World (list Datum) :=
  match keys with [] => mret acc | k :: keys' => acc' ← append_key p acc k; get_keys p keys' acc' end.

Definition evalGetAll args : M World Datum :=
  match args with
  | ref :: keys =>
      tableRef ← evalArg ref;
      r ← table_ref tableRef;
      p ← GetOrCreateTableDB r.1 r.2;
      match keys with
      | [] => entries ← range_table p; mret (DArray entries.*2)
      | _ => l ← get_keys p keys []; mret (DArray l)
      end
  | _ => fail "GET_ALL requires table"
  end.

(** ** Writes *)

(** [for _, key := range update.Keys() { val, _ := update.Get(key); o.Set(key, val) }] *)
Definition set_fields (o update : loc) : M World unit :=
  u ← read_object update;
  for_each (λ key, u' ← read_object update; on_heap (heap_Set o key (field_or_zero u' key))) (obj_Keys u).

Definition write_result (replaced : nat) : M World Datum :=
  new_result [("replaced", num_of_nat replaced); ("unchanged", DNum (float_of_Z 0));
              ("skipped", DNum (float_of_Z 0)); ("errors", DNum (float_of_Z 0))].
Definition delete_result (deleted : nat) : M World Datum :=
  new_result [("deleted", num_of_nat deleted); ("skipped", DNum (float_of_Z 0)); ("errors", DNum (float_of_Z 0))].

(** The loop over the documents of the table; the number of documents updated. *)
Fixpoint update_docs (p : loc) (updateObj : Datum) (entries : list (string * Datum)) (count : nat) : M World nat :=
  match entries with
  | [] => mret count
  | (id, doc) :: entries' =>
      match doc, updateObj with
      | DObject o, DObject u => set_fields o u;; put_doc p id doc;; update_docs p updateObj entries' (S count)
      | _, _ => update_docs p updateObj entries' count
      end
  end.

(** The first table of the flat map that has the id. *)
Fixpoint find_flat (id : string) (tables : list (string * loc)) : M World (option (loc * Datum)) :=
  match tables with
  | [] => mret None
  | (_, p) :: tables' =>
      t ← read_table p;
      match t_Data t !! id with Some doc => mret (Some (p, doc)) | None => find_flat id tables' end
  end.
Definition range_flat_tables : M World (list (string * loc)) := λ w,
  (Ok (range_flat (w_clock w) (w_flat w)), set_clock (S (w_clock w)) w).
(** The search for a selected document by its id. *)
Definition find_by_id (o : loc) : M World (option (string * (loc * Datum))) :=
  obj ← read_object o;
  match obj_Get obj "id" with
  | Some (DStr id) =>
      tables ← range_flat_tables;
      r ← find_flat id tables;
      mret ((λ pd, (id, pd)) <$> r)
  | _ => mret None
  end.

Definition evalUpdate args : M World Datum :=
  match args with
  | sel :: upd :: _ =>
      selection ← evalArg sel;
      updateObj ← evalArg upd;
      r ← getTableDBAndName selection;
      match r with
      | Some (dbName, tableName) =>
          authorize ctx dbName false true false false;;
          p ← GetOrCreateTableDB dbName tableName;
          entries ← range_table p;
          count ← update_docs p updateObj entries 0;
          write_result count
      | None =>
          match selection with
          | DObject o =>
              found ← find_by_id o;
              match found with
              | Some (id, (p, doc)) =>
                  match doc, updateObj with
                  | DObject d, DObject u => set_fields d u;; put_doc p id doc
                  | _, _ => mret ()
                  end;;
                  write_result 1
              | None =>
                  match updateObj with DObject u => set_fields o u | _ => mret () end;;
                  write_result 1
              end
          | _ => fail "UPDATE: invalid selection type"
          end
      end
  | _ => fail "UPDATE requires selection and update object"
  end.

Definition evalDelete args : M World Datum :=
  match args with
  | sel :: _ =>
      selection ← evalArg sel;
      r ← getTableDBAndName selection;
      match r with
      | Some (dbName, tableName) =>
          authorize ctx dbName false true false false;;
          p ← GetOrCreateTableDB dbName tableName;
          t ← read_table p;
          write_table p (set_data ∅ t);;
          delete_result (size (t_Data t))
      | None =>
          match selection with
          | DObject o =>
              found ← find_by_id o;
              match found with
              | Some (id, (p, _)) =>
                  t ← read_table p;
                  write_table p (set_data (delete id (t_Data t)) t);;
                  delete_result 1
              | None => delete_result 0
              end
          | _ => delete_result 0
          end
      end
  | _ => fail "DELETE requires selection"
  end.

Definition evalReplace args : M World Datum :=
  match args with
  | sel :: repl :: _ =>
      selection ← evalArg sel;
      replacement ← evalArg repl;
      r ← getTableDBAndName selection;
      match r with
      | Some (dbName, tableName) =>
          authorize ctx dbName false true false false;;
          p ← GetOrCreateTableDB dbName tableName;
          entries ← range_table p;
          for_each (λ e, put_doc p e.1 replacement) entries;;
          write_result (length entries)
      | None => write_result 0
      end
  | _ => fail "REPLACE requires selection and replacement object"
  end.

(** ** Sequences *)

(** The loop of [matchPredicate] over the keys of the predicate. *)
Fixpoint match_keys (h : Heap) (docObj predObj : ObjectData) (ks : list string) : outcome bool :=
  match ks with
  | [] => Ok true
  | key :: ks' =>
      match obj_Get docObj key with
      | None => Ok false
      | Some docVal =>
          eq ← Equal h value_fuel docVal (field_or_zero predObj key);
          if eq : bool then match_keys h docObj predObj ks' else Ok false
      end
  end.
Definition matchPredicate (h : Heap) (doc predicate : Datum) : outcome bool :=
  match doc, predicate with
  | DObject d, DObject q =>
      match h_objs h !! d, h_objs h !! q with
      | Some docObj, Some predObj => match_keys h docObj predObj (obj_Keys predObj)
      | _, _ => Panic
      end
  | _, _ => Ok false
  end.

(** The loop that keeps the elements that pass a test. *)
Fixpoint filter_docs (f : Datum → outcome bool) (l : list Datum) : outcome (list Datum) :=
  match l with
  | [] => Ok []
  | doc :: l' => b ← f doc; rest ← filter_docs f l'; Ok (if b : bool then doc :: rest else rest)
  end.

Definition evalFilter args : M World Datum :=
  match args with
  | s :: p :: _ =>
      sequence ← evalArg s;
      predicate ← evalArg p;
      arr ← sequenceToArray sequence;
      h ← get_heap;
      l ← lift (filter_docs (λ doc, matchPredicate h doc predicate) arr);
      mret (DArray l)
  | _ => fail "FILTER requires sequence and predicate"
  end.

(** An error of [sequenceToArray] gives the sequence itself. *)
Definition evalMap args : M World Datum :=
  match args with
  | s :: _ :: _ =>
      sequence ← evalArg s;
      catch (arr ← sequenceToArray sequence; mret (DArray arr)) (λ _, mret sequence)
  | _ => fail "MAP requires sequence and function"
  end.

Definition strings_of (l : list Datum) : list string :=
  omap (λ d, match d with DStr s => Some s | _ => None end) l.
Definition sort_fields (d : Datum) : list string :=
  match d with DArray l => strings_of l | DStr s => [s] | _ => [] end.

(** The value of a field; the zero datum when the document has none. *)
Definition field_of (h : Heap) (doc : Datum) (field : string) : outcome Datum :=
  match doc with
  | DObject o => match h_objs h !! o with Some obj => Ok (field_or_zero obj field) | None => Panic end
  | _ => Ok DMinVal
  end.
Fixpoint less_by (h : Heap) (fs : list string) (a b : Datum) : outcome bool :=
  match fs with
  | [] => Ok false
  | f :: fs' =>
      vi ← field_of h a f;
      vj ← field_of h b f;
      c ← Compare h value_fuel vi vj;
      match c with Eq => less_by h fs' a b | Lt => Ok true | Gt => Ok false end
  end.

Definition evalOrderBy args : M World Datum :=
  match args with
  | s :: k :: _ =>
      sequence ← evalArg s;
      arr ← sequenceToArray sequence;
      match sort_fields k with
      | [] => mret (DArray arr)
      | fs => h ← get_heap; l ← lift (sort_Slice (less_by h fs) arr); mret (DArray l)
      end
  | _ => fail "ORDER_BY requires sequence and key"
  end.

(** [arr[:n]] and [arr[n:]] with an [int], which may be negative. *)
Definition slice_upto {A} (l : list A) (n : Z) : outcome (list A) :=
  if bool_decide (n < 0)%Z then Panic else slice_to l (Z.to_nat n).
Definition slice_after {A} (l : list A) (n : Z) : outcome (list A) :=
  if bool_decide (n < 0)%Z then Panic else slice_from l (Z.to_nat n).

Definition evalLimit args : M World Datum :=
  match args with
  | s :: c :: _ =>
      sequence ← evalArg s;
      count ← evalArg c;
      arr ← sequenceToArray sequence;
      limit ← lift (asInt count);
      if bool_decide (Z.of_nat (length arr) ≤ limit)%Z then mret (DArray arr)
      else l ← lift (slice_upto arr limit); mret (DArray l)
  | _ => fail "LIMIT requires sequence and count"
  end.

Definition evalSkip args : M World Datum :=
  match args with
  | s :: c :: _ =>
      sequence ← evalArg s;
      count ← evalArg c;
      arr ← sequenceToArray sequence;
      skip ← lift (asInt count);
      if bool_decide (Z.of_nat (length arr) ≤ skip)%Z then mret (DArray [])
      else l ← lift (slice_after arr skip); mret (DArray l)
  | _ => fail "SKIP requires sequence and count"
  end.

(** ** Secondary indexes *)

Definition evalIndexCreate args : M World Datum :=
  match args with
  | ref :: indexName :: fieldName :: _ =>
      tableRef ← evalArg ref;
      r ← table_ref tableRef;
      authorize ctx r.1 false true false false;;
      match indexName, fieldName with
      | DStr name, DStr field =>
          p ← GetOrCreateTableDB r.1 r.2;
          t ← read_table p;
          im ← lift (CreateIndex name field (t_Indexes t));
          write_table p (set_indexes im t);;
          entries ← range_table p;
          h ← get_heap;
          im' ← lift (BuildIndex h name entries im);
          write_table p (set_indexes im' t);;
          new_result [("created", DNum (float_of_Z 1))]
      | DStr _, _ => fail "field name must be a string"
      | _, _ => fail "index name must be a string"
      end
  | _ => fail "INDEX_CREATE requires table, name, and field"
  end.

Definition evalIndexDrop args : M World Datum :=
  match args with
  | ref :: indexName :: _ =>
      tableRef ← evalArg ref;
      r ← table_ref tableRef;
      authorize ctx r.1 false true false false;;
      match indexName with
      | DStr name =>
          p ← GetOrCreateTableDB r.1 r.2;
          t ← read_table p;
          im ← lift (DropIndex name (t_Indexes t));
          write_table p (set_indexes im t);;
          new_result [("dropped", DNum (float_of_Z 1))]
      | _ => fail "index name must be a string"
      end
  | _ => fail "INDEX_DROP requires table and name"
  end.

Definition evalIndexList args : M World Datum :=
  match args with
  | ref :: _ =>
      tableRef ← evalArg ref;
      r ← table_ref tableRef;
      p ← GetOrCreateTableDB r.1 r.2;
      t ← read_table p;
      mret (DArray (DStr <$> ListIndexes (t_Indexes t)))
  | _ => fail "INDEX_LIST requires table"
  end.

Definition evalBetween args : M World Datum :=
  match args with
  | ref :: indexName :: lower :: upper :: _ =>
      tableRef ← evalArg ref;
      r ← table_ref tableRef;
      match indexName with
      | DStr name =>
          p ← GetOrCreateTableDB r.1 r.2;
          t ← read_table p;
          match GetIndex name (t_Indexes t) with
          | None => fail (index_missing name)
          | Some idx =>
              h ← get_heap;
              docIDs ← lift (idx_Between h lower upper idx);
              mret (DArray (omap (λ id, t_Data t !! id) docIDs))
          end
      | _ => fail "index name must be a string"
      end
  | _ => fail "BETWEEN requires table, index, lower, and upper"
  end.

(** ** Change feeds *)

Definition evalChanges args : M World Datum :=
  match args with
  | ref :: _ =>
      tableRef ← evalArg ref;
      r ← table_ref tableRef;
      p ← GetOrCreateTableDB r.1 r.2;
      t ← read_table p;
      write_table p (set_feeds (t_Changefeeds t ++ [NewChangefeed r.2]) t);;
      new_result [("$reql_type$", DStr "CHANGEFEED"); ("table", DStr r.2)]
  | _ => fail "CHANGES requires table"
  end.

Definition notifyChangefeeds (tableName : string) (oldDoc newDoc : Datum) : M World unit :=
  w ← get_state;
  match table_at w (w_currentDB w) tableName with
  | Some p =>
      t ← read_table p;
      write_table p (set_feeds (cf_Send (mkEvent oldDoc newDoc) <$> t_Changefeeds t) t)
  | None => mret ()
  end.

(** ** Administration *)

Definition evalDBCreate args : M World Datum :=
  match args with
  | DStr name :: _ =>
      authorize ctx name false false true false;;
      CreateDatabase name;;
      new_result [("dbs_created", DNum (float_of_Z 1))]
  | _ :: _ => fail "database name must be a string"
  | [] => fail "DB_CREATE requires database name"
  end.

Definition evalDBDrop args : M World Datum :=
  match args with
  | DStr name :: _ =>
      authorize ctx name false false false true;;
      DropDatabase name;;
      new_result [("dbs_dropped", DNum (float_of_Z 1))]
  | _ :: _ => fail "database name must be a string"
  | [] => fail "DB_DROP requires database name"
  end.

Definition evalDBList args : M World Datum :=
  w ← get_state; mret (DArray (DStr <$> ListDatabases w)).

(** [[14, name]] or an object with a field [db]. *)
Definition extractDBRef (d : Datum) : M World (option string) :=
  match d with
  | DArray (DNum f :: name :: _) =>
      if bool_decide (int_of_float f = 14)%Z then s ← lift_str name; mret (Some s) else mret None
  | DObject o =>
      obj ← read_object o;
      mret (match obj_Get obj "db" with Some (DStr db) => Some db | _ => None end)
  | _ => mret None
  end.
(** The database of an administration term: that of its reference argument, else
    the session's. *)
Definition admin_db (ref : option Datum) : M World string :=
  w ← get_state;
  let dbName := resolveDB ctx "" w in
  match ref with
  | Some d => r ← extractDBRef d; mret (default dbName r)
  | None => mret dbName
  end.

Definition evalTableCreate args : M World Datum :=
  match args with
  | DStr tableName :: rest =>
      dbName ← admin_db (head rest);
      authorize ctx dbName false false true false;;
      CreateTable dbName tableName;;
      GetOrCreateTableDB dbName tableName;;
      new_result [("tables_created", DNum (float_of_Z 1))]
  | _ :: _ => fail "table name must be a string"
  | [] => fail "TABLE_CREATE requires table name"
  end.

Definition evalTableDrop args : M World Datum :=
  match args with
  | DStr tableName :: rest =>
      dbName ← admin_db (head rest);
      authorize ctx dbName false false false true;;
      DropTable dbName tableName;;
      new_result [("tables_dropped", DNum (float_of_Z 1))]
  | _ :: _ => fail "table name must be a string"
  | [] => fail "TABLE_DROP requires table name"
  end.

Definition evalTableList args : M World Datum :=
  dbName ← admin_db (head args);
  authorize ctx dbName true false false false;;
  tables ← ListTables dbName;
  mret (DArray (DStr <$> tables)).

(** The type switch on the values of a map of settings. *)
Definition config_datum (v : GoVal) : Datum :=
  match v with VString s => DStr s | VInt z => DNum (float_of_Z z) | _ => DStr (sprint_v v) end.
Definition evalStatus args : M World Datum :=
  w ← get_state; on_heap (NewObjectFromMap (config_datum <$> GetServerStatus w)).
Definition evalInfo args : M World Datum :=
  w ← get_state; on_heap (NewObjectFromMap (config_datum <$> GetConfig w)).

(** ** Aggregations *)

(** The sequence of an aggregation and the field it is given, the empty string when
    there is none. *)
Definition aggregate_args (msg : string) args : M World (list Datum * string) :=
  match args with
  | s :: rest =>
      seq ← evalArg s;
      arr ← sequenceToArray seq;
      mret (arr, match rest with DStr f :: _ => f | _ => "" end)
  | [] => fail msg
  end.
Definition object_at (h : Heap) (o : loc) : outcome ObjectData :=
  match h_objs h !! o with Some obj => Ok obj | None => Panic end.

(** What a document contributes to a sum: a number, or nothing. *)
Definition number_of (h : Heap) (field : string) (doc : Datum) : outcome (option float64) :=
  if bool_decide (field ≠ "") then
    match doc with
    | DObject o =>
        obj ← object_at h o;
        Ok (match obj_Get obj field with Some (DNum f) => Some f | _ => None end)
    | _ => Ok None
    end
  else Ok (match doc with DNum f => Some f | _ => None end).
Fixpoint sum_docs (h : Heap) (field : string) (l : list Datum) (sum : float64) (count : nat)
    : outcome (float64 * nat) :=
  match l with
  | [] => Ok (sum, count)
  | doc :: l' =>
      v ← number_of h field doc;
      match v with
      | Some f => sum_docs h field l' (float_add sum f) (S count)
      | None => sum_docs h field l' sum count
      end
  end.

Definition evalCount args : M World Datum :=
  match args with
  | s :: _ => seq ← evalArg s; arr ← sequenceToArray seq; mret (num_of_nat (length arr))
  | [] => fail "COUNT requires a sequence"
  end.
Definition evalSum args : M World Datum :=
  a ← aggregate_args "SUM requires a sequence" args;
  h ← get_heap;
  r ← lift (sum_docs h a.2 a.1 (float_of_Z 0) 0);
  mret (DNum r.1).
Definition evalAvg args : M World Datum :=
  a ← aggregate_args "AVG requires a sequence" args;
  h ← get_heap;
  r ← lift (sum_docs h a.2 a.1 (float_of_Z 0) 0);
  mret (if bool_decide (r.2 = 0) then DNum (float_of_Z 0)
        else DNum (float_div r.1 (float_of_Z (Z.of_nat r.2)))).

(** The value of a document in a minimum or maximum, if it has one. *)
Definition value_of (h : Heap) (field : string) (doc : Datum) : outcome (option Datum) :=
  if bool_decide (field ≠ "") then
    match doc with DObject o => obj ← object_at h o; Ok (obj_Get obj field) | _ => Ok None end
  else Ok (Some doc).
(** The loop that keeps the best value; [better] is the result of [Compare] on which
    it is replaced. *)
Fixpoint best_doc (h : Heap) (field : string) (better : comparison) (l : list Datum) (best : option Datum)
    : outcome (option Datum) :=
  match l with
  | [] => Ok best
  | doc :: l' =>
      v ← value_of h field doc;
      match v, best with
      | None, _ => best_doc h field better l' best
      | Some v, None => best_doc h field better l' (Some v)
      | Some v, Some b =>
          c ← Compare h value_fuel v b;
          best_doc h field better l' (Some (if bool_decide (c = better) then v else b))
      end
  end.
Definition evalMin args : M World Datum :=
  a ← aggregate_args "MIN requires a sequence" args;
  h ← get_heap;
  r ← lift (best_doc h a.2 Lt a.1 None);
  mret (default DNull r).
Definition evalMax args : M World Datum :=
  a ← aggregate_args "MAX requires a sequence" args;
  h ← get_heap;
  r ← lift (best_doc h a.2 Gt a.1 None);
  mret (default DNull r).

(** The JSON text of the field's value; the empty text when it cannot be marshalled. *)
Definition group_key (h : Heap) (field : string) (doc : Datum) : outcome string :=
  match doc with
  | DObject o =>
      if bool_decide (field ≠ "") then
        obj ← object_at h o;
        match obj_Get obj field with
        | Some v =>
            match MarshalJSON local_offset h value_fuel v with
            | Ok j => Ok (json_text j)
            | Err _ => Ok ""
            | Panic => Panic
            | NoFuel => NoFuel
            end
        | None => Ok "null"
        end
      else Ok "null"
  | _ => Ok "null"
  end.
(** [groups] with [order]: the keys in the order of their first document. *)
Definition add_group (key : string) (doc : Datum) (groups : list (string * list Datum)) : list (string * list Datum) :=
  if bool_decide (key ∈ groups.*1)
  then (λ g, if bool_decide (g.1 = key) then (g.1, g.2 ++ [doc]) else g) <$> groups
  else groups ++ [(key, [doc])].
Fixpoint group_docs (h : Heap) (field : string) (l : list Datum) (groups : list (string * list Datum))
    : outcome (list (string * list Datum)) :=
  match l with
  | [] => Ok groups
  | doc :: l' => key ← group_key h field doc; group_docs h field l' (add_group key doc groups)
  end.
Definition evalGroup args : M World Datum :=
  match args with
  | s :: f :: _ =>
      seq ← evalArg s;
      arr ← sequenceToArray seq;
      h ← get_heap;
      groups ← lift (group_docs h (match f with DStr field => field | _ => "" end) arr []);
      result ← mapM (λ g : string * list Datum, new_result [("group", DStr g.1); ("values", DArray g.2)]) groups;
      mret (DArray result)
  | _ => fail "GROUP requires sequence and field"
  end.
Definition evalUngroup args : M World Datum :=
  match args with s :: _ => evalArg s | [] => fail "UNGROUP requires a sequence" end.
Definition evalReduce args : M World Datum :=
  match args with
  | s :: _ :: _ =>
      seq ← evalArg s;
      arr ← sequenceToArray seq;
      mret (default DNull (head arr))
  | _ => fail "REDUCE requires sequence and function"
  end.

(** ** Projections *)

Definition array_fields (d : Datum) : list string := match d with DArray l => strings_of l | _ => [] end.

Definition has_fields (h : Heap) (fs : list string) (doc : Datum) : outcome bool :=
  match doc with
  | DObject o => obj ← object_at h o; Ok (bool_decide (Forall (λ f, is_Some (obj_Get obj f)) fs))
  | _ => Ok false
  end.
Definition evalHasFields args : M World Datum :=
  match args with
  | s :: f :: _ =>
      seq ← evalArg s;
      arr ← sequenceToArray seq;
      h ← get_heap;
      l ← lift (filter_docs (has_fields h (array_fields f)) arr);
      mret (DArray l)
  | _ => fail "HAS_FIELDS requires sequence and fields"
  end.

(** [for _, key := range src.Keys() { if keep { dst.Set(key, src.Get(key)) } }] *)
Definition copy_fields (keep : string → bool) (src dst : ObjectData) : ObjectData :=
  foldl (λ o key, if keep key then obj_Set o key (field_or_zero src key) else o) dst (obj_Keys src).
Definition empty_object : ObjectData := obj_of_map ∅.

Definition without_doc (fs : list string) (doc : Datum) : M World Datum :=
  match doc with
  | DObject o =>
      obj ← read_object o;
      new_object (copy_fields (λ key, bool_decide (key ∉ fs)) obj empty_object)
  | _ => mret doc
  end.
Definition evalWithout args : M World Datum :=
  match args with
  | s :: f :: _ =>
      seq ← evalArg s;
      arr ← sequenceToArray seq;
      l ← mapM (without_doc (array_fields f)) arr;
      mret (DArray l)
  | _ => fail "WITHOUT requires sequence and fields"
  end.

Definition merge_doc (doc mergeObj : Datum) : M World Datum :=
  match doc, mergeObj with
  | DObject o, DObject m =>
      obj ← read_object o;
      mobj ← read_object m;
      new_object (copy_fields (λ _, true) mobj (copy_fields (λ _, true) obj empty_object))
  | _, _ => mret doc
  end.
Definition evalMerge args : M World Datum :=
  match args with
  | s :: m :: _ =>
      seq ← evalArg s;
      mergeObj ← evalArg m;
      isTable ← getTableName seq;
      match seq, isTable with
      | DObject _, None => merge_doc seq mergeObj
      | _, _ =>
          arr ← sequenceToArray seq;
          l ← mapM (λ doc, merge_doc doc mergeObj) arr;
          mret (DArray l)
      end
  | _ => fail "MERGE requires sequence and object"
  end.

(** ** Joins *)

(** The field of a document, when it is an object that has it. *)
Definition join_field (h : Heap) (doc : Datum) (field : string) : outcome (option Datum) :=
  match doc with DObject o => obj ← object_at h o; Ok (obj_Get obj field) | _ => Ok None end.
Fixpoint join_keys (h : Heap) (leftDoc rightDoc : Datum) (predObj : ObjectData) (ks : list string) : outcome bool :=
  match ks with
  | [] => Ok true
  | key :: ks' =>
      match field_or_zero predObj key with
      | DStr field =>
          lv ← join_field h leftDoc field;
          rv ← join_field h rightDoc field;
          match lv, rv with
          | Some lv, Some rv =>
              eq ← Equal h value_fuel lv rv;
              if eq : bool then join_keys h leftDoc rightDoc predObj ks' else Ok false
          | _, _ => Ok false
          end
      | _ => join_keys h leftDoc rightDoc predObj ks'
      end
  end.
Definition joinMatches (h : Heap) (leftDoc rightDoc predicate : Datum) : outcome bool :=
  match predicate with
  | DObject q => predObj ← object_at h q; join_keys h leftDoc rightDoc predObj (obj_Keys predObj)
  | _ => Ok false
  end.

(** The fields of the right object, renamed where the left has them. *)
Definition merge_right (l r : ObjectData) : ObjectData :=
  foldl (λ o key, let v := field_or_zero r key in
                  match obj_Get o key with Some _ => obj_Set o ("right_" +:+ key) v | None => obj_Set o key v end)
    (copy_fields (λ _, true) l empty_object) (obj_Keys r).
Definition mergeJoinDocs (leftDoc rightDoc : Datum) : M World Datum :=
  match leftDoc, rightDoc with
  | DObject l, DObject r =>
      lobj ← read_object l;
      robj ← read_object r;
      new_object (merge_right lobj robj)
  | _, _ => mret leftDoc
  end.

(** The inner loop: the merged documents of one left document. *)
Fixpoint join_row (predicate leftDoc : Datum) (rightArr : list Datum) : M World (list Datum) :=
  match rightArr with
  | [] => mret []
  | rightDoc :: rightArr' =>
      h ← get_heap;
      b ← lift (joinMatches h leftDoc rightDoc predicate);
      if b : bool then
        d ← mergeJoinDocs leftDoc rightDoc; ds ← join_row predicate leftDoc rightArr'; mret (d :: ds)
      else join_row predicate leftDoc rightArr'
  end.
(** The two sequences and the predicate of a join. *)
Definition join_args (msg : string) args : M World (list Datum * list Datum * Datum) :=
  match args with
  | l :: r :: predicate :: _ =>
      leftSeq ← evalArg l;
      rightSeq ← evalArg r;
      leftArr ← sequenceToArray leftSeq;
      rightArr ← sequenceToArray rightSeq;
      mret (leftArr, rightArr, predicate)
  | _ => fail msg
  end.
Definition evalInnerJoin args : M World Datum :=
  a ← join_args "INNER_JOIN requires left, right, and predicate" args;
  let '(leftArr, rightArr, predicate) := a in
  rows ← mapM (λ leftDoc, join_row predicate leftDoc rightArr) leftArr;
  mret (DArray (mjoin rows)).
Definition evalOuterJoin args : M World Datum :=
  a ← join_args "OUTER_JOIN requires left, right, and predicate" args;
  let '(leftArr, rightArr, predicate) := a in
  rows ← mapM (λ leftDoc, row ← join_row predicate leftDoc rightArr;
                       mret (if bool_decide (row = []) then [leftDoc] else row)) leftArr;
  mret (DArray (mjoin rows)).
End terms.

(** ** Evaluation *)

Section evaluate.
Context `{Runtime} (ctx : Context).

Definition eval_term (evalArg : Datum → M World Datum) (term : Z) (args : list Datum) : M World Datum :=
  match term with
  | 10 => evalTable ctx args
  | 17 => evalInsert ctx evalArg args
  | 18 => evalUpdate ctx evalArg args
  | 19 => evalDelete ctx evalArg args
  | 20 => evalReplace ctx evalArg args
  | 33 => evalHasFields evalArg args
  | 34 => evalWithout evalArg args
  | 36 => evalMerge evalArg args
  | 39 => evalFilter evalArg args
  | 40 => evalMap evalArg args
  | 41 => evalOrderBy evalArg args
  | 42 => evalLimit evalArg args
  | 43 => evalSkip evalArg args
  | 48 => evalInnerJoin evalArg args
  | 49 => evalOuterJoin evalArg args
  | 70 => evalGet evalArg args
  | 78 => evalGetAll evalArg args
  | 75 => evalIndexCreate ctx evalArg args
  | 76 => evalIndexDrop ctx evalArg args
  | 77 => evalIndexList evalArg args
  | 86 => evalCount evalArg args
  | 87 => evalSum evalArg args
  | 88 => evalAvg evalArg args
  | 89 => evalMin evalArg args
  | 90 => evalMax evalArg args
  | 91 => evalGroup evalArg args
  | 92 => evalUngroup evalArg args
  | 93 => evalReduce evalArg args
  | 172 => evalBetween evalArg args
  | 152 => evalChanges evalArg args
  | 57 => evalDBCreate ctx args
  | 58 => evalDBDrop ctx args
  | 59 => evalDBList args
  | 60 => evalTableCreate ctx args
  | 61 => evalTableDrop ctx args
  | 62 => evalTableList ctx args
  | 137 => evalStatus args
  | 138 => evalInfo args
  | _ => fail ("unsupported term: " +:+ pretty term)
  end%Z.

(** [evalArg]: an array that starts with a number is a query. *)
Definition eval_arg (evaluateDatum : Datum → M World Datum) (arg : Datum) : M World Datum :=
  match arg with
  | DArray (DNum _ :: _) => evaluateDatum arg
  | _ => mret arg
  end.

Fixpoint evaluateDatum (fuel : nat) (query : Datum) : M World Datum :=
  match fuel with
  | O => nofuel
  | S fuel' =>
      match query with
      | DArray [] => fail "empty query"
      | DArray (t :: args) =>
          term ← lift (asInt t);
          eval_term (eval_arg (evaluateDatum fuel')) term args
      | _ => fail "query must be an array"
      end
  end.

Definition Evaluate (fuel : nat) (query : GoVal) : M World Datum :=
  match query with
  | VDatum d => evaluateDatum fuel d
  | _ =>
      d ← wrap_err "failed to convert query" (on_heap (FromInterface local_offset query));
      evaluateDatum fuel d
  end.

(** The query and the result as JSON documents. *)
Definition ExecuteJSON (fuel : nat) (query : JSON) : M World JSON :=
  d ← Evaluate fuel (of_json query);
  h ← get_heap;
  lift (MarshalJSON local_offset h value_fuel d).
End evaluate.
