(* ===== verification/Sessions.v ===== *)
(** * What every query keeps ([internal/reql]: evaluator.go, session.go)

    An invariant of the world is kept by a computation whatever its outcome
    ([keeps]).  [StoreInv] states what an invariant must be insensitive to so that
    the terms that only read keep it; three invariants are instances: the pointers of
    the databases stay valid and objects well formed ([world_ok]); every table maps the
    ids to the documents of a given store ([same_docs]), which all terms keep in a
    session that may only read; the objects of these documents have the fields they had
    as well ([frozen]), which all terms but UPDATE keep in such a session. *)

From S2P Require Import Prelude Bytes Order Datum Index Admin Evaluator.

Definition keeps {A} (I : World → Prop) (m : M World A) : Prop := respects (keeping I) m.

Section closure.
Context (I : World → Prop).

Lemma keeps_ret {A} (a : A) : keeps I (mret a).
Proof. apply respects_ret, _. Qed.
Lemma keeps_fail {A} e : keeps I (fail e : M World A).
Proof. by intros w. Qed.
Lemma keeps_nofuel {A} : keeps I (nofuel : M World A).
Proof. by intros w. Qed.
Lemma keeps_panic {A} : keeps I (panic : M World A).
Proof. by intros w. Qed.
Lemma keeps_get : keeps I get_state.
Proof. by intros w. Qed.
Lemma keeps_lift {A} (o : outcome A) : keeps I (lift o).
Proof. by intros w. Qed.
Lemma keeps_bind {A B} (m : M World A) (f : A → M World B) :
  keeps I m → (∀ a, keeps I (f a)) → keeps I (m ≫= f).
Proof. apply respects_bind, _. Qed.
Lemma keeps_ignore {A} (m : M World A) : keeps I m → keeps I (ignore_err m).
Proof. apply respects_ignore. Qed.
Lemma keeps_catch {A} (m : M World A) k : keeps I m → (∀ e, keeps I (k e)) → keeps I (catch m k).
Proof. apply respects_catch, _. Qed.
Lemma keeps_for_each {A} (f : A → M World unit) l : (∀ a, keeps I (f a)) → keeps I (for_each f l).
Proof. apply respects_for_each, _. Qed.
Lemma keeps_mapM {A B} (f : A → M World B) l : (∀ a, keeps I (f a)) → keeps I (mapM f l).
Proof. intros Hf. apply respects_mapM; [apply _|]. intros a _. apply Hf. Qed.
Lemma keeps_authorize ctx db r w c d : keeps I (authorize ctx db r w c d).
Proof. intros x Hx. unfold authorize. destruct (AuthorizerFromContext ctx); [|done]. by destruct (a db r w c d). Qed.
Lemma keeps_read_table p : keeps I (read_table p).
Proof. intros w Hw. unfold read_table. by destruct (w_tables w !! p). Qed.
End closure.

Create HintDb keeps.
#[export] Hint Resolve keeps_ret keeps_fail keeps_nofuel keeps_panic keeps_get keeps_lift keeps_ignore
  keeps_authorize keeps_read_table heap_Set_ok NewObjectFromMap_ok FromInterface_ok NewObjectFromMap_grows FromInterface_grows
  list_elem_of_here list_elem_of_further : keeps.

(** One step through the structure of a computation. *)
Ltac keeps_step :=
  lazymatch goal with
  | |- keeps _ (_ ≫= _) => apply keeps_bind; [|intros ?]
  | |- keeps _ (catch _ _) => apply keeps_catch; [|intros ?]
  | |- keeps _ (for_each _ _) => apply keeps_for_each; intros ?
  | |- keeps _ (mapM _ _) => apply keeps_mapM; intros ?
  | |- keeps _ (match ?x with _ => _ end) => destruct x
  | |- keeps _ (match ?x with _ => _ end _) => destruct x
  | |- keeps _ _ => solve [eauto with keeps]
  end.
Ltac keeps_auto := repeat keeps_step.

(** What the terms that only read ask of an invariant. *)
Class StoreInv (I : World → Prop) := {
  si_heap h w : keeping heap_ok (w_heap w) h → heap_grows (w_heap w) h → I w → I (set_heap h w);
  si_clock n w : I w → I (set_clock n w);
  si_table db tn : keeps I (GetOrCreateTableDB db tn);
  si_feeds p t cfs w : I w → w_tables w !! p = Some t →
    I (set_tables (<[p := set_feeds cfs t]> (w_tables w)) (w_next w) w);
}.
(** An invariant that does not look at the fields of objects. *)
Class HeapInv (I : World → Prop) := {
  hi_heap h w : (heap_ok (w_heap w) → heap_ok h) → I w → I (set_heap h w);
}.

Section readers.
Context `{Runtime} (ctx : Context) (I : World → Prop) `{!StoreInv I}.

Lemma keeps_on_heap {A} (m : M Heap A) : respects (keeping heap_ok) m → respects heap_grows m → keeps I (on_heap m).
Proof. intros Hm Hg w Hw. unfold on_heap, zoom. specialize (Hm (w_heap w)). specialize (Hg (w_heap w)). destruct (m (w_heap w)) as [o h]. by apply si_heap. Qed.
Lemma keeps_range d : keeps I (range_data range_order d).
Proof. intros w Hw. by apply si_clock. Qed.
Lemma keeps_range_flat : keeps I range_flat_tables.
Proof. intros w Hw. by apply si_clock. Qed.
Lemma keeps_read_object o : keeps I (read_object o).
Proof. apply keeps_on_heap; [apply hread_ok|apply hread_grows]. Qed.
Lemma keeps_new_object obj : obj_ok obj → keeps I (new_object obj).
Proof.
  intros Ho. apply keeps_on_heap; unfold new_object; (apply respects_bind; [apply _| |eauto with respects]); [by apply halloc_ok|apply alloc_grows].
Qed.
Lemma keeps_new_result fs : keeps I (new_result fs).
Proof. apply keeps_on_heap; [apply NewObjectFromMap_ok|apply NewObjectFromMap_grows]. Qed.
Lemma copy_fields_ok keep src dst : obj_ok dst → obj_ok (copy_fields keep src dst).
Proof. unfold copy_fields. revert dst. induction (obj_Keys src) as [|k ks IH]; intros dst Hd; [done|]. cbn [foldl]. apply IH. case_match; auto with respects. Qed.
Lemma merge_right_ok l r : obj_ok (merge_right l r).
Proof.
  unfold merge_right. assert (obj_ok (copy_fields (λ _, true) l empty_object)) as Ho by (apply copy_fields_ok, obj_of_map_ok).
  revert Ho. generalize (copy_fields (λ _, true) l empty_object). induction (obj_Keys r) as [|k ks IH]; intros o Ho; [done|].
  cbn [foldl]. apply IH. case_match; auto with respects.
Qed.
Lemma keeps_get_heap : keeps I get_heap.
Proof. by intros w. Qed.
Lemma keeps_lift_str d : keeps I (lift_str d).
Proof. by intros w. Qed.
Hint Resolve keeps_on_heap keeps_range keeps_range_flat keeps_read_object keeps_new_object keeps_new_result
  keeps_get_heap keeps_lift_str si_table copy_fields_ok merge_right_ok obj_of_map_ok : keeps.

Lemma keeps_getTableName d : keeps I (getTableName d).
Proof. unfold getTableName. keeps_auto. Qed.
Lemma keeps_getTableDBAndName d : keeps I (getTableDBAndName d).
Proof. unfold getTableDBAndName. keeps_auto. Qed.
Hint Resolve keeps_getTableName keeps_getTableDBAndName : keeps.
Lemma keeps_table_ref d : keeps I (table_ref d).
Proof. unfold table_ref. keeps_auto. Qed.
Lemma keeps_range_table p : keeps I (range_table p).
Proof. unfold range_table. keeps_auto. Qed.
Hint Resolve keeps_table_ref keeps_range_table : keeps.
Lemma keeps_sequenceToArray d : keeps I (sequenceToArray d).
Proof. unfold sequenceToArray. keeps_auto. Qed.
Hint Resolve keeps_sequenceToArray : keeps.
Lemma keeps_db_of_array l : keeps I (db_of_array l).
Proof. unfold db_of_array. keeps_auto. Qed.
Hint Resolve keeps_db_of_array : keeps.

Lemma keeps_get_keys p l : ∀ acc, keeps I (get_keys p l acc).
Proof.
  induction l as [|k l IH]; intros acc; cbn [get_keys]; keeps_auto. unfold append_key. keeps_auto.
Qed.
Lemma keeps_find_flat id l : keeps I (find_flat id l).
Proof. induction l as [|[] l IH]; cbn [find_flat]; keeps_auto. Qed.
Hint Resolve keeps_get_keys keeps_find_flat : keeps.
Lemma keeps_find_by_id o : keeps I (find_by_id o).
Proof. unfold find_by_id. keeps_auto. Qed.
Lemma keeps_write_result n : keeps I (write_result n).
Proof. unfold write_result. keeps_auto. Qed.
Lemma keeps_delete_result n : keeps I (delete_result n).
Proof. unfold delete_result. keeps_auto. Qed.
Lemma keeps_without fs d : keeps I (without_doc fs d).
Proof. unfold without_doc. keeps_auto. Qed.
Lemma keeps_merge d m : keeps I (merge_doc d m).
Proof. unfold merge_doc. keeps_auto. Qed.
Lemma keeps_join_docs a b : keeps I (mergeJoinDocs a b).
Proof. unfold mergeJoinDocs. keeps_auto. Qed.
Hint Resolve keeps_find_by_id keeps_write_result keeps_delete_result
  keeps_without keeps_merge keeps_join_docs : keeps.
Lemma keeps_join_row q a l : keeps I (join_row q a l).
Proof. induction l as [|b l IH]; cbn [join_row]; keeps_auto. Qed.
Lemma keeps_admin_db d : keeps I (admin_db ctx d).
Proof. unfold admin_db, extractDBRef. keeps_auto. Qed.
Lemma keeps_ListTables d : keeps I (ListTables d).
Proof. unfold ListTables. keeps_auto. Qed.
Hint Resolve keeps_join_row keeps_admin_db keeps_ListTables : keeps.

(** A feed is added to a table. *)
Lemma keeps_add_feed p f g : (∀ t, keeps I (g t)) →
  keeps I (t ← read_table p; write_table p (set_feeds (f t) t);; g t : M World Datum).
Proof.
  intros Hg w Hw. unfold read_table, write_table. unfold mbind, M_mbind, M_bind.
  destruct (w_tables w !! p) as [t|] eqn:E; [|done]. rewrite E. apply Hg. by apply si_feeds.
Qed.

(** The terms that authorize at most a read, given that evaluating their arguments
    keeps the invariant. *)
Context (evalArg : Datum → M World Datum).
Lemma keeps_aggregate msg args : (∀ d, d ∈ args → keeps I (evalArg d)) → keeps I (aggregate_args evalArg msg args).
Proof. intros Hev. unfold aggregate_args. keeps_auto. Qed.
Lemma keeps_join_args msg args : (∀ d, d ∈ args → keeps I (evalArg d)) → keeps I (join_args evalArg msg args).
Proof. intros Hev. unfold join_args. keeps_auto. Qed.
Hint Resolve keeps_aggregate keeps_join_args : keeps.
Lemma keeps_readers args : (∀ d, d ∈ args → keeps I (evalArg d)) →
  keeps I (evalTable ctx args) ∧ keeps I (evalHasFields evalArg args) ∧ keeps I (evalWithout evalArg args) ∧
  keeps I (evalMerge evalArg args) ∧ keeps I (evalFilter evalArg args) ∧ keeps I (evalMap evalArg args) ∧
  keeps I (evalOrderBy evalArg args) ∧ keeps I (evalLimit evalArg args) ∧ keeps I (evalSkip evalArg args) ∧
  keeps I (evalInnerJoin evalArg args) ∧ keeps I (evalOuterJoin evalArg args) ∧
  keeps I (evalGet evalArg args) ∧ keeps I (evalGetAll evalArg args) ∧ keeps I (evalIndexList evalArg args) ∧
  keeps I (evalBetween evalArg args) ∧ keeps I (evalChanges evalArg args) ∧ keeps I (evalCount evalArg args) ∧
  keeps I (evalSum evalArg args) ∧ keeps I (evalAvg evalArg args) ∧ keeps I (evalMin evalArg args) ∧
  keeps I (evalMax evalArg args) ∧ keeps I (evalGroup evalArg args) ∧ keeps I (evalUngroup evalArg args) ∧
  keeps I (evalReduce evalArg args) ∧ keeps I (evalDBList args) ∧ keeps I (evalTableList ctx args) ∧
  keeps I (evalStatus args) ∧ keeps I (evalInfo args).
Proof.
  intros Hev. repeat match goal with |- _ ∧ _ => split end.
  all: unfold evalTable, evalHasFields, evalWithout, evalMerge, evalFilter, evalMap, evalOrderBy, evalLimit,
    evalSkip, evalInnerJoin, evalOuterJoin, evalGet, evalGetAll, evalIndexList, evalBetween, evalChanges,
    evalCount, evalSum, evalAvg, evalMin, evalMax, evalGroup, evalUngroup, evalReduce, evalDBList,
    evalTableList, evalStatus, evalInfo; try (keeps_auto; done).
  destruct args as [|ref args]; [apply keeps_fail|]. do 3 (apply keeps_bind; [solve [eauto with keeps]|intros ?]).
  apply (keeps_add_feed _ (λ t, t_Changefeeds t ++ [NewChangefeed _])). eauto with keeps.
Qed.
End readers.

(** ** New tables and databases *)

(** The world after a table has been added to a database. *)
Definition with_table (dbn : string) (db : Database) (tn : string) (w : World) : World :=
  set_dbs (<[dbn := put_table db tn (w_next w)]> (w_dbs w))
    (set_tables (<[w_next w := NewTable tn]> (w_tables w)) (S (w_next w)) w).
Definition with_db (dbn : string) (w : World) : World := set_dbs (<[dbn := NewDatabase dbn]> (w_dbs w)) w.

Lemma with_db_ok dbn w : w_dbs w !! dbn = None → world_ok w → world_ok (with_db dbn w).
Proof.
  intros Hn [Ht Hi Hf Hh].
  assert (∀ d db tn p, <[dbn := NewDatabase dbn]> (w_dbs w) !! d = Some db → db_Tables db !! tn = Some p →
    w_dbs w !! d = Some db) as Hold.
  { intros d db tn p. rewrite lookup_insert. case_decide; [intros [= <-]; cbn; by rewrite lookup_empty|done]. }
  split; cbn; [| |done..].
  - intros d db tn p Hd Hp. eauto.
  - intros d1 b1 t1 d2 b2 t2 p H1 Hp1 H2 Hp2. eauto.
Qed.

Lemma with_table_ok dbn db tn w :
  w_dbs w !! dbn = Some db → world_ok w → world_ok (with_table dbn db tn w).
Proof.
  intros Hdb [Ht Hi Hf Hh].
  assert (∀ d b t p, <[dbn := put_table db tn (w_next w)]> (w_dbs w) !! d = Some b → db_Tables b !! t = Some p →
    (d = dbn ∧ t = tn ∧ p = w_next w) ∨
    (∃ b', w_dbs w !! d = Some b' ∧ db_Tables b' !! t = Some p ∧ p < w_next w)) as Hold.
  { intros d b t p. rewrite lookup_insert. case_decide as Hd.
    - intros [= <-]. cbn. rewrite lookup_insert. case_decide; [intros [= <-]; subst; by left|].
      intros Hp. right. exists db. subst d. split_and!; [done|done|].
      destruct (Ht _ _ _ _ Hdb Hp) as [t' Ht']. by eapply Hf.
    - intros Hb Hp. right. exists b. split_and!; [done|done|]. destruct (Ht _ _ _ _ Hb Hp) as [t' Ht']. by eapply Hf. }
  split; cbn.
  - intros d b t p Hb Hp. rewrite lookup_insert. case_decide; [done|].
    destruct (Hold _ _ _ _ Hb Hp) as [(_ & _ & ->)|(b' & ? & ? & _)]; [done|eauto].
  - intros d1 b1 t1 d2 b2 t2 p H1 Hp1 H2 Hp2.
    destruct (Hold _ _ _ _ H1 Hp1) as [(-> & -> & ->)|(b1' & ? & ? & ?)],
      (Hold _ _ _ _ H2 Hp2) as [(-> & -> & ?)|(b2' & ? & ? & ?)]; [done|lia|subst; lia|eauto].
  - intros p t. rewrite lookup_insert. case_decide; [intros; lia|]. intros Hp%Hf. lia.
  - done.
Qed.

Lemma GetOrCreateTableDB_cases db tn w :
  (∃ p, table_at w db tn = Some p ∧ GetOrCreateTableDB db tn w = (Ok p, w)) ∨
  (table_at w db tn = None ∧ ∃ d, w_dbs w !! db = Some d ∧
     GetOrCreateTableDB db tn w = (Ok (w_next w), with_table db d tn w)) ∨
  (w_dbs w !! db = None ∧
     GetOrCreateTableDB db tn w = (Ok (w_next w), with_table db (NewDatabase db) tn (with_db db w))).
Proof.
  unfold GetOrCreateTableDB, table_at. mrun. destruct (w_dbs w !! db) as [d|] eqn:Ed.
  - rewrite Ed. destruct (db_Tables d !! tn) as [p|] eqn:Ep; [by left; exists p|].
    right. left. split; [done|]. exists d. by split.
  - right. right. split; [done|]. unfold ignore_err, CreateDatabase. mrun. rewrite Ed. cbn.
    rewrite lookup_insert_eq. cbn. by rewrite lookup_empty.
Qed.

(** ** The pointers of the databases stay valid *)

Lemma world_ok_put p t t' w :
  w_tables w !! p = Some t → world_ok w → world_ok (set_tables (<[p := t']> (w_tables w)) (w_next w) w).
Proof.
  intros Hp [Ht Hi Hf Hh]. split; cbn; [|done| |done].
  - intros d b tn q Hb Hq. rewrite lookup_insert. case_decide; eauto.
  - intros q t1. rewrite lookup_insert. case_decide; [intros _; subst; by eapply Hf|apply Hf].
Qed.

#[export] Instance world_ok_inv : StoreInv world_ok.
Proof.
  split.
  - intros h w Hh _ []. split; try done. by apply Hh.
  - by intros n w [].
  - intros db tn w Hw. destruct (GetOrCreateTableDB_cases db tn w) as [(p & _ & ->)|[(_ & d & Hd & ->)|(Hn & ->)]]; [done|..].
    + by apply with_table_ok.
    + apply with_table_ok; [apply lookup_insert_eq|]. by apply with_db_ok.
  - intros p t cfs w Hw Hp. by eapply world_ok_put.
Qed.

#[export] Instance world_ok_heap : HeapInv world_ok.
Proof. split. intros h w Hh []. split; try done. by apply Hh. Qed.

Lemma ok_write_table p t : keeps world_ok (write_table p t).
Proof. intros w Hw. unfold write_table. destruct (w_tables w !! p) eqn:E; [|done]. by eapply world_ok_put. Qed.

Lemma ok_CreateDatabase name : keeps world_ok (CreateDatabase name).
Proof. intros w Hw. unfold CreateDatabase. mrun. destruct (w_dbs w !! name) eqn:E; [done|]. by apply with_db_ok. Qed.

Lemma ok_set_db_sub name db db' w :
  w_dbs w !! name = Some db → db_Tables db' ⊆ db_Tables db → world_ok w →
  world_ok (set_dbs (<[name := db']> (w_dbs w)) w).
Proof.
  intros Hdb Hsub [Ht Hi Hf Hh].
  assert (∀ d b t p, <[name := db']> (w_dbs w) !! d = Some b → db_Tables b !! t = Some p →
    ∃ b', w_dbs w !! d = Some b' ∧ db_Tables b' !! t = Some p) as Hold.
  { intros d b t p. rewrite lookup_insert. case_decide; [intros [= <-] Hp|eauto].
    subst. exists db. split; [done|]. by eapply lookup_weaken. }
  split; cbn; [| |done..].
  - intros d b t p Hb Hp. destruct (Hold _ _ _ _ Hb Hp) as (b' & ? & ?). eauto.
  - intros d1 b1 t1 d2 b2 t2 p H1 Hp1 H2 Hp2.
    destruct (Hold _ _ _ _ H1 Hp1) as (b1' & ? & ?), (Hold _ _ _ _ H2 Hp2) as (b2' & ? & ?). eauto.
Qed.

Lemma ok_DropDatabase name : keeps world_ok (DropDatabase name).
Proof.
  intros w Hw. unfold DropDatabase. mrun. destruct (w_dbs w !! name) as [old|] eqn:E; [|done]. case_bool_decide; [done|].
  destruct Hw as [Ht Hi Hf Hh]. split; cbn; [| |done..].
  - intros d b t p [_ Hb]%lookup_delete_Some. eauto.
  - intros d1 b1 t1 d2 b2 t2 p [_ H1]%lookup_delete_Some Hp1 [_ H2]%lookup_delete_Some. eauto.
Qed.

Lemma ok_CreateTable db tn : keeps world_ok (CreateTable db tn).
Proof.
  intros w Hw. unfold CreateTable. mrun. destruct (w_dbs w !! db) as [d|] eqn:E; [|done].
  destruct (db_Tables d !! tn) eqn:E'; [done|]. by apply (with_table_ok db d tn w).
Qed.

Lemma ok_DropTable db tn : keeps world_ok (DropTable db tn).
Proof.
  intros w Hw. unfold DropTable. mrun. destruct (w_dbs w !! db) as [d|] eqn:E; [|done].
  destruct (db_Tables d !! tn) eqn:E'; [|done]. apply (ok_set_db_sub db d); [done| |done]. apply delete_subseteq.
Qed.
#[export] Hint Resolve world_ok_inv world_ok_heap ok_write_table ok_CreateDatabase ok_DropDatabase ok_CreateTable ok_DropTable : keeps.
#[export] Hint Resolve keeps_on_heap keeps_range keeps_range_flat keeps_read_object keeps_new_object keeps_new_result
  keeps_get_heap keeps_lift_str si_table keeps_getTableName keeps_getTableDBAndName keeps_table_ref keeps_range_table
  keeps_sequenceToArray keeps_get_keys keeps_find_flat keeps_find_by_id keeps_write_result
  keeps_delete_result keeps_admin_db keeps_ListTables : keeps.

(** Writing fields through a pointer. *)
Lemma keeps_any_heap {A} I `{!HeapInv I} (m : M Heap A) : respects (keeping heap_ok) m → keeps I (on_heap m).
Proof. intros Hm w Hw. unfold on_heap, zoom. specialize (Hm (w_heap w)). destruct (m (w_heap w)) as [o h]. by apply hi_heap. Qed.
#[export] Hint Resolve keeps_any_heap : keeps.
Lemma keeps_set_fields I `{!StoreInv I} `{!HeapInv I} o u : keeps I (set_fields o u).
Proof. unfold set_fields. keeps_auto. Qed.
#[export] Hint Resolve keeps_set_fields : keeps.

Section world_ok.
Context `{Runtime} (ctx : Context) (evalArg : Datum → M World Datum).

Lemma ok_put_doc p id d : keeps world_ok (put_doc p id d).
Proof. unfold put_doc. keeps_auto. Qed.
Hint Resolve ok_put_doc : keeps.
Lemma ok_update_docs p u l : ∀ n, keeps world_ok (update_docs p u l n).
Proof. induction l as [|[id d] l IH]; intros n; cbn [update_docs]; keeps_auto. Qed.
Hint Resolve ok_update_docs : keeps.

(** The terms that authorize more than a read. *)
Lemma ok_writers args : (∀ d, d ∈ args → keeps world_ok (evalArg d)) →
  keeps world_ok (evalInsert ctx evalArg args) ∧ keeps world_ok (evalUpdate ctx evalArg args) ∧
  keeps world_ok (evalDelete ctx evalArg args) ∧ keeps world_ok (evalReplace ctx evalArg args) ∧
  keeps world_ok (evalIndexCreate ctx evalArg args) ∧ keeps world_ok (evalIndexDrop ctx evalArg args) ∧
  keeps world_ok (evalDBCreate ctx args) ∧ keeps world_ok (evalDBDrop ctx args) ∧
  keeps world_ok (evalTableCreate ctx args) ∧ keeps world_ok (evalTableDrop ctx args).
Proof.
  intros Hev. repeat match goal with |- _ ∧ _ => split end.
  all: unfold evalInsert, evalUpdate, evalDelete, evalReplace, evalIndexCreate, evalIndexDrop,
    evalDBCreate, evalDBDrop, evalTableCreate, evalTableDrop; keeps_auto.
Qed.
End world_ok.

(** ** The documents of a store *)

(** The documents of every table are those of [D]; the flat table map is empty, as
    [NewEvaluator] leaves it. *)
Definition same_docs (D : string → string → gmap string Datum) (w : World) : Prop :=
  world_ok w ∧ w_flat w = ∅ ∧ ∀ db tn, docs w db tn = D db tn.

Lemma table_at_with_table db d tn w dbn tn' :
  w_dbs w !! db = Some d →
  table_at (with_table db d tn w) dbn tn' =
    if decide (dbn = db ∧ tn' = tn) then Some (w_next w) else table_at w dbn tn'.
Proof.
  intros Hd. unfold table_at. cbn. rewrite lookup_insert. case_decide as E1.
  - subst dbn. cbn. rewrite lookup_insert. case_decide; [by rewrite decide_True|].
    rewrite decide_False by (by intros [_ ?]). by rewrite Hd.
  - by rewrite decide_False by (by intros [? _]).
Qed.

Lemma docs_with_table db d tn w dbn tn' :
  world_ok w → w_dbs w !! db = Some d → table_at w db tn = None →
  docs (with_table db d tn w) dbn tn' = docs w dbn tn'.
Proof.
  intros Hw Hd Hn. unfold docs, table_of. rewrite table_at_with_table by done. case_decide as E.
  - destruct E as [-> ->]. rewrite Hn. cbn. by rewrite lookup_insert_eq.
  - destruct (table_at w dbn tn') as [p|] eqn:Ep; [|done]. cbn. rewrite lookup_insert_ne; [done|].
    intros <-. unfold table_at in Ep. destruct (w_dbs w !! dbn) as [b|] eqn:Eb; [|done].
    destruct (wo_table _ Hw _ _ _ _ Eb Ep) as [t Ht]. apply (wo_fresh _ Hw) in Ht. lia.
Qed.

Lemma docs_with_db db w dbn tn : w_dbs w !! db = None → docs (with_db db w) dbn tn = docs w dbn tn.
Proof.
  intros Hn. unfold docs, table_of, table_at. cbn. rewrite lookup_insert. case_decide as E; [|done].
  subst dbn. rewrite Hn. cbn. by rewrite lookup_empty.
Qed.

(** [GetOrCreateTableDB] gives a table and changes no documents. *)
Lemma GetOrCreateTableDB_docs db tn w :
  world_ok w → ∃ p w', GetOrCreateTableDB db tn w = (Ok p, w') ∧ world_ok w' ∧ table_at w' db tn = Some p ∧
    w_heap w' = w_heap w ∧ w_flat w' = w_flat w ∧ w_currentDB w' = w_currentDB w ∧
    ∀ dbn tn', docs w' dbn tn' = docs w dbn tn'.
Proof.
  intros Hw. destruct (GetOrCreateTableDB_cases db tn w) as [(p & Hp & ->)|[(Hn & d & Hd & ->)|(Hn & ->)]].
  - by exists p, w.
  - exists (w_next w), (with_table db d tn w). split_and!; try done.
    + by apply with_table_ok.
    + rewrite table_at_with_table by done. by rewrite decide_True.
    + intros dbn tn'. by apply docs_with_table.
  - assert (world_ok (with_db db w)) as Hw' by (by apply with_db_ok).
    assert (w_dbs (with_db db w) !! db = Some (NewDatabase db)) as Hd by apply lookup_insert_eq.
    eexists _, _. split; [reflexivity|]. split_and!; try done.
    + by apply with_table_ok.
    + rewrite table_at_with_table by done. by rewrite decide_True.
    + intros dbn tn'. rewrite docs_with_table; [by apply docs_with_db|done|done|].
      unfold table_at. rewrite Hd. cbn. apply lookup_empty.
Qed.

Lemma docs_set_table p t t' w :
  w_tables w !! p = Some t → t_Data t' = t_Data t →
  ∀ dbn tn, docs (set_tables (<[p := t']> (w_tables w)) (w_next w) w) dbn tn = docs w dbn tn.
Proof.
  intros Hp Hd dbn tn. unfold docs, table_of. change (table_at (set_tables _ _ w)) with (table_at w).
  destruct (table_at w dbn tn) as [q|]; [|done]. cbn. rewrite lookup_insert. case_decide; [|done]. subst. by rewrite Hp.
Qed.

#[export] Instance same_docs_inv D : StoreInv (same_docs D).
Proof.
  split.
  - intros h w Hh _ (Hw & Hf & Hd). split; [by apply hi_heap|done].
  - intros n w (Hw & Hf & Hd). split; [by apply si_clock|done].
  - intros db tn w (Hw & Hf & Hd).
    destruct (GetOrCreateTableDB_docs db tn w Hw) as (p & w' & -> & Hw' & _ & _ & Hf' & _ & Hd').
    simpl. split; [done|]. split; [by rewrite Hf'|]. intros dbn tn'. by rewrite Hd'.
  - intros p t cfs w (Hw & Hf & Hd) Hp. split; [by eapply world_ok_put|]. split; [done|].
    intros dbn tn. by erewrite docs_set_table.
Qed.
#[export] Instance same_docs_heap D : HeapInv (same_docs D).
Proof. split. intros h w Hh (Hw & Hf & Hd). split; [by apply hi_heap|done]. Qed.
#[export] Hint Resolve same_docs_inv same_docs_heap : keeps.

(** The documents are those of [D] and every object of the heap [h] is as it was
    there; new objects may have been added. *)
Definition frozen (D : string → string → gmap string Datum) (h : Heap) (w : World) : Prop :=
  same_docs D w ∧ heap_grows h (w_heap w).
#[export] Instance frozen_inv D h : StoreInv (frozen D h).
Proof.
  split.
  - intros h' w Hh Hg [Hd Hf]. split; [by apply si_heap|]. by etransitivity.
  - intros n w [Hd Hf]. split; [by apply si_clock|done].
  - intros db tn w [Hd Hf]. pose proof (si_table (I := same_docs D) db tn w Hd) as Hd'.
    destruct (GetOrCreateTableDB_docs db tn w (proj1 Hd)) as (p & w' & Hr & _ & _ & Hh & _). rewrite Hr in Hd' |- *. cbn [snd] in *.
    split; [done|by rewrite Hh].
  - intros p t cfs w [Hd Hf] Hp. split; [by eapply si_feeds|done].
Qed.
#[export] Hint Resolve frozen_inv : keeps.

(** A session that may at most read: its authorizer refuses every write, creation
    and drop. *)
Definition read_only (ctx : Context) : Prop :=
  ∃ authz, c_authz ctx = Some authz ∧
    ∀ db read write create drop, write || create || drop = true → is_Some (authz db read write create drop).

Section read_only.
Context `{RuntimeLaws} (ctx : Context) (Hctx : read_only ctx).
(** No table is in the flat map. *)
Context (I : World → Prop) `{!StoreInv I} (Hflat : ∀ w, I w → w_flat w = ∅).
Context (evalArg : Datum → M World Datum).

Lemma keeps_denied {A} db r w c d (m : M World A) :
  w || c || d = true → keeps I (authorize ctx db r w c d ;; m).
Proof.
  intros Hwcd x Hx. destruct Hctx as (authz & Ha & Hno). unfold authorize, AuthorizerFromContext. rewrite Ha.
  destruct (Hno db r w c d Hwcd) as [e ->]. done.
Qed.

(** The flat map is empty, so no document is found in it. *)
Lemma keeps_not_found {A} o (k : option (string * (loc * Datum)) → M World A) :
  keeps I (k None) → keeps I (found ← find_by_id o; k found).
Proof.
  intros Hk w Hw. unfold find_by_id. unfold mbind, M_mbind, M_bind at 1. unfold M_bind at 1.
  pose proof (keeps_read_object I o w Hw) as Hr.
  destruct (read_object o w) as [[obj| | |] w1]; simpl in Hr; [|done..].
  destruct (obj_Get obj "id") as [[]|]; try by apply Hk.
  assert (range_flat_tables w1 = (Ok [], set_clock (S (w_clock w1)) w1)) as Hr1.
  { unfold range_flat_tables. rewrite (Hflat _ Hr). f_equal. f_equal.
    apply Permutation_nil_r. rewrite range_flat_perm. by rewrite map_to_list_empty. }
  unfold M_bind at 1. rewrite Hr1. apply Hk. by apply si_clock.
Qed.

Ltac denied_auto := repeat first [apply keeps_denied; [reflexivity] | apply keeps_not_found | keeps_step].

Lemma read_only_writers args : (∀ d, d ∈ args → keeps I (evalArg d)) →
  keeps I (evalInsert ctx evalArg args) ∧
  keeps I (evalDelete ctx evalArg args) ∧ keeps I (evalReplace ctx evalArg args) ∧
  keeps I (evalIndexCreate ctx evalArg args) ∧ keeps I (evalIndexDrop ctx evalArg args) ∧
  keeps I (evalDBCreate ctx args) ∧ keeps I (evalDBDrop ctx args) ∧
  keeps I (evalTableCreate ctx args) ∧ keeps I (evalTableDrop ctx args).
Proof.
  intros Hev. repeat match goal with |- _ ∧ _ => split end.
  all: unfold evalInsert, evalDelete, evalReplace, evalIndexCreate, evalIndexDrop,
    evalDBCreate, evalDBDrop, evalTableCreate, evalTableDrop; denied_auto.
Qed.
(** UPDATE of a document that was fetched writes its fields without asking. *)
Lemma read_only_update args `{!HeapInv I} : (∀ d, d ∈ args → keeps I (evalArg d)) → keeps I (evalUpdate ctx evalArg args).
Proof. intros Hev. unfold evalUpdate. denied_auto. Qed.
End read_only.

(** ** Every query *)

(** The term of UPDATE somewhere in a query, and in what a client sent. *)
Definition update_term (f : float64) : bool := bool_decide (int_of_float f = 18)%Z.
Fixpoint updates (d : Datum) : bool :=
  match d with
  | DArray l => match l with DNum f :: _ => update_term f | _ => false end || existsb updates l
  | _ => false
  end.
Definition number (v : GoVal) : option float64 :=
  match v with
  | VFloat64 f | VFloat32 f | VDatum (DNum f) | VDatumPtr (DNum f) => Some f
  | VInt z | VInt64 z => Some (float_of_Z z)
  | _ => None
  end.
Fixpoint has_update (v : GoVal) : bool :=
  match v with
  | VDatum d | VDatumPtr d => updates d
  | VSlice l => match l with v :: _ => if number v is Some f then update_term f else false | [] => false end || existsb has_update l
  | _ => false
  end.

(** A map is converted to no array and to no number. *)
Lemma from_map_shape off kvs h d h' : FromInterface off (VMap kvs) h = (Ok d, h') → match d with DArray _ | DNum _ => False | _ => True end.
Proof.
  cbn [FromInterface]. destruct (vmap_get "$reql_type$" kvs) as [[]|]; try done.
  - unfold unmarshalPseudoType. repeat case_bool_decide; try done; repeat case_match; try done; by intros [= <- <-].
  - intros (o & h1 & _ & ([] & h2 & _ & Hr)%bind_inv_ok)%bind_inv_ok. by injection Hr as <- <-.
Qed.
Lemma from_number off v h d h' f : FromInterface off v h = (Ok d, h') → d = DNum f → number v = Some f.
Proof.
  intros Hr ->. destruct v; cbn in Hr; try done; try (injection Hr as -> <-; done); try (by injection Hr as <- <-).
  - apply bind_inv_ok in Hr as (l' & h1 & _ & Hr). by injection Hr.
  - by apply from_map_shape in Hr.
Qed.
Lemma from_update off v : ∀ h d h', FromInterface off v h = (Ok d, h') → has_update v = false → updates d = false.
Proof.
  induction v as [v Hv|l IH|kvs _] using GoVal_nested_ind; intros h d h' Hr Hu.
  - destruct v; try done; by injection Hr as <- <-.
  - cbn [FromInterface] in Hr. apply bind_inv_ok in Hr as (ds & h1 & Hl & Hr). injection Hr as <- <-.
    cbn [has_update] in Hu. apply orb_false_elim in Hu as [Hhead Hu]. cbn [updates]. apply orb_false_intro.
    + destruct l as [|v l]; [by injection Hl as <- <-|]. cbn [mapM] in Hl. apply bind_inv_ok in Hl as (d & h2 & Hd & (ds' & h3 & _ & Hl)%bind_inv_ok).
      injection Hl as <- <-. destruct d; try done. by rewrite (from_number _ _ _ _ _ _ Hd eq_refl) in Hhead.
    + clear Hhead. revert h ds h1 Hl Hu. induction IH as [|v l Hv _ IHl]; intros h ds h1 Hl Hu; [by injection Hl as <- <-|].
      cbn [mapM] in Hl. apply bind_inv_ok in Hl as (d & h2 & Hd & (ds' & h3 & Hl & Hr)%bind_inv_ok). injection Hr as <- <-.
      cbn [existsb] in Hu |- *. apply orb_false_elim in Hu as [Hu1 Hu2]. apply orb_false_intro; [by eapply Hv|by eapply IHl].
  - apply from_map_shape in Hr. by destruct d.
Qed.

Section every_query.
Context `{Runtime} (ctx : Context) (I : World → Prop) `{!StoreInv I}.
(** The terms that authorize more than a read keep the invariant. *)
Context (Hwriters : ∀ evalArg args, (∀ d, d ∈ args → keeps I (evalArg d)) →
  keeps I (evalInsert ctx evalArg args) ∧
  keeps I (evalDelete ctx evalArg args) ∧ keeps I (evalReplace ctx evalArg args) ∧
  keeps I (evalIndexCreate ctx evalArg args) ∧ keeps I (evalIndexDrop ctx evalArg args) ∧
  keeps I (evalDBCreate ctx args) ∧ keeps I (evalDBDrop ctx args) ∧
  keeps I (evalTableCreate ctx args) ∧ keeps I (evalTableDrop ctx args)).

Lemma keeps_eval_term evalArg term args : (∀ d, d ∈ args → keeps I (evalArg d)) →
  (term = 18%Z → keeps I (evalUpdate ctx evalArg args)) → keeps I (eval_term ctx evalArg term args).
Proof.
  intros Hev Hupdate. pose proof (Hwriters evalArg args Hev). pose proof (keeps_readers ctx I evalArg args Hev).
  destruct_and!. unfold eval_term.
  repeat lazymatch goal with |- keeps I (match ?x with _ => _ end) => destruct x end; first [assumption|apply keeps_fail|by apply Hupdate].
Qed.

Lemma keeps_wrap {A} e (m : M World A) : keeps I m → keeps I (wrap_err e m).
Proof. intros Hm w Hw. specialize (Hm w Hw). unfold wrap_err. by destruct (m w) as [[]]. Qed.

(** Queries without UPDATE. *)
Lemma keeps_evaluateDatum_reads fuel : ∀ q, updates q = false → keeps I (evaluateDatum ctx fuel q).
Proof.
  induction fuel as [|fuel IH]; intros q Hq; [apply keeps_nofuel|]. cbn [evaluateDatum].
  destruct q as [| | | | | |l| | | |]; try apply keeps_fail. destruct l as [|t args]; [apply keeps_fail|].
  cbn [updates existsb] in Hq. apply orb_false_elim in Hq as [Hhead [_ Hargs]%orb_false_elim].
  destruct t; try apply keeps_panic. intros w. change (lift (asInt (DNum f)) w) with (Ok (int_of_float f), w).
  rewrite (bind_ok (lift _) _ w (int_of_float f) w) by done. revert w. apply keeps_eval_term.
  - intros d Hd. unfold eval_arg. assert (updates d = false) as Hd'.
    { destruct (updates d) eqn:Hud; [|done]. rewrite <- Hargs. symmetry. apply existsb_exists. exists d. split; [by apply list_elem_of_In|done]. }
    destruct d as [| | | | | |l| | | |]; eauto with keeps. destruct l as [|[] l]; eauto with keeps.
  - intros Hterm. unfold update_term in Hhead. by rewrite bool_decide_eq_true_2 in Hhead.
Qed.
Lemma keeps_Evaluate_reads fuel q : has_update q = false → keeps I (Evaluate ctx fuel q).
Proof.
  intros Hq. assert (keeps I (d ← wrap_err "failed to convert query" (on_heap (FromInterface local_offset q)); evaluateDatum ctx fuel d)) as Hev.
  { intros w Hw. pose proof (keeps_wrap "failed to convert query" _ (keeps_on_heap I _ (FromInterface_ok local_offset q) (FromInterface_grows local_offset q)) w Hw) as Hw1.
    unfold mbind, M_mbind, M_bind. destruct (wrap_err _ _ w) as [[d|e| |] w1] eqn:Hr; try done.
    apply keeps_evaluateDatum_reads; [|done]. apply wrap_err_inv in Hr. unfold on_heap, zoom in Hr.
    destruct (FromInterface local_offset q (w_heap w)) as [r h] eqn:Hf. injection Hr as -> _. by eapply from_update. }
  unfold Evaluate. destruct q; try exact Hev. by apply keeps_evaluateDatum_reads.
Qed.

(** Every query, when UPDATE keeps the invariant too. *)
Context (Hupdate : ∀ evalArg args, (∀ d, d ∈ args → keeps I (evalArg d)) → keeps I (evalUpdate ctx evalArg args)).

Lemma keeps_evaluateDatum fuel : ∀ q, keeps I (evaluateDatum ctx fuel q).
Proof.
  induction fuel as [|fuel IH]; intros q; [apply keeps_nofuel|]. cbn [evaluateDatum].
  destruct q; try apply keeps_fail. destruct l as [|t args]; [apply keeps_fail|].
  apply keeps_bind; [apply keeps_lift|]. intros term.
  assert (∀ d, d ∈ args → keeps I (eval_arg (evaluateDatum ctx fuel) d)) as Hev by (intros d _; unfold eval_arg; keeps_auto).
  apply keeps_eval_term; [done|]. intros _. by apply Hupdate.
Qed.

Lemma keeps_Evaluate fuel q : keeps I (Evaluate ctx fuel q).
Proof.
  unfold Evaluate. destruct q; try apply keeps_evaluateDatum;
    (apply keeps_bind; [apply keeps_wrap, (keeps_on_heap I); [apply FromInterface_ok|apply FromInterface_grows]|intros ?; apply keeps_evaluateDatum]).
Qed.

Lemma keeps_ExecuteJSON fuel q : keeps I (ExecuteJSON ctx fuel q).
Proof.
  unfold ExecuteJSON. apply keeps_bind; [apply keeps_Evaluate|]. intros d.
  apply keeps_bind; [apply keeps_get_heap|]. intros h. apply keeps_lift.
Qed.
End every_query.

(** ** The fuel of an evaluation

    The evaluator recurses on the arguments of a term: from the nesting of the query on,
    more fuel changes nothing. *)

Fixpoint nesting (d : Datum) : nat := match d with DArray l => S (foldr (λ d n, nesting d `max` n) 0 l) | _ => 0 end.
Lemma nesting_arg d l : d ∈ l → nesting d ≤ foldr (λ d n, nesting d `max` n) 0 l.
Proof. induction 1 as [d l|d d' l _ IH]; cbn; lia. Qed.

Lemma bind_cong {S A B} (m m' : M S A) (f f' : A → M S B) :
  (∀ s, m s = m' s) → (∀ a s, f a s = f' a s) → ∀ s, (m ≫= f) s = (m' ≫= f') s.
Proof. intros Hm Hf s. unfold mbind, M_mbind, M_bind. rewrite Hm. by destruct (m' s) as [[]]. Qed.

Section fuel_enough.
Context `{Runtime} (ctx : Context).

Lemma eval_term_ext e e' term args : (∀ d, d ∈ args → ∀ w, e d w = e' d w) →
  ∀ w, eval_term ctx e term args w = eval_term ctx e' term args w.
Proof.
  intros He.
  unfold eval_term.
  repeat lazymatch goal with |- ∀ w, match ?x with _ => _ end w = _ => destruct x end; try done.
  all: unfold evalInsert, evalUpdate, evalDelete, evalReplace, evalIndexCreate, evalIndexDrop, evalHasFields, evalWithout, evalMerge,
    evalFilter, evalMap, evalOrderBy, evalLimit, evalSkip, evalInnerJoin, evalOuterJoin, evalGet, evalGetAll, evalIndexList, evalBetween,
    evalChanges, evalCount, evalSum, evalAvg, evalMin, evalMax, evalGroup, evalUngroup, evalReduce, aggregate_args, join_args.
  all: destruct args as [|a [|b args]]; try done.
  all: repeat first [reflexivity | intros w; apply He; first [by left | right; by left | do 2 right; by left] | apply bind_cong; [|intros ?] | destruct args].
Qed.
Lemma evaluateDatum_fuel n : ∀ n' q w, nesting q < n → nesting q < n' → evaluateDatum ctx n q w = evaluateDatum ctx n' q w.
Proof.
  induction n as [|n IH]; intros [|n'] q w Hn Hn'; try lia. cbn [evaluateDatum].
  destruct q as [| | | | | |l| | | |]; try done. destruct l as [|t args]; [done|]. revert w. apply bind_cong; [done|]. intros term.
  apply eval_term_ext. intros d Hd w. pose proof (nesting_arg d args Hd) as Hle. cbn [nesting foldr] in Hn, Hn'.
  unfold eval_arg. destruct d as [| | | | | |l| | | |]; try done. destruct l as [|[] l]; try done. apply IH; lia.
Qed.

(** Enough fuel for what a client sent. *)
Fixpoint query_depth (v : GoVal) : nat :=
  match v with VDatum d | VDatumPtr d => nesting d | VSlice l => S (foldr (λ v n, query_depth v `max` n) 0 l) | _ => 0 end.
Lemma from_nesting off v : ∀ h d h', FromInterface off v h = (Ok d, h') → nesting d ≤ query_depth v.
Proof.
  induction v as [v Hv|l IH|kvs _] using GoVal_nested_ind; intros h d h' Hr.
  - destruct v; try done; by injection Hr as <- <-.
  - cbn [FromInterface] in Hr. apply bind_inv_ok in Hr as (ds & h1 & Hl & Hr). injection Hr as <- <-.
    cbn [nesting query_depth]. apply le_n_S. revert h ds h1 Hl. induction IH as [|v l Hv _ IHl]; intros h ds h1 Hl; [by injection Hl as <- <-|].
    cbn [mapM] in Hl. apply bind_inv_ok in Hl as (d & h2 & Hd & (ds' & h3 & Hl & Hr)%bind_inv_ok). injection Hr as <- <-.
    cbn [foldr]. pose proof (Hv _ _ _ Hd). pose proof (IHl _ _ _ Hl). lia.
  - apply from_map_shape in Hr. destruct d; try done; cbn; lia.
Qed.
(** Whatever the query and the world, the amount of fuel makes no difference once it
    exceeds the nesting of the query. *)
Theorem fuel_is_enough n n' q w : query_depth q < n → query_depth q < n' → Evaluate ctx n q w = Evaluate ctx n' q w.
Proof.
  intros Hn Hn'. assert ((d ← wrap_err "failed to convert query" (on_heap (FromInterface local_offset q)); evaluateDatum ctx n d) w =
    (d ← wrap_err "failed to convert query" (on_heap (FromInterface local_offset q)); evaluateDatum ctx n' d) w) as Hev.
  { unfold mbind, M_mbind, M_bind. destruct (wrap_err _ _ w) as [[d|e| |] w1] eqn:Hr; try done.
    assert (nesting d ≤ query_depth q) as Hd; [|apply evaluateDatum_fuel; lia].
    apply wrap_err_inv in Hr. unfold on_heap, zoom in Hr. destruct (FromInterface local_offset q (w_heap w)) as [r h] eqn:Hf.
    injection Hr as -> _. by eapply from_nesting. }
  unfold Evaluate. destruct q; try exact Hev. by apply evaluateDatum_fuel.
Qed.
End fuel_enough.

(** Whatever the query, the store stays well formed. *)
Lemma ok_Evaluate `{Runtime} ctx fuel q : keeps world_ok (Evaluate ctx fuel q).
Proof. apply keeps_Evaluate; [apply _|..]; intros evalArg args Hev; pose proof (ok_writers ctx evalArg args Hev); tauto. Qed.
(** A session that may only read keeps the documents, and their fields but for UPDATE. *)
Lemma reader_Evaluate `{RuntimeLaws} ctx D fuel q : read_only ctx → keeps (same_docs D) (Evaluate ctx fuel q).
Proof.
  intros Hctx. assert (∀ w, same_docs D w → w_flat w = ∅) as Hflat by (by intros w (_ & Hf & _)).
  apply keeps_Evaluate; [apply _|..]; intros evalArg args Hev; [exact (read_only_writers ctx Hctx (same_docs D) Hflat evalArg args Hev)|apply (read_only_update ctx Hctx (same_docs D) Hflat evalArg args Hev)].
Qed.
Lemma reader_Evaluate_frozen `{RuntimeLaws} ctx D h fuel q : read_only ctx → has_update q = false → keeps (frozen D h) (Evaluate ctx fuel q).
Proof.
  intros Hctx Hq. assert (∀ w, frozen D h w → w_flat w = ∅) as Hflat by (by intros w [(_ & Hf & _) _]).
  apply keeps_Evaluate_reads; [apply _| |done]. intros evalArg args Hev. exact (read_only_writers ctx Hctx (frozen D h) Hflat evalArg args Hev).
Qed.

Lemma NewEvaluator_ok : world_ok NewEvaluator.
Proof.
  assert (∀ d b t p, w_dbs NewEvaluator !! d = Some b → db_Tables b !! t = Some p → False) as Hno.
  { intros d b t p Hb Hp. change (w_dbs NewEvaluator) with ({["test" := NewDatabase "test"]} : gmap string Database) in Hb.
    apply lookup_singleton_Some in Hb as [_ <-]. cbn in Hp. by rewrite lookup_empty in Hp. }
  split; [| |by intros p t|by intros l o].
  - intros d b t p Hb Hp. by destruct (Hno _ _ _ _ Hb Hp).
  - intros d b t d' b' t' p Hb Hp. by destruct (Hno _ _ _ _ Hb Hp).
Qed.

(** Queries run one after the other, whatever each of them returns. *)
Definition run_queries `{Runtime} (fuel : nat) (qs : list (Context * GoVal)) (w : World) : World :=
  foldl (λ w q, (Evaluate q.1 fuel q.2 w).2) w qs.

(** C14: no sequence of queries, whatever they are and whether they succeed, fail or
    panic, breaks the store: every name in a database leads to a table of its own,
    no two names share one, and the objects of all documents have exactly the keys of
    their fields, in increasing order. *)
Theorem queries_keep_store_ok `{Runtime} fuel qs w : world_ok w → world_ok (run_queries fuel qs w).
Proof.
  unfold run_queries. revert w. induction qs as [|[ctx q] qs IH]; intros w Hw; [done|]. apply IH.
  by apply ok_Evaluate.
Qed.

(** In a session whose authorizer refuses writes, creations and drops, no query
    adds, replaces or removes a document: whatever the query and its outcome, every
    table maps the same ids to the same documents as before. *)
Theorem read_only_session_keeps_tables `{RuntimeLaws} ctx fuel q w :
  read_only ctx → world_ok w → w_flat w = ∅ →
  ∀ db tn, docs (Evaluate ctx fuel q w).2 db tn = docs w db tn.
Proof.
  intros Hctx Hw Hf. by apply (reader_Evaluate ctx (docs w)).
Qed.

(** ** A concrete runtime *)

(** Maps in the order of their entries, the insertion sort. *)
Fixpoint insert_by (less : Datum → Datum → outcome bool) (x : Datum) (l : list Datum) : outcome (list Datum) :=
  match l with
  | [] => Ok [x]
  | y :: l' => b ← less y x; if b : bool then l'' ← insert_by less x l'; Ok (y :: l'') else Ok (x :: y :: l')
  end.
Fixpoint sort_by (less : Datum → Datum → outcome bool) (l : list Datum) : outcome (list Datum) :=
  match l with [] => Ok [] | x :: l' => k ← sort_by less l'; insert_by less x k end.

#[export] Instance plain_runtime : Runtime := {
  rt_render := example_render;
  range_order _ m := map_to_list m;
  range_flat _ m := map_to_list m;
  sort_Slice := sort_by;
  json_text j := match j with JStr s => s | JNum f => pretty (int_of_float f) | _ => "null" end;
  sprint_v v := match v with VString s => s | _ => "" end;
  local_offset _ := 0%Z;
  value_fuel := 20;
}.

Lemma insert_by_ok D cmp less x l :
  order_on D cmp → D x → Forall D l → StronglySorted (λ a b, cmp a b ≠ Gt) l →
  (∀ a, a ∈ l → less a x = Ok (bool_decide (cmp a x = Lt))) →
  ∃ l', insert_by less x l = Ok l' ∧ l' ≡ₚ x :: l ∧ StronglySorted (λ a b, cmp a b ≠ Gt) l'.
Proof.
  intros Ho Hx. induction l as [|y l IH]; intros HD Hs Hless.
  - exists [x]. split_and!; [done|done|by repeat constructor].
  - apply Forall_cons in HD as [Hy HD]. apply StronglySorted_inv in Hs as [Hs Hyl].
    simpl. rewrite Hless by (by left). osteps. case_bool_decide as Hc.
    + destruct IH as (l' & Hrun & Hp & Hl'); [done|done|intros a ?; apply Hless; by right|].
      rewrite Hrun. osteps. exists (y :: l'). split; [done|]. split; [rewrite Hp; constructor|].
      constructor; [done|]. rewrite Hp. constructor; [by rewrite Hc|done].
    + exists (x :: y :: l). split_and!; [done..|].
      assert (cmp x y ≠ Gt) as Hxy.
      { rewrite (ord_antisym _ _ Ho y x) by done. by destruct (cmp y x). }
      constructor; [by constructor|]. constructor; [done|].
      apply Forall_forall. intros z Hz. rewrite Forall_forall in Hyl, HD. pose proof (Hyl _ Hz) as Hyz.
      pose proof (ord_trans _ _ Ho x y z Hx Hy (HD _ Hz)) as Ht. unfold chain3 in Ht.
      destruct (cmp x y), (cmp y z); congruence.
Qed.

#[export] Instance plain_runtime_laws : RuntimeLaws.
Proof.
  split; [done|done|]. intros D cmp less l Ho HD Hless. cbn [sort_Slice plain_runtime].
  induction l as [|x l IH]; [by exists []; repeat constructor|].
  apply Forall_cons in HD as [Hx HD].
  destruct IH as (k & Hk & Hp & Hs); [done|intros a b ? ?; apply Hless; by right|].
  simpl. rewrite Hk. osteps.
  destruct (insert_by_ok D cmp less x k) as (l' & Hl' & Hp' & Hs'); [done|done|by rewrite Hp|done| |].
  - intros a Ha. apply Hless; [right; by rewrite <- Hp|by left].
  - exists l'. split_and!; [done| |done]. by rewrite Hp', Hp.
Qed.

(** Query terms as documents. *)
Definition jnum (z : Z) : JSON := JNum (float_of_Z z).
Definition jtable (tn : string) : JSON := JArr [jnum 10; JStr tn].
Definition jinsert (tn : string) (fs : list (string * JSON)) : JSON := JArr [jnum 17; jtable tn; JObj fs].
Definition jget (tn id : string) : JSON := JArr [jnum 70; jtable tn; JStr id].
Definition as_query (j : JSON) : Context * GoVal := (Background, of_json j).

Definition two_users : World :=
  run_queries 5 [as_query (jinsert "users" [("id", JStr "u1"); ("age", jnum 30)]);
                 as_query (jinsert "users" [("id", JStr "u2"); ("age", jnum 25)])] NewEvaluator.

Lemma two_users_ok : world_ok two_users.
Proof.
  assert (∀ q w, world_ok w → world_ok (Evaluate q.1 5 q.2 w).2) as Hk.
  { intros q w Hw. by apply ok_Evaluate. }
  unfold two_users, run_queries. cbn [foldl]. apply Hk, Hk, NewEvaluator_ok.
Qed.
Lemma queries_keep_store_ok_witness : world_ok two_users.
Proof. apply queries_keep_store_ok, NewEvaluator_ok. Defined.

(** A session that may read every database and do nothing else. *)
Definition reader : Context :=
  WithSession Background "" (Some (λ db r w c d, if w || c || d then Some "permission denied" else None)).
Lemma reader_read_only : read_only reader.
Proof. eexists. split; [reflexivity|]. intros db r w c d Hd. cbv beta. rewrite Hd. by eexists. Qed.

Lemma read_only_session_keeps_tables_witness :
  size (docs two_users "test" "users") = 2 ∧
  ∀ db tn, docs (Evaluate reader 5 (of_json (JArr [jnum 19; jtable "users"])) two_users).2 db tn = docs two_users db tn.
Proof.
  split; [vm_compute; reflexivity|].
  apply read_only_session_keeps_tables; [apply reader_read_only|exact two_users_ok|].
  vm_compute. reflexivity.
Defined.
