(* ===== verification/Queries.v ===== *)
(** * Queries as documents ([internal/reql/evaluator.go], end to end)

    Queries and results as the JSON documents of [ExecuteJSON].  The documents of a
    table are maps from ids to JSON objects ([gmap string JSON]); inserting, reading,
    counting and deleting refine operations on such maps ([Documents] composes them).
    Then what table references and single documents do that a client would not
    expect; the terms on sequences are in [Sequences]. *)

From S2P Require Import Prelude Bytes Order Datum Index Admin Evaluator Sessions.

(** ** JSON objects as maps *)

(** The fields of an object in the order in which [encoding/json] writes them. *)
Definition kvs_of (m : gmap string JSON) : list (string * JSON) :=
  (λ k, (k, default JNull (m !! k))) <$> sort_Strings (map_to_list m).*1.
Definition JMap (m : gmap string JSON) : JSON := JObj (kvs_of m).

Lemma kvs_of_keys m : (kvs_of m).*1 = sort_Strings (map_to_list m).*1.
Proof. unfold kvs_of. rewrite <- list_fmap_compose. by rewrite list_fmap_id. Qed.
Lemma elem_of_sorted_keys {A} (m : gmap string A) k : k ∈ sort_Strings (map_to_list m).*1 ↔ is_Some (m !! k).
Proof.
  rewrite sort_Strings_perm, list_elem_of_fmap. split.
  - intros ([k' v] & -> & Hin%elem_of_map_to_list). eauto.
  - intros [v Hv]. exists (k, v). split; [done|]. by apply elem_of_map_to_list.
Qed.
Lemma NoDup_sorted_keys {A} (m : gmap string A) : NoDup (sort_Strings (map_to_list m).*1).
Proof. rewrite sort_Strings_perm. apply NoDup_fst_map_to_list. Qed.
(** Sorted keys depend on the domain only. *)
Lemma sorted_keys_dom {A B} (m : gmap string A) (m' : gmap string B) :
  (∀ k, is_Some (m !! k) ↔ is_Some (m' !! k)) →
  sort_Strings (map_to_list m).*1 = sort_Strings (map_to_list m').*1.
Proof.
  intros Hd. apply sort_Strings_unique; [|apply sort_Strings_sorted].
  rewrite sort_Strings_perm. apply NoDup_Permutation; [apply NoDup_fst_map_to_list..|].
  intros k. rewrite <- (sort_Strings_perm (map_to_list m).*1), <- (sort_Strings_perm (map_to_list m').*1).
  rewrite !elem_of_sorted_keys. symmetry. apply Hd.
Qed.
Lemma kvs_of_lookup m k j : (k, j) ∈ kvs_of m ↔ m !! k = Some j.
Proof.
  unfold kvs_of. rewrite list_elem_of_fmap. split.
  - intros (k' & [= -> ->] & [j' Hj]%elem_of_sorted_keys). by rewrite Hj.
  - intros Hj. exists k. rewrite Hj. split; [done|]. apply elem_of_sorted_keys. eauto.
Qed.

Section convert.
Context (local_offset : Z → Z).
Abbreviation Marshal := (MarshalJSON local_offset).
Abbreviation From := (FromInterface local_offset).

(** [d] is marshalled to [j] in every heap that has the objects of [h] below [hi],
    except the one at [o]. *)
Definition marshals_at (n : nat) (h : Heap) (lo hi : loc) (d : Datum) (j : JSON) : Prop :=
  ∀ h2, (∀ l, lo ≤ l < hi → h_objs h2 !! l = h_objs h !! l) → Marshal h2 n d = Ok j.

(** An object whose fields are marshalled to those of [m]. *)
Lemma marshal_object n h2 o obj (m : gmap string JSON) :
  h_objs h2 !! o = Some obj → obj_ok obj →
  (∀ k, is_Some (fields obj !! k) ↔ is_Some (m !! k)) →
  (∀ k d j, fields obj !! k = Some d → m !! k = Some j → Marshal h2 n d = Ok j) →
  Marshal h2 (S n) (DObject o) = Ok (JMap m).
Proof.
  intros Ho Hok Hdom Hm. cbn [MarshalJSON]. rewrite Ho. unfold JMap, kvs_of.
  rewrite (sorted_keys_dom (fields obj) m Hdom).
  assert (∀ ks, (∀ k, k ∈ ks → is_Some (m !! k)) →
    mapM (λ k, j ← owrap marshal_datum_error (Marshal h2 n (field_or_zero obj k)); Ok (k, j)) ks =
    Ok ((λ k, (k, default JNull (m !! k))) <$> ks)) as Hks.
  { induction ks as [|k ks IH]; intros Hin; [done|]. destruct (Hin k) as [j Hj]; [by left|].
    destruct (proj2 (Hdom k)) as [d Hd]; [eauto|]. cbn [mapM fmap list_fmap].
    assert (field_or_zero obj k = d) as Hfz by (unfold field_or_zero; by rewrite Hd).
    rewrite Hfz, (Hm k d j Hd Hj). cbn [owrap]. osteps.
    rewrite IH by (intros k' ?; apply Hin; by right). osteps. by rewrite Hj. }
  rewrite Hks by (intros k; apply elem_of_sorted_keys). done.
Qed.

(** Converting an object of a query: a new object whose fields are converted. *)
Lemma from_map n (m : gmap string JSON) h :
  m !! "$reql_type$" = None → (∀ k j, m !! k = Some j → json_ok n j) →
  ∃ h' obj, From (of_json (JMap m)) h = (Ok (DObject (h_next h)), h') ∧ heap_grows h h' ∧
    h_next h < h_next h' ∧ h_objs h' !! h_next h = Some obj ∧ obj_ok obj ∧
    (∀ k, is_Some (fields obj !! k) ↔ is_Some (m !! k)) ∧
    ∀ k d j, fields obj !! k = Some d → m !! k = Some j → marshals_at n h' (S (h_next h)) (h_next h') d j.
Proof.
  intros Hrt Hj. set (h0 := mkHeap (<[h_next h := obj_of_map ∅]> (h_objs h)) (S (h_next h))).
  assert (NoDup (kvs_of m).*1) as Hnd by (rewrite kvs_of_keys; apply NoDup_sorted_keys).
  assert (Forall (λ kv, converts local_offset n kv.2) (kvs_of m)) as Hconv.
  { apply Forall_forall. intros [k j] Hin%kvs_of_lookup. apply json_ok_converts. by eapply Hj. }
  destruct (converts_fields local_offset n (h_next h) (kvs_of m) Hconv h0 (obj_of_map ∅)) as
    (ds & h' & Hrun & Hle & Hfr & Hfin & Hms); [by apply lookup_insert_eq|apply obj_of_map_ok|simpl; lia|].
  simpl in Hle, Hfr. pose proof (Hms h' (λ _ _, eq_refl)) as Hlen%Forall2_length.
  assert ((zip (kvs_of m).*1 ds).*1 = (kvs_of m).*1) as Hz by (apply fst_zip; rewrite length_fmap; lia).
  destruct (foldl_Set_ok (zip (kvs_of m).*1 ds) (obj_of_map ∅)) as [Hok Hf];
    [apply obj_of_map_ok|by rewrite Hz|intros k _; apply lookup_empty|].
  simpl in Hf. rewrite (right_id_L ∅ _) in Hf.
  assert (∀ k d, fields (foldl (λ ob kd, obj_Set ob kd.1 kd.2) (obj_of_map ∅) (zip (kvs_of m).*1 ds)) !! k = Some d →
    ∃ i j, kvs_of m !! i = Some (k, j) ∧ ds !! i = Some d) as Hfld.
  { intros k d. rewrite Hf. intros Hin%elem_of_list_to_map_2. apply list_elem_of_lookup in Hin as [i Hi].
    apply lookup_zip_with_Some in Hi as (k' & d' & [= <- <-] & Hk & Hd).
    rewrite list_lookup_fmap in Hk. destruct (kvs_of m !! i) as [[k1 j]|] eqn:E; [|done].
    injection Hk as <-. eauto. }
  eexists h', _. split; [|split; [|split; [lia|split; [exact Hfin|split; [done|split]]]]].
  - unfold JMap. cbn [of_json FromInterface].
    rewrite (vmap_get_None (kvs_of m)) by (rewrite kvs_of_keys, elem_of_sorted_keys, Hrt; by intros []).
    unfold NewObjectDataFromMap. rewrite (bind_ok _ _ h (h_next h) h0) by done. by mstep Hrun.
  - split; [lia|]. intros l Hl. rewrite Hfr by lia. apply lookup_insert_ne. lia.
  - intros k. rewrite Hf. rewrite <- (elem_of_sorted_keys m), <- kvs_of_keys. split.
    + intros [d Hd%elem_of_list_to_map_2]. rewrite <- Hz. apply list_elem_of_fmap. by exists (k, d).
    + intros Hin. apply not_eq_None_Some. intros Hno%not_elem_of_list_to_map_2. by rewrite Hz in Hno.
  - intros k d j Hd Hk h2 Hag. destruct (Hfld k d Hd) as (i & j' & Hi & Hdi).
    assert (j' = j) as ->.
    { assert ((k, j') ∈ kvs_of m) as Hin%kvs_of_lookup by (by eapply list_elem_of_lookup_2). congruence. }
    pose proof (Hms h2) as HF. rewrite Forall2_lookup in HF. specialize (HF (λ l Hl, Hag l Hl) i).
    rewrite Hi, Hdi in HF. by inversion HF.
Qed.

(** Only a string is marshalled to a JSON string. *)
Lemma marshal_str n h d s : Marshal h n d = Ok (JStr s) → d = DStr s.
Proof.
  destruct n; [done|]. cbn [MarshalJSON]. destruct d; try done.
  - by destruct f as [|[]| |].
  - by intros [= ->].
  - by destruct (mapM _ l).
  - destruct (h_objs h !! o); [|done]. by destruct (mapM _ _).
  - unfold owrap. by destruct (num_json (coordinates g).1), (num_json (coordinates g).2).
Qed.
End convert.

(** ** Setting the fields of one object in another *)

(** A loop that sets the fields of [uobj] with the keys [ks]. *)
Lemma foldl_Set_fields uobj obj ks : obj_ok obj →
  let obj' := foldl (λ ob k, obj_Set ob k (field_or_zero uobj k)) obj ks in
  obj_ok obj' ∧ ∀ k, fields obj' !! k = if bool_decide (k ∈ ks) then Some (field_or_zero uobj k) else fields obj !! k.
Proof.
  intros Hok. induction ks as [|x ks [IHok IH]] using rev_ind; [done|]. cbv zeta. rewrite foldl_snoc.
  split; [by apply obj_Set_ok|]. intros k. cbn [obj_Set fields]. rewrite lookup_insert, IH. case_decide as Hx.
  - subst. by rewrite bool_decide_eq_true_2 by set_solver.
  - by rewrite (bool_decide_ext (k ∈ ks ++ [x]) (k ∈ ks)) by set_solver.
Qed.

Lemma set_keys_run o u uobj ks : o ≠ u → ∀ obj h, h_objs h !! o = Some obj → h_objs h !! u = Some uobj →
  for_each (λ key, uobj ← hread u; heap_Set o key (field_or_zero uobj key)) ks h =
    (Ok (), mkHeap (<[o := foldl (λ ob k, obj_Set ob k (field_or_zero uobj k)) obj ks]> (h_objs h)) (h_next h)).
Proof.
  intros Hne. induction ks as [|k ks IH]; intros obj h Ho Hu; cbn [for_each foldl].
  - rewrite insert_id by done. by destruct h.
  - set (h1 := mkHeap (<[o := obj_Set obj k (field_or_zero uobj k)]> (h_objs h)) (h_next h)).
    rewrite (bind_ok _ _ h () h1).
    + rewrite (IH (obj_Set obj k (field_or_zero uobj k)) h1).
      * unfold h1. cbn. by rewrite insert_insert_eq.
      * apply lookup_insert_eq.
      * unfold h1. cbn. by rewrite lookup_insert_ne by done.
    + unfold hread, heap_Set, hwrite. mrun. rewrite Hu. unfold hread. by rewrite Ho.
Qed.

(** The object afterwards: its other fields are as they were. *)
Lemma set_object_run o u obj uobj h :
  h_objs h !! o = Some obj → h_objs h !! u = Some uobj → o ≠ u → obj_ok obj → obj_ok uobj →
  ∃ obj', (uobj ← hread u; for_each (λ key, uobj ← hread u; heap_Set o key (field_or_zero uobj key)) (obj_Keys uobj)) h =
      (Ok (), mkHeap (<[o := obj']> (h_objs h)) (h_next h)) ∧
    obj_ok obj' ∧ fields obj' = fields uobj ∪ fields obj.
Proof.
  intros Ho Hu Hne Hok Huok. destruct (foldl_Set_fields uobj obj (obj_Keys uobj) Hok) as [Hok' Hf'].
  eexists. split; [|split; [exact Hok'|]].
  - rewrite (bind_ok (hread u) _ h uobj h) by (unfold hread; by rewrite Hu). by apply set_keys_run.
  - apply map_eq. intros k. rewrite Hf'. unfold obj_Keys. rewrite (obj_ok_keys uobj Huok).
    case_bool_decide as Hk; rewrite elem_of_sorted_keys in Hk.
    + destruct Hk as [d Hd]. rewrite (lookup_union_Some_l _ _ _ _ Hd). unfold field_or_zero. by rewrite Hd.
    + apply eq_None_not_Some in Hk. by rewrite lookup_union_r.
Qed.

(** The same loop of the evaluator. *)
Lemma on_heap_bind {A B} (m : M Heap A) (f : A → M Heap B) w : on_heap (m ≫= f) w = (on_heap m ≫= λ x, on_heap (f x)) w.
Proof.
  unfold on_heap, zoom, mbind, M_mbind, M_bind. by destruct (m (w_heap w)) as [[] h].
Qed.
Lemma on_heap_for_each {A} (f : A → M Heap unit) (g : A → M World unit) l :
  (∀ x w, g x w = on_heap (f x) w) → ∀ w, for_each g l w = on_heap (for_each f l) w.
Proof.
  intros Hg. induction l as [|x l IH]; intros w; [by destruct w|]. cbn [for_each]. rewrite on_heap_bind.
  unfold mbind, M_mbind, M_bind. rewrite Hg. destruct (on_heap (f x) w) as [[] w']; [apply IH|done..].
Qed.
Lemma set_fields_run o u obj uobj w :
  h_objs (w_heap w) !! o = Some obj → h_objs (w_heap w) !! u = Some uobj → o ≠ u → obj_ok obj → obj_ok uobj →
  ∃ obj', set_fields o u w = (Ok (), set_heap (mkHeap (<[o := obj']> (h_objs (w_heap w))) (h_next (w_heap w))) w) ∧
    obj_ok obj' ∧ fields obj' = fields uobj ∪ fields obj.
Proof.
  intros Ho Hu Hne Hok Huok. destruct (set_object_run o u obj uobj (w_heap w) Ho Hu Hne Hok Huok) as (obj' & Hrun & Hres).
  exists obj'. split; [|done]. transitivity (on_heap (uobj ← hread u; for_each (λ key, uobj ← hread u; heap_Set o key (field_or_zero uobj key)) (obj_Keys uobj)) w).
  - rewrite on_heap_bind. apply bind_cong; [done|]. intros u1 w1. apply on_heap_for_each. intros k w2. by rewrite on_heap_bind.
  - unfold on_heap. by apply zoom_ok.
Qed.

(** ** Documents in the heap *)

Section documents.
Context (local_offset : Z → Z) (n : nat).
Implicit Types (h : Heap) (m : gmap string JSON) (P : loc → Prop).
Abbreviation Marshal := (MarshalJSON local_offset).

(** A document that a client can send: a JSON object without a pseudo-type, not too deep. *)
Definition doc_ok m : Prop := m !! "$reql_type$" = None ∧ ∀ k j, m !! k = Some j → json_ok n j.

(** [d] is marshalled to [j] in every heap that has the objects of [h] below [hi],
    except those of [P]. *)
Definition part_at h P (hi : loc) (d : Datum) (j : JSON) : Prop :=
  ∀ h2, (∀ l, l < hi → ¬ P l → h_objs h2 !! l = h_objs h !! l) → Marshal h2 n d = Ok j.

(** The object at [o] is the document [m]; its parts are below [hi] and not in [P]. *)
Definition object_at h P (o hi : loc) m : Prop := ∃ obj,
  h_objs h !! o = Some obj ∧ obj_ok obj ∧ o < hi ∧ hi ≤ h_next h ∧
  (∀ k, is_Some (fields obj !! k) ↔ is_Some (m !! k)) ∧
  ∀ k d j, fields obj !! k = Some d → m !! k = Some j → part_at h P hi d j.

Lemma part_at_mono h h' P P' hi hi' d j :
  hi ≤ hi' → (∀ l, l < hi → ¬ P l → ¬ P' l ∧ h_objs h' !! l = h_objs h !! l) →
  part_at h P hi d j → part_at h' P' hi' d j.
Proof.
  intros Hle Hs Hd h2 H2. apply Hd. intros l Hl Hn. destruct (Hs l Hl Hn) as [Hn' <-]. apply H2; [lia|done].
Qed.
Lemma object_at_mono h h' P P' o hi hi' m :
  hi ≤ hi' → hi' ≤ h_next h' → h_objs h' !! o = h_objs h !! o →
  (∀ l, l < hi → ¬ P l → ¬ P' l ∧ h_objs h' !! l = h_objs h !! l) →
  object_at h P o hi m → object_at h' P' o hi' m.
Proof.
  intros Hle Hle' Hsame Hs (obj & Ho & Hok & Hlt & Hhi & Hdom & Hm). exists obj. rewrite Hsame.
  split_and!; try done; [lia|]. intros k d j Hd Hj. eapply part_at_mono; [exact Hle|exact Hs|by eapply Hm].
Qed.
Lemma object_at_grows h h' P o hi m : heap_grows h h' → object_at h P o hi m → object_at h' P o hi m.
Proof.
  intros [Hle Hag] Hd. pose proof Hd as (obj & _ & _ & Hlt & Hhi & _).
  apply (object_at_mono h _ P _ _ hi); [done|lia|apply Hag; lia| |done]. intros l Hl Hn. split; [done|]. apply Hag. lia.
Qed.
Lemma object_marshals h P o hi m : object_at h P o hi m → Marshal h (S n) (DObject o) = Ok (JMap m).
Proof.
  intros (obj & Ho & Hok & _ & _ & Hdom & Hm). eapply marshal_object; [done..|]. intros k d j Hd Hj. by apply (Hm k d j).
Qed.
(** A string field of the document is the same string in the object. *)
Lemma part_str h P hi d j s : 0 < n → part_at h P hi d j → d = DStr s ↔ j = JStr s.
Proof.
  intros Hn Hd. specialize (Hd h (λ _ _ _, eq_refl)). split; intros ->.
  - destruct n; [lia|]. by injection Hd.
  - by eapply marshal_str.
Qed.

(** A document received from a client is a new object, its parts are newer. *)
Lemma object_received h m : doc_ok m → ∃ h',
  FromInterface local_offset (of_json (JMap m)) h = (Ok (DObject (h_next h)), h') ∧ heap_grows h h' ∧
  object_at h' (λ l, l ≤ h_next h) (h_next h) (h_next h') m.
Proof.
  intros [Hrt Hj]. destruct (from_map local_offset n m h Hrt Hj) as (h' & obj & Hr & Hg & Hlt & Ho & Hok & Hdom & Hm).
  exists h'. split; [done|]. split; [done|]. exists obj. split_and!; try done.
  intros k d j Hd Hk h2 H2. apply (Hm k d j Hd Hk). intros l Hl. apply H2; lia.
Qed.

(** The fields of [um] set in the document [m]. *)
Lemma object_at_union h h' P Pu o u hi hu m um :
  object_at h P o hi m → object_at h Pu u hu um → hu ≤ hi → hi ≤ h_next h' →
  (∀ l, l < hu → ¬ Pu l → ¬ P l) → (∀ l, l < hi → ¬ P l → h_objs h' !! l = h_objs h !! l) →
  (∀ obj uobj, h_objs h !! o = Some obj → h_objs h !! u = Some uobj →
     ∃ obj', h_objs h' !! o = Some obj' ∧ obj_ok obj' ∧ fields obj' = fields uobj ∪ fields obj) →
  object_at h' P o hi (um ∪ m).
Proof.
  intros (obj & Ho & Hok & Hlt & Hhi & Hdom & Hm) (uobj & Hu & Huok & Hult & Huhi & Hudom & Hum) Hle Hle' HP Hs Hset.
  destruct (Hset obj uobj Ho Hu) as (obj' & Ho' & Hok' & Hf'). exists obj'. split_and!; try done.
  - intros k. rewrite Hf', !lookup_union_is_Some. by rewrite Hudom, Hdom.
  - assert (∀ k, fields uobj !! k = None ↔ um !! k = None) as Hnone.
    { intros k. by rewrite !eq_None_not_Some, Hudom. }
    intros k d j. rewrite Hf', !lookup_union_Some_raw. intros [Hd|[Hn Hd]] [Hj|[Hn' Hj]].
    + eapply (part_at_mono h h'); [exact Hle| |exact (Hum k d j Hd Hj)].
      intros l Hl Hp. split; [by apply HP|]. apply Hs; [lia|by apply HP].
    + apply Hnone in Hn'. congruence.
    + apply Hnone in Hn. congruence.
    + eapply (part_at_mono h h'); [exact (le_n hi)| |exact (Hm k d j Hd Hj)]. intros l Hl Hp. split; [done|by apply Hs].
Qed.
End documents.

(** Documents of numbers, strings and constants. *)
Definition flat (j : JSON) : bool :=
  match j with JNull | JBool _ | JStr _ => true | JNum f => negb (IsNaN f || IsInf f) | _ => false end.
Lemma flat_doc_ok n m : 0 < n → m !! "$reql_type$" = None → forallb (λ e, flat e.2) (map_to_list m) = true → doc_ok n m.
Proof.
  intros Hn Hrt Hm%forallb_Forall. split; [done|]. intros k j Hk%elem_of_map_to_list. rewrite Forall_forall in Hm.
  specialize (Hm (k, j) Hk). destruct n; [lia|]. destruct j; try done. cbn in Hm.
  apply negb_true_iff, orb_false_iff in Hm. done.
Qed.
Ltac check_doc := apply flat_doc_ok; [apply Nat.ltb_lt; vm_compute; reflexivity|vm_compute; reflexivity|vm_compute; reflexivity].

(** ** Running the parts of a query *)

(** A step that may allocate objects and create empty tables, and changes nothing
    a client can see. *)
Record quiet (w w' : World) : Prop := {
  q_ok : world_ok w';
  q_heap : heap_grows (w_heap w) (w_heap w');
  q_flat : w_flat w' = w_flat w;
  q_db : w_currentDB w' = w_currentDB w;
  q_docs db tn : docs w' db tn = docs w db tn;
}.

Lemma quiet_trans w1 w2 w3 : quiet w1 w2 → quiet w2 w3 → quiet w1 w3.
Proof.
  intros [] []. split; [done|by eapply heap_grows_trans|congruence|congruence|].
  intros db tn. congruence.
Qed.

Lemma quiet_heap w h : world_ok w → heap_grows (w_heap w) h → heap_ok h → quiet w (set_heap h w).
Proof. intros Hw Hg Hh. by split; [apply hi_heap| | | |]. Qed.
(** The heap after the conversion of a query. *)
Lemma quiet_from off w v r h : world_ok w → heap_grows (w_heap w) h → FromInterface off v (w_heap w) = (r, h) → quiet w (set_heap h w).
Proof. intros Hw Hg Hr. apply quiet_heap; [done|done|]. eapply converted_ok, wo_heap; done. Qed.
Lemma quiet_clock w n : world_ok w → quiet w (set_clock n w).
Proof. intros Hw. by split; [apply si_clock|apply heap_grows_refl| | |]. Qed.

(** [w'] is [w] after one allocation. *)
Lemma new_result_run fs w : world_ok w → ∃ w',
  new_result fs w = (Ok (DObject (h_next (w_heap w))), w') ∧ quiet w w' ∧
  h_objs (w_heap w') !! h_next (w_heap w) = Some (obj_of_map (list_to_map fs)) ∧
  (∀ db tn, table_at w' db tn = table_at w db tn).
Proof.
  intros Hw. eexists. split; [reflexivity|]. split; [|split; [apply lookup_insert_eq|done]].
  apply quiet_heap; [done|apply halloc_grows|]. apply (NewObjectFromMap_ok (list_to_map fs) (w_heap w)), Hw.
Qed.

Lemma get_or_create_run db tn w : world_ok w → ∃ p w',
  GetOrCreateTableDB db tn w = (Ok p, w') ∧ quiet w w' ∧ table_at w' db tn = Some p ∧ w_heap w' = w_heap w.
Proof.
  intros Hw. destruct (GetOrCreateTableDB_docs db tn w Hw) as (p & w' & Hr & ? & ? & Hh & ? & ? & ?).
  exists p, w'. split_and!; try done. split; try done. rewrite Hh. apply heap_grows_refl.
Qed.
(** A table that is there already. *)
Lemma get_or_create_same db tn w p :
  table_at w db tn = Some p → GetOrCreateTableDB db tn w = (Ok p, w).
Proof.
  unfold table_at, GetOrCreateTableDB. intros Hp. mrun. destruct (w_dbs w !! db) as [d|] eqn:E; [|done].
  rewrite E. cbn in Hp. by rewrite Hp.
Qed.

Lemma read_table_run db tn w p :
  world_ok w → table_at w db tn = Some p → ∃ t, read_table p w = (Ok t, w) ∧ w_tables w !! p = Some t ∧ t_Data t = docs w db tn.
Proof.
  intros Hw Hp. unfold table_at in Hp. destruct (w_dbs w !! db) as [d|] eqn:E; [|done].
  destruct (wo_table _ Hw _ _ _ _ E Hp) as [t Ht]. exists t. unfold read_table, docs, table_of, table_at.
  rewrite E. cbn in *. rewrite Hp. cbn. by rewrite Ht.
Qed.

(** New documents in one table. *)
Lemma docs_write db tn w p t data :
  world_ok w → table_at w db tn = Some p → w_tables w !! p = Some t →
  let w' := set_tables (<[p := set_data data t]> (w_tables w)) (w_next w) w in
  world_ok w' ∧ docs w' db tn = data ∧ ∀ db' tn', (db', tn') ≠ (db, tn) → docs w' db' tn' = docs w db' tn'.
Proof.
  intros Hw Hp Ht w'. split; [by eapply world_ok_put|].
  unfold docs, table_of, w'. change (table_at (set_tables _ _ w)) with (table_at w). split.
  - rewrite Hp. cbn. by rewrite lookup_insert_eq.
  - intros db' tn' Hne. destruct (table_at w db' tn') as [q|] eqn:Eq; [|done]. cbn.
    rewrite lookup_insert_ne; [done|]. intros <-. apply Hne. unfold table_at in Hp, Eq.
    destruct (w_dbs w !! db) as [d|] eqn:E1; [|done]. destruct (w_dbs w !! db') as [d'|] eqn:E2; [|done].
    destruct (wo_inj _ Hw _ _ _ _ _ _ _ E2 Eq E1 Hp) as [-> ->]. done.
Qed.

(** A step that sets the documents of one table. *)
Record writes (db tn : string) (data : gmap string Datum) (w w' : World) : Prop := {
  wr_ok : world_ok w';
  wr_heap : heap_grows (w_heap w) (w_heap w');
  wr_flat : w_flat w' = w_flat w;
  wr_db : w_currentDB w' = w_currentDB w;
  wr_docs : docs w' db tn = data;
  wr_other db' tn' : (db', tn') ≠ (db, tn) → docs w' db' tn' = docs w db' tn';
}.
Lemma quiet_writes db tn data w1 w2 w3 : quiet w1 w2 → writes db tn data w2 w3 → writes db tn data w1 w3.
Proof.
  intros Hq [H1 H2 H3 H4 H5 H6]. split; [done|eapply heap_grows_trans; [apply Hq|done]|..].
  - by rewrite H3, (q_flat _ _ Hq).
  - by rewrite H4, (q_db _ _ Hq).
  - done.
  - intros db' tn' Hne. by rewrite H6, (q_docs _ _ Hq).
Qed.
Lemma writes_quiet db tn data w1 w2 w3 : writes db tn data w1 w2 → quiet w2 w3 → writes db tn data w1 w3.
Proof.
  intros [H1 H2 H3 H4 H5 H6] Hq. split; [apply Hq|eapply heap_grows_trans; [done|apply Hq]|..].
  - by rewrite (q_flat _ _ Hq).
  - by rewrite (q_db _ _ Hq).
  - by rewrite (q_docs _ _ Hq).
  - intros db' tn' Hne. by rewrite (q_docs _ _ Hq), H6.
Qed.

Lemma write_table_run db tn w p data :
  world_ok w → table_at w db tn = Some p → ∃ t w', w_tables w !! p = Some t ∧
    write_table p (set_data data t) w = (Ok (), w') ∧ writes db tn data w w' ∧ w_heap w' = w_heap w.
Proof.
  intros Hw Hp. destruct (read_table_run db tn w p Hw Hp) as (t & _ & Ht & _).
  destruct (docs_write db tn w p t data Hw Hp Ht) as (? & ? & ?).
  eexists t, _. split; [done|]. split; [unfold write_table; by rewrite Ht|]. split; [|done].
  by split.
Qed.

Lemma read_object_run w o obj : h_objs (w_heap w) !! o = Some obj → read_object o w = (Ok obj, w).
Proof.
  intros Ho. unfold read_object, on_heap, zoom, hread. rewrite Ho. by destruct w.
Qed.

(** An object that refers to a table. *)
Lemma table_ref_run w o obj db tn :
  h_objs (w_heap w) !! o = Some obj → obj_Get obj "table" = Some (DStr tn) → obj_Get obj "db" = Some (DStr db) →
  getTableDBAndName (DObject o) w = (Ok (Some (db, tn)), w) ∧ table_ref (DObject o) w = (Ok (db, tn), w).
Proof.
  intros Ho Ht Hd.
  assert (getTableDBAndName (DObject o) w = (Ok (Some (db, tn)), w)) as H1.
  { unfold getTableDBAndName. mstep (read_object_run w o obj Ho).
    rewrite (bind_ok get_state _ _ _ _ eq_refl). by rewrite Ht, Hd. }
  split; [done|]. unfold table_ref. by mstep H1.
Qed.

(** The session may read and write the database. *)
Definition may_use (ctx : Context) (db : string) : Prop :=
  (∀ w, authorize ctx db true false false false w = (Ok (), w)) ∧ (∀ w, authorize ctx db false true false false w = (Ok (), w)).
Lemma may_use_all ctx db : c_authz ctx = None → may_use ctx db.
Proof. intros Ha. unfold may_use, authorize, AuthorizerFromContext. by rewrite Ha. Qed.

Section run.
Context `{Runtime} (ctx : Context).

(** An argument that is a query is evaluated, an object is taken as it is. *)
Lemma eval_arg_query (E : Datum → M World Datum) f l w r :
  E (DArray (DNum f :: l)) w = r → eval_arg E (DArray (DNum f :: l)) w = r.
Proof. done. Qed.
Lemma eval_arg_object (E : Datum → M World Datum) o w : eval_arg E (DObject o) w = (Ok (DObject o), w).
Proof. done. Qed.

(** Evaluating the term [TABLE] of a name: a reference to the table of the
    session's database. *)
Lemma eval_table_run fuel tn w :
  let db := resolveDB ctx "" w in
  world_ok w → may_use ctx db →
  ∃ o w' obj p, evaluateDatum ctx (S fuel) (DArray [DNum (float_of_Z 10); DStr tn]) w = (Ok (DObject o), w') ∧
    quiet w w' ∧ table_at w' db tn = Some p ∧ h_objs (w_heap w') !! o = Some obj ∧ o = h_next (w_heap w) ∧
    obj_Get obj "table" = Some (DStr tn) ∧ obj_Get obj "db" = Some (DStr db).
Proof.
  intros db Hw [Ha _]. destruct (get_or_create_run db tn w Hw) as (p & w1 & Hg & Hq & Hp & Hh).
  destruct (new_result_run [("$reql_type$", DStr "TABLE"); ("table", DStr tn); ("db", DStr db)] w1 (q_ok _ _ Hq))
    as (w2 & Hn & Hq2 & Ho & Hta).
  exists (h_next (w_heap w1)), w2. eexists _, p. split; [|split; [by eapply quiet_trans|]].
  - cbn [evaluateDatum]. rewrite (bind_ok (lift _) _ w 10%Z w) by (vm_compute; reflexivity). cbn [eval_term].
    unfold evalTable. rewrite (bind_ok get_state _ _ _ _ eq_refl).
    rewrite (bind_ok (mret _) _ w (db, tn) w) by done.
    mstep (Ha w). mstep Hg. exact Hn.
  - rewrite Hta. split; [done|]. split; [exact Ho|]. split; [by rewrite Hh|]. split; reflexivity.
Qed.

(** The conversion of a query, one argument after the other. *)
Lemma evaluate_array fuel t args ds w h' :
  mapM (FromInterface local_offset) (of_json <$> args) (w_heap w) = (Ok ds, h') →
  int_of_float (float_of_Z t) = t →
  Evaluate ctx (S fuel) (of_json (JArr (jnum t :: args))) w =
    eval_term ctx (eval_arg (evaluateDatum ctx fuel)) t ds (set_heap h' w).
Proof.
  intros Hm Ht. unfold Evaluate. cbn [of_json].
  rewrite (bind_ok _ _ w (DArray (DNum (float_of_Z t) :: ds)) (set_heap h' w)).
  - cbn [evaluateDatum]. rewrite (bind_ok (lift _) _ _ t (set_heap h' w)); [done|].
    unfold lift, asInt. by rewrite Ht.
  - unfold wrap_err, on_heap, zoom. cbn [FromInterface]. rewrite fmap_cons. cbn [mapM].
    rewrite (bind_ok _ _ (w_heap w) (DNum (float_of_Z t) :: ds) h'); [done|].
    rewrite (bind_ok _ _ (w_heap w) (DNum (float_of_Z t)) (w_heap w)) by done. by mstep Hm.
Qed.

(** A reference written as an object is converted to an object with its fields. *)
Definition jref (db tn : string) : JSON := JObj [("db", JStr db); ("table", JStr tn)].
Lemma from_ref db tn h : ∃ h' obj,
  FromInterface local_offset (of_json (jref db tn)) h = (Ok (DObject (h_next h)), h') ∧ heap_grows h h' ∧
  h_next h < h_next h' ∧ h_objs h' !! h_next h = Some obj ∧
  obj_Get obj "table" = Some (DStr tn) ∧ obj_Get obj "db" = Some (DStr db).
Proof.
  set (m := {["db" := JStr db; "table" := JStr tn]} : gmap string JSON).
  assert (∀ k j, m !! k = Some j → json_ok 1 j) as Hj.
  { intros k j. unfold m. rewrite lookup_insert. case_decide; [by intros [= <-]|].
    rewrite lookup_singleton. by case_decide; [intros [= <-]|]. }
  destruct (from_map local_offset 1 m h eq_refl Hj) as (h' & obj & Hr & Hg & Hlt & Ho & Hok & Hdom & Hm).
  assert (∀ k s, m !! k = Some (JStr s) → obj_Get obj k = Some (DStr s)) as Hget.
  { intros k s Hk. destruct (proj2 (Hdom k)) as [d Hd]; [eauto|].
    pose proof (marshal_str _ _ _ _ _ (Hm k d _ Hd Hk h' (λ _ _, eq_refl))) as ->. exact Hd. }
  assert (JMap m = jref db tn) as Hjm by reflexivity. rewrite Hjm in Hr.
  exists h', obj. split_and!; [done..| |]; by apply Hget.
Qed.
End run.

(** ** Access without permission *)

Section access.
Context `{RuntimeLaws} (ctx : Context).

(** The conversion of the arguments [ref, …] that starts with an object. *)
Lemma from_ref_args db tn w rest ds :
  world_ok w → (∀ h, mapM (FromInterface local_offset) (of_json <$> rest) h = (Ok ds, h)) →
  ∃ h' obj, let o := h_next (w_heap w) in
    mapM (FromInterface local_offset) (of_json <$> (jref db tn :: rest)) (w_heap w) = (Ok (DObject o :: ds), h') ∧
    quiet w (set_heap h' w) ∧ o < h_next h' ∧ h_objs h' !! o = Some obj ∧
    obj_Get obj "table" = Some (DStr tn) ∧ obj_Get obj "db" = Some (DStr db).
Proof.
  intros Hw Hrest. destruct (from_ref db tn (w_heap w)) as (h' & obj & Hr & Hg & Hlt & Ho & Ht & Hd).
  exists h', obj. split; [|split; [exact (quiet_from _ _ _ _ _ Hw Hg Hr)|done]].
  rewrite fmap_cons. cbn [mapM]. mstep Hr. by mstep (Hrest h').
Qed.
End access.

(** Reads are not authorized.  When the table reference is written as an object
    instead of the term [TABLE], [GET_ALL] returns every document of the table in
    any session, whatever its authorizer refuses. *)
Theorem object_reference_is_not_authorized `{RuntimeLaws} ctx fuel db tn w :
  world_ok w →
  ∃ l w', Evaluate ctx (S fuel) (of_json (JArr [jnum 78; jref db tn])) w = (Ok (DArray l), w') ∧
    l ≡ₚ (map_to_list (docs w db tn)).*2 ∧ quiet w w'.
Proof.
  intros Hw. destruct (from_ref_args db tn w [] [] Hw (λ _, eq_refl)) as (h' & obj & Hm & Hq & _ & Ho & Ht & Hd).
  rewrite (evaluate_array ctx fuel 78 _ _ w h' Hm) by reflexivity.
  set (w1 := set_heap h' w) in *. destruct (table_ref_run w1 _ obj db tn Ho Ht Hd) as [_ Href].
  destruct (get_or_create_run db tn w1 (q_ok _ _ Hq)) as (p & w2 & Hg & Hq2 & Hp & _).
  destruct (read_table_run db tn w2 p (q_ok _ _ Hq2) Hp) as (t & Hrt & _ & Hdata).
  eexists _, _. split; [|split].
  - cbn [eval_term evalGetAll eval_arg]. rewrite (bind_ok (mret _) _ w1 (DObject (h_next (w_heap w))) w1) by done.
    mstep Href. mstep Hg. unfold range_table. rewrite (bind_ok (_ ≫= _) _ w2 (range_order (w_clock w2) (t_Data t)) (set_clock (S (w_clock w2)) w2)); [reflexivity|].
    by mstep Hrt.
  - rewrite range_order_perm, Hdata, (q_docs _ _ Hq2), (q_docs _ _ Hq). done.
  - eapply quiet_trans; [exact Hq|]. eapply quiet_trans; [exact Hq2|]. apply quiet_clock. apply Hq2.
Qed.

(** A session that may do nothing at all. *)
Definition outsider : Context := WithSession Background "" (Some (λ _ _ _ _ _, Some "permission denied")).

Lemma object_reference_is_not_authorized_witness :
  (Evaluate outsider 5 (of_json (JArr [jnum 78; jtable "users"])) two_users).1 = Err "permission denied" ∧
  ∃ l w', Evaluate outsider 5 (of_json (JArr [jnum 78; jref "test" "users"])) two_users = (Ok (DArray l), w') ∧
    l ≡ₚ (map_to_list (docs two_users "test" "users")).*2 ∧ quiet two_users w'.
Proof.
  split; [vm_compute; reflexivity|].
  apply (object_reference_is_not_authorized outsider 4 "test" "users" two_users).
  apply queries_keep_store_ok, NewEvaluator_ok.
Defined.

(** The result of [DELETE]. *)
Definition delete_fields (n : nat) : list (string * Datum) :=
  [("deleted", num_of_nat n); ("skipped", DNum (float_of_Z 0)); ("errors", DNum (float_of_Z 0))].

(** [DELETE] of a selection that refers to a table. *)
Lemma delete_table_run `{Runtime} ctx evalArg sel d t w0 w selection :
  evalArg sel w0 = (Ok selection, w) → getTableDBAndName selection w = (Ok (Some (d, t)), w) →
  may_use ctx d → world_ok w →
  ∃ r w', evalDelete ctx evalArg [sel] w0 = (Ok (DObject r), w') ∧ writes d t ∅ w w' ∧
    h_objs (w_heap w') !! r = Some (obj_of_map (list_to_map (delete_fields (size (docs w d t))))).
Proof.
  intros Hsel Href [_ Ha] Hw.
  destruct (get_or_create_run d t w Hw) as (p & w3 & Hg & Hq3 & Hp & Hh3).
  destruct (read_table_run d t w3 p (q_ok _ _ Hq3) Hp) as (tb & Hrt3 & Htb & Hdata).
  destruct (write_table_run d t w3 p ∅ (q_ok _ _ Hq3) Hp) as (tb' & w4 & Htb' & Hwr & Hw4 & _).
  assert (tb' = tb) as -> by congruence.
  destruct (new_result_run (delete_fields (size (t_Data tb))) w4 (wr_ok _ _ _ _ _ Hw4)) as (w5 & Hres & Hq5 & Hob & _).
  eexists _, w5. split; [|split].
  - cbn [evalDelete]. mstep Hsel. mstep Href. mstep (Ha w). mstep Hg. mstep Hrt3. mstep Hwr. exact Hres.
  - eapply quiet_writes; [exact Hq3|]. by eapply writes_quiet.
  - rewrite <- (q_docs _ _ Hq3), <- Hdata. exact Hob.
Qed.

(** ** Single documents *)

Section single.
Context `{RuntimeLaws} (ctx : Context).

(** [GET] by an object that refers to the table. *)
Lemma eval_get_ref fuel w o obj db tn id :
  world_ok w → h_objs (w_heap w) !! o = Some obj →
  obj_Get obj "table" = Some (DStr tn) → obj_Get obj "db" = Some (DStr db) →
  ∃ w', evaluateDatum ctx (S fuel) (DArray [DNum (float_of_Z 70); DObject o; DStr id]) w =
      (Ok (default DNull (docs w db tn !! id)), w') ∧ quiet w w' ∧ w_heap w' = w_heap w.
Proof.
  intros Hw Ho Ht Hd. destruct (table_ref_run w o obj db tn Ho Ht Hd) as [_ Href].
  destruct (get_or_create_run db tn w Hw) as (p & w2 & Hg & Hq & Hp & Hh).
  destruct (read_table_run db tn w2 p (q_ok _ _ Hq) Hp) as (t & Hrt & _ & Hdata).
  exists w2. split; [|done]. cbn [evaluateDatum]. rewrite (bind_ok (lift _) _ w 70%Z w) by (vm_compute; reflexivity).
  cbn [eval_term evalGet eval_arg]. rewrite (bind_ok (mret _) _ w (DObject o) w) by done.
  mstep Href. mstep Hg. mstep Hrt. by rewrite Hdata, (q_docs _ _ Hq).
Qed.

(** [get(id)] in a table given by an object, as a document. *)
Definition jget_ref (db tn id : string) : JSON := JArr [jnum 70; jref db tn; JStr id].

Lemma from_get_ref db tn id h : ∃ h1 obj,
  FromInterface local_offset (of_json (jget_ref db tn id)) h =
    (Ok (DArray [DNum (float_of_Z 70); DObject (h_next h); DStr id]), h1) ∧
  heap_grows h h1 ∧ h_next h < h_next h1 ∧ h_objs h1 !! h_next h = Some obj ∧
  obj_Get obj "table" = Some (DStr tn) ∧ obj_Get obj "db" = Some (DStr db).
Proof.
  destruct (from_ref db tn h) as (h1 & obj & Hr & Hg & Hlt & Ho & Ht & Hd). exists h1, obj. split_and!; try done.
  unfold jget_ref. cbn [of_json FromInterface]. rewrite fmap_cons. cbn [mapM].
  rewrite (bind_ok _ _ h [DNum (float_of_Z 70); DObject (h_next h); DStr id] h1); [done|].
  rewrite (bind_ok _ _ h (DNum (float_of_Z 70)) h) by done.
  rewrite fmap_cons. cbn [mapM]. rewrite (bind_ok _ _ h [DObject (h_next h); DStr id] h1); [done|].
  by mstep Hr.
Qed.

(** An object with one field. *)
Lemma from_one_field k v h :
  k ≠ "$reql_type$" → ∃ h' obj,
  FromInterface local_offset (of_json (JObj [(k, JStr v)])) h = (Ok (DObject (h_next h)), h') ∧ heap_grows h h' ∧
  h_objs h' !! h_next h = Some obj ∧ obj_Keys obj = [k] ∧ obj_Get obj k = Some (DStr v).
Proof.
  intros Hk. set (m := {[k := JStr v]} : gmap string JSON).
  assert (∀ k' j, m !! k' = Some j → json_ok 1 j) as Hj by (by intros k' j [_ <-]%lookup_singleton_Some).
  assert (m !! "$reql_type$" = None) as Hrt by (by apply lookup_singleton_ne).
  destruct (from_map local_offset 1 m h Hrt Hj) as (h' & obj & Hr & Hg & _ & Ho & Hok & Hdom & Hm).
  assert (sort_Strings (map_to_list m).*1 = [k]) as Hkeys.
  { unfold m. rewrite map_to_list_singleton. apply sort_Strings_unique; [done|by repeat constructor]. }
  assert (m !! k = Some (JStr v)) as Hmk by apply lookup_singleton_eq.
  assert (JMap m = JObj [(k, JStr v)]) as Hjm by (unfold JMap, kvs_of; rewrite Hkeys; cbn; by rewrite Hmk).
  rewrite Hjm in Hr. exists h', obj. split_and!; try done.
  - unfold obj_Keys. rewrite obj_ok_keys by done. by rewrite (sorted_keys_dom _ m Hdom).
  - destruct (proj2 (Hdom k)) as [d Hd]; [eauto|].
    by pose proof (marshal_str _ _ _ _ _ (Hm k d _ Hd Hmk h' (λ _ _, eq_refl))) as ->.
Qed.

(** No table of the flat map has the document. *)
Lemma find_by_id_none w o obj :
  w_flat w = ∅ → h_objs (w_heap w) !! o = Some obj →
  ∃ n, find_by_id o w = (Ok None, set_clock n w).
Proof.
  intros Hf Ho. unfold find_by_id. mstep (read_object_run w o obj Ho).
  destruct (obj_Get obj "id") as [[]|]; try (exists (w_clock w); by destruct w).
  exists (S (w_clock w)). rewrite (bind_ok range_flat_tables _ w [] (set_clock (S (w_clock w)) w)); [done|].
  unfold range_flat_tables. rewrite Hf. f_equal. f_equal.
  apply Permutation_nil_r. rewrite range_flat_perm. by rewrite map_to_list_empty.
Qed.

Lemma getTable_none w o obj :
  h_objs (w_heap w) !! o = Some obj → (∀ s, obj_Get obj "table" ≠ Some (DStr s)) →
  getTableDBAndName (DObject o) w = (Ok None, w).
Proof.
  intros Ho Hno. unfold getTableDBAndName. mstep (read_object_run w o obj Ho).
  rewrite (bind_ok get_state _ _ _ _ eq_refl). destruct (obj_Get obj "table") as [[]|]; try done.
  by destruct (Hno s).
Qed.

(** Setting the one field of an update. *)
Lemma set_one_field w o u obj uobj k v :
  h_objs (w_heap w) !! o = Some obj → h_objs (w_heap w) !! u = Some uobj →
  obj_Keys uobj = [k] → obj_Get uobj k = Some v →
  set_fields o u w = (Ok (), set_heap (mkHeap (<[o := obj_Set obj k v]> (h_objs (w_heap w))) (h_next (w_heap w))) w).
Proof.
  intros Ho Hu Hk Hv. unfold set_fields. mstep (read_object_run w u uobj Hu). rewrite Hk. cbn [for_each].
  rewrite (bind_ok _ _ w () (set_heap (mkHeap (<[o := obj_Set obj k v]> (h_objs (w_heap w))) (h_next (w_heap w))) w)); [done|].
  mstep (read_object_run w u uobj Hu). unfold obj_Get in Hv.
  assert (field_or_zero uobj k = v) as -> by (unfold field_or_zero; by rewrite Hv).
  unfold on_heap, zoom, heap_Set, hread, hwrite. mrun. by rewrite Ho.
Qed.
End single.

(** A document can be changed without permission to write, or to do anything.
    [UPDATE] of a document that [GET] returned sets the fields of the stored
    document itself, in any session, whatever its authorizer refuses. *)
Theorem update_of_a_document_is_not_authorized `{RuntimeLaws} ctx fuel db tn id k v o obj w :
  world_ok w → w_flat w = ∅ →
  docs w db tn !! id = Some (DObject o) → o < h_next (w_heap w) → h_objs (w_heap w) !! o = Some obj →
  (∀ s, obj_Get obj "table" ≠ Some (DStr s)) → k ≠ "$reql_type$" →
  ∃ r w', Evaluate ctx (S (S fuel)) (of_json (JArr [jnum 18; jget_ref db tn id; JObj [(k, JStr v)]])) w = (Ok r, w') ∧
    docs w' db tn !! id = Some (DObject o) ∧ h_objs (w_heap w') !! o = Some (obj_Set obj k (DStr v)).
Proof.
  intros Hw Hf Hdoc Hlt Ho Hnt Hk.
  destruct (from_get_ref db tn id (w_heap w)) as (h1 & robj & Hr1 & Hg1 & Hlt1 & Hro & Hrt & Hrd).
  destruct (from_one_field k v h1 Hk) as (h2 & uobj & Hr2 & Hg2 & Huo & Huk & Hug).
  assert (heap_grows (w_heap w) h2) as Hg by (by eapply heap_grows_trans).
  set (w1 := set_heap h2 w). assert (quiet w w1) as Hq1 by (apply quiet_heap, (converted_ok _ _ _ _ _ Hr2), (converted_ok _ _ _ _ _ Hr1), Hw; done).
  rewrite (evaluate_array ctx (S fuel) 18 [jget_ref db tn id; JObj [(k, JStr v)]]
    [DArray [DNum (float_of_Z 70); DObject (h_next (w_heap w)); DStr id]; DObject (h_next h1)] w h2); [|eapply mapM_cons_ok; [exact Hr1|]; by eapply mapM_cons_ok|reflexivity].
  fold w1. destruct (eval_get_ref ctx fuel w1 (h_next (w_heap w)) robj db tn id) as (w2 & Hget & Hq2 & Hh2);
    [by apply Hq1|cbn; destruct Hg2 as [_ Hg2]; by rewrite Hg2 by lia|done..|].
  rewrite (q_docs _ _ Hq1), Hdoc in Hget.
  change (default DNull (Some (DObject o))) with (DObject o) in Hget.
  assert (h_objs (w_heap w2) !! o = Some obj) as Ho2.
  { rewrite Hh2. cbn. destruct Hg as [_ Hg]. by rewrite Hg. }
  assert (h_objs (w_heap w2) !! h_next h1 = Some uobj) as Hu2 by (by rewrite Hh2).
  assert (w_flat w2 = ∅) as Hf2 by (by rewrite (q_flat _ _ Hq2)).
  destruct (find_by_id_none w2 o obj Hf2 Ho2) as (n & Hfind).
  set (w3 := set_clock n w2) in *.
  pose proof (set_one_field w3 o (h_next h1) obj uobj k (DStr v) Ho2 Hu2 Huk Hug) as Hset.
  set (w4 := set_heap _ w3) in Hset.
  assert (world_ok w4) as Hw4 by (eapply keeping_run; [apply (keeps_set_fields world_ok o (h_next h1))|exact Hset|]; apply si_clock, Hq2).
  destruct (new_result_run [("replaced", num_of_nat 1); ("unchanged", DNum (float_of_Z 0));
    ("skipped", DNum (float_of_Z 0)); ("errors", DNum (float_of_Z 0))] w4 Hw4) as (w5 & Hres & Hq5 & _ & _).
  eexists _, w5. split; [|split].
  - cbn [eval_term evalUpdate]. mstep (eval_arg_query (evaluateDatum ctx (S fuel)) _ _ _ _ Hget).
    mstep (eval_arg_object (evaluateDatum ctx (S fuel)) (h_next h1) w2).
    mstep (getTable_none w2 o obj Ho2 Hnt). mstep Hfind. mstep Hset. exact Hres.
  - rewrite (q_docs _ _ Hq5). change (docs w4 db tn) with (docs w2 db tn). by rewrite (q_docs _ _ Hq2), (q_docs _ _ Hq1).
  - destruct (q_heap _ _ Hq5) as [_ Hh]. rewrite Hh; [apply lookup_insert_eq|]. cbn. rewrite Hh2. cbn.
    destruct Hg as [Hle _]. lia.
Qed.

(** The object behind a document of a table. *)
Definition doc_loc (w : World) (db tn id : string) : loc :=
  match docs w db tn !! id with Some (DObject o) => o | _ => 0 end.
Definition doc_obj (w : World) (db tn id : string) : ObjectData :=
  default empty_object (h_objs (w_heap w) !! doc_loc w db tn id).

Lemma update_of_a_document_is_not_authorized_witness :
  let o := doc_loc two_users "test" "users" "u1" in
  ∃ r w', Evaluate outsider 5
      (of_json (JArr [jnum 18; jget_ref "test" "users" "u1"; JObj [("role", JStr "admin")]])) two_users = (Ok r, w') ∧
    docs w' "test" "users" !! "u1" = Some (DObject o) ∧
    h_objs (w_heap w') !! o = Some (obj_Set (doc_obj two_users "test" "users" "u1") "role" (DStr "admin")).
Proof.
  apply (update_of_a_document_is_not_authorized outsider 3 "test" "users" "u1" "role" "admin").
  - apply queries_keep_store_ok, NewEvaluator_ok.
  - vm_compute. reflexivity.
  - vm_compute. reflexivity.
  - refine (bool_decide_unpack _ _). vm_compute. exact I.
  - vm_compute. reflexivity.
  - intros s. vm_compute. discriminate.
  - discriminate.
Defined.

(** [DELETE] of a document that [GET] returned never deletes that document.  An
    ordinary document stays and the result counts no deletion.  A document with a
    string field [table] is taken for a reference to the table of that name in the
    current database: all documents of that table are deleted. *)
Theorem delete_of_a_document `{RuntimeLaws} ctx fuel db tn id o obj w :
  world_ok w → w_flat w = ∅ → c_authz ctx = None →
  docs w db tn !! id = Some (DObject o) → o < h_next (w_heap w) → h_objs (w_heap w) !! o = Some obj →
  ∃ r w' robj, Evaluate ctx (S (S fuel)) (of_json (JArr [jnum 19; jget_ref db tn id])) w = (Ok (DObject r), w') ∧
    h_objs (w_heap w') !! r = Some robj ∧
    match obj_Get obj "table" with
    | Some (DStr t) =>
        let d := match obj_Get obj "db" with Some (DStr d) => d | _ => w_currentDB w end in
        robj = obj_of_map (list_to_map (delete_fields (size (docs w d t)))) ∧ docs w' d t = ∅
    | _ => robj = obj_of_map (list_to_map (delete_fields 0)) ∧ docs w' db tn = docs w db tn
    end.
Proof.
  intros Hw Hf Ha Hdoc Hlt Ho.
  destruct (from_get_ref db tn id (w_heap w)) as (h1 & robj & Hr1 & Hg1 & Hlt1 & Hro & Hrt & Hrd).
  set (w1 := set_heap h1 w). assert (quiet w w1) as Hq1 by exact (quiet_from _ _ _ _ _ Hw Hg1 Hr1).
  rewrite (evaluate_array ctx (S fuel) 19 [jget_ref db tn id]
    [DArray [DNum (float_of_Z 70); DObject (h_next (w_heap w)); DStr id]] w h1);
    [|by eapply mapM_cons_ok|reflexivity].
  fold w1. destruct (eval_get_ref ctx fuel w1 (h_next (w_heap w)) robj db tn id) as (w2 & Hget & Hq2 & Hh2);
    [by apply Hq1|done..|].
  rewrite (q_docs _ _ Hq1), Hdoc in Hget.
  change (default DNull (Some (DObject o))) with (DObject o) in Hget.
  assert (quiet w w2) as Hq by (by eapply quiet_trans).
  assert (h_objs (w_heap w2) !! o = Some obj) as Ho2 by (destruct (q_heap _ _ Hq) as [_ Hh]; by rewrite Hh).
  pose proof (eval_arg_query (evaluateDatum ctx (S fuel)) _ _ _ _ Hget) as Hsel. cbn [eval_term].
  assert ((∃ t, obj_Get obj "table" = Some (DStr t)) ∨ ∀ s, obj_Get obj "table" ≠ Some (DStr s)) as [[t Ht]|Hnt].
  { destruct (obj_Get obj "table") as [[]|]; eauto. }
  - set (d := match obj_Get obj "db" with Some (DStr d) => d | _ => w_currentDB w end).
    assert (getTableDBAndName (DObject o) w2 = (Ok (Some (d, t)), w2)) as Href.
    { unfold getTableDBAndName. mstep (read_object_run w2 o obj Ho2). rewrite (bind_ok get_state _ _ _ _ eq_refl).
      unfold d. by rewrite Ht, (q_db _ _ Hq). }
    destruct (delete_table_run ctx _ _ d t w1 w2 _ Hsel Href (may_use_all _ _ Ha) (q_ok _ _ Hq)) as (r & w5 & Hrun & Hwr & Hob).
    exists r, w5. eexists. split; [exact Hrun|]. split; [exact Hob|]. rewrite Ht. fold d.
    split; [by rewrite (q_docs _ _ Hq)|]. apply Hwr.
  - assert (w_flat w2 = ∅) as Hf2 by (by rewrite (q_flat _ _ Hq)).
    destruct (find_by_id_none w2 o obj Hf2 Ho2) as (n & Hfind). set (w3 := set_clock n w2) in *.
    assert (quiet w2 w3) as Hq3 by (apply quiet_clock; apply Hq).
    destruct (new_result_run (delete_fields 0) w3 (q_ok _ _ Hq3)) as (w5 & Hres & Hq5 & Hob & _).
    eexists _, w5, _. split; [|split; [exact Hob|]].
    + cbn [evalDelete]. mstep Hsel. mstep (getTable_none w2 o obj Ho2 Hnt). mstep Hfind. exact Hres.
    + assert (docs w5 db tn = docs w db tn) as Hd by (by rewrite (q_docs _ _ Hq5), (q_docs _ _ Hq3), (q_docs _ _ Hq)).
      destruct (obj_Get obj "table") as [[]|]; try done. by destruct (Hnt s).
Qed.

(** A document that names another table. *)
Definition with_label : World :=
  run_queries 5 [as_query (jinsert "notes" [("id", JStr "n1"); ("table", JStr "users")])] two_users.

Lemma delete_of_a_document_witness :
  size (docs with_label "test" "users") = 2 ∧
  ∃ r w' robj, Evaluate Background 5 (of_json (JArr [jnum 19; jget_ref "test" "notes" "n1"])) with_label = (Ok (DObject r), w') ∧
    h_objs (w_heap w') !! r = Some robj ∧
    match obj_Get (doc_obj with_label "test" "notes" "n1") "table" with
    | Some (DStr t) =>
        let d := match obj_Get (doc_obj with_label "test" "notes" "n1") "db" with Some (DStr d) => d | _ => w_currentDB with_label end in
        robj = obj_of_map (list_to_map (delete_fields (size (docs with_label d t)))) ∧ docs w' d t = ∅
    | _ => robj = obj_of_map (list_to_map (delete_fields 0)) ∧ docs w' "test" "notes" = docs with_label "test" "notes"
    end.
Proof.
  split; [vm_compute; reflexivity|].
  apply (delete_of_a_document Background 3 "test" "notes" "n1" (doc_loc with_label "test" "notes" "n1")).
  - apply queries_keep_store_ok, queries_keep_store_ok, NewEvaluator_ok.
  - vm_compute. reflexivity.
  - reflexivity.
  - vm_compute. reflexivity.
  - refine (bool_decide_unpack _ _). vm_compute. exact I.
  - vm_compute. reflexivity.
Defined.
