(* ===== verification/Documents.v ===== *)
(** * Tables of documents ([internal/reql/evaluator.go], end to end)

    What a client of the query language may rely on: the tables of a database are
    maps from ids to JSON documents.  A client sends terms as JSON ([ExecuteJSON]);
    inserting, reading, filtering, counting, updating, replacing and deleting answer
    and act as on such maps.  The documents of the code are objects of a shared heap
    that [UPDATE] changes in place: [represents] says which objects are documents
    ([top]), that the parts of a document are none of them, and that tables share none. *)

From S2P Require Import Prelude Bytes Order Datum Index Admin Evaluator Sessions Queries.

(** ** The abstract database *)

Abbreviation document := (gmap string JSON) (only parsing).
Abbreviation tables := (gmap (string * string) (gmap string (gmap string JSON))) (only parsing).

(** The documents of a table of a database. *)
Definition table_docs (D : tables) (db tn : string) : gmap string document := default ∅ (D !! (db, tn)).

Lemma table_docs_insert D db tn T : table_docs (<[(db, tn) := T]> D) db tn = T.
Proof. unfold table_docs. by rewrite lookup_insert_eq. Qed.
Lemma table_docs_insert_ne D db tn db' tn' T :
  (db', tn') ≠ (db, tn) → table_docs (<[(db, tn) := T]> D) db' tn' = table_docs D db' tn'.
Proof. intros Hne. unfold table_docs. by rewrite lookup_insert_ne by congruence. Qed.

Inductive request :=
| RInsert (tn : string) (m : document)
| RGet (tn id : string)
| RGetAll (tn : string)
| RCount (tn : string)
| RDelete (tn : string)
| RUpdate (tn : string) (u : document)
| RReplace (tn : string) (m : document)
| RFilter (tn : string) (f : gmap string string).

Definition to_json (q : request) : JSON :=
  match q with
  | RInsert tn m => JArr [jnum 17; jtable tn; JMap m]
  | RGet tn id => JArr [jnum 70; jtable tn; JStr id]
  | RGetAll tn => JArr [jnum 78; jtable tn]
  | RCount tn => JArr [jnum 86; jtable tn]
  | RDelete tn => JArr [jnum 19; jtable tn]
  | RUpdate tn u => JArr [jnum 18; jtable tn; JMap u]
  | RReplace tn m => JArr [jnum 20; jtable tn; JMap m]
  | RFilter tn f => JArr [jnum 39; jtable tn; JMap (JStr <$> f)]
  end.

(** The id of a new document in a table of [n] documents. *)
Definition doc_id (n : nat) (m : document) : string :=
  match m !! "id" with Some (JStr s) => s | _ => "auto_" +:+ pretty (n + 1) end.

(** The tables after a request to the database [db]. *)
Definition spec_tables (db : string) (q : request) (D : tables) : tables :=
  match q with
  | RInsert tn m =>
      let T := table_docs D db tn in
      let id := doc_id (size T) m in
      <[(db, tn) := <[id := <["id" := JStr id]> m]> T]> D
  | RDelete tn => <[(db, tn) := ∅]> D
  | RUpdate tn u => <[(db, tn) := (λ m, u ∪ m) <$> table_docs D db tn]> D
  | RReplace tn m => <[(db, tn) := (λ _, m) <$> table_docs D db tn]> D
  | _ => D
  end.

(** A count in a result. *)
Definition count_json (n : nat) : outcome JSON := num_json (float_of_Z (Z.of_nat n)).

(** The answer of [UPDATE] and [REPLACE]. *)
Definition write_answer (n : nat) : outcome JSON :=
  owrap marshal_object_error
    (n ← owrap marshal_datum_error (count_json n);
     Ok (JObj [("errors", jnum 0); ("replaced", n); ("skipped", jnum 0); ("unchanged", jnum 0)])).

(** The document has the strings [f] in its fields. *)
Definition has_strings (f : gmap string string) (m : document) : Prop := map_Forall (λ k s, m !! k = Some (JStr s)) f.
Lemma is_string (j : option JSON) : {s | j = Some (JStr s)} + {∀ s, j ≠ Some (JStr s)}.
Proof. destruct j as [[| | |s| |]|]; try (by right). left. by exists s. Defined.
#[export] Instance is_string_dec (j : option JSON) s : Decision (j = Some (JStr s)).
Proof.
  destruct (is_string j) as [[s' ->]|Hno]; [|by right]. destruct (decide (s' = s)) as [->|Hne]; [by left|].
  right. by intros [= ->].
Defined.
#[export] Instance has_strings_dec f m : Decision (has_strings f m).
Proof. unfold has_strings. apply _. Defined.

(** The answers a request may have.  [GET_ALL] and [FILTER] give the documents in any order. *)
Definition spec_answer (db : string) (q : request) (D : tables) (r : outcome JSON) : Prop :=
  match q with
  | RInsert tn m =>
      r = Ok (JObj [("generated_keys", JArr [JStr (doc_id (size (table_docs D db tn)) m)]); ("inserted", jnum 1)])
  | RGet tn id => r = Ok (default JNull (JMap <$> table_docs D db tn !! id))
  | RGetAll tn => ∃ l, r = Ok (JArr (JMap <$> l)) ∧ l ≡ₚ (map_to_list (table_docs D db tn)).*2
  | RCount tn => r = count_json (size (table_docs D db tn))
  | RDelete tn =>
      r = owrap marshal_object_error
            (n ← owrap marshal_datum_error (count_json (size (table_docs D db tn)));
             Ok (JObj [("deleted", n); ("errors", jnum 0); ("skipped", jnum 0)]))
  | RUpdate tn _ | RReplace tn _ => r = write_answer (size (table_docs D db tn))
  | RFilter tn f => ∃ l, r = Ok (JArr (JMap <$> l)) ∧ l ≡ₚ filter (has_strings f) (map_to_list (table_docs D db tn)).*2
  end.

(** A run of requests: the tables after it, and the answers it may have. *)
Definition spec_tables_all (db : string) (qs : list request) (D : tables) : tables :=
  foldl (λ D q, spec_tables db q D) D qs.
Fixpoint spec_answers (db : string) (qs : list request) (D : tables) (rs : list (outcome JSON)) : Prop :=
  match qs, rs with
  | [], [] => True
  | q :: qs', r :: rs' => spec_answer db q D r ∧ spec_answers db qs' (spec_tables db q D) rs'
  | _, _ => False
  end.

(** The code on the same requests. *)
Fixpoint execute_all `{Runtime} (ctx : Context) (fuel : nat) (qs : list request) (w : World)
    : list (outcome JSON) * World :=
  match qs with
  | [] => ([], w)
  | q :: qs' =>
      let '(r, w1) := ExecuteJSON ctx fuel (to_json q) w in
      let '(rs, w2) := execute_all ctx fuel qs' w1 in (r :: rs, w2)
  end.

(** ** Marshalling with more fuel *)

Lemma mapM_mono {A B} (f g : A → outcome B) l :
  (∀ x y, f x = Ok y → g x = Ok y) → ∀ r, mapM f l = Ok r → mapM g l = Ok r.
Proof.
  intros Hfg. induction l as [|x l IH]; intros r; [done|]. cbn [mapM].
  destruct (f x) as [y| | |] eqn:Hf; try done. rewrite (Hfg _ _ Hf). osteps.
  destruct (mapM f l) as [ys| | |] eqn:Hl; try done. by rewrite (IH _ eq_refl).
Qed.

Lemma owrap_Ok {A} p (o : outcome A) a : owrap p o = Ok a ↔ o = Ok a.
Proof. by destruct o. Qed.

Section marshal.
Context (off : Z → Z).

Lemma marshal_array_eq h n l : MarshalJSON off h (S n) (DArray l) =
  (js ← mapM (λ x, owrap marshal_datum_error (MarshalJSON off h n x)) l; Ok (JArr js)).
Proof. done. Qed.
Definition marshal_field h n obj (k : string) : outcome (string * JSON) :=
  j ← owrap marshal_datum_error (MarshalJSON off h n (field_or_zero obj k)); Ok (k, j).
Lemma marshal_object_eq h n o obj : h_objs h !! o = Some obj →
  MarshalJSON off h (S n) (DObject o) = owrap marshal_object_error
    (kvs ← mapM (marshal_field h n obj) (sort_Strings (map_to_list (fields obj)).*1); Ok (JObj kvs)).
Proof. intros Ho. cbn [MarshalJSON]. by rewrite Ho. Qed.

Lemma marshal_more h n : ∀ d j, MarshalJSON off h n d = Ok j → MarshalJSON off h (S n) d = Ok j.
Proof.
  induction n as [|n IH]; [done|]. intros d j. destruct d; try done.
  - rewrite !marshal_array_eq. destruct (mapM _ l) as [js| | |] eqn:Hl; try done.
    erewrite mapM_mono; [| |exact Hl]; [done|]. intros x y. rewrite !owrap_Ok. apply IH.
  - destruct (h_objs h !! o) as [obj|] eqn:Ho; [|cbn [MarshalJSON]; by rewrite Ho].
    rewrite !(marshal_object_eq _ _ o obj Ho), !owrap_Ok. destruct (mapM _ _) as [js| | |] eqn:Hl; try done.
    erewrite mapM_mono; [| |exact Hl]; [done|]. unfold marshal_field. intros k [k' v].
    destruct (MarshalJSON off h n (field_or_zero obj k)) as [j'| | |] eqn:E; try done. by rewrite (IH _ _ E).
Qed.
End marshal.

(** The JSON of an object made of the fields [fs], in the order of the keys. *)
Lemma marshal_result off h n r (fs fs' : list (string * Datum)) :
  h_objs h !! r = Some (obj_of_map (list_to_map fs)) →
  fs ≡ₚ fs' → NoDup fs'.*1 → StronglySorted String.le fs'.*1 →
  MarshalJSON off h (S n) (DObject r) = owrap marshal_object_error
    (kvs ← mapM (λ kd, j ← owrap marshal_datum_error (MarshalJSON off h n kd.2); Ok (kd.1, j)) fs'; Ok (JObj kvs)).
Proof.
  intros Ho Hp Hnd Hs. rewrite (marshal_object_eq off h n r _ Ho).
  set (obj := obj_of_map (list_to_map fs)). assert (fields obj = list_to_map fs) as Hfo by done.
  assert (∀ k d, (k, d) ∈ fs' → field_or_zero obj k = d) as Hf.
  { intros k d Hin. unfold field_or_zero. rewrite Hfo.
    rewrite (list_to_map_proper fs fs') by (by rewrite ?Hp). by rewrite (elem_of_list_to_map_1 _ _ _ Hnd Hin). }
  rewrite Hfo, (sort_Strings_unique (map_to_list (list_to_map fs)).*1 fs'.*1); [|by rewrite map_to_list_to_map, Hp; rewrite ?Hp|done].
  f_equal. clearbody obj. clear Hfo Hp Hnd Hs Ho. induction fs' as [|[k d] fs' IH]; [done|].
  rewrite fmap_cons. cbn [mapM fst snd].
  change (marshal_field off h n obj k) with (j ← owrap marshal_datum_error (MarshalJSON off h n (field_or_zero obj k)); Ok (k, j)).
  rewrite (Hf k d) by (by left). destruct (owrap _ _); [|done..]. osteps. specialize (IH (λ k d Hin, Hf k d (list_elem_of_further _ _ _ Hin))).
  destruct (mapM _ fs'.*1), (mapM _ fs'); naive_solver.
Qed.

(** ** The store as documents *)

Section represents.
Context `{RuntimeLaws}.

(** The objects that are documents of a table, and of any table.  Queries change these
    objects in place, and no others; after [REPLACE] the documents of a table are one object. *)
Definition tops (w : World) (db tn : string) (o : loc) : Prop := ∃ id, docs w db tn !! id = Some (DObject o).
Definition top (w : World) (o : loc) : Prop := ∃ db tn, tops w db tn o.

(** The datum is the document, whatever happens to the objects of [P]; it is for the
    table of [w] in the heap [h]. *)
Definition doc_is (h : Heap) (P : loc → Prop) (d : Datum) (m : document) : Prop :=
  ∃ o, d = DObject o ∧ object_at local_offset (value_fuel - 2) h P o (h_next h) m.
Definition table_holds (h : Heap) (P : loc → Prop) (T : gmap string Datum) (T' : gmap string document) : Prop :=
  ∀ id, option_Forall2 (doc_is h P) (T !! id) (T' !! id).
Record represents (w : World) (D : tables) : Prop := {
  rep_ok : world_ok w;
  rep_docs db tn : table_holds (w_heap w) (top w) (docs w db tn) (table_docs D db tn);
  rep_apart db tn db' tn' o : tops w db tn o → tops w db' tn' o → (db, tn) = (db', tn');
}.

Lemma table_holds_size h P T T' : table_holds h P T T' → size T = size T'.
Proof.
  intros Ht. rewrite <- !size_dom. f_equal. apply set_eq. intros id. rewrite !elem_of_dom.
  destruct (Ht id); split; intros []; eauto; done.
Qed.
(** Other objects have changed. *)
Lemma table_holds_mono h h' P P' T T' :
  h_next h ≤ h_next h' → (∀ l, l < h_next h → ¬ P l → ¬ P' l ∧ h_objs h' !! l = h_objs h !! l) →
  (∀ id o, T !! id = Some (DObject o) → o < h_next h → h_objs h' !! o = h_objs h !! o) →
  table_holds h P T T' → table_holds h' P' T T'.
Proof.
  intros Hle Hs Ho Ht id. specialize (Ho id). destruct (Ht id) as [d m (o & -> & Hd)|]; constructor.
  exists o. split; [done|]. eapply object_at_mono; [exact Hle|done| |exact Hs|exact Hd].
  eapply Ho; [done|]. by destruct Hd as (_ & _ & _ & ? & _).
Qed.
Lemma represents_doc w D db tn id d : represents w D → docs w db tn !! id = Some d → ∃ o m,
  d = DObject o ∧ table_docs D db tn !! id = Some m ∧
  object_at local_offset (value_fuel - 2) (w_heap w) (top w) o (h_next (w_heap w)) m.
Proof.
  intros Hr Hid. destruct (rep_docs _ _ Hr db tn id) as [d' m (o & -> & Hd)|]; [|done].
  injection Hid as <-. by exists o, m.
Qed.
Lemma represents_below w D db tn o : represents w D → tops w db tn o → o < h_next (w_heap w).
Proof.
  intros Hr [id Hid]. destruct (represents_doc _ _ _ _ _ _ Hr Hid) as (o' & m & [= <-] & _ & _ & _ & _ & Hlt & _). done.
Qed.

Lemma doc_is_marshals h P d m : 2 ≤ value_fuel → doc_is h P d m → MarshalJSON local_offset h (pred value_fuel) d = Ok (JMap m).
Proof.
  intros Hn (o & -> & Hd). replace (pred value_fuel) with (S (value_fuel - 2)) by lia. by eapply object_marshals.
Qed.

(** The documents of a table in the order of a list of its entries. *)
Lemma table_holds_list h P T T' entries :
  table_holds h P T T' → entries ≡ₚ map_to_list T → ∃ ms,
    Forall2 (doc_is h P) entries.*2 ms ∧ ms ≡ₚ (map_to_list T').*2.
Proof.
  intros Ht Hp. set (doc k := default ∅ (T' !! k)). exists (doc <$> entries.*1). split.
  - assert (∀ k d, (k, d) ∈ entries → doc_is h P d (doc k)) as Hd.
    { intros k d Hin. rewrite Hp in Hin. apply elem_of_map_to_list in Hin. pose proof (Ht k) as Hk.
      rewrite Hin in Hk. inversion Hk as [? m Hm Hx Hy|]. unfold doc. by rewrite <- Hy. }
    clear Hp. induction entries as [|[k d] entries IH]; [constructor|]. rewrite !fmap_cons. constructor.
    + apply Hd. by left.
    + apply IH. intros. apply Hd. by right.
  - assert (entries.*1 ≡ₚ (map_to_list T').*1) as ->.
    { rewrite Hp. apply NoDup_Permutation; [apply NoDup_fst_map_to_list..|].
      intros k. rewrite <- (sort_Strings_perm (map_to_list T).*1), <- (sort_Strings_perm (map_to_list T').*1).
      rewrite !elem_of_sorted_keys. destruct (Ht k); split; intros []; eauto; done. }
    rewrite <- list_fmap_compose. apply reflexive_eq, list_fmap_ext. intros i [k m] Hi%list_elem_of_lookup_2. cbn.
    apply elem_of_map_to_list in Hi. unfold doc. by rewrite Hi.
Qed.
Lemma marshal_docs h P ds ms : 2 ≤ value_fuel → Forall2 (doc_is h P) ds ms →
  mapM (λ d, owrap marshal_datum_error (MarshalJSON local_offset h (pred value_fuel) d)) ds = Ok (JMap <$> ms).
Proof.
  intros Hn. induction 1 as [|d m ds ms Hd Hds IH]; [done|]. cbn [mapM fmap list_fmap].
  rewrite (doc_is_marshals _ _ _ _ Hn Hd). cbn [owrap]. osteps. by rewrite IH.
Qed.
Lemma marshal_doc_array h P ds ms : 2 ≤ value_fuel → Forall2 (doc_is h P) ds ms →
  MarshalJSON local_offset h value_fuel (DArray ds) = Ok (JArr (JMap <$> ms)).
Proof.
  intros Hn Hds. pose proof (marshal_docs _ _ _ _ Hn Hds) as Hm. destruct value_fuel as [|n]; [lia|].
  rewrite marshal_array_eq. cbn [pred] in Hm. by rewrite Hm.
Qed.

(** A field of the document set to a string. *)
Lemma object_at_set h h' P o hi m key v obj obj' : 2 < value_fuel →
  object_at local_offset (value_fuel - 2) h P o hi m → P o → hi ≤ h_next h' →
  h_objs h !! o = Some obj → h_objs h' !! o = Some obj' → obj_ok obj' → fields obj' = <[key := DStr v]> (fields obj) →
  (∀ l, l ≠ o → h_objs h' !! l = h_objs h !! l) →
  object_at local_offset (value_fuel - 2) h' P o hi (<[key := JStr v]> m).
Proof.
  intros Hn (obj0 & Ho & Hok & Hlt & Hhi & Hdom & Hm) HP Hle Ho0 Ho' Hok' Hf' Hs. assert (obj0 = obj) as -> by congruence.
  exists obj'. split_and!; try done.
  - intros k. rewrite Hf', !lookup_insert_is_Some. by rewrite Hdom.
  - intros k d j. rewrite Hf', !lookup_insert_Some. intros [[<- <-]|[Hne Hd]] [[? <-]|[? Hj]]; try done.
    + intros h2 _. destruct (value_fuel - 2) eqn:E; [lia|done].
    + eapply (part_at_mono _ _ h h'); [exact (le_n hi)| |exact (Hm k d j Hd Hj)]. intros l Hl Hnp. split; [done|].
      apply Hs. by intros ->.
Qed.

(** A step that changes one table and its documents; new documents are new objects. *)
Lemma represents_step db tn w w' D D' :
  represents w D → world_ok w' → h_next (w_heap w) ≤ h_next (w_heap w') →
  (∀ l, l < h_next (w_heap w) → ¬ tops w db tn l → h_objs (w_heap w') !! l = h_objs (w_heap w) !! l) →
  (∀ l, l < h_next (w_heap w) → tops w' db tn l → tops w db tn l) →
  (∀ db' tn', (db', tn') ≠ (db, tn) → docs w' db' tn' = docs w db' tn' ∧ table_docs D' db' tn' = table_docs D db' tn') →
  table_holds (w_heap w') (top w') (docs w' db tn) (table_docs D' db tn) →
  represents w' D'.
Proof.
  intros Hr Hok Hle Hs Hnew Hother Hthis.
  assert (∀ db' tn' o, (db', tn') ≠ (db, tn) → tops w' db' tn' o → tops w db' tn' o) as Hold.
  { intros db' tn' o Hne [id Hid]. exists id. by destruct (Hother db' tn' Hne) as [<- _]. }
  assert (∀ l, l < h_next (w_heap w) → ¬ top w l → ¬ top w' l) as Htop.
  { intros l Hl Hn (db' & tn' & Ht). apply Hn. exists db', tn'.
    destruct (decide ((db', tn') = (db, tn))) as [[= -> ->]|Hne]; [by apply Hnew|by apply Hold]. }
  split; [done|..].
  - intros db' tn'. destruct (decide ((db', tn') = (db, tn))) as [[= -> ->]|Hne]; [done|].
    destruct (Hother db' tn' Hne) as [-> ->]. apply (table_holds_mono (w_heap w) _ (top w)); [done|..|apply Hr].
    + intros l Hl Hn. split; [by apply Htop|]. apply Hs; [done|]. intros Ht. apply Hn. by exists db, tn.
    + intros id o Hid Ho. apply Hs; [done|]. intros Ht. apply Hne, (rep_apart _ _ Hr _ _ _ _ o); [by exists id|done].
  - assert (∀ db' tn' o, (db', tn') ≠ (db, tn) → tops w' db' tn' o → ¬ tops w' db tn o) as Hno.
    { intros db' tn' o Hne Ht Ht'. apply (Hold _ _ _ Hne) in Ht. pose proof (represents_below _ _ _ _ _ Hr Ht).
      apply Hne, (rep_apart _ _ Hr _ _ _ _ o); [done|by apply Hnew]. }
    intros db1 tn1 db2 tn2 o H1 H2.
    destruct (decide ((db1, tn1) = (db, tn))) as [[= -> ->]|Hne1], (decide ((db2, tn2) = (db, tn))) as [[= -> ->]|Hne2].
    + done.
    + by destruct (Hno _ _ _ Hne2 H2).
    + by destruct (Hno _ _ _ Hne1 H1).
    + by apply (rep_apart _ _ Hr _ _ _ _ o); apply Hold.
Qed.

Lemma quiet_tops w w' db tn o : quiet w w' → tops w' db tn o ↔ tops w db tn o.
Proof. intros Hq. unfold tops. by rewrite (q_docs _ _ Hq). Qed.
Lemma quiet_top w w' o : quiet w w' → top w' o ↔ top w o.
Proof. intros Hq. unfold top. by setoid_rewrite (quiet_tops w w' _ _ o Hq). Qed.
Lemma represents_quiet w w' D : quiet w w' → represents w D → represents w' D.
Proof.
  intros Hq Hr. destruct (q_heap _ _ Hq) as [Hle Hag].
  apply (represents_step "" "" w w' D); [done|apply Hq|done|auto| | |].
  - intros l _ Hl. by apply (quiet_tops _ _ _ _ _ Hq).
  - intros db tn _. split; [apply Hq|done].
  - rewrite (q_docs _ _ Hq). eapply table_holds_mono; [done|..|apply Hr].
    + intros l Hl Hn. rewrite (quiet_top _ _ _ Hq). auto.
    + auto.
Qed.

(** The table gets the documents [T'], made of its objects and of new ones. *)
Lemma represents_writes db tn data w w' T' D :
  writes db tn data w w' → represents w D →
  (∀ id o, data !! id = Some (DObject o) → o < h_next (w_heap w) → tops w db tn o) →
  table_holds (w_heap w') (top w') data T' → represents w' (<[(db, tn) := T']> D).
Proof.
  intros Hwr Hr Hnew Ht. destruct (wr_heap _ _ _ _ _ Hwr) as [Hle Hag].
  apply (represents_step db tn w w' D); [done|apply Hwr|done|auto|..].
  - intros l Hl [id Hid]. rewrite (wr_docs _ _ _ _ _ Hwr) in Hid. by eapply Hnew.
  - intros db' tn' Hne. split; [by apply (wr_other _ _ _ _ _ Hwr)|by apply table_docs_insert_ne].
  - by rewrite (wr_docs _ _ _ _ _ Hwr), table_docs_insert.
Qed.
(** The table gets new entries, all for the new object [o]. *)
Lemma represents_put db tn data w w' T' D m : let o := h_next (w_heap w) in
  writes db tn data w w' → represents w D →
  object_at local_offset (value_fuel - 2) (w_heap w') (λ l, l ≤ o) o (h_next (w_heap w')) m →
  (∀ id, data !! id = docs w db tn !! id ∧ T' !! id = table_docs D db tn !! id ∨ data !! id = Some (DObject o) ∧ T' !! id = Some m) →
  represents w' (<[(db, tn) := T']> D).
Proof.
  intros o Hwr Hr Ho Hd. destruct (wr_heap _ _ _ _ _ Hwr) as [Hle Hag].
  assert (∀ l, top w' l → l ≤ o ∧ (l < o → top w l)) as Htop.
  { intros l (db' & tn' & id & Hid). destruct (decide ((db', tn') = (db, tn))) as [[= -> ->]|Hne].
    - rewrite (wr_docs _ _ _ _ _ Hwr) in Hid. destruct (Hd id) as [[Heq _]|[Heq _]]; rewrite Heq in Hid.
      + assert (tops w db tn l) as Ht by (by exists id). pose proof (represents_below _ _ _ _ _ Hr Ht).
        split; [unfold o; lia|]. intros _. by exists db, tn.
      + injection Hid as <-. split; [done|lia].
    - rewrite (wr_other _ _ _ _ _ Hwr) in Hid by done. assert (tops w db' tn' l) as Ht by (by exists id).
      pose proof (represents_below _ _ _ _ _ Hr Ht). split; [unfold o; lia|]. intros _. by exists db', tn'. }
  apply (represents_writes db tn data w); [done|done|..].
  - intros id l Hid Hl. destruct (Hd id) as [[Heq _]|[Heq _]]; rewrite Heq in Hid; [by exists id|].
    injection Hid as <-. unfold o in Hl. lia.
  - intros id. destruct (Hd id) as [[-> ->]|[-> ->]].
    + apply (table_holds_mono (w_heap w) _ (top w)); [done|..|apply Hr]; [|intros; by apply Hag].
      intros l Hl Hn. split; [|by apply Hag]. intros Ht. by apply Hn, Htop.
    + constructor. exists o. split; [done|]. apply (object_at_mono _ _ (w_heap w') _ (λ l, l ≤ o) _ o (h_next (w_heap w'))); try done.
      intros l Hl Hn. split; [|done]. intros Ht. by apply Hn, Htop.
Qed.
End represents.

(** ** The requests *)

Section requests.
Context `{RuntimeLaws} (ctx : Context) (Hdepth : 3 ≤ value_fuel).
Implicit Types (w : World) (D : tables).

Definition dtable (tn : string) : Datum := DArray [DNum (float_of_Z 10); DStr tn].

Lemma execute_request fuel q w d w' :
  Evaluate ctx fuel (of_json q) w = (Ok d, w') →
  ExecuteJSON ctx fuel q w = (MarshalJSON local_offset (w_heap w') value_fuel d, w').
Proof. intros He. unfold ExecuteJSON. by mstep He. Qed.

(** What the argument [table(tn)] of a term is evaluated to. *)
Record table_arg_spec (db tn : string) (w w2 : World) (o : loc) (p : loc) (t : Table) : Prop := {
  ta_quiet : quiet w w2;
  ta_at : table_at w2 db tn = Some p;
  ta_name : getTableDBAndName (DObject o) w2 = (Ok (Some (db, tn)), w2);
  ta_ref : table_ref (DObject o) w2 = (Ok (db, tn), w2);
  ta_get : GetOrCreateTableDB db tn w2 = (Ok p, w2);
  ta_read : read_table p w2 = (Ok t, w2);
  ta_data : t_Data t = docs w db tn;
}.
Lemma table_arg fuel tn w : world_ok w → may_use ctx (resolveDB ctx "" w) → ∃ o w2 p t,
  eval_arg (evaluateDatum ctx (S fuel)) (dtable tn) w = (Ok (DObject o), w2) ∧
  table_arg_spec (resolveDB ctx "" w) tn w w2 o p t.
Proof.
  intros Hw Hctx. destruct (eval_table_run ctx fuel tn w Hw Hctx) as (o & w2 & obj & p & He & Hq & Hp & Ho & _ & Ht & Hd).
  destruct (table_ref_run w2 o obj _ tn Ho Ht Hd) as [Hn Hr].
  destruct (read_table_run _ _ w2 p (q_ok _ _ Hq) Hp) as (t & Hrt & _ & Hdata).
  exists o, w2, p, t. split; [exact He|]. split; try done; [by apply get_or_create_same|].
  by rewrite Hdata, (q_docs _ _ Hq).
Qed.

(** A term applied to a table and to strings. *)
Lemma evaluate_table fuel t tn (ss : list string) w :
  int_of_float (float_of_Z t) = t →
  Evaluate ctx (S fuel) (of_json (JArr (jnum t :: jtable tn :: (JStr <$> ss)))) w =
    eval_term ctx (eval_arg (evaluateDatum ctx fuel)) t (dtable tn :: (DStr <$> ss)) w.
Proof.
  intros Ht. rewrite (evaluate_array ctx fuel t (jtable tn :: (JStr <$> ss)) (dtable tn :: (DStr <$> ss)) w (w_heap w));
    [by destruct w| |done].
  eapply mapM_cons_ok; [reflexivity|]. induction ss as [|s ss IH]; [done|]. by eapply mapM_cons_ok.
Qed.

Lemma num_marshal h n f : MarshalJSON local_offset h (S n) (DNum f) = num_json f.
Proof. done. Qed.
Lemma value_fuel_S : ∃ n, value_fuel = S (S (S n)).
Proof. destruct value_fuel as [|[|[|n]]] eqn:E; [lia..|eauto]. Qed.

(** The outcome of a request, and the store after it. *)
Definition answered w D (q : request) (res : outcome JSON * World) : Prop :=
  let db := resolveDB ctx "" w in
  spec_answer db q D res.1 ∧ represents res.2 (spec_tables db q D) ∧ w_currentDB res.2 = w_currentDB w.

Lemma get_answered fuel tn id w D : represents w D → may_use ctx (resolveDB ctx "" w) → answered w D (RGet tn id) (ExecuteJSON ctx (S (S fuel)) (to_json (RGet tn id)) w).
Proof.
  intros Hr Hctx. pose proof (rep_ok _ _ Hr) as Hw. destruct (table_arg fuel tn w Hw Hctx) as (o & w2 & p & t & He & Ht).
  set (db := resolveDB ctx "" w) in *.
  assert (Evaluate ctx (S (S fuel)) (of_json (to_json (RGet tn id))) w = (Ok (default DNull (docs w db tn !! id)), w2)) as Hev.
  { unfold to_json. change [jtable tn; JStr id] with (jtable tn :: (JStr <$> [id])). rewrite (evaluate_table (S fuel) 70) by reflexivity.
    cbn [eval_term evalGet fmap list_fmap]. mstep He. mstep (ta_ref _ _ _ _ _ _ _ Ht). mstep (ta_get _ _ _ _ _ _ _ Ht).
    mstep (ta_read _ _ _ _ _ _ _ Ht). by rewrite (ta_data _ _ _ _ _ _ _ Ht). }
  rewrite (execute_request _ _ _ _ _ Hev). unfold answered. cbn [fst snd spec_answer spec_tables]. fold db.
  pose proof (represents_quiet _ _ _ (ta_quiet _ _ _ _ _ _ _ Ht) Hr) as Hr2.
  split; [|split; [done|apply Ht]]. destruct value_fuel_S as [n Hn].
  pose proof (rep_docs _ _ Hr2 db tn id) as Hid. rewrite (q_docs _ _ (ta_quiet _ _ _ _ _ _ _ Ht)) in Hid.
  destruct Hid as [d m Hd|]; [|by rewrite Hn]. apply doc_is_marshals in Hd; [|lia].
  rewrite Hn in *. by apply marshal_more.
Qed.

Lemma get_all_answered fuel tn w D :
  represents w D → may_use ctx (resolveDB ctx "" w) → answered w D (RGetAll tn) (ExecuteJSON ctx (S (S fuel)) (to_json (RGetAll tn)) w).
Proof.
  intros Hr Hctx. pose proof (rep_ok _ _ Hr) as Hw. destruct (table_arg fuel tn w Hw Hctx) as (o & w2 & p & t & He & Ht).
  set (db := resolveDB ctx "" w) in *. set (w3 := set_clock (S (w_clock w2)) w2).
  set (entries := range_order (w_clock w2) (t_Data t)).
  assert (quiet w w3) as Hq.
  { eapply quiet_trans; [apply Ht|]. apply quiet_clock. apply (ta_quiet _ _ _ _ _ _ _ Ht). }
  assert (Evaluate ctx (S (S fuel)) (of_json (to_json (RGetAll tn))) w = (Ok (DArray entries.*2), w3)) as Hev.
  { unfold to_json. change [jtable tn] with (jtable tn :: (JStr <$> [])). rewrite (evaluate_table (S fuel) 78) by reflexivity.
    cbn [eval_term evalGetAll fmap list_fmap]. mstep He. mstep (ta_ref _ _ _ _ _ _ _ Ht). mstep (ta_get _ _ _ _ _ _ _ Ht).
    unfold range_table. rewrite (bind_ok (_ ≫= _) _ w2 entries w3); [done|]. by mstep (ta_read _ _ _ _ _ _ _ Ht). }
  rewrite (execute_request _ _ _ _ _ Hev). unfold answered. cbn [fst snd spec_answer spec_tables]. fold db.
  pose proof (represents_quiet _ _ _ Hq Hr) as Hr2. split; [|split; [done|apply Hq]].
  pose proof (rep_docs _ _ Hr2 db tn) as Hd. rewrite (q_docs _ _ Hq), <- (ta_data _ _ _ _ _ _ _ Ht) in Hd.
  destruct (table_holds_list _ _ _ _ entries Hd) as (ms & Hm & Hp); [by apply range_order_perm|].
  exists ms. split; [|done]. eapply marshal_doc_array; [lia|done].
Qed.

Lemma count_answered fuel tn w D :
  represents w D → may_use ctx (resolveDB ctx "" w) → answered w D (RCount tn) (ExecuteJSON ctx (S (S fuel)) (to_json (RCount tn)) w).
Proof.
  intros Hr Hctx. pose proof (rep_ok _ _ Hr) as Hw. destruct (table_arg fuel tn w Hw Hctx) as (o & w2 & p & t & He & Ht).
  set (db := resolveDB ctx "" w) in *. set (w3 := set_clock (S (w_clock w2)) w2).
  set (entries := range_order (w_clock w2) (t_Data t)).
  assert (quiet w w3) as Hq.
  { eapply quiet_trans; [apply Ht|]. apply quiet_clock. apply (ta_quiet _ _ _ _ _ _ _ Ht). }
  assert (Evaluate ctx (S (S fuel)) (of_json (to_json (RCount tn))) w = (Ok (num_of_nat (length entries.*2)), w3)) as Hev.
  { unfold to_json. change [jtable tn] with (jtable tn :: (JStr <$> [])). rewrite (evaluate_table (S fuel) 86) by reflexivity.
    cbn [eval_term evalCount fmap list_fmap]. mstep He. unfold sequenceToArray.
    rewrite (bind_ok (_ ≫= _) _ w2 entries.*2 w3); [done|]. mstep (ta_name _ _ _ _ _ _ _ Ht). mstep (ta_get _ _ _ _ _ _ _ Ht).
    unfold range_table. rewrite (bind_ok (_ ≫= _) _ w2 entries w3); [done|]. by mstep (ta_read _ _ _ _ _ _ _ Ht). }
  rewrite (execute_request _ _ _ _ _ Hev). unfold answered. cbn [fst snd spec_answer spec_tables]. fold db.
  split; [|split; [by eapply represents_quiet|apply Hq]]. destruct value_fuel_S as [n Hn]. rewrite Hn.
  unfold num_of_nat, count_json. rewrite num_marshal. do 3 f_equal.
  rewrite length_fmap. unfold entries. rewrite (range_order_perm (w_clock w2) (t_Data t)), length_map_to_list.
  rewrite (ta_data _ _ _ _ _ _ _ Ht). apply (table_holds_size (w_heap w) (top w)). apply Hr.
Qed.

Lemma delete_answered fuel tn w D :
  represents w D → may_use ctx (resolveDB ctx "" w) → answered w D (RDelete tn) (ExecuteJSON ctx (S (S fuel)) (to_json (RDelete tn)) w).
Proof.
  intros Hr Hctx. pose proof (rep_ok _ _ Hr) as Hw. destruct (table_arg fuel tn w Hw Hctx) as (o & w2 & p & t & He & Ht).
  set (db := resolveDB ctx "" w) in *. pose proof (ta_quiet _ _ _ _ _ _ _ Ht) as Hq.
  destruct (delete_table_run ctx _ _ db tn w w2 _ He (ta_name _ _ _ _ _ _ _ Ht) Hctx (q_ok _ _ Hq)) as (r & w3 & Hrun & Hwr & Hob).
  rewrite (q_docs _ _ Hq) in Hob.
  assert (Evaluate ctx (S (S fuel)) (of_json (to_json (RDelete tn))) w = (Ok (DObject r), w3)) as Hev.
  { unfold to_json. change [jtable tn] with (jtable tn :: (JStr <$> [])). by rewrite (evaluate_table (S fuel) 19) by reflexivity. }
  rewrite (execute_request _ _ _ _ _ Hev). unfold answered. cbn [fst snd spec_answer spec_tables]. fold db.
  pose proof (quiet_writes _ _ _ _ _ _ Hq Hwr) as Hwr'. split; [|split; [|apply Hwr']].
  - destruct value_fuel_S as [n Hn]. rewrite Hn. set (k := size (docs w db tn)) in *.
    rewrite (marshal_result _ _ _ r _ [("deleted", num_of_nat k); ("errors", DNum (float_of_Z 0)); ("skipped", DNum (float_of_Z 0))] Hob).
    + cbn [mapM snd fst]. unfold num_of_nat. rewrite !num_marshal. rewrite <- (table_holds_size (w_heap w) (top w) (docs w db tn)) by apply Hr.
      fold k. unfold count_json. by destruct (num_json (float_of_Z (Z.of_nat k))).
    + unfold delete_fields. apply perm_skip, perm_swap.
    + refine (bool_decide_unpack _ _). vm_compute. exact I.
    + repeat constructor.
  - eapply represents_writes; [done|done|done|]. intros id. rewrite !lookup_empty. constructor.
Qed.

(** A term applied to a table and to a document: the document is a new object. *)
Lemma doc_arg fuel t tn m w : world_ok w → may_use ctx (resolveDB ctx "" w) → doc_ok (value_fuel - 2) m → int_of_float (float_of_Z t) = t →
  let o := h_next (w_heap w) in ∃ w1 w2 ref p tb,
  Evaluate ctx (S (S fuel)) (of_json (JArr [jnum t; jtable tn; JMap m])) w =
    eval_term ctx (eval_arg (evaluateDatum ctx (S fuel))) t [dtable tn; DObject o] w1 ∧
  eval_arg (evaluateDatum ctx (S fuel)) (dtable tn) w1 = (Ok (DObject ref), w2) ∧
  table_arg_spec (resolveDB ctx "" w) tn w w2 ref p tb ∧
  object_at local_offset (value_fuel - 2) (w_heap w2) (λ l, l ≤ o) o (h_next (w_heap w2)) m.
Proof.
  intros Hw Hctx Hm Ht o. destruct (object_received local_offset (value_fuel - 2) (w_heap w) m Hm) as (h1 & Hfrom & Hg1 & Ho).
  set (w1 := set_heap h1 w). assert (quiet w w1) as Hq1 by exact (quiet_from _ _ _ _ _ Hw Hg1 Hfrom).
  destruct (table_arg fuel tn w1 (q_ok _ _ Hq1) Hctx) as (ref & w2 & p & tb & He & [Hq Hat Hn Hr Hg Hrt Hd]).
  exists w1, w2, ref, p, tb. split; [|split; [done|split]].
  - by rewrite (evaluate_array ctx (S fuel) t [jtable tn; JMap m] [dtable tn; DObject o] w h1);
      [|by eapply mapM_cons_ok; [|eapply mapM_cons_ok]|].
  - split; try done. by eapply quiet_trans.
  - destruct (q_heap _ _ Hq) as [Hle Hag]. eapply object_at_mono; [exact Hle|done|..|exact Ho].
    + apply Hag. by destruct Ho as (_ & _ & _ & ? & _).
    + intros l Hl Hnl. split; [done|by apply Hag].
Qed.


Lemma table_stored db tn w w2 ref p t : table_arg_spec db tn w w2 ref p t → w_tables w2 !! p = Some t.
Proof.
  intros Ht. pose proof (ta_read _ _ _ _ _ _ _ Ht) as Hrd. unfold read_table in Hrd.
  destruct (w_tables w2 !! p); [by injection Hrd as ->|done].
Qed.

(** ** Insert *)

(** The part of [INSERT] that finds or sets the id. *)
Definition ensure_id (o : loc) (auto : string) : M World string :=
  obj ← read_object o;
  match obj_Get obj "id" with
  | Some (DStr s) => mret s
  | _ => on_heap (heap_Set o "id" (DStr auto));; mret auto
  end.
Lemma ensure_id_ok o auto : keeps world_ok (ensure_id o auto).
Proof. unfold ensure_id. keeps_auto. Qed.
Lemma ensure_id_run o auto w P hi m :
  object_at local_offset (value_fuel - 2) (w_heap w) P o hi m → P o →
  let id := match m !! "id" with Some (JStr s) => s | _ => auto end in
  ∃ h, ensure_id o auto w = (Ok id, set_heap h w) ∧ h_next h = h_next (w_heap w) ∧
    object_at local_offset (value_fuel - 2) h P o hi (<["id" := JStr id]> m) ∧
    ∀ l, l ≠ o → h_objs h !! l = h_objs (w_heap w) !! l.
Proof.
  intros Hd HP id. pose proof Hd as (obj & Ho & Hok & _ & Hhi & Hdom & Hm).
  assert (∀ s, obj_Get obj "id" = Some (DStr s) ↔ m !! "id" = Some (JStr s)) as Hid.
  { intros s. unfold obj_Get. specialize (Hdom "id"). specialize (Hm "id").
    destruct (fields obj !! "id") as [d|], (m !! "id") as [j|];
      [|by destruct (proj1 Hdom); eauto|by destruct (proj2 Hdom); eauto|by split].
    rewrite !(inj_iff Some). eapply part_str; [|exact (Hm d j eq_refl eq_refl)]. lia. }
  unfold ensure_id. mstep (read_object_run w o obj Ho).
  destruct (is_string (m !! "id")) as [[s Hs]|Hno].
  - exists (w_heap w). unfold id. rewrite Hs, (proj2 (Hid s) Hs). split; [by destruct w|]. split; [done|].
    split; [by rewrite insert_id|done].
  - set (other := mkHeap (<[o := obj_Set obj "id" (DStr auto)]> (h_objs (w_heap w))) (h_next (w_heap w))).
    assert (∀ s, obj_Get obj "id" ≠ Some (DStr s)) as Hno' by (by intros s ?%Hid; destruct (Hno s)).
    assert (id = auto) as -> by (unfold id; destruct (m !! "id") as [[]|]; try done; by destruct (Hno s)).
    exists other. split; [|split; [done|split]].
    + destruct (obj_Get obj "id") as [[]|]; try (by destruct (Hno' s));
        unfold on_heap, zoom, heap_Set, hread, hwrite; mrun; by rewrite Ho.
    + apply (object_at_set (w_heap w) other P o hi m "id" auto obj (obj_Set obj "id" (DStr auto))); try done; [by apply lookup_insert_eq|by apply obj_Set_ok|].
      intros l Hl. by apply lookup_insert_ne.
    + intros l Hl. by apply lookup_insert_ne.
Qed.

Lemma put_doc_run p id d t w : w_tables w !! p = Some t →
  put_doc p id d w = (Ok (), set_tables (<[p := set_data (<[id := d]> (t_Data t)) t]> (w_tables w)) (w_next w) w).
Proof. intros Ht. unfold put_doc, read_table, write_table. rewrite (bind_ok _ _ w t w) by (by rewrite Ht). by rewrite Ht. Qed.

Lemma insert_answered fuel tn m w D :
  represents w D → may_use ctx (resolveDB ctx "" w) → doc_ok (value_fuel - 2) m → answered w D (RInsert tn m) (ExecuteJSON ctx (S (S fuel)) (to_json (RInsert tn m)) w).
Proof.
  intros Hr Hctx Hm. pose proof (rep_ok _ _ Hr) as Hw. set (o := h_next (w_heap w)).
  destruct (doc_arg fuel 17 tn m w Hw Hctx Hm eq_refl) as (w1 & w2 & ref & p & t & Hev & He & Ht & Ho). fold o in Hev, Ho.
  set (db := resolveDB ctx "" w) in *. pose proof (ta_quiet _ _ _ _ _ _ _ Ht) as Hq.
  assert (size (t_Data t) = size (table_docs D db tn)) as Hsz.
  { rewrite (ta_data _ _ _ _ _ _ _ Ht). apply (table_holds_size (w_heap w) (top w)). apply Hr. }
  set (auto := "auto_" +:+ pretty (size (t_Data t) + 1)).
  destruct (ensure_id_run o auto w2 _ _ m Ho (le_n o)) as (h3 & Hid & Hnx & Ho3 & Hag3).
  assert (match m !! "id" with Some (JStr s) => s | _ => auto end = doc_id (size (table_docs D db tn)) m) as Heq
    by (unfold doc_id; by rewrite <- Hsz).
  rewrite Heq in Hid, Ho3. set (id := doc_id (size (table_docs D db tn)) m) in *. set (w3 := set_heap h3 w2) in *.
  assert (quiet w w3) as Hq3.
  { destruct (q_heap _ _ Hq) as [Hle Hag]. split; [|split|apply Hq|apply Hq|intros; apply (q_docs _ _ Hq)].
    - eapply keeping_run; [apply ensure_id_ok|exact Hid|apply Hq].
    -
 cbn. lia.
    - intros l Hl. cbn. rewrite Hag3 by (unfold o; lia). by apply Hag. }
  destruct (docs_write db tn w3 p t (<[id := DObject o]> (t_Data t)) (q_ok _ _ Hq3) (ta_at _ _ _ _ _ _ _ Ht) (table_stored _ _ _ _ _ _ _ Ht))
    as (Hok4 & Hd4 & Hoth4). set (w4 := set_tables _ _ w3) in *.
  assert (writes db tn (<[id := DObject o]> (t_Data t)) w w4) as Hw4.
  { eapply quiet_writes; [exact Hq3|]. by split. }
  destruct (new_result_run [("inserted", DNum (float_of_Z 1)); ("generated_keys", DArray [DStr id])] w4 Hok4)
    as (w5 & Hres & Hq5 & Hob & _). set (r := h_next (w_heap w4)) in *.
  assert (Evaluate ctx (S (S fuel)) (of_json (to_json (RInsert tn m))) w = (Ok (DObject r), w5)) as Hev'.
  { unfold to_json. rewrite Hev. cbn [eval_term evalInsert]. mstep He. mstep (ta_ref _ _ _ _ _ _ _ Ht). mstep (proj2 Hctx w2).
    mstep (ta_get _ _ _ _ _ _ _ Ht). mstep (eval_arg_object (evaluateDatum ctx (S fuel)) o w2).
    mstep (ta_read _ _ _ _ _ _ _ Ht). fold auto. mstep Hid.
    mstep (put_doc_run p id (DObject o) t w3 (table_stored _ _ _ _ _ _ _ Ht)). exact Hres. }
  rewrite (execute_request _ _ _ _ _ Hev'). unfold answered. cbn [fst snd spec_answer spec_tables]. fold db id.
  split; [|split].
  - destruct value_fuel_S as [n Hn]. rewrite Hn.
    rewrite (marshal_result _ _ _ r _ [("generated_keys", DArray [DStr id]); ("inserted", DNum (float_of_Z 1))] Hob); [done| | |].
    + apply perm_swap.
    + refine (bool_decide_unpack _ _). vm_compute. exact I.
    + repeat constructor.
  - eapply represents_quiet; [exact Hq5|]. eapply represents_put; [exact Hw4|done|by rewrite <- Hnx in Ho3|].
    intros k. rewrite <- (ta_data _ _ _ _ _ _ _ Ht). destruct (decide (id = k)) as [<-|Hne].
    + right. by rewrite !lookup_insert_eq.
    + left. by rewrite !lookup_insert_ne.
  - rewrite (q_db _ _ Hq5). apply (wr_db _ _ _ _ _ Hw4).
Qed.

(** ** Update *)

Lemma put_doc_same p id d t w : w_tables w !! p = Some t → t_Data t !! id = Some d → put_doc p id d w = (Ok (), w).
Proof.
  intros Ht Hd. rewrite (put_doc_run p id d t w Ht), (insert_id (t_Data t)) by done.
  assert (set_data (t_Data t) t = t) as -> by (by destruct t). rewrite insert_id by done. by destruct w.
Qed.

(** The loop over the documents of the table: each object gets the fields of [uobj],
    more than once when it is several documents. *)
Lemma update_docs_run p u uobj t entries : ∀ n w,
  w_tables w !! p = Some t → h_objs (w_heap w) !! u = Some uobj → obj_ok uobj →
  Forall (λ e, t_Data t !! e.1 = Some e.2 ∧ ∃ o obj, e.2 = DObject o ∧ o ≠ u ∧ h_objs (w_heap w) !! o = Some obj ∧ obj_ok obj) entries →
  ∃ h, update_docs p (DObject u) entries n w = (Ok (n + length entries), set_heap h w) ∧ h_next h = h_next (w_heap w) ∧
    (∀ l, DObject l ∉ entries.*2 → h_objs h !! l = h_objs (w_heap w) !! l) ∧
    ∀ o obj, h_objs (w_heap w) !! o = Some obj → obj_ok obj → ∃ obj', h_objs h !! o = Some obj' ∧ obj_ok obj' ∧
      (fields obj' = fields uobj ∪ fields obj ∨ DObject o ∉ entries.*2 ∧ fields obj' = fields obj).
Proof.
  induction entries as [|[id d] entries IH]; intros n w Ht Hu Huok Hes; cbn [update_docs].
  - exists (w_heap w). split_and!; [|done|done|].
    + rewrite Nat.add_0_r. by destruct w.
    + intros o obj Ho Hok. exists obj. split_and!; [done..|]. right. split; [set_solver|done].
  - apply Forall_cons in Hes as [[Hid (o & obj & Hd & Hne & Ho & Hok)] Hes]. cbn in Hid, Hd. subst d.
    destruct (set_fields_run o u obj uobj w Ho Hu Hne Hok Huok) as (obj1 & Hset & Hok1 & Hf1). mstep Hset.
    set (w1 := set_heap _ w). mstep (put_doc_same p id (DObject o) t w1 Ht Hid).
    assert (∀ l, l ≠ o → h_objs (w_heap w1) !! l = h_objs (w_heap w) !! l) as Hag1 by (intros l Hl; by apply lookup_insert_ne).
    assert (h_objs (w_heap w1) !! o = Some obj1) as Ho1 by apply lookup_insert_eq.
    destruct (IH (S n) w1) as (h & Hrun & Hnx & Hag & Hupd); [done|by rewrite Hag1|done|..].
    { eapply Forall_impl; [exact Hes|]. intros e [He (o' & obj' & Hd' & Hne' & Ho' & Hok')]. split; [done|]. exists o'.
      destruct (decide (o' = o)) as [->|Hoo]; [by exists obj1|]. exists obj'. by rewrite Hag1. }
    exists h. split; [|split; [exact Hnx|split]].
    + rewrite Hrun. cbn [length]. by rewrite Nat.add_succ_r.
    + intros l Hl. rewrite Hag by set_solver. apply Hag1. set_solver.
    + intros o2 obj2 Ho2 Hok2. destruct (decide (o2 = o)) as [->|Hoo].
      * destruct (Hupd o obj1 Ho1 Hok1) as (obj' & Ho' & Hok' & Hf'). exists obj'. split_and!; [done..|]. left.
        assert (obj2 = obj) as -> by congruence. destruct Hf' as [->|[_ ->]]; [|done]. by rewrite Hf1, (assoc_L _), (idemp_L _).
      * destruct (Hupd o2 obj2) as (obj' & Ho' & Hok' & Hf'); [by rewrite Hag1|done|]. exists obj'. split_and!; [done..|].
        destruct Hf' as [Hf'|[Hn Hf']]; [by left|]. right. split; [|done]. set_solver.
Qed.

(** The fields of the result of [UPDATE] and [REPLACE]. *)
Definition write_fields (n : nat) : list (string * Datum) :=
  [("replaced", num_of_nat n); ("unchanged", DNum (float_of_Z 0)); ("skipped", DNum (float_of_Z 0)); ("errors", DNum (float_of_Z 0))].
Lemma marshal_write_result h r n : h_objs h !! r = Some (obj_of_map (list_to_map (write_fields n))) →
  MarshalJSON local_offset h value_fuel (DObject r) = write_answer n.
Proof.
  intros Hob. destruct value_fuel_S as [k Hk]. rewrite Hk.
  rewrite (marshal_result _ _ _ r _ [("errors", DNum (float_of_Z 0)); ("replaced", num_of_nat n);
    ("skipped", DNum (float_of_Z 0)); ("unchanged", DNum (float_of_Z 0))] Hob).
  - cbn [mapM snd fst]. unfold num_of_nat. rewrite !num_marshal. unfold write_answer, count_json.
    by destruct (num_json (float_of_Z (Z.of_nat n))).
  - unfold write_fields. etransitivity; [apply perm_skip, (Permutation_rev [_; _; _])|]. apply perm_swap.
  - refine (bool_decide_unpack _ _). vm_compute. exact I.
  - repeat constructor.
Qed.

(** The documents of a table that have been changed in place. *)
Lemma represents_update db tn w h u uobj um hu D :
  represents w D → world_ok (set_heap h w) → h_objs (w_heap w) !! u = Some uobj → (∀ o, top w o → o ≤ u) →
  object_at local_offset (value_fuel - 2) (w_heap w) (λ l, l ≤ u) u hu um → h_next h = h_next (w_heap w) →
  (∀ l, ¬ tops w db tn l → h_objs h !! l = h_objs (w_heap w) !! l) →
  (∀ o obj, tops w db tn o → h_objs (w_heap w) !! o = Some obj → obj_ok obj →
     ∃ obj', h_objs h !! o = Some obj' ∧ obj_ok obj' ∧ fields obj' = fields uobj ∪ fields obj) →
  represents (set_heap h w) (<[(db, tn) := (λ m, um ∪ m) <$> table_docs D db tn]> D).
Proof.
  intros Hr Hok Hu Hu' Hum Hnx Hag Hupd. pose proof Hum as (_ & _ & _ & _ & Hhu & _).
  apply (represents_step db tn w (set_heap h w) D); [done|done|cbn; lia|..].
  - intros l _ Hl. by apply Hag.
  - done.
  - intros db' tn' Hne. split; [done|]. by apply table_docs_insert_ne.
  - rewrite table_docs_insert. intros id. rewrite lookup_fmap.
    change (docs (set_heap h w)) with (docs w).
    assert (∀ o, docs w db tn !! id = Some (DObject o) → tops w db tn o) as Hin by (intros; by exists id).
    destruct (rep_docs _ _ Hr db tn id) as [d m (o & -> & Hd)|]; constructor. exists o. split; [done|].
    change (w_heap (set_heap h w)) with h. rewrite Hnx.
    apply (object_at_union _ _ (w_heap w) h _ (λ l, l ≤ u) o u _ hu); [done|done|done|lia|..].
    + intros l _ Hl Ht. by apply Hl, Hu'.
    + intros l _ Hl. apply Hag. intros Ht. apply Hl. by exists db, tn.
    + intros obj uobj' Ho Huo. assert (uobj' = uobj) as -> by congruence. apply Hupd; [by apply Hin|done|].
      destruct Hd as (obj' & Ho' & ? & _). congruence.
Qed.

(** The loop over the documents of a table. *)
Lemma update_table_run db tn w p t u hu um entries D :
  represents w D → w_tables w !! p = Some t → t_Data t = docs w db tn → entries ≡ₚ map_to_list (t_Data t) →
  (∀ o, top w o → o < u) → object_at local_offset (value_fuel - 2) (w_heap w) (λ l, l ≤ u) u hu um →
  ∃ h, update_docs p (DObject u) entries 0 w = (Ok (size (docs w db tn)), set_heap h w) ∧
    represents (set_heap h w) (<[(db, tn) := (λ m, um ∪ m) <$> table_docs D db tn]> D).
Proof.
  intros Hr Ht Hdata Hperm Htop Hum. pose proof Hum as (uobj & Hu & Huok & _).
  assert (∀ id d, (id, d) ∈ entries ↔ docs w db tn !! id = Some d) as Hin.
  { intros id d. by rewrite Hperm, elem_of_map_to_list, Hdata. }
  assert (∀ l, DObject l ∈ entries.*2 ↔ tops w db tn l) as Hin2.
  { intros l. rewrite list_elem_of_fmap. unfold tops. setoid_rewrite <- Hin. split.
    - intros ([id d] & Hd & He). cbn in Hd. subst d. by exists id.
    - intros [id Hid]. by exists (id, DObject l). }
  destruct (update_docs_run p u uobj t entries 0 w Ht Hu Huok) as (h & Hrun & Hnx & Hag & Hupd).
  { apply Forall_forall. intros [id d] He%Hin. cbn. rewrite Hdata. split; [done|].
    destruct (represents_doc _ _ _ _ _ _ Hr He) as (o & m & -> & _ & obj & Ho & Hok & _). exists o, obj. split_and!; try done.
    intros ->. assert (top w u) as Hlt%Htop by (by exists db, tn, id). lia. }
  exists h. split.
  - rewrite Hrun. repeat f_equal. by rewrite Hperm, length_map_to_list, Hdata.
  - apply (represents_update db tn w h u uobj um hu); try done.
    + eapply keeping_run; [apply (ok_update_docs p (DObject u) entries 0)|exact Hrun|apply Hr].
    + intros o Ho%Htop. lia.
    + intros l Hl. apply Hag. by rewrite Hin2.
    + intros o obj Hto Ho Hok. destruct (Hupd o obj Ho Hok) as (obj' & Ho' & Hok' & Hf'). exists obj'. split_and!; try done.
      destruct Hf' as [|[Hn _]]; [done|]. by destruct Hn; apply Hin2.
Qed.

Lemma update_answered fuel tn u w D :
  represents w D → may_use ctx (resolveDB ctx "" w) → doc_ok (value_fuel - 2) u → answered w D (RUpdate tn u) (ExecuteJSON ctx (S (S fuel)) (to_json (RUpdate tn u)) w).
Proof.
  intros Hr Hctx Hm. pose proof (rep_ok _ _ Hr) as Hw. set (o := h_next (w_heap w)).
  destruct (doc_arg fuel 18 tn u w Hw Hctx Hm eq_refl) as (w1 & w2 & ref & p & t & Hev & He & Ht & Ho). fold o in Hev, Ho.
  set (db := resolveDB ctx "" w) in *. set (w3 := set_clock (S (w_clock w2)) w2).
  set (entries := range_order (w_clock w2) (t_Data t)).
  assert (quiet w w3) as Hq by (eapply quiet_trans; [apply Ht|]; apply quiet_clock, Ht).
  destruct (update_table_run db tn w3 p t o (h_next (w_heap w2)) u entries D) as (h & Hrun & Hr4).
  { by eapply represents_quiet. }
  { exact (table_stored _ _ _ _ _ _ _ Ht). }
  { by rewrite (ta_data _ _ _ _ _ _ _ Ht), (q_docs _ _ Hq). }
  { apply range_order_perm. }
  { intros l Hl%(quiet_top w w3); [|done]. destruct Hl as (db' & tn' & Hl). by eapply represents_below. }
  { done. }
  set (w4 := set_heap h w3) in *. set (k := size (docs w3 db tn)) in *.
  destruct (new_result_run (write_fields k) w4 (rep_ok _ _ Hr4)) as (w5 & Hres & Hq5 & Hob & _).
  assert (Evaluate ctx (S (S fuel)) (of_json (to_json (RUpdate tn u))) w = (Ok (DObject (h_next (w_heap w4))), w5)) as Hev'.
  { unfold to_json. rewrite Hev. cbn [eval_term evalUpdate]. mstep He. mstep (eval_arg_object (evaluateDatum ctx (S fuel)) o w2).
    mstep (ta_name _ _ _ _ _ _ _ Ht). mstep (proj2 Hctx w2). mstep (ta_get _ _ _ _ _ _ _ Ht).
    rewrite (bind_ok (range_table p) _ w2 entries w3) by (unfold range_table; by mstep (ta_read _ _ _ _ _ _ _ Ht)).
    mstep Hrun. exact Hres. }
  rewrite (execute_request _ _ _ _ _ Hev'). unfold answered. cbn [fst snd spec_answer spec_tables]. fold db.
  split; [|split; [by eapply represents_quiet|]].
  - rewrite (marshal_write_result _ _ k Hob). unfold k. rewrite (q_docs _ _ Hq).
    by rewrite (table_holds_size (w_heap w) (top w) _ (table_docs D db tn)) by apply Hr.
  - rewrite (q_db _ _ Hq5). apply (q_db _ _ Hq).
Qed.

(** ** Replace *)

(** The loop that puts the same document under the ids of the entries. *)
Lemma put_all_run p d (entries : list (string * Datum)) : ∀ t w, w_tables w !! p = Some t →
  for_each (λ e, put_doc p e.1 d) entries w =
    (Ok (), set_tables (<[p := set_data (foldl (λ T e, <[e.1 := d]> T) (t_Data t) entries) t]> (w_tables w)) (w_next w) w).
Proof.
  induction entries as [|e entries IH]; intros t w Ht; cbn [for_each foldl].
  - assert (set_data (t_Data t) t = t) as -> by (by destruct t). rewrite insert_id by done. by destruct w.
  - mstep (put_doc_run p e.1 d t w Ht). erewrite IH by apply lookup_insert_eq. cbn [w_tables set_tables w_next t_Data set_data].
    by rewrite insert_insert_eq.
Qed.
Lemma put_all_data {A B} (d : A) (entries : list (string * B)) : ∀ (T : gmap string A) k,
  foldl (λ T e, <[e.1 := d]> T) T entries !! k = if bool_decide (k ∈ entries.*1) then Some d else T !! k.
Proof.
  induction entries as [|[i x] entries IH]; intros T k; [done|]. cbn [foldl fst]. rewrite IH, fmap_cons, lookup_insert. cbn [fst].
  repeat case_bool_decide; repeat case_decide; set_solver.
Qed.

Lemma replace_answered fuel tn m w D :
  represents w D → may_use ctx (resolveDB ctx "" w) → doc_ok (value_fuel - 2) m → answered w D (RReplace tn m) (ExecuteJSON ctx (S (S fuel)) (to_json (RReplace tn m)) w).
Proof.
  intros Hr Hctx Hm. pose proof (rep_ok _ _ Hr) as Hw. set (o := h_next (w_heap w)).
  destruct (doc_arg fuel 20 tn m w Hw Hctx Hm eq_refl) as (w1 & w2 & ref & p & t & Hev & He & Ht & Ho). fold o in Hev, Ho.
  set (db := resolveDB ctx "" w) in *. set (w3 := set_clock (S (w_clock w2)) w2).
  set (entries := range_order (w_clock w2) (t_Data t)).
  assert (quiet w w3) as Hq by (eapply quiet_trans; [apply Ht|]; apply quiet_clock, Ht).
  pose proof (range_order_perm (w_clock w2) (t_Data t) : entries ≡ₚ map_to_list (t_Data t)) as Hperm.
  pose proof (ta_data _ _ _ _ _ _ _ Ht) as Hdata.
  set (data := foldl (λ T e, <[e.1 := DObject o]> T) (t_Data t) entries).
  destruct (docs_write db tn w3 p t data (q_ok _ _ Hq) (ta_at _ _ _ _ _ _ _ Ht) (table_stored _ _ _ _ _ _ _ Ht)) as (Hok4 & Hd4 & Hoth4).
  set (w4 := set_tables _ _ w3) in *.
  assert (writes db tn data w w4) as Hw4 by (eapply quiet_writes; [exact Hq|]; by split).
  destruct (new_result_run (write_fields (length entries)) w4 Hok4) as (w5 & Hres & Hq5 & Hob & _).
  assert (Evaluate ctx (S (S fuel)) (of_json (to_json (RReplace tn m))) w = (Ok (DObject (h_next (w_heap w4))), w5)) as Hev'.
  { unfold to_json. rewrite Hev. cbn [eval_term evalReplace]. mstep He. mstep (eval_arg_object (evaluateDatum ctx (S fuel)) o w2).
    mstep (ta_name _ _ _ _ _ _ _ Ht). mstep (proj2 Hctx w2). mstep (ta_get _ _ _ _ _ _ _ Ht).
    rewrite (bind_ok (range_table p) _ w2 entries w3) by (unfold range_table; by mstep (ta_read _ _ _ _ _ _ _ Ht)).
    mstep (put_all_run p (DObject o) entries t w3 (table_stored _ _ _ _ _ _ _ Ht)). exact Hres. }
  rewrite (execute_request _ _ _ _ _ Hev'). unfold answered. cbn [fst snd spec_answer spec_tables]. fold db.
  split; [|split].
  - rewrite (marshal_write_result _ _ _ Hob), Hperm, length_map_to_list, Hdata.
    by rewrite (table_holds_size (w_heap w) (top w) _ (table_docs D db tn)) by apply Hr.
  - eapply represents_quiet; [exact Hq5|]. eapply represents_put; [exact Hw4|done|exact Ho|].
    intros id. unfold data. rewrite put_all_data, lookup_fmap, <- Hdata.
    assert (id ∈ entries.*1 ↔ is_Some (docs w db tn !! id)) as Hin.
    { rewrite Hperm, Hdata, <- (sort_Strings_perm (map_to_list _).*1). apply elem_of_sorted_keys. }
    rewrite Hdata. destruct (rep_docs _ _ Hr db tn id) as [d m' _|].
    + right. by rewrite bool_decide_eq_true_2 by (apply Hin; eauto).
    + left. rewrite bool_decide_eq_false_2; [done|]. rewrite Hin. by intros [].
  - rewrite (q_db _ _ Hq5). apply (q_db _ _ Hq).
Qed.

(** ** Filter *)

#[local] Instance is_DStr_dec d s : Decision (d = DStr s).
Proof. destruct d as [| | | | |s'| | | | |]; try (by right). destruct (decide (s' = s)) as [->|Hne]; [by left|]. right. by intros [= ->]. Defined.
Lemma Equal_str h n d s : Equal h (S n) d (DStr s) = Ok (bool_decide (d = DStr s)).
Proof.
  unfold Equal. cbn [Compare].
  destruct d; try (rewrite bool_decide_eq_true_2 by done; osteps; by rewrite (bool_decide_eq_false_2 (_ = DStr s))).
  rewrite bool_decide_eq_false_2 by (intros Hne; by apply Hne). osteps. f_equal. apply bool_decide_ext.
  rewrite string_cmp_eq. by split; [intros ->|intros [= ->]].
Qed.

(** The object has the same strings as the document. *)
Definition same_strings (obj : ObjectData) (m : document) : Prop :=
  ∀ k s, obj_Get obj k = Some (DStr s) ↔ m !! k = Some (JStr s).
Lemma object_strings h P o hi m : object_at local_offset (value_fuel - 2) h P o hi m →
  ∃ obj, h_objs h !! o = Some obj ∧ obj_ok obj ∧ same_strings obj m ∧ ∀ k, is_Some (fields obj !! k) ↔ is_Some (m !! k).
Proof.
  intros (obj & Ho & Hok & _ & _ & Hdom & Hm). exists obj. split_and!; [done..| |done]. intros k s. unfold obj_Get.
  specialize (Hdom k). specialize (Hm k).
  destruct (fields obj !! k) as [d|], (m !! k) as [j|]; [|by destruct (proj1 Hdom); eauto|by destruct (proj2 Hdom); eauto|by split].
  rewrite !(inj_iff Some). eapply part_str; [|exact (Hm d j eq_refl eq_refl)]. lia.
Qed.

Lemma match_keys_run h obj m pobj (f : gmap string string) ks : same_strings obj m →
  (∀ k, k ∈ ks → ∃ s, f !! k = Some s ∧ field_or_zero pobj k = DStr s) →
  match_keys h obj pobj ks = Ok (forallb (λ k, bool_decide (m !! k = Some (JStr (default "" (f !! k))))) ks).
Proof.
  intros Hs. induction ks as [|k ks IH]; intros Hks; [done|]. cbn [match_keys forallb].
  destruct (Hks k) as (s & Hf & Hp); [by left|]. rewrite Hp, Hf. cbn [default]. specialize (Hs k s).
  destruct (obj_Get obj k) as [d|] eqn:Hd.
  - destruct value_fuel_S as [n Hn]. rewrite Hn, Equal_str. osteps.
    rewrite (bool_decide_ext (m !! k = Some (JStr s)) (d = DStr s)) by (by rewrite <- Hs, (inj_iff Some)).
    case_bool_decide; [|done]. cbn [andb]. apply IH. intros k' Hk'. apply Hks. by right.
  - rewrite bool_decide_eq_false_2; [done|]. by rewrite <- Hs.
Qed.

Lemma match_strings h P d m q hi (f : gmap string string) : doc_is h P d m → object_at local_offset (value_fuel - 2) h (λ l, l ≤ q) q hi (JStr <$> f) →
  matchPredicate h d (DObject q) = Ok (bool_decide (has_strings f m)).
Proof.
  intros (o & -> & Hd) Hq. destruct (object_strings _ _ _ _ _ Hd) as (obj & Ho & Hok & Hs & _).
  destruct (object_strings _ _ _ _ _ Hq) as (pobj & Hp & Hpok & Hps & Hdom). unfold matchPredicate. rewrite Ho, Hp.
  assert (∀ k, k ∈ obj_Keys pobj ↔ is_Some (f !! k)) as Hkeys.
  { intros k. unfold obj_Keys. by rewrite (obj_ok_keys pobj Hpok), elem_of_sorted_keys, Hdom, lookup_fmap, fmap_is_Some. }
  rewrite (match_keys_run h obj m pobj f _ Hs).
  - f_equal. apply eq_bool_prop_intro. rewrite bool_decide_spec, forallb_True, Forall_forall. split.
    + intros Hall k s Hf. assert (k ∈ obj_Keys pobj) as Hk%Hall by (apply Hkeys; eauto). rewrite Hf in Hk. by apply bool_decide_unpack in Hk.
    + intros Hall k [s Hf]%Hkeys. rewrite Hf. apply bool_decide_pack. by apply Hall.
  - intros k [s Hf]%Hkeys. exists s. split; [done|]. unfold field_or_zero.
    assert (obj_Get pobj k = Some (DStr s)) as Hk by (apply Hps; by rewrite lookup_fmap, Hf).
    unfold obj_Get in Hk. by rewrite Hk.
Qed.
Lemma filter_docs_run h P ds ms q hi (f : gmap string string) : Forall2 (doc_is h P) ds ms →
  object_at local_offset (value_fuel - 2) h (λ l, l ≤ q) q hi (JStr <$> f) →
  ∃ ds', filter_docs (λ doc, matchPredicate h doc (DObject q)) ds = Ok ds' ∧ Forall2 (doc_is h P) ds' (filter (has_strings f) ms).
Proof.
  intros Hds Hq. induction Hds as [|d m ds ms Hd Hds (ds' & Hf & IH)]; cbn [filter_docs].
  - by exists [].
  - rewrite (match_strings h P d m q hi f Hd Hq). osteps. rewrite Hf. osteps. eexists. split; [reflexivity|].
    rewrite filter_cons. case_decide; [rewrite bool_decide_eq_true_2 by done|by rewrite bool_decide_eq_false_2 by done].
    by constructor.
Qed.

Lemma filter_answered fuel tn f w D :
  represents w D → may_use ctx (resolveDB ctx "" w) → doc_ok (value_fuel - 2) (JStr <$> f) → answered w D (RFilter tn f) (ExecuteJSON ctx (S (S fuel)) (to_json (RFilter tn f)) w).
Proof.
  intros Hr Hctx Hm. pose proof (rep_ok _ _ Hr) as Hw. set (o := h_next (w_heap w)).
  destruct (doc_arg fuel 39 tn (JStr <$> f) w Hw Hctx Hm eq_refl) as (w1 & w2 & ref & p & t & Hev & He & Ht & Ho). fold o in Hev, Ho.
  set (db := resolveDB ctx "" w) in *. set (w3 := set_clock (S (w_clock w2)) w2).
  set (entries := range_order (w_clock w2) (t_Data t)).
  assert (quiet w w3) as Hq by (eapply quiet_trans; [apply Ht|]; apply quiet_clock, Ht).
  pose proof (represents_quiet _ _ _ Hq Hr) as Hr3.
  pose proof (rep_docs _ _ Hr3 db tn) as Hd. rewrite (q_docs _ _ Hq), <- (ta_data _ _ _ _ _ _ _ Ht) in Hd.
  destruct (table_holds_list _ _ _ _ entries Hd) as (ms & Hms & Hp); [by apply range_order_perm|].
  destruct (filter_docs_run _ _ _ _ o _ f Hms Ho) as (ds & Hf & Hds).
  assert (Evaluate ctx (S (S fuel)) (of_json (to_json (RFilter tn f))) w = (Ok (DArray ds), w3)) as Hev'.
  { unfold to_json. rewrite Hev. cbn [eval_term evalFilter]. mstep He. mstep (eval_arg_object (evaluateDatum ctx (S fuel)) o w2).
    unfold sequenceToArray. rewrite (bind_ok (_ ≫= _) _ w2 entries.*2 w3).
    - unfold get_heap. rewrite (bind_ok (_ ≫= _) _ w3 (w_heap w3) w3) by done. unfold lift. by rewrite Hf.
    - mstep (ta_name _ _ _ _ _ _ _ Ht). mstep (ta_get _ _ _ _ _ _ _ Ht).
      by rewrite (bind_ok (range_table p) _ w2 entries w3) by (unfold range_table; by mstep (ta_read _ _ _ _ _ _ _ Ht)). }
  rewrite (execute_request _ _ _ _ _ Hev'). unfold answered. cbn [fst snd spec_answer spec_tables]. fold db.
  split; [|split; [done|apply Hq]]. exists (filter (has_strings f) ms). split; [|by rewrite Hp].
  eapply marshal_doc_array; [lia|done].
Qed.
End requests.

Definition request_ok `{Runtime} (q : request) : Prop :=
  match q with
  | RInsert _ m | RUpdate _ m | RReplace _ m => doc_ok (value_fuel - 2) m
  | RFilter _ f => doc_ok (value_fuel - 2) (JStr <$> f)
  | _ => True
  end.

Lemma request_answered `{RuntimeLaws} ctx (Hdepth : 3 ≤ value_fuel) fuel q w D :
  represents w D → may_use ctx (resolveDB ctx "" w) → request_ok q →
  answered ctx w D q (ExecuteJSON ctx (S (S fuel)) (to_json q) w).
Proof.
  intros Hr Hctx Hq. destruct q; [by apply insert_answered|by apply get_answered|by apply get_all_answered|
    by apply count_answered|by apply delete_answered|by apply update_answered|by apply replace_answered|by apply filter_answered].
Qed.

(** C3: in a session that may read and write its default database, the tables of
    this database are maps from ids to JSON documents.
    Every sequence of [INSERT], [GET], [GET_ALL], [COUNT], [DELETE], [UPDATE],
    [REPLACE] and [FILTER] requests on tables, sent as JSON, answers as the maps do
    and leaves the maps that the specification describes.  An inserted document is
    stored under its [id] or under an automatic one and is read back as it was sent
    with that id; [UPDATE] adds its fields to every document of the table, although
    the code changes the stored objects in place and after [REPLACE] all documents
    of a table are one object; [FILTER] answers the documents with the given strings.
    No request changes the documents of another table. *)
Theorem documents_refine_maps `{RuntimeLaws} ctx fuel qs w D : let db := resolveDB ctx "" w in
  may_use ctx db → 3 ≤ value_fuel → represents w D → Forall request_ok qs →
  let res := execute_all ctx (S (S fuel)) qs w in
  spec_answers db qs D res.1 ∧ represents res.2 (spec_tables_all db qs D).
Proof.
  intros db Hctx Hdepth Hr Hqs. revert w D Hr db Hctx. induction Hqs as [|q qs Hq Hqs IH]; intros w D Hr db Hctx; [done|].
  destruct (request_answered ctx Hdepth fuel q w D Hr Hctx Hq) as (Ha & Hr1 & Hdb).
  cbn [execute_all]. destruct (ExecuteJSON ctx (S (S fuel)) (to_json q) w) as [r w1]. cbn [fst snd] in *.
  assert (resolveDB ctx "" w1 = db) as Hdb1 by (unfold db, resolveDB; by rewrite Hdb).
  destruct (IH w1 _ Hr1) as [Has Hr2]; [by rewrite Hdb1|]. rewrite Hdb1 in Has, Hr2. destruct (execute_all ctx (S (S fuel)) qs w1) as [rs w2]. done.
Qed.

(** A new server has no documents. *)
Lemma NewEvaluator_represents `{RuntimeLaws} : represents NewEvaluator ∅.
Proof.
  assert (∀ db tn, docs NewEvaluator db tn = ∅) as Hno.
  { intros db tn. unfold docs, table_of, table_at. destruct (w_dbs NewEvaluator !! db) as [d|] eqn:E; [|done].
    assert (db_Tables d = ∅) as Hd; [|cbn; by rewrite Hd].
    unfold NewEvaluator in E. cbn [w_dbs] in E.
    by apply lookup_singleton_Some in E as [_ <-]. }
  split; [apply NewEvaluator_ok|..].
  - intros db tn id. rewrite Hno. unfold table_docs. rewrite !lookup_empty. constructor.
  - intros db tn db' tn' o [id Hid]. by rewrite Hno in Hid.
Qed.

Definition example_requests : list request :=
  [RInsert "users" {["id" := JStr "u1"; "age" := jnum 30]}; RInsert "users" {["age" := jnum 7]};
   RUpdate "users" {["role" := JStr "guest"]}; RCount "users"; RGet "users" "auto_2";
   RFilter "users" {["role" := "guest"; "id" := "u1"]}; RReplace "users" {["age" := jnum 1]};
   RUpdate "users" {["role" := JStr "admin"]}; RGet "users" "u1"; RGetAll "users"; RDelete "users"; RGet "users" "u1"].

Lemma documents_refine_maps_witness :
  let res := execute_all Background 3 example_requests NewEvaluator in
  (res.1 !! 4 = Some (Ok (JObj [("age", jnum 7); ("id", JStr "auto_2"); ("role", JStr "guest")])) ∧
   res.1 !! 8 = Some (Ok (JObj [("age", jnum 1); ("role", JStr "admin")]))) ∧
  let db := resolveDB Background "" NewEvaluator in
  spec_answers db example_requests ∅ res.1 ∧ represents res.2 (spec_tables_all db example_requests ∅).
Proof.
  cbv zeta. split; [split; vm_compute; reflexivity|].
  apply (documents_refine_maps Background 1 example_requests NewEvaluator ∅).
  - by apply may_use_all.
  - refine (bool_decide_unpack _ _). vm_compute. exact I.
  - apply NewEvaluator_represents.
  - repeat apply Forall_cons_2; [..|constructor]; cbn [request_ok]; try exact I; check_doc.
Defined.

(** The automatic id is computed from the number of documents, not from the ids that
    are in use: it can replace a document. *)
Lemma automatic_id_replaces_a_document :
  (execute_all Background 3 [RInsert "t" {["id" := JStr "auto_2"]}; RInsert "t" ∅; RCount "t"] NewEvaluator).1 !! 2 =
    Some (Ok (jnum 1)).
Proof. vm_compute. reflexivity. Qed.
