(* ===== verification/Sequences.v ===== *)
(** * The terms on sequences ([internal/reql/evaluator.go])

    [ORDER_BY], [FILTER], [LIMIT], [SKIP], [MIN], [MAX] and [GROUP]: the loops of the
    evaluator against what the terms mean.  The documents are values of bounded
    depth ([deep]), on which [Compare] is a total order. *)

From S2P Require Import Prelude Bytes Order Datum Index Admin Evaluator Sessions.

Section sequences.
Context `{RuntimeLaws}.
Implicit Types (h : Heap) (doc : Datum).

(** A document whose fields can be compared. *)
Definition doc_deep h doc : Prop := deep h (S value_fuel) doc.

(** The value of a field in the comparison of [ORDER_BY]: MINVAL when there is none. *)
Definition key_val h doc (f : string) : Datum :=
  match doc with
  | DObject o => match h_objs h !! o with Some obj => field_or_zero obj f | None => DMinVal end
  | _ => DMinVal
  end.
(** The order of documents by a list of fields. *)
Definition keys_cmp h (fs : list string) (a b : Datum) : comparison :=
  list_lex (cmp_at h value_fuel) (key_val h a <$> fs) (key_val h b <$> fs).

Lemma field_deep h n obj k d :
  obj_ok obj → Forall (deep h n) (obj_Values obj) → fields obj !! k = Some d → deep h n d.
Proof.
  intros (_ & _ & Hk) Hd Hf. rewrite Forall_forall in Hd. apply Hd. unfold obj_Values.
  apply list_elem_of_fmap. exists k. unfold field_or_zero. rewrite Hf. split; [done|]. apply Hk. eauto.
Qed.
Lemma value_fuel_pos h doc : doc_deep h doc → 0 < value_fuel → deep h value_fuel DMinVal.
Proof. intros _ Hp. by destruct value_fuel; [lia|]. Qed.
Lemma key_val_deep h doc f : 0 < value_fuel → doc_deep h doc → deep h value_fuel (key_val h doc f).
Proof.
  intros Hp Hd. pose proof (value_fuel_pos _ _ Hd Hp) as Hz. destruct doc; try done. destruct Hd as (obj & Ho & Hok & Hv).
  cbn [key_val]. rewrite Ho. unfold field_or_zero. destruct (fields obj !! f) as [d|] eqn:Hf; [|done].
  by eapply field_deep.
Qed.
Lemma field_of_key h doc f : doc_deep h doc → field_of h doc f = Ok (key_val h doc f).
Proof. intros Hd. destruct doc; try done. destruct Hd as (obj & Ho & _). cbn [field_of key_val]. by rewrite Ho. Qed.

Lemma keys_cmp_order h fs : 0 < value_fuel → order_on (doc_deep h) (keys_cmp h fs).
Proof.
  intros Hp. apply (order_pullback (λ doc, key_val h doc <$> fs) (Forall (deep h value_fuel))).
  - intros doc Hd. apply Forall_fmap, Forall_true. intros f. by apply key_val_deep.
  - apply order_list_lex, Compare_order.
Qed.
Lemma less_by_keys h fs a b : 0 < value_fuel → doc_deep h a → doc_deep h b →
  less_by h fs a b = Ok (bool_decide (keys_cmp h fs a b = Lt)).
Proof.
  intros Hp Ha Hb. induction fs as [|f fs IH]; [done|]. cbn [less_by]. rewrite !field_of_key by done. osteps.
  destruct (Compare_order h value_fuel) as [Hok _]. rewrite Hok by (by apply key_val_deep). osteps.
  unfold keys_cmp. rewrite !fmap_cons. cbn [list_lex]. destruct (cmp_at _ _ _ _); [exact IH|done..].
Qed.

(** ** Filters *)

(** The field of the document is there and equal to the one of the predicate. *)
Definition field_matches h (obj : ObjectData) (k : string) (v : Datum) : Prop :=
  match fields obj !! k with Some v' => cmp_at h value_fuel v' v = Eq | None => False end.
#[export] Instance field_matches_dec h obj k v : Decision (field_matches h obj k v).
Proof. unfold field_matches. destruct (fields obj !! k); apply _. Defined.
Definition doc_matches h (pred : ObjectData) doc : Prop :=
  match doc with
  | DObject o => match h_objs h !! o with Some obj => map_Forall (field_matches h obj) (fields pred) | None => False end
  | _ => False
  end.
#[export] Instance doc_matches_dec h pred doc : Decision (doc_matches h pred doc).
Proof. unfold doc_matches. destruct doc; try apply _. destruct (h_objs h !! o); apply _. Defined.

Lemma match_keys_ok h obj pred ks :
  obj_ok obj → Forall (deep h value_fuel) (obj_Values obj) → obj_ok pred → Forall (deep h value_fuel) (obj_Values pred) →
  (∀ k, k ∈ ks → is_Some (fields pred !! k)) →
  ∃ b, match_keys h obj pred ks = Ok b ∧
    (b = true ↔ ∀ k v, k ∈ ks → fields pred !! k = Some v → field_matches h obj k v).
Proof.
  intros Ho Hdo Hp Hdp. induction ks as [|k ks IH]; intros Hks.
  - exists true. split; [done|]. split; [|done]. intros _ k v Hin. by apply not_elem_of_nil in Hin.
  - destruct (Hks k) as [v Hv]; [by left|]. destruct IH as (b & Hb & Hiff); [intros; apply Hks; by right|].
    assert (∀ c, (c = true ↔ field_matches h obj k v ∧ b = true) →
      (c = true ↔ ∀ k' v', k' ∈ k :: ks → fields pred !! k' = Some v' → field_matches h obj k' v')) as Hcons.
    { intros c ->. rewrite Hiff. split.
      - intros [Hk Hall] k' v' [->|Hin]%elem_of_cons Hv'; [congruence|by apply Hall].
      - intros Hall. split; [apply Hall; [by left|done]|]. intros k' v' Hin. apply Hall. by right. }
    cbn [match_keys]. unfold obj_Get. unfold field_matches in Hcons at 1.
    destruct (fields obj !! k) as [v'|] eqn:Hk; [|exists false; split; [done|]; apply Hcons; split; [done|by intros []]].
    assert (field_or_zero pred k = v) as -> by (unfold field_or_zero; by rewrite Hv).
    unfold Equal. destruct (Compare_order h value_fuel) as [Hok _].
    rewrite Hok by first [by apply (field_deep h _ obj k)|by apply (field_deep h _ pred k)]. osteps. rewrite Hb.
    destruct (cmp_at h value_fuel v' v); [exists b|exists false..]; (split; [done|]); apply Hcons.
    + by split; [|intros []].
    + by split; [|intros []].
    + by split; [|intros []].
Qed.

Lemma matchPredicate_ok h q pred doc :
  h_objs h !! q = Some pred → obj_ok pred → Forall (deep h value_fuel) (obj_Values pred) → doc_deep h doc →
  matchPredicate h doc (DObject q) = Ok (bool_decide (doc_matches h pred doc)).
Proof.
  intros Hq Hok Hd Hdoc. destruct doc; try done. destruct Hdoc as (obj & Ho & Hoo & Hdo).
  cbn [matchPredicate]. rewrite Ho, Hq. assert (∀ k, k ∈ obj_Keys pred ↔ is_Some (fields pred !! k)) as Hks by apply Hok.
  destruct (match_keys_ok h obj pred (obj_Keys pred)) as (b & -> & Hiff); [done..|intros k; apply Hks|]. f_equal.
  apply eq_bool_prop_intro. rewrite bool_decide_spec, Is_true_true, Hiff. unfold doc_matches. rewrite Ho.
  split; [intros Hall k v Hv; apply Hall; [apply Hks; eauto|done]|intros Hall k v _; apply Hall].
Qed.

Lemma filter_docs_ok (P : Datum → Prop) `{!∀ d, Decision (P d)} f l :
  (∀ d, d ∈ l → f d = Ok (bool_decide (P d))) → filter_docs f l = Ok (filter P l).
Proof.
  induction l as [|d l IH]; intros Hf; [done|]. cbn [filter_docs]. rewrite Hf by (by left). osteps.
  rewrite IH by (intros; apply Hf; by right). osteps. rewrite filter_cons. by repeat case_decide; try case_bool_decide.
Qed.

(** ** Extremes *)

(** The values of which [MIN] and [MAX] are taken. *)
Definition values_of h (field : string) (l : list Datum) : list Datum :=
  omap (λ doc, match value_of h field doc with Ok v => v | _ => None end) l.

Lemma deep_S h n d : deep h n d → deep h (S n) d.
Proof.
  revert d. induction n as [|n IH]; [done|]. intros d Hd.
  destruct d; try done; [by eapply Forall_impl|].
  destruct Hd as (obj & Ho & Hok & Hv). exists obj. split_and!; try done. by eapply Forall_impl.
Qed.
Lemma value_of_ok h field doc : deep h value_fuel doc →
  ∃ v, value_of h field doc = Ok v ∧ ∀ d, v = Some d → deep h value_fuel d.
Proof.
  intros Hd. unfold value_of. case_bool_decide; [|eexists; split; [done|]; by intros ? [= <-]].
  destruct doc; try (eexists; by split). destruct value_fuel as [|n]; [done|]. destruct Hd as (obj & Ho & Hok & Hv).
  unfold object_at. rewrite Ho. osteps. eexists. split; [done|]. intros d Hf. apply deep_S. by eapply field_deep.
Qed.
Lemma values_of_deep h field l : Forall (deep h value_fuel) l → Forall (deep h value_fuel) (values_of h field l).
Proof.
  intros Hl. apply Forall_forall. intros d (doc & Hin & Hv)%list_elem_of_omap. rewrite Forall_forall in Hl.
  destruct (value_of_ok h field doc (Hl _ Hin)) as (v & Hr & Hd). rewrite Hr in Hv. by apply Hd.
Qed.

(** No value of the list is better than [m]. *)
Definition extreme h (better : comparison) (m : Datum) (vs : list Datum) : Prop :=
  m ∈ vs ∧ ∀ v, v ∈ vs → cmp_at h value_fuel v m ≠ better.

Lemma best_doc_ok h field better l : better ≠ Eq → Forall (deep h value_fuel) l → ∀ best,
  Forall (deep h value_fuel) (option_list best) → ∃ r, best_doc h field better l best = Ok r ∧
    match r with
    | None => option_list best ++ values_of h field l = []
    | Some m => extreme h better m (option_list best ++ values_of h field l)
    end.
Proof.
  intros Hbe Hl. destruct (Compare_order h value_fuel) as [Hok Hord].
  induction Hl as [|doc l Hdoc Hl IH]; intros best Hbest.
  - exists best. split; [done|]. destruct best as [b|]; [|done]. split; [by left|].
    intros v ->%list_elem_of_singleton. rewrite (ord_refl _ _ _ Hord); [done|]. exact (Forall_inv Hbest).
  - destruct (value_of_ok h field doc Hdoc) as (v & Hv & Hd). cbn [best_doc]. rewrite Hv. osteps.
    assert (values_of h field (doc :: l) = option_list v ++ values_of h field l) as ->.
    { unfold values_of. cbn [omap list_omap]. rewrite Hv. by destruct v. }
    destruct v as [v|]; [|by apply IH]. assert (deep h value_fuel v) as Hdv by (by apply Hd).
    destruct best as [b|]; [|apply IH; by apply Forall_singleton].
    pose proof (Forall_inv Hbest) as Hb. rewrite Hok by done. osteps.
    set (nb := if bool_decide (cmp_at h value_fuel v b = better) then v else b).
    destruct (IH (Some nb)) as (r & Hr & Hm); [by apply Forall_singleton; unfold nb; case_bool_decide|].
    exists r. split; [done|]. destruct r as [m|]; [|done]. destruct Hm as [Hin Hmin].
    assert (deep h value_fuel m) as Hdm.
    { pose proof (values_of_deep h field l Hl) as Hvs. rewrite Forall_forall in Hvs.
      apply elem_of_cons in Hin as [->|Hin]; [unfold nb; by case_bool_decide|by apply Hvs]. }
    pose proof (Hmin nb (list_elem_of_here _ _)) as Hnb.
    assert (∀ x, deep h value_fuel x → cmp_at h value_fuel x nb ≠ better → cmp_at h value_fuel x m ≠ better) as Htr.
    { intros x Hx. assert (deep h value_fuel nb) as Hdn by (unfold nb; by case_bool_decide).
      pose proof (ord_trans _ _ Hord x nb m Hx Hdn Hdm) as Ht. unfold chain3 in Ht.
      destruct (cmp_at _ _ x nb), (cmp_at _ _ nb m), better; congruence. }
    assert (∀ x, x = v ∨ x = b → cmp_at h value_fuel x nb ≠ better) as Hvb.
    { intros x Hx. unfold nb. case_bool_decide as Hc; destruct Hx as [->| ->]; try done.
      - by rewrite (ord_refl _ _ _ Hord).
      - rewrite (ord_antisym _ _ Hord v b) by done. rewrite Hc. by destruct better.
      - by rewrite (ord_refl _ _ _ Hord). }
    split.
    + apply elem_of_cons in Hin as [->|Hin]; [|by do 2 right].
      unfold nb. case_bool_decide; [right; left|left].
    + intros x [->|[->|Hx]%elem_of_cons]%elem_of_cons; [apply Htr; auto..|apply Hmin; by right].
Qed.

(** ** Groups *)

Lemma mapM_total {A B} (f : A → outcome B) l :
  (∀ x, x ∈ l → (∃ y, f x = Ok y) ∨ (∃ e, f x = Err e)) → (∃ r, mapM f l = Ok r) ∨ (∃ e, mapM f l = Err e).
Proof.
  induction l as [|x l IH]; intros Hf; [by left; eexists|]. cbn [mapM].
  destruct (Hf x) as [[y ->]|[e ->]]; [by left| |right; by eexists]. osteps.
  destruct IH as [[r ->]|[e ->]]; [intros; apply Hf; by right|left; by eexists|right; by eexists].
Qed.
(** Marshalling a value terminates without a panic. *)
Lemma marshal_total off h n d : deep h n d →
  (∃ j, MarshalJSON off h n d = Ok j) ∨ (∃ e, MarshalJSON off h n d = Err e).
Proof.
  revert d. induction n as [|n IH]; [done|]. intros d Hd.
  assert (∀ p (o : outcome JSON), (∃ j, o = Ok j) ∨ (∃ e, o = Err e) → (∃ j, owrap p o = Ok j) ∨ (∃ e, owrap p o = Err e)) as Hw.
  { intros p o [[j ->]|[e ->]]; [left|right]; by eexists. }
  assert (∀ f, (∃ j, num_json f = Ok j) ∨ (∃ e, num_json f = Err e)) as Hnum.
  { intros [| [] | |]; [left; by eexists|right; by eexists..|left; by eexists]. }
  destruct d; cbn [MarshalJSON]; try (left; by eexists); try (right; by eexists); [apply Hnum| | |].
  - destruct (mapM_total (λ x, owrap marshal_datum_error (MarshalJSON off h n x)) l) as [[r ->]|[e ->]];
      [|left; by eexists|right; by eexists].
    intros x Hx. apply Hw, IH. cbn in Hd. rewrite Forall_forall in Hd. by apply Hd.
  - destruct Hd as (obj & -> & Hok & Hv).
    match goal with |- context [mapM ?f ?ks] => destruct (mapM_total f ks) as [[r ->]|[e ->]];
      [|left; by eexists|right; by eexists] end.
    intros k Hk. rewrite <- (obj_ok_keys obj Hok) in Hk. destruct (IH (field_or_zero obj k)) as [[j ->]|[e ->]];
      [|left; by eexists|right; by eexists].
    rewrite Forall_forall in Hv. apply Hv. apply list_elem_of_fmap. by exists k.
  - apply Hw. destruct (Hnum (coordinates g).1) as [[x ->]|[e ->]]; [|right; by eexists]. osteps.
    destruct (Hnum (coordinates g).2) as [[y ->]|[e ->]]; [left|right]; by eexists.
Qed.

(** The text under which a document is grouped. *)
Definition key_text h (field : string) doc : string :=
  match group_key h field doc with Ok s => s | _ => "" end.
Lemma group_key_ok h field doc : deep h value_fuel doc → group_key h field doc = Ok (key_text h field doc).
Proof.
  intros Hd. unfold key_text. destruct (group_key h field doc) eqn:E; try done; exfalso; revert E;
    unfold group_key; destruct doc; try done; destruct value_fuel as [|n]; try done;
    destruct Hd as (obj & Ho & Hok & Hv); (case_bool_decide; [|done]); unfold object_at; rewrite Ho; osteps;
    unfold obj_Get; (destruct (fields obj !! field) as [v|] eqn:Hf; [|done]);
    (destruct (marshal_total local_offset h (S n) v) as [[j ->]|[e ->]]; [|done..]);
    apply deep_S; by eapply field_deep.
Qed.

(** The groups of the documents [l]: one for each text, with its documents in order. *)
Definition groups_of (key : Datum → string) (l : list Datum) (groups : list (string * list Datum)) : Prop :=
  NoDup groups.*1 ∧ (∀ d, d ∈ l → key d ∈ groups.*1) ∧
  ∀ k ds, (k, ds) ∈ groups → ds = filter (λ d, key d = k) l ∧ ds ≠ [].

Lemma add_group_keys key doc groups :
  (add_group key doc groups).*1 = if bool_decide (key ∈ groups.*1) then groups.*1 else groups.*1 ++ [key].
Proof.
  unfold add_group. case_bool_decide; [|by rewrite fmap_app]. rewrite <- list_fmap_compose.
  apply list_fmap_ext. intros _ g _. cbn. by case_bool_decide.
Qed.
Lemma add_group_ok (key : Datum → string) doc l groups :
  groups_of key l groups → groups_of key (l ++ [doc]) (add_group (key doc) doc groups).
Proof.
  intros (Hnd & Hall & Hds). split; [|split].
  - rewrite add_group_keys. case_bool_decide as Hin; [done|]. apply NoDup_app. split_and!; [done| |apply NoDup_singleton].
    intros k Hk ->%list_elem_of_singleton. done.
  - intros d. rewrite add_group_keys. intros [Hd| ->%list_elem_of_singleton]%elem_of_app; case_bool_decide; auto with go.
  - intros k ds. rewrite filter_app. unfold add_group. case_bool_decide as Hin.
    + intros ([k1 ds1] & Heq & Hg)%list_elem_of_fmap. destruct (Hds _ _ Hg) as [-> Hne]. cbn in Heq.
      case_bool_decide as Hk; injection Heq as -> ->.
      * rewrite filter_cons_True by done. split; [done|]. by destruct (filter _ l).
      * rewrite filter_cons_False by congruence. by rewrite filter_nil, app_nil_r.
    + intros [Hg|[= -> ->]%list_elem_of_singleton]%elem_of_app.
      * destruct (Hds _ _ Hg) as [-> Hne]. rewrite filter_cons_False; [by rewrite filter_nil, app_nil_r|].
        intros Hk. apply Hin. rewrite Hk. apply list_elem_of_fmap. by exists (k, filter (λ d, key d = k) l).
      * rewrite filter_cons_True by done. rewrite filter_none; [done|]. apply Forall_forall.
        intros d Hd Hk. apply Hin. rewrite <- Hk. by apply Hall.
Qed.
Lemma group_docs_ok h field l : Forall (deep h value_fuel) l → ∀ l0 groups,
  groups_of (key_text h field) l0 groups →
  ∃ groups', group_docs h field l groups = Ok groups' ∧ groups_of (key_text h field) (l0 ++ l) groups'.
Proof.
  induction 1 as [|doc l Hdoc Hl IH]; intros l0 groups Hg; [exists groups; by rewrite app_nil_r|].
  cbn [group_docs]. rewrite group_key_ok by done. osteps.
  destruct (IH (l0 ++ [doc]) _ (add_group_ok _ doc _ _ Hg)) as (groups' & Hr & Hg'). exists groups'. split; [done|].
  by rewrite <- app_assoc in Hg'.
Qed.

(** The objects in which [GROUP] returns the groups. *)
Definition group_fields (g : string * list Datum) : list (string * Datum) := [("group", DStr g.1); ("values", DArray g.2)].
Lemma new_results_run (f : string * list Datum → list (string * Datum)) groups w : ∃ os w',
  mapM (λ g, new_result (f g)) groups w = (Ok (DObject <$> os), w') ∧ heap_grows (w_heap w) (w_heap w') ∧
  w' = set_heap (w_heap w') w ∧
  Forall2 (λ o g, h_objs (w_heap w') !! o = Some (obj_of_map (list_to_map (f g))) ∧ o < h_next (w_heap w')) os groups.
Proof.
  revert w. induction groups as [|g groups IH]; intros w; [exists [], w; by destruct w|].
  set (w1 := set_heap (mkHeap (<[h_next (w_heap w) := obj_of_map (list_to_map (f g))]> (h_objs (w_heap w)))
    (S (h_next (w_heap w)))) w).
  assert (new_result (f g) w = (Ok (DObject (h_next (w_heap w))), w1)) as Hn by done.
  destruct (IH w1) as (os & w' & Hr & Hg & Hw & Hos). exists (h_next (w_heap w) :: os), w'.
  split; [|split; [|split]].
  - by eapply mapM_cons_ok.
  - eapply heap_grows_trans; [|exact Hg]. split; [cbn; lia|]. intros l Hl. apply lookup_insert_ne. lia.
  - by rewrite Hw.
  - constructor; [|done]. destruct Hg as [Hle Hag]. cbn in Hle. split; [|lia].
    rewrite Hag by (cbn; lia). apply lookup_insert_eq.
Qed.
End sequences.

(** ** The terms *)

(** The first argument of a term is the sequence [l]. *)
Definition sequence_arg `{Runtime} (evalArg : Datum → M World Datum) (s : Datum) (w : World) (l : list Datum) (w' : World) : Prop :=
  (seq ← evalArg s; sequenceToArray seq) w = (Ok l, w').

Lemma sequence_arg_run `{Runtime} {B} evalArg s w l w' (f : list Datum → M World B) :
  sequence_arg evalArg s w l w' → (seq ← evalArg s; arr ← sequenceToArray seq; f arr) w = f l w'.
Proof.
  intros Hs. unfold sequence_arg in Hs. apply bind_inv_ok in Hs as (d & w1 & He & Hs). mstep He. by mstep Hs.
Qed.

(** C15: [ORDER_BY] sorts.  It returns the documents of the sequence in the order of
    the fields it is given, the first field first; a missing field counts as MINVAL,
    so documents without it come first; without a field the order is unchanged. *)
Theorem order_by_sorts `{RuntimeLaws} evalArg s k rest w l w' :
  sequence_arg evalArg s w l w' → 0 < value_fuel → Forall (doc_deep (w_heap w')) l →
  ∃ l', evalOrderBy evalArg (s :: k :: rest) w = (Ok (DArray l'), w') ∧ l' ≡ₚ l ∧
    (sort_fields k = [] → l' = l) ∧
    StronglySorted (λ a b, keys_cmp (w_heap w') (sort_fields k) a b ≠ Gt) l'.
Proof.
  intros Hs Hp Hl. cbn [evalOrderBy]. rewrite (sequence_arg_run _ _ _ _ _ _ Hs).
  destruct (sort_fields k) as [|f fs] eqn:Hk.
  - exists l. split_and!; try done. clear Hs Hl. induction l; constructor; [done|]. by apply Forall_true.
  - set (h := w_heap w').
    destruct (sort_Slice_sorts (doc_deep h) (keys_cmp h (f :: fs)) (less_by h (f :: fs)) l) as (l' & Hr & Hperm & Hsort).
    + by apply keys_cmp_order.
    + done.
    + rewrite Forall_forall in Hl. intros a b Ha Hb. apply less_by_keys; [done|by apply Hl..].
    + exists l'. split; [|done]. rewrite (bind_ok get_heap _ w' h w') by done.
      rewrite (bind_ok (lift _) _ w' l' w') by (unfold lift; by rewrite Hr). done.
Qed.

(** [FILTER] keeps exactly the documents that have every field of the predicate
    object with an equal value, in their order. *)
Theorem filter_selects `{RuntimeLaws} evalArg s p q pred rest w l w1 w' :
  evalArg p w1 = (Ok (DObject q), w') →
  (∃ seq, evalArg s w = (Ok seq, w1) ∧ sequenceToArray seq w' = (Ok l, w')) →
  h_objs (w_heap w') !! q = Some pred → obj_ok pred → Forall (deep (w_heap w') value_fuel) (obj_Values pred) →
  Forall (doc_deep (w_heap w')) l →
  evalFilter evalArg (s :: p :: rest) w = (Ok (DArray (filter (doc_matches (w_heap w') pred) l)), w').
Proof.
  intros Hp (seq & Hs & Hl) Hq Hok Hd Hdocs. cbn [evalFilter]. mstep Hs. mstep Hp. mstep Hl.
  rewrite (bind_ok get_heap _ w' (w_heap w') w') by done.
  rewrite (bind_ok (lift _) _ w' (filter (doc_matches (w_heap w') pred) l) w'); [done|].
  unfold lift. rewrite (filter_docs_ok (doc_matches (w_heap w') pred)); [done|].
  rewrite Forall_forall in Hdocs. intros d Hin. by apply matchPredicate_ok; [..|apply Hdocs].
Qed.

(** [LIMIT] and [SKIP] with the same count cut the sequence in two: the first has
    the first documents, the second has the others.  A negative count panics, and
    nothing in the server recovers from a panic. *)
Theorem limit_and_skip_split `{Runtime} evalArg s c rest w l w1 w2 f :
  (∃ seq, evalArg s w = (Ok seq, w1) ∧ evalArg c w1 = (Ok (DNum f), w2) ∧ sequenceToArray seq w2 = (Ok l, w2)) →
  let n := int_of_float f in
  let limit := evalLimit evalArg (s :: c :: rest) w in
  let skip := evalSkip evalArg (s :: c :: rest) w in
  ((0 ≤ n)%Z → limit = (Ok (DArray (take (Z.to_nat n) l)), w2) ∧ skip = (Ok (DArray (drop (Z.to_nat n) l)), w2) ∧
               take (Z.to_nat n) l ++ drop (Z.to_nat n) l = l) ∧
  ((n < 0)%Z → limit = (Panic, w2) ∧ skip = (Panic, w2)).
Proof.
  intros (seq & Hs & Hc & Hl) n limit skip.
  assert (limit = if bool_decide (Z.of_nat (length l) ≤ n)%Z then (Ok (DArray l), w2)
    else (l' ← lift (slice_upto l n); mret (DArray l')) w2) as ->.
  { unfold limit. cbn [evalLimit]. mstep Hs. mstep Hc. mstep Hl.
    rewrite (bind_ok (lift _) _ w2 n w2) by done. by case_bool_decide. }
  assert (skip = if bool_decide (Z.of_nat (length l) ≤ n)%Z then (Ok (DArray []), w2)
    else (l' ← lift (slice_after l n); mret (DArray l')) w2) as ->.
  { unfold skip. cbn [evalSkip]. mstep Hs. mstep Hc. mstep Hl.
    rewrite (bind_ok (lift _) _ w2 n w2) by done. by case_bool_decide. }
  unfold slice_upto, slice_after. split; intros Hn.
  - case_bool_decide as Hle.
    + rewrite take_ge, drop_ge by lia. by rewrite app_nil_r.
    + rewrite (bool_decide_eq_false_2 (n < 0)%Z) by lia. rewrite slice_to_ok, slice_from_ok by lia.
      by rewrite take_drop.
  - rewrite (bool_decide_eq_false_2 (Z.of_nat (length l) ≤ n)%Z) by lia. by rewrite (bool_decide_eq_true_2 (n < 0)%Z) by lia.
Qed.

(** [MIN] and [MAX] return a least and a greatest of the values they are taken of
    (the field of the documents that have it, or the elements themselves), and null
    when there is none. *)
Theorem min_max_extreme `{RuntimeLaws} evalArg s rest w l w' :
  sequence_arg evalArg s w l w' → Forall (deep (w_heap w') value_fuel) l →
  let field := match rest with DStr f :: _ => f | _ => "" end in
  let vs := values_of (w_heap w') field l in
  ∃ lo hi, evalMin evalArg (s :: rest) w = (Ok lo, w') ∧ evalMax evalArg (s :: rest) w = (Ok hi, w') ∧
    match vs with
    | [] => lo = DNull ∧ hi = DNull
    | _ => extreme (w_heap w') Lt lo vs ∧ extreme (w_heap w') Gt hi vs
    end.
Proof.
  intros Hs Hl field vs. set (h := w_heap w') in *.
  assert (aggregate_args evalArg "MIN requires a sequence" (s :: rest) w = (Ok (l, field), w') ∧
          aggregate_args evalArg "MAX requires a sequence" (s :: rest) w = (Ok (l, field), w')) as [Hmin Hmax].
  { split; cbn [aggregate_args]; by rewrite (sequence_arg_run _ _ _ _ _ _ Hs). }
  destruct (best_doc_ok h field Lt l) with (best := @None Datum) as (lo & Hlo & Hextl); [done|done|by constructor|].
  destruct (best_doc_ok h field Gt l) with (best := @None Datum) as (hi & Hhi & Hexth); [done|done|by constructor|].
  exists (default DNull lo), (default DNull hi). split; [|split].
  - unfold evalMin. mstep Hmin. rewrite (bind_ok get_heap _ w' h w') by done. cbn [fst snd].
    by rewrite (bind_ok (lift _) _ w' lo w') by (unfold lift; by rewrite Hlo).
  - unfold evalMax. mstep Hmax. rewrite (bind_ok get_heap _ w' h w') by done. cbn [fst snd].
    by rewrite (bind_ok (lift _) _ w' hi w') by (unfold lift; by rewrite Hhi).
  - cbn in Hextl, Hexth. fold vs in Hextl, Hexth. destruct lo as [lo|], hi as [hi|]; cbn.
    + destruct vs; [|done]. destruct Hextl as [Hin _]. by apply not_elem_of_nil in Hin.
    + destruct Hextl as [Hin _]. rewrite Hexth in Hin. by apply not_elem_of_nil in Hin.
    + destruct Hexth as [Hin _]. rewrite Hextl in Hin. by apply not_elem_of_nil in Hin.
    + by rewrite Hextl.
Qed.

(** [GROUP] partitions the sequence.  The groups have distinct names; the group of
    a name has exactly the documents whose field has that JSON text, in their order,
    and no group is empty; every document is in the group of its text. *)
Theorem group_partitions `{RuntimeLaws} evalArg s f rest w l w1 :
  sequence_arg evalArg s w l w1 → Forall (deep (w_heap w1) value_fuel) l →
  let key := key_text (w_heap w1) (match f with DStr field => field | _ => "" end) in
  ∃ groups os w', evalGroup evalArg (s :: f :: rest) w = (Ok (DArray (DObject <$> os)), w') ∧
    groups_of key l groups ∧
    Forall2 (λ o g, h_objs (w_heap w') !! o = Some (obj_of_map (list_to_map (group_fields g)))) os groups.
Proof.
  intros Hs Hl key. set (field := match f with DStr field => field | _ => "" end) in *.
  destruct (group_docs_ok (w_heap w1) field l Hl [] []) as (groups & Hg & Hof);
    [split; [constructor|split; [intros d Hd|intros k ds Hd]; by apply not_elem_of_nil in Hd]|].
  destruct (new_results_run group_fields groups w1) as (os & w' & Hr & _ & _ & Hos).
  exists groups, os, w'. split; [|split; [done|by eapply Forall2_impl; [exact Hos|intros ?? []]]].
  cbn [evalGroup]. rewrite (sequence_arg_run _ _ _ _ _ _ Hs). rewrite (bind_ok get_heap _ w1 (w_heap w1) w1) by done.
  fold field. rewrite (bind_ok (lift _) _ w1 groups w1) by (unfold lift; by rewrite Hg).
  unfold group_fields in Hr. by mstep Hr.
Qed.

(** ** Concrete sequences *)

Lemma map_deep h n m : map_Forall (λ _, deep h n) m → Forall (deep h n) (obj_Values (obj_of_map m)).
Proof.
  intros Hm. apply Forall_fmap, Forall_forall. intros k Hk. cbn in Hk. cbn.
  pose proof (obj_of_map_ok m) as (_ & _ & Hdom). apply Hdom in Hk as [d Hd]. cbn in Hd.
  unfold field_or_zero. cbn. rewrite Hd. by apply (Hm k).
Qed.
Lemma object_deep h n o m :
  h_objs h !! o = Some (obj_of_map m) → map_Forall (λ _, deep h n) m → deep h (S n) (DObject o).
Proof. intros Ho Hm. exists (obj_of_map m). split; [done|]. split; [apply obj_of_map_ok|by apply map_deep]. Qed.

(** Three documents in a heap: two with an age, one without. *)
Definition person (name : string) (age : Z) : gmap string Datum := {["name" := DStr name; "age" := num age]}.
Definition nobody : gmap string Datum := {["name" := DStr "nobody"]}.
Definition shelf : World :=
  set_heap (mkHeap {[0 := obj_of_map (person "ada" 36); 1 := obj_of_map (person "bob" 25); 2 := obj_of_map nobody;
                     3 := obj_of_map {["age" := num 36]}]} 4) NewEvaluator.
Definition people : list Datum := [DObject 0; DObject 1; DObject 2].
Definition plain_arg (d : Datum) : M World Datum := mret d.

Lemma shelf_deep n : Forall (deep (w_heap shelf) (S (S n))) people.
Proof.
  assert (∀ name age, map_Forall (λ _, deep (w_heap shelf) (S n)) (person name age)) as Hp.
  { intros name age k d Hk. unfold person in Hk.
    apply lookup_insert_Some in Hk as [[_ <-]|[_ [_ <-]%lookup_singleton_Some]]; done. }
  repeat constructor.
  - apply (object_deep _ _ 0 (person "ada" 36)); [vm_compute; reflexivity|apply Hp].
  - apply (object_deep _ _ 1 (person "bob" 25)); [vm_compute; reflexivity|apply Hp].
  - apply (object_deep _ _ 2 nobody); [vm_compute; reflexivity|]. intros k d Hk. unfold nobody in Hk.
    by apply lookup_singleton_Some in Hk as [_ <-].
Qed.

Lemma order_by_sorts_witness :
  ∃ l', evalOrderBy plain_arg [DArray people; DStr "age"] shelf = (Ok (DArray l'), shelf) ∧ l' ≡ₚ people ∧
    (sort_fields (DStr "age") = [] → l' = people) ∧
    StronglySorted (λ a b, keys_cmp (w_heap shelf) (sort_fields (DStr "age")) a b ≠ Gt) l'.
Proof.
  apply (order_by_sorts plain_arg (DArray people) (DStr "age") [] shelf people shelf).
  - reflexivity.
  - refine (bool_decide_unpack _ _). vm_compute. exact I.
  - apply (shelf_deep 19).
Defined.

Lemma filter_selects_witness :
  filter (doc_matches (w_heap shelf) (obj_of_map {["age" := num 36]})) people = [DObject 0] ∧
  evalFilter plain_arg [DArray people; DObject 3] shelf =
    (Ok (DArray (filter (doc_matches (w_heap shelf) (obj_of_map {["age" := num 36]})) people)), shelf).
Proof.
  split; [vm_compute; reflexivity|].
  apply (filter_selects plain_arg (DArray people) (DObject 3) 3 (obj_of_map {["age" := num 36]}) [] shelf people shelf shelf).
  - reflexivity.
  - exists (DArray people). split; reflexivity.
  - vm_compute. reflexivity.
  - apply obj_of_map_ok.
  - apply map_deep. by intros k d [_ <-]%lookup_singleton_Some.
  - apply (shelf_deep 19).
Defined.

Lemma limit_and_skip_split_witness :
  let n := int_of_float (float_of_Z 2) in
  let limit := evalLimit plain_arg [DArray people; num 2] shelf in
  let skip := evalSkip plain_arg [DArray people; num 2] shelf in
  ((0 ≤ n)%Z → limit = (Ok (DArray (take (Z.to_nat n) people)), shelf) ∧
               skip = (Ok (DArray (drop (Z.to_nat n) people)), shelf) ∧
               take (Z.to_nat n) people ++ drop (Z.to_nat n) people = people) ∧
  ((n < 0)%Z → limit = (Panic, shelf) ∧ skip = (Panic, shelf)).
Proof.
  apply (limit_and_skip_split plain_arg (DArray people) (num 2) [] shelf people shelf shelf (float_of_Z 2)).
  exists (DArray people). split_and!; reflexivity.
Defined.

Lemma min_max_extreme_witness :
  let vs := values_of (w_heap shelf) "age" people in
  vs = [num 36; num 25] ∧
  ∃ lo hi, evalMin plain_arg [DArray people; DStr "age"] shelf = (Ok lo, shelf) ∧
    evalMax plain_arg [DArray people; DStr "age"] shelf = (Ok hi, shelf) ∧
    match vs with
    | [] => lo = DNull ∧ hi = DNull
    | _ => extreme (w_heap shelf) Lt lo vs ∧ extreme (w_heap shelf) Gt hi vs
    end.
Proof.
  split; [vm_compute; reflexivity|].
  apply (min_max_extreme plain_arg (DArray people) [DStr "age"] shelf people shelf); [reflexivity|apply (shelf_deep 18)].
Defined.

Lemma group_partitions_witness :
  let key := key_text (w_heap shelf) "age" in
  ∃ groups os w', evalGroup plain_arg [DArray people; DStr "age"] shelf = (Ok (DArray (DObject <$> os)), w') ∧
    groups_of key people groups ∧
    Forall2 (λ o g, h_objs (w_heap w') !! o = Some (obj_of_map (list_to_map (group_fields g)))) os groups.
Proof.
  apply (group_partitions plain_arg (DArray people) (DStr "age") [] shelf people shelf); [reflexivity|apply (shelf_deep 18)].
Defined.
