(* ===== verification/Parser.v ===== *)
(** * The text form of queries ([internal/reql/parser.go])

    [ParseReQL] turns text such as [r.table("users").get("u1")] into the value that
    the evaluator takes.  The parser walks over the bytes of the input with a
    position; the input is a parameter of the section and the position the state, so
    that an error leaves it where it occurred.  [parseExpression] and [parseArgValue]
    call each other once per level of nesting: they take fuel, and [parse_fuel] (the
    length of the input) is enough.  Loops over the input take that fuel as well.

    [strconv.ParseInt] and [strconv.ParseFloat] are modelled on the texts the parser
    gives them: an optional sign, digits and points. *)

From S2P Require Import Prelude Bytes Order Datum.
From Stdlib Require Import Ascii.

(** ** Terms *)

Definition TermDATUM : Z := 1.
Definition TermMAKE_ARRAY : Z := 2.
Definition TermMAKE_OBJ : Z := 3.
Definition TermVAR : Z := 10.
Definition TermJAVASCRIPT : Z := 11.
Definition TermUUID : Z := 169.
Definition TermHTTP : Z := 153.
Definition TermERROR : Z := 12.
Definition TermIMPLICIT_VAR : Z := 110.
Definition TermDB : Z := 14.
Definition TermTABLE : Z := 10.
Definition TermGET : Z := 70.
Definition TermGET_ALL : Z := 78.
Definition TermFILTER : Z := 39.
Definition TermORDER_BY : Z := 41.
Definition TermLIMIT : Z := 42.
Definition TermSKIP : Z := 43.
Definition TermCOUNT : Z := 86.
Definition TermSUM : Z := 87.
Definition TermAVG : Z := 88.
Definition TermMIN : Z := 89.
Definition TermMAX : Z := 90.
Definition TermGROUP : Z := 91.
Definition TermUNGROUP : Z := 92.
Definition TermREDUCE : Z := 93.
Definition TermMAP : Z := 40.
Definition TermINSERT : Z := 17.
Definition TermUPDATE : Z := 18.
Definition TermDELETE : Z := 19.
Definition TermREPLACE : Z := 20.
Definition TermHAS_FIELDS : Z := 33.
Definition TermWITHOUT : Z := 34.
Definition TermMERGE : Z := 36.
Definition TermBETWEEN : Z := 172.
Definition TermCHANGES : Z := 152.
Definition TermINDEX_CREATE : Z := 75.
Definition TermINDEX_DROP : Z := 76.
Definition TermINDEX_LIST : Z := 77.
Definition TermDB_CREATE : Z := 57.
Definition TermDB_DROP : Z := 58.
Definition TermDB_LIST : Z := 59.
Definition TermTABLE_CREATE : Z := 60.
Definition TermTABLE_DROP : Z := 61.
Definition TermTABLE_LIST : Z := 62.
Definition TermBRANCH : Z := 15.
Definition TermOR : Z := 7.
Definition TermAND : Z := 8.
Definition TermNOT : Z := 9.
Definition TermEQ : Z := 4.
Definition TermNE : Z := 5.
Definition TermLT : Z := 6.
Definition TermLE : Z := 73.
Definition TermGT : Z := 74.
Definition TermGE : Z := 71.
Definition TermADD : Z := 2.
Definition TermSUB : Z := 3.
Definition TermMUL : Z := 4.
Definition TermDIV : Z := 5.
Definition TermMOD : Z := 6.
Definition TermAPPEND : Z := 94.
Definition TermPREPEND : Z := 95.
Definition TermDIFFERENCE : Z := 96.
Definition TermSET_INSERT : Z := 127.
Definition TermSET_INTERSECTION : Z := 128.
Definition TermSET_UNION : Z := 129.
Definition TermSET_DIFFERENCE : Z := 130.
Definition TermTYPE_OF : Z := 97.
Definition TermTO_JSON_STRING : Z := 173.
Definition TermDATE : Z := 180.
Definition TermTIME : Z := 181.
Definition TermEPOCH_TIME : Z := 182.
Definition TermISO8601 : Z := 183.
Definition TermIN_DISTINCT : Z := 184.
Definition TermDISTINCT : Z := 44.
Definition TermPLUCK : Z := 45.
Definition TermLITERAL : Z := 132.

(** The methods of the language and their terms. *)
Definition methodToTerm : list (string * Z) := [
  ("table", TermTABLE); ("db", TermDB); ("get", TermGET); ("getAll", TermGET_ALL); ("filter", TermFILTER);
  ("orderBy", TermORDER_BY); ("limit", TermLIMIT); ("skip", TermSKIP); ("count", TermCOUNT);
  ("sum", TermSUM); ("avg", TermAVG); ("min", TermMIN); ("max", TermMAX); ("group", TermGROUP);
  ("ungroup", TermUNGROUP); ("reduce", TermREDUCE); ("map", TermMAP); ("insert", TermINSERT);
  ("update", TermUPDATE); ("delete", TermDELETE); ("replace", TermREPLACE); ("hasFields", TermHAS_FIELDS);
  ("without", TermWITHOUT); ("merge", TermMERGE); ("between", TermBETWEEN); ("changes", TermCHANGES);
  ("indexCreate", TermINDEX_CREATE); ("indexDrop", TermINDEX_DROP); ("indexList", TermINDEX_LIST);
  ("dbCreate", TermDB_CREATE); ("dbDrop", TermDB_DROP); ("dbList", TermDB_LIST);
  ("tableCreate", TermTABLE_CREATE); ("tableDrop", TermTABLE_DROP); ("tableList", TermTABLE_LIST);
  ("branch", TermBRANCH); ("or", TermOR); ("and", TermAND); ("not", TermNOT); ("eq", TermEQ);
  ("ne", TermNE); ("lt", TermLT); ("le", TermLE); ("gt", TermGT); ("ge", TermGE); ("add", TermADD);
  ("sub", TermSUB); ("mul", TermMUL); ("div", TermDIV); ("mod", TermMOD); ("append", TermAPPEND);
  ("prepend", TermPREPEND); ("difference", TermDIFFERENCE); ("setInsert", TermSET_INSERT);
  ("setIntersection", TermSET_INTERSECTION); ("setUnion", TermSET_UNION);
  ("setDifference", TermSET_DIFFERENCE); ("typeOf", TermTYPE_OF); ("toJsonString", TermTO_JSON_STRING);
  ("date", TermDATE); ("time", TermTIME); ("epochTime", TermEPOCH_TIME); ("iso8601", TermISO8601);
  ("in", TermIN_DISTINCT); ("distinct", TermDISTINCT); ("pluck", TermPLUCK); ("literal", TermLITERAL);
  ("contains", 98%Z); ("isEmpty", 130%Z); ("keys", 185%Z); ("values", 186%Z); ("object", 1%Z);
  ("coerceTo", 129%Z); ("do", 11%Z); ("default", 13%Z); ("nth", 72%Z); ("offsetsOf", 187%Z);
  ("isEmpty2", 130%Z); ("union", 46%Z); ("sample", 47%Z); ("innerJoin", 48%Z); ("outerJoin", 49%Z);
  ("eqJoin", 50%Z); ("zip", 51%Z); ("range", 173%Z); ("args", 133%Z); ("json", 174%Z); ("http", TermHTTP);
  ("error", TermERROR); ("random", 175%Z); ("now", 176%Z); ("round", 177%Z); ("floor", 178%Z);
  ("ceil", 179%Z); ("toEpochTime", 188%Z); ("toISO8601", 189%Z); ("during", 190%Z); ("monday", 200%Z);
  ("tuesday", 201%Z); ("wednesday", 202%Z); ("thursday", 203%Z); ("friday", 204%Z); ("saturday", 205%Z);
  ("sunday", 206%Z); ("january", 207%Z); ("february", 208%Z); ("march", 209%Z); ("april", 210%Z);
  ("may", 211%Z); ("june", 212%Z); ("july", 213%Z); ("august", 214%Z); ("september", 215%Z);
  ("october", 216%Z); ("november", 217%Z); ("december", 218%Z); ("minval", 219%Z); ("maxval", 220%Z);
  ("geometry", 221%Z); ("point", 222%Z); ("line", 223%Z); ("polygon", 224%Z); ("distance", 225%Z);
  ("intersects", 226%Z); ("includes", 227%Z); ("fill", 228%Z); ("getIntersecting", 229%Z);
  ("polygonSub", 230%Z); ("toGeojson", 231%Z); ("info", 232%Z); ("match", 233%Z); ("split", 234%Z);
  ("upcase", 235%Z); ("downcase", 236%Z); ("sample2", 47%Z); ("unfold", 237%Z); ("groupMap", 238%Z);
  ("forEach", 239%Z); ("wait", 240%Z); ("reconfigure", 241%Z); ("rebalance", 242%Z); ("sync", 243%Z);
  ("grant", 244%Z); ("status", 137%Z); ("config", 245%Z); ("cache", 246%Z)
].

(** ** Characters *)

Definition quote : ascii := ascii_of_nat 39.
Definition backslash : ascii := ascii_of_nat 92.
Definition dquote : ascii := ascii_of_nat 34.
Definition code (c : ascii) : Z := Z.of_N (N_of_ascii c).
Definition between (lo hi : Z) (c : ascii) : bool := bool_decide (lo ≤ code c ≤ hi)%Z.
(** [unicode.IsSpace], [IsLetter] and [IsDigit] on [rune(b)] for a byte [b]. *)
Definition is_space (c : ascii) : bool :=
  between 9 13 c || bool_decide (code c = 32 ∨ code c = 133 ∨ code c = 160)%Z.
Definition is_letter (c : ascii) : bool :=
  between 65 90 c || between 97 122 c || bool_decide (code c = 170 ∨ code c = 181 ∨ code c = 186)%Z
    || between 192 214 c || between 216 246 c || between 248 255 c.
Definition is_digit (c : ascii) : bool := between 48 57 c.
Definition is_ident (c : ascii) : bool := is_letter c || is_digit c || bool_decide (c = "_"%char).

(** A byte printed with [%c]: the encoding of the rune. *)
Definition format_c (c : ascii) : string :=
  if bool_decide (code c < 128)%Z then String c ""
  else String (ascii_of_N (Z.to_N (192 + code c / 64))) (String (ascii_of_N (Z.to_N (128 + code c mod 64))) "").

Abbreviation text := (list ascii) (only parsing).
Definition to_string (l : text) : string := String.string_of_list_ascii l.
Definition of_string (s : string) : text := String.list_ascii_of_string s.

(** [strings.TrimSpace]: the encodings of white space in UTF-8. *)
Definition bytes_text (l : list Z) : text := (λ z, ascii_of_N (Z.to_N z)) <$> l.
Definition space_encodings : list text := bytes_text <$>
  ([[9]; [10]; [11]; [12]; [13]; [32]; [194; 133]; [194; 160]; [225; 154; 128];
    [226; 128; 168]; [226; 128; 169]; [226; 128; 175]; [226; 129; 159]; [227; 128; 128]]
   ++ ((λ z, [226; 128; z]) <$> seqZ 128 11))%Z.
Definition strip_prefix (p l : text) : option text :=
  if bool_decide (take (length p) l = p) then Some (drop (length p) l) else None.
Fixpoint trim_left (fuel : nat) (encs : list text) (l : text) : text :=
  match fuel with
  | O => l
  | S fuel' =>
      match omap (λ p, strip_prefix p l) encs with
      | l' :: _ => trim_left fuel' encs l'
      | [] => l
      end
  end.
Definition TrimSpace (s : text) : text :=
  let l := trim_left (length s) space_encodings s in
  reverse (trim_left (length l) (reverse <$> space_encodings) (reverse l)).

(** ** Numbers *)

Definition digit_of (c : ascii) : Z := code c - 48.
Definition digits_value (l : text) : Z := foldl (λ n c, (10 * n + digit_of c)%Z) 0%Z l.
Definition split_sign (l : text) : bool * text :=
  match l with c :: l' => if bool_decide (c = "-"%char) then (true, l') else (false, l) | [] => (false, []) end.

(** [strconv.ParseInt(s, 10, 64)]; [None] is an error. *)
Definition ParseInt (s : text) : option Z :=
  let '(neg, ds) := split_sign s in
  if bool_decide (ds ≠ []) && forallb is_digit ds then
    let n := if neg : bool then (- digits_value ds)%Z else digits_value ds in
    if bool_decide (- 2 ^ 63 ≤ n < 2 ^ 63)%Z then Some n else None
  else None.

(** The float nearest to [n / d] for positive [n] and [d]: at least 66 bits of the
    quotient, and one bit that says whether there are more, decide the rounding. *)
Definition round_ratio (neg : bool) (n d : Z) : float64 :=
  let s := Z.max 0 (66 + Z.log2 d - Z.log2 n) in
  let q := (n * 2 ^ s / d)%Z in
  let m := (2 * q + (if bool_decide ((n * 2 ^ s) mod d = 0)%Z then 0 else 1))%Z in
  binary_normalize 53 1024 (if neg then - m else m)%Z (- s - 1) neg.

(** The digits before and after the first point. *)
Fixpoint split_point (l : text) : text * text :=
  match l with
  | [] => ([], [])
  | c :: l' => if bool_decide (c = "."%char) then ([], l') else let '(a, b) := split_point l' in (c :: a, b)
  end.

(** [strconv.ParseFloat(s, 64)]; [None] is an error, out of range included. *)
Definition ParseFloat (s : text) : option float64 :=
  let '(neg, u) := split_sign s in
  let '(a, b) := split_point u in
  if bool_decide (a ++ b ≠ []) && forallb is_digit (a ++ b) then
    let n := digits_value (a ++ b) in
    let f := if bool_decide (n = 0)%Z then S754_zero neg else round_ratio neg n (10 ^ Z.of_nat (length b)) in
    if IsInf f then None else Some f
  else None.

(** ** The parser *)

(** [result[key] = value] *)
Fixpoint vmap_set (key : string) (v : GoVal) (kvs : list (string * GoVal)) : list (string * GoVal) :=
  match kvs with
  | [] => [(key, v)]
  | (k, u) :: kvs' => if bool_decide (k = key) then (key, v) :: kvs' else (k, u) :: vmap_set key v kvs'
  end.

Fixpoint method_term (name : string) (l : list (string * Z)) : Z :=
  match l with
  | [] => 0
  | (n, t) :: l' => if bool_decide (n = name) then t else method_term name l'
  end.

Section parser.
Context (input : text).
Abbreviation P := (M nat) (only parsing).

(** Enough for every loop over the input and for every level of nesting. *)
Definition parse_fuel : nat := S (length input).

(** The byte at the position. *)
Definition at_pos (pos : nat) : option ascii := input !! pos.
Definition is_at (pos : nat) (c : ascii) : bool := bool_decide (at_pos pos = Some c).

(** [for p.pos < len(p.input) && f(p.input[p.pos]) { p.pos++ }] *)
Fixpoint skip_while (f : ascii → bool) (rest : text) (pos : nat) : nat :=
  match rest with
  | c :: rest' => if f c then skip_while f rest' (S pos) else pos
  | [] => pos
  end.
Definition skip (f : ascii → bool) : P unit := λ pos, (Ok (), skip_while f (drop pos input) pos).
Definition skipWhitespace : P unit := skip is_space.

(** [None] stands for the byte 0 that [peek] returns at the end of the input. *)
Definition peek : P (option ascii) :=
  skipWhitespace;;
  pos ← get_state;
  mret (at_pos pos).
Definition peeks (c : option ascii) (x : ascii) : bool := bool_decide (c = Some x).

Definition advance : P ascii :=
  pos ← get_state;
  match at_pos pos with
  | Some c => put_state (S pos);; mret c
  | None => panic
  end.

Definition expect (ch : ascii) : P unit :=
  skipWhitespace;;
  pos ← get_state;
  match at_pos pos with
  | None => fail ("expected '" +:+ format_c ch +:+ "' at end of input")
  | Some c =>
      if bool_decide (c = ch) then put_state (S pos)
      else fail ("expected '" +:+ format_c ch +:+ "' at position " +:+ pretty pos +:+ ", got '" +:+ format_c c +:+ "'")
  end.

(** The bytes from [start] to the position. *)
Definition since (start : nat) : P text := λ pos, (Ok (take (pos - start) (drop start input)), pos).

Definition parseIdentifier : P string :=
  skipWhitespace;;
  start ← get_state;
  skip is_ident;;
  pos ← get_state;
  if bool_decide (pos = start) then fail ("expected identifier at position " +:+ pretty pos)
  else l ← since start; mret (to_string l).

(** The loop of [parseString]; [acc] is what has been written, in reverse order. *)
Fixpoint string_loop (fuel : nat) (acc : text) : P string :=
  match fuel with
  | O => nofuel
  | S fuel' =>
      pos ← get_state;
      match at_pos pos with
      | None => fail "unterminated string"
      | Some ch =>
          if bool_decide (ch = backslash) then
            put_state (S pos);;
            match at_pos (S pos) with
            | None => fail "unterminated string escape"
            | Some escaped =>
                put_state (S (S pos));;
                string_loop fuel'
                  (if bool_decide (escaped = dquote) then escaped :: acc
                   else if bool_decide (escaped = backslash) then escaped :: acc
                   else if bool_decide (escaped = "n"%char) then ascii_of_nat 10 :: acc
                   else if bool_decide (escaped = "t"%char) then ascii_of_nat 9 :: acc
                   else if bool_decide (escaped = "r"%char) then ascii_of_nat 13 :: acc
                   else escaped :: backslash :: acc)
            end
          else if bool_decide (ch = dquote) then put_state (S pos);; mret (to_string (reverse acc))
          else put_state (S pos);; string_loop fuel' (ch :: acc)
      end
  end.
Definition parseString : P string := advance;; string_loop parse_fuel [].

Fixpoint single_quoted_loop (fuel : nat) (acc : text) : P string :=
  match fuel with
  | O => nofuel
  | S fuel' =>
      pos ← get_state;
      match at_pos pos with
      | None => fail "unterminated string"
      | Some ch =>
          if bool_decide (ch = backslash) then
            put_state (S pos);;
            match at_pos (S pos) with
            | None => fail "unterminated string escape"
            | Some escaped => put_state (S (S pos));; single_quoted_loop fuel' (escaped :: acc)
            end
          else if bool_decide (ch = quote) then put_state (S pos);; mret (to_string (reverse acc))
          else put_state (S pos);; single_quoted_loop fuel' (ch :: acc)
      end
  end.
Definition parseSingleQuotedString : P string := advance;; single_quoted_loop parse_fuel [].

Definition invalid_number (s : text) : string := "invalid number: " +:+ to_string s.
Definition number_char (c : ascii) : bool := is_digit c || bool_decide (c = "."%char).
(** What the number parsed as text stands for. *)
Definition number_value (s : text) : outcome float64 :=
  if existsb (λ c, bool_decide (c = "."%char)) s then
    match ParseFloat s with Some f => Ok f | None => Err (invalid_number s) end
  else
    match ParseInt s with
    | Some i => Ok (float_of_Z i)
    | None => match ParseFloat s with Some f => Ok f | None => Err (invalid_number s) end
    end.
Definition parseNumber : P GoVal :=
  start ← get_state;
  c ← peek;
  (if peeks c "-" then advance;; mret () else mret ());;
  skip number_char;;
  s ← since start;
  f ← lift (number_value s);
  mret (VFloat64 f).

(** [p.pos+n <= len(p.input) && p.input[p.pos:p.pos+n] == word] *)
Definition at_word (word : string) (pos : nat) : bool :=
  bool_decide (take (String.length word) (drop pos input) = of_string word).
Definition parseBoolean : P GoVal :=
  pos ← get_state;
  if at_word "true" pos then put_state (pos + 4);; mret (VBool true)
  else if at_word "false" pos then put_state (pos + 5);; mret (VBool false)
  else fail ("expected boolean at position " +:+ pretty pos).
Definition parseNull : P GoVal :=
  pos ← get_state;
  if at_word "null" pos then put_state (pos + 4);; mret VNil
  else fail ("expected null at position " +:+ pretty pos).

(** *** Lists of arguments *)

Section arguments.
(** [parseArgValue], which calls the functions of this section. *)
Context (argValue : P GoVal).

(** The loop of [parseArgList] and [parseArray]: values separated by commas. *)
Fixpoint values_loop (fuel : nat) (acc : list GoVal) : P (list GoVal) :=
  match fuel with
  | O => nofuel
  | S fuel' =>
      skipWhitespace;;
      v ← argValue;
      skipWhitespace;;
      c ← peek;
      if peeks c "," then advance;; values_loop fuel' (acc ++ [v]) else mret (acc ++ [v])
  end.

Definition parseArgList : P (list GoVal) :=
  skipWhitespace;;
  c ← peek;
  pos ← get_state;
  if negb (peeks c "(") then fail ("expected '(' at position " +:+ pretty pos)
  else
    advance;;
    skipWhitespace;;
    c' ← peek;
    if peeks c' ")" then advance;; mret []
    else args ← values_loop parse_fuel []; ignore_err (expect ")");; mret args.

Definition parseArray : P GoVal :=
  advance;;
  skipWhitespace;;
  c ← peek;
  if peeks c "]" then advance;; mret (VSlice [])
  else l ← values_loop parse_fuel []; ignore_err (expect "]");; mret (VSlice l).

Definition parseKey : P string :=
  ch ← peek;
  if peeks ch dquote then parseString
  else if peeks ch quote then parseSingleQuotedString
  else parseIdentifier.
Fixpoint fields_loop (fuel : nat) (acc : list (string * GoVal)) : P (list (string * GoVal)) :=
  match fuel with
  | O => nofuel
  | S fuel' =>
      skipWhitespace;;
      key ← wrap_err "expected object key" parseKey;
      skipWhitespace;;
      ignore_err (expect ":");;
      skipWhitespace;;
      v ← argValue;
      skipWhitespace;;
      c ← peek;
      if peeks c "," then advance;; fields_loop fuel' (vmap_set key v acc) else mret (vmap_set key v acc)
  end.
Definition parseObject : P GoVal :=
  advance;;
  skipWhitespace;;
  c ← peek;
  if peeks c "}" then advance;; mret (VMap [])
  else kvs ← fields_loop parse_fuel []; ignore_err (expect "}");; mret (VMap kvs).

(** The loop over [.method(…)]. *)
Fixpoint chain_loop (fuel : nat) (term : list GoVal) : P GoVal :=
  match fuel with
  | O => nofuel
  | S fuel' =>
      c ← peek;
      if peeks c "." then
        advance;;
        skipWhitespace;;
        nextMethod ← parseIdentifier;
        nextArgs ← parseArgList;
        let nextTermID := method_term nextMethod methodToTerm in
        if bool_decide (nextTermID = 0)%Z then fail ("unknown ReQL method: ." +:+ nextMethod)
        else chain_loop fuel' (VInt nextTermID :: VSlice term :: nextArgs)
      else mret (VSlice term)
  end.
Definition parseRChain : P GoVal :=
  modify (λ pos, pos + 2);;
  skipWhitespace;;
  method ← wrap_err "expected method name after 'r.'" parseIdentifier;
  args ← parseArgList;
  let termID := method_term method methodToTerm in
  if bool_decide (termID = 0)%Z then fail ("unknown ReQL method: r." +:+ method)
  else chain_loop parse_fuel (VInt termID :: args).

(** The literals that [parseArgValue] and [parseLiteral] share; [None] for another
    first character. *)
Definition literal (ch : option ascii) : option (P GoVal) :=
  if peeks ch dquote then Some (s ← parseString; mret (VString s))
  else if peeks ch quote then Some (s ← parseSingleQuotedString; mret (VString s))
  else if peeks ch "{" then Some parseObject
  else if peeks ch "[" then Some parseArray
  else None.
Definition number_start (ch : option ascii) : bool :=
  match ch with Some c => bool_decide (c = "-"%char) || is_digit c | None => false end.
Definition word_literal (ch : option ascii) : option (P GoVal) :=
  if number_start ch then Some parseNumber
  else if peeks ch "t" || peeks ch "f" then Some parseBoolean
  else if peeks ch "n" then Some parseNull
  else None.

(** The character in an error message; the byte 0 at the end of the input. *)
Definition shown (ch : option ascii) : string := format_c (default Ascii.zero ch).
Definition parseLiteral : P GoVal :=
  skipWhitespace;;
  ch ← peek;
  match literal ch, word_literal ch with
  | Some p, _ | None, Some p => p
  | None, None =>
      pos ← get_state;
      ident ← catch parseIdentifier
                (λ _, pos' ← get_state;
                      fail ("unexpected character at position " +:+ pretty pos' +:+ ": '" +:+ shown ch +:+ "'"));
      if bool_decide (ident = "true") then mret (VBool true)
      else if bool_decide (ident = "false") then mret (VBool false)
      else if bool_decide (ident = "null") then mret VNil
      else fail ("unexpected identifier: " +:+ ident)
  end.
End arguments.

(** [r.row]: a reference to the document at hand. *)
Definition row_value : GoVal := VMap [("$reql_type$", VString "BINARY"); ("data", VSlice [VInt TermIMPLICIT_VAR])].

Fixpoint parseExpression (fuel : nat) : P GoVal :=
  match fuel with
  | O => nofuel
  | S fuel' =>
      skipWhitespace;;
      pos ← get_state;
      if is_at pos "r" && is_at (S pos) "." then parseRChain (parseArgValue fuel')
      else
        c ← peek;
        if peeks c "(" then
          advance;; expr ← parseExpression fuel'; ignore_err (expect ")");; mret expr
        else parseLiteral (parseArgValue fuel')
  end
with parseArgValue (fuel : nat) : P GoVal :=
  match fuel with
  | O => nofuel
  | S fuel' =>
      skipWhitespace;;
      ch ← peek;
      pos ← get_state;
      match literal (parseArgValue fuel') ch with
      | Some p => p
      | None =>
          if peeks ch "(" then
            advance;; expr ← parseExpression fuel'; ignore_err (expect ")");; mret expr
          else
            match word_literal ch with
            | Some p => p
            | None =>
                if peeks ch "r" && is_at (S pos) "." then parseRChain (parseArgValue fuel')
                else if peeks ch "r" && is_at (S pos) "o" && is_at (S (S pos)) "w" then
                  put_state (pos + 3);; mret row_value
                else
                  ident ← catch parseIdentifier
                            (λ _, pos' ← get_state;
                                  fail ("unexpected character '" +:+ shown ch +:+ "' at position " +:+ pretty pos'));
                  if bool_decide (ident = "true") then mret (VBool true)
                  else if bool_decide (ident = "false") then mret (VBool false)
                  else if bool_decide (ident = "null") then mret VNil
                  else if bool_decide (ident = "r") then
                    c ← peek;
                    if peeks c "." then parseRChain (parseArgValue fuel')
                    else fail "unexpected 'r' without dot"
                  else fail ("unexpected identifier: " +:+ ident)
            end
      end
  end.

Definition parse_input : P GoVal :=
  result ← parseExpression parse_fuel;
  pos ← get_state;
  if bool_decide (pos < length input) then
    let remaining := TrimSpace (drop pos input) in
    if bool_decide (remaining ≠ []) then fail ("unexpected trailing content: " +:+ to_string remaining)
    else mret result
  else mret result.
End parser.

Definition ParseReQL (input : string) : outcome GoVal :=
  let input := TrimSpace (of_string input) in
  if bool_decide (input = []) then Err "empty query"
  else (parse_input input 0).1.

(** ** Running the parser *)

Section run.
Context (input : text).
Abbreviation len := (length input) (only parsing).

(** The position after white space. *)
Definition ws (pos : nat) : nat := skip_while is_space (drop pos input) pos.

Lemma skip_while_bounds f l pos : pos ≤ skip_while f l pos ≤ pos + length l.
Proof. revert pos. induction l as [|c l IH]; intros pos; simpl; [lia|]. destruct (f c); [|lia]. specialize (IH (S pos)). lia. Qed.
Lemma skip_bounds f pos : pos ≤ skip_while f (drop pos input) pos ∧ (pos ≤ len → skip_while f (drop pos input) pos ≤ len).
Proof. pose proof (skip_while_bounds f (drop pos input) pos) as Hb. rewrite length_drop in Hb. lia. Qed.
Lemma ws_bounds pos : pos ≤ ws pos ∧ (pos ≤ len → ws pos ≤ len).
Proof. apply skip_bounds. Qed.

(** Where [skip_while] stops. *)
Lemma skip_stop f l pos : match drop (skip_while f l pos - pos) l with c :: _ => f c = false | [] => True end.
Proof.
  revert pos. induction l as [|c l IH]; intros pos; cbn [skip_while]; [by rewrite drop_nil|].
  destruct (f c) eqn:E; [|by rewrite Nat.sub_diag].
  pose proof (skip_while_bounds f l (S pos)) as Hb.
  replace (skip_while f l (S pos) - pos) with (S (skip_while f l (S pos) - S pos)) by lia. apply IH.
Qed.
Lemma ws_stop pos c : input !! ws pos = Some c → is_space c = false.
Proof.
  intros Hc. pose proof (skip_stop is_space (drop pos input) pos) as Hs. fold (ws pos) in Hs.
  rewrite drop_drop in Hs. pose proof (proj1 (ws_bounds pos)) as Hb.
  replace (pos + (ws pos - pos)) with (ws pos) in Hs by lia. by rewrite (drop_S _ _ _ Hc) in Hs.
Qed.
Lemma ws_at pos c : input !! pos = Some c → is_space c = false → ws pos = pos.
Proof. intros Hc Hs. unfold ws. rewrite (drop_S _ _ _ Hc). cbn. by rewrite Hs. Qed.
Lemma ws_end pos : len ≤ pos → ws pos = pos.
Proof. intros Hp. unfold ws. by rewrite drop_ge by done. Qed.
Lemma ws_idem pos : ws (ws pos) = ws pos.
Proof.
  destruct (input !! ws pos) as [c|] eqn:E; [by apply (ws_at _ c), (ws_stop pos)|].
  apply ws_end. by apply lookup_ge_None.
Qed.

Lemma run_ws {B} (f : () → M nat B) pos : (skipWhitespace input ≫= f) pos = f () (ws pos).
Proof. done. Qed.
Lemma run_skip {B} g (f : () → M nat B) pos :
  (skip input g ≫= f) pos = f () (skip_while g (drop pos input) pos).
Proof. done. Qed.
(** The text between two positions. *)
Definition slice (start stop : nat) : text := take (stop - start) (drop start input).
Lemma run_since {B} start (f : text → M nat B) pos : (since input start ≫= f) pos = f (slice start pos) pos.
Proof. done. Qed.
Lemma run_get {B} (f : nat → M nat B) pos : (get_state ≫= f) pos = f pos pos.
Proof. done. Qed.
Lemma run_put {B} (f : () → M nat B) n pos : (put_state n ≫= f) pos = f () n.
Proof. done. Qed.
Lemma run_peek {B} (f : option ascii → M nat B) pos : (peek input ≫= f) pos = f (input !! ws pos) (ws pos).
Proof. done. Qed.
Lemma run_advance {B} (f : ascii → M nat B) pos c : input !! pos = Some c → (advance input ≫= f) pos = f c (S pos).
Proof. intros Hc. unfold advance, at_pos. mrun. by rewrite Hc. Qed.

(** The outcome is a value or an error, no panic and no lack of fuel; a value leaves
    the position between [lo] and the end of the input. *)
Definition ends {A} (lo : nat) (r : outcome A * nat) : Prop :=
  match r with (Ok _, pos) => lo ≤ pos ≤ len | (Err _, _) => True | _ => False end.

Lemma ends_weaken {A} lo lo' (r : outcome A * nat) : lo' ≤ lo → ends lo r → ends lo' r.
Proof. destruct r as [[] ?]; simpl; lia. Qed.
Lemma ends_bind {A B} lo lo' (m : M nat A) (f : A → M nat B) pos :
  ends lo (m pos) → (∀ a pos', lo ≤ pos' ≤ len → ends lo' (f a pos')) → ends lo' ((m ≫= f) pos).
Proof. unfold mbind, M_mbind, M_bind. destruct (m pos) as [[] ?]; simpl; auto. Qed.
Lemma ends_wrap {A} lo e (m : M nat A) pos : ends lo (m pos) → ends lo (wrap_err e m pos).
Proof. unfold wrap_err. by destruct (m pos) as [[] ?]. Qed.

Lemma run_expect {B} c (f : () → M nat B) pos : pos ≤ len →
  ∃ pos', (ignore_err (expect input c) ≫= f) pos = f () pos' ∧ pos ≤ pos' ≤ len.
Proof.
  intros Hp. pose proof (ws_bounds pos) as [H1 H2]. unfold ignore_err, mbind, M_mbind, M_bind.
  assert (expect input c pos = match input !! ws pos with
    | None => (Err ("expected '" +:+ format_c c +:+ "' at end of input"), ws pos)
    | Some d => if bool_decide (d = c) then (Ok (), S (ws pos)) else
        (Err ("expected '" +:+ format_c c +:+ "' at position " +:+ pretty (ws pos) +:+ ", got '" +:+ format_c d +:+ "'"), ws pos)
    end) as ->.
  { unfold expect. rewrite run_ws, run_get. unfold at_pos. destruct (input !! ws pos); [by case_bool_decide|done]. }
  destruct (input !! ws pos) as [d|] eqn:E; [|exists (ws pos); split; [done|lia]].
  apply lookup_lt_Some in E. case_bool_decide; [exists (S (ws pos))|exists (ws pos)]; (split; [done|lia]).
Qed.

Lemma parseIdentifier_ends pos : ends (S pos) (parseIdentifier input pos).
Proof.
  unfold parseIdentifier. rewrite run_ws, run_get, run_skip, run_get.
  set (e := skip_while is_ident (drop (ws pos) input) (ws pos)).
  pose proof (skip_bounds is_ident (ws pos)) as [H1 H2]. fold e in H1, H2. pose proof (ws_bounds pos) as [H3 H4].
  case_bool_decide as He; [done|]. rewrite run_since. change (S pos ≤ e ≤ len).
  destruct (decide (ws pos ≤ len)) as [Hle|Hgt]; [specialize (H2 Hle); lia|].
  exfalso. apply He. unfold e. by rewrite drop_ge by lia.
Qed.

Lemma string_loop_ends fuel acc pos : pos ≤ len → len - pos < fuel → ends pos (string_loop input fuel acc pos).
Proof.
  revert acc pos. induction fuel as [|fuel IH]; intros acc pos Hp Hf; [lia|]. cbn [string_loop]. rewrite run_get.
  unfold at_pos. destruct (input !! pos) as [c|] eqn:E; [|done]. apply lookup_lt_Some in E.
  case_bool_decide.
  - rewrite run_put. destruct (input !! S pos) as [e|] eqn:E2; [|done]. apply lookup_lt_Some in E2. rewrite run_put.
    eapply ends_weaken; [|apply IH]; lia.
  - case_bool_decide; [rewrite run_put; simpl; lia|]. rewrite run_put. eapply ends_weaken; [|apply IH]; lia.
Qed.
Lemma single_quoted_loop_ends fuel acc pos : pos ≤ len → len - pos < fuel → ends pos (single_quoted_loop input fuel acc pos).
Proof.
  revert acc pos. induction fuel as [|fuel IH]; intros acc pos Hp Hf; [lia|]. cbn [single_quoted_loop]. rewrite run_get.
  unfold at_pos. destruct (input !! pos) as [c|] eqn:E; [|done]. apply lookup_lt_Some in E.
  case_bool_decide.
  - rewrite run_put. destruct (input !! S pos) as [e|] eqn:E2; [|done]. apply lookup_lt_Some in E2. rewrite run_put.
    eapply ends_weaken; [|apply IH]; lia.
  - case_bool_decide; [rewrite run_put; simpl; lia|]. rewrite run_put. eapply ends_weaken; [|apply IH]; lia.
Qed.
Lemma parseString_ends pos c : input !! pos = Some c → ends (S pos) (parseString input pos).
Proof.
  intros Hc. unfold parseString. rewrite (run_advance _ _ _ Hc). apply lookup_lt_Some in Hc.
  apply string_loop_ends; unfold parse_fuel; lia.
Qed.
Lemma parseSingleQuotedString_ends pos c : input !! pos = Some c → ends (S pos) (parseSingleQuotedString input pos).
Proof.
  intros Hc. unfold parseSingleQuotedString. rewrite (run_advance _ _ _ Hc). apply lookup_lt_Some in Hc.
  apply single_quoted_loop_ends; unfold parse_fuel; lia.
Qed.

Lemma parseNumber_ends pos : pos ≤ len → ends pos (parseNumber input pos).
Proof.
  intros Hp. unfold parseNumber. rewrite run_get, run_peek. pose proof (ws_bounds pos) as [H1 H2]. specialize (H2 Hp).
  apply ends_bind with pos.
  - unfold peeks. case_bool_decide as Hc; [|simpl; lia]. rewrite (run_advance _ _ _ Hc).
    apply lookup_lt_Some in Hc. simpl. lia.
  - intros _ pos1 Hp1. rewrite run_skip, run_since. pose proof (skip_bounds number_char pos1) as [H3 H4].
    unfold lift, number_value.
    set (s := slice pos _). destruct (existsb _ s).
    + destruct (ParseFloat s); [simpl; lia|done].
    + destruct (ParseInt s); [simpl; lia|]. destruct (ParseFloat s); [simpl; lia|done].
Qed.
Lemma at_word_bound w pos : at_word input w pos = true → pos + String.length w ≤ len ∨ w = "".
Proof.
  unfold at_word. intros Hw%bool_decide_eq_true_1. apply (f_equal length) in Hw.
  rewrite length_take, length_drop in Hw. unfold of_string in Hw.
  assert (length (String.list_ascii_of_string w) = String.length w) as Hl by (clear; induction w; simpl; auto).
  destruct w; [by right|left]. simpl String.length in *. lia.
Qed.
Lemma parseBoolean_ends pos : ends pos (parseBoolean input pos).
Proof.
  unfold parseBoolean. rewrite run_get. destruct (at_word input "true" pos) eqn:E1.
  - apply at_word_bound in E1 as [E1|]; [|done]. simpl in *. lia.
  - destruct (at_word input "false" pos) eqn:E2; [|done].
    apply at_word_bound in E2 as [E2|]; [|done]. simpl in *. lia.
Qed.
Lemma parseNull_ends pos : ends pos (parseNull input pos).
Proof.
  unfold parseNull. rewrite run_get. destruct (at_word input "null" pos) eqn:E1; [|done].
  apply at_word_bound in E1 as [E1|]; [|done]. simpl in *. lia.
Qed.

(** One more character has been read. *)
Lemma ends_peek {A} lo pos c (k : M nat A) (k' : option ascii → M nat A) :
  lo ≤ pos ≤ len → (∀ pos', pos < pos' ≤ len → ends lo (k pos')) →
  (∀ pos', pos ≤ pos' ≤ len → ends lo (k' (input !! pos') pos')) →
  ends lo ((ch ← peek input; if peeks ch c then advance input;; k else k' ch) pos).
Proof.
  intros Hp Hk Hk'. rewrite run_peek. pose proof (ws_bounds pos) as [H1 H2]. unfold peeks.
  case_bool_decide as Hc; [|apply Hk'; lia]. rewrite (run_advance _ _ _ Hc). apply lookup_lt_Some in Hc. apply Hk. lia.
Qed.

Section arguments_run.
(** Values are only parsed after [start]. *)
Context (argValue : M nat GoVal) (start : nat).
Context (Hv : ∀ pos, start < pos ≤ len → ends pos (argValue pos)).

Lemma values_loop_ends fuel acc pos : start < pos ≤ len → len - pos < fuel → ends pos (values_loop input argValue fuel acc pos).
Proof.
  revert acc pos. induction fuel as [|fuel IH]; intros acc pos Hp Hf; [lia|]. cbn [values_loop]. rewrite run_ws.
  pose proof (ws_bounds pos) as [H1 H2]. apply ends_bind with pos; [eapply ends_weaken; [|apply Hv]; lia|].
  intros v pos1 Hp1. rewrite run_ws. pose proof (ws_bounds pos1) as [H3 H4].
  apply (ends_peek pos (ws pos1) "," _ (λ _, mret (acc ++ [v]))); [lia| |intros; simpl; lia].
  intros pos2 Hp2. eapply ends_weaken; [|apply IH]; lia.
Qed.
Lemma values_ends {A} c (f : list GoVal → A) pos : start < pos ≤ len →
  ends pos ((l ← values_loop input argValue (parse_fuel input) []; ignore_err (expect input c);; mret (f l)) pos).
Proof.
  intros Hp. eapply ends_bind; [apply values_loop_ends; unfold parse_fuel; lia|].
  intros l pos1 Hp1. destruct (run_expect c (λ _, mret (f l)) pos1) as (pos2 & -> & Hp2); [lia|]. simpl. lia.
Qed.

Lemma parseArgList_ends pos : start ≤ pos ≤ len → ends pos (parseArgList input argValue pos).
Proof.
  intros Hp. unfold parseArgList. rewrite run_ws, run_peek, run_get, ws_idem. pose proof (ws_bounds pos) as [H1 H2].
  unfold peeks. case_bool_decide as Hc; [|done]. cbn [negb]. rewrite (run_advance _ _ _ Hc), run_ws.
  apply lookup_lt_Some in Hc. pose proof (ws_bounds (S (ws pos))) as [H3 H4].
  apply (ends_peek pos _ ")" _ (λ _, _)); [lia|intros; simpl; lia|]. intros pos1 Hp1.
  eapply ends_weaken; [|apply (values_ends ")" (λ l, l))]; lia.
Qed.
Lemma parseArray_ends pos c : input !! pos = Some c → start ≤ pos → ends pos (parseArray input argValue pos).
Proof.
  intros Hc Hp. unfold parseArray. rewrite (run_advance _ _ _ Hc), run_ws. apply lookup_lt_Some in Hc.
  pose proof (ws_bounds (S pos)) as [H1 H2].
  apply (ends_peek pos _ "]" _ (λ _, _)); [lia|intros; simpl; lia|]. intros pos1 Hp1.
  eapply ends_weaken; [|apply (values_ends "]" VSlice)]; lia.
Qed.

Lemma parseKey_ends pos : pos ≤ len → ends (S pos) (parseKey input pos).
Proof.
  intros Hp. unfold parseKey. rewrite run_peek. pose proof (ws_bounds pos) as [H1 H2]. unfold peeks.
  case_bool_decide as Hc; [eapply ends_weaken; [|by eapply parseString_ends]; lia|].
  case_bool_decide as Hc'; [eapply ends_weaken; [|by eapply parseSingleQuotedString_ends]; lia|].
  eapply ends_weaken; [|apply parseIdentifier_ends]. lia.
Qed.
Lemma fields_loop_ends fuel acc pos : start < pos ≤ len → len - pos < fuel → ends pos (fields_loop input argValue fuel acc pos).
Proof.
  revert acc pos. induction fuel as [|fuel IH]; intros acc pos Hp Hf; [lia|]. cbn [fields_loop]. rewrite run_ws.
  pose proof (ws_bounds pos) as [H1 H2]. apply ends_bind with pos.
  { apply ends_wrap. eapply ends_weaken; [|apply parseKey_ends]; lia. }
  intros key pos1 Hp1. rewrite run_ws. pose proof (ws_bounds pos1) as [H3 H4].
  destruct (run_expect ":" (λ _, skipWhitespace input;; v ← argValue; skipWhitespace input;;
    c ← peek input; if peeks c "," then advance input;; fields_loop input argValue fuel (vmap_set key v acc)
      else mret (vmap_set key v acc)) (ws pos1)) as (pos2 & -> & Hp2); [lia|].
  rewrite run_ws. pose proof (ws_bounds pos2) as [H5 H6].
  apply ends_bind with pos; [eapply ends_weaken; [|apply Hv]; lia|]. intros v pos3 Hp3. rewrite run_ws.
  pose proof (ws_bounds pos3) as [H7 H8]. apply (ends_peek pos (ws pos3) "," _ (λ _, mret (vmap_set key v acc))); [lia| |intros; simpl; lia].
  intros pos4 Hp4. eapply ends_weaken; [|apply IH]; lia.
Qed.
Lemma parseObject_ends pos c : input !! pos = Some c → start ≤ pos → ends pos (parseObject input argValue pos).
Proof.
  intros Hc Hp. unfold parseObject. rewrite (run_advance _ _ _ Hc), run_ws. apply lookup_lt_Some in Hc.
  pose proof (ws_bounds (S pos)) as [H1 H2].
  apply (ends_peek pos _ "}" _ (λ _, _)); [lia|intros; simpl; lia|]. intros pos1 Hp1.
  apply ends_bind with pos1; [apply fields_loop_ends; unfold parse_fuel; lia|].
  intros kvs pos2 Hp2. destruct (run_expect "}" (λ _, mret (VMap kvs)) pos2) as (pos3 & -> & Hp3); [lia|]. simpl. lia.
Qed.

Lemma chain_loop_ends fuel term pos : start ≤ pos ≤ len → len - pos < fuel → ends pos (chain_loop input argValue fuel term pos).
Proof.
  revert term pos. induction fuel as [|fuel IH]; intros term pos Hp Hf; [lia|]. cbn [chain_loop].
  apply (ends_peek pos pos "." _ (λ _, mret (VSlice term))); [lia| |intros; simpl; lia].
  intros pos1 Hp1. rewrite run_ws. pose proof (ws_bounds pos1) as [H1 H2].
  apply ends_bind with pos1; [eapply ends_weaken; [|apply parseIdentifier_ends]; lia|]. intros m pos2 Hp2.
  apply ends_bind with pos1; [eapply ends_weaken; [|apply parseArgList_ends]; lia|]. intros args pos3 Hp3.
  case_bool_decide; [done|]. eapply ends_weaken; [|apply IH]; lia.
Qed.
Lemma parseRChain_ends pos : start ≤ pos → ends pos (parseRChain input argValue pos).
Proof.
  intros Hp. unfold parseRChain. rewrite (bind_ok _ _ pos () (pos + 2) eq_refl), run_ws.
  pose proof (ws_bounds (pos + 2)) as [H1 H2].
  apply ends_bind with pos; [apply ends_wrap; eapply ends_weaken; [|apply parseIdentifier_ends]; lia|]. intros m pos2 Hp2.
  apply ends_bind with pos; [eapply ends_weaken; [|apply parseArgList_ends]; lia|]. intros args pos3 Hp3.
  case_bool_decide; [done|]. eapply ends_weaken; [|apply chain_loop_ends; unfold parse_fuel; lia]. lia.
Qed.

Lemma literal_ends pos p : literal input argValue (input !! pos) = Some p → start ≤ pos → ends pos (p pos).
Proof.
  intros Hl Hp. unfold literal, peeks in Hl.
  case_bool_decide as H1; [|case_bool_decide as H2; [|case_bool_decide as H3; [|case_bool_decide as H4; [|done]]]];
    injection Hl as <-.
  - eapply ends_bind; [by eapply parseString_ends|]. intros s pos' Hs. simpl. lia.
  - eapply ends_bind; [by eapply parseSingleQuotedString_ends|]. intros s pos' Hs. simpl. lia.
  - by eapply parseObject_ends.
  - by eapply parseArray_ends.
Qed.
Lemma word_literal_ends pos p : word_literal input (input !! pos) = Some p → ends pos (p pos).
Proof.
  unfold word_literal. destruct (number_start (input !! pos)) eqn:E.
  - intros [= <-]. apply parseNumber_ends. destruct (input !! pos) eqn:E2; [|done]. apply lookup_lt_Some in E2. lia.
  - destruct (peeks _ "t" || peeks _ "f"); [intros [= <-]; apply parseBoolean_ends|].
    destruct (peeks _ "n"); [intros [= <-]; apply parseNull_ends|done].
Qed.
End arguments_run.

(** An identifier with another message when there is none. *)
Lemma ident_ends {A} lo (k : string → M nat A) (msg : nat → string) pos :
  (∀ i pos', pos < pos' ≤ len → ends lo (k i pos')) →
  ends lo ((i ← catch (parseIdentifier input) (λ _, pos' ← get_state; fail (msg pos')); k i) pos).
Proof.
  intros Hk. pose proof (parseIdentifier_ends pos) as Hi. unfold catch, mbind at 1, M_mbind at 1, M_bind at 1.
  destruct (parseIdentifier input pos) as [[i|e| |] pos']; try done. apply Hk. simpl in Hi. lia.
Qed.
Lemma keyword_ends (ident : string) (m : M nat GoVal) lo pos :
  lo ≤ pos ≤ len → ends lo (m pos) →
  ends lo ((if bool_decide (ident = "true") then mret (VBool true)
            else if bool_decide (ident = "false") then mret (VBool false)
            else if bool_decide (ident = "null") then mret VNil else m) pos).
Proof. intros Hp Hm. repeat case_bool_decide; try (simpl; lia). done. Qed.

Lemma parseLiteral_ends (argValue : M nat GoVal) pos :
  (∀ pos', pos < pos' ≤ len → ends pos' (argValue pos')) → pos ≤ len → ends pos (parseLiteral input argValue pos).
Proof.
  intros Hv Hp. unfold parseLiteral. rewrite run_ws, run_peek, ws_idem. pose proof (ws_bounds pos) as [H1 H2].
  assert (∀ p, literal input argValue (input !! ws pos) = Some p → ends pos (p (ws pos))) as Hl.
  { intros p Hl. eapply ends_weaken; [|eapply (literal_ends argValue pos Hv); [done|lia]]. lia. }
  assert (∀ p, word_literal input (input !! ws pos) = Some p → ends pos (p (ws pos))) as Hw.
  { intros p Hw. eapply ends_weaken; [|by apply word_literal_ends]. lia. }
  destruct (literal _ _ _) as [p|]; [by apply Hl|]. destruct (word_literal _ _) as [p|]; [by apply Hw|].
  rewrite run_get. apply ident_ends. intros i pos' Hp'. apply keyword_ends; [lia|done].
Qed.

(** Every level of nesting has its fuel. *)
Lemma parse_ends fuel : ∀ pos, pos ≤ len → len - pos < fuel →
  ends pos (parseExpression input fuel pos) ∧ ends pos (parseArgValue input fuel pos).
Proof.
  induction fuel as [|fuel IH]; intros pos Hp Hf; [lia|]. pose proof (ws_bounds pos) as [H1 H2].
  assert (∀ pos', pos < pos' ≤ len → ends pos' (parseArgValue input fuel pos')) as Hv by (intros; apply IH; lia).
  assert (∀ pos', pos < pos' ≤ len →
    ends pos ((expr ← parseExpression input fuel; ignore_err (expect input ")");; mret expr) pos')) as Hparen.
  { intros pos1 Hp1. apply ends_bind with pos; [eapply ends_weaken; [|apply IH]; lia|]. intros e pos2 Hp2.
    destruct (run_expect ")" (λ _, mret e) pos2) as (pos3 & -> & Hp3); [lia|]. simpl. lia. }
  split; cbn [parseExpression parseArgValue].
  - rewrite run_ws, run_get. destruct (_ && _).
    { eapply ends_weaken; [|apply (parseRChain_ends _ pos Hv)]; lia. }
    apply (ends_peek pos (ws pos) "(" _ (λ _, parseLiteral input (parseArgValue input fuel))); [lia|intros; apply Hparen; lia|].
    intros pos1 Hp1. eapply ends_weaken; [|apply parseLiteral_ends; [intros; apply Hv; lia|lia]]. lia.
  - rewrite run_ws, run_peek, run_get, ws_idem. set (q := ws pos) in *.
    assert (∀ p, literal input (parseArgValue input fuel) (input !! q) = Some p → ends pos (p q)) as Hl.
    { intros p Hl. eapply ends_weaken; [|eapply (literal_ends _ pos Hv); [done|lia]]. lia. }
    assert (∀ p, word_literal input (input !! q) = Some p → ends pos (p q)) as Hw.
    { intros p Hw. eapply ends_weaken; [|by apply word_literal_ends]. lia. }
    destruct (literal _ _ _) as [p|]; [by apply Hl|].
    unfold peeks at 1. case_bool_decide as Hc.
    { rewrite (run_advance _ _ _ Hc). apply lookup_lt_Some in Hc. apply Hparen. lia. }
    destruct (word_literal _ _) as [p|]; [by apply Hw|].
    destruct (peeks _ "r" && is_at _ _ "."). { eapply ends_weaken; [|apply (parseRChain_ends _ pos Hv)]; lia. }
    destruct (peeks _ "r" && is_at _ _ "o" && is_at input (S (S q)) "w") eqn:Er.
    { apply andb_prop in Er as [_ Er]. apply bool_decide_eq_true_1, lookup_lt_Some in Er. simpl. lia. }
    apply ident_ends. intros i pos1 Hp1. apply keyword_ends; [lia|]. case_bool_decide; [|done].
    rewrite run_peek. pose proof (ws_bounds pos1) as [H3 H4]. destruct (peeks _ "."); [|done].
    eapply ends_weaken; [|apply (parseRChain_ends _ pos Hv)]; lia.
Qed.
End run.

(** C19: the parser terminates on every input without a panic: the length of the input
    is fuel enough, and the result is a value or an error. *)
Theorem ParseReQL_total (input : string) : (∃ v, ParseReQL input = Ok v) ∨ (∃ e, ParseReQL input = Err e).
Proof.
  unfold ParseReQL. set (l := TrimSpace (of_string input)). case_bool_decide; [right; by eexists|].
  unfold parse_input. pose proof (proj1 (parse_ends l (parse_fuel l) 0 ltac:(lia) ltac:(unfold parse_fuel; lia))) as He.
  unfold mbind, M_mbind, M_bind. destruct (parseExpression l (parse_fuel l) 0) as [[v|e| |] pos]; try done.
  - cbn. repeat case_bool_decide; cbn; eauto.
  - cbn. eauto.
Qed.

Example parse_example :
  ParseReQL "r.db('test').table('users').filter({age: 30, 'tags': [1, -2.5]}).limit(3)" =
    Ok (VSlice [VInt 42; VSlice [VInt 39; VSlice [VInt 10; VSlice [VInt 14; VString "test"]; VString "users"];
          VMap [("age", VFloat64 (float_of_Z 30)); ("tags", VSlice [VFloat64 (float_of_Z 1);
            VFloat64 (float_div (float_of_Z (-5)) (float_of_Z 2))])]]; VFloat64 (float_of_Z 3)]).
Proof. vm_compute. reflexivity. Qed.

(** ** Printing *)

(** Expressions of the language: literals, arrays, objects, and chains of method
    calls that start with [r.]. *)
#[local] Unset Elimination Schemes.
Inductive expr :=
| EStr (s : string)
| ENum (lit : text)
| EBool (b : bool)
| ENull
| EArr (l : list expr)
| EObj (kvs : list (string * expr))
| ECall (m : string) (args : list expr) (calls : list (string * list expr)).
#[local] Set Elimination Schemes.

Definition call_value (t : list GoVal) (c : string * list GoVal) : list GoVal :=
  VInt (method_term c.1 methodToTerm) :: VSlice t :: c.2.
(** What an expression stands for. *)
Fixpoint value (e : expr) : GoVal :=
  match e with
  | EStr s => VString s
  | ENum lit => VFloat64 (match number_value lit with Ok f => f | _ => S754_nan end)
  | EBool b => VBool b
  | ENull => VNil
  | EArr l => VSlice (value <$> l)
  | EObj kvs => VMap (foldl (λ acc kv, vmap_set kv.1 kv.2 acc) [] ((λ kv, (kv.1, value kv.2)) <$> kvs))
  | ECall m args calls =>
      VSlice (foldl call_value (VInt (method_term m methodToTerm) :: (value <$> args))
        ((λ c : string * list expr, (c.1, value <$> c.2)) <$> calls))
  end.

(** Numbers that the parser can read; known methods. *)
Definition good_number (lit : text) : bool :=
  match lit with
  | c :: l => (bool_decide (c = "-"%char) || is_digit c) && forallb number_char l &&
              match number_value lit with Ok _ => true | _ => false end
  | [] => false
  end.
Definition good_method (m : string) : bool := bool_decide (method_term m methodToTerm ≠ 0)%Z.
Fixpoint good (e : expr) : bool :=
  match e with
  | ENum lit => good_number lit
  | EArr l => forallb good l
  | EObj kvs => forallb (λ kv, good kv.2) kvs
  | ECall m args calls =>
      good_method m && forallb good args && forallb (λ c, good_method c.1 && forallb good c.2) calls
  | _ => true
  end.

Section print.
(** White space that is written wherever the parser skips it. *)
Context (gap : text).

Fixpoint escape (s : text) : text :=
  match s with
  | [] => []
  | c :: s' => if bool_decide (c = dquote ∨ c = backslash) then backslash :: c :: escape s' else c :: escape s'
  end.
Definition quoted (s : string) : text := dquote :: escape (of_string s) ++ [dquote].
Fixpoint separated (ts : list text) : text :=
  match ts with
  | [] => gap
  | [t] => gap ++ t ++ gap
  | t :: ts' => gap ++ t ++ gap ++ ","%char :: separated ts'
  end.
Definition print_field (kv : string * text) : text := quoted kv.1 ++ gap ++ ":"%char :: gap ++ kv.2.
Definition print_args (ts : list text) : text := gap ++ "("%char :: separated ts ++ [")"%char].
Definition print_call (c : string * list text) : text := gap ++ "."%char :: gap ++ of_string c.1 ++ print_args c.2.
Fixpoint print (e : expr) : text :=
  match e with
  | EStr s => quoted s
  | ENum lit => lit
  | EBool b => of_string (if b then "true" else "false")
  | ENull => of_string "null"
  | EArr l => "["%char :: separated (print <$> l) ++ ["]"%char]
  | EObj kvs => "{"%char :: separated ((λ kv, print_field (kv.1, print kv.2)) <$> kvs) ++ ["}"%char]
  | ECall m args calls =>
      of_string "r." ++ gap ++ of_string m ++ print_args (print <$> args)
        ++ mjoin ((λ c : string * list expr, print_call (c.1, print <$> c.2)) <$> calls)
  end.
End print.

(** ** The parser reads what is printed *)

Definition spaces (g : text) : Prop := Forall (λ c, is_space c = true) g.
(** What may follow a value, and what a value does not start with. *)
Definition closing (c : ascii) : bool := existsb (λ d, bool_decide (c = d)) [","%char; ")"%char; "]"%char; "}"%char].
Definition follow (rest : text) : Prop := match rest with [] => True | c :: _ => closing c = true end.
(** No character of the class is next. *)
Definition none_next (f : ascii → bool) (l : text) : Prop := match l with c :: _ => f c = false | [] => True end.
Definition starts (t : text) : Prop :=
  match t with [] => False | c :: _ => is_space c = false ∧ closing c = false end.

Lemma closing_facts c : closing c = true → is_space c = false ∧ number_char c = false ∧ is_ident c = false ∧ c ≠ "."%char.
Proof.
  unfold closing. cbn. intros Hc. repeat (apply orb_prop in Hc as [Hc|Hc]); try done;
    apply bool_decide_eq_true_1 in Hc as ->; repeat split; done.
Qed.
Lemma space_facts c : is_space c = true → number_char c = false ∧ is_ident c = false.
Proof. destruct c as [[] [] [] [] [] [] [] []]; vm_compute; done. Qed.
Lemma follow_solid rest : follow rest → none_next is_space rest.
Proof. destruct rest; [done|]. apply closing_facts. Qed.
Lemma none_next_app f g rest :
  (∀ c, is_space c = true ∨ closing c = true → f c = false) → spaces g → follow rest → none_next f (g ++ rest).
Proof. intros Hf Hg Hr. destruct Hg as [|c g Hc Hg]; cbn; [|by apply Hf; left]. destruct rest; [done|]. by apply Hf; right. Qed.
Lemma starts_solid t rest : starts t → none_next is_space (t ++ rest).
Proof. destruct t; [done|]. by intros []. Qed.

Section roundtrip.
Context (input gap : text) (Hgap : spaces gap).

(** What is left of the input. *)
Definition sees (pos : nat) (l : text) : Prop := drop pos input = l.
Lemma sees_app pos l k : sees pos (l ++ k) → sees (pos + length l) k.
Proof. unfold sees. intros Hs. rewrite <- drop_drop, Hs. apply drop_app_length. Qed.
Lemma sees_cons pos c l : sees pos (c :: l) → input !! pos = Some c ∧ sees (S pos) l.
Proof.
  unfold sees. intros Hs. split.
  - rewrite <- (Nat.add_0_r pos), <- lookup_drop, Hs. done.
  - rewrite <- Nat.add_1_r, <- drop_drop, Hs. done.
Qed.
Lemma sees_at pos c l : sees pos (c :: l) → input !! pos = Some c.
Proof. apply sees_cons. Qed.
Lemma sees_S pos c l : sees pos (c :: l) → sees (S pos) l.
Proof. apply sees_cons. Qed.
Lemma sees_length pos l : sees pos l → length l ≤ length input - pos.
Proof. unfold sees. intros <-. by rewrite length_drop. Qed.

Lemma skip_run f pos l rest : sees pos (l ++ rest) → Forall (λ c, f c = true) l → none_next f rest →
  skip_while f (drop pos input) pos = pos + length l.
Proof.
  unfold sees. intros -> Hl Hr. revert pos. induction Hl as [|c l Hc Hl IH]; intros pos; cbn.
  - rewrite Nat.add_0_r. destruct rest as [|c rest]; [done|]. cbn in *. by rewrite Hr.
  - rewrite Hc, IH. lia.
Qed.
Lemma ws_gap pos g l : sees pos (g ++ l) → spaces g → none_next is_space l → ws input pos = pos + length g.
Proof. intros. by eapply skip_run. Qed.
Lemma ws_solid pos l : sees pos l → none_next is_space l → ws input pos = pos.
Proof. intros Hs Hl. rewrite (ws_gap pos [] l); [simpl; lia|done|constructor|done]. Qed.

Lemma to_of_string s : to_string (of_string s) = s.
Proof. apply String.string_of_list_ascii_of_string. Qed.

Lemma identifier_run pos m rest :
  sees pos (of_string m ++ rest) → m ≠ "" → Forall (λ c, is_ident c = true) (of_string m) → none_next is_ident rest →
  parseIdentifier input pos = (Ok m, pos + length (of_string m)).
Proof.
  intros Hs Hm Hi Hr. assert (none_next is_space (of_string m ++ rest)) as Hsolid.
  { destruct m as [|c m]; [done|]. cbn in *. apply Forall_cons in Hi as [Hc _].
    destruct (is_space c) eqn:E; [|done]. apply space_facts in E as [_ E]. congruence. }
  unfold parseIdentifier. rewrite run_ws, run_get, run_skip, run_get. rewrite (ws_solid _ _ Hs Hsolid).
  rewrite (skip_run _ _ _ _ Hs Hi Hr). rewrite bool_decide_eq_false_2; [|destruct m; [done|simpl; lia]].
  rewrite run_since. unfold slice. rewrite Hs. replace (pos + length (of_string m) - pos) with (length (of_string m)) by lia.
  rewrite take_app_length, to_of_string. done.
Qed.

(** *** Strings *)

Lemma string_run fuel acc pos s rest :
  sees pos (escape s ++ dquote :: rest) → length (escape s) < fuel →
  string_loop input fuel acc pos = (Ok (to_string (reverse acc ++ s)), pos + S (length (escape s))).
Proof.
  revert acc pos s. induction fuel as [|fuel IH]; intros acc pos s Hs Hf; [lia|]. cbn [string_loop]. rewrite run_get.
  unfold at_pos. destruct s as [|c s]; cbn [escape] in *.
  - rewrite (sees_at _ _ _ Hs). rewrite bool_decide_eq_false_2 by done. rewrite bool_decide_eq_true_2 by done.
    rewrite run_put. rewrite app_nil_r. by rewrite <- Nat.add_1_r.
  - case_bool_decide as Hc; cbn in Hs, Hf |- *.
    + rewrite (sees_at _ _ _ Hs), bool_decide_eq_true_2 by done. apply sees_S in Hs. rewrite run_put, (sees_at _ _ _ Hs), run_put.
      apply sees_S in Hs.
      assert ((if bool_decide (c = dquote) then c :: acc else if bool_decide (c = backslash) then c :: acc
        else if bool_decide (c = "n"%char) then ascii_of_nat 10 :: acc else if bool_decide (c = "t"%char) then ascii_of_nat 9 :: acc
        else if bool_decide (c = "r"%char) then ascii_of_nat 13 :: acc else c :: backslash :: acc) = c :: acc) as ->.
      { destruct Hc as [-> | ->]; done. }
      rewrite (IH _ _ s Hs) by lia. rewrite reverse_cons, <- app_assoc. f_equal. lia.
    + rewrite (sees_at _ _ _ Hs), bool_decide_eq_false_2 by tauto. rewrite bool_decide_eq_false_2 by tauto.
      apply sees_S in Hs. rewrite run_put, (IH _ _ s Hs) by lia. rewrite reverse_cons, <- app_assoc. f_equal. lia.
Qed.
Lemma quoted_run pos s rest : sees pos (quoted s ++ rest) →
  parseString input pos = (Ok s, pos + length (quoted s)).
Proof.
  unfold quoted. intros Hs. cbn in Hs. rewrite <- app_assoc in Hs. cbn in Hs. unfold parseString.
  rewrite (run_advance _ _ _ _ (sees_at _ _ _ Hs)). apply sees_S in Hs.
  rewrite (string_run _ _ _ _ _ Hs); [|apply sees_length in Hs; rewrite length_app in Hs; unfold parse_fuel; lia].
  rewrite reverse_nil. cbn [app length]. rewrite to_of_string, length_app. f_equal. simpl. lia.
Qed.

(** *** Values and what follows them *)

(** The parser reads the text [t] as [v]; it may read white space after it. *)
Definition reads (p : M nat GoVal) (t : text) (v : GoVal) : Prop :=
  starts t ∧ ∀ pos g rest, sees pos (t ++ g ++ rest) → spaces g → follow rest →
    ∃ pos', p pos = (Ok v, pos') ∧ pos + length t ≤ pos' ∧ ws input pos' = pos + length t + length g.

(** A character that is next is the one that [peek] sees. *)
Lemma at_next pos c rest : sees pos (c :: rest) → is_space c = false → ws input pos = pos ∧ input !! pos = Some c.
Proof. intros Hs Hc. split; [by apply (ws_solid _ _ Hs)|by eapply sees_at]. Qed.
Lemma peeks_eq c : peeks (Some c) c = true.
Proof. unfold peeks. by apply bool_decide_eq_true_2. Qed.
Lemma peeks_ne c d : c ≠ d → peeks (Some c) d = false.
Proof. intros Hc. unfold peeks. apply bool_decide_eq_false_2. congruence. Qed.

Lemma expect_run {B} c (f : () → M nat B) pos rest : sees pos (c :: rest) → is_space c = false →
  (ignore_err (expect input c) ≫= f) pos = f () (S pos).
Proof.
  intros Hs Hc. destruct (at_next _ _ _ Hs Hc) as [Hw Ha].
  unfold ignore_err, mbind, M_mbind, M_bind. unfold expect. rewrite run_ws, run_get, Hw. unfold at_pos. rewrite Ha.
  by rewrite bool_decide_eq_true_2 by done.
Qed.

Section elements.
Context (argValue : M nat GoVal).

Lemma separated_cons t ts : ts ≠ [] → separated gap (t :: ts) = gap ++ t ++ gap ++ ","%char :: separated gap ts.
Proof. by destruct ts. Qed.

Lemma values_run c rest : closing c = true → c ≠ ","%char → ∀ ts vs, Forall2 (reads argValue) ts vs → ts ≠ [] →
  ∀ fuel acc pos, sees pos (separated gap ts ++ c :: rest) → length ts ≤ fuel →
  values_loop input argValue fuel acc pos = (Ok (acc ++ vs), pos + length (separated gap ts)).
Proof.
  intros Hc Hcomma ts vs Hts. induction Hts as [|t v ts vs [Hst Hr] Hts IH]; [done|]. intros _ [|fuel] acc pos Hs Hf; [simpl in Hf; lia|].
  cbn [values_loop]. rewrite run_ws.
  assert (∀ k, sees pos (gap ++ t ++ gap ++ k) → follow k → ∃ pos', 
    (v ← argValue; skipWhitespace input;; ch ← peek input;
     if peeks ch "," then advance input;; values_loop input argValue fuel (acc ++ [v]) else mret (acc ++ [v])) (ws input pos) =
    (let q := pos + length gap + length t + length gap in
     if peeks (input !! q) "," then advance input;; values_loop input argValue fuel (acc ++ [v]) else mret (acc ++ [v])) pos'
    ∧ pos' = pos + length gap + length t + length gap ∧ sees pos' k) as Hstep.
  { intros k Hk Hfo. rewrite (ws_gap _ _ _ Hk Hgap) by (by apply starts_solid). apply sees_app in Hk.
    destruct (Hr _ _ _ Hk Hgap Hfo) as (pos' & Hrun & _ & Hws). mstep Hrun. rewrite run_ws, run_peek, ws_idem, Hws.
    eexists. split; [done|]. split; [done|]. apply sees_app in Hk. by apply sees_app in Hk. }
  destruct (decide (ts = [])) as [->|Hne].
  - inversion Hts; subst. cbn [separated] in *. rewrite <- !app_assoc in Hs.
    destruct (Hstep (c :: rest) Hs Hc) as (q & -> & -> & Hq). cbv zeta. rewrite (sees_at _ _ _ Hq), (peeks_ne _ _ Hcomma).
    rewrite !length_app. f_equal. lia.
  - rewrite (separated_cons _ _ Hne) in *. rewrite <- !app_assoc in Hs. cbn [app] in Hs.
    destruct (Hstep _ Hs) as (q & -> & -> & Hq); [done|]. cbv zeta. rewrite (sees_at _ _ _ Hq), peeks_eq.
    rewrite (run_advance _ _ _ _ (sees_at _ _ _ Hq)). apply sees_S in Hq. simpl in Hf.
    rewrite (IH Hne _ _ _ Hq) by lia. rewrite <- app_assoc. cbn [app]. rewrite !length_app. cbn [length].
    f_equal. lia.
Qed.
Lemma values_ws fuel acc pos :
  values_loop input argValue (S fuel) acc (ws input pos) = values_loop input argValue (S fuel) acc pos.
Proof. cbn [values_loop]. by rewrite !run_ws, ws_idem. Qed.
Lemma separated_length ts vs : Forall2 (reads argValue) ts vs → length ts ≤ length (separated gap ts).
Proof.
  induction 1 as [|t v ts vs [Hst _] Hts IH]; [simpl; lia|]. destruct t as [|c t]; [done|].
  destruct ts as [|t' ts]; [cbn; rewrite length_app; simpl; lia|]. rewrite separated_cons by done.
  rewrite !length_app. simpl in *. lia.
Qed.
(** The first character after the gap, when there are values. *)
Lemma separated_next t ts rest : ∃ k, separated gap (t :: ts) ++ rest = gap ++ t ++ k.
Proof. destruct ts; cbn; eexists; rewrite <- !app_assoc; done. Qed.

(** Between brackets. *)
Lemma brackets_run {A} (close : ascii) (f : list GoVal → A) ts vs pos rest :
  Forall2 (reads argValue) ts vs → closing close = true → close ≠ ","%char →
  sees pos (separated gap ts ++ close :: rest) →
  (skipWhitespace input;; c ← peek input;
   if peeks c close then advance input;; mret (f [])
   else l ← values_loop input argValue (parse_fuel input) []; ignore_err (expect input close);; mret (f l)) pos =
  (Ok (f vs), pos + length (separated gap ts) + 1).
Proof.
  intros Hts Hcl Hcm Hs. pose proof (closing_facts _ Hcl) as (Hsp & _).
  rewrite run_ws, run_peek, ws_idem.
  destruct Hts as [|t v ts vs [Hst Hr] Hts].
  - cbn [separated] in *. assert (ws input pos = pos + length gap) as -> by (by apply (ws_gap _ _ _ Hs)).
    apply sees_app in Hs. rewrite (sees_at _ _ _ Hs), peeks_eq, (run_advance _ _ _ _ (sees_at _ _ _ Hs)).
    f_equal. lia.
  - set (all := t :: ts) in *. assert (Forall2 (reads argValue) all (v :: vs)) as Hall by (by constructor).
    destruct (separated_next t ts (close :: rest)) as [k Hk]. fold all in Hk.
    assert (ws input pos = pos + length gap) as Hws.
    { rewrite Hk in Hs. apply (ws_gap _ _ _ Hs Hgap). by apply starts_solid. }
    assert (peeks (input !! ws input pos) close = false) as ->.
    { rewrite Hws. rewrite Hk in Hs. apply sees_app in Hs. destruct t as [|c t]; [done|]. destruct Hst as [_ Hst]. cbn in Hs.
      rewrite (sees_at _ _ _ Hs). apply peeks_ne. intros ->. congruence. }
    assert (values_loop input argValue (parse_fuel input) [] (ws input pos) = (Ok (v :: vs), pos + length (separated gap all))) as Hrun.
    { unfold parse_fuel. rewrite values_ws. apply (values_run close rest Hcl Hcm all (v :: vs) Hall); [done|done|].
      pose proof (separated_length _ _ Hall). apply sees_length in Hs. rewrite length_app in Hs. simpl in *. lia. }
    mstep Hrun. apply sees_app in Hs. rewrite (expect_run _ _ _ _ Hs Hsp). f_equal. lia.
Qed.

Lemma array_run ts vs pos rest : Forall2 (reads argValue) ts vs →
  sees pos ("["%char :: separated gap ts ++ "]"%char :: rest) →
  parseArray input argValue pos = (Ok (VSlice vs), pos + (2 + length (separated gap ts))).
Proof.
  intros Hts Hs. unfold parseArray. rewrite (run_advance _ _ _ _ (sees_at _ _ _ Hs)). apply sees_S in Hs.
  rewrite (brackets_run "]" VSlice ts vs _ rest Hts) by done. f_equal. lia.
Qed.
Lemma args_run ts vs pos rest : Forall2 (reads argValue) ts vs → sees pos (print_args gap ts ++ rest) →
  parseArgList input argValue pos = (Ok vs, pos + length (print_args gap ts)).
Proof.
  unfold print_args. intros Hts Hs. rewrite <- !app_assoc in Hs. cbn [app] in Hs. rewrite <- !app_assoc in Hs.
  unfold parseArgList. rewrite run_ws, run_peek, run_get, ws_idem.
  rewrite (ws_gap _ _ _ Hs Hgap) by done. apply sees_app in Hs. rewrite (sees_at _ _ _ Hs), peeks_eq. cbn [negb].
  rewrite (run_advance _ _ _ _ (sees_at _ _ _ Hs)). apply sees_S in Hs. cbn [app] in Hs.
  rewrite (brackets_run ")" (λ l, l) ts vs _ rest Hts) by done. f_equal. rewrite length_app. cbn [length].
  rewrite length_app. cbn [length]. lia.
Qed.

(** The fields of an object. *)
Definition reads_field (kt : string * text) (kv : string * GoVal) : Prop := kt.1 = kv.1 ∧ reads argValue kt.2 kv.2.
Lemma field_starts kt : starts (print_field gap kt).
Proof. unfold print_field, quoted. by split. Qed.
Lemma key_run pos k rest : sees pos (quoted k ++ rest) → parseKey input pos = (Ok k, pos + length (quoted k)).
Proof.
  intros Hs. unfold parseKey. rewrite run_peek. unfold quoted in Hs. cbn [app] in Hs.
  destruct (at_next _ _ _ Hs) as [-> Ha]; [done|]. rewrite Ha, peeks_eq. by apply (quoted_run pos k rest).
Qed.
Lemma field_run {B} kt kv k pos (f : string → GoVal → M nat B) : reads_field kt kv →
  sees pos (gap ++ print_field gap kt ++ gap ++ k) → follow k → ∃ pos',
  (key ← wrap_err "expected object key" (parseKey input); skipWhitespace input;; ignore_err (expect input ":");;
   skipWhitespace input;; v ← argValue; skipWhitespace input;; f key v) (ws input pos) = f kv.1 kv.2 pos' ∧
  pos' = pos + length gap + length (print_field gap kt) + length gap ∧ sees pos' k.
Proof.
  destruct kt as [key t], kv as [key' v]. intros [Hkey [Hst Hr]] Hs Hk. cbn in Hkey, Hst, Hr. subst key'. cbn [fst snd].
  rewrite (ws_gap _ _ _ Hs Hgap) by (apply (starts_solid (print_field gap (key, t))), field_starts). apply sees_app in Hs.
  unfold print_field in *. cbn [fst snd] in *. rewrite <- !app_assoc in Hs. cbn [app] in Hs. rewrite <- !app_assoc in Hs.
  mstep (wrap_err_ok "expected object key" _ _ _ _ (key_run _ _ _ Hs)). apply sees_app in Hs. rewrite run_ws.
  rewrite (ws_gap _ _ _ Hs Hgap) by done. apply sees_app in Hs. rewrite (expect_run _ _ _ _ Hs) by done.
  apply sees_S in Hs. rewrite run_ws, (ws_gap _ _ _ Hs Hgap) by (by apply starts_solid). apply sees_app in Hs.
  destruct (Hr _ _ _ Hs Hgap Hk) as (pos' & Hrun & _ & Hws). mstep Hrun. rewrite run_ws, Hws.
  eexists. split; [done|]. split; [|by do 2 apply sees_app in Hs].
  rewrite !length_app. cbn [length]. rewrite length_app. lia.
Qed.

Lemma fields_run rest : ∀ kts kvs, Forall2 reads_field kts kvs → kts ≠ [] →
  ∀ fuel acc pos, sees pos (separated gap (print_field gap <$> kts) ++ "}"%char :: rest) → length kts ≤ fuel →
  fields_loop input argValue fuel acc pos =
    (Ok (foldl (λ acc kv, vmap_set kv.1 kv.2 acc) acc kvs), pos + length (separated gap (print_field gap <$> kts))).
Proof.
  intros kts kvs Hkts. induction Hkts as [|kt kv kts kvs Hkv Hkts IH]; [done|]. intros _ [|fuel] acc pos Hs Hf; [simpl in Hf; lia|].
  cbn [fields_loop]. rewrite run_ws.
  destruct (decide (kts = [])) as [->|Hne].
  - inversion Hkts; subst. cbn [separated fmap list_fmap] in *. rewrite <- !app_assoc in Hs.
    destruct (field_run kt kv _ pos (λ key v, c ← peek input;
      if peeks c "," then advance input;; fields_loop input argValue fuel (vmap_set key v acc) else mret (vmap_set key v acc)) Hkv Hs)
      as (q & -> & -> & Hq); [done|]. rewrite run_peek. destruct (at_next _ _ _ Hq) as [-> ->]; [done|].
    rewrite peeks_ne by done. cbn [foldl]. rewrite !length_app. unfold mret, M_mret. f_equal. lia.
  - rewrite fmap_cons in *. rewrite separated_cons in * by (by destruct kts). rewrite <- !app_assoc in Hs. cbn [app] in Hs.
    destruct (field_run kt kv _ pos (λ key v, c ← peek input;
      if peeks c "," then advance input;; fields_loop input argValue fuel (vmap_set key v acc) else mret (vmap_set key v acc)) Hkv Hs)
      as (q & -> & -> & Hq); [done|]. rewrite run_peek. destruct (at_next _ _ _ Hq) as [-> Ha]; [done|].
    rewrite Ha, peeks_eq, (run_advance _ _ _ _ Ha). apply sees_S in Hq. simpl in Hf.
    rewrite (IH Hne _ _ _ Hq) by lia. cbn [foldl]. rewrite !length_app. cbn [length]. f_equal. lia.
Qed.
Lemma fields_length kts : length kts ≤ length (separated gap (print_field gap <$> kts)).
Proof.
  induction kts as [|kt kts IH]; [simpl; lia|]. rewrite fmap_cons. pose proof (field_starts kt) as Hst.
  destruct (print_field gap kt) as [|c t]; [done|].
  destruct kts as [|kt' kts]; [cbn; rewrite length_app; simpl; lia|]. rewrite separated_cons by done.
  rewrite !length_app. simpl in *. lia.
Qed.
Lemma object_run kts kvs pos rest : Forall2 reads_field kts kvs →
  sees pos ("{"%char :: separated gap (print_field gap <$> kts) ++ "}"%char :: rest) →
  parseObject input argValue pos = (Ok (VMap (foldl (λ acc kv, vmap_set kv.1 kv.2 acc) [] kvs)),
    pos + (2 + length (separated gap (print_field gap <$> kts)))).
Proof.
  intros Hkts Hs. unfold parseObject. rewrite (run_advance _ _ _ _ (sees_at _ _ _ Hs)). apply sees_S in Hs.
  rewrite run_ws, run_peek, ws_idem. destruct Hkts as [|kt kv kts kvs Hkv Hkts].
  - cbn [separated fmap list_fmap] in *. rewrite (ws_gap _ _ _ Hs Hgap) by done. apply sees_app in Hs.
    rewrite (sees_at _ _ _ Hs), peeks_eq, (run_advance _ _ _ _ (sees_at _ _ _ Hs)). f_equal. lia.
  - set (all := kt :: kts) in *. assert (Forall2 reads_field all (kv :: kvs)) as Hall by (by constructor).
    destruct (separated_next (print_field gap kt) (print_field gap <$> kts) ("}"%char :: rest)) as [k Hk].
    assert (ws input (S pos) = S pos + length gap ∧ peeks (input !! (S pos + length gap)) "}" = false) as [Hws Hpk].
    { change (print_field gap <$> all) with (print_field gap kt :: (print_field gap <$> kts)) in Hs. rewrite Hk in Hs.
      split; [apply (ws_gap _ _ _ Hs Hgap), starts_solid, field_starts|]. apply sees_app in Hs. unfold print_field, quoted in Hs.
      cbn [app] in Hs. rewrite (sees_at _ _ _ Hs). done. }
    rewrite Hws, Hpk.
    assert (fields_loop input argValue (parse_fuel input) [] (S pos + length gap) =
      (Ok (foldl (λ acc kv, vmap_set kv.1 kv.2 acc) [] (kv :: kvs)), S pos + length (separated gap (print_field gap <$> all)))) as Hrun.
    { rewrite <- Hws. unfold parse_fuel.
      assert (fields_loop input argValue (S (length input)) [] (ws input (S pos)) = fields_loop input argValue (S (length input)) [] (S pos)) as ->
        by (cbn [fields_loop]; by rewrite !run_ws, ws_idem).
      apply (fields_run rest all (kv :: kvs) Hall); [done|done|].
      pose proof (fields_length all). apply sees_length in Hs. rewrite length_app in Hs. simpl in *. lia. }
    mstep Hrun. apply sees_app in Hs. rewrite (expect_run _ _ _ _ Hs) by done. f_equal. lia.
Qed.

(** *** Chains *)

Lemma none_next_gap f g c k :
  spaces g → (∀ c, is_space c = true → f c = false) → f c = false → none_next f (g ++ c :: k).
Proof. intros Hg Hf Hc. destruct Hg as [|d g Hd Hg]; [done|]. by apply Hf. Qed.

Definition reads_call (c : string * list text) (v : string * list GoVal) : Prop :=
  c.1 = v.1 ∧ good_method c.1 = true ∧ Forall2 (reads argValue) c.2 v.2.

Lemma good_method_ident m : good_method m = true → m ≠ "" ∧ Forall (λ c, is_ident c = true) (of_string m).
Proof.
  unfold good_method. intros Hm%bool_decide_eq_true_1.
  assert (∀ l, method_term m l ≠ 0%Z → forallb (λ e : string * Z, bool_decide (e.1 ≠ "") && forallb is_ident (of_string e.1)) l = true →
    m ≠ "" ∧ forallb is_ident (of_string m) = true) as Hl.
  { induction l as [|[n t] l IH]; [done|]. cbn [method_term forallb fst]. intros Hn [He Hall]%andb_prop.
    destruct (bool_decide_reflect (n = m)) as [<-|]; [|by apply IH]. apply andb_prop in He as [He Hi].
    by apply bool_decide_eq_true_1 in He. }
  destruct (Hl methodToTerm Hm) as [Hne Hi]; [vm_compute; reflexivity|]. split; [done|].
  by apply forallb_Forall.
Qed.

(** A method and its arguments. *)
Lemma method_ident m ts pos rest : good_method m = true → sees pos (gap ++ of_string m ++ print_args gap ts ++ rest) →
  ws input pos = pos + length gap ∧
  parseIdentifier input (pos + length gap) = (Ok m, pos + length gap + length (of_string m)) ∧
  sees (pos + length gap + length (of_string m)) (print_args gap ts ++ rest).
Proof.
  intros Hm Hs. destruct (good_method_ident m Hm) as [Hne Hi]. split; [|split].
  - apply (ws_gap _ _ _ Hs Hgap). destruct m as [|c m]; [done|]. cbn in *. apply Forall_cons in Hi as [Hc _].
    destruct (is_space c) eqn:E; [|done]. apply space_facts in E as [_ E]. congruence.
  - apply sees_app in Hs. apply (identifier_run _ _ _ Hs); try done. unfold print_args. rewrite <- app_assoc. cbn [app].
    apply none_next_gap; [done| |done]. intros c Hc. by apply space_facts.
  - by do 2 apply sees_app in Hs.
Qed.

Lemma chain_run cs vs : Forall2 reads_call cs vs → ∀ fuel term pos g rest,
  sees pos (mjoin (print_call gap <$> cs) ++ g ++ rest) → spaces g → follow rest → length cs < fuel →
  ∃ pos', chain_loop input argValue fuel term pos = (Ok (VSlice (foldl call_value term vs)), pos') ∧
    pos + length (mjoin (print_call gap <$> cs)) ≤ pos' ∧
    ws input pos' = pos + length (mjoin (print_call gap <$> cs)) + length g.
Proof.
  induction 1 as [|[m ts] [m' args] cs vs Hc Hcs IH]; intros [|fuel] term pos g rest Hs Hg Hfo Hf; try (simpl in Hf; lia).
  - cbn [chain_loop fmap list_fmap mjoin list_join app length] in *. rewrite run_peek.
    assert (ws input pos = pos + length g) as Hws by (by apply (ws_gap _ _ _ Hs Hg), follow_solid). rewrite Hws.
    apply sees_app in Hs. assert (peeks (input !! (pos + length g)) "." = false) as ->.
    { destruct rest as [|c rest].
      - unfold sees in Hs. assert (input !! (pos + length g) = None) as ->; [|done].
        apply lookup_ge_None. apply (f_equal length) in Hs. rewrite length_drop in Hs. simpl in Hs. lia.
      - rewrite (sees_at _ _ _ Hs). apply peeks_ne. by apply closing_facts. }
    exists (pos + length g). split; [done|]. split; [lia|]. rewrite <- Hws, ws_idem. lia.
  - destruct Hc as (Heq & Hgm & Hts). cbn in Heq, Hgm, Hts. subst m'. cbn [chain_loop fmap list_fmap mjoin list_join] in *.
    set (tail := mjoin (print_call gap <$> cs)) in *. unfold print_call in Hs. cbn [fst snd] in Hs.
    rewrite <- !app_assoc in Hs. cbn [app] in Hs. rewrite <- !app_assoc in Hs.
    rewrite run_peek, (ws_gap _ _ _ Hs Hgap) by done. apply sees_app in Hs.
    rewrite (sees_at _ _ _ Hs), peeks_eq, (run_advance _ _ _ _ (sees_at _ _ _ Hs)). apply sees_S in Hs.
    destruct (method_ident m ts _ (tail ++ g ++ rest) Hgm Hs) as (Hw & Hid & Hs1).
    rewrite run_ws, Hw. mstep Hid. mstep (args_run _ _ _ _ Hts Hs1).
    rewrite bool_decide_eq_false_2 by (unfold good_method in Hgm; by apply bool_decide_eq_true_1 in Hgm).
    assert (sees (S (pos + length gap) + length gap + length (of_string m) + length (print_args gap ts)) (tail ++ g ++ rest)) as Hs2
      by (by apply sees_app in Hs1).
    destruct (IH fuel (call_value term (m, args)) _ g rest Hs2 Hg Hfo) as (pos' & Hr & Hle & Hws); [simpl in Hf; lia|].
    exists pos'. split; [exact Hr|]. unfold print_call. cbn [fst snd]. fold tail in Hws, Hle |- *.
    rewrite !length_app. cbn [length]. rewrite !length_app. split; lia.
Qed.
Lemma calls_length (cs : list (string * list text)) : length cs ≤ length (mjoin (print_call gap <$> cs)).
Proof.
  induction cs as [|c cs IH]; [simpl; lia|]. rewrite fmap_cons.
  change (mjoin (print_call gap c :: (print_call gap <$> cs))) with (print_call gap c ++ mjoin (print_call gap <$> cs)).
  unfold print_call at 1. rewrite !length_app. cbn [length]. lia.
Qed.

Lemma rchain_run m ts args cs vs pos g rest :
  good_method m = true → Forall2 (reads argValue) ts args → Forall2 reads_call cs vs →
  let t := of_string "r." ++ gap ++ of_string m ++ print_args gap ts ++ mjoin (print_call gap <$> cs) in
  sees pos (t ++ g ++ rest) → spaces g → follow rest → ∃ pos',
    parseRChain input argValue pos =
      (Ok (VSlice (foldl call_value (VInt (method_term m methodToTerm) :: args) vs)), pos') ∧
    pos + length t ≤ pos' ∧ ws input pos' = pos + length t + length g.
Proof.
  intros Hm Hts Hcs t Hs Hg Hfo. unfold t in *. rewrite <- !app_assoc in Hs. apply sees_app in Hs.
  set (tail := mjoin (print_call gap <$> cs)) in *.
  change (pos + length (of_string "r.")) with (pos + 2) in Hs.
  unfold parseRChain. rewrite (bind_ok _ _ pos () (pos + 2) eq_refl).
  destruct (method_ident m ts _ (tail ++ g ++ rest) Hm Hs) as (Hw & Hid & Hs1). rewrite run_ws, Hw.
  mstep (wrap_err_ok "expected method name after 'r.'" _ _ _ _ Hid). mstep (args_run _ _ _ _ Hts Hs1).
  rewrite bool_decide_eq_false_2 by (unfold good_method in Hm; by apply bool_decide_eq_true_1 in Hm).
  apply sees_app in Hs1.
  destruct (chain_run cs vs Hcs (parse_fuel input) (VInt (method_term m methodToTerm) :: args) _ g rest Hs1 Hg Hfo)
    as (pos' & Hr & Hle & Hws).
  { unfold parse_fuel. pose proof (calls_length cs) as Hcl. fold tail in Hcl. apply sees_length in Hs1. rewrite length_app in Hs1. lia. }
  exists pos'. split; [exact Hr|]. fold tail in Hle, Hws. rewrite !length_app. cbn [of_string String.list_ascii_of_string length].
  split; lia.
Qed.
End elements.

(** *** Expressions *)

Lemma number_run lit pos g rest :
  good_number lit = true → sees pos (lit ++ g ++ rest) → spaces g → follow rest →
  parseNumber input pos = (Ok (value (ENum lit)), pos + length lit).
Proof.
  intros Hgood Hs Hg Hfo. destruct lit as [|c l]; [done|]. cbn [good_number] in Hgood.
  apply andb_prop in Hgood as [Hgood Hnv]. apply andb_prop in Hgood as [Hc Hl].
  assert (Forall (λ c, number_char c = true) l) as Hl'.
  { by apply forallb_Forall. }
  assert (none_next number_char (g ++ rest)) as Hnn.
  { apply none_next_app; [|done..]. intros d [Hd|Hd]; [by apply space_facts|by apply closing_facts]. }
  assert (is_space c = false) as Hsp.
  { apply orb_prop in Hc as [Hc|Hc]; [by apply bool_decide_eq_true_1 in Hc as ->|].
    destruct (is_space c) eqn:E; [|done]. apply space_facts in E as [E _]. unfold number_char in E. by rewrite Hc in E. }
  destruct (at_next _ _ _ Hs Hsp) as [Hw Ha].
  unfold parseNumber. rewrite run_get, run_peek, Hw, Ha. cbn [app] in Hs.
  assert (∃ pos1, ((if peeks (Some c) "-" then advance input;; mret () else mret ()) pos) = (Ok (), pos1) ∧
    skip_while number_char (drop pos1 input) pos1 = pos + S (length l)) as (pos1 & Hr & Hsk).
  { destruct (decide (c = "-"%char)) as [->|Hne].
    - exists (S pos). rewrite peeks_eq, (run_advance _ _ _ _ Ha). split; [done|].
      rewrite (skip_run _ _ _ _ (sees_S _ _ _ Hs) Hl' Hnn). lia.
    - exists pos. rewrite peeks_ne by done. split; [done|]. apply (skip_run number_char pos (c :: l) (g ++ rest) Hs); [|done].
      constructor; [|done]. rewrite bool_decide_eq_false_2 in Hc by done. unfold number_char. cbn in Hc. by rewrite Hc. }
  mstep Hr. rewrite run_skip, Hsk, run_since. unfold slice. rewrite Hs.
  replace (pos + S (length l) - pos) with (length (c :: l)) by (simpl; lia).
  change (c :: l ++ g ++ rest) with ((c :: l) ++ g ++ rest). rewrite take_app_length. cbn [value]. unfold lift.
  by destruct (number_value (c :: l)).
Qed.
Lemma word_run w pos rest : sees pos (of_string w ++ rest) → at_word input w pos = true.
Proof.
  intros Hs. unfold at_word. apply bool_decide_eq_true_2. rewrite Hs.
  assert (String.length w = length (of_string w)) as -> by (clear; induction w; simpl; auto). apply take_app_length.
Qed.

Lemma separated_elem t ts : t ∈ ts → length t ≤ length (separated gap ts).
Proof.
  induction ts as [|u ts IH]; [by intros ?%not_elem_of_nil|]. intros Hin.
  destruct ts as [|u' ts].
  - apply list_elem_of_singleton in Hin as ->. cbn. rewrite !length_app. lia.
  - rewrite separated_cons by done. rewrite !length_app. cbn [length]. apply elem_of_cons in Hin as [->|Hin]; [lia|].
    apply IH in Hin. lia.
Qed.
Lemma list_reads p l : forallb good l = true → (∀ e, e ∈ l → good e = true → reads p (print gap e) (value e)) →
  Forall2 (reads p) (print gap <$> l) (value <$> l).
Proof.
  induction l as [|e l IH]; intros Hg Hr; [constructor|]. cbn [forallb] in Hg. apply andb_prop in Hg as [He Hg].
  constructor; [apply Hr; [by left|done]|]. apply IH; [done|]. intros e' Hin. apply Hr. by right.
Qed.

(** One level of the recursion: what [parseArgValue] reads with fuel [S n], when it reads
    shorter texts with fuel [n]. *)
Section level.
Context (n : nat).
Hypothesis IH : ∀ e, good e = true → length (print gap e) < n → reads (parseArgValue input n) (print gap e) (value e).

(** A literal that its first character gives away. *)
Lemma literal_reads pos t c k g rest (p : M nat GoVal) v : t = c :: k → is_space c = false → sees pos (t ++ g ++ rest) →
  literal input (parseArgValue input n) (Some c) = Some p ∨
  (literal input (parseArgValue input n) (Some c) = None ∧ peeks (Some c) "(" = false ∧ word_literal input (Some c) = Some p) →
  p pos = (Ok v, pos + length t) → spaces g → follow rest →
  ∃ pos', parseArgValue input (S n) pos = (Ok v, pos') ∧ pos + length t ≤ pos' ∧ ws input pos' = pos + length t + length g.
Proof.
  intros -> Hc Hs Hp Hrun Hg Hfo. destruct (at_next _ _ _ Hs Hc) as [Hw Ha].
  exists (pos + length (c :: k)). split; [|split; [done|]].
  - cbn [parseArgValue]. rewrite run_ws, run_peek, run_get, ws_idem, Hw, Ha.
    destruct Hp as [Hp|(Hp & Hparen & Hword)]; rewrite Hp; [exact Hrun|]. rewrite Hparen, Hword. exact Hrun.
  - apply sees_app in Hs. apply (ws_gap _ _ _ Hs Hg). by apply follow_solid.
Qed.

Lemma string_reads s : reads (parseArgValue input (S n)) (print gap (EStr s)) (value (EStr s)).
Proof.
  split; [done|]. intros pos g rest Hs Hg Hfo.
  eapply (literal_reads pos (quoted s) dquote _ g rest (s ← parseString input; mret (VString s))); try done; [by left|].
  by mstep (quoted_run _ _ _ Hs).
Qed.
Lemma number_reads lit : good (ENum lit) = true → reads (parseArgValue input (S n)) (print gap (ENum lit)) (value (ENum lit)).
Proof.
  intros Hgood. cbn [good] in Hgood. cbn [print] in *. destruct lit as [|c l]; [done|].
  assert (starts (c :: l) ∧ number_start (Some c) = true) as [Hst Hns].
  { cbn [good_number] in Hgood. apply andb_prop in Hgood as [Hgood _]. apply andb_prop in Hgood as [Hc _]. split; [|exact Hc].
    assert (number_char c = true ∨ c = "-"%char) as [Hnc| ->]; [|split|by split].
    - apply orb_prop in Hc as [Hc|Hc]; [right; by apply bool_decide_eq_true_1 in Hc|left; unfold number_char; by rewrite Hc].
    - destruct (is_space c) eqn:E; [|done]. apply space_facts in E as [E _]. congruence.
    - destruct (closing c) eqn:E; [|done]. apply closing_facts in E as (_ & E & _). congruence. }
  split; [done|]. intros pos g rest Hs Hg Hfo.
  eapply (literal_reads pos (c :: l) c l g rest (parseNumber input)); try done; [by destruct Hst| |by eapply number_run].
  right. unfold literal, word_literal. rewrite Hns.
  assert (∀ d, number_char d = false → d ≠ "-"%char → peeks (Some c) d = false) as Hpk.
  { intros d Hd Hdm. apply peeks_ne. intros ->. cbn in Hns. rewrite bool_decide_eq_false_2 in Hns by done.
    unfold number_char in Hd. cbn in Hns. by rewrite Hns in Hd. }
  by rewrite !Hpk.
Qed.
Lemma bool_reads b : reads (parseArgValue input (S n)) (print gap (EBool b)) (value (EBool b)).
Proof.
  split; [by destruct b|]. intros pos g rest Hs Hg Hfo. cbn [print] in Hs |- *.
  destruct b.
  + eapply (literal_reads pos (of_string "true") "t"%char _ g rest (parseBoolean input)); try done; [by right|].
    unfold parseBoolean. rewrite run_get, (word_run "true" _ _ Hs). done.
  + eapply (literal_reads pos (of_string "false") "f"%char _ g rest (parseBoolean input)); try done; [by right|].
    unfold parseBoolean. rewrite run_get, (word_run "false" _ _ Hs).
    assert (at_word input "true" pos = false) as ->; [|done].
    unfold at_word. apply bool_decide_eq_false_2. rewrite Hs. done.
Qed.
Lemma null_reads : reads (parseArgValue input (S n)) (print gap ENull) (value ENull).
Proof.
  split; [done|]. intros pos g rest Hs Hg Hfo.
  eapply (literal_reads pos (of_string "null") "n"%char _ g rest (parseNull input)); try done; [by right|].
  unfold parseNull. rewrite run_get, (word_run "null" _ _ Hs). done.
Qed.

(** The elements of a list are shorter than what it is printed in. *)
Lemma elements_read l : forallb good l = true → length (separated gap (print gap <$> l)) < n →
  Forall2 (reads (parseArgValue input n)) (print gap <$> l) (value <$> l).
Proof.
  intros Hgood Hlen. apply list_reads; [done|]. intros e Hin Hg. apply IH; [done|].
  assert (print gap e ∈ print gap <$> l) as Ht by (apply list_elem_of_fmap; by exists e). apply separated_elem in Ht. lia.
Qed.
Lemma fields_read kvs : forallb (λ kv : string * expr, good kv.2) kvs = true →
  let kts := (λ kv, (kv.1, print gap kv.2)) <$> kvs in
  length (separated gap (print_field gap <$> kts)) < n →
  Forall2 (reads_field (parseArgValue input n)) kts ((λ kv, (kv.1, value kv.2)) <$> kvs).
Proof.
  intros Hgood kts Hlen. unfold kts. apply Forall2_fmap, Forall_Forall2_diag, Forall_forall. intros [k e] Hin. split; [done|].
  cbn [fst snd]. apply IH; [rewrite forallb_forall in Hgood; by apply (Hgood (k, e)), list_elem_of_In|].
  assert (print_field gap (k, print gap e) ∈ print_field gap <$> kts) as Ht.
  { apply list_elem_of_fmap. exists (k, print gap e). split; [done|]. unfold kts. apply list_elem_of_fmap. by exists (k, e). }
  apply separated_elem in Ht. unfold print_field in Ht at 1.
  rewrite !length_app in Ht. cbn [length fst snd] in Ht. rewrite length_app in Ht. lia.
Qed.
Lemma call_length c (cs : list (string * list text)) : c ∈ cs → length (print_call gap c) ≤ length (mjoin (print_call gap <$> cs)).
Proof.
  induction cs as [|x cs IHx]; [by intros ?%not_elem_of_nil|]. intros Hin. rewrite fmap_cons.
  change (mjoin (print_call gap x :: ?l)) with (print_call gap x ++ mjoin l). rewrite length_app.
  apply elem_of_cons in Hin as [->|Hin]; [lia|]. apply IHx in Hin. lia.
Qed.
Lemma print_args_length ts : length (separated gap ts) < length (print_args gap ts).
Proof. unfold print_args. rewrite !length_app. cbn [length]. rewrite length_app. cbn. lia. Qed.
Lemma calls_read calls : forallb (λ c : string * list expr, good_method c.1 && forallb good c.2) calls = true →
  let cs := (λ c : string * list expr, (c.1, print gap <$> c.2)) <$> calls in
  length (mjoin (print_call gap <$> cs)) < n →
  Forall2 (reads_call (parseArgValue input n)) cs ((λ c : string * list expr, (c.1, value <$> c.2)) <$> calls).
Proof.
  intros Hcalls cs Hlen. unfold cs. apply Forall2_fmap, Forall_Forall2_diag, Forall_forall. intros [m as'] Hin.
  rewrite forallb_forall in Hcalls. specialize (Hcalls (m, as')). cbn [fst snd] in Hcalls.
  destruct (andb_prop _ _ (Hcalls (proj1 (list_elem_of_In _ _) Hin))) as [Hm Has]. split; [done|]. split; [done|]. cbn [fst snd].
  apply elements_read; [done|]. pose proof (print_args_length (print gap <$> as')).
  assert ((m, print gap <$> as') ∈ cs) as Hc%call_length by (apply list_elem_of_fmap; by exists (m, as')).
  unfold print_call in Hc at 1. rewrite length_app in Hc. cbn [length fst snd] in Hc. rewrite !length_app in Hc. lia.
Qed.

Lemma array_reads l : good (EArr l) = true → length (print gap (EArr l)) < S n → reads (parseArgValue input (S n)) (print gap (EArr l)) (value (EArr l)).
Proof.
  intros Hgood Hlen. cbn [print good] in *. set (ts := print gap <$> l) in *.
  assert (Forall2 (reads (parseArgValue input n)) ts (value <$> l)) as Hts.
  { apply elements_read; [done|]. cbn [length] in Hlen. rewrite length_app in Hlen. fold ts. cbn in Hlen. lia. }
  split; [done|]. intros pos g rest Hs Hg Hfo.
  eapply (literal_reads pos ("["%char :: separated gap ts ++ ["]"%char]) "["%char _ g rest (parseArray input (parseArgValue input n)));
    try done; [by left|].
  cbn [app] in Hs. rewrite <- app_assoc in Hs. cbn [app] in Hs.
  rewrite (array_run _ _ _ _ _ Hts Hs). cbn [value length]. rewrite length_app. f_equal. simpl. lia.
Qed.
Lemma object_reads kvs : good (EObj kvs) = true → length (print gap (EObj kvs)) < S n → reads (parseArgValue input (S n)) (print gap (EObj kvs)) (value (EObj kvs)).
Proof.
  intros Hgood Hlen.
  cbn [print good] in *. set (kts := (λ kv, (kv.1, print gap kv.2)) <$> kvs) in *.
  assert ((λ kv : string * expr, print_field gap (kv.1, print gap kv.2)) <$> kvs = print_field gap <$> kts) as Heq
    by (unfold kts; by rewrite <- list_fmap_compose).
  rewrite Heq in *. assert (Forall2 (reads_field (parseArgValue input n)) kts ((λ kv, (kv.1, value kv.2)) <$> kvs)) as Hkts.
  { apply fields_read; [done|]. cbn [length] in Hlen. rewrite length_app in Hlen. fold kts. cbn in Hlen. lia. }
  split; [done|]. intros pos g rest Hs Hg Hfo.
  eapply (literal_reads pos ("{"%char :: separated gap (print_field gap <$> kts) ++ ["}"%char]) "{"%char _ g rest
    (parseObject input (parseArgValue input n))); try done; [by left|].
  cbn [app] in Hs. rewrite <- app_assoc in Hs. cbn [app] in Hs.
  rewrite (object_run _ _ _ _ _ Hkts Hs). cbn [value length]. rewrite length_app. f_equal. simpl. lia.
Qed.
Lemma chain_reads m args calls : good (ECall m args calls) = true → length (print gap (ECall m args calls)) < S n →
  reads (parseArgValue input (S n)) (print gap (ECall m args calls)) (value (ECall m args calls)).
Proof.
  intros Hgood Hlen.
  cbn [good] in Hgood. apply andb_prop in Hgood as [Hgood Hcalls]. apply andb_prop in Hgood as [Hm Hargs].
  cbn [print] in *. set (ts := print gap <$> args) in *. set (cs := (λ c : string * list expr, (c.1, print gap <$> c.2)) <$> calls).
  assert ((λ c : string * list expr, print_call gap (c.1, print gap <$> c.2)) <$> calls = print_call gap <$> cs) as Heq
    by (unfold cs; by rewrite <- list_fmap_compose).
  rewrite Heq in *. rewrite !length_app in Hlen. cbn [of_string String.list_ascii_of_string length] in Hlen.
  assert (Forall2 (reads (parseArgValue input n)) ts (value <$> args)) as Hts.
  { apply elements_read; [done|]. pose proof (print_args_length ts). fold ts. lia. }
  assert (Forall2 (reads_call (parseArgValue input n)) cs ((λ c : string * list expr, (c.1, value <$> c.2)) <$> calls)) as Hcs
    by (apply calls_read; [done|]; fold cs; lia).
  split; [done|]. intros pos g rest Hs Hg Hfo.
  destruct (rchain_run _ m ts (value <$> args) cs _ pos g rest Hm Hts Hcs Hs Hg Hfo) as (pos' & Hr & Hle & Hws).
  exists pos'. split; [|done]. cbn [app of_string String.list_ascii_of_string] in Hs.
  destruct (at_next _ _ _ Hs) as [Hw Ha]; [done|]. apply sees_S, sees_at in Hs.
  cbn [parseArgValue]. rewrite run_ws, run_peek, run_get, ws_idem, Hw, Ha. cbn [literal word_literal number_start peeks].
  unfold is_at, at_pos. rewrite Hs. exact Hr.
Qed.
End level.

(** Fuel for the length of the text is enough. *)
Lemma print_reads n : ∀ e, good e = true → length (print gap e) < n → reads (parseArgValue input n) (print gap e) (value e).
Proof.
  induction n as [|n IH]; intros e Hgood Hlen; [lia|]. destruct e as [s|lit|b| |l|kvs|m args calls].
  - apply string_reads.
  - by apply number_reads.
  - apply bool_reads.
  - apply null_reads.
  - by apply array_reads.
  - by apply object_reads.
  - by apply chain_reads.
Qed.

Definition is_call (e : expr) : bool := match e with ECall _ _ _ => true | _ => false end.
(** The first character of a literal decides how it is parsed. *)
Lemma literal_first e : good e = true → is_call e = false → ∃ c k, print gap e = c :: k ∧ is_space c = false ∧
  c ≠ "("%char ∧ c ≠ "r"%char ∧ ∀ av, is_Some (literal input av (Some c)) ∨ is_Some (word_literal input (Some c)).
Proof.
  intros Hg Hc. destruct e as [s|lit|b| |l|kvs|]; try done;
    try (eexists _, _; split; [done|]; split_and!; [done..|]; intros av; left; by eexists).
  - destruct lit as [|c l]; [done|]. exists c, l. split; [done|]. cbn [good good_number] in Hg.
    apply andb_prop in Hg as [Hg _]. apply andb_prop in Hg as [Hn _].
    assert (number_start (Some c) = true) as Hns by done. split_and!.
    + destruct (is_space c) eqn:E; [|done]. apply orb_prop in Hn as [Hn|Hn]; [by apply bool_decide_eq_true_1 in Hn as ->|].
      apply space_facts in E as [E _]. unfold number_char in E. by rewrite Hn in E.
    + by intros ->.
    + by intros ->.
    + intros av. right. unfold word_literal. rewrite Hns. by eexists.
  - destruct b; eexists _, _; (split; [done|]); split_and!; try done; intros av; right; by eexists.
  - eexists _, _; split; [done|]. split_and!; try done. intros av; right; by eexists.
Qed.

Lemma expression_reads n e : good e = true → length (print gap e) ≤ n → reads (parseExpression input (S n)) (print gap e) (value e).
Proof.
  intros Hg Hlen. destruct (print_reads (S n) e Hg) as [Hst Hr]; [lia|]. split; [done|]. intros pos g rest Hs Hsp Hfo.
  destruct (Hr pos g rest Hs Hsp Hfo) as (pos' & Hrun & Hrest). exists pos'. split; [|done]. rewrite <- Hrun.
  destruct (is_call e) eqn:Hcall.
  - destruct e as [| | | | | |m args calls]; try done. cbn [print app of_string String.list_ascii_of_string] in Hs.
    destruct (at_next _ _ _ Hs) as [Hw Ha]; [done|]. apply sees_S, sees_at in Hs.
    cbn [parseExpression parseArgValue]. rewrite !run_ws, run_get, run_peek, run_get, ws_idem, Hw, Ha.
    cbn [literal word_literal number_start peeks]. unfold is_at, at_pos. by rewrite Ha, Hs.
  - destruct (literal_first e Hg Hcall) as (c & k & Hp & Hc & Hpar & Hr' & Hlit). rewrite Hp in Hs. cbn [app] in Hs.
    destruct (at_next _ _ _ Hs Hc) as [Hw Ha].
    cbn [parseExpression parseArgValue]. unfold parseLiteral. rewrite !run_ws, run_get, !run_peek, run_get, !ws_idem, Hw, Ha.
    assert (is_at input pos "r" = false) as ->.
    { unfold is_at, at_pos. rewrite Ha. apply bool_decide_eq_false_2. congruence. }
    assert (peeks (Some c) "(" = false) as E by by apply peeks_ne.
    cbn [andb]. rewrite E, run_peek, Hw, Ha, E, run_ws, run_peek, !Hw, Ha.
    destruct (literal input (parseArgValue input n) (Some c)) as [p|] eqn:El; [done|].
    destruct (Hlit (parseArgValue input n)) as [[p Hl]|[p Hl]]; [congruence|]. by rewrite Hl.
Qed.
End roundtrip.

(** *** Trimming *)

Definition visible (c : ascii) : bool := between 33 126 c.
Definition visible_ends (t : text) : Prop := ∃ c d, head t = Some c ∧ last t = Some d ∧ visible c = true ∧ visible d = true.

Lemma trim_left_visible fuel encs c l :
  forallb (λ p : text, match p with d :: _ => bool_decide (d ≠ c) | [] => false end) encs = true →
  trim_left fuel encs (c :: l) = c :: l.
Proof.
  intros He. destruct fuel; [done|]. cbn [trim_left]. assert (omap (λ p, strip_prefix p (c :: l)) encs = []) as ->; [|done].
  induction encs as [|p encs IH]; [done|]. cbn [forallb] in He. apply andb_prop in He as [Hp He].
  destruct p as [|d p]; [done|]. apply bool_decide_eq_true_1 in Hp. cbn [omap list_omap].
  assert (strip_prefix (d :: p) (c :: l) = None) as ->; [|by apply IH].
  unfold strip_prefix. rewrite bool_decide_eq_false_2; [done|]. cbn. congruence.
Qed.
Lemma visible_encodings c : visible c = true →
  forallb (λ p : text, match p with d :: _ => bool_decide (d ≠ c) | [] => false end) space_encodings = true ∧
  forallb (λ p : text, match p with d :: _ => bool_decide (d ≠ c) | [] => false end) (reverse <$> space_encodings) = true.
Proof. destruct c as [[] [] [] [] [] [] [] []]; vm_compute; done. Qed.
Lemma TrimSpace_visible t : visible_ends t → TrimSpace t = t.
Proof.
  intros (c & d & Hh & Hl & Hc & Hd). destruct t as [|c' t]; [done|]. injection Hh as ->.
  unfold TrimSpace. rewrite trim_left_visible by (by apply visible_encodings).
  apply last_Some in Hl as [t' Ht]. rewrite Ht, reverse_app. cbn [app reverse rev_append].
  change (reverse [d] ++ reverse t') with (d :: reverse t').
  rewrite trim_left_visible by (by apply visible_encodings). rewrite reverse_cons, reverse_involutive. done.
Qed.

Lemma print_visible gap e : good e = true → visible_ends (print gap e).
Proof.
  intros Hg. unfold visible_ends. destruct e as [s|lit|b| |l|kvs|m args calls].
  - exists dquote, dquote. cbn [print]. unfold quoted. split; [done|]. rewrite last_cons, last_snoc. by split_and!.
  - cbn [good print] in *. destruct lit as [|c l]; [done|]. cbn [good_number] in Hg.
    apply andb_prop in Hg as [Hg _]. apply andb_prop in Hg as [Hc Hl].
    assert (∀ c, number_char c = true → visible c = true) as Hv by (intros [[] [] [] [] [] [] [] []]; vm_compute; done).
    assert (visible c = true) as Hvc.
    { apply orb_prop in Hc as [Hc|Hc]; [by apply bool_decide_eq_true_1 in Hc as ->|apply Hv; unfold number_char; by rewrite Hc]. }
    exists c. rewrite last_cons. destruct (last l) as [d|] eqn:E; [|by exists c]. exists d. split_and!; try done. apply Hv.
    rewrite forallb_forall in Hl. apply Hl, list_elem_of_In. by apply last_Some_elem_of.
  - destruct b; eexists _, _; by split_and!.
  - eexists _, _; by split_and!.
  - exists "["%char, "]"%char. cbn [print]. rewrite last_cons, last_snoc. by split_and!.
  - exists "{"%char, "}"%char. cbn [print]. rewrite last_cons, last_snoc. by split_and!.
  - exists "r"%char, ")"%char. cbn [print]. split; [done|]. split; [|done].
    assert (∀ t, ∃ k, print_args gap t = k ++ [")"%char]) as Hargs.
    { intros t. unfold print_args. eexists (gap ++ "("%char :: separated gap t). by rewrite <- app_assoc. }
    assert (∃ k, print_args gap (print gap <$> args) ++
      mjoin ((λ c : string * list expr, print_call gap (c.1, print gap <$> c.2)) <$> calls) = k ++ [")"%char]) as [k ->].
    { destruct calls as [|c calls _] using rev_ind; [rewrite app_nil_r; apply Hargs|]. rewrite fmap_app, join_app. cbn.
      rewrite app_nil_r. unfold print_call. cbn [fst snd]. destruct (Hargs (print gap <$> c.2)) as [k ->].
      eexists. rewrite !app_assoc, app_comm_cons, !app_assoc. done. }
    rewrite !app_assoc. apply last_snoc.
Qed.

(** C18: the parser reads back what is printed: for every expression of the language
    (literals, arrays, objects and chains of calls of known methods, to any depth),
    written with any white space [gap] wherever the grammar allows it, the result is
    the term array that the expression stands for. *)
Theorem ParseReQL_print gap e :
  spaces gap → good e = true → ParseReQL (to_string (print gap e)) = Ok (value e).
Proof.
  intros Hgap Hg. unfold ParseReQL.
  assert (of_string (to_string (print gap e)) = print gap e) as -> by apply String.list_ascii_of_string_of_list_ascii.
  rewrite TrimSpace_visible by (by apply print_visible). set (input := print gap e).
  destruct (expression_reads input gap Hgap (length input) e Hg) as [Hst Hr]; [done|].
  rewrite bool_decide_eq_false_2; [|intros Hnil; fold input in Hst; by rewrite Hnil in Hst].
  destruct (Hr 0 [] []) as (pos' & Hrun & Hle & _); [unfold sees; by rewrite !app_nil_r|constructor|done|].
  unfold parse_input, parse_fuel. mstep Hrun. rewrite run_get. rewrite bool_decide_eq_false_2; [done|].
  fold input in Hle. lia.
Qed.

Lemma ParseReQL_print_witness :
  let gap := [" "%char; ascii_of_nat 10] in
  let e := ECall "table" [EStr "users"] [("filter", [EObj [("name", EStr "a"); ("tags", EArr [ENum (of_string "-2.5"); ENull])]]);
    ("limit", [ENum (of_string "3")])] in
  ParseReQL (to_string (print gap e)) = Ok (value e).
Proof.
  apply (ParseReQL_print [" "%char; ascii_of_nat 10]); [by repeat constructor|vm_compute; reflexivity].
Defined.
