(* ===== verification/Aggregations.v ===== *)
(** * Aggregations, joins and geometry (internal/reql)

    aggregations.go, joins.go and geo.go: functions over documents as Go maps, which
    no term of the evaluator calls.  A document is a finite map of values of any
    type; [fmt.Sprintf("%v", x)], the transcendental functions of [math] and the order
    of range statements are parameters.  [Near] writes into the documents it is given,
    so that its documents live in a store. *)

From S2P Require Import Prelude Bytes Order Datum Index Admin Evaluator.

(** ** Values and documents *)

Record Point := mkPoint { Latitude : float64; Longitude : float64 }.
#[local] Unset Elimination Schemes.
Inductive Any :=
| ANil | ABool (b : bool) | AFloat64 (f : float64) | AFloat32 (f : float64) | AInt (z : Z) | AInt32 (z : Z) | AInt64 (z : Z)
| AString (s : string) | APoint (p : Point) | ADatum (d : Datum) | AMap (kvs : list (string * Any)) | AOther (typename : string).
#[local] Set Elimination Schemes.
Definition Doc : Type := gmap string Any.

Class GoFmt := { sprintf_v : Any → string }.
(** The visits of a range statement, at its turn. *)
Class GroupOrder := { range_groups : nat → gmap string (list Doc) → list (string * list Doc) }.
Class GroupOrderLaws `{GroupOrder} := { range_groups_perm n m : range_groups n m ≡ₚ map_to_list m }.

(** ** aggregations.go *)

Inductive AggregationType := AggCount | AggSum | AggAvg | AggMin | AggMax | AggGroupBy.
Definition AggregationType_String (a : AggregationType) : string :=
  match a with AggCount => "count" | AggSum => "sum" | AggAvg => "avg" | AggMin => "min" | AggMax => "max" | AggGroupBy => "group_by" end.

Definition toFloat64 (value : Any) : option float64 :=
  match value with
  | AFloat64 v | AFloat32 v => Some v
  | AInt v | AInt32 v | AInt64 v => Some (float_of_Z v)
  | _ => None
  end.

Definition sum (data : list Doc) (field : string) : float64 :=
  foldl (λ s doc, match (doc : Doc) !! field with
                  | Some value => match toFloat64 value with Some n => float_add s n | None => s end
                  | None => s
                  end) (float_of_Z 0) data.
Definition avg (data : list Doc) (field : string) : float64 :=
  if bool_decide (length data = 0) then float_of_Z 0 else float_div (sum data field) (float_of_Z (Z.of_nat (length data))).

(** The loops of [min] and [max]: the value so far and its number; [better] is the
    comparison. *)
Definition extreme_step (better : float64 → float64 → bool) (field : string) (acc : option (Any * float64)) (doc : Doc) : option (Any * float64) :=
  match doc !! field with
  | None => acc
  | Some value =>
      match acc with
      | None => Some (value, default (float_of_Z 0) (toFloat64 value))
      | Some (best, bestFloat) =>
          match toFloat64 value with
          | Some n => if better n bestFloat then Some (value, n) else acc
          | None => acc
          end
      end
  end.
Definition extreme (better : float64 → float64 → bool) (data : list Doc) (field : string) : Any :=
  match foldl (extreme_step better field) None data with Some (value, _) => value | None => ANil end.
Definition min_of (data : list Doc) (field : string) : Any := extreme float_lt data field.
Definition max_of (data : list Doc) (field : string) : Any := extreme (λ n best, float_lt best n) data field.

Definition Aggregate (data : list Doc) (field : string) (aggType : AggregationType) : outcome Any :=
  match aggType with
  | AggCount => Ok (AInt (Z.of_nat (length data)))
  | AggSum => Ok (AFloat64 (sum data field))
  | AggAvg => Ok (AFloat64 (avg data field))
  | AggMin => Ok (min_of data field)
  | AggMax => Ok (max_of data field)
  | AggGroupBy => Err ("unsupported aggregation type: " +:+ AggregationType_String aggType)
  end.

Section aggregations.
Context `{GoFmt} `{GroupOrder}.

(** The text of the field of a document. *)
Definition key_of (field : string) (doc : Doc) : option string := sprintf_v <$> doc !! field.
(** The loop that appends each document to the list of its key. *)
Definition index_step (field : string) (index : gmap string (list Doc)) (doc : Doc) : gmap string (list Doc) :=
  match key_of field doc with
  | Some key => <[key := default [] (index !! key) ++ [doc]]> index
  | None => index
  end.
Definition index_by (field : string) (data : list Doc) : gmap string (list Doc) := foldl (index_step field) ∅ data.

Definition GroupBy (turn : nat) (data : list Doc) (groupField aggField : string) (aggType : AggregationType) : outcome (list Doc) :=
  mapM (λ g : string * list Doc,
    aggResult ← Aggregate g.2 aggField aggType;
    Ok (<["value" := aggResult]> {[groupField := AString g.1]} : Doc)) (range_groups turn (index_by groupField data)).

Definition distinct_step (field : string) (acc : gset string * list Any) (doc : Doc) : gset string * list Any :=
  match doc !! field with
  | Some value =>
      let key := sprintf_v value in
      if bool_decide (key ∈ acc.1) then acc else ({[key]} ∪ acc.1, acc.2 ++ [value])
  | None => acc
  end.
Definition Distinct (data : list Doc) (field : string) : list Any := (foldl (distinct_step field) (∅, []) data).2.

Fixpoint Contains (data : list Doc) (field : string) (value : Any) : bool :=
  match data with
  | [] => false
  | doc :: data' =>
      match doc !! field with
      | Some docValue => if bool_decide (sprintf_v docValue = sprintf_v value) then true else Contains data' field value
      | None => Contains data' field value
      end
  end.
Definition Reduce {A} (data : list Doc) (initial : A) (reducer : A → Doc → A) : A := foldl reducer initial data.
End aggregations.

(** ** joins.go *)

Inductive JoinType := InnerJoin | LeftOuterJoin | RightOuterJoin | FullOuterJoin.
#[global] Instance JoinType_eq_dec : EqDecision JoinType.
Proof. solve_decision. Defined.
Definition JoinType_String (j : JoinType) : string :=
  match j with InnerJoin => "inner" | LeftOuterJoin => "left_outer" | RightOuterJoin => "right_outer" | FullOuterJoin => "full_outer" end.

(** The fields with their prefixes; those of the right document are written last. *)
Definition mergeDocuments (left right : Doc) : Doc := kmap (String.append "right_") right ∪ kmap (String.append "left_") left.
Definition mergeDocumentsWithNulls (doc : Doc) (otherDocs : list Doc) : Doc :=
  match otherDocs with
  | [] => doc
  | other :: _ => doc ∪ ((λ _, ANil) <$> other)
  end.

(** [datumToMap]: the dynamic type of a document of a table is a type of datums. *)
Definition datumToMap (doc : Any) : option Doc := match doc with AMap kvs => Some (list_to_map kvs) | _ => None end.

Section joins.
Context `{GoFmt}.

Definition keeps_left (joinType : JoinType) : bool := bool_decide (joinType = LeftOuterJoin ∨ joinType = FullOuterJoin).
Definition keeps_right (joinType : JoinType) : bool := bool_decide (joinType = RightOuterJoin ∨ joinType = FullOuterJoin).
Definition left_rows (joinType : JoinType) (leftKey : string) (rightIndex : gmap string (list Doc)) (rightData : list Doc) (leftDoc : Doc) : list Doc :=
  match key_of leftKey leftDoc with
  | None => []
  | Some key =>
      let matchingRightDocs := default [] (rightIndex !! key) in
      if bool_decide (0 < length matchingRightDocs) then mergeDocuments leftDoc <$> matchingRightDocs
      else if keeps_left joinType then [mergeDocumentsWithNulls leftDoc rightData]
      else []
  end.
Definition right_rows (matchedRightKeys : gset string) (rightKey : string) (leftData : list Doc) (rightDoc : Doc) : list Doc :=
  match key_of rightKey rightDoc with
  | None => []
  | Some key => if bool_decide (key ∈ matchedRightKeys) then [] else [mergeDocumentsWithNulls rightDoc leftData]
  end.
(** [Join] after the documents of the tables were fetched. *)
Definition join_docs (leftData rightData : list Doc) (leftKey rightKey : string) (joinType : JoinType) : list Doc :=
  let rightIndex := index_by rightKey rightData in
  let results := concat (left_rows joinType leftKey rightIndex rightData <$> leftData) in
  if keeps_right joinType then
    let matchedRightKeys := foldl (λ m doc, match key_of leftKey doc with Some key => {[key]} ∪ m | None => m end) (∅ : gset string) leftData in
    results ++ concat (right_rows matchedRightKeys rightKey leftData <$> rightData)
  else results.

Context (range_order : nat → gmap string Datum → list (string * Datum)).
Definition getTableData (tableName : string) : M World (list Doc) :=
  w ← get_state;
  match w_flat w !! tableName with
  | None => fail ("table " +:+ tableName +:+ " not found")
  | Some p =>
      t ← read_table p;
      entries ← range_data range_order (t_Data t);
      mret (omap (λ e : string * Datum, datumToMap (ADatum e.2)) entries)
  end.
Definition Join (leftTable rightTable leftKey rightKey : string) (joinType : JoinType) : M World (list Doc) :=
  leftData ← wrap_err "failed to get left table" (getTableData leftTable);
  rightData ← wrap_err "failed to get right table" (getTableData rightTable);
  mret (join_docs leftData rightData leftKey rightKey joinType).
End joins.

(** ** geo.go *)

Record Circle := mkCircle { Center : Point; Radius : float64; NumVerts : Z }.
Record Line := mkLine { line_Points : list Point }.
Record Polygon := mkPolygon { polygon_Points : list Point }.
Inductive GeoOperation := GeoDistance | GeoIntersects | GeoIncludes | GeoNear.
Definition GeoOperation_String (g : GeoOperation) : string :=
  match g with GeoDistance => "distance" | GeoIntersects => "intersects" | GeoIncludes => "includes" | GeoNear => "near" end.
(** The arguments of the predicates, by their dynamic type. *)
Inductive Geometry := GPoint (p : Point) | GCircle (c : Circle) | GLine (l : Line) | GPolygon (p : Polygon) | GOther.

(** Of [math]: the functions that IEEE 754 does not fix. *)
Class GoMath := {
  math_Sin : float64 → float64; math_Cos : float64 → float64; math_Atan2 : float64 → float64 → float64; math_Pow : float64 → float64 → float64;
  math_Ceil : float64 → float64; math_Floor : float64 → float64; math_Round : float64 → float64;
}.
Definition math_Pi : float64 := S754_finite false 7074237752028440 (-51).
Definition float_le (a b : float64) : bool := SFleb a b.
Definition float_eq (a b : float64) : bool := SFeqb a b.

Section geo.
Context `{GoMath}.

Definition Abs (x : float64) : float64 := SFabs x.
Definition Ceil (x : float64) : float64 := math_Ceil x.
Definition Floor (x : float64) : float64 := math_Floor x.
Definition Round (x : float64) : float64 := math_Round x.
Definition Sqrt (x : float64) : float64 := SFsqrt 53 1024 x.
Definition Pow (x y : float64) : float64 := math_Pow x y.

Definition ToRadians (degrees : float64) : float64 := float_div (float_mul degrees math_Pi) (float_of_Z 180).
Definition ToDegrees (radians : float64) : float64 := float_div (float_mul radians (float_of_Z 180)) math_Pi.

Definition Distance (p1 p2 : Point) : float64 :=
  let two := float_of_Z 2 in
  let lat1Rad := ToRadians (Latitude p1) in
  let lat2Rad := ToRadians (Latitude p2) in
  let deltaLat := ToRadians (float_sub (Latitude p2) (Latitude p1)) in
  let deltaLon := ToRadians (float_sub (Longitude p2) (Longitude p1)) in
  let sinLat := math_Sin (float_div deltaLat two) in
  let sinLon := math_Sin (float_div deltaLon two) in
  let a := float_add (float_mul sinLat sinLat)
             (float_mul (float_mul (float_mul (math_Cos lat1Rad) (math_Cos lat2Rad)) sinLon) sinLon) in
  let c := float_mul two (math_Atan2 (Sqrt a) (Sqrt (float_sub (float_of_Z 1) a))) in
  float_mul (float_of_Z 6371000) c.

Definition Intersects (geom1 geom2 : Geometry) : bool :=
  match geom1, geom2 with
  | GPoint g1, GCircle g2 => float_le (Distance g1 (Center g2)) (Radius g2)
  | GPoint g1, GPoint g2 => float_eq (Latitude g1) (Latitude g2) && float_eq (Longitude g1) (Longitude g2)
  | GCircle g1, GPoint g2 => float_le (Distance g2 (Center g1)) (Radius g1)
  | GCircle g1, GCircle g2 => float_le (Distance (Center g1) (Center g2)) (float_add (Radius g1) (Radius g2))
  | _, _ => false
  end.
Definition Includes (geom1 geom2 : Geometry) : bool :=
  match geom1, geom2 with GCircle g1, GPoint g2 => float_le (Distance g2 (Center g1)) (Radius g1) | _, _ => false end.

(** [data] are pointers into the store of documents. *)
Definition near_step (pointField : string) (center : Point) (maxDist : float64) (acc : gmap nat Doc * list nat) (l : nat) : gmap nat Doc * list nat :=
  match acc.1 !! l ≫= (λ doc : Doc, doc !! pointField) with
  | Some (APoint point) =>
      let dist := Distance point center in
      if float_le dist maxDist then (alter (<["dist" := AFloat64 dist]>) l acc.1, acc.2 ++ [l]) else acc
  | _ => acc
  end.
Definition Near (data : list nat) (pointField : string) (center : Point) (maxDist : float64) (store : gmap nat Doc) : gmap nat Doc * list nat :=
  foldl (near_step pointField center maxDist) (store, []) data.

Definition CreatePoint (lat lon : float64) : Point := mkPoint lat lon.
Definition CreateCircle (center : Point) (radius : float64) : Circle := mkCircle center radius 0.
Definition CreateLine (points : list Point) : Line := mkLine points.
Definition CreatePolygon (points : list Point) : Polygon := mkPolygon points.

Definition ValidatePoint (p : Point) : outcome unit :=
  if float_lt (Latitude p) (float_of_Z (-90)) || float_lt (float_of_Z 90) (Latitude p) then Err "latitude must be between -90 and 90"
  else if float_lt (Longitude p) (float_of_Z (-180)) || float_lt (float_of_Z 180) (Longitude p) then Err "longitude must be between -180 and 180"
  else Ok ().
Definition ValidateCircle (c : Circle) : outcome unit :=
  ValidatePoint (Center c);;
  if float_le (Radius c) (float_of_Z 0) then Err "radius must be positive" else Ok ().
End geo.

(** ** Joins and groups as nested loops *)

Section index.
Context `{GoFmt}.

(** The documents whose field has the text [key], in their order. *)
Definition with_key (field key : string) (data : list Doc) : list Doc := filter (λ d, key_of field d = Some key) data.
Lemma with_key_snoc field key data d :
  with_key field key (data ++ [d]) = with_key field key data ++ (if decide (key_of field d = Some key) then [d] else []).
Proof. unfold with_key. rewrite filter_app. f_equal. Qed.
(** The index maps each key that occurs to its documents. *)
Lemma index_by_lookup field data key :
  index_by field data !! key = match with_key field key data with [] => None | l => Some l end.
Proof.
  induction data as [|d data IH] using rev_ind; [done|]. unfold index_by in *. rewrite foldl_app, with_key_snoc. cbn [foldl].
  unfold index_step at 1. destruct (key_of field d) as [k|] eqn:Hk; [|by rewrite decide_False, app_nil_r, IH by done].
  destruct (decide (key = k)) as [->|Hne].
  - rewrite lookup_insert_eq, decide_True by done. rewrite IH. by destruct (with_key field k data).
  - rewrite lookup_insert_ne, decide_False by congruence. by rewrite app_nil_r.
Qed.
Lemma index_by_default field data key : default [] (index_by field data !! key) = with_key field key data.
Proof. rewrite index_by_lookup. by destruct (with_key field key data). Qed.

(** The keys that occur, and the keys of the documents that have one. *)
Definition keys_of (field : string) (data : list Doc) : list string := omap (key_of field) data.
Lemma keys_of_elem field data key : key ∈ keys_of field data ↔ with_key field key data ≠ [].
Proof.
  unfold keys_of. rewrite list_elem_of_omap. split.
  - intros (d & Hd & Hk) Hnil. assert (d ∈ with_key field key data) as Hin by (by apply list_elem_of_filter). rewrite Hnil in Hin. by apply elem_of_nil in Hin.
  - destruct (with_key field key data) as [|d l] eqn:Hw; [done|]. intros _. exists d.
    assert (d ∈ with_key field key data) as Hin by (rewrite Hw; by left). by apply list_elem_of_filter in Hin as [Hk Hin].
Qed.
Lemma index_by_entries field data : map_to_list (index_by field data) ≡ₚ (λ k, (k, with_key field k data)) <$> remove_dups (keys_of field data).
Proof.
  apply NoDup_Permutation; [apply NoDup_map_to_list| |].
  - apply NoDup_fmap; [by intros a b [= ->]|apply NoDup_remove_dups].
  - intros [k l]. rewrite elem_of_map_to_list, index_by_lookup, list_elem_of_fmap. split.
    + destruct (with_key field k data) as [|d l'] eqn:Hw; [done|]. intros [= <-]. exists k. rewrite Hw. split; [done|].
      apply elem_of_remove_dups, keys_of_elem. by rewrite Hw.
    + intros (k' & [= -> ->] & Hin). apply elem_of_remove_dups, keys_of_elem in Hin. by destruct (with_key field k' data).
Qed.
Lemma matched_keys field data key :
  key ∈ foldl (λ m doc, match key_of field doc with Some k => {[k]} ∪ m | None => m end) (∅ : gset string) data ↔ key ∈ keys_of field data.
Proof.
  induction data as [|d data IH] using rev_ind; [set_solver|]. rewrite foldl_app. unfold keys_of in *. rewrite omap_app. cbn.
  destruct (key_of field d) as [k|]; [|by rewrite app_nil_r].
  rewrite elem_of_union, elem_of_singleton, elem_of_app, list_elem_of_singleton, IH. tauto.
Qed.

(** A join as a nested loop: each left document with every right document of its key,
    the left documents without a match when the join keeps them, then the right ones. *)
Definition nested_left (joinType : JoinType) (leftKey rightKey : string) (rightData : list Doc) (l : Doc) : list Doc :=
  match key_of leftKey l with
  | None => []
  | Some key =>
      match with_key rightKey key rightData with
      | [] => if keeps_left joinType then [mergeDocumentsWithNulls l rightData] else []
      | matching => mergeDocuments l <$> matching
      end
  end.
Definition unmatched (leftKey rightKey : string) (leftData : list Doc) (r : Doc) : Prop :=
  is_Some (key_of rightKey r) ∧ Forall (λ l, key_of leftKey l ≠ key_of rightKey r) leftData.
#[local] Instance unmatched_dec leftKey rightKey leftData r : Decision (unmatched leftKey rightKey leftData r).
Proof. unfold unmatched. apply _. Defined.
Definition nested_loop (leftData rightData : list Doc) (leftKey rightKey : string) (joinType : JoinType) : list Doc :=
  concat (nested_left joinType leftKey rightKey rightData <$> leftData) ++
  if keeps_right joinType then (λ r, mergeDocumentsWithNulls r leftData) <$> filter (unmatched leftKey rightKey leftData) rightData else [].

(** The rows of a join are those of a nested loop: through an index and a set of keys
    [join_docs] computes from two lists of documents the same rows, in the same order,
    as the loop over all pairs, for each of the four kinds of join.  The lists that
    [Join] passes are always empty, see [join_returns_nothing]. *)
Theorem join_is_nested_loop leftData rightData leftKey rightKey joinType :
  join_docs leftData rightData leftKey rightKey joinType = nested_loop leftData rightData leftKey rightKey joinType.
Proof.
  unfold join_docs, nested_loop. cbv zeta.
  assert (left_rows joinType leftKey (index_by rightKey rightData) rightData <$> leftData = nested_left joinType leftKey rightKey rightData <$> leftData) as ->.
  { apply list_fmap_ext. intros i l _. unfold left_rows, nested_left. destruct (key_of leftKey l) as [k|]; [|done]. cbv zeta.
    rewrite index_by_default. by destruct (with_key rightKey k rightData). }
  destruct (keeps_right joinType); [|by rewrite app_nil_r]. f_equal.
  set (matched := foldl _ _ leftData).
  assert (∀ k, k ∈ matched ↔ k ∈ keys_of leftKey leftData) as Hmatched by apply matched_keys. clearbody matched.
  induction rightData as [|r rightData IH]; [done|]. rewrite fmap_cons, filter_cons. cbn [concat].
  rewrite IH. clear IH. unfold right_rows. destruct (key_of rightKey r) as [k|] eqn:Hk.
  - case_bool_decide as Hin.
    + rewrite decide_False; [done|]. intros [_ Hall]. apply Hmatched, list_elem_of_omap in Hin as (l & Hl & Hlk).
      rewrite Forall_forall in Hall. apply (Hall l Hl). congruence.
    + rewrite decide_True; [done|]. split; [by eexists|]. apply Forall_forall. intros l Hl Heq. apply Hin, Hmatched, list_elem_of_omap.
      exists l. split; [done|]. congruence.
  - rewrite decide_False; [done|]. intros [[k' Hk'] _]. congruence.
Qed.
End index.

(** ** Aggregates *)

Section aggregates.
Context `{GoFmt} `{GroupOrderLaws}.

(** What [Aggregate] computes for the kinds it supports. *)
Definition aggregate_value (data : list Doc) (field : string) (aggType : AggregationType) : Any :=
  match Aggregate data field aggType with Ok v => v | _ => ANil end.
Definition group_row (groupField aggField : string) (aggType : AggregationType) (g : string * list Doc) : Doc :=
  <["value" := aggregate_value g.2 aggField aggType]> {[groupField := AString g.1]}.

(** Grouping partitions: for each text that the field has in some document there
    is one row, which holds the aggregate of exactly the documents with that text, in
    their order; documents without the field are in no group. *)
Theorem group_by_partitions turn data groupField aggField aggType : aggType ≠ AggGroupBy →
  ∃ rows, GroupBy turn data groupField aggField aggType = Ok rows ∧
    rows ≡ₚ (λ key, group_row groupField aggField aggType (key, with_key groupField key data)) <$> remove_dups (keys_of groupField data).
Proof.
  intros Hagg. exists (group_row groupField aggField aggType <$> range_groups turn (index_by groupField data)). split.
  - unfold GroupBy. induction (range_groups turn (index_by groupField data)) as [|g l IH]; [done|]. cbn [mapM fmap list_fmap]. rewrite IH.
    unfold group_row, aggregate_value. by destruct aggType.
  - rewrite range_groups_perm, index_by_entries, <-list_fmap_compose. done.
Qed.

(** The values of a field, and the first value of each text. *)
Definition values_of (field : string) (data : list Doc) : list Any := omap (λ d : Doc, d !! field) data.
Fixpoint first_of_each (l : list Any) : list Any :=
  match l with [] => [] | v :: l' => v :: filter (λ w, sprintf_v w ≠ sprintf_v v) (first_of_each l') end.
Lemma first_of_each_filter (P : string → Prop) `{∀ k, Decision (P k)} l :
  filter (λ w, P (sprintf_v w)) (first_of_each l) = first_of_each (filter (λ w, P (sprintf_v w)) l).
Proof.
  induction l as [|v l IH]; [done|]. cbn [first_of_each]. rewrite !filter_cons. case_decide as Hv.
  - cbn [first_of_each]. f_equal. rewrite <-IH, !list_filter_filter. apply list_filter_iff. intros w. tauto.
  - rewrite list_filter_filter, <-IH. apply list_filter_iff. intros w. split; [tauto|]. intros Hw. split; [done|]. intros Heq. by rewrite Heq in Hw.
Qed.
(** [Distinct] keeps the first value of each text, in the order of the documents. *)
Theorem distinct_keeps_first data field : Distinct data field = first_of_each (values_of field data).
Proof.
  unfold Distinct. enough (∀ seen out, (foldl (distinct_step field) (seen, out) data).2 =
    out ++ first_of_each (filter (λ w, sprintf_v w ∉ seen) (values_of field data))) as Hrun.
  { rewrite Hrun. cbn. f_equal. apply filter_all. apply Forall_forall. intros w _. set_solver. }
  induction data as [|d data IH]; intros seen out; [by rewrite app_nil_r|]. cbn [foldl]. unfold values_of in *. unfold distinct_step at 2. cbn [omap list_omap fst snd].
  destruct (d !! field) as [v|]; [|apply IH]. rewrite filter_cons. case_bool_decide as Hin.
  - rewrite decide_False by tauto. apply IH.
  - rewrite decide_True by done. rewrite IH, <-app_assoc. cbn [app first_of_each fst snd]. do 2 f_equal.
    pose proof (first_of_each_filter (λ k, k ≠ sprintf_v v)) as Hx. cbv beta in Hx. rewrite Hx, list_filter_filter. f_equal. apply list_filter_iff. intros w. set_solver.
Qed.
Lemma Contains_spec data field value : Contains data field value = true ↔ ∃ w, w ∈ values_of field data ∧ sprintf_v w = sprintf_v value.
Proof.
  unfold values_of. induction data as [|d data IH]; [cbn; set_solver|]. cbn [Contains omap list_omap]. destruct (d !! field) as [v|]; [|done].
  case_bool_decide as Hv.
  - split; [|done]. intros _. exists v. split; [by left|done].
  - rewrite IH. split; intros (w & Hw & Heq); exists w; [by split; [right|]|]. apply elem_of_cons in Hw as [-> | Hw]; done.
Qed.

(** The values are numbers, none of them NaN. *)
Definition numeric (v : Any) : Prop := ∃ n, toFloat64 v = Some n ∧ IsNaN n = false.
Definition number (v : Any) : float64 := default (float_of_Z 0) (toFloat64 v).
Lemma float_lt_cmp a b : IsNaN a = false → IsNaN b = false → float_lt a b = bool_decide (num_cmp a b = Lt).
Proof. intros Ha Hb. unfold num_cmp. rewrite Ha, Hb. destruct (float_lt a b) eqn:Hab; [done|]. by destruct (float_lt b a). Qed.
Lemma num_cmp_gt_trans a b c : num_cmp a b ≠ Gt → num_cmp b c ≠ Gt → num_cmp a c ≠ Gt.
Proof.
  intros Hab Hbc. pose proof (ord_trans _ _ order_num a b c I I I) as Ht. unfold chain3 in Ht.
  destruct (num_cmp a b), (num_cmp b c); congruence.
Qed.
Lemma num_cmp_flip a b : num_cmp b a = CompOpp (num_cmp a b).
Proof. exact (ord_antisym _ _ order_num a b I I). Qed.

(** The loop keeps a value that none seen before is better than. *)
Definition best_so_far (le : float64 → float64 → Prop) (seen : list Any) (acc : option (Any * float64)) : Prop :=
  match acc with
  | None => seen = []
  | Some (v, n) => v ∈ seen ∧ n = number v ∧ ∀ w, w ∈ seen → le n (number w)
  end.
Lemma extreme_loop (better : float64 → float64 → bool) (le : float64 → float64 → Prop) field data : ∀ seen acc,
  (∀ a b c, le a b → le b c → le a c) → (∀ a, le a a) →
  (∀ a b, IsNaN a = false → IsNaN b = false → if better a b then le a b else le b a) →
  Forall numeric seen → Forall numeric (values_of field data) → best_so_far le seen acc →
  best_so_far le (seen ++ values_of field data) (foldl (extreme_step better field) acc data).
Proof.
  induction data as [|d data IH]; intros seen acc Htrans Hrefl Hbetter Hs Hv Hacc; [by rewrite app_nil_r|]. cbn [foldl].
  unfold values_of in *. cbn [omap list_omap] in *. unfold extreme_step at 2. destruct (d !! field) as [v|]; [|by apply IH].
  apply Forall_cons in Hv as [Hnum Hv]. rewrite cons_middle, app_assoc. pose proof Hnum as (n & Hn & Hnan).
  assert (number v = n) as Hnv by (unfold number; by rewrite Hn).
  apply IH; [done|done|done|by apply Forall_app_2; [|constructor]|done|]. destruct acc as [[best bestFloat]|].
  - destruct Hacc as (Hin & -> & Hle). rewrite Hn. assert (IsNaN (number best) = false) as Hb.
    { rewrite Forall_forall in Hs. destruct (Hs best Hin) as (b & Hb & Hbn). unfold number. by rewrite Hb. }
    pose proof (Hbetter n (number best) Hnan Hb) as Hcase. destruct (better n (number best)).
    + split; [set_solver|]. split; [done|]. intros w Hw. apply elem_of_app in Hw as [Hw|Hw%list_elem_of_singleton]; [|subst w; rewrite Hnv; apply Hrefl].
      eapply Htrans; [exact Hcase|]. by apply Hle.
    + split; [set_solver|]. split; [done|]. intros w Hw. apply elem_of_app in Hw as [Hw|Hw%list_elem_of_singleton]; [by apply Hle|]. subst w. by rewrite Hnv.
  - cbn in Hacc. subst seen. cbn. rewrite Hn. cbn. split; [set_solver|]. split; [done|]. intros w Hw%list_elem_of_singleton. subst w. rewrite Hnv. apply Hrefl.
Qed.
(** [min] and [max] find the extremes of a field whose values are all numbers,
    none of them NaN: each answers with a value of the field that no other value is
    below, or above. *)
Theorem extremes_are_found data field : values_of field data ≠ [] → Forall numeric (values_of field data) →
  (min_of data field ∈ values_of field data ∧ ∀ w, w ∈ values_of field data → num_cmp (number (min_of data field)) (number w) ≠ Gt) ∧
  (max_of data field ∈ values_of field data ∧ ∀ w, w ∈ values_of field data → num_cmp (number w) (number (max_of data field)) ≠ Gt).
Proof.
  intros Hne Hnum.
  assert (∀ a b, IsNaN a = false → IsNaN b = false → if float_lt a b then num_cmp a b ≠ Gt else num_cmp b a ≠ Gt) as Hlt.
  { intros a b Ha Hb. rewrite float_lt_cmp by done. rewrite (num_cmp_flip a b). case_bool_decide as Hab; [congruence|]. by destruct (num_cmp a b). }
  assert (∀ a, num_cmp a a ≠ Gt) as Hrefl. { intros a Ha. pose proof (num_cmp_flip a a) as Hf. rewrite Ha in Hf. done. }
  split.
  - pose proof (extreme_loop float_lt (λ a b, num_cmp a b ≠ Gt) field data [] None num_cmp_gt_trans Hrefl Hlt (Forall_nil_2 _) Hnum eq_refl) as Hmin.
    unfold min_of, extreme. destruct (foldl _ None data) as [[v n]|]; [|done]. destruct Hmin as (Hin & -> & Hle). by split.
  - assert (∀ a b c, num_cmp b a ≠ Gt → num_cmp c b ≠ Gt → num_cmp c a ≠ Gt) as Htrans by (intros a b c Hab Hbc; by eapply num_cmp_gt_trans).
    assert (∀ a b, IsNaN a = false → IsNaN b = false → if float_lt b a then num_cmp b a ≠ Gt else num_cmp a b ≠ Gt) as Hgt by (intros a b Ha Hb; by apply Hlt).
    pose proof (extreme_loop (λ n best, float_lt best n) (λ a b, num_cmp b a ≠ Gt) field data [] None Htrans Hrefl Hgt (Forall_nil_2 _) Hnum eq_refl) as Hmax.
    unfold max_of, extreme. destruct (foldl _ None data) as [[v n]|]; [|done]. destruct Hmax as (Hin & -> & Hle). by split.
Qed.
End aggregates.

(** ** What the functions do not do *)

(** No document of a table is a Go map, so that no join has a row: the tables that
    [Join] looks at are those of the flat map. *)
Lemma getTableData_empty `{GoFmt} ro tn w l w' : getTableData ro tn w = (Ok l, w') → l = [].
Proof.
  unfold getTableData. intros Hrun. apply bind_inv_ok in Hrun as (w1 & w2 & _ & Hrun). destruct (w_flat w1 !! tn) as [p|]; [|done].
  apply bind_inv_ok in Hrun as (t & w3 & _ & Hrun). apply bind_inv_ok in Hrun as (entries & w4 & _ & [= <- _]).
  induction entries as [|e entries IH]; done.
Qed.
Lemma wrap_inv {S A} p (m : M S A) s a s' : wrap_err p m s = (Ok a, s') → m s = (Ok a, s').
Proof. unfold wrap_err. by destruct (m s) as [[] ?]. Qed.
(** A join has no rows: whatever the tables hold and whatever the kind of join, a
    [Join] that returns without an error returns no row. *)
Theorem join_returns_nothing `{GoFmt} ro leftTable rightTable leftKey rightKey joinType w l w' :
  Join ro leftTable rightTable leftKey rightKey joinType w = (Ok l, w') → l = [].
Proof.
  unfold Join. intros Hrun. apply bind_inv_ok in Hrun as (ld & w1 & Hl & Hrun). apply bind_inv_ok in Hrun as (rd & w2 & Hr & [= <- _]).
  apply wrap_inv, getTableData_empty in Hl as ->. apply wrap_inv, getTableData_empty in Hr as ->.
  unfold join_docs. cbn. by destruct (keeps_right joinType).
Qed.

(** A value that is no number and comes first stays: the number it is compared by is 0. *)
Lemma first_value_stays field v n (d1 d2 : Doc) : d1 !! field = Some v → toFloat64 v = None → d2 !! field = Some (AInt n) →
  float_lt (float_of_Z n) (float_of_Z 0) = false → min_of [d1; d2] field = v.
Proof. intros H1 Hv H2 Hn. unfold min_of, extreme. cbn [foldl]. unfold extreme_step. rewrite H1, Hv, H2. cbn [toFloat64 default]. by rewrite Hn. Qed.

Section near.
Context `{GoMath}.
(** A document of the store that [Near] selects. *)
Definition within (pointField : string) (center : Point) (maxDist : float64) (store : gmap nat Doc) (l : nat) : option float64 :=
  match store !! l ≫= (λ doc : Doc, doc !! pointField) with
  | Some (APoint p) => if float_le (Distance p center) maxDist then Some (Distance p center) else None
  | _ => None
  end.
(** [Near] over documents that are given once: it answers with those within the
    distance, in order, and writes the distance into exactly them. *)
Lemma near_selects data pointField center maxDist store : NoDup data →
  let '(store', results) := Near data pointField center maxDist store in
  results = filter (λ l, is_Some (within pointField center maxDist store l)) data ∧
  ∀ l, store' !! l = match within pointField center maxDist store l with
                     | Some dist => if decide (l ∈ data) then <["dist" := AFloat64 dist]> <$> store !! l else store !! l
                     | None => store !! l
                     end.
Proof.
  unfold Near. induction data as [|l data IH] using rev_ind; intros Hnd.
  - cbn. split; [done|]. intros l. destruct (within _ _ _ _ _); [|done]. rewrite decide_False; [done|apply not_elem_of_nil].
  - apply NoDup_app in Hnd as (Hnd & Hnotin & _). specialize (IH Hnd). rewrite foldl_app. cbn [foldl].
    destruct (foldl (near_step pointField center maxDist) (store, []) data) as [store1 results]. destruct IH as [-> Hstore].
    assert (l ∉ data) as Hl. { intros Hl. apply (Hnotin l Hl). by left. }
    assert (store1 !! l = store !! l) as Hsame. { rewrite Hstore. destruct (within _ _ _ _ l); [|done]. by rewrite decide_False. }
    unfold near_step. cbn [fst snd]. rewrite Hsame, filter_app, filter_cons, filter_nil.
    destruct (within pointField center maxDist store l) as [dist|] eqn:Hw.
    + assert (∃ p, store !! l ≫= (λ doc : Doc, doc !! pointField) = Some (APoint p) ∧ float_le (Distance p center) maxDist = true ∧ dist = Distance p center) as (p & Hp & Hle & ->).
      { unfold within in Hw. destruct (store !! l ≫= _) as [[]|]; try done. destruct (float_le _ _) eqn:Hle; [|done]. injection Hw as <-. by exists p. }
      rewrite Hp, Hle, decide_True by (by eexists). cbv zeta. split; [done|]. intros k. destruct (decide (k = l)) as [->|Hne].
      * rewrite lookup_alter_eq, Hsame, Hw, decide_True by set_solver. done.
      * rewrite lookup_alter_ne, Hstore by done. destruct (within _ _ _ _ k); [|done].
        destruct (decide (k ∈ data)); [by rewrite decide_True by set_solver|by rewrite decide_False by set_solver].
    + rewrite decide_False by (by intros []). rewrite app_nil_r. unfold within in Hw.
      assert (∀ k, store1 !! k = match within pointField center maxDist store k with
                     | Some dist => if decide (k ∈ data ++ [l]) then <["dist" := AFloat64 dist]> <$> store !! k else store !! k
                     | None => store !! k end) as Hk.
      { intros k. destruct (decide (k = l)) as [->|Hne].
        - rewrite Hsame. unfold within. by rewrite Hw.
        - rewrite Hstore. destruct (within _ _ _ _ k); [|done].
          destruct (decide (k ∈ data)); [by rewrite decide_True by set_solver|by rewrite decide_False by set_solver]. }
      destruct (store !! l ≫= _) as [[]|]; try by split. cbv zeta. destruct (float_le _ _); [done|]. by split.
Qed.
Lemma includes_intersects g1 g2 : Includes g1 g2 = true → Intersects g1 g2 = true.
Proof. by destruct g1, g2. Qed.
(** A point whose coordinates are not numbers is valid. *)
Lemma NaN_is_valid : ValidatePoint (mkPoint S754_nan S754_nan) = Ok ().
Proof. done. Qed.
End near.

(** ** Examples *)

#[local] Instance example_fmt : GoFmt := {
  sprintf_v v := match v with AString s => s | AInt z => pretty z | ABool true => "true" | ABool false => "false" | _ => "<nil>" end;
}.
#[local] Instance example_groups : GroupOrder := { range_groups _ := map_to_list }.
#[local] Instance example_groups_laws : GroupOrderLaws.
Proof. by split. Qed.
Definition row (city : string) (n : Z) : Doc := {["city" := AString city; "n" := AInt n]}.
Definition example_rows : list Doc := [row "rome" 3; row "oslo" 5; row "rome" 1; {["n" := AInt 9]}].
Lemma group_by_partitions_witness : ∃ rows, GroupBy 0 example_rows "city" "n" AggSum = Ok rows ∧
  rows ≡ₚ (λ key, group_row "city" "n" AggSum (key, with_key "city" key example_rows)) <$> remove_dups (keys_of "city" example_rows).
Proof. apply group_by_partitions. discriminate. Defined.
Lemma extremes_are_found_witness :
  (min_of example_rows "n" ∈ values_of "n" example_rows ∧ ∀ w, w ∈ values_of "n" example_rows → num_cmp (number (min_of example_rows "n")) (number w) ≠ Gt) ∧
  (max_of example_rows "n" ∈ values_of "n" example_rows ∧ ∀ w, w ∈ values_of "n" example_rows → num_cmp (number w) (number (max_of example_rows "n")) ≠ Gt).
Proof. apply extremes_are_found; [vm_compute; discriminate|]. vm_compute. repeat (constructor; [by eexists|]). constructor. Defined.
(** A document without the field counts for the average. *)
Example average_of_all : avg example_rows "n" = float_div (float_of_Z 18) (float_of_Z 4) ∧ avg [row "rome" 3; ∅] "n" = float_div (float_of_Z 3) (float_of_Z 2).
Proof. split; vm_compute; reflexivity. Qed.
(** The tables of a new evaluator are not in the flat map. *)
Definition flat_world : World := set_tables {[0 := NewTable "t"]} 1 (mkWorld empty_heap ∅ 0 ∅ ∅ {["t" := 0]} "test" 0).
Lemma join_returns_nothing_witness : ([] : list Doc) = [].
Proof.
  apply (join_returns_nothing (λ _, map_to_list) "t" "t" "k" "k" FullOuterJoin flat_world _ (Join (λ _, map_to_list) "t" "t" "k" "k" FullOuterJoin flat_world).2).
  vm_compute. reflexivity.
Defined.
