(* ===== verification/BTreeTable.v ===== *)
(** * Tables over the B-tree ([internal/reql/btree_table.go])

    A table of documents stored as JSON texts in a B-tree, with secondary indexes and
    change feeds.  The operations run on the table and on the heap of objects, where
    a document that is read becomes a new object.  The text of a JSON document is
    written and read by [encoding/json], a parameter of the model. *)

From S2P Require Import Prelude Bytes SortedKV Order Datum Parser.
From S2P Require Import Serializer PageCache BTreeNode BTree Index Admin Evaluator Sessions Queries.

(** [encoding/json] between texts and documents. *)
Class JSONText := {
  json_text : JSON → list byte;
  json_parse : list byte → outcome JSON;
}.

Record BTreeTable (C : Type) := mkBTT {
  btt_Name : string;
  btt_tree : BTree C;
  btt_Indexes : IndexManager;
  btt_Changefeeds : list Changefeed;
}.
Arguments mkBTT {C}. Arguments btt_Name {C}. Arguments btt_tree {C}.
Arguments btt_Indexes {C}. Arguments btt_Changefeeds {C}.

(** A table and the objects of the program. *)
Record TableState (C : Type) := mkTS { ts_table : BTreeTable C; ts_heap : Heap }.
Arguments mkTS {C}. Arguments ts_table {C}. Arguments ts_heap {C}.

Section table.
Context {C : Type} `{BlockCache C} `{Render} `{JSONText} (local_offset : Z → Z) (depth : nat).
Implicit Types (t : BTreeTable C) (s : TableState C).

Definition with_tree (bt : BTree C) s : TableState C :=
  let t := ts_table s in mkTS (mkBTT (btt_Name t) bt (btt_Indexes t) (btt_Changefeeds t)) (ts_heap s).
Definition with_indexes (im : IndexManager) s : TableState C :=
  let t := ts_table s in mkTS (mkBTT (btt_Name t) (btt_tree t) im (btt_Changefeeds t)) (ts_heap s).
Definition with_feeds (cfs : list Changefeed) s : TableState C :=
  let t := ts_table s in mkTS (mkBTT (btt_Name t) (btt_tree t) (btt_Indexes t) cfs) (ts_heap s).
Definition with_heap (h : Heap) s : TableState C := mkTS (ts_table s) h.
Definition on_tree {A} (m : M (BTree C) A) : M (TableState C) A := zoom (btt_tree ∘ ts_table) with_tree m.
Definition on_objects {A} (m : M Heap A) : M (TableState C) A := zoom ts_heap with_heap m.

Definition NewBTreeTable (name : string) : M C (BTreeTable C) :=
  tree ← wrap_err "failed to create B-Tree" New;
  mret (mkBTT name tree NewIndexManager []).
Definition LoadBTreeTable (name : string) (cache : C) (rootID : BlockID) : BTreeTable C :=
  mkBTT name (Load cache rootID) NewIndexManager [].
Definition btt_RootID t : BlockID := RootID (btt_tree t).

Definition notifyChangefeeds (oldDoc newDoc : Datum) : M (TableState C) unit :=
  modify (λ s, with_feeds (cf_Send (mkEvent oldDoc newDoc) <$> btt_Changefeeds (ts_table s)) s).

(** [for _, indexName := range t.Indexes.ListIndexes() { … }] with [f] the body. *)
Definition update_index (f : Heap → Index → outcome Index) (indexName : string) : M (TableState C) unit :=
  s ← get_state;
  match GetIndex indexName (btt_Indexes (ts_table s)) with
  | Some idx =>
      idx' ← lift (f (ts_heap s) idx);
      put_state (with_indexes (<[indexName := idx']> (btt_Indexes (ts_table s))) s)
  | None => panic
  end.
Definition update_indexes (f : Heap → Index → outcome Index) : M (TableState C) unit :=
  s ← get_state; for_each (update_index f) (ListIndexes (btt_Indexes (ts_table s))).

(** The methods of a datum that write and read a text. *)
Definition datum_text (doc : Datum) : M (TableState C) (list byte) :=
  s ← get_state; j ← lift (MarshalJSON local_offset (ts_heap s) depth doc); mret (json_text j).
Definition text_datum (data : list byte) : M (TableState C) Datum :=
  j ← lift (json_parse data); on_objects (UnmarshalJSON local_offset j).

Definition btt_Insert (id : string) (doc : Datum) : M (TableState C) unit :=
  data ← wrap_err "failed to serialize document" (datum_text doc);
  wrap_err "failed to insert into B-Tree" (on_tree (Put (bytes_of_string id) data));;
  update_indexes (λ h, index_doc h id doc);;
  notifyChangefeeds DMinVal doc.

Definition btt_Get (id : string) : M (TableState C) Datum :=
  data ← wrap_err "failed to get from B-Tree" (on_tree (Get (bytes_of_string id)));
  match data with
  | None => mret NewNull
  | Some data => wrap_err "failed to deserialize document" (text_datum data)
  end.

(** [oldDoc.Object().Set(key, val)] for the keys of the updates. *)
Definition apply_updates (o u : loc) : M Heap unit :=
  uobj ← hread u;
  for_each (λ key, uobj ← hread u; heap_Set o key (field_or_zero uobj key)) (obj_Keys uobj).

(** The body of the loop of [Update] over the indexes. *)
Definition update_doc_index (id : string) (oldDoc updates : Datum) (h : Heap) (idx : Index) : outcome Index :=
  match oldDoc with
  | DObject o =>
      match h_objs h !! o with
      | None => Panic
      | Some obj =>
          newValue ← match updates with
                     | DObject u => match h_objs h !! u with
                                    | Some uobj => Ok (obj_Get uobj (idx_Field idx))
                                    | None => Panic
                                    end
                     | _ => Ok None
                     end;
          match obj_Get obj (idx_Field idx), newValue with
          | Some oldValue, Some newValue => idx_Update h id oldValue newValue idx
          | Some oldValue, None => idx_Remove h id oldValue idx
          | None, Some newValue => idx_Add h id newValue idx
          | None, None => Ok idx
          end
      end
  | _ => Ok idx
  end.

Definition btt_Update (id : string) (updates : Datum) : M (TableState C) unit :=
  oldDoc ← btt_Get id;
  if IsNull oldDoc then fail ("document " +:+ id +:+ " not found")
  else
    match oldDoc, updates with
    | DObject o, DObject u => on_objects (apply_updates o u)
    | _, _ => mret ()
    end;;
    update_indexes (update_doc_index id oldDoc updates);;
    data ← wrap_err "failed to serialize document" (datum_text oldDoc);
    wrap_err "failed to update in B-Tree" (on_tree (Put (bytes_of_string id) data));;
    notifyChangefeeds DMinVal oldDoc.

(** The body of the loop of [Delete] over the indexes. *)
Definition unindex_doc (id : string) (oldDoc : Datum) (h : Heap) (idx : Index) : outcome Index :=
  match oldDoc with
  | DObject o =>
      match h_objs h !! o with
      | Some obj =>
          match obj_Get obj (idx_Field idx) with
          | Some value => idx_Remove h id value idx
          | None => Ok idx
          end
      | None => Panic
      end
  | _ => Ok idx
  end.

Definition btt_Delete (id : string) : M (TableState C) unit :=
  oldDoc ← btt_Get id;
  match oldDoc with
  | DObject _ => update_indexes (unindex_doc id oldDoc)
  | _ => mret ()
  end;;
  wrap_err "failed to delete from B-Tree" (on_tree (Delete (bytes_of_string id)));;
  if IsNull oldDoc then mret () else notifyChangefeeds oldDoc DMinVal.

Definition scan_tree : M (TableState C) (list KeyValue) := λ s,
  match Scan [] None (btt_tree (ts_table s)) with
  | (Ok _, (bt, kvs)) => (Ok kvs, with_tree bt s)
  | (Err e, (bt, _)) => (Err e, with_tree bt s)
  | (Panic, (bt, _)) => (Panic, with_tree bt s)
  | (NoFuel, (bt, _)) => (NoFuel, with_tree bt s)
  end.
Definition btt_GetAll : M (TableState C) (list Datum) :=
  kvPairs ← wrap_err "failed to scan B-Tree" scan_tree;
  mapM (λ kv : KeyValue, wrap_err "failed to deserialize document" (text_datum kv.2)) kvPairs.
End table.

(** ** The abstract table

    The documents of the table, and for every index its field and the bag of pairs of
    the text of a value and the id it is entered under. *)

Abbreviation document := (gmap string JSON) (only parsing).
Abbreviation documents := (gmap string (gmap string JSON)) (only parsing).
Abbreviation pairs := (list (string * string)) (only parsing).
Abbreviation index_bags := (gmap string (string * list (string * string))) (only parsing).

Inductive table_op :=
| TInsert (id : string) (m : document)
| TGet (id : string)
| TUpdate (id : string) (u : document)
| TDelete (id : string)
| TGetAll.

Section spec.
Context `{Render}.

(** The text of the value that a JSON document stands for. *)
Definition json_String (j : JSON) : string :=
  match j with
  | JNull => "null"
  | JBool b => if b then "true" else "false"
  | JNum f => format_float f
  | JStr s => quote s
  | JArr l => "Array(" +:+ pretty (length l) +:+ " elements)"
  | JObj kvs => "Object(" +:+ pretty (length kvs) +:+ " fields)"
  end.

Definition spec_docs (op : table_op) (D : documents) : documents :=
  match op with
  | TInsert id m => <[id := m]> D
  | TUpdate id u => match D !! id with Some m => <[id := u ∪ m]> D | None => D end
  | TDelete id => delete id D
  | _ => D
  end.

(** What an operation does to the pairs of an index of [field].  [Update] looks the
    old value up after the updates have been made: it takes out and enters again the
    new value, and takes out the value of a field that is not updated. *)
Definition spec_pairs (D : documents) (op : table_op) (field : string) (l : pairs) : pairs :=
  match op with
  | TInsert id m => match m !! field with Some j => (json_String j, id) :: l | None => l end
  | TDelete id =>
      match D !! id ≫= lookup field with Some j => remove_pair (json_String j, id) l | None => l end
  | TUpdate id u =>
      match D !! id, u !! field with
      | Some _, Some j => (json_String j, id) :: remove_pair (json_String j, id) l
      | Some m, None => match m !! field with Some j => remove_pair (json_String j, id) l | None => l end
      | None, _ => l
      end
  | _ => l
  end.
Definition spec_bags (D : documents) (op : table_op) (A : index_bags) : index_bags :=
  (λ a, (a.1, spec_pairs D op a.1 a.2)) <$> A.

Definition missing (id : string) : string := "document " +:+ id +:+ " not found".
Definition spec_answer (D : documents) (op : table_op) (r : outcome JSON) : Prop :=
  match op with
  | TInsert _ _ | TDelete _ => r = Ok JNull
  | TGet id => r = Ok (default JNull (JMap <$> D !! id))
  | TUpdate id _ => r = match D !! id with Some _ => Ok JNull | None => Err (missing id) end
  | TGetAll => ∃ l : list (string * document), r = Ok (JArr (JMap <$> l.*2)) ∧
      l ≡ₚ map_to_list D ∧ StronglySorted bytes_lt (bytes_of_string <$> l.*1)
  end.

(** The documents and the index contents after a run, and the answers it may have. *)
Fixpoint spec_run (ops : list table_op) (D : documents) (A : index_bags) : documents * index_bags :=
  match ops with
  | [] => (D, A)
  | op :: ops' => spec_run ops' (spec_docs op D) (spec_bags D op A)
  end.
Fixpoint spec_answers (ops : list table_op) (D : documents) (rs : list (outcome JSON)) : Prop :=
  match ops, rs with
  | [], [] => True
  | op :: ops', r :: rs' => spec_answer D op r ∧ spec_answers ops' (spec_docs op D) rs'
  | _, _ => False
  end.
End spec.

(** ** The code on the same operations *)

Section exec.
Context {C : Type} `{BlockCache C} `{Render} `{JSONText} (local_offset : Z → Z) (depth : nat).
Implicit Types (s : TableState C).

(** Documents are sent and received as JSON. *)
Definition receive (j : JSON) : M (TableState C) Datum := on_objects (UnmarshalJSON local_offset j).
Definition send (d : Datum) : M (TableState C) JSON :=
  s ← get_state; lift (MarshalJSON local_offset (ts_heap s) depth d).

Definition btt_exec (op : table_op) : M (TableState C) JSON :=
  match op with
  | TInsert id m => d ← receive (JMap m); btt_Insert local_offset depth id d;; mret JNull
  | TGet id => d ← btt_Get local_offset id; send d
  | TUpdate id u => d ← receive (JMap u); btt_Update local_offset depth id d;; mret JNull
  | TDelete id => btt_Delete local_offset id;; mret JNull
  | TGetAll => ds ← btt_GetAll local_offset; l ← mapM send ds; mret (JArr l)
  end.
Fixpoint btt_exec_all (ops : list table_op) (s : TableState C) : list (outcome JSON) * TableState C :=
  match ops with
  | [] => ([], s)
  | op :: ops' =>
      let '(r, s1) := btt_exec op s in let '(rs, s2) := btt_exec_all ops' s1 in (r :: rs, s2)
  end.
End exec.

(** ** Rendering *)

Section render.
Context `{Render} (local_offset : Z → Z).

Lemma num_json_Ok f j : num_json f = Ok j → j = JNum f.
Proof. destruct f as [|[]| |]; by intros [= <-]. Qed.

Lemma mapM_length {A B} (f : A → outcome B) l js : mapM f l = Ok js → length js = length l.
Proof.
  revert js. induction l as [|x l IH]; intros js; cbn [mapM]; [by intros [= <-]|].
  destruct (f x) as [y| | |]; try done. change (Ok y ≫= ?f) with (f y). cbn beta.
  destruct (mapM f l) as [ys| | |]; try done. intros [= <-]. cbn. by rewrite (IH ys).
Qed.

(** A value that is written as a document without a pseudo-type is rendered as that
    document says. *)
Lemma marshal_renders h n k d j :
  MarshalJSON local_offset h n d = Ok j → json_ok k j → Datum_String h d = Ok (json_String j).
Proof.
  destruct n, k; try done. cbn [MarshalJSON]. intros Hm Hj. destruct d; cbn in Hm; simplify_eq; try done.
  - by apply num_json_Ok in Hm as ->.
  - destruct (mapM _ l) as [js| | |] eqn:E; try done. injection Hm as <-. cbn. by rewrite (mapM_length _ _ _ E).
  - destruct (h_objs h !! o) as [obj|] eqn:Ho; [|done]. cbn [Datum_String]. rewrite Ho.
    destruct (mapM _ _) as [kvs| | |] eqn:E; try done. injection Hm as <-. cbn.
    rewrite (mapM_length _ _ _ E), (Permutation_length (sort_Strings_perm _)), length_fmap, length_map_to_list. done.
  - destruct Hj as (_ & _ & Hrt & _). by destruct Hrt; left.
  - destruct Hj as (_ & _ & Hrt & _). by destruct Hrt; left.
  - destruct (num_json (coordinates g).1); try done. destruct (num_json (coordinates g).2); try done.
    injection Hm as <-. destruct Hj as (_ & _ & Hrt & _). by destruct Hrt; left.
Qed.
End render.

(** ** Index contents *)

Section bags.
Context `{Render}.

Definition bag_ok (idx : Index) (a : string * pairs) : Prop := idx_Field idx = a.1 ∧ idx_has idx a.2.
Definition bags_ok (im : IndexManager) (A : index_bags) : Prop := ∀ name, option_Forall2 bag_ok (im !! name) (A !! name).

Context {C : Type}.
Implicit Types (s : TableState C).
Abbreviation im_of s := (btt_Indexes (ts_table s)).

Lemma with_indexes_twice im im' s : with_indexes im (with_indexes im' s) = with_indexes im s.
Proof. done. Qed.
Lemma with_indexes_same s : with_indexes (im_of s) s = s.
Proof. by destruct s as [[] ?]. Qed.

Lemma update_index_run f name im s idx idx' :
  im !! name = Some idx → f (ts_heap s) idx = Ok idx' →
  update_index f name (with_indexes im s) = (Ok (), with_indexes (<[name := idx']> im) s).
Proof.
  intros Hi Hf. unfold update_index, GetIndex, mbind, M_mbind, M_bind, get_state.
  cbn [with_indexes ts_table btt_Indexes ts_heap]. rewrite Hi. unfold lift. by rewrite Hf.
Qed.

(** The loop of an operation over the indexes does [g] to the contents of each. *)
Lemma update_indexes_run (f : Heap → Index → outcome Index) (g : string → pairs → pairs) s A :
  bags_ok (im_of s) A →
  (∀ idx l, idx_has idx l → ∃ idx', f (ts_heap s) idx = Ok idx' ∧ idx_has idx' (g (idx_Field idx) l) ∧
     idx_Field idx' = idx_Field idx) →
  ∃ im', update_indexes f s = (Ok (), with_indexes im' s) ∧ bags_ok im' ((λ a, (a.1, g a.1 a.2)) <$> A).
Proof.
  intros HA Hf. set (A' := (λ a, (a.1, g a.1 a.2)) <$> A).
  assert (∀ names im, NoDup names →
    (∀ name, option_Forall2 bag_ok (im !! name) (if bool_decide (name ∈ names) then A !! name else A' !! name)) →
    (∀ name, name ∈ names → is_Some (im !! name)) →
    ∃ im', for_each (update_index f) names (with_indexes im s) = (Ok (), with_indexes im' s) ∧ bags_ok im' A') as Hloop.
  { induction names as [|name names IH]; intros im Hnd Him Hin.
    - exists im. split; [done|]. intros name. specialize (Him name). by rewrite bool_decide_eq_false_2 in Him by set_solver.
    - apply NoDup_cons in Hnd as [Hni Hnd]. destruct (Hin name) as [idx Hidx]; [by left|].
      pose proof (Him name) as Hn. rewrite bool_decide_eq_true_2, Hidx in Hn by (by left).
      inversion Hn as [? [fld l] [Hfld Hl] Ha Hb|]. cbn in Hfld, Hl. destruct (Hf idx l Hl) as (idx' & Hrun & Hl' & Hfld').
      destruct (IH (<[name := idx']> im)) as (im' & Hrun' & Him'); [done|..].
      + intros k. destruct (decide (k = name)) as [->|Hne].
        * rewrite lookup_insert_eq, bool_decide_eq_false_2 by done. unfold A'. rewrite lookup_fmap, <- Hb. constructor.
          split; cbn; [by rewrite Hfld'|by rewrite <- Hfld].
        * rewrite lookup_insert_ne by done. specialize (Him k).
          rewrite (bool_decide_ext (k ∈ name :: names) (k ∈ names)) in Him by set_solver. done.
      + intros k Hk. rewrite lookup_insert. case_decide; [by eexists|]. apply Hin. by right.
      + exists im'. split; [|done]. cbn [for_each]. mstep (update_index_run f name im s idx idx' Hidx Hrun). exact Hrun'. }
  destruct (Hloop (ListIndexes (im_of s)) (im_of s)) as (im' & Hrun & Him').
  - apply NoDup_sorted_keys.
  - intros name. specialize (HA name). case_bool_decide as Hn; [done|]. unfold ListIndexes in Hn.
    rewrite elem_of_sorted_keys in Hn. apply eq_None_not_Some in Hn. rewrite Hn in *. unfold A'. rewrite lookup_fmap.
    inversion HA. constructor.
  - intros name. apply elem_of_sorted_keys.
  - exists im'. split; [|done]. rewrite with_indexes_same in Hrun. exact Hrun.
Qed.
End bags.

(** ** Documents in the heap *)

Section documents.
Context `{Render} (local_offset : Z → Z) (n : nat).
Implicit Types (h : Heap) (m : document).

(** The object at [o] is the document [m]; its parts are below [hi] and not [o]. *)
Definition doc_at h (o hi : loc) m : Prop := object_at local_offset n h (eq o) o hi m.

Lemma doc_at_grows h h' o hi m : heap_grows h h' → doc_at h o hi m → doc_at h' o hi m.
Proof. apply object_at_grows. Qed.
Lemma doc_marshals h o hi m : doc_at h o hi m → MarshalJSON local_offset h (S n) (DObject o) = Ok (JMap m).
Proof. apply object_marshals. Qed.
Lemma doc_received h m : doc_ok n m → ∃ h',
  UnmarshalJSON local_offset (JMap m) h = (Ok (DObject (h_next h)), h') ∧ heap_grows h h' ∧
  doc_at h' (h_next h) (h_next h') m.
Proof.
  intros Hok. destruct (object_received local_offset n h m Hok) as (h' & Hr & Hg & Hd).
  exists h'. split; [done|]. split; [done|]. pose proof Hd as (_ & _ & _ & _ & Hle & _).
  eapply object_at_mono; [done|exact Hle|done| |exact Hd]. intros l Hl Hn. split; [|done]. intros <-. by apply Hn.
Qed.

(** The value of a field and its text. *)
Definition field_text h (obj : ObjectData) (field : string) (t : option string) : Prop :=
  match t with
  | Some t => ∃ d, obj_Get obj field = Some d ∧ Datum_String h d = Ok t
  | None => obj_Get obj field = None
  end.
Lemma doc_field h o hi m : doc_ok n m → doc_at h o hi m →
  ∃ obj, h_objs h !! o = Some obj ∧ ∀ field, field_text h obj field (json_String <$> m !! field).
Proof.
  intros [_ Hj] (obj & Ho & _ & _ & _ & Hdom & Hm). exists obj. split; [done|]. intros field. unfold field_text, obj_Get.
  specialize (Hdom field). destruct (m !! field) as [j|] eqn:Ej; cbn.
  - destruct (proj2 Hdom) as [d Hd]; [eauto|]. exists d. split; [done|]. eapply (marshal_renders local_offset _ n n); [|by eapply Hj].
    by apply (Hm field d j).
  - apply eq_None_not_Some. by intros []%Hdom.
Qed.

(** The updates [u] of a document below are made in the document [m]. *)
Lemma apply_updates_run h o hi m u hu um :
  doc_at h o hi m → doc_at h u hu um → hu ≤ o →
  ∃ h', apply_updates o u h = (Ok (), h') ∧ doc_at h' o hi (um ∪ m) ∧ doc_at h' u hu um ∧
    h_next h' = h_next h ∧ ∀ l, l ≠ o → h_objs h' !! l = h_objs h !! l.
Proof.
  intros Hd Hdu Hle. pose proof Hd as (obj & Ho & Hok & Hlt & Hhi & _). pose proof Hdu as (uobj & Hu & Huok & Hult & Huhi & _).
  destruct (set_object_run o u obj uobj h Ho Hu) as (obj' & Hrun & Hok' & Hf'); [lia|done..|].
  set (h' := mkHeap (<[o := obj']> (h_objs h)) (h_next h)) in *.
  assert (∀ l, l ≠ o → h_objs h' !! l = h_objs h !! l) as Hs by (intros l Hl; by apply lookup_insert_ne).
  exists h'. split; [exact Hrun|]. split; [|split; [|done]].
  - apply (object_at_union local_offset n h h' _ (eq u) o u hi hu); try done; [lia|intros l Hl _; lia| |].
    + intros l Hl Hne. apply Hs. congruence.
    + intros obj1 uobj1. rewrite Ho, Hu. intros [= <-] [= <-]. exists obj'. split; [|done]. by apply lookup_insert_eq.
  - apply (object_at_mono local_offset n h h' (eq u) (eq u) u hu); try done; [apply Hs; lia|].
    intros l Hl Hne. split; [done|]. apply Hs. lia.
Qed.
End documents.

(** ** The operations *)

#[global] Instance bytes_of_string_inj : Inj (=) (=) bytes_of_string.
Proof. intros a b Hab. rewrite <- (String.string_of_list_byte_of_string a), <- (String.string_of_list_byte_of_string b). by f_equal. Qed.

Section correctness.
Context {C : Type} `{HC : BlockCacheSpec C} `{Render} `{JSONText} (local_offset : Z → Z) (n : nat).
Implicit Types (s : TableState C) (m : document) (D : documents) (A : index_bags).
Abbreviation Insert := (btt_Insert local_offset (S n)).
Abbreviation GetDoc := (btt_Get local_offset).
Abbreviation tree_of s := (btt_tree (ts_table s)).
Abbreviation im_of s := (btt_Indexes (ts_table s)).

(** The document can be stored under the id: it has no pseudo-type and is not too
    deep, its text is read back, and the entry is small. *)
Definition fits (id : string) m : Prop :=
  doc_ok n m ∧ json_parse (json_text (JMap m)) = Ok (JMap m) ∧ small_entry (bytes_of_string id, json_text (JMap m)).

(** The contents of the tree. *)
Definition stored D : gmap (list byte) (list byte) := kmap bytes_of_string ((λ m, json_text (JMap m)) <$> D).

Record table_rep s D A : Prop := {
  tr_tree : tree_ok (tree_of s) (stored D);
  tr_docs : map_Forall fits D;
  tr_bags : bags_ok (im_of s) A;
}.
Definition ts_free s : Z := tfree (tree_of s).

Lemma stored_lookup D id : stored D !! bytes_of_string id = (λ m, json_text (JMap m)) <$> D !! id.
Proof. unfold stored. by rewrite (lookup_kmap bytes_of_string), lookup_fmap. Qed.
Lemma stored_insert D id m : stored (<[id := m]> D) = <[bytes_of_string id := json_text (JMap m)]> (stored D).
Proof. unfold stored. by rewrite fmap_insert, (kmap_insert bytes_of_string). Qed.
Lemma stored_delete D id : stored (delete id D) = delete (bytes_of_string id) (stored D).
Proof. unfold stored. by rewrite fmap_delete, (kmap_delete bytes_of_string). Qed.

Lemma on_tree_run {X} (p : M (BTree C) X) s r bt : p (tree_of s) = (r, bt) → on_tree p s = (r, with_tree bt s).
Proof. apply (zoom_ok (btt_tree ∘ ts_table)). Qed.
Lemma on_objects_run {X} (p : M Heap X) s r h : p (ts_heap s) = (r, h) → on_objects p s = (r, with_heap h s).
Proof. apply (zoom_ok ts_heap). Qed.
Lemma datum_text_run s o hi m :
  doc_at local_offset n (ts_heap s) o hi m → datum_text local_offset (S n) (DObject o) s = (Ok (json_text (JMap m)), s).
Proof. intros Hd. unfold datum_text, mbind, M_mbind, M_bind, get_state, lift. by rewrite (doc_marshals _ _ _ _ _ _ Hd). Qed.
Lemma text_datum_run s m : doc_ok n m → json_parse (json_text (JMap m)) = Ok (JMap m) → ∃ h,
  text_datum local_offset (json_text (JMap m)) s = (Ok (DObject (h_next (ts_heap s))), with_heap h s) ∧
  heap_grows (ts_heap s) h ∧ doc_at local_offset n h (h_next (ts_heap s)) (h_next h) m.
Proof.
  intros Hok Hp. destruct (doc_received local_offset n (ts_heap s) m Hok) as (h & Hr & Hg & Hd). exists h.
  split; [|done]. unfold text_datum. rewrite Hp. change (lift (Ok ?x) ≫= ?f) with (λ s, f x s). by apply on_objects_run.
Qed.

(** [Put] of a document under an id, and the table after it. *)
Lemma put_run s D A id m :
  table_rep s D A → fits id m → (34 ≤ ts_free s)%Z → ∃ bt,
  on_tree (Put (bytes_of_string id) (json_text (JMap m))) s = (Ok (), with_tree bt s) ∧
  table_rep (with_tree bt s) (<[id := m]> D) A ∧ (ts_free s - 34 ≤ ts_free (with_tree bt s))%Z.
Proof.
  intros [Ht Hd Hb] Hf Hfree. destruct (Put_ok _ _ (bytes_of_string id) (json_text (JMap m)) Ht) as (bt & Hr & Ht' & Hfree');
    [apply Hf|done|]. exists bt. split; [by apply on_tree_run|]. split; [|done]. split; [|by apply map_Forall_insert_2|done].
  by rewrite stored_insert.
Qed.

Lemma notify_run s old new : ∃ cfs, notifyChangefeeds old new s = (Ok (), with_feeds cfs s).
Proof. by eexists. Qed.

(** The loop over the indexes, from the change it makes to the contents of each. *)
Lemma indexes_run s D A f g :
  table_rep s D A →
  (∀ idx l, idx_has idx l → ∃ idx', f (ts_heap s) idx = Ok idx' ∧ idx_has idx' (g (idx_Field idx) l) ∧
     idx_Field idx' = idx_Field idx) →
  ∃ im, update_indexes f s = (Ok (), with_indexes im s) ∧
    table_rep (with_indexes im s) D ((λ a, (a.1, g a.1 a.2)) <$> A).
Proof.
  intros [Ht Hd Hb] Hf. destruct (update_indexes_run f g s A Hb Hf) as (im & Hr & Him). exists im. split; [done|]. by split.
Qed.

Lemma Insert_run s D A id o hi m :
  table_rep s D A → fits id m → doc_at local_offset n (ts_heap s) o hi m → (34 ≤ ts_free s)%Z → ∃ s',
  Insert id (DObject o) s = (Ok (), s') ∧ table_rep s' (<[id := m]> D) (spec_bags D (TInsert id m) A) ∧
  (ts_free s - 34 ≤ ts_free s')%Z.
Proof.
  intros Hs Hf Hd Hfree. destruct (put_run s D A id m Hs Hf Hfree) as (bt & Hput & Hs1 & Hfree1).
  destruct (doc_field local_offset n _ _ _ _ (proj1 Hf) Hd) as (obj & Ho & Hfld).
  destruct (indexes_run _ _ _ (λ h, index_doc h id (DObject o)) (spec_pairs D (TInsert id m)) Hs1) as (im & Him & Hs2).
  { intros idx l Hl. unfold index_doc. cbn [with_tree ts_heap]. rewrite Ho. specialize (Hfld (idx_Field idx)).
    cbn [spec_pairs]. unfold field_text in Hfld. destruct (m !! idx_Field idx) as [j|]; cbn in Hfld.
    - destruct Hfld as (d & -> & Ht). destruct (idx_has_add _ idx l id d _ Hl Ht) as (idx' & ? & ? & ? & _). eauto.
    - rewrite Hfld. eauto. }
  destruct (notify_run (with_indexes im (with_tree bt s)) DMinVal (DObject o)) as [cfs Hn].
  exists (with_feeds cfs (with_indexes im (with_tree bt s))). split; [|split; [by destruct Hs2|exact Hfree1]]. unfold btt_Insert.
  mstep (wrap_err_ok "failed to serialize document" _ _ _ _ (datum_text_run s o hi m Hd)).
  mstep (wrap_err_ok "failed to insert into B-Tree" _ _ _ _ Hput). mstep Him. exact Hn.
Qed.

Lemma Get_run s D A id : table_rep s D A → ∃ d s',
  GetDoc id s = (Ok d, s') ∧ table_rep s' D A ∧ heap_grows (ts_heap s) (ts_heap s') ∧ ts_free s' = ts_free s ∧
  match D !! id with
  | Some m => d = DObject (h_next (ts_heap s)) ∧ doc_at local_offset n (ts_heap s') (h_next (ts_heap s)) (h_next (ts_heap s')) m
  | None => d = DNull
  end.
Proof.
  intros [Ht Hd Hb]. destruct (Get_ok _ _ (bytes_of_string id) Ht) as (bt & Hr & Ht' & Hf). rewrite stored_lookup in Hr.
  unfold btt_Get. mstep (wrap_err_ok "failed to get from B-Tree" _ _ _ _ (on_tree_run _ _ _ _ Hr)).
  destruct (D !! id) as [m|] eqn:Hm; cbn [fmap option_fmap option_map].
  - destruct (map_Forall_lookup_1 _ _ _ _ Hd Hm) as (Hok & Hp & _).
    destruct (text_datum_run (with_tree bt s) m Hok Hp) as (h & Htd & Hg & Hdoc).
    eexists _, _. split; [by apply wrap_err_ok|]. split; [by split|]. done.
  - eexists _, _. split; [done|]. split; [by split|]. by repeat split.
Qed.

(** The change of [Update] to an index, by the texts of the values. *)
Lemma update_pairs h id idx l obj uobj um m :
  idx_has idx l → (∀ field, field_text h obj field (json_String <$> (um ∪ m) !! field)) →
  (∀ field, field_text h uobj field (json_String <$> um !! field)) → ∃ idx',
  match obj_Get obj (idx_Field idx), obj_Get uobj (idx_Field idx) with
  | Some oldValue, Some newValue => idx_Update h id oldValue newValue idx
  | Some oldValue, None => idx_Remove h id oldValue idx
  | None, Some newValue => idx_Add h id newValue idx
  | None, None => Ok idx
  end = Ok idx' ∧
  idx_has idx' (match um !! idx_Field idx with
                | Some j => (json_String j, id) :: remove_pair (json_String j, id) l
                | None => match m !! idx_Field idx with Some j => remove_pair (json_String j, id) l | None => l end
                end) ∧ idx_Field idx' = idx_Field idx.
Proof.
  intros Hl Hfld Hufld. specialize (Hfld (idx_Field idx)). specialize (Hufld (idx_Field idx)). unfold field_text in *.
  destruct (um !! idx_Field idx) as [j|] eqn:Hj; cbn in Hufld.
  - rewrite (lookup_union_Some_l _ _ _ _ Hj) in Hfld. cbn in Hfld. destruct Hfld as (d1 & -> & Ht1), Hufld as (d2 & -> & Ht2).
    unfold idx_Update. destruct (idx_has_remove h idx l id d1 _ Hl Ht1) as (idx1 & -> & Hl1 & Hf1 & _). osteps.
    destruct (idx_has_add h idx1 _ id d2 _ Hl1 Ht2) as (idx2 & -> & Hl2 & Hf2 & _). exists idx2. split_and!; try done. congruence.
  - rewrite (lookup_union_r _ _ _ Hj) in Hfld. rewrite Hufld. destruct (m !! idx_Field idx) as [j|]; cbn in Hfld.
    + destruct Hfld as (d & -> & Ht). destruct (idx_has_remove h idx l id d _ Hl Ht) as (idx1 & -> & Hl1 & Hf1 & _). eauto.
    + rewrite Hfld. eauto.
Qed.

Lemma Update_run s D A id u hu um :
  table_rep s D A → (∀ m, D !! id = Some m → fits id (um ∪ m)) → doc_ok n um →
  doc_at local_offset n (ts_heap s) u hu um → (34 ≤ ts_free s)%Z → ∃ s',
  btt_Update local_offset (S n) id (DObject u) s =
    (match D !! id with Some _ => Ok () | None => Err (missing id) end, s') ∧
  table_rep s' (spec_docs (TUpdate id um) D) (spec_bags D (TUpdate id um) A) ∧ (ts_free s - 34 ≤ ts_free s')%Z.
Proof.
  intros Hs Hf Hum Hu Hfree. destruct (Get_run s D A id Hs) as (d & s1 & Hget & Hs1 & Hg1 & Hf1 & Hd).
  unfold btt_Update. mstep Hget. unfold spec_docs, spec_bags, spec_pairs. destruct (D !! id) as [m|].
  - destruct Hd as [-> Hd]. change (IsNull (DObject ?x)) with false. cbv iota. specialize (Hf m eq_refl).
    set (o := h_next (ts_heap s)) in *.
    destruct (apply_updates_run local_offset n (ts_heap s1) o _ m u hu um Hd) as (h & Happ & Hd2 & Hu2 & _);
      [by eapply doc_at_grows|by destruct Hu as (? & ? & ? & ? & ? & _)|].
    mstep (on_objects_run _ _ _ _ Happ).
    destruct (doc_field local_offset n _ _ _ _ (proj1 Hf) Hd2) as (obj & Ho & Hfld).
    destruct (doc_field local_offset n _ _ _ _ Hum Hu2) as (uobj & Huo & Hufld).
    assert (table_rep (with_heap h s1) D A) as Hs2 by (by destruct Hs1).
    destruct (indexes_run _ _ _ (update_doc_index id (DObject o) (DObject u)) (λ field l,
      match um !! field with
      | Some j => (json_String j, id) :: remove_pair (json_String j, id) l
      | None => match m !! field with Some j => remove_pair (json_String j, id) l | None => l end
      end) Hs2) as (im & Him & Hs3).
    { intros idx l Hl. unfold update_doc_index. cbn [with_heap ts_heap]. rewrite Ho, Huo. osteps.
      by apply (update_pairs _ id idx l obj uobj um m). }
    mstep Him.
    mstep (wrap_err_ok "failed to serialize document" _ _ _ _ (datum_text_run (with_indexes im (with_heap h s1)) o _ _ Hd2)).
    destruct (put_run _ _ _ id (um ∪ m) Hs3 Hf) as (bt & Hput & Hs4 & Hf4); [unfold ts_free in *; cbn; lia|].
    mstep (wrap_err_ok "failed to update in B-Tree" _ _ _ _ Hput).
    destruct (notify_run (with_tree bt (with_indexes im (with_heap h s1))) DMinVal (DObject o)) as [cfs Hn].
    exists (with_feeds cfs (with_tree bt (with_indexes im (with_heap h s1)))).
    split; [exact Hn|]. split; [by destruct Hs4|]. unfold ts_free in *. cbn in *. lia.
  - subst d. exists s1. split; [done|]. split; [|lia].
    replace (_ <$> A) with A; [done|]. symmetry. apply map_eq. intros k. rewrite lookup_fmap.
    by destruct (A !! k) as [[]|].
Qed.

Lemma Delete_run s D A id : table_rep s D A → ∃ s',
  btt_Delete local_offset id s = (Ok (), s') ∧ table_rep s' (delete id D) (spec_bags D (TDelete id) A) ∧ ts_free s' = ts_free s.
Proof.
  intros Hs. destruct (Get_run s D A id Hs) as (d & s1 & Hget & Hs1 & Hg1 & Hf1 & Hd). unfold btt_Delete. mstep Hget.
  assert (∃ im, match d with DObject _ => update_indexes (unindex_doc id d) | _ => mret () end s1 = (Ok (), with_indexes im s1) ∧
    table_rep (with_indexes im s1) D (spec_bags D (TDelete id) A)) as (im & Him & Hs2).
  { unfold spec_bags, spec_pairs. destruct (D !! id) as [m|] eqn:Hm.
    - destruct Hd as [-> Hd]. apply (indexes_run _ _ _ (unindex_doc id (DObject (h_next (ts_heap s))))
        (λ field l, match m !! field with Some j => remove_pair (json_String j, id) l | None => l end) Hs1).
      destruct (doc_field local_offset n _ _ _ _ (proj1 (map_Forall_lookup_1 _ _ _ _ (tr_docs _ _ _ Hs) Hm)) Hd) as (obj & Ho & Hfld).
      intros idx l Hl. unfold unindex_doc. rewrite Ho. specialize (Hfld (idx_Field idx)). unfold field_text in Hfld.
      destruct (m !! idx_Field idx) as [j|]; cbn in Hfld.
      + destruct Hfld as (v & -> & Ht). destruct (idx_has_remove _ idx l id v _ Hl Ht) as (idx1 & -> & Hl1 & Hfi & _). eauto.
      + rewrite Hfld. eauto.
    - subst d. exists (im_of s1). rewrite with_indexes_same. split; [done|].
      replace (_ <$> A) with A; [done|]. symmetry. apply map_eq. intros k. rewrite lookup_fmap. by destruct (A !! k) as [[]|]. }
  mstep Him. destruct (Delete_ok _ _ (bytes_of_string id) (tr_tree _ _ _ Hs2)) as (bt & Hr & Ht & Hf2).
  mstep (wrap_err_ok "failed to delete from B-Tree" _ _ _ _ (on_tree_run _ _ _ _ Hr)).
  assert (table_rep (with_tree bt (with_indexes im s1)) (delete id D) (spec_bags D (TDelete id) A)) as Hs3.
  { split; [by rewrite stored_delete|apply map_Forall_delete, Hs2|apply Hs2]. }
  destruct (IsNull d).
  - eexists. split; [done|]. split; [done|]. rewrite <- Hf1. exact Hf2.
  - destruct (notify_run (with_tree bt (with_indexes im s1)) d DMinVal) as [cfs Hn].
    exists (with_feeds cfs (with_tree bt (with_indexes im s1))). split; [exact Hn|]. split; [by destruct Hs3|].
    rewrite <- Hf1. exact Hf2.
Qed.

Lemma Forall_image {X Y} (f : Y → X) (P : Y → Prop) l :
  Forall (λ x, ∃ y, x = f y ∧ P y) l → ∃ k, l = f <$> k ∧ Forall P k.
Proof.
  induction 1 as [|x l (y & -> & Hy) _ (k & -> & Hk)]; [by exists []|]. exists (y :: k). by split; [|constructor].
Qed.

(** The entry of a document in the tree. *)
Definition entry (e : string * document) : KeyValue := (bytes_of_string e.1, json_text (JMap e.2)).
Lemma scan_entries D res : scan_result (stored D) [] None res →
  ∃ l, res = entry <$> l ∧ l ≡ₚ map_to_list D ∧ StronglySorted bytes_lt (bytes_of_string <$> l.*1).
Proof.
  intros [Hs Hres]. destruct (Forall_image entry (λ e, D !! e.1 = Some e.2) res) as (l & -> & Hl).
  { apply Forall_forall. intros [k v] [Hkv _]%Hres. unfold stored in Hkv.
    apply (lookup_kmap_Some bytes_of_string) in Hkv as (id & -> & Hid). rewrite lookup_fmap in Hid.
    destruct (D !! id) as [m|] eqn:Hm; [|done]. injection Hid as <-. by exists (id, m). }
  exists l. split; [done|]. assert ((entry <$> l).*1 = bytes_of_string <$> l.*1) as Hkeys.
  { by rewrite <- !list_fmap_compose. }
  assert (NoDup l.*1) as Hnd.
  { apply (NoDup_fmap_1 bytes_of_string). rewrite <- Hkeys. by apply kv_sorted_NoDup. }
  split.
  - apply NoDup_Permutation; [by apply (NoDup_fmap_1 fst)|apply NoDup_map_to_list|]. intros [id m]. rewrite elem_of_map_to_list. split.
    + intros Hin. rewrite Forall_forall in Hl. exact (Hl _ Hin).
    + intros Hm. assert (entry (id, m) ∈ entry <$> l) as Hin.
      { apply Hres. cbn [fst snd]. rewrite stored_lookup, Hm. split; [done|]. split; [|done]. by destruct id. }
      apply list_elem_of_fmap in Hin as ([id' m'] & Heq & Hin). apply (f_equal fst), (inj bytes_of_string) in Heq. cbn in Heq.
      subst id'. rewrite Forall_forall in Hl. pose proof (Hl _ Hin) as Hm'. cbn in Hm'. by assert (m' = m) as <- by congruence.
  - rewrite <- Hkeys. by apply kv_sorted_keys.
Qed.

(** The texts of a scan are read one after the other, each into a new object. *)
Definition read_entry (kv : KeyValue) : M (TableState C) Datum :=
  wrap_err "failed to deserialize document" (text_datum local_offset kv.2).
Lemma read_entries l : ∀ s,
  Forall (λ e : string * document, fits e.1 e.2) l → ∃ ds h,
  mapM read_entry (entry <$> l) s = (Ok ds, with_heap h s) ∧ heap_grows (ts_heap s) h ∧
  ∀ h2, heap_grows h h2 → Forall2 (λ d e, MarshalJSON local_offset h2 (S n) d = Ok (JMap e.2)) ds l.
Proof.
  induction l as [|[id m] l IH]; intros s Hl.
  - exists [], (ts_heap s). split; [by destruct s|]. split; [apply heap_grows_refl|]. constructor.
  - apply Forall_cons in Hl as [(Hok & Hp & _) Hl]. destruct (text_datum_run s m Hok Hp) as (h1 & Hr1 & Hg1 & Hd1).
    destruct (IH (with_heap h1 s) Hl) as (ds & h & Hr & Hg & Hm). exists (DObject (h_next (ts_heap s)) :: ds), h.
    split; [|split; [by eapply heap_grows_trans|]].
    + rewrite fmap_cons. eapply mapM_cons_ok; [|exact Hr]. by apply wrap_err_ok.
    + intros h2 Hg2. constructor; [|by apply Hm]. eapply doc_marshals, doc_at_grows; [|exact Hd1].
      by eapply heap_grows_trans.
Qed.

Lemma GetAll_run s D A : table_rep s D A → ∃ ds s' l,
  btt_GetAll local_offset s = (Ok ds, s') ∧ table_rep s' D A ∧ ts_free s' = ts_free s ∧
  l ≡ₚ map_to_list D ∧ StronglySorted bytes_lt (bytes_of_string <$> l.*1) ∧
  Forall2 (λ d e, MarshalJSON local_offset (ts_heap s') (S n) d = Ok (JMap e.2)) ds l.
Proof.
  intros [Ht Hd Hb]. destruct (Scan_ok _ _ [] None Ht) as (bt & res & Hr & Ht' & Hf & Hres).
  destruct (scan_entries D res Hres) as (l & -> & Hp & Hs).
  assert (Forall (λ e : string * document, fits e.1 e.2) l) as Hl.
  { rewrite Hp. apply Forall_forall. intros [id m] Hin%elem_of_map_to_list. by apply (map_Forall_lookup_1 _ _ _ _ Hd). }
  destruct (read_entries l (with_tree bt s) Hl) as (ds & h & Hds & Hg & Hm).
  exists ds, (with_heap h (with_tree bt s)), l. split; [|split; [by split|]].
  - unfold btt_GetAll. assert (scan_tree s = (Ok (entry <$> l), with_tree bt s)) as Hsc by (unfold scan_tree; by rewrite Hr).
    mstep (wrap_err_ok "failed to scan B-Tree" _ _ _ _ Hsc). exact Hds.
  - split; [done|]. split; [done|]. split; [done|]. apply Hm, heap_grows_refl.
Qed.

(** ** A run of operations *)

(** The documents that an operation stores fit. *)
Definition op_fits D (op : table_op) : Prop :=
  match op with
  | TInsert id m => fits id m
  | TUpdate id u => doc_ok n u ∧ ∀ m, D !! id = Some m → fits id (u ∪ m)
  | _ => True
  end.
Fixpoint run_fits (ops : list table_op) D : Prop :=
  match ops with
  | [] => True
  | op :: ops' => op_fits D op ∧ run_fits ops' (spec_docs op D)
  end.

Lemma receive_run s D A m : table_rep s D A → doc_ok n m → ∃ h,
  receive local_offset (JMap m) s = (Ok (DObject (h_next (ts_heap s))), with_heap h s) ∧
  table_rep (with_heap h s) D A ∧ doc_at local_offset n h (h_next (ts_heap s)) (h_next h) m.
Proof.
  intros Hs Hm. destruct (doc_received local_offset n (ts_heap s) m Hm) as (h & Hr & _ & Hd). exists h.
  split; [by apply on_objects_run|]. split; [by destruct Hs|done].
Qed.
Lemma send_run s d j : MarshalJSON local_offset (ts_heap s) (S n) d = Ok j → send local_offset (S n) d s = (Ok j, s).
Proof. intros Hm. unfold send, mbind, M_mbind, M_bind, get_state, lift. by rewrite Hm. Qed.
Lemma send_all s ds (l : list (string * document)) :
  Forall2 (λ d e, MarshalJSON local_offset (ts_heap s) (S n) d = Ok (JMap e.2)) ds l →
  mapM (send local_offset (S n)) ds s = (Ok (JMap <$> l.*2), s).
Proof.
  induction 1 as [|d e ds l Hd _ IH]; [done|]. eapply mapM_cons_ok; [by apply send_run|exact IH].
Qed.

Lemma exec_run op s D A : table_rep s D A → op_fits D op → (34 ≤ ts_free s)%Z →
  let r := btt_exec local_offset (S n) op s in
  spec_answer D op r.1 ∧ table_rep r.2 (spec_docs op D) (spec_bags D op A) ∧ (ts_free s - 34 ≤ ts_free r.2)%Z.
Proof.
  intros Hs Hop Hf. assert (∀ A, (λ a : string * pairs, (a.1, a.2)) <$> A = A) as Hid.
  { intros A'. apply map_eq. intros k. rewrite lookup_fmap. by destruct (A' !! k) as [[]|]. }
  destruct op as [id m|id|id um|id|]; cbn [btt_exec spec_answer].
  - destruct (receive_run s D A m Hs (proj1 Hop)) as (h & Hr & Hs1 & Hd). mstep Hr.
    destruct (Insert_run _ D A id _ _ m Hs1 Hop Hd Hf) as (s' & Hi & Hs' & Hf'). mstep Hi. done.
  - destruct (Get_run s D A id Hs) as (d & s' & Hg & Hs' & _ & Hf' & Hd). mstep Hg.
    assert (MarshalJSON local_offset (ts_heap s') (S n) d = Ok (default JNull (JMap <$> D !! id))) as Hm.
    { destruct (D !! id) as [m|]; [|by subst]. destruct Hd as [-> Hd]. by eapply doc_marshals. }
    rewrite (send_run _ _ _ Hm). split; [done|]. split; [|cbn; lia]. unfold spec_bags, spec_pairs. by rewrite Hid.
  - destruct Hop as [Hum Hfit]. destruct (receive_run s D A um Hs Hum) as (h & Hr & Hs1 & Hd). mstep Hr.
    destruct (Update_run _ D A id _ _ um Hs1 Hfit Hum Hd Hf) as (s' & Hi & Hs' & Hf').
    destruct (D !! id); [by mstep Hi|by rewrite (bind_err _ _ _ _ _ Hi)].
  - destruct (Delete_run s D A id Hs) as (s' & Hi & Hs' & Hf'). mstep Hi. split; [done|]. split; [done|cbn; lia].
  - destruct (GetAll_run s D A Hs) as (ds & s' & l & Hr & Hs' & Hf' & Hp & Hsort & Hds). mstep Hr. mstep (send_all _ _ _ Hds).
    split; [by exists l|]. split; [|cbn; lia]. unfold spec_bags, spec_pairs. by rewrite Hid.
Qed.
Lemma run_correct ops : ∀ s D A,
  table_rep s D A → run_fits ops D → (34 * Z.of_nat (length ops) ≤ ts_free s)%Z →
  let r := btt_exec_all local_offset (S n) ops s in
  spec_answers ops D r.1 ∧ table_rep r.2 (spec_run ops D A).1 (spec_run ops D A).2.
Proof.
  induction ops as [|op ops IH]; intros s D A Hs Hops Hf; [done|]. destruct Hops as [Hop Hops].
  cbn [length] in Hf. destruct (exec_run op s D A Hs Hop) as (Ha & Hs1 & Hf1); [lia|].
  cbn [btt_exec_all spec_run]. destruct (btt_exec local_offset (S n) op s) as [r s1]. cbn [fst snd] in *.
  destruct (IH s1 _ _ Hs1 Hops) as [Has Hs2]; [lia|]. by destruct (btt_exec_all local_offset (S n) ops s1) as [rs s2].
Qed.
End correctness.


(** *** The indexes of a table without updates *)

Section accurate.
Context `{Render}.
Implicit Types (D : documents).

(** The pairs an index of [field] should hold. *)
Definition index_pairs (field : string) D : pairs :=
  omap (λ e : string * document, (λ j, (json_String j, e.1)) <$> e.2 !! field) (map_to_list D).

(** Runs that insert under new ids and do not update. *)
Fixpoint plain (ops : list table_op) D : Prop :=
  match ops with
  | [] => True
  | op :: ops' =>
      match op with TInsert id _ => D !! id = None | TUpdate _ _ => False | _ => True end ∧
      plain ops' (spec_docs op D)
  end.

Lemma elem_of_index_pairs field D t id :
  (t, id) ∈ index_pairs field D ↔ ∃ m j, D !! id = Some m ∧ m !! field = Some j ∧ json_String j = t.
Proof.
  unfold index_pairs. rewrite list_elem_of_omap. split.
  - intros ([id' m] & Hin%elem_of_map_to_list & Hj). cbn in Hj. destruct (m !! field) as [j|] eqn:E; [|done].
    injection Hj as <- <-. eauto.
  - intros (m & j & Hm & Hj & <-). exists (id, m). rewrite elem_of_map_to_list. split; [done|]. cbn. by rewrite Hj.
Qed.
Lemma NoDup_index_pairs field D : NoDup (index_pairs field D).*2.
Proof.
  unfold index_pairs. pose proof (NoDup_fst_map_to_list D) as Hnd. induction (map_to_list D) as [|[id m] l IH]; [constructor|].
  cbn in *. apply NoDup_cons in Hnd as [Hni Hnd]. destruct (m !! field) as [j|]; cbn; [|by apply IH]. constructor; [|by apply IH].
  intros ([t id'] & Heq & Hin)%list_elem_of_fmap. cbn in Heq. subst id'. apply Hni. apply list_elem_of_omap in Hin as ([id' m'] & Hin & Hj).
  cbn in Hj. destruct (m' !! field); [|done]. injection Hj as _ ->. apply list_elem_of_fmap. by exists (id, m').
Qed.

Lemma spec_pairs_accurate D op field l :
  match op with TInsert id _ => D !! id = None | TUpdate _ _ => False | _ => True end →
  l ≡ₚ index_pairs field D → spec_pairs D op field l ≡ₚ index_pairs field (spec_docs op D).
Proof.
  intros Hop Hl. destruct op as [id m|id|id u|id|]; try done; cbn [spec_pairs spec_docs].
  - unfold index_pairs. rewrite map_to_list_insert by done. cbn [omap list_omap fst snd].
    destruct (m !! field) as [j|]; cbn; [by rewrite Hl|done].
  - destruct (D !! id) as [m|] eqn:Hm; cbn.
    + assert (index_pairs field D ≡ₚ match m !! field with
        Some j => (json_String j, id) :: index_pairs field (delete id D) | None => index_pairs field (delete id D) end) as Hd.
      { unfold index_pairs. rewrite <- (map_to_list_delete D id m Hm). cbn. by destruct (m !! field). }
      rewrite Hd in Hl. destruct (m !! field) as [j|]; [|done].
      apply (Permutation_cons_inv (a := (json_String j, id))). rewrite <- remove_pair_perm; [done|]. rewrite Hl. by left.
    + rewrite delete_id by done. done.
Qed.

Lemma spec_run_accurate ops name field : ∀ D A l,
  plain ops D → A !! name = Some (field, l) → l ≡ₚ index_pairs field D → ∃ l',
  (spec_run ops D A).2 !! name = Some (field, l') ∧ l' ≡ₚ index_pairs field (spec_run ops D A).1.
Proof.
  induction ops as [|op ops IH]; intros D A l Hops Ha Hl; [eauto|]. destruct Hops as [Hop Hops]. cbn [spec_run].
  apply (IH _ _ (spec_pairs D op field l)); [done| |by apply spec_pairs_accurate].
  unfold spec_bags. by rewrite lookup_fmap, Ha.
Qed.

(** What an index lookup returns when the index holds the pairs it should. *)
Lemma accurate_lookup h idx field l D v t :
  idx_has idx l → l ≡ₚ index_pairs field D → Datum_String h v = Ok t → ∃ ids,
  idx_Get h v idx = Ok ids ∧ NoDup ids ∧
  ∀ id, id ∈ ids ↔ ∃ m j, D !! id = Some m ∧ m !! field = Some j ∧ json_String j = t.
Proof.
  intros Hidx Hl Ht. destruct (idx_Get_ok h idx l v t Hidx Ht) as (ids & Hg & Hids). exists ids. split; [done|]. split.
  - rewrite Hids, Hl. eapply NoDup_sublist; [apply fmap_sublist, sublist_filter|apply NoDup_index_pairs].
  - intros id. rewrite <- elem_of_index_pairs, Hids, list_elem_of_fmap. split.
    + intros ([t' id'] & -> & Hin). apply list_elem_of_filter in Hin as [Heq Hin]. cbn in *. subst t'. by rewrite <- Hl.
    + intros Hin. exists (t, id). split; [done|]. apply list_elem_of_filter. by rewrite Hl.
Qed.
End accurate.


(** [Update] makes an index forget a document: when an accurate index has the
    document under the value of a field and the document is updated in other fields
    only, the document still has the value and the index no longer finds it. *)
Theorem update_leaves_index {C} `{BlockCacheSpec C} `{Render} `{JSONText} local_offset n (s : TableState C) D A name field id m u j :
  table_rep n s D A → A !! name = Some (field, index_pairs field D) → D !! id = Some m → m !! field = Some j →
  u !! field = None → doc_ok n u → fits n id (u ∪ m) → (34 ≤ ts_free s)%Z →
  let s' := (btt_exec local_offset (S n) (TUpdate id u) s).2 in
  table_rep n s' (<[id := u ∪ m]> D) (spec_bags D (TUpdate id u) A) ∧ (u ∪ m) !! field = Some j ∧
  ∃ idx, GetIndex name (btt_Indexes (ts_table s')) = Some idx ∧ idx_Field idx = field ∧
    ∀ h v ids, Datum_String h v = Ok (json_String j) → idx_Get h v idx = Ok ids → id ∉ ids.
Proof.
  intros Hs Ha Hm Hj Hu Hok Hfit Hf s'.
  destruct (exec_run local_offset n (TUpdate id u) s D A Hs) as (_ & Hs' & _); [split; [done|]; intros ? Heq; congruence|done|].
  cbn [spec_docs] in Hs'. rewrite Hm in Hs'. split; [exact Hs'|]. split; [by rewrite lookup_union_r|].
  pose proof (tr_bags _ _ _ _ Hs' name) as Hb. unfold spec_bags in Hb. rewrite lookup_fmap, Ha in Hb. cbn in Hb.
  rewrite Hm, Hu, Hj in Hb. inversion Hb as [idx ? [Hfld Hidx] Hn|]; subst. cbn in Hfld, Hidx.
  exists idx. split; [done|]. split; [done|]. intros h v ids Ht Hg Hin.
  destruct (idx_Get_ok h idx _ v _ Hidx Ht) as (ids' & Hg' & Hids). rewrite Hg in Hg'. injection Hg' as <-.
  rewrite Hids in Hin. apply list_elem_of_fmap in Hin as ([t id'] & -> & Hin). apply list_elem_of_filter in Hin as [Heq Hin].
  cbn in Heq, Hin. subst t. pose proof (NoDup_index_pairs field D) as Hnd.
  rewrite (remove_pair_perm (json_String j, id') (index_pairs field D)) in Hnd; [|apply elem_of_index_pairs; eauto].
  apply NoDup_cons in Hnd as [Hni _]. apply Hni, list_elem_of_fmap. by exists (json_String j, id').
Qed.

(** ** An example

    Documents written by the printer of the query language and read by its parser. *)

Fixpoint json_expr (j : JSON) : expr :=
  match j with
  | JNull => ENull
  | JBool b => EBool b
  | JNum f => ENum (of_string (pretty (int_of_float f)))
  | JStr s => EStr s
  | JArr l => EArr (json_expr <$> l)
  | JObj kvs => EObj ((λ kv, (kv.1, json_expr kv.2)) <$> kvs)
  end.
Fixpoint val_json (v : GoVal) : JSON :=
  match v with
  | VBool b => JBool b
  | VFloat64 f => JNum f
  | VString s => JStr s
  | VSlice l => JArr (val_json <$> l)
  | VMap kvs => JObj ((λ kv, (kv.1, val_json kv.2)) <$> kvs)
  | _ => JNull
  end.
#[local] Instance example_text : JSONText := {
  json_text j := bytes_of_string (to_string (print [] (json_expr j)));
  json_parse data := v ← ParseReQL (String.string_of_list_byte data); Ok (val_json v);
}.
#[local] Instance example_render : Render := {
  format_float f := pretty (int_of_float f);
  quote s := "'" +:+ s +:+ "'";
  format_time t := pretty (t_ns t);
}.

(** A new table with an index on the field [age]. *)
Definition example_bags : index_bags := {["by_age" := ("age", [])]}.
Lemma example_table : ∃ s : TableState (PageCache FileSerializer),
  table_rep 2 s ∅ example_bags ∧ (3400 ≤ ts_free s)%Z.
Proof.
  destruct (New_ok (NewPageCache fs_fresh 10)) as (t & c' & _ & Ht & Hf).
  - apply NewPageCache_ok; [apply fs_fresh_ok|lia].
  - reflexivity.
  - exists (mkTS (mkBTT "users" t {["by_age" := NewIndex "by_age" "age"]} []) empty_heap). split.
    + split; [exact Ht|apply map_Forall_empty|]. intros name. unfold example_bags. cbn [ts_table btt_Indexes].
      destruct (decide (name = "by_age")) as [->|Hne].
      * rewrite !lookup_singleton_eq. constructor. split; [done|apply idx_has_new].
      * rewrite !lookup_singleton_ne by done. constructor.
    + change (3400 ≤ tfree t)%Z. rewrite Hf. vm_compute. congruence.
Qed.

Definition ann : document := {["name" := JStr "ann"; "age" := jnum 30]}.
Definition bob : document := {["age" := jnum 7]}.
Definition example_table_ops : list table_op :=
  [TInsert "u2" ann; TInsert "u1" bob; TGet "u1"; TUpdate "u2" {["name" := JNull]}; TUpdate "u3" ∅; TDelete "u1"; TGetAll].
Definition example_plain_ops : list table_op := [TInsert "u2" ann; TInsert "u1" bob; TDelete "u1"; TInsert "u3" bob].

(** Documents of numbers, strings and constants that the codec reads back. *)
Definition fits_check (id : string) (m : document) : bool :=
  bool_decide (m !! "$reql_type$" = None) && forallb (λ e, flat e.2) (map_to_list m) &&
  bool_decide (length (bytes_of_string id) ≤ 10) && bool_decide (length (bytes_of_string id) + length (json_text (JMap m)) ≤ 77).
Lemma fits_checked id m : fits_check id m = true → json_parse (json_text (JMap m)) = Ok (JMap m) → fits 2 id m.
Proof.
  unfold fits_check. rewrite !andb_true_iff, !bool_decide_eq_true. intros [[[Hrt Hm] H1] H2] Hp.
  split; [apply flat_doc_ok; [lia|done..]|]. by split.
Qed.
Ltac check_fits := apply fits_checked; [vm_compute; reflexivity|vm_compute; reflexivity].

Lemma example_ops_fit : run_fits 2 example_table_ops ∅.
Proof.
  cbn [example_table_ops run_fits spec_docs op_fits]. split; [check_fits|]. split; [check_fits|]. split; [done|].
  split; [split; [check_doc|]|]; [intros m Hm; injection Hm as <-; check_fits|].
  split; [split; [check_doc|]|done]. intros m Hm. vm_compute in Hm. discriminate.
Qed.



Lemma update_leaves_index_witness : ∃ s : TableState (PageCache FileSerializer),
  let D := {["u2" := ann]} in let u := {["name" := JNull]} in
  let s' := (btt_exec (λ _, 0%Z) 3 (TUpdate "u2" u) s).2 in
  table_rep 2 s' (<["u2" := u ∪ ann]> D) (spec_bags D (TUpdate "u2" u) {["by_age" := ("age", index_pairs "age" D)]}) ∧
  (u ∪ ann) !! "age" = Some (jnum 30) ∧
  ∃ idx, GetIndex "by_age" (btt_Indexes (ts_table s')) = Some idx ∧ idx_Field idx = "age" ∧
    ∀ h v ids, Datum_String h v = Ok (json_String (jnum 30)) → idx_Get h v idx = Ok ids → "u2" ∉ ids.
Proof.
  destruct example_table as (s & Hs & Hf).
  destruct (exec_run (λ _, 0%Z) 2 (TInsert "u2" ann) s ∅ example_bags Hs) as (_ & Hs1 & Hf1); [check_fits|lia|].
  exists (btt_exec (λ _, 0%Z) 3 (TInsert "u2" ann) s).2.
  apply (update_leaves_index (λ _, 0%Z) 2 _ {["u2" := ann]} {["by_age" := ("age", index_pairs "age" {["u2" := ann]})]}
    "by_age" "age" "u2" ann {["name" := JNull]} (jnum 30)).
  - exact Hs1.
  - reflexivity.
  - reflexivity.
  - reflexivity.
  - reflexivity.
  - check_doc.
  - check_fits.
  - lia.
Defined.
