(* ===== verification/GoStrings.v ===== *)
(** * Strings and base64

    What the authentication, cluster and protocol code uses of the packages [strings]
    and [encoding/base64]: splitting at a character, searching, prefixes, and the
    decoder of the standard alphabet with padding. *)

From S2P Require Import Prelude Bytes Datum.
From Stdlib Require Import Ascii.

(** ** [strings] *)

(** [strings.Split(s, sep)] for a separator of one character. *)
Fixpoint Split (sep : ascii) (s : string) : list string :=
  match s with
  | "" => [""]
  | String c s' =>
      if bool_decide (c = sep) then "" :: Split sep s'
      else match Split sep s' with
           | p :: ps => String c p :: ps
           | [] => [String c ""]
           end
  end.
Definition HasPrefix (s p : string) : bool := String.prefix p s.
(** [s[n:]] and [s[:n]] within the length. *)
Fixpoint str_drop (n : nat) (s : string) : string :=
  match n, s with S n', String _ s' => str_drop n' s' | _, _ => s end.
Fixpoint str_take (n : nat) (s : string) : string :=
  match n, s with S n', String c s' => String c (str_take n' s') | _, _ => "" end.
Definition TrimPrefix (s p : string) : string := if HasPrefix s p then str_drop (String.length p) s else s.
(** [strings.Index] *)
Fixpoint str_Index (s sub : string) : option nat :=
  if String.prefix sub s then Some 0
  else match s with "" => None | String _ s' => S <$> str_Index s' sub end.

(** The character does not occur in the string. *)
Fixpoint free_of (c : ascii) (s : string) : bool :=
  match s with "" => true | String d s' => negb (bool_decide (d = c)) && free_of c s' end.

Lemma sapp_nil s : "" +:+ s = s.
Proof. done. Qed.
Lemma sapp_cons c a s : String c a +:+ s = String c (a +:+ s).
Proof. done. Qed.
Lemma sapp_assoc a b c : (a +:+ b) +:+ c = a +:+ b +:+ c.
Proof. induction a as [|d a IH]; [done|]. rewrite !sapp_cons. by f_equal. Qed.

Lemma sapp_nil_r s : s +:+ "" = s.
Proof. induction s as [|c s IH]; [done|]. rewrite sapp_cons. by f_equal. Qed.
Lemma slength_app a b : String.length (a +:+ b) = String.length a + String.length b.
Proof. induction a as [|c a IH]; [done|]. rewrite sapp_cons. cbn. by rewrite IH. Qed.
Lemma Split_not_nil sep s : Split sep s ≠ [].
Proof. destruct s as [|c s]; [done|]. cbn. destruct (bool_decide _); [done|]. by destruct (Split sep s). Qed.

Lemma free_of_app c a b : free_of c (a +:+ b) = free_of c a && free_of c b.
Proof. induction a as [|d a IH]; [done|]. rewrite sapp_cons. cbn [free_of]. by rewrite IH, andb_assoc. Qed.

Lemma Split_free sep s : free_of sep s = true → Split sep s = [s].
Proof.
  induction s as [|c s IH]; [done|]. cbn. intros [Hc Hs]%andb_prop. case_bool_decide; [done|]. by rewrite IH.
Qed.
Lemma Split_app sep a s : free_of sep a = true → Split sep (a +:+ String sep s) = a :: Split sep s.
Proof.
  induction a as [|c a IH]; intros Ha.
  - rewrite sapp_nil. cbn [Split]. by rewrite bool_decide_eq_true_2.
  - cbn [free_of] in Ha. apply andb_prop in Ha as [Hc Ha]. rewrite sapp_cons. cbn [Split].
    case_bool_decide; [done|]. by rewrite IH.
Qed.

Lemma prefix_app p s : String.prefix p (p +:+ s) = true.
Proof. induction p as [|c p IH]; [by destruct s|]. rewrite sapp_cons. cbn. destruct (ascii_dec c c); [exact IH|done]. Qed.
Lemma str_drop_app p s : str_drop (String.length p) (p +:+ s) = s.
Proof. induction p; [by destruct s|done]. Qed.
Lemma str_take_app p s : str_take (String.length p) (p +:+ s) = p.
Proof. induction p as [|c p IH]; [by destruct s|]. rewrite sapp_cons. cbn. by f_equal. Qed.
Lemma TrimPrefix_app p s : TrimPrefix (p +:+ s) p = s.
Proof. unfold TrimPrefix, HasPrefix. by rewrite prefix_app, str_drop_app. Qed.

(** A substring whose first character does not occur before it. *)
Lemma str_Index_app a c sub s :
  free_of c a = true → str_Index (a +:+ String c sub +:+ s) (String c sub) = Some (String.length a).
Proof.
  induction a as [|d a IH]; intros Ha; [rewrite sapp_nil|rewrite sapp_cons].
  - unfold str_Index. rewrite sapp_cons, <- sapp_cons, (prefix_app (String c sub) s). done.
  - cbn [free_of] in Ha. apply andb_prop in Ha as [Hc Ha]. cbn [str_Index].
    assert (String.prefix (String c sub) (String d (a +:+ String c sub +:+ s)) = false) as ->.
    { cbn. destruct (ascii_dec c d); [|done]. subst. by rewrite bool_decide_eq_true_2 in Hc. }
    by rewrite IH.
Qed.
Lemma str_Index_None c s sub : free_of c s = true → str_Index s (String c sub) = None.
Proof.
  induction s as [|d s IH]; [done|]. cbn [free_of]. intros [Hd Hs]%andb_prop. cbn [str_Index].
  assert (String.prefix (String c sub) (String d s) = false) as ->; [|by rewrite IH].
  cbn. destruct (ascii_dec c d); [|done]. subst. by rewrite bool_decide_eq_true_2 in Hd.
Qed.
(** A string is cut at the first of its separators in one way only. *)
Lemma cut_inj c u d u' d' :
  free_of c u = true → free_of c u' = true → u +:+ String c d = u' +:+ String c d' → u = u' ∧ d = d'.
Proof.
  revert u'. induction u as [|x u IH]; intros [|y u'] Hu Hu'; rewrite ?sapp_nil, ?sapp_cons; intros Heq; injection Heq.
  - done.
  - intros _ <-. cbn in Hu'. by rewrite bool_decide_eq_true_2 in Hu'.
  - intros _ ->. cbn in Hu. by rewrite bool_decide_eq_true_2 in Hu.
  - intros Heq' ->. cbn in Hu, Hu'. apply andb_true_iff in Hu as [_ Hu], Hu' as [_ Hu']. by destruct (IH u' Hu Hu' Heq') as [-> ->].
Qed.


(** ** [base64.StdEncoding.DecodeString] *)

Fixpoint alphabet_index (c : ascii) (s : string) (n : Z) : option Z :=
  match s with
  | "" => None
  | String d s' => if bool_decide (d = c) then Some n else alphabet_index c s' (n + 1)
  end.
Definition base64_value (c : ascii) : option Z := alphabet_index c base64_alphabet 0.
Definition is_newline (c : ascii) : bool := bool_decide (c = ascii_of_nat 10) || bool_decide (c = ascii_of_nat 13).

(** The decoder works on groups of four characters, the last of which may be padded. *)
Fixpoint base64_groups (s : list ascii) : option (list byte) :=
  match s with
  | [] => Some []
  | a :: b :: c :: d :: s' =>
      x ← base64_value a; y ← base64_value b;
      if bool_decide (d = "="%char) then
        match s' with
        | [] =>
            if bool_decide (c = "="%char) then Some [byte_of_Z (x * 4 + y / 16)]
            else z ← base64_value c; Some [byte_of_Z (x * 4 + y / 16); byte_of_Z (y * 16 + z / 4)]
        | _ => None
        end
      else
        z ← base64_value c; w ← base64_value d; bs ← base64_groups s';
        Some (byte_of_Z (x * 4 + y / 16) :: byte_of_Z (y * 16 + z / 4) :: byte_of_Z (z * 64 + w) :: bs)
  | _ => None
  end.
Definition base64_decode (s : string) : option (list byte) :=
  base64_groups (filter (λ c, is_newline c = false) (String.list_ascii_of_string s)).

Lemma base64_value_char n : (0 ≤ n < 64)%Z →
  ∃ c, base64_char n = String c "" ∧ base64_value c = Some n ∧ c ≠ "="%char ∧ is_newline c = false ∧ c ≠ ","%char.
Proof.
  intros Hn.
  assert (Forall (λ n : nat, match String.substring n 1 base64_alphabet with
    | String c "" => bool_decide (base64_value c = Some (Z.of_nat n)) && negb (bool_decide (c = "="%char)) &&
        negb (is_newline c) && negb (bool_decide (c = ","%char)) = true
    | _ => False end) (seq 0 64)) as Hall.
  { apply Forall_forall. intros k Hk. repeat (apply elem_of_cons in Hk as [->|Hk]; [vm_compute; reflexivity|]). by apply not_elem_of_nil in Hk. }
  rewrite Forall_forall in Hall. specialize (Hall (Z.to_nat n)). unfold base64_char.
  destruct (String.substring (Z.to_nat n) 1 base64_alphabet) as [|c [|]]; try (by destruct Hall; apply elem_of_seq; lia).
  exists c. split; [done|]. rewrite !andb_true_iff, !negb_true_iff, !bool_decide_eq_false, bool_decide_eq_true in Hall.
  destruct Hall as [[[Hv ?] ?] ?]; [apply elem_of_seq; lia|]. rewrite Z2Nat.id in Hv by lia. done.
Qed.

(** The characters of an encoded text. *)
Definition base64_clean (s : string) : list ascii := filter (λ c, is_newline c = false) (String.list_ascii_of_string s).
Lemma base64_clean_cons c s : is_newline c = false → base64_clean (String c "" +:+ s) = c :: base64_clean s.
Proof. intros Hc. rewrite sapp_cons, sapp_nil. unfold base64_clean. cbn [String.list_ascii_of_string]. by rewrite filter_cons_True. Qed.
Lemma base64_clean_char n s : (0 ≤ n < 64)%Z →
  ∃ c, base64_clean (base64_char n +:+ s) = c :: base64_clean s ∧ base64_value c = Some n ∧ c ≠ "="%char.
Proof. intros Hn. destruct (base64_value_char n Hn) as (c & -> & Hv & He & Hl & _). exists c. by rewrite base64_clean_cons. Qed.

(** Three bytes as four sextets and back. *)
Lemma sextets a b c : let n := (Z_of_byte a * 65536 + Z_of_byte b * 256 + Z_of_byte c)%Z in
  (0 ≤ n / 262144 < 64 ∧ 0 ≤ n / 4096 mod 64 < 64 ∧ 0 ≤ n / 64 mod 64 < 64 ∧ 0 ≤ n mod 64 < 64)%Z ∧
  byte_of_Z (n / 262144 * 4 + n / 4096 mod 64 / 16) = a ∧
  byte_of_Z (n / 4096 mod 64 * 16 + n / 64 mod 64 / 4) = b ∧ byte_of_Z (n / 64 mod 64 * 64 + n mod 64) = c.
Proof.
  pose proof (Z_of_byte_range a). pose proof (Z_of_byte_range b). pose proof (Z_of_byte_range c). intros n.
  assert (0 ≤ n / 262144 < 64 ∧ 0 ≤ n / 4096 mod 64 < 64 ∧ 0 ≤ n / 64 mod 64 < 64 ∧ 0 ≤ n mod 64 < 64)%Z by (unfold n; Z.to_euclidean_division_equations; lia).
  split; [done|]. split_and!; apply Z_of_byte_inj; rewrite Z_of_byte_of_Z; unfold n; Z.to_euclidean_division_equations; lia.
Qed.

Lemma base64_group x y z w a b c d s bs :
  base64_value a = Some x → base64_value b = Some y → base64_value c = Some z → base64_value d = Some w →
  d ≠ "="%char → base64_groups s = Some bs →
  base64_groups (a :: b :: c :: d :: s) =
    Some (byte_of_Z (x * 4 + y / 16) :: byte_of_Z (y * 16 + z / 4) :: byte_of_Z (z * 64 + w) :: bs).
Proof. intros Ha Hb Hc Hd Hde Hs. cbn [base64_groups]. rewrite Ha, Hb, Hc, Hd, Hs, bool_decide_eq_false_2 by done. done. Qed.

Lemma base64_decode_encode bs : base64_decode (base64 bs) = Some bs.
Proof.
  change (base64_groups (base64_clean (base64 bs)) = Some bs). revert bs.
  fix IH 1. intros [|a [|b [|c bs]]].
  - done.
  - destruct (sextets a Byte.x00 Byte.x00) as ((H1 & H2 & _) & Ha & _). cbn [base64]. cbv zeta.
    replace (Z_of_byte a * 65536 + Z_of_byte Byte.x00 * 256 + Z_of_byte Byte.x00)%Z with (Z_of_byte a * 65536)%Z in * by (cbn; lia).
    destruct (base64_clean_char _ (base64_char (Z_of_byte a * 65536 / 4096 mod 64) +:+ "==") H1) as (c1 & -> & Hc1 & _).
    destruct (base64_clean_char _ "==" H2) as (c2 & -> & Hc2 & _).
    change (base64_clean "==") with ["="%char; "="%char]. cbn [base64_groups]. rewrite Hc1, Hc2, !bool_decide_eq_true_2 by done.
    cbn. congruence.
  - destruct (sextets a b Byte.x00) as ((H1 & H2 & H3 & _) & Ha & Hb & _). cbn [base64]. cbv zeta.
    replace (Z_of_byte a * 65536 + Z_of_byte b * 256 + Z_of_byte Byte.x00)%Z with (Z_of_byte a * 65536 + Z_of_byte b * 256)%Z in * by (cbn; lia).
    set (n := (Z_of_byte a * 65536 + Z_of_byte b * 256)%Z) in *.
    destruct (base64_clean_char _ (base64_char (n / 4096 mod 64) +:+ base64_char (n / 64 mod 64) +:+ "=") H1) as (c1 & -> & Hc1 & _).
    destruct (base64_clean_char _ (base64_char (n / 64 mod 64) +:+ "=") H2) as (c2 & -> & Hc2 & _).
    destruct (base64_clean_char _ "=" H3) as (c3 & -> & Hc3 & He3).
    change (base64_clean "=") with ["="%char]. cbn [base64_groups]. rewrite Hc1, Hc2.
    rewrite bool_decide_eq_true_2, bool_decide_eq_false_2 by done. rewrite Hc3. cbn. congruence.
  - specialize (IH bs). cbn [base64]. destruct (sextets a b c) as ((H1 & H2 & H3 & H4) & Ha & Hb & Hc).
    set (n := (Z_of_byte a * 65536 + Z_of_byte b * 256 + Z_of_byte c)%Z) in *. cbv zeta.
    destruct (base64_clean_char _ (base64_char (n / 4096 mod 64) +:+ base64_char (n / 64 mod 64) +:+ base64_char (n mod 64) +:+ base64 bs) H1) as (c1 & -> & Hc1 & _).
    destruct (base64_clean_char _ (base64_char (n / 64 mod 64) +:+ base64_char (n mod 64) +:+ base64 bs) H2) as (c2 & -> & Hc2 & _).
    destruct (base64_clean_char _ (base64_char (n mod 64) +:+ base64 bs) H3) as (c3 & -> & Hc3 & _).
    destruct (base64_clean_char _ (base64 bs) H4) as (c4 & -> & Hc4 & He4).
    rewrite (base64_group _ _ _ _ _ _ _ _ _ _ Hc1 Hc2 Hc3 Hc4 He4 IH). congruence.
Qed.

Lemma base64_free bs : free_of ","%char (base64 bs) = true.
Proof.
  assert (∀ n s, (0 ≤ n < 64)%Z → free_of ","%char s = true → free_of ","%char (base64_char n +:+ s) = true) as Hc.
  { intros n s Hn Hs. destruct (base64_value_char n Hn) as (c & -> & _ & _ & _ & Hc). rewrite sapp_cons, sapp_nil.
    cbn [free_of]. by rewrite bool_decide_eq_false_2. }
  revert bs. fix IH 1. intros [|a [|b [|c bs]]]; [done| | |]; cbn [base64]; cbv zeta;
    pose proof (Z_of_byte_range a); try pose proof (Z_of_byte_range b); try pose proof (Z_of_byte_range c);
    repeat (apply Hc; [Z.to_euclidean_division_equations; lia|]); [done..|apply IH].
Qed.
Lemma base64_nil bs : base64 bs = "" → bs = [].
Proof. intros Hb. pose proof (base64_decode_encode bs) as Hd. rewrite Hb in Hd. by injection Hd as <-. Qed.
