(* ===== verification/Scram.v ===== *)
(** * Users and the SCRAM handshake ([internal/auth]: user.go, scram.go)

    A user has a bcrypt hash of the password and the keys of SCRAM-SHA-256.  The hash
    functions, bcrypt, the random generator, identifiers and the clock are parameters
    ([Crypto]); what is drawn at random or read from the clock may differ at every
    call, so that each call takes a turn and the turns are the state. *)

From S2P Require Import Prelude Bytes Datum GoStrings.
From Stdlib Require Import Ascii.

Class Crypto := {
  Sum256 : list byte → list byte;
  hmacSHA256 : list byte → list byte → list byte;
  pbkdf2_Key : list byte → list byte → Z → list byte;
  bcrypt_Generate : nat → string → string + string;
  bcrypt_Compare : string → string → bool;
  rand_Read : nat → nat → option (list byte);
  uuid_New : nat → string;
  time_Now : nat → Z;
}.

(** Documented behaviour of the libraries: the lengths of hashes, MACs and random
    data, and a password that is compared with its own hash. *)
Class CryptoLaws `{Crypto} := {
  sum_length m : length (Sum256 m) = 32;
  hmac_length k m : length (hmacSHA256 k m) = 32;
  rand_length n len b : rand_Read n len = Some b → length b = len;
  bcrypt_correct n p h : bcrypt_Generate n p = inl h → bcrypt_Compare h p = true;
}.

Definition turn : M nat nat := n ← get_state; put_state (S n);; mret n.

Definition xor_byte (a b : byte) : byte := byte_of_Z (Z.lxor (Z_of_byte a) (Z_of_byte b)).
Definition xor_bytes (a b : list byte) : list byte := zip_with xor_byte a b.

(** ** scram.go *)

Definition SCRAMIterations : Z := 4096.
Definition scramSaltLen : nat := 16.
Definition scramNonceLen : nat := 18.

Section scram.
Context `{Crypto}.

Definition random_text (len : nat) : M nat string :=
  n ← turn;
  mret (base64 (match rand_Read n len with Some b => b | None => replicate len Byte.x00 end)).
Definition GenerateSalt : M nat string := random_text scramSaltLen.
Definition generateNonce : M nat string := random_text scramNonceLen.

Definition salted_password (password saltB64 : string) (iterations : Z) : list byte :=
  let iterations := if bool_decide (iterations ≤ 0)%Z then SCRAMIterations else iterations in
  let salt := match base64_decode saltB64 with Some s => s | None => bytes_of_string saltB64 end in
  pbkdf2_Key (bytes_of_string password) salt iterations.
Definition client_key (salted : list byte) : list byte := hmacSHA256 salted (bytes_of_string "Client Key").
Definition server_key (salted : list byte) : list byte := hmacSHA256 salted (bytes_of_string "Server Key").
Definition ComputeSCRAM (password saltB64 : string) (iterations : Z) : string * string :=
  let salted := salted_password password saltB64 iterations in
  (base64 (Sum256 (client_key salted)), base64 (server_key salted)).

(** ** user.go *)

Definition RoleAdmin : string := "admin".
Definition RoleUser : string := "user".

Record User := mkUser {
  ID : string; Username : string; PasswordHash : string; Role : string;
  CreatedAt : Z; UpdatedAt : Z;
  Salt : string; Iterations : Z; StoredKey : string; ServerKey : string;
}.

Definition setSCRAM (password : string) (u : User) : M nat User :=
  salt ← GenerateSalt;
  let keys := ComputeSCRAM password salt SCRAMIterations in
  mret (mkUser (ID u) (Username u) (PasswordHash u) (Role u) (CreatedAt u) (UpdatedAt u)
          salt SCRAMIterations keys.1 keys.2).

Definition hash_password (password : string) : M nat string :=
  n ← turn;
  match bcrypt_Generate n password with
  | inl hash => mret hash
  | inr e => fail ("failed to hash password: " +:+ e)
  end.

Definition NewUser (username password role : string) : M nat User :=
  if bool_decide (username = "") then fail "username is required"
  else if bool_decide (password = "") then fail "password is required"
  else
    hash ← hash_password password;
    t ← turn;
    i ← turn;
    let now := time_Now t in
    setSCRAM password (mkUser (uuid_New i) username hash role now now "" 0 "" "").

Definition SetPassword (password : string) (u : User) : M nat User :=
  if bool_decide (password = "") then fail "password is required"
  else
    hash ← hash_password password;
    u' ← setSCRAM password (mkUser (ID u) (Username u) hash (Role u) (CreatedAt u) (UpdatedAt u)
                              (Salt u) (Iterations u) (StoredKey u) (ServerKey u));
    t ← turn;
    mret (mkUser (ID u') (Username u') (PasswordHash u') (Role u') (CreatedAt u') (time_Now t)
            (Salt u') (Iterations u') (StoredKey u') (ServerKey u')).

Definition CheckPassword (u : User) (password : string) : bool := bcrypt_Compare (PasswordHash u) password.
Definition IsAdmin (u : User) : bool := bool_decide (Role u = RoleAdmin).

(** The values of the map that [ToSafeUser] returns. *)
Inductive safe_value := SafeString (s : string) | SafeTime (t : Z).
Definition ToSafeUser (u : User) : gmap string safe_value :=
  <["id" := SafeString (ID u)]> (<["username" := SafeString (Username u)]> (<["role" := SafeString (Role u)]>
  (<["created_at" := SafeTime (CreatedAt u)]> {["updated_at" := SafeTime (UpdatedAt u)]}))).

(** ** The exchange *)

Record SCRAMServer := mkScram {
  sc_user : User;
  clientFirstBare : string;
  serverFirst : string;
  combinedNonce : string;
  storedKey : list byte;
  serverKey : list byte;
}.

(** The last attribute of the message with this prefix, [init] when there is none. *)
Definition attribute (prefix : string) (parts : list string) (init : string) : string :=
  foldl (λ v p, if HasPrefix p prefix then str_drop 2 p else v) init parts.

Definition ParseClientFirst (msg : string) : outcome (string * string * string) :=
  match str_Index msg ",," with
  | None => Err "invalid client-first message: missing GS2 header"
  | Some idx =>
      let clientFirstBare := str_drop (idx + 2) msg in
      let parts := Split ","%char clientFirstBare in
      let username := attribute "n=" parts "" in
      let clientNonce := attribute "r=" parts "" in
      if bool_decide (username = "") || bool_decide (clientNonce = "")
      then Err "invalid client-first message: missing username or nonce"
      else Ok (username, clientNonce, clientFirstBare)
  end.

Definition NewSCRAMServer (user : option User) (clientFirstBare clientNonce : string) : M nat SCRAMServer :=
  match user with
  | None => fail "user has no SCRAM credentials"
  | Some u =>
      if bool_decide (Salt u = "") || bool_decide (StoredKey u = "") || bool_decide (ServerKey u = "")
      then fail "user has no SCRAM credentials"
      else
        match base64_decode (StoredKey u) with
        | None => fail "invalid stored key"
        | Some storedKey =>
            match base64_decode (ServerKey u) with
            | None => fail "invalid server key"
            | Some serverKey =>
                let iterations := if bool_decide (Iterations u ≤ 0)%Z then SCRAMIterations else Iterations u in
                nonce ← generateNonce;
                let combinedNonce := clientNonce +:+ nonce in
                let serverFirst := "r=" +:+ combinedNonce +:+ ",s=" +:+ Salt u +:+ ",i=" +:+ pretty iterations in
                mret (mkScram u clientFirstBare serverFirst combinedNonce storedKey serverKey)
            end
        end
  end.
Definition ServerFirst (s : SCRAMServer) : string := serverFirst s.

Definition auth_message (s : SCRAMServer) (clientFinalWithoutProof : string) : list byte :=
  bytes_of_string (clientFirstBare s +:+ "," +:+ serverFirst s +:+ "," +:+ clientFinalWithoutProof).

Definition VerifyClientFinal (s : SCRAMServer) (clientFinal : string) : outcome string :=
  let parts := Split ","%char clientFinal in
  let nonce := attribute "r=" parts "" in
  let proof := attribute "p=" parts "" in
  if bool_decide (nonce ≠ combinedNonce s) then Err "nonce mismatch"
  else if bool_decide (proof = "") then Err "missing client proof"
  else
    match base64_decode proof with
    | None => Err "invalid proof encoding"
    | Some clientProof =>
        match str_Index clientFinal ",p=" with
        | None => Err "invalid client-final message"
        | Some cut =>
            let authMessage := auth_message s (str_take cut clientFinal) in
            let clientSignature := hmacSHA256 (storedKey s) authMessage in
            if bool_decide (length clientProof ≠ length clientSignature) then Err "invalid credentials"
            else
              let recoveredClientKey := xor_bytes clientProof clientSignature in
              let hashed := Sum256 recoveredClientKey in
              if bool_decide (hashed ≠ storedKey s) then Err "invalid credentials"
              else
                let serverSignature := hmacSHA256 (serverKey s) authMessage in
                Ok ("v=" +:+ base64 serverSignature)
        end
    end.
End scram.

(** ** The other side of the exchange

    A client that follows RFC 5802 and knows the password. *)

Section client.
Context `{Crypto}.

Definition client_first (username nonce : string) : string := "n,,n=" +:+ username +:+ ",r=" +:+ nonce.
Definition client_bare (username nonce : string) : string := "n=" +:+ username +:+ ",r=" +:+ nonce.
(** The message with the proof, from the server's nonce, salt and iteration count. *)
Definition client_final (password salt : string) (iterations : Z) (bare serverFirst nonce : string) : string :=
  let key := client_key (salted_password password salt iterations) in
  let message := "c=biws,r=" +:+ nonce in
  let signature := hmacSHA256 (Sum256 key) (bytes_of_string (bare +:+ "," +:+ serverFirst +:+ "," +:+ message)) in
  message +:+ ",p=" +:+ base64 (xor_bytes key signature).
(** What the client expects to get back. *)
Definition server_proof (password salt : string) (iterations : Z) (bare serverFirst nonce : string) : string :=
  "v=" +:+ base64 (hmacSHA256 (server_key (salted_password password salt iterations))
    (bytes_of_string (bare +:+ "," +:+ serverFirst +:+ "," +:+ "c=biws,r=" +:+ nonce))).
End client.

(** ** Passwords *)

(** The credentials of the user are those of the password. *)
Definition has_password `{Crypto} (u : User) (password : string) : Prop :=
  CheckPassword u password = true ∧ Salt u ≠ "" ∧ Iterations u = SCRAMIterations ∧
  (StoredKey u, ServerKey u) = ComputeSCRAM password (Salt u) (Iterations u).

Lemma base64_ne bs : bs ≠ [] → base64 bs ≠ "".
Proof. intros Hb Hs. by apply Hb, base64_nil. Qed.

Section passwords.
Context `{CryptoLaws}.

Lemma has_password_keys u password : has_password u password → StoredKey u ≠ "" ∧ ServerKey u ≠ "".
Proof.
  intros (_ & _ & _ & Hkeys). unfold ComputeSCRAM in Hkeys. injection Hkeys as -> ->. split; apply base64_ne; intros Hnil.
  - pose proof (sum_length (client_key (salted_password password (Salt u) (Iterations u)))) as Hl. by rewrite Hnil in Hl.
  - pose proof (hmac_length (salted_password password (Salt u) (Iterations u)) (bytes_of_string "Server Key")) as Hl.
    unfold server_key in Hnil. by rewrite Hnil in Hl.
Qed.

Lemma random_text_run len t : ∃ r, random_text len t = (Ok (base64 r), S t) ∧ length r = len.
Proof.
  unfold random_text, turn. rewrite (bind_ok _ _ _ t (S t)) by done. eexists. split; [done|].
  destruct (rand_Read t len) eqn:E; [by eapply rand_length|apply length_replicate].
Qed.

Lemma setSCRAM_run password u t : CheckPassword u password = true → ∃ u',
  setSCRAM password u t = (Ok u', S t) ∧ has_password u' password ∧ ID u' = ID u ∧ Username u' = Username u ∧ Role u' = Role u.
Proof.
  intros Hc. unfold setSCRAM, GenerateSalt. destruct (random_text_run scramSaltLen t) as (r & Hr & Hl). mstep Hr.
  eexists. split; [done|]. split; [|done]. split; [exact Hc|]. split; [|done]. cbn [Salt]. apply base64_ne. by intros ->.
Qed.

Lemma hash_password_run password t :
  (∃ e, hash_password password t = (Err ("failed to hash password: " +:+ e), S t)) ∨
  ∃ h, hash_password password t = (Ok h, S t) ∧ bcrypt_Compare h password = true.
Proof.
  unfold hash_password, turn. rewrite (bind_ok _ _ _ t (S t)) by done.
  destruct (bcrypt_Generate t password) as [h|e] eqn:E; [right; exists h; split; [done|by eapply bcrypt_correct]|left; by exists e].
Qed.

(** A new user, or the error of the hash function. *)
Lemma NewUser_run name password role t : name ≠ "" → password ≠ "" →
  (∃ e t', NewUser name password role t = (Err ("failed to hash password: " +:+ e), t') ∧ t ≤ t') ∨
  ∃ u n t', NewUser name password role t = (Ok u, t') ∧ t ≤ n < t' ∧ ID u = uuid_New n ∧ Username u = name ∧ Role u = role ∧
    has_password u password.
Proof.
  intros Hn Hp. unfold NewUser. rewrite !bool_decide_eq_false_2 by done.
  destruct (hash_password_run password t) as [[e He]|(h & Hh & Hc)]; [left; exists e, (S t); rewrite (bind_err _ _ _ _ _ He); auto|].
  right. mstep Hh. unfold turn at 1 2. rewrite (bind_ok _ _ _ (S t) (S (S t))) by done. rewrite (bind_ok _ _ _ (S (S t)) (S (S (S t)))) by done.
  cbv zeta. destruct (setSCRAM_run password (mkUser (uuid_New (S (S t))) name h role (time_Now (S t)) (time_Now (S t)) "" 0 "" "") (S (S (S t))))
    as (u & Hr & Hpw & Hid & Hname & Hrole); [done|]. exists u, (S (S t)), (S (S (S (S t)))). split_and!; try done; lia.
Qed.
Lemma SetPassword_run password u t : password ≠ "" →
  (∃ e t', SetPassword password u t = (Err ("failed to hash password: " +:+ e), t') ∧ t ≤ t') ∨
  ∃ u' t', SetPassword password u t = (Ok u', t') ∧ t ≤ t' ∧ ID u' = ID u ∧ Username u' = Username u ∧ Role u' = Role u ∧
    has_password u' password.
Proof.
  intros Hp. unfold SetPassword. rewrite bool_decide_eq_false_2 by done.
  destruct (hash_password_run password t) as [[e He]|(h & Hh & Hc)]; [left; exists e, (S t); rewrite (bind_err _ _ _ _ _ He); auto|].
  right. mstep Hh. destruct (setSCRAM_run password (mkUser (ID u) (Username u) h (Role u) (CreatedAt u) (UpdatedAt u)
    (Salt u) (Iterations u) (StoredKey u) (ServerKey u)) (S t)) as (u' & Hr & Hpw & Hid & Hname & Hrole); [done|]. mstep Hr.
  unfold turn. rewrite (bind_ok _ _ _ (S (S t)) (S (S (S t)))) by done. eexists _, _. split; [done|]. split_and!; try done. lia.
Qed.
End passwords.

(** ** Lemmas on the messages *)

Lemma xor_byte_cancel a b : xor_byte (xor_byte a b) b = a.
Proof.
  unfold xor_byte. apply Z_of_byte_inj. rewrite Z_of_byte_of_Z. rewrite Z_of_byte_of_Z.
  assert (∀ x y, 0 ≤ x < 2 ^ 8 → 0 ≤ y < 2 ^ 8 → 0 ≤ Z.lxor x y < 2 ^ 8)%Z as Hx.
  { intros x y Hx Hy. assert (0 ≤ Z.lxor x y)%Z as Hxy by (apply Z.lxor_nonneg; lia). split; [done|].
    destruct (decide (Z.lxor x y = 0)%Z) as [->|]; [lia|]. apply Z.log2_lt_pow2; [lia|].
    eapply Z.le_lt_trans; [apply Z.log2_lxor; lia|]. apply Z.max_lub_lt.
    - destruct (decide (x = 0)%Z) as [->|]; [cbn; lia|]. apply Z.log2_lt_pow2; lia.
    - destruct (decide (y = 0)%Z) as [->|]; [cbn; lia|]. apply Z.log2_lt_pow2; lia. }
  pose proof (Z_of_byte_range a). pose proof (Z_of_byte_range b).
  pose proof (Hx (Z_of_byte a) (Z_of_byte b) ltac:(lia) ltac:(lia)).
  rewrite (Z.mod_small (Z.lxor (Z_of_byte a) (Z_of_byte b)) 256) by lia. rewrite Z.lxor_assoc, Z.lxor_nilpotent, Z.lxor_0_r. apply Z.mod_small. lia.
Qed.
Lemma xor_bytes_cancel a b : length a = length b → xor_bytes (xor_bytes a b) b = a.
Proof.
  unfold xor_bytes. revert b. induction a as [|x a IH]; intros [|y b] Hl; try done. cbn. rewrite xor_byte_cancel.
  f_equal. apply IH. by injection Hl.
Qed.
Lemma length_xor_bytes a b : length a = length b → length (xor_bytes a b) = length b.
Proof. intros Hl. unfold xor_bytes. rewrite length_zip_with. lia. Qed.

Lemma prefix_empty s : String.prefix "" s = true.
Proof. by destruct s. Qed.
Lemma attribute_snoc prefix parts p init :
  attribute prefix (parts ++ [prefix +:+ p]) init = str_drop 2 (prefix +:+ p).
Proof. unfold attribute. rewrite foldl_snoc. unfold HasPrefix. by rewrite prefix_app. Qed.

Lemma parse_client_first username nonce :
  free_of ","%char username = true → free_of ","%char nonce = true → username ≠ "" → nonce ≠ "" →
  ParseClientFirst (client_first username nonce) = Ok (username, nonce, client_bare username nonce).
Proof.
  intros Hu Hn Hu0 Hn0. unfold ParseClientFirst.
  change (client_first username nonce) with ("n" +:+ String ","%char "," +:+ client_bare username nonce).
  rewrite str_Index_app by done. change (String.length "n" + 2) with 3.
  change (str_drop 3 _) with (client_bare username nonce). cbv zeta.
  assert (Split ","%char (client_bare username nonce) = [String "n" (String "=" username); String "r" (String "=" nonce)]) as ->.
  { unfold client_bare. change ("n=" +:+ username +:+ ",r=" +:+ nonce) with (("n=" +:+ username) +:+ String ","%char ("r=" +:+ nonce)).
    rewrite Split_app by (by rewrite free_of_app). rewrite Split_free by (by rewrite free_of_app). done. }
  unfold attribute, HasPrefix. cbn [foldl]. simpl. rewrite !prefix_empty. by rewrite !bool_decide_eq_false_2.
Qed.

Lemma client_final_split nonce proof :
  free_of ","%char nonce = true → free_of ","%char proof = true →
  Split ","%char ("c=biws,r=" +:+ nonce +:+ ",p=" +:+ proof) = ["c=biws"; "r=" +:+ nonce; "p=" +:+ proof] ∧
  str_Index ("c=biws,r=" +:+ nonce +:+ ",p=" +:+ proof) ",p=" = Some (String.length ("c=biws,r=" +:+ nonce)).
Proof.
  intros Hn Hp. split.
  - change ("c=biws,r=" +:+ nonce +:+ ",p=" +:+ proof) with ("c=biws" +:+ String ","%char (("r=" +:+ nonce) +:+ String ","%char ("p=" +:+ proof))).
    rewrite Split_app by done. rewrite Split_app by (by rewrite free_of_app). by rewrite Split_free by (by rewrite free_of_app).
  - assert (∀ s, str_Index ("c=biws,r=" +:+ s) ",p=" = (λ n, 9 + n) <$> str_Index s ",p=") as Hi.
    { intros s. unfold String.append. cbn -[Nat.add]. by destruct (str_Index s ",p="). }
    rewrite Hi. change (nonce +:+ ",p=" +:+ proof) with (nonce +:+ String ","%char "p=" +:+ proof).
    by rewrite str_Index_app.
Qed.

Lemma attributes_final nonce proof :
  attribute "r=" ["c=biws"; "r=" +:+ nonce; "p=" +:+ proof] "" = nonce ∧
  attribute "p=" ["c=biws"; "r=" +:+ nonce; "p=" +:+ proof] "" = proof.
Proof. unfold attribute, HasPrefix. cbn [foldl]. simpl. rewrite !sapp_nil, !prefix_empty. by destruct nonce, proof. Qed.

(** ** Completeness and soundness *)

Lemma scram_complete_run `{CryptoLaws} u password name nonce t :
  has_password u password →
  free_of ","%char name = true → free_of ","%char nonce = true → name ≠ "" → nonce ≠ "" →
  ParseClientFirst (client_first name nonce) = Ok (name, nonce, client_bare name nonce) ∧
  ∃ s, NewSCRAMServer (Some u) (client_bare name nonce) nonce t = (Ok s, S t) ∧
    VerifyClientFinal s (client_final password (Salt u) (Iterations u) (client_bare name nonce) (ServerFirst s) (combinedNonce s)) =
      Ok (server_proof password (Salt u) (Iterations u) (client_bare name nonce) (ServerFirst s) (combinedNonce s)).
Proof.
  intros Hpw Hname Hnonce Hname0 Hnonce0. split; [by apply parse_client_first|].
  destruct (has_password_keys u password Hpw) as [Hst Hse]. destruct Hpw as (_ & Hsalt & Hit & Hkeys).
  unfold ComputeSCRAM in Hkeys. injection Hkeys as Hsk Hvk.
  unfold NewSCRAMServer. rewrite !bool_decide_eq_false_2 by done. cbn [orb]. rewrite Hsk, Hvk, !base64_decode_encode.
  set (bare := client_bare name nonce). set (key := client_key (salted_password password (Salt u) (Iterations u))).
  destruct (random_text_run scramNonceLen t) as (r & Hr & _). mstep Hr. eexists. split; [reflexivity|]. set (rnd := base64 r).
  set (cn := nonce +:+ rnd). unfold VerifyClientFinal, ServerFirst. cbn [combinedNonce serverFirst clientFirstBare storedKey serverKey].
  set (sf := "r=" +:+ _). unfold client_final. fold key. cbv zeta.
  set (msg := bytes_of_string (bare +:+ "," +:+ sf +:+ "," +:+ "c=biws,r=" +:+ cn)).
  assert (free_of ","%char cn = true) as Hcn by (unfold cn; rewrite free_of_app, Hnonce; apply base64_free).
  assert (length key = 32) as Hlk by apply hmac_length.
  set (proof := xor_bytes key (hmacSHA256 (Sum256 key) msg)).
  assert (length proof = 32) as Hlp by (unfold proof; rewrite length_xor_bytes; rewrite ?hmac_length; done).
  rewrite sapp_assoc. destruct (client_final_split cn (base64 proof) Hcn (base64_free _)) as [-> ->].
  destruct (attributes_final cn (base64 proof)) as [-> ->].
  rewrite bool_decide_eq_false_2 by auto. rewrite bool_decide_eq_false_2 by (intros Hb%base64_nil; by rewrite Hb in Hlp).
  rewrite base64_decode_encode. unfold auth_message. cbn [clientFirstBare serverFirst].
  rewrite <- (sapp_assoc "c=biws,r=" cn (",p=" +:+ base64 proof)), str_take_app. fold msg. rewrite bool_decide_eq_false_2 by (rewrite Hlp, hmac_length; auto).
  unfold proof. rewrite xor_bytes_cancel by (by rewrite hmac_length). rewrite bool_decide_eq_false_2 by auto. done.
Qed.
(** A client that knows the password completes the handshake: the server reads the
    name and the nonce from its first message, answers with a challenge for the user
    of that name, and accepts the client's answer, with the server signature that the
    client expects. *)
Theorem scram_complete `{CryptoLaws} u password name nonce t :
  has_password u password →
  free_of ","%char name = true → free_of ","%char nonce = true → name ≠ "" → nonce ≠ "" →
  ParseClientFirst (client_first name nonce) = Ok (name, nonce, client_bare name nonce) ∧
  ∃ s, NewSCRAMServer (Some u) (client_bare name nonce) nonce t = (Ok s, S t) ∧
    VerifyClientFinal s (client_final password (Salt u) (Iterations u) (client_bare name nonce) (ServerFirst s) (combinedNonce s)) =
      Ok (server_proof password (Salt u) (Iterations u) (client_bare name nonce) (ServerFirst s) (combinedNonce s)).
Proof. apply scram_complete_run. Qed.

Lemma prefix_Some p s : String.prefix p s = true → s = p +:+ str_drop (String.length p) s.
Proof.
  revert s. induction p as [|c p IH]; intros [|d s]; try done. cbn. destruct (ascii_dec c d) as [->|]; [|done].
  intros Hp. rewrite sapp_cons. f_equal. by apply IH.
Qed.
Lemma str_Index_Some s sub i : str_Index s sub = Some i → ∃ rest, s = str_take i s +:+ sub +:+ rest.
Proof.
  revert i. induction s as [|c s IH]; intros i; cbn [str_Index].
  - destruct (String.prefix sub "") eqn:Hp; [|done]. intros [= <-]. apply prefix_Some in Hp. eexists. exact Hp.
  - destruct (String.prefix sub (String c s)) eqn:Hp.
    + intros [= <-]. apply prefix_Some in Hp. eexists. exact Hp.
    + destruct (str_Index s sub) as [j|]; [|done]. intros [= <-]. destruct (IH j eq_refl) as [rest Hr].
      exists rest. cbn [str_take]. rewrite sapp_cons. by f_equal.
Qed.

(** When a message is accepted. *)
Lemma verify_inv `{CryptoLaws} s msg sig : VerifyClientFinal s msg = Ok sig →
  ∃ pre rest key, msg = pre +:+ ",p=" +:+ rest ∧ attribute "r=" (Split ","%char msg) "" = combinedNonce s ∧
    Sum256 key = storedKey s ∧
    base64_decode (attribute "p=" (Split ","%char msg) "") = Some (xor_bytes key (hmacSHA256 (storedKey s) (auth_message s pre))) ∧
    sig = "v=" +:+ base64 (hmacSHA256 (serverKey s) (auth_message s pre)).
Proof.
  unfold VerifyClientFinal. destruct (decide (attribute "r=" (Split ","%char msg) "" = combinedNonce s)) as [Hn|];
    [rewrite bool_decide_eq_false_2 by auto|by rewrite bool_decide_eq_true_2].
  destruct (decide (attribute "p=" (Split ","%char msg) "" = "")); [by rewrite bool_decide_eq_true_2|rewrite bool_decide_eq_false_2 by done].
  destruct (base64_decode _) as [proof|] eqn:Hp; [|done]. destruct (str_Index msg ",p=") as [cut|] eqn:Hcut; [|done].
  set (pre := str_take cut msg). set (signature := hmacSHA256 (storedKey s) (auth_message s pre)).
  destruct (decide (length proof = length signature)) as [Hl|]; [rewrite bool_decide_eq_false_2 by auto|by rewrite bool_decide_eq_true_2].
  destruct (decide (Sum256 (xor_bytes proof signature) = storedKey s)) as [Hk|]; [rewrite bool_decide_eq_false_2 by auto|by rewrite bool_decide_eq_true_2].
  intros [= <-]. destruct (str_Index_Some _ _ _ Hcut) as [rest Hr]. exists pre, rest, (xor_bytes proof signature).
  fold signature. rewrite xor_bytes_cancel by done. done.
Qed.

Lemma scram_sound_run `{CryptoLaws} u password bare nonce t s t' msg sig :
  has_password u password → NewSCRAMServer (Some u) bare nonce t = (Ok s, t') → VerifyClientFinal s msg = Ok sig →
  ∃ pre rest key, msg = pre +:+ ",p=" +:+ rest ∧ attribute "r=" (Split ","%char msg) "" = combinedNonce s ∧
    Sum256 key = Sum256 (client_key (salted_password password (Salt u) (Iterations u))) ∧
    base64_decode (attribute "p=" (Split ","%char msg) "") =
      Some (xor_bytes key (hmacSHA256 (Sum256 key) (auth_message s pre))) ∧
    ∃ r, combinedNonce s = nonce +:+ base64 r ∧ length r = scramNonceLen.
Proof.
  intros (_ & _ & _ & Hkeys) Hnew Hv. set (ckey := client_key _). unfold ComputeSCRAM in Hkeys. injection Hkeys as Hsk Hvk. fold ckey in Hsk.
  assert (storedKey s = Sum256 ckey ∧ ∃ r, combinedNonce s = nonce +:+ base64 r ∧ length r = scramNonceLen) as [Hst Hnonce].
  { unfold NewSCRAMServer in Hnew. destruct (_ || _) in Hnew; [done|]. rewrite Hsk, Hvk, !base64_decode_encode in Hnew.
    destruct (random_text_run scramNonceLen t) as (r & Hr & Hlr). unfold generateNonce in Hnew. rewrite (bind_ok _ _ _ _ _ Hr) in Hnew.
    injection Hnew as <- _. split; [done|]. by exists r. }
  destruct (verify_inv s msg sig Hv) as (pre & rest & k & Hmsg & Hn & Hk & Hp & _). rewrite <- Hk in Hp. rewrite Hst in Hk.
  by exists pre, rest, k.
Qed.
(** Only the holder of a client key is accepted, once per challenge: when the server
    accepts an answer, the answer repeats the server's nonce, and its proof is a key
    with the hash that the server has stored for the password, masked with the MAC of
    this exchange. *)
Theorem scram_sound `{CryptoLaws} u password bare nonce t s t' msg sig :
  has_password u password → NewSCRAMServer (Some u) bare nonce t = (Ok s, t') → VerifyClientFinal s msg = Ok sig →
  ∃ pre rest key, msg = pre +:+ ",p=" +:+ rest ∧ attribute "r=" (Split ","%char msg) "" = combinedNonce s ∧
    Sum256 key = Sum256 (client_key (salted_password password (Salt u) (Iterations u))) ∧
    base64_decode (attribute "p=" (Split ","%char msg) "") =
      Some (xor_bytes key (hmacSHA256 (Sum256 key) (auth_message s pre))) ∧
    ∃ r, combinedNonce s = nonce +:+ base64 r ∧ length r = scramNonceLen.
Proof. apply scram_sound_run. Qed.

(** ** An example

    Functions that are enough to run an exchange; they are not secure. *)

#[local] Instance example_crypto : Crypto := {
  Sum256 m := if bool_decide (length m = 32) then m else replicate 32 Byte.x00;
  hmacSHA256 k m := take 32 (k ++ m ++ replicate 32 Byte.x4d);
  pbkdf2_Key p s n := take 32 (p ++ s ++ replicate 32 Byte.x50);
  bcrypt_Generate n p := inl ("#" +:+ p);
  bcrypt_Compare h p := bool_decide (h = "#" +:+ p);
  rand_Read n len := Some (replicate len (byte_of_Z (Z.of_nat n)));
  uuid_New n := String.string_of_list_byte (replicate n Byte.x78);
  time_Now n := Z.of_nat n;
}.
#[local] Instance example_crypto_laws : CryptoLaws.
Proof.
  split.
  - intros m. cbn [Sum256 example_crypto]. case_bool_decide; [done|]. by rewrite length_replicate.
  - intros k m. cbn [hmacSHA256 example_crypto]. rewrite length_take, !length_app, length_replicate. lia.
  - intros n len b [= <-]. by rewrite length_replicate.
  - intros n p h [= <-]. cbn. by rewrite bool_decide_eq_true_2.
Qed.

Lemma example_uuid_inj n m : uuid_New n = uuid_New m → n = m.
Proof.
  intros Heq. cbn in Heq. apply (f_equal String.list_byte_of_string) in Heq.
  rewrite !String.list_byte_of_string_of_list_byte in Heq. apply (f_equal length) in Heq. by rewrite !length_replicate in Heq.
Qed.
Lemma example_uuid_no_colon n : free_of ":"%char (uuid_New n) = true.
Proof. cbn. induction n as [|n IH]; [done|]. cbn. exact IH. Qed.

Definition example_user : User := match NewUser "ann" "secret" RoleUser 0 with (Ok u, _) => u | _ => mkUser "" "" "" "" 0 0 "" 0 "" "" end.
Lemma example_user_password : has_password example_user "secret".
Proof. split_and!; vm_compute; done. Qed.

Lemma scram_complete_witness :
  ParseClientFirst (client_first "ann" "xyz") = Ok ("ann", "xyz", client_bare "ann" "xyz") ∧
  ∃ s, NewSCRAMServer (Some example_user) (client_bare "ann" "xyz") "xyz" 5 = (Ok s, 6) ∧
    VerifyClientFinal s (client_final "secret" (Salt example_user) (Iterations example_user) (client_bare "ann" "xyz") (ServerFirst s) (combinedNonce s)) =
      Ok (server_proof "secret" (Salt example_user) (Iterations example_user) (client_bare "ann" "xyz") (ServerFirst s) (combinedNonce s)).
Proof.
  apply (scram_complete example_user "secret" "ann" "xyz" 5); [apply example_user_password|reflexivity|reflexivity|done|done].
Defined.

Definition example_server : SCRAMServer :=
  match NewSCRAMServer (Some example_user) (client_bare "ann" "xyz") "xyz" 5 with
  | (Ok s, _) => s
  | _ => mkScram example_user "" "" "" [] []
  end.
Definition example_final : string :=
  client_final "secret" (Salt example_user) (Iterations example_user) (client_bare "ann" "xyz")
    (ServerFirst example_server) (combinedNonce example_server).
Lemma scram_sound_witness :
  ∃ pre rest key, example_final = pre +:+ ",p=" +:+ rest ∧
    attribute "r=" (Split ","%char example_final) "" = combinedNonce example_server ∧
    Sum256 key = Sum256 (client_key (salted_password "secret" (Salt example_user) (Iterations example_user))) ∧
    base64_decode (attribute "p=" (Split ","%char example_final) "") =
      Some (xor_bytes key (hmacSHA256 (Sum256 key) (auth_message example_server pre))) ∧
    ∃ r, combinedNonce example_server = "xyz" +:+ base64 r ∧ length r = scramNonceLen.
Proof.
  apply (scram_sound example_user "secret" (client_bare "ann" "xyz") "xyz" 5 example_server 6 example_final
    (server_proof "secret" (Salt example_user) (Iterations example_user) (client_bare "ann" "xyz")
      (ServerFirst example_server) (combinedNonce example_server))).
  - apply example_user_password.
  - vm_compute. reflexivity.
  - vm_compute. reflexivity.
Defined.
