(* ===== verification/Auth.v ===== *)
(** * The store of users and permissions ([internal/auth]: permission.go, store.go, auth.go, jwt.go)

    Users by id and by name, permissions of a user on a database, the file they are
    kept in, and logging in with a token.  The text of the file ([encoding/json]), the
    file system's failures, the order in which a range statement visits a map and the
    token library are parameters. *)

From S2P Require Import Prelude Bytes Datum Index GoStrings Scram.
From Stdlib Require Import Ascii.

(** ** permission.go *)

Record Permission := mkPerm {
  perm_ID : string; UserID : string; perm_Database : string;
  CanRead : bool; CanWrite : bool; CanCreate : bool; CanDrop : bool;
  perm_CreatedAt : Z; perm_UpdatedAt : Z;
}.

Definition NewPermission `{Crypto} (userID database : string) (canRead canWrite canCreate canDrop : bool) : M nat Permission :=
  t ← turn;
  i ← turn;
  let now := time_Now t in
  mret (mkPerm (uuid_New i) userID database canRead canWrite canCreate canDrop now now).

Definition HasAccess (p : Permission) (read write create drop : bool) : bool :=
  if read && negb (CanRead p) then false
  else if write && negb (CanWrite p) then false
  else if create && negb (CanCreate p) then false
  else if drop && negb (CanDrop p) then false
  else true.

Definition PermissionKey (userID database : string) : string := userID +:+ ":" +:+ database.

(** ** store.go *)

Record Store := mkStore {
  users : gmap string User;
  usersByName : gmap string string;
  permissions : gmap string Permission;
  userPerms : gmap string (list string);
  path : string;
}.
Definition NewStore : Store := mkStore ∅ ∅ ∅ ∅ "".

Record persistedUser := mkPU {
  pu_ID : string; pu_Username : string; pu_PasswordHash : string; pu_Role : string;
  pu_CreatedAt : Z; pu_UpdatedAt : Z;
  pu_Salt : string; pu_Iterations : Z; pu_StoredKey : string; pu_ServerKey : string;
}.
Definition persist_user (u : User) : persistedUser :=
  mkPU (ID u) (Username u) (PasswordHash u) (Role u) (CreatedAt u) (UpdatedAt u)
    (Salt u) (Iterations u) (StoredKey u) (ServerKey u).
Definition restore_user (pu : persistedUser) : User :=
  mkUser (pu_ID pu) (pu_Username pu) (pu_PasswordHash pu) (pu_Role pu) (pu_CreatedAt pu) (pu_UpdatedAt pu)
    (pu_Salt pu) (pu_Iterations pu) (pu_StoredKey pu) (pu_ServerKey pu).
Record persistedStore := mkPS { ps_Users : list persistedUser; ps_Permissions : list Permission }.

(** The file system, the text of the store, and range statements. *)
Class AuthRuntime := {
  filepath_Join : string → string → string;
  io_fails : nat → bool;
  partial_write : nat → list byte → list byte;
  store_text : persistedStore → option (list byte);
  store_parse : list byte → outcome persistedStore;
  range_users : nat → gmap string User → list (string * User);
  range_permissions : nat → gmap string Permission → list (string * Permission);
}.

(** The store, the files and the turn. *)
Record AuthState := mkAuth { a_store : Store; a_files : gmap string (list byte); a_turn : nat }.
Definition with_store (s : Store) (a : AuthState) : AuthState := mkAuth s (a_files a) (a_turn a).
Definition with_files (fs : gmap string (list byte)) (a : AuthState) : AuthState := mkAuth (a_store a) fs (a_turn a).
Definition on_turn {A} (m : M nat A) : M AuthState A := zoom a_turn (λ n a, mkAuth (a_store a) (a_files a) n) m.

Section store.
Context `{Crypto} `{AuthRuntime}.
Implicit Types (s : Store).

Definition with_users (us : gmap string User) s : Store := mkStore us (usersByName s) (permissions s) (userPerms s) (path s).

(** *** The file *)

Definition load_user s (pu : persistedUser) : Store :=
  let u := restore_user pu in
  mkStore (<[ID u := u]> (users s)) (<[Username u := ID u]> (usersByName s)) (permissions s)
    (match userPerms s !! ID u with Some _ => userPerms s | None => <[ID u := []]> (userPerms s) end) (path s).
Definition load_permission s (p : Permission) : Store :=
  let key := PermissionKey (UserID p) (perm_Database p) in
  mkStore (users s) (usersByName s) (<[key := p]> (permissions s))
    (<[UserID p := default [] (userPerms s !! UserID p) ++ [key]]> (userPerms s)) (path s).
Definition load_all (ps : persistedStore) s : Store :=
  foldl load_permission (foldl load_user s (ps_Users ps)) (ps_Permissions ps).

Definition load : M AuthState unit :=
  a ← get_state;
  if bool_decide (path (a_store a) = "") then mret ()
  else
    t ← on_turn turn;
    if io_fails t then fail "failed to read auth store"
    else
      match a_files a !! path (a_store a) with
      | None | Some [] => mret ()
      | Some data =>
          ps ← wrap_err "failed to parse auth store" (lift (store_parse data));
          modify (λ a, with_store (load_all ps (a_store a)) a)
      end.

Definition NewPersistentStore (dataDir : string) : M AuthState unit :=
  modify (with_store NewStore);;
  if bool_decide (dataDir = "") then mret ()
  else
    t ← on_turn turn;
    if io_fails t then fail "failed to create data dir"
    else
      modify (with_store (mkStore ∅ ∅ ∅ ∅ (filepath_Join dataDir "auth.json")));;
      load.

(** The store as it is written. *)
Definition snapshot (t : nat) s : persistedStore :=
  mkPS ((λ e : string * User, persist_user e.2) <$> range_users t (users s)) (range_permissions t (permissions s)).*2.

Definition persist : M AuthState unit :=
  a ← get_state;
  let p := path (a_store a) in
  if bool_decide (p = "") then mret ()
  else
    t ← on_turn turn;
    match store_text (snapshot t (a_store a)) with
    | None => mret ()
    | Some data =>
        t ← on_turn turn;
        if io_fails t then modify (λ a, with_files (<[p +:+ ".tmp" := partial_write t data]> (a_files a)) a)
        else
          modify (λ a, with_files (<[p +:+ ".tmp" := data]> (a_files a)) a);;
          t ← on_turn turn;
          if io_fails t then mret ()
          else modify (λ a, with_files (<[p := data]> (delete (p +:+ ".tmp") (a_files a))) a)
    end.

(** *** Users *)

Definition CreateUser (username password role : string) : M AuthState User :=
  a ← get_state;
  match usersByName (a_store a) !! username with
  | Some _ => fail ("username " +:+ username +:+ " already exists")
  | None =>
      user ← on_turn (NewUser username password role);
      modify (λ a, let s := a_store a in
        with_store (mkStore (<[ID user := user]> (users s)) (<[username := ID user]> (usersByName s)) (permissions s)
                      (<[ID user := []]> (userPerms s)) (path s)) a);;
      persist;;
      mret user
  end.

Definition GetUser (userID : string) s : option User := users s !! userID.
Definition GetUserByUsername (username : string) s : option User :=
  match usersByName s !! username with Some userID => users s !! userID | None => None end.
Definition ListUsers (t : nat) s : list User := (range_users t (users s)).*2.

Definition DeleteUser (userID : string) : M AuthState unit :=
  a ← get_state;
  let s := a_store a in
  match users s !! userID with
  | None => fail "user not found"
  | Some user =>
      let perms := foldl (λ m permKey, delete permKey m) (permissions s) (default [] (userPerms s !! userID)) in
      put_state (with_store (mkStore (delete (ID user) (users s)) (delete (Username user) (usersByName s)) perms
                               (delete userID (userPerms s)) (path s)) a);;
      persist
  end.

Definition UpdateUserPassword (userID password : string) : M AuthState unit :=
  a ← get_state;
  match users (a_store a) !! userID with
  | None => fail "user not found"
  | Some user =>
      user' ← on_turn (SetPassword password user);
      modify (λ a, with_store (with_users (<[userID := user']> (users (a_store a))) (a_store a)) a);;
      persist
  end.

Definition EnsureAdmin (username password : string) : M AuthState (option User) :=
  a ← get_state;
  match usersByName (a_store a) !! username with
  | Some _ => mret None
  | None => u ← CreateUser username password RoleAdmin; mret (Some u)
  end.
Definition CreateDefaultAdmin : M AuthState (option User) := EnsureAdmin "admin" "admin".

(** *** Permissions *)

Definition GrantPermission (userID database : string) (canRead canWrite canCreate canDrop : bool) : M AuthState Permission :=
  a ← get_state;
  let s := a_store a in
  match users s !! userID with
  | None => fail "user not found"
  | Some _ =>
      let permKey := PermissionKey userID database in
      match permissions s !! permKey with
      | Some existing =>
          t ← on_turn turn;
          let perm := mkPerm (perm_ID existing) (UserID existing) (perm_Database existing) canRead canWrite canCreate canDrop
                        (perm_CreatedAt existing) (time_Now t) in
          modify (λ a, with_store (mkStore (users s) (usersByName s) (<[permKey := perm]> (permissions s)) (userPerms s) (path s)) a);;
          persist;;
          mret perm
      | None =>
          perm ← on_turn (NewPermission userID database canRead canWrite canCreate canDrop);
          modify (λ a, with_store (mkStore (users s) (usersByName s) (<[permKey := perm]> (permissions s))
            (<[userID := default [] (userPerms s !! userID) ++ [permKey]]> (userPerms s)) (path s)) a);;
          persist;;
          mret perm
      end
  end.

Definition RevokePermission (userID database : string) : M AuthState unit :=
  a ← get_state;
  let s := a_store a in
  let permKey := PermissionKey userID database in
  match permissions s !! permKey with
  | None => fail "permission not found"
  | Some _ =>
      let perms := default [] (userPerms s !! userID) in
      put_state (with_store (mkStore (users s) (usersByName s) (delete permKey (permissions s))
        (if bool_decide (permKey ∈ perms) then <[userID := remove_id permKey perms]> (userPerms s) else userPerms s) (path s)) a);;
      persist
  end.

Definition GetUserPermissions (userID : string) s : list Permission :=
  omap (λ key, permissions s !! key) (default [] (userPerms s !! userID)).
Definition GetPermission (userID database : string) s : option Permission := permissions s !! PermissionKey userID database.

Definition HasDatabaseAccess (userID database : string) (read write create drop : bool) s : bool :=
  if match users s !! userID with Some user => IsAdmin user | None => false end then true
  else
    match permissions s !! PermissionKey userID database with
    | None => false
    | Some perm => HasAccess perm read write create drop
    end.

(** [None] is the nil slice that stands for all databases. *)
Definition GetAccessibleDatabases (userID : string) s : option (list string) :=
  if match users s !! userID with Some user => IsAdmin user | None => false end then None
  else Some (omap (λ key, match permissions s !! key with
                          | Some perm => if CanRead perm then Some (perm_Database perm) else None
                          | None => None
                          end) (default [] (userPerms s !! userID))).
End store.

(** ** The abstract store

    Users by id, and the permission of a user on a database. *)

Abbreviation user_map := (gmap string User) (only parsing).
Abbreviation perm_map := (gmap (string * string) Permission) (only parsing).

Record store_rep (s : Store) (U : user_map) (P : perm_map) : Prop := {
  sr_users : users s = U;
  sr_ids id u : U !! id = Some u → ID u = id ∧ free_of ":"%char id = true;
  sr_names name id : usersByName s !! name = Some id ↔ ∃ u, U !! id = Some u ∧ Username u = name;
  sr_perms key p : permissions s !! key = Some p ↔ ∃ u d, key = PermissionKey u d ∧ P !! (u, d) = Some p;
  sr_fields u d p : P !! (u, d) = Some p → UserID p = u ∧ perm_Database p = d ∧ is_Some (U !! u);
  sr_lists id u : U !! id = Some u → ∃ keys, userPerms s !! id = Some keys ∧ NoDup keys ∧
    ∀ k, k ∈ keys ↔ ∃ d, k = PermissionKey id d ∧ is_Some (P !! (id, d));
  sr_no_lists id : U !! id = None → userPerms s !! id = None;
}.

(** Documented behaviour: identifiers are never repeated and are written without a
    colon; a range statement visits every entry once. *)
Class AuthLaws `{CryptoLaws} `{AuthRuntime} := {
  uuid_inj n m : uuid_New n = uuid_New m → n = m;
  uuid_no_colon n : free_of ":"%char (uuid_New n) = true;
  range_users_perm n m : range_users n m ≡ₚ map_to_list m;
  range_permissions_perm n m : range_permissions n m ≡ₚ map_to_list m;
}.

(** A store and its clock: the ids in use were drawn before. *)
Definition auth_rep `{Crypto} (a : AuthState) (U : user_map) (P : perm_map) : Prop :=
  store_rep (a_store a) U P ∧ ∀ n, a_turn a ≤ n → U !! uuid_New n = None.

Lemma PermissionKey_inj u d u' d' :
  free_of ":"%char u = true → free_of ":"%char u' = true → PermissionKey u d = PermissionKey u' d' → u = u' ∧ d = d'.
Proof. apply cut_inj. Qed.

Section rep.
Context (s : Store) (U : user_map) (P : perm_map) (Hs : store_rep s U P).

(** The permission found under a key. *)
Lemma rep_lookup id d : free_of ":"%char id = true → permissions s !! PermissionKey id d = P !! (id, d).
Proof.
  intros Hid. apply option_eq. intros p. rewrite (sr_perms _ _ _ Hs). split.
  - intros (u & d' & Hk & Hp). destruct (sr_fields _ _ _ Hs _ _ _ Hp) as (_ & _ & [v Hu]).
    apply PermissionKey_inj in Hk as [-> ->]; [done|done|]. by eapply (sr_ids _ _ _ Hs).
  - intros Hp. eauto.
Qed.
Lemma rep_no_user id d : U !! id = None → P !! (id, d) = None.
Proof. intros Hid. destruct (P !! (id, d)) eqn:Hp; [|done]. apply (sr_fields _ _ _ Hs) in Hp as (_ & _ & [? ?]). congruence. Qed.

(** The list of the keys of a user, which is empty for an unknown one. *)
Lemma rep_keys id : ∃ keys, default [] (userPerms s !! id) = keys ∧ NoDup keys ∧
  ∀ k, k ∈ keys ↔ ∃ d, k = PermissionKey id d ∧ is_Some (P !! (id, d)).
Proof.
  destruct (U !! id) as [u|] eqn:Hu.
  - destruct (sr_lists _ _ _ Hs id u Hu) as (keys & -> & Hk). by exists keys.
  - exists []. rewrite (sr_no_lists _ _ _ Hs id Hu). split; [done|]. split; [constructor|]. intros k. split; [by intros ?%not_elem_of_nil|].
    intros (d & _ & [p Hp]). by rewrite rep_no_user in Hp.
Qed.

(** Both maps are functions of what they represent. *)
Lemma rep_name name : usersByName s !! name = None ↔ ∀ id u, U !! id = Some u → Username u ≠ name.
Proof.
  rewrite eq_None_not_Some. split.
  - intros Hn id u Hu <-. apply Hn. exists id. apply (sr_names _ _ _ Hs). eauto.
  - intros Hn [id (u & Hu & <-)%(sr_names _ _ _ Hs)]. by eapply Hn.
Qed.

(** The key of a permission is that of its fields. *)
Lemma rep_key_of key p : permissions s !! key = Some p → key = PermissionKey (UserID p) (perm_Database p).
Proof. intros (u & d & -> & Hp)%(sr_perms _ _ _ Hs). by destruct (sr_fields _ _ _ Hs _ _ _ Hp) as (<- & <- & _). Qed.

(** What the queries of the store compute. *)
Lemma GetUserPermissions_ok id : NoDup (GetUserPermissions id s) ∧
  ∀ p, p ∈ GetUserPermissions id s ↔ ∃ d, P !! (id, d) = Some p.
Proof.
  unfold GetUserPermissions. destruct (rep_keys id) as (keys & -> & Hnd & Hk). split.
  - apply (NoDup_fmap_1 (λ p, PermissionKey (UserID p) (perm_Database p))). clear Hk.
    induction keys as [|k keys IH]; [constructor|]. apply NoDup_cons in Hnd as [Hni Hnd]. cbn.
    destruct (permissions s !! k) as [p|] eqn:Hp; [|by apply IH]. cbn. constructor; [|by apply IH].
    rewrite <- (rep_key_of k p Hp). intros (p' & -> & (k' & Hin & Hp')%list_elem_of_omap)%list_elem_of_fmap.
    apply rep_key_of in Hp'. by rewrite <- Hp' in Hni.
  - intros p. rewrite list_elem_of_omap. split.
    + intros (k & (d & -> & [p' Hp'])%Hk & Hp). exists d. rewrite Hp'. rewrite <- Hp. symmetry. apply (sr_perms _ _ _ Hs). eauto.
    + intros [d Hp]. exists (PermissionKey id d). split; [apply Hk; eauto|]. apply (sr_perms _ _ _ Hs). eauto.
Qed.
Lemma GetUserByUsername_ok name u : GetUserByUsername name s = Some u ↔ ∃ id, U !! id = Some u ∧ Username u = name.
Proof.
  unfold GetUserByUsername. rewrite (sr_users _ _ _ Hs). destruct (usersByName s !! name) as [id|] eqn:Hn.
  - split.
    + intros Hu. apply (sr_names _ _ _ Hs) in Hn as (u' & Hu' & Hname). exists id. by simplify_eq.
    + intros (id' & Hu & Hname). assert (usersByName s !! name = Some id') as Hn' by (apply (sr_names _ _ _ Hs); eauto).
      by simplify_eq.
  - split; [done|]. intros (id & Hu & Hname). by eapply rep_name in Hn.
Qed.
Definition user_is_admin (id : string) : bool := match U !! id with Some u => IsAdmin u | None => false end.
Lemma HasDatabaseAccess_ok id d r w c dr : free_of ":"%char id = true →
  HasDatabaseAccess id d r w c dr s =
    user_is_admin id || match P !! (id, d) with Some p => HasAccess p r w c dr | None => false end.
Proof. intros Hid. unfold HasDatabaseAccess. rewrite (sr_users _ _ _ Hs), rep_lookup by done. fold (user_is_admin id). by destruct (user_is_admin id). Qed.
Lemma GetAccessibleDatabases_ok id :
  match GetAccessibleDatabases id s with
  | None => user_is_admin id = true
  | Some l => user_is_admin id = false ∧ ∀ d, d ∈ l ↔ ∃ p, P !! (id, d) = Some p ∧ CanRead p = true
  end.
Proof.
  unfold GetAccessibleDatabases. rewrite (sr_users _ _ _ Hs). fold (user_is_admin id). destruct (user_is_admin id); [done|].
  split; [done|]. destruct (rep_keys id) as (keys & -> & _ & Hk). intros d. rewrite list_elem_of_omap. split.
  - intros (k & (d' & -> & [p Hp])%Hk & Hd). assert (permissions s !! PermissionKey id d' = Some p) as Hp' by (apply (sr_perms _ _ _ Hs); eauto).
    rewrite Hp' in Hd. destruct (CanRead p) eqn:Hr; [|done]. injection Hd as <-.
    destruct (sr_fields _ _ _ Hs _ _ _ Hp) as (_ & -> & _). eauto.
  - intros (p & Hp & Hr). exists (PermissionKey id d). split; [apply Hk; eauto|].
    assert (permissions s !! PermissionKey id d = Some p) as -> by (apply (sr_perms _ _ _ Hs); eauto). rewrite Hr.
    by destruct (sr_fields _ _ _ Hs _ _ _ Hp) as (_ & -> & _).
Qed.
End rep.

(** ** What the operations do to the abstract store *)

Section mutate.
Context (s : Store) (U : user_map) (P : perm_map) (Hs : store_rep s U P).

Lemma rep_create user :
  U !! ID user = None → free_of ":"%char (ID user) = true → (∀ id u, U !! id = Some u → Username u ≠ Username user) →
  store_rep (mkStore (<[ID user := user]> (users s)) (<[Username user := ID user]> (usersByName s)) (permissions s)
    (<[ID user := []]> (userPerms s)) (path s)) (<[ID user := user]> U) P.
Proof.
  intros Hid Hcolon Hname. destruct Hs as [H1 H2 H3 H4 H5 H6 H7]. split; cbn [users usersByName permissions userPerms].
  - by rewrite H1.
  - intros id u [[<- <-]|[_ Hu]]%lookup_insert_Some; [done|by apply H2].
  - intros name id. rewrite lookup_insert_Some. split.
    + intros [[<- <-]|[Hne (u & Hu & Hn)%H3]]; [exists user; by rewrite lookup_insert_eq|].
      exists u. rewrite lookup_insert_ne by (intros Heq; congruence). done.
    + intros (u & [[<- <-]|[Hne Hu]]%lookup_insert_Some & <-); [by left|]. right.
      split; [intros Heq; by apply (Hname id u)|apply H3; eauto].
  - done.
  - intros u d p Hp. destruct (H5 u d p Hp) as (? & ? & [v Hv]). split_and!; [done..|].
    rewrite lookup_insert_ne by (intros Heq; congruence). eauto.
  - intros id u [[<- <-]|[Hne Hu]]%lookup_insert_Some.
    + exists []. rewrite lookup_insert_eq. split; [done|]. split; [constructor|]. intros k. split; [by intros ?%not_elem_of_nil|].
      intros (d & _ & [p Hp]). apply H5 in Hp as (_ & _ & [? ?]). congruence.
    + rewrite lookup_insert_ne by done. by eapply H6.
  - intros id [Hu Hne]%lookup_insert_None. rewrite lookup_insert_ne by done. by apply H7.
Qed.

Lemma rep_user id u u' :
  U !! id = Some u → ID u' = id → Username u' = Username u → store_rep (with_users (<[id := u']> (users s)) s) (<[id := u']> U) P.
Proof.
  intros Hu Hid Hname. destruct Hs as [H1 H2 H3 H4 H5 H6 H7]. split; cbn [with_users users usersByName permissions userPerms].
  - by rewrite H1.
  - intros i v [[<- <-]|[_ Hv]]%lookup_insert_Some; [split; [done|by eapply H2]|by apply H2].
  - intros name i. rewrite H3. split; intros (v & Hv & Hn).
    + destruct (decide (id = i)) as [<-|Hne]; [exists u'; rewrite lookup_insert_eq; split; [done|congruence]|].
      exists v. by rewrite lookup_insert_ne.
    + apply lookup_insert_Some in Hv as [[<- <-]|[Hne Hv]]; [exists u; split; [done|congruence]|eauto].
  - done.
  - intros i d p Hp. destruct (H5 i d p Hp) as (? & ? & [v Hv]). split_and!; [done..|].
    rewrite lookup_insert. case_decide; eauto.
  - intros i v Hv. destruct (U !! i) as [w|] eqn:Hw; [by eapply H6|].
    apply lookup_insert_Some in Hv as [[<- _]|[_ Hv]]; congruence.
  - intros i [Hi _]%lookup_insert_None. by apply H7.
Qed.

(** Granting: the permission is entered under its key, and the key in the list of the
    user unless it is there. *)
Lemma rep_grant id d u p keys :
  U !! id = Some u → UserID p = id → perm_Database p = d →
  keys = (if decide (is_Some (P !! (id, d))) then default [] (userPerms s !! id)
          else default [] (userPerms s !! id) ++ [PermissionKey id d]) →
  store_rep (mkStore (users s) (usersByName s) (<[PermissionKey id d := p]> (permissions s)) (<[id := keys]> (userPerms s)) (path s))
    U (<[(id, d) := p]> P).
Proof.
  intros Hu Hid Hd Hkeys. pose proof Hs as [H1 H2 H3 H4 H5 H6 H7]. destruct (H2 id u Hu) as [_ Hcolon].
  split; cbn [users usersByName permissions userPerms]; try done.
  - intros key q. rewrite lookup_insert_Some. split.
    + intros [[<- <-]|[Hne (u1 & d1 & -> & Hq)%H4]]; [exists id, d; by rewrite lookup_insert_eq|].
      exists u1, d1. rewrite lookup_insert_ne by (intros [= -> ->]; done). done.
    + intros (u1 & d1 & -> & [[[= <- <-] <-]|[Hne Hq]]%lookup_insert_Some); [by left|]. right.
      split; [|apply H4; eauto]. intros Hk. apply PermissionKey_inj in Hk as [-> ->]; [done|done|].
      destruct (H5 _ _ _ Hq) as (_ & _ & [v Hv]). by eapply H2.
  - intros u1 d1 q [[[= <- <-] <-]|[_ Hq]]%lookup_insert_Some; [eauto|by apply H5].
  - intros i v Hv. destruct (decide (i = id)) as [->|Hne].
    + exists keys. rewrite lookup_insert_eq. split; [done|]. destruct (rep_keys s U P Hs id) as (ks & Hks & Hnd & Hk).
      rewrite Hks in Hkeys. destruct (decide (is_Some (P !! (id, d)))) as [Hp|Hp]; subst keys; split.
      * done.
      * intros k. rewrite Hk. split; intros (d1 & -> & Hp1); exists d1; (split; [done|]).
        -- rewrite lookup_insert. case_decide; eauto.
        -- destruct (decide (d1 = d)) as [->|]; [done|]. rewrite lookup_insert_ne in Hp1; [done|congruence].
      * apply NoDup_app. split; [done|]. split; [|apply NoDup_singleton]. intros k (d1 & -> & Hp1)%Hk Hin%list_elem_of_singleton.
        apply PermissionKey_inj in Hin as [_ ->]; done.
      * intros k. rewrite elem_of_app, list_elem_of_singleton, Hk. split.
        -- intros [(d1 & -> & Hp1)| ->]; [exists d1; rewrite lookup_insert; case_decide; eauto|].
           exists d. rewrite lookup_insert_eq. eauto.
        -- intros (d1 & -> & Hp1). destruct (decide (d1 = d)) as [->|]; [by right|]. left. exists d1. split; [done|].
           rewrite lookup_insert_ne in Hp1; [done|congruence].
    + rewrite lookup_insert_ne by done. destruct (H6 i v Hv) as (ks & ? & ? & Hk). exists ks. split_and!; try done.
      intros k. rewrite Hk. split; intros (d1 & -> & Hp1); exists d1; (split; [done|]);
        rewrite lookup_insert_ne in * by congruence; done.
  - intros i Hi. rewrite lookup_insert_ne by congruence. by apply H7.
Qed.

Lemma rep_revoke id d p :
  P !! (id, d) = Some p →
  store_rep (mkStore (users s) (usersByName s) (delete (PermissionKey id d) (permissions s))
    (<[id := remove_id (PermissionKey id d) (default [] (userPerms s !! id))]> (userPerms s)) (path s)) U (delete (id, d) P).
Proof.
  intros Hp. pose proof Hs as [H1 H2 H3 H4 H5 H6 H7]. destruct (H5 _ _ _ Hp) as (_ & _ & [u Hu]). destruct (H2 id u Hu) as [_ Hcolon].
  split; cbn [users usersByName permissions userPerms]; try done.
  - intros key q. rewrite lookup_delete_Some. split.
    + intros [Hne (u1 & d1 & -> & Hq)%H4]. exists u1, d1. rewrite lookup_delete_ne by (intros [= -> ->]; done). done.
    + intros (u1 & d1 & -> & [Hne Hq]%lookup_delete_Some). split; [|apply H4; eauto].
      intros Hk. apply PermissionKey_inj in Hk as [-> ->]; [done|done|].
      destruct (H5 _ _ _ Hq) as (_ & _ & [v Hv]). by eapply H2.
  - intros u1 d1 q [_ Hq]%lookup_delete_Some. by apply H5.
  - intros i v Hv. destruct (decide (i = id)) as [->|Hne].
    + rewrite lookup_insert_eq. eexists. split; [done|]. destruct (rep_keys s U P Hs id) as (ks & -> & Hnd & Hk).
      assert (PermissionKey id d ∈ ks) as Hin by (apply Hk; eauto). pose proof (remove_id_perm _ _ Hin) as Hperm.
      rewrite Hperm in Hnd. apply NoDup_cons in Hnd as [Hni Hnd]. split; [done|]. intros k. split.
      * intros Hk'. assert (k ∈ ks) as (d1 & -> & Hp1)%Hk by (rewrite Hperm; by right). exists d1. split; [done|].
        rewrite lookup_delete_ne by (intros [= ->]; done). done.
      * intros (d1 & -> & [q [Hne Hq]%lookup_delete_Some]). assert (PermissionKey id d1 ∈ ks) as Hin1 by (apply Hk; eauto).
        rewrite Hperm in Hin1. apply elem_of_cons in Hin1 as [Heq|]; [|done]. apply PermissionKey_inj in Heq as [_ ->]; done.
    + rewrite lookup_insert_ne by done. destruct (H6 i v Hv) as (ks & ? & ? & Hk). exists ks. split_and!; try done.
      intros k. rewrite Hk. split; intros (d1 & -> & Hp1); exists d1; (split; [done|]);
        rewrite lookup_delete_ne in * by congruence; done.
  - intros i Hi. rewrite lookup_insert_ne by congruence. by apply H7.
Qed.
End mutate.


(** The permissions of the other users. *)
Definition others (id : string) (P : perm_map) : perm_map := filter (λ e, e.1.1 ≠ id) P.
Lemma others_Some id P u d p : others id P !! (u, d) = Some p ↔ P !! (u, d) = Some p ∧ u ≠ id.
Proof. unfold others. by rewrite map_lookup_filter_Some. Qed.

Lemma rep_delete s U P (Hs : store_rep s U P) id user :
  U !! id = Some user →
  store_rep (mkStore (delete (ID user) (users s)) (delete (Username user) (usersByName s))
    (foldl (λ m permKey, delete permKey m) (permissions s) (default [] (userPerms s !! id)))
    (delete id (userPerms s)) (path s)) (delete id U) (others id P).
Proof.
  intros Hu. destruct (rep_keys s U P Hs id) as (keys & -> & _ & Hk). destruct Hs as [H1 H2 H3 H4 H5 H6 H7].
  destruct (H2 id user Hu) as [Hid Hcolon]. rewrite Hid. split; cbn [users usersByName permissions userPerms].
  - by rewrite H1.
  - intros i u [_ Hi]%lookup_delete_Some. by apply H2.
  - intros name i. rewrite lookup_delete_Some, H3. split.
    + intros [Hne (u & Hi & <-)]. exists u. rewrite lookup_delete_ne; [done|congruence].
    + intros (u & [Hne Hi]%lookup_delete_Some & <-). split; [|eauto]. intros Heq.
      assert (usersByName s !! Username u = Some i) as E1 by (apply H3; eauto).
      assert (usersByName s !! Username user = Some id) as E2 by (apply H3; eauto). congruence.
  - intros key p. rewrite foldl_delete_lookup. destruct (decide (key ∈ keys)) as [Hin|Hni].
    + split; [done|]. intros (u & d & -> & [Hp Hne]%others_Some). apply Hk in Hin as (d' & Hkey & _).
      destruct (H5 _ _ _ Hp) as (_ & _ & [v Hv]). apply PermissionKey_inj in Hkey as [-> _]; [done|by eapply H2|done].
    + rewrite H4. split; intros (u & d & -> & Hp); exists u, d; (split; [done|]).
      * apply others_Some. split; [done|]. intros ->. apply Hni, Hk. eauto.
      * by apply others_Some in Hp as [? _].
  - intros u d p [Hp Hne]%others_Some. destruct (H5 _ _ _ Hp) as (? & ? & ?). split_and!; try done. by rewrite lookup_delete_ne.
  - intros i u [Hne Hi]%lookup_delete_Some. rewrite lookup_delete_ne by done. destruct (H6 i u Hi) as (ks & ? & ? & Hks).
    exists ks. split_and!; try done. intros k. rewrite Hks. split; intros (d & -> & [p Hp]); exists d; (split; [done|]).
    + exists p. apply others_Some. done.
    + apply others_Some in Hp as [? _]. eauto.
  - intros i Hi. destruct (decide (i = id)) as [->|]; [by rewrite lookup_delete_eq|].
    rewrite lookup_delete_ne by done. rewrite lookup_delete_ne in Hi by done. by apply H7.
Qed.

(** ** Writing and reading the file *)

Section file.
Context `{AuthLaws}.

Lemma turn_run (a : AuthState) : on_turn turn a = (Ok (a_turn a), mkAuth (a_store a) (a_files a) (S (a_turn a))).
Proof. done. Qed.

(** [persist] never fails and leaves the store alone; time passes.  The file is the one
    before, or holds a snapshot of the store. *)
Lemma persist_run a : ∃ fs n, persist a = (Ok (), mkAuth (a_store a) fs n) ∧ a_turn a ≤ n ∧
  let p := path (a_store a) in
  (fs !! p = a_files a !! p ∨ ∃ t, fs !! p = store_text (snapshot t (a_store a)) ∧ is_Some (fs !! p)) ∧
  (p ≠ "" → (∀ t, io_fails t = false) → (∀ t, is_Some (store_text (snapshot t (a_store a)))) →
     ∃ t, fs !! p = store_text (snapshot t (a_store a))).
Proof.
  destruct a as [s fs n]. unfold persist. rewrite (bind_ok get_state _ _ _ _ eq_refl). cbn [a_store a_files a_turn].
  cbv zeta. destruct (decide (path s = "")) as [Hp|Hp].
  - rewrite bool_decide_eq_true_2 by done. exists fs, n. split; [done|]. split; [done|]. split; [by left|done].
  - rewrite bool_decide_eq_false_2 by done. rewrite (bind_ok _ _ _ _ _ (turn_run _)). cbn [a_store a_files a_turn].
    assert (path s +:+ ".tmp" ≠ path s) as Htmp.
    { clear. induction (path s) as [|c q IH]; [done|]. rewrite sapp_cons. by intros [= ?]. }
    destruct (store_text (snapshot n s)) as [data|] eqn:Ht.
    + rewrite (bind_ok _ _ _ _ _ (turn_run _)). cbn [a_store a_files a_turn]. destruct (io_fails (S n)) eqn:E1.
      * eexists _, _. split; [done|]. split; [cbn; lia|]. split; [left; cbn; by rewrite lookup_insert_ne|]. intros _ Hio. by rewrite Hio in E1.
      * rewrite (bind_ok (modify _) _ _ () _ eq_refl). rewrite (bind_ok _ _ _ _ _ (turn_run _)). cbn [a_store a_files a_turn with_files].
        destruct (io_fails (S (S n))) eqn:E2.
        -- eexists _, _. split; [done|]. split; [cbn; lia|]. split; [left; cbn; by rewrite lookup_insert_ne|]. intros _ Hio. by rewrite Hio in E2.
        -- eexists _, _. split; [done|]. split; [cbn; lia|]. cbn. rewrite lookup_insert_eq. split.
           ++ right. exists n. by rewrite Ht.
           ++ intros _ _ _. exists n. by rewrite Ht.
    + eexists _, _. split; [done|]. split; [cbn; lia|]. split; [by left|]. intros _ _ Htx. destruct (Htx n) as [? ?]. congruence.
Qed.
End file.

(** ** Runs of operations *)

Inductive auth_op :=
| ACreate (username password role : string)
| AEnsure (username password : string)
| ADelete (id : string)
| APassword (id password : string)
| AGrant (id db : string) (r w c d : bool)
| ARevoke (id db : string)
| AUser (id : string)
| AName (username : string)
| APermissions (id : string)
| AAccess (id db : string) (r w c d : bool)
| ADatabases (id : string).

Inductive auth_answer :=
| NDone
| NUser (u : option User)
| NPermission (p : Permission)
| NPermissions (l : list Permission)
| NBool (b : bool)
| NDatabases (l : option (list string)).

Section runs.
Context `{Crypto} `{AuthRuntime}.

Definition query (f : Store → auth_answer) : M AuthState auth_answer := a ← get_state; mret (f (a_store a)).
Definition auth_exec (op : auth_op) : M AuthState auth_answer :=
  match op with
  | ACreate name pw role => u ← CreateUser name pw role; mret (NUser (Some u))
  | AEnsure name pw => u ← EnsureAdmin name pw; mret (NUser u)
  | ADelete id => DeleteUser id;; mret NDone
  | APassword id pw => UpdateUserPassword id pw;; mret NDone
  | AGrant id db r w c d => p ← GrantPermission id db r w c d; mret (NPermission p)
  | ARevoke id db => RevokePermission id db;; mret NDone
  | AUser id => query (λ s, NUser (GetUser id s))
  | AName name => query (λ s, NUser (GetUserByUsername name s))
  | APermissions id => query (λ s, NPermissions (GetUserPermissions id s))
  | AAccess id db r w c d => query (λ s, NBool (HasDatabaseAccess id db r w c d s))
  | ADatabases id => query (λ s, NDatabases (GetAccessibleDatabases id s))
  end.

Definition taken (U : user_map) (name : string) : Prop := ∃ id u, U !! id = Some u ∧ Username u = name.
Definition grants (p : Permission) (id db : string) (r w c d : bool) : Prop :=
  UserID p = id ∧ perm_Database p = db ∧ CanRead p = r ∧ CanWrite p = w ∧ CanCreate p = c ∧ CanDrop p = d.

(** What an operation may answer and do to the abstract store. *)
Inductive auth_step (U : user_map) (P : perm_map) : auth_op → outcome auth_answer → user_map → perm_map → Prop :=
| step_taken name pw role :
    taken U name → auth_step U P (ACreate name pw role) (Err ("username " +:+ name +:+ " already exists")) U P
| step_no_name pw role :
    ¬ taken U "" → auth_step U P (ACreate "" pw role) (Err "username is required") U P
| step_no_password name role :
    ¬ taken U name → name ≠ "" → auth_step U P (ACreate name "" role) (Err "password is required") U P
| step_no_hash name pw role e :
    ¬ taken U name → auth_step U P (ACreate name pw role) (Err ("failed to hash password: " +:+ e)) U P
| step_create name pw role u :
    ¬ taken U name → name ≠ "" → pw ≠ "" → U !! ID u = None → Username u = name → Role u = role → has_password u pw →
    auth_step U P (ACreate name pw role) (Ok (NUser (Some u))) (<[ID u := u]> U) P
| step_ensure_exists name pw : taken U name → auth_step U P (AEnsure name pw) (Ok (NUser None)) U P
| step_ensure name pw r U' P' :
    ¬ taken U name → auth_step U P (ACreate name pw RoleAdmin) r U' P' → auth_step U P (AEnsure name pw) r U' P'
| step_delete id u : U !! id = Some u → auth_step U P (ADelete id) (Ok NDone) (delete id U) (others id P)
| step_delete_missing id : U !! id = None → auth_step U P (ADelete id) (Err "user not found") U P
| step_password_missing id pw : U !! id = None → auth_step U P (APassword id pw) (Err "user not found") U P
| step_password_empty id u : U !! id = Some u → auth_step U P (APassword id "") (Err "password is required") U P
| step_password_no_hash id pw e : auth_step U P (APassword id pw) (Err ("failed to hash password: " +:+ e)) U P
| step_password id pw u u' :
    U !! id = Some u → pw ≠ "" → ID u' = id → Username u' = Username u → Role u' = Role u → has_password u' pw →
    auth_step U P (APassword id pw) (Ok NDone) (<[id := u']> U) P
| step_grant_missing id db r w c d : U !! id = None → auth_step U P (AGrant id db r w c d) (Err "user not found") U P
| step_grant id db r w c d p :
    is_Some (U !! id) → grants p id db r w c d →
    auth_step U P (AGrant id db r w c d) (Ok (NPermission p)) U (<[(id, db) := p]> P)
| step_revoke_missing id db : P !! (id, db) = None → auth_step U P (ARevoke id db) (Err "permission not found") U P
| step_revoke id db : is_Some (P !! (id, db)) → auth_step U P (ARevoke id db) (Ok NDone) U (delete (id, db) P)
| step_user id : auth_step U P (AUser id) (Ok (NUser (U !! id))) U P
| step_name name u : (∀ v, u = Some v ↔ ∃ id, U !! id = Some v ∧ Username v = name) →
    auth_step U P (AName name) (Ok (NUser u)) U P
| step_permissions id l : NoDup l → (∀ p, p ∈ l ↔ ∃ d, P !! (id, d) = Some p) →
    auth_step U P (APermissions id) (Ok (NPermissions l)) U P
| step_access id db r w c d :
    auth_step U P (AAccess id db r w c d)
      (Ok (NBool (user_is_admin U id || match P !! (id, db) with Some p => HasAccess p r w c d | None => false end))) U P
| step_databases_admin id : user_is_admin U id = true → auth_step U P (ADatabases id) (Ok (NDatabases None)) U P
| step_databases id l : user_is_admin U id = false → (∀ d, d ∈ l ↔ ∃ p, P !! (id, d) = Some p ∧ CanRead p = true) →
    auth_step U P (ADatabases id) (Ok (NDatabases (Some l))) U P.

(** Ids are written without a colon, as identifiers are. *)
Definition op_ids_ok (op : auth_op) : Prop :=
  match op with
  | ARevoke id _ | AAccess id _ _ _ _ _ => free_of ":"%char id = true
  | _ => True
  end.

Fixpoint auth_exec_all (ops : list auth_op) (a : AuthState) : list (outcome auth_answer) * AuthState :=
  match ops with
  | [] => ([], a)
  | op :: ops' => let '(r, a1) := auth_exec op a in let '(rs, a2) := auth_exec_all ops' a1 in (r :: rs, a2)
  end.
Inductive auth_steps : user_map → perm_map → list auth_op → list (outcome auth_answer) → user_map → perm_map → Prop :=
| steps_nil U P : auth_steps U P [] [] U P
| steps_cons U P op r U1 P1 ops rs U2 P2 :
    auth_step U P op r U1 P1 → auth_steps U1 P1 ops rs U2 P2 → auth_steps U P (op :: ops) (r :: rs) U2 P2.
End runs.

Section refine.
Context `{AuthLaws}.
Implicit Types (a : AuthState) (U : user_map) (P : perm_map).

(** A change of the store followed by [persist]. *)
Lemma changed_run a s U P n :
  store_rep s U P → (∀ k, n ≤ k → U !! uuid_New k = None) → ∃ a',
  persist (mkAuth s (a_files a) n) = (Ok (), a') ∧ auth_rep a' U P.
Proof.
  intros Hs Hf. destruct (persist_run (mkAuth s (a_files a) n)) as (fs & k & Hr & Hle & _). cbn in Hle.
  eexists. split; [exact Hr|]. split; [done|]. intros j Hj. cbn in Hj. apply Hf. lia.
Qed.

Lemma not_taken U s P name : store_rep s U P → usersByName s !! name = None ↔ ¬ taken U name.
Proof.
  intros Hs. rewrite (rep_name s U P Hs). unfold taken. split; [intros Hn (id & u & Hu & Hname); by eapply Hn|].
  intros Hn id u Hu Hname. apply Hn. eauto.
Qed.
Lemma is_taken U s P name id : store_rep s U P → usersByName s !! name = Some id → taken U name.
Proof. intros Hs (u & ? & ?)%(sr_names _ _ _ Hs). by exists id, u. Qed.

Lemma on_turn_run {A} (m : M nat A) a r n : m (a_turn a) = (r, n) → on_turn m a = (r, mkAuth (a_store a) (a_files a) n).
Proof. apply (zoom_ok a_turn). Qed.

Lemma auth_rep_later s fs n k U P : auth_rep (mkAuth s fs n) U P → n ≤ k → auth_rep (mkAuth s fs k) U P.
Proof. intros [Hs Hf] Hle. split; [done|]. intros j Hj. cbn in *. apply Hf. lia. Qed.

Lemma create_step a U P name pw role : auth_rep a U P → ∃ r a' U',
  CreateUser name pw role a = (r, a') ∧ auth_rep a' U' P ∧
  auth_step U P (ACreate name pw role) (match r with Ok u => Ok (NUser (Some u)) | Err e => Err e | Panic => Panic | NoFuel => NoFuel end) U' P.
Proof.
  intros [Hs Hf]. destruct a as [s fs n]. cbn [a_store a_turn] in *. unfold CreateUser. rewrite (bind_ok get_state _ _ _ _ eq_refl). cbn [a_store].
  destruct (usersByName s !! name) as [id|] eqn:Hn.
  - eexists _, _, U. split; [done|]. split; [done|]. constructor. by eapply is_taken.
  - apply (not_taken U s P name Hs) in Hn.
    destruct (decide (name = "")) as [->|Hname].
    { eexists _, _, U. rewrite (bind_err _ _ _ "username is required" (mkAuth s fs n)) by done. split; [done|]. split; [done|]. by constructor. }
    destruct (decide (pw = "")) as [->|Hpw].
    { eexists _, _, U. rewrite (bind_err _ _ _ "password is required" (mkAuth s fs n)).
      - split; [done|]. split; [done|]. by constructor.
      - apply (on_turn_run _ (mkAuth s fs n)). unfold NewUser. by rewrite bool_decide_eq_false_2, bool_decide_eq_true_2. }
    destruct (NewUser_run name pw role n Hname Hpw) as [(e & n' & Hr & Hle)|(u & i & n' & Hr & Hi & Hid & Hun & Hrole & Hpass)].
    { rewrite (bind_err _ _ _ _ _ (on_turn_run _ (mkAuth s fs n) _ _ Hr)). eexists _, _, U. split; [done|].
      split; [eapply auth_rep_later; [by split|done]|]. by constructor. }
    mstep (on_turn_run _ (mkAuth s fs n) _ _ Hr). assert (U !! ID u = None) as Hfresh by (rewrite Hid; apply Hf; cbn; lia).
    assert (store_rep (mkStore (<[ID u := u]> (users s)) (<[Username u := ID u]> (usersByName s)) (permissions s)
      (<[ID u := []]> (userPerms s)) (path s)) (<[ID u := u]> U) P) as Hs'.
    { apply rep_create; [done|done|rewrite Hid; apply uuid_no_colon|]. intros i' v Hv Heq. apply Hn. exists i', v. by rewrite Heq. }
    destruct (changed_run (mkAuth s fs n') _ _ _ n' Hs') as (a' & Hp & Ha').
    { intros k Hk. rewrite lookup_insert_ne; [apply Hf; cbn; lia|]. rewrite Hid. intros Heq%uuid_inj. lia. }
    rewrite Hun in Hp. eexists (Ok u), a', _. split; [|split; [exact Ha'|by constructor]].
    rewrite (bind_ok (modify _) _ _ () _ eq_refl). cbn [with_store a_store a_files a_turn]. by mstep Hp.
Qed.

Lemma password_step a U P id pw : auth_rep a U P → ∃ r a' U',
  UpdateUserPassword id pw a = (r, a') ∧ auth_rep a' U' P ∧ auth_step U P (APassword id pw) (r ≫= λ _, Ok NDone) U' P.
Proof.
  intros [Hs Hf]. destruct a as [s fs n]. cbn [a_store a_turn] in *. unfold UpdateUserPassword. rewrite (bind_ok get_state _ _ _ _ eq_refl).
  cbn [a_store]. rewrite (sr_users _ _ _ Hs). destruct (U !! id) as [u|] eqn:Hu.
  - destruct (decide (pw = "")) as [->|Hpw].
    { eexists _, _, U. rewrite (bind_err _ _ _ "password is required" (mkAuth s fs n)) by done. split; [done|]. split; [done|]. by econstructor. }
    destruct (SetPassword_run pw u n Hpw) as [(e & n' & Hr & Hle)|(u' & n' & Hr & Hle & Hid & Hname & Hrole & Hpass)].
    { rewrite (bind_err _ _ _ _ _ (on_turn_run _ (mkAuth s fs n) _ _ Hr)). eexists _, _, U. split; [done|].
      split; [eapply auth_rep_later; [by split|done]|]. constructor. }
    mstep (on_turn_run _ (mkAuth s fs n) _ _ Hr). assert (ID u' = id) as Hid' by (rewrite Hid; by eapply (sr_ids _ _ _ Hs)).
    pose proof (rep_user s U P Hs id u u' Hu Hid' Hname) as Hs'.
    destruct (changed_run (mkAuth s fs n') _ _ _ n' Hs') as (a' & Hp & Ha').
    { intros k Hk. apply lookup_insert_None. split; [apply Hf; lia|]. intros Heq. rewrite Heq, Hf in Hu; [done|lia]. }
    exists (Ok ()), a', (<[id := u']> U). split; [|split; [exact Ha'|by eapply step_password]].
    rewrite (bind_ok (modify _) _ _ () _ eq_refl). exact Hp.
  - eexists _, _, U. split; [done|]. split; [done|]. by constructor.
Qed.

Lemma delete_step a U P id : auth_rep a U P → ∃ r a' U' P',
  DeleteUser id a = (r, a') ∧ auth_rep a' U' P' ∧ auth_step U P (ADelete id) (r ≫= λ _, Ok NDone) U' P'.
Proof.
  intros [Hs Hf]. destruct a as [s fs n]. cbn [a_store a_turn] in *. unfold DeleteUser. rewrite (bind_ok get_state _ _ _ _ eq_refl).
  cbn [a_store]. rewrite (sr_users _ _ _ Hs). destruct (U !! id) as [u|] eqn:Hu.
  - pose proof (rep_delete s U P Hs id u Hu) as Hs'. rewrite (sr_users _ _ _ Hs) in Hs'.
    destruct (changed_run (mkAuth s fs n) _ _ _ n Hs') as (a' & Hp & Ha').
    { intros k Hk. apply lookup_delete_None. right. by apply Hf. }
    exists (Ok ()), a', (delete id U), (others id P). split; [|split; [exact Ha'|by econstructor]]. exact Hp.
  - eexists _, _, U, P. split; [done|]. split; [done|]. by constructor.
Qed.

Lemma grant_step a U P id db r w c d : auth_rep a U P → ∃ res a' P',
  GrantPermission id db r w c d a = (res, a') ∧ auth_rep a' U P' ∧
  auth_step U P (AGrant id db r w c d) (res ≫= λ p, Ok (NPermission p)) U P'.
Proof.
  intros [Hs Hf]. destruct a as [s fs n]. cbn [a_store a_turn] in *. unfold GrantPermission. rewrite (bind_ok get_state _ _ _ _ eq_refl).
  cbn [a_store]. rewrite (sr_users _ _ _ Hs). destruct (U !! id) as [u|] eqn:Hu.
  - destruct (sr_ids _ _ _ Hs id u Hu) as [_ Hcolon]. cbv zeta. rewrite (rep_lookup s U P Hs id db Hcolon).
    destruct (P !! (id, db)) as [q|] eqn:Hq.
    + rewrite (bind_ok _ _ _ _ _ (turn_run _)). cbn [a_store a_files a_turn].
      set (p := mkPerm _ _ _ _ _ _ _ _ _). destruct (sr_fields _ _ _ Hs _ _ _ Hq) as (Hq1 & Hq2 & _).
      destruct (sr_lists _ _ _ Hs id u Hu) as (keys & Hkeys & _).
      pose proof (rep_grant s U P Hs id db u p keys Hu Hq1 Hq2) as Hs'. rewrite (insert_id (userPerms s) id keys Hkeys) in Hs'.
      destruct (changed_run (mkAuth s fs (S n)) _ _ _ (S n) (Hs' ltac:(rewrite decide_True by eauto; by rewrite Hkeys))) as (a' & Hp & Ha').
      { intros k Hk. apply Hf. lia. }
      exists (Ok p), a', (<[(id, db) := p]> P). split; [|split; [exact Ha'|constructor; [eauto|by split_and!]]].
      rewrite (bind_ok (modify _) _ _ () _ eq_refl). cbn [with_store a_store a_files a_turn]. rewrite <- (sr_users _ _ _ Hs). by mstep Hp.
    + unfold NewPermission. set (p := mkPerm (uuid_New (S n)) id db r w c d (time_Now n) (time_Now n)).
      rewrite (bind_ok _ _ _ p (mkAuth s fs (S (S n)))) by done.
      pose proof (rep_grant s U P Hs id db u p _ Hu eq_refl eq_refl eq_refl) as Hs'.
      rewrite decide_False in Hs' by (rewrite Hq; by intros []).
      destruct (changed_run (mkAuth s fs (S (S n))) _ _ _ (S (S n)) Hs') as (a' & Hp & Ha').
      { intros k Hk. apply Hf. lia. }
      exists (Ok p), a', (<[(id, db) := p]> P). split; [|split; [exact Ha'|constructor; [eauto|by split_and!]]].
      rewrite (bind_ok (modify _) _ _ () _ eq_refl). cbn [with_store a_store a_files a_turn]. rewrite <- (sr_users _ _ _ Hs). by mstep Hp.
  - eexists _, _, P. split; [done|]. split; [done|]. by constructor.
Qed.

Lemma revoke_step a U P id db : auth_rep a U P → free_of ":"%char id = true → ∃ res a' P',
  RevokePermission id db a = (res, a') ∧ auth_rep a' U P' ∧ auth_step U P (ARevoke id db) (res ≫= λ _, Ok NDone) U P'.
Proof.
  intros [Hs Hf] Hid. destruct a as [s fs n]. cbn [a_store a_turn] in *. unfold RevokePermission. rewrite (bind_ok get_state _ _ _ _ eq_refl).
  cbn [a_store]. cbv zeta. rewrite (rep_lookup s U P Hs id db Hid). destruct (P !! (id, db)) as [p|] eqn:Hp.
  - pose proof (rep_revoke s U P Hs id db p Hp) as Hs'. destruct (rep_keys s U P Hs id) as (keys & Hkeys & _ & Hk).
    rewrite bool_decide_eq_true_2 by (rewrite Hkeys; apply Hk; eauto).
    destruct (changed_run (mkAuth s fs n) _ _ _ n Hs' Hf) as (a' & Hr & Ha').
    exists (Ok ()), a', (delete (id, db) P). split; [exact Hr|]. split; [exact Ha'|]. constructor. eauto.
  - eexists _, _, P. split; [done|]. split; [done|]. by constructor.
Qed.

Lemma auth_exec_step a U P op : auth_rep a U P → op_ids_ok op → ∃ r a' U' P',
  auth_exec op a = (r, a') ∧ auth_rep a' U' P' ∧ auth_step U P op r U' P'.
Proof.
  intros Ha Hop. pose proof Ha as [Hs Hf]. destruct op as [name pw role|name pw|id|id pw|id db r w c d|id db|id|name|id|id db r w c d|id]; cbn [auth_exec].
  - destruct (create_step a U P name pw role Ha) as (r & a' & U' & Hr & Ha' & Hst). unfold mbind, M_mbind, M_bind. rewrite Hr.
    destruct r; eexists _, _, _, _; (split; [reflexivity|]); by split.
  - unfold EnsureAdmin. unfold mbind, M_mbind, M_bind, get_state. destruct (usersByName (a_store a) !! name) as [id|] eqn:Hn.
    + eexists _, _, _, _. split; [done|]. split; [done|]. constructor. by eapply is_taken.
    + apply (not_taken U (a_store a) P name Hs) in Hn.
      destruct (create_step a U P name pw RoleAdmin Ha) as (r & a' & U' & Hr & Ha' & Hst). rewrite Hr.
      destruct r; eexists _, _, _, _; (split; [reflexivity|]); (split; [done|]); by constructor.
  - destruct (delete_step a U P id Ha) as (r & a' & U' & P' & Hr & Ha' & Hst). unfold mbind, M_mbind, M_bind. rewrite Hr.
    destruct r; eexists _, _, _, _; (split; [reflexivity|]); by split.
  - destruct (password_step a U P id pw Ha) as (r & a' & U' & Hr & Ha' & Hst). unfold mbind, M_mbind, M_bind. rewrite Hr.
    destruct r; eexists _, _, _, _; (split; [reflexivity|]); by split.
  - destruct (grant_step a U P id db r w c d Ha) as (res & a' & P' & Hr & Ha' & Hst). unfold mbind, M_mbind, M_bind. rewrite Hr.
    destruct res; eexists _, _, _, _; (split; [reflexivity|]); by split.
  - destruct (revoke_step a U P id db Ha Hop) as (r & a' & P' & Hr & Ha' & Hst). unfold mbind, M_mbind, M_bind. rewrite Hr.
    destruct r; eexists _, _, _, _; (split; [reflexivity|]); by split.
  - eexists _, _, U, P. split; [done|]. split; [done|]. unfold GetUser. rewrite (sr_users _ _ _ Hs). constructor.
  - eexists _, _, U, P. split; [done|]. split; [done|]. constructor. intros v. by apply GetUserByUsername_ok with P.
  - eexists _, _, U, P. split; [done|]. split; [done|]. destruct (GetUserPermissions_ok _ U P Hs id). by constructor.
  - eexists _, _, U, P. split; [done|]. split; [done|]. rewrite (HasDatabaseAccess_ok _ U P Hs id db r w c d Hop). constructor.
  - eexists _, _, U, P. split; [done|]. split; [done|]. pose proof (GetAccessibleDatabases_ok _ U P Hs id) as Hd.
    destruct (GetAccessibleDatabases id (a_store a)); [destruct Hd|]; by constructor.
Qed.

Lemma run_refines ops : ∀ a U P, auth_rep a U P → Forall op_ids_ok ops → ∃ U' P',
  auth_steps U P ops (auth_exec_all ops a).1 U' P' ∧ auth_rep (auth_exec_all ops a).2 U' P'.
Proof.
  induction ops as [|op ops IH]; intros a U P Ha Hops; [exists U, P; split; [constructor|done]|].
  apply Forall_cons in Hops as [Hop Hops]. destruct (auth_exec_step a U P op Ha Hop) as (r & a1 & U1 & P1 & Hr & Ha1 & Hst).
  cbn [auth_exec_all]. rewrite Hr. destruct (IH a1 U1 P1 Ha1 Hops) as (U' & P' & Hsts & Ha').
  destruct (auth_exec_all ops a1) as [rs a2]. cbn in *. exists U', P'. split; [by econstructor|done].
Qed.
End refine.

(** C20: the store refines a map of users and a map of permissions.  Every run of
    operations, whatever input or output fails, answers and acts as the abstract
    store does: names are unique, new ids are fresh, a new password is the one that
    is checked, deleting a user takes its permissions away, and access to a database
    is that of an administrator or of the permission granted last and not revoked. *)
Theorem auth_refines_maps `{AuthLaws} ops a U P :
  auth_rep a U P → Forall op_ids_ok ops → ∃ U' P',
  auth_steps U P ops (auth_exec_all ops a).1 U' P' ∧ auth_rep (auth_exec_all ops a).2 U' P'.
Proof. apply run_refines. Qed.

(** ** The file after a run *)

Section durable.
Context `{AuthLaws}.

(** An operation leaves the store and the files as they are, or ends with [persist]. *)
Definition ends_well (a a' : AuthState) : Prop :=
  path (a_store a') = path (a_store a) ∧
  ((a_store a' = a_store a ∧ a_files a' = a_files a) ∨ ∃ n, persist (mkAuth (a_store a') (a_files a) n) = (Ok (), a')).

Lemma ends_same a s fs n : s = a_store a → fs = a_files a → ends_well a (mkAuth s fs n).
Proof. intros -> ->. split; [done|]. by left. Qed.
(** Changing the store, then [persist] and a result. *)
Lemma ends_persist {A} a s n (x : A) : path s = path (a_store a) →
  ends_well a ((persist;; mret x) (mkAuth s (a_files a) n)).2.
Proof.
  intros Hp. destruct (persist_run (mkAuth s (a_files a) n)) as (fs & k & Hr & _). rewrite (bind_ok _ _ _ _ _ Hr). cbn. split; [done|].
  right. by exists n.
Qed.
Lemma auth_ends_bind {A B} (m : M AuthState A) (f : A → B) a : ends_well a (m a).2 → ends_well a ((x ← m; mret (f x)) a).2.
Proof. unfold mbind, M_mbind, M_bind. destruct (m a) as [[]]; done. Qed.
Lemma ends_turn {A B} (m : M nat A) (f : A → M AuthState B) a :
  (∀ x n, ends_well a (f x (mkAuth (a_store a) (a_files a) n)).2) → ends_well a ((on_turn m ≫= f) a).2.
Proof.
  intros Hf. unfold mbind, M_mbind, M_bind, on_turn, zoom. destruct (m (a_turn a)) as [[] n]; try by apply ends_same. apply Hf.
Qed.
Lemma ends_put a s n : path s = path (a_store a) → ends_well a (persist (mkAuth s (a_files a) n)).2.
Proof.
  intros Hp. destruct (persist_run (mkAuth s (a_files a) n)) as (fs & k & Hr & _). rewrite Hr. split; [done|]. right. by exists n.
Qed.

Lemma create_ends name pw role a : ends_well a (CreateUser name pw role a).2.
Proof.
  unfold CreateUser. rewrite (bind_ok get_state _ _ _ _ eq_refl). destruct (usersByName (a_store a) !! name); [by destruct a; apply ends_same|].
  apply ends_turn. intros u n. rewrite (bind_ok (modify _) _ _ () _ eq_refl). by apply (ends_persist a).
Qed.
Lemma exec_ends op a : ends_well a (auth_exec op a).2.
Proof.
  destruct op as [name pw role|name pw|id|id pw|id db r w c d|id db|id|name|id|id db r w c d|id]; cbn [auth_exec];
    try (by destruct a; apply ends_same); apply auth_ends_bind.
  - apply create_ends.
  - unfold EnsureAdmin. rewrite (bind_ok get_state _ _ _ _ eq_refl). destruct (usersByName (a_store a) !! name); [by destruct a; apply ends_same|].
    apply auth_ends_bind, create_ends.
  - unfold DeleteUser. rewrite (bind_ok get_state _ _ _ _ eq_refl). destruct (users (a_store a) !! id); [|by destruct a; apply ends_same].
    rewrite (bind_ok (put_state _) _ _ () _ eq_refl). by apply (ends_put a _ (a_turn a)).
  - unfold UpdateUserPassword. rewrite (bind_ok get_state _ _ _ _ eq_refl). destruct (users (a_store a) !! id); [|by destruct a; apply ends_same].
    apply ends_turn. intros v n. rewrite (bind_ok (modify _) _ _ () _ eq_refl). by apply (ends_put a).
  - unfold GrantPermission. rewrite (bind_ok get_state _ _ _ _ eq_refl). destruct (users (a_store a) !! id); [|by destruct a; apply ends_same].
    cbv zeta. destruct (permissions (a_store a) !! PermissionKey id db); apply ends_turn; intros x n; rewrite (bind_ok (modify _) _ _ () _ eq_refl); by apply (ends_persist a).
  - unfold RevokePermission. rewrite (bind_ok get_state _ _ _ _ eq_refl). cbv zeta.
    destruct (permissions (a_store a) !! PermissionKey id db); [|by destruct a; apply ends_same].
    rewrite (bind_ok (put_state _) _ _ () _ eq_refl). by apply (ends_put a _ (a_turn a)).
Qed.

(** The file holds what [s] is. *)
Definition holds_store (fs : gmap string (list byte)) (s : Store) : Prop :=
  ∃ t data, fs !! path s = Some data ∧ store_text (snapshot t s) = Some data.
Definition no_failures : Prop := (∀ t, io_fails t = false) ∧ ∀ ps, is_Some (store_text ps).

Lemma exec_holds op a : no_failures → path (a_store a) ≠ "" → holds_store (a_files a) (a_store a) →
  holds_store (a_files (auth_exec op a).2) (a_store (auth_exec op a).2) ∧ path (a_store (auth_exec op a).2) = path (a_store a).
Proof.
  intros [Hio Htx] Hp Hh. destruct (exec_ends op a) as [Hpath [[Hs Hf]|[n Hr]]]; (split; [|done]).
  - by rewrite Hs, Hf.
  - set (a' := (auth_exec op a).2) in *. destruct (persist_run (mkAuth (a_store a') (a_files a) n)) as (fs & k & Hr' & _ & _ & Hok).
    rewrite Hr in Hr'. injection Hr' as Ha'. destruct Hok as [t Ht]; [cbn; by rewrite Hpath|done|done|]. cbn in Ht.
    rewrite Ha' at 1. cbn. destruct (Htx (snapshot t (a_store a'))) as [data Hd]. exists t, data. by rewrite Ht, Hd.
Qed.
Lemma run_holds ops : ∀ a, no_failures → path (a_store a) ≠ "" → holds_store (a_files a) (a_store a) →
  holds_store (a_files (auth_exec_all ops a).2) (a_store (auth_exec_all ops a).2) ∧
  path (a_store (auth_exec_all ops a).2) = path (a_store a).
Proof.
  induction ops as [|op ops IH]; intros a Hn Hp Hh; [done|]. destruct (exec_holds op a Hn Hp Hh) as [Hh1 Hp1]. cbn [auth_exec_all].
  destruct (auth_exec op a) as [r a1]. cbn [snd] in *. destruct (IH a1 Hn) as [Hh2 Hp2]; [by rewrite Hp1|done|].
  destruct (auth_exec_all ops a1) as [rs a2]. cbn in *. by rewrite Hp2.
Qed.
End durable.

(** *** Reading a snapshot *)

Section reload.
Context `{AuthLaws}.

Lemma restore_persist u : restore_user (persist_user u) = u.
Proof. by destruct u. Qed.

(** Loading users whose ids and names are new to the store. *)
Lemma load_users s U (l : list (string * User)) P :
  store_rep s U P → NoDup l.*1 → (∀ id u, (id, u) ∈ l → ID u = id ∧ free_of ":"%char id = true ∧ U !! id = None) →
  (∀ id u id' u', (id, u) ∈ l → (id', u') ∈ l → Username u = Username u' → id = id') →
  (∀ id u id' u', (id, u) ∈ l → U !! id' = Some u' → Username u ≠ Username u') →
  store_rep (foldl load_user s ((λ e : string * User, persist_user e.2) <$> l)) (list_to_map l ∪ U) P.
Proof.
  revert s U. induction l as [|[id u] l IH]; intros s U Hs Hnd Hid Hname Hother; cbn [fmap list_fmap foldl snd].
  - by rewrite list_to_map_nil, (left_id_L ∅ _).
  - apply NoDup_cons in Hnd as [Hni Hnd]. cbn in Hni. destruct (Hid id u) as (Hu & Hcolon & Hnew); [by left|].
    assert (list_to_map ((id, u) :: l) ∪ U = list_to_map l ∪ <[id := u]> U) as ->.
    { cbn. rewrite <- insert_union_l. apply insert_union_r. by apply not_elem_of_list_to_map_1. }
    apply IH; [|done|..].
    + unfold load_user. rewrite restore_persist, Hu, (sr_no_lists _ _ _ Hs id Hnew). rewrite <- Hu.
      apply rep_create; rewrite ?Hu; try done. intros i v Hv Heq. by apply (Hother id u i v); [left|..].
    + intros i v Hin. destruct (Hid i v) as (? & ? & ?); [by right|]. split_and!; try done.
      rewrite lookup_insert_ne; [done|]. intros <-. apply Hni. apply list_elem_of_fmap. by exists (id, v).
    + intros i v i' v' Hin Hin'. apply Hname; by right.
    + intros i v i' v' Hin [[<- <-]|[Hne Hv']]%lookup_insert_Some Heq; [|by apply (Hother i v i' v'); [right|..]].
      apply Hni. apply list_elem_of_fmap. exists (i, v). split; [|done]. cbn. apply (Hname id u i v); [by left|by right|done].
Qed.

(** Loading permissions of users of the store, each new to it. *)
Lemma load_permissions s U P (l : list Permission) :
  store_rep s U P → NoDup ((λ p, (UserID p, perm_Database p)) <$> l) →
  (∀ p, p ∈ l → is_Some (U !! UserID p) ∧ P !! (UserID p, perm_Database p) = None) →
  store_rep (foldl load_permission s l) U (list_to_map ((λ p, ((UserID p, perm_Database p), p)) <$> l) ∪ P).
Proof.
  revert s P. induction l as [|p l IH]; intros s P Hs Hnd Hl; cbn [fmap list_fmap foldl].
  - by rewrite list_to_map_nil, (left_id_L ∅ _).
  - apply NoDup_cons in Hnd as [Hni Hnd]. destruct (Hl p) as [[u Hu] Hnew]; [by left|].
    set (k := (UserID p, perm_Database p)) in *. set (l' := (λ p, ((UserID p, perm_Database p), p)) <$> l) in *.
    assert (l'.*1 = (λ p, (UserID p, perm_Database p)) <$> l) as Hl' by (unfold l'; by rewrite <- list_fmap_compose).
    assert (list_to_map ((k, p) :: l') ∪ P = list_to_map l' ∪ <[k := p]> P) as ->.
    { cbn. rewrite <- insert_union_l. apply insert_union_r. apply not_elem_of_list_to_map_1. by rewrite Hl'. }
    apply IH; [|done|].
    + apply (rep_grant s U P Hs (UserID p) (perm_Database p) u p _ Hu eq_refl eq_refl).
      rewrite decide_False; [done|]. unfold k in Hnew. rewrite Hnew. by intros [].
    + intros q Hq. destruct (Hl q) as [? ?]; [by right|]. split; [done|]. rewrite lookup_insert_ne; [done|].
      intros Heq. apply Hni. rewrite Heq. apply list_elem_of_fmap. eauto.
Qed.

Lemma new_store_rep p : store_rep (mkStore ∅ ∅ ∅ ∅ p) ∅ ∅.
Proof.
  split; cbn; try done.
  - intros name id. rewrite lookup_empty. split; [done|]. intros (u & Hu & _). by rewrite lookup_empty in Hu.
  - intros key q. rewrite lookup_empty. split; [done|]. intros (u & d & _ & Hp). by rewrite lookup_empty in Hp.
Qed.

(** Loading a snapshot of a store into an empty one gives the same users and permissions. *)
Lemma load_snapshot s U P t p : store_rep s U P → store_rep (load_all (snapshot t s) (mkStore ∅ ∅ ∅ ∅ p)) U P.
Proof.
  intros Hs. unfold load_all, snapshot. cbn [ps_Users ps_Permissions]. rewrite (sr_users _ _ _ Hs).
  set (lu := range_users t U). set (lp := range_permissions t (permissions s)).
  assert (lu ≡ₚ map_to_list U) as Hlu by apply range_users_perm.
  assert (lp ≡ₚ map_to_list (permissions s)) as Hlp by apply range_permissions_perm.
  assert (∀ id u, (id, u) ∈ lu ↔ U !! id = Some u) as Hinu by (intros id u; by rewrite Hlu, elem_of_map_to_list).
  assert (NoDup lu.*1) as Hndu by (rewrite Hlu; apply NoDup_fst_map_to_list).
  assert (store_rep (foldl load_user (mkStore ∅ ∅ ∅ ∅ p) ((λ e : string * User, persist_user e.2) <$> lu)) U ∅) as Hs1.
  { assert (list_to_map lu ∪ ∅ = U) as HU.
    { rewrite (right_id_L ∅ _). rewrite (list_to_map_proper lu (map_to_list U)) by done. apply list_to_map_to_list. }
    rewrite <- HU. apply load_users; [apply new_store_rep|done|..].
    - intros id u Hiu%Hinu. destruct (sr_ids _ _ _ Hs id u Hiu). done.
    - intros id u id' u' Hiu%Hinu Hiu'%Hinu Heq. pose proof (sr_names _ _ _ Hs (Username u)) as Hn.
      assert (usersByName s !! Username u = Some id) as E1 by (apply Hn; eauto).
      assert (usersByName s !! Username u = Some id') as E2 by (apply Hn; eauto). congruence.
    - intros id u id' u' _ Hu'. by rewrite lookup_empty in Hu'. }
  assert (∀ q, q ∈ lp.*2 ↔ P !! (UserID q, perm_Database q) = Some q) as Hinp.
  { intros q. rewrite Hlp, list_elem_of_fmap. split.
    - intros ([k q'] & -> & Hk%elem_of_map_to_list). cbn. apply (sr_perms _ _ _ Hs) in Hk as (u & d & _ & Hp).
      by destruct (sr_fields _ _ _ Hs _ _ _ Hp) as (-> & -> & _).
    - intros Hp. exists (PermissionKey (UserID q) (perm_Database q), q). split; [done|]. apply elem_of_map_to_list, (sr_perms _ _ _ Hs). eauto. }
  assert (NoDup ((λ q, (UserID q, perm_Database q)) <$> lp.*2)) as Hndp.
  { apply (NoDup_fmap_1 (λ k : string * string, PermissionKey k.1 k.2)).
    assert ((λ k : string * string, PermissionKey k.1 k.2) <$> ((λ q, (UserID q, perm_Database q)) <$> lp.*2) = lp.*1) as ->.
    { rewrite <- !list_fmap_compose. apply list_fmap_ext. intros i [k q] Hi%list_elem_of_lookup_2. rewrite Hlp, elem_of_map_to_list in Hi.
      cbn. symmetry. by apply (rep_key_of s U P Hs). }
    rewrite Hlp. apply NoDup_fst_map_to_list. }
  assert (list_to_map ((λ q, ((UserID q, perm_Database q), q)) <$> lp.*2) ∪ ∅ = P) as HP.
  { rewrite (right_id_L ∅ _). apply map_eq. intros [u d]. apply option_eq. intros q.
    rewrite <- elem_of_list_to_map by (by rewrite <- list_fmap_compose). rewrite list_elem_of_fmap. split.
    - intros (q' & [= -> -> <-] & Hq). by apply Hinp.
    - intros Hp. exists q. destruct (sr_fields _ _ _ Hs _ _ _ Hp) as (<- & <- & _). split; [done|]. by apply Hinp. }
  rewrite <- HP. apply load_permissions; [done|done|]. intros q Hq. split; [|apply lookup_empty].
  apply Hinp in Hq. by destruct (sr_fields _ _ _ Hs _ _ _ Hq) as (_ & _ & ?).
Qed.
End reload.

(** Users and permissions survive a restart: when no input or output fails, after
    any run of operations on a store whose file is up to date, opening the directory
    again gives a store with the users and permissions that the run left. *)
Theorem store_survives_restart `{AuthLaws} ops a U P dir :
  no_failures → auth_rep a U P → Forall op_ids_ok ops → dir ≠ "" → path (a_store a) = filepath_Join dir "auth.json" →
  path (a_store a) ≠ "" → holds_store (a_files a) (a_store a) →
  let a' := (auth_exec_all ops a).2 in
  (∀ t data, store_text (snapshot t (a_store a')) = Some data → data ≠ [] ∧ store_parse data = Ok (snapshot t (a_store a'))) →
  ∃ U' P' a2, auth_steps U P ops (auth_exec_all ops a).1 U' P' ∧
    NewPersistentStore dir a' = (Ok (), a2) ∧ store_rep (a_store a2) U' P'.
Proof.
  intros Hok Ha Hops Hdir Hpath Hp Hh a' Htext. destruct (run_refines ops a U P Ha Hops) as (U' & P' & Hst & [Hs' _]).
  destruct (run_holds ops a Hok Hp Hh) as [(t & data & Hfile & Hdata) Hpath']. fold a' in Hs', Hfile, Hdata, Hpath'.
  rewrite Hpath', Hpath in Hfile. destruct (Htext t data Hdata) as [Hne Hparse].
  exists U', P', (mkAuth (load_all (snapshot t (a_store a')) (mkStore ∅ ∅ ∅ ∅ (filepath_Join dir "auth.json"))) (a_files a') (S (S (a_turn a')))).
  split; [exact Hst|]. split; [|by apply load_snapshot].
  unfold NewPersistentStore. rewrite (bind_ok (modify _) _ _ () _ eq_refl). rewrite bool_decide_eq_false_2 by done.
  rewrite (bind_ok _ _ _ _ _ (turn_run _)). destruct Hok as [Hio _]. rewrite Hio.
  rewrite (bind_ok (modify _) _ _ () _ eq_refl). unfold load. rewrite (bind_ok get_state _ _ _ _ eq_refl).
  cbn [with_store a_store a_files a_turn path]. rewrite bool_decide_eq_false_2 by congruence.
  rewrite (bind_ok _ _ _ _ _ (turn_run _)). rewrite Hio. rewrite Hfile. destruct data as [|b data]; [done|].
  rewrite (bind_ok _ _ _ (snapshot t (a_store a')) (mkAuth (mkStore ∅ ∅ ∅ ∅ (filepath_Join dir "auth.json")) (a_files a') (S (S (a_turn a')))));
    [done|]. by rewrite Hparse.
Qed.

(** C21: a write is atomic: whatever input or output fails, after any run the file is
    as it was, or it holds a snapshot of the store as it was after some operation of
    the run. *)
Theorem file_is_atomic `{AuthLaws} ops a :
  let fs := a_files (auth_exec_all ops a).2 in
  let p := path (a_store a) in
  fs !! p = a_files a !! p ∨
  ∃ ops1 ops2 t data, ops = ops1 ++ ops2 ∧ fs !! p = Some data ∧
    store_text (snapshot t (a_store (auth_exec_all ops1 a).2)) = Some data.
Proof.
  revert a. induction ops as [|op ops IH]; intros a; [by left|]. cbn [auth_exec_all]. pose proof (exec_ends op a) as [Hpath He].
  destruct (auth_exec op a) as [r a1] eqn:Hr. cbn [snd] in *. specialize (IH a1). cbv zeta in *.
  assert (∀ ops1, (auth_exec_all (op :: ops1) a).2 = (auth_exec_all ops1 a1).2) as Hcons.
  { intros ops1. cbn [auth_exec_all]. rewrite Hr. by destruct (auth_exec_all ops1 a1). }
  destruct (auth_exec_all ops a1) as [rs a2] eqn:Hrs. cbn [snd] in *. rewrite Hpath in IH.
  destruct IH as [IH|(ops1 & ops2 & t & data & -> & Hf & Hd)].
  - destruct He as [[_ Hfs]|[n Hp]]; [left; by rewrite IH, Hfs|].
    destruct (persist_run (mkAuth (a_store a1) (a_files a) n)) as (fs & k & Hp' & _ & Hcase & _). rewrite Hp in Hp'. injection Hp' as Ha1.
    assert (a_files a1 = fs) as Hfs by (by rewrite Ha1). cbn in Hcase. rewrite Hpath, <- Hfs, <- IH in Hcase.
    destruct Hcase as [Hsame|(t & Ht & [data Hdata])]; [by left|]. right.
    exists [op], ops, t, data. rewrite Hcons. cbn. split; [done|]. split; [done|]. by rewrite <- Ht.
  - right. exists (op :: ops1), ops2, t, data. by rewrite Hcons.
Qed.

(** ** Tokens and logging in (jwt.go, auth.go) *)

Record Claims := mkClaims {
  c_UserID : string; c_Username : string; c_Role : string;
  c_ExpiresAt : Z; c_IssuedAt : Z; c_Issuer : string;
}.

(** The token library: signing with HS256, and parsing, which checks the signature
    and the expiry at the current time. *)
Class JWT := {
  jwt_SignedString : string → Claims → string + string;
  jwt_ParseWithClaims : string → Z → string → Claims + string;
}.
(** Documented behaviour: a signed token is accepted with its key until it expires,
    with the claims that were signed. *)
Class JWTLaws `{JWT} := {
  jwt_complete secret c token now :
    jwt_SignedString secret c = inl token → (now < c_ExpiresAt c)%Z → jwt_ParseWithClaims secret now token = inl c;
}.

Definition second : Z := 1000000000.
Definition TokenExpiration : Z := 24 * 3600 * second.
(** [jwt.NewNumericDate]: times are kept in whole seconds. *)
Definition NewNumericDate (t : Z) : Z := (t / second * second)%Z.

Section service.
Context `{Crypto} `{AuthRuntime} `{JWT}.

Definition GenerateToken (secret : string) (user : User) : M nat string :=
  t ← turn;
  t' ← turn;
  let claims := mkClaims (ID user) (Username user) (Role user)
    (NewNumericDate (time_Now t + TokenExpiration)) (NewNumericDate (time_Now t')) "gothinkdb" in
  match jwt_SignedString secret claims with inl token => mret token | inr e => fail e end.

Definition ValidateToken (secret tokenString : string) : M nat Claims :=
  t ← turn;
  match jwt_ParseWithClaims secret (time_Now t) tokenString with
  | inl claims => mret claims
  | inr e => fail ("invalid token: " +:+ e)
  end.
Definition SetJWTSecret (secret current : string) : string := if bool_decide (secret = "") then current else secret.

Definition Login (secret username password : string) : M AuthState (string * User) :=
  a ← get_state;
  match GetUserByUsername username (a_store a) with
  | None => fail "invalid credentials"
  | Some user =>
      if CheckPassword user password then
        token ← wrap_err "failed to generate token" (on_turn (GenerateToken secret user));
        mret (token, user)
      else fail "invalid credentials"
  end.

Definition GetUserFromToken (secret tokenString : string) : M AuthState User :=
  claims ← on_turn (ValidateToken secret tokenString);
  a ← get_state;
  match GetUser (c_UserID claims) (a_store a) with Some user => mret user | None => fail "user not found" end.

(** The user that the middleware puts in the context of a request. *)
Definition RequireUser (ctx : option User) : outcome User :=
  match ctx with Some user => Ok user | None => Err "user not authenticated" end.
Definition RequireAdmin (ctx : option User) : outcome User :=
  user ← RequireUser ctx; if IsAdmin user then Ok user else Err "admin access required".
End service.

Section login.
Context `{AuthLaws} `{JWTLaws}.

(** The turn at which a token expires. *)
Definition expires (t : nat) : Z := NewNumericDate (time_Now t + TokenExpiration).

Lemma Login_run secret name pw a U P : auth_rep a U P →
  match Login secret name pw a with
  | (Ok (token, u), a') => (∃ id, U !! id = Some u) ∧ Username u = name ∧ CheckPassword u pw = true ∧ auth_rep a' U P ∧
      jwt_SignedString secret (mkClaims (ID u) name (Role u) (expires (a_turn a)) (NewNumericDate (time_Now (S (a_turn a)))) "gothinkdb") = inl token
  | (Err e, a') => (e = "invalid credentials" ∧ ∀ id u, U !! id = Some u → Username u = name → CheckPassword u pw = false) ∨
      ∃ id u c e', U !! id = Some u ∧ Username u = name ∧ CheckPassword u pw = true ∧ c_UserID c = ID u ∧
        jwt_SignedString secret c = inr e' ∧ e = "failed to generate token: " +:+ e'
  | _ => False
  end.
Proof.
  intros [Hs Hf]. unfold Login. rewrite (bind_ok get_state _ _ _ _ eq_refl).
  pose proof (GetUserByUsername_ok _ U P Hs name) as Hu. destruct (GetUserByUsername name (a_store a)) as [u|].
  - destruct (proj1 (Hu u) eq_refl) as (id & Hid & Hname). destruct (CheckPassword u pw) eqn:Hc.
    + unfold GenerateToken, turn, on_turn, zoom, wrap_err, mbind, M_mbind, M_bind, get_state, put_state, mret, M_mret. cbn [a_turn].
      destruct (jwt_SignedString _ _) as [token|e] eqn:Hj; cbn.
      * split; [eauto|]. split; [done|]. split; [done|]. split; [|by rewrite Hname in Hj].
        destruct a as [s fs n]. apply (auth_rep_later s fs n); [by split|cbn; lia].
      * right. eexists id, u, _, e. do 3 (split; [done|]). split; [|by split; [exact Hj|]]. done.
    + left. split; [done|]. intros id' u' Hid' Hname'. assert (Some u = Some u') as [= <-] by (apply Hu; eauto). done.
  - left. split; [done|]. intros id u Hid Hname. assert (None = Some u) as Heq by (apply Hu; eauto). done.
Qed.

Lemma GetUserFromToken_run secret c token a U P :
  auth_rep a U P → jwt_SignedString secret c = inl token → (time_Now (a_turn a) < c_ExpiresAt c)%Z →
  (GetUserFromToken secret token a).1 = match U !! c_UserID c with Some v => Ok v | None => Err "user not found" end.
Proof.
  intros [Hs Hf] Hj Hexp. unfold GetUserFromToken, ValidateToken, turn, on_turn, zoom, mbind, M_mbind, M_bind, get_state, put_state, mret, M_mret, GetUser.
  cbn [a_turn a_store]. rewrite (jwt_complete _ _ _ _ Hj Hexp). cbn. rewrite (sr_users _ _ _ Hs). by destruct (U !! c_UserID c).
Qed.
End login.

(** C22: what logging in gives and what a token is worth.  The right password of a user
    gives a token for that user, unless the signing itself reports an error; every
    other name or password is refused.  Whatever operations follow, the token stands
    for the user as the store has it, until it expires or the user is deleted; then it
    is refused. *)
Theorem token_follows_user `{AuthLaws} `{JWTLaws} secret name pw a U P :
  auth_rep a U P →
  match Login secret name pw a with
  | (Ok (token, u), a1) =>
      (∃ id, U !! id = Some u) ∧ Username u = name ∧ CheckPassword u pw = true ∧
      ∀ ops, Forall op_ids_ok ops →
        let a2 := (auth_exec_all ops a1).2 in
        (time_Now (a_turn a2) < expires (a_turn a))%Z →
        ∃ U' P', auth_steps U P ops (auth_exec_all ops a1).1 U' P' ∧
          (GetUserFromToken secret token a2).1 = match U' !! ID u with Some v => Ok v | None => Err "user not found" end
  | (Err e, _) =>
      (e = "invalid credentials" ∧ ∀ id u, U !! id = Some u → Username u = name → CheckPassword u pw = false) ∨
      ∃ id u c e', U !! id = Some u ∧ Username u = name ∧ CheckPassword u pw = true ∧ c_UserID c = ID u ∧
        jwt_SignedString secret c = inr e' ∧ e = "failed to generate token: " +:+ e'
  | _ => False
  end.
Proof.
  intros Ha. pose proof (Login_run secret name pw a U P Ha) as Hl. destruct (Login secret name pw a) as [[[token u]|e| |] a1]; [|exact Hl..].
  destruct Hl as (Hid & Hname & Hc & Ha1 & Hj). do 3 (split; [done|]). intros ops Hops a2 Hexp.
  destruct (run_refines ops a1 U P Ha1 Hops) as (U' & P' & Hst & Ha2). exists U', P'. split; [done|].
  exact (GetUserFromToken_run _ _ _ _ _ _ Ha2 Hj Hexp).
Qed.

(** ** An example

    A store text and a token that can be read back, made of the bits of an encoding. *)

Definition persisted_tuple (u : persistedUser) :=
  ([pu_ID u; pu_Username u; pu_PasswordHash u; pu_Role u; pu_Salt u; pu_StoredKey u; pu_ServerKey u], [pu_CreatedAt u; pu_UpdatedAt u; pu_Iterations u]).
Definition permission_tuple (p : Permission) :=
  (perm_ID p, UserID p, perm_Database p, (CanRead p, CanWrite p), (CanCreate p, CanDrop p), (perm_CreatedAt p, perm_UpdatedAt p)).
Definition claims_list (secret : string) (c : Claims) : list (string + Z) :=
  [inl secret; inl (c_UserID c); inl (c_Username c); inl (c_Role c); inr (c_ExpiresAt c); inr (c_IssuedAt c); inl (c_Issuer c)].
Definition example_text (ps : persistedStore) : positive :=
  encode (persisted_tuple <$> ps_Users ps, permission_tuple <$> ps_Permissions ps).
Definition persisted_of (t : list string * list Z) : persistedUser :=
  match t with
  | ([a; b; c; d; e; f; g], [x; y; z]) => mkPU a b c d x y e z f g
  | _ => mkPU "" "" "" "" 0 0 "" 0 "" ""
  end.
Definition example_parse (p : positive) : option persistedStore :=
  t ← decode p;
  Some (mkPS (persisted_of <$> t.1)
             ((λ '(a, b, c, (d, e), (f, g), (h, i)), mkPerm a b c d e f g h i) <$> t.2)).
Lemma list_map_back {A B} (f : A → B) (g : B → A) (l : list A) : (∀ x, g (f x) = x) → g <$> (f <$> l) = l.
Proof. intros Hgf. rewrite <- list_fmap_compose. induction l as [|x l IH]; [done|]. cbn. by rewrite Hgf, IH. Qed.
Lemma example_text_parse ps : example_parse (example_text ps) = Some ps.
Proof.
  unfold example_parse, example_text. rewrite decode_encode. cbn. destruct ps as [us ps]. cbn.
  rewrite !list_map_back; [done|by intros []..].
Qed.

#[local] Instance example_runtime : AuthRuntime := {
  filepath_Join a b := a +:+ "/" +:+ b;
  io_fails t := false;
  partial_write t l := [];
  store_text ps := Some (example_bits (example_text ps));
  store_parse l := match example_parse (example_unbits l) with Some ps => Ok ps | None => Err "invalid" end;
  range_users t := map_to_list;
  range_permissions t := map_to_list;
}.
#[local] Existing Instances Scram.example_crypto Scram.example_crypto_laws.
#[local] Instance example_auth_laws : AuthLaws.
Proof.
  split; [exact example_uuid_inj|exact example_uuid_no_colon|done|done].
Qed.
#[local] Instance example_jwt : JWT := {
  jwt_SignedString secret c := inl (String.string_of_list_byte (example_bits (encode (claims_list secret c))));
  jwt_ParseWithClaims secret now token :=
    match decode (A := list (string + Z)) (example_unbits (String.list_byte_of_string token)) with
    | Some [inl s; inl a; inl b; inl c; inr d; inr e; inl f] =>
        let claims := mkClaims a b c d e f in
        if bool_decide (s = secret ∧ (now < d)%Z) then inl claims
        else inr "token is invalid"
    | _ => inr "token is malformed"
    end;
}.
#[local] Instance example_jwt_laws : JWTLaws.
Proof.
  split. intros secret c token now [= <-] Hnow. cbn [jwt_ParseWithClaims example_jwt].
  rewrite String.list_byte_of_string_of_list_byte, example_bits_back, decode_encode. destruct c. cbn in *.
  by rewrite bool_decide_eq_true_2.
Qed.

Definition example_ops : list auth_op :=
  [ACreate "ann" "pw" RoleUser; AGrant "xxxx" "d" true false false false; AAccess "xxxx" "d" true false false false; ADelete "xxxx"].
Definition example_auth : AuthState :=
  mkAuth (mkStore ∅ ∅ ∅ ∅ "data/auth.json") {["data/auth.json" := example_bits (example_text (mkPS [] []))]} 0.
Lemma example_auth_rep : auth_rep example_auth ∅ ∅.
Proof. split; [apply new_store_rep|]. intros n _. apply lookup_empty. Qed.
Lemma example_ops_ok : Forall op_ids_ok example_ops.
Proof. repeat constructor. Qed.

Lemma auth_refines_maps_witness : ∃ U' P',
  auth_steps ∅ ∅ example_ops (auth_exec_all example_ops example_auth).1 U' P' ∧
  auth_rep (auth_exec_all example_ops example_auth).2 U' P'.
Proof. exact (auth_refines_maps example_ops example_auth ∅ ∅ example_auth_rep example_ops_ok). Defined.

Lemma file_is_atomic_witness :
  let fs := a_files (auth_exec_all example_ops example_auth).2 in
  let p := "data/auth.json" in
  fs !! p = a_files example_auth !! p ∨
  ∃ ops1 ops2 t data, example_ops = ops1 ++ ops2 ∧ fs !! p = Some data ∧
    store_text (snapshot t (a_store (auth_exec_all ops1 example_auth).2)) = Some data.
Proof. exact (file_is_atomic example_ops example_auth). Defined.

Lemma store_survives_restart_witness : ∃ U' P' a2,
  auth_steps ∅ ∅ example_ops (auth_exec_all example_ops example_auth).1 U' P' ∧
  NewPersistentStore "data" (auth_exec_all example_ops example_auth).2 = (Ok (), a2) ∧ store_rep (a_store a2) U' P'.
Proof.
  apply (store_survives_restart example_ops example_auth ∅ ∅ "data").
  - split; [done|]. intros ps. by eexists.
  - exact example_auth_rep.
  - exact example_ops_ok.
  - discriminate.
  - reflexivity.
  - discriminate.
  - exists 0, (example_bits (example_text (mkPS [] []))). split; vm_compute; reflexivity.
  - intros t data [= <-]. split; [apply example_bits_not_nil|]. cbn [store_parse example_runtime].
    by rewrite example_bits_back, example_text_parse.
Defined.

(** Ann is created and logs in; her name is then asked for with her token. *)
Definition example_ann : AuthState := (auth_exec_all [ACreate "ann" "pw" RoleUser] example_auth).2.
Definition example_login : string * User * AuthState :=
  match Login "key" "ann" "pw" example_ann with (Ok r, a) => (r, a) | (_, a) => ("", mkUser "" "" "" "" 0 0 "" 0 "" "", a) end.
Lemma example_login_ok : Login "key" "ann" "pw" example_ann = (Ok example_login.1, example_login.2).
Proof. vm_compute. reflexivity. Qed.
Lemma token_follows_user_witness : ∃ U P, auth_rep example_ann U P ∧
  let '(token, u, a1) := example_login in
  let a2 := (auth_exec_all example_ops a1).2 in
  CheckPassword u "pw" = true ∧ Username u = "ann" ∧ ∃ U' P', auth_steps U P example_ops (auth_exec_all example_ops a1).1 U' P' ∧
    (GetUserFromToken "key" token a2).1 = match U' !! ID u with Some v => Ok v | None => Err "user not found" end.
Proof.
  destruct (run_refines [ACreate "ann" "pw" RoleUser] example_auth ∅ ∅ example_auth_rep ltac:(repeat constructor)) as (U & P & _ & Ha).
  exists U, P. split; [exact Ha|]. pose proof (token_follows_user "key" "ann" "pw" example_ann U P Ha) as Ht. rewrite example_login_ok in Ht.
  assert (time_Now (a_turn (auth_exec_all example_ops example_login.2).2) < expires (a_turn example_ann))%Z as Hexp by (vm_compute; reflexivity).
  destruct example_login as [[token u] a1]. destruct Ht as (_ & Hname & Hpass & Ht).
  exact (conj Hpass (conj Hname (Ht example_ops example_ops_ok Hexp))).
Defined.
