(* ===== verification/Protocol.v ===== *)
(** * The protocol server ([internal/protocol]: constants.go, query.go, connection.go, handler.go, reql_handler.go, server.go)

    A connection: the bytes that arrive, the reader in front of them, the handshake
    with SCRAM, then queries that run in goroutines of their own while the loop reads
    on.  The client's bytes come in segments, the pieces in which the network delivers
    them; the connection ends with its last segment.  A write takes the next fault of
    a script: [None] is a success, [Some k] an error after [k] bytes, and the empty
    script a healthy connection.  Deadlines are not modelled.  Texts of JSON are
    written and read by [encoding/json], the parameter [Wire]. *)

From S2P Require Import Prelude Bytes Order Datum Parser Index Admin Evaluator Sessions GoStrings Scram Auth.
From Stdlib Require Import Ascii.

(** ** constants.go *)

Definition Version1_0 : Z := 0x34c2bdc3.
Definition Version0_4 : Z := 0x400c2d20.
Definition Version0_3 : Z := 0x5f75e83e.
Definition Version0_2 : Z := 0x723081e1.
Definition Version0_1 : Z := 0x3f61ba36.
Definition QueryStart : Z := 1.
Definition QueryContinue : Z := 2.
Definition QueryStop : Z := 3.
Definition QueryNoReplyWait : Z := 4.
Definition QueryServerInfo : Z := 5.
Definition ResponseSuccessAtom : Z := 1.
Definition ResponseSuccessSeq : Z := 2.
Definition ResponseSuccessPartial : Z := 3.
Definition ResponseWaitComplete : Z := 4.
Definition ResponseClientError : Z := 16.
Definition ResponseRuntimeError : Z := 18.

(** ** query.go *)

(** The values that are marshalled: the dynamic types that the package builds. *)
#[local] Unset Elimination Schemes.
Inductive Reply :=
| RNil
| RBool (b : bool)
| RInt (z : Z)
| RFloat (f : float64)
| RStr (s : string)
| RBytes (bs : list byte)
| RTime (t : GoTime)
| RGeometry (g : GeometryData)
| RArr (l : list Reply)
| RMap (kvs : list (string * Reply)).
#[local] Set Elimination Schemes.

Record Query := mkQuery { q_Token : Z; q_Type : Z; q_Query : GoVal }.

(** [encoding/json]: marshalling a value, and unmarshalling a text into a
    [map[string]interface{}] and into a [Query]. *)
Class Wire := {
  marshal : Reply → outcome (list byte);
  unmarshal_object : list byte → outcome (gmap string JSON);
  unmarshal_query : list byte → outcome Query;
}.

Definition ParseQuery `{Wire} (data : list byte) : outcome Query :=
  match unmarshal_query data with Err e => Err ("failed to parse query: " +:+ e) | r => r end.

(** [Data] is [None] when the field is nil. *)
Record Response := mkResponse {
  rsp_Type : Z; rsp_Token : Z; rsp_Data : option (list Reply); rsp_Notes : list string;
  rsp_Profile : option Reply; rsp_Backtrace : option Reply;
}.
Definition response (t : Z) (data : option (list Reply)) (notes : list string) : Response :=
  mkResponse t 0 data notes None None.

(** The map that [Marshal] builds. *)
Definition response_map (r : Response) : Reply :=
  RMap ([("t", RInt (rsp_Type r)); ("r", match rsp_Data r with Some l => RArr l | None => RNil end)]
    ++ (if bool_decide (0 < length (rsp_Notes r)) then [("n", RArr (RStr <$> rsp_Notes r))] else [])
    ++ (match rsp_Profile r with Some p => [("p", p)] | None => [] end)
    ++ (match rsp_Backtrace r with Some b => [("b", b)] | None => [] end)).
Definition Response_Marshal `{Wire} (r : Response) : outcome (list byte) := marshal (response_map r).

Definition NewSuccessAtomResponse (data : Reply) : Response := response ResponseSuccessAtom (Some [data]) [].
Definition NewSuccessSeqResponse (data : list Reply) : Response := response ResponseSuccessSeq (Some data) [].
Definition NewSuccessPartialResponse (data : list Reply) : Response := response ResponseSuccessPartial (Some data) [].
Definition NewErrorResponse (errType : Z) (message : string) : Response := response errType (Some [RStr message]) [].

(** ** connection.go *)

(** The network, the reader in front of it and what was written. *)
Record Connection := mkConn {
  c_net : list (list byte);
  c_buf : list byte;
  c_out : list byte;
  c_faults : list (option nat);
  c_version : Z;
  c_user : option User;
  c_defaultDB : string;
}.
Definition NewConnection (segments : list (list byte)) (faults : list (option nat)) : Connection :=
  mkConn segments [] [] faults 0 None "".
Definition set_input (net : list (list byte)) (buf : list byte) (c : Connection) : Connection :=
  mkConn net buf (c_out c) (c_faults c) (c_version c) (c_user c) (c_defaultDB c).
Definition SetUser (u : User) (c : Connection) : Connection :=
  mkConn (c_net c) (c_buf c) (c_out c) (c_faults c) (c_version c) (Some u) (c_defaultDB c).
Definition SetDefaultDB (db : string) (c : Connection) : Connection :=
  mkConn (c_net c) (c_buf c) (c_out c) (c_faults c) (c_version c) (c_user c) db.
Definition SetVersion (v : Z) (c : Connection) : Connection :=
  mkConn (c_net c) (c_buf c) (c_out c) (c_faults c) v (c_user c) (c_defaultDB c).

(** [net.Conn.Read] into [n > 0] bytes: at most one segment; [None] is [io.EOF]. *)
Fixpoint net_Read (n : nat) (segs : list (list byte)) : option (list byte * list (list byte)) :=
  match segs with
  | [] => None
  | [] :: segs' => net_Read n segs'
  | seg :: segs' => Some (take n seg, drop n seg :: segs')
  end.

(** [io.ReadFull]: the bytes, or the error when the connection ends before. *)
Fixpoint net_ReadFull (n : nat) (segs : list (list byte)) (some : bool) : outcome (list byte) * list (list byte) :=
  match segs with
  | [] => (if bool_decide (n = 0) then Ok [] else Err (if some then "unexpected EOF" else "EOF"), [])
  | seg :: segs' =>
      if bool_decide (n ≤ length seg) then (Ok (take n seg), drop n seg :: segs')
      else
        let '(r, rest) := net_ReadFull (n - length seg) segs' (some || bool_decide (seg ≠ [])) in
        (more ← r; Ok (seg ++ more), rest)
  end.
(** [binary.Read] and [io.ReadFull] on the connection itself, past its reader. *)
Definition ReadFull (n : nat) : M Connection (list byte) := λ c,
  let '(r, net) := net_ReadFull n (c_net c) false in (r, set_input net (c_buf c) c).

(** [bufio.Reader.ReadByte], with its buffer of 4096 bytes. *)
Definition bufio_size : nat := Z.to_nat 4096.
Definition ReadByte : M Connection byte := λ c,
  match c_buf c with
  | b :: buf => (Ok b, set_input (c_net c) buf c)
  | [] =>
      match net_Read bufio_size (c_net c) with
      | Some (b :: buf, net) => (Ok b, set_input net buf c)
      | Some ([], net) => (Err "EOF", set_input net [] c)
      | None => (Err "EOF", set_input [] [] c)
      end
  end.

(** The loop of [ReadNullTerminated] takes at most a step for each byte to come. *)
Fixpoint null_loop (fuel : nat) (result : list byte) : M Connection (list byte) :=
  match fuel with
  | O => nofuel
  | S fuel' =>
      b ← ReadByte;
      if bool_decide (b = Byte.x00) then mret result else null_loop fuel' (result ++ [b])
  end.
Definition input_fuel (c : Connection) : nat := S (length (c_buf c) + length (concat (c_net c))).
Definition ReadNullTerminated : M Connection string :=
  c ← get_state;
  bs ← null_loop (input_fuel c) [];
  mret (String.string_of_list_byte bs).

(** The loop of [ReadDatum] stops after 2049 bytes. *)
Definition max_datum : nat := Z.to_nat 2048.
Fixpoint datum_loop (fuel : nat) (result : list byte) : M Connection (list byte) :=
  match fuel with
  | O => nofuel
  | S fuel' =>
      b ← ReadByte;
      if bool_decide (b = Byte.x00) then mret result
      else
        let result := result ++ [b] in
        if bool_decide (max_datum < length result) then fail "Datum too large" else datum_loop fuel' result
  end.
Definition ReadDatum `{Wire} : M Connection (gmap string JSON) :=
  result ← datum_loop (S max_datum) [];
  lift (unmarshal_object result).

(** [Write]: a whole slice, or an error. *)
Definition Write (data : list byte) : M Connection unit := λ c,
  let put bs fs := mkConn (c_net c) (c_buf c) (c_out c ++ bs) fs (c_version c) (c_user c) (c_defaultDB c) in
  match c_faults c with
  | Some k :: fs => (Err "write error", put (take k data) fs)
  | None :: fs => (Ok (), put data fs)
  | [] => (Ok (), put data [])
  end.
Definition WriteDatum `{Wire} (v : Reply) : M Connection unit :=
  data ← lift (marshal v);
  Write (data ++ [Byte.x00]).

(** ** The handshake (server.go) *)

(** The version in an error message, [0x%x]. *)
Definition hex_digit (d : Z) : ascii := default "0"%char (String.get (Z.to_nat d) "0123456789abcdef").
Fixpoint hex_digits (fuel : nat) (z : Z) (acc : string) : string :=
  match fuel with
  | O => acc
  | S fuel' =>
      let acc := String (hex_digit (z mod 16)) acc in
      if bool_decide (z / 16 = 0)%Z then acc else hex_digits fuel' (z / 16) acc
  end.
Definition format_hex (z : Z) : string := "0x" +:+ hex_digits 16 z "".

Definition serverVersion : string := "0.1.0".

(** The connection, and the turns of the random generator. *)
Record Handshake := mkHS { hs_conn : Connection; hs_turn : nat }.
Definition on_conn {A} (m : M Connection A) : M Handshake A := zoom hs_conn (λ c h, mkHS c (hs_turn h)) m.
Definition on_random {A} (m : M nat A) : M Handshake A := zoom hs_turn (λ n h, mkHS (hs_conn h) n) m.

Section handshake.
Context `{Wire} `{Crypto} `{Render} (store : option Store).

Definition auth_failure (msg : string) : Reply :=
  RMap [("success", RBool false); ("error", RStr msg); ("error_code", RInt 20)].
Definition auth_success (text : string) : Reply :=
  RMap [("success", RBool true); ("authentication", RStr text)].
Definition server_hello : Reply :=
  RMap [("success", RBool true); ("max_protocol_version", RInt 0); ("min_protocol_version", RInt 0);
        ("server_version", RStr serverVersion)].

Definition authError {A} (msg : string) : M Handshake A :=
  ignore_err (on_conn (WriteDatum (auth_failure msg)));;
  fail ("authentication failed: " +:+ msg).

(** [s, _ := m[key].(string)] *)
Definition string_field (m : gmap string JSON) (key : string) : string :=
  match m !! key with Some (JStr s) => s | _ => "" end.

Definition handshakeV1_0 : M Handshake unit :=
  wrap_err "failed to send server response" (on_conn (WriteDatum server_hello));;
  clientMsg ← wrap_err "failed to read client authentication" (on_conn ReadDatum);
  match clientMsg !! "protocol_version" with
  | Some (JNum protocolVersion) =>
      if negb (SFeqb protocolVersion (float_of_Z 0)) then fail ("unsupported protocol_version: " +:+ format_float protocolVersion)
      else
        match clientMsg !! "authentication_method" with
        | Some (JStr authMethod) =>
            if bool_decide (authMethod ≠ "SCRAM-SHA-256") then fail ("unsupported authentication_method: " +:+ authMethod)
            else
              let clientFirst := string_field clientMsg "authentication" in
              if bool_decide (clientFirst = "") then authError "missing SCRAM client-first message"
              else
                match ParseClientFirst clientFirst with
                | Ok (username, clientNonce, clientFirstBare) =>
                    match store with
                    | None => authError "authentication not configured"
                    | Some st =>
                        match GetUserByUsername username st with
                        | None => authError "invalid username or password"
                        | Some user =>
                            scram ← catch (x ← on_random (NewSCRAMServer (Some user) clientFirstBare clientNonce); mret (Some x)) (λ _, mret None);
                            match scram with
                            | None => authError "invalid username or password"
                            | Some scram =>
                                wrap_err "failed to send auth response" (on_conn (WriteDatum (auth_success (ServerFirst scram))));;
                                clientFinalMsg ← wrap_err "failed to read client final auth" (on_conn ReadDatum);
                                match VerifyClientFinal scram (string_field clientFinalMsg "authentication") with
                                | Ok serverFinal =>
                                    wrap_err "failed to send final response" (on_conn (WriteDatum (auth_success serverFinal)));;
                                    on_conn (modify (SetUser user));;
                                    on_conn (modify (SetDefaultDB "test"));;
                                    on_conn (modify (SetVersion Version1_0))
                                | _ => authError "invalid username or password"
                                end
                            end
                        end
                    end
                | Err e => authError e
                | Panic => panic
                | NoFuel => nofuel
                end
        | _ => fail "invalid authentication_method"
        end
  | _ => fail "invalid protocol_version"
  end.

Definition handshakeV0_3orV0_4 (version : Z) : M Handshake unit :=
  fail ("protocol version " +:+ format_hex version +:+ " is not supported: use the V1.0 SCRAM-SHA-256 handshake").

Definition handshake : M Handshake unit :=
  bs ← wrap_err "failed to read version" (on_conn (ReadFull 4));
  let version := le_value bs in
  if bool_decide (version = Version1_0) then handshakeV1_0
  else if bool_decide (version = Version0_4 ∨ version = Version0_3) then handshakeV0_3orV0_4 version
  else if bool_decide (version = Version0_2 ∨ version = Version0_1)
  then fail "protocol versions V0_1 and V0_2 are no longer supported (PROBUF protocol removed)"
  else fail ("unsupported protocol version: " +:+ format_hex version).
End handshake.

(** ** reql_handler.go *)

(** [datumToInterface] *)
Fixpoint datumToInterface (h : Heap) (fuel : nat) (d : Datum) : outcome Reply :=
  match fuel with
  | O => NoFuel
  | S fuel' =>
      match d with
      | DNull => Ok RNil
      | DBool b => Ok (RBool b)
      | DNum f => Ok (RFloat f)
      | DStr s => Ok (RStr s)
      | DArray l => rs ← mapM (datumToInterface h fuel') l; Ok (RArr rs)
      | DObject o =>
          match h_objs h !! o with
          | None => Panic
          | Some obj =>
              kvs ← mapM (λ k, r ← datumToInterface h fuel' (field_or_zero obj k); Ok (k, r)) (obj_Keys obj);
              Ok (RMap kvs)
          end
      | DBinary bs => Ok (RBytes bs)
      | DTime t => Ok (RTime t)
      | DGeometry g => Ok (RGeometry g)
      | DMinVal => Ok (RMap [("$reql_type$", RStr "MINVAL")])
      | DMaxVal => Ok (RMap [("$reql_type$", RStr "MAXVAL")])
      end
  end.

Definition server_info (version : string) : Response :=
  NewSuccessAtomResponse (RMap [("id", RStr "gothinkdb-server"); ("name", RStr "gothinkdb"); ("version", RStr version)]).

Section handler.
Context `{Runtime} (fuel : nat).

Definition handleStart (ctx : Context) (query : Query) : M World Response :=
  match q_Query query with
  | VNil => fail "Empty query"
  | q =>
      catch
        (result ← Evaluate ctx fuel q;
         h ← get_heap;
         responseData ← lift (datumToInterface h value_fuel result);
         mret (NewSuccessAtomResponse responseData))
        (λ e, mret (response ResponseRuntimeError None [e]))
  end.
Definition handleContinue : M World Response := mret (response ResponseSuccessSeq (Some []) []).
Definition handleStop : M World Response := mret (response ResponseWaitComplete None []).

Definition HandleQuery (ctx : Context) (query : Query) : M World Response :=
  let t := q_Type query in
  if bool_decide (t = QueryStart) then handleStart ctx query
  else if bool_decide (t = QueryContinue) then handleContinue
  else if bool_decide (t = QueryStop) then handleStop
  else if bool_decide (t = QueryNoReplyWait) then mret (response ResponseWaitComplete None [])
  else if bool_decide (t = QueryServerInfo) then mret (server_info "0.1.0")
  else fail "Unknown query type".
End handler.

(** ** handler.go *)

Definition DefaultHandler_HandleQuery (query : Query) : outcome Response :=
  let t := q_Type query in
  if bool_decide (t = QueryStart) then Ok (NewSuccessAtomResponse (RStr "GoThinkDB is ready!"))
  else if bool_decide (t = QueryContinue) then Ok (response ResponseSuccessSeq (Some []) [])
  else if bool_decide (t = QueryStop) then Ok (response ResponseWaitComplete None [])
  else if bool_decide (t = QueryNoReplyWait) then Ok (response ResponseWaitComplete None [])
  else if bool_decide (t = QueryServerInfo) then Ok (server_info "0.1.0")
  else Err "Unknown query type".

(** ** The query loop (server.go) *)

(** The identity of a connection, bound to the queries it starts. *)
Definition sessionContext `{Render} (store : option Store) (user : option User) (defaultDB : string) : Context :=
  match user, store with
  | Some user, Some store =>
      WithSession Background defaultDB
        (Some (λ db read write create drop,
           if HasDatabaseAccess (ID user) db read write create drop store then None
           else Some ("access denied: user " +:+ quote (Username user) +:+ " has no permission on database " +:+ quote db)))
  | _, _ => WithSession Background defaultDB None
  end.

(** Where a goroutine is that serves a query: it evaluates, then writes the length of
    the answer, then the answer.  [Stuck]: the fuel of the evaluator was used up. *)
Inductive Stage :=
| Running (query : Query)
| WriteLength (data : list byte)
| WriteData (data : list byte)
| Stuck.
Record Routine := mkRoutine { r_token : Z; r_user : option User; r_defaultDB : string; r_stage : Stage }.

(** Where the loop is; it answers some queries itself. *)
Inductive LoopStage :=
| LoopRead
| LoopLength (data : list byte)
| LoopData (data : list byte)
| LoopDone.

Record Server := mkServer {
  sv_conn : Connection;
  sv_world : World;
  sv_auth : option AuthState;
  sv_loop : LoopStage;
  sv_routines : gmap nat Routine;
  sv_next : nat;
  sv_queries : gmap Z nat;
  sv_cancelled : gset nat;
  sv_queryCount : nat;
  sv_quit : bool;
  sv_crashed : bool;
}.
Definition set_conn (c : Connection) (s : Server) : Server :=
  mkServer c (sv_world s) (sv_auth s) (sv_loop s) (sv_routines s) (sv_next s) (sv_queries s) (sv_cancelled s) (sv_queryCount s) (sv_quit s) (sv_crashed s).
Definition set_world (w : World) (s : Server) : Server :=
  mkServer (sv_conn s) w (sv_auth s) (sv_loop s) (sv_routines s) (sv_next s) (sv_queries s) (sv_cancelled s) (sv_queryCount s) (sv_quit s) (sv_crashed s).
Definition set_auth (a : option AuthState) (s : Server) : Server :=
  mkServer (sv_conn s) (sv_world s) a (sv_loop s) (sv_routines s) (sv_next s) (sv_queries s) (sv_cancelled s) (sv_queryCount s) (sv_quit s) (sv_crashed s).
Definition set_loop (l : LoopStage) (s : Server) : Server :=
  mkServer (sv_conn s) (sv_world s) (sv_auth s) l (sv_routines s) (sv_next s) (sv_queries s) (sv_cancelled s) (sv_queryCount s) (sv_quit s) (sv_crashed s).
Definition set_routines (rs : gmap nat Routine) (s : Server) : Server :=
  mkServer (sv_conn s) (sv_world s) (sv_auth s) (sv_loop s) rs (sv_next s) (sv_queries s) (sv_cancelled s) (sv_queryCount s) (sv_quit s) (sv_crashed s).
Definition set_queries (qs : gmap Z nat) (cs : gset nat) (s : Server) : Server :=
  mkServer (sv_conn s) (sv_world s) (sv_auth s) (sv_loop s) (sv_routines s) (sv_next s) qs cs (sv_queryCount s) (sv_quit s) (sv_crashed s).
Definition set_crashed (s : Server) : Server :=
  mkServer (sv_conn s) (sv_world s) (sv_auth s) (sv_loop s) (sv_routines s) (sv_next s) (sv_queries s) (sv_cancelled s) (sv_queryCount s) (sv_quit s) true.

Definition max_query : Z := 64 * 1024 * 1024.
Definition length_bytes (data : list byte) : list byte := le_bytes 4 (uint32 (Z.of_nat (length data))).

Section loop.
Context `{Wire} `{Runtime} `{Crypto} `{AuthRuntime} (fuel : nat).

(** [sendResponse] up to its first write; an answer without a text is dropped. *)
Definition send_stage (resp : Response) : LoopStage :=
  match Response_Marshal resp with Ok data => LoopLength data | _ => LoopRead end.
Definition error_response (errType : Z) (message : string) : Response := response errType (Some [RStr message]) [].

(** A query that is parsed: start a goroutine, or answer. *)
Definition dispatch (query : Query) (s : Server) : Server :=
  let t := q_Type query in
  if bool_decide (t = QueryStart) then
    let id := sv_next s in
    let c := sv_conn s in
    mkServer c (sv_world s) (sv_auth s) (sv_loop s)
      (<[id := mkRoutine (q_Token query) (c_user c) (c_defaultDB c) (Running query)]> (sv_routines s)) (S id)
      (<[q_Token query := id]> (sv_queries s)) (sv_cancelled s) (S (sv_queryCount s)) (sv_quit s) (sv_crashed s)
  else if bool_decide (t = QueryContinue) then set_loop (send_stage (response ResponseSuccessSeq (Some []) [])) s
  else if bool_decide (t = QueryStop) then
    set_loop (send_stage (response ResponseWaitComplete None []))
      (match sv_queries s !! q_Token query with
       | Some id => set_queries (delete (q_Token query) (sv_queries s)) ({[id]} ∪ sv_cancelled s) s
       | None => s
       end)
  else if bool_decide (t = QueryNoReplyWait) then set_loop (send_stage (response ResponseWaitComplete None [])) s
  else if bool_decide (t = QueryServerInfo) then set_loop (send_stage (server_info serverVersion)) s
  else set_loop (send_stage (error_response ResponseClientError ("Unknown query type: " +:+ pretty t))) s.

(** The length and the text of the next query. *)
Definition read_query : M Connection (list byte) :=
  bs ← ReadFull 4;
  let length := le_value bs in
  if bool_decide (max_query < length)%Z then fail "query too large" else ReadFull (Z.to_nat length).

(** One turn of the loop, up to its first write. *)
Definition loop_read (s : Server) : Server :=
  if sv_quit s then set_loop LoopDone s
  else
    match read_query (sv_conn s) with
    | (Ok data, c) =>
        let s := set_conn c s in
        match ParseQuery data with
        | Ok query => dispatch query s
        | Err e => set_loop (send_stage (error_response ResponseClientError e)) s
        | _ => set_crashed s
        end
    | (_, c) => set_loop LoopDone (set_conn c s)
    end.

(** [conn.Write]; when the loop has returned the connection is closed. *)
Definition conn_write (data : list byte) (s : Server) : outcome unit * Connection :=
  match sv_loop s with
  | LoopDone => (Err "use of closed network connection", sv_conn s)
  | _ => Write data (sv_conn s)
  end.

(** The next step of the loop. *)
Definition loop_step (s : Server) : Server :=
  match sv_loop s with
  | LoopRead => loop_read s
  | LoopLength data =>
      match Write (length_bytes data) (sv_conn s) with
      | (Ok _, c) => set_loop (LoopData data) (set_conn c s)
      | (_, c) => set_loop LoopRead (set_conn c s)
      end
  | LoopData data => set_loop LoopRead (set_conn (Write data (sv_conn s)).2 s)
  | LoopDone => s
  end.

(** The goroutine ends: its deferred function forgets the token. *)
Definition finish (id : nat) (token : Z) (s : Server) : Server :=
  set_queries (delete token (sv_queries s)) ({[id]} ∪ sv_cancelled s) (set_routines (delete id (sv_routines s)) s).
Definition stage_to (id : nat) (st : Stage) (r : Routine) (s : Server) : Server :=
  set_routines (<[id := mkRoutine (r_token r) (r_user r) (r_defaultDB r) st]> (sv_routines s)) s.
Definition answer (id : nat) (resp : Response) (r : Routine) (s : Server) : Server :=
  match Response_Marshal resp with
  | Ok data => stage_to id (WriteLength data) r s
  | _ => finish id (r_token r) s
  end.

(** The next step of the goroutine [id]. *)
Definition routine_step (id : nat) (s : Server) : Server :=
  match sv_routines s !! id with
  | None => s
  | Some r =>
      match r_stage r with
      | Running query =>
          let ctx := sessionContext (a_store <$> sv_auth s) (r_user r) (r_defaultDB r) in
          match HandleQuery fuel ctx query (sv_world s) with
          | (Ok resp, w) => answer id resp r (set_world w s)
          | (Err e, w) => answer id (error_response ResponseRuntimeError e) r (set_world w s)
          | (Panic, w) => set_crashed (set_world w s)
          | (NoFuel, w) => stage_to id Stuck r (set_world w s)
          end
      | WriteLength data =>
          match conn_write (length_bytes data) s with
          | (Ok _, c) => stage_to id (WriteData data) r (set_conn c s)
          | (_, c) => finish id (r_token r) (set_conn c s)
          end
      | WriteData data => finish id (r_token r) (set_conn (conn_write data s).2 s)
      | Stuck => s
      end
  end.

(** What happens next: a step of the loop or of a goroutine, an operation on the
    store of users by somebody else, or [Stop]. *)
Inductive event := ELoop | ERoutine (id : nat) | EAuth (op : auth_op) | EQuit.
Definition server_step (e : event) (s : Server) : Server :=
  if sv_crashed s then s
  else
    match e with
    | ELoop => loop_step s
    | ERoutine id => routine_step id s
    | EAuth op => set_auth ((λ a, (auth_exec op a).2) <$> sv_auth s) s
    | EQuit => mkServer (sv_conn s) (sv_world s) (sv_auth s) (sv_loop s) (sv_routines s) (sv_next s) (sv_queries s) (sv_cancelled s) (sv_queryCount s) true (sv_crashed s)
    end.
Definition server_run (es : list event) (s : Server) : Server := foldl (λ s e, server_step e s) s es.

(** [handleConnection]: the handshake, then the loop. *)
Definition new_server (auth : option AuthState) (w : World) (l : LoopStage) (c : Connection) : Server :=
  mkServer c w auth l ∅ 0 ∅ ∅ 0 false false.
Definition handleConnection (segments : list (list byte)) (faults : list (option nat)) (turn : nat) (auth : option AuthState) (w : World) : Server :=
  match handshake (a_store <$> auth) (mkHS (NewConnection segments faults) turn) with
  | (Ok _, h) => new_server auth w LoopRead (hs_conn h)
  | (_, h) => new_server auth w LoopDone (hs_conn h)
  end.
End loop.

(** ** Reading *)

(** The bytes the client has sent and nobody has taken. *)
Definition stream (c : Connection) : list byte := c_buf c ++ concat (c_net c).
(** The bytes up to a boundary of segments, and the segments after it. *)
Definition up_to (c : Connection) (bs : list byte) (post : list (list byte)) : Prop :=
  ∃ pre, c_net c = pre ++ post ∧ bs = c_buf c ++ concat pre.
(** Two connections that differ in their input only. *)
Definition same_output (c c' : Connection) : Prop :=
  c_out c' = c_out c ∧ c_faults c' = c_faults c ∧ c_version c' = c_version c ∧ c_user c' = c_user c ∧ c_defaultDB c' = c_defaultDB c.
#[export] Instance same_output_refl : Reflexive same_output.
Proof. by intros c. Qed.
#[export] Instance same_output_trans : Transitive same_output.
Proof. intros a b c (?&?&?&?&?) (?&?&?&?&?). repeat split; congruence. Qed.
Lemma set_input_same net buf c : same_output c (set_input net buf c).
Proof. done. Qed.

Lemma up_to_stream c bs post : up_to c bs post → stream c = bs ++ concat post.
Proof. intros (pre & Hn & ->). unfold stream. by rewrite Hn, concat_app, app_assoc. Qed.
Lemma stream_up_to c : up_to c (stream c) [].
Proof. exists (c_net c). by rewrite app_nil_r. Qed.
(** At a boundary the next group of segments follows. *)
Lemma up_to_next c group post : up_to c [] (group ++ post) → up_to c (concat group) post.
Proof.
  intros (pre & Hn & Hb). symmetry in Hb. apply app_nil in Hb as [Hb Hp]. exists (pre ++ group). rewrite <- app_assoc. split; [done|].
  by rewrite Hb, concat_app, Hp.
Qed.

Lemma net_Read_concat n pre post : 0 < n → concat pre ≠ [] →
  ∃ chunk pre', net_Read n (pre ++ post) = Some (chunk, pre' ++ post) ∧ chunk ≠ [] ∧ concat pre = chunk ++ concat pre'.
Proof.
  intros Hn. induction pre as [|[|b seg] pre IH]; [done|exact IH|]. intros _. exists (take n (b :: seg)), (drop n (b :: seg) :: pre).
  split; [done|]. split; [by destruct n; [lia|]|]. cbn [concat]. by rewrite app_assoc, take_drop.
Qed.
Lemma ReadByte_ok c b bs post : up_to c (b :: bs) post → ∃ c', ReadByte c = (Ok b, c') ∧ up_to c' bs post ∧ same_output c c'.
Proof.
  intros (pre & Hn & Hb). unfold ReadByte. destruct (c_buf c) as [|b' buf]; cbn in Hb.
  - destruct (net_Read_concat bufio_size pre post) as (chunk & pre' & Hr & Hne & Hc); [unfold bufio_size; lia|by rewrite <- Hb|].
    rewrite Hn, Hr. rewrite Hc in Hb. destruct chunk as [|b' chunk]; [done|]. injection Hb as <- ->.
    eexists. split; [done|]. split; [by exists pre'|apply set_input_same].
  - injection Hb as <- ->. eexists. split; [done|]. split; [by exists pre|apply set_input_same].
Qed.
Lemma ReadByte_inv c b c' : ReadByte c = (Ok b, c') → stream c = b :: stream c' ∧ same_output c c'.
Proof.
  intros Hr. destruct (stream c) as [|b' bs] eqn:Hs.
  - exfalso. unfold stream in Hs. apply app_nil in Hs as [Hb Hc]. unfold ReadByte in Hr. rewrite Hb in Hr.
    assert (net_Read bufio_size (c_net c) = None) as Hnone; [|by rewrite Hnone in Hr].
    revert Hc. generalize (c_net c). intros l. induction l as [|[|x seg] l IH]; [done|exact IH|done].
  - pose proof (stream_up_to c) as Hu. rewrite Hs in Hu. destruct (ReadByte_ok c b' bs [] Hu) as (c1 & Hr1 & Hu1 & Hsame).
    rewrite Hr1 in Hr. injection Hr as <- <-. split; [|done]. apply up_to_stream in Hu1. by rewrite Hu1, app_nil_r.
Qed.

(** A datum that fits is read up to its zero byte. *)
Lemma datum_loop_ok m : ∀ fuel acc c rest post, Byte.x00 ∉ m → length (acc ++ m) ≤ max_datum → length m < fuel →
  up_to c (m ++ Byte.x00 :: rest) post →
  ∃ c', datum_loop fuel acc c = (Ok (acc ++ m), c') ∧ up_to c' rest post ∧ same_output c c'.
Proof.
  induction m as [|b m IH]; intros [|fuel] acc c rest post Hz Hlen Hf Hu; try (cbn in Hf; lia); cbn [datum_loop].
  - destruct (ReadByte_ok c _ _ _ Hu) as (c1 & Hr & Hu1 & Hs1). mstep Hr. rewrite bool_decide_eq_true_2 by done.
    exists c1. by rewrite app_nil_r.
  - destruct (ReadByte_ok c _ _ _ Hu) as (c1 & Hr & Hu1 & Hs1). mstep Hr. rewrite not_elem_of_cons in Hz. destruct Hz as [Hb Hz].
    rewrite bool_decide_eq_false_2 by congruence. cbv zeta. rewrite length_app in Hlen. cbn [length] in *.
    rewrite bool_decide_eq_false_2 by (rewrite length_app; cbn [length]; lia).
    destruct (IH fuel (acc ++ [b]) c1 rest post) as (c2 & Hr2 & Hu2 & Hs2); [done|rewrite !length_app; cbn [length]; lia|lia|done|].
    exists c2. rewrite Hr2, <- app_assoc. split; [done|]. split; [done|]. by transitivity c1.
Qed.
Lemma datum_loop_inv fuel : ∀ acc c r c', datum_loop fuel acc c = (Ok r, c') →
  ∃ m, r = acc ++ m ∧ stream c = m ++ Byte.x00 :: stream c' ∧ same_output c c' ∧ Byte.x00 ∉ m.
Proof.
  induction fuel as [|fuel IH]; intros acc c r c' Hr; [done|]. cbn [datum_loop] in Hr.
  apply bind_inv_ok in Hr as (b & c1 & Hb & Hr). apply ReadByte_inv in Hb as [Hs1 Ho1]. case_bool_decide as Hz.
  - injection Hr as <- <-. exists []. rewrite app_nil_r, Hs1, Hz. split; [done|]. split; [done|]. split; [done|apply not_elem_of_nil].
  - cbv zeta in Hr. case_bool_decide; [done|]. destruct (IH _ _ _ _ Hr) as (m & -> & Hs2 & Ho2 & Hn). exists (b :: m).
    rewrite <- app_assoc, Hs1, Hs2. split; [done|]. split; [done|]. split; [by transitivity c1|]. apply not_elem_of_cons. split; congruence.
Qed.

Lemma net_ReadFull_ok n : ∀ pre post some bs rest, length bs = n → concat pre = bs ++ rest →
  ∃ pre', net_ReadFull n (pre ++ post) some = (Ok bs, pre' ++ post) ∧ concat pre' = rest.
Proof.
  intros pre. revert n. induction pre as [|seg pre IH]; intros n post some bs rest Hn Hc; cbn in Hc.
  - symmetry in Hc. apply app_nil in Hc as [-> ->]. cbn in Hn. subst n. destruct post as [|seg post]; [by exists []|].
    exists []. cbn. rewrite bool_decide_eq_true_2 by lia. by rewrite drop_0.
  - cbn [app net_ReadFull]. case_bool_decide as Hl.
    + exists (drop n seg :: pre). cbn. assert (take n seg = bs ∧ drop n seg ++ concat pre = rest) as [-> ->]; [|done].
      rewrite <- (take_drop n seg), <- app_assoc in Hc. apply app_inj_1 in Hc; [done|]. rewrite length_take. lia.
    + assert (∃ bs', bs = seg ++ bs' ∧ concat pre = bs' ++ rest) as (bs' & -> & Hc').
      { exists (drop (length seg) bs).
        assert (bs = seg ++ drop (length seg) bs) as Hbs.
        { rewrite <- (take_drop (length seg) bs) at 1. f_equal. apply (f_equal (take (length seg))) in Hc.
          rewrite take_app_length, take_app_le in Hc by lia. done. }
        split; [exact Hbs|]. rewrite Hbs, <- app_assoc in Hc. by apply app_inv_head in Hc. }
      rewrite length_app in Hn. destruct (IH (n - length seg) post (some || bool_decide (seg ≠ [])) bs' rest) as (pre' & Hr & Hp); [lia|done|].
      exists pre'. by rewrite Hr.
Qed.

Lemma net_ReadFull_inv n : ∀ segs some bs segs', net_ReadFull n segs some = (Ok bs, segs') →
  length bs = n ∧ concat segs = bs ++ concat segs'.
Proof.
  intros segs. revert n. induction segs as [|seg segs IH]; intros n some bs segs' Hr; cbn in Hr.
  - case_bool_decide; [|done]. injection Hr as <- <-. by subst n.
  - case_bool_decide as Hl.
    + injection Hr as <- <-. rewrite length_take. cbn. rewrite app_assoc, take_drop. split; [lia|done].
    + destruct (net_ReadFull (n - length seg) segs _) as [[more|e| |] rest] eqn:Hrec; try done.
      apply IH in Hrec as [Hm Hc]. injection Hr as <- <-. cbn. rewrite length_app, Hc, app_assoc. split; [lia|done].
Qed.
Lemma ReadFull_ok c bs rest post : c_buf c = [] → up_to c (bs ++ rest) post →
  ∃ c', ReadFull (length bs) c = (Ok bs, c') ∧ up_to c' rest post ∧ c_buf c' = [] ∧ same_output c c'.
Proof.
  intros Hb (pre & Hn & Hc). rewrite Hb in Hc. cbn in Hc. symmetry in Hc.
  destruct (net_ReadFull_ok (length bs) pre post false bs rest eq_refl Hc) as (pre' & Hr & Hp).
  unfold ReadFull. rewrite Hn, Hr. eexists. split; [done|]. rewrite Hb. split; [|done]. by exists pre'.
Qed.
Lemma ReadFull_inv n c bs c' : ReadFull n c = (Ok bs, c') →
  length bs = n ∧ concat (c_net c) = bs ++ concat (c_net c') ∧ c_buf c' = c_buf c ∧ same_output c c'.
Proof.
  unfold ReadFull. destruct (net_ReadFull n (c_net c) false) as [r net] eqn:Hr. intros [= -> <-].
  apply net_ReadFull_inv in Hr as [Hl Hc]. done.
Qed.

(** Two connections that differ in what was written only. *)
Definition same_input (c c' : Connection) : Prop :=
  c_net c' = c_net c ∧ c_buf c' = c_buf c ∧ c_version c' = c_version c ∧ c_user c' = c_user c ∧ c_defaultDB c' = c_defaultDB c.
Lemma Write_same data c : same_input c (Write data c).2.
Proof. unfold Write. by destruct (c_faults c) as [|[]]. Qed.
Lemma Write_ok data c : c_faults c = [] →
  Write data c = (Ok (), mkConn (c_net c) (c_buf c) (c_out c ++ data) [] (c_version c) (c_user c) (c_defaultDB c)).
Proof. unfold Write. by intros ->. Qed.

Section datums.
Context `{Wire}.

Lemma WriteDatum_same v c : same_input c (WriteDatum v c).2.
Proof. unfold WriteDatum, mbind, M_mbind, M_bind, lift. destruct (marshal v); try done. apply Write_same. Qed.
Lemma WriteDatum_ok v data c : marshal v = Ok data → c_faults c = [] →
  WriteDatum v c = (Ok (), mkConn (c_net c) (c_buf c) (c_out c ++ data ++ [Byte.x00]) [] (c_version c) (c_user c) (c_defaultDB c)).
Proof. intros Hm Hf. unfold WriteDatum. rewrite Hm. by apply Write_ok. Qed.
Lemma ReadDatum_ok m obj c rest post : Byte.x00 ∉ m → length m ≤ max_datum → unmarshal_object m = Ok obj →
  up_to c (m ++ Byte.x00 :: rest) post →
  ∃ c', ReadDatum c = (Ok obj, c') ∧ up_to c' rest post ∧ same_output c c'.
Proof.
  intros Hz Hl Hm Hu. destruct (datum_loop_ok m (S max_datum) [] c rest post) as (c' & Hr & Hu' & Hs); [done|done|lia|done|].
  exists c'. unfold ReadDatum. mstep Hr. cbn. by rewrite Hm.
Qed.
Lemma ReadDatum_inv obj c c' : ReadDatum c = (Ok obj, c') →
  ∃ m, unmarshal_object m = Ok obj ∧ stream c = m ++ Byte.x00 :: stream c' ∧ same_output c c'.
Proof.
  intros Hr. unfold ReadDatum in Hr. apply bind_inv_ok in Hr as (m & c1 & Hd & Hr). injection Hr as Hm ->.
  apply datum_loop_inv in Hd as (m' & -> & Hs & Ho & _). by exists m'.
Qed.
(** A datum of more than 2048 bytes is refused before it is read to its end. *)
Lemma ReadDatum_too_large m c rest : Byte.x00 ∉ m → max_datum < length m → stream c = m ++ rest →
  (ReadDatum c).1 = Err "Datum too large".
Proof.
  intros Hz Hl Hs. unfold ReadDatum.
  cut (∀ fuel acc m c rest, Byte.x00 ∉ m → length acc ≤ max_datum → length acc + fuel = S max_datum → max_datum < length (acc ++ m) →
    stream c = m ++ rest → ∃ c', datum_loop fuel acc c = (Err "Datum too large", c')).
  { intros Hcut. destruct (Hcut (S max_datum) [] m c rest) as (c' & Hr); [done|cbn; lia|done|done|done|]. by rewrite (bind_err _ _ _ _ _ Hr). }
  clear. induction fuel as [|fuel IH]; intros acc m c rest Hz Ha Hf Hl Hs; [lia|]. cbn [datum_loop].
  destruct m as [|b m]; [rewrite app_nil_r in Hl; lia|]. rewrite not_elem_of_cons in Hz. destruct Hz as [Hb Hz].
  pose proof (stream_up_to c) as Hu. rewrite Hs in Hu. destruct (ReadByte_ok c _ _ _ Hu) as (c1 & Hr & Hu1 & _). mstep Hr.
  rewrite bool_decide_eq_false_2 by congruence. cbv zeta. case_bool_decide as Hlen; [by eexists|].
  apply (IH (acc ++ [b]) m c1 rest); [done|rewrite length_app in *; cbn [length] in *; lia..| |].
  - by rewrite <- app_assoc.
  - apply up_to_stream in Hu1. by rewrite Hu1, app_nil_r.
Qed.
End datums.

(** ** The handshake *)

Lemma on_conn_inv {A} (m : M Connection A) h r h' : on_conn m h = (r, h') →
  ∃ c', m (hs_conn h) = (r, c') ∧ h' = mkHS c' (hs_turn h).
Proof. unfold on_conn, zoom. destruct (m (hs_conn h)) as [r' c']. intros [= <- <-]. eauto. Qed.
Lemma authError_fails `{Wire} {A} msg h (a : A) h' : authError msg h ≠ (Ok a, h').
Proof. unfold authError, mbind, M_mbind, M_bind, ignore_err. destruct (on_conn _ h) as [[]]; done. Qed.

Section handshake_inv.
Context `{Wire} `{CryptoLaws} `{Render} (store : option Store).

(** What a handshake that succeeds went through. *)
Record accepted (h h' : Handshake) (st : Store) (u : User) (name nonce bare : string) (scram : SCRAMServer) (final : string) : Prop := {
  ac_store : store = Some st;
  ac_user : GetUserByUsername name st = Some u;
  ac_input : ∃ m1 o1 m2 o2, stream (hs_conn h) = m1 ++ Byte.x00 :: m2 ++ Byte.x00 :: stream (hs_conn h') ∧
    unmarshal_object m1 = Ok o1 ∧ unmarshal_object m2 = Ok o2 ∧
    ParseClientFirst (string_field o1 "authentication") = Ok (name, nonce, bare) ∧ final = string_field o2 "authentication";
  ac_scram : NewSCRAMServer (Some u) bare nonce (hs_turn h) = (Ok scram, hs_turn h');
  ac_verify : ∃ sig, VerifyClientFinal scram final = Ok sig;
  ac_conn : c_user (hs_conn h') = Some u ∧ c_defaultDB (hs_conn h') = "test" ∧ c_version (hs_conn h') = Version1_0;
}.

Lemma send_inv p v h x h' : wrap_err p (on_conn (WriteDatum v)) h = (Ok x, h') →
  hs_turn h' = hs_turn h ∧ same_input (hs_conn h) (hs_conn h').
Proof.
  intros (c' & Hw & ->)%wrap_err_inv%on_conn_inv. split; [done|]. pose proof (WriteDatum_same v (hs_conn h)) as Hs. by rewrite Hw in Hs.
Qed.
Lemma receive_inv p h obj h' : wrap_err p (on_conn ReadDatum) h = (Ok obj, h') →
  hs_turn h' = hs_turn h ∧ same_output (hs_conn h) (hs_conn h') ∧
  ∃ m, unmarshal_object m = Ok obj ∧ stream (hs_conn h) = m ++ Byte.x00 :: stream (hs_conn h').
Proof. intros (c' & (m & Hm & Hs & Ho)%ReadDatum_inv & ->)%wrap_err_inv%on_conn_inv. cbn. eauto. Qed.

Lemma handshakeV1_0_inv h x h' : handshakeV1_0 store h = (Ok x, h') →
  ∃ st u name nonce bare scram final, accepted h h' st u name nonce bare scram final.
Proof.
  unfold handshakeV1_0. intros Hr. apply bind_inv_ok in Hr as (x1 & h1 & [Ht1 Hi1]%send_inv & Hr).
  apply bind_inv_ok in Hr as (o1 & h2 & (Ht2 & Ho2 & m1 & Hm1 & Hs1)%receive_inv & Hr).
  destruct (o1 !! "protocol_version") as [[]|]; try done. destruct (negb _); [done|].
  destruct (o1 !! "authentication_method") as [[]|]; try done. case_bool_decide; [done|]. cbv zeta in Hr.
  case_bool_decide; [by apply authError_fails in Hr|].
  destruct (ParseClientFirst _) as [[[name nonce] bare]|e| |] eqn:Hparse; try done; try by apply authError_fails in Hr.
  destruct store as [st|] eqn:Hst; [|by apply authError_fails in Hr].
  destruct (GetUserByUsername name st) as [u|] eqn:Hu; [|by apply authError_fails in Hr].
  apply bind_inv_ok in Hr as (scram & h3 & Hscram & Hr). destruct scram as [scram|]; [|by apply authError_fails in Hr].
  assert (NewSCRAMServer (Some u) bare nonce (hs_turn h2) = (Ok scram, hs_turn h3) ∧ hs_conn h3 = hs_conn h2) as [Hnew Hc3].
  { unfold catch, on_random, zoom, mbind, M_mbind, M_bind in Hscram.
    destruct (NewSCRAMServer (Some u) bare nonce (hs_turn h2)) as [[sc|e'| |] t]; cbn in Hscram; try done. injection Hscram as <- <-. done. }
  apply bind_inv_ok in Hr as (x4 & h4 & [Ht4 Hi4]%send_inv & Hr).
  apply bind_inv_ok in Hr as (o2 & h5 & (Ht5 & Ho5 & m2 & Hm2 & Hs2)%receive_inv & Hr).
  destruct (VerifyClientFinal scram _) as [sig|e| |] eqn:Hv; try by apply authError_fails in Hr.
  apply bind_inv_ok in Hr as (x6 & h6 & [Ht6 Hi6]%send_inv & Hr).
  rewrite (bind_ok (on_conn (modify _)) _ _ () _ eq_refl), (bind_ok (on_conn (modify _)) _ _ () _ eq_refl) in Hr. injection Hr as _ <-.
  exists st, u, name, nonce, bare, scram, (string_field o2 "authentication"). split; [done|done| | |by exists sig|done].
  - exists m1, o1, m2, o2. split; [|done]. destruct Hi1 as (Hn1 & Hb1 & _), Hi4 as (Hn4 & Hb4 & _), Hi6 as (Hn6 & Hb6 & _).
    assert (stream (hs_conn h1) = stream (hs_conn h)) as <- by (unfold stream; congruence). rewrite Hs1. do 2 f_equal.
    assert (stream (hs_conn h2) = stream (hs_conn h4)) as -> by (unfold stream; congruence). rewrite Hs2. do 2 f_equal.
    unfold stream. cbn. congruence.
  - cbn. rewrite <- Ht1, <- Ht2, Ht6, Ht5, Ht4. exact Hnew.
Qed.
End handshake_inv.

(** C26: who gets through the handshake: the connection stands for a user of the store,
    the client named the user in the first datum after the version, and the second
    repeats the nonce, whose second part the server has drawn for this exchange, and
    carries the proof made of the messages exchanged and of a key: one with the hash
    that the server keeps for the password of the user. *)
Theorem handshake_authenticates `{Wire} `{CryptoLaws} `{Render} store segments faults turn h' :
  handshake store (mkHS (NewConnection segments faults) turn) = (Ok (), h') →
  ∃ st u name nonce bare scram final m1 o1 m2 o2,
    store = Some st ∧ GetUserByUsername name st = Some u ∧
    c_user (hs_conn h') = Some u ∧ c_defaultDB (hs_conn h') = "test" ∧
    concat segments = le_bytes 4 Version1_0 ++ m1 ++ Byte.x00 :: m2 ++ Byte.x00 :: stream (hs_conn h') ∧
    unmarshal_object m1 = Ok o1 ∧ ParseClientFirst (string_field o1 "authentication") = Ok (name, nonce, bare) ∧
    unmarshal_object m2 = Ok o2 ∧ string_field o2 "authentication" = final ∧
    NewSCRAMServer (Some u) bare nonce turn = (Ok scram, hs_turn h') ∧
    ∀ password, has_password u password →
      attribute "r=" (Split ","%char final) "" = combinedNonce scram ∧
      (∃ r, combinedNonce scram = nonce +:+ base64 r ∧ length r = scramNonceLen) ∧
      ∃ key pre rest, final = pre +:+ ",p=" +:+ rest ∧
        Sum256 key = Sum256 (client_key (salted_password password (Salt u) (Iterations u))) ∧
        base64_decode (attribute "p=" (Split ","%char final) "") = Some (xor_bytes key (hmacSHA256 (Sum256 key) (auth_message scram pre))).
Proof.
  intros Hr. unfold handshake in Hr. apply bind_inv_ok in Hr as (ver & h1 & (c1 & Hv & ->)%wrap_err_inv%on_conn_inv & Hr).
  apply ReadFull_inv in Hv as (Hlen & Hc & Hb & _). cbn in Hc, Hb. cbv zeta in Hr. case_bool_decide as Hver; [|by repeat case_bool_decide].
  apply handshakeV1_0_inv in Hr as (st & u & name & nonce & bare & scram & final & Ha).
  destruct (ac_input _ _ _ _ _ _ _ _ _ _ Ha) as (m1 & o1 & m2 & o2 & Hs & Hm1 & Hm2 & Hp & ->).
  destruct (ac_conn _ _ _ _ _ _ _ _ _ _ Ha) as (Huser & Hdb & _). pose proof (ac_scram _ _ _ _ _ _ _ _ _ _ Ha) as Hnew.
  exists st, u, name, nonce, bare, scram, (string_field o2 "authentication"), m1, o1, m2, o2.
  split; [apply Ha|]. split; [apply Ha|]. do 2 (split; [done|]). split.
  { rewrite Hc. unfold stream in Hs at 1. cbn in Hs. rewrite Hb in Hs. cbn in Hs. rewrite Hs. f_equal. rewrite <- Hver, <- Hlen. symmetry. apply le_bytes_le_value. }
  do 5 (split; [done|]). intros password Hpw. destruct (ac_verify _ _ _ _ _ _ _ _ _ _ Ha) as [sig Hv].
  destruct (scram_sound_run _ _ _ _ _ _ _ _ _ Hpw Hnew Hv) as (pre & rest & key & Hf & Hn & Hk & Hb64 & Hnonce).
  split; [done|]. split; [done|]. by exists key, pre, rest.
Qed.

(** Values without times and numbers that JSON cannot write have a text. *)
Fixpoint plain (r : Reply) : bool :=
  match r with
  | RFloat f => negb (IsNaN f || IsInf f)
  | RTime _ | RGeometry _ => false
  | RArr l => forallb plain l
  | RMap kvs => forallb (λ kv, plain kv.2) kvs
  | _ => true
  end.
Class WireLaws `{Wire} := {
  marshal_plain r : plain r = true → ∃ data, marshal r = Ok data;
}.

(** What an honest client puts in its datums. *)
Definition first_datum (o : gmap string JSON) (name nonce : string) : Prop :=
  o !! "protocol_version" = Some (JNum (float_of_Z 0)) ∧ o !! "authentication_method" = Some (JStr "SCRAM-SHA-256") ∧
  o !! "authentication" = Some (JStr (client_first name nonce)).
Definition datum_text `{Wire} (m : list byte) (o : gmap string JSON) : Prop :=
  (Byte.x00 ∉ m) ∧ length m ≤ max_datum ∧ unmarshal_object m = Ok o.

(** A client of the user [u] that knows the password, and its first datum. *)
Record credentials `{Wire} `{Crypto} (st : Store) (u : User) (password name nonce : string) (m1 : list byte) (o1 : gmap string JSON) : Prop := {
  cr_user : GetUserByUsername name st = Some u;
  cr_password : has_password u password;
  cr_name : free_of ","%char name = true ∧ name ≠ "";
  cr_nonce : free_of ","%char nonce = true ∧ nonce ≠ "";
  cr_text : datum_text m1 o1;
  cr_first : first_datum o1 name nonce;
}.

Section honest.
Context `{WireLaws} `{CryptoLaws} `{Render}.

Lemma send_ok p v t h : marshal v = Ok t → c_faults (hs_conn h) = [] →
  let c := hs_conn h in
  wrap_err p (on_conn (WriteDatum v)) h =
    (Ok (), mkHS (mkConn (c_net c) (c_buf c) (c_out c ++ t ++ [Byte.x00]) [] (c_version c) (c_user c) (c_defaultDB c)) (hs_turn h)).
Proof. intros Ht Hf c. apply wrap_err_ok. unfold on_conn, zoom. by rewrite (WriteDatum_ok v t) by done. Qed.
Lemma receive_ok p m o h rest post : datum_text m o → up_to (hs_conn h) (m ++ Byte.x00 :: rest) post →
  ∃ c', wrap_err p (on_conn ReadDatum) h = (Ok o, mkHS c' (hs_turn h)) ∧ up_to c' rest post ∧ same_output (hs_conn h) c'.
Proof.
  intros (Hz & Hl & Hm) Hu. destruct (ReadDatum_ok m o _ rest post Hz Hl Hm Hu) as (c' & Hr & Hu' & Hs). exists c'.
  split; [|done]. apply wrap_err_ok. unfold on_conn, zoom. by rewrite Hr.
Qed.

Lemma handshakeV1_0_honest st u password name nonce h m1 o1 group2 :
  GetUserByUsername name st = Some u → has_password u password →
  free_of ","%char name = true → free_of ","%char nonce = true → name ≠ "" → nonce ≠ "" →
  datum_text m1 o1 → first_datum o1 name nonce → c_faults (hs_conn h) = [] →
  ∃ scram, NewSCRAMServer (Some u) (client_bare name nonce) nonce (hs_turn h) = (Ok scram, S (hs_turn h)) ∧
  ∀ m2 o2 extra post, datum_text m2 o2 →
    o2 !! "authentication" = Some (JStr (client_final password (Salt u) (Iterations u) (client_bare name nonce) (ServerFirst scram) (combinedNonce scram))) →
    up_to (hs_conn h) (m1 ++ [Byte.x00]) (group2 ++ post) → concat group2 = m2 ++ Byte.x00 :: extra →
    ∃ h' t1 t2 t3, handshakeV1_0 (Some st) h = (Ok (), h') ∧ up_to (hs_conn h') extra post ∧
      c_user (hs_conn h') = Some u ∧ c_defaultDB (hs_conn h') = "test" ∧ c_faults (hs_conn h') = [] ∧ hs_turn h' = S (hs_turn h) ∧
      c_out (hs_conn h') = c_out (hs_conn h) ++ t1 ++ Byte.x00 :: t2 ++ Byte.x00 :: t3 ++ [Byte.x00] ∧
      marshal server_hello = Ok t1 ∧ marshal (auth_success (ServerFirst scram)) = Ok t2 ∧
      marshal (auth_success (server_proof password (Salt u) (Iterations u) (client_bare name nonce) (ServerFirst scram) (combinedNonce scram))) = Ok t3.
Proof.
  intros Hu Hpw Hn1 Hn2 Hn3 Hn4 Hm1 (Hf1 & Hf2 & Hf3) Hfaults.
  destruct (scram_complete_run u password name nonce (hs_turn h) Hpw Hn1 Hn2 Hn3 Hn4) as (Hparse & scram & Hnew & Hverify).
  exists scram. split; [done|]. intros m2 o2 extra post Hm2 Ho2 Hup Hg2.
  destruct (marshal_plain server_hello) as [t1 Ht1]; [done|]. destruct (marshal_plain (auth_success (ServerFirst scram))) as [t2 Ht2]; [done|].
  destruct (marshal_plain (auth_success (server_proof password (Salt u) (Iterations u) (client_bare name nonce) (ServerFirst scram) (combinedNonce scram)))) as [t3 Ht3]; [done|].
  unfold handshakeV1_0. mstep (send_ok "failed to send server response" _ t1 h Ht1 Hfaults).
  destruct (receive_ok "failed to read client authentication" m1 o1 (mkHS (mkConn (c_net (hs_conn h)) (c_buf (hs_conn h)) (c_out (hs_conn h) ++ t1 ++ [Byte.x00]) [] (c_version (hs_conn h)) (c_user (hs_conn h)) (c_defaultDB (hs_conn h))) (hs_turn h)) [] (group2 ++ post) Hm1)
    as (c1 & Hr1 & Hu1 & (Hout1 & Hfl1 & _)); [exact Hup|]. mstep Hr1. rewrite Hf1.
  replace (negb _) with false by (vm_compute; reflexivity). rewrite Hf2. rewrite bool_decide_eq_false_2 by (intros Hne; by apply Hne).
  cbv zeta. assert (string_field o1 "authentication" = client_first name nonce) as -> by (unfold string_field; by rewrite Hf3).
  rewrite bool_decide_eq_false_2 by done. rewrite Hparse, Hu. cbn [hs_turn].
  rewrite (bind_ok (catch _ _) _ _ (Some scram) (mkHS c1 (S (hs_turn h)))).
  2:{ unfold catch, on_random, zoom, mbind, M_mbind, M_bind. cbn [hs_turn hs_conn]. by rewrite Hnew. }
  rewrite (bind_ok _ _ _ _ _ (send_ok "failed to send auth response" _ t2 (mkHS c1 (S (hs_turn h))) Ht2 Hfl1)). cbn [hs_conn hs_turn].
  apply up_to_next in Hu1. rewrite Hg2 in Hu1.
  destruct (receive_ok "failed to read client final auth" m2 o2 (mkHS (mkConn (c_net c1) (c_buf c1) (c_out c1 ++ t2 ++ [Byte.x00]) [] (c_version c1) (c_user c1) (c_defaultDB c1)) (S (hs_turn h))) extra post Hm2)
    as (c2 & Hr2 & Hu2 & (Hout2 & Hfl2 & _)); [exact Hu1|]. mstep Hr2.
  assert (string_field o2 "authentication" = client_final password (Salt u) (Iterations u) (client_bare name nonce) (ServerFirst scram) (combinedNonce scram)) as ->
    by (unfold string_field; by rewrite Ho2).
  rewrite Hverify. rewrite (bind_ok _ _ _ _ _ (send_ok "failed to send final response" _ t3 (mkHS c2 _) Ht3 Hfl2)). cbn [hs_conn hs_turn].
  rewrite (bind_ok (on_conn (modify _)) _ _ () _ eq_refl), (bind_ok (on_conn (modify _)) _ _ () _ eq_refl).
  eexists _, t1, t2, t3. split; [reflexivity|]. cbn. split; [exact Hu2|]. do 4 (split; [done|]). split; [|done].
  rewrite Hout2. cbn. rewrite Hout1. cbn. by repeat (rewrite <- !app_assoc; cbn).
Qed.
End honest.

(** The connection of the user, ready for queries. *)
Definition logged_in (u : User) (c : Connection) : Prop := c_user c = Some u ∧ c_defaultDB c = "test" ∧ c_faults c = [].

Lemma honest_handshake `{WireLaws} `{CryptoLaws} `{Render} st u password name nonce turn m1 o1 :
  credentials st u password name nonce m1 o1 →
  ∃ scram, NewSCRAMServer (Some u) (client_bare name nonce) nonce turn = (Ok scram, S turn) ∧
  ∀ m2 o2 group1 group2 group3 queries, datum_text m2 o2 →
    o2 !! "authentication" = Some (JStr (client_final password (Salt u) (Iterations u) (client_bare name nonce) (ServerFirst scram) (combinedNonce scram))) →
    concat group1 = le_bytes 4 Version1_0 → concat group2 = m1 ++ [Byte.x00] → concat group3 = m2 ++ [Byte.x00] →
    ∃ h' t1 t2 t3, handshake (Some st) (mkHS (NewConnection (group1 ++ group2 ++ group3 ++ queries) []) turn) = (Ok (), h') ∧
      up_to (hs_conn h') [] queries ∧ logged_in u (hs_conn h') ∧
      c_out (hs_conn h') = t1 ++ Byte.x00 :: t2 ++ Byte.x00 :: t3 ++ [Byte.x00] ∧
      marshal server_hello = Ok t1 ∧ marshal (auth_success (ServerFirst scram)) = Ok t2 ∧
      marshal (auth_success (server_proof password (Salt u) (Iterations u) (client_bare name nonce) (ServerFirst scram) (combinedNonce scram))) = Ok t3.
Proof.
  intros [Hu Hpw [Hn1 Hn3] [Hn2 Hn4] Hm1 Hf1].
  destruct (handshakeV1_0_honest st u password name nonce (mkHS (NewConnection [] []) turn) m1 o1 [] Hu Hpw Hn1 Hn2 Hn3 Hn4 Hm1 Hf1 eq_refl)
    as (scram & Hnew & _). exists scram. split; [exact Hnew|]. intros m2 o2 group1 group2 group3 queries Hm2 Ho2 Hg1 Hg2 Hg3.
  set (c := NewConnection (group1 ++ group2 ++ group3 ++ queries) []).
  destruct (ReadFull_ok c (le_bytes 4 Version1_0) [] (group2 ++ group3 ++ queries)) as (c1 & Hr & Hup & Hb & Hout & Hfl & _); [done| |].
  { exists group1. cbn. by rewrite Hg1. }
  rewrite length_le_bytes in Hr. unfold handshake.
  rewrite (bind_ok _ _ _ (le_bytes 4 Version1_0) (mkHS c1 turn)) by (apply wrap_err_ok; unfold on_conn, zoom; cbn [hs_conn]; by rewrite Hr).
  cbv zeta. rewrite bool_decide_eq_true_2 by (vm_compute; reflexivity).
  apply up_to_next in Hup. rewrite Hg2 in Hup.
  destruct (handshakeV1_0_honest st u password name nonce (mkHS c1 turn) m1 o1 group3 Hu Hpw Hn1 Hn2 Hn3 Hn4 Hm1 Hf1 Hfl) as (scram' & Hnew' & Hrun).
  cbn [hs_turn] in Hnew'. cbn [hs_turn] in Hnew. rewrite Hnew in Hnew'. injection Hnew' as <-.
  destruct (Hrun m2 o2 [] queries Hm2 Ho2 Hup Hg3) as (h' & t1 & t2 & t3 & Hh & Hup' & Huser & Hdb & Hfaults & _ & Ho & Ht).
  exists h', t1, t2, t3. split; [exact Hh|]. split; [done|]. split; [by split|]. split; [|done]. rewrite Ho. cbn [hs_conn]. by rewrite Hout.
Qed.

(** C27: a client that follows the protocol, knows the password and waits for each
    answer gets in, however the network cuts its messages: three answers are written,
    the connection stands for the user, and the loop will read what follows.  What the
    client sends together with its last message is another matter: see
    [pipelined_query_is_lost]. *)
Theorem honest_client_connects `{WireLaws} `{CryptoLaws} `{Render} st u password name nonce turn m1 o1 :
  credentials st u password name nonce m1 o1 →
  ∃ scram, NewSCRAMServer (Some u) (client_bare name nonce) nonce turn = (Ok scram, S turn) ∧
  ∀ m2 o2 group1 group2 group3 queries, datum_text m2 o2 →
    o2 !! "authentication" = Some (JStr (client_final password (Salt u) (Iterations u) (client_bare name nonce) (ServerFirst scram) (combinedNonce scram))) →
    concat group1 = le_bytes 4 Version1_0 → concat group2 = m1 ++ [Byte.x00] → concat group3 = m2 ++ [Byte.x00] →
    ∃ h' t1 t2 t3, handshake (Some st) (mkHS (NewConnection (group1 ++ group2 ++ group3 ++ queries) []) turn) = (Ok (), h') ∧
      up_to (hs_conn h') [] queries ∧ c_user (hs_conn h') = Some u ∧ c_defaultDB (hs_conn h') = "test" ∧
      c_out (hs_conn h') = t1 ++ Byte.x00 :: t2 ++ Byte.x00 :: t3 ++ [Byte.x00] ∧
      marshal server_hello = Ok t1 ∧ marshal (auth_success (ServerFirst scram)) = Ok t2 ∧
      marshal (auth_success (server_proof password (Salt u) (Iterations u) (client_bare name nonce) (ServerFirst scram) (combinedNonce scram))) = Ok t3.
Proof.
  intros Hc. destruct (honest_handshake st u password name nonce turn m1 o1 Hc) as (scram & Hnew & Hrun). exists scram. split; [done|].
  intros m2 o2 group1 group2 group3 queries Hm2 Ho2 Hg1 Hg2 Hg3.
  destruct (Hrun m2 o2 group1 group2 group3 queries Hm2 Ho2 Hg1 Hg2 Hg3) as (h' & t1 & t2 & t3 & Hh & Hup & (Hu & Hdb & _) & Ht).
  by exists h', t1, t2, t3.
Qed.

(** ** Serving queries *)

Definition frame (data : list byte) : list byte := length_bytes data ++ data.
(** The answers a client takes from what was written. *)
Fixpoint read_frames (fuel : nat) (out : list byte) : option (list (list byte)) :=
  match fuel with
  | O => None
  | S fuel' =>
      if bool_decide (out = []) then Some []
      else
        let n := Z.to_nat (le_value (take 4 out)) in
        if bool_decide (4 + n ≤ length out)
        then cons (take n (drop 4 out)) <$> read_frames fuel' (drop (4 + n) out)
        else None
  end.
Lemma length_bytes_value data : (Z.of_nat (length data) < 2 ^ 32)%Z → le_value (length_bytes data) = Z.of_nat (length data).
Proof.
  intros Hl. unfold length_bytes. rewrite le_value_le_bytes. change (256 ^ Z.of_nat 4)%Z with (2 ^ 32)%Z. unfold uint32.
  rewrite !Z.mod_small by (rewrite ?Z.mod_small; lia). done.
Qed.
Lemma read_frames_ok datas : ∀ fuel, Forall (λ d, Z.of_nat (length d) < 2 ^ 32)%Z datas → length datas < fuel →
  read_frames fuel (concat (frame <$> datas)) = Some datas.
Proof.
  induction datas as [|d datas IH]; intros [|fuel] Hl Hf; try (cbn in Hf; lia); [done|]. apply Forall_cons in Hl as [Hd Hl].
  cbn [fmap list_fmap concat]. unfold frame at 1. rewrite <- app_assoc. set (out := concat _).
  assert (length (length_bytes d) = 4) as H4 by apply length_le_bytes.
  assert (∀ l, take 4 (length_bytes d ++ l) = length_bytes d ∧ drop 4 (length_bytes d ++ l) = l) as Hcut
    by (intros l; by rewrite <- H4, take_app_length, drop_app_length).
  destruct (Hcut (d ++ out)) as [Ht Hd4]. cbn [read_frames]. rewrite bool_decide_eq_false_2 by done. cbv zeta.
  rewrite Ht, Hd4, length_bytes_value, Nat2Z.id by done.
  rewrite bool_decide_eq_true_2 by (rewrite !length_app, H4; lia).
  rewrite <- (drop_drop (length_bytes d ++ d ++ out) (length d) 4), Hd4, take_app_length, drop_app_length. unfold out.
  rewrite IH; [done|done|cbn in Hf; lia].
Qed.

Section serve.
Context `{Wire} `{Runtime} `{Crypto} `{AuthRuntime} (fuel : nat).

(** What one query is answered, and the world it leaves. *)
Definition respond (ctx : Context) (query : Query) (w : World) : outcome Response * World :=
  let t := q_Type query in
  if bool_decide (t = QueryStart) then
    match HandleQuery fuel ctx query w with
    | (Err e, w') => (Ok (error_response ResponseRuntimeError e), w')
    | r => r
    end
  else if bool_decide (t = QueryContinue) then (Ok (response ResponseSuccessSeq (Some []) []), w)
  else if bool_decide (t = QueryStop) then (Ok (response ResponseWaitComplete None []), w)
  else if bool_decide (t = QueryNoReplyWait) then (Ok (response ResponseWaitComplete None []), w)
  else if bool_decide (t = QueryServerInfo) then (Ok (server_info serverVersion), w)
  else (Ok (error_response ResponseClientError ("Unknown query type: " +:+ pretty t)), w).
(** Why a query is not answered: its answer has no text, as one with a number that is
    not finite; the evaluation panics; it goes deeper than the fuel. *)
Inductive silence := NoText | Crash | TooDeep.
Definition text_of (resp : Response) : list byte + silence :=
  match Response_Marshal resp with Ok data => inl data | _ => inr NoText end.
Definition serve_one (ctx : Context) (text : list byte) (w : World) : (list byte + silence) * World :=
  match ParseQuery text with
  | Ok query =>
      match respond ctx query w with
      | (Ok resp, w') => (text_of resp, w')
      | (Panic, w') => (inr Crash, w')
      | (_, w') => (inr TooDeep, w')
      end
  | Err e => (text_of (error_response ResponseClientError e), w)
  | _ => (inr Crash, w)
  end.
(** The answers up to the first query that has none. *)
Fixpoint serve (ctx : Context) (texts : list (list byte)) (w : World) : list (list byte) * option silence * World :=
  match texts with
  | [] => ([], None, w)
  | text :: texts' =>
      match serve_one ctx text w with
      | (inl data, w1) => let '(datas, e, w2) := serve ctx texts' w1 in (data :: datas, e, w2)
      | (inr e, w1) => ([], Some e, w1)
      end
  end.

(** The steps that serve a query before the loop reads on. *)
Definition is_start (text : list byte) : bool :=
  match ParseQuery text with Ok query => bool_decide (q_Type query = QueryStart) | _ => false end.
Fixpoint turns (texts : list (list byte)) (next : nat) : list event :=
  match texts with
  | [] => []
  | text :: texts' =>
      if is_start text then [ELoop; ERoutine next; ERoutine next; ERoutine next] ++ turns texts' (S next)
      else [ELoop; ELoop; ELoop] ++ turns texts' next
  end.

(** The steps up to where a query turns out to have no answer. *)
Definition silent_turns (text : list byte) (next : nat) : list event := ELoop :: (if is_start text then [ERoutine next] else []).
(** The steps for a client that waits for each answer. *)
Fixpoint serve_turns (ctx : Context) (texts : list (list byte)) (next : nat) (w : World) : list event :=
  match texts with
  | [] => []
  | text :: texts' =>
      match serve_one ctx text w with
      | (inl _, w1) => turns [text] next ++ serve_turns ctx texts' (if is_start text then S next else next) w1
      | (inr _, _) => silent_turns text next
      end
  end.

(** A server that waits for a query, on a healthy connection. *)
Record waiting (s : Server) : Prop := {
  wt_crashed : sv_crashed s = false;
  wt_quit : sv_quit s = false;
  wt_loop : sv_loop s = LoopRead;
  wt_routines : sv_routines s = ∅;
  wt_faults : c_faults (sv_conn s) = [];
}.
Definition session_of (s : Server) : Context :=
  sessionContext (a_store <$> sv_auth s) (c_user (sv_conn s)) (c_defaultDB (sv_conn s)).

Lemma ReadFull_concat c bs rest : concat (c_net c) = bs ++ rest →
  ∃ net, ReadFull (length bs) c = (Ok bs, set_input net (c_buf c) c) ∧ concat net = rest.
Proof.
  intros Hc. destruct (net_ReadFull_ok (length bs) (c_net c) [] false bs rest eq_refl Hc) as (net & Hr & Hn). rewrite !app_nil_r in Hr.
  exists net. unfold ReadFull. by rewrite Hr.
Qed.
Lemma read_query_ok c text rest : concat (c_net c) = frame text ++ rest → (Z.of_nat (length text) ≤ max_query)%Z →
  ∃ net, read_query c = (Ok text, set_input net (c_buf c) c) ∧ concat net = rest.
Proof.
  unfold frame. rewrite <- app_assoc. intros Hc Hl. destruct (ReadFull_concat c _ _ Hc) as (net & Hr & Hn). unfold read_query.
  assert (length (length_bytes text) = 4) as H4 by apply length_le_bytes. rewrite H4 in Hr. mstep Hr. cbv zeta.
  rewrite length_bytes_value by (unfold max_query in Hl; lia). rewrite bool_decide_eq_false_2 by lia. rewrite Nat2Z.id.
  destruct (ReadFull_concat (set_input net (c_buf c) c) text rest Hn) as (net' & Hr' & Hn'). exists net'. by rewrite Hr'.
Qed.

(** What is the same before and after a query, up to the answer. *)
Record served (s s' : Server) (datas : list (list byte)) (w : World) (rest : list byte) : Prop := {
  sd_waiting : waiting s';
  sd_world : sv_world s' = w;
  sd_auth : sv_auth s' = sv_auth s;
  sd_input : concat (c_net (sv_conn s')) = rest;
  sd_output : c_out (sv_conn s') = c_out (sv_conn s) ++ concat (frame <$> datas);
  sd_user : c_user (sv_conn s') = c_user (sv_conn s) ∧ c_defaultDB (sv_conn s') = c_defaultDB (sv_conn s);
}.

Lemma served_from s s0 s' datas w rest :
  sv_auth s0 = sv_auth s → c_out (sv_conn s0) = c_out (sv_conn s) → c_user (sv_conn s0) = c_user (sv_conn s) →
  c_defaultDB (sv_conn s0) = c_defaultDB (sv_conn s) → served s0 s' datas w rest → served s s' datas w rest.
Proof. intros Ha Ho Hu Hd [? ? ? ? ? [? ?]]. split; try done; try split; congruence. Qed.

(** The loop writes an answer by itself. *)
Lemma loop_answers s resp data : waiting s → Response_Marshal resp = Ok data →
  let s' := server_run fuel [ELoop; ELoop] (set_loop (send_stage resp) s) in
  served s s' [data] (sv_world s) (concat (c_net (sv_conn s))) ∧ sv_next s' = sv_next s.
Proof.
  intros [Hcr Hq Hl Hr Hf] Hm. unfold send_stage. rewrite Hm. destruct s as [c w a l rs n qs cs k q cr]. cbn in Hcr, Hq, Hl, Hr, Hf. subst.
  cbn. rewrite (Write_ok _ _ Hf). cbn. split; [|done]. split; cbn; try done. rewrite app_nil_r. unfold frame. by rewrite <- !app_assoc.
Qed.
Lemma server_run_cons e es s : server_run fuel (e :: es) s = server_run fuel es (server_step fuel e s).
Proof. done. Qed.
Lemma server_run_app es es' s : server_run fuel (es ++ es') s = server_run fuel es' (server_run fuel es s).
Proof. apply foldl_app. Qed.
(** What [Write] leaves on a healthy connection. *)
Definition written (data : list byte) (c : Connection) : Connection :=
  mkConn (c_net c) (c_buf c) (c_out c ++ data) [] (c_version c) (c_user c) (c_defaultDB c).
Lemma routine_length_step id r data s : sv_crashed s = false → sv_loop s = LoopRead → c_faults (sv_conn s) = [] →
  sv_routines s !! id = Some r → r_stage r = WriteLength data →
  server_step fuel (ERoutine id) s = stage_to id (WriteData data) r (set_conn (written (length_bytes data) (sv_conn s)) s).
Proof.
  intros Hcr Hl Hf Hr Hst. unfold server_step, routine_step, conn_write. by rewrite Hcr, Hr, Hst, Hl, (Write_ok _ _ Hf).
Qed.
Lemma routine_data_step id r data s : sv_crashed s = false → sv_loop s = LoopRead → c_faults (sv_conn s) = [] →
  sv_routines s !! id = Some r → r_stage r = WriteData data →
  server_step fuel (ERoutine id) s = finish id (r_token r) (set_conn (written data (sv_conn s)) s).
Proof.
  intros Hcr Hl Hf Hr Hst. unfold server_step, routine_step, conn_write. by rewrite Hcr, Hr, Hst, Hl, (Write_ok _ _ Hf).
Qed.

(** A goroutine evaluates and writes the answer. *)
Lemma routine_answers s query resp data w' : waiting s → q_Type query = QueryStart →
  respond (session_of s) query (sv_world s) = (Ok resp, w') → Response_Marshal resp = Ok data →
  let id := sv_next s in
  let s' := server_run fuel [ERoutine id; ERoutine id; ERoutine id] (dispatch query s) in
  served s s' [data] w' (concat (c_net (sv_conn s))) ∧ sv_next s' = S (sv_next s).
Proof.
  intros [Hcr Hq Hl Hr Hf] Ht Hresp Hm. unfold respond in Hresp. rewrite Ht in Hresp. cbn zeta in Hresp.
  rewrite bool_decide_eq_true_2 in Hresp by done. unfold dispatch. cbn zeta. rewrite bool_decide_eq_true_2 by done.
  destruct s as [c w a l rs n qs cs k q cr]. cbn in Hcr, Hq, Hl, Hr, Hf. subst. unfold session_of in Hresp. cbn in Hresp.
  assert (∀ s0 r, r_stage r = Running query → sv_routines s0 = {[n := r]} → sv_world s0 = w →
    sessionContext (a_store <$> sv_auth s0) (r_user r) (r_defaultDB r) = sessionContext (a_store <$> a) (c_user c) (c_defaultDB c) →
    routine_step fuel n s0 = stage_to n (WriteLength data) r (set_world w' s0)) as Hstep.
  { intros s0 r Hst Hrs Hw Hctx. unfold routine_step. rewrite Hrs, lookup_singleton_eq, Hst, Hctx, Hw. cbv zeta.
    destruct (HandleQuery fuel _ query w) as [[r0|e| |] w0]; try done; injection Hresp as <- <-; unfold answer; by rewrite Hm. }
  set (r := mkRoutine (q_Token query) (c_user c) (c_defaultDB c) (Running query)). cbv zeta. cbn [sv_next sv_conn sv_routines sv_world sv_auth sv_loop sv_queries sv_cancelled sv_queryCount sv_quit sv_crashed].
  rewrite server_run_cons. unfold server_step at 1 2. cbn [sv_crashed].
  rewrite (Hstep _ r); [|done|apply insert_empty|done..]. rewrite server_run_cons.
  erewrite routine_length_step; [|done|done|exact Hf|cbn; apply lookup_insert_eq|done]. rewrite server_run_cons.
  erewrite routine_data_step; [|done|done|done|cbn; apply lookup_insert_eq|done]. split; [|done]. split; cbn; try done.
  - split; cbn; try done. by rewrite !insert_insert_eq, insert_empty, delete_singleton_eq.
  - rewrite app_nil_r. unfold frame. by rewrite <- !app_assoc.
Qed.

Lemma loop_reads s text rest : waiting s → concat (c_net (sv_conn s)) = frame text ++ rest → (Z.of_nat (length text) ≤ max_query)%Z →
  ∃ net, concat net = rest ∧ let s0 := set_conn (set_input net (c_buf (sv_conn s)) (sv_conn s)) s in
    waiting s0 ∧ server_step fuel ELoop s =
      match ParseQuery text with
      | Ok query => dispatch query s0
      | Err e => set_loop (send_stage (error_response ResponseClientError e)) s0
      | _ => set_crashed s0
      end.
Proof.
  intros [Hcr Hq Hl Hr Hf] Hc Hlen. destruct (read_query_ok _ _ _ Hc Hlen) as (net & Hread & Hnet). exists net. split; [done|].
  split; [by split|]. unfold server_step, loop_step, loop_read. by rewrite Hcr, Hl, Hq, Hread.
Qed.
(** A query that the loop answers. *)
Lemma dispatch_answers s query resp data w' : waiting s → q_Type query ≠ QueryStart →
  respond (session_of s) query (sv_world s) = (Ok resp, w') → Response_Marshal resp = Ok data →
  let s' := server_run fuel [ELoop; ELoop] (dispatch query s) in
  served s s' [data] w' (concat (c_net (sv_conn s))) ∧ sv_next s' = sv_next s.
Proof.
  intros Hw Ht Hresp Hm. unfold respond in Hresp. cbv zeta in Hresp. unfold dispatch. cbv zeta.
  rewrite bool_decide_eq_false_2 in Hresp |- * by done.
  repeat case_bool_decide; injection Hresp as <- <-; try by apply (loop_answers s _ data).
  destruct (sv_queries s !! q_Token query) as [id|]; [|by apply loop_answers].
  set (s1 := set_queries _ _ s). destruct (loop_answers s1 (response ResponseWaitComplete None []) data) as [Hs Hn];
    [destruct Hw; by split|done|]. split; [|exact Hn]. by apply (served_from s s1).
Qed.
(** A query whose goroutine has nothing to write. *)
Definition ended (e : option silence) (s : Server) : Prop :=
  match e with
  | None | Some NoText => waiting s
  | Some Crash => sv_crashed s = true
  | Some TooDeep => ∃ id r, sv_routines s !! id = Some r ∧ r_stage r = Stuck
  end.
Lemma routine_silent s query o w' e : waiting s → q_Type query = QueryStart → respond (session_of s) query (sv_world s) = (o, w') →
  match o with Ok resp => text_of resp = inr e | Panic => e = Crash | _ => e = TooDeep end →
  let s' := server_run fuel [ERoutine (sv_next s)] (dispatch query s) in
  sv_world s' = w' ∧ c_out (sv_conn s') = c_out (sv_conn s) ∧ ended (Some e) s'.
Proof.
  intros [Hcr Hq Hl Hr Hf] Ht Hresp He. unfold respond in Hresp. rewrite Ht in Hresp. cbn zeta in Hresp.
  rewrite bool_decide_eq_true_2 in Hresp by done. unfold dispatch. cbn zeta. rewrite bool_decide_eq_true_2 by done.
  destruct s as [c w a l rs n qs cs k q cr]. cbn in Hcr, Hq, Hl, Hr, Hf. subst. unfold session_of in Hresp. cbn in Hresp.
  unfold server_run. cbn [foldl]. unfold server_step. cbn [sv_crashed]. unfold routine_step. cbn [sv_next sv_routines].
  rewrite lookup_insert_eq. cbn [r_stage r_user r_defaultDB sv_auth sv_world].
  assert (∀ resp, text_of resp = inr e → e = NoText ∧ ∀ r s0, answer n resp r s0 = finish n (r_token r) s0) as Hfinish.
  { intros resp. unfold text_of, answer. by destruct (Response_Marshal resp); intros [= <-]. }
  destruct (HandleQuery fuel _ query w) as [[resp|m| |] w0]; injection Hresp as <- <-; try subst e.
  - destruct (Hfinish _ He) as [-> Hfin]. rewrite Hfin. split; [done|]. split; [done|]. split; try done. cbn.
    by rewrite insert_empty, delete_singleton_eq.
  - destruct (Hfinish _ He) as [-> Hfin]. rewrite Hfin. split; [done|]. split; [done|]. split; try done. cbn.
    by rewrite insert_empty, delete_singleton_eq.
  - done.
  - split; [done|]. split; [done|]. exists n. eexists. split; [cbn; apply lookup_insert_eq|done].
Qed.
(** The loop drops an answer without a text. *)
Lemma loop_silent s resp e : waiting s → text_of resp = inr e →
  e = NoText ∧ waiting (set_loop (send_stage resp) s) ∧ sv_world (set_loop (send_stage resp) s) = sv_world s.
Proof.
  intros [] Ht. unfold text_of in Ht. unfold send_stage. destruct (Response_Marshal resp); [done|..]; injection Ht as <-; (split; [done|]; by split).
Qed.
Lemma dispatch_silent s query o w' e : waiting s → q_Type query ≠ QueryStart → respond (session_of s) query (sv_world s) = (o, w') →
  match o with Ok resp => text_of resp = inr e | Panic => e = Crash | _ => e = TooDeep end →
  let s' := dispatch query s in sv_world s' = w' ∧ c_out (sv_conn s') = c_out (sv_conn s) ∧ ended (Some e) s'.
Proof.
  intros Hw Ht Hresp He. unfold respond in Hresp. cbv zeta in Hresp. unfold dispatch. cbv zeta.
  rewrite bool_decide_eq_false_2 in Hresp |- * by done.
  repeat case_bool_decide; injection Hresp as <- <-; try (by destruct (loop_silent s _ e Hw He) as (-> & Hw' & Hww)).
  destruct (sv_queries s !! q_Token query) as [id|]; [|by destruct (loop_silent s _ e Hw He) as (-> & Hw' & Hww)].
  set (s1 := set_queries _ _ s). destruct (loop_silent s1 (response ResponseWaitComplete None []) e) as (-> & Hw' & Hww); [destruct Hw; by split|done|done].
Qed.

Lemma serve_step s text rest data w' : waiting s → concat (c_net (sv_conn s)) = frame text ++ rest →
  (Z.of_nat (length text) ≤ max_query)%Z → serve_one (session_of s) text (sv_world s) = (inl data, w') →
  let s' := server_run fuel (turns [text] (sv_next s)) s in
  served s s' [data] w' rest ∧ sv_next s' = (if is_start text then S (sv_next s) else sv_next s).
Proof.
  intros Hw Hc Hlen Hserve s'. destruct (loop_reads s text rest Hw Hc Hlen) as (net & Hnet & Hw0 & Hstep).
  set (s0 := set_conn _ s) in *. assert (∀ s' datas w, served s0 s' datas w (concat net) → served s s' datas w rest) as Hfrom.
  { intros. rewrite <- Hnet. by apply (served_from s s0). }
  assert (∀ resp, text_of resp = inl data → Response_Marshal resp = Ok data) as Htext.
  { intros resp. unfold text_of. by destruct (Response_Marshal resp); intros [= ->]. }
  unfold serve_one in Hserve. unfold s', turns, is_start. destruct (ParseQuery text) as [query|e| |]; try done.
  - destruct (respond (session_of s) query (sv_world s)) as [[resp| | |] w] eqn:Hresp; try done.
    injection Hserve as Hm%Htext ->. case_bool_decide as Ht.
    + rewrite app_nil_r, server_run_cons, Hstep. destruct (routine_answers s0 query resp data w' Hw0 Ht Hresp Hm) as [Hs Hn]. split; [by apply Hfrom|exact Hn].
    + rewrite app_nil_r, server_run_cons, Hstep. destruct (dispatch_answers s0 query resp data w' Hw0 Ht Hresp Hm) as [Hs Hn]. split; [by apply Hfrom|exact Hn].
  - injection Hserve as Hm%Htext <-.
    rewrite app_nil_r, server_run_cons, Hstep. destruct (loop_answers s0 _ data Hw0 Hm) as [Hs Hn]. split; [by apply Hfrom|exact Hn].
Qed.
Lemma serve_silent s text rest e w' : waiting s → concat (c_net (sv_conn s)) = frame text ++ rest →
  (Z.of_nat (length text) ≤ max_query)%Z → serve_one (session_of s) text (sv_world s) = (inr e, w') →
  let s' := server_run fuel (silent_turns text (sv_next s)) s in
  sv_world s' = w' ∧ c_out (sv_conn s') = c_out (sv_conn s) ∧ ended (Some e) s'.
Proof.
  intros Hw Hc Hlen Hserve s'. destruct (loop_reads s text rest Hw Hc Hlen) as (net & Hnet & Hw0 & Hstep).
  set (s0 := set_conn _ s) in *. unfold serve_one in Hserve. unfold s', silent_turns, is_start. rewrite server_run_cons, Hstep.
  destruct (ParseQuery text) as [query|m| |]; try (by injection Hserve as <- <-).
  - destruct (respond (session_of s) query (sv_world s)) as [o w] eqn:Hresp.
    assert (w = w' ∧ match o with Ok resp => text_of resp = inr e | Panic => e = Crash | _ => e = TooDeep end) as [-> He]
      by (by destruct o; injection Hserve as Hs ->).
    case_bool_decide as Ht; [by apply (routine_silent s0 query o w' e)|by apply (dispatch_silent s0 query o w' e)].
  - injection Hserve as Ht <-. by destruct (loop_silent s0 _ e Hw0 Ht) as (-> & Hw' & Hww).
Qed.

Lemma session_served s s' datas w rest : served s s' datas w rest → session_of s' = session_of s.
Proof. intros [_ _ Ha _ _ [Hu Hd]]. unfold session_of. by rewrite Ha, Hu, Hd. Qed.
Lemma turns_cons text texts next :
  turns (text :: texts) next = turns [text] next ++ turns texts (if is_start text then S next else next).
Proof. cbn [turns]. by destruct (is_start text); rewrite app_nil_r. Qed.
Lemma serve_turns_all texts : ∀ ctx next w, (serve ctx texts w).1.2 = None → serve_turns ctx texts next w = turns texts next.
Proof.
  induction texts as [|text texts IH]; intros ctx next w; [done|]. rewrite turns_cons. cbn [serve serve_turns].
  destruct (serve_one ctx text w) as [[data|e] w1]; [|done]. intros Hs. f_equal. apply IH. by destruct (serve ctx texts w1) as [[??]?].
Qed.

(** Any queries, up to the first that is not answered. *)
Lemma serve_run texts : ∀ s rest, waiting s → concat (c_net (sv_conn s)) = concat (frame <$> texts) ++ rest →
  Forall (λ t, Z.of_nat (length t) ≤ max_query)%Z texts →
  let r := serve (session_of s) texts (sv_world s) in
  let s' := server_run fuel (serve_turns (session_of s) texts (sv_next s) (sv_world s)) s in
  sv_world s' = r.2 ∧ c_out (sv_conn s') = c_out (sv_conn s) ++ concat (frame <$> r.1.1) ∧ ended r.1.2 s' ∧
  (r.1.2 = None → length r.1.1 = length texts ∧ served s s' r.1.1 r.2 rest).
Proof.
  induction texts as [|text texts IH]; intros s rest Hw Hc Hlen.
  - cbn. rewrite app_nil_r. split_and!; try done. intros _. split; [done|]. split; try done. by rewrite app_nil_r.
  - apply Forall_cons in Hlen as [Hl Hlen]. cbn in Hc. rewrite <- app_assoc in Hc. cbn [serve serve_turns].
    destruct (serve_one (session_of s) text (sv_world s)) as [[data|e] w1] eqn:Hone.
    + destruct (serve_step s text _ data w1 Hw Hc Hl Hone) as [Hd Hn]. rewrite server_run_app. set (s1 := server_run _ (turns _ _) s) in *.
      specialize (IH s1 rest (sd_waiting _ _ _ _ _ Hd) (sd_input _ _ _ _ _ Hd) Hlen).
      rewrite Hn, (session_served _ _ _ _ _ Hd), (sd_world _ _ _ _ _ Hd) in IH.
      destruct (serve (session_of s) texts w1) as [[datas e] w2]. cbn [fst snd] in IH |- *. destruct IH as (Hww & Hout & He & Hall).
      assert (c_out (sv_conn s1) = c_out (sv_conn s) ++ frame data) as Ho1 by (rewrite (sd_output _ _ _ _ _ Hd); cbn; by rewrite app_nil_r).
      split; [done|]. split; [rewrite Hout, Ho1; cbn; by rewrite <- app_assoc|]. split; [done|]. intros Hnone. destruct (Hall Hnone) as [Hlength Hsv].
      split; [cbn; by f_equal|]. destruct Hd as [_ _ Ha _ _ [Hu Hdb]], Hsv as [Hw' Hww' Ha' Hi' Ho' [Hu' Hdb']].
      split; try done; try congruence; [|split; congruence]. rewrite Ho', Ho1. cbn. by rewrite <- app_assoc.
    + destruct (serve_silent s text _ e w1 Hw Hc Hl Hone) as (Hww & Hout & He). cbn [fst snd fmap list_fmap concat].
      rewrite app_nil_r. by split_and!.
Qed.
Lemma serve_all texts s rest datas w' : waiting s → concat (c_net (sv_conn s)) = concat (frame <$> texts) ++ rest →
  Forall (λ t, Z.of_nat (length t) ≤ max_query)%Z texts → serve (session_of s) texts (sv_world s) = (datas, None, w') →
  served s (server_run fuel (turns texts (sv_next s)) s) datas w' rest.
Proof.
  intros Hw Hc Hlen Hs. pose proof (serve_run texts s rest Hw Hc Hlen) as Hrun. cbv zeta in Hrun.
  rewrite serve_turns_all, Hs in Hrun by (by rewrite Hs). by apply Hrun.
Qed.
End serve.

(** C28: how queries are answered: a client that waits for each answer before its next
    query, however the network cuts the queries, reads back one answer for each, in
    order, the texts that evaluating the queries one after the other in the session of
    the user gives, and the world is the one this leaves; the server then waits for
    the next query.  It is so for all queries or up to the first one without an
    answer: when the answer has no text nothing is written and the server waits for a
    query while its client waits for the answer; when the evaluation panics the server
    is gone; and only an evaluation deeper than the fuel is left open, which does not
    depend on [fuel] once it exceeds the nesting of the query
    ([Sessions.fuel_is_enough]) but on the depth to which values are compared. *)
Theorem queries_are_answered `{Wire} `{Runtime} `{Crypto} `{AuthRuntime} fuel s texts :
  waiting s → concat (c_net (sv_conn s)) = concat (frame <$> texts) →
  Forall (λ t, Z.of_nat (length t) ≤ max_query)%Z texts →
  let '(datas, e, w') := serve fuel (session_of s) texts (sv_world s) in
  let s' := server_run fuel (serve_turns fuel (session_of s) texts (sv_next s) (sv_world s)) s in
  sv_world s' = w' ∧
  (∃ out, c_out (sv_conn s') = c_out (sv_conn s) ++ out ∧
    (Forall (λ d, Z.of_nat (length d) < 2 ^ 32)%Z datas → read_frames (S (length datas)) out = Some datas)) ∧
  match e with
  | None => length datas = length texts ∧ waiting s'
  | Some NoText => waiting s'
  | Some Crash => sv_crashed s' = true
  | Some TooDeep => ∃ id r, sv_routines s' !! id = Some r ∧ r_stage r = Stuck
  end.
Proof.
  intros Hw Hc Hl. destruct (serve_run fuel texts s [] Hw) as (Hww & Hout & He & Hall); [by rewrite app_nil_r|done|].
  destruct (serve fuel (session_of s) texts (sv_world s)) as [[datas e] w']. cbn [fst snd] in *. cbv zeta. split; [done|]. split.
  - exists (concat (frame <$> datas)). split; [done|]. intros Hd. apply read_frames_ok; [done|lia].
  - destruct e as [[]|]; try done. by destruct (Hall eq_refl) as [Hlen _].
Qed.

(** ** Users who may only read *)

Definition may_only_read (id : string) (st : Store) : Prop :=
  ∀ db read write create drop, write || create || drop = true → HasDatabaseAccess id db read write create drop st = false.

Section reading.
Context `{Wire} `{RuntimeLaws} `{Crypto} `{AuthRuntime} (fuel : nat).

Lemma session_read_only u db st : may_only_read (ID u) st → read_only (sessionContext (Some st) (Some u) db).
Proof.
  intros Hr. unfold sessionContext, WithSession, read_only. eexists. split; [reflexivity|]. cbv beta.
  intros db' read write create drop Hw. rewrite Hr by done. by eexists.
Qed.
Lemma keeps_HandleQuery I `{!StoreInv I} ctx query : keeps I (Evaluate ctx fuel (q_Query query)) → keeps I (HandleQuery fuel ctx query).
Proof.
  intros Hev. assert (keeps I (catch (result ← Evaluate ctx fuel (q_Query query); h ← get_heap;
    responseData ← lift (datumToInterface h value_fuel result); mret (NewSuccessAtomResponse responseData))
    (λ e, mret (response ResponseRuntimeError None [e])))) as Hq.
  { apply keeps_catch; [|by intros e w Hw]. apply keeps_bind; [exact Hev|]. intros result.
    apply keeps_bind; [apply keeps_get_heap|]. intros h. apply keeps_bind; [apply keeps_lift|]. by intros d w Hw. }
  unfold HandleQuery, handleStart. cbv zeta. repeat case_bool_decide; try (by intros w Hw). destruct (q_Query query); try apply Hq. by intros w Hw.
Qed.

(** What holds of the world as long as the queries that a user runs satisfy [Q]. *)
Context (I : World → Prop) `{!StoreInv I} (Q : GoVal → Prop).
Context (HI : ∀ ctx q, read_only ctx → Q q → keeps I (Evaluate ctx fuel q)).
(** The queries that goroutines are about to evaluate. *)
Definition running (s : Server) : Prop :=
  ∀ id r query, sv_routines s !! id = Some r → r_stage r = Running query → Q (q_Query query).

(** A connection of [u], its goroutines, and a store with the invariant. *)
Record reads_as (u : User) (s : Server) : Prop := {
  ra_conn : c_user (sv_conn s) = Some u;
  ra_routines id r : sv_routines s !! id = Some r → r_user r = Some u;
  ra_world : I (sv_world s);
}.

Lemma read_query_user c : c_user (read_query c).2 = c_user c.
Proof.
  assert (∀ n c, c_user (ReadFull n c).2 = c_user c) as Hr by (intros n c0; unfold ReadFull; by destruct (net_ReadFull _ _ _)).
  unfold read_query, mbind, M_mbind, M_bind. pose proof (Hr 4 c) as H4. destruct (ReadFull 4 c) as [[bs|e| |] c1]; try done.
  cbv zeta. case_bool_decide; [done|]. rewrite <- H4. apply Hr.
Qed.
Lemma Write_user data c : c_user (Write data c).2 = c_user c.
Proof. by destruct (Write_same data c) as (_ & _ & _ & -> & _). Qed.
Lemma conn_write_user data s : c_user (conn_write data s).2 = c_user (sv_conn s).
Proof. unfold conn_write. destruct (sv_loop s); try apply Write_user. done. Qed.

Lemma reads_as_conn u s c l : reads_as u s → c_user c = c_user (sv_conn s) → reads_as u (set_loop l (set_conn c s)).
Proof. intros [Hc Hr Hw] Hu. split; [by rewrite <- Hc|exact Hr|exact Hw]. Qed.
Lemma reads_as_dispatch u s query : reads_as u s → reads_as u (dispatch query s).
Proof.
  intros [Hc Hr Hw]. unfold dispatch. cbv zeta. repeat case_bool_decide; try by split.
  - split; [exact Hc| |exact Hw]. cbn. intros id r [[<- <-]|[_ Hl]]%lookup_insert_Some; [done|by eapply Hr].
  - by destruct (sv_queries s !! q_Token query); split.
Qed.
Lemma reads_as_stage u s id r st : reads_as u s → sv_routines s !! id = Some r → reads_as u (stage_to id st r s).
Proof.
  intros [Hc Hr Hw] Hl. split; [exact Hc| |exact Hw]. cbn. intros id' r' [[<- <-]|[_ Hl']]%lookup_insert_Some; [cbn; by eapply Hr|by eapply Hr].
Qed.
Lemma reads_as_finish u s id tok : reads_as u s → reads_as u (finish id tok s).
Proof. intros [Hc Hr Hw]. split; [exact Hc| |exact Hw]. cbn. intros id' r' [_ Hl']%lookup_delete_Some. by eapply Hr. Qed.
Lemma reads_as_set u s c : reads_as u s → c_user c = c_user (sv_conn s) → reads_as u (set_conn c s).
Proof. intros [Hc Hr Hw] Hu. split; [by rewrite <- Hc|exact Hr|exact Hw]. Qed.
Create HintDb reading.
Hint Resolve reads_as_conn reads_as_dispatch reads_as_stage reads_as_finish reads_as_set : reading.

Lemma loop_reads_as u s : reads_as u s → reads_as u (loop_step s).
Proof.
  intros Hs. unfold loop_step. destruct (sv_loop s) as [|data|data|]; [|..|done].
  - unfold loop_read. destruct (sv_quit s); [by destruct Hs|]. pose proof (read_query_user (sv_conn s)) as Hu.
    destruct (read_query (sv_conn s)) as [[data|e| |] c]; cbn in Hu; try by apply reads_as_conn.
    assert (reads_as u (set_conn c s)) as Hs' by auto with reading. destruct (ParseQuery data); auto with reading; by destruct Hs'.
  - pose proof (Write_user (length_bytes data) (sv_conn s)) as Hu. destruct (Write (length_bytes data) (sv_conn s)) as [[] c]; by apply reads_as_conn.
  - apply reads_as_conn; [done|]. apply Write_user.
Qed.
Lemma routine_reads_as u s a id : sv_auth s = Some a → may_only_read (ID u) (a_store a) → running s → reads_as u s → reads_as u (routine_step fuel id s).
Proof.
  intros Ha Hro Hrun Hs. unfold routine_step. destruct (sv_routines s !! id) as [r|] eqn:Hr; [|done].
  pose proof (ra_routines _ _ Hs _ _ Hr) as Hu. destruct (r_stage r) as [query|data|data|] eqn:Hst; [|..|done].
  - cbv zeta. rewrite Ha, Hu. cbn [fmap option_fmap option_map].
    pose proof (keeps_HandleQuery I _ query (HI _ _ (session_read_only u (r_defaultDB r) _ Hro) (Hrun _ _ _ Hr Hst)) _ (ra_world _ _ Hs)) as Hk.
    destruct (HandleQuery fuel _ query (sv_world s)) as [[resp|e| |] w]; cbn in Hk;
      (assert (reads_as u (set_world w s)) as Hs' by (destruct Hs; by split)); try (by destruct Hs'); auto with reading;
      unfold answer; destruct (Response_Marshal _); auto with reading.
  - pose proof (conn_write_user (length_bytes data) s) as Hc. destruct (conn_write (length_bytes data) s) as [[] c]; cbn in Hc; auto with reading.
  - apply reads_as_finish, reads_as_set; [done|]. apply conn_write_user.
Qed.
Lemma step_reads_as u s a e : sv_auth s = Some a → may_only_read (ID u) (a_store a) → running s → reads_as u s → reads_as u (server_step fuel e s).
Proof.
  intros Ha Hro Hrun Hs. unfold server_step. destruct (sv_crashed s); [done|]. destruct e; [by apply loop_reads_as|by eapply routine_reads_as|..]; by destruct Hs.
Qed.
Lemma run_reads_as u es : ∀ s, reads_as u s →
  (∀ es1 es2, es = es1 ++ es2 → ∃ a, sv_auth (server_run fuel es1 s) = Some a ∧ may_only_read (ID u) (a_store a)) →
  (∀ es1 es2, es = es1 ++ es2 → running (server_run fuel es1 s)) → reads_as u (server_run fuel es s).
Proof.
  induction es as [|e es IH]; intros s Hs Hro Hrun; [done|].
  destruct (Hro [] (e :: es) eq_refl) as (a & Ha & Hm). pose proof (Hrun [] (e :: es) eq_refl) as Hq.
  apply IH; [by eapply step_reads_as|..]; intros es1 es2 ->; [by apply (Hro (e :: es1) es2)|by apply (Hrun (e :: es1) es2)].
Qed.
End reading.


(** ** The reader's buffer

    The handshake reads through the buffer, the loop past it. *)

Definition with_buffer (buf : list byte) (s : Server) : Server := set_conn (set_input (c_net (sv_conn s)) buf (sv_conn s)) s.
Definition buffered (buf : list byte) (c : Connection) : Connection := set_input (c_net c) buf c.

Section buffer.
Context `{Wire} `{Runtime} `{Crypto} `{AuthRuntime} (fuel : nat) (buf : list byte).

Lemma ReadFull_buffered n c : ReadFull n (buffered buf c) = ((ReadFull n c).1, buffered buf (ReadFull n c).2).
Proof. unfold ReadFull, buffered. cbn. by destruct (net_ReadFull n (c_net c) false). Qed.
Lemma Write_buffered data c : Write data (buffered buf c) = ((Write data c).1, buffered buf (Write data c).2).
Proof. unfold Write, buffered. cbn. by destruct (c_faults c) as [|[]]. Qed.
Lemma read_query_buffered c : read_query (buffered buf c) = ((read_query c).1, buffered buf (read_query c).2).
Proof.
  unfold read_query, mbind, M_mbind, M_bind. rewrite ReadFull_buffered. destruct (ReadFull 4 c) as [[bs|e| |] c1]; cbn; try done.
  case_bool_decide; [done|]. apply ReadFull_buffered.
Qed.
Lemma conn_write_buffered data s : conn_write data (with_buffer buf s) = ((conn_write data s).1, buffered buf (conn_write data s).2).
Proof. unfold conn_write. cbn. destruct (sv_loop s); try apply Write_buffered. done. Qed.
Lemma dispatch_buffered query s : dispatch query (with_buffer buf s) = with_buffer buf (dispatch query s).
Proof. unfold dispatch. cbv zeta. repeat case_bool_decide; try done. cbn. by destruct (sv_queries s !! q_Token query). Qed.

Lemma loop_step_buffered s : loop_step (with_buffer buf s) = with_buffer buf (loop_step s).
Proof.
  unfold loop_step. cbn [with_buffer set_conn sv_loop sv_conn]. destruct (sv_loop s) as [|data|data|]; [| | |done].
  - unfold loop_read. cbn [with_buffer set_conn sv_quit sv_conn]. destruct (sv_quit s); [done|].
    change (set_input (c_net (sv_conn s)) buf (sv_conn s)) with (buffered buf (sv_conn s)). rewrite read_query_buffered.
    destruct (read_query (sv_conn s)) as [[data|e| |] c]; cbn; try done. destruct (ParseQuery data); try done.
    apply (dispatch_buffered a (set_conn c s)).
  - change (set_input (c_net (sv_conn s)) buf (sv_conn s)) with (buffered buf (sv_conn s)). rewrite Write_buffered.
    by destruct (Write (length_bytes data) (sv_conn s)) as [[] c].
  - change (set_input (c_net (sv_conn s)) buf (sv_conn s)) with (buffered buf (sv_conn s)). by rewrite Write_buffered.
Qed.
Lemma routine_step_buffered id s : routine_step fuel id (with_buffer buf s) = with_buffer buf (routine_step fuel id s).
Proof.
  unfold routine_step. cbn [with_buffer set_conn sv_routines]. destruct (sv_routines s !! id) as [r|]; [|done].
  destruct (r_stage r) as [query|data|data|]; [| | |done].
  - cbv zeta. cbn [with_buffer set_conn sv_auth sv_world]. destruct (HandleQuery _ _ _ _) as [[resp|e| |] w]; try done;
      unfold answer; by destruct (Response_Marshal _).
  - rewrite conn_write_buffered. by destruct (conn_write (length_bytes data) s) as [[] c].
  - by rewrite conn_write_buffered.
Qed.
End buffer.

(** What is left in the reader's buffer after the handshake is never looked at:
    no step of the loop or of a goroutine depends on it or changes it, so that a query
    the client sends in one piece with its last message of the handshake is lost. *)
Theorem buffered_input_is_never_read `{Wire} `{Runtime} `{Crypto} `{AuthRuntime} fuel es s buf :
  server_run fuel es (with_buffer buf s) = with_buffer buf (server_run fuel es s).
Proof.
  revert s. induction es as [|e es IH]; intros s; [done|]. rewrite !server_run_cons, <- IH.
  f_equal. unfold server_step. cbn [with_buffer set_conn sv_crashed]. destruct (sv_crashed s); [done|].
  destruct e; [apply loop_step_buffered|apply routine_step_buffered|done..].
Qed.

(** Two goroutines that write at the same time mix their answers. *)
Lemma answers_interleave `{Wire} `{Runtime} `{Crypto} `{AuthRuntime} fuel s d0 d1 t u db :
  sv_crashed s = false → sv_loop s = LoopRead → c_faults (sv_conn s) = [] →
  sv_routines s = {[0 := mkRoutine t u db (WriteLength d0); 1 := mkRoutine t u db (WriteLength d1)]} →
  c_out (sv_conn (server_run fuel [ERoutine 0; ERoutine 1; ERoutine 0; ERoutine 1] s)) =
    c_out (sv_conn s) ++ length_bytes d0 ++ length_bytes d1 ++ d0 ++ d1.
Proof.
  intros Hc Hl Hf Hr. rewrite server_run_cons.
  erewrite routine_length_step; [|done|done|done|by rewrite Hr|done]. rewrite server_run_cons.
  erewrite routine_length_step; [|done|done|done|cbn; by rewrite Hr|done]. rewrite server_run_cons.
  erewrite routine_data_step; [|done|done|done|cbn; by rewrite Hr|done]. rewrite server_run_cons.
  erewrite routine_data_step; [|done|done|done|cbn; by rewrite Hr|done]. cbn. by rewrite <- !app_assoc.
Qed.

Section same_auth.
Context `{Wire} `{Runtime} `{Crypto} `{AuthRuntime} (fuel : nat).

(** Only operations on the store of users change it. *)
Lemma step_same_auth e s : (∀ op, e ≠ EAuth op) → sv_auth (server_step fuel e s) = sv_auth s.
Proof.
  intros He. unfold server_step. destruct (sv_crashed s); [done|]. destruct e as [|id|op|]; [| |by destruct (He op)|done].
  - unfold loop_step. destruct (sv_loop s); try done; [|by destruct (Write _ _) as [[] ?]].
    unfold loop_read. destruct (sv_quit s); [done|]. destruct (read_query _) as [[data|e| |] c]; try done.
    destruct (ParseQuery data) as [query|e| |]; try done. unfold dispatch. cbv zeta. repeat case_bool_decide; try done. cbn. by destruct (sv_queries s !! _).
  - unfold routine_step. destruct (sv_routines s !! id) as [r|]; [|done]. destruct (r_stage r); try done.
    + cbv zeta. destruct (HandleQuery _ _ _ _) as [[resp|e| |] w]; try done; unfold answer; by destruct (Response_Marshal _).
    + by destruct (conn_write _ _) as [[] c].
Qed.
Lemma run_same_auth es s : Forall (λ e, ∀ op, e ≠ EAuth op) es → sv_auth (server_run fuel es s) = sv_auth s.
Proof.
  revert s. induction es as [|e es IH]; intros s Hes; [done|]. apply Forall_cons in Hes as [He Hes].
  rewrite server_run_cons, IH by done. by apply step_same_auth.
Qed.
Lemma turns_no_auth texts next : Forall (λ e, ∀ op, e ≠ EAuth op) (turns texts next).
Proof.
  revert next. induction texts as [|text texts IH]; intros next; cbn [turns]; [constructor|].
  destruct (is_start text); repeat (constructor; [discriminate|]); apply IH.
Qed.
End same_auth.

(** ** An example

    Datums and queries as JSON texts, read by the parser of the query language. *)

Definition quoted (s : string) : string := let q := String (ascii_of_nat 34) "" in q +:+ s +:+ q.
Definition comma_sep (l : list string) : string :=
  match l with [] => "" | x :: l' => foldl (λ acc y, acc +:+ "," +:+ y) x l' end.
Fixpoint reply_text (r : Reply) : string :=
  match r with
  | RNil => "null"
  | RBool b => if b then "true" else "false"
  | RInt z => pretty z
  | RFloat f => pretty (int_of_float f)
  | RStr s => quoted s
  | RBytes bs => quoted (base64 bs)
  | RTime t => quoted (pretty (t_ns t))
  | RGeometry g => quoted (geomType g)
  | RArr l => "[" +:+ comma_sep (reply_text <$> l) +:+ "]"
  | RMap kvs => "{" +:+ comma_sep ((λ kv, quoted kv.1 +:+ ":" +:+ reply_text kv.2) <$> kvs) +:+ "}"
  end.
Fixpoint val_doc (v : GoVal) : JSON :=
  match v with
  | VBool b => JBool b
  | VFloat64 f => JNum f
  | VString s => JStr s
  | VSlice l => JArr (val_doc <$> l)
  | VMap kvs => JObj ((λ kv, (kv.1, val_doc kv.2)) <$> kvs)
  | _ => JNull
  end.
Definition int_field (kvs : list (string * GoVal)) (key : string) : Z :=
  match vmap_get key kvs with Some (VFloat64 f) => int_of_float f | _ => 0 end.
#[local] Instance example_wire : Wire := {
  marshal r := Ok (bytes_of_string (reply_text r));
  unmarshal_object m :=
    v ← ParseReQL (String.string_of_list_byte m);
    match v with
    | VMap kvs => Ok (list_to_map (reverse ((λ kv, (kv.1, val_doc kv.2)) <$> kvs)))
    | _ => Err "not an object"
    end;
  unmarshal_query m :=
    v ← ParseReQL (String.string_of_list_byte m);
    match v with
    | VMap kvs => Ok (mkQuery (int_field kvs "token") (int_field kvs "type") (default VNil (vmap_get "query" kvs)))
    | _ => Err "not an object"
    end;
}.
#[local] Instance example_wire_laws : WireLaws.
Proof. split. intros r _. by eexists. Qed.
#[local] Existing Instances Scram.example_crypto Scram.example_crypto_laws Auth.example_runtime.

Definition ann : User := default (mkUser "" "" "" "" 0 0 "" 0 "" "") (GetUserByUsername "ann" (a_store example_ann)).
(** Ann may read and write in the database [test]. *)
Definition example_auth_state : AuthState := (auth_exec (AGrant (ID ann) "test" true true false false) example_ann).2.
Definition example_store : Store := a_store example_auth_state.
Lemma ann_password : has_password ann "pw".
Proof. split_and!; vm_compute; done. Qed.
Definition example_scram : SCRAMServer :=
  match NewSCRAMServer (Some ann) (client_bare "ann" "xyz") "xyz" 7 with (Ok s, _) => s | _ => mkScram ann "" "" "" [] [] end.
Definition object_text (kvs : list (string * string)) : list byte :=
  bytes_of_string (reply_text (RMap ((λ kv, (kv.1, RStr kv.2)) <$> kvs))).
Definition datum1 : list byte :=
  bytes_of_string (reply_text (RMap [("protocol_version", RInt 0); ("authentication_method", RStr "SCRAM-SHA-256");
    ("authentication", RStr (client_first "ann" "xyz"))])).
Definition datum2 : list byte :=
  object_text [("authentication", client_final "pw" (Salt ann) (Iterations ann) (client_bare "ann" "xyz") (ServerFirst example_scram) (combinedNonce example_scram))].
Definition doc_of (m : list byte) : gmap string JSON := match unmarshal_object m with Ok o => o | _ => ∅ end.

(** The client's bytes, cut in places of no meaning, and one query after them. *)
Definition insert_text : list byte :=
  bytes_of_string (reply_text (RMap [("token", RInt 1); ("type", RInt 1);
    ("query", RArr [RInt 17; RArr [RInt 10; RStr "users"]; RMap [("id", RStr "u1"); ("age", RInt 30)]])])).
Definition count_text : list byte :=
  bytes_of_string (reply_text (RMap [("token", RInt 2); ("type", RInt 1); ("query", RArr [RInt 86; RArr [RInt 10; RStr "users"]])])).
Definition stop_text : list byte := bytes_of_string (reply_text (RMap [("token", RInt 2); ("type", RInt 3)])).
Definition example_queries : list (list byte) := [insert_text; count_text; stop_text].
Definition example_groups : list (list (list byte)) :=
  [[take 3 (le_bytes 4 Version1_0); drop 3 (le_bytes 4 Version1_0)]; [take 10 datum1; drop 10 datum1 ++ [Byte.x00]]; [datum2 ++ [Byte.x00]]].
Definition example_segments : list (list byte) := concat example_groups.
Definition example_frames : list (list byte) := [take 2 (concat (frame <$> example_queries)); drop 2 (concat (frame <$> example_queries))].
Definition example_handshake : Handshake := (handshake (Some example_store) (mkHS (NewConnection (example_segments ++ example_frames) []) 7)).2.

Lemma example_handshake_ok :
  handshake (Some example_store) (mkHS (NewConnection (example_segments ++ example_frames) []) 7) = (Ok (), example_handshake).
Proof. vm_compute. reflexivity. Qed.
Lemma handshake_authenticates_witness : ∃ st u name nonce scram final,
  Some example_store = Some st ∧ GetUserByUsername name st = Some u ∧ c_user (hs_conn example_handshake) = Some u ∧
  attribute "r=" (Split ","%char final) "" = combinedNonce scram ∧
  (∃ r, combinedNonce scram = nonce +:+ base64 r ∧ length r = scramNonceLen) ∧
  ∃ key pre rest, final = pre +:+ ",p=" +:+ rest ∧
    Sum256 key = Sum256 (client_key (salted_password "pw" (Salt u) (Iterations u))) ∧
    base64_decode (attribute "p=" (Split ","%char final) "") = Some (xor_bytes key (hmacSHA256 (Sum256 key) (auth_message scram pre))).
Proof.
  destruct (handshake_authenticates (Some example_store) (example_segments ++ example_frames) [] 7 example_handshake example_handshake_ok)
    as (st & u & name & nonce & bare & scram & final & m1 & o1 & m2 & o2 & Hst & Hu & Hc & _ & _ & _ & _ & _ & _ & _ & Hkey).
  assert (u = ann) as Hann by (assert (c_user (hs_conn example_handshake) = Some ann) as Hc' by (vm_compute; reflexivity); congruence).
  assert (has_password u "pw") as Hpw by (rewrite Hann; exact ann_password).
  exists st, u, name, nonce, scram, final. exact (conj Hst (conj Hu (conj Hc (Hkey "pw" Hpw)))).
Defined.

Lemma example_datum_text m : Byte.x00 ∉ m → length m ≤ max_datum → unmarshal_object m = Ok (doc_of m) → datum_text m (doc_of m).
Proof. intros Hz Hl Hm. exact (conj Hz (conj Hl Hm)). Qed.
Lemma ann_credentials : credentials example_store ann "pw" "ann" "xyz" datum1 (doc_of datum1).
Proof.
  split.
  - vm_compute. reflexivity.
  - exact ann_password.
  - by split.
  - by split.
  - apply example_datum_text; [refine (bool_decide_unpack _ _); vm_compute; exact I..|vm_compute; reflexivity].
  - split_and!; vm_compute; reflexivity.
Qed.
Lemma honest_client_connects_witness :
  ∃ h', handshake (Some example_store) (mkHS (NewConnection (example_segments ++ example_frames) []) 7) = (Ok (), h') ∧
    up_to (hs_conn h') [] example_frames ∧ c_user (hs_conn h') = Some ann.
Proof.
  destruct (honest_client_connects example_store ann "pw" "ann" "xyz" 7 datum1 (doc_of datum1)) as (scram & Hnew & Hrun).
  - exact ann_credentials.
  - assert (scram = example_scram) as ->.
    { unfold example_scram. by rewrite Hnew. }
    destruct (Hrun datum2 (doc_of datum2) (example_groups !!! 0) (example_groups !!! 1) (example_groups !!! 2) example_frames)
      as (h' & t1 & t2 & t3 & Hh & Hup & Hu & _).
    + apply example_datum_text; [refine (bool_decide_unpack _ _); vm_compute; exact I..|vm_compute; reflexivity].
    + vm_compute. reflexivity.
    + vm_compute. reflexivity.
    + vm_compute. reflexivity.
    + vm_compute. reflexivity.
    + exists h'. split; [|exact (conj Hup Hu)].
      assert ((example_groups !!! 0) ++ (example_groups !!! 1) ++ (example_groups !!! 2) ++ example_frames = example_segments ++ example_frames) as Heq
        by (vm_compute; reflexivity).
      rewrite Heq in Hh. exact Hh.
Defined.

Definition example_server : Server := new_server (Some example_auth_state) NewEvaluator LoopRead (hs_conn example_handshake).
Definition example_served : list (list byte) * option silence * World :=
  serve 10 (session_of example_server) example_queries (sv_world example_server).
Lemma example_frames_ready : concat (c_net (sv_conn example_server)) = concat (frame <$> example_queries).
Proof. vm_compute. reflexivity. Qed.
Lemma queries_are_answered_witness :
  example_served.1.2 = None ∧
  let '(datas, e, w') := example_served in
  let s' := server_run 10 (serve_turns 10 (session_of example_server) example_queries (sv_next example_server) (sv_world example_server)) example_server in
  sv_world s' = w' ∧
  (∃ out, c_out (sv_conn s') = c_out (sv_conn example_server) ++ out ∧
    (Forall (λ d, Z.of_nat (length d) < 2 ^ 32)%Z datas → read_frames (S (length datas)) out = Some datas)) ∧
  match e with
  | None => length datas = length example_queries ∧ waiting s'
  | Some NoText => waiting s'
  | Some Crash => sv_crashed s' = true
  | Some TooDeep => ∃ id r, sv_routines s' !! id = Some r ∧ r_stage r = Stuck
  end.
Proof.
  split; [vm_compute; reflexivity|]. unfold example_served.
  apply (queries_are_answered 10 example_server example_queries); [split; vm_compute; reflexivity|exact example_frames_ready|].
  refine (bool_decide_unpack _ _). vm_compute. exact I.
Defined.

(** Ann with the permission to read, and a table with a document. *)
Definition reader_auth : AuthState := (auth_exec (AGrant (ID ann) "test" true false false false) example_ann).2.
Lemma reader_auth_reads : may_only_read (ID ann) (a_store reader_auth).
Proof.
  intros db read write create drop Hw. unfold HasDatabaseAccess.
  assert (users (a_store reader_auth) !! ID ann = Some ann) as -> by (vm_compute; reflexivity).
  assert (IsAdmin ann = false) as -> by (vm_compute; reflexivity).
  assert (permissions (a_store reader_auth) = {[PermissionKey (ID ann) "test" :=
    default (mkPerm "" "" "" true false false false 0 0) (permissions (a_store reader_auth) !! PermissionKey (ID ann) "test")]}) as ->
    by (vm_compute; reflexivity).
  set (p := default _ _). assert (CanWrite p = false ∧ CanCreate p = false ∧ CanDrop p = false) as (H1 & H2 & H3) by (vm_compute; done).
  destruct (decide (PermissionKey (ID ann) "test" = PermissionKey (ID ann) db)) as [<-|Hne].
  - rewrite lookup_singleton_eq. unfold HasAccess. rewrite H1, H2, H3. destruct (read && _); [done|]. by destruct write, create, drop.
  - by rewrite lookup_singleton_ne.
Qed.
Definition reader_server : Server := new_server (Some reader_auth) two_users LoopRead (hs_conn example_handshake).
Definition reader_events : list event := turns example_queries 0.
(** Whether a server is about to evaluate a query with UPDATE. *)
Definition no_update_running (s : Server) : bool :=
  forallb (λ kv, match r_stage kv.2 with Running query => negb (has_update (q_Query query)) | _ => true end) (map_to_list (sv_routines s)).
Lemma no_update_running_ok s : no_update_running s = true → running (λ q, has_update q = false) s.
Proof.
  intros Hb id r query Hr Hst. unfold no_update_running in Hb. rewrite forallb_forall in Hb.
  specialize (Hb (id, r)). cbn in Hb. rewrite Hst in Hb. apply negb_true_iff, Hb, list_elem_of_In. by apply elem_of_map_to_list.
Qed.
Lemma reader_runs_no_update es1 es2 : reader_events = es1 ++ es2 → running (λ q, has_update q = false) (server_run 10 es1 reader_server).
Proof.
  intros He. apply no_update_running_ok. assert (es1 = take (length es1) reader_events) as -> by (by rewrite He, take_app_length).
  assert (length es1 ≤ length reader_events) as Hlen by (rewrite He, length_app; lia). generalize dependent (length es1). intros n Hlen.
  assert (forallb (λ n, no_update_running (server_run 10 (take n reader_events) reader_server)) (seq 0 (S (length reader_events))) = true) as Hall
    by (vm_compute; reflexivity).
  rewrite forallb_forall in Hall. apply Hall, in_seq. lia.
Qed.
