(* ===== verification/Listening.v ===== *)
(** * Accepting connections (internal/protocol/server.go)

    The life of the protocol server around its connections: listening, the goroutine
    that accepts, one goroutine for each connection, the two counters, the group that
    [Stop] waits for.  What a connection does is in [Protocol]; here it begins and ends.
    The listener of package net is its answers: an accepted connection or an error. *)

From S2P Require Import Prelude.

(** [lv_listener]: none before the first [Start], then whether it is open. [lv_loops]: the
    accepting goroutines.  [lv_conns]: the connections that are being handled. *)
Record Live := mkLive {
  lv_addr : string; lv_listener : option bool; lv_quit : bool; lv_loops : nat; lv_conns : gset nat; lv_next : nat;
  lv_wg : Z; lv_connCount : Z; lv_queryCount : Z;
}.
Definition NewServer (addr : string) : Live := mkLive addr None false 0 ∅ 0 0 0 0.

Definition Start (listen : option string) : M Live unit :=
  s ← get_state;
  match listen with
  | Some e => fail ("failed to listen on " +:+ lv_addr s +:+ ": " +:+ e)
  | None =>
      put_state (mkLive (lv_addr s) (Some true) (lv_quit s) (S (lv_loops s)) (lv_conns s) (lv_next s) (lv_wg s + 1) (lv_connCount s) (lv_queryCount s))
  end.
(** [Stop] until it waits: whether it waits, as it does unless closing the listener
    fails.  A second call closes a closed channel. *)
Definition Stop_begin (close : option string) : M Live unit :=
  s ← get_state;
  if lv_quit s then panic
  else
    put_state (mkLive (lv_addr s) (lv_listener s) true (lv_loops s) (lv_conns s) (lv_next s) (lv_wg s) (lv_connCount s) (lv_queryCount s));;
    match lv_listener s with
    | None => mret ()
    | Some _ =>
        match close with
        | Some e => fail e
        | None => modify (λ s, mkLive (lv_addr s) (Some false) (lv_quit s) (lv_loops s) (lv_conns s) (lv_next s) (lv_wg s) (lv_connCount s) (lv_queryCount s))
        end
    end.
(** [s.wg.Wait()] *)
Definition Stop_returns (s : Live) : bool := bool_decide (lv_wg s = 0%Z).

(** One turn of [acceptLoop]; [ok] is whether [Accept] has a connection. *)
Definition acceptLoop (ok : bool) (s : Live) : Live :=
  match lv_loops s with
  | 0 => s
  | S loops =>
      if ok && bool_decide (lv_listener s = Some true) then
        mkLive (lv_addr s) (lv_listener s) (lv_quit s) (lv_loops s) ({[lv_next s]} ∪ lv_conns s) (S (lv_next s))
          (lv_wg s + 1) (lv_connCount s + 1) (lv_queryCount s)
      else if lv_quit s then
        mkLive (lv_addr s) (lv_listener s) (lv_quit s) loops (lv_conns s) (lv_next s) (lv_wg s - 1) (lv_connCount s) (lv_queryCount s)
      else s
  end.
(** [handleConnection] has returned. *)
Definition connection_ends (c : nat) (s : Live) : Live :=
  if bool_decide (c ∈ lv_conns s) then
    mkLive (lv_addr s) (lv_listener s) (lv_quit s) (lv_loops s) (lv_conns s ∖ {[c]}) (lv_next s)
      (lv_wg s - 1) (lv_connCount s - 1) (lv_queryCount s)
  else s.

Definition ConnectionCount (s : Live) : Z := lv_connCount s.
Definition QueryCount (s : Live) : Z := lv_queryCount s.
(** Nothing calls it. *)
Definition IncrementQueryCount (s : Live) : Live :=
  mkLive (lv_addr s) (lv_listener s) (lv_quit s) (lv_loops s) (lv_conns s) (lv_next s) (lv_wg s) (lv_connCount s) (lv_queryCount s + 1).

Inductive live_op := LStart (listen : option string) | LStop (close : option string) | LAccept (ok : bool) | LEnd (c : nat).
Definition live_step (op : live_op) (s : Live) : Live :=
  match op with
  | LStart listen => (Start listen s).2
  | LStop close => (Stop_begin close s).2
  | LAccept ok => acceptLoop ok s
  | LEnd c => connection_ends c s
  end.
Definition live_run (ops : list live_op) (s : Live) : Live := foldl (λ s op, live_step op s) s ops.

(** ** The counters *)

Record live_ok (s : Live) : Prop := {
  lo_count : lv_connCount s = Z.of_nat (size (lv_conns s));
  lo_wg : lv_wg s = Z.of_nat (lv_loops s + size (lv_conns s));
  lo_fresh c : c ∈ lv_conns s → c < lv_next s;
}.
Lemma live_step_ok op s : live_ok s → live_ok (live_step op s).
Proof.
  intros [Hc Hw Hf]. destruct op as [listen|close|ok|c]; cbn [live_step].
  - unfold Start. mrun. destruct listen; [by split|]. split; cbn; [done|lia|done].
  - unfold Stop_begin. mrun. destruct (lv_quit s), (lv_listener s), close; cbn; by split.
  - unfold acceptLoop. destruct (lv_loops s) as [|n] eqn:Hn; [by split; rewrite ?Hn|]. destruct (_ && _); [|destruct (lv_quit s); [|by split; rewrite ?Hn]].
    + assert (size ({[lv_next s]} ∪ lv_conns s) = S (size (lv_conns s))) as Hsize.
      { rewrite size_union, size_singleton; [done|]. intros x ->%elem_of_singleton Hin%Hf. lia. }
      split; cbn; rewrite ?Hsize; [lia|lia|]. intros c [->%elem_of_singleton|Hin%Hf]%elem_of_union; lia.
    + split; cbn; [done|lia|done].
  - unfold connection_ends. case_bool_decide as Hin; [|by split].
    assert (size (lv_conns s ∖ {[c]}) + 1 = size (lv_conns s)) as Hsize.
    { assert ({[c]} ## lv_conns s ∖ {[c]}) as Hdis by set_solver. pose proof (size_union {[c]} (lv_conns s ∖ {[c]}) Hdis) as Hu.
      rewrite <- union_difference_L in Hu by set_solver. rewrite size_singleton in Hu. lia. }
    split; cbn; [lia|lia|]. intros x [Hx _]%elem_of_difference. by apply Hf.
Qed.
Lemma live_run_ok ops s : live_ok s → live_ok (live_run ops s).
Proof. revert s. induction ops as [|op ops IH]; intros s Hs; [done|]. by apply IH, live_step_ok. Qed.

Lemma conn_stays op c s : op ≠ LEnd c → c ∈ lv_conns s → c ∈ lv_conns (live_step op s).
Proof.
  intros Hop Hc. destruct op as [listen|close|ok|c']; cbn [live_step].
  - unfold Start. mrun. by destruct listen.
  - unfold Stop_begin. mrun. by destruct (lv_quit s), (lv_listener s), close.
  - unfold acceptLoop. destruct (lv_loops s); [done|]. destruct (_ && _); [|by destruct (lv_quit s)]. cbn. by apply elem_of_union_r.
  - unfold connection_ends. case_bool_decide; [|done]. cbn. apply elem_of_difference. split; [done|]. apply not_elem_of_singleton. by intros ->.
Qed.

Lemma Stop_returns_iff s : live_ok s → Stop_returns s = true ↔ lv_loops s = 0 ∧ lv_conns s = ∅.
Proof.
  intros [_ Hw _]. unfold Stop_returns. rewrite bool_decide_eq_true, Hw, <- (leibniz_equiv_iff (lv_conns s)), <- size_empty_iff. lia.
Qed.
Lemma conn_stays_run c more : ∀ s, LEnd c ∉ more → c ∈ lv_conns s → c ∈ lv_conns (live_run more s).
Proof.
  induction more as [|op more IH]; intros s Hmore Hc; [done|]. apply not_elem_of_cons in Hmore as [Hop Hmore].
  apply IH; [done|]. by apply conn_stays.
Qed.
Lemma Stop_blocked c more s : live_ok s → c ∈ lv_conns s → LEnd c ∉ more → Stop_returns (live_run more s) = false.
Proof.
  intros Hs Hc Hmore. pose proof (conn_stays_run c more s Hmore Hc) as Hin.
  apply not_true_iff_false. intros [_ Hnil]%Stop_returns_iff; [set_solver|]. by apply live_run_ok.
Qed.

(** The counter of connections is their number, and [Stop] returns exactly when no
    goroutine is left.  So as long as a client stays connected, whatever else
    happens, [Stop] does not return: it closes the listener and no connection. *)
Theorem stop_waits_for_clients addr ops :
  let s := live_run ops (NewServer addr) in
  ConnectionCount s = Z.of_nat (size (lv_conns s)) ∧
  (Stop_returns s = true ↔ lv_loops s = 0 ∧ lv_conns s = ∅) ∧
  ∀ c more, c ∈ lv_conns s → LEnd c ∉ more → Stop_returns (live_run more s) = false.
Proof.
  intros s. assert (live_ok s) as Hs by (apply live_run_ok; by split).
  split; [apply Hs|]. split; [by apply Stop_returns_iff|]. intros c more. by apply Stop_blocked.
Qed.
(** An idle client keeps the server from stopping. *)
Example idle_client_blocks_stop :
  Stop_returns (live_run [LStart None; LAccept true; LStop None; LAccept false] (NewServer ":28015")) = false ∧
  Stop_returns (live_run [LStart None; LAccept true; LStop None; LAccept false; LEnd 0] (NewServer ":28015")) = true.
Proof. vm_compute. by split. Qed.
