(* ===== verification/Driver.v ===== *)
(** * The Go driver ([drivers/go]: types.go, query.go, connection.go, cursor.go)

    Queries are terms that the methods of the builders put together; a connection
    sends a term as a frame of JSON and reads the answer; a cursor walks over an answer.
    A connection is the [Connection] of [Protocol] seen from the other end: the bytes the
    server sends arrive in segments, and a write may fail.  Deadlines are not modelled,
    and each method holds the lock of its connection from its start to its end.

    A value that a caller puts into a query is what [encoding/json] writes for it, a
    [Reply] of [Protocol].  A slice of strings or a map may be nil: [None]. *)

From S2P Require Import Prelude Bytes Order Datum Parser Index Admin Evaluator Sessions GoStrings Scram Auth Protocol.
From Stdlib Require Import Ascii.

(** ** types.go *)

Definition ResponseTypeSuccessAtom : Z := 1.
Definition ResponseTypeSuccessSequence : Z := 2.
Definition ResponseTypeSuccessPartial : Z := 3.
Definition ResponseTypeWaitComplete : Z := 4.
Definition ResponseTypeClientError : Z := 16.
Definition ResponseTypeCompileError : Z := 17.
Definition ResponseTypeRuntimeError : Z := 18.

(** [Data] is the text of the member [r], [None] when there is none. *)
Record Response := mkAnswer {
  Type_ : Z; Token : Z; Data : option (list byte); Notes : list string; Profile : option JSON; Error_ : string;
}.
Definition set_Token (token : Z) (r : Response) : Response := mkAnswer (Type_ r) token (Data r) (Notes r) (Profile r) (Error_ r).

Definition TermDatum : Z := 1.
Definition TermHasFields : Z := 33.
Definition TermWithout : Z := 34.
Definition TermMerge : Z := 36.
Definition TermFilter : Z := 39.
Definition TermMap : Z := 40.
Definition TermOrderBy : Z := 41.
Definition TermLimit : Z := 42.
Definition TermSkip : Z := 43.
Definition TermInnerJoin : Z := 48.
Definition TermOuterJoin : Z := 49.
Definition TermTable : Z := 10.
Definition TermInsert : Z := 17.
Definition TermUpdate : Z := 18.
Definition TermDelete : Z := 19.
Definition TermReplace : Z := 20.
Definition TermCount : Z := 86.
Definition TermSum : Z := 87.
Definition TermAvg : Z := 88.
Definition TermMin : Z := 89.
Definition TermMax : Z := 90.
Definition TermGroup : Z := 91.
Definition TermUngroup : Z := 92.
Definition TermReduce : Z := 93.
Definition TermGet : Z := 70.
Definition TermGetAll : Z := 78.
Definition TermIndexCreate : Z := 75.
Definition TermIndexDrop : Z := 76.
Definition TermIndexList : Z := 77.
Definition TermDB : Z := 14.
Definition TermDBCreate : Z := 57.
Definition TermDBDrop : Z := 58.
Definition TermDBList : Z := 59.
Definition TermTableCreate : Z := 60.
Definition TermTableDrop : Z := 61.
Definition TermTableList : Z := 62.
Definition TermChanges : Z := 152.
Definition TermBetween : Z := 172.

(** ** query.go: the builders *)

(** A pointer to a connection. *)
Abbreviation conn_ptr := nat (only parsing).
Record Query := NewQuery { term : Reply; bound : option conn_ptr }.
Definition ToTerm (q : Query) : Reply := term q.

(** [[]interface{}{t, …}] *)
Definition new_term (t : Z) (args : list Reply) : Reply := RArr (RInt t :: args).
Definition strings (fields : option (list string)) : Reply :=
  match fields with Some l => RArr (RStr <$> l) | None => RNil end.
Definition go_map (m : option (list (string * Reply))) : Reply :=
  match m with Some kvs => RMap kvs | None => RNil end.
(** The query that applies a term to [q] and some arguments. *)
Definition on_query (t : Z) (q : Query) (args : list Reply) : Query := NewQuery (new_term t (term q :: args)) (bound q).

Definition Query_Filter (predicate : Reply) (q : Query) : Query := on_query TermFilter q [predicate].
Definition Query_Map (fn : Reply) (q : Query) : Query := on_query TermMap q [fn].
Definition Query_OrderBy (fields : option (list string)) (q : Query) : Query := on_query TermOrderBy q [strings fields].
Definition Query_Limit (n : Z) (q : Query) : Query := on_query TermLimit q [RInt n].
Definition Query_Skip (n : Z) (q : Query) : Query := on_query TermSkip q [RInt n].
Definition Query_Between (index : string) (lower upper : Reply) (q : Query) : Query := on_query TermBetween q [RStr index; lower; upper].
Definition Query_Pluck (fields : option (list string)) (q : Query) : Query := on_query TermHasFields q [strings fields].
Definition Query_Without (fields : option (list string)) (q : Query) : Query := on_query TermWithout q [strings fields].
Definition Query_Merge (other : option (list (string * Reply))) (q : Query) : Query := on_query TermMerge q [go_map other].
Definition Query_HasFields (fields : option (list string)) (q : Query) : Query := on_query TermHasFields q [strings fields].

Definition Query_Update (changes : option (list (string * Reply))) (q : Query) : Query := on_query TermUpdate q [go_map changes].
Definition Query_Delete (q : Query) : Query := on_query TermDelete q [].
Definition Query_Replace (doc : Reply) (q : Query) : Query := on_query TermReplace q [doc].

(** The first of the optional arguments. *)
Definition first_field (field : list string) : list Reply := match field with f :: _ => [RStr f] | [] => [] end.
Definition Query_Count (q : Query) : Query := on_query TermCount q [].
Definition Query_Sum (field : list string) (q : Query) : Query := on_query TermSum q (first_field field).
Definition Query_Avg (field : list string) (q : Query) : Query := on_query TermAvg q (first_field field).
Definition Query_Min (field : list string) (q : Query) : Query := on_query TermMin q (first_field field).
Definition Query_Max (field : list string) (q : Query) : Query := on_query TermMax q (first_field field).
Definition Query_Group (field : string) (q : Query) : Query := on_query TermGroup q [RStr field].
Definition Query_Ungroup (q : Query) : Query := on_query TermUngroup q [].
Definition Query_Reduce (fn : Reply) (q : Query) : Query := on_query TermReduce q [fn].

Definition Query_InnerJoin (other : Query) (predicate : Reply) (q : Query) : Query := on_query TermInnerJoin q [ToTerm other; predicate].
Definition Query_OuterJoin (other : Query) (predicate : Reply) (q : Query) : Query := on_query TermOuterJoin q [ToTerm other; predicate].
Definition Query_Changes (q : Query) : Query := on_query TermChanges q [].

(** A [TableQuery] has every method of the query it embeds. *)
Record TableQuery := mkTableQuery { tq_Query :> Query }.
Record DbQuery := mkDbQuery { db_term : Reply; db_conn : option conn_ptr }.

Definition DbQuery_Table (name : string) (d : DbQuery) : TableQuery :=
  mkTableQuery (NewQuery (new_term TermTable [db_term d; RStr name]) (db_conn d)).
Definition TableQuery_Get (id : string) (t : TableQuery) : Query := on_query TermGet t [RStr id].
Definition TableQuery_GetAll (keys : list Reply) (t : TableQuery) : Query := on_query TermGetAll t keys.
Definition TableQuery_Insert (doc : Reply) (t : TableQuery) : Query := on_query TermInsert t [doc].
Definition TableQuery_IndexCreate (name : string) (indexFn : list Reply) (t : TableQuery) : Query :=
  on_query TermIndexCreate t (RStr name :: match indexFn with f :: _ => [f] | [] => [] end).
Definition TableQuery_IndexDrop (name : string) (t : TableQuery) : Query := on_query TermIndexDrop t [RStr name].
Definition TableQuery_IndexList (t : TableQuery) : Query := on_query TermIndexList t [].

Definition DbQuery_TableCreate (name : string) (d : DbQuery) : Query := NewQuery (new_term TermTableCreate [RStr name; db_term d]) (db_conn d).
Definition DbQuery_TableDrop (name : string) (d : DbQuery) : Query := NewQuery (new_term TermTableDrop [RStr name; db_term d]) (db_conn d).
Definition DbQuery_TableList (d : DbQuery) : Query := NewQuery (new_term TermTableList [db_term d]) (db_conn d).

Record R := mkR { r_conn : option conn_ptr; r_db : string }.
Definition NewR : R := mkR None "".
Definition R_Use (db : string) (r : R) : R := mkR (r_conn r) db.
Definition R_DB (name : string) (r : R) : DbQuery := mkDbQuery (new_term TermDB [RStr name]) (r_conn r).
Definition R_Table (name : string) (r : R) : TableQuery := mkTableQuery (NewQuery (new_term TermTable [RStr name]) (r_conn r)).
Definition R_DBCreate (name : string) (r : R) : Query := NewQuery (new_term TermDBCreate [RStr name]) (r_conn r).
Definition R_DBDrop (name : string) (r : R) : Query := NewQuery (new_term TermDBDrop [RStr name]) (r_conn r).
Definition R_DBList (r : R) : Query := NewQuery (new_term TermDBList []) (r_conn r).
Definition R_Expr (value : Reply) (r : R) : Query := NewQuery (new_term TermDatum [value]) (r_conn r).

(** ** connection.go *)

Definition v1Magic : Z := 0x34c2bdc3.
Definition v04Magic : Z := 0x400c2d20.
Definition jsonProto : Z := 0x7e6970c7.

(** The timeout in nanoseconds. *)
Record ConnectOptions := mkOptions { Host : string; Port : Z; DB : string; User_ : string; Password_ : string; Timeout : Z }.
Definition or_text (s d : string) : string := if bool_decide (s = "") then d else s.
Definition or_int (z d : Z) : Z := if bool_decide (z = 0)%Z then d else z.
Definition ConnectOptions_defaults (o : ConnectOptions) : ConnectOptions :=
  mkOptions (or_text (Host o) "localhost") (or_int (Port o) 28015) (or_text (DB o) "test") (or_text (User_ o) "admin")
    (Password_ o) (or_int (Timeout o) (30 * 10 ^ 9)).

Record Conn := newConn { cn_net : Connection; cn_opts : ConnectOptions; cn_token : Z; cn_closed : bool }.
(** The connections of the program. *)
Abbreviation Conns := (gmap nat Conn) (only parsing).
Definition set_net (n : Connection) (c : Conn) : Conn := newConn n (cn_opts c) (cn_token c) (cn_closed c).
Definition set_token (t : Z) (c : Conn) : Conn := newConn (cn_net c) (cn_opts c) t (cn_closed c).
Definition on_net {A} (m : M Connection A) : M Conn A := zoom cn_net set_net m.

(** [c.conn.Read] of one byte, past the reader. *)
Definition read_byte : M Connection byte := λ c,
  match net_Read 1 (c_net c) with
  | Some (b :: _, net) => (Ok b, set_input net (c_buf c) c)
  | _ => (Err "EOF", set_input [] (c_buf c) c)
  end.
Fixpoint until_null (fuel : nat) (buf : list byte) : M Connection (list byte) :=
  match fuel with
  | O => nofuel
  | S fuel' =>
      b ← read_byte;
      if bool_decide (b = Byte.x00) then mret buf else until_null fuel' (buf ++ [b])
  end.
Definition readNullTerminated : M Connection (list byte) :=
  c ← get_state; until_null (input_fuel c) [].

(** [bufio.Reader.Read] into [n > 0] bytes: what is buffered; else one read of the
    connection, into the caller's slice when it is as large as the buffer. *)
Definition bufio_Read (n : nat) : M Connection (list byte) := λ c,
  match c_buf c with
  | [] =>
      if bool_decide (bufio_size ≤ n) then
        match net_Read n (c_net c) with
        | Some (bs, net) => (Ok bs, set_input net [] c)
        | None => (Err "EOF", set_input [] [] c)
        end
      else
        match net_Read bufio_size (c_net c) with
        | Some (bs, net) => (Ok (take n bs), set_input net (drop n bs) c)
        | None => (Err "EOF", set_input [] [] c)
        end
  | buf => (Ok (take n buf), set_input (c_net c) (drop n buf) c)
  end.
(** The loop of [readFull]: each read brings a byte at least. *)
Fixpoint read_loop (fuel n : nat) (buf : list byte) : M Connection (list byte) :=
  match fuel with
  | O => nofuel
  | S fuel' =>
      if bool_decide (n = 0) then mret buf
      else bs ← bufio_Read n; read_loop fuel' (n - length bs) (buf ++ bs)
  end.
Definition readFull (n : nat) : M Connection (list byte) := read_loop (S n) n [].

Definition handshake : M Conn unit :=
  on_net (Write (le_bytes 4 v04Magic));;
  on_net (Write (le_bytes 4 0));;
  on_net (Write (le_bytes 4 jsonProto));;
  resp ← on_net readNullTerminated;
  let resp := String.string_of_list_byte resp in
  if bool_decide (resp ≠ "SUCCESS") then fail ("handshake failed: " +:+ resp) else mret ().

(** [net.DialTimeout] is the parameter [dial]. *)
Definition Connect (dial : string → outcome Connection) (opts : ConnectOptions) : outcome Conn :=
  let opts := ConnectOptions_defaults opts in
  match dial (Host opts +:+ ":" +:+ pretty (Port opts)) with
  | Ok net =>
      match handshake (newConn net opts 0 false) with
      | (Ok _, c) => Ok c
      | (Err e, _) => Err ("handshake failed: " +:+ e)
      | (Panic, _) => Panic
      | (NoFuel, _) => NoFuel
      end
  | Err e => Err ("failed to connect: " +:+ e)
  | Panic => Panic
  | NoFuel => NoFuel
  end.

(** What the driver uses of [encoding/json] and [fmt] besides [Wire]: reading an
    answer, an array of texts, an array of values; [%v]; and the text that is read
    back for a text that was written (invalid UTF-8 is replaced). *)
Class DriverJson := {
  unmarshal_response : list byte → outcome Response;
  unmarshal_raws : list byte → outcome (list (list byte));
  unmarshal_values : list byte → outcome (list JSON);
  unmarshal_value : list byte → outcome JSON;
  format_value : JSON → string;
  utf8 : string → string;
}.

Definition query_object (token : Z) (t : Reply) : Reply :=
  RMap [("query", t); ("token", RInt token); ("type", RInt 1)].
Definition max_response : Z := 64 * 1024 * 1024.
Definition is_error (t : Z) : bool :=
  bool_decide (t = ResponseTypeRuntimeError) || bool_decide (t = ResponseTypeCompileError) || bool_decide (t = ResponseTypeClientError).

Section conn.
Context `{Wire} `{DriverJson}.

Definition data_text (r : Response) : string := String.string_of_list_byte (default [] (Data r)).
Definition error_message (r : Response) : string :=
  let errMsg :=
    match Notes r with
    | n :: _ => n
    | [] =>
        match Data r with
        | Some raw => match unmarshal_values raw with Ok (v :: _) => format_value v | _ => "" end
        | None => ""
        end
    end in
  if bool_decide (errMsg = "") then data_text r else errMsg.

(** [Query] after its write: the answer, with the error that the server reports. *)
Definition read_answer (token : Z) : M Conn (Response * option string) :=
  respHeader ← wrap_err "failed to read response header" (on_net (readFull 4));
  let respLen := le_value respHeader in
  if bool_decide (max_response < respLen)%Z then fail ("response too large: " +:+ pretty respLen +:+ " bytes")
  else
    body ← wrap_err "failed to read response body" (on_net (readFull (Z.to_nat respLen)));
    resp ← wrap_err "failed to parse response" (lift (unmarshal_response body));
    let resp := set_Token token resp in
    if is_error (Type_ resp) then mret (resp, Some ("query error: " +:+ error_message resp)) else mret (resp, None).
Definition Conn_Query (t : Reply) : M Conn (Response * option string) :=
  c ← get_state;
  if cn_closed c then fail "connection closed"
  else
    let token := uint64 (cn_token c + 1) in
    modify (set_token token);;
    queryJSON ← lift (marshal (query_object token t));
    on_net (Write (le_bytes 4 (uint32 (Z.of_nat (length queryJSON))) ++ queryJSON));;
    read_answer token.

(** [net.Conn.Close] fails the second time. *)
Definition Conn_Close : M Conn unit :=
  c ← get_state;
  put_state (newConn (cn_net c) (cn_opts c) (cn_token c) true);;
  if cn_closed c then fail "use of closed network connection" else mret ().
Definition IsOpen (c : Conn) : bool := negb (cn_closed c).
Definition Conn_DB (c : Conn) : string := DB (cn_opts c).

(** ** query.go: running a query *)

Definition unwrapResponse (data : option (list byte)) : option (list byte) :=
  match data with
  | Some ((b :: _) as bs) =>
      if bool_decide (b ≠ Byte.x5b) then data
      else match unmarshal_raws bs with Ok [x] => Some x | _ => data end
  | _ => data
  end.

Definition at_conn {A} (p : conn_ptr) (m : M Conn A) : M Conns A := λ cs,
  match cs !! p with
  | Some c => let '(r, c') := m c in (r, <[p := c']> cs)
  | None => (Panic, cs)
  end.
Definition run_on (t : Reply) : M Conn (option (list byte)) :=
  '(resp, err) ← Conn_Query t;
  match err with Some e => fail e | None => mret (unwrapResponse (Data resp)) end.
Definition Query_Run (conn : list (option conn_ptr)) (q : Query) : M Conns (option (list byte)) :=
  let c := match conn with Some p :: _ => Some p | _ => bound q end in
  match c with
  | None => fail "no connection provided"
  | Some p => at_conn p (run_on (term q))
  end.
Definition RunResult (conn : list (option conn_ptr)) (q : Query) : M Conns JSON :=
  data ← Query_Run conn q;
  lift (unmarshal_value (default [] data)).
Definition NewRWithConn (p : conn_ptr) (cs : Conns) : outcome R :=
  match cs !! p with Some c => Ok (mkR (Some p) (Conn_DB c)) | None => Panic end.

(** ** cursor.go *)

Record Cursor := mkCursor {
  cu_conn : conn_ptr; cu_token : Z; cu_data : list (list byte); cu_index : nat; cu_done : bool; cu_err : option string;
}.
Definition set_index (i : nat) (c : Cursor) : Cursor := mkCursor (cu_conn c) (cu_token c) (cu_data c) i (cu_done c) (cu_err c).
Definition set_err (e : string) (c : Cursor) : Cursor := mkCursor (cu_conn c) (cu_token c) (cu_data c) (cu_index c) (cu_done c) (Some e).

Definition raw_data (r : Response) : list byte := default [] (Data r).
Definition NewCursor (conn : conn_ptr) (resp : Response) : outcome Cursor :=
  let t := Type_ resp in
  let items := match unmarshal_raws (raw_data resp) with Ok l => l | _ => [raw_data resp] end in
  let make data := mkCursor conn (Token resp) data 0 (bool_decide (t ≠ ResponseTypeSuccessPartial)) None in
  if bool_decide (t = ResponseTypeSuccessAtom) then Ok (make [raw_data resp])
  else if bool_decide (t = ResponseTypeSuccessSequence) then Ok (make items)
  else if bool_decide (t = ResponseTypeSuccessPartial) then Ok (make items)
  else Err ("unexpected response type for cursor: " +:+ pretty t).

(** [dest] is nil, or what decoding into it makes of a text.  The item is there when
    the code answers [true]. *)
Definition Next (dest : option (list byte → outcome unit)) (c : Cursor) : option (list byte) * Cursor :=
  match cu_err c with
  | Some _ => (None, c)
  | None =>
      match cu_data c !! cu_index c with
      | None => (None, c)
      | Some item =>
          let c := set_index (S (cu_index c)) c in
          match dest with
          | None => (Some item, c)
          | Some decode => match decode item with Err e => (None, set_err e c) | _ => (Some item, c) end
          end
      end
  end.
Definition All (c : Cursor) : list (list byte) * Cursor :=
  (drop (cu_index c) (cu_data c), set_index (cu_index c `max` length (cu_data c)) c).
Definition One (dest : option (list byte → outcome unit)) (c : Cursor) : outcome (list byte) * Cursor :=
  match Next dest c with
  | (Some item, c') => (Ok item, c')
  | (None, c') => (match cu_err c' with Some e => Err e | None => Err "no more rows in cursor" end, c')
  end.
Definition Cursor_Close (c : Cursor) : Cursor := mkCursor (cu_conn c) (cu_token c) (cu_data c) (cu_index c) true (cu_err c).
Definition IsNil (c : Cursor) : bool := cu_done c && bool_decide (length (cu_data c) ≤ cu_index c).
End conn.

(** ** Reading from the network *)

Lemma net_Read_length n segs chunk segs' : net_Read n segs = Some (chunk, segs') → length chunk ≤ n.
Proof. induction segs as [|[|b seg] segs IH]; [done|exact IH|]. intros [= <- <-]. rewrite length_take. lia. Qed.
Lemma bufio_Read_ok n c bs post : 0 < n → bs ≠ [] → up_to c bs post →
  ∃ chunk rest c', bufio_Read n c = (Ok chunk, c') ∧ bs = chunk ++ rest ∧ 0 < length chunk ≤ n ∧ up_to c' rest post ∧ same_output c c'.
Proof.
  intros Hn Hne (pre & Hnet & Hbs). unfold bufio_Read. destruct (c_buf c) as [|b buf] eqn:Hb; cbn [app] in Hbs.
  - assert (concat pre ≠ []) as Hc by congruence.
    case_bool_decide as Hlarge.
    + destruct (net_Read_concat n pre post) as (chunk & pre' & Hr & Hch & Hcat); [done|done|]. rewrite Hnet, Hr.
      exists chunk, (concat pre'), (set_input (pre' ++ post) [] c). split; [done|]. split; [congruence|]. split.
      * pose proof (net_Read_length _ _ _ _ Hr). destruct chunk; [done|]. cbn in *. lia.
      * split; [|apply set_input_same]. by exists pre'.
    + destruct (net_Read_concat bufio_size pre post) as (chunk & pre' & Hr & Hch & Hcat); [unfold bufio_size; lia|done|]. rewrite Hnet, Hr.
      exists (take n chunk), (drop n chunk ++ concat pre'), (set_input (pre' ++ post) (drop n chunk) c). split; [done|].
      split; [by rewrite app_assoc, take_drop; congruence|]. split.
      * rewrite length_take. destruct chunk; [done|]. cbn. lia.
      * split; [|apply set_input_same]. by exists pre'.
  - exists (take n (b :: buf)), (drop n (b :: buf) ++ concat pre), (set_input (c_net c) (drop n (b :: buf)) c). split; [done|].
    split; [by rewrite app_assoc, take_drop|]. split; [rewrite length_take; cbn; lia|].
    split; [|apply set_input_same]. by exists pre.
Qed.
Lemma read_loop_ok fuel : ∀ n acc c bs rest post, length bs = n → n < fuel → up_to c (bs ++ rest) post →
  ∃ c', read_loop fuel n acc c = (Ok (acc ++ bs), c') ∧ up_to c' rest post ∧ same_output c c'.
Proof.
  induction fuel as [|fuel IH]; intros n acc c bs rest post Hl Hf Hu; [lia|]. cbn [read_loop]. case_bool_decide as Hn.
  - destruct bs; [|cbn in Hl; lia]. exists c. by rewrite app_nil_r.
  - destruct (bufio_Read_ok n c (bs ++ rest) post) as (chunk & more & c1 & Hr & Hsplit & Hch & Hu1 & Hs1); [lia|by destruct bs; [cbn in Hl; lia|]|done|].
    mstep Hr. assert (bs = chunk ++ drop (length chunk) bs) as Hbs.
    { rewrite <- (take_drop (length chunk) bs) at 1. f_equal. apply (f_equal (take (length chunk))) in Hsplit.
      by rewrite take_app_length, take_app_le in Hsplit by lia. }
    assert (more = drop (length chunk) bs ++ rest) as ->.
    { rewrite Hbs, <- app_assoc in Hsplit. by apply app_inv_head in Hsplit. }
    destruct (IH (n - length chunk) (acc ++ chunk) c1 (drop (length chunk) bs) rest post) as (c2 & Hr2 & Hu2 & Hs2); [rewrite length_drop; lia|lia|done|].
    exists c2. rewrite Hr2, <- app_assoc, <- Hbs. split; [done|]. split; [done|by transitivity c1].
Qed.
(** [readFull] takes the bytes it asks for, however the network cuts them. *)
Lemma readFull_ok c bs rest post : up_to c (bs ++ rest) post →
  ∃ c', readFull (length bs) c = (Ok bs, c') ∧ up_to c' rest post ∧ same_output c c'.
Proof. intros Hu. apply (read_loop_ok (S (length bs)) (length bs) [] c bs rest post); [done|lia|done]. Qed.
Lemma stream_nil_net c : stream c = [] → c_buf c = [] ∧ ∀ n, net_Read n (c_net c) = None.
Proof.
  unfold stream. intros Hs. apply app_nil in Hs as [Hb Hc]. split; [done|]. intros n. revert Hc. generalize (c_net c).
  intros l. induction l as [|[|b seg] l IH]; [done|exact IH|done].
Qed.
Lemma readFull_eof n c : 0 < n → stream c = [] → readFull n c = (Err "EOF", set_input [] [] c).
Proof.
  intros Hn Hs. apply stream_nil_net in Hs as [Hb Hc]. unfold readFull. cbn [read_loop].
  rewrite bool_decide_eq_false_2 by lia. apply bind_err. unfold bufio_Read. rewrite Hb.
  case_bool_decide; by rewrite Hc.
Qed.

(** ** The handshake *)

Definition greeting : list byte := le_bytes 4 v04Magic ++ le_bytes 4 0 ++ le_bytes 4 jsonProto.

Lemma on_net_run {A} (m : M Connection A) c r n : m (cn_net c) = (r, n) → on_net m c = (r, set_net n c).
Proof. apply zoom_ok. Qed.
Lemma net_write data c : c_faults (cn_net c) = [] → on_net (Write data) c = (Ok (), set_net (written data (cn_net c)) c).
Proof. intros Hf. by apply on_net_run, Write_ok. Qed.
(** Reading leaves what was written. *)
Definition same_written (c c' : Connection) : Prop := c_out c' = c_out c.
#[local] Instance same_written_preorder : PreOrder same_written.
Proof. split; [by intros c|]. intros a b c Hab Hbc. unfold same_written in *. congruence. Qed.
Lemma until_null_written fuel : ∀ buf, respects same_written (until_null fuel buf).
Proof.
  induction fuel as [|fuel IH]; intros buf; [by intros c|]. cbn [until_null]. apply respects_bind; [apply _| |].
  - intros c. unfold read_byte, same_written. by destruct (net_Read 1 (c_net c)) as [[[|b bs] net]|].
  - intros b. case_bool_decide; [by intros c|apply IH].
Qed.

(** The three writes of the greeting. *)
Lemma handshake_greets c : c_faults (cn_net c) = [] →
  handshake c = (resp ← on_net readNullTerminated;
                 let resp := String.string_of_list_byte resp in
                 if bool_decide (resp ≠ "SUCCESS") then fail ("handshake failed: " +:+ resp) else mret ())
                (set_net (written greeting (cn_net c)) c).
Proof.
  intros Hf. unfold handshake. mstep (net_write (le_bytes 4 v04Magic) c Hf). set (c1 := set_net _ c).
  mstep (net_write (le_bytes 4 0) c1 eq_refl). set (c2 := set_net _ c1).
  mstep (net_write (le_bytes 4 jsonProto) c2 eq_refl). unfold c2, c1, greeting, written. cbn. by rewrite <- !app_assoc.
Qed.
(** Whatever it is answered, the driver has written its greeting. *)
Lemma handshake_writes c : c_faults (cn_net c) = [] → c_out (cn_net (handshake c).2) = c_out (cn_net c) ++ greeting.
Proof.
  intros Hf. rewrite handshake_greets by done. set (c1 := set_net _ c). unfold on_net, zoom, mbind, M_mbind, M_bind.
  pose proof (until_null_written (input_fuel (cn_net c1)) [] (cn_net c1)) as Hw. unfold readNullTerminated, mbind, M_mbind, M_bind, get_state.
  destruct (until_null _ _ _) as [[resp|e| |] n]; try exact Hw. cbv zeta. case_bool_decide; exact Hw.
Qed.
Lemma handshake_eof c : c_faults (cn_net c) = [] → stream (cn_net c) = [] → (handshake c).1 = Err "EOF".
Proof.
  intros Hf Hs. rewrite handshake_greets by done. set (c1 := set_net _ c).
  assert (stream (cn_net c1) = []) as Hs1 by exact Hs. apply stream_nil_net in Hs1 as [_ Hn].
  assert (readNullTerminated (cn_net c1) = (Err "EOF", set_input [] (c_buf (cn_net c1)) (cn_net c1))) as Hr.
  { unfold readNullTerminated, mbind, M_mbind, M_bind, get_state, input_fuel. cbn [until_null]. apply bind_err. unfold read_byte. by rewrite Hn. }
  by rewrite (bind_err _ _ _ _ _ (on_net_run _ _ _ _ Hr)).
Qed.

(** The server reads the version, refuses it and says nothing. *)
Lemma server_refuses_greeting `{Wire} `{Runtime} `{Crypto} `{AuthRuntime} segs faults turn auth w : concat segs = greeting →
  let sv := handleConnection segs faults turn auth w in sv_loop sv = LoopDone ∧ c_out (sv_conn sv) = [].
Proof.
  intros Hc. unfold handleConnection, Protocol.handshake.
  set (c := NewConnection segs faults). destruct (ReadFull_ok c (le_bytes 4 v04Magic) (le_bytes 4 0 ++ le_bytes 4 jsonProto) [] eq_refl)
    as (c' & Hr & _ & _ & Hs); [exists segs; rewrite app_nil_r; by split|]. change (length _) with 4 in Hr.
  assert (on_conn (ReadFull 4) (mkHS c turn) = (Ok (le_bytes 4 v04Magic), mkHS c' turn)) as Hrun.
  { unfold on_conn, zoom. cbn [hs_conn hs_turn]. by rewrite Hr. }
  mstep (wrap_err_ok "failed to read version" _ _ _ _ Hrun). cbv zeta.
  rewrite bool_decide_eq_false_2 by done. rewrite bool_decide_eq_true_2 by (by left). cbn.
  split; [done|]. by destruct Hs as [-> _].
Qed.


Lemma Connect_eof dial opts down :
  let full := ConnectOptions_defaults opts in
  dial (Host full +:+ ":" +:+ pretty (Port full)) = Ok (NewConnection down []) → concat down = [] →
  Connect dial opts = Err "handshake failed: EOF".
Proof.
  intros full Hd Hc. unfold Connect. fold full. rewrite Hd. set (c := newConn _ _ _ _).
  pose proof (handshake_eof c eq_refl Hc) as He. destruct (handshake c) as [r c']. cbn in He. by rewrite He.
Qed.

(** C35: the driver cannot connect to this server.  Let the server read the bytes that
    the driver's handshake writes and the driver the bytes that the server writes, each
    cut anywhere.  The driver greets with the version V0.4, which the server no longer
    speaks: it closes the connection without a word, and [Connect] fails. *)
Theorem driver_is_refused `{Wire} `{Runtime} `{Crypto} `{AuthRuntime} dial opts up down turn auth w :
  let full := ConnectOptions_defaults opts in
  dial (Host full +:+ ":" +:+ pretty (Port full)) = Ok (NewConnection down []) →
  let client := (handshake (newConn (NewConnection down []) full 0 false)).2 in
  let server := handleConnection up [] turn auth w in
  concat up = c_out (cn_net client) → concat down = c_out (sv_conn server) →
  Connect dial opts = Err "handshake failed: EOF" ∧ sv_loop server = LoopDone.
Proof.
  intros full Hd client server Hup Hdown. unfold client in Hup. rewrite handshake_writes in Hup by done.
  destruct (server_refuses_greeting up [] turn auth w Hup) as [Hl Ho]. fold server in Hl, Ho. split; [|exact Hl].
  apply (Connect_eof dial opts down Hd). by rewrite Hdown.
Qed.

(** ** Queries against the server *)

(** The value that the server decodes from the JSON of a term. *)
Fixpoint go_val `{DriverJson} (t : Reply) : GoVal :=
  match t with
  | RNil => VNil
  | RBool b => VBool b
  | RInt z => VFloat64 (float_of_Z z)
  | RFloat f => VFloat64 f
  | RStr s => VString (utf8 s)
  | RArr l => VSlice (go_val <$> l)
  | RMap kvs => VMap ((λ kv, (utf8 kv.1, go_val kv.2)) <$> kvs)
  | RBytes _ | RTime _ | RGeometry _ => VNil
  end.
(** Terms made of JSON values: no two keys of a map are the same, and the whole numbers
    are those of Go's types. *)
Fixpoint plain `{DriverJson} (t : Reply) : bool :=
  match t with
  | RNil | RBool _ | RFloat _ | RStr _ => true
  | RInt z => bool_decide (- 2 ^ 63 ≤ z < 2 ^ 64)%Z
  | RArr l => forallb plain l
  | RMap kvs => bool_decide (NoDup ((λ kv, utf8 kv.1) <$> kvs)) && forallb (λ kv, plain kv.2) kvs
  | RBytes _ | RTime _ | RGeometry _ => false
  end.

Lemma on_query_plain `{DriverJson} t q args : (- 2 ^ 63 ≤ t < 2 ^ 64)%Z → plain (term q) = true → forallb plain args = true →
  plain (term (on_query t q args)) = true.
Proof. intros Ht Hq Ha. cbn -[Z.le Z.lt]. rewrite bool_decide_eq_true_2 by done. rewrite Hq. exact Ha. Qed.

(** What [encoding/json] documents: what is written is read back; the text of a member
    and of an element is part of the text of the whole. *)
Class DriverJsonLaws `{Wire} `{DriverJson} : Prop := {
  query_read_back token t text : plain t = true → (0 ≤ token < 2 ^ 63)%Z → marshal (query_object token t) = Ok text →
    unmarshal_query text = Ok (mkQuery token QueryStart (go_val t));
  response_read_back r text : Response_Marshal r = Ok text → rsp_Profile r = None → rsp_Backtrace r = None →
    ∃ raw, marshal (match rsp_Data r with Some l => RArr l | None => RNil end) = Ok raw ∧
      unmarshal_response text = Ok (mkAnswer (rsp_Type r) 0 (Some raw) (utf8 <$> rsp_Notes r) None "");
  singleton_read_back x raw : marshal (RArr [x]) = Ok raw →
    ∃ text more, marshal x = Ok text ∧ raw = Byte.x5b :: more ∧ unmarshal_raws raw = Ok [text];
}.

Section exchange.
Context `{Wire} `{DriverJson} `{Runtime} `{Crypto} `{AuthRuntime} (fuel : nat).
(** How the network cuts what it carries in either direction. *)
Context (up down : list byte → list (list byte)).

Definition arrive (segs : list (list byte)) (c : Connection) : Connection := set_input (c_net c ++ segs) (c_buf c) c.
Definition new_output (c c' : Connection) : list byte := drop (length (c_out c)) (c_out c').
(** A call: the server reads what the driver writes and has the time to answer; the
    driver reads what the server writes. *)
Definition call (t : Reply) (d : Conn) (s : Server) : outcome (option (list byte)) * (Conn * Server) :=
  let sent := new_output (cn_net d) (cn_net (run_on t d).2) in
  let s' := server_run fuel (turns [drop 4 sent] (sv_next s)) (set_conn (arrive (up sent) (sv_conn s)) s) in
  let '(r, d') := run_on t (set_net (arrive (down (new_output (sv_conn s) (sv_conn s'))) (cn_net d)) d) in (r, (d', s')).
Fixpoint calls (ts : list Reply) (d : Conn) (s : Server) : list (outcome (option (list byte))) * (Conn * Server) :=
  match ts with
  | [] => ([], (d, s))
  | t :: ts' =>
      let '(r, (d1, s1)) := call t d s in
      let '(rs, ds) := calls ts' d1 s1 in (r :: rs, ds)
  end.

(** The specification: evaluate the terms one after the other. *)
Definition evaluation (ctx : Context) (t : Reply) (w : World) : option (outcome Reply * World) :=
  match Evaluate ctx fuel (go_val t) w with
  | (Ok v, w') =>
      match datumToInterface (w_heap w') value_fuel v with
      | Ok r => Some (Ok r, w')
      | Err e => Some (Err e, w')
      | _ => None
      end
  | (Err e, w') => Some (Err e, w')
  | _ => None
  end.
Definition answer_of (o : outcome Reply) : Protocol.Response :=
  match o with Ok r => NewSuccessAtomResponse r | Err e => response ResponseRuntimeError None [e] | _ => response 0 None [] end.
(** The text of the value, or the error; an error without a text is shown as the text
    of the data. *)
Definition outcome_text (o : outcome Reply) : outcome (option (list byte)) :=
  match o with
  | Ok r => text ← marshal r; Ok (Some text)
  | Err e =>
      let shown := if bool_decide (utf8 e = "") then match marshal RNil with Ok raw => String.string_of_list_byte raw | _ => "" end else utf8 e in
      Err ("query error: " +:+ shown)
  | _ => NoFuel
  end.

(** The query with the token [n], when the texts are not too long to be sent. *)
Definition evaluate_call (ctx : Context) (n : Z) (t : Reply) (w : World) : option (outcome (option (list byte)) * World) :=
  '(o, w1) ← evaluation ctx t w;
  match t, marshal (query_object n t), Response_Marshal (answer_of o) with
  | RArr _, Ok text, Ok data =>
      if plain t && bool_decide (Z.of_nat (length text) ≤ max_query)%Z && bool_decide (Z.of_nat (length data) ≤ max_response)%Z
      then Some (outcome_text o, w1) else None
  | _, _, _ => None
  end.
Fixpoint evaluate_calls (ctx : Context) (n : Z) (ts : list Reply) (w : World) : option (list (outcome (option (list byte))) * World) :=
  match ts with
  | [] => Some ([], w)
  | t :: ts' =>
      '(r, w1) ← evaluate_call ctx (n + 1) t w;
      '(rs, w2) ← evaluate_calls ctx (n + 1) ts' w1;
      Some (r :: rs, w2)
  end.

(** The driver and the server have read all that was sent. *)
Record established (d : Conn) (s : Server) : Prop := {
  es_open : cn_closed d = false;
  es_faults : c_faults (cn_net d) = [];
  es_read : stream (cn_net d) = [];
  es_waiting : waiting s;
  es_taken : concat (c_net (sv_conn s)) = [];
}.
End exchange.

Section exchange_runs.
Context `{DriverJsonLaws} `{Runtime} `{Crypto} `{AuthRuntime} (fuel : nat).

Definition sent (text : list byte) (d : Conn) : Conn :=
  set_net (written (frame text) (cn_net d)) (set_token (uint64 (cn_token d + 1)) d).
Lemma Conn_Query_sends t d text : cn_closed d = false → c_faults (cn_net d) = [] →
  marshal (query_object (uint64 (cn_token d + 1)) t) = Ok text →
  Conn_Query t d = read_answer (uint64 (cn_token d + 1)) (sent text d).
Proof.
  intros Hc Hf Hm. unfold Conn_Query, mbind at 1, M_mbind, M_bind at 1, get_state. rewrite Hc. cbv zeta.
  rewrite (bind_ok _ _ _ () (set_token (uint64 (cn_token d + 1)) d)) by done.
  rewrite (bind_ok (lift _) _ _ text (set_token (uint64 (cn_token d + 1)) d)) by (unfold lift; by rewrite Hm).
  set (d1 := set_token _ d). by mstep (net_write (frame text) d1 Hf).
Qed.

Lemma run_on_state t d : (run_on t d).2 = (Conn_Query t d).2.
Proof. unfold run_on, mbind, M_mbind, M_bind. destruct (Conn_Query t d) as [[[resp [e|]]|e| |] d']; done. Qed.

(** Without an answer to read, the call has written its query. *)
Lemma run_on_writes t d text : cn_closed d = false → c_faults (cn_net d) = [] → stream (cn_net d) = [] →
  marshal (query_object (uint64 (cn_token d + 1)) t) = Ok text →
  c_out (cn_net (run_on t d).2) = c_out (cn_net d) ++ frame text.
Proof.
  intros Hc Hf Hs Hm. rewrite run_on_state, (Conn_Query_sends _ _ _ Hc Hf Hm). unfold read_answer.
  set (d1 := sent text d). assert (stream (cn_net d1) = []) as Hs1 by exact Hs.
  pose proof (on_net_run _ _ _ _ (readFull_eof 4 _ (Nat.lt_0_succ 3) Hs1)) as Hr.
  assert (wrap_err "failed to read response header" (on_net (readFull 4)) d1 =
    (Err ("failed to read response header" +:+ ": " +:+ "EOF"), set_net (set_input [] [] (cn_net d1)) d1)) as Hw by (unfold wrap_err; by rewrite Hr).
  by rewrite (bind_err _ _ _ _ _ Hw).
Qed.

(** An answer that has arrived. *)
Lemma read_answer_ok token d data resp : stream (cn_net d) = frame data → (Z.of_nat (length data) ≤ max_response)%Z →
  unmarshal_response data = Ok resp →
  ∃ n, read_answer token d = (Ok (set_Token token resp, if is_error (Type_ resp) then Some ("query error: " +:+ error_message resp) else None), set_net n d) ∧
    stream n = [] ∧ same_output (cn_net d) n.
Proof.
  intros Hs Hl Hu. pose proof (stream_up_to (cn_net d)) as Hup. rewrite Hs in Hup. unfold frame in Hup.
  destruct (readFull_ok _ _ _ _ Hup) as (n1 & Hr1 & Hup1 & Hs1). change (length (length_bytes data)) with 4 in Hr1.
  unfold read_answer. mstep (wrap_err_ok "failed to read response header" _ _ _ _ (on_net_run _ _ _ _ Hr1)). cbv zeta.
  rewrite length_bytes_value by (unfold max_response in Hl; lia). rewrite bool_decide_eq_false_2 by lia. rewrite Nat2Z.id.
  rewrite <- (app_nil_r data) in Hup1. destruct (readFull_ok n1 _ _ _ Hup1) as (n2 & Hr2 & Hup2 & Hs2).
  mstep (wrap_err_ok "failed to read response body" _ (set_net n1 d) _ _ (on_net_run _ (set_net n1 d) _ _ Hr2)).
  set (d2 := set_net n2 (set_net n1 d)).
  rewrite (bind_ok (wrap_err "failed to parse response" (lift (unmarshal_response data))) _ d2 resp d2) by (unfold wrap_err, lift; by rewrite Hu).
  exists n2. cbv zeta. change (Type_ (set_Token token resp)) with (Type_ resp). split; [by destruct (is_error (Type_ resp))|].
  split; [apply up_to_stream in Hup2; by rewrite Hup2|by transitivity n1].
Qed.

(** What [Run] makes of the answer to an evaluation. *)
Lemma answer_is_shown o data : (∃ r, o = Ok r) ∨ (∃ e, o = Err e) → Response_Marshal (answer_of o) = Ok data →
  ∃ resp, unmarshal_response data = Ok resp ∧ ∀ token,
    (let resp := set_Token token resp in
     if is_error (Type_ resp) then Err ("query error: " +:+ error_message resp) else Ok (unwrapResponse (Data resp))) = outcome_text o.
Proof.
  intros Ho Hm. destruct (response_read_back (answer_of o) data Hm) as (raw & Hraw & Hu); [by destruct o..|].
  eexists. split; [exact Hu|]. intros token. destruct Ho as [[r ->]|[e ->]]; cbn [answer_of rsp_Data NewSuccessAtomResponse response] in Hraw.
  - destruct (singleton_read_back _ _ Hraw) as (text & more & Ht & -> & Hraws). cbn -[unmarshal_raws]. rewrite Ht, Hraws. done.
  - cbn. unfold error_message, data_text. cbn. by rewrite Hraw.
Qed.

(** The server's answer is the evaluation. *)
Lemma evaluation_responds ctx token l w o w1 : evaluation fuel ctx (RArr l) w = Some (o, w1) →
  respond fuel ctx (mkQuery token QueryStart (go_val (RArr l))) w = (Ok (answer_of o), w1) ∧ ((∃ r, o = Ok r) ∨ (∃ e, o = Err e)).
Proof.
  intros He. unfold respond, HandleQuery. cbn [q_Type q_Query]. cbv zeta. rewrite !bool_decide_eq_true_2 by done.
  unfold handleStart. cbn [q_Query go_val]. unfold evaluation in He. cbn [go_val] in He. unfold catch, mbind, M_mbind, M_bind.
  destruct (Evaluate ctx fuel (VSlice (go_val <$> l)) w) as [[v|e| |] w']; try done; [|injection He as <- <-; split; [done|by right; eexists]].
  unfold get_heap, mbind, M_mbind, M_bind, get_state, lift, mret, M_mret.
  destruct (datumToInterface (w_heap w') value_fuel v) as [r|e| |]; try done; injection He as <- <-; (split; [done|eauto]).
Qed.

(** How a call changes the two ends. *)
Lemma call_runs up down t d s r w1 :
  (∀ bs, concat (up bs) = bs) → (∀ bs, concat (down bs) = bs) → established d s →
  (0 ≤ cn_token d)%Z → (cn_token d + 1 < 2 ^ 63)%Z →
  evaluate_call fuel (session_of s) (cn_token d + 1) t (sv_world s) = Some (r, w1) →
  ∃ d' s', call fuel up down t d s = (r, (d', s')) ∧ established d' s' ∧
    cn_token d' = (cn_token d + 1)%Z ∧ sv_world s' = w1 ∧ session_of s' = session_of s.
Proof.
  intros Hup Hdown [Hc Hf Hr Hw Ht] Hn0 Hn1 Hev. unfold evaluate_call in Hev.
  destruct (evaluation fuel (session_of s) t (sv_world s)) as [[o w1']|] eqn:He; [|done]. cbn [mbind option_bind] in Hev.
  destruct t as [| | | | | | | |l|]; try done. destruct (marshal (query_object (cn_token d + 1) (RArr l))) as [text| | |] eqn:Hm; try done.
  destruct (Response_Marshal (answer_of o)) as [data| | |] eqn:Ha; try done.
  destruct (plain (RArr l)) eqn:Hp; [|done]. case_bool_decide as Hlt; [|done]. case_bool_decide as Hla; [|done]. injection Hev as <- <-. rename w1' into w1.
  assert (uint64 (cn_token d + 1) = cn_token d + 1)%Z as Hu by (apply Z.mod_small; lia).
  destruct (evaluation_responds _ (cn_token d + 1) _ _ _ _ He) as [Hresp Ho].
  assert (serve_one fuel (session_of s) text (sv_world s) = (inl data, w1)) as Hserve.
  { unfold serve_one, ParseQuery. rewrite (query_read_back (cn_token d + 1) (RArr l) text Hp ltac:(lia) Hm). cbn -[go_val respond]. rewrite Hresp. unfold text_of. by rewrite Ha. }
  assert (new_output (cn_net d) (cn_net (run_on (RArr l) d).2) = frame text) as Hsent.
  { unfold new_output. rewrite (run_on_writes _ _ text Hc Hf Hr) by (by rewrite Hu). apply drop_app_length. }
  unfold call. cbv zeta. rewrite Hsent.
  assert (drop 4 (frame text) = text) as -> by (unfold frame; apply (drop_app_length (length_bytes text))).
  set (s0 := set_conn (arrive (up (frame text)) (sv_conn s)) s).
  assert (waiting s0) as Hw0 by (destruct Hw; by split).
  assert (concat (c_net (sv_conn s0)) = frame text ++ []) as Hc0 by (cbn; by rewrite concat_app, Ht, Hup, app_nil_r).
  destruct (serve_step fuel s0 text [] data w1 Hw0 Hc0 Hlt Hserve) as [Hsv _]. change (sv_next s0) with (sv_next s) in Hsv.
  set (s' := server_run _ _ _) in *.
  assert (new_output (sv_conn s) (sv_conn s') = frame data) as ->.
  { unfold new_output. rewrite (sd_output _ _ _ _ _ Hsv). cbn. by rewrite app_nil_r, drop_app_length. }
  set (d1 := set_net (arrive _ (cn_net d)) d).
  assert (stream (cn_net (sent text d1)) = frame data) as Hs1.
  { unfold stream in *. cbn. rewrite concat_app, app_assoc, Hr, Hdown. done. }
  destruct (answer_is_shown o data Ho Ha) as (resp & Hrb & Hshow).
  destruct (read_answer_ok (cn_token d + 1) (sent text d1) data resp Hs1 Hla Hrb) as (n & Hrd & Hst & Hsame).
  unfold run_on. assert (marshal (query_object (uint64 (cn_token d1 + 1)) (RArr l)) = Ok text) as Hm1 by (cbn; by rewrite Hu).
  pose proof (Conn_Query_sends _ d1 _ Hc Hf Hm1) as Hq. change (cn_token d1) with (cn_token d) in Hq. rewrite Hu, Hrd in Hq.
  rewrite (bind_ok _ _ _ _ _ Hq). specialize (Hshow (cn_token d + 1)%Z). cbv zeta in Hshow.
  change (Type_ (set_Token _ resp)) with (Type_ resp) in Hshow.
  exists (set_net n (sent text d1)), s'. split.
  - destruct (is_error (Type_ resp)); cbn; by rewrite <- Hshow.
  - split; [|split; [by cbn; rewrite Hu|split; [apply Hsv|]]].
    + split; [exact Hc| |exact Hst|apply Hsv|apply Hsv]. change (c_faults n = []). destruct Hsame as (_ & -> & _). done.
    + by rewrite (session_served _ _ _ _ _ Hsv).
Qed.
End exchange_runs.

(** The driver's calls are the evaluator.  On an established connection, however the
    network cuts queries and answers, [Run] gives for each query the text of the value
    that the evaluator gives for it, or the error that it reports; the world of the
    server is the one that evaluating the queries in this order leaves, and both ends
    are ready for the next query.  With this server no such connection is made
    ([driver_is_refused]). *)
Theorem calls_are_evaluated `{DriverJsonLaws} `{Runtime} `{Crypto} `{AuthRuntime} fuel up down ts rs d s w' :
  (∀ bs, concat (up bs) = bs) → (∀ bs, concat (down bs) = bs) → established d s →
  (0 ≤ cn_token d)%Z → (cn_token d + Z.of_nat (length ts) < 2 ^ 63)%Z →
  evaluate_calls fuel (session_of s) (cn_token d) ts (sv_world s) = Some (rs, w') →
  ∃ d' s', calls fuel up down ts d s = (rs, (d', s')) ∧ established d' s' ∧ sv_world s' = w'.
Proof.
  intros Hup Hdown. revert rs d s. induction ts as [|t ts IH]; intros rs d s Hes Hn0 Hn1 Hev; cbn in Hev; [injection Hev as <- <-; by exists d, s|].
  destruct (evaluate_call _ _ _ _ _) as [[r w1]|] eqn:Hone; [|done]. cbn in Hev.
  destruct (evaluate_calls _ _ _ _ _) as [[rs1 w2]|] eqn:Hall; [|done]. injection Hev as <- <-. cbn [length] in Hn1.
  destruct (call_runs fuel up down t d s r w1) as (d1 & s1 & Hcall & Hes1 & Ht1 & Hw1 & Hs1); try done; [lia|].
  destruct (IH rs1 d1 s1 Hes1) as (d2 & s2 & Hcalls & Hes2 & Hw2); [lia..|by rewrite Hs1, Ht1, Hw1|].
  exists d2, s2. cbn [calls]. by rewrite Hcall, Hcalls.
Qed.

(** ** Terms that the server does not take *)

Section refused.
Context `{DriverJson} `{Runtime} (ctx : Context) (fuel : nat).

Lemma mapM_M_length {S A B} (f : A → M S B) l : ∀ s ys s', mapM f l s = (Ok ys, s') → length ys = length l.
Proof.
  induction l as [|x l IH]; intros s ys s' Hr; [by injection Hr as <- _|]. cbn [mapM] in Hr.
  apply bind_inv_ok in Hr as (y & s1 & _ & Hr). apply bind_inv_ok in Hr as (ys' & s2 & Hys & Hr). injection Hr as <- _.
  cbn. f_equal. by eapply IH.
Qed.
(** A term that evaluates to a value is one of the evaluator's, on as many arguments. *)
Lemma evaluate_term_inv t args w v w' : int_of_float (float_of_Z t) = t →
  Evaluate ctx (S fuel) (go_val (new_term t args)) w = (Ok v, w') →
  ∃ ds w1, eval_term ctx (eval_arg (evaluateDatum ctx fuel)) t ds w1 = (Ok v, w') ∧ length ds = length args.
Proof.
  intros Ht Hev. unfold Evaluate in Hev. cbn [go_val new_term] in Hev. apply bind_inv_ok in Hev as (d & w1 & Hd & Hev).
  unfold wrap_err, on_heap, zoom in Hd. rewrite fmap_cons in Hd.
  destruct (FromInterface local_offset _ (w_heap w)) as [[d'| | |] h] eqn:Harr; try done. injection Hd as -> <-. cbn [FromInterface] in Harr.
  apply bind_inv_ok in Harr as (arr & h1 & Hm & Harr). injection Harr as <- <-. cbn [mapM] in Hm.
  apply bind_inv_ok in Hm as (x & h2 & Hx & Hm). cbn [FromInterface] in Hx. injection Hx as <- <-.
  apply bind_inv_ok in Hm as (ds & h3 & Hds & Hm). injection Hm as <- ->. apply mapM_M_length in Hds. rewrite length_fmap in Hds.
  cbn [evaluateDatum] in Hev. apply bind_inv_ok in Hev as (t' & w2 & Hi & Hev). unfold lift, asInt in Hi. injection Hi as <- <-.
  rewrite Ht in Hev. by eexists ds, _.
Qed.

(** [r.Expr]: the evaluator has no term for a value. *)
Lemma expr_is_refused value r w v w' : Evaluate ctx (S fuel) (go_val (term (R_Expr value r))) w ≠ (Ok v, w').
Proof. intros Hev. by apply evaluate_term_inv in Hev as (ds & w1 & Hev & _). Qed.
(** An index without a field is refused. *)
Lemma index_without_field_is_refused name t w v w' :
  Evaluate ctx (S fuel) (go_val (term (TableQuery_IndexCreate name [] t))) w ≠ (Ok v, w').
Proof.
  intros Hev. apply evaluate_term_inv in Hev as (ds & w1 & Hev & Hl); [|done]. by destruct ds as [|a [|b [|c ds]]].
Qed.
End refused.

(** ** Cursors *)

Section cursors.
Context `{DriverJson}.

Fixpoint drain (fuel : nat) (c : Cursor) : list (list byte) * Cursor :=
  match fuel with
  | O => ([], c)
  | S fuel' => match Next None c with (Some item, c') => let '(items, c'') := drain fuel' c' in (item :: items, c'') | (None, c') => ([], c') end
  end.
(** Walking over a cursor gives what [All] gives, and leaves it where [All] does. *)
Lemma drain_is_all fuel : ∀ c, cu_err c = None → length (cu_data c) - cu_index c < fuel → drain fuel c = All c.
Proof.
  induction fuel as [|fuel IH]; intros c He Hf; [lia|]. cbn [drain]. unfold Next. rewrite He.
  destruct (cu_data c !! cu_index c) as [item|] eqn:Hi.
  - apply lookup_lt_Some in Hi as Hlt. rewrite IH by (cbn; done || lia). unfold All. cbn. rewrite (drop_S _ _ _ Hi). f_equal.
    unfold set_index. cbn. f_equal. lia.
  - apply lookup_ge_None in Hi. unfold All. rewrite drop_ge by done. f_equal. destruct c. cbn in *. unfold set_index. cbn. f_equal. lia.
Qed.
(** A cursor over a part of a sequence ends with the part, and never says that it does. *)
Lemma partial_cursor_stops p resp c : Type_ resp = ResponseTypeSuccessPartial → NewCursor p resp = Ok c →
  (∀ dest, (Next dest (All c).2).1 = None) ∧ IsNil (All c).2 = false.
Proof.
  intros Ht Hc. unfold NewCursor in Hc. rewrite Ht in Hc. injection Hc as <-. split; [|done]. intros dest. unfold Next, All.
  cbn [cu_err set_index cu_data cu_index snd]. rewrite lookup_ge_None_2; [done|lia].
Qed.
(** A cursor over a value gives the array around it, which [Run] takes off. *)
Lemma atom_cursor_gives_the_array p resp raw text : Type_ resp = ResponseTypeSuccessAtom → Data resp = Some (Byte.x5b :: raw) →
  unmarshal_raws (Byte.x5b :: raw) = Ok [text] →
  unwrapResponse (Data resp) = Some text ∧ ∃ c, NewCursor p resp = Ok c ∧ (Next None c).1 = Some (Byte.x5b :: raw).
Proof.
  intros Ht Hd Hu. rewrite Hd. split; [cbn -[unmarshal_raws]; by rewrite Hu|]. unfold NewCursor, raw_data. rewrite Ht, Hd.
  eexists. split; [reflexivity|]. done.
Qed.
End cursors.

(** ** An example

    A code for JSON values that satisfies the laws: a letter for the kind of value, then
    the bits of a number that stands for the value. *)

Section code.
Abbreviation leaf := (Z + string)%type.
Definition float_parts (f : float64) : list Z :=
  match f with
  | S754_zero s => [0; Z.b2z s; 0; 0]
  | S754_infinity s => [1; Z.b2z s; 0; 0]
  | S754_nan => [2; 0; 0; 0]
  | S754_finite s m e => [3; Z.b2z s; Z.pos m; e]
  end%Z.
Definition float_of_parts (l : list (gen_tree leaf)) : option float64 :=
  match l with
  | [GenLeaf (inl k); GenLeaf (inl s); GenLeaf (inl m); GenLeaf (inl e)] =>
      let s := bool_decide (s = 1%Z) in
      match k, m with
      | 0%Z, _ => Some (S754_zero s)
      | 1%Z, _ => Some (S754_infinity s)
      | 2%Z, _ => Some S754_nan
      | 3%Z, Z.pos m => Some (S754_finite s m e)
      | _, _ => None
      end
  | _ => None
  end.
Fixpoint tree (r : Reply) : gen_tree leaf :=
  match r with
  | RNil => GenNode 0 []
  | RBool b => GenNode 1 [GenLeaf (inl (Z.b2z b))]
  | RInt z => GenNode 2 [GenLeaf (inl z)]
  | RFloat f => GenNode 3 ((λ z, GenLeaf (inl z)) <$> float_parts f)
  | RStr s => GenNode 4 [GenLeaf (inr s)]
  | RArr l => GenNode 5 (tree <$> l)
  | RMap kvs => GenNode 6 ((λ kv, GenNode 7 [GenLeaf (inr kv.1); tree kv.2]) <$> kvs)
  | RBytes _ | RTime _ | RGeometry _ => GenNode 8 []
  end.
Fixpoint untree (t : gen_tree leaf) : option Reply :=
  match t with
  | GenNode 0 [] => Some RNil
  | GenNode 1 [GenLeaf (inl z)] => Some (RBool (bool_decide (z = 1%Z)))
  | GenNode 2 [GenLeaf (inl z)] => Some (RInt z)
  | GenNode 3 l => RFloat <$> float_of_parts l
  | GenNode 4 [GenLeaf (inr s)] => Some (RStr s)
  | GenNode 5 l => RArr <$> mapM untree l
  | GenNode 6 l =>
      RMap <$> mapM (λ t, match t with GenNode 7 [GenLeaf (inr k); v] => r ← untree v; Some (k, r) | _ => None end) l
  | _ => None
  end.
Fixpoint codable (r : Reply) : bool :=
  match r with
  | RArr l => forallb codable l
  | RMap kvs => forallb (λ kv, codable kv.2) kvs
  | RBytes _ | RTime _ | RGeometry _ => false
  | _ => true
  end.
Lemma untree_tree : ∀ r, codable r = true → untree (tree r) = Some r.
Proof.
  fix IH 1. intros [|[]|z|f|s|bs|t|g|l|kvs] Hc; try done.
  - destruct f as [[]|[]| |[] m e]; done.
  - cbn in *. change (RArr <$> mapM untree (tree <$> l) = Some (RArr l)). cut (mapM untree (tree <$> l) = Some l); [by intros ->|].
    induction l as [|x l IHl]; [done|]. cbn in *. apply andb_prop in Hc as [Hx Hl]. by rewrite (IH x Hx), (IHl Hl).
  - cbn in *. match goal with |- RMap <$> mapM ?f (?g <$> kvs) = _ => cut (mapM f (g <$> kvs) = Some kvs); [by intros ->|] end.
    induction kvs as [|[k v] kvs IHl]; [done|]. cbn in *. apply andb_prop in Hc as [Hx Hl]. by rewrite (IH v Hx), (IHl Hl).
Qed.

Fixpoint bits (p : positive) : list byte :=
  match p with xH => [] | xO p' => Byte.x30 :: bits p' | xI p' => Byte.x31 :: bits p' end.
Fixpoint of_bits (bs : list byte) : positive :=
  match bs with [] => xH | b :: bs' => (if bool_decide (b = Byte.x31) then xI else xO) (of_bits bs') end.
Lemma of_bits_bits p : of_bits (bits p) = p.
Proof. induction p as [p IH|p IH|]; cbn; by rewrite ?IH. Qed.

Definition code (r : Reply) : list byte :=
  match r with RArr _ => Byte.x5b | RMap _ => Byte.x7b | _ => Byte.x3d end :: bits (encode (tree r)).
Definition decoded (bs : list byte) : option Reply :=
  match bs with _ :: bs' => t ← decode (of_bits bs'); untree t | [] => None end.
Lemma decoded_code r : codable r = true → decoded (code r) = Some r.
Proof. intros Hc. unfold decoded, code. rewrite of_bits_bits, decode_encode. cbn. by apply untree_tree. Qed.
Fixpoint member (key : string) (kvs : list (string * Reply)) : option Reply :=
  match kvs with [] => None | (k, v) :: kvs' => if bool_decide (k = key) then Some v else member key kvs' end.
Definition int_of (r : option Reply) : Z := match r with Some (RInt z) => z | _ => 0%Z end.
Definition texts_of (r : option Reply) : list string :=
  match r with Some (RArr l) => omap (λ x, match x with RStr s => Some s | _ => None end) l | _ => [] end.
Lemma texts_of_strings l : texts_of (Some (RArr (RStr <$> l))) = l.
Proof. induction l as [|s l IH]; [done|]. cbn in *. by rewrite IH. Qed.
Fixpoint reply_doc (r : Reply) : JSON :=
  match r with
  | RBool b => JBool b | RInt z => JNum (float_of_Z z) | RFloat f => JNum f | RStr s => JStr s
  | RArr l => JArr (reply_doc <$> l) | RMap kvs => JObj ((λ kv, (kv.1, reply_doc kv.2)) <$> kvs) | _ => JNull
  end.
End code.
Definition not_json {A} : outcome A := Err "invalid character".
#[local] Instance coded_json : DriverJson := {
  unmarshal_response bs :=
    match decoded bs with
    | Some (RMap kvs) => Ok (mkAnswer (int_of (member "t" kvs)) 0 (code <$> member "r" kvs) (texts_of (member "n" kvs)) None "")
    | _ => not_json
    end;
  unmarshal_raws bs := match decoded bs with Some (RArr l) => Ok (code <$> l) | _ => not_json end;
  unmarshal_values bs := match decoded bs with Some (RArr l) => Ok (reply_doc <$> l) | _ => not_json end;
  unmarshal_value bs := match decoded bs with Some r => Ok (reply_doc r) | _ => not_json end;
  format_value v := match v with JStr s => s | _ => "?" end;
  utf8 s := s;
}.
#[local] Instance coded_wire : Wire := {
  marshal r := if codable r then Ok (code r) else Err "json: unsupported value";
  unmarshal_object _ := not_json;
  unmarshal_query bs :=
    match decoded bs with
    | Some (RMap kvs) => Ok (mkQuery (int_of (member "token" kvs)) (int_of (member "type" kvs)) (go_val (default RNil (member "query" kvs))))
    | _ => not_json
    end;
}.
Lemma marshal_coded r text : marshal r = Ok text → codable r = true ∧ text = code r.
Proof. cbn. destruct (codable r); [|done]. by intros [= <-]. Qed.
#[local] Instance coded_laws : DriverJsonLaws.
Proof.
  split.
  - intros token t text Hp Ht [Hc ->]%marshal_coded. cbn -[code decoded]. by rewrite decoded_code by done.
  - intros [ty tok data notes p b] text Hm Hp Hb. cbn in Hp, Hb. subst p b. apply marshal_coded in Hm as [Hc ->].
    set (d := match data with Some l => RArr l | None => RNil end).
    assert (codable d = true) as Hd.
    { cbn in Hc. fold d in Hc. by apply andb_prop in Hc as [? _]. }
    exists (code d). cbn -[code decoded response_map]. split; [fold d; by rewrite Hd|].
    rewrite decoded_code by done. unfold response_map. cbn -[code]. f_equal. f_equal.
    rewrite list_fmap_id. destruct notes as [|n notes]; [done|]. exact (texts_of_strings (n :: notes)).
  - intros x raw [Hc ->]%marshal_coded. cbn in Hc. rewrite andb_true_r in Hc. exists (code x). eexists. cbn -[code decoded].
    rewrite Hc. split; [done|]. split; [done|]. by rewrite decoded_code by (cbn; by rewrite Hc).
Qed.

#[local] Existing Instances Scram.example_crypto Auth.example_runtime.

Definition halves (bs : list byte) : list (list byte) := [take 3 bs; drop 3 bs].
Lemma concat_halves bs : concat (halves bs) = bs.
Proof. cbn. by rewrite app_nil_r, take_drop. Qed.

Definition example_dial (addr : string) : outcome Connection :=
  if bool_decide (addr = "db.example:28015") then Ok (NewConnection [] []) else Err "connection refused".
Definition example_options : ConnectOptions := mkOptions "db.example" 0 "" "" "" 0.
Lemma driver_is_refused_witness :
  let server := handleConnection (halves greeting) [] 0 None NewEvaluator in
  Connect example_dial example_options = Err "handshake failed: EOF" ∧ sv_loop server = LoopDone.
Proof.
  apply (driver_is_refused example_dial example_options (halves greeting) [] 0 None NewEvaluator); vm_compute; reflexivity.
Defined.

(** Queries on the table [users], one of them over a value that the server refuses. *)
Definition users_table : TableQuery := R_Table "users" NewR.
Definition example_terms : list Reply :=
  [term (TableQuery_Insert (RMap [("age", RInt 30); ("id", RStr "u1")]) users_table);
   term (Query_Count (Query_Filter (RMap [("age", RInt 30)]) users_table));
   term (R_Expr (RInt 5) NewR)].
Definition example_client : Conn := newConn (NewConnection [] []) (ConnectOptions_defaults example_options) 0 false.
Definition example_peer : Server := new_server None NewEvaluator LoopRead (NewConnection [] []).
Definition example_evaluated : list (outcome (option (list byte))) * World :=
  default ([], NewEvaluator) (evaluate_calls 10 (session_of example_peer) 0 example_terms NewEvaluator).
Lemma calls_are_evaluated_witness :
  example_evaluated.1 !! 1 = Some (Ok (Some (code (RFloat (float_of_Z 1))))) ∧
  example_evaluated.1 !! 2 = Some (Err "query error: unsupported term: 1") ∧
  ∃ d' s', calls 10 halves halves example_terms example_client example_peer = (example_evaluated.1, (d', s')) ∧
    established d' s' ∧ sv_world s' = example_evaluated.2.
Proof.
  split; [vm_compute; reflexivity|]. split; [vm_compute; reflexivity|].
  apply (calls_are_evaluated 10 halves halves example_terms example_evaluated.1 example_client example_peer example_evaluated.2).
  - exact concat_halves.
  - exact concat_halves.
  - split; try reflexivity. split; reflexivity.
  - vm_compute. discriminate.
  - vm_compute. reflexivity.
  - vm_compute. reflexivity.
Defined.
