(* ===== verification/Pool.v ===== *)
(** * The driver's connection pool ([drivers/go/pool.go])

    Every method holds the lock of the pool from its start to its end, but [Close], which
    gives it away while it waits for the health check to end: a run of a pool is a
    sequence of steps.  The connections are those of [Driver]: pointers into the
    connections of the program, which the callers use and may close.  The network is the
    parameter [dial]: what each attempt gives, a connection or an error; time passes between
    steps.  The counters are unbounded here. *)

From S2P Require Import Prelude Bytes Order Datum Parser Index Admin Evaluator Sessions GoStrings Scram Auth Protocol Driver.

(** Durations and times in nanoseconds. *)
Record PoolOptions := mkPoolOptions {
  po_Host : string; po_Port : Z; po_DB : string; po_User : string; po_Password : string;
  MaxConns : Z; MinConns : Z; ConnTimeout : Z; ConnMaxLifetime : Z; HealthCheckInterval : Z;
}.
Definition PoolOptions_defaults (o : PoolOptions) : PoolOptions :=
  mkPoolOptions (or_text (po_Host o) "localhost") (or_int (po_Port o) 28015) (or_text (po_DB o) "test") (or_text (po_User o) "admin")
    (po_Password o) (or_int (MaxConns o) 10) (or_int (MinConns o) 2) (or_int (ConnTimeout o) (30 * 10 ^ 9))
    (or_int (ConnMaxLifetime o) (300 * 10 ^ 9)) (or_int (HealthCheckInterval o) (30 * 10 ^ 9)).

Record poolConn := mkPoolConn { pc_conn : conn_ptr; createdAt : Z; inUse : bool }.
Definition set_inUse (b : bool) (pc : poolConn) : poolConn := mkPoolConn (pc_conn pc) (createdAt pc) b.

(** The pool, the connections of the program, the next pointer, the attempts to connect
    so far and the clock.  [p_stopped]: the goroutine of the health check has ended. *)
Record Pool := mkPool {
  p_opts : PoolOptions; p_conns : list poolConn; p_closed : bool; p_stopped : bool;
  totalCreated : Z; totalDestroyed : Z;
  p_store : Conns; p_next : conn_ptr; p_dials : nat; p_now : Z;
}.
Definition set_conns (cs : list poolConn) (p : Pool) : Pool :=
  mkPool (p_opts p) cs (p_closed p) (p_stopped p) (totalCreated p) (totalDestroyed p) (p_store p) (p_next p) (p_dials p) (p_now p).
Definition set_store (st : Conns) (p : Pool) : Pool :=
  mkPool (p_opts p) (p_conns p) (p_closed p) (p_stopped p) (totalCreated p) (totalDestroyed p) st (p_next p) (p_dials p) (p_now p).
Definition set_destroyed (n : Z) (p : Pool) : Pool :=
  mkPool (p_opts p) (p_conns p) (p_closed p) (p_stopped p) (totalCreated p) n (p_store p) (p_next p) (p_dials p) (p_now p).
Definition set_closed (c s : bool) (p : Pool) : Pool :=
  mkPool (p_opts p) (p_conns p) c s (totalCreated p) (totalDestroyed p) (p_store p) (p_next p) (p_dials p) (p_now p).
Definition set_now (t : Z) (p : Pool) : Pool :=
  mkPool (p_opts p) (p_conns p) (p_closed p) (p_stopped p) (totalCreated p) (totalDestroyed p) (p_store p) (p_next p) (p_dials p) t.

Definition connect_options (o : PoolOptions) : ConnectOptions :=
  mkOptions (po_Host o) (po_Port o) (po_DB o) (po_User o) (po_Password o) (ConnTimeout o).

(** [pc.conn.IsOpen()] and [pc.conn.Close()]; the error of the latter is dropped. *)
Definition conn_open (st : Conns) (c : conn_ptr) : bool := match st !! c with Some cn => IsOpen cn | None => false end.
Definition close_conn (c : conn_ptr) : M Pool unit := ignore_err (zoom p_store set_store (at_conn c Conn_Close)).
Definition destroyed_one : M Pool unit := modify (λ p, set_destroyed (totalDestroyed p + 1) p).

Section pool.
Context (dial : nat → string → Connection + string).

Definition dial_once (n : nat) (addr : string) : outcome Connection :=
  match dial n addr with inl c => Ok c | inr e => Err e end.
Definition dialled (p : Pool) : Pool :=
  mkPool (p_opts p) (p_conns p) (p_closed p) (p_stopped p) (totalCreated p) (totalDestroyed p) (p_store p) (p_next p) (S (p_dials p)) (p_now p).
Definition add_conn (conn : Conn) (p : Pool) : Pool :=
  mkPool (p_opts p) (p_conns p) (p_closed p) (p_stopped p) (totalCreated p + 1) (totalDestroyed p)
    (<[p_next p := conn]> (p_store p)) (S (p_next p)) (p_dials p) (p_now p).
Definition createConn : M Pool poolConn := λ p,
  match Connect (dial_once (p_dials p)) (connect_options (p_opts p)) with
  | Ok conn => (Ok (mkPoolConn (p_next p) (p_now p) false), add_conn conn (dialled p))
  | Err e => (Err e, dialled p)
  | Panic => (Panic, dialled p)
  | NoFuel => (NoFuel, dialled p)
  end.

(** The loop that looks for an idle connection that is open. *)
Fixpoint find_idle (st : Conns) (cs : list poolConn) : option (conn_ptr * list poolConn) :=
  match cs with
  | [] => None
  | pc :: cs' =>
      if negb (inUse pc) && conn_open st (pc_conn pc) then Some (pc_conn pc, set_inUse true pc :: cs')
      else '(c, cs'') ← find_idle st cs'; Some (c, pc :: cs'')
  end.
Definition exhausted (o : PoolOptions) : string := "connection pool exhausted (max=" +:+ pretty (MaxConns o) +:+ ")".
Definition Acquire : M Pool conn_ptr :=
  p ← get_state;
  if p_closed p then fail "pool is closed"
  else
    match find_idle (p_store p) (p_conns p) with
    | Some (c, cs) => put_state (set_conns cs p);; mret c
    | None =>
        if bool_decide (Z.of_nat (length (p_conns p)) < MaxConns (p_opts p))%Z then
          pc ← wrap_err "failed to create connection" createConn;
          modify (λ p, set_conns (p_conns p ++ [set_inUse true pc]) p);;
          mret (pc_conn pc)
        else fail (exhausted (p_opts p))
    end.

(** The loop of [Release] ends at the connection. *)
Fixpoint release (c : conn_ptr) (cs : list poolConn) : list poolConn :=
  match cs with
  | [] => []
  | pc :: cs' => if bool_decide (pc_conn pc = c) then set_inUse false pc :: cs' else pc :: release c cs'
  end.
Definition Release (c : conn_ptr) : M Pool unit := modify (λ p, set_conns (release c (p_conns p)) p).

(** The deferred [Release] runs when the function panics, too. *)
Definition and_release (fn : conn_ptr → M Pool unit) (c : conn_ptr) : M Pool unit := λ p,
  let '(r, p') := fn c p in (r, (Release c p').2).
Definition Exec (fn : conn_ptr → M Pool unit) : M Pool unit := c ← Acquire; and_release fn c.

Record PoolStats := mkStats {
  TotalConns : nat; IdleConns : nat; InUseConns : nat; ps_MaxConns : Z; ps_MinConns : Z; ps_TotalCreated : Z; ps_TotalDestroyed : Z;
}.
Definition Stats (p : Pool) : PoolStats :=
  let '(total, idle, used) :=
    foldl (λ '(total, idle, used) pc, if inUse pc then (S total, idle, S used) else (S total, S idle, used)) (0, 0, 0) (p_conns p) in
  mkStats total idle used (MaxConns (p_opts p)) (MinConns (p_opts p)) (totalCreated p) (totalDestroyed p).

(** The first loop of [removeStaleConns]. *)
Fixpoint stale_loop (cs alive : list poolConn) : M Pool (list poolConn) :=
  match cs with
  | [] => mret alive
  | pc :: cs' =>
      p ← get_state;
      if inUse pc then stale_loop cs' (alive ++ [pc])
      else if bool_decide (ConnMaxLifetime (p_opts p) < p_now p - createdAt pc)%Z then
        close_conn (pc_conn pc);; destroyed_one;; stale_loop cs' alive
      else if conn_open (p_store p) (pc_conn pc) then stale_loop cs' (alive ++ [pc])
      else destroyed_one;; stale_loop cs' alive
  end.
(** The second loop adds a connection in each of the [n] rounds that are missing. *)
Fixpoint min_loop (n : nat) (alive : list poolConn) : M Pool (list poolConn) :=
  match n with
  | O => mret alive
  | S n' =>
      λ p, match createConn p with
           | (Ok pc, p') => min_loop n' (alive ++ [pc]) p'
           | (Err _, p') => (Ok alive, p')
           | (Panic, p') => (Panic, p')
           | (NoFuel, p') => (NoFuel, p')
           end
  end.
Definition missing (o : PoolOptions) (alive : list poolConn) : nat := Z.to_nat (MinConns o - Z.of_nat (length alive)).
Definition removeStaleConns : M Pool unit :=
  p ← get_state;
  alive ← stale_loop (p_conns p) [];
  alive ← min_loop (missing (p_opts p) alive) alive;
  modify (set_conns alive).

(** [Close] up to the end of its first critical section; after the health check has
    stopped, the second. *)
Definition Close_begin (p : Pool) : Pool := set_closed true (p_stopped p) p.
Fixpoint close_all (cs : list poolConn) : M Pool unit :=
  match cs with [] => mret () | pc :: cs' => close_conn (pc_conn pc);; destroyed_one;; close_all cs' end.
Definition Close_end : M Pool unit :=
  modify (set_closed true true);;
  p ← get_state;
  close_all (p_conns p);;
  modify (set_conns []).

(** The loop of [NewPool], from connection [i] on. *)
Fixpoint initial_conns (n i : nat) : M Pool unit :=
  match n with
  | O => mret ()
  | S n' =>
      λ p, match createConn p with
           | (Ok pc, p') => initial_conns n' (S i) (set_conns (p_conns p' ++ [pc]) p')
           | (Err e, p') =>
               let '(_, p'') := Close_end (Close_begin p') in
               (Err ("failed to create initial connection " +:+ pretty i +:+ ": " +:+ e), p'')
           | (Panic, p') => (Panic, p')
           | (NoFuel, p') => (NoFuel, p')
           end
  end.
Definition empty_pool (o : PoolOptions) (st : Conns) (next : conn_ptr) (now : Z) : Pool :=
  mkPool o [] false false 0 0 st next 0 now.
(** [make] panics when its capacity is negative. *)
Definition NewPool (opts : PoolOptions) (st : Conns) (next : conn_ptr) (now : Z) : outcome unit * Pool :=
  let opts := PoolOptions_defaults opts in
  let p := empty_pool opts st next now in
  if bool_decide (MaxConns opts < MinConns opts)%Z then
    (Err ("MinConns (" +:+ pretty (MinConns opts) +:+ ") cannot be greater than MaxConns (" +:+ pretty (MaxConns opts) +:+ ")"), p)
  else if bool_decide (MaxConns opts < 0)%Z then (Panic, p)
  else initial_conns (Z.to_nat (MinConns opts)) 0 p.

(** ** Runs of a pool *)

(** What happens next: a caller takes, gives back, uses or closes a connection; the ticker of
    the health check fires; [Close] starts or goes on; time passes.  [held] are the
    connections that have been taken and not given back: [Release] takes a connection
    from whoever calls it, so that a second release by a caller who had it before ends
    the hold of the present one. *)
Inductive event :=
| EAcquire
| ERelease (c : conn_ptr)
| EUse (c : conn_ptr) (t : Reply)
| ECloseConn (c : conn_ptr)
| ETick
| ECloseBegin
| ECloseEnd
| EPass (t : Z).
Context `{Wire} `{DriverJson}.
Definition pool_step (e : event) (s : Pool * list conn_ptr) : Pool * list conn_ptr :=
  let '(p, held) := s in
  match e with
  | EAcquire => match Acquire p with (Ok c, p') => (p', held ++ [c]) | (_, p') => (p', held) end
  | ERelease c => ((Release c p).2, filter (λ c', c' ≠ c) held)
  | EUse c t => ((zoom p_store set_store (at_conn c (run_on t)) p).2, held)
  | ECloseConn c => ((close_conn c p).2, held)
  | ETick => (if p_stopped p then p else (removeStaleConns p).2, held)
  | ECloseBegin => (Close_begin p, held)
  | ECloseEnd => (if p_closed p && negb (p_stopped p) then (Close_end p).2 else p, held)
  | EPass t => (set_now (p_now p + Z.max 0 t) p, held)
  end.
Definition pool_run (es : list event) (s : Pool * list conn_ptr) : Pool * list conn_ptr := foldl (λ s e, pool_step e s) s es.
End pool.

(** ** Connecting ends *)

Lemma net_Read_one segs b bs segs' : net_Read 1 segs = Some (b :: bs, segs') → length (concat segs) = S (length (concat segs')).
Proof.
  induction segs as [|[|x seg] segs IH]; [done|exact IH|]. cbn [net_Read]. intros [= -> <- <-]. cbn. rewrite drop_0. done.
Qed.
Lemma until_null_ends fuel : ∀ buf c, length (concat (c_net c)) < fuel →
  (∃ bs c', until_null fuel buf c = (Ok bs, c')) ∨ (∃ e c', until_null fuel buf c = (Err e, c')).
Proof.
  induction fuel as [|fuel IH]; intros buf c Hf; [lia|]. cbn [until_null].
  destruct (net_Read 1 (c_net c)) as [[[|b bs] net]|] eqn:Hr;
    [right; eexists _, _; apply bind_err; unfold read_byte; by rewrite Hr| |right; eexists _, _; apply bind_err; unfold read_byte; by rewrite Hr].
  rewrite (bind_ok _ _ c b (set_input net (c_buf c) c)) by (unfold read_byte; by rewrite Hr).
  case_bool_decide; [left; by eexists _, _|]. apply IH. apply net_Read_one in Hr. cbn. lia.
Qed.
(** A computation that returns, with a value or an error, and leaves the connection
    open or closed as it was. *)
Definition ends {A} (m : M Conn A) : Prop := ∀ c,
  (∃ a c', m c = (Ok a, c') ∧ cn_closed c' = cn_closed c) ∨ (∃ e c', m c = (Err e, c')).
Lemma conn_ends_bind {A B} (m : M Conn A) (f : A → M Conn B) : ends m → (∀ a, ends (f a)) → ends (m ≫= f).
Proof.
  intros Hm Hf c. destruct (Hm c) as [(a & c1 & Hr & Hc)|(e & c1 & Hr)]; [|right; eexists _, _; by eapply bind_err].
  mstep Hr. destruct (Hf a c1) as [(b & c2 & Hr2 & Hc2)|Herr]; [left; eexists _, _; split; [done|congruence]|by right].
Qed.
Lemma ends_net {A} (m : M Connection A) : (∀ n, (∃ a n', m n = (Ok a, n')) ∨ (∃ e n', m n = (Err e, n'))) → ends (on_net m).
Proof.
  intros Hm c. unfold on_net, zoom. destruct (Hm (cn_net c)) as [(a & n & Hr)|(e & n & Hr)]; rewrite Hr; [left|right]; by eexists _, _.
Qed.
Lemma handshake_ends : ends handshake.
Proof.
  assert (∀ data, ends (on_net (Write data))) as Hw.
  { intros data. apply ends_net. intros n. unfold Write. destruct (c_faults n) as [|[]]; [left|right|left]; by eexists _, _. }
  unfold handshake. repeat (apply conn_ends_bind; [apply Hw|intros _]). apply conn_ends_bind.
  - apply ends_net. intros n. apply (until_null_ends (input_fuel n) [] n). unfold input_fuel. lia.
  - intros resp. cbv zeta. case_bool_decide; intros c; [right|left]; by eexists _, _.
Qed.
(** [Connect] gives an open connection or an error. *)
Lemma Connect_ends dial opts : (∀ a, (∃ n, dial a = Ok n) ∨ (∃ e, dial a = Err e)) →
  (∃ c, Connect dial opts = Ok c ∧ IsOpen c = true) ∨ (∃ e, Connect dial opts = Err e).
Proof.
  intros Hd. unfold Connect. destruct (Hd (Host (ConnectOptions_defaults opts) +:+ ":" +:+ pretty (Port (ConnectOptions_defaults opts)))) as [(n & ->)|(e & ->)]; [|right; by eexists].
  set (c := newConn _ _ _ _). destruct (handshake_ends c) as [(u & c' & -> & Hc)|(e & c' & ->)]; [left; exists c'|right; by eexists].
  split; [done|]. unfold IsOpen. by rewrite Hc.
Qed.

(** ** The steps *)

(** The connections [cs] are those of the pool, or those that a method is about to
    make its connections. *)
Record conns_ok (cs : list poolConn) (p : Pool) : Prop := {
  ok_limits : (0 ≤ MaxConns (p_opts p))%Z ∧ (MinConns (p_opts p) ≤ MaxConns (p_opts p))%Z;
  ok_length : (Z.of_nat (length cs) ≤ MaxConns (p_opts p))%Z;
  ok_nodup : NoDup (pc_conn <$> cs);
  ok_known c : c ∈ pc_conn <$> cs → is_Some (p_store p !! c);
  ok_fresh c : is_Some (p_store p !! c) → c < p_next p;
  ok_count : totalCreated p = (totalDestroyed p + Z.of_nat (length cs))%Z;
}.
Abbreviation pool_ok p := (conns_ok (p_conns p) p).
(** The connections in use. *)
Definition used (cs : list poolConn) : list conn_ptr := pc_conn <$> filter (λ pc, inUse pc = true) cs.
#[local] Arguments used : simpl never.
Record held_ok (p : Pool) (held : list conn_ptr) : Prop := {
  held_nodup : NoDup held;
  held_known c : c ∈ held → is_Some (p_store p !! c);
  held_used : p_stopped p = false → ∀ c, c ∈ held ↔ c ∈ used (p_conns p);
  held_stopped : p_stopped p = true → p_closed p = true ∧ p_conns p = [];
}.

Lemma elem_of_used cs c : c ∈ used cs ↔ ∃ pc, pc ∈ cs ∧ pc_conn pc = c ∧ inUse pc = true.
Proof. unfold used. rewrite list_elem_of_fmap. setoid_rewrite list_elem_of_filter. naive_solver. Qed.
Lemma used_app l k : used (l ++ k) = used l ++ used k.
Proof. unfold used. by rewrite filter_app, fmap_app. Qed.
Lemma used_cons pc l : used (pc :: l) = if inUse pc then pc_conn pc :: used l else used l.
Proof. unfold used. rewrite filter_cons. by destruct (inUse pc). Qed.

Lemma find_idle_some st cs c cs' : find_idle st cs = Some (c, cs') →
  ∃ l1 pc l2, cs = l1 ++ pc :: l2 ∧ cs' = l1 ++ set_inUse true pc :: l2 ∧ pc_conn pc = c ∧ inUse pc = false ∧ conn_open st c = true.
Proof.
  revert cs'. induction cs as [|pc cs IH]; intros cs' Hf; [done|]. cbn in Hf. destruct (inUse pc) eqn:Hu, (conn_open st (pc_conn pc)) eqn:Ho; cbn in Hf;
    try (destruct (find_idle st cs) as [[c1 cs1]|] eqn:Hrec; [|done]; injection Hf as -> <-;
         destruct (IH _ eq_refl) as (l1 & pc' & l2 & -> & -> & Hrest); by exists (pc :: l1), pc', l2).
  injection Hf as <- <-. by exists [], pc, cs.
Qed.
Lemma find_idle_none st cs : find_idle st cs = None ↔ Forall (λ pc, inUse pc = true ∨ conn_open st (pc_conn pc) = false) cs.
Proof.
  induction cs as [|pc cs IH]; cbn; [by split|]. rewrite Forall_cons, <- IH.
  destruct (inUse pc), (conn_open st (pc_conn pc)), (find_idle st cs) as [[]|]; cbn; naive_solver.
Qed.
Lemma release_conns c cs : pc_conn <$> release c cs = pc_conn <$> cs.
Proof. induction cs as [|pc cs IH]; [done|]. cbn. case_bool_decide; cbn; by rewrite ?IH. Qed.
Lemma release_used c cs c' : NoDup (pc_conn <$> cs) → c' ∈ used (release c cs) ↔ c' ∈ used cs ∧ c' ≠ c.
Proof.
  induction cs as [|pc cs IH]; intros Hnd; [unfold used; cbn; set_solver|]. apply NoDup_cons in Hnd as [Hni Hnd].
  assert (∀ l c', c' ∈ used l → c' ∈ pc_conn <$> l) as Hin.
  { intros l c0 (pc' & ? & <- & _)%elem_of_used. by apply list_elem_of_fmap_2. }
  specialize (IH Hnd). cbn [release]. change (used (pc :: cs)) with (used ([pc] ++ cs)). rewrite used_app, elem_of_app. case_bool_decide as Hc.
  - change (used (set_inUse false pc :: cs)) with (used cs). subst c. split; [intros Hu; split; [by right|intros ->; apply Hni; by apply Hin]|].
    intros [[Hu|Hu] Hne]; [|done]. apply elem_of_used in Hu as (pc' & Hp & <- & _). apply list_elem_of_singleton in Hp as ->. done.
  - change (used (pc :: release c cs)) with (used ([pc] ++ release c cs)). rewrite used_app, elem_of_app, IH. split; [|naive_solver].
    intros [Hu|[Hu Hne]]; [|naive_solver]. split; [by left|]. apply elem_of_used in Hu as (pc' & Hp & <- & _).
    apply list_elem_of_singleton in Hp as ->. done.
Qed.

Section steps.
Context (dial : nat → string → Connection + string).

Lemma createConn_cases p :
  (∃ conn, createConn dial p = (Ok (mkPoolConn (p_next p) (p_now p) false), add_conn conn (dialled p)) ∧ IsOpen conn = true) ∨
  (∃ e, createConn dial p = (Err e, dialled p)).
Proof.
  unfold createConn. destruct (Connect_ends (dial_once dial (p_dials p)) (connect_options (p_opts p))) as [(c & -> & Hc)|(e & ->)].
  - intros a. unfold dial_once. destruct (dial _ a); [left|right]; by eexists.
  - left. by exists c.
  - right. by exists e.
Qed.

Lemma conns_ok_same cs cs' p : pc_conn <$> cs' = pc_conn <$> cs → conns_ok cs p → conns_ok cs' p.
Proof.
  intros He [Hl Hn Hnd Hk Hf Hc]. assert (length cs' = length cs) as Hlen by (by rewrite <- !(length_fmap pc_conn), He).
  split; rewrite ?Hlen, ?He; done.
Qed.
(** A step that keeps the options, the store, the next pointer and the counters. *)
Lemma conns_ok_state cs p p' : p_opts p' = p_opts p → p_store p' = p_store p → p_next p' = p_next p →
  totalCreated p' = totalCreated p → totalDestroyed p' = totalDestroyed p → conns_ok cs p → conns_ok cs p'.
Proof. intros Ho Hs Hn Hc Hd [? ? ? ? ? ?]. split; rewrite ?Ho, ?Hs, ?Hn, ?Hc, ?Hd; done. Qed.
Lemma add_conn_ok cs p conn b : conns_ok cs p → (Z.of_nat (length cs) < MaxConns (p_opts p))%Z →
  conns_ok (cs ++ [mkPoolConn (p_next p) (p_now p) b]) (add_conn conn (dialled p)).
Proof.
  intros [Hl Hn Hnd Hk Hf Hc] Hlt. split; cbn; try done.
  - rewrite length_app. cbn. lia.
  - rewrite fmap_app. apply NoDup_app. split; [done|]. split; [|apply NoDup_singleton]. intros c Hin Hc'%list_elem_of_singleton.
    cbn in Hc'. subst c. apply Hk, Hf in Hin. lia.
  - intros c. rewrite fmap_app. cbn. intros Hin. destruct (decide (p_next p = c)) as [<-|Hne]; [rewrite lookup_insert_eq; by eexists|].
    rewrite lookup_insert_ne by done. apply elem_of_app in Hin as [Hin|Hin%list_elem_of_singleton]; [by apply Hk|congruence].
  - intros c Hin. destruct (decide (p_next p = c)) as [<-|Hne]; [lia|]. rewrite lookup_insert_ne in Hin by done. apply Hf in Hin. lia.
  - rewrite length_app. cbn. lia.
Qed.
Lemma dialled_ok cs p : conns_ok cs p → conns_ok cs (dialled p).
Proof. by apply conns_ok_state. Qed.

(** [Acquire]: a connection is free when it is handed out, and open; without one the
    pool is as it was, but for the attempt to connect. *)
Lemma Acquire_ok p held : pool_ok p → held_ok p held →
  match Acquire dial p with
  | (Ok c, p') => pool_ok p' ∧ held_ok p' (held ++ [c]) ∧ conn_open (p_store p') c = true
  | (r, p') => pool_ok p' ∧ held_ok p' held ∧ ∃ e, r = Err e
  end.
Proof.
  intros Hok Hheld. destruct (Hheld) as [Hnd Hkn Hus Hst]. unfold Acquire, mbind at 1, M_mbind, M_bind at 1, get_state.
  destruct (p_closed p) eqn:Hcl; [split; [done|split; [done|by eexists]]|].
  assert (p_stopped p = false) as Hs. { destruct (p_stopped p); [by destruct Hst|done]. } specialize (Hus Hs).
  destruct (find_idle (p_store p) (p_conns p)) as [[c cs]|] eqn:Hf.
  - apply find_idle_some in Hf as (l1 & pc & l2 & Hcs & -> & <- & Hi & Ho). mrun.
    assert (c_in : pc ∈ p_conns p) by (rewrite Hcs; apply elem_of_app; right; by left).
    assert (pc_conn pc ∉ held) as Hni.
    { rewrite Hus, elem_of_used. intros (pc' & Hin & Hsame & Hu). pose proof (ok_nodup _ _ Hok) as Hdup.
      apply list_elem_of_lookup in Hin as [i Hin], c_in as [j Hj].
      assert (i = j) as ->; [|congruence].
      eapply (NoDup_lookup _ i j (pc_conn pc) Hdup); rewrite list_lookup_fmap; [by rewrite Hin; cbn; rewrite Hsame|by rewrite Hj]. }
    split; [|split; [split|done]].
    + eapply conns_ok_same; [|eapply conns_ok_state; [..|exact Hok]; done]. cbn. rewrite Hcs, !fmap_app. done.
    + apply NoDup_app. split; [done|]. split; [|apply NoDup_singleton]. by intros c Hc ->%list_elem_of_singleton.
    + cbn. intros c [Hc| ->%list_elem_of_singleton]%elem_of_app; [by apply Hkn|]. apply (ok_known _ _ Hok).
      by apply list_elem_of_fmap_2.
    + cbn. intros _ c. rewrite elem_of_app, list_elem_of_singleton, Hus, Hcs, !used_app, !elem_of_app, !used_cons, Hi. cbn. rewrite elem_of_cons. tauto.
    + cbn. congruence.
  - case_bool_decide as Hlt; [|split; [done|split; [done|by eexists]]]. destruct (createConn_cases p) as [(conn & Hr & Ho)|(e & Hr)].
    + mstep (wrap_err_ok "failed to create connection" _ _ _ _ Hr). mrun.
      assert (is_Some (p_store p !! p_next p) → False) as Hfree. { intros Hin. apply (ok_fresh _ _ Hok) in Hin. lia. }
      split; [by eapply conns_ok_state; [..|by apply add_conn_ok]|]. split; [split|]; cbn.
      * apply NoDup_app. split; [done|]. split; [|apply NoDup_singleton]. intros c Hc ->%list_elem_of_singleton. by apply Hfree, Hkn.
      * intros c [Hc| ->%list_elem_of_singleton]%elem_of_app; [|rewrite lookup_insert_eq; by eexists].
        destruct (decide (p_next p = c)) as [<-|Hne]; [rewrite lookup_insert_eq; by eexists|rewrite lookup_insert_ne by done; by apply Hkn].
      * intros _ c. rewrite used_app, !elem_of_app, Hus. done.
      * congruence.
      * unfold conn_open. by rewrite lookup_insert_eq.
    + assert (wrap_err "failed to create connection" (createConn dial) p = (Err ("failed to create connection" +:+ ": " +:+ e), dialled p)) as Hw
        by (unfold wrap_err; by rewrite Hr).
      rewrite (bind_err _ _ _ _ _ Hw). split; [by apply (dialled_ok (p_conns p))|]. split; [by destruct Hheld|by eexists].
Qed.
End steps.

(** What a step may do to the store: connections stay, some change. *)
Definition same_dom (st st' : gmap nat Conn) : Prop := ∀ c, is_Some (st' !! c) ↔ is_Some (st !! c).
Lemma conns_ok_store cs p st : same_dom (p_store p) st → conns_ok cs p → conns_ok cs (set_store st p).
Proof.
  intros Hs [? ? ? Hk Hf ?]. split; cbn; try done; intros c; rewrite (Hs c); [apply Hk|apply Hf].
Qed.
Lemma held_ok_store p held st : same_dom (p_store p) st → held_ok p held → held_ok (set_store st p) held.
Proof. intros Hs [? Hk ? ?]. split; cbn; try done. intros c Hc. rewrite (Hs c). by apply Hk. Qed.
Lemma at_conn_dom {A} c (m : M Conn A) st : same_dom st (at_conn c m st).2.
Proof.
  intros c'. unfold at_conn. destruct (st !! c) as [cn|] eqn:Hc; [|done]. destruct (m cn) as [r cn']. cbn.
  destruct (decide (c = c')) as [<-|Hne]; [rewrite lookup_insert_eq, Hc; split; by eexists|by rewrite lookup_insert_ne].
Qed.

Lemma Release_ok p held c : pool_ok p → held_ok p held →
  pool_ok (Release c p).2 ∧ held_ok (Release c p).2 (filter (λ c', c' ≠ c) held).
Proof.
  intros Hok [Hnd Hkn Hus Hst]. cbn. split.
  - eapply conns_ok_same; [apply release_conns|]. by eapply conns_ok_state; [..|exact Hok].
  - split; cbn.
    + by apply NoDup_filter.
    + intros c' [_ Hc]%list_elem_of_filter. by apply Hkn.
    + intros Hs c'. rewrite list_elem_of_filter, (release_used c) by apply Hok. rewrite Hus by done. tauto.
    + intros Hs. destruct (Hst Hs) as [Hc Hn]. split; [done|]. by rewrite Hn.
Qed.

Definition closed_conn (cn : Conn) : Conn := newConn (cn_net cn) (cn_opts cn) (cn_token cn) true.
Lemma close_conn_run p c cn : p_store p !! c = Some cn → close_conn c p = (Ok (), set_store (<[c := closed_conn cn]> (p_store p)) p).
Proof.
  intros Hc. unfold close_conn, ignore_err, zoom, at_conn. rewrite Hc. unfold Conn_Close, mbind, M_mbind, M_bind, get_state, put_state, closed_conn.
  by destruct (cn_closed cn).
Qed.

(** The connections that a health check keeps. *)
Definition kept (p : Pool) (pc : poolConn) : bool :=
  inUse pc || (bool_decide (p_now p - createdAt pc ≤ ConnMaxLifetime (p_opts p))%Z && conn_open (p_store p) (pc_conn pc)).
Lemma filter_kept p p' (cs : list poolConn) : (∀ pc, pc ∈ cs → kept p' pc = kept p pc) → filter (λ pc, kept p' pc = true) cs = filter (λ pc, kept p pc = true) cs.
Proof.
  induction cs as [|pc cs IH]; intros Hk; [done|]. rewrite !filter_cons, IH by (intros; apply Hk; by right).
  by rewrite (Hk pc) by by left.
Qed.
Definition after_stale (st : gmap nat Conn) (n : nat) (p : Pool) : Pool := set_destroyed (totalDestroyed p + Z.of_nat n) (set_store st p).
Lemma filter_kept_cons p pc (cs : list poolConn) : filter (λ pc, kept p pc = true) (pc :: cs) =
  if kept p pc then pc :: filter (λ pc, kept p pc = true) cs else filter (λ pc, kept p pc = true) cs.
Proof. rewrite filter_cons. by destruct (kept p pc). Qed.
Lemma after_stale_S st st0 n p : after_stale st n (set_destroyed (totalDestroyed p + 1) (set_store st0 p)) = after_stale st (S n) p.
Proof. unfold after_stale, set_destroyed, set_store. cbn. f_equal. lia. Qed.
Lemma stale_loop_run cs : ∀ alive p, (∀ c, c ∈ pc_conn <$> cs → is_Some (p_store p !! c)) → NoDup (pc_conn <$> cs) →
  ∃ st n, stale_loop cs alive p = (Ok (alive ++ filter (λ pc, kept p pc = true) cs), after_stale st n p) ∧
    n + length (filter (λ pc, kept p pc = true) cs) = length cs ∧ same_dom (p_store p) st ∧
    (∀ c, (∀ pc, pc ∈ cs → pc_conn pc = c → kept p pc = true) → st !! c = p_store p !! c).
Proof.
  induction cs as [|pc cs IH]; intros alive p Hk Hnd.
  { exists (p_store p), 0. rewrite app_nil_r. cbn. split; [|done]. unfold after_stale. rewrite Z.add_0_r. by destruct p. }
  apply NoDup_cons in Hnd as [Hni Hnd]. assert (∀ c, c ∈ pc_conn <$> cs → is_Some (p_store p !! c)) as Hk' by (intros; apply Hk; by right).
  assert (∀ al, kept p pc = true → ∃ st n, stale_loop cs (al ++ [pc]) p = (Ok (al ++ pc :: filter (λ pc, kept p pc = true) cs), after_stale st n p) ∧
    n + length (pc :: filter (λ pc, kept p pc = true) cs) = length (pc :: cs) ∧ same_dom (p_store p) st ∧
    (∀ c, (∀ pc', pc' ∈ pc :: cs → pc_conn pc' = c → kept p pc' = true) → st !! c = p_store p !! c)) as Hkeep.
  { intros al Hkp. destruct (IH (al ++ [pc]) p Hk' Hnd) as (st & n & Hr & Hl & Hd & Hs). exists st, n. rewrite <- app_assoc in Hr. split; [exact Hr|].
    split; [cbn; lia|]. split; [done|]. intros c Hc. apply Hs. intros pc' Hin. apply Hc. by right. }
  rewrite filter_kept_cons. cbn [stale_loop]. unfold mbind at 1, M_mbind, M_bind at 1, get_state.
  destruct (inUse pc) eqn:Hu; [assert (kept p pc = true) as Hkp by (unfold kept; by rewrite Hu); rewrite Hkp; by apply Hkeep|].
  case_bool_decide as Hold.
  - assert (kept p pc = false) as Hkp by (unfold kept; rewrite Hu, bool_decide_eq_false_2 by lia; done). rewrite Hkp.
    destruct (Hk (pc_conn pc)) as [cn Hcn]; [by left|]. rewrite (bind_ok _ _ _ _ _ (close_conn_run _ _ _ Hcn)).
    set (p1 := set_store _ p). unfold destroyed_one. rewrite (bind_ok (modify _) _ p1 () (set_destroyed (totalDestroyed p1 + 1) p1)) by done.
    set (p2 := set_destroyed _ _). assert (∀ c, c ∈ pc_conn <$> cs → is_Some (p_store p2 !! c)) as Hk2.
    { intros c Hc. cbn. rewrite lookup_insert_ne by (intros <-; done). by apply Hk'. }
    assert (∀ pc', pc' ∈ cs → kept p2 pc' = kept p pc') as Hkk.
    { intros pc' Hin. unfold kept, conn_open. cbn. rewrite lookup_insert_ne; [done|]. intros He. apply Hni, list_elem_of_fmap. by exists pc'. }
    destruct (IH alive p2 Hk2 Hnd) as (st & n & Hr & Hl & Hd & Hs). rewrite (filter_kept p p2 cs Hkk) in Hr, Hl. exists st, (S n).
    split; [rewrite Hr; unfold p2, p1; by rewrite <- (after_stale_S st (<[pc_conn pc := closed_conn cn]> (p_store p)))|]. split; [cbn; lia|]. split.
    + intros c. rewrite (Hd c). cbn. destruct (decide (pc_conn pc = c)) as [<-|Hne]; [rewrite lookup_insert_eq, Hcn; split; by eexists|by rewrite lookup_insert_ne].
    + intros c Hc. destruct (decide (pc_conn pc = c)) as [<-|Hne]; [specialize (Hc pc (list_elem_of_here _ _) eq_refl); congruence|].
      rewrite Hs; [cbn; by rewrite lookup_insert_ne|]. intros pc' Hin He. rewrite Hkk by done. apply Hc; [by right|done].
  - destruct (conn_open (p_store p) (pc_conn pc)) eqn:Ho.
    + assert (kept p pc = true) as Hkp by (unfold kept; rewrite Hu, Ho, bool_decide_eq_true_2 by lia; done). rewrite Hkp. by apply Hkeep.
    + assert (kept p pc = false) as Hkp by (unfold kept; rewrite Hu, Ho, andb_false_r; done). rewrite Hkp.
      unfold destroyed_one. rewrite (bind_ok (modify _) _ p () (set_destroyed (totalDestroyed p + 1) p)) by done. set (p2 := set_destroyed _ _).
      destruct (IH alive p2 Hk' Hnd) as (st & n & Hr & Hl & Hd & Hs). rewrite (filter_kept p p2 cs (λ _ _, eq_refl)) in Hr, Hl. exists st, (S n).
      split; [rewrite Hr; by rewrite <- (after_stale_S st (p_store p))|]. split; [cbn; lia|]. split; [exact Hd|].
      intros c Hc. apply (Hs c). intros pc' Hin. apply Hc. by right.
Qed.

Section steps2.
Context (dial : nat → string → Connection + string).

(** A loop of attempts to connect. *)
Definition same_frame (p p' : Pool) : Prop :=
  p_opts p' = p_opts p ∧ p_conns p' = p_conns p ∧ p_closed p' = p_closed p ∧ p_stopped p' = p_stopped p ∧ p_now p' = p_now p.
(** The attempts of a computation succeed. *)
Definition reachable (o : PoolOptions) : Prop := ∀ n, ∃ c, Connect (dial_once dial n) (connect_options o) = Ok c.
Lemma min_loop_run n : ∀ alive p, conns_ok alive p → (Z.of_nat (length alive + n) ≤ MaxConns (p_opts p))%Z →
  ∃ new p', min_loop dial n alive p = (Ok (alive ++ new), p') ∧ conns_ok (alive ++ new) p' ∧ same_frame p p' ∧
    (∀ c, is_Some (p_store p !! c) → p_store p' !! c = p_store p !! c) ∧
    (∀ pc, pc ∈ new → inUse pc = false ∧ createdAt pc = p_now p ∧ conn_open (p_store p') (pc_conn pc) = true) ∧
    (reachable (p_opts p) → length new = n).
Proof.
  induction n as [|n IH]; intros alive p Hok Hl.
  { exists [], p. rewrite app_nil_r. split; [done|]. split; [done|]. split; [by split|]. split; [done|]. split; [by intros pc ?%elem_of_nil|done]. }
  cbn [min_loop]. destruct (createConn_cases dial p) as [(conn & Hr & Ho)|(e & Hr)]; rewrite Hr.
  - set (p1 := add_conn conn (dialled p)). destruct (IH (alive ++ [mkPoolConn (p_next p) (p_now p) false]) p1) as (new & p' & Hm & Hok' & Hsame & Hst & Hnew & Hn).
    + apply add_conn_ok; [done|lia].
    + rewrite length_app. cbn. lia.
    + exists (mkPoolConn (p_next p) (p_now p) false :: new), p'. rewrite <- app_assoc in Hm, Hok'. split; [exact Hm|]. split; [exact Hok'|]. split; [exact Hsame|].
      assert (p_store p1 !! p_next p = Some conn) as Hfresh by (cbn; by rewrite lookup_insert_eq). split; [|split].
      * intros c Hc. assert (c ≠ p_next p) as Hne. { intros ->. apply (ok_fresh _ _ Hok) in Hc. lia. }
        rewrite Hst; cbn; by rewrite lookup_insert_ne.
      * intros pc [->|Hin]%elem_of_cons; [|by apply Hnew]. cbn. unfold conn_open. rewrite Hst; by rewrite Hfresh.
      * intros Hre. cbn. f_equal. by apply Hn.
  - exists [], (dialled p). rewrite app_nil_r. split; [done|]. split; [by apply dialled_ok|]. split; [by split|]. split; [done|].
    split; [by intros pc ?%elem_of_nil|]. intros Hre. destruct (Hre (p_dials p)) as [c Hc]. unfold createConn in Hr. by rewrite Hc in Hr.
Qed.

(** What a health check does. *)
Record checked (p p' : Pool) : Prop := {
  ck_frame : p_opts p' = p_opts p ∧ p_closed p' = p_closed p ∧ p_stopped p' = p_stopped p ∧ p_now p' = p_now p;
  ck_known c : is_Some (p_store p !! c) → is_Some (p_store p' !! c);
  ck_used pc : inUse pc = true → pc ∈ p_conns p' ↔ pc ∈ p_conns p;
  ck_spared c : c ∈ used (p_conns p) → p_store p' !! c = p_store p !! c;
  ck_idle pc : pc ∈ p_conns p' → inUse pc = false →
    conn_open (p_store p') (pc_conn pc) = true ∧ (p_now p - createdAt pc ≤ Z.max 0 (ConnMaxLifetime (p_opts p)))%Z;
  ck_min : reachable (p_opts p) → (MinConns (p_opts p) ≤ Z.of_nat (length (p_conns p')))%Z;
}.
Lemma removeStaleConns_ok p : pool_ok p → ∃ p', removeStaleConns dial p = (Ok (), p') ∧ pool_ok p' ∧ checked p p'.
Proof.
  intros Hok. unfold removeStaleConns, mbind at 1, M_mbind, M_bind at 1, get_state.
  destruct (stale_loop_run (p_conns p) [] p (ok_known _ _ Hok) (ok_nodup _ _ Hok)) as (st & n & Hr & Hl & Hd & Hs).
  set (alive := filter (λ pc, kept p pc = true) (p_conns p)) in *. cbn [app] in Hr. mstep Hr. set (p1 := after_stale st n p).
  assert (conns_ok alive p1) as Hok1.
  { destruct Hok as [Hlim Hlen Hnd Hk Hf Hc]. assert (alive `sublist_of` p_conns p) as Hsub by (apply sublist_filter).
    split; cbn; [done|lia| | | |lia].
    - eapply (sublist_NoDup _ _ Hnd). by apply fmap_sublist.
    - intros c Hin. rewrite (Hd c). apply Hk. apply list_elem_of_fmap in Hin as (pc & -> & Hin).
      apply list_elem_of_filter in Hin as [_ Hin]. by apply list_elem_of_fmap_2.
    - intros c. rewrite (Hd c). apply Hf. }
  destruct (min_loop_run (missing (p_opts p) alive) alive p1 Hok1) as (new & p2 & Hm & Hok2 & (Ho & _ & Hcl & Hstp & Hnow) & Hst & Hnew & Hn).
  { unfold missing. destruct (ok_limits _ _ Hok). pose proof (ok_length _ _ Hok1) as Hlen1. cbn in *. lia. }
  mstep Hm. exists (set_conns (alive ++ new) p2). split; [done|]. split; [by eapply conns_ok_state; [..|exact Hok2]|].
  assert (∀ pc, pc ∈ p_conns p → kept p pc = true → p_store p2 !! pc_conn pc = p_store p !! pc_conn pc) as Hsp.
  { intros pc Hin Hkp. assert (is_Some (p_store p1 !! pc_conn pc)) as Hin1.
    { cbn. rewrite (Hd _). apply (ok_known _ _ Hok). by apply list_elem_of_fmap_2. }
    rewrite (Hst _ Hin1). cbn. apply Hs. intros pc' Hin' He. assert (pc' = pc) as ->; [|done].
    apply list_elem_of_lookup in Hin as [i Hi], Hin' as [j Hj]. pose proof (ok_nodup _ _ Hok) as Hnd.
    assert (j = i) as ->; [|congruence]. eapply (NoDup_lookup _ j i (pc_conn pc) Hnd); rewrite list_lookup_fmap; [by rewrite Hj; cbn; rewrite He|by rewrite Hi]. }
  split; cbn.
  - by rewrite Ho, Hcl, Hstp, Hnow.
  - intros c Hc. rewrite (Hst c); cbn; by rewrite (Hd c).
  - intros pc Hu. rewrite elem_of_app. unfold alive. rewrite list_elem_of_filter. split.
    + intros [[_ Hin]|Hin]; [done|]. apply Hnew in Hin as [Hi _]. congruence.
    + intros Hin. left. split; [unfold kept; by rewrite Hu|done].
  - intros c (pc & Hin & <- & Hu)%elem_of_used. apply Hsp; [done|]. unfold kept. by rewrite Hu.
  - intros pc [Hin|Hin]%elem_of_app Hi.
    + unfold alive in Hin. apply list_elem_of_filter in Hin as [Hkp Hin]. pose proof (Hsp pc Hin Hkp) as Hsame. unfold kept in Hkp. rewrite Hi in Hkp. cbn in Hkp.
      apply andb_prop in Hkp as [Hage%bool_decide_eq_true Hopen]. split; [|lia]. unfold conn_open in *. by rewrite Hsame.
    + destruct (Hnew pc Hin) as (_ & Hca & Hopen). split; [done|]. cbn in Hca. lia.
  - intros Hre. rewrite length_app, (Hn Hre). unfold missing. lia.
Qed.
End steps2.

Section runs.
Context (dial : nat → string → Connection + string) `{Wire} `{DriverJson}.

(** Closing ends with a pool without connections. *)
Lemma close_all_run cs : ∀ p, (∀ c, c ∈ pc_conn <$> cs → is_Some (p_store p !! c)) →
  ∃ st, close_all cs p = (Ok (), after_stale st (length cs) p) ∧ same_dom (p_store p) st.
Proof.
  induction cs as [|pc cs IH]; intros p Hk.
  { exists (p_store p). unfold after_stale. cbn. rewrite Z.add_0_r. by destruct p. }
  cbn [close_all]. destruct (Hk (pc_conn pc)) as [cn Hcn]; [by left|]. rewrite (bind_ok _ _ _ _ _ (close_conn_run _ _ _ Hcn)). set (p1 := set_store _ p).
  unfold destroyed_one. rewrite (bind_ok (modify _) _ p1 () (set_destroyed (totalDestroyed p1 + 1) p1)) by done. set (p2 := set_destroyed _ _).
  assert (same_dom (p_store p) (p_store p2)) as Hd2.
  { intros c. cbn. destruct (decide (pc_conn pc = c)) as [<-|Hne]; [rewrite lookup_insert_eq, Hcn; split; by eexists|by rewrite lookup_insert_ne]. }
  destruct (IH p2) as (st & Hr & Hd); [intros c Hc; rewrite (Hd2 c); apply Hk; by right|].
  exists st. split; [rewrite Hr; unfold p2, p1; cbn [length]; by rewrite <- (after_stale_S st (<[pc_conn pc := closed_conn cn]> (p_store p)))|].
  intros c. by rewrite (Hd c), (Hd2 c).
Qed.
Lemma Close_end_run p : pool_ok p → ∃ st, same_dom (p_store p) st ∧
  Close_end p = (Ok (), set_conns [] (after_stale st (length (p_conns p)) (set_closed true true p))).
Proof.
  intros Hok. destruct (close_all_run (p_conns p) (set_closed true true p) (ok_known _ _ Hok)) as (st & Hr & Hd). exists st. split; [exact Hd|].
  unfold Close_end. rewrite (bind_ok (modify _) _ p () (set_closed true true p)) by done.
  rewrite (bind_ok get_state _ _ (set_closed true true p) (set_closed true true p)) by done. change (p_conns (set_closed true true p)) with (p_conns p).
  by mstep Hr.
Qed.
Lemma Close_end_ok p held : pool_ok p → held_ok p held → pool_ok (Close_end p).2 ∧ held_ok (Close_end p).2 held.
Proof.
  intros Hok [Hnd Hkn _ _]. destruct (Close_end_run p Hok) as (st & Hd & ->). destruct Hok as [Hl _ _ Hk Hf Hc].
  split; split; cbn; try done; try lia.
  - apply NoDup_nil_2.
  - by intros c ?%elem_of_nil.
  - intros c. rewrite (Hd c). apply Hf.
  - intros c Hin. rewrite (Hd c). by apply Hkn.
Qed.

Lemma pool_step_ok e p held p' held' : pool_step dial e (p, held) = (p', held') → pool_ok p → held_ok p held → pool_ok p' ∧ held_ok p' held'.
Proof.
  intros Hst Hok Hheld. destruct e as [|c|c t|c| | | |t]; cbn [pool_step] in Hst.
  - pose proof (Acquire_ok dial p held Hok Hheld) as Ha. destruct (Acquire dial p) as [[c|e| |] q]; injection Hst as <- <-; naive_solver.
  - injection Hst as <- <-. by apply Release_ok.
  - pose proof (at_conn_dom c (run_on t) (p_store p)) as Hd. unfold zoom in Hst. destruct (at_conn c (run_on t) (p_store p)) as [r st]. injection Hst as <- <-.
    split; [by apply (conns_ok_store (p_conns p))|by apply held_ok_store].
  - pose proof (at_conn_dom c Conn_Close (p_store p)) as Hd. unfold close_conn, ignore_err, zoom in Hst.
    destruct (at_conn c Conn_Close (p_store p)) as [[u|e| |] st]; injection Hst as <- <-; (split; [by apply (conns_ok_store (p_conns p))|by apply held_ok_store]).
  - destruct (p_stopped p) eqn:Hs; [by injection Hst as <- <-|]. destruct (removeStaleConns_ok dial p Hok) as (q & Hr & Hokq & [(Ho & Hc & Hp & Hn) Hk Hu Hsp Hi Hm]).
    rewrite Hr in Hst. injection Hst as <- <-. split; [done|]. destruct Hheld as [Hnd Hkn Hus Hstp]. split; [done|..].
    + intros c Hc'. by apply Hk, Hkn.
    + intros _ c. rewrite Hus, !elem_of_used by done. split; intros (pc & Hin & He & Hin'); exists pc; (split; [by apply (Hu pc Hin')|done]).
    + congruence.
  - injection Hst as <- <-. split; [by eapply conns_ok_state; [..|exact Hok]|]. destruct Hheld. split; cbn; try done. naive_solver.
  - destruct (p_closed p && negb (p_stopped p)); [|by injection Hst as <- <-]. injection Hst as <- <-. by apply Close_end_ok.
  - injection Hst as <- <-. split; [by eapply conns_ok_state; [..|exact Hok]|]. by destruct Hheld.
Qed.
Lemma pool_run_ok es : ∀ s, pool_ok s.1 → held_ok s.1 s.2 → pool_ok (pool_run dial es s).1 ∧ held_ok (pool_run dial es s).1 (pool_run dial es s).2.
Proof.
  induction es as [|e es IH]; intros [p held] Hok Hh; [done|]. change (pool_run dial (e :: es) (p, held)) with (pool_run dial es (pool_step dial e (p, held))).
  destruct (pool_step dial e (p, held)) as [p1 h1] eqn:Hst. destruct (pool_step_ok _ _ _ _ _ Hst Hok Hh) as [Hok1 Hh1]. by apply IH.
Qed.

(** A new pool: of connections that are idle; or the error, and no connection is left. *)
Definition idle (cs : list poolConn) : Prop := Forall (λ pc, inUse pc = false) cs.
Lemma initial_conns_ok n : ∀ i p, pool_ok p → idle (p_conns p) → p_closed p = false → p_stopped p = false →
  (Z.of_nat (length (p_conns p) + n) ≤ MaxConns (p_opts p))%Z →
  match initial_conns dial n i p with
  | (Ok _, p') => pool_ok p' ∧ held_ok p' [] ∧ p_closed p' = false ∧ p_opts p' = p_opts p ∧ length (p_conns p') = length (p_conns p) + n
  | (r, p') => pool_ok p' ∧ p_closed p' = true ∧ p_conns p' = [] ∧ ∃ e, r = Err e
  end.
Proof.
  assert (∀ p, pool_ok p → idle (p_conns p) → p_stopped p = false → held_ok p []) as Hheld.
  { intros p _ Hi Hs. split; [constructor|by intros c ?%elem_of_nil| |congruence]. intros _ c. rewrite elem_of_used. split; [by intros ?%elem_of_nil|].
    intros (pc & Hin & _ & Hu). unfold idle in Hi. rewrite Forall_forall in Hi. apply Hi in Hin. congruence. }
  induction n as [|n IH]; intros i p Hok Hi Hc Hs Hl.
  { cbn. rewrite Nat.add_0_r. split_and!; try done. by apply Hheld. }
  cbn [initial_conns]. destruct (createConn_cases dial p) as [(conn & Hr & _)|(e & Hr)]; rewrite Hr.
  - set (p1 := add_conn conn (dialled p)). set (pc := mkPoolConn _ _ _). specialize (IH (S i) (set_conns (p_conns p1 ++ [pc]) p1)).
    assert (pool_ok (set_conns (p_conns p1 ++ [pc]) p1)) as Hok1.
    { eapply conns_ok_state; [..|apply (add_conn_ok (p_conns p) p conn false Hok); lia]; done. }
    specialize (IH Hok1). cbn in IH. rewrite !length_app in IH. cbn in IH.
    assert (idle (p_conns p ++ [pc])) as Hi1 by (apply Forall_app; split; [done|by repeat constructor]).
    specialize (IH Hi1 Hc Hs ltac:(lia)). destruct (initial_conns _ _ _ _) as [[]]; [|exact IH..]. destruct IH as (? & ? & ? & ? & Hlen). split_and!; [done..|rewrite Hlen; lia].
  - set (p1 := Close_begin (dialled p)). assert (pool_ok p1) as Hok1 by (by eapply conns_ok_state; [..|exact Hok]).
    assert (held_ok p1 []) as Hh1 by (by apply Hheld).
    destruct (Close_end_ok p1 [] Hok1 Hh1) as [Hok2 _]. destruct (Close_end_run p1 Hok1) as (st & _ & Hce). rewrite Hce in Hok2 |- *.
    split_and!; try done. by eexists.
Qed.
Lemma empty_pool_ok o st next now : (∀ c, is_Some (st !! c) → c < next) → (0 ≤ MaxConns o)%Z → (MinConns o ≤ MaxConns o)%Z → pool_ok (empty_pool o st next now).
Proof. intros Hf Hm Hmm. split; cbn; try done; [apply NoDup_nil_2|by intros c ?%elem_of_nil]. Qed.
Lemma NewPool_ok opts st next now p : (∀ c, is_Some (st !! c) → c < next) → NewPool dial opts st next now = (Ok (), p) →
  pool_ok p ∧ held_ok p [] ∧ p_closed p = false ∧ p_opts p = PoolOptions_defaults opts.
Proof.
  intros Hf Hn. unfold NewPool in Hn. cbv zeta in Hn. case_bool_decide as H1; [done|]. case_bool_decide as H2; [done|].
  set (o := PoolOptions_defaults opts) in *. pose proof (initial_conns_ok (Z.to_nat (MinConns o)) 0 (empty_pool o st next now)) as Hi. rewrite Hn in Hi.
  destruct Hi as (? & ? & ? & ? & _); [apply empty_pool_ok; [done|lia|lia]|by apply Forall_nil|done|done|cbn [empty_pool p_conns p_opts length]; lia|]. done.
Qed.
End runs.

(** C34: the connections of a pool.  Whatever callers and the network do, in whatever order: a connection
    that was handed out and not given back is not handed out again, and is one of those
    the pool counts as in use; a connection is open when it is handed out; the pool has at most
    [MaxConns] connections, and the counters of [Stats] account for each of them. *)
Theorem pool_is_exclusive `{Wire} `{DriverJson} dial opts st next now p0 es :
  (∀ c, is_Some (st !! c) → c < next) → NewPool dial opts st next now = (Ok (), p0) →
  let '(p, held) := pool_run dial es (p0, []) in
  NoDup held ∧ (Z.of_nat (length (p_conns p)) ≤ MaxConns (p_opts p))%Z ∧
  totalCreated p = (totalDestroyed p + Z.of_nat (length (p_conns p)))%Z ∧
  (p_stopped p = false → ∀ c, c ∈ held ↔ ∃ pc, pc ∈ p_conns p ∧ pc_conn pc = c ∧ inUse pc = true) ∧
  ∀ c p', Acquire dial p = (Ok c, p') → c ∉ held ∧ conn_open (p_store p') c = true.
Proof.
  intros Hf Hn. apply NewPool_ok in Hn as (Hok & Hh & _ & _); [|done]. pose proof (pool_run_ok dial es (p0, []) Hok Hh) as [Hok' Hh'].
  destruct (pool_run dial es (p0, [])) as [p held]. cbn in Hok', Hh'. split; [apply Hh'|]. split; [apply Hok'|]. split; [apply Hok'|]. split.
  - intros Hs c. rewrite (held_used _ _ Hh' Hs). apply elem_of_used.
  - intros c p' Ha. pose proof (Acquire_ok dial p held Hok' Hh') as Hacq. rewrite Ha in Hacq. destruct Hacq as (_ & [Hnd _ _ _] & Ho). split; [|done].
    intros Hin. apply NoDup_app in Hnd as (_ & Hd & _). by apply (Hd c Hin), list_elem_of_singleton.
Qed.

(** A health check repairs the pool.  It leaves the connections in use alone, every
    idle connection it leaves is open and not past its lifetime, and, when the server can
    be reached, there are [MinConns] of them or more again, and a caller gets a
    connection unless callers hold [MaxConns]. *)
Theorem health_check_repairs `{Wire} `{DriverJson} dial opts st next now p0 es :
  (∀ c, is_Some (st !! c) → c < next) → NewPool dial opts st next now = (Ok (), p0) →
  let '(p, held) := pool_run dial es (p0, []) in
  p_stopped p = false →
  ∃ p', removeStaleConns dial p = (Ok (), p') ∧
    (∀ c, c ∈ held → p_store p' !! c = p_store p !! c) ∧
    (∀ pc, pc ∈ p_conns p' → inUse pc = false → conn_open (p_store p') (pc_conn pc) = true ∧
      (p_now p - createdAt pc ≤ Z.max 0 (ConnMaxLifetime (p_opts p)))%Z) ∧
    (reachable dial (p_opts p) → (MinConns (p_opts p) ≤ Z.of_nat (length (p_conns p')))%Z ∧
      (p_closed p = false → (Z.of_nat (length held) < MaxConns (p_opts p))%Z → ∃ c, (Acquire dial p').1 = Ok c)).
Proof.
  intros Hf Hn. apply NewPool_ok in Hn as (Hok & Hh & _ & _); [|done]. pose proof (pool_run_ok dial es (p0, []) Hok Hh) as [Hok' Hh'].
  destruct (pool_run dial es (p0, [])) as [p held]. cbn in Hok', Hh'. intros Hs.
  destruct (removeStaleConns_ok dial p Hok') as (p' & Hr & Hokp & [(Ho & Hc & Hp & Hnow) Hk Hu Hsp Hi Hm]). exists p'. split; [done|]. split; [|split; [exact Hi|]].
  - intros c Hin. apply Hsp. by apply (held_used _ _ Hh' Hs).
  - intros Hre. split; [by apply Hm|]. intros Hcl Hlt. unfold Acquire, mbind at 1, M_mbind, M_bind at 1, get_state. rewrite Hc, Hcl.
    destruct (find_idle (p_store p') (p_conns p')) as [[c cs]|] eqn:Hfi; [by exists c|]. apply find_idle_none in Hfi. rewrite Forall_forall in Hfi.
    assert (∀ pc, pc ∈ p_conns p' → inUse pc = true) as Hall.
    { intros pc Hin. destruct (inUse pc) eqn:Hin'; [done|]. destruct (Hfi pc Hin) as [?|Hclosed]; [congruence|]. destruct (Hi pc Hin Hin'). congruence. }
    rewrite Ho, bool_decide_eq_true_2.
    + destruct (createConn_cases dial p') as [(conn & Hcr & _)|(e & Hcr)].
      * mstep (wrap_err_ok "failed to create connection" _ _ _ _ Hcr). by eexists.
      * destruct (Hre (p_dials p')) as [cn Hcn]. unfold createConn in Hcr. rewrite Ho, Hcn in Hcr. done.
    + assert (length (p_conns p') ≤ length held) as Hle; [|lia].
      rewrite <- (length_fmap pc_conn). apply submseteq_length, NoDup_submseteq; [apply Hokp|]. intros c Hin. apply list_elem_of_fmap in Hin as (pc & -> & Hin).
      apply (held_used _ _ Hh' Hs), elem_of_used. exists pc. split; [by apply (Hu pc (Hall pc Hin))|]. split; [done|by apply Hall].
Qed.

Section more.
Context (dial : nat → string → Connection + string).

(** [Exec] gives its connection back, whatever the function does. *)
Lemma Exec_ok fn p held : pool_ok p → held_ok p held →
  (∀ c p1, pool_ok p1 → held_ok p1 (held ++ [c]) → pool_ok (fn c p1).2 ∧ held_ok (fn c p1).2 (held ++ [c])) →
  pool_ok (Exec dial fn p).2 ∧ held_ok (Exec dial fn p).2 held.
Proof.
  intros Hok Hh Hfn. pose proof (Acquire_ok dial p held Hok Hh) as Ha. unfold Exec, mbind, M_mbind, M_bind.
  destruct (Acquire dial p) as [[c|e| |] p1]; [|by destruct Ha as (? & ? & _)..]. destruct Ha as (Hok1 & Hh1 & _).
  destruct (Hfn c p1 Hok1 Hh1) as [Hok2 Hh2]. unfold and_release. destruct (fn c p1) as [r p2]. cbn in Hok2, Hh2.
  destruct (Release_ok p2 (held ++ [c]) c Hok2 Hh2) as [Hok3 Hh3]. split; [done|].
  assert (filter (λ c', c' ≠ c) (held ++ [c]) = held) as Hf; [|by rewrite Hf in Hh3].
  rewrite filter_app, filter_all, filter_none; [apply app_nil_r|by repeat constructor; intros []|]. apply Forall_forall. intros c' Hin ->.
  destruct Hh1 as [Hnd _ _ _]. apply NoDup_app in Hnd as (_ & Hd & _). by apply (Hd c Hin), list_elem_of_singleton.
Qed.
Lemma Stats_counts p : let s := Stats p in
  TotalConns s = length (p_conns p) ∧ InUseConns s = length (used (p_conns p)) ∧ IdleConns s + InUseConns s = TotalConns s.
Proof.
  unfold Stats. cut (∀ cs t i u, ∃ i', foldl (λ '(total, idle, used) pc, if inUse pc then (S total, idle, S used) else (S total, S idle, used)) (t, i, u) cs =
    (t + length cs, i', u + length (used cs)) ∧ i' + length (used cs) = i + length cs).
  { intros Hcut. destruct (Hcut (p_conns p) 0 0 0) as (i' & -> & Hi). cbn in *. lia. }
  induction cs as [|pc cs IH]; intros t i u; [exists i; cbn; by rewrite !Nat.add_0_r|]. cbn [foldl]. rewrite used_cons. destruct (inUse pc).
  - destruct (IH (S t) i (S u)) as (i' & -> & Hi). exists i'. cbn. split; [do 2 f_equal; lia|lia].
  - destruct (IH (S t) (S i) u) as (i' & -> & Hi). exists i'. cbn. split; [do 2 f_equal; lia|lia].
Qed.

(** Connections that were closed count against the limit until the next health check:
    the pool is exhausted although nobody holds a connection. *)
Lemma closed_connections_exhaust p : p_closed p = false → Z.of_nat (length (p_conns p)) = MaxConns (p_opts p) →
  Forall (λ pc, inUse pc = false ∧ conn_open (p_store p) (pc_conn pc) = false) (p_conns p) →
  Acquire dial p = (Err (exhausted (p_opts p)), p).
Proof.
  intros Hc Hl Hall. unfold Acquire, mbind at 1, M_mbind, M_bind at 1, get_state. rewrite Hc.
  assert (find_idle (p_store p) (p_conns p) = None) as ->.
  { apply find_idle_none. eapply Forall_impl; [exact Hall|]. intros pc [_ ?]. by right. }
  by rewrite bool_decide_eq_false_2 by lia.
Qed.
(** A server that says nothing, as the one of this program does, gets no pool. *)
Lemma pool_is_refused opts st next now : let full := PoolOptions_defaults opts in
  (0 < MinConns full ≤ MaxConns full)%Z → (∀ n a, ∃ down, dial n a = inl (NewConnection down []) ∧ concat down = []) →
  (NewPool dial opts st next now).1 = Err "failed to create initial connection 0: handshake failed: EOF".
Proof.
  intros full Hm Hd. unfold NewPool. fold full. cbv zeta. rewrite !bool_decide_eq_false_2 by lia.
  destruct (Z.to_nat (MinConns full)) as [|n] eqn:Hn; [lia|]. cbn [initial_conns]. set (p := empty_pool full st next now).
  set (o := connect_options (p_opts p)). destruct (Hd (p_dials p) (Host (ConnectOptions_defaults o) +:+ ":" +:+ pretty (Port (ConnectOptions_defaults o)))) as (down & Hdial & Hc).
  assert (createConn dial p = (Err "handshake failed: EOF", dialled p)) as ->; [|by destruct (Close_end (Close_begin (dialled p)))].
  unfold createConn. fold o. by rewrite (Connect_eof (dial_once dial (p_dials p)) o down) by (unfold dial_once; by rewrite ?Hdial).
Qed.
(** A pool of one connection needs [MinConns] to be set: its default is two. *)
Lemma one_connection_is_refused st next now : (NewPool dial (mkPoolOptions "" 0 "" "" "" 1 0 0 0 0) st next now).1 =
  Err "MinConns (2) cannot be greater than MaxConns (1)".
Proof. vm_compute. reflexivity. Qed.
End more.

(** ** An example *)

#[local] Existing Instances Driver.coded_wire Driver.coded_json.
Definition welcoming (n : nat) (addr : string) : Connection + string :=
  inl (NewConnection [bytes_of_string "SUCC"; bytes_of_string "ESS" ++ [Byte.x00]] []).
Definition example_pool_options : PoolOptions := mkPoolOptions "db.example" 0 "" "" "" 3 2 0 0 0.
Definition example_pool : Pool := (NewPool welcoming example_pool_options ∅ 0 0).2.
Definition example_events : list event :=
  [EAcquire; EAcquire; EAcquire; ERelease 0; ECloseConn 1; EPass (400 * 10 ^ 9); ERelease 1].
Lemma pool_is_exclusive_witness :
  let '(p, held) := pool_run welcoming example_events (example_pool, []) in
  held = [2] ∧ NoDup held ∧ (Z.of_nat (length (p_conns p)) ≤ MaxConns (p_opts p))%Z.
Proof.
  pose proof (pool_is_exclusive welcoming example_pool_options ∅ 0 0 example_pool example_events) as Hex.
  assert (pool_run welcoming example_events (example_pool, []) =
    ((pool_run welcoming example_events (example_pool, [])).1, [2])) as Heq by (vm_compute; reflexivity).
  rewrite Heq in Hex |- *. destruct Hex as (Hnd & Hl & _).
  - intros c [x Hx]. by rewrite lookup_empty in Hx.
  - vm_compute. reflexivity.
  - split; [reflexivity|]. exact (conj Hnd Hl).
Defined.
(** Two connections that the callers gave back are past their lifetime, one of them closed: the
    check replaces them by one. *)
Lemma health_check_repairs_witness :
  let p := (pool_run welcoming example_events (example_pool, [])).1 in
  length (p_conns p) = 3 ∧ length (p_conns (removeStaleConns welcoming p).2) = 2 ∧
  ∃ p', removeStaleConns welcoming p = (Ok (), p') ∧ ∃ c, (Acquire welcoming p').1 = Ok c.
Proof.
  split; [vm_compute; reflexivity|]. split; [vm_compute; reflexivity|].
  pose proof (health_check_repairs welcoming example_pool_options ∅ 0 0 example_pool example_events) as Hr.
  assert (pool_run welcoming example_events (example_pool, []) =
    ((pool_run welcoming example_events (example_pool, [])).1, [2])) as Heq by (vm_compute; reflexivity).
  rewrite Heq in Hr. destruct Hr as (p' & Hrun & _ & _ & Hre).
  - intros c [x Hx]. by rewrite lookup_empty in Hx.
  - vm_compute. reflexivity.
  - vm_compute. reflexivity.
  - exists p'. split; [exact Hrun|]. apply Hre.
    + intros n. eexists. vm_compute. reflexivity.
    + vm_compute. reflexivity.
    + vm_compute. reflexivity.
Defined.
