(* ===== verification/WebSocket.v ===== *)
(** * The hub of websockets (internal/api/websocket.go)

    The loop of the hub, the handler that registers a client, and the two goroutines of
    each client run beside each other; the channels of the hub are not buffered, so that
    what is sent on them is a step of both sides, and the channel of a client holds 256
    messages.  A step of [hub_step] is what one goroutine does between two points at
    which it may wait.  A panic of the loop ends the program.  The upgrade of the
    connection, its frames and its failures belong to gorilla/websocket: a write
    succeeds or fails, and a read fails when it likes. *)

From S2P Require Import Prelude Bytes Order Datum Parser Index Admin Evaluator Sessions GoStrings Scram Auth Protocol.

(** ** Events *)

(** The text of an event; one that cannot be marshalled is dropped. *)
Definition BroadcastEvent `{Wire} (eventType : string) (data : Reply) (now_ms : Z) : option (list byte) :=
  match marshal (RMap [("data", data); ("timestamp", RInt now_ms); ("type", RStr eventType)]) with
  | Ok b => Some b
  | _ => None
  end.

(** ** The state *)

Inductive Frame := Text (m : list byte) | CloseFrame | PingFrame.
(** Where the goroutines of a client are: [HandleWebSocket] waits to register it; the
    writer waits for a message or the ticker, or has a message to write; the reader
    waits for its connection, or to tell the hub that it is gone. *)
Inductive Writer := NotStarted | Selecting | Writing (m : list byte) | Written.
Inductive Reader := Unregistered | Reading | Leaving | Left.
(** [cl_from]: how many messages had been broadcast when the client was registered. *)
Record Client := mkClient {
  cl_send : list (list byte); cl_closed : bool;
  cl_writer : Writer; cl_reader : Reader;
  cl_open : bool; cl_wire : list Frame; cl_from : nat;
}.
Definition send_size : nat := 256.

(** The loop waits, or is on its way through the clients with a message. *)
Inductive Loop := Waiting | Broadcasting (m : list byte) (todo : gset nat) | Panicked.
(** [h_log] are the messages that were broadcast, in order. *)
Record Hub := mkHub { h_clients : gset nat; h_all : gmap nat Client; h_loop : Loop; h_log : list (list byte) }.
Definition NewWebSocketHub : Hub := mkHub ∅ ∅ Waiting [].

Definition set_client (c : nat) (cl : Client) (h : Hub) : Hub := mkHub (h_clients h) (<[c := cl]> (h_all h)) (h_loop h) (h_log h).
Definition set_clients (cs : gset nat) (h : Hub) : Hub := mkHub cs (h_all h) (h_loop h) (h_log h).
Definition set_loop (l : Loop) (h : Hub) : Hub := mkHub (h_clients h) (h_all h) l (h_log h).
Definition set_send (l : list (list byte)) (cl : Client) : Client :=
  mkClient l (cl_closed cl) (cl_writer cl) (cl_reader cl) (cl_open cl) (cl_wire cl) (cl_from cl).
Definition set_writer (w : Writer) (cl : Client) : Client :=
  mkClient (cl_send cl) (cl_closed cl) w (cl_reader cl) (cl_open cl) (cl_wire cl) (cl_from cl).
Definition set_reader (r : Reader) (cl : Client) : Client :=
  mkClient (cl_send cl) (cl_closed cl) (cl_writer cl) r (cl_open cl) (cl_wire cl) (cl_from cl).
Definition close_channel (cl : Client) : Client :=
  mkClient (cl_send cl) true (cl_writer cl) (cl_reader cl) (cl_open cl) (cl_wire cl) (cl_from cl).
Definition close_socket (cl : Client) : Client :=
  mkClient (cl_send cl) (cl_closed cl) (cl_writer cl) (cl_reader cl) false (cl_wire cl) (cl_from cl).
Definition put_frame (f : Frame) (cl : Client) : Client :=
  mkClient (cl_send cl) (cl_closed cl) (cl_writer cl) (cl_reader cl) (cl_open cl) (cl_wire cl ++ [f]) (cl_from cl).

(** ** The steps *)

(** [close(client.send)] panics when the channel is closed. *)
Definition close_send (c : nat) (h : Hub) : Hub :=
  match h_all h !! c with
  | Some cl => if cl_closed cl then set_loop Panicked h else set_client c (close_channel cl) h
  | None => set_loop Panicked h
  end.

(** [HandleWebSocket] up to the registration; [c] is the new client. *)
Definition HandleWebSocket (c : nat) (h : Hub) : Hub :=
  match h_all h !! c with
  | Some _ => h
  | None => set_client c (mkClient [] false NotStarted Unregistered true [] 0) h
  end.

(** The three cases of the loop of [Run].  After its registration the pumps of the
    client start. *)
Definition run_register (c : nat) (h : Hub) : Hub :=
  match h_loop h, h_all h !! c with
  | Waiting, Some cl =>
      match cl_reader cl with
      | Unregistered =>
          set_clients ({[c]} ∪ h_clients h)
            (set_client c (mkClient (cl_send cl) (cl_closed cl) Selecting Reading (cl_open cl) (cl_wire cl) (length (h_log h))) h)
      | _ => h
      end
  | _, _ => h
  end.
Definition run_unregister (c : nat) (h : Hub) : Hub :=
  match h_loop h, h_all h !! c with
  | Waiting, Some cl =>
      match cl_reader cl with
      | Leaving =>
          let h := set_client c (close_socket (set_reader Left cl)) h in
          if bool_decide (c ∈ h_clients h) then close_send c (set_clients (h_clients h ∖ {[c]}) h) else h
      | _ => h
      end
  | _, _ => h
  end.
Definition run_broadcast (m : list byte) (h : Hub) : Hub :=
  match h_loop h with
  | Waiting => mkHub (h_clients h) (h_all h) (Broadcasting m (h_clients h)) (h_log h ++ [m])
  | _ => h
  end.
(** The loop comes to the client [c]: it sends without waiting, or drops the client. *)
Definition run_deliver (c : nat) (h : Hub) : Hub :=
  match h_loop h, h_all h !! c with
  | Broadcasting m todo, Some cl =>
      if bool_decide (c ∈ todo) then
        let h' := set_loop (Broadcasting m (todo ∖ {[c]})) h in
        if cl_closed cl then set_loop Panicked h
        else if bool_decide (length (cl_send cl) < send_size) then set_client c (set_send (cl_send cl ++ [m]) cl) h'
        else set_clients (h_clients h' ∖ {[c]}) (close_send c h')
      else h
  | _, _ => h
  end.
Definition run_next (h : Hub) : Hub :=
  match h_loop h with
  | Broadcasting m todo => if bool_decide (todo = ∅) then set_loop Waiting h else h
  | _ => h
  end.

(** [readPump]: a read fails, because the peer or the writer closed the connection. *)
Definition read_fails (cl : Client) : Client := match cl_reader cl with Reading => set_reader Leaving cl | _ => cl end.
(** [writePump] returns: its deferred calls close the connection. *)
Definition writer_returns (cl : Client) : Client := close_socket (set_writer Written cl).
(** The writer takes a message, or sees that the channel is closed and says good-bye;
    [ok] is whether that write succeeds. *)
Definition write_receive (ok : bool) (cl : Client) : Client :=
  match cl_writer cl with
  | Selecting =>
      match cl_send cl with
      | m :: l => set_send l (set_writer (Writing m) cl)
      | [] =>
          if cl_closed cl then writer_returns (if ok && cl_open cl then put_frame CloseFrame cl else cl) else cl
      end
  | _ => cl
  end.
Definition write_text (ok : bool) (cl : Client) : Client :=
  match cl_writer cl with
  | Writing m => if ok && cl_open cl then set_writer Selecting (put_frame (Text m) cl) else writer_returns cl
  | _ => cl
  end.
Definition write_ping (ok : bool) (cl : Client) : Client :=
  match cl_writer cl with
  | Selecting => if ok && cl_open cl then put_frame PingFrame cl else writer_returns cl
  | _ => cl
  end.

Inductive step :=
| SConnect (c : nat) | SRegister (c : nat) | SUnregister (c : nat)
| SBroadcast (m : list byte) | SDeliver (c : nat) | SNext
| SReadFails (c : nat) | SReceive (c : nat) (ok : bool) | SText (c : nat) (ok : bool) | SPing (c : nat) (ok : bool).
Definition on_client (f : Client → Client) (c : nat) (h : Hub) : Hub :=
  match h_all h !! c with Some cl => set_client c (f cl) h | None => h end.
Definition hub_step (s : step) (h : Hub) : Hub :=
  match h_loop h with
  | Panicked => h
  | _ =>
      match s with
      | SConnect c => HandleWebSocket c h
      | SRegister c => run_register c h
      | SUnregister c => run_unregister c h
      | SBroadcast m => run_broadcast m h
      | SDeliver c => run_deliver c h
      | SNext => run_next h
      | SReadFails c => on_client read_fails c h
      | SReceive c ok => on_client (write_receive ok) c h
      | SText c ok => on_client (write_text ok) c h
      | SPing c ok => on_client (write_ping ok) c h
      end
  end.
Definition hub_run (ss : list step) (h : Hub) : Hub := foldl (λ h s, hub_step s h) h ss.

(** ** What clients receive *)

(** The messages a client has received, those on their way to it, and both as long as
    its writer runs. *)
Definition texts (l : list Frame) : list (list byte) := omap (λ f, match f with Text m => Some m | _ => None end) l.
#[local] Arguments texts : simpl never.
Definition received (cl : Client) : list (list byte) := texts (cl_wire cl).
Definition on_the_way (cl : Client) : list (list byte) :=
  match cl_writer cl with Writing m => m :: cl_send cl | Written => [] | _ => cl_send cl end.
Definition got (cl : Client) : list (list byte) := received cl ++ on_the_way cl.
Definition stopped (cl : Client) : bool := match cl_writer cl with Written => true | _ => false end.
(** The messages that the loop has brought to the client's place since it was registered. *)
Definition cut (h : Hub) (c : nat) : nat :=
  match h_loop h with
  | Broadcasting _ todo => if bool_decide (c ∈ todo) then length (h_log h) - 1 else length (h_log h)
  | _ => length (h_log h)
  end.
Definition sent_to (h : Hub) (c : nat) (cl : Client) : list (list byte) := drop (cl_from cl) (take (cut h c) (h_log h)).

Record client_ok (h : Hub) (c : nat) (cl : Client) : Prop := {
  co_size : length (cl_send cl) ≤ send_size;
  co_member : c ∈ h_clients h → cl_closed cl = false ∧ cl_reader cl ≠ Unregistered;
  co_from : cl_from cl ≤ cut h c;
  co_prefix : got cl `prefix_of` sent_to h c cl;
  co_all : c ∈ h_clients h → stopped cl = false → got cl = sent_to h c cl;
  co_new : cl_reader cl = Unregistered → got cl = [] ∧ cl_send cl = [] ∧ cl_closed cl = false;
}.
Record hub_ok (h : Hub) : Prop := {
  ho_loop : h_loop h ≠ Panicked;
  ho_known c : c ∈ h_clients h → is_Some (h_all h !! c);
  ho_todo m todo : h_loop h = Broadcasting m todo → todo ⊆ h_clients h ∧ ∃ l, h_log h = l ++ [m];
  ho_clients c cl : h_all h !! c = Some cl → client_ok h c cl;
}.

(** The steps of a client's own goroutines. *)
Record client_step (cl cl' : Client) : Prop := {
  cs_size : length (cl_send cl') ≤ length (cl_send cl);
  cs_closed : cl_closed cl' = cl_closed cl;
  cs_from : cl_from cl' = cl_from cl;
  cs_reader : cl_reader cl' = Unregistered ↔ cl_reader cl = Unregistered;
  cs_send : cl_send cl = [] → cl_send cl' = [];
  cs_got : got cl' `prefix_of` got cl;
  cs_all : stopped cl' = false → stopped cl = false ∧ got cl' = got cl;
}.
Lemma client_step_refl cl : client_step cl cl.
Proof. by split. Qed.
Lemma texts_snoc l f : texts (l ++ [f]) = texts l ++ (match f with Text m => [m] | _ => [] end).
Proof. unfold texts. rewrite omap_app. by destruct f. Qed.
Lemma writer_returns_step cl : client_step cl (writer_returns cl).
Proof. split; try done. unfold got. cbn. rewrite app_nil_r. by eexists. Qed.
Lemma read_fails_step cl : client_step cl (read_fails cl).
Proof. unfold read_fails. destruct (cl_reader cl) eqn:Hr; try apply client_step_refl. split; try done. cbn. by rewrite Hr. Qed.
Lemma write_receive_step ok cl : client_step cl (write_receive ok cl).
Proof.
  unfold write_receive. destruct (cl_writer cl) eqn:Hw; try apply client_step_refl. destruct (cl_send cl) as [|m l] eqn:Hs.
  - destruct (cl_closed cl) eqn:Hc; [|apply client_step_refl]. destruct (ok && cl_open cl); [|apply writer_returns_step].
    split; cbn; try done. unfold got, received, on_the_way. cbn. by rewrite texts_snoc, Hw, Hs, !app_nil_r.
  - split; cbn; rewrite ?Hs; try done; [cbn; lia|..]; unfold got, received, on_the_way, stopped; cbn; by rewrite Hw, Hs.
Qed.
Lemma write_text_step ok cl : client_step cl (write_text ok cl).
Proof.
  unfold write_text. destruct (cl_writer cl) eqn:Hw; try apply client_step_refl. destruct (ok && cl_open cl); [|apply writer_returns_step].
  assert (got (set_writer Selecting (put_frame (Text m) cl)) = got cl) as Hg.
  { unfold got, received, on_the_way. cbn. by rewrite texts_snoc, Hw, <- app_assoc. }
  split; try done; [by rewrite Hg|]. intros _. split; [unfold stopped; by rewrite Hw|exact Hg].
Qed.
Lemma write_ping_step ok cl : client_step cl (write_ping ok cl).
Proof.
  unfold write_ping. destruct (cl_writer cl) eqn:Hw; try apply client_step_refl. destruct (ok && cl_open cl); [|apply writer_returns_step].
  assert (got (put_frame PingFrame cl) = got cl) as Hg by (unfold got, received, on_the_way; cbn; by rewrite texts_snoc, app_nil_r).
  split; try done. by rewrite Hg.
Qed.

Lemma set_client_ok h c cl : hub_ok h → client_ok h c cl → is_Some (h_all h !! c) ∨ c ∉ h_clients h → hub_ok (set_client c cl h).
Proof.
  intros [Hl Hk Ht Hc] Hcl _. split; cbn; try done.
  - intros c' Hin. destruct (decide (c = c')) as [<-|Hne]; [rewrite lookup_insert_eq; by eexists|rewrite lookup_insert_ne by done; by apply Hk].
  - intros c' cl' [[<- <-]|[Hne Hlk]]%lookup_insert_Some; [by destruct Hcl|]. by destruct (Hc _ _ Hlk).
Qed.
Lemma client_step_ok h c cl cl' : client_ok h c cl → client_step cl cl' → client_ok h c cl'.
Proof.
  intros [Hsz Hm Hf Hp Ha Hn] [Hs Hc Hfr Hr Hse Hg Hal]. assert (sent_to h c cl' = sent_to h c cl) as He by (unfold sent_to; by rewrite Hfr).
  split; rewrite ?He, ?Hc, ?Hfr; try done.
  - lia.
  - intros Hin. destruct (Hm Hin). split; [done|]. by rewrite Hr.
  - by etransitivity.
  - intros Hin Hst. destruct (Hal Hst) as [Hst' ->]. by apply Ha.
  - rewrite Hr. intros Hu. destruct (Hn Hu) as (Hg0 & Hs0 & Hc0). rewrite Hg0 in Hg. apply prefix_nil_inv in Hg. split; [done|]. split; [by apply Hse|done].
Qed.
Lemma on_client_ok f c h : (∀ cl, client_step cl (f cl)) → hub_ok h → hub_ok (on_client f c h).
Proof.
  intros Hf Hh. unfold on_client. destruct (h_all h !! c) as [cl|] eqn:Hc; [|done]. apply set_client_ok; [done| |left; by eexists].
  eapply client_step_ok; [by apply (ho_clients _ Hh)|apply Hf].
Qed.

(** The steps of the loop: [h'] has the same log, and a client that is not touched is as it was. *)
Lemma sent_to_waiting h c cl : h_loop h = Waiting → sent_to h c cl = drop (cl_from cl) (h_log h).
Proof. intros Hl. unfold sent_to, cut. rewrite Hl. by rewrite take_ge. Qed.
Lemma cut_le h c : cut h c ≤ length (h_log h).
Proof. unfold cut. destruct (h_loop h); [lia| |lia]. case_bool_decide; lia. Qed.

Lemma connect_ok c h : hub_ok h → hub_ok (HandleWebSocket c h).
Proof.
  intros Hh. unfold HandleWebSocket. destruct (h_all h !! c) as [cl|] eqn:Hc; [done|].
  assert (c ∉ h_clients h) as Hni. { intros Hin. destruct (ho_known _ Hh _ Hin) as [cl Hcl]. congruence. }
  apply set_client_ok; [done| |by right]. split; try done; cbn; try lia. apply prefix_nil.
Qed.
Lemma register_ok c h : hub_ok h → hub_ok (run_register c h).
Proof.
  intros Hh. unfold run_register. destruct (h_loop h) eqn:Hl; try done. destruct (h_all h !! c) as [cl|] eqn:Hc; [|done].
  destruct (cl_reader cl) eqn:Hr; try done. destruct (ho_clients _ Hh _ _ Hc) as [Hsz _ _ _ _ Hn]. destruct (Hn Hr) as (Hg & Hs & Hcl).
  assert (texts (cl_wire cl) = []) as Hw by (unfold got, received in Hg; by apply app_nil in Hg as [? _]).
  split; cbn; [by rewrite Hl| |by rewrite Hl|].
  - intros c' [->%elem_of_singleton|Hin]%elem_of_union; [rewrite lookup_insert_eq; by eexists|].
    destruct (decide (c = c')) as [<-|Hne]; [rewrite lookup_insert_eq; by eexists|rewrite lookup_insert_ne by done; by apply Hh].
  - intros c' cl' [[<- <-]|[Hne Hlk]]%lookup_insert_Some.
    + assert (got (mkClient (cl_send cl) (cl_closed cl) Selecting Reading (cl_open cl) (cl_wire cl) (length (h_log h))) = []) as Hg'
        by (unfold got, received, on_the_way; cbn; by rewrite Hw, Hs).
      split; rewrite ?Hg'; cbn; try done; unfold sent_to, cut; cbn; rewrite ?Hl; [lia|apply prefix_nil|]. intros _ _. rewrite drop_ge; [done|]. rewrite take_ge; lia.
    + destruct (ho_clients _ Hh _ _ Hlk) as [Hsz' Hm' Hf' Hp' Ha' Hn']. split; try done.
      * cbn. intros [->%elem_of_singleton|Hin]%elem_of_union; [done|by apply Hm'].
      * cbn. intros [->%elem_of_singleton|Hin]%elem_of_union; [done|by apply Ha'].
Qed.

(** The loop is done with the client [c] of this round. *)
Definition visited (c : nat) (l l' : Loop) : Prop :=
  (l = Waiting ∧ l' = Waiting) ∨ ∃ m todo, l = Broadcasting m todo ∧ l' = Broadcasting m (todo ∖ {[c]}).
Lemma drop_take_prefix {A} (l : list A) f a b : a ≤ b → drop f (take a l) `prefix_of` drop f (take b l).
Proof.
  intros Hab. rewrite !skipn_firstn_comm. replace (a - f) with ((a - f) `min` (b - f)) by lia. rewrite <- take_take. apply prefix_take.
Qed.
Lemma cut_visited h c l' cs all c' : visited c (h_loop h) l' →
  let h' := mkHub cs all l' (h_log h) in cut h c' ≤ cut h' c' ∧ (c' ≠ c → cut h' c' = cut h c') ∧ cut h' c = length (h_log h).
Proof.
  unfold cut. intros [[-> ->]|(m & todo & -> & ->)]; cbn; [done|]. split; [repeat case_bool_decide; set_solver by lia|].
  split; [|rewrite bool_decide_eq_false_2; [done|set_solver]]. intros Hne. by assert (bool_decide (c' ∈ todo ∖ {[c]}) = bool_decide (c' ∈ todo)) as -> by (apply bool_decide_ext; set_solver).
Qed.
(** What the others see of a visit. *)
Lemma visited_other h c l' cs all c' cl' : visited c (h_loop h) l' → c' ≠ c → (c' ∈ cs → c' ∈ h_clients h) →
  client_ok h c' cl' → client_ok (mkHub cs all l' (h_log h)) c' cl'.
Proof.
  intros Hv Hne Hin [Hsz Hm Hf Hp Ha Hn]. destruct (cut_visited h c l' cs all c' Hv) as (_ & Hcut & _). specialize (Hcut Hne).
  split; unfold sent_to in *; rewrite ?Hcut; cbn; auto.
Qed.
Lemma visited_todo h c l' cs : visited c (h_loop h) l' → hub_ok h → h_clients h ∖ {[c]} ⊆ cs →
  l' ≠ Panicked ∧ ∀ m todo, l' = Broadcasting m todo → todo ⊆ cs ∧ ∃ l, h_log h = l ++ [m].
Proof.
  intros [[Hl ->]|(m & todo & Hl & ->)] Hh Hcs; [done|]. split; [done|]. intros m' todo' [= <- <-]. destruct (ho_todo _ Hh _ _ Hl) as [Hsub Hlog].
  split; [set_solver|done].
Qed.
(** The client [c] is dropped, its channel closed. *)
Lemma drop_member_ok h c cl cl' l' : hub_ok h → h_all h !! c = Some cl → c ∈ h_clients h → visited c (h_loop h) l' →
  cl_send cl' = cl_send cl → cl_from cl' = cl_from cl → got cl' = got cl → cl_reader cl' ≠ Unregistered →
  hub_ok (mkHub (h_clients h ∖ {[c]}) (<[c := cl']> (h_all h)) l' (h_log h)).
Proof.
  intros Hh Hcl Hin Hv Hs Hfr Hg Hr. destruct (visited_todo _ _ _ _ Hv Hh (reflexivity _)) as [Hl Ht]. split; cbn; try done.
  - intros c' [Hin' Hne%not_elem_of_singleton]%elem_of_difference. rewrite lookup_insert_ne by done. by apply Hh.
  - intros c' cl'' [[<- <-]|[Hne Hlk]]%lookup_insert_Some.
    + destruct (ho_clients _ Hh _ _ Hcl) as [Hsz Hm Hf Hp Ha Hn].
      destruct (cut_visited h c l' (h_clients h ∖ {[c]}) (<[c := cl']> (h_all h)) c Hv) as (Hcut & _ & _).
      split; cbn; rewrite ?Hs, ?Hfr, ?Hg; [done|by intros [_ []%not_elem_of_singleton]%elem_of_difference|lia| |by intros [_ []%not_elem_of_singleton]%elem_of_difference|done].
      etransitivity; [exact Hp|]. unfold sent_to. rewrite Hfr. by apply drop_take_prefix.
    + apply (visited_other h c); [done|done|set_solver|by apply Hh].
Qed.
(** The client [c] gets the message. *)
Lemma append_ok h c cl m todo : hub_ok h → h_all h !! c = Some cl → h_loop h = Broadcasting m todo → c ∈ todo → length (cl_send cl) < send_size →
  hub_ok (mkHub (h_clients h) (<[c := set_send (cl_send cl ++ [m]) cl]> (h_all h)) (Broadcasting m (todo ∖ {[c]})) (h_log h)).
Proof.
  intros Hh Hcl Hlo Hin Hlt. assert (visited c (h_loop h) (Broadcasting m (todo ∖ {[c]}))) as Hv by (right; by exists m, todo).
  destruct (visited_todo _ _ _ (h_clients h) Hv Hh ltac:(set_solver)) as [Hl Ht]. destruct (ho_todo _ Hh _ _ Hlo) as [Hsub [l Hlog]].
  set (h' := mkHub _ _ _ _). split; cbn; try done.
  - intros c' Hin'. destruct (decide (c = c')) as [<-|Hne]; [rewrite lookup_insert_eq; by eexists|rewrite lookup_insert_ne by done; by apply Hh].
  - intros c' cl' [[<- <-]|[Hne Hlk]]%lookup_insert_Some; [|by apply (visited_other h c); [..|apply Hh]].
    destruct (ho_clients _ Hh _ _ Hcl) as [Hsz Hm Hf Hp Ha Hn]. set (cl' := set_send _ cl).
    assert (cut h c = length l) as Hcut by (unfold cut; rewrite Hlo, bool_decide_eq_true_2, Hlog, length_app by done; cbn; lia).
    assert (cut h' c = length l + 1) as Hcut'. { destruct (cut_visited h c _ (h_clients h) (h_all h') c Hv) as (_ & _ & Hc). change (cut h' c = length (h_log h)) in Hc. by rewrite Hc, Hlog, length_app. }
    assert (sent_to h' c cl' = sent_to h c cl ++ [m]) as Hsent.
    { unfold sent_to. rewrite Hcut, Hcut'. cbn. rewrite Hlog, take_app_length, take_ge by (rewrite length_app; cbn; lia). rewrite drop_app_le by lia. done. }
    assert (got cl' = if stopped cl then got cl else got cl ++ [m]) as Hgot.
    { unfold got, on_the_way, stopped, cl'. cbn. destruct (cl_writer cl); by rewrite <- ?app_assoc. }
    split; try done.
    + cbn. rewrite length_app. cbn. lia.
    + change (cl_from cl ≤ cut h' c). lia.
    + rewrite Hsent, Hgot. destruct (stopped cl) eqn:Hst; [by apply prefix_app_r|]. rewrite Ha by (done || by apply Hsub). done.
    + intros Hin' Hst. rewrite Hsent, Hgot. change (stopped cl = false) in Hst. rewrite Hst. f_equal. by apply Ha.
    + intros Hu. destruct (Hm (Hsub _ Hin)). done.
Qed.

Lemma unregister_ok c h : hub_ok h → hub_ok (run_unregister c h).
Proof.
  intros Hh. unfold run_unregister. destruct (h_loop h) eqn:Hl; try done. destruct (h_all h !! c) as [cl|] eqn:Hc; [|done].
  destruct (cl_reader cl) eqn:Hr; try done. set (cl1 := close_socket (set_reader Left cl)). cbv zeta. cbn [set_client h_clients].
  pose proof (ho_clients _ Hh _ _ Hc) as Hcl. case_bool_decide as Hin.
  - destruct (co_member _ _ _ Hcl Hin) as [Hopen _]. unfold close_send. cbn. rewrite lookup_insert_eq. cbn. rewrite Hopen.
    unfold set_client. cbn. rewrite insert_insert_eq, Hl. apply (drop_member_ok h c cl); [done|done|done|rewrite Hl; by left|done..].
  - apply set_client_ok; [done| |by right]. destruct Hcl as [Hsz Hm Hf Hp Ha Hn]. by split.
Qed.
Lemma broadcast_ok m h : hub_ok h → hub_ok (run_broadcast m h).
Proof.
  intros Hh. unfold run_broadcast. destruct (h_loop h) eqn:Hl; try done. set (h' := mkHub _ _ _ _). split; cbn; try done.
  - apply Hh.
  - intros m' todo [= <- <-]. split; [done|by eexists].
  - intros c cl Hc. destruct (ho_clients _ Hh _ _ Hc) as [Hsz Hm Hf Hp Ha Hn].
    assert (cut h c = length (h_log h)) as Hcut by (unfold cut; by rewrite Hl).
    assert (length (h_log h) ≤ cut h' c) as Hcut'. { unfold cut. cbn. rewrite length_app. cbn. case_bool_decide; lia. }
    assert (sent_to h c cl = drop (cl_from cl) (take (length (h_log h)) (h_log h'))) as Hsent.
    { unfold sent_to. rewrite Hcut. cbn. by rewrite take_app_length, take_ge. }
    split; try done.
    + change (cl_from cl ≤ cut h' c). lia.
    + etransitivity; [exact Hp|]. rewrite Hsent. by apply drop_take_prefix.
    + intros Hin Hst. rewrite (Ha Hin Hst), Hsent. unfold sent_to. f_equal. f_equal. unfold cut. cbn.
      rewrite bool_decide_eq_true_2 by done. rewrite length_app. cbn. lia.
Qed.
Lemma deliver_ok c h : hub_ok h → hub_ok (run_deliver c h).
Proof.
  intros Hh. unfold run_deliver. destruct (h_loop h) as [|m todo|] eqn:Hl; try done. destruct (h_all h !! c) as [cl|] eqn:Hc; [|done].
  case_bool_decide as Hin; [|done]. destruct (ho_todo _ Hh _ _ Hl) as [Hsub _]. pose proof (Hsub _ Hin) as Hmem.
  destruct (co_member _ _ _ (ho_clients _ Hh _ _ Hc) Hmem) as [Hopen Hr]. rewrite Hopen. case_bool_decide as Hlt; [unfold set_client; cbn; by apply append_ok|].
  unfold close_send. cbn. rewrite Hc, Hopen. unfold set_client, set_clients. cbn.
  apply (drop_member_ok h c cl); [done|done|done|rewrite Hl; right; by eexists _, _|done..].
Qed.
Lemma next_ok h : hub_ok h → hub_ok (run_next h).
Proof.
  intros Hh. unfold run_next. destruct (h_loop h) as [|m todo|] eqn:Hl; try done. case_bool_decide as He; [|done]. subst todo.
  destruct Hh as [Hlo Hk Ht Hc]. split; cbn; try done. intros c cl Hcl. destruct (Hc _ _ Hcl) as [Hsz Hm Hf Hp Ha Hn].
  assert (cut (set_loop Waiting h) c = cut h c) as Hcut by (unfold cut; cbn; rewrite Hl; by rewrite bool_decide_eq_false_2 by set_solver).
  split; unfold sent_to in *; rewrite ?Hcut; done.
Qed.
Lemma step_ok s h : hub_ok h → hub_ok (hub_step s h).
Proof.
  intros Hh. unfold hub_step. destruct (h_loop h) eqn:Hl; [| |done].
  all: destruct s; auto using connect_ok, register_ok, unregister_ok, broadcast_ok, deliver_ok, next_ok.
  all: apply on_client_ok; auto using read_fails_step, write_receive_step, write_text_step, write_ping_step.
Qed.
Lemma NewWebSocketHub_ok : hub_ok NewWebSocketHub.
Proof. split; try done; cbn; set_solver. Qed.
Lemma run_ok ss h : hub_ok h → hub_ok (hub_run ss h).
Proof. revert h. induction ss as [|s ss IH]; intros h Hh; [done|]. by apply IH, step_ok. Qed.

(** A client leaves the hub by itself, or when 256 messages wait for it. *)
Lemma close_send_clients c h : h_clients (close_send c h) = h_clients h.
Proof. unfold close_send. destruct (h_all h !! c) as [cl|]; [|done]. by destruct (cl_closed cl). Qed.
Lemma on_client_clients f c h : h_clients (on_client f c h) = h_clients h.
Proof. unfold on_client. by destruct (h_all h !! c). Qed.
Lemma dropped_when_full s h c : hub_ok h → c ∈ h_clients h → c ∉ h_clients (hub_step s h) →
  s = SUnregister c ∨ ∃ cl, s = SDeliver c ∧ h_all h !! c = Some cl ∧ length (cl_send cl) = send_size.
Proof.
  intros Hh Hin Hout. unfold hub_step in Hout. assert (∀ c', c ∉ h_clients h ∖ {[c']} → c' = c) as Hsame.
  { intros c' Hno. destruct (decide (c' = c)) as [|Hne]; [done|]. destruct Hno. apply elem_of_difference. split; [done|]. by apply not_elem_of_singleton. }
  destruct (h_loop h) as [|m todo|] eqn:Hl; [| |done]; destruct s as [c'|c'|c'|m'|c'| |c' ok|c' ok|c' ok|c' ok]; rewrite ?on_client_clients in Hout; try done.
  all: unfold HandleWebSocket, run_register, run_unregister, run_deliver, run_broadcast, run_next in Hout; rewrite ?Hl in Hout; try done.
  all: repeat (case_match; rewrite ?close_send_clients in Hout; cbn in Hout; try done).
  - destruct Hout. by apply elem_of_union_r.
  - left. by rewrite (Hsame _ Hout).
  - right. rewrite (Hsame _ Hout) in *. match goal with Hc : h_all h !! c = Some ?cl |- _ => exists cl; split; [done|]; split; [done|];
      pose proof (co_size _ _ _ (ho_clients _ Hh _ _ Hc)) end.
    match goal with Hb : bool_decide (length _ < _) = false |- _ => apply bool_decide_eq_false in Hb end. lia.
Qed.

(** C36: the hub of websockets.  However connections, events and the goroutines of clients
    interleave, the loop never sends on a closed channel and closes none twice; what a
    client has received is a prefix of the events since it was registered, in their order;
    a client that the hub has and whose writer runs has received, or will receive, each
    of them; and the hub gives up a client only when it leaves or is 256 events late. *)
Theorem hub_delivers ss :
  let h := hub_run ss NewWebSocketHub in
  h_loop h ≠ Panicked ∧
  (∀ c cl, h_all h !! c = Some cl → received cl `prefix_of` drop (cl_from cl) (h_log h)) ∧
  (∀ c cl, h_all h !! c = Some cl → c ∈ h_clients h → stopped cl = false → h_loop h = Waiting →
    received cl ++ on_the_way cl = drop (cl_from cl) (h_log h)) ∧
  (∀ s c, c ∈ h_clients h → c ∉ h_clients (hub_step s h) →
    s = SUnregister c ∨ ∃ cl, s = SDeliver c ∧ h_all h !! c = Some cl ∧ length (cl_send cl) = send_size).
Proof.
  intros h. assert (hub_ok h) as Hh by (apply run_ok, NewWebSocketHub_ok). split; [apply Hh|]. split; [|split].
  - intros c cl Hc. pose proof (co_prefix _ _ _ (ho_clients _ Hh _ _ Hc)) as Hp. etransitivity; [by eexists|]. etransitivity; [exact Hp|].
    unfold sent_to. rewrite <- (take_ge (h_log h) (length (h_log h))) at 2 by done. apply drop_take_prefix, cut_le.
  - intros c cl Hc Hin Hst Hl. rewrite <- (sent_to_waiting h c cl Hl). by apply (co_all _ _ _ (ho_clients _ Hh _ _ Hc)).
  - intros s c. by apply dropped_when_full.
Qed.

(** A client that registers between two events receives the second. *)
Definition example_steps : list step :=
  [SBroadcast [Byte.x61]; SNext; SConnect 4; SRegister 4; SBroadcast [Byte.x62]; SDeliver 4; SNext; SReceive 4 true; SText 4 true].
Lemma hub_delivers_witness :
  let h := hub_run example_steps NewWebSocketHub in
  (received <$> h_all h !! 4) = Some [[Byte.x62]] ∧ h_loop h ≠ Panicked ∧
  ∀ c cl, h_all h !! c = Some cl → received cl `prefix_of` drop (cl_from cl) (h_log h).
Proof. split; [vm_compute; reflexivity|]. destruct (hub_delivers example_steps) as (Hl & Hp & _). exact (conj Hl Hp). Defined.
