(* ===== verification/Cluster.v ===== *)
(** * Cluster membership ([internal/cluster]: types.go, token.go, join.go)

    Join tokens behind pointers that two maps share, and the members of the cluster.
    Identifiers, the clock and HMAC are the parameters of [Crypto]; every call takes a
    turn.  The order in which a range statement visits a map is a parameter.  What the
    managers keep is one state, [Membership]: their mutexes serialise the methods. *)

From S2P Require Import Prelude Bytes Datum GoStrings Scram.
From Stdlib Require Import Ascii.

(** ** types.go *)

Inductive NodeStatus := NodeStatusActive | NodeStatusDraining | NodeStatusOffline | NodeStatusJoining | NodeStatusLeaving.
#[global] Instance NodeStatus_eq_dec : EqDecision NodeStatus.
Proof. solve_decision. Defined.

Record NodeInfo := mkNode {
  n_NodeID : string; n_Address : string; n_ClusterPort : Z; n_HTTPPort : Z; n_DriverPort : Z;
  n_Status : NodeStatus; n_IsLeader : bool; n_JoinedAt : Z; n_LastSeen : Z; n_DataSizeMB : Z; n_TablesCount : Z;
}.
Record JoinRequest := mkJoin {
  jr_Token : string; jr_NodeID : string; jr_Address : string; jr_ClusterPort : Z; jr_HTTPPort : Z; jr_DriverPort : Z;
}.
Record JoinResponse := mkJoinResp {
  js_Success : bool; js_NodeID : string; js_ClusterID : string; js_LeaderID : string; js_Members : list NodeInfo; js_Error : string;
}.

(** ** token.go *)

Record JoinToken := mkToken {
  tk_ID : string; tk_Token : string; tk_ClusterID : string; tk_CreatedAt : Z; tk_ExpiresAt : Z;
  tk_UsedBy : string; tk_UsedAt : option Z; tk_CreatedBy : string;
}.
(** The two maps share their tokens, which live in a heap. *)
Record TokenManager := mkTM {
  tm_tokens : gmap string nat;
  tm_tokensByID : gmap string nat;
  tm_clusterID : string;
  tm_secret : list byte;
  tm_heap : gmap nat JoinToken;
  tm_next : nat;
}.
Definition NewTokenManager (clusterID : string) (secret : list byte) : TokenManager := mkTM ∅ ∅ clusterID secret ∅ 0.

(** [encoding/hex.EncodeToString] *)
Definition hex_char (d : Z) : ascii := default "0"%char (String.get (Z.to_nat d) "0123456789abcdef").
Fixpoint hex_encode (bs : list byte) : string :=
  match bs with
  | [] => ""
  | b :: bs' => String (hex_char (Z_of_byte b / 16)) (String (hex_char (Z_of_byte b mod 16)) (hex_encode bs'))
  end.

(** The loop of [splitToken] looks for the last dot. *)
Fixpoint last_dot (s : string) : option nat :=
  match s with
  | "" => None
  | String c s' =>
      match last_dot s' with
      | Some i => Some (S i)
      | None => if bool_decide (c = "."%char) then Some 0 else None
      end
  end.
Definition splitToken (token : string) : option (string * string) :=
  match last_dot token with Some i => Some (str_take i token, str_drop (S i) token) | None => None end.

(** The members, the tokens and the turns. *)
Record Membership := mkMem { mb_tm : TokenManager; mb_members : gmap string NodeInfo; mb_turn : nat }.
Definition with_tm (tm : TokenManager) (s : Membership) : Membership := mkMem tm (mb_members s) (mb_turn s).
Definition with_members (ms : gmap string NodeInfo) (s : Membership) : Membership := mkMem (mb_tm s) ms (mb_turn s).

(** Range statements over the tokens and over the members. *)
Class ClusterRuntime := {
  range_tokens : nat → gmap string nat → list (string * nat);
  range_members : nat → gmap string NodeInfo → list (string * NodeInfo);
}.

Definition hour : Z := 3600 * 1000000000.

Section tokens.
Context `{Crypto} `{ClusterRuntime}.

Definition next_turn : M Membership nat := s ← get_state; put_state (mkMem (mb_tm s) (mb_members s) (S (mb_turn s)));; mret (mb_turn s).
Definition now : M Membership Z := t ← next_turn; mret (time_Now t).

Definition sign (secret : list byte) (payload : string) : string := hex_encode (hmacSHA256 secret (bytes_of_string payload)).

Definition GenerateToken (createdBy : string) (expiresIn : Z) : M Membership JoinToken :=
  i ← next_turn;
  let id := uuid_New i in
  t ← now;
  s ← get_state;
  let tm := mb_tm s in
  let payload := id +:+ ":" +:+ tm_clusterID tm +:+ ":" +:+ pretty t in
  let token := payload +:+ "." +:+ sign (tm_secret tm) payload in
  t1 ← now;
  expiresAt ← (if bool_decide (expiresIn = 0)%Z then t2 ← now; mret (t2 + 24 * hour)%Z else mret (t1 + expiresIn)%Z);
  createdAt ← now;
  let joinToken := mkToken id token (tm_clusterID tm) createdAt expiresAt "" None createdBy in
  let l := tm_next tm in
  modify (with_tm (mkTM (<[token := l]> (tm_tokens tm)) (<[id := l]> (tm_tokensByID tm)) (tm_clusterID tm) (tm_secret tm)
    (<[l := joinToken]> (tm_heap tm)) (S l)));;
  mret joinToken.

Definition read_token (l : nat) : M Membership JoinToken :=
  s ← get_state; match tm_heap (mb_tm s) !! l with Some tk => mret tk | None => panic end.

Definition ValidateToken (tokenString : string) : M Membership JoinToken :=
  s ← get_state;
  match tm_tokens (mb_tm s) !! tokenString with
  | None => fail "invalid token"
  | Some l =>
      token ← read_token l;
      t ← now;
      if bool_decide (tk_ExpiresAt token < t)%Z then fail "token expired"
      else if bool_decide (tk_UsedBy token ≠ "") then fail "token already used"
      else
        match splitToken tokenString with
        | None => fail "invalid token format"
        | Some (payload, signature) =>
            if bool_decide (signature ≠ sign (tm_secret (mb_tm s)) payload) then fail "invalid token signature"
            else mret token
        end
  end.

Definition MarkTokenUsed (tokenString nodeID : string) : M Membership unit :=
  s ← get_state;
  let tm := mb_tm s in
  match tm_tokens tm !! tokenString with
  | None => fail "token not found"
  | Some l =>
      token ← read_token l;
      t ← now;
      modify (with_tm (mkTM (tm_tokens tm) (tm_tokensByID tm) (tm_clusterID tm) (tm_secret tm)
        (<[l := mkToken (tk_ID token) (tk_Token token) (tk_ClusterID token) (tk_CreatedAt token) (tk_ExpiresAt token)
                  nodeID (Some t) (tk_CreatedBy token)]> (tm_heap tm)) (tm_next tm)))
  end.

Definition RevokeToken (tokenID : string) : M Membership unit :=
  s ← get_state;
  let tm := mb_tm s in
  match tm_tokensByID tm !! tokenID with
  | None => fail "token not found"
  | Some l =>
      token ← read_token l;
      modify (with_tm (mkTM (delete (tk_Token token) (tm_tokens tm)) (delete tokenID (tm_tokensByID tm)) (tm_clusterID tm) (tm_secret tm)
        (tm_heap tm) (tm_next tm)))
  end.

(** A token that [ListTokens] keeps. *)
Definition usable (t : Z) (token : JoinToken) : bool :=
  if bool_decide (tk_ExpiresAt token < t)%Z then false else bool_decide (tk_UsedBy token = "").
Definition ListTokens : M Membership (list JoinToken) :=
  t ← now;
  r ← next_turn;
  s ← get_state;
  mret (filter (λ tk, usable t tk = true) (omap (λ e, tm_heap (mb_tm s) !! e.2) (range_tokens r (tm_tokens (mb_tm s))))).

(** The body of the loop of [CleanupExpiredTokens]. *)
Definition cleanup_token (t : Z) (e : string * nat) : M Membership unit :=
  token ← read_token e.2;
  if bool_decide (tk_ExpiresAt token < t)%Z then
    modify (λ s, let tm := mb_tm s in
      with_tm (mkTM (delete e.1 (tm_tokens tm)) (delete (tk_ID token) (tm_tokensByID tm)) (tm_clusterID tm) (tm_secret tm) (tm_heap tm) (tm_next tm)) s)
  else mret ().
Definition CleanupExpiredTokens : M Membership unit :=
  t ← now;
  r ← next_turn;
  s ← get_state;
  for_each (cleanup_token t) (range_tokens r (tm_tokens (mb_tm s))).

(** ** join.go *)

Definition refused (e : string) : JoinResponse := mkJoinResp false "" "" "" [] e.

Definition HandleJoinRequest (req : JoinRequest) : M Membership JoinResponse :=
  v ← catch (token ← ValidateToken (jr_Token req); mret (inl token)) (λ e, mret (inr e));
  match v with
  | inr e => mret (refused ("invalid token: " +:+ e))
  | inl token =>
      s ← get_state;
      match mb_members s !! jr_NodeID req with
      | Some _ => mret (refused ("node " +:+ jr_NodeID req +:+ " already exists in cluster"))
      | None =>
          joined ← now;
          seen ← now;
          let nodeInfo := mkNode (jr_NodeID req) (jr_Address req) (jr_ClusterPort req) (jr_HTTPPort req) (jr_DriverPort req)
                            NodeStatusActive false joined seen 0 0 in
          modify (λ s, with_members (<[jr_NodeID req := nodeInfo]> (mb_members s)) s);;
          ignore_err (MarkTokenUsed (jr_Token req) (jr_NodeID req));;
          r ← next_turn;
          s ← get_state;
          mret (mkJoinResp true (jr_NodeID req) (tk_ClusterID token) "" (range_members r (mb_members s)).*2 "")
      end
  end.

Definition AddMember (nodeID address : string) (clusterPort httpPort driverPort : Z) : M Membership unit :=
  s ← get_state;
  match mb_members s !! nodeID with
  | Some _ => fail ("node " +:+ nodeID +:+ " already exists")
  | None =>
      joined ← now;
      seen ← now;
      modify (λ s, with_members (<[nodeID := mkNode nodeID address clusterPort httpPort driverPort NodeStatusJoining false joined seen 0 0]>
                                  (mb_members s)) s)
  end.
Definition RemoveMember (nodeID : string) : M Membership unit :=
  s ← get_state;
  match mb_members s !! nodeID with
  | None => fail ("node " +:+ nodeID +:+ " not found")
  | Some _ => modify (λ s, with_members (delete nodeID (mb_members s)) s)
  end.
Definition GetMembers : M Membership (list NodeInfo) := r ← next_turn; s ← get_state; mret (range_members r (mb_members s)).*2.
Definition GetMember (nodeID : string) : M Membership (option NodeInfo) := s ← get_state; mret (mb_members s !! nodeID).
Definition UpdateMemberStatus (nodeID : string) (status : NodeStatus) : M Membership unit :=
  s ← get_state;
  match mb_members s !! nodeID with
  | None => fail ("node " +:+ nodeID +:+ " not found")
  | Some m =>
      t ← now;
      modify (λ s, with_members (<[nodeID := mkNode (n_NodeID m) (n_Address m) (n_ClusterPort m) (n_HTTPPort m) (n_DriverPort m)
        status (n_IsLeader m) (n_JoinedAt m) t (n_DataSizeMB m) (n_TablesCount m)]> (mb_members s)) s)
  end.
End tokens.

(** Documented behaviour: identifiers are not repeated and hold no colon, the clock
    does not go back, a range statement visits every entry once. *)
Class ClusterLaws `{CryptoLaws} `{ClusterRuntime} := {
  cl_uuid_inj n m : uuid_New n = uuid_New m → n = m;
  cl_uuid_no_colon n : free_of ":"%char (uuid_New n) = true;
  cl_time_mono n m : n ≤ m → (time_Now n ≤ time_Now m)%Z;
  cl_range_tokens n m : range_tokens n m ≡ₚ map_to_list m;
  cl_range_members n m : range_members n m ≡ₚ map_to_list m;
}.

(** ** The abstract membership

    The tokens by their texts: the id, when it expires and whether a node has used it;
    every text that was ever issued; the members by their ids. *)

Record atoken := mkA { a_id : string; a_expires : Z; a_used : bool }.
Record abstract := mkAbs { ab_tokens : gmap string atoken; ab_issued : gset string; ab_members : gmap string NodeInfo }.

Inductive member_op :=
| MGenerate (createdBy : string) (expiresIn : Z)
| MRevoke (id : string)
| MList
| MCleanup
| MJoin (req : JoinRequest)
| MAdd (nodeID address : string) (clusterPort httpPort driverPort : Z)
| MRemove (nodeID : string)
| MStatus (nodeID : string) (status : NodeStatus)
| MMember (nodeID : string).
Inductive member_answer :=
| BDone
| BToken (tk : JoinToken)
| BTokens (l : list JoinToken)
| BJoin (resp : JoinResponse)
| BMember (m : option NodeInfo).

(** What the clock may show between two turns. *)
Definition drop_id (id : string) (T : gmap string atoken) : gmap string atoken := filter (λ e, a_id e.2 ≠ id) T.
Definition unexpired (t : Z) (T : gmap string atoken) : gmap string atoken := filter (λ e, (t ≤ a_expires e.2)%Z) T.
Definition admissible (t : Z) (a : option atoken) : option string :=
  match a with
  | None => Some "invalid token"
  | Some a =>
      if bool_decide (a_expires a < t)%Z then Some "token expired"
      else if a_used a then Some "token already used" else None
  end.
Definition describes (tk : JoinToken) (text : string) (a : atoken) : Prop :=
  tk_Token tk = text ∧ tk_ID tk = a_id a ∧ tk_ExpiresAt tk = a_expires a ∧ a_used a = bool_decide (tk_UsedBy tk ≠ "").
Definition joined (req : JoinRequest) (m : NodeInfo) : Prop :=
  n_NodeID m = jr_NodeID req ∧ n_Address m = jr_Address req ∧ n_Status m = NodeStatusActive.
Definition member_with (nodeID address : string) (status : NodeStatus) (m : NodeInfo) : Prop :=
  n_NodeID m = nodeID ∧ n_Address m = address ∧ n_Status m = status.

(** The answers and effects of the operations when the clock shows [lo] before and
    [hi] after. *)
Inductive member_step (lo hi : Z) (s : abstract) : member_op → outcome member_answer → abstract → Prop :=
| ms_generate by_ d tk text a :
    text ∉ ab_issued s → (∀ text' a', ab_tokens s !! text' = Some a' → a_id a' ≠ a_id a) → describes tk text a → a_used a = false →
    (let e := if bool_decide (d = 0)%Z then 24 * hour else d in lo + e ≤ a_expires a ≤ hi + e)%Z →
    member_step lo hi s (MGenerate by_ d) (Ok (BToken tk))
      (mkAbs (<[text := a]> (ab_tokens s)) ({[text]} ∪ ab_issued s) (ab_members s))
| ms_revoke id text a : ab_tokens s !! text = Some a → a_id a = id →
    member_step lo hi s (MRevoke id) (Ok BDone) (mkAbs (drop_id id (ab_tokens s)) (ab_issued s) (ab_members s))
| ms_revoke_missing id : (∀ text a, ab_tokens s !! text = Some a → a_id a ≠ id) →
    member_step lo hi s (MRevoke id) (Err "token not found") s
| ms_list l t : (lo ≤ t ≤ hi)%Z →
    (∀ tk, tk ∈ l → ∃ text a, ab_tokens s !! text = Some a ∧ describes tk text a ∧ admissible t (Some a) = None) →
    (∀ text a, ab_tokens s !! text = Some a → admissible t (Some a) = None → ∃ tk, tk ∈ l ∧ describes tk text a) →
    member_step lo hi s MList (Ok (BTokens l)) s
| ms_cleanup t : (lo ≤ t ≤ hi)%Z →
    member_step lo hi s MCleanup (Ok BDone) (mkAbs (unexpired t (ab_tokens s)) (ab_issued s) (ab_members s))
| ms_join_refused req t e : (lo ≤ t ≤ hi)%Z → admissible t (ab_tokens s !! jr_Token req) = Some e →
    member_step lo hi s (MJoin req) (Ok (BJoin (refused ("invalid token: " +:+ e)))) s
| ms_join_exists req t : (lo ≤ t ≤ hi)%Z → admissible t (ab_tokens s !! jr_Token req) = None → is_Some (ab_members s !! jr_NodeID req) →
    member_step lo hi s (MJoin req) (Ok (BJoin (refused ("node " +:+ jr_NodeID req +:+ " already exists in cluster")))) s
| ms_join req t a m resp : (lo ≤ t ≤ hi)%Z → ab_tokens s !! jr_Token req = Some a → admissible t (Some a) = None →
    ab_members s !! jr_NodeID req = None → joined req m → js_Success resp = true →
    js_Members resp ≡ₚ (map_to_list (<[jr_NodeID req := m]> (ab_members s))).*2 →
    member_step lo hi s (MJoin req) (Ok (BJoin resp))
      (mkAbs (<[jr_Token req := mkA (a_id a) (a_expires a) (bool_decide (jr_NodeID req ≠ ""))]> (ab_tokens s)) (ab_issued s)
        (<[jr_NodeID req := m]> (ab_members s)))
| ms_add id addr p1 p2 p3 m : ab_members s !! id = None → member_with id addr NodeStatusJoining m →
    member_step lo hi s (MAdd id addr p1 p2 p3) (Ok BDone) (mkAbs (ab_tokens s) (ab_issued s) (<[id := m]> (ab_members s)))
| ms_add_exists id addr p1 p2 p3 : is_Some (ab_members s !! id) →
    member_step lo hi s (MAdd id addr p1 p2 p3) (Err ("node " +:+ id +:+ " already exists")) s
| ms_remove id : is_Some (ab_members s !! id) →
    member_step lo hi s (MRemove id) (Ok BDone) (mkAbs (ab_tokens s) (ab_issued s) (delete id (ab_members s)))
| ms_status id st m m' : ab_members s !! id = Some m → member_with (n_NodeID m) (n_Address m) st m' →
    member_step lo hi s (MStatus id st) (Ok BDone) (mkAbs (ab_tokens s) (ab_issued s) (<[id := m']> (ab_members s)))
| ms_not_found op id : op = MRemove id ∨ (∃ st, op = MStatus id st) → ab_members s !! id = None →
    member_step lo hi s op (Err ("node " +:+ id +:+ " not found")) s
| ms_member id : member_step lo hi s (MMember id) (Ok (BMember (ab_members s !! id))) s.

Section exec.
Context `{Crypto} `{ClusterRuntime}.

Definition member_exec (op : member_op) : M Membership member_answer :=
  match op with
  | MGenerate by_ d => tk ← GenerateToken by_ d; mret (BToken tk)
  | MRevoke id => RevokeToken id;; mret BDone
  | MList => l ← ListTokens; mret (BTokens l)
  | MCleanup => CleanupExpiredTokens;; mret BDone
  | MJoin req => resp ← HandleJoinRequest req; mret (BJoin resp)
  | MAdd id addr p1 p2 p3 => AddMember id addr p1 p2 p3;; mret BDone
  | MRemove id => RemoveMember id;; mret BDone
  | MStatus id st => UpdateMemberStatus id st;; mret BDone
  | MMember id => m ← GetMember id; mret (BMember m)
  end.
Fixpoint member_run (ops : list member_op) (s : Membership) : list (outcome member_answer) * Membership :=
  match ops with
  | [] => ([], s)
  | op :: ops' => let '(r, s1) := member_exec op s in let '(rs, s2) := member_run ops' s1 in (r :: rs, s2)
  end.
(** The clock of the run: [turn] before, [turn'] after each operation. *)
Inductive member_steps : nat → abstract → list member_op → list (outcome member_answer) → nat → abstract → Prop :=
| mss_nil n a : member_steps n a [] [] n a
| mss_cons n n1 n2 a a1 a2 op r ops rs :
    n ≤ n1 → member_step (time_Now n) (time_Now n1) a op r a1 → member_steps n1 a1 ops rs n2 a2 →
    member_steps n a (op :: ops) (r :: rs) n2 a2.

(** ** The representation *)

Record rep_token (tm : TokenManager) (text : string) (a : atoken) (l : nat) : Prop := {
  rt_text : tm_tokens tm !! text = Some l;
  rt_id : tm_tokensByID tm !! a_id a = Some l;
  rt_heap : ∃ tk, tm_heap tm !! l = Some tk ∧ describes tk text a;
}.
(** A text that was issued before the turn [n]. *)
Definition issued_before (turn : nat) (text : string) : Prop := ∃ n rest, n < turn ∧ text = uuid_New n +:+ ":" +:+ rest.

Record member_rep (s : Membership) (a : abstract) : Prop := {
  mr_tokens text x : ab_tokens a !! text = Some x → ∃ l, rep_token (mb_tm s) text x l;
  mr_texts text l : tm_tokens (mb_tm s) !! text = Some l → is_Some (ab_tokens a !! text);
  mr_ids id l : tm_tokensByID (mb_tm s) !! id = Some l → ∃ text x, ab_tokens a !! text = Some x ∧ a_id x = id;
  mr_signed text x : ab_tokens a !! text = Some x →
    text ∈ ab_issued a ∧ (∃ n rest, n < mb_turn s ∧ a_id x = uuid_New n ∧ text = uuid_New n +:+ ":" +:+ rest) ∧
    ∃ payload, splitToken text = Some (payload, sign (tm_secret (mb_tm s)) payload);
  mr_issued text : text ∈ ab_issued a → issued_before (mb_turn s) text;
  mr_fresh l tk : tm_heap (mb_tm s) !! l = Some tk → l < tm_next (mb_tm s);
  mr_members : mb_members s = ab_members a;
}.
End exec.

(** ** Token texts *)

Lemma hex_encode_free bs : free_of "."%char (hex_encode bs) = true.
Proof.
  induction bs as [|b bs IH]; [done|]. cbn [hex_encode free_of]. rewrite IH, andb_true_r.
  by destruct b.
Qed.
Lemma last_dot_app p s : free_of "."%char s = true → last_dot (p +:+ String "."%char s) = Some (String.length p).
Proof.
  intros Hs. assert (last_dot s = None) as Hn.
  { induction s as [|c s IH]; [done|]. cbn in Hs. apply andb_true_iff in Hs as [Hc Hs]. cbn. rewrite IH by done.
    apply negb_true_iff, bool_decide_eq_false in Hc. by rewrite bool_decide_eq_false_2. }
  induction p as [|c p IH]; [rewrite sapp_nil|rewrite sapp_cons]; cbn [last_dot].
  - by rewrite Hn, bool_decide_eq_true_2.
  - by rewrite IH.
Qed.
Lemma splitToken_app p s : free_of "."%char s = true → splitToken (p +:+ "." +:+ s) = Some (p, s).
Proof.
  intros Hs. unfold splitToken. change (p +:+ "." +:+ s) with (p +:+ String "."%char s). rewrite last_dot_app by done.
  rewrite str_take_app. do 2 f_equal. clear Hs. induction p as [|c p IH]; [done|]. rewrite sapp_cons. cbn [String.length str_drop] in *. exact IH.
Qed.

Section laws.
Context `{ClusterLaws}.

Lemma issued_inj n r m r' : uuid_New n +:+ ":" +:+ r = uuid_New m +:+ ":" +:+ r' → n = m.
Proof. intros [Hid _]%(cut_inj ":"%char); [by apply cl_uuid_inj|apply cl_uuid_no_colon..]. Qed.

Lemma next_turn_run s : next_turn s = (Ok (mb_turn s), mkMem (mb_tm s) (mb_members s) (S (mb_turn s))).
Proof. done. Qed.
Lemma now_run s : now s = (Ok (time_Now (mb_turn s)), mkMem (mb_tm s) (mb_members s) (S (mb_turn s))).
Proof. done. Qed.

Lemma rep_later tm ms n k a : member_rep (mkMem tm ms n) a → n ≤ k → member_rep (mkMem tm ms k) a.
Proof.
  intros [? ? ? Hsig Hiss ? ?] Hk. split; try done.
  - intros text x Hx. destruct (Hsig text x Hx) as (Hi & (m & rest & Hm & He) & Hp). split; [done|]. split; [|done].
    exists m, rest. split; [cbn in *; lia|done].
  - intros text Hx. destruct (Hiss text Hx) as (m & rest & Hm & He). exists m, rest. split; [cbn in *; lia|done].
Qed.

(** Texts, locations and ids determine one another. *)
Lemma rep_same s a text text' x x' l : member_rep s a →
  rep_token (mb_tm s) text x l → rep_token (mb_tm s) text' x' l → text = text'.
Proof. intros _ [_ _ (tk & Hl & <- & _)] [_ _ (tk' & Hl' & <- & _)]. by simplify_eq. Qed.
Lemma rep_id_inj s a text text' x x' : member_rep s a → ab_tokens a !! text = Some x → ab_tokens a !! text' = Some x' →
  a_id x = a_id x' → text = text'.
Proof.
  intros Hs Hx Hx' Hid. destruct (mr_tokens _ _ Hs _ _ Hx) as [l Hl], (mr_tokens _ _ Hs _ _ Hx') as [l' Hl'].
  assert (l = l') as <-; [|by eapply rep_same]. pose proof (rt_id _ _ _ _ Hl) as Hi. pose proof (rt_id _ _ _ _ Hl') as Hi'.
  rewrite Hid in Hi. congruence.
Qed.
Lemma rep_None s a text : member_rep s a → ab_tokens a !! text = None → tm_tokens (mb_tm s) !! text = None.
Proof. intros Hs Hn. destruct (tm_tokens (mb_tm s) !! text) as [l|] eqn:Hl; [|done]. apply (mr_texts _ _ Hs) in Hl as [? ?]. congruence. Qed.

Lemma Validate_run s a text : member_rep s a → ∃ k,
  let s' := mkMem (mb_tm s) (mb_members s) (mb_turn s + k) in k ≤ 1 ∧
  let t := time_Now (mb_turn s) in
  match admissible t (ab_tokens a !! text) with
  | Some e => ValidateToken text s = (Err e, s')
  | None => ∃ x tk l, ab_tokens a !! text = Some x ∧ rep_token (mb_tm s) text x l ∧ tm_heap (mb_tm s) !! l = Some tk ∧
      describes tk text x ∧ ValidateToken text s = (Ok tk, s')
  end.
Proof.
  intros Hs. unfold ValidateToken. rewrite (bind_ok get_state _ _ _ _ eq_refl). destruct (ab_tokens a !! text) as [x|] eqn:Hx; cbn [admissible].
  - destruct (mr_tokens _ _ Hs _ _ Hx) as [l Hl]. destruct (rt_heap _ _ _ _ Hl) as (tk & Htk & Hd). rewrite (rt_text _ _ _ _ Hl).
    exists 1. split; [done|]. rewrite (bind_ok _ _ _ tk s) by (unfold read_token, mbind, M_mbind, M_bind, get_state; by rewrite Htk).
    rewrite (bind_ok _ _ _ _ _ (now_run s)). rewrite Nat.add_1_r. pose proof Hd as (_ & _ & He & Hu). rewrite He, Hu.
    destruct (bool_decide (a_expires x < _)%Z); [done|]. destruct (bool_decide (tk_UsedBy tk ≠ "")); [done|]. destruct (mr_signed _ _ Hs _ _ Hx) as (_ & _ & payload & Hp). rewrite Hp.
    rewrite bool_decide_eq_false_2 by (intros Hne; by apply Hne). exists x, tk, l. done.
  - exists 0. split; [lia|]. rewrite (rep_None _ _ _ Hs Hx), Nat.add_0_r. by destruct s.
Qed.

(** *** Each operation *)

Definition simulates (op : member_op) (s : Membership) (a : abstract) : Prop :=
  let '(r, s') := member_exec op s in
  mb_turn s ≤ mb_turn s' ∧ ∃ a', member_step (time_Now (mb_turn s)) (time_Now (mb_turn s')) a op r a' ∧ member_rep s' a'.

Lemma simulates_intro op s a r s' a' : member_exec op s = (r, s') → mb_turn s ≤ mb_turn s' →
  member_step (time_Now (mb_turn s)) (time_Now (mb_turn s')) a op r a' → member_rep s' a' → simulates op s a.
Proof. unfold simulates. intros -> ???. split; [done|]. by exists a'. Qed.
Lemma exec_ok {A} (m : M Membership A) (f : A → member_answer) s x s' : m s = (Ok x, s') → (x ← m; mret (f x)) s = (Ok (f x), s').
Proof. intros Hm. by rewrite (bind_ok _ _ _ _ _ Hm). Qed.

(** The text of a new token. *)
Definition new_text (s : Membership) : string :=
  let tm := mb_tm s in
  let payload := uuid_New (mb_turn s) +:+ ":" +:+ tm_clusterID tm +:+ ":" +:+ pretty (time_Now (S (mb_turn s))) in
  payload +:+ "." +:+ sign (tm_secret tm) payload.
Lemma generate_run by_ d s : ∃ exp created k,
  let tm := mb_tm s in let id := uuid_New (mb_turn s) in
  let tk := mkToken id (new_text s) (tm_clusterID tm) created exp "" None by_ in
  GenerateToken by_ d s =
    (Ok tk, mkMem (mkTM (<[new_text s := tm_next tm]> (tm_tokens tm)) (<[id := tm_next tm]> (tm_tokensByID tm)) (tm_clusterID tm) (tm_secret tm)
       (<[tm_next tm := tk]> (tm_heap tm)) (S (tm_next tm))) (mb_members s) k) ∧
  mb_turn s < k ∧ let e := if bool_decide (d = 0)%Z then (24 * hour)%Z else d in
    (time_Now (mb_turn s) + e ≤ exp ≤ time_Now k + e)%Z.
Proof.
  destruct s as [tm ms n]. unfold GenerateToken, new_text. cbn [mb_tm mb_turn mb_members]. destruct (bool_decide (d = 0)%Z) eqn:Hd.
  - exists (time_Now (3 + n) + 24 * hour)%Z, (time_Now (4 + n)), (5 + n). split; [reflexivity|].
    cbv zeta. split; [lia|]. split; apply Z.add_le_mono_r, cl_time_mono; lia.
  - exists (time_Now (2 + n) + d)%Z, (time_Now (3 + n)), (4 + n). split; [reflexivity|].
    cbv zeta. split; [lia|]. split; apply Z.add_le_mono_r, cl_time_mono; lia.
Qed.
Lemma new_text_issued s : ∃ rest, new_text s = uuid_New (mb_turn s) +:+ ":" +:+ rest.
Proof. eexists. unfold new_text. cbv zeta. by rewrite !sapp_assoc. Qed.

Lemma generate_sim by_ d s a : member_rep s a → simulates (MGenerate by_ d) s a.
Proof.
  intros Hs. destruct (generate_run by_ d s) as (exp & created & k & Hrun & Hk & Hexp). set (tk := mkToken _ _ _ _ _ _ _ _) in *.
  destruct (new_text_issued s) as [rest Htext]. set (text := new_text s) in *. set (id := uuid_New (mb_turn s)) in *.
  assert (text ∉ ab_issued a) as Hfresh.
  { intros (m & r & Hm & Hr)%(mr_issued _ _ Hs). rewrite Htext in Hr. apply issued_inj in Hr. lia. }
  assert (∀ text' x, ab_tokens a !! text' = Some x → text' ≠ text ∧ a_id x ≠ id) as Hne.
  { intros text' x Hx. destruct (mr_signed _ _ Hs _ _ Hx) as (Hi & (m & r & Hm & Hid & _) & _). split; [by intros ->|].
    rewrite Hid. intros Heq%cl_uuid_inj. lia. }
  assert (describes tk text (mkA id exp false)) as Hdesc by done.
  eapply (simulates_intro _ _ _ _ _ (mkAbs (<[text := mkA id exp false]> (ab_tokens a)) ({[text]} ∪ ab_issued a) (ab_members a)));
    [by apply exec_ok|cbn; lia|by apply ms_generate; [|intros ? ? ?%Hne|..]; naive_solver|].
  split; cbn.
  - intros text' x [[<- <-]|[Hn Hx]]%lookup_insert_Some.
    + exists (tm_next (mb_tm s)). split; cbn; [by rewrite lookup_insert_eq..|]. exists tk. by rewrite lookup_insert_eq.
    + destruct (mr_tokens _ _ Hs _ _ Hx) as (l & [Ht Hi (tk' & Hl & Hd)]). exists l. split; cbn.
      * by rewrite lookup_insert_ne.
      * rewrite lookup_insert_ne; [done|]. intros Heq. by destruct (Hne _ _ Hx) as [_ []].
      * exists tk'. rewrite lookup_insert_ne; [done|]. apply (mr_fresh _ _ Hs) in Hl. lia.
  - intros text' l [[<- <-]|[Hn Hl]]%lookup_insert_Some; [by rewrite lookup_insert_eq|]. rewrite lookup_insert_ne by done. by eapply mr_texts.
  - intros id' l [[<- <-]|[Hn Hl]]%lookup_insert_Some.
    + exists text, (mkA id exp false). by rewrite lookup_insert_eq.
    + destruct (mr_ids _ _ Hs _ _ Hl) as (text' & x & Hx & Hid). exists text', x. rewrite lookup_insert_ne; [done|]. intros ->. by destruct (Hne _ _ Hx).
  - intros text' x [[<- <-]|[Hn Hx]]%lookup_insert_Some.
    + split; [set_solver|]. split; [by exists (mb_turn s), rest|]. eexists. apply splitToken_app, hex_encode_free.
    + destruct (mr_signed _ _ Hs _ _ Hx) as (Hi & (m & r & Hm & Hid) & Hp). split; [set_solver|]. split; [|done]. exists m, r. split; [lia|done].
  - intros text' [->%elem_of_singleton|Hi]%elem_of_union; [by exists (mb_turn s), rest|].
    destruct (mr_issued _ _ Hs _ Hi) as (m & r & Hm & Hr). exists m, r. split; [lia|done].
  - intros l tk' [[<- _]|[_ Hl]]%lookup_insert_Some; [lia|]. apply (mr_fresh _ _ Hs) in Hl. lia.
  - apply Hs.
Qed.

(** A table with tokens removed. *)
Lemma rep_shrink s a (keep : string → atoken → Prop) (Hdec : ∀ text x, Decision (keep text x)) toks ids n :
  member_rep s a → mb_turn s ≤ n →
  (∀ text l, toks !! text = Some l → tm_tokens (mb_tm s) !! text = Some l) →
  (∀ id l, ids !! id = Some l → tm_tokensByID (mb_tm s) !! id = Some l) →
  (∀ text x, ab_tokens a !! text = Some x → keep text x →
    toks !! text = tm_tokens (mb_tm s) !! text ∧ ids !! a_id x = tm_tokensByID (mb_tm s) !! a_id x) →
  (∀ text x, ab_tokens a !! text = Some x → ¬ keep text x → toks !! text = None ∧ ids !! a_id x = None) →
  let tm := mb_tm s in
  member_rep (mkMem (mkTM toks ids (tm_clusterID tm) (tm_secret tm) (tm_heap tm) (tm_next tm)) (mb_members s) n)
    (mkAbs (filter (λ e, keep e.1 e.2) (ab_tokens a)) (ab_issued a) (ab_members a)).
Proof.
  intros Hs Hn Htoks Hids Hkeep Hdrop tm. split; cbn.
  - intros text x [Hx Hk]%map_lookup_filter_Some. destruct (mr_tokens _ _ Hs _ _ Hx) as (l & [Ht Hi Hh]).
    destruct (Hkeep _ _ Hx Hk) as [Hkt Hki]. exists l. split; cbn; [by rewrite Hkt|by rewrite Hki|done].
  - intros text l Hl. apply Htoks in Hl as Hl'. destruct (mr_texts _ _ Hs _ _ Hl') as [x Hx]. exists x. apply map_lookup_filter_Some. split; [done|].
    cbn. destruct (decide (keep text x)) as [|Hk]; [done|]. destruct (Hdrop _ _ Hx Hk). congruence.
  - intros id l Hl. apply Hids in Hl as Hl'. destruct (mr_ids _ _ Hs _ _ Hl') as (text & x & Hx & <-). exists text, x. split; [|done].
    apply map_lookup_filter_Some. split; [done|]. cbn. destruct (decide (keep text x)) as [|Hk]; [done|]. destruct (Hdrop _ _ Hx Hk). congruence.
  - intros text x [Hx _]%map_lookup_filter_Some. destruct (mr_signed _ _ Hs _ _ Hx) as (Hi & (m & r & Hm & Hid) & Hp).
    split; [done|]. split; [|done]. exists m, r. split; [lia|done].
  - intros text Hi. destruct (mr_issued _ _ Hs _ Hi) as (m & r & Hm & Hr). exists m, r. split; [lia|done].
  - apply Hs.
  - apply Hs.
Qed.

Lemma read_token_run s a text x l : member_rep s a → rep_token (mb_tm s) text x l → ∃ tk, read_token l s = (Ok tk, s) ∧ describes tk text x.
Proof.
  intros _ [_ _ (tk & Hl & Hd)]. exists tk. split; [|done]. unfold read_token, mbind, M_mbind, M_bind, get_state. by rewrite Hl.
Qed.

Lemma revoke_sim id s a : member_rep s a → simulates (MRevoke id) s a.
Proof.
  intros Hs. destruct (tm_tokensByID (mb_tm s) !! id) as [l|] eqn:Hl.
  - destruct (mr_ids _ _ Hs _ _ Hl) as (text & x & Hx & Hid). destruct (mr_tokens _ _ Hs _ _ Hx) as (l' & Hrep).
    pose proof (rt_id _ _ _ _ Hrep) as Hl'. rewrite Hid, Hl in Hl'. injection Hl' as <-.
    destruct (read_token_run _ _ _ _ _ Hs Hrep) as (tk & Hread & Ht & _).
    eapply simulates_intro; [unfold member_exec; apply exec_ok; unfold RevokeToken; rewrite (bind_ok get_state _ _ _ _ eq_refl); cbv zeta;
      rewrite Hl, (bind_ok _ _ _ _ _ Hread); reflexivity|done|by eapply ms_revoke|]. rewrite Ht.
    refine (rep_shrink s a (λ _ y, a_id y ≠ id) (λ _ y, not_dec _) _ _ (mb_turn s) Hs _ _ _ _ _); [done|..].
    + by intros ? ? [_ ?]%lookup_delete_Some.
    + by intros ? ? [_ ?]%lookup_delete_Some.
    + intros text' y Hy Hne. rewrite !lookup_delete_ne; [done|congruence|]. intros <-. rewrite Hx in Hy. by simplify_eq.
    + intros text' y Hy ?%dec_stable. assert (text = text') as <- by (eapply rep_id_inj; [done|done|done|congruence]).
      rewrite Hx in Hy. simplify_eq. by rewrite !lookup_delete_eq.
  - eapply simulates_intro; [unfold member_exec, RevokeToken; rewrite (bind_err _ _ s "token not found" s);
      [reflexivity|rewrite (bind_ok get_state _ _ _ _ eq_refl); cbv zeta; by rewrite Hl]|done|apply ms_revoke_missing|by destruct s].
    intros text x Hx <-. destruct (mr_tokens _ _ Hs _ _ Hx) as (l & Hrep). pose proof (rt_id _ _ _ _ Hrep). congruence.
Qed.

(** The loop of [CleanupExpiredTokens] deletes the keys of the expired tokens. *)
Definition expired (heap : gmap nat JoinToken) (t : Z) (l : nat) : bool :=
  match heap !! l with Some tk => bool_decide (tk_ExpiresAt tk < t)%Z | None => false end.
Definition id_at (heap : gmap nat JoinToken) (l : nat) : string := match heap !! l with Some tk => tk_ID tk | None => "" end.
Definition delete_keys {V} (ks : list string) (m : gmap string V) : gmap string V := foldl (λ m k, delete k m) m ks.
Lemma cleanup_loop t es : ∀ toks ids cid sec heap nx ms n,
  (∀ e, e ∈ es → is_Some (heap !! e.2)) →
  let dead := filter (λ e, expired heap t e.2 = true) es in
  for_each (cleanup_token t) es (mkMem (mkTM toks ids cid sec heap nx) ms n) =
    (Ok (), mkMem (mkTM (delete_keys dead.*1 toks) (delete_keys ((id_at heap) <$> dead.*2) ids) cid sec heap nx) ms n).
Proof.
  induction es as [|[text l] es IH]; intros toks ids cid sec heap nx ms n Hh; [done|]. cbv zeta. cbn [for_each].
  destruct (Hh (text, l)) as [tk Htk]; [by left|]. cbn in Htk.
  assert (cleanup_token t (text, l) (mkMem (mkTM toks ids cid sec heap nx) ms n) =
    (Ok (), if expired heap t l then mkMem (mkTM (delete text toks) (delete (id_at heap l) ids) cid sec heap nx) ms n
            else mkMem (mkTM toks ids cid sec heap nx) ms n)) as Hstep.
  { unfold cleanup_token, read_token, expired, id_at, mbind, M_mbind, M_bind, get_state, mret, M_mret. cbn. rewrite Htk. by case_bool_decide. }
  rewrite (bind_ok _ _ _ _ _ Hstep). rewrite filter_cons. cbn [snd]. destruct (expired heap t l); cbn [bool_decide decide].
  - destruct (decide (true = true)); [|done]. rewrite IH; [done|]. intros ? ?. apply Hh. by right.
  - destruct (decide (false = true)); [done|]. rewrite IH; [done|]. intros ? ?. apply Hh. by right.
Qed.

Lemma cleanup_sim s a : member_rep s a → simulates MCleanup s a.
Proof.
  intros Hs. set (n := mb_turn s). set (t := time_Now n). set (tm := mb_tm s). set (es := range_tokens (S n) (tm_tokens tm)).
  assert (∀ text l, (text, l) ∈ es ↔ tm_tokens tm !! text = Some l) as Hes.
  { intros text l. unfold es. rewrite cl_range_tokens. apply elem_of_map_to_list. }
  assert (∀ e, e ∈ es → is_Some (tm_heap tm !! e.2)) as Hheap.
  { intros [text l] Hl%Hes. destruct (mr_texts _ _ Hs _ _ Hl) as [x Hx]. destruct (mr_tokens _ _ Hs _ _ Hx) as (l' & [Ht _ (tk & Htk & _)]).
    fold tm in Ht, Htk. cbn. rewrite Hl in Ht. injection Ht as ->. by exists tk. }
  set (dead := filter (λ e, expired (tm_heap tm) t e.2 = true) es).
  assert (∀ text x, ab_tokens a !! text = Some x → ∃ l tk, rep_token tm text x l ∧ tm_heap tm !! l = Some tk ∧ describes tk text x ∧
    ((text, l) ∈ dead ↔ (a_expires x < t)%Z)) as Hdead.
  { intros text x Hx. destruct (mr_tokens _ _ Hs _ _ Hx) as (l & Hrep). pose proof Hrep as [Ht _ (tk & Htk & Hd)]. exists l, tk. do 3 (split; [done|]).
    unfold dead. rewrite list_elem_of_filter, Hes. unfold expired. cbn. fold tm in Ht, Htk. rewrite Htk, bool_decide_eq_true.
    destruct Hd as (_ & _ & -> & _). naive_solver. }
  assert (∀ text l, (text, l) ∈ dead → ∃ x tk, ab_tokens a !! text = Some x ∧ tm_tokens tm !! text = Some l ∧ tm_heap tm !! l = Some tk ∧
    describes tk text x ∧ (a_expires x < t)%Z) as Hsub.
  { intros text l Hd. pose proof Hd as [_ Hl%Hes]%list_elem_of_filter. destruct (mr_texts _ _ Hs _ _ Hl) as [x Hx].
    destruct (Hdead text x Hx) as (l' & tk & Hrep & Htk & Hdesc & Hiff). pose proof (rt_text _ _ _ _ Hrep) as Hl'. rewrite Hl in Hl'. injection Hl' as <-.
    exists x, tk. by rewrite <- Hiff. }
  assert (∀ text x, ab_tokens a !! text = Some x → (text ∈ dead.*1 ↔ (a_expires x < t)%Z) ∧ (a_id x ∈ id_at (tm_heap tm) <$> dead.*2 ↔ (a_expires x < t)%Z)) as Hin.
  { intros text x Hx. destruct (Hdead text x Hx) as (l & tk & Hrep & Htk & Hdesc & Hiff). split; (split; [|intros He; apply Hiff in He]).
    - intros ([text' l'] & -> & (x' & tk' & Hx' & _ & _ & _ & He)%Hsub)%list_elem_of_fmap. cbn in Hx. by simplify_eq.
    - apply list_elem_of_fmap. by exists (text, l).
    - intros (l' & Hid & ([text' l2] & -> & (x' & tk' & Hx' & _ & Htk' & (_ & Hid' & _) & He)%Hsub)%list_elem_of_fmap)%list_elem_of_fmap.
      cbn in Hid. unfold id_at in Hid. rewrite Htk' in Hid. assert (text = text') as <- by (eapply (rep_id_inj s a); [done|done|done|congruence]). by simplify_eq.
    - apply list_elem_of_fmap. exists l. split; [|apply list_elem_of_fmap; by exists (text, l)]. unfold id_at. rewrite Htk. by destruct Hdesc as (_ & -> & _). }
  assert (CleanupExpiredTokens s = (Ok (), mkMem (mkTM (delete_keys dead.*1 (tm_tokens tm)) (delete_keys (id_at (tm_heap tm) <$> dead.*2) (tm_tokensByID tm))
    (tm_clusterID tm) (tm_secret tm) (tm_heap tm) (tm_next tm)) (mb_members s) (S (S n)))) as Hrun.
  { unfold CleanupExpiredTokens. rewrite (bind_ok _ _ _ _ _ (now_run s)), (bind_ok _ _ _ _ _ (next_turn_run _)), (bind_ok get_state _ _ _ _ eq_refl).
    cbn [mb_tm mb_turn mb_members]. fold n t tm es. unfold dead. destruct tm as [toks ids cid sec heap nx]. by apply cleanup_loop. }
  eapply (simulates_intro _ _ _ _ _ (mkAbs (unexpired t (ab_tokens a)) (ab_issued a) (ab_members a))).
  - unfold member_exec. by rewrite (bind_ok _ _ _ _ _ Hrun).
  - cbn. lia.
  - apply ms_cleanup. cbn. split; [done|]. apply cl_time_mono. lia.
  - refine (rep_shrink s a (λ _ y, (t ≤ a_expires y)%Z) (λ _ y, Z.le_dec _ _) _ _ (S (S n)) Hs _ _ _ _ _); [unfold n; lia|..].
    + intros text l. unfold delete_keys. rewrite foldl_delete_lookup. by case_decide.
    + intros id l. unfold delete_keys. rewrite foldl_delete_lookup. by case_decide.
    + intros text x Hx Hk. destruct (Hin text x Hx) as [Hi1 Hi2]. unfold delete_keys. rewrite !foldl_delete_lookup, !decide_False; [done|rewrite Hi2|rewrite Hi1]; lia.
    + intros text x Hx Hk. destruct (Hin text x Hx) as [Hi1 Hi2]. unfold delete_keys. rewrite !foldl_delete_lookup, !decide_True; [done|apply Hi2|apply Hi1]; lia.
Qed.

Lemma rep_turn s a n : member_rep s a → mb_turn s ≤ n → member_rep (mkMem (mb_tm s) (mb_members s) n) a.
Proof. destruct s. apply rep_later. Qed.
Lemma rep_members s a ms n : member_rep s a → mb_turn s ≤ n →
  member_rep (mkMem (mb_tm s) ms n) (mkAbs (ab_tokens a) (ab_issued a) ms).
Proof.
  intros Hs Hn. apply (rep_turn _ _ _ Hs) in Hn. destruct Hn. by split.
Qed.

Lemma usable_admissible t tk text x : describes tk text x → usable t tk = bool_decide (admissible t (Some x) = None).
Proof.
  intros (_ & _ & He & Hu). unfold usable, admissible. rewrite He, Hu.
  destruct (bool_decide (a_expires x < t)%Z); [done|]. destruct (decide (tk_UsedBy tk = "")) as [Hn|Hn].
  - by rewrite (bool_decide_eq_true_2 (tk_UsedBy tk = "")), (bool_decide_eq_false_2 (tk_UsedBy tk ≠ "")) by (intros ?; done) || done.
  - by rewrite (bool_decide_eq_false_2 (tk_UsedBy tk = "")), (bool_decide_eq_true_2 (tk_UsedBy tk ≠ "")) by done.
Qed.
Lemma list_sim s a : member_rep s a → simulates MList s a.
Proof.
  intros Hs. set (n := mb_turn s). set (t := time_Now n). set (tm := mb_tm s).
  set (l := filter (λ tk, usable t tk = true) (omap (λ e, tm_heap tm !! e.2) (range_tokens (S n) (tm_tokens tm)))).
  eapply (simulates_intro _ _ _ (Ok (BTokens l)) (mkMem tm (mb_members s) (S (S n))) a).
  - unfold member_exec, ListTokens. apply exec_ok.
    by rewrite (bind_ok _ _ _ _ _ (now_run s)), (bind_ok _ _ _ _ _ (next_turn_run _)), (bind_ok get_state _ _ _ _ eq_refl).
  - cbn. lia.
  - eapply (ms_list _ _ _ _ t); [split; [done|apply cl_time_mono; cbn; lia]|..].
    + intros tk [Hu ([text loc] & Hin & Hl)%list_elem_of_omap]%list_elem_of_filter. rewrite cl_range_tokens in Hin.
      apply elem_of_map_to_list in Hin. destruct (mr_texts _ _ Hs _ _ Hin) as [x Hx]. exists text, x. split; [done|].
      destruct (mr_tokens _ _ Hs _ _ Hx) as (loc' & [Ht _ (tk' & Htk & Hd)]). cbn in Hl. fold tm in Ht, Htk. simplify_eq. split; [done|].
      rewrite (usable_admissible _ _ _ _ Hd) in Hu. by apply bool_decide_eq_true in Hu.
    + intros text x Hx Ha. destruct (mr_tokens _ _ Hs _ _ Hx) as (loc & [Ht _ (tk & Htk & Hd)]). exists tk. split; [|done].
      apply list_elem_of_filter. split; [rewrite (usable_admissible t tk text x Hd); by apply bool_decide_eq_true|].
      apply list_elem_of_omap. exists (text, loc). split; [|done]. rewrite cl_range_tokens. by apply elem_of_map_to_list.
  - apply (rep_turn s a); [done|unfold n; lia].
Qed.

(** A used token. *)
Lemma rep_mark s a text x l tk ms n used : member_rep s a → mb_turn s ≤ n → ab_tokens a !! text = Some x →
  rep_token (mb_tm s) text x l → describes tk text (mkA (a_id x) (a_expires x) used) →
  let tm := mb_tm s in
  member_rep (mkMem (mkTM (tm_tokens tm) (tm_tokensByID tm) (tm_clusterID tm) (tm_secret tm) (<[l := tk]> (tm_heap tm)) (tm_next tm)) ms n)
    (mkAbs (<[text := mkA (a_id x) (a_expires x) used]> (ab_tokens a)) (ab_issued a) ms).
Proof.
  intros Hs Hn Hx Hrep Hd tm. split; cbn.
  - intros text' y [[<- <-]|[Hne Hy]]%lookup_insert_Some.
    + exists l. destruct Hrep as [Ht Hi _]. split; [done|done|]. exists tk. cbn. by rewrite lookup_insert_eq.
    + destruct (mr_tokens _ _ Hs _ _ Hy) as (l' & Hrep'). exists l'. pose proof Hrep' as [Ht Hi (tk' & Htk & Hd')]. split; [done|done|].
      exists tk'. cbn. rewrite lookup_insert_ne; [done|]. intros <-. by destruct Hne, (rep_same s a text text' x y l Hs Hrep Hrep').
  - intros text' l' Hl. destruct (mr_texts _ _ Hs _ _ Hl) as [y Hy]. destruct (decide (text = text')) as [<-|Hne]; [by rewrite lookup_insert_eq|by rewrite lookup_insert_ne].
  - intros id l' Hl. destruct (mr_ids _ _ Hs _ _ Hl) as (text' & y & Hy & Hid). destruct (decide (text = text')) as [<-|Hne].
    + exists text, (mkA (a_id x) (a_expires x) used). rewrite lookup_insert_eq. split; [done|]. cbn. congruence.
    + exists text', y. by rewrite lookup_insert_ne.
  - intros text' y Hy. assert (∃ y', ab_tokens a !! text' = Some y' ∧ a_id y' = a_id y) as (y' & Hy' & Hid).
    { apply lookup_insert_Some in Hy as [[<- <-]|[_ Hy]]; eauto. }
    destruct (mr_signed _ _ Hs _ _ Hy') as (Hi & (m & r & Hm & Hr) & Hp). split; [done|]. split; [|done]. exists m, r. rewrite <- Hid. split; [lia|done].
  - intros text' Hi. destruct (mr_issued _ _ Hs _ Hi) as (m & r & Hm & Hr). exists m, r. split; [lia|done].
  - intros l' tk' [[<- _]|[_ Hl]]%lookup_insert_Some; [|by eapply (mr_fresh _ _ Hs)].
    destruct Hrep as [_ _ (tk0 & Htk0 & _)]. by eapply (mr_fresh _ _ Hs).
  - done.
Qed.

Lemma mark_run s a text x l tk node : member_rep s a → rep_token (mb_tm s) text x l → tm_heap (mb_tm s) !! l = Some tk → 
  let tm := mb_tm s in
  MarkTokenUsed text node s = (Ok (), mkMem (mkTM (tm_tokens tm) (tm_tokensByID tm) (tm_clusterID tm) (tm_secret tm)
    (<[l := mkToken (tk_ID tk) (tk_Token tk) (tk_ClusterID tk) (tk_CreatedAt tk) (tk_ExpiresAt tk) node (Some (time_Now (mb_turn s))) (tk_CreatedBy tk)]>
      (tm_heap tm)) (tm_next tm)) (mb_members s) (S (mb_turn s))).
Proof.
  intros _ [Ht _ _] Htk. unfold MarkTokenUsed. rewrite (bind_ok get_state _ _ _ _ eq_refl). cbv zeta. rewrite Ht.
  rewrite (bind_ok _ _ _ tk s) by (unfold read_token, mbind, M_mbind, M_bind, get_state; by rewrite Htk). by rewrite (bind_ok _ _ _ _ _ (now_run s)).
Qed.

Lemma join_sim req s a : member_rep s a → simulates (MJoin req) s a.
Proof.
  intros Hs. destruct (Validate_run s a (jr_Token req) Hs) as (k & Hk & Hv). set (s1 := mkMem _ _ (mb_turn s + k)) in *. cbv zeta in Hv.
  assert (member_rep s1 a) as Hs1 by (apply rep_turn; [done|cbn; lia]).
  assert (∀ s', mb_turn s ≤ mb_turn s' → (time_Now (mb_turn s) ≤ time_Now (mb_turn s) ≤ time_Now (mb_turn s'))%Z) as Htime.
  { intros s' Hle. split; [done|]. by apply cl_time_mono. }
  destruct (admissible (time_Now (mb_turn s)) (ab_tokens a !! jr_Token req)) as [e|] eqn:Hadm.
  - apply (simulates_intro _ _ _ (Ok (BJoin (refused ("invalid token: " +:+ e)))) s1 a); [|cbn; lia| |done].
    + unfold member_exec. apply exec_ok. unfold HandleJoinRequest. rewrite (bind_ok _ _ _ (inr e) s1); [done|].
      unfold catch. by rewrite (bind_err _ _ _ _ _ Hv).
    + eapply (ms_join_refused _ _ _ _ (time_Now (mb_turn s))); [apply Htime; cbn; lia|done].
  - destruct Hv as (x & tk & l & Hx & Hrep & Htk & Hd & Hv). rewrite Hx in Hadm.
    assert (∀ f : JoinToken + string → M Membership JoinResponse,
      (catch (token ← ValidateToken (jr_Token req); mret (inl token)) (λ e, mret (inr e)) ≫= f) s = f (inl tk) s1) as Hcatch.
    { intros f. rewrite (bind_ok _ _ _ (inl tk) s1); [done|]. unfold catch. by rewrite (bind_ok _ _ _ _ _ Hv). }
    destruct (mb_members s !! jr_NodeID req) as [m0|] eqn:Hmem.
    + apply (simulates_intro _ _ _ (Ok (BJoin (refused ("node " +:+ jr_NodeID req +:+ " already exists in cluster")))) s1 a); [|cbn; lia| |done].
      * unfold member_exec. apply exec_ok. unfold HandleJoinRequest. rewrite Hcatch, (bind_ok get_state _ _ _ _ eq_refl).
        cbn [mb_members s1]. by rewrite Hmem.
      * eapply (ms_join_exists _ _ _ _ (time_Now (mb_turn s))); [apply Htime; cbn; lia|by rewrite Hx|].
        rewrite <- (mr_members _ _ Hs), Hmem. by eexists.
    + set (m := mkNode (jr_NodeID req) (jr_Address req) (jr_ClusterPort req) (jr_HTTPPort req) (jr_DriverPort req)
        NodeStatusActive false (time_Now (mb_turn s1)) (time_Now (S (mb_turn s1))) 0 0).
      set (s2 := mkMem (mb_tm s) (<[jr_NodeID req := m]> (mb_members s)) (S (S (mb_turn s1)))).
      assert (member_rep s2 (mkAbs (ab_tokens a) (ab_issued a) (<[jr_NodeID req := m]> (mb_members s)))) as Hs2 by (apply rep_members; [done|cbn; lia]).
      pose proof (mark_run s2 _ _ x l tk (jr_NodeID req) Hs2 Hrep Htk) as Hmark. cbv zeta in Hmark. cbn [mb_tm mb_members mb_turn s2] in Hmark.
      eapply (simulates_intro _ _ _ _ _ (mkAbs (<[jr_Token req := mkA (a_id x) (a_expires x) (bool_decide (jr_NodeID req ≠ ""))]> (ab_tokens a)) (ab_issued a)
        (<[jr_NodeID req := m]> (ab_members a)))).
      * unfold member_exec. apply exec_ok. unfold HandleJoinRequest. rewrite Hcatch, (bind_ok get_state _ _ _ _ eq_refl).
        cbn [mb_members s1]. rewrite Hmem, (bind_ok _ _ _ _ _ (now_run s1)), (bind_ok _ _ _ _ _ (now_run _)).
        rewrite (bind_ok (modify _) _ _ () _ eq_refl). rewrite (bind_ok (ignore_err _) _ s2 () _) by (unfold ignore_err; by rewrite Hmark).
        rewrite (bind_ok _ _ _ _ _ (next_turn_run _)), (bind_ok get_state _ _ _ _ eq_refl). reflexivity.
      * cbn. lia.
      * eapply (ms_join _ _ _ _ (time_Now (mb_turn s))); [apply Htime; cbn; lia|done..| |done|done|].
        -- by rewrite <- (mr_members _ _ Hs).
        -- cbn. by rewrite cl_range_members, (mr_members _ _ Hs).
      * rewrite <- (mr_members _ _ Hs). apply (rep_turn (mkMem _ _ (S (S (S (mb_turn s1)))))); [|cbn; lia]. eapply (rep_mark s); [done|cbn; lia|done|done|].
        destruct Hd as (Ht & Hi & He & _). by split_and!.
Qed.

Lemma add_sim id addr p1 p2 p3 s a : member_rep s a → simulates (MAdd id addr p1 p2 p3) s a.
Proof.
  intros Hs. destruct (mb_members s !! id) as [m0|] eqn:Hm.
  - apply (simulates_intro _ _ _ (Err ("node " +:+ id +:+ " already exists")) s a); [|done| |done].
    + unfold member_exec. apply bind_err. unfold AddMember. rewrite (bind_ok get_state _ _ _ _ eq_refl). by rewrite Hm.
    + apply ms_add_exists. rewrite <- (mr_members _ _ Hs), Hm. by eexists.
  - eapply simulates_intro; [|..|apply (rep_members s); [done|]].
    + unfold member_exec. rewrite (bind_ok _ _ _ () (mkMem (mb_tm s) (<[id := mkNode id addr p1 p2 p3 NodeStatusJoining false (time_Now (mb_turn s)) (time_Now (S (mb_turn s))) 0 0]> (mb_members s)) (S (S (mb_turn s))))); [reflexivity|].
      unfold AddMember. rewrite (bind_ok get_state _ _ _ _ eq_refl). by rewrite Hm.
    + cbn. lia.
    + rewrite (mr_members _ _ Hs). apply ms_add; [by rewrite <- (mr_members _ _ Hs)|done].
    + cbn. lia.
Qed.
Lemma remove_sim id s a : member_rep s a → simulates (MRemove id) s a.
Proof.
  intros Hs. destruct (mb_members s !! id) as [m0|] eqn:Hm.
  - eapply simulates_intro; [|..|apply (rep_members s); [done|]].
    + unfold member_exec. rewrite (bind_ok _ _ _ () (mkMem (mb_tm s) (delete id (mb_members s)) (mb_turn s))); [reflexivity|].
      unfold RemoveMember. rewrite (bind_ok get_state _ _ _ _ eq_refl). by rewrite Hm.
    + done.
    + rewrite (mr_members _ _ Hs). apply ms_remove. rewrite <- (mr_members _ _ Hs), Hm. by eexists.
    + done.
  - apply (simulates_intro _ _ _ (Err ("node " +:+ id +:+ " not found")) s a); [|done| |done].
    + unfold member_exec. apply bind_err. unfold RemoveMember. rewrite (bind_ok get_state _ _ _ _ eq_refl). by rewrite Hm.
    + apply ms_not_found; [by left|by rewrite <- (mr_members _ _ Hs)].
Qed.
Lemma status_sim id st s a : member_rep s a → simulates (MStatus id st) s a.
Proof.
  intros Hs. destruct (mb_members s !! id) as [m|] eqn:Hm.
  - eapply simulates_intro; [|..|apply (rep_members s); [done|]].
    + unfold member_exec. rewrite (bind_ok _ _ _ () (mkMem (mb_tm s) (<[id := mkNode (n_NodeID m) (n_Address m) (n_ClusterPort m) (n_HTTPPort m) (n_DriverPort m)
        st (n_IsLeader m) (n_JoinedAt m) (time_Now (mb_turn s)) (n_DataSizeMB m) (n_TablesCount m)]> (mb_members s)) (S (mb_turn s)))); [reflexivity|].
      unfold UpdateMemberStatus. rewrite (bind_ok get_state _ _ _ _ eq_refl). by rewrite Hm.
    + cbn. lia.
    + rewrite (mr_members _ _ Hs). eapply (ms_status _ _ _ _ _ m); [by rewrite <- (mr_members _ _ Hs)|done].
    + cbn. lia.
  - apply (simulates_intro _ _ _ (Err ("node " +:+ id +:+ " not found")) s a); [|done| |done].
    + unfold member_exec. apply bind_err. unfold UpdateMemberStatus. rewrite (bind_ok get_state _ _ _ _ eq_refl). by rewrite Hm.
    + apply ms_not_found; [right; by exists st|by rewrite <- (mr_members _ _ Hs)].
Qed.

Lemma exec_sim op s a : member_rep s a → simulates op s a.
Proof.
  intros Hs. destruct op as [by_ d|id| | |req|id addr p1 p2 p3|id|id st|id].
  - by apply generate_sim.
  - by apply revoke_sim.
  - by apply list_sim.
  - by apply cleanup_sim.
  - by apply join_sim.
  - by apply add_sim.
  - by apply remove_sim.
  - by apply status_sim.
  - apply (simulates_intro _ _ _ (Ok (BMember (mb_members s !! id))) s a); [done|done| |done]. rewrite (mr_members _ _ Hs). apply ms_member.
Qed.
Lemma run_sim ops : ∀ s a, member_rep s a → ∃ a',
  member_steps (mb_turn s) a ops (member_run ops s).1 (mb_turn (member_run ops s).2) a' ∧ member_rep (member_run ops s).2 a'.
Proof.
  induction ops as [|op ops IH]; intros s a Hs; [exists a; by split; [constructor|]|]. cbn [member_run].
  pose proof (exec_sim op s a Hs) as He. unfold simulates in He. destruct (member_exec op s) as [r s1]. destruct He as (Hle & a1 & Hstep & Hs1).
  destruct (IH s1 a1 Hs1) as (a2 & Hsteps & Hs2). destruct (member_run ops s1) as [rs s2]. exists a2. split; [|done]. by econstructor.
Qed.
End laws.

(** ** What the steps of the abstract membership imply *)

(** A text that was issued and can admit nobody any more. *)
Definition spent (text : string) (a : abstract) : Prop :=
  text ∈ ab_issued a ∧ ∀ x, ab_tokens a !! text = Some x → a_used x = true.
Definition all_issued (a : abstract) : Prop := ∀ text x, ab_tokens a !! text = Some x → text ∈ ab_issued a.
Definition admits (op : member_op) (r : outcome member_answer) (text : string) : Prop :=
  ∃ req resp, op = MJoin req ∧ r = Ok (BJoin resp) ∧ js_Success resp = true ∧ jr_Token req = text.
(** A node that joins has a name. *)
Definition named (op : member_op) : Prop := match op with MJoin req => jr_NodeID req ≠ "" | _ => True end.

Lemma admissible_unused t x : admissible t (Some x) = None → a_used x = false.
Proof. unfold admissible. case_bool_decide; [done|]. by destruct (a_used x). Qed.
(** [Hu] says that the token is used, and it was accepted. *)
Ltac contradict_unused Hu :=
  match goal with [ Ht : ab_tokens _ !! _ = Some _ |- _ ] => apply Hu in Ht end;
  match goal with [ Ha : admissible _ _ = None |- _ ] => apply admissible_unused in Ha end; congruence.
Lemma all_issued_step lo hi a op r a' : member_step lo hi a op r a' → all_issued a → all_issued a'.
Proof.
  intros Hstep Ha. destruct Hstep; intros text' y; cbn; try by apply Ha.
  - intros [[<- <-]|[_ Hy]]%lookup_insert_Some; [set_solver|]. apply elem_of_union_r. by eapply Ha.
  - intros [Hy _]%map_lookup_filter_Some. by eapply Ha.
  - intros [Hy _]%map_lookup_filter_Some. by eapply Ha.
  - intros [[<- _]|[_ Hy]]%lookup_insert_Some; by eapply Ha.
Qed.
Lemma spent_step lo hi a op r a' text : member_step lo hi a op r a' → spent text a → spent text a' ∧ ¬ admits op r text.
Proof.
  intros Hstep [Hi Hu]. split.
  - destruct Hstep; try done; (split; [done || set_solver|]); intros y; cbn; try by apply Hu.
    + intros [[<- _]|[_ Hy]]%lookup_insert_Some; [done|by apply Hu].
    + intros [Hy _]%map_lookup_filter_Some. by apply Hu.
    + intros [Hy _]%map_lookup_filter_Some. by apply Hu.
    + intros [[<- _]|[_ Hy]]%lookup_insert_Some; [|by apply Hu].
      contradict_unused Hu.
  - intros (req & resp & Hop & Hr & Hsucc & <-). destruct Hstep; try done; simplify_eq; try done.
    contradict_unused Hu.
Qed.
Lemma admits_spends lo hi a op r a' text : member_step lo hi a op r a' → all_issued a → named op → admits op r text → spent text a'.
Proof.
  intros Hstep Ha Hn (req & resp & -> & -> & Hsucc & <-). inversion Hstep; subst; try done. split; [by eapply Ha|].
  cbn. intros y. rewrite lookup_insert_eq. intros [= <-]. cbn. by apply bool_decide_eq_true.
Qed.

Section history.
Context `{Crypto}.

Lemma spent_steps n a ops rs n' a' text : member_steps n a ops rs n' a' → spent text a →
  ∀ i op r, ops !! i = Some op → rs !! i = Some r → ¬ admits op r text.
Proof.
  induction 1 as [|n n1 n2 a a1 a2 op r ops rs Hle Hstep _ IH]; intros Hsp i op' r' Ho Hr; [done|].
  destruct (spent_step _ _ _ _ _ _ _ Hstep Hsp) as [Hsp' Hno]. destruct i as [|i]; cbn in Ho, Hr; [by simplify_eq|by eapply IH].
Qed.
Lemma admits_once n a ops rs n' a' text : member_steps n a ops rs n' a' → all_issued a → Forall named ops →
  ∀ i j op1 op2 r1 r2, i < j → ops !! i = Some op1 → rs !! i = Some r1 → ops !! j = Some op2 → rs !! j = Some r2 →
  admits op1 r1 text → ¬ admits op2 r2 text.
Proof.
  induction 1 as [|n n1 n2 a a1 a2 op r ops rs Hle Hstep Hsteps IH]; intros Ha Hn i j op1 op2 r1 r2 Hij Ho1 Hr1 Ho2 Hr2 Hadm; [done|].
  apply Forall_cons in Hn as [Hnop Hn]. destruct j as [|j]; [lia|]. cbn in Ho2, Hr2. destruct i as [|i]; cbn in Ho1, Hr1.
  - simplify_eq. eapply spent_steps; [done| |done|done]. by eapply admits_spends.
  - eapply (IH (all_issued_step _ _ _ _ _ _ Hstep Ha) Hn i j); [lia|done..].
Qed.
End history.

(** C23: the managers refine the abstract membership: every run of operations, whatever
    tokens and names it is given, answers and acts as a map of tokens and a map of
    members do: a token is accepted exactly when it was issued, is not revoked or
    cleaned up, has not expired and has admitted nobody; listing gives the tokens that
    would be accepted; a member is added, changed and removed by its name. *)
Theorem membership_refines `{ClusterLaws} ops s a : member_rep s a → ∃ a',
  member_steps (mb_turn s) a ops (member_run ops s).1 (mb_turn (member_run ops s).2) a' ∧ member_rep (member_run ops s).2 a'.
Proof. apply run_sim. Qed.

Definition no_members : abstract := mkAbs ∅ ∅ ∅.
Lemma new_rep `{Crypto} clusterID secret n : member_rep (mkMem (NewTokenManager clusterID secret) ∅ n) no_members.
Proof. split; cbn; try done; try (by intros; simplify_map_eq); set_solver. Qed.

(** A token admits one node: in a run of operations on a new cluster in which the
    nodes that ask to join have names, no two join requests with the same token
    succeed, whatever is generated, revoked and removed in between. *)
Theorem token_admits_one_node `{ClusterLaws} clusterID secret n ops i j req1 req2 resp1 resp2 :
  let rs := (member_run ops (mkMem (NewTokenManager clusterID secret) ∅ n)).1 in
  Forall named ops → i ≠ j →
  ops !! i = Some (MJoin req1) → rs !! i = Some (Ok (BJoin resp1)) → js_Success resp1 = true →
  ops !! j = Some (MJoin req2) → rs !! j = Some (Ok (BJoin resp2)) → js_Success resp2 = true →
  jr_Token req1 ≠ jr_Token req2.
Proof.
  intros rs Hn Hij Ho1 Hr1 Hs1 Ho2 Hr2 Hs2 Heq. destruct (run_sim ops _ _ (new_rep clusterID secret n)) as (a' & Hsteps & _). fold rs in Hsteps.
  assert (all_issued no_members) as Hall by (by intros ? ? ?).
  assert (∀ req resp, js_Success resp = true → jr_Token req = jr_Token req1 → admits (MJoin req) (Ok (BJoin resp)) (jr_Token req1)) as Hadm
    by (intros req resp ? ?; by exists req, resp).
  destruct (lt_dec i j).
  - eapply (admits_once _ _ _ _ _ _ (jr_Token req1) Hsteps Hall Hn i j); [done..| |]; by apply Hadm.
  - eapply (admits_once _ _ _ _ _ _ (jr_Token req1) Hsteps Hall Hn j i); [lia|done..| |]; by apply Hadm.
Qed.

(** ** An example *)

#[local] Existing Instances Scram.example_crypto Scram.example_crypto_laws.
#[local] Instance example_cluster_runtime : ClusterRuntime := {
  range_tokens _ := map_to_list;
  range_members _ := map_to_list;
}.
#[local] Instance example_cluster_laws : ClusterLaws.
Proof.
  split.
  - exact example_uuid_inj.
  - exact example_uuid_no_colon.
  - intros n m Hnm. cbn. lia.
  - done.
  - done.
Qed.
Definition example_cluster : Membership := mkMem (NewTokenManager "main" (bytes_of_string "secret")) ∅ 0.
Definition example_token : string :=
  match GenerateToken "admin" 0 example_cluster with (Ok tk, _) => tk_Token tk | _ => "" end.
Definition example_join (node : string) : member_op := MJoin (mkJoin example_token node "host" 29015 8080 28015).
Definition example_member_ops : list member_op := [MGenerate "admin" 0; example_join "n1"; MRemove "n1"; MList; example_join "n2"].
Definition example_answers : list (outcome member_answer) := (member_run example_member_ops example_cluster).1.
Lemma membership_refines_witness : ∃ a', member_steps 0 no_members example_member_ops example_answers
  (mb_turn (member_run example_member_ops example_cluster).2) a' ∧ member_rep (member_run example_member_ops example_cluster).2 a'.
Proof. apply (membership_refines example_member_ops example_cluster no_members). apply new_rep. Defined.

(** Two tokens admit two nodes, at places 1 and 3 of the run. *)
Definition second_token : string :=
  match GenerateToken "admin" 0 (member_run [MGenerate "admin" 0; example_join "n1"] example_cluster).2 with (Ok tk, _) => tk_Token tk | _ => "" end.
Definition two_joins : list member_op :=
  [MGenerate "admin" 0; example_join "n1"; MGenerate "admin" 0; MJoin (mkJoin second_token "n2" "host" 29015 8080 28015)].
Definition join_answer (i : nat) : JoinResponse :=
  match (member_run two_joins example_cluster).1 !! i with Some (Ok (BJoin resp)) => resp | _ => refused "" end.
Lemma token_admits_one_node_witness : example_token ≠ second_token.
Proof.
  refine (token_admits_one_node "main" (bytes_of_string "secret") 0 two_joins 1 3 (mkJoin example_token "n1" "host" 29015 8080 28015)
    (mkJoin second_token "n2" "host" 29015 8080 28015) (join_answer 1) (join_answer 3) _ _ _ _ _ _ _ _).
  - repeat constructor; discriminate.
  - discriminate.
  - reflexivity.
  - vm_compute. reflexivity.
  - vm_compute. reflexivity.
  - reflexivity.
  - vm_compute. reflexivity.
  - vm_compute. reflexivity.
Defined.
