(* ===== verification/Removal.v ===== *)
(** * Removing nodes and moving data ([internal/cluster]: remove.go, transfer.go, rebalance.go)

    A removal is carried out by a goroutine whose locked sections interleave with all
    other operations on the cluster: [Stage] is where it is, and [removal_step] its
    next section.  Transfers are tasks behind pointers, worked off by goroutines of
    their own.  The system is the membership of [Cluster] with the operations, the
    tasks and the goroutines. *)

From S2P Require Import Prelude Bytes Order Datum GoStrings Scram Cluster.

(** ** types.go *)

Inductive TransferStatus := TransferStatusPending | TransferStatusInProgress | TransferStatusCompleted | TransferStatusFailed.
#[global] Instance TransferStatus_eq_dec : EqDecision TransferStatus.
Proof. solve_decision. Defined.

Record TransferTask := mkTask {
  ts_ID : string; ts_SourceNodeID : string; ts_TargetNodeID : string; ts_Database : string; ts_Table : string;
  ts_Status : TransferStatus; ts_Progress : Z; ts_StartedAt : option Z; ts_CompletedAt : option Z; ts_Error : string;
}.
(** [ro_Transfers] are pointers. *)
Record RemoveOperation := mkOp {
  ro_NodeID : string; ro_Status : string; ro_Transfers : list nat; ro_StartedAt : Z; ro_CompletedAt : option Z; ro_Error : string;
}.

(** ** The goroutine of a removal

    The sections of [executeRemoval] between which others may run. *)
Inductive Stage :=
| SIdentify
| SMember
| STransferring (ts : list nat)
| SStart (todo ts : list nat)
| SWait (ts : list nat)
| STimeout
| SShutdown
| SRemoving
| SRemove
| SFail (msg : string)
| SComplete.
Record Removal := mkRemoval { rv_node : string; rv_stage : Stage }.

(** A goroutine of [executeTransfer]: its task and the steps it has made. *)
Record Worker := mkWorker { wk_task : nat; wk_steps : nat }.

Record System := mkSys {
  sy_members : Membership;
  sy_operations : gmap string RemoveOperation;
  sy_removals : gmap nat Removal;
  sy_tasks : gmap nat TransferTask;
  sy_transfers : gmap string nat;
  sy_workers : gmap nat Worker;
  sy_next : nat;
}.
Definition set_members (m : Membership) (s : System) : System :=
  mkSys m (sy_operations s) (sy_removals s) (sy_tasks s) (sy_transfers s) (sy_workers s) (sy_next s).
Definition set_operations (ops : gmap string RemoveOperation) (s : System) : System :=
  mkSys (sy_members s) ops (sy_removals s) (sy_tasks s) (sy_transfers s) (sy_workers s) (sy_next s).
Definition set_removals (rs : gmap nat Removal) (s : System) : System :=
  mkSys (sy_members s) (sy_operations s) rs (sy_tasks s) (sy_transfers s) (sy_workers s) (sy_next s).
Definition set_tasks (ts : gmap nat TransferTask) (s : System) : System :=
  mkSys (sy_members s) (sy_operations s) (sy_removals s) ts (sy_transfers s) (sy_workers s) (sy_next s).
Definition set_transfers (tr : gmap string nat) (s : System) : System :=
  mkSys (sy_members s) (sy_operations s) (sy_removals s) (sy_tasks s) tr (sy_workers s) (sy_next s).
Definition set_workers (ws : gmap nat Worker) (s : System) : System :=
  mkSys (sy_members s) (sy_operations s) (sy_removals s) (sy_tasks s) (sy_transfers s) ws (sy_next s).
Definition set_next (n : nat) (s : System) : System :=
  mkSys (sy_members s) (sy_operations s) (sy_removals s) (sy_tasks s) (sy_transfers s) (sy_workers s) n.
Definition on_members {A} (m : M Membership A) : M System A := zoom sy_members set_members m.

(** Range statements over the other maps. *)
Class RemovalRuntime := {
  range_operations : nat → gmap string RemoveOperation → list (string * RemoveOperation);
  range_transfers : nat → gmap string nat → list (string * nat);
}.

Section transfers.
Context `{Crypto} `{ClusterRuntime} `{RemovalRuntime}.

(** ** transfer.go *)

Definition sys_now : M System Z := on_members now.
Definition sys_turn : M System nat := on_members next_turn.
Definition read_task (l : nat) : M System TransferTask :=
  s ← get_state; match sy_tasks s !! l with Some t => mret t | None => panic end.
Definition write_task (l : nat) (t : TransferTask) : M System unit := modify (λ s, set_tasks (<[l := t]> (sy_tasks s)) s).

(** A new task, at a new place. *)
Definition CreateTransfer (sourceNodeID targetNodeID database table : string) : M System nat :=
  i ← sys_turn;
  s ← get_state;
  let l := sy_next s in
  modify (λ s, set_next (S (sy_next s)) s);;
  write_task l (mkTask (uuid_New i) sourceNodeID targetNodeID database table TransferStatusPending 0 None None "");;
  mret l.

Definition StartTransfer (l : nat) : M System unit :=
  task ← read_task l;
  t ← sys_now;
  write_task l (mkTask (ts_ID task) (ts_SourceNodeID task) (ts_TargetNodeID task) (ts_Database task) (ts_Table task)
    TransferStatusInProgress (ts_Progress task) (Some t) (ts_CompletedAt task) (ts_Error task));;
  s ← get_state;
  modify (set_transfers (<[ts_ID task := l]> (sy_transfers s)));;
  modify (λ s, set_next (S (sy_next s)) (set_workers (<[sy_next s := mkWorker l 0]> (sy_workers s)) s)).

(** The next section of the goroutine [w]: ten steps of progress, then completion. *)
Definition transfer_steps : nat := 10.
Definition executeTransfer (w : nat) : M System unit :=
  s ← get_state;
  match sy_workers s !! w with
  | None => mret ()
  | Some wk =>
      let l := wk_task wk in
      task ← read_task l;
      if bool_decide (wk_steps wk < transfer_steps) then
        let i := S (wk_steps wk) in
        write_task l (mkTask (ts_ID task) (ts_SourceNodeID task) (ts_TargetNodeID task) (ts_Database task) (ts_Table task)
          (ts_Status task) (Z.of_nat i * 100 / Z.of_nat transfer_steps) (ts_StartedAt task) (ts_CompletedAt task) (ts_Error task));;
        modify (λ s, set_workers (<[w := mkWorker l i]> (sy_workers s)) s)
      else
        t ← sys_now;
        write_task l (mkTask (ts_ID task) (ts_SourceNodeID task) (ts_TargetNodeID task) (ts_Database task) (ts_Table task)
          TransferStatusCompleted (ts_Progress task) (ts_StartedAt task) (Some t) (ts_Error task));;
        modify (λ s, set_workers (delete w (sy_workers s)) s)
  end.

Definition GetTransfer (transferID : string) (s : System) : option TransferTask :=
  match sy_transfers s !! transferID with Some l => sy_tasks s !! l | None => None end.
Definition ListTransfers : M System (list TransferTask) :=
  r ← sys_turn; s ← get_state; mret (omap (λ e, sy_tasks s !! e.2) (range_transfers r (sy_transfers s))).
Definition ListTransfersByNode (nodeID : string) : M System (list TransferTask) :=
  l ← ListTransfers; mret (filter (λ t, ts_SourceNodeID t = nodeID ∨ ts_TargetNodeID t = nodeID) l).

Definition CancelTransfer (transferID : string) : M System unit :=
  s ← get_state;
  match sy_transfers s !! transferID with
  | None => fail "transfer not found"
  | Some l =>
      task ← read_task l;
      if bool_decide (ts_Status task = TransferStatusCompleted) then fail "transfer already completed"
      else
        t ← sys_now;
        write_task l (mkTask (ts_ID task) (ts_SourceNodeID task) (ts_TargetNodeID task) (ts_Database task) (ts_Table task)
          TransferStatusFailed (ts_Progress task) (ts_StartedAt task) (Some t) "cancelled")
  end.
Definition GetTransferProgress (transferID : string) : M System Z :=
  s ← get_state;
  match sy_transfers s !! transferID with None => fail "transfer not found" | Some l => task ← read_task l; mret (ts_Progress task) end.

Definition done_before (cutoff : Z) (completedAt : option Z) : bool :=
  match completedAt with Some t => bool_decide (t < cutoff)%Z | None => false end.
Definition cleanup_transfer (cutoff : Z) (e : string * nat) : M System unit :=
  task ← read_task e.2;
  if bool_decide (ts_Status task = TransferStatusCompleted) && done_before cutoff (ts_CompletedAt task)
  then modify (λ s, set_transfers (delete e.1 (sy_transfers s)) s)
  else mret ().
Definition CleanupCompletedTransfers : M System unit :=
  t ← sys_now;
  r ← sys_turn;
  s ← get_state;
  for_each (cleanup_transfer (t - hour)%Z) (range_transfers r (sy_transfers s)).

(** ** remove.go *)

Definition put_operation (nodeID : string) (op : RemoveOperation) : M System unit :=
  modify (λ s, set_operations (<[nodeID := op]> (sy_operations s)) s).

Definition StartRemoval (nodeID : string) : M System unit :=
  member ← on_members (GetMember nodeID);
  match member with
  | None => fail ("node " +:+ nodeID +:+ " not found")
  | Some _ =>
      s ← get_state;
      match sy_operations s !! nodeID with
      | Some _ => fail ("removal already in progress for node " +:+ nodeID)
      | None =>
          wrap_err "failed to mark node as draining" (on_members (UpdateMemberStatus nodeID NodeStatusDraining));;
          t ← sys_now;
          put_operation nodeID (mkOp nodeID "draining" [] t None "");;
          modify (λ s, set_next (S (sy_next s)) (set_removals (<[sy_next s := mkRemoval nodeID SIdentify]> (sy_removals s)) s))
      end
  end.

Definition updateOperationStatus (nodeID status : string) : M System unit :=
  s ← get_state;
  match sy_operations s !! nodeID with
  | None => mret ()
  | Some op => put_operation nodeID (mkOp (ro_NodeID op) status (ro_Transfers op) (ro_StartedAt op) (ro_CompletedAt op) (ro_Error op))
  end.
Definition failOperation (nodeID errMsg : string) : M System unit :=
  s ← get_state;
  match sy_operations s !! nodeID with
  | None => mret ()
  | Some op => t ← sys_now; put_operation nodeID (mkOp (ro_NodeID op) "failed" (ro_Transfers op) (ro_StartedAt op) (Some t) errMsg)
  end.
Definition identifyTransfers (nodeID : string) (member : NodeInfo) : list nat := [].

(** A task of the list is still under way. *)
Definition pending (s : System) (l : nat) : bool :=
  match sy_tasks s !! l with
  | None => false
  | Some t =>
      match GetTransfer (ts_ID t) s with
      | None => false
      | Some task => bool_decide (ts_Status task ≠ TransferStatusCompleted) && bool_decide (ts_Status task ≠ TransferStatusFailed)
      end
  end.

(** The next section of the goroutine [k]; [timeout] says that the 30 minutes of
    [waitForTransfers] are over.  [None]: it ends. *)
Definition removal_section (timeout : bool) (nodeID : string) (st : Stage) : M System (option Stage) :=
  match st with
  | SIdentify => updateOperationStatus nodeID "identifying_data";; mret (Some SMember)
  | SMember =>
      member ← on_members (GetMember nodeID);
      mret (Some (match member with
                  | None => SFail "node not found"
                  | Some m => STransferring (identifyTransfers nodeID m)
                  end))
  | STransferring ts =>
      s ← get_state;
      match sy_operations s !! nodeID with
      | None => mret ()
      | Some op => put_operation nodeID (mkOp (ro_NodeID op) "transferring" ts (ro_StartedAt op) (ro_CompletedAt op) (ro_Error op))
      end;;
      mret (Some (SStart ts ts))
  | SStart (l :: todo) ts => StartTransfer l;; mret (Some (SStart todo ts))
  | SStart [] ts => mret (Some (if bool_decide (ts = []) then SShutdown else SWait ts))
  | SWait ts =>
      s ← get_state;
      mret (Some (if timeout then STimeout else if existsb (pending s) ts then SWait ts else SShutdown))
  | STimeout => failOperation nodeID "transfer timeout";; mret (Some SShutdown)
  | SShutdown => updateOperationStatus nodeID "shutting_down";; mret (Some SRemoving)
  | SRemoving => updateOperationStatus nodeID "removing";; mret (Some SRemove)
  | SRemove =>
      e ← catch (on_members (RemoveMember nodeID);; mret None) (λ e, mret (Some e));
      mret (Some (match e with Some e => SFail ("failed to remove node: " +:+ e) | None => SComplete end))
  | SFail msg => failOperation nodeID msg;; mret None
  | SComplete =>
      s ← get_state;
      match sy_operations s !! nodeID with
      | None => mret ()
      | Some op => t ← sys_now; put_operation nodeID (mkOp (ro_NodeID op) "completed" (ro_Transfers op) (ro_StartedAt op) (Some t) (ro_Error op))
      end;;
      mret None
  end.
Definition executeRemoval (timeout : bool) (k : nat) : M System unit :=
  s ← get_state;
  match sy_removals s !! k with
  | None => mret ()
  | Some r =>
      next ← removal_section timeout (rv_node r) (rv_stage r);
      modify (λ s, set_removals (match next with
                                 | Some st => <[k := mkRemoval (rv_node r) st]> (sy_removals s)
                                 | None => delete k (sy_removals s)
                                 end) s)
  end.

Definition GetRemovalStatus (nodeID : string) : M System RemoveOperation :=
  s ← get_state;
  match sy_operations s !! nodeID with Some op => mret op | None => fail ("no removal operation found for node " +:+ nodeID) end.
Definition ListRemovals : M System (list RemoveOperation) :=
  r ← sys_turn; s ← get_state; mret (range_operations r (sy_operations s)).*2.
Definition cleanup_removal (cutoff : Z) (e : string * RemoveOperation) : M System unit :=
  if bool_decide (ro_Status e.2 = "completed") && done_before cutoff (ro_CompletedAt e.2)
  then modify (λ s, set_operations (delete e.1 (sy_operations s)) s)
  else mret ().
Definition CleanupCompletedRemovals : M System unit :=
  t ← sys_now;
  r ← sys_turn;
  s ← get_state;
  for_each (cleanup_removal (t - hour)%Z) (range_operations r (sy_operations s)).
Definition GenerateNodeID : M System string := i ← sys_turn; mret (uuid_New i).

(** ** rebalance.go *)

Record NodeLoad := mkLoad { nl_NodeID : string; nl_DataSizeMB : Z; nl_TablesCount : Z; nl_Score : float64 }.
Definition RebalancePlan : Type := list nat.

(** The constants 0.7 and 0.3. *)
Definition data_weight : float64 := float_div (float_of_Z 7) (float_of_Z 10).
Definition tables_weight : float64 := float_div (float_of_Z 3) (float_of_Z 10).
Definition deviation (x : Z) (avg : float64) : float64 :=
  if float_lt (float_of_Z 0) avg then float_div (float_sub (float_of_Z x) avg) avg else float_of_Z 0.
Definition calculateLoadScores (loads : list NodeLoad) : list NodeLoad :=
  let totalData := int64 (foldr Z.add 0%Z (nl_DataSizeMB <$> loads)) in
  let totalTables := int64 (foldr Z.add 0%Z (nl_TablesCount <$> loads)) in
  let avgData := float_div (float_of_Z totalData) (float_of_Z (Z.of_nat (length loads))) in
  let avgTables := float_div (float_of_Z totalTables) (float_of_Z (Z.of_nat (length loads))) in
  (λ l, mkLoad (nl_NodeID l) (nl_DataSizeMB l) (nl_TablesCount l)
     (float_add (float_mul (deviation (nl_DataSizeMB l) avgData) data_weight)
                (float_mul (deviation (nl_TablesCount l) avgTables) tables_weight))) <$> loads.

Definition loads_of (members : list NodeInfo) : list NodeLoad :=
  (λ m, mkLoad (n_NodeID m) (n_DataSizeMB m) (n_TablesCount m) (float_of_Z 0)) <$> filter (λ m, n_Status m = NodeStatusActive) members.
(** The scored loads are sorted and their number is logged; the plan is empty. *)
Definition CalculateRebalancePlan : M System RebalancePlan :=
  members ← on_members GetMembers;
  if bool_decide (length members ≤ 1) then mret []
  else
    let loads := loads_of members in
    if bool_decide (length loads = 0) then mret []
    else
      let scored := calculateLoadScores loads in
      mret [].
Definition ExecuteRebalance (plan : RebalancePlan) : M System unit :=
  match plan with [] => mret () | _ => for_each StartTransfer plan end.
Definition TriggerRebalance : M System unit := plan ← CalculateRebalancePlan; ExecuteRebalance plan.

Record Balance := mkBalance {
  bl_total_nodes : Z; bl_active_nodes : Z; bl_total_data_mb : Z; bl_total_tables : Z; bl_avg_data_mb : Z; bl_avg_tables : Z;
}.
(** The loop of [GetClusterBalance]. *)
Definition add_member (acc : Z * Z * Z) (m : NodeInfo) : Z * Z * Z :=
  let '(totalData, totalTables, activeNodes) := acc in
  if bool_decide (n_Status m = NodeStatusActive)
  then (int64 (totalData + n_DataSizeMB m), int64 (totalTables + n_TablesCount m), (activeNodes + 1)%Z)
  else acc.
Definition GetClusterBalance : M System Balance :=
  members ← on_members GetMembers;
  let '(totalData, totalTables, activeNodes) := foldl add_member (0%Z, 0%Z, 0%Z) members in
  mret (mkBalance (Z.of_nat (length members)) activeNodes totalData totalTables
    (if bool_decide (0 < activeNodes)%Z then Z.quot totalData activeNodes else 0)%Z
    (if bool_decide (0 < activeNodes)%Z then Z.quot totalTables activeNodes else 0)%Z).
End transfers.

(** ** Runs *)

Inductive sys_op :=
| OMember (op : member_op)
| OStartRemoval (nodeID : string)
| OSection (k : nat) (timeout : bool)
| OCleanupRemovals
| OCreateTransfer (source target database table : string)
| OStartTransfer (l : nat)
| OTransferSection (w : nat)
| OCancelTransfer (transferID : string)
| OCleanupTransfers
| ORebalance.

Section runs.
Context `{Crypto} `{ClusterRuntime} `{RemovalRuntime}.

Definition sys_exec (op : sys_op) : M System unit :=
  match op with
  | OMember op => on_members (member_exec op);; mret ()
  | OStartRemoval id => StartRemoval id
  | OSection k timeout => executeRemoval timeout k
  | OCleanupRemovals => CleanupCompletedRemovals
  | OCreateTransfer a b c d => CreateTransfer a b c d;; mret ()
  | OStartTransfer l => StartTransfer l
  | OTransferSection w => executeTransfer w
  | OCancelTransfer id => CancelTransfer id
  | OCleanupTransfers => CleanupCompletedTransfers
  | ORebalance => TriggerRebalance
  end.
Definition sys_run (ops : list sys_op) (s : System) : System := foldl (λ s op, (sys_exec op s).2) s ops.
Definition new_system (m : Membership) : System := mkSys m ∅ ∅ ∅ ∅ ∅ 0.

(** ** What an operation leaves alone *)

(** The removals are as before, and places stay fresh. *)
Definition same_removals (s s' : System) : Prop :=
  sy_operations s' = sy_operations s ∧ sy_removals s' = sy_removals s ∧ sy_next s ≤ sy_next s'.
#[export] Instance same_removals_preorder : PreOrder same_removals.
Proof. split; [by intros s|]. intros s1 s2 s3 (?&?&?) (?&?&?). split; [congruence|]. split; [congruence|lia]. Qed.
Notation quiet := (respects same_removals).
Lemma quiet_members {A} (m : M Membership A) : quiet (on_members m).
Proof. intros s. unfold on_members, zoom. by destruct (m (sy_members s)). Qed.
Hint Resolve quiet_members : respects.
Ltac quiet_auto := respects_auto; try (split; [done|split; [done|cbn; lia]]).

Lemma quiet_read_task l : quiet (read_task l).
Proof. unfold read_task. quiet_auto. Qed.
Lemma quiet_write_task l t : quiet (write_task l t).
Proof. unfold write_task. quiet_auto. Qed.
Lemma quiet_now : quiet sys_now.
Proof. apply quiet_members. Qed.
Lemma quiet_turn : quiet sys_turn.
Proof. apply quiet_members. Qed.
Hint Resolve quiet_read_task quiet_write_task quiet_now quiet_turn : respects.
Lemma quiet_StartTransfer l : quiet (StartTransfer l).
Proof. unfold StartTransfer. quiet_auto. Qed.
Hint Resolve quiet_StartTransfer : respects.

(** The operations that are not about removals. *)
Definition removal_op (op : sys_op) : bool :=
  match op with OStartRemoval _ | OSection _ _ | OCleanupRemovals => true | _ => false end.
Lemma quiet_exec op : removal_op op = false → quiet (sys_exec op).
Proof.
  destruct op; intros Hop; try done; cbn [sys_exec].
  - quiet_auto.
  - unfold CreateTransfer. quiet_auto.
  - quiet_auto.
  - unfold executeTransfer. quiet_auto.
  - unfold CancelTransfer. quiet_auto.
  - unfold CleanupCompletedTransfers, cleanup_transfer. quiet_auto.
  - unfold TriggerRebalance, CalculateRebalancePlan, ExecuteRebalance. quiet_auto.
Qed.

(** ** Removals are consistent

    The statuses an operation may have while its goroutine is at a stage. *)
Definition stage_statuses (st : Stage) : list string :=
  match st with
  | SIdentify => ["draining"]
  | SMember | STransferring _ => ["identifying_data"]
  | SStart _ _ | SWait _ | STimeout => ["transferring"]
  | SShutdown => ["transferring"; "failed"]
  | SRemoving => ["shutting_down"]
  | SRemove | SComplete => ["removing"]
  | SFail _ => ["identifying_data"; "removing"]
  end.
Definition over_statuses : list string := ["completed"; "failed"].
Record removals_ok (s : System) : Prop := {
  ro_fresh k r : sy_removals s !! k = Some r → k < sy_next s;
  ro_one k k' r r' : sy_removals s !! k = Some r → sy_removals s !! k' = Some r' → rv_node r = rv_node r' → k = k';
  ro_named n op : sy_operations s !! n = Some op → ro_NodeID op = n;
  ro_stage k r : sy_removals s !! k = Some r →
    ∃ op, sy_operations s !! rv_node r = Some op ∧ ro_Status op ∈ stage_statuses (rv_stage r);
  ro_over n op : sy_operations s !! n = Some op → (∀ k r, sy_removals s !! k = Some r → rv_node r ≠ n) → ro_Status op ∈ over_statuses;
}.

Lemma removals_ok_same s s' : same_removals s s' → removals_ok s → removals_ok s'.
Proof.
  intros (Ho & Hr & Hn) [Hf Hone Hi Hst Hov]. split; rewrite ?Ho, ?Hr; [|done..]. intros k r Hk. specialize (Hf k r Hk). lia.
Qed.

(** The steps of the sections. *)
Lemma member_lookup n s : on_members (GetMember n) s = (Ok (mb_members (sy_members s) !! n), s).
Proof. by destruct s. Qed.
Lemma status_run n st s op : sy_operations s !! n = Some op → updateOperationStatus n st s =
  (Ok (), set_operations (<[n := mkOp (ro_NodeID op) st (ro_Transfers op) (ro_StartedAt op) (ro_CompletedAt op) (ro_Error op)]> (sy_operations s)) s).
Proof. intros Hop. unfold updateOperationStatus. by rewrite (bind_ok get_state _ _ _ _ eq_refl), Hop. Qed.
Lemma fail_run n msg s op : sy_operations s !! n = Some op → ∃ t m, failOperation n msg s =
  (Ok (), set_operations (<[n := mkOp (ro_NodeID op) "failed" (ro_Transfers op) (ro_StartedAt op) (Some t) msg]> (sy_operations s))
            (set_members (with_members (mb_members (sy_members s)) m) s)).
Proof.
  intros Hop. unfold failOperation. rewrite (bind_ok get_state _ _ _ _ eq_refl), Hop. destruct s as [[tm ms n0] ? ? ? ? ? ?].
  exists (time_Now n0), (mkMem tm ms (S n0)). reflexivity.
Qed.
Lemma complete_run n s op : sy_operations s !! n = Some op → ∃ t m, removal_section false n SComplete s =
  (Ok None, set_operations (<[n := mkOp (ro_NodeID op) "completed" (ro_Transfers op) (ro_StartedAt op) (Some t) (ro_Error op)]> (sy_operations s))
              (set_members (with_members (mb_members (sy_members s)) m) s)).
Proof.
  intros Hop. cbn [removal_section]. rewrite (bind_ok get_state _ _ _ _ eq_refl), Hop. destruct s as [[tm ms n0] ? ? ? ? ? ?].
  exists (time_Now n0), (mkMem tm ms (S n0)). reflexivity.
Qed.
Lemma remove_run n s : ∃ e m, catch (on_members (RemoveMember n);; mret None) (λ e, mret (Some e)) s = (Ok e, set_members m s) ∧
  mb_members m = delete n (mb_members (sy_members s)) ∧ (e = None ↔ is_Some (mb_members (sy_members s) !! n)).
Proof.
  destruct s as [[tm ms n0] ? ? ? ? ? ?]. unfold on_members, RemoveMember, catch, zoom, mbind, M_mbind, M_bind, get_state. cbn.
  destruct (ms !! n) as [x|] eqn:Hx; cbn.
  - exists None, (mkMem tm (delete n ms) n0). split; [done|]. split; [done|]. by split; eauto.
  - eexists (Some _), (mkMem tm ms n0). split; [done|]. split; [by rewrite delete_id|]. split; [done|by intros []].
Qed.

(** A goal about a state with a new operation for the node. *)
Ltac changed_op := do 2 (split; [done|]); eexists; split; [reflexivity|]; split; [assumption|cbn; set_solver].

(** A section of the goroutine of [n] changes the operation of [n] only, and leaves it
    with a status of the next stage. *)
Lemma section_run timeout n st s op :
  sy_operations s !! n = Some op → ro_NodeID op = n → ro_Status op ∈ stage_statuses st →
  let '(o, s1) := removal_section timeout n st s in
  sy_removals s1 = sy_removals s ∧ sy_next s ≤ sy_next s1 ∧
  ∃ op', sy_operations s1 = <[n := op']> (sy_operations s) ∧ ro_NodeID op' = n ∧
    ro_Status op' ∈ match o with Ok (Some st') => stage_statuses st' | Ok None => over_statuses | _ => stage_statuses st end.
Proof.
  intros Hop Hid Hst.
  assert (∀ s1, same_removals s s1 → ∀ sts : list string, ro_Status op ∈ sts → sy_removals s1 = sy_removals s ∧ sy_next s ≤ sy_next s1 ∧
    ∃ op', sy_operations s1 = <[n := op']> (sy_operations s) ∧ ro_NodeID op' = n ∧ ro_Status op' ∈ sts) as Hsame.
  { intros s1 (Ho & Hr & Hn) sts Hin. do 2 (split; [done|]). exists op. by rewrite insert_id. }
  destruct st as [| |ts|[|l todo] ts|ts| | | | |msg|]; cbn [removal_section stage_statuses] in *.
  - rewrite (bind_ok _ _ _ _ _ (status_run _ _ _ _ Hop)). changed_op.
  - rewrite (bind_ok _ _ _ _ _ (member_lookup n s)). apply Hsame; [done|]. destruct (mb_members (sy_members s) !! n); [done|set_solver].
  - rewrite (bind_ok get_state _ _ _ _ eq_refl), Hop. changed_op.
  - apply Hsame; [done|]. case_bool_decide; [set_solver|done].
  - pose proof (quiet_StartTransfer l s) as Hq. unfold mbind at 1, M_mbind, M_bind. destruct (StartTransfer l s) as [[] s1]; by apply Hsame.
  - apply Hsame; [done|]. destruct timeout; [done|]. destruct (existsb _ _); [done|set_solver].
  - destruct (fail_run n "transfer timeout" s op Hop) as (t & m & Hrun). rewrite (bind_ok _ _ _ _ _ Hrun). changed_op.
  - rewrite (bind_ok _ _ _ _ _ (status_run _ _ _ _ Hop)). changed_op.
  - rewrite (bind_ok _ _ _ _ _ (status_run _ _ _ _ Hop)). changed_op.
  - destruct (remove_run n s) as (e & m & Hrun & _). rewrite (bind_ok _ _ _ _ _ Hrun). apply Hsame; [done|]. destruct e; set_solver.
  - destruct (fail_run n msg s op Hop) as (t & m & Hrun). rewrite (bind_ok _ _ _ _ _ Hrun). changed_op.
  - destruct (complete_run n s op Hop) as (t & m & Hrun). cbn [removal_section] in Hrun. rewrite Hrun. changed_op.
Qed.

(** *** Starting, carrying out and forgetting a removal *)

Lemma start_run n s :
  match mb_members (sy_members s) !! n, sy_operations s !! n with
  | None, _ => StartRemoval n s = (Err ("node " +:+ n +:+ " not found"), s)
  | Some _, Some _ => StartRemoval n s = (Err ("removal already in progress for node " +:+ n), s)
  | Some x, None => ∃ t m x', mb_members m = <[n := x']> (mb_members (sy_members s)) ∧ n_Status x' = NodeStatusDraining ∧ StartRemoval n s =
      (Ok (), mkSys m (<[n := mkOp n "draining" [] t None ""]> (sy_operations s)) (<[sy_next s := mkRemoval n SIdentify]> (sy_removals s))
                (sy_tasks s) (sy_transfers s) (sy_workers s) (S (sy_next s)))
  end.
Proof.
  destruct s as [[tm ms n0] ops rs ts tr ws nx]. cbn [sy_members mb_members sy_operations sy_removals sy_tasks sy_transfers sy_workers sy_next].
  destruct (ms !! n) as [x|] eqn:Hx; [destruct (ops !! n) as [op|] eqn:Hop|];
    unfold StartRemoval; rewrite (bind_ok _ _ _ _ _ (member_lookup n _)); cbn [sy_members mb_members]; rewrite Hx; [| |done];
    rewrite (bind_ok get_state _ _ _ _ eq_refl); cbn [sy_operations]; rewrite Hop; [done|].
  set (x' := mkNode (n_NodeID x) (n_Address x) (n_ClusterPort x) (n_HTTPPort x) (n_DriverPort x)
        NodeStatusDraining (n_IsLeader x) (n_JoinedAt x) (time_Now n0) (n_DataSizeMB x) (n_TablesCount x)).
  exists (time_Now (S n0)), (mkMem tm (<[n := x']> ms) (S (S n0))), x'. split; [done|]. split; [done|].
  rewrite (bind_ok (wrap_err _ _) _ _ () (mkSys (mkMem tm (<[n := x']> ms) (S n0)) ops rs ts tr ws nx)); [reflexivity|].
  unfold wrap_err, on_members, zoom, UpdateMemberStatus. cbn [sy_members]. rewrite (bind_ok get_state _ _ _ _ eq_refl). cbn [mb_members]. by rewrite Hx.
Qed.

(** An operation that [CleanupCompletedRemovals] forgets. *)
Definition forgettable (cutoff : Z) (op : RemoveOperation) : bool :=
  bool_decide (ro_Status op = "completed") && done_before cutoff (ro_CompletedAt op).
Lemma cleanup_removals_loop cutoff l : ∀ s, for_each (cleanup_removal cutoff) l s =
  (Ok (), set_operations (foldl (λ m k, delete k m) (sy_operations s) (filter (λ e, forgettable cutoff e.2 = true) l).*1) s).
Proof.
  induction l as [|[n op] l IH]; intros s; [by destruct s|]. cbn [for_each]. rewrite filter_cons. cbn [snd].
  assert (cleanup_removal cutoff (n, op) s =
    (Ok (), if forgettable cutoff op then set_operations (delete n (sy_operations s)) s else s)) as Hstep.
  { unfold cleanup_removal. cbn [snd fst]. fold (forgettable cutoff op). by destruct (forgettable cutoff op). }
  rewrite (bind_ok _ _ _ _ _ Hstep), IH. destruct (forgettable cutoff op); [by rewrite decide_True by done|by rewrite decide_False by done].
Qed.
End runs.

(** A range statement visits every entry once. *)
Class RemovalLaws `{RemovalRuntime} := {
  rl_operations n m : range_operations n m ≡ₚ map_to_list m;
  rl_transfers n m : range_transfers n m ≡ₚ map_to_list m;
}.

Section consistency.
Context `{Crypto} `{ClusterRuntime} `{RemovalLaws}.

Lemma cleanup_removals_run s : ∃ cutoff m ops, CleanupCompletedRemovals s = (Ok (), set_operations ops (set_members m s)) ∧
  mb_members m = mb_members (sy_members s) ∧
  ∀ n, ops !! n = match sy_operations s !! n with Some op => if forgettable cutoff op then None else Some op | None => None end.
Proof.
  destruct s as [[tm ms n0] ops rs ts tr ws nx]. eexists (time_Now n0 - hour)%Z, (mkMem tm ms (S (S n0))), _. split; [|split; [done|]].
  - exact (cleanup_removals_loop _ _ (mkSys (mkMem tm ms (S (S n0))) ops rs ts tr ws nx)).
  - intros n. cbn [sy_operations]. rewrite foldl_delete_lookup.
    assert (n ∈ (filter (λ e, forgettable (time_Now n0 - hour) e.2 = true) (range_operations (S n0) ops)).*1 ↔
      ∃ op, ops !! n = Some op ∧ forgettable (time_Now n0 - hour) op = true) as Hin.
    { split.
      - intros ([n' op] & -> & [Hf Hi]%list_elem_of_filter)%list_elem_of_fmap. rewrite rl_operations in Hi. apply elem_of_map_to_list in Hi. by exists op.
      - intros (op & Hop & Hf). apply list_elem_of_fmap. exists (n, op). split; [done|]. apply list_elem_of_filter. split; [done|].
        rewrite rl_operations. by apply elem_of_map_to_list. }
    destruct (decide _) as [(op & -> & ->)%Hin|Hni]; [done|]. destruct (ops !! n) as [op|]; [|done].
    destruct (forgettable _ op) eqn:Hf; [|done]. contradict Hni. apply Hin. by exists op.
Qed.

Lemma forgettable_completed cutoff op : forgettable cutoff op = true → ro_Status op = "completed".
Proof. unfold forgettable. intros [Hs _]%andb_true_iff. by apply bool_decide_eq_true in Hs. Qed.
Lemma running_not_over st x : x ∈ stage_statuses st → x ≠ "completed".
Proof. intros Hx ->. assert (bool_decide ("completed" ∈ stage_statuses st) = true) as Hb by (by apply bool_decide_eq_true). by destruct st. Qed.

(** The goroutine [k] goes to the stage [next], or ends, and [op'] is its operation. *)
Lemma removals_ok_next s s1 k r next op' rs' : removals_ok s → sy_removals s !! k = Some r →
  sy_next s ≤ sy_next s1 → sy_operations s1 = <[rv_node r := op']> (sy_operations s) → ro_NodeID op' = rv_node r →
  ro_Status op' ∈ match next with Some st => stage_statuses st | None => over_statuses end →
  rs' !! k = mkRemoval (rv_node r) <$> next → (∀ k', k' ≠ k → rs' !! k' = sy_removals s !! k') →
  removals_ok (set_removals rs' s1).
Proof.
  intros Hs Hk Hn Ho Hid Hst Hrk Hr. set (n := rv_node r) in *.
  assert (∀ k' r', k' ≠ k → sy_removals s !! k' = Some r' → rv_node r' ≠ n) as Hother.
  { intros k' r' Hne Hk' He. by apply Hne, (ro_one _ Hs _ _ _ _ Hk' Hk). }
  assert (∀ k' r', rs' !! k' = Some r' → (k' = k ∧ rv_node r' = n ∧ next = Some (rv_stage r')) ∨
    (k' ≠ k ∧ rv_node r' ≠ n ∧ sy_removals s !! k' = Some r')) as Hcase.
  { intros k' r' Hk'. destruct (decide (k' = k)) as [->|Hne]; [left|right].
    - rewrite Hrk in Hk'. by destruct next; simplify_eq/=.
    - rewrite Hr in Hk' by done. split; [done|]. split; [by eapply Hother|done]. }
  split; cbn [sy_removals sy_operations sy_next set_removals]; rewrite ?Ho.
  - intros k' r' [(-> & _)|(_ & _ & Hk')]%Hcase; [apply (ro_fresh _ Hs) in Hk; lia|apply (ro_fresh _ Hs) in Hk'; lia].
  - intros k1 k2 r1 r2 Hk1%Hcase Hk2%Hcase He.
    destruct Hk1 as [(-> & Hn1 & _)|(_ & Hn1 & Hk1)], Hk2 as [(-> & Hn2 & _)|(_ & Hn2 & Hk2)]; [done|congruence..|by eapply ro_one].
  - intros n' x [[<- <-]|[_ Hx]]%lookup_insert_Some; [done|by eapply ro_named].
  - intros k' r' [(-> & -> & ->)|(_ & Hne & Hk')]%Hcase; [exists op'; by rewrite lookup_insert_eq|].
    rewrite lookup_insert_ne by done. by eapply ro_stage.
  - intros n' x [[<- <-]|[Hne Hx]]%lookup_insert_Some Hno.
    + destruct next as [st|]; [|done]. by destruct (Hno k (mkRemoval n st)).
    + eapply (ro_over _ Hs); [done|]. intros k' r' Hk'. destruct (decide (k' = k)) as [->|Hk0]; [by simplify_eq|].
      apply (Hno k'). by rewrite Hr.
Qed.

Lemma section_ok timeout k s : removals_ok s → removals_ok (executeRemoval timeout k s).2.
Proof.
  intros Hs. unfold executeRemoval. rewrite (bind_ok get_state _ _ _ _ eq_refl). destruct (sy_removals s !! k) as [[n st]|] eqn:Hk; [|done].
  destruct (ro_stage _ Hs _ _ Hk) as (op & Hop & Hst). cbn [rv_node rv_stage] in *.
  pose proof (section_run timeout n st s op Hop (ro_named _ Hs _ _ Hop) Hst) as Hrun. unfold mbind, M_mbind, M_bind.
  destruct (removal_section timeout n st s) as [o s1]. destruct Hrun as (Hr & Hn & op' & Ho & Hid & Hst').
  assert (∀ next rs', ro_Status op' ∈ match next with Some st => stage_statuses st | None => over_statuses end →
    rs' !! k = mkRemoval n <$> next → (∀ k', k' ≠ k → rs' !! k' = sy_removals s !! k') → removals_ok (set_removals rs' s1)) as Hnext
    by (intros; by eapply removals_ok_next).
  assert (ro_Status op' ∈ stage_statuses st → removals_ok s1) as Hstay.
  { intros Hin. destruct s1. apply (Hnext (Some st)); [done|cbn in *; by rewrite Hr|cbn in *; by rewrite Hr]. }
  destruct o as [[st'|]| | |]; [| |by apply Hstay..].
  - apply (Hnext (Some st')); [done|by rewrite lookup_insert_eq|intros ? ?; by rewrite Hr, lookup_insert_ne].
  - apply (Hnext None); [done|by rewrite lookup_delete_eq|intros ? ?; by rewrite Hr, lookup_delete_ne].
Qed.

Lemma start_ok n s : removals_ok s → removals_ok (StartRemoval n s).2.
Proof.
  intros Hs. pose proof (start_run n s) as Hrun.
  destruct (mb_members (sy_members s) !! n) as [x|]; [|by rewrite Hrun]. destruct (sy_operations s !! n) as [op|] eqn:Hop; [by rewrite Hrun|].
  destruct Hrun as (t & m & x' & _ & _ & ->). set (rm := mkRemoval n SIdentify).
  assert (∀ k r, sy_removals s !! k = Some r → rv_node r ≠ n ∧ k ≠ sy_next s) as Hother.
  { intros k r Hk. split; [|apply (ro_fresh _ Hs) in Hk; lia]. intros <-. destruct (ro_stage _ Hs _ _ Hk) as (op & ? & _). congruence. }
  split; cbn.
  - intros k r [[<- <-]|[_ Hk]]%lookup_insert_Some; [lia|apply (ro_fresh _ Hs) in Hk; lia].
  - intros k1 k2 r1 r2 [[<- <-]|[? Hk1]]%lookup_insert_Some [[<- <-]|[? Hk2]]%lookup_insert_Some He; [done|..|by eapply ro_one].
    + by destruct (Hother _ _ Hk2).
    + by destruct (Hother _ _ Hk1).
  - intros n' x1 [[<- <-]|[_ Hx]]%lookup_insert_Some; [done|by eapply ro_named].
  - intros k r [[<- <-]|[_ Hk]]%lookup_insert_Some; [eexists; rewrite lookup_insert_eq; split; [done|by constructor]|].
    rewrite lookup_insert_ne by (apply not_eq_sym; by eapply Hother). by eapply ro_stage.
  - intros n' x1 [[<- <-]|[Hne Hx]]%lookup_insert_Some Hno; [destruct (Hno (sy_next s) rm); [by rewrite lookup_insert_eq|done]|].
    eapply (ro_over _ Hs); [done|]. intros k r Hk. apply (Hno k). destruct (Hother _ _ Hk). by rewrite lookup_insert_ne.
Qed.

Lemma cleanup_ok s : removals_ok s → removals_ok (CleanupCompletedRemovals s).2.
Proof.
  intros Hs. destruct (cleanup_removals_run s) as (cutoff & m & ops & -> & _ & Hops).
  assert (∀ n op, ops !! n = Some op → sy_operations s !! n = Some op) as Hsub.
  { intros n op. rewrite Hops. destruct (sy_operations s !! n) as [op'|]; [|done]. by destruct (forgettable _ _). }
  destruct Hs as [Hf Hone Hi Hst Hov]. split; cbn; try done.
  - intros n op Hop%Hsub. by apply Hi.
  - intros k r Hk. destruct (Hst _ _ Hk) as (op & Hop & Hin). exists op. split; [|done]. rewrite Hops, Hop.
    destruct (forgettable cutoff op) eqn:Hfg; [|done]. apply forgettable_completed in Hfg. by apply running_not_over in Hin.
  - intros n op Hop%Hsub. by apply Hov.
Qed.

Lemma sys_exec_ok op s : removals_ok s → removals_ok (sys_exec op s).2.
Proof.
  intros Hs. destruct (removal_op op) eqn:Hop; [|by eapply removals_ok_same; [by apply quiet_exec|]].
  destruct op; try done; cbn [sys_exec]; [by apply start_ok|by apply section_ok|by apply cleanup_ok].
Qed.
Lemma sys_run_ok ops : ∀ s, removals_ok s → removals_ok (sys_run ops s).
Proof. induction ops as [|op ops IH]; intros s Hs; [done|]. by apply IH, sys_exec_ok. Qed.

(** *** A removed node's operation stays *)

Definition running (n : string) (s : System) : Prop := ∃ k r, sy_removals s !! k = Some r ∧ rv_node r = n.
(** An operation that nothing forgets. *)
Definition failed_for_good (n : string) (s : System) : Prop :=
  ∃ op, sy_operations s !! n = Some op ∧ ro_Status op = "failed" ∧ ¬ running n s.

(** What a section does to the operations of the other nodes. *)
Lemma section_effect timeout k s : removals_ok s → 
  match sy_removals s !! k with
  | None => executeRemoval timeout k s = (Ok (), s)
  | Some r => let s1 := (executeRemoval timeout k s).2 in
      (∃ op', sy_operations s1 = <[rv_node r := op']> (sy_operations s)) ∧
      (∀ k' r', sy_removals s1 !! k' = Some r' → ∃ r0, sy_removals s !! k' = Some r0 ∧ rv_node r0 = rv_node r') ∧
      ∀ k', k' ≠ k → sy_removals s1 !! k' = sy_removals s !! k'
  end.
Proof.
  intros Hs. unfold executeRemoval. rewrite (bind_ok get_state _ _ _ _ eq_refl). destruct (sy_removals s !! k) as [[n st]|] eqn:Hk; [|done].
  destruct (ro_stage _ Hs _ _ Hk) as (op & Hop & Hst). cbn [rv_node rv_stage] in *.
  pose proof (section_run timeout n st s op Hop (ro_named _ Hs _ _ Hop) Hst) as Hrun. unfold mbind, M_mbind, M_bind.
  destruct (removal_section timeout n st s) as [o s1]. destruct Hrun as (Hr & _ & op' & Ho & _).
  destruct o as [[st'|]| | |]; cbn; (split; [by exists op'|]); rewrite ?Hr; [| |by eauto..].
  - split; [|intros; by rewrite lookup_insert_ne]. intros k' r' [[<- <-]|[_ Hk']]%lookup_insert_Some; [by exists (mkRemoval n st)|by exists r'].
  - split; [|intros; by rewrite lookup_delete_ne]. intros k' r' [_ Hk']%lookup_delete_Some. by exists r'.
Qed.

Lemma operation_stays op n s : removals_ok s → op ≠ OCleanupRemovals → is_Some (sy_operations s !! n) → is_Some (sy_operations (sys_exec op s).2 !! n).
Proof.
  intros Hs Hne Hn. destruct (removal_op op) eqn:Hop; [|by destruct (quiet_exec op Hop s) as (-> & _)].
  destruct op as [|n'|k timeout| | | | | | |]; try done; cbn [sys_exec].
  - pose proof (start_run n' s) as Hrun. destruct (mb_members (sy_members s) !! n') as [x|]; [|by rewrite Hrun].
    destruct (sy_operations s !! n') as [op|]; [by rewrite Hrun|]. destruct Hrun as (t & m & x' & _ & _ & ->). cbn.
    apply lookup_insert_is_Some'. by right.
  - pose proof (section_effect timeout k s Hs) as He. destruct (sy_removals s !! k) as [r|]; [|by rewrite He].
    destruct He as ((op' & ->) & _). apply lookup_insert_is_Some'. by right.
Qed.

Lemma failed_stays op n s : removals_ok s → failed_for_good n s → failed_for_good n (sys_exec op s).2.
Proof.
  intros Hs (o & Ho & Hf & Hno). destruct (removal_op op) eqn:Hop.
  2:{ destruct (quiet_exec op Hop s) as (Hops & Hr & _). exists o. unfold running. by rewrite Hops, Hr. }
  destruct op as [|n'|k timeout| | | | | | |]; try done; cbn [sys_exec].
  - pose proof (start_run n' s) as Hrun. destruct (mb_members (sy_members s) !! n') as [x|]; [|rewrite Hrun; by exists o].
    destruct (sy_operations s !! n') as [op|] eqn:Hn'; [rewrite Hrun; by exists o|]. destruct Hrun as (t & m & x' & _ & _ & ->).
    assert (n' ≠ n) as Hne by (intros ->; congruence). exists o. cbn. rewrite lookup_insert_ne by done. do 2 (split; [done|]).
    intros (k & r & Hk & He). cbn in Hk. apply lookup_insert_Some in Hk as [[<- <-]|[_ Hk]]; [done|]. apply Hno. by exists k, r.
  - pose proof (section_effect timeout k s Hs) as He. destruct (sy_removals s !! k) as [r|] eqn:Hk; [|rewrite He; by exists o].
    destruct He as ((op' & Hops) & Hrs & _). exists o. rewrite Hops, lookup_insert_ne by (intros He; apply Hno; by exists k, r).
    do 2 (split; [done|]). intros (k' & r' & Hk' & <-). destruct (Hrs _ _ Hk') as (r0 & Hk0 & He). apply Hno. by exists k', r0.
  - destruct (cleanup_removals_run s) as (cutoff & m & ops & -> & _ & Hops). exists o. cbn. rewrite Hops, Ho.
    destruct (forgettable cutoff o) eqn:Hfg; [|done]. apply forgettable_completed in Hfg. congruence.
Qed.

Lemma run_stays ops n : ∀ s, removals_ok s →
  (is_Some (sy_operations s !! n) ∧ OCleanupRemovals ∉ ops) ∨ failed_for_good n s → is_Some (sy_operations (sys_run ops s) !! n).
Proof.
  induction ops as [|op ops IH]; intros s Hs Hn.
  - by destruct Hn as [[? _]|(o & Ho & _)]; [|exists o].
  - apply IH; [by apply sys_exec_ok|]. destruct Hn as [[Hn Hni]|Hn]; [left|right; by apply failed_stays].
    apply not_elem_of_cons in Hni as [? ?]. split; [by apply operation_stays|done].
Qed.
Lemma start_refused n s : is_Some (sy_operations s !! n) → ∃ e, StartRemoval n s = (Err e, s).
Proof.
  intros [op Hop]. pose proof (start_run n s) as Hrun. rewrite Hop in Hrun. destruct (mb_members (sy_members s) !! n); eauto.
Qed.

(** *** The goroutine gets to its end *)

(** Operations that make [n] a member, or no member. *)
Definition touches (n : string) (op : sys_op) : bool :=
  match op with
  | OMember (MRemove id) | OMember (MAdd id _ _ _ _) => bool_decide (id = n)
  | OMember (MJoin req) => bool_decide (jr_NodeID req = n)
  | _ => false
  end.
Definition is_member (n : string) (s : System) : Prop := is_Some (mb_members (sy_members s) !! n).
Definition same_member (n : string) (m m' : Membership) : Prop := is_Some (mb_members m !! n) ↔ is_Some (mb_members m' !! n).
#[local] Instance same_member_preorder n : PreOrder (same_member n).
Proof. split; [by intros m|]. intros m1 m2 m3 Hm1 Hm2. unfold same_member in *. by rewrite Hm1. Qed.

Lemma next_turn_member n : respects (same_member n) next_turn.
Proof. by intros m. Qed.
Lemma now_member n : respects (same_member n) now.
Proof. by intros m. Qed.
Lemma tokens_member n (f : Membership → TokenManager) : respects (same_member n) (modify (λ m, with_tm (f m) m)).
Proof. by intros m. Qed.
Hint Resolve next_turn_member now_member : respects.
Lemma read_token_member n l : respects (same_member n) (read_token l).
Proof. unfold read_token. respects_auto. Qed.
Hint Resolve read_token_member : respects.
Lemma Validate_member n t : respects (same_member n) (ValidateToken t).
Proof. unfold ValidateToken. respects_auto. Qed.
Lemma Mark_member n t id : respects (same_member n) (MarkTokenUsed t id).
Proof. unfold MarkTokenUsed. respects_auto. done. Qed.
Hint Resolve Validate_member Mark_member : respects.
Lemma insert_member n id x m : id ≠ n → same_member n m (with_members (<[id := x]> (mb_members m)) m).
Proof. intros Hne. unfold same_member. cbn. by rewrite lookup_insert_ne. Qed.
Lemma member_exec_same n op : touches n (OMember op) = false → respects (same_member n) (member_exec op).
Proof.
  destruct op; intros Hop; cbn in Hop; try apply bool_decide_eq_false in Hop; cbn [member_exec].
  - unfold GenerateToken. respects_auto; done.
  - unfold RevokeToken. respects_auto; done.
  - unfold ListTokens. respects_auto.
  - unfold CleanupExpiredTokens, cleanup_token. respects_auto; done.
  - unfold HandleJoinRequest. respects_auto. by apply insert_member.
  - unfold AddMember. respects_auto. by apply insert_member.
  - unfold RemoveMember. respects_auto. unfold same_member. cbn. by rewrite lookup_delete_ne.
  - respects_step; [|respects_step]. intros s. unfold UpdateMemberStatus.
    rewrite (bind_ok get_state _ _ _ _ eq_refl). destruct (mb_members s !! nodeID) as [x|] eqn:Hx; [|done]. rewrite (bind_ok _ _ _ _ _ (now_run s)). unfold same_member. cbn.
    destruct (decide (nodeID = n)) as [->|Hne]; [rewrite lookup_insert_eq; cbn in Hx; rewrite Hx; by split; eauto|by rewrite lookup_insert_ne].
  - unfold GetMember. respects_auto.
Qed.

Definition sys_member (n : string) (s s' : System) : Prop := same_member n (sy_members s) (sy_members s').
#[local] Instance sys_member_preorder n : PreOrder (sys_member n).
Proof. split; [by intros s|]. intros s1 s2 s3. apply (transitivity (R := same_member n)). Qed.
Lemma on_members_member {A} n (m : M Membership A) : respects (same_member n) m → respects (sys_member n) (on_members m).
Proof. intros Hm s. specialize (Hm (sy_members s)). unfold on_members, zoom. by destruct (m (sy_members s)). Qed.
Lemma sys_now_member n : respects (sys_member n) sys_now.
Proof. apply on_members_member, now_member. Qed.
Lemma sys_turn_member n : respects (sys_member n) sys_turn.
Proof. apply on_members_member, next_turn_member. Qed.
Lemma GetMember_member n id : respects (sys_member n) (on_members (GetMember id)).
Proof. apply on_members_member. unfold GetMember. respects_auto. Qed.
Lemma GetMembers_member n : respects (sys_member n) (on_members GetMembers).
Proof. apply on_members_member. unfold GetMembers. respects_auto. Qed.
Hint Resolve sys_now_member sys_turn_member GetMember_member GetMembers_member : respects.
Lemma read_task_member n l : respects (sys_member n) (read_task l).
Proof. unfold read_task. respects_auto. Qed.
Lemma write_task_member n l t : respects (sys_member n) (write_task l t).
Proof. unfold write_task. respects_auto. done. Qed.
Lemma put_operation_member n id op : respects (sys_member n) (put_operation id op).
Proof. unfold put_operation. respects_auto. done. Qed.
Hint Resolve read_task_member write_task_member put_operation_member : respects.
Lemma Start_member n l : respects (sys_member n) (StartTransfer l).
Proof. unfold StartTransfer. respects_auto; done. Qed.
Lemma status_member n id st : respects (sys_member n) (updateOperationStatus id st).
Proof. unfold updateOperationStatus. respects_auto. Qed.
Lemma fail_member n id msg : respects (sys_member n) (failOperation id msg).
Proof. unfold failOperation. respects_auto. Qed.
Hint Resolve Start_member status_member fail_member : respects.

Lemma quiet_exec_member n op : removal_op op = false → touches n op = false → respects (sys_member n) (sys_exec op).
Proof.
  destruct op as [op| | | | | |w|tid| |]; intros Hop Ht; try discriminate; cbn [sys_exec].
  - respects_step; [|respects_step]. by apply on_members_member, member_exec_same.
  - unfold CreateTransfer. respects_auto; done.
  - respects_auto.
  - unfold executeTransfer. respects_auto; done.
  - unfold CancelTransfer. respects_auto.
  - unfold CleanupCompletedTransfers, cleanup_transfer. respects_auto; done.
  - unfold TriggerRebalance, CalculateRebalancePlan, ExecuteRebalance. respects_auto.
Qed.
Lemma section_member timeout n n' st : n' ≠ n → respects (sys_member n) (removal_section timeout n' st).
Proof.
  intros Hne. destruct st as [| |ts|[|l todo] ts|ts| | | | |msg|]; cbn [removal_section]; respects_auto.
  apply on_members_member. unfold RemoveMember. respects_auto. unfold same_member. cbn. by rewrite lookup_delete_ne.
Qed.
Lemma execute_member timeout n k s : (∀ r, sy_removals s !! k = Some r → rv_node r ≠ n) → sys_member n s (executeRemoval timeout k s).2.
Proof.
  intros Hk. unfold executeRemoval. rewrite (bind_ok get_state _ _ _ _ eq_refl). destruct (sy_removals s !! k) as [r|]; [|done].
  refine (respects_bind (sys_member n) _ _ _ _ s); [by apply section_member, Hk|]. intros next. respects_auto. done.
Qed.

(** The sections that remain of a removal that goes well. *)
Definition remaining (st : Stage) : option nat :=
  match st with
  | SIdentify => Some 8
  | SMember => Some 7
  | STransferring [] => Some 6
  | SStart [] [] => Some 5
  | SShutdown => Some 4
  | SRemoving => Some 3
  | SRemove => Some 2
  | SComplete => Some 1
  | _ => None
  end.
(** The goroutine [k] that removes [n] has [j] sections before it. *)
Inductive on_way (n : string) (k : nat) : nat → System → Prop :=
| ow_going st j s : sy_removals s !! k = Some (mkRemoval n st) → remaining st = Some j →
    (1 < j → is_member n s) → (j = 1 → ¬ is_member n s) → on_way n k j s
| ow_done op s : ¬ running n s → sy_operations s !! n = Some op → ro_Status op = "completed" → ¬ is_member n s → on_way n k 0 s.

Lemma remaining_pos st j : remaining st = Some j → 0 < j.
Proof. destruct st as [| |[]|[] []|ts| | | | |msg|]; intros [= <-]; lia. Qed.

(** What is not the goroutine of [n] leaves it where it is. *)
Lemma on_way_frame n k j s s' : on_way n k j s → sys_member n s s' →
  sy_operations s' !! n = sy_operations s !! n →
  (∀ k', (∃ r, sy_removals s !! k' = Some r ∧ rv_node r = n) → sy_removals s' !! k' = sy_removals s !! k') →
  (∀ k' r, sy_removals s' !! k' = Some r → rv_node r = n → sy_removals s !! k' = Some r) →
  on_way n k j s'.
Proof.
  intros Hw Hm Ho Hr Hr'. change (is_member n s ↔ is_member n s') in Hm. destruct Hw as [st j s Hk Hj Hin Hout|op s Hno Hop Hst Hout].
  - apply (ow_going _ _ st); [rewrite Hr; [done|by exists (mkRemoval n st)]|done|intros ?; by apply Hm, Hin|intros ?; rewrite <- Hm; by apply Hout].
  - apply (ow_done _ _ op); [|by rewrite Ho|done|by rewrite <- Hm]. intros (k' & r & Hk' & He). apply Hno. exists k', r. split; [by apply Hr'|done].
Qed.
Lemma on_way_operation n k j s : removals_ok s → on_way n k j s → is_Some (sy_operations s !! n).
Proof. intros Hs Hw. destruct Hw as [st j s Hk _ _ _|op s _ Hop _ _]; [|by exists op]. destruct (ro_stage _ Hs _ _ Hk) as (op & Hop & _). by exists op. Qed.
Lemma on_way_exec n k j op s : removals_ok s → on_way n k j s → op ≠ OCleanupRemovals → touches n op = false →
  (∀ k' timeout r, op = OSection k' timeout → sy_removals s !! k' = Some r → rv_node r ≠ n) → on_way n k j (sys_exec op s).2.
Proof.
  intros Hs Hw Hne Ht Hsec. destruct (removal_op op) eqn:Hop.
  2:{ pose proof (quiet_exec op Hop s) as (Ho & Hr & _). pose proof (quiet_exec_member n op Hop Ht s) as Hm.
      eapply on_way_frame; [done|done|by rewrite Ho|by rewrite Hr|by rewrite Hr]. }
  destruct op as [|n'|k' timeout| | | | | | |]; try done; cbn [sys_exec].
  - pose proof (start_run n' s) as Hrun. destruct (mb_members (sy_members s) !! n') as [x|] eqn:Hx; [|by rewrite Hrun].
    destruct (sy_operations s !! n') as [op|] eqn:Hn'; [by rewrite Hrun|]. destruct Hrun as (t & m & x' & Hm & _ & ->).
    assert (n' ≠ n) as Hnn by (intros ->; apply on_way_operation in Hw as [? ?]; [congruence|done]).
    eapply on_way_frame; [done|..]; cbn.
    + unfold sys_member, same_member. cbn. by rewrite Hm, lookup_insert_ne.
    + by rewrite lookup_insert_ne.
    + intros k' (r & Hk' & _). rewrite lookup_insert_ne; [done|]. apply (ro_fresh _ Hs) in Hk'. lia.
    + intros k' r [[<- <-]|[_ Hk']]%lookup_insert_Some He; done.
  - pose proof (execute_member timeout n k' s (λ r, Hsec k' timeout r eq_refl)) as Hm. pose proof (section_effect timeout k' s Hs) as He.
    destruct (sy_removals s !! k') as [r|] eqn:Hk'; [|by rewrite He]. destruct He as ((op' & Ho) & Hrs & Hrs').
    pose proof (Hsec k' timeout r eq_refl Hk') as Hnn.
    eapply on_way_frame; [done|done|by rewrite Ho, lookup_insert_ne|..].
    + intros k1 (r1 & Hk1 & Hr1). apply Hrs'. intros ->. by simplify_eq.
    + intros k1 r1 Hk1 Hr1. rewrite <- Hrs'; [done|]. intros ->. destruct (Hrs _ _ Hk1) as (r0 & Hk0 & He0). by simplify_eq.
Qed.

Lemma execute_run timeout k s n st next s1 : sy_removals s !! k = Some (mkRemoval n st) →
  removal_section timeout n st s = (Ok next, s1) →
  (executeRemoval timeout k s).2 =
    set_removals (match next with Some st' => <[k := mkRemoval n st']> (sy_removals s1) | None => delete k (sy_removals s1) end) s1.
Proof.
  intros Hk Hrun. unfold executeRemoval. rewrite (bind_ok get_state _ _ _ _ eq_refl), Hk. cbn [rv_node rv_stage].
  by rewrite (bind_ok _ _ _ _ _ Hrun).
Qed.
Ltac goes_on := do 2 eexists; split; [reflexivity|]; do 2 (split; [done|]); split; [lia|done || by eexists].
(** The next section of a removal that goes well. *)
Lemma section_advances timeout n st s j : removals_ok s → remaining st = Some (S j) → is_Some (sy_operations s !! n) → (1 < S j → is_member n s) →
  ∃ next s1, removal_section timeout n st s = (Ok next, s1) ∧ sy_removals s1 = sy_removals s ∧
    match next with
    | Some st' => remaining st' = Some j ∧ (is_member n s1 ↔ 1 < j)
    | None => j = 0 ∧ (is_member n s1 ↔ is_member n s) ∧ ∃ op, sy_operations s1 !! n = Some op ∧ ro_Status op = "completed"
    end.
Proof.
  intros Hs Hj [op Hop] Hin.
  destruct st as [| |[|]|[|] [|]|ts| | | | |msg|]; try discriminate; injection Hj as <-; cbn [removal_section];
    try (assert (is_member n s) as Hm by (apply Hin; lia)).
  - rewrite (bind_ok _ _ _ _ _ (status_run _ _ _ _ Hop)). goes_on.
  - rewrite (bind_ok _ _ _ _ _ (member_lookup n s)). destruct Hm as [x Hx]. rewrite Hx. goes_on.
  - rewrite (bind_ok get_state _ _ _ _ eq_refl), Hop. goes_on.
  - rewrite bool_decide_eq_true_2 by done. goes_on.
  - rewrite (bind_ok _ _ _ _ _ (status_run _ _ _ _ Hop)). goes_on.
  - rewrite (bind_ok _ _ _ _ _ (status_run _ _ _ _ Hop)). goes_on.
  - destruct (remove_run n s) as (e & m & Hrun & Hmem & He). apply He in Hm as ->. rewrite (bind_ok _ _ _ _ _ Hrun). do 2 eexists. split; [reflexivity|].
    do 2 (split; [done|]). unfold is_member. cbn. rewrite Hmem, lookup_delete_eq. split; [by intros []|lia].
  - destruct (complete_run n s op Hop) as (t & m & Hrun). cbn [removal_section] in Hrun. rewrite Hrun. do 2 eexists. split; [reflexivity|].
    split; [done|]. split; [done|]. split; [done|]. eexists. cbn. rewrite lookup_insert_eq. by split.
Qed.
Lemma on_way_advance timeout n k j s : removals_ok s → on_way n k (S j) s → on_way n k j (executeRemoval timeout k s).2.
Proof.
  intros Hs Hw. pose proof (on_way_operation _ _ _ _ Hs Hw) as Hop. inversion Hw as [st ? ? Hk Hj Hin Hout|]; subst.
  destruct (section_advances timeout n st s j Hs Hj Hop Hin) as (next & s1 & Hrun & Hr & Hnext). rewrite (execute_run _ _ _ _ _ _ _ Hk Hrun), Hr.
  destruct next as [st'|].
  - destruct Hnext as [Hj' Hm]. apply (ow_going _ _ st'); [by cbn; rewrite lookup_insert_eq|done|by intros ?%Hm|].
    intros ->. intros ?%Hm. lia.
  - destruct Hnext as (-> & Hm & op & Hop1 & Hst). apply (ow_done _ _ op); [|done|done|].
    + intros (k' & r & Hk' & He). cbn in Hk'. apply lookup_delete_Some in Hk' as [Hne Hk']. by apply Hne, (ro_one _ Hs _ _ _ _ Hk Hk').
    + intros Hin'. apply Hout; [done|]. by apply Hm.
Qed.

(** The sections of the goroutine [k] in a schedule. *)
Definition sections (k : nat) (ops : list sys_op) : nat :=
  length (filter (λ op, match op with OSection k' _ => bool_decide (k' = k) | _ => false end = true) ops).
Lemma on_way_run n k ops : ∀ j s, removals_ok s → on_way n k j s → OCleanupRemovals ∉ ops → Forall (λ op, touches n op = false) ops →
  on_way n k (j - sections k ops) (sys_run ops s).
Proof.
  induction ops as [|op ops IH]; intros j s Hs Hw Hni Ht; [by rewrite Nat.sub_0_r|].
  apply not_elem_of_cons in Hni as [Hne Hni]. apply Forall_cons in Ht as [Hop Ht].
  assert (∀ j', on_way n k j' (sys_exec op s).2 → on_way n k (j' - sections k ops) (sys_run (op :: ops) s)) as Hnext.
  { intros j' Hj'. apply IH; [by apply sys_exec_ok|done..]. }
  unfold sections. rewrite filter_cons. fold (sections k ops).
  destruct (decide (_ = true)) as [Hsec|Hsec].
  - destruct op as [| |k' timeout| | | | | | |]; try done. apply bool_decide_eq_true in Hsec as ->. destruct j as [|j].
    + apply (Hnext 0), on_way_exec; [done..|]. intros k1 t1 r [= <- <-] Hk He. inversion Hw as [st ? ? Hk' Hj' ? ?|? ? Hno]; subst; [by apply remaining_pos in Hj'; lia|].
      apply Hno. by exists k, r.
    + cbn [length]. rewrite Nat.sub_succ. apply Hnext. by apply on_way_advance.
  - apply Hnext, on_way_exec; [done..|]. intros k1 t1 r -> Hk He. apply Hsec, bool_decide_eq_true.
    inversion Hw as [st ? ? Hk' ? ? ?|? ? Hno]; subst; [by eapply ro_one|]. destruct Hno. by exists k1, r.
Qed.
End consistency.

(** ** Theorems *)

(** The removals are consistent in every state a new cluster can reach, whatever the
    order of its operations and of the sections of its goroutines: no node is removed by
    two goroutines, a goroutine finds its operation with the status of the stage it is
    at, and an operation without goroutine is completed or failed. *)
Theorem removals_are_consistent `{Crypto} `{ClusterRuntime} `{RemovalLaws} ops m : removals_ok (sys_run ops (new_system m)).
Proof. apply sys_run_ok. split; cbn; intros *; by rewrite ?lookup_empty. Qed.

(** C24: a node is removed once: from a state in which the cluster has an operation for
    the node, no run of operations without [CleanupCompletedRemovals] (nothing in the
    program calls it) ends in a state in which the node can be removed, though it may
    have joined again; when the operation has failed and its goroutine has ended, no run
    at all does. *)
Theorem removed_once `{Crypto} `{ClusterRuntime} `{RemovalLaws} ops n s : removals_ok s →
  (is_Some (sy_operations s !! n) ∧ OCleanupRemovals ∉ ops) ∨ failed_for_good n s →
  ∃ e, StartRemoval n (sys_run ops s) = (Err e, sys_run ops s).
Proof. intros Hs Hn. by apply start_refused, run_stays. Qed.

(** A removal comes to its end: once [StartRemoval] has accepted a node, any run of
    other operations in which the goroutine of the removal makes eight sections, however
    they are interleaved, leaves the node out of the cluster and the operation completed,
    provided nothing else adds or removes the node and no operation is forgotten. *)
Theorem removal_completes `{Crypto} `{ClusterRuntime} `{RemovalLaws} ops n s s' : removals_ok s →
  StartRemoval n s = (Ok (), s') → OCleanupRemovals ∉ ops → Forall (λ op, touches n op = false) ops → 8 ≤ sections (sy_next s) ops →
  let s2 := sys_run ops s' in
  ¬ is_member n s2 ∧ ¬ running n s2 ∧ ∃ op, GetRemovalStatus n s2 = (Ok op, s2) ∧ ro_Status op = "completed".
Proof.
  intros Hs Hstart Hni Ht Hsec s2. pose proof (start_ok n s Hs) as Hs'. rewrite Hstart in Hs'. cbn in Hs'.
  assert (on_way n (sy_next s) 8 s') as Hw.
  { pose proof (start_run n s) as Hrun. destruct (mb_members (sy_members s) !! n) as [x|]; [|by rewrite Hstart in Hrun].
    destruct (sy_operations s !! n) as [op|]; [by rewrite Hstart in Hrun|]. destruct Hrun as (t & m & x' & Hm & _ & Hrun).
    rewrite Hrun in Hstart. injection Hstart as <-. apply (ow_going _ _ SIdentify); [by cbn; rewrite lookup_insert_eq|done| |done].
    intros _. unfold is_member. cbn. rewrite Hm, lookup_insert_eq. by eexists. }
  pose proof (on_way_run n (sy_next s) ops 8 s' Hs' Hw Hni Ht) as Hend. replace (8 - sections (sy_next s) ops) with 0 in Hend by lia.
  inversion Hend as [st ? ? Hk Hj ? ?|op ? Hno Hop Hst Hout]; subst; [by apply remaining_pos in Hj; lia|].
  do 2 (split; [done|]). exists op. split; [|done]. unfold GetRemovalStatus. rewrite (bind_ok get_state _ _ _ _ eq_refl). unfold s2. by rewrite Hop.
Qed.

(** ** Transfers *)

Section transfer.
Context `{Crypto} `{ClusterRuntime} `{RemovalRuntime}.

Lemma sys_now_run s : ∃ t m, sys_now s = (Ok t, set_members m s).
Proof. destruct s as [[tm ms n0] ? ? ? ? ? ?]. by exists (time_Now n0), (mkMem tm ms (S n0)). Qed.
Lemma read_task_run l t s : sy_tasks s !! l = Some t → read_task l s = (Ok t, s).
Proof. intros Hl. unfold read_task. by rewrite (bind_ok get_state _ _ _ _ eq_refl), Hl. Qed.

Lemma worker_run w l i t s : sy_workers s !! w = Some (mkWorker l i) → sy_tasks s !! l = Some t →
  ∃ m t', let s' := (executeTransfer w s).2 in sy_transfers s' = sy_transfers s ∧ sy_members s' = m ∧ sy_tasks s' !! l = Some t' ∧ ts_Error t' = ts_Error t ∧
    if bool_decide (i < transfer_steps) then sy_workers s' !! w = Some (mkWorker l (S i)) ∧ ts_Progress t' = (Z.of_nat (S i) * 10)%Z
    else sy_workers s' !! w = None ∧ ts_Progress t' = ts_Progress t ∧ ts_Status t' = TransferStatusCompleted.
Proof.
  intros Hw Hl. unfold executeTransfer. rewrite (bind_ok get_state _ _ _ _ eq_refl), Hw. cbv zeta. cbn [wk_task wk_steps].
  rewrite (bind_ok _ _ _ _ _ (read_task_run l t s Hl)). destruct (bool_decide (i < transfer_steps)).
  - do 2 eexists. split; [done|]. split; [done|]. unfold write_task, mbind, M_mbind, M_bind, modify.
    cbn -[Z.mul Z.div transfer_steps]. rewrite !lookup_insert_eq. split; [done|]. split; [done|]. split; [done|].
    change (Z.of_nat transfer_steps) with 10%Z. replace (Z.of_nat (S i) * 100)%Z with (Z.of_nat (S i) * 10 * 10)%Z by lia. by rewrite Z.div_mul.
  - destruct (sys_now_run s) as (now & m & Hnow). rewrite (bind_ok _ _ _ _ _ Hnow). do 2 eexists. split; [done|]. split; [done|].
    unfold write_task, mbind, M_mbind, M_bind, modify. cbn. by rewrite lookup_delete_eq, lookup_insert_eq.
Qed.
(** A worker that no one else's steps come between completes its task, whatever the
    task's status. *)
Lemma worker_completes w l d : ∀ i s t, i + d = transfer_steps → sy_workers s !! w = Some (mkWorker l i) → sy_tasks s !! l = Some t →
  let s' := sys_run (replicate (S d) (OTransferSection w)) s in
  sy_workers s' !! w = None ∧ sy_transfers s' = sy_transfers s ∧
  ∃ t', sy_tasks s' !! l = Some t' ∧ ts_Status t' = TransferStatusCompleted ∧ ts_Error t' = ts_Error t ∧
    ts_Progress t' = if bool_decide (d = 0) then ts_Progress t else 100%Z.
Proof.
  induction d as [|d IH]; intros i s t Hi Hw Hl s'; destruct (worker_run w l i t s Hw Hl) as (m & t1 & Htr & _ & Hl1 & He1 & Hcase).
  - rewrite bool_decide_eq_false_2 in Hcase by lia. destruct Hcase as (Hw1 & Hp & Hst). split; [done|]. split; [done|]. by exists t1.
  - rewrite bool_decide_eq_true_2 in Hcase by lia. destruct Hcase as (Hw1 & Hp).
    destruct (IH (S i) _ t1 ltac:(lia) Hw1 Hl1) as (Hw' & Htr' & t' & Ht' & Hst & He & Hp').
    split; [done|]. split; [by rewrite <- Htr, <- Htr'|]. exists t'. split; [done|]. split; [done|]. split; [by rewrite He|].
    rewrite Hp'. case_bool_decide as Hd; [|done]. subst d. rewrite Hp. unfold transfer_steps in Hi. cbn [bool_decide]. by replace i with 9 by lia.
Qed.
(** A transfer that was cancelled while it was under way ends completed, with the error
    "cancelled". *)
Lemma cancelled_transfer_completes w l i tid s s1 : i ≤ transfer_steps → sy_workers s !! w = Some (mkWorker l i) →
  sy_transfers s !! tid = Some l → CancelTransfer tid s = (Ok (), s1) →
  ∃ t, GetTransfer tid (sys_run (replicate (S (transfer_steps - i)) (OTransferSection w)) s1) = Some t ∧
    ts_Status t = TransferStatusCompleted ∧ ts_Error t = "cancelled".
Proof.
  intros Hi Hw Htid Hrun. unfold CancelTransfer in Hrun. rewrite (bind_ok get_state _ _ _ _ eq_refl), Htid in Hrun.
  destruct (sy_tasks s !! l) as [t|] eqn:Hl; [|by unfold read_task, mbind, M_mbind, M_bind, get_state in Hrun; rewrite Hl in Hrun].
  rewrite (bind_ok _ _ _ _ _ (read_task_run l t s Hl)) in Hrun. destruct (bool_decide _); [done|].
  destruct (sys_now_run s) as (now & m & Hnow). rewrite (bind_ok _ _ _ _ _ Hnow) in Hrun. injection Hrun as <-.
  match goal with |- context [ sys_run _ ?s1 ] => destruct (worker_completes w l (transfer_steps - i) i s1 _ ltac:(lia) Hw (lookup_insert_eq _ _ _))
    as (_ & Htr & t' & Ht' & Hst & He & _) end.
  exists t'. unfold GetTransfer. rewrite Htr. cbn [sy_transfers set_tasks set_members]. rewrite Htid. by rewrite Ht'.
Qed.
(** The plan is empty: a rebalance does not start a transfer. *)
Lemma rebalance_moves_nothing s : ∃ m, TriggerRebalance s = (Ok (), set_members m s) ∧ mb_members m = mb_members (sy_members s).
Proof.
  destruct s as [[tm ms n0] ops rs ts tr ws nx]. exists (mkMem tm ms (S n0)). split; [|done].
  set (s1 := mkSys (mkMem tm ms (S n0)) ops rs ts tr ws nx). unfold TriggerRebalance. rewrite (bind_ok CalculateRebalancePlan _ _ [] s1); [done|].
  unfold CalculateRebalancePlan. rewrite (bind_ok (on_members GetMembers) _ _ (range_members n0 ms).*2 s1) by done.
  case_bool_decide; [done|]. cbv zeta. by case_bool_decide.
Qed.
End transfer.

(** ** An example *)

#[local] Existing Instances Scram.example_crypto Cluster.example_cluster_runtime.
#[local] Instance example_removal_runtime : RemovalRuntime := {
  range_operations _ := map_to_list;
  range_transfers _ := map_to_list;
}.
#[local] Instance example_removal_laws : RemovalLaws.
Proof. by split. Qed.
Definition two_nodes : System :=
  sys_run [OMember (MAdd "n1" "a" 1 2 3); OMember (MAdd "n2" "b" 1 2 3)] (new_system example_cluster).
Definition removing : System := (StartRemoval "n1" two_nodes).2.
(** The goroutine of the removal, and other operations in between. *)
Definition removal_schedule : list sys_op :=
  [OSection 0 false; OStartRemoval "n2"; OSection 0 false; OSection 1 false; OSection 0 false; ORebalance; OSection 0 false;
   OSection 0 false; OStartRemoval "n1"; OSection 0 false; OCreateTransfer "n1" "n2" "db" "t"; OSection 0 false; OSection 0 false].
Ltac not_listed := cbn [app removal_schedule]; repeat (apply not_elem_of_cons; split; [discriminate|]); apply not_elem_of_nil.
Lemma two_nodes_ok : removals_ok two_nodes.
Proof. apply sys_run_ok. split; cbn; intros *; by rewrite ?lookup_empty. Qed.

Definition example_run : list sys_op :=
  [OMember (MAdd "n1" "a" 1 2 3); OMember (MAdd "n2" "b" 1 2 3); OStartRemoval "n1"] ++ removal_schedule.
Lemma removals_are_consistent_witness : removals_ok (sys_run example_run (new_system example_cluster)).
Proof. exact (removals_are_consistent example_run example_cluster). Defined.
Lemma removed_once_witness : ∃ e, let s := sys_run (removal_schedule ++ [OMember (MAdd "n1" "a" 1 2 3)]) removing in StartRemoval "n1" s = (Err e, s).
Proof.
  apply (removed_once (removal_schedule ++ [OMember (MAdd "n1" "a" 1 2 3)]) "n1" removing).
  - exact (start_ok "n1" _ two_nodes_ok).
  - left. split; [vm_compute; eexists; reflexivity|]. not_listed.
Defined.
Lemma removal_completes_witness : let s2 := sys_run removal_schedule removing in
  ¬ is_member "n1" s2 ∧ ¬ running "n1" s2 ∧ ∃ op, GetRemovalStatus "n1" s2 = (Ok op, s2) ∧ ro_Status op = "completed".
Proof.
  apply (removal_completes removal_schedule "n1" two_nodes removing).
  - exact two_nodes_ok.
  - vm_compute. reflexivity.
  - not_listed.
  - repeat constructor.
  - vm_compute. repeat constructor.
Defined.
