(* ===== verification/Rpc.v ===== *)
(** * Calls between nodes ([internal/rpc]: types.go, cluster.go, server.go, forward.go, health.go, replication.go)

    A node's view of the cluster, the messages its server answers, and the calls it
    makes to other servers.  A call dials an address, sends one message and reads one
    answer; [Net] holds the servers that listen.  Messages are as the receiver decodes
    them ([encoding/json] gives back what was sent, numbers as floats): a payload is an
    object, or [None] when it is anything else.  The clock and identifiers are those of
    [Crypto]; what a dial reaches and which messages are lost are parameters, as is the
    order of a range statement.  The deadlines of contexts are not looked at by the code. *)

From S2P Require Import Prelude Bytes Order Datum GoStrings Scram.
From Stdlib Require Import Ascii.

(** ** types.go *)

Definition MsgHeartbeat : Z := 0.
Definition MsgHeartbeatResponse : Z := 1.
Definition MsgJoinRequest : Z := 2.
Definition MsgJoinResponse : Z := 3.
Definition MsgLeaveRequest : Z := 4.
Definition MsgLeaveResponse : Z := 5.
Definition MsgReplicateRequest : Z := 6.
Definition MsgReplicateResponse : Z := 7.
Definition MsgForwardQuery : Z := 10.
Definition MsgForwardResponse : Z := 11.

Abbreviation object := (gmap string JSON) (only parsing).
Record Message := mkMessage { m_Type : Z; m_From : string; m_To : string; m_Timestamp : Z; m_Payload : option object }.

Record NodeInfo := mkInfo {
  mi_NodeID : string; mi_Address : string; mi_ClusterPort : Z; mi_Status : string; mi_LastSeen : Z; mi_JoinedAt : Z;
}.
Record ClusterState := mkState {
  cs_ClusterID : string; cs_Members : gmap string NodeInfo; cs_Leader : string; cs_Term : Z; cs_UpdatedAt : Z;
}.

(** The payloads as they arrive; [opt] is a field with [omitempty]. *)
Definition jint (z : Z) : JSON := JNum (float_of_Z z).
Definition opt (key value : string) (m : object) : object := if bool_decide (value = "") then m else <[key := JStr value]> m.
Definition HeartbeatPayload (nodeID : string) (timestamp : Z) (status : string) : object :=
  {["node_id" := JStr nodeID; "timestamp" := jint timestamp; "status" := JStr status]}.
Definition JoinRequestPayload (nodeID address : string) (clusterPort : Z) : object :=
  {["node_id" := JStr nodeID; "address" := JStr address; "cluster_port" := jint clusterPort]}.
Definition JoinResponsePayload (success : bool) (nodeID clusterID : string) (members : list string) (error : string) : object :=
  opt "node_id" nodeID (opt "cluster_id" clusterID (opt "error" error
    (match members with [] => {["success" := JBool success]}
     | _ => {["success" := JBool success; "members" := JArr (JStr <$> members)]} end))).
Definition LeaveResponsePayload (success : bool) (error : string) : object := opt "error" error {["success" := JBool success]}.

(** [v, _ := payload[key].(string)], and the same for booleans. *)
Definition str_field (m : object) (key : string) : string := match m !! key with Some (JStr s) => s | _ => "" end.
Definition bool_field (m : object) (key : string) : bool := match m !! key with Some (JBool b) => b | _ => false end.

(** ** cluster.go *)

Record ClusterManager := mkCM {
  cm_nodeID : string; cm_clusterID : string; cm_members : gmap string NodeInfo; cm_leader : string; cm_term : Z;
}.
(** The manager and the turn of the clock. *)
Record Managed := mkManaged { mg_cluster : ClusterManager; mg_turn : nat }.
Definition with_nodes (ms : gmap string NodeInfo) (s : Managed) : Managed :=
  let c := mg_cluster s in mkManaged (mkCM (cm_nodeID c) (cm_clusterID c) ms (cm_leader c) (cm_term c)) (mg_turn s).

(** What a dial reaches: the name of a server that listens; [request_lost] and
    [response_lost] are failures of the connection at a turn. *)
Class RpcRuntime := {
  dial : nat → string → option string;
  request_lost : nat → bool;
  response_lost : nat → bool;
  range_nodes : nat → gmap string NodeInfo → list (string * NodeInfo);
}.

Section cluster.
Context `{Crypto} `{RpcRuntime}.

Definition NewClusterManager (nodeID : string) : M nat ClusterManager := i ← turn; mret (mkCM nodeID (uuid_New i) ∅ "" 0).

Definition mg_next : M Managed nat := zoom mg_turn (λ n s, mkManaged (mg_cluster s) n) turn.
Definition mg_now : M Managed Z := t ← mg_next; mret (time_Now t).

Definition AddNode (nodeID address : string) (clusterPort : Z) : M Managed unit :=
  s ← get_state;
  match cm_members (mg_cluster s) !! nodeID with
  | Some _ => fail ("node " +:+ nodeID +:+ " already exists in cluster")
  | None =>
      seen ← mg_now;
      joined ← mg_now;
      modify (λ s, with_nodes (<[nodeID := mkInfo nodeID address clusterPort "active" seen joined]> (cm_members (mg_cluster s))) s)
  end.
Definition RemoveNode (nodeID : string) : M Managed unit :=
  s ← get_state;
  match cm_members (mg_cluster s) !! nodeID with
  | None => fail ("node " +:+ nodeID +:+ " does not exist in cluster")
  | Some _ => modify (λ s, with_nodes (delete nodeID (cm_members (mg_cluster s))) s)
  end.
Definition UpdateNodeStatus (nodeID status : string) : M Managed unit :=
  s ← get_state;
  match cm_members (mg_cluster s) !! nodeID with
  | None => mret ()
  | Some node =>
      t ← mg_now;
      modify (λ s, with_nodes (<[nodeID := mkInfo (mi_NodeID node) (mi_Address node) (mi_ClusterPort node) status t (mi_JoinedAt node)]>
                                (cm_members (mg_cluster s))) s)
  end.
Definition GetNode (nodeID : string) (c : ClusterManager) : option NodeInfo := cm_members c !! nodeID.
Definition GetMembers : M Managed (list NodeInfo) :=
  r ← mg_next; s ← get_state; mret (range_nodes r (cm_members (mg_cluster s))).*2.
Definition GetActiveMembers : M Managed (list NodeInfo) :=
  l ← GetMembers; mret (filter (λ m, mi_Status m = "active") l).
Definition GetClusterID (c : ClusterManager) : string := cm_clusterID c.
Definition SetLeader (nodeID : string) : M Managed unit :=
  modify (λ s, let c := mg_cluster s in
    mkManaged (mkCM (cm_nodeID c) (cm_clusterID c) (cm_members c) nodeID (int64 (cm_term c + 1))) (mg_turn s)).
Definition GetLeader (c : ClusterManager) : string := cm_leader c.
Definition GetTerm (c : ClusterManager) : Z := cm_term c.
Definition GetClusterState : M Managed ClusterState :=
  t ← mg_now; s ← get_state; let c := mg_cluster s in mret (mkState (cm_clusterID c) (cm_members c) (cm_leader c) (cm_term c) t).
(** The loop of [MarkInactiveNodes] changes each node by itself. *)
Definition mark_inactive (cutoff : Z) (node : NodeInfo) : NodeInfo :=
  if bool_decide (mi_LastSeen node < cutoff)%Z && bool_decide (mi_Status node = "active")
  then mkInfo (mi_NodeID node) (mi_Address node) (mi_ClusterPort node) "inactive" (mi_LastSeen node) (mi_JoinedAt node)
  else node.
Definition MarkInactiveNodes (timeout : Z) : M Managed unit :=
  t ← mg_now; modify (λ s, with_nodes (mark_inactive (t - timeout) <$> cm_members (mg_cluster s)) s).
End cluster.

(** ** server.go and replication.go: the answers *)

Record ReplicaInfo := mkReplica { rp_TableID : string; rp_NodeID : string; rp_Role : string; rp_LastSync : Z; rp_Status : string }.
(** A process: the server, its view of the cluster and its replicas. *)
Record Node := mkNode { nd_nodeID : string; nd_address : string; nd_cluster : ClusterManager; nd_replicas : gmap string ReplicaInfo }.
Record Local := mkLocal { lc_node : Node; lc_turn : nat }.
Definition NewServer (nodeID address : string) (cluster : ClusterManager) : Node := mkNode nodeID address cluster ∅.

Section server.
Context `{Crypto} `{RpcRuntime}.

Definition on_cluster {A} (m : M Managed A) : M Local A :=
  zoom (λ l, mkManaged (nd_cluster (lc_node l)) (lc_turn l))
    (λ c l, let n := lc_node l in mkLocal (mkNode (nd_nodeID n) (nd_address n) (mg_cluster c) (nd_replicas n)) (mg_turn c)) m.
(** [time.Now().Unix()] *)
Definition unix : M Local Z := t ← on_cluster mg_now; mret (t / 1000000000)%Z.
Definition self : M Local Node := l ← get_state; mret (lc_node l).
(** An answer to [msg]. *)
Definition reply (t : Z) (msg : Message) (payload : M Local object) : M Local Message :=
  n ← self; ts ← unix; p ← payload; mret (mkMessage t (nd_nodeID n) (m_From msg) ts (Some p)).
Definition with_payload {A} (msg : Message) (err : string) (k : object → M Local A) : M Local A :=
  match m_Payload msg with None => fail err | Some payload => k payload end.

Definition handleHeartbeat (msg : Message) : M Local Message :=
  with_payload msg "invalid heartbeat payload" (λ payload,
    on_cluster (UpdateNodeStatus (str_field payload "node_id") "active");;
    reply MsgHeartbeatResponse msg (n ← self; ts ← unix; mret (HeartbeatPayload (nd_nodeID n) ts "active"))).

(** The assertion [payload["cluster_port"].(float64)] panics when it fails. *)
Definition handleJoinRequest (msg : Message) : M Local Message :=
  with_payload msg "invalid join request payload" (λ payload,
    match payload !! "cluster_port" with
    | Some (JNum port) =>
        err ← catch (on_cluster (AddNode (str_field payload "node_id") (str_field payload "address") (int_of_float port));; mret None)
                (λ e, mret (Some e));
        match err with
        | Some e => reply MsgJoinResponse msg (mret (JoinResponsePayload false "" "" [] e))
        | None =>
            members ← on_cluster GetMembers;
            reply MsgJoinResponse msg (n ← self; mret (JoinResponsePayload true (nd_nodeID n) (GetClusterID (nd_cluster n)) (mi_NodeID <$> members) ""))
        end
    | _ => panic
    end).

Definition handleLeaveRequest (msg : Message) : M Local Message :=
  with_payload msg "invalid leave request payload" (λ payload,
    err ← catch (on_cluster (RemoveNode (str_field payload "node_id"));; mret None) (λ e, mret (Some e));
    reply MsgLeaveResponse msg (mret (match err with Some e => LeaveResponsePayload false e | None => LeaveResponsePayload true "" end))).

Definition handleMessage (msg : Message) : M Local Message :=
  let t := m_Type msg in
  if bool_decide (t = MsgHeartbeat) then handleHeartbeat msg
  else if bool_decide (t = MsgJoinRequest) then handleJoinRequest msg
  else if bool_decide (t = MsgLeaveRequest) then handleLeaveRequest msg
  else fail ("unknown message type: " +:+ pretty t).

(** The messages of a connection, [None] for one that does not decode: the answers
    sent until the server hangs up. *)
Fixpoint handleConnection (msgs : list (option Message)) : M Local (list Message) :=
  match msgs with
  | [] | None :: _ => mret []
  | Some msg :: msgs' =>
      r ← catch (a ← handleMessage msg; mret (Some a)) (λ _, mret None);
      match r with
      | None => mret []
      | Some a => l ← handleConnection msgs'; mret (a :: l)
      end
  end.

(** Two more handlers, which [handleMessage] does not call. *)
Definition HandleReplicateRequest (msg : Message) : M Local Message :=
  with_payload msg "invalid replicate request payload" (λ payload,
    reply MsgReplicateResponse msg
      (ts ← unix; mret {["table_id" := JStr (str_field payload "table_id"); "success" := JBool true; "timestamp" := jint ts]})).
Definition handleForwardQuery (msg : Message) : M Local Message :=
  with_payload msg "invalid forward query payload" (λ payload,
    let queryID := match payload !! "query_id" with Some (JNum f) => f | _ => float_of_Z 0 end in
    reply MsgForwardResponse msg
      (n ← self; ts ← unix;
       mret {["query_id" := jint (int_of_float queryID);
              "result" := JObj [("node", JStr (nd_nodeID n)); ("status", JStr "executed")]; "timestamp" := jint ts]})).

Definition AddReplica (tableID nodeID role : string) : M Local unit :=
  t ← on_cluster mg_now;
  modify (λ l, let n := lc_node l in
    mkLocal (mkNode (nd_nodeID n) (nd_address n) (nd_cluster n)
      (<[tableID +:+ ":" +:+ nodeID := mkReplica tableID nodeID role t "ready"]> (nd_replicas n))) (lc_turn l)).
(** [ro] is the order of the range statement. *)
Definition GetReplicas (ro : gmap string ReplicaInfo → list (string * ReplicaInfo)) (tableID : string) (n : Node) : list ReplicaInfo :=
  filter (λ r, rp_TableID r = tableID) (ro (nd_replicas n)).*2.
End server.

(** ** The network, and calling another node *)

(** The processes that listen, by the name a dial reaches them at. *)
Record Net := mkNet { nt_nodes : gmap string Node; nt_turn : nat }.

Section net.
Context `{Crypto} `{RpcRuntime}.

Definition net_turn : M Net nat := zoom nt_turn (λ n s, mkNet (nt_nodes s) n) turn.
(** A section of the process [k]; a panic ends the process. *)
Definition on_node {A} (k : string) (m : M Local A) : M Net A := λ s,
  match nt_nodes s !! k with
  | None => (Panic, s)
  | Some n =>
      match m (mkLocal n (nt_turn s)) with
      | (Panic, l) => (Panic, mkNet (delete k (nt_nodes s)) (lc_turn l))
      | (r, l) => (r, mkNet (<[k := lc_node l]> (nt_nodes s)) (lc_turn l))
      end
  end.

(** [net.DialTimeout], then one message and the reading of one answer: the server
    serves the message and meets the end of the connection. *)
Definition net_dial (address : string) : M Net string :=
  t ← net_turn; s ← get_state;
  match dial t address with
  | Some k => match nt_nodes s !! k with Some _ => mret k | None => fail "connection refused" end
  | None => fail "dial error"
  end.
Definition exchange (k : string) (msg : Message) (sent received : string) : M Net Message :=
  t ← net_turn;
  if request_lost t then fail sent
  else
    answers ← (λ s, match on_node k (handleConnection [Some msg]) s with (Ok l, s') => (Ok l, s') | (_, s') => (Ok [], s') end);
    t ← net_turn;
    match answers with
    | a :: _ => if response_lost t then fail received else mret a
    | [] => fail received
    end.
Definition call (address connect sent received : string) (make : M Net Message) : M Net Message :=
  k ← wrap_err connect (net_dial address);
  msg ← make;
  exchange k msg sent received.

(** The address of a member: its own, and the port when it has one. *)
Definition node_address (node : NodeInfo) : string :=
  if bool_decide (0 < mi_ClusterPort node)%Z then mi_Address node +:+ ":" +:+ pretty (mi_ClusterPort node) else mi_Address node.

(** What the process [k] does. *)
Definition heartbeat_message : M Local Message :=
  n ← self; ts ← unix; ts' ← unix;
  mret (mkMessage MsgHeartbeat (nd_nodeID n) "" ts (Some (HeartbeatPayload (nd_nodeID n) ts' "active"))).
Definition SendHeartbeat (k address : string) : M Net unit :=
  call address ("failed to connect to " +:+ address) "failed to send heartbeat" "failed to read heartbeat response" (on_node k heartbeat_message);;
  mret ().

Definition join_message : M Local Message :=
  n ← self; ts ← unix;
  mret (mkMessage MsgJoinRequest (nd_nodeID n) "" ts (Some (JoinRequestPayload (nd_nodeID n) (nd_address n) 29015))).
Definition JoinCluster (k seedAddress : string) : M Net unit :=
  response ← call seedAddress ("failed to connect to seed " +:+ seedAddress) "failed to send join request" "failed to read join response"
    (on_node k join_message);
  match m_Payload response with
  | None => fail "invalid join response payload"
  | Some payload =>
      if bool_field payload "success" then mret () else fail ("join failed: " +:+ str_field payload "error")
  end.

(** The member that a process knows by an id. *)
Definition lookup_node (k nodeID : string) : M Net NodeInfo :=
  n ← on_node k self;
  match GetNode nodeID (nd_cluster n) with
  | Some node => mret node
  | None => fail ("node " +:+ nodeID +:+ " not found in cluster")
  end.
Definition optional (key : string) (v : option JSON) (m : object) : object := match v with Some j => <[key := j]> m | None => m end.

Definition ReplicateToNode (k targetNodeID tableID operation key : string) (value oldValue : option JSON) : M Net unit :=
  node ← lookup_node k targetNodeID;
  let address := node_address node in
  response ← call address ("failed to connect to " +:+ address) "failed to send replicate request" "failed to read replicate response"
    (on_node k (n ← self; ts ← unix; ts' ← unix;
      mret (mkMessage MsgReplicateRequest (nd_nodeID n) targetNodeID ts
        (Some (optional "value" value (optional "old_value" oldValue
          {["table_id" := JStr tableID; "operation" := JStr operation; "key" := JStr key; "timestamp" := jint ts']}))))));
  if bool_decide (m_Type response ≠ MsgReplicateResponse) then fail ("unexpected response type: " +:+ pretty (m_Type response))
  else
    match m_Payload response with
    | None => fail "invalid replicate response payload"
    | Some payload =>
        if bool_field payload "success" then mret () else fail ("replication failed: " +:+ str_field payload "error")
    end.

(** The goroutines of [ReplicateToAll], one after the other; it counts their errors. *)
Definition ReplicateToAll (k tableID operation key : string) (value oldValue : option JSON) : M Net unit :=
  members ← on_node k (on_cluster GetActiveMembers);
  n ← on_node k self;
  for_each (λ member,
    if bool_decide (mi_NodeID member = nd_nodeID n) then mret ()
    else ignore_err (ReplicateToNode k (mi_NodeID member) tableID operation key value oldValue)) members;;
  mret ().

Definition ForwardQuery (k targetNodeID : string) (queryID : Z) (query : JSON) (token : Z) : M Net JSON :=
  node ← lookup_node k targetNodeID;
  let address := node_address node in
  response ← call address ("failed to connect to " +:+ address) "failed to send forward query" "failed to read forward response"
    (on_node k (n ← self; ts ← unix; ts' ← unix;
      mret (mkMessage MsgForwardQuery (nd_nodeID n) targetNodeID ts
        (Some {["query_id" := jint queryID; "query" := query; "token" := jint token; "timestamp" := jint ts']}))));
  if bool_decide (m_Type response ≠ MsgForwardResponse) then fail ("unexpected response type: " +:+ pretty (m_Type response))
  else
    match m_Payload response with
    | None => fail "invalid forward response payload"
    | Some payload =>
        if bool_decide (str_field payload "error" ≠ "") then fail ("forward query failed: " +:+ str_field payload "error")
        else mret (default JNull (payload !! "result"))
    end.

(** ** health.go *)

Definition check_member (k : string) (member : NodeInfo) : M Net unit :=
  n ← on_node k self;
  if bool_decide (mi_NodeID member = nd_nodeID n) then mret ()
  else
    err ← catch (SendHeartbeat k (node_address member);; mret false) (λ _, mret true);
    on_node k (on_cluster (UpdateNodeStatus (mi_NodeID member) (if err : bool then "inactive" else "active"))).
(** A tick of [monitorLoop]. *)
Definition checkHealth (k : string) (timeout : Z) : M Net unit :=
  members ← on_node k (on_cluster GetMembers);
  for_each (check_member k) members;;
  on_node k (on_cluster (MarkInactiveNodes (timeout * 3))).

Record Health := mkHealth {
  he_cluster_id : string; he_total_nodes : nat; he_active_nodes : nat; he_inactive_nodes : nat;
  he_leader : string; he_term : Z; he_healthy : bool;
}.
Definition GetClusterHealth : M Managed Health :=
  members ← GetMembers;
  s ← get_state;
  let c := mg_cluster s in
  let activeCount := length (filter (λ m, mi_Status m = "active") members) in
  let inactiveCount := length (filter (λ m, mi_Status m ≠ "active") members) in
  mret (mkHealth (GetClusterID c) (length members) activeCount inactiveCount (GetLeader c) (GetTerm c)
    (bool_decide (length members `div` 2 < activeCount))).
End net.

(** ** Calls that no server answers *)

Section unanswered.
Context `{Crypto} `{RpcRuntime}.

(** A computation that leaves the processes as they are. *)
Definition same_nodes (s s' : Net) : Prop := nt_nodes s' = nt_nodes s.
#[local] Instance same_nodes_preorder : PreOrder same_nodes.
Proof. split; [by intros s|]. intros s1 s2 s3. unfold same_nodes. congruence. Qed.
(** A computation of a process that leaves it as it is, and a computation that leaves
    every process as it is while [k] runs, both with a value or an error. *)
Definition reads {A} (m : M Local A) : Prop := ∀ l, match m l with (Ok _, l') | (Err _, l') => lc_node l' = lc_node l | _ => False end.
Definition running (k : string) (s : Net) : Prop := is_Some (nt_nodes s !! k).
Definition settles {A} (k : string) (m : M Net A) : Prop := ∀ s, running k s → match m s with (Ok _, s') | (Err _, s') => same_nodes s s' | _ => False end.
Definition fails {A} (k : string) (m : M Net A) : Prop := ∀ s, running k s → ∃ e s', m s = (Err e, s') ∧ same_nodes s s'.

Lemma reads_ret {A} (x : A) : reads (mret x).
Proof. by intros l. Qed.
Lemma reads_bind {A B} (m : M Local A) (f : A → M Local B) : reads m → (∀ x, reads (f x)) → reads (m ≫= f).
Proof.
  intros Hm Hf l. unfold mbind, M_mbind, M_bind. specialize (Hm l). destruct (m l) as [[x|e| |] l1]; try done.
  specialize (Hf x l1). rewrite <- Hm. by destruct (f x l1) as [[]].
Qed.
Lemma reads_self : reads self.
Proof. by intros l. Qed.
Lemma reads_unix : reads unix.
Proof. intros [n t]. by destruct n as [? ? []]. Qed.
Lemma reads_GetActiveMembers : reads (on_cluster GetActiveMembers).
Proof. intros [n t]. by destruct n as [? ? []]. Qed.
Lemma reads_GetMembers : reads (on_cluster GetMembers).
Proof. intros [n t]. by destruct n as [? ? []]. Qed.

Lemma running_same k s s' : same_nodes s s' → running k s → running k s'.
Proof. unfold running. by intros ->. Qed.
Lemma settles_ret {A} k (x : A) : settles k (mret x).
Proof. by intros s. Qed.
Lemma settles_fail {A} k e : settles (A := A) k (fail e).
Proof. by intros s. Qed.
Lemma settles_bind {A B} k (m : M Net A) (f : A → M Net B) : settles k m → (∀ x, settles k (f x)) → settles k (m ≫= f).
Proof.
  intros Hm Hf s Hs. unfold mbind, M_mbind, M_bind. specialize (Hm s Hs). destruct (m s) as [[x|e| |] s1]; try done.
  specialize (Hf x s1 (running_same _ _ _ Hm Hs)). destruct (f x s1) as [[]]; try done; by etransitivity.
Qed.
Lemma settles_node {A} k (m : M Local A) : reads m → settles k (on_node k m).
Proof.
  intros Hm s [n Hn]. unfold on_node, same_nodes. rewrite Hn. specialize (Hm (mkLocal n (nt_turn s))).
  destruct (m (mkLocal n (nt_turn s))) as [[x|e| |] l]; cbn in *; try done; rewrite Hm; by apply insert_id.
Qed.
Lemma settles_turn k : settles k net_turn.
Proof. by intros s. Qed.
Lemma settles_state k : settles k get_state.
Proof. by intros s. Qed.
Lemma settles_for_each {A} k (f : A → M Net unit) l : (∀ x, settles k (f x)) → settles k (for_each f l).
Proof. intros Hf. induction l as [|x l IH]; [apply settles_ret|]. apply settles_bind; [apply Hf|by intros []]. Qed.
Create HintDb rpc.
Hint Resolve reads_ret reads_self reads_unix reads_GetActiveMembers reads_GetMembers : rpc.
Hint Resolve settles_ret settles_fail settles_node settles_turn settles_state : rpc.
Ltac rpc_auto := repeat (lazymatch goal with
  | |- reads (_ ≫= _) => apply reads_bind; [|intros ?]
  | |- settles _ (_ ≫= _) => apply settles_bind; [|intros ?]
  | |- settles _ (on_node _ _) => apply settles_node
  | |- settles _ (match ?x with _ => _ end) => destruct x
  | |- _ => solve [eauto with rpc] end).
Lemma settles_dial k address : settles k (net_dial address).
Proof. unfold net_dial. rpc_auto. Qed.
Lemma settles_lookup k id : settles k (lookup_node k id).
Proof. unfold lookup_node. rpc_auto. Qed.

Lemma fails_bind {A B} k (m : M Net A) (f : A → M Net B) : settles k m → (∀ x, fails k (f x)) → fails k (m ≫= f).
Proof.
  intros Hm Hf s Hs. unfold mbind, M_mbind, M_bind. specialize (Hm s Hs). destruct (m s) as [[x|e| |] s1]; try done; [|by eexists _, _].
  destruct (Hf x s1 (running_same _ _ _ Hm Hs)) as (e & s' & -> & Hs'). exists e, s'. split; [done|]. by etransitivity.
Qed.
Lemma fails_then {A B} k (m : M Net A) (f : A → M Net B) : fails k m → fails k (m ≫= f).
Proof. intros Hm s Hs. destruct (Hm s Hs) as (e & s' & Hm' & Hs'). exists e, s'. split; [by apply bind_err|done]. Qed.
Lemma fails_wrap {A} k p (m : M Net A) : fails k m → fails k (wrap_err p m).
Proof. intros Hm s Hs. destruct (Hm s Hs) as (e & s' & Hm' & Hs'). unfold wrap_err. rewrite Hm'. by eexists _, _. Qed.
Lemma settles_wrap {A} k p (m : M Net A) : settles k m → settles k (wrap_err p m).
Proof. intros Hm s Hs. specialize (Hm s Hs). unfold wrap_err. by destruct (m s) as [[]]. Qed.
Lemma settles_ignore {A} k (m : M Net A) : settles k m → settles k (ignore_err m).
Proof. intros Hm s Hs. specialize (Hm s Hs). unfold ignore_err. by destruct (m s) as [[]]. Qed.
Lemma fails_settles {A} k (m : M Net A) : fails k m → settles k m.
Proof. intros Hm s Hs. by destruct (Hm s Hs) as (e & s' & -> & Hs'). Qed.

(** A message of another type than the three: the server hangs up. *)
Definition unserved (msg : Message) : Prop :=
  m_Type msg ≠ MsgHeartbeat ∧ m_Type msg ≠ MsgJoinRequest ∧ m_Type msg ≠ MsgLeaveRequest.
Lemma exchange_unserved k k' msg sent received : unserved msg → fails k (exchange k' msg sent received).
Proof.
  intros Hmsg s _. unfold exchange, net_turn, turn, zoom, mbind, M_mbind, M_bind, get_state, put_state, mret, M_mret, fail. cbn.
  destruct (request_lost (nt_turn s)); [by eexists _, _|]. unfold on_node. cbn [nt_nodes].
  destruct (nt_nodes s !! k') as [n|] eqn:Hk; cbn; [|by eexists _, _].
  destruct Hmsg as (Hb & Hj & Hl). unfold handleMessage. rewrite !bool_decide_eq_false_2 by done. cbn.
  eexists _, _. split; [done|]. unfold same_nodes. cbn. by apply insert_id.
Qed.
(** A call whose message no server serves fails. *)
Lemma call_unserved k address c1 c2 c3 make : settles k make → (∀ s0 msg s1, make s0 = (Ok msg, s1) → unserved msg) →
  fails k (call address c1 c2 c3 make).
Proof.
  intros Hmk Hun. apply fails_bind; [apply settles_wrap, settles_dial|]. intros k'. 
  intros s Hs. unfold mbind, M_mbind, M_bind. specialize (Hmk s Hs). destruct (make s) as [[msg|e| |] s1] eqn:Hm; try done; [|by eexists _, _].
  destruct (exchange_unserved k k' msg c2 c3 (Hun _ _ _ Hm) s1 (running_same _ _ _ Hmk Hs)) as (e & s2 & -> & Hs2).
  eexists _, _. split; [done|]. by etransitivity.
Qed.

Lemma on_node_value {A} k (m : M Local A) s x s' : on_node k m s = (Ok x, s') → ∃ l l', m l = (Ok x, l').
Proof.
  unfold on_node. destruct (nt_nodes s !! k) as [n|]; [|done]. destruct (m _) as [[y|e| |] l] eqn:Hm; intros [= <- _]. eauto.
Qed.
Ltac unserved_message :=
  intros s0 msg s1 Hmk; apply on_node_value in Hmk as (l & l' & Hmk);
  apply bind_inv_ok in Hmk as (n & l1 & _ & Hmk); apply bind_inv_ok in Hmk as (ts & l2 & _ & Hmk);
  apply bind_inv_ok in Hmk as (ts' & l3 & _ & Hmk); injection Hmk as <- _; done.

Lemma ReplicateToNode_fails k target t op key v old : fails k (ReplicateToNode k target t op key v old).
Proof.
  apply fails_bind; [apply settles_lookup|]. intros node. apply fails_then, call_unserved; [|unserved_message]. rpc_auto.
Qed.
Lemma ForwardQuery_fails k target id q tok : fails k (ForwardQuery k target id q tok).
Proof.
  apply fails_bind; [apply settles_lookup|]. intros node. apply fails_then, call_unserved; [|unserved_message]. rpc_auto.
Qed.
Lemma ignore_Err {S A} (m : M S A) s e s' : m s = (Err e, s') → ignore_err m s = (Ok (), s').
Proof. unfold ignore_err. by intros ->. Qed.
Definition succeeds (k : string) (m : M Net unit) : Prop := ∀ s, running k s → ∃ s', m s = (Ok (), s') ∧ same_nodes s s'.
Lemma succeeds_for_each {A} k (f : A → M Net unit) l : (∀ x, succeeds k (f x)) → succeeds k (for_each f l).
Proof.
  intros Hf. induction l as [|x l IH]; intros s Hs; [by exists s|]. destruct (Hf x s Hs) as (s1 & H1 & Hs1). cbn [for_each].
  rewrite (bind_ok _ _ _ _ _ H1). destruct (IH s1 (running_same _ _ _ Hs1 Hs)) as (s2 & H2 & Hs2). exists s2. split; [done|]. by etransitivity.
Qed.
Lemma ReplicateToAll_succeeds k t op key v old : succeeds k (ReplicateToAll k t op key v old).
Proof.
  intros s [n Hn]. assert (∃ l s1, on_node k (on_cluster GetActiveMembers) s = (Ok l, s1) ∧ same_nodes s s1) as (l & s1 & H1 & Hs1).
  { pose proof (settles_node k _ reads_GetActiveMembers s (mk_is_Some _ _ Hn)) as Hs. unfold on_node in *. rewrite Hn in *.
    destruct n as [? ? [] ?]. cbn in Hs |- *. by eexists _, _. }
  assert (nt_nodes s1 !! k = Some n) as Hn1 by (by rewrite Hs1). unfold ReplicateToAll. rewrite (bind_ok _ _ _ _ _ H1).
  assert (on_node k self s1 = (Ok n, mkNet (<[k := n]> (nt_nodes s1)) (nt_turn s1))) as H2 by (unfold on_node; by rewrite Hn1).
  rewrite (bind_ok _ _ _ _ _ H2), (insert_id _ _ _ Hn1).
  destruct (succeeds_for_each k (λ member, if bool_decide (mi_NodeID member = nd_nodeID n) then mret ()
    else ignore_err (ReplicateToNode k (mi_NodeID member) t op key v old)) l) with (s := mkNet (nt_nodes s1) (nt_turn s1)) as (s2 & H3 & Hs2).
  - intros member. case_bool_decide; [by intros s0 _; exists s0|]. intros s0 Hs0.
    destruct (ReplicateToNode_fails k (mi_NodeID member) t op key v old s0 Hs0) as (e & s' & He & Hs'). exists s'. by rewrite (ignore_Err _ _ _ _ He).
  - by exists n.
  - rewrite (bind_ok _ _ _ _ _ H3). exists s2. split; [done|]. etransitivity; [exact Hs1|exact Hs2].
Qed.
End unanswered.

(** ** What every step keeps

    The members of a node are stored under their ids, and are active or inactive. *)
Definition members_ok (ms : gmap string NodeInfo) : Prop :=
  ∀ id m, ms !! id = Some m → mi_NodeID m = id ∧ (mi_Status m = "active" ∨ mi_Status m = "inactive").
Definition managed_ok (s : Managed) : Prop := members_ok (cm_members (mg_cluster s)).
Definition local_ok (l : Local) : Prop := members_ok (cm_members (nd_cluster (lc_node l))).
Definition net_ok (s : Net) : Prop := ∀ k n, nt_nodes s !! k = Some n → members_ok (cm_members (nd_cluster n)).
#[local] Hint Extern 0 (PreOrder _) => apply _ : respects.
Lemma members_ok_insert ms id m : members_ok ms → mi_NodeID m = id → mi_Status m = "active" ∨ mi_Status m = "inactive" → members_ok (<[id := m]> ms).
Proof. intros Hms Hid Hst id' m' [[<- <-]|[_ Hm']]%lookup_insert_Some; [done|by apply Hms]. Qed.

Section keeps.
Context `{Crypto} `{RpcRuntime}.

Lemma mg_next_ok : respects (keeping managed_ok) mg_next.
Proof. by intros s Hs. Qed.
Lemma mg_now_ok : respects (keeping managed_ok) mg_now.
Proof. by intros s Hs. Qed.
Hint Resolve mg_next_ok mg_now_ok : respects.
Lemma GetMembers_ok : respects (keeping managed_ok) GetMembers.
Proof. unfold GetMembers. respects_auto. Qed.
Lemma AddNode_ok id address port : respects (keeping managed_ok) (AddNode id address port).
Proof. unfold AddNode. respects_auto. intros Hs. apply members_ok_insert; [done|done|by left]. Qed.
Lemma RemoveNode_ok id : respects (keeping managed_ok) (RemoveNode id).
Proof. unfold RemoveNode. respects_auto. intros Hs id' m Hm. cbn in Hm. apply lookup_delete_Some in Hm as [_ Hm]. by apply Hs. Qed.
Lemma UpdateNodeStatus_ok id status : status = "active" ∨ status = "inactive" → respects (keeping managed_ok) (UpdateNodeStatus id status).
Proof.
  intros Hst s Hs. unfold UpdateNodeStatus. rewrite (bind_ok get_state _ _ _ _ eq_refl).
  destruct (cm_members (mg_cluster s) !! id) as [node|] eqn:Hn; [|done]. apply members_ok_insert; [done| |done]. by apply Hs in Hn as [? _].
Qed.
Lemma Mark_ok timeout : respects (keeping managed_ok) (MarkInactiveNodes timeout).
Proof.
  unfold MarkInactiveNodes. respects_auto. intros Hs id m. cbn. rewrite lookup_fmap. intros (m0 & Hm0 & ->)%fmap_Some. apply Hs in Hm0.
  unfold mark_inactive. destruct (_ && _); [|done]. split; [by destruct Hm0|by right].
Qed.
Lemma on_cluster_ok {A} (m : M Managed A) : respects (keeping managed_ok) m → respects (keeping local_ok) (on_cluster m).
Proof.
  intros Hm [n t] Hs. unfold on_cluster, zoom. cbn. specialize (Hm (mkManaged (nd_cluster n) t)). destruct (m _) as [r c]. by apply Hm.
Qed.
Hint Resolve GetMembers_ok AddNode_ok RemoveNode_ok Mark_ok on_cluster_ok : respects.
Lemma unix_ok : respects (keeping local_ok) unix.
Proof. unfold unix. respects_auto. Qed.
Lemma self_ok : respects (keeping local_ok) self.
Proof. unfold self. respects_auto. Qed.
Hint Resolve unix_ok self_ok : respects.
Lemma reply_ok t msg payload : respects (keeping local_ok) payload → respects (keeping local_ok) (reply t msg payload).
Proof. intros Hp. unfold reply. respects_auto. Qed.
Lemma handleMessage_ok msg : respects (keeping local_ok) (handleMessage msg).
Proof.
  unfold handleMessage, handleHeartbeat, handleJoinRequest, handleLeaveRequest, with_payload. cbv zeta.
  destruct (bool_decide (m_Type msg = MsgHeartbeat)); [|destruct (bool_decide (m_Type msg = MsgJoinRequest));
    [|destruct (bool_decide (m_Type msg = MsgLeaveRequest)); [|respects_auto]]]; (destruct (m_Payload msg) as [p|]; [|respects_auto]).
  - respects_step; [apply on_cluster_ok, UpdateNodeStatus_ok; by left|]. apply reply_ok. respects_auto.
  - destruct (p !! "cluster_port") as [[]|]; try respects_auto; apply reply_ok; respects_auto.
  - respects_auto.
Qed.
Hint Resolve handleMessage_ok : respects.
Lemma handleConnection_ok msgs : respects (keeping local_ok) (handleConnection msgs).
Proof. induction msgs as [|[msg|] msgs IH]; cbn [handleConnection]; respects_auto. Qed.
Lemma on_node_ok {A} k (m : M Local A) : respects (keeping local_ok) m → respects (keeping net_ok) (on_node k m).
Proof.
  intros Hm s Hs. unfold on_node. destruct (nt_nodes s !! k) as [n|] eqn:Hn; [|done]. specialize (Hm (mkLocal n (nt_turn s)) (Hs _ _ Hn)).
  assert (∀ l, local_ok l → net_ok (mkNet (<[k := lc_node l]> (nt_nodes s)) (lc_turn l))) as Hput.
  { intros l Hl k' n' Hn'. cbn in Hn'. apply lookup_insert_Some in Hn' as [[<- <-]|[_ Hn']]; [done|by eapply Hs]. }
  destruct (m _) as [[x|e| |] l]; cbn in *; [by apply Hput..| |by apply Hput].
  intros k' n' Hn'. cbn in Hn'. apply lookup_delete_Some in Hn' as [_ Hn']. by eapply Hs.
Qed.
Lemma net_turn_ok : respects (keeping net_ok) net_turn.
Proof. by intros s Hs. Qed.
Hint Resolve on_node_ok net_turn_ok handleConnection_ok : respects.
Lemma net_dial_ok address : respects (keeping net_ok) (net_dial address).
Proof. unfold net_dial. respects_auto. Qed.
Lemma exchange_ok k msg e1 e2 : respects (keeping net_ok) (exchange k msg e1 e2).
Proof.
  unfold exchange. respects_step; [respects_auto|]. destruct (request_lost _); [respects_auto|]. respects_step.
  - intros s Hs. pose proof (on_node_ok k _ (handleConnection_ok [Some msg]) s Hs) as Ho. by destruct (on_node k _ s) as [[]].
  - respects_auto.
Qed.
Hint Resolve net_dial_ok exchange_ok : respects.
Lemma call_ok address c1 c2 c3 make : respects (keeping net_ok) make → respects (keeping net_ok) (call address c1 c2 c3 make).
Proof. intros Hm. unfold call. respects_auto. Qed.
Lemma SendHeartbeat_ok k address : respects (keeping net_ok) (SendHeartbeat k address).
Proof. unfold SendHeartbeat. respects_step; [|respects_auto]. apply call_ok, on_node_ok. unfold heartbeat_message. respects_auto. Qed.
Lemma JoinCluster_ok k address : respects (keeping net_ok) (JoinCluster k address).
Proof. unfold JoinCluster. respects_step; [|respects_auto]. apply call_ok, on_node_ok. unfold join_message. respects_auto. Qed.
Hint Resolve SendHeartbeat_ok : respects.
Lemma check_member_ok k member : respects (keeping net_ok) (check_member k member).
Proof.
  unfold check_member. respects_step; [by apply on_node_ok, self_ok|]. respects_step; [respects_auto|]. respects_step; [respects_auto|].
  apply on_node_ok, on_cluster_ok, UpdateNodeStatus_ok. destruct x0; auto.
Qed.
Hint Resolve check_member_ok : respects.
Lemma checkHealth_ok k timeout : respects (keeping net_ok) (checkHealth k timeout).
Proof. unfold checkHealth. respects_auto. Qed.
End keeps.

(** ** Addresses

    [net.SplitHostPort] without an error. *)
Fixpoint str_LastIndex (c : ascii) (s : string) : option nat :=
  match s with
  | "" => None
  | String d s' => match str_LastIndex c s' with Some i => Some (S i) | None => if bool_decide (d = c) then Some 0 else None end
  end.
Fixpoint str_IndexByte (c : ascii) (s : string) : option nat :=
  match s with
  | "" => None
  | String d s' => if bool_decide (d = c) then Some 0 else S <$> str_IndexByte c s'
  end.
Definition SplitHostPort_ok (hostport : string) : bool :=
  match str_LastIndex ":"%char hostport with
  | None => false
  | Some i =>
      match hostport with
      | String "["%char _ =>
          match str_IndexByte "]"%char hostport with
          | None => false
          | Some e => bool_decide (S e = i) && free_of "["%char (str_drop 1 hostport) && free_of "]"%char (str_drop (S e) hostport)
          end
      | _ => free_of ":"%char (str_take i hostport) && free_of "["%char hostport && free_of "]"%char hostport
      end
  end.
(** Documented behaviour: an address that is no host and port is not dialled; a range
    statement visits every entry once. *)
Class RpcLaws `{RpcRuntime} := {
  rpc_dial t address k : dial t address = Some k → SplitHostPort_ok address = true;
  rpc_range n m : range_nodes n m ≡ₚ map_to_list m;
}.

Lemma str_LastIndex_app c a b : free_of c b = true → str_LastIndex c (a +:+ String c b) = Some (String.length a).
Proof.
  intros Hb. assert (str_LastIndex c b = None) as Hn.
  { induction b as [|d b IH]; [done|]. cbn in Hb. apply andb_true_iff in Hb as [Hd Hb]. cbn. rewrite IH by done.
    apply negb_true_iff, bool_decide_eq_false in Hd. by rewrite bool_decide_eq_false_2. }
  induction a as [|d a IH]; [rewrite sapp_nil|rewrite sapp_cons]; cbn [str_LastIndex]; [by rewrite Hn, bool_decide_eq_true_2|by rewrite IH].
Qed.
Lemma str_LastIndex_lt c a i : str_LastIndex c a = Some i → i < String.length a ∧ free_of c a = false.
Proof.
  revert i. induction a as [|d a IH]; intros i; [done|]. cbn. destruct (str_LastIndex c a) as [j|].
  - intros [= <-]. destruct (IH j eq_refl) as [? ->]. rewrite andb_false_r. split; [lia|done].
  - case_bool_decide; [|done]. intros [= <-]. split; [lia|done].
Qed.
Lemma str_IndexByte_app c a b e : str_IndexByte c a = Some e → str_IndexByte c (a +:+ b) = Some e.
Proof.
  revert e. induction a as [|d a IH]; intros e; [done|]. rewrite sapp_cons. cbn. case_bool_decide; [done|].
  destruct (str_IndexByte c a) as [j|]; [|done]. intros [= <-]. by rewrite (IH j).
Qed.
(** A host and port with another port is no host and port. *)
Lemma two_ports address port : SplitHostPort_ok address = true → free_of ":"%char port = true →
  SplitHostPort_ok (address +:+ ":" +:+ port) = false.
Proof.
  intros Ha Hp. unfold SplitHostPort_ok in *. change (address +:+ ":" +:+ port) with (address +:+ String ":" port).
  rewrite str_LastIndex_app by done. destruct (str_LastIndex ":" address) as [i|] eqn:Hi; [|done].
  apply str_LastIndex_lt in Hi as [Hlt Hfree]. assert (free_of ":" (str_take (String.length address) (address +:+ String ":" port)) = false) as Htake
    by (by rewrite str_take_app).
  destruct address as [|d address']; [done|]. rewrite sapp_cons in *.
  destruct (decide (d = "["%char)) as [->|Hd].
  - cbv iota beta in *. destruct (str_IndexByte "]" (String "[" address')) as [e|] eqn:He; [|done].
    rewrite <- sapp_cons, (str_IndexByte_app _ _ _ _ He). apply andb_true_iff in Ha as [Ha _]. apply andb_true_iff in Ha as [Ha _].
    apply bool_decide_eq_true in Ha. rewrite bool_decide_eq_false_2 by lia. done.
  - rewrite Htake. destruct d as [[] [] [] [] [] [] [] []]; done.
Qed.

(** ** A member that cannot be called *)

(** The member [id] as the process [c] knows it. *)
Definition member_of (c id : string) (s : Net) : option NodeInfo := n ← nt_nodes s !! c; cm_members (nd_cluster n) !! id.
Definition cluster_member (id : string) (l : Local) : option NodeInfo := cm_members (nd_cluster (lc_node l)) !! id.

Section unreachable.
Context `{Crypto} `{RpcLaws} (c id nid : string) (Hid : nid ≠ id).

(** The process [c], named [nid], keeps what it knows of [id]. *)
Definition named (s : Net) : Prop := ∃ n, nt_nodes s !! c = Some n ∧ nd_nodeID n = nid.
Definition view (s s' : Net) : Prop := named s → named s' ∧ member_of c id s' = member_of c id s.
#[local] Instance view_preorder : PreOrder view.
Proof.
  split; [intros s Hs; done|]. intros s1 s2 s3 H12 H23 Hs1. destruct (H12 Hs1) as [Hs2 He2]. destruct (H23 Hs2) as [Hs3 He3].
  split; [done|congruence].
Qed.
Definition local_view (l l' : Local) : Prop :=
  nd_nodeID (lc_node l') = nd_nodeID (lc_node l) ∧ cluster_member id l' = cluster_member id l.
#[local] Instance local_view_preorder : PreOrder local_view.
Proof. split; [done|]. intros l1 l2 l3 [? ?] [? ?]. split; congruence. Qed.
#[local] Hint Extern 0 (PreOrder _) => apply _ : respects.

(** A section of [c] that does not panic, or of another process. *)
Lemma on_node_view {A} k (m : M Local A) : respects local_view m → (∀ l, (m l).1 ≠ Panic) ∨ k ≠ c → respects view (on_node k m).
Proof.
  intros Hm Hp s (n & Hn & Hnid). unfold on_node. destruct (nt_nodes s !! k) as [n0|] eqn:Hk; [|split; [by exists n|done]].
  specialize (Hm (mkLocal n0 (nt_turn s))). destruct (decide (k = c)) as [->|Hne].
  - destruct Hp as [Hp|]; [|done]. specialize (Hp (mkLocal n0 (nt_turn s))). rewrite Hn in Hk. injection Hk as <-.
    assert (∀ l, local_view (mkLocal n (nt_turn s)) l →
      let s' := mkNet (<[c := lc_node l]> (nt_nodes s)) (lc_turn l) in named s' ∧ member_of c id s' = member_of c id s) as Hput.
    { intros l [Hl1 Hl2]. split; [exists (lc_node l); cbn; rewrite lookup_insert_eq; split; [done|by rewrite Hl1]|].
      unfold member_of. cbn. by rewrite lookup_insert_eq, Hn. }
    destruct (m _) as [[x|e| |] l]; cbn in *; [by apply Hput..|done|by apply Hput].
  - assert (∀ ns t, ns !! c = nt_nodes s !! c → named (mkNet ns t) ∧ member_of c id (mkNet ns t) = member_of c id s) as Hput.
    { intros ns t Hns. unfold named, member_of. cbn. rewrite Hns. split; [by exists n|done]. }
    destruct (m _) as [[x|e| |] l]; apply Hput; by rewrite ?lookup_insert_ne, ?lookup_delete_ne.
Qed.
Lemma reads_no_panic {A} (m : M Local A) : reads m → ∀ l, (m l).1 ≠ Panic.
Proof. intros Hm l. specialize (Hm l). by destruct (m l) as [[]]. Qed.
Lemma reads_view {A} (m : M Local A) : reads m → respects local_view m.
Proof. intros Hm l. specialize (Hm l). destruct (m l) as [[] l']; cbn in *; try done; unfold local_view, cluster_member; by rewrite Hm. Qed.

(** Another member changes. *)
Lemma update_view x status : x ≠ id → respects local_view (on_cluster (UpdateNodeStatus x status)) ∧
  ∀ l, (on_cluster (UpdateNodeStatus x status) l).1 ≠ Panic.
Proof.
  intros Hx. assert (∀ l, let '(r, l') := on_cluster (UpdateNodeStatus x status) l in r ≠ Panic ∧ local_view l l') as Hr.
  { intros [[nd ad [cn cc ms cl ct] rp] t]. unfold on_cluster, zoom, UpdateNodeStatus. cbn.
    rewrite (bind_ok get_state _ _ _ _ eq_refl). cbn. destruct (ms !! x); [|split; [done|by split]]. cbn. split; [done|]. split; [done|].
    unfold cluster_member. cbn. by rewrite lookup_insert_ne. }
  split; intros l; specialize (Hr l); destruct (on_cluster _ l); naive_solver.
Qed.

Lemma heartbeat_connection msg p : m_Type msg = MsgHeartbeat → m_Payload msg = Some p → str_field p "node_id" ≠ id →
  respects local_view (handleConnection [Some msg]) ∧ ∀ l, (handleConnection [Some msg] l).1 ≠ Panic.
Proof.
  intros Ht Hp Hne. assert (∀ l, ∃ a l1 l2, on_cluster (UpdateNodeStatus (str_field p "node_id") "active") l = (Ok (), l1) ∧
    lc_node l2 = lc_node l1 ∧ handleConnection [Some msg] l = (Ok [a], l2)) as Hrun.
  { intros [[nd ad [cn cc ms cl ct] rp] t]. cbn [handleConnection]. unfold handleMessage. rewrite Ht, bool_decide_eq_true_2 by done.
    unfold handleHeartbeat, with_payload. rewrite Hp. unfold on_cluster, zoom, UpdateNodeStatus, reply, unix, self, catch.
    unfold mbind, M_mbind, M_bind, get_state. cbn. destruct (ms !! str_field p "node_id"); cbn; (eexists _, _, _; split; [reflexivity|]; split; [|reflexivity]; reflexivity). }
  split; intros l; destruct (Hrun l) as (a & l1 & l2 & Hup & Hl & ->); [|done]. destruct (update_view (str_field p "node_id") "active" Hne) as [Hv _].
  specialize (Hv l). rewrite Hup in Hv. cbn in *. destruct Hv as [Hv1 Hv2]. unfold local_view, cluster_member in *. by rewrite Hl.
Qed.

Lemma same_nodes_view s s' : same_nodes s s' → view s s'.
Proof. intros He (n & Hn & Hnid). unfold same_nodes in He. unfold named, member_of. rewrite He. split; [by exists n|done]. Qed.
Lemma settles_view {A} (m : M Net A) : settles c m → respects view m.
Proof.
  intros Hm s Hs. assert (running c s) as Hrun by (destruct Hs as (n & ? & _); by exists n). specialize (Hm s Hrun).
  destruct (m s) as [[]]; cbn in *; by apply same_nodes_view.
Qed.
Lemma reads_heartbeat : reads heartbeat_message.
Proof. repeat (apply reads_bind; [apply reads_self || apply reads_unix|intros ?]). apply reads_ret. Qed.
Lemma heartbeat_message_run l : ∃ l' msg ts, heartbeat_message l = (Ok msg, l') ∧ m_Type msg = MsgHeartbeat ∧
  m_Payload msg = Some (HeartbeatPayload (nd_nodeID (lc_node l)) ts "active").
Proof. destruct l as [[nd ad [cn cc ms cl ct] rp] t]. by eexists _, _, _. Qed.
Lemma respects_bind_eq {S A B} (R : relation S) `{!PreOrder R} (m : M S A) (f : A → M S B) : respects R m →
  (∀ s x s1, m s = (Ok x, s1) → R s1 (f x s1).2) → respects R (m ≫= f).
Proof.
  intros Hm Hf s. unfold mbind, M_mbind, M_bind. specialize (Hm s). destruct (m s) as [[x|e| |] s1] eqn:Hs; try done.
  etransitivity; [exact Hm|by eapply Hf].
Qed.
Lemma exchange_view k msg p e1 e2 : m_Type msg = MsgHeartbeat → m_Payload msg = Some p → str_field p "node_id" ≠ id →
  respects view (exchange k msg e1 e2).
Proof.
  intros Ht Hp Hne. destruct (heartbeat_connection msg p Ht Hp Hne) as [Hv Hnp]. unfold exchange.
  assert (respects view net_turn) as Hturn by (intros s; by apply same_nodes_view).
  respects_step; [done|]. destruct (request_lost _); [respects_auto|]. respects_step; [|respects_step; [done|respects_auto]].
  intros s. pose proof (on_node_view k _ Hv (or_introl Hnp) s) as Ho. by destruct (on_node k _ s) as [[]].
Qed.
Lemma SendHeartbeat_view address : respects view (SendHeartbeat c address).
Proof.
  unfold SendHeartbeat, call. respects_step; [|respects_auto]. respects_step; [apply settles_view, settles_wrap, settles_dial|].
  apply respects_bind_eq; [apply _|by apply on_node_view; [apply reads_view, reads_heartbeat|left; apply reads_no_panic, reads_heartbeat]|].
  intros s msg s1 Hmk (n & Hn & Hnid). unfold on_node in Hmk. destruct (nt_nodes s !! c) as [n0|] eqn:Hn0; [|done].
  destruct (heartbeat_message_run (mkLocal n0 (nt_turn s))) as (l & msg' & ts & Hl & Ht & Hp). pose proof (reads_heartbeat (mkLocal n0 (nt_turn s))) as Hr.
  rewrite Hl in Hmk, Hr. cbn in Hr. injection Hmk as <- <-. cbn in Hn. rewrite lookup_insert_eq in Hn. injection Hn as <-.
  eapply exchange_view; [done|exact Hp| |by exists (lc_node l); cbn; rewrite lookup_insert_eq].
  cbn [lc_node]. unfold str_field, HeartbeatPayload. rewrite lookup_insert_eq. rewrite <- Hr. by rewrite Hnid.
Qed.
(** The member [id] cannot be dialled. *)
Lemma SendHeartbeat_fails address : SplitHostPort_ok address = false → fails c (SendHeartbeat c address).
Proof.
  intros Ha. apply fails_then, fails_then, fails_wrap. intros s Hs. unfold net_dial, net_turn, turn, zoom, mbind, M_mbind, M_bind, get_state, put_state. cbn.
  destruct (dial (nt_turn s) address) as [k|] eqn:Hd; [apply rpc_dial in Hd; congruence|]. by eexists _, _.
Qed.

Definition known (s : Net) : Prop := named s ∧ is_Some (member_of c id s).
Definition inactive (s : Net) : Prop := named s ∧ ∃ m, member_of c id s = Some m ∧ mi_Status m = "inactive".
Lemma view_known s s' : view s s' → known s → known s'.
Proof. intros Hv [Hs Hm]. destruct (Hv Hs) as [Hs' He]. split; [done|by rewrite He]. Qed.
Lemma view_inactive s s' : view s s' → inactive s → inactive s'.
Proof. intros Hv [Hs Hm]. destruct (Hv Hs) as [Hs' He]. split; [done|by rewrite He]. Qed.
Lemma inactive_known s : inactive s → known s.
Proof. intros (Hs & m & Hm & _). split; [done|by exists m]. Qed.

Lemma check_other member : mi_NodeID member ≠ id → respects view (check_member c member).
Proof.
  intros Hne. unfold check_member. respects_step; [apply settles_view, settles_node, reads_self|].
  match goal with |- respects _ (if ?b then _ else _) => destruct b end; [respects_auto|].
  respects_step; [respects_step; [respects_step; [apply SendHeartbeat_view|respects_auto]|respects_auto]|].
  match goal with |- respects _ (on_node _ (on_cluster (UpdateNodeStatus ?x ?st))) => destruct (update_view x st Hne) as [Hv Hp] end.
  apply on_node_view; [done|by left].
Qed.
Lemma update_inactive s : known s → ∃ s', on_node c (on_cluster (UpdateNodeStatus id "inactive")) s = (Ok (), s') ∧ inactive s'.
Proof.
  intros [(n & Hn & Hnid) [m Hm]]. unfold member_of in Hm. rewrite Hn in Hm. cbn in Hm. unfold on_node. rewrite Hn.
  destruct n as [nd ad [cn cc ms cl ct] rp]. cbn in Hnid, Hm. unfold on_cluster, zoom, UpdateNodeStatus, mbind, M_mbind, M_bind, get_state. cbn.
  rewrite Hm. cbn. eexists. split; [reflexivity|]. split; [eexists; cbn; rewrite lookup_insert_eq; by split|].
  unfold member_of. cbn. rewrite lookup_insert_eq. cbn. rewrite lookup_insert_eq. by eexists.
Qed.
Lemma check_self member s : mi_NodeID member = id → SplitHostPort_ok (node_address member) = false → known s →
  ∃ s', check_member c member s = (Ok (), s') ∧ inactive s'.
Proof.
  intros Hm Ha Hs. pose proof Hs as [(n & Hn & Hnid) _]. unfold check_member.
  assert (on_node c self s = (Ok n, mkNet (<[c := n]> (nt_nodes s)) (nt_turn s))) as Hself by (unfold on_node; by rewrite Hn).
  rewrite (bind_ok _ _ _ _ _ Hself), insert_id by done. rewrite bool_decide_eq_false_2 by congruence.
  destruct (SendHeartbeat_fails _ Ha (mkNet (nt_nodes s) (nt_turn s))) as (e & s1 & He & Hs1); [by exists n|].
  rewrite (bind_ok (catch _ _) _ _ true s1) by (unfold catch; by rewrite (bind_err _ _ _ _ _ He)). rewrite Hm.
  apply update_inactive. eapply view_known; [|exact Hs]. by apply same_nodes_view.
Qed.
Lemma check_all l : ∀ s s', known s → for_each (check_member c) l s = (Ok (), s') →
  Forall (λ m, mi_NodeID m = id → SplitHostPort_ok (node_address m) = false) l →
  known s' ∧ (inactive s ∨ (∃ m, m ∈ l ∧ mi_NodeID m = id) → inactive s').
Proof.
  induction l as [|x l IH]; intros s s' Hs Hrun Hl.
  - injection Hrun as <-. split; [done|]. intros [?|(m & Hm & _)]; [done|by apply not_elem_of_nil in Hm].
  - apply Forall_cons in Hl as [Hx Hl]. apply bind_inv_ok in Hrun as ([] & s1 & Hx1 & Hrun). destruct (decide (mi_NodeID x = id)) as [He|Hne].
    + destruct (check_self x s He (Hx He) Hs) as (s1' & Hx1' & Hin). rewrite Hx1' in Hx1. injection Hx1 as <-.
      destruct (IH _ _ (inactive_known _ Hin) Hrun Hl) as [Hk Hi]. split; [done|]. intros _. apply Hi. by left.
    + pose proof (check_other x Hne s) as Hv. rewrite Hx1 in Hv. cbn in Hv. destruct (IH _ _ (view_known _ _ Hv Hs) Hrun Hl) as [Hk Hi].
      split; [done|]. intros [Hin|(m & [->|Hm]%elem_of_cons & He)]; [apply Hi; left; by eapply view_inactive|done|apply Hi; right; eauto].
Qed.
Lemma mark_keeps_inactive timeout s s' : inactive s → on_node c (on_cluster (MarkInactiveNodes timeout)) s = (Ok (), s') → inactive s'.
Proof.
  intros ((n & Hn & Hnid) & m & Hm & Hst). unfold member_of in Hm. rewrite Hn in Hm. cbn in Hm. unfold on_node. rewrite Hn.
  destruct n as [nd ad [cn cc ms cl ct] rp]. cbn. intros [= <-]. cbn in Hm. split; [eexists; cbn; rewrite lookup_insert_eq; by split|].
  unfold member_of. cbn. rewrite lookup_insert_eq. cbn. rewrite lookup_fmap, Hm. cbn. eexists. split; [reflexivity|].
  unfold mark_inactive. by destruct (_ && _).
Qed.
(** A health check of [c] when no member with the id can be dialled. *)
Lemma health_inactive timeout s s' m : net_ok s → named s → member_of c id s = Some m → SplitHostPort_ok (node_address m) = false →
  checkHealth c timeout s = (Ok (), s') → inactive s'.
Proof.
  intros Hok Hs Hm Ha Hrun. unfold checkHealth in Hrun. apply bind_inv_ok in Hrun as (l & s1 & Hl & Hrun).
  apply bind_inv_ok in Hrun as ([] & s2 & Hloop & Hmark). pose proof Hs as (n & Hn & Hnid). unfold member_of in Hm. rewrite Hn in Hm. cbn in Hm.
  assert (s1 = mkNet (nt_nodes s) (nt_turn s1) ∧ l ≡ₚ (map_to_list (cm_members (nd_cluster n))).*2) as [Hs1 Hperm].
  { unfold on_node in Hl. rewrite Hn in Hl. destruct n as [nd ad [cn cc ms cl ct] rp]. cbn in Hl. injection Hl as <- <-. cbn.
    rewrite insert_id by done. split; [done|]. apply fmap_Permutation, rpc_range. }
  assert (∀ x, x ∈ l ↔ ∃ i, cm_members (nd_cluster n) !! i = Some x) as Hin.
  { intros x. rewrite Hperm, list_elem_of_fmap. split; [intros ([i y] & -> & Hi%elem_of_map_to_list); by exists i|].
    intros [i Hi]. exists (i, x). split; [done|by apply elem_of_map_to_list]. }
  assert (same_nodes s s1) as Hsame by (by rewrite Hs1). apply same_nodes_view in Hsame.
  assert (known s) as Hk by (split; [done|]; exists m; unfold member_of; by rewrite Hn).
  destruct (check_all l s1 s2 (view_known _ _ Hsame Hk) Hloop) as [_ Hi].
  - apply Forall_forall. intros x [i Hx]%Hin He. pose proof (Hok _ _ Hn _ _ Hx) as [Hi _]. rewrite He in Hi. subst i. congruence.
  - eapply mark_keeps_inactive; [|exact Hmark]. apply Hi. right. exists m. split; [apply Hin; by exists id|]. by apply (Hok _ _ Hn id m).
Qed.
End unreachable.

Section join.
Context `{Crypto} `{RpcRuntime}.

(** What the server does with a join request that it grants. *)
Lemma join_connection msg p l l' a : m_Type msg = MsgJoinRequest → m_Payload msg = Some p → p !! "cluster_port" = Some (jint 29015) →
  handleConnection [Some msg] l = (Ok [a], l') → (∀ q, m_Payload a = Some q → bool_field q "success" = true) →
  let id := str_field p "node_id" in
  nd_nodeID (lc_node l') = nd_nodeID (lc_node l) ∧ cluster_member id l = None ∧
  ∃ m, cluster_member id l' = Some m ∧ mi_NodeID m = id ∧ mi_Address m = str_field p "address" ∧ mi_ClusterPort m = 29015%Z ∧ mi_Status m = "active".
Proof.
  destruct l as [[nd ad [cn cc ms cl ct] rp] t]. intros Ht Hp Hport Hrun Hsucc id. cbn [handleConnection] in Hrun. unfold handleMessage in Hrun.
  rewrite Ht, bool_decide_eq_false_2, bool_decide_eq_true_2 in Hrun by done.
  unfold handleJoinRequest, with_payload in Hrun. rewrite Hp, Hport in Hrun. fold id in Hrun.
  unfold jint, reply, unix, self, on_cluster, zoom, catch, AddNode, mbind, M_mbind, M_bind, get_state in Hrun. cbn in Hrun.
  unfold cluster_member. cbn [lc_node nd_cluster cm_members]. destruct (ms !! id) as [m0|] eqn:Hm0.
  - cbn in Hrun. injection Hrun as <- <-. specialize (Hsucc _ eq_refl). unfold bool_field, JoinResponsePayload, opt in Hsucc. cbn in Hsucc.
    by simplify_map_eq.
  - cbn in Hrun. injection Hrun as _ <-. split; [done|]. split; [done|]. eexists. cbn. rewrite lookup_insert_eq. split; [reflexivity|].
    split; [done|]. split; [done|]. split; [|done]. vm_compute. reflexivity.
Qed.
Lemma join_message_run l : ∃ l' msg, join_message l = (Ok msg, l') ∧ lc_node l' = lc_node l ∧ m_Type msg = MsgJoinRequest ∧
  m_Payload msg = Some (JoinRequestPayload (nd_nodeID (lc_node l)) (nd_address (lc_node l)) 29015).
Proof. destruct l as [[nd ad [cn cc ms cl ct] rp] t]. eexists _, _. split; [reflexivity|done]. Qed.
Lemma wrap_err_Ok {S A} e (m : M S A) s x s' : wrap_err e m s = (Ok x, s') → m s = (Ok x, s').
Proof. unfold wrap_err. by destruct (m s) as [[]]. Qed.
Lemma net_dial_inv address s c s' : net_dial address s = (Ok c, s') → nt_nodes s' = nt_nodes s ∧ running c s.
Proof.
  unfold net_dial, net_turn, turn, zoom, mbind, M_mbind, M_bind, get_state, put_state. cbn. destruct (dial _ address) as [k|]; [|done].
  destruct (nt_nodes s !! k) eqn:Hk; [|done]. intros [= <- <-]. cbn. split; [done|]. by eexists.
Qed.
Lemma exchange_inv c msg e1 e2 s a s' n : nt_nodes s !! c = Some n → exchange c msg e1 e2 s = (Ok a, s') →
  ∃ l l' t, handleConnection [Some msg] l = (Ok (a :: t), l') ∧ lc_node l = n ∧ nt_nodes s' = <[c := lc_node l']> (nt_nodes s).
Proof.
  intros Hn. unfold exchange, net_turn, turn, zoom, get_state, put_state, mbind, M_mbind, M_bind. cbn -[handleConnection].
  destruct (request_lost _); [done|]. unfold on_node. cbn -[handleConnection]. rewrite Hn.
  destruct (handleConnection _ _) as [[[|b t]|e| |] l'] eqn:Hl; cbn; try done. destruct (response_lost _); [done|].
  intros [= <- <-]. cbn. by eexists _, _, _.
Qed.
Lemma handleConnection_one msg l as_ l' : handleConnection [Some msg] l = (Ok as_, l') → length as_ ≤ 1.
Proof.
  cbn [handleConnection]. intros Hrun. apply bind_inv_ok in Hrun as ([a|] & l1 & _ & Hrun).
  - apply bind_inv_ok in Hrun as (t & l2 & Ht & Hrun). injection Ht as <- _. injection Hrun as <- _. done.
  - injection Hrun as <- _. cbn. lia.
Qed.

(** What a successful [JoinCluster] has done. *)
Lemma JoinCluster_inv k seed s s1 n : nt_nodes s !! k = Some n → JoinCluster k seed s = (Ok (), s1) →
  let id := nd_nodeID n in
  ∃ c nc nc', nt_nodes s !! c = Some nc ∧ nt_nodes s1 = <[c := nc']> (nt_nodes s) ∧ nd_nodeID nc' = nd_nodeID nc ∧ member_of c id s = None ∧
  ∃ m, member_of c id s1 = Some m ∧ mi_NodeID m = id ∧ mi_Address m = nd_address n ∧ mi_ClusterPort m = 29015%Z ∧ mi_Status m = "active".
Proof.
  intros Hn Hrun id. unfold JoinCluster in Hrun. apply bind_inv_ok in Hrun as (a & s' & Hcall & Hres). unfold call in Hcall.
  apply bind_inv_ok in Hcall as (c & s2 & Hdial & Hcall). apply wrap_err_Ok, net_dial_inv in Hdial as [Hs2 [nc Hc]].
  apply bind_inv_ok in Hcall as (msg & s3 & Hmk & Hex). destruct (join_message_run (mkLocal n (nt_turn s2))) as (l & msg' & Hl & Hln & Ht & Hp).
  unfold on_node in Hmk. rewrite Hs2, Hn, Hl in Hmk. cbn in Hln. injection Hmk as <- <-. rewrite Hln, insert_id in Hex by done.
  destruct (exchange_inv c msg' _ _ (mkNet (nt_nodes s) (lc_turn l)) a s' nc Hc Hex) as (lc & lc' & t & Hconn & Hlc & Hs'). cbn in Hs'.
  assert (t = []) as -> by (apply handleConnection_one in Hconn; destruct t; [done|cbn in Hconn; lia]).
  assert (∀ q, m_Payload a = Some q → bool_field q "success" = true) as Hsucc.
  { intros q Hq. rewrite Hq in Hres. by destruct (bool_field q "success"). }
  assert (s1 = s') as ->. { destruct (m_Payload a) as [q|]; [|done]. destruct (bool_field q "success"); [by injection Hres|done]. }
  destruct (join_connection _ _ lc lc' a Ht Hp eq_refl Hconn Hsucc) as (Hname & Hnone & m & Hm & Hmid & Hma & Hmp & Hms).
  subst nc. exists c, (lc_node lc), (lc_node lc'). split; [done|]. split; [done|]. split; [done|]. unfold member_of. split; [by rewrite Hc|].
  exists m. rewrite Hs', lookup_insert_eq. done.
Qed.
End join.
(** A node that joins is given up: when a process that listens at a host and port
    has joined a cluster, the seed knows it as an active member, no other process has
    learnt anything, and the next health check of the seed, however the network behaves,
    makes the member inactive: the address stored for it has two ports. *)
Theorem joined_node_is_given_up `{Crypto} `{RpcLaws} k seed s s1 n : net_ok s → nt_nodes s !! k = Some n →
  SplitHostPort_ok (nd_address n) = true → JoinCluster k seed s = (Ok (), s1) →
  let id := nd_nodeID n in
  ∃ c nc', nt_nodes s1 = <[c := nc']> (nt_nodes s) ∧ (∃ m, member_of c id s1 = Some m ∧ mi_Status m = "active") ∧
  (nd_nodeID nc' ≠ id → ∀ timeout s2, checkHealth c timeout s1 = (Ok (), s2) → ∃ m, member_of c id s2 = Some m ∧ mi_Status m = "inactive").
Proof.
  intros Hok Hn Ha Hjoin id. pose proof (JoinCluster_ok k seed s Hok) as Hok1. rewrite Hjoin in Hok1.
  destruct (JoinCluster_inv k seed s s1 n Hn Hjoin) as (c & nc & nc' & Hc & Hs1 & Hname & _ & m & Hm & Hmid & Hma & Hmp & Hms).
  exists c, nc'. split; [done|]. split; [by exists m|]. intros Hne timeout s2 Hcheck.
  refine (proj2 (health_inactive c id (nd_nodeID nc') Hne timeout s1 s2 m Hok1 _ Hm _ Hcheck)).
  - exists nc'. rewrite Hs1, lookup_insert_eq. done.
  - unfold node_address. rewrite Hmp, bool_decide_eq_true_2, Hma by done. by apply two_ports.
Qed.

(** C25: nothing is replicated: whatever the network does, a process that runs gets an
    error for every operation it replicates to a node and for every query it forwards,
    replicating to all nodes reports success, and no process changes: the server
    answers neither kind of message. *)
Theorem replication_is_lost `{Crypto} `{RpcRuntime} k s : running k s →
  (∀ target t op key v old, ∃ e s', ReplicateToNode k target t op key v old s = (Err e, s') ∧ nt_nodes s' = nt_nodes s) ∧
  (∀ target id q tok, ∃ e s', ForwardQuery k target id q tok s = (Err e, s') ∧ nt_nodes s' = nt_nodes s) ∧
  (∀ t op key v old, ∃ s', ReplicateToAll k t op key v old s = (Ok (), s') ∧ nt_nodes s' = nt_nodes s).
Proof.
  intros Hk. split; [|split]; intros.
  - by apply ReplicateToNode_fails.
  - by apply ForwardQuery_fails.
  - by apply ReplicateToAll_succeeds.
Qed.

(** A join request without a numeric port ends the process that serves it. *)
Lemma malformed_join_kills `{Crypto} `{RpcRuntime} c msg p s : running c s → m_Type msg = MsgJoinRequest → m_Payload msg = Some p →
  (∀ f, p !! "cluster_port" ≠ Some (JNum f)) → ¬ running c (on_node c (handleConnection [Some msg]) s).2.
Proof.
  intros [n Hn] Ht Hp Hport. unfold on_node. rewrite Hn. cbn [handleConnection]. unfold handleMessage.
  rewrite Ht, bool_decide_eq_false_2, bool_decide_eq_true_2 by done. unfold handleJoinRequest, with_payload. rewrite Hp.
  destruct (p !! "cluster_port") as [[| |f| | |]|]; [| |by destruct (Hport f)|..];
    intros [n' Hn']; cbv [mbind M_bind catch panic] in Hn'; cbn in Hn'; by rewrite lookup_delete_eq in Hn'.
Qed.
(** A cluster manager knows the nodes that were added to it, not its own: a node alone
    reports that its cluster is not healthy. *)
Lemma alone_is_unhealthy `{Crypto} `{RpcLaws} s : cm_members (mg_cluster s) = ∅ →
  ∃ h s', GetClusterHealth s = (Ok h, s') ∧ he_total_nodes h = 0 ∧ he_healthy h = false.
Proof.
  intros Hs. unfold GetClusterHealth, GetMembers. destruct s as [c t]. cbn in Hs. do 2 eexists. split; [reflexivity|]. cbn. rewrite Hs.
  assert (range_nodes t ∅ = []) as -> by (apply Permutation_nil_r; rewrite rpc_range, map_to_list_empty; done). done.
Qed.

(** ** An example *)

#[local] Existing Instances Scram.example_crypto Scram.example_crypto_laws.
#[local] Instance example_rpc : RpcRuntime := {
  dial _ address := if bool_decide (address = "h1:29015") then Some "n1" else if bool_decide (address = "h2:29015") then Some "n2" else None;
  request_lost _ := false;
  response_lost _ := false;
  range_nodes _ := map_to_list;
}.
#[local] Instance example_rpc_laws : RpcLaws.
Proof.
  split; [|done]. intros t address k. cbn. case_bool_decide; [by subst|]. case_bool_decide; [by subst|done].
Qed.
Definition example_node (id address : string) : Node := NewServer id address (mkCM id "c" ∅ "" 0).
Definition example_net : Net := mkNet {["n1" := example_node "n1" "h1:29015"; "n2" := example_node "n2" "h2:29015"]} 0.
Definition joined_net : Net := (JoinCluster "n2" "h1:29015" example_net).2.
Lemma example_net_ok : net_ok example_net.
Proof.
  assert (∀ id a, members_ok (cm_members (nd_cluster (example_node id a)))) as Hempty by (intros id a x m Hm; cbn in Hm; by rewrite lookup_empty in Hm).
  intros k n Hn. unfold example_net in Hn. cbn [nt_nodes] in Hn.
  apply lookup_insert_Some in Hn as [[_ <-]|[_ Hn]]; [apply Hempty|]. apply lookup_singleton_Some in Hn as [_ <-]. apply Hempty.
Qed.
Lemma replication_is_lost_witness : ∃ s', ReplicateToAll "n1" "t" "insert" "k" (Some JNull) None joined_net = (Ok (), s') ∧ nt_nodes s' = nt_nodes joined_net.
Proof. apply (replication_is_lost "n1" joined_net). vm_compute. eexists. reflexivity. Defined.
Lemma joined_node_is_given_up_witness : let id := "n2" in
  ∃ c nc', nt_nodes joined_net = <[c := nc']> (nt_nodes example_net) ∧ (∃ m, member_of c id joined_net = Some m ∧ mi_Status m = "active") ∧
  (nd_nodeID nc' ≠ id → ∀ timeout s2, checkHealth c timeout joined_net = (Ok (), s2) → ∃ m, member_of c id s2 = Some m ∧ mi_Status m = "inactive").
Proof.
  apply (joined_node_is_given_up "n2" "h1:29015" example_net joined_net (example_node "n2" "h2:29015")).
  - exact example_net_ok.
  - vm_compute. reflexivity.
  - vm_compute. reflexivity.
  - vm_compute. reflexivity.
Defined.
(** The seed is ["n1"], and its health check runs to its end. *)
Example given_up_status :
  member_of "n1" "n2" (checkHealth "n1" 1000 joined_net).2 ≫= (λ m, Some (mi_Status m, mi_Address m, mi_ClusterPort m)) = Some ("inactive", "h2:29015", 29015%Z).
Proof. vm_compute. reflexivity. Qed.
