(* ===== verification/HttpApi.v ===== *)
(** * The HTTP API (internal/api)

    Requests and responses, the multiplexer with its cleaning of paths, the two
    middlewares, every handler of api.go, auth.go, users.go, permissions.go,
    cluster_tokens.go and cluster_nodes.go, the log and the metrics, over the state of
    the components that the handlers call.  A request is one step: the handlers hold
    no lock across their calls, and the interleaving of two requests is not modelled.
    A panic of a handler is the outcome [Panic]; net/http then drops the connection.
    A body is decoded by [encoding/json], which is a parameter, like the formatting of
    times and the runtime's counter of memory.  Each component counts its own turns. *)

From S2P Require Import Prelude Bytes Order Datum Parser Index Admin Evaluator Sessions GoStrings Scram Auth Protocol Cluster Removal Rpc.
From Stdlib Require Import Ascii.

(** ** Requests and responses *)

(** [rq_db] is the query parameter "db", empty when there is none. *)
Record Request := mkReq {
  rq_Method : string; rq_EscapedPath : string; rq_db : string; rq_Authorization : string; rq_Body : list byte;
}.
Definition MethodGet : string := "GET".
Definition MethodPost : string := "POST".
Definition MethodPut : string := "PUT".
Definition MethodDelete : string := "DELETE".

Definition StatusOK : Z := 200.
Definition StatusCreated : Z := 201.
Definition StatusAccepted : Z := 202.
Definition StatusBadRequest : Z := 400.
Definition StatusUnauthorized : Z := 401.
Definition StatusForbidden : Z := 403.
Definition StatusNotFound : Z := 404.
Definition StatusMethodNotAllowed : Z := 405.
Definition StatusConflict : Z := 409.
Definition StatusInternalServerError : Z := 500.

(** ** The log and the metrics *)

Record LogEntry := mkLog { lg_ID : string; lg_Timestamp : string; lg_Level : string; lg_Message : string; lg_Server : string }.
Record MetricsSnapshot := mkSnap { sn_Time : string; sn_Queries : Z; sn_Latency : Z }.
(** [mt_lastQueries] is the variable of the sampling goroutine, [mt_turn] counts the
    readings of the clock. *)
Record MetricsTracker := mkMetrics {
  mt_queriesTotal : Z; mt_queriesPerSec : Z; mt_lastQueryTime : Z; mt_startTime : Z;
  mt_logEntries : list LogEntry; mt_metricsHistory : list MetricsSnapshot;
  mt_maxLogEntries : nat; mt_maxMetricsHistory : nat; mt_lastQueries : Z; mt_turn : nat;
}.

(** What is handed to [writeJSON]: the map with an error, a value made of maps and
    slices, or a value of a type of the components. *)
Inductive Body :=
| BError (msg : string)
| BValue (r : Reply)
| BDatabase (name : string) (tables : gmap string Table)
| BState (st : Rpc.ClusterState)
| BMembers (l : list Rpc.NodeInfo)
| BUser (u : gmap string safe_value)
| BUsers (l : list (gmap string safe_value))
| BLogin (token : string) (u : gmap string safe_value)
| BMe (u : gmap string safe_value) (perms : list Reply)
| BToken (tk : JoinToken)
| BTokens (l : list JoinToken)
| BJoin (resp : JoinResponse)
| BNode (n : Cluster.NodeInfo)
| BNodes (l : list Cluster.NodeInfo)
| BRemoval (op : RemoveOperation)
| BTransfers (l : list TransferTask)
| BBalance (b : Balance)
| BLogs (l : list LogEntry)
| BMetrics (history : list MetricsSnapshot) (total perSec mem conns : Z).
Inductive Response :=
| RespJSON (status : Z) (body : Body)
| RespMoved (path : string)
| RespNoRoute.

(** ** net/http: paths *)

Definition hex_value (c : ascii) : option Z :=
  let n := Z.of_nat (nat_of_ascii c) in
  if bool_decide (48 ≤ n ≤ 57)%Z then Some (n - 48)%Z
  else if bool_decide (97 ≤ n ≤ 102)%Z then Some (n - 87)%Z
  else if bool_decide (65 ≤ n ≤ 70)%Z then Some (n - 55)%Z
  else None.
(** [url.PathUnescape]; a request with a malformed escape does not reach a handler. *)
Fixpoint PathUnescape (s : string) : string :=
  match s with
  | "" => ""
  | String c s' =>
      match s' with
      | String a (String b s'') =>
          if bool_decide (c = "%"%char) then
            match hex_value a, hex_value b with
            | Some x, Some y => String (ascii_of_nat (Z.to_nat (x * 16 + y))) (PathUnescape s'')
            | _, _ => String c (PathUnescape s')
            end
          else String c (PathUnescape s')
      | _ => String c (PathUnescape s')
      end
  end.
(** [r.URL.Path] *)
Definition URL_Path (r : Request) : string := PathUnescape (rq_EscapedPath r).

(** [path.Clean] of a path that begins with a slash, segment by segment. *)
Fixpoint clean_segments (segs out : list string) : list string :=
  match segs with
  | [] => reverse out
  | s :: segs' =>
      if bool_decide (s = "") || bool_decide (s = ".") then clean_segments segs' out
      else if bool_decide (s = "..") then clean_segments segs' (tail out)
      else clean_segments segs' (s :: out)
  end.
Definition path_Clean (p : string) : string := "/" +:+ String.concat "/" (clean_segments (Split "/" p) []).
Definition ends_in_slash (p : string) : bool := match reverse (String.list_ascii_of_string p) with c :: _ => bool_decide (c = "/"%char) | [] => false end.
Definition cleanPath (p : string) : string :=
  if bool_decide (p = "") then "/"
  else
    let p := if HasPrefix p "/" then p else "/" +:+ p in
    let np := path_Clean p in
    if ends_in_slash p && bool_decide (np ≠ "/") then np +:+ "/" else np.

(** ** Splitting paths (api.go) *)

(** [s[start:i]] *)
Definition slice (s : string) (start i : nat) : string := str_take (i - start) (str_drop start s).
Fixpoint split_loop (s : string) (sep : ascii) (rest : string) (i start : nat) (result : list string) : list string :=
  match rest with
  | "" => result ++ [slice s start i]
  | String c rest' =>
      if bool_decide (c = sep) then split_loop s sep rest' (S i) (S i) (result ++ [slice s start i])
      else split_loop s sep rest' (S i) start result
  end.
Definition splitString (s : string) (sep : ascii) : list string := split_loop s sep s 0 0 [].
Definition splitPath (path : string) : list string := filter (λ p, p ≠ "") (splitString path "/").
(** [strings.HasSuffix] and [strings.TrimSuffix] *)
Definition HasSuffix (s suffix : string) : bool :=
  bool_decide (String.length suffix ≤ String.length s) && bool_decide (str_drop (String.length s - String.length suffix) s = suffix).
Definition TrimSuffix (s suffix : string) : string :=
  if HasSuffix s suffix then str_take (String.length s - String.length suffix) s else s.

(** ** The bodies of requests *)

(** The fields of the structs that bodies are decoded into, and their types. *)
Inductive FieldKind := KString | KBool | KInt | KAny.
Inductive Field := FString (s : string) | FBool (b : bool) | FInt (z : Z) | FAny (v : GoVal).

(** [decode] is [json.NewDecoder(r.Body).Decode] into a struct with these fields; a
    field that the body does not give is absent. *)
Class HttpRuntime := {
  decode : list (string * FieldKind) → list byte → outcome (gmap string Field);
  ParseDuration : string → option Z;
  format_time : string → Z → string;
  duration_text : Z → string;
  mem_alloc : nat → Z;
}.

Definition f_string (m : gmap string Field) (key : string) : string := match m !! key with Some (FString s) => s | _ => "" end.
Definition f_bool (m : gmap string Field) (key : string) : bool := match m !! key with Some (FBool b) => b | _ => false end.
Definition f_int (m : gmap string Field) (key : string) : Z := match m !! key with Some (FInt z) => z | _ => 0%Z end.
Definition f_any (m : gmap string Field) (key : string) : GoVal := match m !! key with Some (FAny v) => v | _ => VNil end.

(** ** The server *)

(** [ap_protocol] holds the counters of queries and connections of the protocol
    server, once it is set. *)
Record Api := mkApi {
  ap_world : World;
  ap_auth : AuthState;
  ap_secret : string;
  ap_cluster : option Managed;
  ap_system : System;
  ap_protocol : option (Z * Z);
  ap_metrics : MetricsTracker;
}.
Definition set_ap_world (w : World) (s : Api) : Api :=
  mkApi w (ap_auth s) (ap_secret s) (ap_cluster s) (ap_system s) (ap_protocol s) (ap_metrics s).
Definition set_ap_auth (a : AuthState) (s : Api) : Api :=
  mkApi (ap_world s) a (ap_secret s) (ap_cluster s) (ap_system s) (ap_protocol s) (ap_metrics s).
Definition set_ap_cluster (c : option Managed) (s : Api) : Api :=
  mkApi (ap_world s) (ap_auth s) (ap_secret s) c (ap_system s) (ap_protocol s) (ap_metrics s).
Definition set_ap_system (y : System) (s : Api) : Api :=
  mkApi (ap_world s) (ap_auth s) (ap_secret s) (ap_cluster s) y (ap_protocol s) (ap_metrics s).
Definition set_ap_protocol (p : option (Z * Z)) (s : Api) : Api :=
  mkApi (ap_world s) (ap_auth s) (ap_secret s) (ap_cluster s) (ap_system s) p (ap_metrics s).
Definition set_ap_metrics (m : MetricsTracker) (s : Api) : Api :=
  mkApi (ap_world s) (ap_auth s) (ap_secret s) (ap_cluster s) (ap_system s) (ap_protocol s) m.

Definition on_world {A} (m : M World A) : M Api A := zoom ap_world set_ap_world m.
Definition on_auth {A} (m : M AuthState A) : M Api A := zoom ap_auth set_ap_auth m.
Definition on_system {A} (m : M System A) : M Api A := zoom ap_system set_ap_system m.
Definition on_membership {A} (m : M Membership A) : M Api A := on_system (on_members m).
Definition on_metrics {A} (m : M MetricsTracker A) : M Api A := zoom ap_metrics set_ap_metrics m.
Definition get_store : M Api Store := s ← get_state; mret (a_store (ap_auth s)).

(** [x, err := m; if err != nil { k }] and the rest of the body. *)
Definition on_error {S A B} (m : M S A) (k : string → M S B) (f : A → M S B) : M S B :=
  r ← catch (a ← m; mret (inl a)) (λ e, mret (inr e));
  match r with inl a => f a | inr e => k e end.

Definition set_log (entries : list LogEntry) (m : MetricsTracker) : MetricsTracker :=
  mkMetrics (mt_queriesTotal m) (mt_queriesPerSec m) (mt_lastQueryTime m) (mt_startTime m) entries (mt_metricsHistory m)
    (mt_maxLogEntries m) (mt_maxMetricsHistory m) (mt_lastQueries m) (mt_turn m).

Definition writeJSON (status : Z) (body : Body) : M Api Response := mret (RespJSON status body).
Definition writeError (status : Z) (msg : string) : M Api Response := writeJSON status (BError msg).
Definition writeStatus (status : Z) (s : string) : M Api Response := writeJSON status (BValue (RMap [("status", RStr s)])).
Definition methodNotAllowed : M Api Response := writeError StatusMethodNotAllowed "method not allowed".

(** A handler is given the request and the user that its context holds. *)
Abbreviation Handler := (Request → option User → M Api Response) (only parsing).

Section api.
Context `{Runtime} `{Crypto} `{AuthRuntime} `{JWT} `{ClusterRuntime} `{RemovalRuntime} `{RpcRuntime} `{HttpRuntime} (fuel : nat).

(** *** The log and the metrics (api.go) *)

(** A reading of the clock. *)
Definition mt_now : M MetricsTracker Z :=
  m ← get_state;
  put_state (mkMetrics (mt_queriesTotal m) (mt_queriesPerSec m) (mt_lastQueryTime m) (mt_startTime m) (mt_logEntries m) (mt_metricsHistory m)
    (mt_maxLogEntries m) (mt_maxMetricsHistory m) (mt_lastQueries m) (S (mt_turn m)));;
  mret (time_Now (mt_turn m)).

Definition addLogEntry (level message : string) : M MetricsTracker unit :=
  t ← mt_now;
  m ← get_state;
  let entry := mkLog (pretty (length (mt_logEntries m) + 1)) (format_time "2006-01-02T15:04:05Z07:00" t) level message "gothinkdb" in
  let logEntries := mt_logEntries m ++ [entry] in
  modify (set_log (if bool_decide (mt_maxLogEntries m < length logEntries)
                   then drop (length logEntries - mt_maxLogEntries m) logEntries else logEntries)).

Definition RecordQuery : M MetricsTracker unit :=
  t ← mt_now;
  modify (λ m, mkMetrics (int64 (mt_queriesTotal m + 1)) (mt_queriesPerSec m) t (mt_startTime m) (mt_logEntries m) (mt_metricsHistory m)
    (mt_maxLogEntries m) (mt_maxMetricsHistory m) (mt_lastQueries m) (mt_turn m)).
Definition RecordLog (level message : string) : M Api unit := on_metrics (addLogEntry level message).

(** A tick of the sampling goroutine; [protocolQueries] is 0 without a protocol server. *)
Definition sample (protocolQueries : Z) : M MetricsTracker unit :=
  m ← get_state;
  let current := int64 (mt_queriesTotal m + protocolQueries) in
  let qps := int64 (current - mt_lastQueries m) in
  latency ← (if bool_decide (0 < mt_lastQueryTime m)%Z then t ← mt_now; mret (Z.quot (t - mt_lastQueryTime m) 1000000) else mret 0%Z);
  t ← mt_now;
  modify (λ m,
    let history := mt_metricsHistory m ++ [mkSnap (format_time "15:04:05" t) current latency] in
    mkMetrics (mt_queriesTotal m) qps (mt_lastQueryTime m) (mt_startTime m) (mt_logEntries m)
      (if bool_decide (mt_maxMetricsHistory m < length history) then drop 1 history else history)
      (mt_maxLogEntries m) (mt_maxMetricsHistory m) current (mt_turn m)).
Definition startMetricsCollection : M MetricsTracker unit :=
  addLogEntry "info" "GoThinkDB server started successfully";;
  addLogEntry "info" "HTTP admin server listening on :8080";;
  addLogEntry "info" "ReQL protocol server listening on :28015".
Definition NewMetrics (turn : nat) : MetricsTracker := mkMetrics 0 0 0 (time_Now turn) [] [] 500 60 0 (S turn).
Definition NewServer (w : World) (cluster : option Managed) (a : AuthState) (secret : string) (y : System) (protocol : option (Z * Z)) (turn : nat) : Api :=
  mkApi w a secret cluster y protocol (startMetricsCollection (NewMetrics turn)).2.

Definition getConnectionCount : M Api Z := s ← get_state; mret (match ap_protocol s with Some (_, connections) => connections | None => 0%Z end).
Definition uptime : M Api string :=
  t ← on_metrics mt_now; s ← get_state; mret (duration_text (t - mt_startTime (ap_metrics s))).
(** [runtime.ReadMemStats] *)
Definition memory_mb : M Api Z := s ← get_state; on_metrics mt_now;; mret (mem_alloc (mt_turn (ap_metrics s)) / 1024 / 1024)%Z.

(** *** middleware.go *)

(** [strings.SplitN(authHeader, " ", 2)] *)
Definition extractTokenFromHeader (r : Request) : string :=
  let authHeader := rq_Authorization r in
  match str_Index authHeader " " with
  | Some i => if bool_decide (str_take i authHeader ≠ "Bearer") then "" else str_drop (S i) authHeader
  | None => ""
  end.

Definition authMiddleware (next : Handler) : Request → M Api Response := λ r,
  let token := extractTokenFromHeader r in
  if bool_decide (token = "") then writeError StatusUnauthorized "authorization token required"
  else
    s ← get_state;
    on_error (on_auth (GetUserFromToken (ap_secret s) token))
      (λ _, writeError StatusUnauthorized "invalid or expired token")
      (λ user, next r (Some user)).
Definition adminMiddleware (next : Handler) : Handler := λ r user,
  on_error (lift (RequireUser user))
    (λ e, writeError StatusUnauthorized e)
    (λ u, if IsAdmin u then next r user else writeError StatusForbidden "admin access required").

(** Not used by any route. *)
Definition databasePermissionMiddleware (requiredRead requiredWrite requiredCreate requiredDrop : bool) (next : Handler) : Handler := λ r user,
  on_error (lift (RequireUser user))
    (λ e, writeError StatusUnauthorized e)
    (λ u,
      if IsAdmin u then next r user
      else
        let dbName :=
          if bool_decide (rq_db r ≠ "") then rq_db r
          else if HasPrefix (URL_Path r) "/api/databases/"
          then match Split "/" (TrimPrefix (URL_Path r) "/api/databases/") with p :: _ => p | [] => "" end
          else if HasPrefix (URL_Path r) "/api/tables/" then "test"
          else "" in
        if bool_decide (dbName = "") then next r user
        else
          store ← get_store;
          if HasDatabaseAccess (ID u) dbName requiredRead requiredWrite requiredCreate requiredDrop store then next r user
          else writeError StatusForbidden ("insufficient permissions for database: " +:+ dbName)).

Definition filterDatabasesByPermission (user : option User) (databases : list string) (store : Store) : list string :=
  match user with
  | None => []
  | Some u =>
      if IsAdmin u then databases
      else match GetAccessibleDatabases (ID u) store with
           | None => databases
           | Some accessible => filter (λ db, db ∈ accessible) databases
           end
  end.

(** *** auth.go *)

Definition handleLogin (r : Request) : M Api Response :=
  if bool_decide (rq_Method r ≠ MethodPost) then methodNotAllowed
  else
    on_error (lift (decode [("username", KString); ("password", KString)] (rq_Body r)))
      (λ _, writeError StatusBadRequest "invalid request body")
      (λ req,
        let username := f_string req "username" in
        let password := f_string req "password" in
        if bool_decide (username = "" ∨ password = "") then writeError StatusBadRequest "username and password are required"
        else
          s ← get_state;
          on_error (on_auth (Login (ap_secret s) username password))
            (λ _, RecordLog "warn" ("Failed login attempt for user '" +:+ username +:+ "'");;
                  writeError StatusUnauthorized "invalid credentials")
            (λ tu,
              RecordLog "info" ("User '" +:+ Username tu.2 +:+ "' logged in successfully");;
              writeJSON StatusOK (BLogin tu.1 (ToSafeUser tu.2)))).

Definition permission_map (p : Permission) : Reply :=
  RMap [("id", RStr (perm_ID p)); ("database", RStr (perm_Database p)); ("can_read", RBool (CanRead p)); ("can_write", RBool (CanWrite p));
        ("can_create", RBool (CanCreate p)); ("can_drop", RBool (CanDrop p))].
Definition handleMe : Handler := λ r user,
  if bool_decide (rq_Method r ≠ MethodGet) then methodNotAllowed
  else
    on_error (lift (RequireUser user)) (λ e, writeError StatusUnauthorized e)
      (λ u, store ← get_store; writeJSON StatusOK (BMe (ToSafeUser u) (permission_map <$> GetUserPermissions (ID u) store))).

(** *** users.go *)

(** [auth.RequireAdmin], with the answer when it fails. *)
Definition require_admin (user : option User) (k : M Api Response) : M Api Response :=
  on_error (lift (RequireAdmin user)) (λ e, writeError StatusForbidden e) (λ _, k).

Definition handleUsers : Handler := λ r user,
  require_admin user
    (if bool_decide (rq_Method r = MethodGet) then
       t ← on_auth (on_turn turn);
       store ← get_store;
       writeJSON StatusOK (BUsers (ToSafeUser <$> ListUsers t store))
     else if bool_decide (rq_Method r = MethodPost) then
       on_error (lift (decode [("username", KString); ("password", KString); ("role", KString)] (rq_Body r)))
         (λ _, writeError StatusBadRequest "invalid request body")
         (λ req,
           if bool_decide (f_string req "username" = "" ∨ f_string req "password" = "")
           then writeError StatusBadRequest "username and password are required"
           else
             let role := if bool_decide (f_string req "role" = "admin") then RoleAdmin else RoleUser in
             on_error (on_auth (CreateUser (f_string req "username") (f_string req "password") role))
               (λ e, writeError StatusConflict e)
               (λ u, writeJSON StatusCreated (BUser (ToSafeUser u))))
     else methodNotAllowed).

Definition user_segments (r : Request) : list string := Split "/" (TrimPrefix (URL_Path r) "/api/users/").
Definition handleUser : Handler := λ r user,
  require_admin user
    (let segments := user_segments r in
     let userID := default "" (segments !! 0) in
     if bool_decide (userID = "") then writeError StatusBadRequest "user ID required"
     else if bool_decide (segments !! 1 = Some "password") then
       if bool_decide (rq_Method r ≠ MethodPut ∧ rq_Method r ≠ MethodPost) then methodNotAllowed
       else
         on_error (lift (decode [("password", KString)] (rq_Body r)))
           (λ _, writeError StatusBadRequest "password is required")
           (λ req,
             if bool_decide (f_string req "password" = "") then writeError StatusBadRequest "password is required"
             else
               on_error (on_auth (UpdateUserPassword userID (f_string req "password")))
                 (λ e, writeError StatusNotFound e)
                 (λ _, writeStatus StatusOK "password updated"))
     else if bool_decide (rq_Method r = MethodGet) then
       store ← get_store;
       match GetUser userID store with
       | None => writeError StatusNotFound "user not found"
       | Some u => writeJSON StatusOK (BUser (ToSafeUser u))
       end
     else if bool_decide (rq_Method r = MethodDelete) then
       on_error (on_auth (DeleteUser userID)) (λ e, writeError StatusNotFound e) (λ _, writeStatus StatusOK "deleted")
     else methodNotAllowed).

(** *** permissions.go *)

Definition permission_fields : list (string * FieldKind) :=
  [("database", KString); ("can_read", KBool); ("can_write", KBool); ("can_create", KBool); ("can_drop", KBool)].
Definition handleUserPermissions : Handler := λ r user,
  require_admin user
    (let parts := user_segments r in
     if bool_decide (parts !! 1 ≠ Some "permissions") then writeError StatusBadRequest "invalid path"
     else
       let userID := default "" (parts !! 0) in
       store ← get_store;
       match GetUser userID store with
       | None => writeError StatusNotFound "user not found"
       | Some _ =>
           if bool_decide (rq_Method r = MethodGet) then
             writeJSON StatusOK (BValue (RArr (permission_map <$> GetUserPermissions userID store)))
           else if bool_decide (rq_Method r = MethodPost) then
             on_error (lift (decode permission_fields (rq_Body r)))
               (λ _, writeError StatusBadRequest "invalid request body")
               (λ req,
                 if bool_decide (f_string req "database" = "") then writeError StatusBadRequest "database is required"
                 else
                   on_error (on_auth (GrantPermission userID (f_string req "database") (f_bool req "can_read") (f_bool req "can_write")
                                        (f_bool req "can_create") (f_bool req "can_drop")))
                     (λ e, writeError StatusBadRequest e)
                     (λ perm, writeJSON StatusCreated (BValue (permission_map perm))))
           else methodNotAllowed
       end).
Definition handleUserPermission : Handler := λ r user,
  require_admin user
    (let parts := user_segments r in
     if bool_decide (length parts < 4 ∨ parts !! 1 ≠ Some "permissions") then writeError StatusBadRequest "invalid path"
     else if bool_decide (rq_Method r ≠ MethodDelete) then methodNotAllowed
     else
       on_error (on_auth (RevokePermission (default "" (parts !! 0)) (default "" (parts !! 3))))
         (λ e, writeError StatusNotFound e) (λ _, writeStatus StatusOK "revoked")).
(** api.go *)
Definition handleUserRouter : Handler := λ r user,
  let parts := user_segments r in
  if bool_decide (parts !! 1 = Some "permissions") then
    if bool_decide (default "" (parts !! 2) ≠ "") then handleUserPermission r user else handleUserPermissions r user
  else handleUser r user.

(** *** cluster_tokens.go *)

Definition handleClusterTokens : Handler := λ r user,
  require_admin user
    (if bool_decide (rq_Method r = MethodGet) then
       tokens ← on_membership ListTokens; writeJSON StatusOK (BTokens tokens)
     else if bool_decide (rq_Method r = MethodPost) then
       on_error (lift (decode [("expires_in", KString)] (rq_Body r)))
         (λ _, writeError StatusBadRequest "invalid request body")
         (λ req,
           let text := f_string req "expires_in" in
           match (if bool_decide (text = "") then Some (24 * hour)%Z else ParseDuration text) with
           | None => writeError StatusBadRequest "invalid expires_in format"
           | Some expiresIn =>
               let createdBy := match user with Some u => Username u | None => "unknown" end in
               on_error (on_membership (Cluster.GenerateToken createdBy expiresIn))
                 (λ e, writeError StatusInternalServerError e)
                 (λ token, writeJSON StatusCreated (BToken token))
           end)
     else methodNotAllowed).

Definition handleClusterToken : Handler := λ r user,
  require_admin user
    (let tokenID := str_drop (String.length "/api/cluster/tokens/") (URL_Path r) in
     if bool_decide (tokenID = "") then writeError StatusBadRequest "token ID required"
     else if bool_decide (rq_Method r = MethodDelete) then
       on_error (on_membership (RevokeToken tokenID)) (λ e, writeError StatusNotFound e) (λ _, writeStatus StatusOK "revoked")
     else methodNotAllowed).

Definition or_port (z default : Z) : Z := if bool_decide (z = 0)%Z then default else z.
Definition join_fields : list (string * FieldKind) :=
  [("token", KString); ("node_id", KString); ("address", KString); ("cluster_port", KInt); ("http_port", KInt); ("driver_port", KInt)].
Definition handleClusterJoin (r : Request) : M Api Response :=
  if bool_decide (rq_Method r ≠ MethodPost) then methodNotAllowed
  else
    on_error (lift (decode join_fields (rq_Body r)))
      (λ _, writeError StatusBadRequest "invalid request body")
      (λ req,
        if bool_decide (f_string req "token" = "" ∨ f_string req "node_id" = "" ∨ f_string req "address" = "")
        then writeError StatusBadRequest "token, node_id, and address are required"
        else
          on_error (on_membership (HandleJoinRequest (mkJoin (f_string req "token") (f_string req "node_id") (f_string req "address")
                      (or_port (f_int req "cluster_port") 29015) (or_port (f_int req "http_port") 8080) (or_port (f_int req "driver_port") 28015))))
            (λ e, writeError StatusInternalServerError e)
            (λ resp, writeJSON (if js_Success resp then StatusOK else StatusBadRequest) (BJoin resp))).

(** *** cluster_nodes.go *)

Definition node_fields : list (string * FieldKind) :=
  [("node_id", KString); ("address", KString); ("cluster_port", KInt); ("http_port", KInt); ("driver_port", KInt)].
Definition handleClusterNodes : Handler := λ r user,
  if bool_decide (rq_Method r = MethodGet) then
    members ← on_membership Cluster.GetMembers; writeJSON StatusOK (BNodes members)
  else if bool_decide (rq_Method r = MethodPost) then
    require_admin user
      (on_error (lift (decode node_fields (rq_Body r)))
         (λ _, writeError StatusBadRequest "invalid request body")
         (λ req,
           if bool_decide (f_string req "node_id" = "" ∨ f_string req "address" = "")
           then writeError StatusBadRequest "node_id and address are required"
           else
             on_error (on_membership (AddMember (f_string req "node_id") (f_string req "address") (or_port (f_int req "cluster_port") 29015)
                                        (or_port (f_int req "http_port") 8080) (or_port (f_int req "driver_port") 28015)))
               (λ e, writeError StatusConflict e)
               (λ _, writeStatus StatusCreated "added")))
  else methodNotAllowed.

Definition handleRemoveNode (nodeID : string) : Handler := λ r user,
  if bool_decide (rq_Method r ≠ MethodPost) then methodNotAllowed
  else
    require_admin user
      (on_error (on_system (StartRemoval nodeID))
         (λ e, writeError StatusBadRequest e)
         (λ _, writeJSON StatusAccepted (BValue (RMap [("status", RStr "removal_started"); ("node_id", RStr nodeID)])))).

(** The constants of the type [NodeStatus]. *)
Definition status_text (st : NodeStatus) : string :=
  match st with
  | NodeStatusActive => "active" | NodeStatusDraining => "draining" | NodeStatusOffline => "offline"
  | NodeStatusJoining => "joining" | NodeStatusLeaving => "leaving"
  end.
Definition handleNodeStatus (nodeID : string) : Handler := λ r user,
  if bool_decide (rq_Method r ≠ MethodGet) then methodNotAllowed
  else
    require_admin user
      (on_error (on_system (GetRemovalStatus nodeID))
         (λ _,
           member ← on_membership (GetMember nodeID);
           match member with
           | None => writeError StatusNotFound "node not found"
           | Some m => writeJSON StatusOK (BValue (RMap [("node_id", RStr (n_NodeID m)); ("status", RStr (status_text (n_Status m)));
                                                          ("address", RStr (n_Address m))]))
           end)
         (λ op, writeJSON StatusOK (BRemoval op))).

Definition handleClusterNode : Handler := λ r user,
  let parts := Split "/" (TrimPrefix (URL_Path r) "/api/cluster/nodes/") in
  let nodeID := default "" (parts !! 0) in
  if bool_decide (nodeID = "") then writeError StatusBadRequest "node ID required"
  else
    let action := default "" (parts !! 1) in
    if bool_decide (action = "remove") then handleRemoveNode nodeID r user
    else if bool_decide (action = "status") then handleNodeStatus nodeID r user
    else if bool_decide (rq_Method r = MethodGet) then
      member ← on_membership (GetMember nodeID);
      match member with
      | None => writeError StatusNotFound "node not found"
      | Some m => writeJSON StatusOK (BNode m)
      end
    else methodNotAllowed.

Definition handleClusterBalance : Handler := λ r user,
  if bool_decide (rq_Method r ≠ MethodGet) then methodNotAllowed
  else balance ← on_system GetClusterBalance; writeJSON StatusOK (BBalance balance).
Definition handleClusterTransfers : Handler := λ r user,
  if bool_decide (rq_Method r ≠ MethodGet) then methodNotAllowed
  else require_admin user (transfers ← on_system ListTransfers; writeJSON StatusOK (BTransfers transfers)).

(** *** api.go: health, metrics, logs *)

Definition handleHealth (r : Request) : M Api Response :=
  u ← uptime; writeJSON StatusOK (BValue (RMap [("status", RStr "healthy"); ("server", RStr "gothinkdb"); ("uptime", RStr u)])).
Definition handleServerInfo : Handler := λ r user,
  u ← uptime;
  writeJSON StatusOK (BValue (RMap [("version", RStr "0.1.0"); ("server", RStr "gothinkdb"); ("status", RStr "running"); ("uptime", RStr u)])).
Definition handleMetrics : Handler := λ r user,
  s ← get_state;
  memory ← memory_mb;
  connections ← getConnectionCount;
  let m := ap_metrics s in
  writeJSON StatusOK (BMetrics (mt_metricsHistory m) (mt_queriesTotal m) (mt_queriesPerSec m) memory connections).
Definition handleServerStats : Handler := λ r user,
  s ← get_state;
  memory ← memory_mb;
  connections ← getConnectionCount;
  let m := ap_metrics s in
  writeJSON StatusOK (BValue (RMap [("queries_total", RInt (mt_queriesTotal m)); ("queries_per_second", RInt (mt_queriesPerSec m));
                                    ("connections", RInt connections); ("memory_used", RInt memory)])).
Definition handleLogs : Handler := λ r user, s ← get_state; writeJSON StatusOK (BLogs (mt_logEntries (ap_metrics s))).

(** *** api.go: the members that rpc knows *)

Definition on_cluster_of {A} (c : Managed) (m : M Managed A) : M Api A := λ s,
  let '(r, c') := m c in (r, set_ap_cluster (Some c') s).
Definition handleClusterStatus : Handler := λ r user,
  s ← get_state;
  match ap_cluster s with
  | None => writeJSON StatusOK (BValue (RMap [("status", RStr "standalone"); ("cluster_id", RStr ""); ("members", RInt 0); ("leader", RStr "")]))
  | Some c => state ← on_cluster_of c GetClusterState; writeJSON StatusOK (BState state)
  end.
Definition handleClusterMembers : Handler := λ r user,
  s ← get_state;
  match ap_cluster s with
  | None => writeJSON StatusOK (BValue (RArr []))
  | Some c => members ← on_cluster_of c Rpc.GetMembers; writeJSON StatusOK (BMembers members)
  end.

(** *** api.go: databases and tables *)

(** [AdminManager.DatabaseSizeBytes] (admin.go): the lengths of the ids and of the
    documents as JSON. *)
Definition entry_size (h : Heap) (e : string * Datum) : M World Z :=
  text ← catch (j ← lift (MarshalJSON local_offset h value_fuel e.2); mret (Some (json_text j))) (λ _, mret None);
  mret (Z.of_nat (String.length e.1) + match text with Some t => Z.of_nat (String.length t) | None => 0 end)%Z.
Definition DatabaseSizeBytes (dbName : string) : M World Z :=
  w ← get_state;
  match w_dbs w !! dbName with
  | None => fail (db_missing dbName)
  | Some db =>
      sizes ← mapM (λ e : string * loc,
        t ← read_table e.2; h ← get_heap; entries ← range_data range_order (t_Data t);
        mapM (entry_size h) entries) (map_to_list (db_Tables db));
      mret (int64 (foldr Z.add 0 (concat sizes)))%Z
  end.

(** The database as [json.Encoder] finds it. *)
Definition tables_of (db : Database) : M World (gmap string Table) := w ← get_state; mret (omap (λ p, w_tables w !! p) (db_Tables db)).

Definition is_plain_user (user : option User) : option User := match user with Some u => if IsAdmin u then None else Some u | None => None end.
Definition insufficient (db : string) : M Api Response := writeError StatusForbidden ("insufficient permissions for database: " +:+ db).

Definition handleDatabases : Handler := λ r user,
  if bool_decide (rq_Method r = MethodGet) then
    s ← get_state;
    let databases := filterDatabasesByPermission user (ListDatabases (ap_world s)) (a_store (ap_auth s)) in
    writeJSON StatusOK (BValue (RArr (RStr <$> databases)))
  else if bool_decide (rq_Method r = MethodPost) then
    match user with
    | Some u =>
        if IsAdmin u then
          on_error (lift (decode [("name", KString)] (rq_Body r)))
            (λ e, writeError StatusBadRequest e)
            (λ req,
              on_error (on_world (CreateDatabase (f_string req "name")))
                (λ e, writeError StatusConflict e)
                (λ _,
                  RecordLog "info" ("Database '" +:+ f_string req "name" +:+ "' created by user '" +:+ Username u +:+ "'");;
                  writeStatus StatusCreated "created"))
        else writeError StatusForbidden "admin access required"
    | None => writeError StatusForbidden "admin access required"
    end
  else methodNotAllowed.

Definition size_answer (dbName : string) (sizeBytes : Z) : Reply :=
  let mb := (1024 * 1024)%Z in
  RMap [("dbName", RStr dbName); ("sizeBytes", RInt sizeBytes); ("sizeMb", RInt (Z.quot (int64 (sizeBytes + mb - 1)) mb))].
Definition database_size (name : string) (user : option User) : M Api Response :=
  let dbName := TrimSuffix name "/size" in
  if bool_decide (dbName = "") then writeError StatusBadRequest "database name required"
  else
    store ← get_store;
    if match is_plain_user user with Some u => negb (HasDatabaseAccess (ID u) dbName true false false false store) | None => false end
    then insufficient dbName
    else
      on_error (on_world (DatabaseSizeBytes dbName))
        (λ e, writeError StatusNotFound e)
        (λ sizeBytes, writeJSON StatusOK (BValue (size_answer dbName sizeBytes))).

Definition handleDatabase : Handler := λ r user,
  let name := str_drop (String.length "/api/databases/") (URL_Path r) in
  if bool_decide (name = "") then writeError StatusBadRequest "database name required"
  else if HasSuffix name "/size" then database_size name user
  else
    store ← get_store;
    if match is_plain_user user with
       | Some u =>
           if bool_decide (rq_Method r = MethodGet) then negb (HasDatabaseAccess (ID u) name true false false false store)
           else if bool_decide (rq_Method r = MethodDelete) then negb (HasDatabaseAccess (ID u) name false false false true store)
           else false
       | None => false
       end
    then insufficient name
    else if bool_decide (rq_Method r = MethodGet) then
      s ← get_state;
      match GetDatabase name (ap_world s) with
      | None => writeError StatusNotFound "database not found"
      | Some db => tables ← on_world (tables_of db); writeJSON StatusOK (BDatabase (db_Name db) tables)
      end
    else if bool_decide (rq_Method r = MethodDelete) then
      on_error (on_world (DropDatabase name))
        (λ e, writeError StatusNotFound e)
        (λ _,
          RecordLog "info" ("Database '" +:+ name +:+ "' dropped by user '" +:+
                            match user with Some u => Username u | None => "unknown" end +:+ "'");;
          writeStatus StatusOK "dropped")
    else methodNotAllowed.

Definition db_or_test (r : Request) : string := if bool_decide (rq_db r = "") then "test" else rq_db r.
Definition handleTables : Handler := λ r user,
  on_error (on_world (ListTables (db_or_test r)))
    (λ e, writeError StatusNotFound e)
    (λ tables, writeJSON StatusOK (BValue (RArr (RStr <$> tables)))).

(** The API's own [datumToInterface]. *)
Fixpoint datumToInterface (h : Heap) (depth : nat) (d : Datum) : outcome Reply :=
  match depth with
  | O => NoFuel
  | S depth' =>
      match d with
      | DNull => Ok RNil
      | DBool b => Ok (RBool b)
      | DNum f => Ok (RFloat f)
      | DStr s => Ok (RStr s)
      | DArray l => rs ← mapM (datumToInterface h depth') l; Ok (RArr rs)
      | DObject o =>
          match h_objs h !! o with
          | None => Panic
          | Some obj =>
              kvs ← mapM (λ k, r ← datumToInterface h depth' (field_or_zero obj k); Ok (k, r)) (obj_Keys obj);
              Ok (RMap kvs)
          end
      | DBinary bs => Ok (RBytes bs)
      | DTime t => Ok (RTime t)
      | DGeometry g => Ok (RGeometry g)
      | DMinVal | DMaxVal => Ok RNil
      end
  end.
Definition converted (d : Datum) : M World (option Reply) :=
  h ← get_heap; catch (r ← lift (datumToInterface h value_fuel d); mret (Some r)) (λ _, mret None).
(** The documents of a table that can be converted. *)
Definition table_docs (p : loc) : M World (list Reply) :=
  l ← AllDocs range_order p; rs ← mapM converted l; mret (omap id rs).

Definition table_info (t : Table) : Reply :=
  RMap [("Name", RStr (t_Name t)); ("doc_count", RInt (Z.of_nat (DocCount t))); ("indexes", RArr (RStr <$> IndexNames t));
        ("shards", RInt 1); ("replicas", RInt 1)].
(** The answer for a single name; [parts[0]] panics when there is none. *)
Definition single_table (dbName : string) (parts : list string) (r : Request) : M Api Response :=
  match parts with
  | [] => panic
  | tableName :: _ =>
      if bool_decide (rq_Method r = MethodGet) then
        on_error (on_world (p ← GetTable dbName tableName; read_table p))
          (λ e, writeError StatusNotFound e)
          (λ t, writeJSON StatusOK (BValue (table_info t)))
      else if bool_decide (rq_Method r = MethodPost) then
        on_error (on_world (CreateTable dbName tableName)) (λ e, writeError StatusConflict e) (λ _, writeStatus StatusCreated "created")
      else if bool_decide (rq_Method r = MethodDelete) then
        on_error (on_world (DropTable dbName tableName)) (λ e, writeError StatusNotFound e) (λ _, writeStatus StatusOK "dropped")
      else methodNotAllowed
  end.
Definition handleTable : Handler := λ r user,
  let path := str_drop (String.length "/api/tables/") (URL_Path r) in
  if bool_decide (path = "") then writeError StatusBadRequest "table name required"
  else
    let parts := splitPath path in
    match parts with
    | [actualDB; tableName; subResource] =>
        if bool_decide (subResource = "docs") then
          on_error (on_world (p ← GetTable actualDB tableName; table_docs p))
            (λ e, writeError StatusNotFound e)
            (λ docs, writeJSON StatusOK (BValue (RArr docs)))
        else if bool_decide (subResource = "indexes") then
          on_error (on_world (p ← GetTable actualDB tableName; read_table p))
            (λ e, writeError StatusNotFound e)
            (λ t, writeJSON StatusOK (BValue (RArr (RStr <$> IndexNames t))))
        else single_table (db_or_test r) parts r
    | _ => single_table (db_or_test r) parts r
    end.

(** *** api.go: queries *)

Definition query_error (e : string) : M Api Response :=
  writeJSON StatusOK (BValue (RMap [("status", RStr "error"); ("result", RNil); ("error", RStr e)])).
(** The session of a request: the authorizer consults the store. *)
Definition query_context (user : option User) (defaultDB : string) (store : Store) : Context :=
  match is_plain_user user with
  | Some u =>
      WithSession Background defaultDB
        (Some (λ db read write create drop,
           if HasDatabaseAccess (ID u) db read write create drop store then None
           else Some ("access denied: no permission on database " +:+ quote db)))
  | None => WithSession Background defaultDB None
  end.
Definition reply_string (kvs : list (string * Reply)) (key : string) : string :=
  match list_find (λ e, e.1 = key) kvs with Some (_, (_, RStr s)) => s | _ => "" end.
(** A reference to a table is replaced by the documents of the table. *)
Definition resolve_result (responseData : Reply) : M World Reply :=
  match responseData with
  | RMap kvs =>
      if bool_decide (reply_string kvs "$reql_type$" = "TABLE") then
        let dbName := if bool_decide (reply_string kvs "db" = "") then "test" else reply_string kvs "db" in
        on_error (GetTable dbName (reply_string kvs "table"))
          (λ _, mret responseData)
          (λ p, docs ← table_docs p; mret (RArr docs))
      else mret responseData
  | _ => mret responseData
  end.
Definition run_query (ctx : Context) (queryArg : GoVal) : M World Reply :=
  result ← Evaluate ctx fuel queryArg;
  h ← get_heap;
  responseData ← lift (datumToInterface h value_fuel result);
  resolve_result responseData.
Definition handleQuery : Handler := λ r user,
  if bool_decide (rq_Method r ≠ MethodPost) then methodNotAllowed
  else
    on_error (lift (decode [("query", KAny); ("db", KString)] (rq_Body r)))
      (λ e, writeError StatusBadRequest e)
      (λ req,
        on_metrics RecordQuery;;
        let defaultDB := if bool_decide (f_string req "db" = "") then "widgettrace" else f_string req "db" in
        store ← get_store;
        let ctx := query_context user defaultDB store in
        let arg := f_any req "query" in
        on_error (lift (match arg with VString text => ParseReQL text | _ => Ok arg end))
          (λ e, query_error ("parse error: " +:+ e))
          (λ queryArg,
            on_error (on_world (run_query ctx queryArg))
              (λ e, query_error e)
              (λ responseData, writeJSON StatusOK (BValue (RMap [("status", RStr "success"); ("result", responseData)]))))).

(** *** api.go: the routes *)

Definition setupRoutes : list (string * (Request → M Api Response)) := [
  ("/api/health", handleHealth);
  ("/api/auth/login", handleLogin);
  ("/api/auth/me", authMiddleware handleMe);
  ("/api/users", authMiddleware (adminMiddleware handleUsers));
  ("/api/users/", authMiddleware handleUserRouter);
  ("/api/cluster/status", authMiddleware handleClusterStatus);
  ("/api/cluster/members", authMiddleware handleClusterMembers);
  ("/api/cluster/join", handleClusterJoin);
  ("/api/cluster/tokens", authMiddleware handleClusterTokens);
  ("/api/cluster/tokens/", authMiddleware handleClusterToken);
  ("/api/cluster/nodes", authMiddleware handleClusterNodes);
  ("/api/cluster/nodes/", authMiddleware handleClusterNode);
  ("/api/cluster/balance", authMiddleware handleClusterBalance);
  ("/api/cluster/transfers", authMiddleware handleClusterTransfers);
  ("/api/databases", authMiddleware handleDatabases);
  ("/api/databases/", authMiddleware handleDatabase);
  ("/api/tables", authMiddleware handleTables);
  ("/api/tables/", authMiddleware handleTable);
  ("/api/query", authMiddleware handleQuery);
  ("/api/server/info", authMiddleware handleServerInfo);
  ("/api/server/stats", authMiddleware handleServerStats);
  ("/api/logs", authMiddleware handleLogs);
  ("/api/metrics", authMiddleware handleMetrics)].

(** [http.ServeMux]: the segments of a pattern are compared with the unescaped
    segments of the path; a pattern that ends in a slash matches what is below it, and
    a pattern without is preferred. *)
Definition matches (segs : list string) (pattern : string) : bool :=
  let ps := Split "/" pattern in
  if ends_in_slash pattern then
    let front := take (length ps - 1) ps in bool_decide (take (length front) segs = front ∧ length front < length segs)
  else bool_decide (ps = segs).
Definition find_route (segs : list string) : option (string * (Request → M Api Response)) :=
  match list_find (λ e, negb (ends_in_slash e.1) && matches segs e.1 = true) setupRoutes with
  | Some (_, e) => Some e
  | None => match list_find (λ e, matches segs e.1 = true) setupRoutes with Some (_, e) => Some e | None => None end
  end.
Definition ServeHTTP (r : Request) : M Api Response :=
  let path := cleanPath (rq_EscapedPath r) in
  if bool_decide (path ≠ rq_EscapedPath r) && bool_decide (rq_Method r ≠ "CONNECT") then mret (RespMoved path)
  else
    match find_route (PathUnescape <$> Split "/" (rq_EscapedPath r)) with
    | Some (_, handler) => handler r
    | None => mret RespNoRoute
    end.
End api.
