(* ===== verification/HttpAccess.v ===== *)
(** * What requests may change (internal/api)

    Which users change what through the HTTP API: nobody without a token, only
    administrators what is administered, a user who may only read no document, except
    through the routes of tables, which ask for no permission.  The answers carry a
    status and an error in a fixed form; the log and the metrics are bounded. *)

From S2P Require Import Prelude Bytes Order Datum Parser Index Admin Evaluator Sessions GoStrings Scram Auth Protocol Cluster Removal Rpc HttpApi.
From Stdlib Require Import Ascii.

(** ** What a step leaves alone *)

(** The parts of a state that [f] reads are as before. *)
Definition same {S X} (f : S → X) : relation S := λ s s', f s' = f s.
#[export] Instance same_preorder {S X} (f : S → X) : PreOrder (same f).
Proof. split; [by intros s|]. intros a b c Hab Hbc. unfold same in *. congruence. Qed.
#[local] Hint Extern 0 (PreOrder _) => apply _ : respects.

Lemma on_error_run {S A B} (m : M S A) k (f : A → M S B) s :
  on_error m k f s = match m s with (Ok a, s') => f a s' | (Err e, s') => k e s' | (Panic, s') => (Panic, s') | (NoFuel, s') => (NoFuel, s') end.
Proof. unfold on_error, catch, mbind, M_mbind, M_bind, mret, M_mret. by destruct (m s) as [[]]. Qed.

Section rules.
Context {S : Type} (R : relation S) `{!PreOrder R}.
Lemma respects_on_error {A B} (m : M S A) k (f : A → M S B) :
  respects R m → (∀ e, respects R (k e)) → (∀ a, respects R (f a)) → respects R (on_error m k f).
Proof.
  intros Hm Hk Hf. unfold on_error. apply respects_bind; [done| |intros [a|e]; auto].
  apply respects_catch; [done| |intros e; by apply respects_ret]. apply respects_bind; [done|done|intros a; by apply respects_ret].
Qed.
Lemma respects_zoom {T A} (get : S → T) (set : T → S → S) (Q : relation T) (m : M T A) :
  (∀ s t, Q (get s) t → R s (set t s)) → respects Q m → respects R (zoom get set m).
Proof. intros Hset Hm s. unfold zoom. specialize (Hm (get s)). destruct (m (get s)) as [r t]. by apply Hset. Qed.
End rules.

(** A store that is read is not changed. *)
Lemma respects_fails {S A} (R : relation S) `{!PreOrder R} (m : M S A) : (∀ s, ∃ e, m s = (Err e, s)) → respects R m.
Proof. intros Hm s. destruct (Hm s) as [e ->]. done. Qed.

Section answers.
Context (R : relation Api) `{!PreOrder R}.
Lemma respects_writeJSON status body : respects R (writeJSON status body).
Proof. by intros s. Qed.
Lemma respects_writeError status msg : respects R (writeError status msg).
Proof. by intros s. Qed.
Lemma respects_writeStatus status msg : respects R (writeStatus status msg).
Proof. by intros s. Qed.
Lemma respects_not_allowed : respects R methodNotAllowed.
Proof. by intros s. Qed.
Lemma respects_get_store : respects R get_store.
Proof. by intros s. Qed.
(** An administrator passes, any other user is refused. *)
Lemma respects_require_admin user k : (∀ u, user = Some u → IsAdmin u = true → respects R k) → respects R (require_admin user k).
Proof.
  intros Hk s. unfold require_admin, on_error, RequireAdmin, RequireUser, lift, catch, mbind, outcome_mbind, outcome_bind, M_mbind, M_bind.
  destruct user as [u|]; [|done]. destruct (IsAdmin u) eqn:Hu; [|done]. cbn. by apply (Hk u).
Qed.
End answers.
#[export] Hint Resolve respects_writeJSON respects_writeError respects_writeStatus respects_not_allowed respects_get_store : respects.
Lemma respects_not_admin (R : relation Api) `{!PreOrder R} u k : IsAdmin u = false → respects R (require_admin (Some u) k).
Proof. intros Hu. apply respects_require_admin; [done|]. intros u' [= <-] Hu'. congruence. Qed.
#[export] Hint Resolve respects_not_admin : respects.

Ltac http_step :=
  lazymatch goal with
  | |- respects _ (on_error _ _ _) => apply respects_on_error; [try apply _| |intros ?|intros ?]
  | |- respects _ (let _ := _ in _) => cbv zeta
  | |- respects _ (match ?x with _ => _ end) => destruct x eqn:?
  | |- _ => respects_step
  end.
Ltac http_auto := repeat http_step.

Ltac handler_unfold := unfold handleMe, adminMiddleware, handleUsers, handleUserRouter, handleUserPermission, handleUserPermissions, handleUser, handleClusterStatus,
    handleClusterMembers, handleClusterTokens, handleClusterToken, handleClusterNodes, handleClusterNode, handleRemoveNode, handleNodeStatus,
    handleClusterBalance, handleClusterTransfers, handleDatabases, handleDatabase, database_size, insufficient, handleTables, handleTable,
    single_table, handleQuery, query_error, handleServerInfo, handleServerStats, handleLogs, handleMetrics.
Ltac handler_auto := handler_unfold; http_auto.

(** ** The middleware *)

Section middleware.
Context `{Crypto} `{AuthRuntime} `{JWT}.

(** Looking up the user of a token takes a turn and changes nothing else. *)
Definition next_auth (a : AuthState) : AuthState := mkAuth (a_store a) (a_files a) (S (a_turn a)).
Lemma GetUserFromToken_state secret token a : (GetUserFromToken secret token a).2 = next_auth a.
Proof.
  unfold GetUserFromToken, Auth.ValidateToken, turn, on_turn, zoom, mbind, M_mbind, M_bind, get_state, put_state, mret, M_mret, fail.
  destruct a as [st fs n]. cbn. unfold GetUser. destruct (jwt_ParseWithClaims _ _ _) as [c|e]; [|done]. cbn. by destruct (users st !! c_UserID c).
Qed.
Lemma GetUserFromToken_cases secret token a :
  match (GetUserFromToken secret token a).1 with
  | Ok u => ∃ id, GetUser id (a_store a) = Some u
  | Err _ => True | _ => False
  end.
Proof.
  unfold GetUserFromToken, Auth.ValidateToken, turn, on_turn, zoom, mbind, M_mbind, M_bind, get_state, put_state, mret, M_mret, fail.
  destruct a as [st fs n]. cbn. unfold GetUser. destruct (jwt_ParseWithClaims _ _ _) as [c|e]; [|done]. cbn. destruct (users st !! c_UserID c) as [u|] eqn:Hu; [|done].
  cbn. by exists (c_UserID c).
Qed.

(** The user that a request stands for. *)
Definition token_user (r : Request) (s : Api) : option User :=
  let token := extractTokenFromHeader r in
  if bool_decide (token = "") then None
  else match (GetUserFromToken (ap_secret s) token (ap_auth s)).1 with Ok u => Some u | _ => None end.
Definition authed (s : Api) : Api := set_ap_auth (next_auth (ap_auth s)) s.

Lemma authMiddleware_run next r s :
  match token_user r s with
  | Some u => authMiddleware next r s = next r (Some u) (authed s)
  | None => ∃ msg s', authMiddleware next r s = (Ok (RespJSON StatusUnauthorized (BError msg)), s') ∧ (s' = s ∨ s' = authed s)
  end.
Proof.
  unfold token_user, authMiddleware. cbv zeta. case_bool_decide; [by do 2 eexists; split; [reflexivity|left]|].
  set (token := extractTokenFromHeader r). pose proof (GetUserFromToken_state (ap_secret s) token (ap_auth s)) as Hs.
  pose proof (GetUserFromToken_cases (ap_secret s) token (ap_auth s)) as Hc.
  rewrite (bind_ok get_state _ s s s), on_error_run by done. unfold on_auth, zoom.
  destruct (GetUserFromToken (ap_secret s) token (ap_auth s)) as [[u|e| |] a]; cbn in Hs, Hc |- *; subst a; try done.
  do 2 eexists. split; [reflexivity|]. by right.
Qed.
End middleware.

(** ** Every route *)

Section routes.
Context `{Runtime} `{Crypto} `{AuthRuntime} `{JWT} `{ClusterRuntime} `{RemovalRuntime} `{RpcRuntime} `{HttpRuntime} (fuel : nat).

Definition segments_of (r : Request) : list string := PathUnescape <$> Split "/" (rq_EscapedPath r).
Lemma find_route_inv segs p h : find_route fuel segs = Some (p, h) → (p, h) ∈ setupRoutes fuel ∧ matches segs p = true.
Proof.
  unfold find_route. destruct (list_find _ _) as [[i e]|] eqn:Hf.
  - intros [= ->]. apply list_find_Some in Hf as (Hin & Hp & _). apply andb_prop in Hp as [_ Hp]. split; [by eapply list_elem_of_lookup_2|done].
  - destruct (list_find (λ e, matches segs e.1 = true) _) as [[i e]|] eqn:Hg; [|done]. intros [= ->].
    apply list_find_Some in Hg as (Hin & Hp & _). split; [by eapply list_elem_of_lookup_2|done].
Qed.
Lemma matches_exact segs p : ends_in_slash p = false → matches segs p = true → segs = Split "/" p.
Proof. unfold matches. intros ->. by intros ->%bool_decide_eq_true_1. Qed.
Lemma matches_below segs p front : ends_in_slash p = true → take (length (Split "/" p) - 1) (Split "/" p) = front →
  matches segs p = true → take (length front) segs = front.
Proof. unfold matches. cbv zeta. intros -> ->. intros Hm%bool_decide_eq_true_1. by destruct Hm. Qed.
(** A request is answered by the multiplexer, or by the handler of a route that its
    path matches. *)
Lemma ServeHTTP_cases r s (Q : outcome Response * Api → Prop) :
  (∀ path, Q (Ok (RespMoved path), s)) → Q (Ok RespNoRoute, s) →
  Forall (λ e, matches (segments_of r) e.1 = true → Q (e.2 r s)) (setupRoutes fuel) → Q (ServeHTTP fuel r s).
Proof.
  intros Hmoved Hnone Hall. unfold ServeHTTP. cbv zeta. destruct (_ && _); [apply Hmoved|].
  destruct (find_route _ _) as [[p h]|] eqn:Hf; [|apply Hnone]. apply find_route_inv in Hf as [Hin Hm].
  rewrite Forall_forall in Hall. exact (Hall _ Hin Hm).
Qed.

Section step.
Context (R : relation Api) `{!PreOrder R}.
Lemma authed_step next r s : (∀ s, R s (authed s)) →
  (∀ u, token_user r s = Some u → R (authed s) (next r (Some u) (authed s)).2) → R s (authMiddleware next r s).2.
Proof.
  intros Ha Hn. pose proof (authMiddleware_run next r s) as Hr. destruct (token_user r s) as [u|].
  - rewrite Hr. etransitivity; [apply Ha|by apply Hn].
  - destruct Hr as (msg & s' & -> & [-> | ->]); [done|apply Ha].
Qed.
End step.

(** ** Administration

    The users and permissions with their file, the tokens, the members, the removals
    and the transfers. *)

Definition system_part (y : System) :=
  (mb_tm (sy_members y), mb_members (sy_members y), sy_operations y, sy_removals y, sy_tasks y, sy_transfers y, sy_workers y).
Definition auth_part (a : AuthState) := (a_store a, a_files a).
Definition admin_part (s : Api) := (auth_part (ap_auth s), system_part (ap_system s)).
Abbreviation no_admin := (respects (same admin_part)).

Lemma world_no_admin {A} (m : M World A) : no_admin (on_world m).
Proof. intros s. unfold on_world, zoom. by destruct (m (ap_world s)). Qed.
Lemma metrics_no_admin {A} (m : M MetricsTracker A) : no_admin (on_metrics m).
Proof. intros s. unfold on_metrics, zoom. by destruct (m (ap_metrics s)). Qed.
Lemma auth_no_admin {A} (m : M AuthState A) : respects (same auth_part) m → no_admin (on_auth m).
Proof. apply respects_zoom. unfold same, admin_part. cbn. intros s t ->. done. Qed.
Lemma system_no_admin {A} (m : M System A) : respects (same system_part) m → no_admin (on_system m).
Proof. apply respects_zoom. unfold same, admin_part. cbn. intros s t ->. done. Qed.
Lemma cluster_no_admin {A} c (m : M Managed A) : no_admin (on_cluster_of c m).
Proof. intros s. unfold on_cluster_of. by destruct (m c). Qed.
Lemma log_no_admin level msg : no_admin (RecordLog level msg).
Proof. apply metrics_no_admin. Qed.
Hint Resolve world_no_admin metrics_no_admin auth_no_admin system_no_admin cluster_no_admin log_no_admin : respects.

Lemma members_read {A} (m : M Membership A) : respects (same (λ s, (mb_tm s, mb_members s))) m → respects (same system_part) (on_members m).
Proof. apply respects_zoom. unfold same, system_part. cbn. intros s t [= -> ->]. done. Qed.
Lemma turn_read : respects (same (λ s, (mb_tm s, mb_members s))) next_turn.
Proof. by intros s. Qed.
Lemma GetMembers_read : respects (same (λ s, (mb_tm s, mb_members s))) Cluster.GetMembers.
Proof. unfold Cluster.GetMembers. apply respects_bind; [apply _|apply turn_read|]. intros t. by intros s. Qed.
Lemma Login_read secret name pw : respects (same auth_part) (Login secret name pw).
Proof.
  intros a. unfold Login. rewrite (bind_ok get_state _ a a a) by done. destruct (GetUserByUsername _ _) as [u|]; [|done].
  destruct (CheckPassword u pw); [|done]. unfold mbind, M_mbind, M_bind, wrap_err, on_turn, zoom.
  by destruct (Auth.GenerateToken secret u (a_turn a)) as [[] ?].
Qed.
Hint Resolve members_read GetMembers_read turn_read Login_read : respects.

Lemma uptime_no_admin : no_admin uptime.
Proof. unfold uptime. http_auto. Qed.
Lemma memory_no_admin : no_admin memory_mb.
Proof. unfold memory_mb. http_auto. Qed.
Lemma connections_no_admin : no_admin getConnectionCount.
Proof. unfold getConnectionCount. http_auto. Qed.
Hint Resolve uptime_no_admin memory_no_admin connections_no_admin : respects.

Lemma ListTransfers_read : respects (same system_part) ListTransfers.
Proof. unfold ListTransfers. http_auto. Qed.
Lemma Balance_read : respects (same system_part) GetClusterBalance.
Proof. unfold GetClusterBalance. http_auto. Qed.
Lemma member_no_admin id : no_admin (on_membership (GetMember id)).
Proof. by intros s. Qed.
Lemma members_no_admin : no_admin (on_membership Cluster.GetMembers).
Proof. unfold on_membership. http_auto. Qed.
Lemma removal_status_read id : respects (same system_part) (GetRemovalStatus id).
Proof. unfold GetRemovalStatus. http_auto. Qed.
Hint Resolve ListTransfers_read Balance_read member_no_admin members_no_admin removal_status_read : respects.

Lemma login_no_admin r : no_admin (handleLogin r).
Proof. unfold handleLogin. http_auto. Qed.

(** A request to join comes to the member list with a token, a name and an address. *)
Lemma join_run r s :
  (handleClusterJoin r s).2 = s ∨
  ∃ req, jr_Token req ≠ "" ∧ jr_NodeID req ≠ "" ∧ rq_Method r = MethodPost ∧
    (handleClusterJoin r s).2 = set_ap_system (on_members (HandleJoinRequest req) (ap_system s)).2 s.
Proof.
  unfold handleClusterJoin. case_bool_decide as Hm; [by left|]. rewrite on_error_run. unfold lift.
  destruct (decode _ _) as [req|e| |]; try by left. cbv zeta. case_bool_decide as Hreq; [by left|]. right. rewrite on_error_run.
  match goal with |- context [HandleJoinRequest ?q] => exists q end. cbn [jr_Token jr_NodeID].
  split; [naive_solver|]. split; [naive_solver|]. split; [done|]. unfold on_membership, on_system.
  generalize (on_members (HandleJoinRequest (mkJoin (f_string req "token") (f_string req "node_id") (f_string req "address")
    (or_port (f_int req "cluster_port") 29015) (or_port (f_int req "http_port") 8080) (or_port (f_int req "driver_port") 28015)))).
  intros m. unfold zoom. by destruct (m (ap_system s)) as [[] y].
Qed.
(** C30: only administrators administer: a request whose token does not stand for an
    administrator, or that has none, changes no user, no permission, no file of theirs,
    no token, member, removal or transfer; only a request to join, which has a token of
    the cluster in place of a user's, changes the tokens and members, and does so as
    [HandleJoinRequest] does. *)
Theorem only_admins_administer r s :
  (∀ u, token_user r s = Some u → IsAdmin u = false) →
  let s' := (ServeHTTP fuel r s).2 in
  admin_part s' = admin_part s ∨
  (segments_of r = [""; "api"; "cluster"; "join"] ∧ rq_Method r = MethodPost ∧ auth_part (ap_auth s') = auth_part (ap_auth s) ∧
   ∃ req, jr_NodeID req ≠ "" ∧ ap_system s' = (on_members (HandleJoinRequest req) (ap_system s)).2).
Proof.
  intros Hu. cbv zeta.
  apply (ServeHTTP_cases r s (λ rs, admin_part rs.2 = admin_part s ∨
    (segments_of r = [""; "api"; "cluster"; "join"] ∧ rq_Method r = MethodPost ∧ auth_part (ap_auth rs.2) = auth_part (ap_auth s) ∧
     ∃ req, jr_NodeID req ≠ "" ∧ ap_system rs.2 = (on_members (HandleJoinRequest req) (ap_system s)).2))); [by left..|].
  assert (∀ h : Handler, (∀ u, IsAdmin u = false → respects (same admin_part) (h r (Some u))) → admin_part (authMiddleware h r s).2 = admin_part s) as Hh.
  { intros h Hh. apply (authed_step (same admin_part)); [done|]. intros u Hr. apply Hh. by apply Hu. }
  unfold setupRoutes. repeat (apply Forall_cons_2; [intros Hm|]); [..|apply Forall_nil_2]; cbn [fst snd] in *.
  all: try (lazymatch goal with |- context [authMiddleware] => left; apply Hh; intros u Huser; handler_auto end).
  - left. unfold handleHealth. apply (respects_bind (same admin_part)); [apply uptime_no_admin|]. intros t. by intros s1.
  - left. apply login_no_admin.
  - destruct (join_run r s) as [-> | (req & _ & Hid & Hpost & ->)]; [by left|]. right. split; [|split; [done|split; [done|by exists req]]].
    exact (matches_exact _ "/api/cluster/join" eq_refl Hm).
Qed.

(** Redirected, not found, or refused; at most a turn of the authentication passes. *)
Definition turned_away (s : Api) (rs : outcome Response * Api) : Prop :=
  (rs.2 = s ∨ rs.2 = authed s) ∧
  ((∃ path, rs.1 = Ok (RespMoved path)) ∨ rs.1 = Ok RespNoRoute ∨ ∃ msg, rs.1 = Ok (RespJSON StatusUnauthorized (BError msg))).
Definition public_routes : list (list string) := [[""; "api"; "health"]; [""; "api"; "auth"; "login"]; [""; "api"; "cluster"; "join"]].

(** C31: a request without a valid token gets nothing done: on every route but those of
    health, login and join it is redirected, not found or refused with status 401, and
    the state of every component is as before. *)
Theorem anonymous_is_refused r s : token_user r s = None → segments_of r ∉ public_routes → turned_away s (ServeHTTP fuel r s).
Proof.
  intros Hu Hpublic.
  assert (∀ h, turned_away s (authMiddleware h r s)) as Hh.
  { intros h. pose proof (authMiddleware_run h r s) as Hr. rewrite Hu in Hr. destruct Hr as (msg & s' & -> & Hs).
    split; [done|]. right. right. by exists msg. }
  apply ServeHTTP_cases.
  - intros path. split; [by left|]. left. by exists path.
  - split; [by left|]. right. by left.
  - unfold setupRoutes. repeat (apply Forall_cons_2; [intros Hm|]); [..|apply Forall_nil_2]; cbn [fst snd] in *.
    all: try (lazymatch goal with |- context [authMiddleware] => apply Hh end).
    all: destruct Hpublic; lazymatch type of Hm with matches _ ?p = true => rewrite (matches_exact _ p eq_refl Hm) end; set_solver.
Qed.
End routes.

(** ** Readers

    The documents, while the store of users and permissions stays as it is. *)

Section readers.
Context `{RuntimeLaws} `{Crypto} `{AuthRuntime} `{JWT} `{ClusterRuntime} `{RemovalRuntime} `{RpcRuntime} `{HttpRuntime} (fuel : nat).
Context (st : Store) (D : string → string → gmap string Datum).

Definition reads (s : Api) : Prop := a_store (ap_auth s) = st ∧ same_docs D (ap_world s).
Abbreviation reading := (respects (keeping reads)).

Lemma reading_world {A} (m : M World A) : keeps (same_docs D) m → reading (on_world m).
Proof. intros Hm s [Hs Hw]. specialize (Hm _ Hw). unfold on_world, zoom. by destruct (m (ap_world s)). Qed.
Lemma reading_metrics {A} (m : M MetricsTracker A) : reading (on_metrics m).
Proof. intros s Hs. unfold on_metrics, zoom. by destruct (m (ap_metrics s)). Qed.
Lemma reading_system {A} (m : M System A) : reading (on_system m).
Proof. intros s Hs. unfold on_system, zoom. by destruct (m (ap_system s)). Qed.
Lemma reading_cluster {A} c (m : M Managed A) : reading (on_cluster_of c m).
Proof. intros s Hs. unfold on_cluster_of. by destruct (m c). Qed.
Lemma reading_auth {A} (m : M AuthState A) : respects (same auth_part) m → reading (on_auth m).
Proof.
  intros Hm s [Hs Hw]. specialize (Hm (ap_auth s)). unfold same, auth_part in Hm. unfold on_auth, zoom.
  destruct (m (ap_auth s)) as [r a]. cbn in Hm |- *. injection Hm as Ha _. split; [cbn; by rewrite Ha|done].
Qed.
Lemma reading_store {A} (f : Store → M Api A) : reading (f st) → reading (get_store ≫= f).
Proof. intros Hf s Hs. unfold get_store. rewrite (bind_ok _ _ s (a_store (ap_auth s)) s) by done. rewrite (proj1 Hs). by apply Hf. Qed.

(** What the handlers run on the store of documents. *)
Lemma reading_converted d : keeps (same_docs D) (converted d).
Proof. unfold converted. keeps_auto. Qed.
Hint Resolve reading_converted : keeps.
Lemma reading_table_docs p : keeps (same_docs D) (table_docs p).
Proof. unfold table_docs, AllDocs. keeps_auto. Qed.
Lemma reading_GetTable db tn : keeps (same_docs D) (GetTable db tn).
Proof. unfold GetTable. keeps_auto. Qed.
Hint Resolve reading_table_docs reading_GetTable : keeps.
Lemma reading_resolve r : keeps (same_docs D) (resolve_result r).
Proof. unfold resolve_result, on_error. destruct r; keeps_auto. Qed.
Hint Resolve reading_resolve : keeps.
Lemma reading_run_query ctx q : read_only ctx → keeps (same_docs D) (run_query fuel ctx q).
Proof.
  intros Hctx. unfold run_query. apply keeps_bind; [|intros ?; keeps_auto]. by apply reader_Evaluate.
Qed.
Lemma reading_size db : keeps (same_docs D) (DatabaseSizeBytes db).
Proof. unfold DatabaseSizeBytes, entry_size. keeps_auto. Qed.
Lemma reading_tables_of db : keeps (same_docs D) (tables_of db).
Proof. unfold tables_of. keeps_auto. Qed.
Lemma reading_ListTables db : keeps (same_docs D) (ListTables db).
Proof. unfold ListTables. keeps_auto. Qed.
Hint Resolve reading_size reading_tables_of reading_ListTables : keeps.

(** A user who is no administrator and whose permissions are at most to read. *)
Definition reader (u : User) (st : Store) : Prop := IsAdmin u = false ∧ may_only_read (ID u) st.
Lemma reading_query u db q : reader u st → reading (on_world (run_query fuel (query_context (Some u) db st) q)).
Proof.
  intros [Hu Hr]. apply reading_world, reading_run_query. unfold query_context, is_plain_user. rewrite Hu.
  eexists. split; [reflexivity|]. cbv beta. intros db' read write create drop Hw. rewrite Hr by done. by eexists.
Qed.
Hint Resolve reading_world reading_metrics reading_system reading_cluster reading_auth reading_query : respects.
Hint Resolve Login_read : respects.
Ltac reading_step :=
  lazymatch goal with
  | |- respects _ (get_store ≫= _) => apply reading_store
  | |- respects _ (on_world _) => solve [eauto with respects keeps]
  | |- _ => http_step
  end.
Ltac reading_auto := repeat reading_step.
Lemma reading_uptime : reading uptime.
Proof. unfold uptime. reading_auto. Qed.
Lemma reading_memory : reading memory_mb.
Proof. unfold memory_mb. reading_auto. Qed.
Lemma reading_connections : reading getConnectionCount.
Proof. unfold getConnectionCount. reading_auto. Qed.
Hint Resolve reading_uptime reading_memory reading_connections : respects.

Lemma reading_database u r : reader u st → reading (handleDatabase r (Some u)).
Proof.
  intros Hr. unfold handleDatabase, database_size, insufficient, RecordLog. cbv zeta.
  unfold is_plain_user. rewrite (proj1 Hr). repeat case_bool_decide. all: reading_auto.
  all: exfalso; match goal with Hd : negb (HasDatabaseAccess _ _ _ _ _ _ _) = false |- _ => rewrite (proj2 Hr _ false false false true eq_refl) in Hd; discriminate end.
Qed.
Hint Resolve reading_database : respects.

Lemma ServeHTTP_reads r s : (∀ u, token_user r s = Some u → reader u st) → take 3 (segments_of r) ≠ [""; "api"; "tables"] →
  reads s → reads (ServeHTTP fuel r s).2.
Proof.
  intros Hu Htables Hs. assert (∀ h : Handler, (∀ u, reader u st → reading (h r (Some u))) → reads (authMiddleware h r s).2) as Hh.
  { intros h Hh. refine (authed_step (keeping reads) h r s _ _ Hs); [intros s1 Hs1; exact Hs1|]. intros u Hr. apply (Hh u (Hu u Hr)). }
  apply (ServeHTTP_cases fuel r s (λ rs, reads rs.2)); [done..|].
  unfold setupRoutes. repeat (apply Forall_cons_2; [intros Hm|]); [..|apply Forall_nil_2]; cbn [fst snd] in *.
  all: try (lazymatch goal with
            | |- context [handleDatabase] => apply Hh; intros u Huser; by apply reading_database
            | |- context [handleTables] => idtac
            | |- context [handleTable] => idtac
            | |- context [authMiddleware] => apply Hh; intros u Huser; pose proof (proj1 Huser) as Hplain; handler_unfold; reading_auto end).
  - assert (reading (handleHealth r)) as Hr by (unfold handleHealth; reading_auto). by apply Hr.
  - assert (reading (handleLogin r)) as Hr by (unfold handleLogin, RecordLog; reading_auto). by apply Hr.
  - assert (reading (handleClusterJoin r)) as Hr by (unfold handleClusterJoin, on_membership; reading_auto). by apply Hr.
  - congruence.
  - destruct Htables. by rewrite (matches_exact _ "/api/tables" eq_refl Hm).
  - destruct Htables. exact (matches_below _ "/api/tables/" _ eq_refl eq_refl Hm).
Qed.

End readers.

(** A user who may only read adds, removes and replaces no document: whatever the
    request, on every route but those of tables, and whatever the query in it, every
    table maps the same ids to the same objects as before.  The fields of an object can
    change: an UPDATE of a document that was fetched is not authorized. *)
Theorem reader_keeps_tables `{RuntimeLaws} `{Crypto} `{AuthRuntime} `{JWT} `{ClusterRuntime} `{RemovalRuntime} `{RpcRuntime} `{HttpRuntime} fuel r s :
  (∀ u, token_user r s = Some u → reader u (a_store (ap_auth s))) → take 3 (segments_of r) ≠ [""; "api"; "tables"] →
  world_ok (ap_world s) → w_flat (ap_world s) = ∅ →
  ∀ db tn, docs (ap_world (ServeHTTP fuel r s).2) db tn = docs (ap_world s) db tn.
Proof.
  intros Hu Htables Hw Hf db tn.
  assert (reads (a_store (ap_auth s)) (docs (ap_world s)) s) as Hs by done.
  destruct (ServeHTTP_reads fuel _ _ r s Hu Htables Hs) as (_ & _ & _ & Hd). apply Hd.
Qed.

(** ** Paths *)

Lemma PathUnescape_plain s : free_of "%" s = true → PathUnescape s = s.
Proof.
  remember (String.length s) as n eqn:Hn. revert s Hn. induction (lt_wf n) as [n _ IH]. intros s -> Hs.
  destruct s as [|c s']; [done|]. cbn [free_of] in Hs. apply andb_prop in Hs as [Hc Hs].
  assert (PathUnescape (String c s') = String c (PathUnescape s')) as ->.
  { destruct s' as [|a [|b s'']]; try done. cbn [PathUnescape]. case_bool_decide; [by subst|done]. }
  f_equal. apply (IH (String.length s')); [cbn; lia|done|done].
Qed.

(** A segment of a path that stands for itself. *)
Definition plain_segment (seg : string) : Prop :=
  seg ≠ "" ∧ seg ≠ "." ∧ seg ≠ ".." ∧ free_of "/" seg = true ∧ free_of "%" seg = true.
Definition path_of (segs : list string) : string := "/" +:+ String.concat "/" segs.

Lemma concat_cons2 (a b : string) l : String.concat "/" (a :: b :: l) = a +:+ String "/" (String.concat "/" (b :: l)).
Proof. done. Qed.
Lemma Split_concat segs : segs ≠ [] → Forall (λ s, free_of "/" s = true) segs → Split "/" (String.concat "/" segs) = segs.
Proof.
  induction segs as [|a [|b l] IH]; [done| |]; intros _ Hs; apply Forall_cons in Hs as [Ha Hs].
  - by apply Split_free.
  - rewrite concat_cons2, Split_app by done. by rewrite IH.
Qed.
Lemma Split_path segs : segs ≠ [] → Forall plain_segment segs → Split "/" (path_of segs) = "" :: segs.
Proof.
  intros Hne Hs. unfold path_of. change ("/" +:+ ?s) with ("" +:+ String "/" s). rewrite Split_app by done.
  rewrite Split_concat; [done..|]. eapply Forall_impl; [exact Hs|]. by intros seg (_ & _ & _ & ? & _).
Qed.
Lemma free_concat segs : Forall plain_segment segs → free_of "%" (String.concat "/" segs) = true.
Proof.
  induction segs as [|a [|b l] IH]; [done| |]; intros Hs; apply Forall_cons in Hs as [Ha Hs].
  - apply Ha.
  - rewrite concat_cons2, free_of_app. cbn [free_of]. rewrite (proj2 (proj2 (proj2 (proj2 Ha)))), IH by done. done.
Qed.
Lemma clean_plain segs out : Forall plain_segment segs → clean_segments segs out = reverse out ++ segs.
Proof.
  revert out. induction segs as [|a l IH]; intros out Hs; [by rewrite app_nil_r|]. apply Forall_cons in Hs as [Ha Hs].
  destruct Ha as (H1 & H2 & H3 & _). cbn [clean_segments]. rewrite !bool_decide_eq_false_2 by done. cbn.
  rewrite IH by done. by rewrite reverse_cons, <-app_assoc.
Qed.
Lemma ends_in_slash_cons c s : ends_in_slash (String c s) = if bool_decide (s = "") then bool_decide (c = "/"%char) else ends_in_slash s.
Proof.
  unfold ends_in_slash. cbn [String.list_ascii_of_string]. rewrite reverse_cons. destruct s as [|d s]; [done|].
  rewrite bool_decide_eq_false_2 by done. cbn [String.list_ascii_of_string]. rewrite reverse_cons.
  destruct (reverse (String.list_ascii_of_string s)) as [|e l]; done.
Qed.
Lemma ends_in_slash_app a c s : ends_in_slash (a +:+ String c s) = ends_in_slash (String c s).
Proof.
  induction a as [|d a IH]; [done|]. rewrite sapp_cons, ends_in_slash_cons, bool_decide_eq_false_2; [done|].
  destruct a; done.
Qed.
Lemma free_no_slash s : free_of "/" s = true → ends_in_slash s = false.
Proof.
  induction s as [|c s IH]; [done|]. cbn [free_of]. intros [Hc Hs]%andb_prop. rewrite ends_in_slash_cons.
  destruct (bool_decide (c = "/"%char)); [done|]. destruct (bool_decide (s = "")); [done|by apply IH].
Qed.
Lemma concat_no_slash segs : Forall plain_segment segs → ends_in_slash (String.concat "/" segs) = false.
Proof.
  induction segs as [|a [|b l] IH]; [done| |]; intros Hs; apply Forall_cons in Hs as [Ha Hs].
  - apply free_no_slash. apply Ha.
  - rewrite concat_cons2, ends_in_slash_app, ends_in_slash_cons. case_bool_decide as Hb; [|by apply IH].
    exfalso. apply Forall_cons in Hs as [(Hne & _) _]. destruct l as [|d l]; [by cbn in Hb|]. rewrite concat_cons2 in Hb. by destruct b.
Qed.
Lemma path_Clean_path segs : segs ≠ [] → Forall plain_segment segs → path_Clean (path_of segs) = path_of segs.
Proof.
  intros Hne Hs. unfold path_Clean. rewrite (Split_path segs Hne Hs). cbn [clean_segments].
  rewrite (bool_decide_eq_true_2 ("" = "")) by done. cbn [orb]. by rewrite clean_plain by done.
Qed.
Lemma cleanPath_path segs : segs ≠ [] → Forall plain_segment segs → cleanPath (path_of segs) = path_of segs.
Proof.
  intros Hne Hs. unfold cleanPath. rewrite bool_decide_eq_false_2 by done.
  assert (HasPrefix (path_of segs) "/" = true) as ->.
  { unfold HasPrefix, path_of. rewrite sapp_cons, sapp_nil. cbn [String.prefix]. by destruct (String.concat "/" segs). }
  cbv zeta. rewrite path_Clean_path by done.
  assert (ends_in_slash (path_of segs) = false) as ->; [|done]. unfold path_of. change ("/" +:+ ?s) with (String "/" s).
  rewrite ends_in_slash_cons. rewrite bool_decide_eq_false_2; [by apply concat_no_slash|]. intros Hc.
  destruct segs as [|a [|b l]]; [done| |]; apply Forall_cons in Hs as [(Ha & _) _]; [by cbn in Hc|]. rewrite concat_cons2 in Hc. by destruct a.
Qed.

(** The path of a request is a list of segments that need no cleaning. *)
Definition at_path (r : Request) (segs : list string) : Prop := rq_EscapedPath r = path_of segs ∧ segs ≠ [] ∧ Forall plain_segment segs.
Lemma at_path_url r segs : at_path r segs → URL_Path r = path_of segs.
Proof.
  intros (Hr & _ & Hs). unfold URL_Path. rewrite Hr. apply PathUnescape_plain. unfold path_of. rewrite free_of_app. by rewrite free_concat.
Qed.
Lemma at_path_segments r segs : at_path r segs → segments_of r = "" :: segs.
Proof.
  intros (Hr & Hne & Hs). unfold segments_of. rewrite Hr, Split_path by done. cbn. f_equal.
  clear Hr Hne. induction Hs as [|a l Ha Hs IH]; [done|]. cbn. rewrite IH. by rewrite PathUnescape_plain by apply Ha.
Qed.
(** [splitString] splits as [strings.Split] does. *)
Lemma split_loop_Split sep rest : ∀ pre cur result,
  split_loop (pre +:+ cur +:+ rest) sep rest (String.length pre + String.length cur) (String.length pre) result =
  result ++ match Split sep rest with seg :: segs => (cur +:+ seg) :: segs | [] => [cur] end.
Proof.
  assert (∀ pre cur rest, slice (pre +:+ cur +:+ rest) (String.length pre) (String.length pre + String.length cur) = cur) as Hslice.
  { intros pre cur rest'. unfold slice. rewrite str_drop_app. replace (_ - _) with (String.length cur) by lia. apply str_take_app. }
  induction rest as [|c rest IH]; intros pre cur result; cbn [split_loop Split].
  - rewrite Hslice. by rewrite sapp_nil_r.
  - case_bool_decide as Hc.
    + rewrite Hslice. specialize (IH (pre +:+ cur +:+ String c "") "" (result ++ [cur])).
      rewrite sapp_nil in IH. rewrite !sapp_assoc in IH. cbn in IH.
      rewrite !slength_app in IH. cbn [String.length] in IH. rewrite Nat.add_0_r in IH.
      replace (S (String.length pre + String.length cur)) with (String.length pre + (String.length cur + 1)) by lia.
      rewrite sapp_cons, sapp_nil in IH. rewrite IH, <-app_assoc. rewrite sapp_nil_r. cbn. do 2 f_equal.
      pose proof (Split_not_nil sep rest). by destruct (Split sep rest).
    + specialize (IH pre (cur +:+ String c "") result). rewrite !sapp_assoc, sapp_cons, sapp_nil in IH.
      rewrite slength_app in IH. cbn [String.length] in IH.
      replace (S (String.length pre + String.length cur)) with (String.length pre + (String.length cur + 1)) by lia. rewrite IH.
      destruct (Split sep rest) as [|seg segs]; [done|]. by rewrite sapp_assoc, sapp_cons, sapp_nil.
Qed.
Lemma splitString_Split s sep : splitString s sep = Split sep s.
Proof.
  unfold splitString. pose proof (split_loop_Split sep s "" "" []) as Hl. rewrite !sapp_nil in Hl. cbn in Hl. rewrite Hl.
  pose proof (Split_not_nil sep s) as Hne. by destruct (Split sep s).
Qed.
Lemma splitPath_plain segs : segs ≠ [] → Forall plain_segment segs → splitPath (String.concat "/" segs) = segs.
Proof.
  intros Hne Hs. unfold splitPath. rewrite splitString_Split, Split_concat; [|done|eapply Forall_impl; [exact Hs|by intros seg (_ & _ & _ & ? & _)]].
  apply filter_all. eapply Forall_impl; [exact Hs|by intros seg (? & _)].
Qed.

(** ** The routes of tables and of permissions *)

Section holes.
Context `{RuntimeLaws} `{Crypto} `{AuthRuntime} `{JWT} `{ClusterRuntime} `{RemovalRuntime} `{RpcRuntime} `{HttpRuntime} (fuel : nat).

Lemma list_find_at {A} (P : A → Prop) `{∀ x, Decision (P x)} l i x :
  l !! i = Some x → P x → Forall (λ y, ¬ P y) (take i l) → list_find P l = Some (i, x).
Proof.
  intros Hi Hx Hall. apply list_find_Some. split; [done|]. split; [done|]. intros j y Hj Hlt.
  rewrite Forall_lookup in Hall. apply (Hall j y). by rewrite lookup_take_lt.
Qed.
(** A path below the pattern at place [i] of the list, when no earlier pattern
    matches it and no pattern without a slash at its end does. *)
Lemma find_route_below segs i p h : setupRoutes fuel !! i = Some (p, h) → matches segs p = true →
  Forall (λ e, ends_in_slash e.1 = false → segs ≠ Split "/" e.1) (setupRoutes fuel) →
  Forall (λ e, matches segs e.1 = true → False) (take i (setupRoutes fuel)) → find_route fuel segs = Some (p, h).
Proof.
  intros Hi Hm Hexact Hbefore. unfold find_route. 
  assert (list_find (λ e : string * (Request → M Api Response), negb (ends_in_slash e.1) && matches segs e.1 = true) (setupRoutes fuel) = None) as ->.
  { apply list_find_None. eapply Forall_impl; [exact Hexact|]. intros e He [Hs Hme]%andb_prop. apply negb_true_iff in Hs.
    by apply (He Hs), matches_exact. }
  by rewrite (list_find_at (λ e : string * (Request → M Api Response), matches segs e.1 = true) (setupRoutes fuel) i (p, h) Hi Hm Hbefore).
Qed.

Lemma below_matches segs p front : ends_in_slash p = true → take (length (Split "/" p) - 1) (Split "/" p) = front →
  take (length front) segs = front → length front < length segs → matches segs p = true.
Proof. unfold matches. cbv zeta. intros -> ->. intros. by apply bool_decide_eq_true_2. Qed.
(** A request at a path below [front] comes to the handler of the pattern. *)
Ltac no_match := repeat (apply Forall_cons_2; [cbn [fst]; intros Hx; lazymatch type of Hx with matches ?segs ?p = true =>
  first [apply (matches_exact segs p eq_refl) in Hx | apply (matches_below segs p _ eq_refl eq_refl) in Hx] end;
  vm_compute in Hx; discriminate Hx|]); apply Forall_nil_2.
Ltac no_exact := repeat (apply Forall_cons_2; [cbn [fst]; intros Hx; vm_compute in Hx |- *; first [discriminate Hx|intros [=]; done]|]); apply Forall_nil_2.
Lemma ServeHTTP_at r segs p h : at_path r segs → find_route fuel ("" :: segs) = Some (p, h) → ∀ s, ServeHTTP fuel r s = h r s.
Proof.
  intros Hr Hf s. pose proof (at_path_segments _ _ Hr) as Hsegs. destruct Hr as (Hr & Hne & Hs). unfold ServeHTTP. cbv zeta.
  fold (segments_of r). assert (cleanPath (rq_EscapedPath r) = rq_EscapedPath r) as -> by (by rewrite Hr, cleanPath_path).
  rewrite bool_decide_eq_false_2 by tauto. cbn [andb]. by rewrite Hsegs, Hf.
Qed.
Lemma route_tables r a rest : at_path r ("api" :: "tables" :: a :: rest) → ∀ s, ServeHTTP fuel r s = authMiddleware handleTable r s.
Proof.
  intros Hr. apply (ServeHTTP_at _ _ "/api/tables/" _ Hr). apply (find_route_below _ 17); [done| | |].
  - apply (below_matches _ "/api/tables/" _ eq_refl eq_refl); vm_compute; [done|lia].
  - unfold setupRoutes. no_exact.
  - unfold setupRoutes. cbn [take]. no_match.
Qed.
Lemma route_users r a rest : at_path r ("api" :: "users" :: a :: rest) → ∀ s, ServeHTTP fuel r s = authMiddleware handleUserRouter r s.
Proof.
  intros Hr. apply (ServeHTTP_at _ _ "/api/users/" _ Hr). apply (find_route_below _ 4); [done| | |].
  - apply (below_matches _ "/api/users/" _ eq_refl eq_refl); vm_compute; [done|lia].
  - unfold setupRoutes. no_exact.
  - unfold setupRoutes. cbn [take]. no_match.
Qed.

Lemma route_databases r a rest : at_path r ("api" :: "databases" :: a :: rest) → ∀ s, ServeHTTP fuel r s = authMiddleware handleDatabase r s.
Proof.
  intros Hr. apply (ServeHTTP_at _ _ "/api/databases/" _ Hr). apply (find_route_below _ 15); [done| | |].
  - apply (below_matches _ "/api/databases/" _ eq_refl eq_refl); vm_compute; [done|lia].
  - unfold setupRoutes. no_exact.
  - unfold setupRoutes. cbn [take]. no_match.
Qed.

Lemma path_below p a rest : path_of ("api" :: p :: a :: rest) = ("/api/" +:+ p +:+ "/") +:+ String.concat "/" (a :: rest).
Proof. unfold path_of. rewrite !concat_cons2. rewrite !sapp_assoc. reflexivity. Qed.
Lemma user_segments_at r a rest : at_path r ("api" :: "users" :: a :: rest) → user_segments r = a :: rest.
Proof.
  intros Hr. unfold user_segments. rewrite (at_path_url _ _ Hr), path_below. change ("/api/" +:+ "users" +:+ "/") with "/api/users/".
  rewrite TrimPrefix_app. destruct Hr as (_ & _ & Hs). apply Split_concat; [done|]. do 2 apply Forall_cons in Hs as [_ Hs].
  eapply Forall_impl; [exact Hs|]. by intros seg (_ & _ & _ & ? & _).
Qed.
Lemma table_path_at r a rest : at_path r ("api" :: "tables" :: a :: rest) →
  let path := str_drop (String.length "/api/tables/") (URL_Path r) in path ≠ "" ∧ splitPath path = a :: rest.
Proof.
  intros Hr. cbv zeta. rewrite (at_path_url _ _ Hr), path_below. change ("/api/" +:+ "tables" +:+ "/") with "/api/tables/".
  rewrite str_drop_app. destruct Hr as (_ & _ & Hs). do 2 apply Forall_cons in Hs as [_ Hs]. split.
  - apply Forall_cons in Hs as [(Ha & _) _]. destruct rest as [|b rest]; [done|]. rewrite concat_cons2. by destruct a.
  - by apply splitPath_plain.
Qed.

(** A permission cannot be revoked: a request at /api/users/{id}/permissions/{database},
    whatever its method and whoever sends it, is refused with status 400, 401 or 403
    and changes no user and no permission. *)
Theorem permission_is_not_revoked r s id db : at_path r ["api"; "users"; id; "permissions"; db] →
  let '(resp, s') := ServeHTTP fuel r s in
  admin_part s' = admin_part s ∧ ∃ status msg, resp = Ok (RespJSON status (BError msg)) ∧ status ∈ [StatusBadRequest; StatusUnauthorized; StatusForbidden].
Proof.
  intros Hr. rewrite (route_users r id _ Hr). pose proof (authMiddleware_run handleUserRouter r s) as Hrun.
  destruct (token_user r s) as [u|].
  2:{ destruct Hrun as (msg & s' & -> & Hs). split; [by destruct Hs as [-> | ->]|]. exists StatusUnauthorized, msg. split; [done|]. set_solver. }
  rewrite Hrun. unfold handleUserRouter, handleUserPermission, handleUserPermissions. rewrite (user_segments_at r id _ Hr). cbv zeta. cbn [lookup list_lookup].
  assert (db ≠ "") as Hdb. { destruct Hr as (_ & _ & Hs). do 4 apply Forall_cons in Hs as [_ Hs]. by apply Forall_cons in Hs as [(? & _) _]. }
  rewrite (bool_decide_eq_true_2 (Some "permissions" = Some "permissions")) by done. cbn [default]. rewrite (bool_decide_eq_true_2 (db ≠ "")) by done.
  unfold require_admin. rewrite on_error_run. unfold RequireAdmin, RequireUser, lift. cbn. destruct (IsAdmin u).
  - cbn. split; [done|]. do 2 eexists. split; [done|]. set_solver.
  - cbn. split; [done|]. do 2 eexists. split; [done|]. set_solver.
Qed.

(** The documents of a table as they are answered. *)
Lemma converted_docs l w : Forall (λ d, ∃ x, datumToInterface (w_heap w) value_fuel d = Ok x) l →
  ∃ rs, mapM converted l w = (Ok rs, w) ∧ Forall2 (λ d o, ∃ x, o = Some x ∧ datumToInterface (w_heap w) value_fuel d = Ok x) l rs.
Proof.
  induction l as [|d l IH]; intros Hl; [by exists []|]. apply Forall_cons in Hl as [[x Hx] Hl]. destruct (IH Hl) as (rs & Hrs & Hall).
  exists (Some x :: rs). split; [|constructor; [by exists x|done]]. eapply mapM_cons_ok; [|exact Hrs].
  unfold converted, get_heap, catch, lift, mbind, M_mbind, M_bind, mret, M_mret, get_state. by rewrite Hx.
Qed.
Lemma table_docs_run p t w : w_tables w !! p = Some t →
  (∀ id d, t_Data t !! id = Some d → ∃ x, datumToInterface (w_heap w) value_fuel d = Ok x) →
  ∃ l w', table_docs p w = (Ok l, w') ∧ w_dbs w' = w_dbs w ∧ w_tables w' = w_tables w ∧
    ∀ id d, t_Data t !! id = Some d → ∃ x, datumToInterface (w_heap w) value_fuel d = Ok x ∧ x ∈ l.
Proof.
  intros Hp Hd. unfold table_docs, AllDocs. set (w1 := set_clock (S (w_clock w)) w). set (entries := range_order (w_clock w) (t_Data t)).
  assert (∀ id d, t_Data t !! id = Some d ↔ (id, d) ∈ entries) as Hin.
  { intros id d. unfold entries. rewrite range_order_perm, elem_of_map_to_list. done. }
  rewrite (bind_ok _ _ w entries.*2 w1).
  2:{ unfold read_table, range_data, mbind, M_mbind, M_bind, mret, M_mret. by rewrite Hp. }
  destruct (converted_docs entries.*2 w1) as (rs & Hrs & Hall).
  { apply Forall_forall. intros d Hdin. apply list_elem_of_fmap in Hdin as ([id d'] & -> & He). by apply (Hd id), Hin. }
  rewrite (bind_ok _ _ _ _ _ Hrs). exists (omap id rs), w1. split; [done|]. split; [done|]. split; [done|]. intros id' d Hid.
  destruct (Hd _ _ Hid) as [x Hx]. exists x. split; [done|]. apply list_elem_of_omap. exists (Some x). split; [|done].
  assert (d ∈ entries.*2) as Hdin by (apply list_elem_of_fmap; exists (id', d); split; [done|by apply Hin]).
  apply list_elem_of_lookup in Hdin as [i Hi]. destruct (Forall2_lookup_l _ _ _ _ _ Hall Hi) as (o & Ho & y & -> & Hy).
  change (w_heap w1) with (w_heap w) in Hy. rewrite Hx in Hy. injection Hy as <-. by eapply list_elem_of_lookup_2.
Qed.

(** The routes of tables ask for no permission: whoever has a valid token, whatever
    the permissions of the user, is given every document of any table, and removes any
    table; the requests succeed with status 200. *)
Theorem tables_ask_no_permission r s u : token_user r s = Some u →
  (∀ db tn p t, at_path r ["api"; "tables"; db; tn; "docs"] → table_at (ap_world s) db tn = Some p → w_tables (ap_world s) !! p = Some t →
    (∀ id d, t_Data t !! id = Some d → ∃ x, datumToInterface (w_heap (ap_world s)) value_fuel d = Ok x) →
    ∃ l s', ServeHTTP fuel r s = (Ok (RespJSON StatusOK (BValue (RArr l))), s') ∧
      ∀ id d, t_Data t !! id = Some d → ∃ x, datumToInterface (w_heap (ap_world s)) value_fuel d = Ok x ∧ x ∈ l) ∧
  (∀ tn p, at_path r ["api"; "tables"; tn] → rq_Method r = MethodDelete → table_at (ap_world s) (db_or_test r) tn = Some p →
    ∃ body s', ServeHTTP fuel r s = (Ok (RespJSON StatusOK body), s') ∧ table_at (ap_world s') (db_or_test r) tn = None).
Proof.
  intros Hu. pose proof (authMiddleware_run handleTable r s) as Hrun. rewrite Hu in Hrun. split.
  - intros db tn p t Hr Hp Ht Hd. rewrite (route_tables r db _ Hr), Hrun. destruct (table_path_at r db _ Hr) as [Hne Hsplit].
    unfold handleTable. cbv zeta. rewrite bool_decide_eq_false_2 by done. rewrite Hsplit. rewrite (bool_decide_eq_true_2 ("docs" = "docs")) by done.
    rewrite on_error_run. unfold on_world, zoom. cbn [authed set_ap_auth ap_world].
    assert (GetTable db tn (ap_world s) = (Ok p, ap_world s)) as Hget.
    { unfold GetTable, table_at, mbind, M_mbind, M_bind, get_state, option_bind in *. destruct (w_dbs (ap_world s) !! db) as [d|]; [|done]. cbn in Hp. by rewrite Hp. }
    rewrite (bind_ok _ _ _ _ _ Hget). destruct (table_docs_run p t (ap_world s) Ht Hd) as (l & w' & Hl & _ & _ & Hin). rewrite Hl. by eexists l, _.
  - intros tn p Hr Hm Hp. rewrite (route_tables r tn _ Hr), Hrun. destruct (table_path_at r tn _ Hr) as [Hne Hsplit].
    unfold handleTable. cbv zeta. rewrite bool_decide_eq_false_2 by done. rewrite Hsplit. unfold single_table. rewrite Hm.
    rewrite !(bool_decide_eq_false_2 (MethodDelete = _)) by done. rewrite bool_decide_eq_true_2 by done. rewrite on_error_run. unfold on_world, zoom.
    cbn [authed set_ap_auth ap_world]. unfold DropTable, table_at, mbind, M_mbind, M_bind, get_state, option_bind in *.
    destruct (w_dbs (ap_world s) !! db_or_test r) as [d|]; [|done]. cbn in Hp. rewrite Hp. do 2 eexists. split; [reflexivity|]. cbn.
    rewrite lookup_insert_eq. cbn. by rewrite lookup_delete_eq.
Qed.
End holes.

(** ** Answers *)

Create HintDb yields.

(** No error is returned, and a value that is returned satisfies [P]. *)
Definition yields {S A} (P : A → Prop) (m : M S A) : Prop :=
  ∀ s, match (m s).1 with Ok a => P a | Err _ => False | _ => True end.
Abbreviation silent := (yields (λ _, True)).

Section yields.
Context {S : Type}.
Lemma yields_ret {A} (P : A → Prop) (x : A) : P x → yields (S := S) P (mret x).
Proof. by intros Hx s. Qed.
Lemma yields_panic {A} (P : A → Prop) : yields (S := S) P panic.
Proof. by intros s. Qed.
Lemma yields_bind {A B} (P : B → Prop) (m : M S A) (f : A → M S B) : silent m → (∀ x, yields P (f x)) → yields P (m ≫= f).
Proof.
  intros Hm Hf s. unfold mbind, M_mbind, M_bind. specialize (Hm s). destruct (m s) as [[x|e| |] s1]; [apply Hf|done..].
Qed.
Lemma yields_on_error {A B} (P : B → Prop) (m : M S A) k (f : A → M S B) :
  (∀ e, yields P (k e)) → (∀ a, yields P (f a)) → yields P (on_error m k f).
Proof. intros Hk Hf s. rewrite on_error_run. destruct (m s) as [[x|e| |] s1]; [apply Hf|apply Hk|done..]. Qed.
Lemma yields_zoom {T A} (P : A → Prop) (get : S → T) (set : T → S → S) (m : M T A) : yields P m → yields P (zoom get set m).
Proof. intros Hm s. unfold zoom. specialize (Hm (get s)). by destruct (m (get s)). Qed.
End yields.
(** The answer of a handler: a success with a value, an error with its message, or a
    refused join. *)
Definition well_formed (resp : Response) : Prop :=
  match resp with
  | RespJSON status (BError _) => status ∈ [400; 401; 403; 404; 405; 409; 500]%Z
  | RespJSON status (BJoin j) => status = (if js_Success j then 200 else 400)%Z
  | RespJSON status _ => status ∈ [200; 201; 202]%Z
  | RespMoved _ | RespNoRoute => True
  end.

Section answer_forms.
Context `{Runtime} `{Crypto} `{AuthRuntime} `{JWT} `{ClusterRuntime} `{RemovalRuntime} `{RpcRuntime} `{HttpRuntime} (fuel : nat).
Abbreviation answers := (yields well_formed).

Lemma answers_require_admin user k : answers k → answers (require_admin user k).
Proof. intros Hk. apply yields_on_error; [|by intros _]. intros e s. cbn. set_solver. Qed.
Lemma silent_store : silent get_store.
Proof. by intros s. Qed.
Lemma silent_metrics_now : silent (on_metrics mt_now).
Proof. by intros s. Qed.
Lemma silent_log level msg : silent (RecordLog level msg).
Proof. by intros s. Qed.
Lemma silent_query : silent (on_metrics RecordQuery).
Proof. by intros s. Qed.
Lemma silent_uptime : silent uptime.
Proof. by intros s. Qed.
Lemma silent_memory : silent memory_mb.
Proof. by intros s. Qed.
Lemma silent_connections : silent getConnectionCount.
Proof. by intros s. Qed.
Lemma silent_turn : silent (on_auth (on_turn turn)).
Proof. by intros s. Qed.
Lemma silent_tokens : silent (on_membership ListTokens).
Proof. by intros s. Qed.
Lemma silent_members : silent (on_membership Cluster.GetMembers).
Proof. by intros s. Qed.
Lemma silent_member id : silent (on_membership (GetMember id)).
Proof. by intros s. Qed.
Lemma silent_balance : silent (on_system GetClusterBalance).
Proof.
  apply yields_zoom, yields_bind; [by intros s|]. intros members. destruct (foldl add_member (0%Z, 0%Z, 0%Z) members) as [[??]?]. by intros s.
Qed.
Lemma silent_transfers : silent (on_system ListTransfers).
Proof. by intros s. Qed.
Lemma silent_state c : silent (on_cluster_of c GetClusterState).
Proof. by intros s. Qed.
Lemma silent_rpc_members c : silent (on_cluster_of c Rpc.GetMembers).
Proof. by intros s. Qed.
Lemma silent_tables db : silent (on_world (tables_of db)).
Proof. by intros s. Qed.
Lemma silent_get {S} : silent (get_state (S := S)).
Proof. by intros s. Qed.
Hint Resolve silent_store silent_metrics_now silent_log silent_query silent_uptime silent_memory silent_connections silent_turn silent_tokens
  silent_members silent_member silent_balance silent_transfers silent_state silent_rpc_members silent_tables silent_get : yields.
Ltac answers_step :=
  lazymatch goal with
  | |- yields _ (on_error _ _ _) => apply yields_on_error; intros ?
  | |- yields _ (require_admin _ _) => apply answers_require_admin
  | |- yields _ (let _ := _ in _) => cbv zeta
  | |- yields _ (match ?x with _ => _ end) => destruct x eqn:?
  | |- yields _ panic => apply yields_panic
  | |- yields _ (writeJSON _ _) => apply yields_ret; cbn; first [reflexivity|set_solver]
  | |- yields _ (writeError _ _) => apply yields_ret; cbn; set_solver
  | |- yields _ (writeStatus _ _) => apply yields_ret; cbn; set_solver
  | |- yields _ methodNotAllowed => apply yields_ret; cbn; set_solver
  | |- yields _ (_ ≫= _) => apply yields_bind; [solve [eauto with yields]|intros ?]
  end.
Ltac answers_auto := repeat answers_step.
Lemma answers_authenticated (h : Handler) r : (∀ u, answers (h r u)) → answers (authMiddleware h r).
Proof. intros Hh. unfold authMiddleware. answers_auto. apply Hh. Qed.

(** C32: every answer has the form its status promises: an error status comes with an
    error message, any other with a value, and only a refused join answers 400 with the
    response of the join; no error of a component escapes a handler. *)
Theorem answers_are_well_formed r s :
  match (ServeHTTP fuel r s).1 with Ok resp => well_formed resp | Err _ => False | Panic | NoFuel => True end.
Proof.
  apply (ServeHTTP_cases fuel r s (λ rs, match rs.1 with Ok resp => well_formed resp | Err _ => False | Panic | NoFuel => True end)); [done..|].
  enough (Forall (λ e : string * (Request → M Api Response), answers (e.2 r)) (setupRoutes fuel)) as Hall.
  { eapply Forall_impl; [exact Hall|]. intros e He _. apply He. }
  unfold setupRoutes. repeat (apply Forall_cons_2; [cbn [snd]|]); [..|apply Forall_nil_2].
  all: try (lazymatch goal with |- answers (authMiddleware _ _) => apply answers_authenticated; intros u; handler_unfold end).
  all: unfold handleHealth, handleLogin, handleClusterJoin; answers_auto.
Qed.
End answer_forms.

(** ** The log and the metrics *)

Section metrics.
Context `{Crypto} `{HttpRuntime}.

Inductive metric_op := MLog (level message : string) | MQuery | MSample (protocolQueries : Z).
Definition metric_exec (op : metric_op) : M MetricsTracker unit :=
  match op with MLog level message => addLogEntry level message | MQuery => RecordQuery | MSample n => sample n end.
Definition metric_run (ops : list metric_op) (m : MetricsTracker) : MetricsTracker := foldl (λ m op, (metric_exec op m).2) m ops.
Definition logged (op : metric_op) : option (string * string) := match op with MLog level message => Some (level, message) | _ => None end.

(** The last [k] elements of a list. *)
Definition last_of {A} (k : nat) (l : list A) : list A := drop (length l - k) l.
Lemma last_of_length {A} k (l : list A) : length (last_of k l) = k `min` length l.
Proof. unfold last_of. rewrite length_drop. lia. Qed.
Lemma last_of_snoc {A} k (l : list A) x : last_of k (last_of k l ++ [x]) = last_of k (l ++ [x]).
Proof.
  unfold last_of. rewrite !length_app, !length_drop. cbn [length]. destruct (decide (length l ≤ k)) as [Hk|Hk].
  - replace (length l - k) with 0 by lia. cbn. by rewrite Nat.sub_0_r.
  - rewrite <-drop_app_le by lia. rewrite drop_drop. f_equal. lia.
Qed.
Lemma trim_last {A} k (l : list A) : (if bool_decide (k < length l) then drop (length l - k) l else l) = last_of k l.
Proof. unfold last_of. case_bool_decide; [done|]. by replace (length l - k) with 0 by lia. Qed.

(** An entry, but for its time: the id it is given when it is the [n]th. *)
Definition numbered (n : nat) (e : string * string) : string * (string * string) := (pretty (500 `min` n + 1), e).
Definition entry_of (e : LogEntry) : string * (string * string) := (lg_ID e, (lg_Level e, lg_Message e)).

Lemma imap_snoc {A B} (f : nat → A → B) l x : imap f (l ++ [x]) = imap f l ++ [f (length l) x].
Proof. rewrite imap_app. cbn. by rewrite Nat.add_0_r. Qed.
Lemma fmap_last_of {A B} (f : A → B) k l : f <$> last_of k l = last_of k (f <$> l).
Proof. unfold last_of. by rewrite fmap_drop, length_fmap. Qed.

Lemma metric_run_invariant t ops : let m := metric_run ops (NewMetrics t) in
  entry_of <$> mt_logEntries m = last_of 500 (imap numbered (omap logged ops)) ∧
  length (mt_metricsHistory m) ≤ 60 ∧ mt_maxLogEntries m = 500 ∧ mt_maxMetricsHistory m = 60.
Proof.
  cbv zeta. induction ops as [|op ops IH] using rev_ind; [split; [done|split; [cbn; lia|done]]|].
  unfold metric_run in *. rewrite foldl_app, omap_app. cbn [foldl]. set (m := foldl _ _ ops) in *. destruct IH as (He & Hh & Hm & Hn).
  destruct op as [level message| |n]; cbn [metric_exec omap list_omap logged].
  - unfold addLogEntry, mt_now, get_state, put_state, modify, mbind, M_mbind, M_bind, mret, M_mret. cbn [fst snd set_log mt_logEntries].
    split; [|done]. cbn. rewrite trim_last, fmap_last_of, fmap_app, imap_snoc, <-last_of_snoc, <-He, Hm. do 3 f_equal.
    unfold numbered, entry_of. cbn. do 3 f_equal. by rewrite <-(length_fmap entry_of (mt_logEntries m)), He, last_of_length, length_imap.
  - rewrite app_nil_r. done.
  - rewrite app_nil_r. unfold sample, mt_now, get_state, put_state, modify, mbind, M_mbind, M_bind, mret, M_mret. cbn.
    destruct (bool_decide (0 < mt_lastQueryTime m)%Z); cbn; (split; [done|]; split; [|done]); rewrite Hn; case_bool_decide as Hlen; cbn in *;
      rewrite ?length_drop, ?length_app in *; cbn in *; lia.
Qed.

(** C33: the log and the history of samples are bounded: after any operations the log
    holds the last 500 messages in the order in which they were recorded, and the
    history the last samples, at most 60; the id of an entry is its number up to 501,
    so that every message after the 500th has the id 501. *)
Theorem log_keeps_the_last t ops : let m := metric_run ops (NewMetrics t) in
  entry_of <$> mt_logEntries m = last_of 500 (imap numbered (omap logged ops)) ∧ length (mt_logEntries m) ≤ 500 ∧ length (mt_metricsHistory m) ≤ 60.
Proof.
  cbv zeta. destruct (metric_run_invariant t ops) as (He & Hh & _). split; [done|]. split; [|done].
  rewrite <-(length_fmap entry_of), He, last_of_length. lia.
Qed.
(** The last two entries of a log have the same id once more than 501 messages were
    recorded. *)
Lemma log_ids_repeat t ops : 502 ≤ length (omap logged ops) →
  let entries := mt_logEntries (metric_run ops (NewMetrics t)) in ∃ e e', entries !! 498 = Some e ∧ entries !! 499 = Some e' ∧ lg_ID e = lg_ID e'.
Proof.
  intros Hlen. cbv zeta. destruct (metric_run_invariant t ops) as (He & _). revert He. generalize (mt_logEntries (metric_run ops (NewMetrics t))). intros entries He.
  assert (∀ k, k = 498 ∨ k = 499 → ∃ e, entries !! k = Some e ∧ lg_ID e = pretty 501) as Hk.
  { intros k Hk. assert ((entry_of <$> entries) !! k = numbered (length (omap logged ops) - 500 + k) <$> omap logged ops !! (length (omap logged ops) - 500 + k)) as Hat.
    { rewrite He. unfold last_of. rewrite lookup_drop, list_lookup_imap, length_imap. done. }
    destruct (lookup_lt_is_Some_2 (omap logged ops) (length (omap logged ops) - 500 + k)) as [e Heq]; [lia|]. rewrite Heq, list_lookup_fmap in Hat.
    destruct (entries !! k) as [x|]; [|done]. exists x. split; [done|].
    apply (inj Some) in Hat. unfold numbered in Hat. replace (500 `min` (length (omap logged ops) - 500 + k) + 1) with 501 in Hat by lia.
    exact (f_equal fst Hat). }
  destruct (Hk 498) as (e & ? & ?); [by left|]. destruct (Hk 499) as (e' & ? & ?); [by right|]. exists e, e'. split; [done|]. split; [done|]. congruence.
Qed.
End metrics.

(** ** An example

    Ann, who may read, with her token, and a table with two documents. *)

#[local] Existing Instances example_crypto example_runtime example_jwt example_cluster_runtime example_removal_runtime example_rpc.
#[local] Instance example_http : HttpRuntime := {
  decode _ body := if bool_decide (body = []) then Err "EOF"
                   else Ok {["query" := FAny (of_json (jinsert "users" [("id", JStr "u3")]))]};
  ParseDuration _ := None;
  format_time layout t := pretty t;
  duration_text d := pretty d;
  mem_alloc _ := 0%Z;
}.
Definition ann_login : string * AuthState :=
  match Login "key" "ann" "pw" reader_auth with (Ok (token, _), a) => (token, a) | (_, a) => ("", a) end.
Definition example_api : Api := NewServer two_users None ann_login.2 "key" (new_system example_cluster) None 0.
Definition as_ann (method path : string) (body : list byte) : Request := mkReq method path "" ("Bearer " +:+ ann_login.1) body.
Definition ann_query : Request := as_ann "POST" "/api/query" [Byte.x00].
Lemma ann_is_token_user method path body : token_user (as_ann method path body) example_api = Some ann.
Proof. vm_compute. reflexivity. Qed.

Lemma only_admins_administer_witness : let r := as_ann "DELETE" "/api/users/xxxx" [] in
  let s' := (ServeHTTP 5 r example_api).2 in
  admin_part s' = admin_part example_api ∨
  (segments_of r = [""; "api"; "cluster"; "join"] ∧ rq_Method r = MethodPost ∧ auth_part (ap_auth s') = auth_part (ap_auth example_api) ∧
   ∃ req, jr_NodeID req ≠ "" ∧ ap_system s' = (on_members (HandleJoinRequest req) (ap_system example_api)).2).
Proof. apply only_admins_administer. intros u Hu. rewrite ann_is_token_user in Hu. injection Hu as <-. vm_compute. reflexivity. Defined.
Lemma anonymous_is_refused_witness : let r := mkReq "DELETE" "/api/users/xxxx" "" "Bearer x" [] in turned_away example_api (ServeHTTP 5 r example_api).
Proof. apply anonymous_is_refused; [vm_compute; reflexivity|]. refine (bool_decide_unpack _ _). vm_compute. exact I. Defined.
Lemma reader_keeps_tables_witness :
  (∃ e, (ServeHTTP 5 ann_query example_api).1 = Ok (RespJSON 200 (BValue (RMap [("status", RStr "error"); ("result", RNil); ("error", RStr e)])))) ∧
  ∀ db tn, docs (ap_world (ServeHTTP 5 ann_query example_api).2) db tn = docs (ap_world example_api) db tn.
Proof.
  split; [vm_compute; eexists; reflexivity|]. apply reader_keeps_tables.
  - intros u Hu. unfold ann_query in Hu. rewrite ann_is_token_user in Hu. injection Hu as <-. split; [vm_compute; reflexivity|]. exact reader_auth_reads.
  - vm_compute. discriminate.
  - exact two_users_ok.
  - vm_compute. reflexivity.
Defined.
Lemma plain_path segs : forallb (λ s, negb (bool_decide (s ∈ [""; "."; ".."])) && free_of "/" s && free_of "%" s) segs = true → Forall plain_segment segs.
Proof.
  intros Hs%forallb_Forall. eapply Forall_impl; [exact Hs|]. clear Hs. intros s Hs. cbn in Hs.
  apply andb_prop in Hs as [[Hne%negb_true_iff Hslash]%andb_prop Hpct]. apply bool_decide_eq_false_1 in Hne. unfold plain_segment. set_solver.
Qed.
Lemma permission_is_not_revoked_witness : let r := as_ann "DELETE" "/api/users/xxxx/permissions/test" [] in
  let '(resp, s') := ServeHTTP 5 r example_api in
  admin_part s' = admin_part example_api ∧ ∃ status msg, resp = Ok (RespJSON status (BError msg)) ∧ status ∈ [StatusBadRequest; StatusUnauthorized; StatusForbidden].
Proof. apply (permission_is_not_revoked 5 _ _ "xxxx" "test"). split; [reflexivity|]. split; [discriminate|]. apply plain_path. vm_compute. reflexivity. Defined.
Lemma tables_ask_no_permission_witness : let r := as_ann "DELETE" "/api/tables/users" [] in
  ∃ body s', ServeHTTP 5 r example_api = (Ok (RespJSON StatusOK body), s') ∧ table_at (ap_world s') "test" "users" = None.
Proof.
  set (r := as_ann "DELETE" "/api/tables/users" []).
  assert (at_path r ["api"; "tables"; "users"]) as Hr.
  { split; [reflexivity|]. split; [discriminate|]. apply plain_path. vm_compute. reflexivity. }
  destruct (tables_ask_no_permission 5 r example_api ann (ann_is_token_user _ _ _)) as [_ Hdrop].
  refine (Hdrop "users" (default 0 (table_at two_users "test" "users")) Hr eq_refl _). vm_compute. reflexivity.
Defined.
