(* ===== verification/Startup.v ===== *)
(** * Configuration and start-up (internal/config/config.go, cmd/gothinkdb/main.go)

    The settings come from defaults, a file, the environment and flags, in this order;
    [main] builds the components from them and exits when one cannot be had.  A run of
    [main] is a computation over the files, the turn and the store of users of [Auth]: an
    exit is an error, with the message that is logged.  After the last step the servers
    run ([HttpApi], [Protocol]); a failure to listen at the HTTP address is only logged.
    Waiting for a signal and shutting down are in [Lifecycle]. *)

From S2P Require Import Prelude Bytes Order Datum Parser Index Admin Evaluator Sessions GoStrings Scram Auth Protocol Cluster Removal Rpc HttpApi HttpAccess.

(** ** config.go *)

Record Config := mkConfig {
  DataDir : string; DriverAddress : string; HTTPAddress : string; ClusterAddress : string; JoinAddress : string;
  ServerName : string; ServerID : string; CacheSizeMB : Z; MaxConnections : Z; LogLevel : string; AuthKey : string;
  JWTSecret : string; ClusterSecret : string; AdminUser : string; AdminPassword : string; AllowDefaultAdmin : bool;
}.

(** The environment of the process: its variables, which files can be read, written or have
    their directories made, which addresses can be listened on; the texts of settings in
    [encoding/json].  Decoding gives the settings as far as the text sets them,
    and whether it is well formed. *)
Class ConfigRuntime := {
  Getenv : string → string;
  unreadable : string → bool;
  unwritable : string → option string;
  mkdir_fails : string → option string;
  filepath_Dir : string → string;
  listen_fails : string → option string;
  config_text : Config → list byte;
  config_decode : list byte → Config → Config * bool;
}.

Section config.
Context `{Crypto} `{AuthRuntime} `{ConfigRuntime}.

Definition DefaultConfig : M nat Config :=
  i ← turn;
  j ← turn;
  mret (mkConfig "/data/gothinkdb" ":28015" ":8080" ":29015" "" ("gothinkdb_" +:+ str_take 8 (uuid_New i)) (uuid_New j)
          1024 10000 "info" "" "" "" "" "" false).

Definition or_env (name current : string) : string := if bool_decide (Getenv name ≠ "") then Getenv name else current.
Definition applyEnvOverrides (c : Config) : Config :=
  mkConfig (or_env "GOTHINKDB_DATA_DIR" (DataDir c)) (DriverAddress c) (HTTPAddress c) (ClusterAddress c) (JoinAddress c)
    (or_env "GOTHINKDB_SERVER_NAME" (ServerName c)) (ServerID c) (CacheSizeMB c) (MaxConnections c) (LogLevel c) (AuthKey c)
    (or_env "GOTHINKDB_JWT_SECRET" (JWTSecret c)) (or_env "GOTHINKDB_CLUSTER_SECRET" (ClusterSecret c))
    (or_env "GOTHINKDB_ADMIN_USER" (AdminUser c)) (or_env "GOTHINKDB_ADMIN_PASSWORD" (AdminPassword c))
    (let v := Getenv "GOTHINKDB_ALLOW_DEFAULT_ADMIN" in if bool_decide (v = "1") || bool_decide (v = "true") then true else AllowDefaultAdmin c).

(** The file that is read: the given one, else the first of two places that exists. *)
Definition config_file (configFile : string) (c : Config) (files : gmap string (list byte)) : string :=
  if bool_decide (configFile ≠ "") then configFile
  else
    match list_find (λ p, is_Some (files !! p)) ["/etc/gothinkdb/config.json"; filepath_Join (DataDir c) "config.json"] with
    | Some (_, p) => p
    | None => ""
    end.
Definition Load (configFile : string) (files : gmap string (list byte)) : M nat Config :=
  cfg ← DefaultConfig;
  let file := config_file configFile cfg files in
  if bool_decide (file = "") then mret (applyEnvOverrides cfg)
  else
    match files !! file with
    | Some data =>
        if unreadable file then mret cfg
        else
          let '(cfg, valid) := config_decode data cfg in
          mret (if valid : bool then applyEnvOverrides cfg else cfg)
    | None => mret cfg
    end.

Definition Save (configFile : string) (c : Config) : M (gmap string (list byte)) unit :=
  match mkdir_fails (filepath_Dir configFile) with
  | Some e => fail e
  | None =>
      match unwritable configFile with
      | Some e => fail e
      | None => modify (<[configFile := config_text c]>)
      end
  end.

(** ** main.go *)

Record Flags := mkFlags {
  fl_config : string; fl_data : string; fl_driver : string; fl_http : string; fl_cluster : string; fl_join : string; fl_name : string;
}.
(** What the flags are when they are not given. *)
Definition default_flags : Flags := mkFlags "" "/data/gothinkdb" ":28015" ":8080" ":29015" "" "".
Definition or_flag (flag current : string) : string := if bool_decide (flag ≠ "") then flag else current.
Definition apply_flags (f : Flags) (c : Config) : Config :=
  mkConfig (or_flag (fl_data f) (DataDir c)) (or_flag (fl_driver f) (DriverAddress c)) (or_flag (fl_http f) (HTTPAddress c))
    (or_flag (fl_cluster f) (ClusterAddress c)) (or_flag (fl_join f) (JoinAddress c)) (or_flag (fl_name f) (ServerName c))
    (ServerID c) (CacheSizeMB c) (MaxConnections c) (LogLevel c) (AuthKey c) (JWTSecret c) (ClusterSecret c)
    (AdminUser c) (AdminPassword c) (AllowDefaultAdmin c).

(** The variable of internal/auth/jwt.go before it is set. *)
Definition default_secret : string := "gothinkdb-secret-key-change-in-production".
Definition required (name extra : string) : string :=
  name +:+ " is required in production (set GOTHINKDB_ALLOW_DEFAULT_ADMIN=1 only for local development)" +:+ extra.

Definition jwt_secret (c : Config) : M AuthState string :=
  if bool_decide (JWTSecret c ≠ "") then mret (SetJWTSecret (JWTSecret c) default_secret)
  else if negb (AllowDefaultAdmin c) then fail (required "GOTHINKDB_JWT_SECRET" "")
  else mret default_secret.
Definition cluster_secret (c : Config) : M AuthState string :=
  if bool_decide (ClusterSecret c = "") then
    if negb (AllowDefaultAdmin c) then fail (required "GOTHINKDB_CLUSTER_SECRET" "") else mret "gothinkdb-cluster-secret"
  else mret (ClusterSecret c).
Definition admin_credentials (c : Config) : M AuthState (string * string) :=
  if bool_decide (AdminUser c = "") || bool_decide (AdminPassword c = "") then
    if negb (AllowDefaultAdmin c) then fail "GOTHINKDB_ADMIN_USER and GOTHINKDB_ADMIN_PASSWORD are required in production (set GOTHINKDB_ALLOW_DEFAULT_ADMIN=1 to bootstrap admin/admin for local development)"
    else mret ("admin", "admin")
  else mret (AdminUser c, AdminPassword c).
Definition NewClusterManagerWrapper (clusterID secret : string) : System :=
  new_system (mkMem (NewTokenManager clusterID (bytes_of_string secret)) ∅ 0).

(** What runs at the end: the settings, the secret that signs tokens, the HTTP API with
    the evaluator and the managers.  The protocol server works on the same store of users. *)
Record Running := mkRunning { rn_config : Config; rn_api : Api }.
Definition exits {A} (msg : string) (m : M AuthState A) : M AuthState A := wrap_err msg m.
Definition settings (f : Flags) : M AuthState Config :=
  a ← get_state;
  cfg ← on_turn (Load (fl_config f) (a_files a));
  mret (apply_flags f cfg).
Definition main `{Runtime} `{JWT} `{ClusterRuntime} `{RemovalRuntime} `{RpcRuntime} `{HttpRuntime} (f : Flags) : M AuthState Running :=
  cfg ← settings f;
  match mkdir_fails (DataDir cfg) with
  | Some e => fail ("failed to create data directory: " +:+ e)
  | None =>
      cluster ← on_turn (NewClusterManager (ServerName cfg));
      exits "failed to initialize persistent auth store" (NewPersistentStore (DataDir cfg));;
      secret ← jwt_secret cfg;
      clusterSecret ← cluster_secret cfg;
      let clusterManager := NewClusterManagerWrapper (cm_clusterID cluster) clusterSecret in
      '(adminUser, adminPassword) ← admin_credentials cfg;
      exits "failed to bootstrap admin user" (EnsureAdmin adminUser adminPassword);;
      match listen_fails (DriverAddress cfg) with
      | Some e => fail ("failed to start protocol server: " +:+ e)
      | None =>
          a ← get_state;
          mret (mkRunning cfg (NewServer NewEvaluator (Some (mkManaged cluster 0)) a secret clusterManager (Some (0, 0)%Z) 0))
      end
  end.
End config.

(** The pages of the dashboard: a file that is embedded is left to [http.FileServer], any
    other path gets the index. *)
Definition spaHandler (embedded : gmap string string) (fileServer : string → Z * string) (URL_Path : string) : Z * string :=
  let path := if bool_decide (URL_Path = "/") then "/index.html" else URL_Path in
  match embedded !! TrimPrefix path "/" with
  | None =>
      match embedded !! "index.html" with
      | Some indexFile => (StatusOK, indexFile)
      | None => (StatusInternalServerError, "index.html not found")
      end
  | Some _ => fileServer URL_Path
  end.

(** ** What a run of [main] guarantees *)

Section guarded.
Context `{Crypto} `{AuthRuntime} `{ConfigRuntime}.
Implicit Types (c : Config) (a : AuthState).

(** A secret that is not set ends the program, unless defaults are allowed. *)
Definition secrets_set c : Prop :=
  AllowDefaultAdmin c = true ∨ (JWTSecret c ≠ "" ∧ ClusterSecret c ≠ "" ∧ AdminUser c ≠ "" ∧ AdminPassword c ≠ "").
Definition or_default (s d : string) : string := if bool_decide (s = "") then d else s.
Definition admin_of c : string * string :=
  if bool_decide (AdminUser c = "") || bool_decide (AdminPassword c = "") then ("admin", "admin") else (AdminUser c, AdminPassword c).

Lemma jwt_secret_inv c a s a' : jwt_secret c a = (Ok s, a') →
  a' = a ∧ s = or_default (JWTSecret c) default_secret ∧ (AllowDefaultAdmin c = true ∨ JWTSecret c ≠ "").
Proof.
  unfold jwt_secret, SetJWTSecret, or_default. repeat case_bool_decide; destruct (AllowDefaultAdmin c); intros [=]; subst; tauto.
Qed.
Lemma cluster_secret_inv c a s a' : cluster_secret c a = (Ok s, a') →
  a' = a ∧ s = or_default (ClusterSecret c) "gothinkdb-cluster-secret" ∧ (AllowDefaultAdmin c = true ∨ ClusterSecret c ≠ "").
Proof.
  unfold cluster_secret, or_default. case_bool_decide; destruct (AllowDefaultAdmin c); intros [=]; subst; tauto.
Qed.
Lemma admin_credentials_inv c a p a' : admin_credentials c a = (Ok p, a') →
  a' = a ∧ p = admin_of c ∧ (AllowDefaultAdmin c = true ∨ (AdminUser c ≠ "" ∧ AdminPassword c ≠ "")).
Proof.
  unfold admin_credentials, admin_of. repeat case_bool_decide; cbn; destruct (AllowDefaultAdmin c); intros [=]; subst; tauto.
Qed.
Lemma on_turn_inv {A} (m : M nat A) a x a' : on_turn m a = (Ok x, a') →
  m (a_turn a) = (Ok x, a_turn a') ∧ a_store a' = a_store a ∧ a_files a' = a_files a.
Proof. unfold on_turn, zoom. destruct (m (a_turn a)) as [r n] eqn:Hm. by intros [= -> <-]. Qed.

(** The start of the store: the users that are loaded, then the first administrator
    unless its name is known. *)
Definition bootstraps c a a' : Prop :=
  ∃ a1 n, NewPersistentStore (DataDir c) (mkAuth (a_store a) (a_files a) n) = (Ok (), a1) ∧
    (a' = a1 ∧ is_Some (usersByName (a_store a1) !! (admin_of c).1) ∨
     usersByName (a_store a1) !! (admin_of c).1 = None ∧ ∃ u, CreateUser (admin_of c).1 (admin_of c).2 RoleAdmin a1 = (Ok u, a')).

Lemma EnsureAdmin_inv name pw a r a' : EnsureAdmin name pw a = (Ok r, a') →
  a' = a ∧ is_Some (usersByName (a_store a) !! name) ∨
  usersByName (a_store a) !! name = None ∧ ∃ u, CreateUser name pw RoleAdmin a = (Ok u, a').
Proof.
  unfold EnsureAdmin. rewrite (bind_ok get_state _ _ _ _ eq_refl). destruct (usersByName (a_store a) !! name) as [id|].
  - intros [= _ <-]. left. eauto.
  - intros (u & a1 & Hu & [= _ <-])%bind_inv_ok. right. eauto.
Qed.

Context `{Runtime} `{JWT} `{ClusterRuntime} `{RemovalRuntime} `{RpcRuntime} `{HttpRuntime}.

Lemma settings_inv f a cfg a' : settings f a = (Ok cfg, a') → ∃ c0,
  cfg = apply_flags f c0 ∧ Load (fl_config f) (a_files a) (a_turn a) = (Ok c0, a_turn a') ∧ a_store a' = a_store a ∧ a_files a' = a_files a.
Proof.
  unfold settings. rewrite (bind_ok get_state _ _ _ _ eq_refl). intros (c0 & a1 & Hl & [= <- <-])%bind_inv_ok.
  exists c0. split; [done|]. by apply on_turn_inv.
Qed.

Lemma main_inv f a run a' : main f a = (Ok run, a') →
  let c := rn_config run in
  (∃ a0, settings f a = (Ok c, a0)) ∧ mkdir_fails (DataDir c) = None ∧ listen_fails (DriverAddress c) = None ∧
  secrets_set c ∧ bootstraps c a a' ∧
  ∃ cluster,
    rn_api run = NewServer NewEvaluator (Some (mkManaged cluster 0)) a' (or_default (JWTSecret c) default_secret)
      (NewClusterManagerWrapper (cm_clusterID cluster) (or_default (ClusterSecret c) "gothinkdb-cluster-secret")) (Some (0, 0)%Z) 0.
Proof.
  unfold main. intros (cfg & a0 & Hcfg & Hm)%bind_inv_ok. destruct (settings_inv _ _ _ _ Hcfg) as (_ & _ & _ & Hstore & Hfiles).
  destruct (mkdir_fails (DataDir cfg)) eqn:Hmk; [done|].
  apply bind_inv_ok in Hm as (cl & a1 & [_ [Hs1 Hf1]]%on_turn_inv & Hm).
  apply bind_inv_ok in Hm as ([] & a2 & Hload%wrap_err_inv & Hm).
  apply bind_inv_ok in Hm as (s & a3 & (-> & -> & Hj)%jwt_secret_inv & Hm).
  apply bind_inv_ok in Hm as (s & a4 & (-> & -> & Hc)%cluster_secret_inv & Hm).
  apply bind_inv_ok in Hm as (p & a5 & (-> & -> & Ha)%admin_credentials_inv & Hm).
  destruct (admin_of cfg) as [admin pw] eqn:Hp.
  apply bind_inv_ok in Hm as (u & a6 & Hu%wrap_err_inv%EnsureAdmin_inv & Hm).
  destruct (listen_fails (DriverAddress cfg)) eqn:Hl; [done|].
  rewrite (bind_ok get_state _ _ _ _ eq_refl) in Hm. injection Hm as <- <-. cbn [rn_config rn_api].
  split; [by exists a0|]. split; [done|]. split; [done|]. split; [unfold secrets_set; clear -Hj Hc Ha; tauto|]. split; [|eauto].
  exists a2, (a_turn a1). rewrite Hp. split; [|exact Hu]. rewrite <- Hstore, <- Hfiles, <- Hs1, <- Hf1. by destruct a1.
Qed.
End guarded.

(** C38: no server runs on secrets that nobody set: when [main] reaches its last step then
    the secret of tokens, the secret of the cluster and the first administrator were
    given, unless the defaults were allowed.  The API signs and checks tokens with that
    secret, and so does the token manager; a known administrator is left as the
    file has it, and otherwise the given one is the only change. *)
Theorem startup_is_guarded `{Crypto} `{AuthRuntime} `{ConfigRuntime} `{Runtime} `{JWT} `{ClusterRuntime} `{RemovalRuntime} `{RpcRuntime} `{HttpRuntime}
  f a run a' :
  main f a = (Ok run, a') →
  let c := rn_config run in let api := rn_api run in
  (AllowDefaultAdmin c = false → JWTSecret c ≠ "" ∧ ClusterSecret c ≠ "" ∧ AdminUser c ≠ "" ∧ AdminPassword c ≠ "") ∧
  (JWTSecret c ≠ "" → ap_secret api = JWTSecret c) ∧
  (ClusterSecret c ≠ "" → tm_secret (mb_tm (sy_members (ap_system api))) = bytes_of_string (ClusterSecret c)) ∧
  ap_auth api = a' ∧ bootstraps c a a'.
Proof.
  intros Hm c api. destruct (main_inv f a run a' Hm) as (_ & _ & _ & Hset & Hboot & cl & Hapi).
  split; [intros Hno; destruct Hset as [Hset|]; [unfold c in *; congruence|done]|]. unfold api. rewrite Hapi.
  cbn. unfold or_default. split; [intros Hj; by rewrite bool_decide_eq_false_2|].
  split; [intros Hj; by rewrite bool_decide_eq_false_2|]. done.
Qed.

Lemma created_inv `{Crypto} U P name pw role u U' P' : auth_step U P (ACreate name pw role) (Ok (NUser (Some u))) U' P' →
  U' = <[ID u := u]> U ∧ Username u = name ∧ Role u = role ∧ has_password u pw.
Proof. inversion 1. by subst. Qed.

(** Opening a directory without users. *)
Lemma NewPersistentStore_empty `{AuthLaws} dir a a1 : no_failures →
  a_files a !! filepath_Join dir "auth.json" = None → NewPersistentStore dir a = (Ok (), a1) →
  auth_rep a1 ∅ ∅ ∧ ∀ name, usersByName (a_store a1) !! name = None.
Proof.
  intros [Hio _] Hfile Hload. assert (∃ p n, a1 = mkAuth (mkStore ∅ ∅ ∅ ∅ p) (a_files a) n) as (p & n & ->).
  { revert Hload. unfold NewPersistentStore. rewrite (bind_ok (modify _) _ _ () _ eq_refl). case_bool_decide; [intros [= <-]; by eexists _, _|].
    rewrite (bind_ok _ _ _ _ _ (turn_run _)), Hio. rewrite (bind_ok (modify _) _ _ () _ eq_refl). unfold load.
    rewrite (bind_ok get_state _ _ _ _ eq_refl). cbn [with_store a_store a_files a_turn path]. case_bool_decide; [intros [= <-]; by eexists _, _|].
    rewrite (bind_ok _ _ _ _ _ (turn_run _)), Hio, Hfile. intros [= <-]. by eexists _, _. }
  split; [|done]. split; [apply new_store_rep|]. intros k _. apply lookup_empty.
Qed.

(** The first boot: in a data directory without users, with no failing input or
    output, [main] leaves a store of exactly one user, the administrator of the settings,
    whose password is the given one and who can log in. *)
Theorem first_boot_has_one_admin `{AuthLaws} `{JWTLaws} `{ConfigRuntime} `{Runtime} `{ClusterRuntime} `{RemovalRuntime} `{RpcRuntime} `{HttpRuntime}
  f a run a' :
  main f a = (Ok run, a') → no_failures →
  let c := rn_config run in
  a_files a !! filepath_Join (DataDir c) "auth.json" = None →
  ∃ u, auth_rep a' {[ID u := u]} ∅ ∧ Username u = (admin_of c).1 ∧ IsAdmin u = true ∧ has_password u (admin_of c).2 ∧
    match (Login (ap_secret (rn_api run)) (admin_of c).1 (admin_of c).2 (ap_auth (rn_api run))).1 with
    | Ok (token, v) => v = u
    | Err e => ∃ e', e = "failed to generate token: " +:+ e'
    | _ => False
    end.
Proof.
  intros Hm Hio c Hfile. destruct (main_inv f a run a' Hm) as (_ & _ & _ & _ & Hboot & cl & Hapi). fold c in Hboot, Hapi.
  destruct Hboot as (a1 & n & Hload & Hens). destruct (NewPersistentStore_empty _ (mkAuth (a_store a) (a_files a) n) _ Hio Hfile Hload) as [Ha1 Hname].
  destruct Hens as [[_ Hsome]|[_ [u Hu]]]; [rewrite Hname in Hsome; by destruct Hsome|].
  destruct (create_step a1 ∅ ∅ (admin_of c).1 (admin_of c).2 RoleAdmin Ha1) as (r & a2 & U & Hr & Ha2 & Hst).
  rewrite Hu in Hr. injection Hr as <- <-. destruct (created_inv _ _ _ _ _ _ _ _ Hst) as (-> & Hun & Hrole & Hpass).
  rewrite insert_empty in Ha2. exists u. split; [done|]. split; [done|]. split; [unfold IsAdmin; by rewrite Hrole|]. split; [done|].
  rewrite Hapi. cbn [ap_secret ap_auth NewServer]. set (secret := or_default _ _).
  pose proof (Login_run secret (admin_of c).1 (admin_of c).2 a' _ _ Ha2) as Hl.
  destruct (Login _ _ _ a') as [[[token v]|e| |] a3]; cbn [fst]; [|destruct Hl as [[_ Hl]|(id & v & c' & e' & _ & _ & _ & _ & _ & Hl)]|done|done].
  - destruct Hl as ([id Hid] & _). by apply lookup_singleton_Some in Hid as [_ <-].
  - destruct Hpass as [Hpass _]. rewrite (Hl (ID u) u) in Hpass; [done|by rewrite lookup_singleton_eq|done].
  - by exists e'.
Qed.

(** ** Settings that never take effect *)

(** The flags have defaults that are not empty, so what they name is never taken from the
    file or from the environment: GOTHINKDB_DATA_DIR does nothing. *)
Lemma flag_defaults_win `{Crypto} `{AuthRuntime} `{ConfigRuntime} f a c a' :
  settings f a = (Ok c, a') → f = mkFlags (fl_config f) (fl_data default_flags) (fl_driver default_flags) (fl_http default_flags) (fl_cluster default_flags) "" "" →
  DataDir c = "/data/gothinkdb" ∧ DriverAddress c = ":28015" ∧ HTTPAddress c = ":8080" ∧ ClusterAddress c = ":29015".
Proof. intros (c0 & -> & _)%settings_inv ->. done. Qed.

(** When the file that was asked for cannot be read, the environment is not looked at. *)
Lemma unreadable_file_drops_environment `{Crypto} `{AuthRuntime} `{ConfigRuntime} file (files : gmap string (list byte)) n :
  file ≠ "" → files !! file = None ∨ unreadable file = true → Load file files n = DefaultConfig n.
Proof.
  intros Hne Hbad. unfold Load, DefaultConfig, turn, config_file. mrun. rewrite (bool_decide_eq_true_2 (file ≠ "")) by done.
  rewrite (bool_decide_eq_false_2 (file = "")) by done. destruct (files !! file) as [data|]; [|done]. by destruct Hbad as [Hf|Hf]; [|rewrite Hf].
Qed.
(** So [main] asks for a secret that the environment has. *)
Lemma unreadable_file_stops_main `{Crypto} `{AuthRuntime} `{ConfigRuntime} `{Runtime} `{JWT} `{ClusterRuntime} `{RemovalRuntime} `{RpcRuntime} `{HttpRuntime} f a :
  fl_config f ≠ "" → a_files a !! fl_config f = None ∨ unreadable (fl_config f) = true → ∀ run a', main f a ≠ (Ok run, a').
Proof.
  intros Hne Hbad run a' (( a0 & Hs) & _ & _ & Hset & _)%main_inv. apply settings_inv in Hs as (c0 & Hc & Hload & _).
  rewrite (unreadable_file_drops_environment _ _ _ Hne Hbad) in Hload. unfold DefaultConfig, turn in Hload. revert Hload. mrun. intros [= <- _].
  rewrite Hc in Hset. unfold secrets_set in Hset. cbn in Hset. by destruct Hset as [|(? & _)].
Qed.

(** ** An example

    A first boot with the settings in the environment. *)

#[local] Existing Instances example_crypto example_crypto_laws example_runtime example_auth_laws example_jwt example_jwt_laws
  example_cluster_runtime example_removal_runtime example_rpc example_http.
#[local] Instance example_environment : ConfigRuntime := {
  Getenv name := default "" (list_to_map (M := gmap string string)
    [("GOTHINKDB_JWT_SECRET", "key"); ("GOTHINKDB_CLUSTER_SECRET", "ring"); ("GOTHINKDB_ADMIN_USER", "root"); ("GOTHINKDB_ADMIN_PASSWORD", "pw")] !! name);
  unreadable _ := false;
  unwritable _ := None;
  mkdir_fails _ := None;
  filepath_Dir p := p;
  listen_fails _ := None;
  config_text _ := [];
  config_decode _ c := (c, true);
}.
Definition empty_disk : AuthState := mkAuth NewStore ∅ 0.
Definition started : option (Running * AuthState) :=
  match main default_flags empty_disk with (Ok run, a') => Some (run, a') | _ => None end.
Lemma started_runs : is_Some started.
Proof. vm_compute. eexists. reflexivity. Qed.
Lemma started_is_main run a' : started = Some (run, a') → main default_flags empty_disk = (Ok run, a').
Proof. unfold started. destruct (main default_flags empty_disk) as [[r|e| |] a]; congruence. Qed.

Lemma startup_is_guarded_witness : ∃ run a', started = Some (run, a') ∧ ap_secret (rn_api run) = "key" ∧ ap_auth (rn_api run) = a'.
Proof.
  destruct started_runs as [[run a'] Hrun]. exists run, a'. split; [exact Hrun|].
  destruct (startup_is_guarded default_flags empty_disk run a' (started_is_main _ _ Hrun)) as (_ & Hj & _ & Ha & _).
  split; [|exact Ha]. assert (JWTSecret (rn_config run) = "key") as Hk.
  { assert ((λ r : Running * AuthState, JWTSecret (rn_config r.1)) <$> started = Some "key") as Hs by (vm_compute; reflexivity).
    rewrite Hrun in Hs. by injection Hs. }
  rewrite <- Hk. apply Hj. by rewrite Hk.
Defined.
Lemma first_boot_has_one_admin_witness : ∃ run a' u, started = Some (run, a') ∧ auth_rep a' {[ID u := u]} ∅ ∧ Username u = "root".
Proof.
  destruct started_runs as [[run a'] Hrun]. exists run, a'.
  destruct (first_boot_has_one_admin default_flags empty_disk run a' (started_is_main _ _ Hrun)) as (u & Ha & Hname & _).
  - split; [done|]. intros ps. by eexists.
  - apply lookup_empty.
  - exists u. split; [exact Hrun|]. split; [exact Ha|]. rewrite Hname.
    assert ((λ r : Running * AuthState, (admin_of (rn_config r.1)).1) <$> started = Some "root") as Hs by (vm_compute; reflexivity).
    rewrite Hrun in Hs. by injection Hs.
Defined.
