(* ===== verification/Cli.v ===== *)
(** * The command line client (cmd/gothinkdb-cli/main.go)

    A command is one request to the HTTP API, and its answer is printed or returned as
    an error.  The client is a computation over the server of [HttpApi] and the lines that
    it printed.  Parsing the command line (cobra) is not modelled: a command comes with
    its arguments and the values of its flags.  Texts of JSON, the parsing of URLs and
    the network are parameters. *)

From S2P Require Import Prelude Bytes Datum Parser Index Evaluator Sessions GoStrings Scram Auth Protocol Cluster Removal Rpc HttpApi HttpAccess Startup.
From Stdlib Require Import Ascii.

(** The global flags. *)
Record CliFlags := mkCli { apiURL : string; output : string }.
Inductive Command :=
| ServerInfo | ServerStats | ServerHealth
| DbList | DbCreate (name : string) | DbDrop (name : string)
| TableList (db : string) | TableCreate (name db : string) | TableDrop (name db : string)
| ClusterStatus | ClusterMembers
| Query (text : string).

(** [bad_url]: why a text is not a URL.  [locate]: the path, as it is escaped, and the
    parameter "db" with which a URL is requested, or why its server cannot be reached.
    [moved_to]: the path of the request that follows a redirection to a path.
    [embedded] and [file_server]: the files of the dashboard. *)
Class CliRuntime := {
  json_Unmarshal : string → outcome JSON;
  json_Marshal : JSON → outcome string;
  json_MarshalIndent : JSON → outcome string;
  body_text : Body → string;
  bad_url : string → option string;
  locate : string → outcome (string * string);
  moved_to : string → string;
  read_fails : string → option string;
  embedded : gmap string string;
  file_server : string → Z * string;
}.
(** A name that a URL keeps as it is: letters, digits and four marks. *)
Definition unreserved (c : ascii) : bool :=
  let n := nat_of_ascii c in
  bool_decide (48 ≤ n ≤ 57) || bool_decide (65 ≤ n ≤ 90) || bool_decide (97 ≤ n ≤ 122) || bool_decide (n ∈ [45; 46; 95; 126]).
Definition plain_name (s : string) : Prop := plain_segment s ∧ forallb unreserved (String.list_ascii_of_string s) = true.
(** Documented behaviour of net/url. *)
Class CliLaws `{CliRuntime} (base : string) := {
  url_path segs : Forall plain_name segs → segs ≠ [] → bad_url (base +:+ path_of segs) = None;
  url_db segs db : Forall plain_name segs → segs ≠ [] → plain_name db → bad_url (base +:+ path_of segs +:+ "?db=" +:+ db) = None;
  locate_path segs : Forall plain_name segs → segs ≠ [] → locate (base +:+ path_of segs) = Ok (path_of segs, "");
  locate_db segs db : Forall plain_name segs → segs ≠ [] → plain_name db →
    locate (base +:+ path_of segs +:+ "?db=" +:+ db) = Ok (path_of segs, db);
}.

Section cli.
Context `{Runtime} `{Crypto} `{AuthRuntime} `{JWT} `{ClusterRuntime} `{RemovalRuntime} `{RpcRuntime} `{HttpRuntime} `{CliRuntime} (fuel : nat).
Context (flags : CliFlags).

Abbreviation Cli := (M (Api * list string)).
Definition println (line : string) : Cli unit := modify (λ s, (s.1, s.2 ++ [line])).

Definition handleResponse (StatusCode : Z) (body : string) : Cli unit :=
  match read_fails body with
  | Some e => fail ("failed to read response: " +:+ e)
  | None =>
      if bool_decide (400 ≤ StatusCode)%Z then fail ("API error (status " +:+ pretty StatusCode +:+ "): " +:+ body)
      else if bool_decide (output flags = "json") then println body
      else
        match json_Unmarshal body with
        | Ok data => prettyJSON ← wrap_err "failed to format JSON" (lift (json_MarshalIndent data)); println prettyJSON
        | _ => println body
        end
  end.

(** The server of the program: its paths are cleaned, those below /api/ are the API's and the others
    the dashboard's.  The connection is closed when a handler panics. *)
Definition serve (r : Request) : Cli (Response + Z * string) := λ s,
  let path := cleanPath (rq_EscapedPath r) in
  if bool_decide (path ≠ rq_EscapedPath r) && bool_decide (rq_Method r ≠ "CONNECT") then (Ok (inl (RespMoved path)), s)
  else if matches (segments_of r) "/api/" then
    let '(resp, a) := ServeHTTP fuel r s.1 in
    (match resp with Ok resp => Ok (inl resp) | Err e => Err e | Panic => Err "EOF" | NoFuel => NoFuel end, (a, s.2))
  else (Ok (inr (spaHandler embedded file_server (URL_Path r))), s).
(** [http.Client.Do], which follows redirections; a request that follows one is a GET
    without a body. *)
Fixpoint http_do (redirects : nat) (r : Request) : Cli (Z * string) :=
  resp ← serve r;
  match resp with
  | inl (RespJSON status body) => mret (status, body_text body)
  | inl RespNoRoute => mret (StatusNotFound, "404 page not found")
  | inl (RespMoved path) =>
      match redirects with
      | 0 => fail "stopped after 10 redirects"
      | S n => http_do n (mkReq MethodGet (moved_to path) (rq_db r) "" [])
      end
  | inr page => mret page
  end.
(** No header is set but the type of the content.  The method and the URL, which
    net/http puts into its errors, are left out. *)
Definition request (method url body : string) : Cli (Z * string) :=
  '(p, db) ← lift (locate url); http_do 9 (mkReq method p db "" (bytes_of_string body)).
Definition checked (url : string) : Cli unit := match bad_url url with Some e => fail e | None => mret () end.

Definition doGet (path : string) : Cli unit :=
  '(status, body) ← wrap_err "request failed" (checked (apiURL flags +:+ path);; request MethodGet (apiURL flags +:+ path) "");
  handleResponse status body.
Definition doPost (path : string) (data : option JSON) : Cli unit :=
  jsonData ← (match data with Some data => wrap_err "failed to marshal data" (lift (json_Marshal data)) | None => mret "" end);
  '(status, body) ← wrap_err "request failed" (checked (apiURL flags +:+ path);; request MethodPost (apiURL flags +:+ path) jsonData);
  handleResponse status body.
Definition doDelete (path : string) : Cli unit :=
  wrap_err "failed to create request" (checked (apiURL flags +:+ path));;
  '(status, body) ← wrap_err "request failed" (request MethodDelete (apiURL flags +:+ path) "");
  handleResponse status body.

Definition serverCmd (c : Command) : option (Cli unit) :=
  match c with
  | ServerInfo => Some (doGet "/api/server/info")
  | ServerStats => Some (doGet "/api/server/stats")
  | ServerHealth => Some (doGet "/api/health")
  | _ => None
  end.
Definition databaseCmd (c : Command) : option (Cli unit) :=
  match c with
  | DbList => Some (doGet "/api/databases")
  | DbCreate name => Some (doPost "/api/databases" (Some (JObj [("name", JStr name)])))
  | DbDrop name => Some (doDelete ("/api/databases/" +:+ name))
  | _ => None
  end.
Definition tableCmd (c : Command) : option (Cli unit) :=
  match c with
  | TableList db => Some (doGet ("/api/tables?db=" +:+ db))
  | TableCreate name db => Some (doPost ("/api/tables/" +:+ name +:+ "?db=" +:+ db) None)
  | TableDrop name db => Some (doDelete ("/api/tables/" +:+ name +:+ "?db=" +:+ db))
  | _ => None
  end.
Definition clusterCmd (c : Command) : option (Cli unit) :=
  match c with
  | ClusterStatus => Some (doGet "/api/cluster/status")
  | ClusterMembers => Some (doGet "/api/cluster/members")
  | _ => None
  end.
Definition queryCmd (c : Command) : option (Cli unit) :=
  match c with
  | Query text => Some (query ← wrap_err "invalid JSON" (lift (json_Unmarshal text)); doPost "/api/query" (Some (JObj [("query", query)])))
  | _ => None
  end.
(** [main]: the command that was named. *)
Definition run_command (c : Command) : Cli unit :=
  match serverCmd c with Some m => m | None =>
  match databaseCmd c with Some m => m | None =>
  match tableCmd c with Some m => m | None =>
  match clusterCmd c with Some m => m | None =>
  match queryCmd c with Some m => m | None => mret () end end end end end.
End cli.

(** ** No command is let in *)

Section refused.
Context `{RuntimeLaws} `{Crypto} `{AuthRuntime} `{JWT} `{ClusterRuntime} `{RemovalRuntime} `{RpcRuntime} `{HttpRuntime} (fuel : nat).
Context `{CliRuntime} (flags : CliFlags) `{!CliLaws (apiURL flags)}.
Ltac plain := repeat first [apply Forall_nil_2|apply Forall_cons_2; [split; [repeat split; discriminate|vm_compute; reflexivity]|]].
Implicit Types (s : Api * list string) (segs : list string).

Definition unauthorized : string := body_text (BError "authorization token required").
Definition refusal : string := "API error (status 401): " +:+ unauthorized.

Lemma no_token h method p db body (a : Api) :
  authMiddleware h (mkReq method p db "" body) a = (Ok (RespJSON StatusUnauthorized (BError "authorization token required")), a).
Proof. reflexivity. Qed.

(** The segments lead to a handler behind the middleware. *)
Definition guarded segs : Prop :=
  ∀ r, at_path r segs → ∃ h, ∀ a, ServeHTTP fuel r a = authMiddleware h r a.
Lemma names_plain segs : Forall plain_name segs → Forall plain_segment segs.
Proof. intros Hs. eapply Forall_impl; [exact Hs|]. by intros x [? _]. Qed.
Definition api_path segs : Prop := Forall plain_name segs ∧ (∃ x rest, segs = "api" :: x :: rest) ∧ guarded segs.

Lemma path_is_api r x rest : at_path r ("api" :: x :: rest) →
  cleanPath (rq_EscapedPath r) = rq_EscapedPath r ∧ matches (segments_of r) "/api/" = true.
Proof.
  intros Hr. pose proof Hr as (Hp & Hne & Hs). split; [by rewrite Hp, cleanPath_path|]. rewrite (at_path_segments r _ Hr).
  apply (below_matches _ "/api/" _ eq_refl eq_refl); [reflexivity|vm_compute; lia].
Qed.

Lemma http_do_refused segs method db body n s : api_path segs →
  http_do fuel n (mkReq method (path_of segs) db "" body) s = (Ok (StatusUnauthorized, unauthorized), s).
Proof.
  intros (Hs & (x & rest & ->) & Hg). set (r := mkReq method _ db "" body).
  assert (at_path r ("api" :: x :: rest)) as Hr by (split; [done|]; split; [done|by apply names_plain]).
  destruct (Hg r Hr) as [h Hh]. destruct (path_is_api r x rest Hr) as [Hclean Hm].
  assert (serve fuel r s = (Ok (inl (RespJSON StatusUnauthorized (BError "authorization token required"))), s)) as Hserve.
  { unfold serve. rewrite Hclean, Hm, Hh. rewrite bool_decide_eq_false_2 by tauto. cbn [andb]. unfold r. rewrite no_token. by destruct s. }
  destruct n; cbn [http_do]; by mstep Hserve.
Qed.
Lemma refused_response s : read_fails unauthorized = None → handleResponse flags StatusUnauthorized unauthorized s = (Err refusal, s).
Proof. intros Hr. unfold handleResponse. by rewrite Hr. Qed.

Lemma fixed_path segs p h : Forall plain_name segs →
  (∃ x rest, segs = "api" :: x :: rest) → find_route fuel ("" :: segs) = Some (p, authMiddleware h) → api_path segs.
Proof.
  intros Hs Hsegs Hf. split; [done|]. split; [done|]. intros r Hr. exists h. intros a. by rewrite (ServeHTTP_at fuel r segs _ _ Hr Hf).
Qed.
Lemma plain_api : Forall plain_name ["api"; "databases"] ∧ Forall plain_name ["api"; "tables"].
Proof. split; plain. Qed.
Lemma database_path name : plain_name name → api_path ["api"; "databases"; name].
Proof.
  intros Hn. split; [exact (proj2 (Forall_app _ _ [name]) (conj (proj1 plain_api) (Forall_cons_2 _ _ _ Hn (Forall_nil_2 _))))|].
  split; [eauto|]. intros r Hr. eexists. apply (route_databases fuel r _ _ Hr).
Qed.
Lemma table_path name : plain_name name → api_path ["api"; "tables"; name].
Proof.
  intros Hn. split; [exact (proj2 (Forall_app _ _ [name]) (conj (proj2 plain_api) (Forall_cons_2 _ _ _ Hn (Forall_nil_2 _))))|].
  split; [eauto|]. intros r Hr. eexists. apply (route_tables fuel r _ _ Hr).
Qed.

(** A request at a path, with or without a database. *)
Definition url_of segs (db : string) : string := path_of segs +:+ (if bool_decide (db = "") then "" else "?db=" +:+ db).
Lemma url_ok segs db : api_path segs → db = "" ∨ plain_name db →
  bad_url (apiURL flags +:+ url_of segs db) = None ∧ locate (apiURL flags +:+ url_of segs db) = Ok (path_of segs, db).
Proof.
  intros (Hs & (x & rest & ->) & _) Hdb. unfold url_of. destruct Hdb as [->|Hdb].
  - rewrite bool_decide_eq_true_2 by done. rewrite sapp_nil_r. split; [by apply url_path|by apply locate_path].
  - rewrite bool_decide_eq_false_2 by apply Hdb. split; [by apply url_db|by apply locate_db].
Qed.
Context (Hread : read_fails unauthorized = None).
Lemma request_refused segs db method body s : api_path segs → db = "" ∨ plain_name db →
  request fuel method (apiURL flags +:+ url_of segs db) body s = (Ok (StatusUnauthorized, unauthorized), s) ∧
  checked (apiURL flags +:+ url_of segs db) s = (Ok (), s).
Proof.
  intros Hp Hdb. destruct (url_ok segs db Hp Hdb) as [Hok Hloc]. unfold request, checked. rewrite Hok, Hloc. split; [|done].
  rewrite (bind_ok _ _ s (path_of segs, db) s) by done. by apply http_do_refused.
Qed.
Lemma get_refused segs db s : api_path segs → db = "" ∨ plain_name db → doGet fuel flags (url_of segs db) s = (Err refusal, s).
Proof.
  intros Hp Hdb. destruct (request_refused segs db MethodGet "" s Hp Hdb) as [Hr Hc]. unfold doGet.
  rewrite (bind_ok _ _ s (StatusUnauthorized, unauthorized) s); [by apply refused_response|]. apply wrap_err_ok. by mstep Hc.
Qed.
Lemma delete_refused segs db s : api_path segs → db = "" ∨ plain_name db → doDelete fuel flags (url_of segs db) s = (Err refusal, s).
Proof.
  intros Hp Hdb. destruct (request_refused segs db MethodDelete "" s Hp Hdb) as [Hr Hc]. unfold doDelete.
  rewrite (bind_ok _ _ s () s) by by apply wrap_err_ok.
  rewrite (bind_ok _ _ s (StatusUnauthorized, unauthorized) s); [by apply refused_response|]. by apply wrap_err_ok.
Qed.
Lemma post_refused segs db data text s : api_path segs → db = "" ∨ plain_name db →
  match data with Some d => json_Marshal d = Ok text | None => text = "" end →
  doPost fuel flags (url_of segs db) data s = (Err refusal, s).
Proof.
  intros Hp Hdb Hd. destruct (request_refused segs db MethodPost text s Hp Hdb) as [Hr Hc]. unfold doPost.
  rewrite (bind_ok _ _ s text s) by (destruct data; [unfold wrap_err, lift; by rewrite Hd|by subst]).
  rewrite (bind_ok _ _ s (StatusUnauthorized, unauthorized) s); [by apply refused_response|]. apply wrap_err_ok. by mstep Hc.
Qed.

Lemma url_with_db segs db : plain_name db → url_of segs db = path_of segs +:+ "?db=" +:+ db.
Proof. intros ((Hdb & _) & _). unfold url_of. by rewrite bool_decide_eq_false_2. Qed.
Lemma table_url name db : plain_name db → url_of ["api"; "tables"; name] db = "/api/tables/" +:+ name +:+ "?db=" +:+ db.
Proof. intros Hdb. rewrite url_with_db by done. unfold path_of. rewrite !concat_cons2. cbn [String.concat]. reflexivity. Qed.
Ltac fixed := eapply fixed_path; [plain|eauto|reflexivity].

(** A command whose names need no escape and whose body has a text. *)
Definition plain_command (c : Command) : Prop :=
  match c with
  | DbCreate name => ∃ text, json_Marshal (JObj [("name", JStr name)]) = Ok text
  | DbDrop name => plain_name name
  | TableList db => plain_name db
  | TableCreate name db | TableDrop name db => plain_name name ∧ plain_name db
  | Query text => ∃ query body, json_Unmarshal text = Ok query ∧ json_Marshal (JObj [("query", query)]) = Ok body
  | _ => True
  end.

(** The command line client cannot log in: it sends no token, so every command but
    the one that asks for the health of the server is refused by the API with status
    401.  It ends in that error, prints nothing and leaves the server as it was. *)
Theorem cli_is_refused c s : c ≠ ServerHealth → plain_command c → run_command fuel flags c s = (Err refusal, s).
Proof.
  intros Hc Hplain. destruct c as [| | | |name|name|db|name db|name db| | |text]; try done; 
    unfold run_command, serverCmd, databaseCmd, tableCmd, clusterCmd, queryCmd; cbn [plain_command] in Hplain.
  - apply (get_refused ["api"; "server"; "info"] ""); [fixed|by left].
  - apply (get_refused ["api"; "server"; "stats"] ""); [fixed|by left].
  - apply (get_refused ["api"; "databases"] ""); [fixed|by left].
  - destruct Hplain as [text Ht]. apply (post_refused ["api"; "databases"] "" _ text); [fixed|by left|done].
  - replace ("/api/databases/" +:+ name) with (url_of ["api"; "databases"; name] "").
    { apply delete_refused; [by apply database_path|by left]. }
    unfold url_of. rewrite bool_decide_eq_true_2, sapp_nil_r by done. reflexivity.
  - change ("/api/tables?db=" +:+ db) with (path_of ["api"; "tables"] +:+ "?db=" +:+ db). rewrite <- url_with_db by done. apply get_refused; [fixed|by right].
  - destruct Hplain as [Hn Hdb]. rewrite <- (table_url name db Hdb). by apply (post_refused _ _ None ""); [apply table_path|right|].
  - destruct Hplain as [Hn Hdb]. rewrite <- (table_url name db Hdb). by apply delete_refused; [apply table_path|right].
  - apply (get_refused ["api"; "cluster"; "status"] ""); [fixed|by left].
  - apply (get_refused ["api"; "cluster"; "members"] ""); [fixed|by left].
  - destruct Hplain as (q & body & Hq & Hb). rewrite (bind_ok _ _ s q s) by (unfold wrap_err, lift; by rewrite Hq).
    apply (post_refused ["api"; "query"] "" _ body); [fixed|by left|done].
Qed.
End refused.

(** ** An example *)

Lemma unreserved_free s : forallb unreserved (String.list_ascii_of_string s) = true → free_of "?" s = true.
Proof.
  induction s as [|c s IH]; [done|]. cbn. intros [Hc Hs]%andb_prop. rewrite IH by done. rewrite andb_true_r.
  destruct (bool_decide_reflect (c = "?"%char)) as [->|]; [vm_compute in Hc; discriminate|done].
Qed.
Lemma path_free segs : Forall plain_name segs → free_of "?" (path_of segs) = true.
Proof.
  intros Hs. unfold path_of. rewrite free_of_app. cbn [free_of]. rewrite andb_true_intro; [done|split; [done|]].
  induction Hs as [|x [|y l] [_ Hx%unreserved_free] Hs IH]; [done|done|].
  rewrite concat_cons2, free_of_app, Hx. cbn [free_of andb]. exact IH.
Qed.
#[local] Existing Instances example_crypto example_runtime example_jwt example_cluster_runtime example_removal_runtime example_rpc example_http.
Definition localhost : string := "http://localhost:8080".
#[local] Instance example_cli : CliRuntime := {
  json_Unmarshal t := Ok (JStr t);
  json_Marshal _ := Ok "{}";
  json_MarshalIndent _ := Ok "{}";
  body_text b := match b with BError msg => msg | _ => "" end;
  bad_url _ := None;
  locate url :=
    let rest := TrimPrefix url localhost in
    match str_Index rest "?db=" with
    | Some i => Ok (str_take i rest, str_drop (String.length "?db=") (str_drop i rest))
    | None => Ok (rest, "")
    end;
  moved_to p := p;
  read_fails _ := None;
  embedded := ∅;
  file_server _ := (200%Z, "");
}.
#[local] Instance example_cli_laws : CliLaws localhost.
Proof.
  split; [done|done| |].
  - intros segs Hs _. cbn [locate example_cli]. cbv zeta. rewrite TrimPrefix_app. by rewrite (str_Index_None "?" _ "db=" (path_free _ Hs)).
  - intros segs db Hs _ _. cbn [locate example_cli]. cbv zeta. rewrite TrimPrefix_app.
    rewrite (str_Index_app (path_of segs) "?" "db=" db (path_free _ Hs)), str_take_app, str_drop_app. by rewrite (str_drop_app "?db=").
Qed.

Lemma cli_is_refused_witness :
  run_command 5 (mkCli localhost "table") (TableDrop "users" "test") (example_api, []) =
  (Err "API error (status 401): authorization token required", (example_api, [])).
Proof.
  change "API error (status 401): authorization token required" with refusal. apply cli_is_refused.
  - exact (_ : CliLaws localhost).
  - reflexivity.
  - discriminate.
  - split; (split; [repeat split; discriminate|vm_compute; reflexivity]).
Defined.
(** The one command that is answered. *)
Lemma health_is_printed : (run_command 5 (mkCli localhost "json") ServerHealth (example_api, [])).1 = Ok ().
Proof. vm_compute. reflexivity. Qed.
