(* ===== verification/Joining.v ===== *)
(** * Joining a cluster over HTTP (internal/cluster/join.go, SendJoinRequest)

    A node asks the leader of a cluster to admit it: one request to the server of
    [HttpApi], whose handler hands it to [HandleJoinRequest] of [Cluster].  The texts of
    [encoding/json] and the network are parameters. *)

From S2P Require Import Transport.
From S2P Require Import Prelude Bytes Datum Parser Index Admin Evaluator Sessions GoStrings Scram Auth Protocol Cluster Removal Rpc HttpApi HttpAccess.

(** [post_fails]: why the server cannot be reached.  [join_text] is the text of a request,
    [join_reply] the value that the text of a response is decoded to. *)
Class JoinRuntime := {
  post_fails : string → option string;
  join_text : JoinRequest → list byte;
  join_reply : Response → outcome JoinResponse;
}.
(** A request is read as it was sent, except for bytes that are not text. *)
Class JoinLaws `{HttpRuntime} `{JoinRuntime} : Prop := {
  join_decode req : ascii_text (jr_Token req) → ascii_text (jr_NodeID req) → ascii_text (jr_Address req) →
    decode join_fields (join_text req) =
      Ok {["token" := FString (jr_Token req); "node_id" := FString (jr_NodeID req); "address" := FString (jr_Address req);
           "cluster_port" := FInt (jr_ClusterPort req); "http_port" := FInt (jr_HTTPPort req); "driver_port" := FInt (jr_DriverPort req)]};
  join_answer status resp : ∃ resp', join_reply (RespJSON status (BJoin resp)) = Ok resp' ∧ js_Success resp' = js_Success resp;
}.

Section join.
Context `{Runtime} `{Crypto} `{AuthRuntime} `{JWT} `{ClusterRuntime} `{RemovalRuntime} `{RpcRuntime} `{HttpRuntime} `{JoinRuntime} (fuel : nat).

(** The leader at the address is the state.  A handler that panics closes the connection. *)
Definition SendJoinRequest (leaderAddress : string) (req : JoinRequest) : M Api JoinResponse :=
  match post_fails leaderAddress with
  | Some e => fail ("failed to send join request: " +:+ e)
  | None => λ s,
      let '(resp, s') := ServeHTTP fuel (mkReq MethodPost "/api/cluster/join" "" "" (join_text req)) s in
      match resp with
      | Ok resp => wrap_err "failed to decode response" (lift (join_reply resp)) s'
      | Err e => (Err ("failed to send join request: " +:+ e), s')
      | Panic => (Err "failed to send join request: EOF", s')
      | NoFuel => (NoFuel, s')
      end
  end.
End join.

(** ** The leader takes a step of the specification *)

(** The request as the handler passes it on: ports that are not given get a default. *)
Definition with_ports (req : JoinRequest) : JoinRequest :=
  mkJoin (jr_Token req) (jr_NodeID req) (jr_Address req)
    (or_port (jr_ClusterPort req) 29015) (or_port (jr_HTTPPort req) 8080) (or_port (jr_DriverPort req) 28015).
Definition complete (req : JoinRequest) : Prop :=
  (jr_Token req ≠ "" ∧ jr_NodeID req ≠ "" ∧ jr_Address req ≠ "") ∧
  ascii_text (jr_Token req) ∧ ascii_text (jr_NodeID req) ∧ ascii_text (jr_Address req).

Section joined.
Context `{Runtime} `{ClusterLaws} `{AuthRuntime} `{JWT} `{RemovalRuntime} `{RpcRuntime} `{JoinLaws} (fuel : nat).
Implicit Types (s : Api) (req : JoinRequest).

Lemma HandleJoin_step req m a : member_rep m a → ∃ resp m' a',
  HandleJoinRequest req m = (Ok resp, m') ∧ member_rep m' a' ∧
  member_step (time_Now (mb_turn m)) (time_Now (mb_turn m')) a (MJoin req) (Ok (Cluster.BJoin resp)) a'.
Proof.
  intros Hm. pose proof (join_sim req m a Hm) as Hsim. unfold simulates in Hsim. cbn [member_exec] in Hsim.
  unfold mbind, M_mbind, M_bind in Hsim. destruct (HandleJoinRequest req m) as [[resp|e| |] m']; destruct Hsim as (_ & a' & Hstep & Hm').
  - by exists resp, m', a'.
  - inversion Hstep; naive_solver.
  - inversion Hstep.
  - inversion Hstep.
Qed.

(** The handler, for a request that gives what it must. *)
Lemma handleClusterJoin_run req s : complete req →
  let '(r, y) := on_members (HandleJoinRequest (with_ports req)) (ap_system s) in
  handleClusterJoin (mkReq MethodPost "/api/cluster/join" "" "" (join_text req)) s =
    match r with
    | Ok resp => (Ok (RespJSON (if js_Success resp then StatusOK else StatusBadRequest) (BJoin resp)), set_ap_system y s)
    | Err e => (Ok (RespJSON StatusInternalServerError (BError e)), set_ap_system y s)
    | Panic => (Panic, set_ap_system y s)
    | NoFuel => (NoFuel, set_ap_system y s)
    end.
Proof.
  intros [(Htok & Hid & Haddr) (At & Ai & Aa)]. destruct (on_members _ _) as [r y] eqn:Hrun. unfold handleClusterJoin. cbn [rq_Method rq_Body].
  rewrite bool_decide_eq_false_2 by tauto. rewrite on_error_run. unfold lift. rewrite join_decode by done.
  set (fs := {["token" := _; _ := _; _ := _; _ := _; _ := _; _ := _]}).
  assert (f_string fs "token" = jr_Token req ∧ f_string fs "node_id" = jr_NodeID req ∧ f_string fs "address" = jr_Address req ∧
    f_int fs "cluster_port" = jr_ClusterPort req ∧ f_int fs "http_port" = jr_HTTPPort req ∧ f_int fs "driver_port" = jr_DriverPort req)
    as (-> & -> & -> & -> & -> & ->) by (by split_and!).
  rewrite bool_decide_eq_false_2 by naive_solver. rewrite on_error_run. unfold on_membership, on_system, zoom.
  fold (with_ports req). rewrite Hrun. by destruct r.
Qed.

End joined.

(** ** An example *)

#[local] Existing Instances example_crypto Scram.example_crypto_laws example_runtime example_jwt example_cluster_runtime
  Cluster.example_cluster_laws example_removal_runtime example_rpc.
Definition join_tuple (req : JoinRequest) : string * string * string * Z * Z * Z :=
  (jr_Token req, jr_NodeID req, jr_Address req, jr_ClusterPort req, jr_HTTPPort req, jr_DriverPort req).
#[local] Instance example_join_http : HttpRuntime := {
  decode _ body := parsed (λ '(t, n, a, p1, p2, p3), {["token" := FString t; "node_id" := FString n; "address" := FString a;
    "cluster_port" := FInt p1; "http_port" := FInt p2; "driver_port" := FInt p3]}) body;
  ParseDuration _ := None;
  format_time layout t := pretty t;
  duration_text d := pretty d;
  mem_alloc _ := 0%Z;
}.
#[local] Instance example_join_runtime : JoinRuntime := {
  post_fails _ := None;
  join_text req := example_bits (encode (join_tuple req));
  join_reply resp := match resp with RespJSON _ (BJoin resp) => Ok resp | _ => Err "EOF" end;
}.
#[local] Instance example_join_laws : JoinLaws.
Proof.
  split.
  - intros req _ _ _. by apply parsed_back.
  - intros status resp. by exists resp.
Qed.

(** A leader whose administrator has generated a token. *)
Definition with_token : Membership := (member_run [MGenerate "admin" 0] example_cluster).2.
Definition leader : Api := NewServer NewEvaluator None example_auth "key" (new_system with_token) None 0.
Definition newcomer : JoinRequest := mkJoin example_token "n1" "host" 0 0 0.

