(* ===== verification/Lifecycle.v ===== *)
(** * Starting and stopping (internal/rpc, internal/raft/raft.go, cmd/gothinkdb/main.go)

    The goroutines that run beside the requests: loops on a ticker ([Service]: the health
    monitor, a Raft node), the loop of the RPC server that accepts connections, and [main]
    after its start: waiting for a signal, then shutting down the servers of [Listening]
    and of the HTTP API.  A wait is a test ([Stop_returns]); whoever waits takes no step
    until it holds. *)

From S2P Require Import Prelude Bytes Datum Index Admin Evaluator Scram Auth Raft RaftCluster Listening Cluster Rpc.

(** ** Loops on a ticker *)

Section service.
Context {S E : Type} (body : E → M S unit).

(** [sv_loops] are the goroutines of the loop; [sv_quit] is whether [quit] is closed. *)
Record Service := mkService { sv_loops : nat; sv_quit : bool; sv_wg : Z; sv_state : S }.
Definition new_service (s : S) : Service := mkService 0 false 0 s.
Definition set_service_state (s : S) (v : Service) : Service := mkService (sv_loops v) (sv_quit v) (sv_wg v) s.

Definition service_Start : M Service unit :=
  modify (λ v, mkService (Datatypes.S (sv_loops v)) (sv_quit v) (sv_wg v + 1) (sv_state v)).
(** [Stop] until it waits.  A second call closes a closed channel. *)
Definition service_Stop_begin : M Service unit :=
  v ← get_state;
  if sv_quit v then panic else put_state (mkService (sv_loops v) true (sv_wg v) (sv_state v)).
Definition service_Stop_returns (v : Service) : bool := bool_decide (sv_wg v = 0%Z).
(** One turn of a loop: the ticker fires, or the closed channel is taken.  When both are
    ready [select] takes either. *)
Definition service_loop (tick : option E) : M Service unit :=
  v ← get_state;
  match sv_loops v, tick with
  | 0, _ => mret ()
  | _, Some e => zoom sv_state set_service_state (body e)
  | Datatypes.S loops, None =>
      if sv_quit v then put_state (mkService loops true (sv_wg v - 1) (sv_state v)) else mret ()
  end.

Inductive service_op := VStart | VStop | VTurn (tick : option E).
Definition service_step (op : service_op) (v : Service) : outcome unit * Service :=
  match op with
  | VStart => service_Start v
  | VStop => service_Stop_begin v
  | VTurn tick => service_loop tick v
  end.
Definition service_run (ops : list service_op) (v : Service) : Service := foldl (λ v op, (service_step op v).2) v ops.
End service.
Arguments Service S : clear implicits.
Arguments service_op E : clear implicits.

(** *** The health monitor of the process [k] *)

Section health_monitor.
Context `{Crypto} `{RpcRuntime} (k : string) (timeout : Z).

Definition HealthMonitor := Service Net.
Definition NewHealthMonitor (s : Net) : HealthMonitor := new_service s.
Definition HealthMonitor_Start : M HealthMonitor unit := service_Start.
Definition HealthMonitor_Stop : M HealthMonitor unit := service_Stop_begin.
Definition monitorLoop : option unit → M HealthMonitor unit := service_loop (λ _, checkHealth k timeout).
End health_monitor.

(** *** A node of a Raft cluster *)

Section raft.
Context {Cmd : Type} (id : string).

(** The body of [run]: a tick at a time, with the jitter of the election timeout. *)
Definition Raft_tick (e : Z * Z) : M (Cluster Cmd) unit :=
  modify (λ c, match c_nodes c !! id with Some r => tick id e.1 e.2 r c | None => c end).
Definition Raft_Start : M (Service (Cluster Cmd)) unit := service_Start.
Definition Raft_Stop : M (Service (Cluster Cmd)) unit := service_Stop_begin.
Definition Raft_run : option (Z * Z) → M (Service (Cluster Cmd)) unit := service_loop Raft_tick.
End raft.

(** ** The RPC server *)

(** As in [Listening], without the counters. *)
Record RpcLive := mkRpcLive {
  rl_address : string; rl_listener : option bool; rl_quit : bool; rl_loops : nat; rl_conns : gset nat; rl_next : nat; rl_wg : Z;
}.
Definition Rpc_NewServer (address : string) : RpcLive := mkRpcLive address None false 0 ∅ 0 0.
Definition Rpc_Start (listen : option string) : M RpcLive unit :=
  s ← get_state;
  match listen with
  | Some e => fail ("failed to listen on " +:+ rl_address s +:+ ": " +:+ e)
  | None =>
      put_state (mkRpcLive (rl_address s) (Some true) (rl_quit s) (S (rl_loops s)) (rl_conns s) (rl_next s) (rl_wg s + 1))
  end.
Definition Rpc_Stop_begin (close : option string) : M RpcLive unit :=
  s ← get_state;
  if rl_quit s then panic
  else
    put_state (mkRpcLive (rl_address s) (rl_listener s) true (rl_loops s) (rl_conns s) (rl_next s) (rl_wg s));;
    match rl_listener s with
    | None => mret ()
    | Some _ =>
        match close with
        | Some e => fail e
        | None => modify (λ s, mkRpcLive (rl_address s) (Some false) (rl_quit s) (rl_loops s) (rl_conns s) (rl_next s) (rl_wg s))
        end
    end.
Definition Rpc_Stop_returns (s : RpcLive) : bool := bool_decide (rl_wg s = 0%Z).
(** One turn of [acceptLoop]: a connection, an error after [Stop], or another error, which is
    logged. *)
Definition Rpc_acceptLoop (ok : bool) (s : RpcLive) : RpcLive :=
  match rl_loops s with
  | 0 => s
  | S loops =>
      if ok && bool_decide (rl_listener s = Some true) then
        mkRpcLive (rl_address s) (rl_listener s) (rl_quit s) (rl_loops s) ({[rl_next s]} ∪ rl_conns s) (S (rl_next s)) (rl_wg s + 1)
      else if rl_quit s then
        mkRpcLive (rl_address s) (rl_listener s) (rl_quit s) loops (rl_conns s) (rl_next s) (rl_wg s - 1)
      else s
  end.
(** [handleConnection] has returned: the peer has closed the connection, or a message could
    not be read, handled or answered. *)
Definition Rpc_connection_ends (c : nat) (s : RpcLive) : RpcLive :=
  if bool_decide (c ∈ rl_conns s) then
    mkRpcLive (rl_address s) (rl_listener s) (rl_quit s) (rl_loops s) (rl_conns s ∖ {[c]}) (rl_next s) (rl_wg s - 1)
  else s.
Definition rpc_live_step (op : live_op) (s : RpcLive) : RpcLive :=
  match op with
  | LStart listen => (Rpc_Start listen s).2
  | LStop close => (Rpc_Stop_begin close s).2
  | LAccept ok => Rpc_acceptLoop ok s
  | LEnd c => Rpc_connection_ends c s
  end.
Definition rpc_live_run (ops : list live_op) (s : RpcLive) : RpcLive := foldl (λ s op, rpc_live_step op s) s ops.

(** ** The end of [main] *)

(** What [main] waits for: a signal; the protocol server; the HTTP server; nothing more. *)
Inductive phase := MWaiting | MStopping | MShutting | MStopped.
#[export] Instance phase_eq_dec : EqDecision phase.
Proof. solve_decision. Defined.

(** [pr_signal]: the channel of signals, which holds one.  [pr_http]: whether the HTTP server
    listens; [pr_requests]: the requests it is answering.  [pr_late]: whether the 30 seconds
    of the shutdown are over. *)
Record Process := mkProcess {
  pr_phase : phase; pr_signal : bool; pr_live : Live; pr_http : bool; pr_requests : nat; pr_late : bool; pr_log : list string;
}.
(** The servers run ([Startup.main]); [http] is whether the HTTP server could listen. *)
Definition serving (addr : string) (http : bool) : Process :=
  mkProcess MWaiting false (Listening.Start None (Listening.NewServer addr)).2 http 0 false [].
Definition log_line (line : string) (p : Process) : Process :=
  mkProcess (pr_phase p) (pr_signal p) (pr_live p) (pr_http p) (pr_requests p) (pr_late p) (pr_log p ++ [line]).
Definition set_live (l : Live) (p : Process) : Process :=
  mkProcess (pr_phase p) (pr_signal p) l (pr_http p) (pr_requests p) (pr_late p) (pr_log p).
Definition set_phase (ph : phase) (p : Process) : Process :=
  mkProcess ph (pr_signal p) (pr_live p) (pr_http p) (pr_requests p) (pr_late p) (pr_log p).

(** [httpServer.Shutdown] closes the listener first. *)
Definition begin_shutdown (p : Process) : Process :=
  mkProcess MShutting (pr_signal p) (pr_live p) false (pr_requests p) false (pr_log p).
(** [main] goes on if it can; [close] is whether the protocol listener can be closed. *)
Definition main_step (close : option string) (p : Process) : Process :=
  match pr_phase p with
  | MWaiting =>
      if pr_signal p then
        let p := log_line "shutting down GoThinkDB..." p in
        let p := mkProcess MStopping false (pr_live p) (pr_http p) (pr_requests p) (pr_late p) (pr_log p) in
        match Stop_begin close (pr_live p) with
        | (Err e, l) => begin_shutdown (log_line ("protocol server shutdown error: " +:+ e) (set_live l p))
        | (_, l) => set_live l p
        end
      else p
  | MStopping => if Stop_returns (pr_live p) then begin_shutdown p else p
  | MShutting =>
      if bool_decide (pr_requests p = 0) then set_phase MStopped (log_line "GoThinkDB stopped" p)
      else if pr_late p then
        set_phase MStopped (log_line "GoThinkDB stopped" (log_line "HTTP server forced to shutdown: context deadline exceeded" p))
      else p
  | MStopped => p
  end.

(** What may happen: a signal, a step of [main], the end of the 30 seconds, a client connects
    or the accepting goroutine turns, a connection ends, an HTTP request begins or ends. *)
Inductive process_event :=
| PSignal | PMain (close : option string) | PLate | PAccept (ok : bool) | PEnd (c : nat) | PRequest | PAnswer.
Definition process_step (e : process_event) (p : Process) : Process :=
  if bool_decide (pr_phase p = MStopped) then p
  else
    match e with
    | PSignal => mkProcess (pr_phase p) true (pr_live p) (pr_http p) (pr_requests p) (pr_late p) (pr_log p)
    | PMain close => main_step close p
    | PLate => mkProcess (pr_phase p) (pr_signal p) (pr_live p) (pr_http p) (pr_requests p) true (pr_log p)
    | PAccept ok => set_live (acceptLoop ok (pr_live p)) p
    | PEnd c => set_live (connection_ends c (pr_live p)) p
    | PRequest => if pr_http p then mkProcess (pr_phase p) (pr_signal p) (pr_live p) true (S (pr_requests p)) (pr_late p) (pr_log p) else p
    | PAnswer => mkProcess (pr_phase p) (pr_signal p) (pr_live p) (pr_http p) (pred (pr_requests p)) (pr_late p) (pr_log p)
    end.
Definition process_run (es : list process_event) (p : Process) : Process := foldl (λ p e, process_step e p) p es.

(** ** What they guarantee *)

Section service.
Context {S E : Type} (body : E → M S unit).
Implicit Types (v : Service S).

Lemma service_wg ops : ∀ v, sv_wg v = Z.of_nat (sv_loops v) →
  sv_wg (service_run body ops v) = Z.of_nat (sv_loops (service_run body ops v)).
Proof.
  induction ops as [|op ops IH]; intros v Hv; [done|]. cbn [service_run foldl]. apply IH.
  destruct op as [| |tick]; cbn [service_step].
  - cbn. lia.
  - unfold service_Stop_begin. mrun. by destruct (sv_quit v).
  - unfold service_loop. mrun. destruct (sv_loops v) eqn:Hl; [cbn; lia|]. destruct tick as [e|].
    + unfold zoom. destruct (body e (sv_state v)). cbn. lia.
    + destruct (sv_quit v); cbn; lia.
Qed.
Lemma service_idle ops : ∀ v, sv_loops v = 0 → VStart ∉ ops → sv_state (service_run body ops v) = sv_state v.
Proof.
  induction ops as [|op ops IH]; intros v Hv Hin; [done|]. apply not_elem_of_cons in Hin as [Hop Hops]. cbn [service_run foldl].
  assert (sv_loops (service_step body op v).2 = 0 ∧ sv_state (service_step body op v).2 = sv_state v) as [H1 H2].
  { destruct op as [| |tick]; [done|..]; cbn [service_step].
    - unfold service_Stop_begin. mrun. by destruct (sv_quit v).
    - unfold service_loop. mrun. by rewrite Hv. }
  rewrite <- H2. by apply IH.
Qed.
Lemma service_ends v : sv_quit v = true → sv_wg v = Z.of_nat (sv_loops v) →
  let v' := service_run body (replicate (sv_loops v) (VTurn None)) v in
  service_Stop_returns v' = true ∧ sv_state v' = sv_state v.
Proof.
  remember (sv_loops v) as n eqn:Hn. revert v Hn. induction n as [|n IH]; intros v Hn Hq Hw.
  - cbn. split; [|done]. by apply bool_decide_eq_true.
  - cbn [replicate service_run foldl service_step]. unfold service_loop. mrun. rewrite <- Hn, Hq. cbn.
    refine (IH (mkService n true (sv_wg v - 1) (sv_state v)) eq_refl eq_refl _). cbn. lia.
Qed.

(** A loop on a ticker can be stopped: [Stop] returns exactly when no goroutine of the
    loop is left, which is so once each has taken the closed channel; from then on nothing
    changes unless it is started again.  Stopping twice panics. *)
Theorem service_stops (s : S) ops :
  let v := service_run body ops (new_service s) in
  (service_Stop_returns v = true ↔ sv_loops v = 0) ∧
  (sv_quit v = true → (service_Stop_begin v).1 = Panic ∧
     let v' := service_run body (replicate (sv_loops v) (VTurn None)) v in
     service_Stop_returns v' = true ∧ sv_state v' = sv_state v) ∧
  (service_Stop_returns v = true → ∀ more, VStart ∉ more → sv_state (service_run body more v) = sv_state v).
Proof.
  intros v. assert (sv_wg v = Z.of_nat (sv_loops v)) as Hw by (by apply service_wg).
  assert (service_Stop_returns v = true ↔ sv_loops v = 0) as Hret.
  { unfold service_Stop_returns. rewrite bool_decide_eq_true, Hw. lia. }
  split; [done|split].
  - intros Hq. split; [|by apply service_ends]. unfold service_Stop_begin. mrun. by rewrite Hq.
  - intros Hr more Hmore. apply service_idle; [|done]. by apply Hret.
Qed.
End service.

(** *** Servers *)

(** The RPC server lives as the protocol server does. *)
Definition forget (s : Live) : RpcLive :=
  mkRpcLive (lv_addr s) (lv_listener s) (lv_quit s) (lv_loops s) (lv_conns s) (lv_next s) (lv_wg s).
Lemma forget_step op s : rpc_live_step op (forget s) = forget (live_step op s).
Proof.
  destruct op as [listen|close|ok|c]; cbn [rpc_live_step live_step].
  - unfold Rpc_Start, Listening.Start. mrun. by destruct listen.
  - unfold Rpc_Stop_begin, Stop_begin. mrun. by destruct (lv_quit s), (lv_listener s), close.
  - unfold Rpc_acceptLoop, acceptLoop. cbn. destruct (lv_loops s); [done|]. destruct (_ && _); [done|]. by destruct (lv_quit s).
  - unfold Rpc_connection_ends, connection_ends. cbn. by case_bool_decide.
Qed.
Lemma forget_run ops : ∀ s, rpc_live_run ops (forget s) = forget (live_run ops s).
Proof.
  induction ops as [|op ops IH]; intros s; [done|]. cbn [rpc_live_run live_run foldl]. rewrite forget_step. apply IH.
Qed.

(** The RPC server stops as the protocol server does: [Stop] returns exactly when no
    goroutine is left, and waits as long as a node keeps its connection. *)
Theorem rpc_stop_waits_for_peers addr ops :
  let s := rpc_live_run ops (Rpc_NewServer addr) in
  (Rpc_Stop_returns s = true ↔ rl_loops s = 0 ∧ rl_conns s = ∅) ∧
  ∀ c more, c ∈ rl_conns s → LEnd c ∉ more → Rpc_Stop_returns (rpc_live_run more s) = false.
Proof.
  cbv zeta. change (Rpc_NewServer addr) with (forget (Listening.NewServer addr)). rewrite forget_run.
  assert (live_ok (live_run ops (Listening.NewServer addr))) as Hok by (apply live_run_ok; by split).
  split; [by apply Stop_returns_iff|]. intros c more Hc Hmore. rewrite forget_run. by apply (Stop_blocked c).
Qed.

(** *** The end of the program *)

Record process_ok (p : Process) : Prop := {
  po_live : live_ok (pr_live p);
  po_loops : lv_loops (pr_live p) ≤ 1;
  po_waiting : pr_phase p = MWaiting → lv_quit (pr_live p) = false ∧ lv_listener (pr_live p) = Some true;
  po_stopping : pr_phase p = MStopping → lv_quit (pr_live p) = true ∧ lv_listener (pr_live p) = Some false;
}.
Definition ending (p : Process) : Prop := pr_phase p = MShutting ∨ pr_phase p = MStopped.

Lemma ending_step e p : ending p → ending (process_step e p).
Proof.
  intros Hp. unfold process_step. case_bool_decide; [done|]. destruct Hp as [Hp|Hp]; [|done].
  destruct e; try (by left); [|cbn; destruct (pr_http p); by left].
  unfold main_step. rewrite Hp. case_bool_decide; [by right|]. destruct (pr_late p); [by right|by left].
Qed.
Lemma ending_run es p : ending p → ending (process_run es p).
Proof. revert p. induction es as [|e es IH]; intros p Hp; [done|]. by apply IH, ending_step. Qed.
Lemma ending_ends p : ending p → pr_phase (process_run [PLate; PMain None] p) = MStopped.
Proof.
  intros [Hp|Hp]; cbn [process_run foldl]; unfold process_step.
  - rewrite (bool_decide_eq_false_2 (pr_phase p = _)) by (by rewrite Hp). cbn [pr_phase]. rewrite bool_decide_eq_false_2 by (by rewrite Hp).
    unfold main_step. cbn. rewrite Hp. by case_bool_decide.
  - by rewrite !(bool_decide_eq_true_2 (pr_phase p = _)).
Qed.

Lemma main_step_ok close p : process_ok p → process_ok (main_step close p).
Proof.
  intros Hp. pose proof Hp as [Hl Hn Hw Hs]. unfold main_step. destruct (pr_phase p) eqn:Hph.
  - destruct (pr_signal p); [|done]. destruct (Hw eq_refl) as [Hq Hli].
    pose proof (live_step_ok (LStop close) (pr_live p) Hl) as Hl'. cbn [live_step] in Hl'.
    unfold Stop_begin in *. revert Hl'. mrun. rewrite Hq, Hli. destruct close; intros Hl'; split; cbn; try done.
  - destruct (Stop_returns (pr_live p)); [|done]. by split.
  - case_bool_decide; [by split|]. destruct (pr_late p); [by split|done].
  - done.
Qed.
Lemma set_live_ok l p : process_ok p → live_ok l → lv_loops l ≤ lv_loops (pr_live p) → lv_quit l = lv_quit (pr_live p) →
  lv_listener l = lv_listener (pr_live p) → process_ok (set_live l p).
Proof. intros [Hl Hn Hw Hs] Hl' Hle Hq Hli. split; cbn; [done|lia|by rewrite Hq, Hli..]. Qed.
Lemma acceptLoop_same ok l : lv_loops (acceptLoop ok l) ≤ lv_loops l ∧ lv_quit (acceptLoop ok l) = lv_quit l ∧
  lv_listener (acceptLoop ok l) = lv_listener l.
Proof.
  unfold acceptLoop. destruct (lv_loops l) as [|n] eqn:E; [by rewrite E|]. destruct (_ && _); [by rewrite <- E|].
  destruct (lv_quit l) eqn:Eq; [cbn; split; [lia|done]|by rewrite E].
Qed.
Lemma process_step_ok e p : process_ok p → process_ok (process_step e p).
Proof.
  intros Hp. unfold process_step. case_bool_decide; [done|]. destruct e as [|close| |ok|c| |].
  - by destruct Hp.
  - by apply main_step_ok.
  - by destruct Hp.
  - pose proof (live_step_ok (LAccept ok) _ (po_live _ Hp)) as Hl. cbn [live_step] in Hl.
    destruct (acceptLoop_same ok (pr_live p)) as (H1 & H2 & H3). by apply set_live_ok.
  - pose proof (live_step_ok (LEnd c) _ (po_live _ Hp)) as Hl. cbn [live_step] in Hl.
    apply set_live_ok; [done|done|..]; unfold connection_ends; by case_bool_decide.
  - destruct (pr_http p); [|done]. by destruct Hp.
  - by destruct Hp.
Qed.
Lemma process_run_ok es p : process_ok p → process_ok (process_run es p).
Proof. revert p. induction es as [|e es IH]; intros p Hp; [done|]. by apply IH, process_step_ok. Qed.
Lemma serving_ok addr http : process_ok (serving addr http).
Proof.
  split; [|by apply Nat.leb_le|done|done]. apply (live_step_ok (LStart None)). by split.
Qed.

(** While [main] waits for the protocol server and a client stays connected, nothing happens. *)
Lemma stopping_stays c es : ∀ p, process_ok p → pr_phase p = MStopping → c ∈ lv_conns (pr_live p) → PEnd c ∉ es →
  pr_phase (process_run es p) = MStopping ∧ pr_http (process_run es p) = pr_http p.
Proof.
  induction es as [|e es IH]; intros p Hp Hph Hc Hes; [done|]. apply not_elem_of_cons in Hes as [He Hes].
  change (process_run (e :: es) p) with (process_run es (process_step e p)).
  assert (pr_phase (process_step e p) = MStopping ∧ pr_http (process_step e p) = pr_http p ∧ c ∈ lv_conns (pr_live (process_step e p))) as (H1 & H2 & H3).
  { unfold process_step. rewrite bool_decide_eq_false_2 by (by rewrite Hph).
    destruct e as [|close| |ok|c'| |]; cbn; try done.
    - unfold main_step. rewrite Hph.
      assert (Stop_returns (pr_live p) = false) as Hst by (apply (Stop_blocked c []); [apply Hp|done|apply not_elem_of_nil]).
      by rewrite Hst.
    - split_and!; [done..|]. by apply (conn_stays (LAccept ok)).
    - split_and!; [done..|]. apply (conn_stays (LEnd c')); [|done]. by intros [= ->].
    - by destruct (pr_http p) eqn:Hh. }
  destruct (IH _ (process_step_ok e p Hp) H1 H3 Hes) as [-> ->]. done.
Qed.

(** The connections end, one after the other. *)
Lemma ends_drain cs : ∀ p, pr_phase p = MStopping → process_ok p →
  let p' := process_run (PEnd <$> cs) p in
  pr_phase p' = MStopping ∧ ∀ c, c ∈ lv_conns (pr_live p') → c ∈ lv_conns (pr_live p) ∧ c ∉ cs.
Proof.
  induction cs as [|c cs IH]; intros p Hph Hp; [split; [done|]; intros c Hc; split; [done|apply not_elem_of_nil]|].
  cbn [fmap list_fmap process_run foldl]. assert (process_step (PEnd c) p = set_live (connection_ends c (pr_live p)) p) as Hstep.
  { unfold process_step. by rewrite bool_decide_eq_false_2 by (by rewrite Hph). }
  pose proof (process_step_ok (PEnd c) p Hp) as Hp'. rewrite Hstep in *.
  destruct (IH (set_live (connection_ends c (pr_live p)) p) Hph Hp') as [Hph' Hcs]. split; [exact Hph'|].
  intros x [Hx Hn]%Hcs. cbn in Hx. unfold connection_ends in Hx. case_bool_decide as Hc; [cbn in Hx|]; set_solver.
Qed.
Lemma process_run_app es es' p : process_run (es ++ es') p = process_run es' (process_run es p).
Proof. apply foldl_app. Qed.

(** The events after which [main] has returned: every client leaves, the accepting
    goroutine sees the closed listener, and the 30 seconds pass. *)
Definition drained (p : Process) : list process_event :=
  PMain None :: (PEnd <$> elements (lv_conns (pr_live p))) ++ [PAccept false; PMain None; PLate; PMain None].

Lemma main_goes_on p : process_ok p → pr_signal p = true ∨ pr_phase p ≠ MWaiting →
  let p' := process_step (PMain None) p in
  ending p' ∨ pr_phase p' = MStopping ∧ lv_conns (pr_live p') = lv_conns (pr_live p).
Proof.
  intros Hp Hsig. unfold process_step. case_bool_decide as Hst; [left; by right|]. unfold main_step.
  destruct (pr_phase p) eqn:Hph; [| |left; case_bool_decide; [by right|]; destruct (pr_late p); [by right|by left]|done].
  - destruct Hsig as [->|]; [|done]. destruct (po_waiting _ Hp Hph) as [Hq Hli]. unfold Stop_begin. mrun. rewrite Hq, Hli. by right.
  - destruct (Stop_returns (pr_live p)); [left; by left|by right].
Qed.
Lemma stopping_ends p : pr_phase p = MStopping → process_ok p → lv_conns (pr_live p) = ∅ →
  ending (process_run [PAccept false; PMain None] p).
Proof.
  intros Hph [Hl Hn _ Hs] Hnil. destruct (Hs Hph) as [Hq Hli]. cbn [process_run foldl]. unfold process_step at 2.
  rewrite bool_decide_eq_false_2 by (by rewrite Hph). set (l := acceptLoop false (pr_live p)).
  assert (Stop_returns l = true) as Hret.
  { apply Stop_returns_iff; [apply (live_step_ok (LAccept false)), Hl|]. unfold l, acceptLoop.
    destruct (lv_loops (pr_live p)) eqn:E; [done|]. cbn [andb]. rewrite Hq. cbn. split; [lia|done]. }
  unfold process_step. rewrite bool_decide_eq_false_2 by (by cbn; rewrite Hph). unfold main_step. cbn [pr_phase set_live].
  rewrite Hph. change (pr_live (set_live l p)) with l. rewrite Hret. by left.
Qed.

(** C39: [main] comes to its end when the clients let it.  While [main] waits for the
    protocol server and a client of it stays connected, the program goes on, whatever
    else happens: further signals change nothing, the 30 seconds have not begun, and the
    HTTP server is not told to stop.  Once a signal has come, the program ends after all
    clients have left, whatever the HTTP server is doing. *)
Theorem shutdown_waits_for_clients addr http es :
  let p := process_run es (serving addr http) in
  (pr_phase p = MStopping → ∀ c more, c ∈ lv_conns (pr_live p) → PEnd c ∉ more →
     pr_phase (process_run more p) = MStopping ∧ pr_http (process_run more p) = pr_http p) ∧
  (pr_signal p = true ∨ pr_phase p ≠ MWaiting → pr_phase (process_run (drained p) p) = MStopped).
Proof.
  intros p. assert (process_ok p) as Hp by apply process_run_ok, serving_ok. split.
  { intros Hph c more. by apply stopping_stays. }
  intros Hsig. unfold drained. change (PMain None :: ?l) with ([PMain None] ++ l). rewrite process_run_app.
  set (p1 := process_run [PMain None] p).
  pose proof (main_goes_on p Hp Hsig) as Hp1. change (process_step (PMain None) p) with p1 in Hp1.
  change [PAccept false; PMain None; PLate; PMain None] with ([PAccept false; PMain None] ++ [PLate; PMain None]).
  rewrite (assoc_L (++)), process_run_app. apply ending_ends. rewrite process_run_app.
  destruct Hp1 as [Hend|[Hph Hcs]]; [by apply ending_run, ending_run|].
  assert (process_ok p1) as Hok1 by (by apply process_run_ok).
  destruct (ends_drain (elements (lv_conns (pr_live p))) p1 Hph Hok1) as [Hph2 Hcs2]. rewrite Hcs in Hcs2.
  apply stopping_ends; [done|by apply process_run_ok|]. apply leibniz_equiv, elem_of_equiv_empty.
  intros c [Hc Hn]%Hcs2. apply Hn. by apply elem_of_elements.
Qed.

(** A client is connected and a request is being answered when the signal comes. *)
Definition busy_events : list process_event := [PAccept true; PRequest; PSignal; PMain None].
Definition busy : Process := process_run busy_events (serving ":28015" true).
Lemma shutdown_waits_for_clients_witness :
  pr_phase (process_run [PSignal; PSignal; PLate; PAccept false; PMain None; PRequest] busy) = MStopping ∧
  pr_phase (process_run (drained busy) busy) = MStopped ∧
  pr_log (process_run (drained busy) busy) =
    ["shutting down GoThinkDB..."; "HTTP server forced to shutdown: context deadline exceeded"; "GoThinkDB stopped"].
Proof.
  destruct (shutdown_waits_for_clients ":28015" true busy_events) as [Hwait Hend]. split; [|split].
  - apply (Hwait eq_refl 0); [apply (bool_decide_unpack _); vm_compute; exact I|].
    rewrite !not_elem_of_cons. repeat split; try discriminate. apply not_elem_of_nil.
  - apply Hend. right. discriminate.
  - vm_compute. reflexivity.
Defined.

(** Stopping the health monitor twice panics, also after its loop has ended. *)
Lemma monitor_panics_on_second_stop `{Crypto} `{RpcRuntime} k timeout s :
  (HealthMonitor_Stop (service_run (λ _ : unit, checkHealth k timeout) [VStart; VStop; VTurn None] (NewHealthMonitor s))).1 = Panic.
Proof. reflexivity. Qed.
