(* ===== verification/Served.v ===== *)
(** * Clients of the database (internal/protocol over internal/reql)

    The whole way of a query: a client whose connection is authenticated writes frames,
    the server parses each, evaluates it in the session of the user and writes the
    answer.  What [Documents] says of the evaluator and [Protocol] of the server is put
    together: the client uses maps of JSON documents. *)

From S2P Require Import Prelude Bytes Order Datum Index Admin Evaluator Sessions Queries Documents GoStrings Scram Auth Protocol.

(** ** Answers as replies

    [ExecuteJSON] marshals the datum of an answer; the protocol server and the HTTP API
    each convert it with a [datumToInterface] of their own and leave marshalling to the
    response.  Without pseudo-types all three are the same. *)

Fixpoint reply_of (j : JSON) : Reply :=
  match j with
  | JNull => RNil
  | JBool b => RBool b
  | JNum f => RFloat f
  | JStr s => RStr s
  | JArr l => RArr (reply_of <$> l)
  | JObj kvs => RMap ((λ kv, (kv.1, reply_of kv.2)) <$> kvs)
  end.
(** No object is a pseudo-type. *)
Fixpoint clean (j : JSON) : bool :=
  match j with
  | JArr l => forallb clean l
  | JObj kvs => forallb (λ kv, negb (bool_decide (kv.1 = "$reql_type$")) && clean kv.2) kvs
  | _ => true
  end.

(** A conversion of datums without pseudo-types. *)
Record plain_conversion (h : Heap) (f : nat → Datum → outcome Reply) : Prop := {
  pc_null n : f (S n) DNull = Ok RNil;
  pc_bool n b : f (S n) (DBool b) = Ok (RBool b);
  pc_num n x : f (S n) (DNum x) = Ok (RFloat x);
  pc_str n x : f (S n) (DStr x) = Ok (RStr x);
  pc_array n l : f (S n) (DArray l) = (rs ← mapM (f n) l; Ok (RArr rs));
  pc_object n o obj : h_objs h !! o = Some obj →
    f (S n) (DObject o) = (kvs ← mapM (λ k, r ← f n (field_or_zero obj k); Ok (k, r)) (obj_Keys obj); Ok (RMap kvs));
}.
Lemma protocol_conversion h : plain_conversion h (datumToInterface h).
Proof. split; try done. intros n o obj Ho. cbn [datumToInterface]. by rewrite Ho. Qed.

Section replies.
Context (local_offset : Z → Z) (h : Heap) (Hok : heap_ok h) (convert : nat → Datum → outcome Reply) (Hconvert : plain_conversion h convert).
Abbreviation Marshal := (MarshalJSON local_offset h).

(** The datum is sent as the document. *)
Definition sent_as (n : nat) (d : Datum) (j : JSON) : Prop :=
  convert n d = Ok (reply_of j) ∧ plain (reply_of j) = true.
Definition sends (n : nat) : Prop := ∀ d j, Marshal n d = Ok j → clean j = true → sent_as n d j.

Lemma num_json_plain f j : num_json f = Ok j → j = JNum f ∧ plain (RFloat f) = true.
Proof. by destruct f as [|[]| |]; intros Hj; try done; injection Hj as <-. Qed.

Lemma reply_list n l : sends n → ∀ js, mapM (λ x, owrap marshal_datum_error (Marshal n x)) l = Ok js → forallb clean js = true →
  mapM (convert n) l = Ok (reply_of <$> js) ∧ forallb plain (reply_of <$> js) = true.
Proof.
  intros Hn. induction l as [|d l IH]; intros js; cbn [mapM].
  - by intros [= <-].
  - destruct (Marshal n d) as [j| | |] eqn:Hd; try done. cbn [owrap]. osteps.
    destruct (mapM (λ x, owrap _ (Marshal n x)) l) as [js'| | |]; try done. osteps. intros [= <-] [Hj Hjs]%andb_prop.
    destruct (Hn d j Hd Hj) as [-> Hp]. destruct (IH js' eq_refl Hjs) as [-> Hps]. split; [done|]. cbn. by rewrite Hp.
Qed.
Lemma reply_fields n obj ks : sends n → ∀ kvs, mapM (marshal_field local_offset h n obj) ks = Ok kvs → clean (JObj kvs) = true →
  mapM (λ k, r ← convert n (field_or_zero obj k); Ok (k, r)) ks = Ok ((λ kv, (kv.1, reply_of kv.2)) <$> kvs) ∧
  plain (RMap ((λ kv, (kv.1, reply_of kv.2)) <$> kvs)) = true.
Proof.
  intros Hn. induction ks as [|k ks IH]; intros kvs; cbn [mapM].
  - by intros [= <-].
  - change (marshal_field local_offset h n obj k) with (j ← owrap marshal_datum_error (Marshal n (field_or_zero obj k)); Ok (k, j)).
    destruct (Marshal n (field_or_zero obj k)) as [j| | |] eqn:Hd; try done. cbn [owrap]. osteps.
    destruct (mapM (marshal_field local_offset h n obj) ks) as [kvs'| | |]; try done. osteps.
    intros [= <-] [[_ Hj]%andb_prop Hkvs]%andb_prop. cbn in Hj.
    destruct (Hn _ j Hd Hj) as [-> Hp]. destruct (IH kvs' eq_refl Hkvs) as [Hr Hps]. osteps. rewrite Hr. split; [done|].
    cbn. rewrite Hp. exact Hps.
Qed.

Lemma marshal_sends n : sends n.
Proof.
  induction n as [|n IH]; [done|]. intros d j Hd Hj. destruct d as [| | |b|f|s|l|o|bs|t|g].
  - done.
  - done.
  - injection Hd as <-. split; [by apply (pc_null h)|done].
  - injection Hd as <-. split; [by apply (pc_bool h)|done].
  - apply num_json_plain in Hd as [-> Hp]. split; [by apply (pc_num h)|done].
  - injection Hd as <-. split; [by apply (pc_str h)|done].
  - rewrite marshal_array_eq in Hd. destruct (mapM _ l) as [js| | |] eqn:Hl; try done. injection Hd as <-.
    destruct (reply_list n l IH js Hl Hj) as [Hr Hp]. split; [|done]. by rewrite (pc_array h), Hr.
  - destruct (h_objs h !! o) as [obj|] eqn:Ho; [|cbn in Hd; by rewrite Ho in Hd]. rewrite (marshal_object_eq _ _ _ o obj Ho), owrap_Ok in Hd.
    destruct (mapM _ _) as [kvs| | |] eqn:Hk; try done. injection Hd as <-.
    assert (keys obj = sort_Strings (map_to_list (fields obj)).*1) as Hkeys by (by eapply obj_ok_keys, Hok).
    rewrite <- Hkeys in Hk. destruct (reply_fields n obj _ IH kvs Hk Hj) as [Hr Hp]. split; [|done].
    rewrite (pc_object h convert Hconvert n o obj Ho). unfold obj_Keys. by rewrite Hr.
  - by injection Hd as <-.
  - by injection Hd as <-.
  - cbn [MarshalJSON] in Hd. destruct (num_json _) as [x| | |], (num_json _) as [y| | |]; try done. by injection Hd as <-.
Qed.
End replies.

(** ** What clients store

    has no pseudo-types, and the tables do not outgrow the numbers of JSON. *)

Definition clean_doc (m : gmap string JSON) : Prop := m !! "$reql_type$" = None ∧ map_Forall (λ _ j, clean j = true) m.
Definition clean_tables (D : tables) : Prop := ∀ db tn id m, table_docs D db tn !! id = Some m → clean_doc m.
(** [k] more documents may come. *)
Definition room (db : string) (k : nat) (D : tables) : Prop := ∀ tn, (Z.of_nat (size (table_docs D db tn) + k) < 2 ^ 53)%Z.

Lemma json_ok_clean n : ∀ j, json_ok n j → clean j = true.
Proof.
  induction n as [|n IH]; [done|]. intros [| | | |l|kvs]; cbn; try done.
  - intros Hl. apply forallb_Forall. eapply Forall_impl; [exact Hl|exact IH].
  - intros (_ & _ & Hrt & Hkvs). apply forallb_Forall, Forall_forall. rewrite Forall_forall in Hkvs. intros [k j] Hin. apply andb_true_intro. split; [|apply IH, (Hkvs _ Hin)].
    apply negb_true_iff, bool_decide_eq_false_2. cbn. intros ->. apply Hrt, list_elem_of_fmap. by exists ("$reql_type$", j).
Qed.
Lemma doc_ok_clean n m : doc_ok n m → clean_doc m.
Proof. intros [Hrt Hm]. split; [done|]. intros k j Hj. by eapply json_ok_clean, Hm. Qed.
Lemma clean_JMap m : clean_doc m → clean (JMap m) = true.
Proof.
  intros [Hrt Hm]. apply forallb_Forall, Forall_forall. intros [k j] Hin%kvs_of_lookup. apply andb_true_intro. split; [|exact (Hm k j Hin)].
  apply negb_true_iff, bool_decide_eq_false_2. cbn. intros ->. congruence.
Qed.
Lemma clean_docs l : Forall clean_doc l → clean (JArr (JMap <$> l)) = true.
Proof. induction 1 as [|m l Hm Hl IH]; [done|]. cbn [clean fmap list_fmap forallb]. rewrite clean_JMap by done. exact IH. Qed.
Lemma clean_values D db tn ms : clean_tables D → ms ≡ₚ (map_to_list (table_docs D db tn)).*2 → Forall clean_doc ms.
Proof.
  intros HD ->. apply Forall_forall. intros m ([id m'] & -> & Hin%elem_of_map_to_list)%list_elem_of_fmap. by eapply HD.
Qed.

Lemma clean_table_insert D db tn T : clean_tables D → (∀ id m, T !! id = Some m → clean_doc m) → clean_tables (<[(db, tn) := T]> D).
Proof.
  intros HD HT db' tn' id m. destruct (decide ((db', tn') = (db, tn))) as [[= -> ->]|Hne].
  - rewrite table_docs_insert. apply HT.
  - rewrite table_docs_insert_ne by done. apply HD.
Qed.
Lemma spec_tables_clean `{Runtime} db q D : request_ok q → clean_tables D → clean_tables (spec_tables db q D).
Proof.
  intros Hq HD. destruct q as [tn m|tn id|tn|tn|tn|tn u|tn m|tn f]; try done; cbn [spec_tables]; apply clean_table_insert; try done;
    cbn in Hq; try apply doc_ok_clean in Hq; intros id m'.
  - intros [[_ <-]|[_ Hm]]%lookup_insert_Some; [|by eapply HD]. destruct Hq as [Hrt Hm]. split; [by rewrite lookup_insert_ne|].
    by apply map_Forall_insert_2.
  - rewrite lookup_fmap, fmap_Some. intros (m & Hm%HD & ->). destruct Hq as [Hrt Hu], Hm as [Hrt' Hm]. split; [by rewrite lookup_union, Hrt, Hrt'|].
    by apply map_Forall_union_2.
  - rewrite lookup_fmap, fmap_Some. by intros (_ & _ & ->).
Qed.

Lemma room_insert db k D tn T : room db (S k) D → size T ≤ S (size (table_docs D db tn)) → room db k (<[(db, tn) := T]> D).
Proof.
  intros HD HT tn'. pose proof (HD tn'). pose proof (HD tn). destruct (decide (tn' = tn)) as [->|Hne].
  - rewrite table_docs_insert. lia.
  - rewrite table_docs_insert_ne by congruence. lia.
Qed.
Lemma spec_tables_room db q k D : room db (S k) D → room db k (spec_tables db q D).
Proof.
  intros HD. destruct q; cbn [spec_tables]; try (intros tn'; pose proof (HD tn'); lia); apply room_insert; try done.
  - rewrite map_size_insert. destruct (_ !! _); cbn; lia.
  - rewrite map_size_empty. lia.
  - rewrite map_size_fmap. lia.
  - rewrite map_size_fmap. lia.
Qed.

Lemma count_json_ok n : (Z.of_nat n < 2 ^ 53)%Z → ∃ f, count_json n = Ok (JNum f).
Proof.
  intros Hn. unfold count_json. destruct (float_of_Z_finite (Z.of_nat n)) as [H1 H2]; [lia|].
  destruct (float_of_Z (Z.of_nat n)) as [| | |]; try done; eauto.
Qed.
(** Every request has an answer, and it is clean. *)
Lemma spec_answer_clean db q D r : clean_tables D → room db 0 D → spec_answer db q D r → ∃ j, r = Ok j ∧ clean j = true.
Proof.
  intros HD HR. destruct q as [tn m|tn id|tn|tn|tn|tn u|tn m|tn f]; cbn [spec_answer];
    try (destruct (count_json_ok (size (table_docs D db tn))) as [x Hx]; [specialize (HR tn); lia|]); unfold write_answer; try rewrite Hx.
  - intros ->. eauto.
  - intros ->. eexists. split; [done|]. destruct (table_docs D db tn !! id) as [m|] eqn:Hm; [|done]. by eapply clean_JMap, HD.
  - intros (l & -> & Hp). eexists. split; [done|]. apply clean_docs. by eapply clean_values.
  - intros ->. eauto.
  - intros ->. eauto.
  - intros ->. eauto.
  - intros ->. eauto.
  - intros (l & -> & Hp). eexists. split; [done|]. apply clean_docs. rewrite Hp.
    apply Forall_forall. intros m [_ Hm]%list_elem_of_filter. assert (Forall clean_doc (map_to_list (table_docs D db tn)).*2) as Hall by (by eapply clean_values).
    rewrite Forall_forall in Hall. by apply Hall.
Qed.

(** ** Serving requests *)

(** A query that is converted as the request is: numbers may be integers, as the parser of
    texts makes them, and the fields of a document may come in another order. *)
Definition asks `{Runtime} (v : GoVal) (q : request) : Prop :=
  (∃ l, v = VSlice l) ∧ ∀ h, FromInterface local_offset v h = FromInterface local_offset (of_json (to_json q)) h.
Lemma asks_json `{Runtime} q : asks (of_json (to_json q)) q.
Proof. split; [|done]. destruct q; by eexists. Qed.
(** The text of a query that starts the request. *)
Definition query_text `{Wire} `{Runtime} (text : list byte) (q : request) : Prop :=
  ∃ token v, unmarshal_query text = Ok (mkQuery token QueryStart v) ∧ asks v q.
(** The text of the response with the answer. *)
Definition answer_text `{Wire} (j : JSON) (data : list byte) : Prop :=
  Response_Marshal (NewSuccessAtomResponse (reply_of j)) = Ok data.
(** The user of the connection may read and write the database. *)
Definition may_read_write `{Render} (s : Server) (db : string) : Prop := ∃ a u,
  sv_auth s = Some a ∧ c_user (sv_conn s) = Some u ∧
  HasDatabaseAccess (ID u) db true false false false (a_store a) = true ∧
  HasDatabaseAccess (ID u) db false true false false (a_store a) = true.

Section serving.
Context `{WireLaws} `{RuntimeLaws} `{Crypto} `{AuthRuntime} (fuel : nat) (Hdepth : 3 ≤ value_fuel).

Lemma session_may_use s db : may_read_write s db → may_use (session_of s) db.
Proof.
  intros (a & u & Ha & Hu & Hr & Hw). unfold session_of, sessionContext. rewrite Ha, Hu. cbn [fmap option_fmap option_map].
  unfold may_use, authorize, WithSession, AuthorizerFromContext. case_bool_decide; cbn; by rewrite Hr, Hw.
Qed.

Lemma execute_Ok ctx n q w j w' : ExecuteJSON ctx n q w = (Ok j, w') →
  ∃ d, Evaluate ctx n (of_json q) w = (Ok d, w') ∧ MarshalJSON local_offset (w_heap w') value_fuel d = Ok j.
Proof.
  unfold ExecuteJSON. intros (d & w1 & Hev & Hm)%bind_inv_ok. exists d.
  rewrite (bind_ok get_heap _ w1 (w_heap w1) w1 eq_refl) in Hm. by injection Hm as Hm <-.
Qed.

Lemma asks_Evaluate ctx n v q w : asks v q → Evaluate ctx n v w = Evaluate ctx n (of_json (to_json q)) w.
Proof.
  intros [[l ->] Hv]. unfold Evaluate. destruct q; cbn [to_json of_json] in Hv |- *;
    unfold mbind, M_mbind, M_bind, wrap_err, on_heap, zoom; by rewrite Hv.
Qed.
(** Evaluating a request: its answer is clean, whatever converts it. *)
Lemma request_evaluated ctx v q w D : let db := resolveDB ctx "" w in
  asks v q → represents w D → may_use ctx db → clean_tables D → room db 0 D → request_ok q →
  ∃ d j w', Evaluate ctx (S (S fuel)) v w = (Ok d, w') ∧
    (∀ convert, plain_conversion (w_heap w') convert → convert value_fuel d = Ok (reply_of j)) ∧ plain (reply_of j) = true ∧ clean j = true ∧
    spec_answer db q D (Ok j) ∧ represents w' (spec_tables db q D) ∧ resolveDB ctx "" w' = db.
Proof.
  intros db Hv Hr Hctx HD HR Hq. rewrite (asks_Evaluate _ _ _ _ _ Hv). destruct (request_answered ctx Hdepth fuel q w D Hr Hctx Hq) as (Ha & Hr1 & Hdb). fold db in Ha, Hr1.
  destruct (ExecuteJSON ctx (S (S fuel)) (to_json q) w) as [r w'] eqn:He. cbn [fst snd] in Ha, Hr1, Hdb.
  destruct (spec_answer_clean db q D r HD HR Ha) as (j & -> & Hj). apply execute_Ok in He as (d & Hev & Hm).
  pose proof (λ convert Hc, marshal_sends local_offset (w_heap w') (wo_heap _ (rep_ok _ _ Hr1)) convert Hc _ _ _ Hm Hj) as Hsent.
  exists d, j, w'. split; [done|]. split; [intros; by apply Hsent|]. split; [apply (Hsent _ (protocol_conversion _))|].
  split_and!; [done..|]. unfold db, resolveDB. by rewrite Hdb.
Qed.

Lemma serve_request ctx q text w D : let db := resolveDB ctx "" w in
  represents w D → may_use ctx db → clean_tables D → room db 0 D → request_ok q → query_text text q →
  ∃ j data w', serve_one (S (S fuel)) ctx text w = (inl data, w') ∧ spec_answer db q D (Ok j) ∧ answer_text j data ∧
    represents w' (spec_tables db q D) ∧ resolveDB ctx "" w' = db.
Proof.
  intros db Hr Hctx HD HR Hq (token & v & Ht & Hv).
  destruct (request_evaluated ctx v q w D Hv Hr Hctx HD HR Hq) as (d & j & w' & Hev & Hd & Hp & _ & Ha & Hr' & Hdb).
  specialize (Hd _ (protocol_conversion _)).
  set (resp := NewSuccessAtomResponse (reply_of j)). destruct (marshal_plain (response_map resp)) as [data Hdata]; [cbn; by rewrite Hp|].
  exists j, data, w'. split; [|done]. unfold serve_one, ParseQuery. rewrite Ht. unfold respond. cbv zeta. cbn [q_Type].
  rewrite bool_decide_eq_true_2 by done.
  assert (HandleQuery (S (S fuel)) ctx (mkQuery token QueryStart v) w = (Ok resp, w')) as ->.
  { unfold HandleQuery, handleStart. cbv zeta. cbn [q_Type q_Query]. rewrite bool_decide_eq_true_2 by done.
    destruct Hv as [[l ->] _]. unfold catch. rewrite (bind_ok _ _ _ _ _ Hev). unfold get_heap. mrun. unfold lift. by rewrite Hd. }
  unfold text_of, Response_Marshal. by rewrite Hdata.
Qed.

Lemma serve_requests ctx qs texts : Forall2 query_text texts qs → ∀ w D, let db := resolveDB ctx "" w in
  represents w D → may_use ctx db → clean_tables D → room db (length qs) D → Forall request_ok qs →
  ∃ js datas w', serve (S (S fuel)) ctx texts w = (datas, None, w') ∧ spec_answers db qs D (Ok <$> js) ∧ Forall2 answer_text js datas ∧
    represents w' (spec_tables_all db qs D).
Proof.
  induction 1 as [|text q texts qs Ht Hts IH]; intros w D db Hr Hctx HD HR Hqs.
  - exists [], [], w. split_and!; [done|done|constructor|done].
  - apply Forall_cons in Hqs as [Hq Hqs].
    destruct (serve_request ctx q text w D Hr Hctx HD) as (j & data & w1 & Hone & Ha & Hdata & Hr1 & Hdb); [|done..|].
    { intros tn. specialize (HR tn). cbn [length] in HR. fold db. lia. }
    destruct (IH w1 (spec_tables db q D)) as (js & datas & w' & Hall & Has & Hdatas & Hr2); rewrite ?Hdb; fold db;
      [done|done|by apply spec_tables_clean|by apply spec_tables_room|done|].
    exists (j :: js), (data :: datas), w'. fold db in Ha. rewrite Hdb in Has, Hr2. fold db in Has, Hr2. split_and!; [|done|by constructor|done].
    cbn [serve]. by rewrite Hone, Hall.
Qed.
End serving.

(** A waiting server answers the requests that its client sends. *)
Lemma waiting_server_answers `{WireLaws} `{RuntimeLaws} `{Crypto} `{AuthRuntime} fuel s qs texts D :
  let db := resolveDB (session_of s) "" (sv_world s) in
  waiting s → may_read_write s db → 3 ≤ value_fuel →
  represents (sv_world s) D → clean_tables D → room db (length qs) D → Forall request_ok qs →
  Forall2 query_text texts qs → Forall (λ t, Z.of_nat (length t) ≤ max_query)%Z texts →
  concat (c_net (sv_conn s)) = concat (frame <$> texts) →
  let s' := server_run (S (S fuel)) (turns texts (sv_next s)) s in
  ∃ js datas, spec_answers db qs D (Ok <$> js) ∧ Forall2 answer_text js datas ∧
    c_out (sv_conn s') = c_out (sv_conn s) ++ concat (frame <$> datas) ∧
    (Forall (λ d, Z.of_nat (length d) < 2 ^ 32)%Z datas → read_frames (S (length datas)) (concat (frame <$> datas)) = Some datas) ∧
    waiting s' ∧ represents (sv_world s') (spec_tables_all db qs D).
Proof.
  intros db Hw Hu Hdepth Hr HD HR Hqs Hts Hlen Hc s'.
  destruct (serve_requests fuel Hdepth (session_of s) qs texts Hts (sv_world s) D Hr (session_may_use s db Hu) HD HR Hqs)
    as (js & datas & w' & Hserve & Has & Hdatas & Hr').
  destruct (serve_all (S (S fuel)) texts s [] datas w' Hw) as [Hw' Hww _ _ Ho _]; [by rewrite app_nil_r|done|done|].
  exists js, datas. split; [done|]. split; [done|]. split; [exact Ho|]. split; [intros Hd; apply read_frames_ok; [done|lia]|].
  split; [exact Hw'|]. unfold s'. by rewrite Hww.
Qed.

(** C1: a client uses the database, from its first byte to the last answer.  It follows
    the handshake, knows the password of a user who may read and write the database
    [test], and then sends any number of [INSERT], [GET], [GET_ALL], [COUNT], [DELETE],
    [UPDATE], [REPLACE] and [FILTER] requests as framed texts, cut as the network likes.
    After the handshake the server writes one frame for each, in order: the success
    response with the answer that maps of JSON documents give; it ends waiting for the
    next query, with tables that represent the maps that the requests leave. *)
Theorem client_uses_documents `{WireLaws} `{RuntimeLaws} `{CryptoLaws} `{AuthRuntime} fuel a u password name nonce turn m1 o1 w D qs texts :
  credentials (a_store a) u password name nonce m1 o1 →
  HasDatabaseAccess (ID u) "test" true false false false (a_store a) = true →
  HasDatabaseAccess (ID u) "test" false true false false (a_store a) = true →
  3 ≤ value_fuel → represents w D → clean_tables D → room "test" (length qs) D → Forall request_ok qs →
  Forall2 query_text texts qs → Forall (λ t, Z.of_nat (length t) ≤ max_query)%Z texts →
  ∃ scram, NewSCRAMServer (Some u) (client_bare name nonce) nonce turn = (Ok scram, S turn) ∧
  ∀ m2 o2 group1 group2 group3 queries, datum_text m2 o2 →
    o2 !! "authentication" = Some (JStr (client_final password (Salt u) (Iterations u) (client_bare name nonce) (ServerFirst scram) (combinedNonce scram))) →
    concat group1 = le_bytes 4 Version1_0 → concat group2 = m1 ++ [Byte.x00] → concat group3 = m2 ++ [Byte.x00] →
    concat queries = concat (frame <$> texts) →
    let s := handleConnection (group1 ++ group2 ++ group3 ++ queries) [] turn (Some a) w in
    let s' := server_run (S (S fuel)) (turns texts 0) s in
    ∃ js datas, spec_answers "test" qs D (Ok <$> js) ∧ Forall2 answer_text js datas ∧
      c_out (sv_conn s') = c_out (sv_conn s) ++ concat (frame <$> datas) ∧
      (Forall (λ d, Z.of_nat (length d) < 2 ^ 32)%Z datas → read_frames (S (length datas)) (concat (frame <$> datas)) = Some datas) ∧
      waiting s' ∧ represents (sv_world s') (spec_tables_all "test" qs D).
Proof.
  intros Hc Hread Hwrite Hdepth Hr HD HR Hqs Hts Hlen.
  destruct (honest_handshake (a_store a) u password name nonce turn m1 o1 Hc) as (scram & Hnew & Hrun). exists scram. split; [done|].
  intros m2 o2 group1 group2 group3 queries Hm2 Ho2 Hg1 Hg2 Hg3 Hqueries.
  destruct (Hrun m2 o2 group1 group2 group3 queries Hm2 Ho2 Hg1 Hg2 Hg3) as (h' & t1 & t2 & t3 & Hh & (pre & Hnet & Hpre) & (Hu & Hdb & Hfaults) & _).
  intros s s'. assert (s = new_server (Some a) w LoopRead (hs_conn h')) as Hs.
  { unfold s, handleConnection. cbn [fmap option_fmap option_map]. by rewrite Hh. }
  assert (resolveDB (session_of s) "" (sv_world s) = "test") as Htest.
  { unfold session_of, sessionContext. rewrite Hs. cbn [new_server sv_auth sv_conn sv_world fmap option_fmap option_map]. by rewrite Hu, Hdb. }
  unfold s'. clear s'. clearbody s. subst s. symmetry in Hpre. apply app_nil in Hpre as [_ Hpre].
  destruct (waiting_server_answers fuel (new_server (Some a) w LoopRead (hs_conn h')) qs texts D) as (js & datas & Hall); rewrite ?Htest; try done.
  - by exists a, u.
  - cbn [new_server sv_conn]. by rewrite Hnet, concat_app, Hpre.
  - exists js, datas. by rewrite Htest in Hall.
Qed.

(** ** A run *)

#[local] Existing Instances example_wire example_wire_laws Scram.example_crypto Scram.example_crypto_laws Auth.example_runtime.

(** Whole numbers are written without a fraction. *)
Fixpoint as_written (j : JSON) : Reply :=
  match j with
  | JNum f => RInt (int_of_float f)
  | JArr l => RArr (as_written <$> l)
  | JObj kvs => RMap ((λ kv, (kv.1, as_written kv.2)) <$> kvs)
  | _ => reply_of j
  end.
Definition example_text (token : Z) (q : request) : list byte :=
  bytes_of_string (reply_text (RMap [("token", RInt token); ("type", RInt 1); ("query", as_written (to_json q))])).
Definition client_requests : list request :=
  [RInsert "users" {["id" := JStr "u1"; "age" := jnum 30]}; RInsert "users" {["age" := jnum 7]};
   RUpdate "users" {["role" := JStr "guest"]}; RGet "users" "auto_2"; RFilter "users" {["id" := "u1"]}; RCount "users"].
Lemma clean_none : clean_tables ∅.
Proof. intros db tn id m. unfold table_docs. by rewrite !lookup_empty. Qed.
Lemma room_none db : room db (length client_requests) ∅.
Proof. intros tn. unfold table_docs. rewrite lookup_empty. reflexivity. Qed.
Definition client_texts : list (list byte) := imap (λ i q, example_text (Z.of_nat i) q) client_requests.
(** After Ann's handshake; the network cuts her queries in two. *)
Definition client_frames : list (list byte) :=
  let bytes := concat (frame <$> client_texts) in [take 7 bytes; drop 7 bytes].

Lemma client_uses_documents_witness :
  let s := handleConnection ((example_groups !!! 0) ++ (example_groups !!! 1) ++ (example_groups !!! 2) ++ client_frames) [] 7 (Some example_auth_state) NewEvaluator in
  let s' := server_run 3 (turns client_texts 0) s in
  (fst <$> map_to_list (docs (sv_world s') "test" "users")) = ["u1"; "auto_2"] ∧
  ∃ js datas, spec_answers "test" client_requests ∅ (Ok <$> js) ∧ Forall2 answer_text js datas ∧
    c_out (sv_conn s') = c_out (sv_conn s) ++ concat (frame <$> datas) ∧
    (Forall (λ d, Z.of_nat (length d) < 2 ^ 32)%Z datas → read_frames (S (length datas)) (concat (frame <$> datas)) = Some datas) ∧
    waiting s' ∧ represents (sv_world s') (spec_tables_all "test" client_requests ∅).
Proof.
  cbv zeta. split; [vm_compute; reflexivity|].
  destruct (client_uses_documents 1 example_auth_state ann "pw" "ann" "xyz" 7 datum1 (doc_of datum1) NewEvaluator ∅ client_requests client_texts)
    as (scram & Hnew & Hrun).
  - exact ann_credentials.
  - vm_compute. reflexivity.
  - vm_compute. reflexivity.
  - refine (bool_decide_unpack _ _). vm_compute. exact I.
  - apply NewEvaluator_represents.
  - exact clean_none.
  - exact (room_none "test").
  - repeat apply Forall_cons_2; [..|constructor]; cbn [request_ok]; try exact I; check_doc.
  - repeat (apply Forall2_cons_2; [do 2 eexists; split; [vm_compute; reflexivity|split; [eexists; reflexivity|intros h; reflexivity]]|]). constructor.
  - refine (bool_decide_unpack _ _). vm_compute. exact I.
  - assert (scram = example_scram) as -> by (unfold example_scram; by rewrite Hnew).
    apply (Hrun datum2 (doc_of datum2) (example_groups !!! 0) (example_groups !!! 1) (example_groups !!! 2) client_frames).
    + apply example_datum_text; [refine (bool_decide_unpack _ _); vm_compute; exact I..|vm_compute; reflexivity].
    + vm_compute. reflexivity.
    + vm_compute. reflexivity.
    + vm_compute. reflexivity.
    + vm_compute. reflexivity.
    + vm_compute. reflexivity.
Defined.
