(* ===== verification/HttpServed.v ===== *)
(** * Clients of the database over HTTP (internal/api over internal/reql)

    As [Served], for requests to /api/query with the token of a user who has logged in:
    the multiplexer, the middleware that looks up the user, the handler and the evaluator
    put together. *)

From S2P Require Import Prelude Bytes Order Datum Index Admin Evaluator Sessions Queries Documents Parser GoStrings Scram Auth Protocol Cluster Removal Rpc HttpApi HttpAccess Served.

Lemma api_conversion h : plain_conversion h (HttpApi.datumToInterface h).
Proof. split; try done. intros n o obj Ho. cbn [HttpApi.datumToInterface]. by rewrite Ho. Qed.
(** A clean answer is not taken for a reference to a table. *)
Lemma resolve_clean `{Runtime} j w : clean j = true → resolve_result (reply_of j) w = (Ok (reply_of j), w).
Proof.
  destruct j as [| | | | |kvs]; try done. intros Hj. unfold resolve_result. cbn [reply_of].
  rewrite bool_decide_eq_false_2; [done|]. unfold reply_string.
  destruct (list_find _ _) as [[i [k r]]|] eqn:Hf; [|done]. apply list_find_Some in Hf as (Hi & Hk & _). cbn in Hk. subst k.
  apply list_elem_of_lookup_2, list_elem_of_fmap in Hi as ([k j] & [= <- ->] & Hin).
  apply forallb_Forall in Hj. rewrite Forall_forall in Hj. specialize (Hj _ Hin). apply andb_prop in Hj as [Hj _]. by apply negb_true_iff, bool_decide_eq_false in Hj.
Qed.

Section http.
Context `{RuntimeLaws} `{Crypto} `{AuthRuntime} `{JWT} `{ClusterRuntime} `{RemovalRuntime} `{RpcRuntime} `{HttpRuntime}.
Context (fuel : nat) (Hdepth : 3 ≤ value_fuel).
Implicit Types (s : Api) (D : tables).

(** The database of a query; without a name it is one that has nothing to do with the
    default of the sessions. *)
Definition requested_db (req : gmap string Field) : string :=
  if bool_decide (f_string req "db" = "") then "widgettrace" else f_string req "db".
(** A query is a JSON value, or a text in the query language. *)
Definition parsed_query (v : GoVal) : outcome GoVal := match v with VString text => ParseReQL text | _ => Ok v end.
(** A POST request to /api/query for the request [q] to the database [db]. *)
Definition query_request (db : string) (r : Request) (q : request) : Prop :=
  at_path r ["api"; "query"] ∧ rq_Method r = MethodPost ∧ ∃ req,
    decode [("query", KAny); ("db", KString)] (rq_Body r) = Ok req ∧
    requested_db req = db ∧ ∃ v, parsed_query (f_any req "query") = Ok v ∧ asks v q.
Definition success (j : JSON) : Response := RespJSON StatusOK (BValue (RMap [("status", RStr "success"); ("result", reply_of j)])).
(** The user is an administrator, or may read and write the database. *)
Definition may_access (u : User) (db : string) (st : Store) : Prop :=
  IsAdmin u = true ∨
  HasDatabaseAccess (ID u) db true false false false st = true ∧ HasDatabaseAccess (ID u) db false true false false st = true.

Lemma query_context_may_use u db st : may_access u db st → may_use (query_context (Some u) db st) db.
Proof.
  intros Hu. unfold query_context, is_plain_user. destruct (IsAdmin u) eqn:Ha.
  - apply may_use_all. unfold WithSession. by case_bool_decide.
  - destruct Hu as [|[Hr Hw]]; [congruence|]. unfold may_use, authorize, WithSession, AuthorizerFromContext. case_bool_decide; cbn; by rewrite Hr, Hw.
Qed.
Lemma query_context_db user db st w : db ≠ "" → resolveDB (query_context user db st) "" w = db.
Proof.
  intros Hdb. unfold query_context, resolveDB, WithSession, DefaultDBFromContext.
  rewrite (bool_decide_eq_false_2 ("" ≠ "")) by tauto.
  destruct (is_plain_user user); rewrite (bool_decide_eq_true_2 (db ≠ "")) by done; cbn; by rewrite bool_decide_eq_true_2 by done.
Qed.
Lemma requested_db_nonempty req : requested_db req ≠ "".
Proof. unfold requested_db. by case_bool_decide. Qed.

(** What a served query leaves of the rest of the server. *)
Definition same_access (s s' : Api) : Prop := ap_auth s' = next_auth (ap_auth s) ∧ ap_secret s' = ap_secret s.

Lemma http_request r q u db s D :
  query_request db r q → token_user r s = Some u → may_access u db (a_store (ap_auth s)) →
  represents (ap_world s) D → clean_tables D → room db 0 D → request_ok q →
  ∃ j s', ServeHTTP (S (S fuel)) r s = (Ok (success j), s') ∧ spec_answer db q D (Ok j) ∧
    represents (ap_world s') (spec_tables db q D) ∧ same_access s s'.
Proof.
  intros (Hpath & Hpost & req & Hdec & Hreq & v & Hany & Hv) Hu Hacc Hr HD HR Hq.
  rewrite (ServeHTTP_at (S (S fuel)) r _ "/api/query" (authMiddleware (handleQuery (S (S fuel)))) Hpath) by reflexivity.
  pose proof (authMiddleware_run (handleQuery (S (S fuel))) r s) as Hrun. rewrite Hu in Hrun. rewrite Hrun.
  unfold handleQuery. rewrite Hpost, bool_decide_eq_false_2 by tauto. rewrite on_error_run. unfold lift at 1. rewrite Hdec. cbv beta iota.
  fold (requested_db req). rewrite Hreq. assert (db ≠ "") as Hdb by (rewrite <- Hreq; apply requested_db_nonempty).
  set (s1 := (on_metrics RecordQuery (authed s)).2).
  rewrite (bind_ok (on_metrics RecordQuery) _ (authed s) () s1) by done.
  rewrite (bind_ok get_store _ s1 (a_store (ap_auth s)) s1) by done.
  set (ctx := query_context (Some u) db (a_store (ap_auth s))).
  assert (resolveDB ctx "" (ap_world s) = db) as Hctx by (by apply query_context_db).
  destruct (request_evaluated fuel Hdepth ctx v q (ap_world s) D Hv Hr) as (d & j & w' & Hev & Hd & _ & Hj & Ha & Hr' & _);
    rewrite ?Hctx; try done; [by apply query_context_may_use|]. rewrite Hctx in Ha, Hr'.
  cbv zeta. rewrite on_error_run. unfold lift at 1. fold (parsed_query (f_any req "query")). rewrite Hany.
  cbv beta iota. rewrite on_error_run. unfold on_world, zoom. change (ap_world s1) with (ap_world s).
  assert (run_query (S (S fuel)) ctx v (ap_world s) = (Ok (reply_of j), w')) as ->.
  { unfold run_query. rewrite (bind_ok _ _ _ _ _ Hev). rewrite (bind_ok get_heap _ w' (w_heap w') w') by done.
    rewrite (bind_ok (lift _) _ w' (reply_of j) w') by (unfold lift; by rewrite (Hd _ (api_conversion _))). by apply resolve_clean. }
  exists j, (set_ap_world w' s1). by split_and!.
Qed.

(** The requests one after the other. *)
Fixpoint serve_all_http (rs : list Request) (s : Api) : list (outcome Response) * Api :=
  match rs with
  | [] => ([], s)
  | r :: rs' =>
      let '(resp, s1) := ServeHTTP (S (S fuel)) r s in
      let '(resps, s2) := serve_all_http rs' s1 in (resp :: resps, s2)
  end.

(** The requests carry a token of the user that does not run out meanwhile. *)
Definition authenticated (u : User) (s : Api) (rs : list Request) : Prop :=
  ∀ r n, r ∈ rs → n < length rs → token_user r (set_ap_auth (Nat.iter n next_auth (ap_auth s)) s) = Some u.
Lemma authenticated_next u s s' r rs : same_access s s' → authenticated u s (r :: rs) → authenticated u s' rs.
Proof.
  intros [Ha Hs] Hrs r' n Hr Hn. specialize (Hrs r' (S n)). rewrite Nat.iter_succ_r in Hrs. unfold token_user in *. cbn in *.
  rewrite Ha, Hs. apply Hrs; [by right|lia].
Qed.
End http.

(** C4: a client uses the database over HTTP.  A user with a valid token, who is an
    administrator or may read and write the database that the requests name, posts any
    number of [INSERT], [GET], [GET_ALL], [COUNT], [DELETE], [UPDATE], [REPLACE] and
    [FILTER] requests to /api/query, as JSON or as text.  Each is answered with status 200 and the answer that
    maps of JSON documents give, and the tables represent the maps the requests leave. *)
Theorem http_client_uses_documents `{RuntimeLaws} `{Crypto} `{AuthRuntime} `{JWT} `{ClusterRuntime} `{RemovalRuntime} `{RpcRuntime} `{HttpRuntime}
    fuel rs qs u db s D : 3 ≤ value_fuel →
  Forall2 (query_request db) rs qs → authenticated u s rs → may_access u db (a_store (ap_auth s)) →
  represents (ap_world s) D → clean_tables D → room db (length qs) D → Forall request_ok qs →
  let '(resps, s') := serve_all_http fuel rs s in
  ∃ js, resps = (λ j, Ok (success j)) <$> js ∧ spec_answers db qs D (Ok <$> js) ∧ represents (ap_world s') (spec_tables_all db qs D).
Proof.
  intros Hdepth Hrs. revert s D. induction Hrs as [|r q rs qs Hrq Hrqs IH]; intros s D Hu Hacc Hr HD HR Hqs.
  - by exists [].
  - apply Forall_cons in Hqs as [Hq Hqs].
    assert (token_user r s = Some u) as Hu1.
    { specialize (Hu r 0). cbn in Hu. destruct s. apply Hu; [by left|lia]. }
    assert (room db 0 D) as HR0 by (intros tn; specialize (HR tn); cbn [length] in HR; lia).
    destruct (http_request fuel Hdepth r q u db s D Hrq Hu1 Hacc Hr HD HR0 Hq) as (j & s1 & Hone & Ha & Hr1 & Hs1).
    specialize (IH s1 (spec_tables db q D)). cbn [serve_all_http]. rewrite Hone. destruct (serve_all_http fuel rs s1) as [resps s2].
    destruct IH as (js & -> & Has & Hr2); [by eapply authenticated_next| |done|by apply spec_tables_clean|by apply spec_tables_room|done|].
    { destruct Hs1 as [-> _]. exact Hacc. }
    by exists (j :: js).
Qed.

(** ** A run *)

#[local] Existing Instances Scram.example_crypto Auth.example_runtime example_jwt example_cluster_runtime example_removal_runtime example_rpc.
#[local] Instance client_http : HttpRuntime := {
  decode _ body :=
    v ← ParseReQL (String.string_of_list_byte body);
    match v with
    | VMap kvs => Ok {["query" := FAny (default VNil (vmap_get "query" kvs));
                       "db" := FString match vmap_get "db" kvs with Some (VString name) => name | _ => "" end]}
    | _ => Err "not an object"
    end;
  ParseDuration _ := None;
  format_time layout t := pretty t;
  duration_text d := pretty d;
  mem_alloc _ := 0%Z;
}.
(** Ann logs in and posts her requests. *)
Definition ann_token : string * AuthState :=
  match Login "key" "ann" "pw" example_auth_state with (Ok (token, _), a) => (token, a) | (_, a) => ("", a) end.
Definition http_server : Api := NewServer NewEvaluator None ann_token.2 "key" (new_system example_cluster) None 0.
Definition http_text (q : request) : list byte := bytes_of_string (reply_text (RMap [("query", as_written (to_json q)); ("db", RStr "test")])).
Definition http_post (q : request) : Request := mkReq MethodPost "/api/query" "" ("Bearer " +:+ ann_token.1) (http_text q).
Definition http_posts : list Request := http_post <$> client_requests.
Lemma posted q :
  match decode [("query", KAny); ("db", KString)] (http_text q) with
  | Ok req => Some (requested_db req, parsed_query (f_any req "query"))
  | _ => None
  end = Some ("test", Ok (of_json (to_json q))) → query_request "test" (http_post q) q.
Proof.
  intros Hq. split; [|split; [done|]].
  - split; [reflexivity|]. split; [discriminate|]. apply plain_path. vm_compute. reflexivity.
  - cbn [rq_Body http_post]. destruct (decode _ _) as [req| | |]; [|done..]. injection Hq as Hdb Hv. exists req. split_and!; [done|done|].
    eexists. split; [exact Hv|]. by apply asks_json.
Qed.
Lemma posted_all : Forall2 (query_request "test") http_posts client_requests.
Proof. apply Forall2_fmap_l, Forall_Forall2_diag. unfold client_requests. repeat apply Forall_cons_2; [..|constructor]; apply posted; vm_compute; reflexivity. Qed.
(** A text of the query language asks the same. *)
Lemma text_asks : ∃ v, parsed_query (VString "r.table('users').get('u1')") = Ok v ∧ asks v (RGet "users" "u1").
Proof. eexists. split; [vm_compute; reflexivity|]. split; [eexists; reflexivity|]. by intros h. Qed.
Lemma http_client_uses_documents_witness :
  (fst <$> map_to_list (docs (ap_world (serve_all_http 1 http_posts http_server).2) "test" "users")) = ["u1"; "auto_2"] ∧
  let '(resps, s') := serve_all_http 1 http_posts http_server in
  ∃ js, resps = (λ j, Ok (success j)) <$> js ∧ spec_answers "test" client_requests ∅ (Ok <$> js) ∧
    represents (ap_world s') (spec_tables_all "test" client_requests ∅).
Proof.
  split; [vm_compute; reflexivity|].
  apply (http_client_uses_documents 1 http_posts client_requests ann "test" http_server ∅).
  - refine (bool_decide_unpack _ _). vm_compute. exact I.
  - exact posted_all.
  - intros r n Hr Hn. repeat (apply elem_of_cons in Hr as [->|Hr]; [do 6 (destruct n as [|n]; [vm_compute; reflexivity|]); cbn in Hn; lia|]).
    by apply elem_of_nil in Hr.
  - right. split; vm_compute; reflexivity.
  - apply NewEvaluator_represents.
  - exact clean_none.
  - exact (room_none "test").
  - repeat apply Forall_cons_2; [..|constructor]; cbn [request_ok]; try exact I; check_doc.
Defined.
